(* ===== verification/_CoqProject ===== *)
-Q . S2P
Prelude.v
Compression.v
Index.v
BTree.v
Partition.v
Table.v
Page.v
Mvcc.v
Locks.v
Crc32.v
Wal.v
Transaction.v
Joins.v
JoinMeaning.v
PageManager.v
PagedTable.v
DoubleWrite.v
Arith.v
Caches.v
Where.v
Select.v
Pool.v
Columns.v
Triggers.v
Mutation.v
Integrity.v
References.v
Sessions.v
Query.v
Rewriter.v
JoinOrder.v
Window.v
Catalog.v
QueryCache.v
Encryption.v
AtomicFile.v
Storage.v
Lexer.v
WhereParser.v
WhereSyntax.v
Statements.v
Effects.v
SelectParser.v
SelectSyntax.v
Projection.v
Queries.v
Csv.v
JoinParser.v
JoinQueries.v
