(* ===== verification/Prelude.v ===== *)
(** * A verification of MilanSQL's storage, transaction and query core

    MilanSQL is a SQL engine in C++ ([src/src]).  A statement reaches
    [dispatch.hpp], is parsed, and runs against [Engine] ([engine/engine.hpp]):
    tables of text rows with B-tree indices, sessions with buffered
    transactions, a write-ahead log, vacuum, and the SELECT machinery.  Beside
    the engine stand the page storage, compression, caches, locks, the pool.
    This library models those parts as executable functions and relations, and
    proves what they promise.

    ** Files, in dependency order, and the code they model

    - [Prelude]: bytes, strings as the source's [std::string] ([list Z]),
      fixed-width integers, the result type of code that throws ([result], [Ok],
      [Throw]), generic list lemmas, shared tactics.
    - [Compression] ([compression/]): the RLE, LZ4, dictionary and Zstd-like
      codecs behind the class [Lossless].
    - [Index]: the interface between a table and its indices (classes [RowIndex],
      [RowIndexSpec]).
    - [BTree] ([engine/btree.hpp]): insertion with splits, search, range search;
      instance of [RowIndexSpec].
    - [Partition] ([engine.hpp], [PartitionInfo]): routing and pruning.
    - [Table] ([engine.hpp], class [Table]): rows, MVCC stamps, schema,
      constraints, indices, vacuum.
    - [Page], [PageManager], [PagedTable] ([storage/]): the 8 KB page, the LRU
      page cache, tables on pages.
    - [Mvcc] ([mvcc/]): transaction numbers and vacuum bookkeeping.
    - [Locks] ([locking/lock_manager.hpp]): row and table locks.
    - [Crc32], [Wal] ([wal/wal_recovery.hpp], [Engine::appendWal]): the log, its
      reader and its replay.
    - [Transaction] ([engine.hpp]): BEGIN, COMMIT, ROLLBACK, savepoints over all
      of the above; the engine state used here brings the components together.
    - [Joins] ([executor/]): hash, merge and indexed nested-loop join, and
      [executeJoins].
    - [JoinMeaning]: what a chain of INNER joins means, without an order.
    - [DoubleWrite] ([wal/double_write_buffer.hpp]): torn-page protection as
      sequences of byte writes, cut where the process stops; a power failure,
      which may keep the writes in any order since the code syncs nothing, is a
      second model of the crash and a counterexample.
    - [Arith] ([milansql_arith]): the expression evaluator.
    - [Caches] ([cache/], and its use in [server/http_server.hpp]).
    - [Where] and [Select] ([engine.hpp]): conditions on rows; SELECT on one
      table along its four paths, inheritance, row-level security.
    - [Pool] ([pool/connection_pool.hpp]): the connection pool as interleaved
      steps of threads, among them a thread that is woken, gets the mutex only
      after its deadline and gives up; runs count these late wake-ups.
    - [Columns] ([engine.hpp]: [applyDefaults], [applyAutoInc],
      [checkAllConstraints] and neighbours): what happens to the values of a
      row before it is stored.
    - [Triggers] ([engine.hpp]: [fireAllTriggers], [executeTriggerBody]): the
      interpreter of row triggers.
    - [Mutation] ([engine.hpp]: [insertRow], [updateWhere], [deleteWhere] and
      their variants, [cascadeDelete]): the statements that change rows, as
      computations on the engine's state that may throw half way, with a
      weakest-precondition calculus for them.
    - [Integrity]: CHECK constraints as an invariant of all statements, and
      what escapes transactions, triggers and locks.
    - [References]: foreign keys; what INSERT does and leaves undone.
    - [Sessions]: the statements of [Mutation] run inside a transaction, and
      which of them ROLLBACK undoes.
    - [Query] ([engine.hpp]: [groupBy], [computeAggForGroup], [executeSetOp],
      [sortByMulti] and neighbours): from the rows of a query to its result.
    - [Rewriter] ([optimizer/query_rewriter.hpp]): the rules that drop conditions.
    - [JoinOrder] ([optimizer/join_enumerator.hpp], [cost_model.hpp],
      [executeJoins]): the planner that reorders a chain of joins.
    - [Window] ([engine.hpp], [applyWindowFunctions]): window functions.
    - [Catalog] ([engine.hpp]: [createTable], [dropTable], [createView],
      [registerInheritance] and neighbours): the maps of tables, parents,
      children and views.
    - [QueryCache] ([cache/query_cache.hpp], [Engine::invalidateCache]): printed
      answers, what invalidates them, and how the dispatcher uses them.
    - [Encryption] ([crypto/]): the key manager and its key file, the frame of an
      encrypted text, the master key.
    - [AtomicFile], [Storage] ([storage/storage.hpp]): replacing a file, as a
      sequence of system calls on a disk that may lose what was not synced; the
      binary file of a database, written and read byte by byte.
    - [Lexer], [WhereParser], [WhereSyntax] ([parser/parser.hpp]): the
      tokenizers, the two parsers of a WHERE clause, and the syntax they read.
    - [Statements] ([parser.hpp], [parse]; [dispatch.hpp]): INSERT, UPDATE and
      DELETE from their text to the engine.
    - [Effects]: what a DELETE and an UPDATE do to the rows, from their texts.
    - [SelectParser], [SelectSyntax] ([parser.hpp]): which parser a SELECT is sent
      to, the two parsers of the plain form, and the syntax they read.
    - [Projection] ([engine.hpp], [Table::project]): columns and expressions of a
      select list, with CAST and aggregates inside expressions.
    - [Queries] ([dispatch.hpp], [main.cpp]): SELECT from its text to what the
      console prints and to the table the servers send.
    - [Csv] ([utils/csv_utils.hpp], [dispatch.hpp]): SELECT ... INTO OUTFILE and
      LOAD DATA INFILE.
    - [JoinParser] ([parser.hpp], [parseJoinQuery]), [JoinQueries] ([dispatch.hpp]):
      a query over joins from its text to what the console prints and the servers
      send, over [JoinOrder], [Joins] and [Queries].

    ** How the components meet

    [Table] calls its indices through [RowIndex]; [BTree] discharges the laws,
    so the index theorems of [Table] hold for the real tree.  [Transaction]
    composes [Table], [Mvcc], [Locks] and [Wal]: a COMMIT applies a session's
    buffer to the tables, stamps the rows and appends the log lines that
    [Wal.recover] replays.  [PagedTable] calls [PageManager], which stores
    [Page]s.  [Select] calls [Where], [Partition] and [Table]; [Where] calls
    [Arith].  [Mutation] adds to the engine state of [Transaction] what privileges,
    policies, partitions and triggers read, and composes [Columns], [Triggers],
    [Locks], [Table], the policies of [Select] and the buffer of the transaction
    in the order of the code.  [Zstd] stacks [Lz4] on [Rle] through [Lossless].

    ** What the theorems show

    - Storage: codecs lose nothing; a page, a paged table and the page cache
      refine a list of rows, a log and the file without a cache; the checksum
      detects damage; after a crash at any byte a page is old or new.
    - Index and table: the B-tree stays balanced, sorted and within its bounds
      and refines a multimap; every sequence of table operations leaves every
      index exact on the live rows, and exact on all if no index was created over
      deleted rows; constraints decide which rows are inserted.
    - Transactions: COMMIT applies the buffer in order and is logged, unless the
      session went back to a savepoint; recovery replays exactly what was
      committed; ROLLBACK undoes statements without expressions and cascades;
      savepoints refine snapshots, vacuum removes nothing a live transaction can
      see, locks exclude.
    - Queries: LIKE is the declarative relation on patterns; the fast evaluator
      equals the general one; [selectWhere] returns exactly the live rows
      satisfying the conditions, and only rows a policy admits; the joins equal
      nested loops, in every order the planner chooses for a chain it has not
      planned before; expressions have the value of
      their syntax tree; pruned partitions hold no answer; dropped conditions
      were implied by the others; the caches return what a computation would.
    - Concurrency: the pool's counters and exclusive use hold in every
      reachable state, and at most as many connections lie idle beside a sleeper
      as woken threads have come too late.
    - Statements: after any sequence of statements every stored row satisfies its
      CHECK constraints; INSERT tests everything it should before it stores
      exactly the prepared row, and leaves the rows alone when it throws; INSERT
      and DELETE keep referential integrity where the foreign keys form no
      chains; trigger bodies terminate and never change a stored row.  Triggers
      and partitions are excluded from the theorems on statements ([quiet]): the
      values that a trigger sets are stored unchecked.
    - Texts: the tokens are those of a grammar; what the parsers read from a
      printed clause says what was written ([WhereSyntax.says]), if each list of
      conditions has one connective and no subquery holds another
      ([WhereSyntax.whole]); a printed INSERT stores its texts, a printed DELETE
      or UPDATE changes exactly the rows its clause selects; a printed SELECT is
      answered by the rows, the order, the columns and the window it asks for,
      and the servers send what the console prints; so is a query over a chain of
      INNER joins, whatever order the planners choose.
    - Files: loading a saved database gives its tables, columns, live rows,
      counters, keys, inheritance and views; after a crash at any point of a
      replacement the file is the old one or the new one; the key survives a
      restart and encrypted texts are decrypted; what a query exports as CSV is
      what loading the file inserts.
    - Results: GROUP BY equals grouping by tuples of values; the set operations
      are those of sets; ORDER BY sorts where its comparator is an order; ranks
      count what SQL says they count; worker threads change no aggregate.

    Each theorem states its conditions in the comment above it and names the
    lemma that shows what happens without them.  These lemmas, which are not
    properties, record by computation on concrete inputs where the code departs
    from what it means to do.

    ** Conventions and bounds

    Machine integers are [Z] with their wrap-around written out ([u8] .. [u64])
    where it can matter; row numbers and sizes are [nat].  A function whose
    recursion is not structural takes fuel, and a theorem shows that the fuel
    the callers give is enough: the height of the tree ([BTree]), four times the
    length of the text plus three ([Arith]), the length of the list plus one
    (eviction in [PageManager] and [Caches]), the number of tables (inheritance
    in [Select]), the length of a trigger's body plus one ([Triggers]).  DELETE
    takes the depth of nested partitioning.  The parsers of a WHERE clause take
    the number of tokens ([WhereParser]).  Exceptions are values of [result];
    their texts are shortened.  A C++ iterator or reference that may dangle is
    an [option].

    Parameters, with named hypotheses where a theorem relies on them: doubles
    and [std::stod] and printing of them (class [Double]), [std::regex],
    clocks, [std::sort] where its order on equal keys is unspecified, the
    parser behind the statement cache, the cost hook that may refuse an index,
    the evaluator of a policy's text and that of a generated column, the JSON
    validator, full-text MATCH, [evaluateFunc], [std::stof] and ["%.6g"];
    AES-256-GCM as a pair of inverse functions; INSERT ... SELECT and the column
    stores at the dispatcher.  [std::sort] is a class ([StdSort]) that sorts where
    the comparator is a strict weak order.

    ** Not modelled

    The parser's branches for DDL, administration, GROUP BY, set operations
    and functions of a select list, the dispatcher's other commands, the network
    servers, TLS, authentication, replication and change-data logs, full-text
    indices, the collection of statistics, marks for the buffer pool and everything
    behind cloud, graph, document and monitoring commands: they are listed one by
    one, with the reason, in the manifest.  [src/engine.hpp], [src/http_server.hpp],
    [audit_src/] and the like are earlier copies of the modelled files.  Thread
    scheduling is modelled where the code synchronises itself ([Pool], [Locks]),
    not inside the engine, which its callers serialise. *)

From Stdlib Require Export ZArith Lia.
From Stdlib Require Import Orders OrdersTac.
From stdpp Require Export prelude gmap sorting strings list.

Declare Scope milan_scope.
Delimit Scope milan_scope with milan.

(** ** Bytes and strings

    A [char]/[uint8_t] is a [Z]; a [std::string] or a [std::vector<uint8_t>]
    is a list of them.  [wf_bytes] says that every element is in range. *)

Abbreviation byte := Z (only parsing).
Abbreviation bytes := (list Z).

Definition wf_byte (b : byte) : Prop := (0 <= b < 256)%Z.
Definition wf_bytes : bytes -> Prop := Forall wf_byte.

#[export] Instance wf_byte_dec b : Decision (wf_byte b).
Proof. unfold wf_byte. apply _. Defined.
#[export] Instance wf_bytes_dec l : Decision (wf_bytes l).
Proof. unfold wf_bytes. apply _. Defined.

(** Close a decidable goal by evaluating its decision procedure. *)
Ltac by_decide := apply (bool_decide_unpack _); vm_compute; exact I.

(** String literals of the source. *)
Definition str (s : string) : bytes :=
  map (fun c => Z.of_N (Ascii.N_of_ascii c)) (String.list_ascii_of_string s).

(** ** Fixed-width unsigned arithmetic *)

Definition u8 (z : Z) : Z := (z mod 2 ^ 8)%Z.
Definition u16 (z : Z) : Z := (z mod 2 ^ 16)%Z.
Definition u32 (z : Z) : Z := (z mod 2 ^ 32)%Z.
Definition u64 (z : Z) : Z := (z mod 2 ^ 64)%Z.

Lemma u8_id z : wf_byte z -> u8 z = z.
Proof. unfold wf_byte, u8. intros. apply Z.mod_small. lia. Qed.

Lemma u8_range z : wf_byte (u8 z).
Proof. unfold wf_byte, u8. pose proof (Z.mod_pos_bound z (2 ^ 8)). lia. Qed.

Lemma u16_id z : (0 <= z < 65536)%Z -> u16 z = z.
Proof. unfold u16. intros. apply Z.mod_small. lia. Qed.

Lemma u32_id z : (0 <= z < 2 ^ 32)%Z -> u32 z = z.
Proof. unfold u32. intros. apply Z.mod_small. lia. Qed.

Lemma u64_id z : (0 <= z < 2 ^ 64)%Z -> u64 z = z.
Proof. unfold u64. intros. apply Z.mod_small. lia. Qed.

(** ** Little-endian encoding of an integer in [n] bytes
    (what [std::memcpy] of an integer writes on the supported targets) *)

Fixpoint le_bytes (n : nat) (v : Z) : bytes :=
  match n with
  | O => []
  | S n' => (v mod 256)%Z :: le_bytes n' (v / 256)
  end.

Fixpoint le_val (l : bytes) : Z :=
  match l with
  | [] => 0
  | b :: l' => b + 256 * le_val l'
  end%Z.

Lemma length_le_bytes n v : length (le_bytes n v) = n.
Proof. revert v. induction n; intros; simpl; auto. Qed.

Lemma wf_le_bytes n v : wf_bytes (le_bytes n v).
Proof.
  revert v. induction n; intros; simpl; constructor.
  - unfold wf_byte. apply Z.mod_pos_bound. lia.
  - apply IHn.
Qed.

Lemma le_val_bytes n v : le_val (le_bytes n v) = (v mod 2 ^ (8 * Z.of_nat n))%Z.
Proof.
  revert v. induction n as [|n IH]; intros v.
  { simpl. by rewrite Z.mod_1_r. }
  cbn [le_bytes le_val]. rewrite IH.
  replace (8 * Z.of_nat (S n))%Z with (8 + 8 * Z.of_nat n)%Z by lia.
  rewrite Z.pow_add_r by lia. change (2 ^ 8)%Z with 256%Z.
  rewrite Z.rem_mul_r; [lia | lia | apply Z.pow_pos_nonneg; lia].
Qed.

Lemma le_val_bytes_id n v :
  (0 <= v < 2 ^ (8 * Z.of_nat n))%Z -> le_val (le_bytes n v) = v.
Proof. intros. rewrite le_val_bytes. by apply Z.mod_small. Qed.

(** ** Lexicographic order of [std::string] (bytes compared unsigned) *)

Fixpoint bytes_cmp (a b : bytes) : comparison :=
  match a, b with
  | [], [] => Eq
  | [], _ :: _ => Lt
  | _ :: _, [] => Gt
  | x :: a', y :: b' =>
      match Z.compare x y with Eq => bytes_cmp a' b' | c => c end
  end.

Definition bytes_lt (a b : bytes) : Prop := bytes_cmp a b = Lt.
Definition bytes_le (a b : bytes) : Prop := bytes_lt a b \/ a = b.
Definition bytes_ltb (a b : bytes) : bool :=
  match bytes_cmp a b with Lt => true | _ => false end.
Definition bytes_leb (a b : bytes) : bool :=
  match bytes_cmp a b with Gt => false | _ => true end.
Definition bytes_eqb (a b : bytes) : bool := bool_decide (a = b).

Lemma bytes_cmp_refl a : bytes_cmp a a = Eq.
Proof. induction a; simpl; auto. by rewrite Z.compare_refl. Qed.

Lemma bytes_cmp_eq a b : bytes_cmp a b = Eq <-> a = b.
Proof.
  split; [|intros ->; apply bytes_cmp_refl].
  revert b. induction a as [|x a IH]; intros [|y b]; simpl; try done.
  destruct (Z.compare_spec x y); try done. intros. f_equal; auto.
Qed.

Lemma bytes_cmp_antisym a b : bytes_cmp b a = CompOpp (bytes_cmp a b).
Proof.
  revert b. induction a as [|x a IH]; intros [|y b]; simpl; try done.
  rewrite (Z.compare_antisym x y). destruct (Z.compare x y); simpl; auto.
Qed.

Lemma bytes_lt_trans a b c : bytes_lt a b -> bytes_lt b c -> bytes_lt a c.
Proof.
  unfold bytes_lt. revert b c.
  induction a as [|x a IH]; intros [|y b] [|z c]; simpl; try done.
  destruct (Z.compare_spec x y), (Z.compare_spec y z), (Z.compare_spec x z);
    intros; try lia; try done; eauto.
Qed.

#[export] Instance bytes_lt_strorder : StrictOrder bytes_lt.
Proof.
  split; [|exact bytes_lt_trans].
  intros a H. unfold bytes_lt in H. by rewrite bytes_cmp_refl in H.
Qed.

Lemma bytes_cmp_spec a b :
  CompareSpec (a = b) (bytes_lt a b) (bytes_lt b a) (bytes_cmp a b).
Proof.
  destruct (bytes_cmp a b) eqn:E; constructor.
  - by apply bytes_cmp_eq.
  - done.
  - unfold bytes_lt. by rewrite bytes_cmp_antisym, E.
Qed.

Lemma bytes_lt_total a b : bytes_lt a b \/ a = b \/ bytes_lt b a.
Proof. destruct (bytes_cmp_spec a b); auto. Qed.

#[export] Instance bytes_lt_dec : RelDecision bytes_lt.
Proof. intros a b. unfold bytes_lt. apply _. Defined.
#[export] Instance bytes_le_dec : RelDecision bytes_le.
Proof. intros a b. unfold bytes_le. apply _. Defined.

Lemma bytes_ltb_spec a b : reflect (bytes_lt a b) (bytes_ltb a b).
Proof.
  unfold bytes_ltb, bytes_lt. destruct (bytes_cmp a b); constructor; congruence.
Qed.

(** An order solver for goals about [bytes_lt], [bytes_le] and equality. *)
Module BytesOrder.
Module O <: TotalOrder.
Definition t := bytes.
Definition eq := @eq bytes.
Definition lt := bytes_lt.
Definition le := bytes_le.
Definition eq_equiv : Equivalence eq := eq_equivalence.
Definition lt_strorder : StrictOrder lt := bytes_lt_strorder.
Lemma lt_compat : Proper (eq ==> eq ==> iff) lt.
Proof. intros ? ? -> ? ? ->. done. Qed.
Definition le_lteq a b : le a b <-> lt a b \/ eq a b := iff_refl _.
Definition lt_total := bytes_lt_total.
End O.
Include MakeOrderTac O O.
End BytesOrder.

Ltac bytes_order :=
  change bytes_lt with BytesOrder.O.lt in *;
  change bytes_le with BytesOrder.O.le in *;
  repeat match goal with
  | H : @eq (list Z) ?a ?b |- _ => change (BytesOrder.O.eq a b) in H
  | H : ~ @eq (list Z) ?a ?b |- _ => change (~ BytesOrder.O.eq a b) in H
  | |- @eq (list Z) ?a ?b => change (BytesOrder.O.eq a b)
  | |- ~ @eq (list Z) ?a ?b => change (~ BytesOrder.O.eq a b)
  end;
  BytesOrder.order.

(** ** Exceptions: a call either returns or throws with a message *)

Inductive result (A : Type) : Type :=
| Ok (a : A)
| Throw (msg : string).
Arguments Ok {A} a.
Arguments Throw {A} msg.

#[export] Instance result_ret : MRet result := @Ok.
#[export] Instance result_bind : MBind result := fun A B f m =>
  match m with Ok a => f a | Throw e => Throw e end.
#[export] Instance result_fmap : FMap result := fun A B f m =>
  match m with Ok a => Ok (f a) | Throw e => Throw e end.

(** Did the call throw? *)
Definition throws {A} (r : result A) : bool :=
  match r with Ok _ => false | Throw _ => true end.

(** ** Character classes of the C locale *)

Definition is_space (c : byte) : bool :=
  (((9 <=? c) && (c <=? 13)) || (c =? 32))%Z.
Definition is_digit (c : byte) : bool := ((48 <=? c) && (c <=? 57))%Z.
Definition is_upper (c : byte) : bool := ((65 <=? c) && (c <=? 90))%Z.
Definition is_lower (c : byte) : bool := ((97 <=? c) && (c <=? 122))%Z.
Definition is_alpha (c : byte) : bool := is_upper c || is_lower c.
Definition to_lower (c : byte) : byte := (if is_upper c then c + 32 else c)%Z.
Definition to_upper (c : byte) : byte := (if is_lower c then c - 32 else c)%Z.

Ltac char_cases :=
  unfold is_alpha, is_space, is_digit, is_upper, is_lower, to_lower, to_upper in *;
  repeat match goal with
  | |- context [(?a <=? ?b)%Z] => destruct (Z.leb_spec a b)
  | |- context [(?a =? ?b)%Z] => destruct (Z.eqb_spec a b)
  | H : context [(?a <=? ?b)%Z] |- _ => destruct (Z.leb_spec a b)
  | H : context [(?a =? ?b)%Z] |- _ => destruct (Z.eqb_spec a b)
  end; simpl in *; try congruence; try lia.

(** ** Searching and cutting strings *)

Fixpoint take_while {A} (p : A -> bool) (l : list A) : list A :=
  match l with
  | [] => []
  | x :: l' => if p x then x :: take_while p l' else []
  end.

Fixpoint drop_while {A} (p : A -> bool) (l : list A) : list A :=
  match l with
  | [] => []
  | x :: l' => if p x then drop_while p l' else l
  end.

Lemma take_drop_while {A} (p : A -> bool) l : take_while p l ++ drop_while p l = l.
Proof. induction l as [|x l IH]; simpl; auto. destruct (p x); simpl; congruence. Qed.

Lemma take_while_all {A} (p : A -> bool) l1 l2 :
  Forall (fun x => p x = true) l1 ->
  (match l2 with [] => True | y :: _ => p y = false end) ->
  take_while p (l1 ++ l2) = l1 /\ drop_while p (l1 ++ l2) = l2.
Proof.
  intros H1 H2. induction H1 as [|x l1 Hx H1 [IH1 IH2]]; simpl.
  - destruct l2 as [|y l2]; simpl; auto. by rewrite H2.
  - rewrite Hx, IH1. auto.
Qed.

(** [s.find(c)] *)
Fixpoint find_char (c : byte) (s : bytes) : option nat :=
  match s with
  | [] => None
  | x :: s' => if (x =? c)%Z then Some O else S <$> find_char c s'
  end.

(** [s.rfind(c)] *)
Fixpoint rfind_char (c : byte) (s : bytes) : option nat :=
  match s with
  | [] => None
  | x :: s' =>
      match rfind_char c s' with
      | Some i => Some (S i)
      | None => if (x =? c)%Z then Some O else None
      end
  end.

Lemma rfind_char_none c s : rfind_char c s = None <-> c ∉ s.
Proof.
  induction s as [|x s IH]; simpl; [by split; [intros _; apply not_elem_of_nil|]|].
  rewrite not_elem_of_cons. destruct (rfind_char c s); [|destruct (Z.eqb_spec x c)].
  - split; [done|]. intros [_ H]. by apply IH in H.
  - split; [done|]. intros [H _]. congruence.
  - split; [|done]. intros _. split; [congruence|by apply IH].
Qed.

(** [s.rfind(p, 0) == 0] and the prefix tests spelled with [substr]. *)
Fixpoint starts_with (p s : bytes) : bool :=
  match p, s with
  | [], _ => true
  | _ :: _, [] => false
  | x :: p', y :: s' => (x =? y)%Z && starts_with p' s'
  end.

(** [s.find(p)] *)
Fixpoint find_sub (p s : bytes) : option nat :=
  if starts_with p s then Some O
  else match s with [] => None | _ :: s' => S <$> find_sub p s' end.

Lemma starts_with_app p s : starts_with p (p ++ s) = true.
Proof. induction p; simpl; auto. by rewrite Z.eqb_refl. Qed.

Lemma starts_with_true p s : starts_with p s = true -> exists t, s = p ++ t.
Proof.
  revert s. induction p as [|x p IH]; intros s H; simpl in *; eauto.
  destruct s as [|y s]; try done. apply andb_prop in H as [H1 H2].
  apply Z.eqb_eq in H1 as ->. apply IH in H2 as [t ->]. eauto.
Qed.

(** The records [std::getline(f, line, d)] yields. *)
Fixpoint split_on (d : byte) (s : bytes) : list bytes :=
  match s with
  | [] => []
  | c :: s' =>
      if (c =? d)%Z then [] :: split_on d s'
      else match split_on d s' with
           | [] => [[c]]
           | l :: ls => (c :: l) :: ls
           end
  end.

Definition lines (s : bytes) : list bytes := split_on 10 s.

Lemma split_on_line d l s :
  Forall (fun c => c <> d) l -> split_on d (l ++ d :: s) = l :: split_on d s.
Proof.
  induction 1 as [|c l Hc Hl IH]; simpl.
  - by rewrite Z.eqb_refl.
  - rewrite (proj2 (Z.eqb_neq c d)) by done. by rewrite IH.
Qed.

(** ** Decimal integers: [std::to_string] and the [sto*] family *)

Fixpoint dec_digits (fuel : nat) (n : Z) : bytes :=
  match fuel with
  | O => []
  | S f => if (n <? 10)%Z then [(48 + n)%Z]
           else dec_digits f (n / 10) ++ [(48 + n mod 10)%Z]
  end.

Definition to_string (n : Z) : bytes :=
  if (n <? 0)%Z then 45%Z :: dec_digits (S (Z.to_nat (Z.log2 (- n)))) (- n)
  else dec_digits (S (Z.to_nat (Z.log2 n))) n.

Definition digits_val (s : bytes) : Z := fold_left (fun a c => (10 * a + (c - 48))%Z) s 0%Z.

(** The number at the front of [s]: blanks, a sign, then at least one digit;
    [None] is [std::invalid_argument]. *)
Definition scan_int (s : bytes) : option (bool * Z) :=
  let s1 := drop_while is_space s in
  let '(neg, s2) :=
    match s1 with
    | c :: t => if (c =? 45)%Z then (true, t)
                else if (c =? 43)%Z then (false, t) else (false, s1)
    | [] => (false, s1)
    end in
  match take_while is_digit s2 with
  | [] => None
  | ds => Some (neg, digits_val ds)
  end.

(** [None] stands for either exception of the family. *)
Definition stoull (s : bytes) : option Z :=
  '(neg, v) ← scan_int s;
  if (2 ^ 64 <=? v)%Z then None else Some (u64 (if (neg : bool) then - v else v)).

Definition sto_signed (bits : Z) (s : bytes) : option Z :=
  '(neg, v) ← scan_int s;
  let z := (if (neg : bool) then - v else v)%Z in
  if ((- 2 ^ (bits - 1) <=? z) && (z <? 2 ^ (bits - 1)))%Z then Some z else None.

Definition stoi : bytes -> option Z := sto_signed 32.
Definition stoll : bytes -> option Z := sto_signed 64.

Lemma digits_val_snoc s c : digits_val (s ++ [c]) = (10 * digits_val s + (c - 48))%Z.
Proof. unfold digits_val. by rewrite fold_left_app. Qed.

Lemma dec_digits_spec f n :
  (0 <= n < 2 ^ Z.of_nat f)%Z ->
  digits_val (dec_digits f n) = n /\ Forall (fun c => is_digit c = true) (dec_digits f n) /\
  (0 < f -> dec_digits f n <> []).
Proof.
  revert n. induction f as [|f IH]; intros n Hn.
  { simpl in *. split_and!; auto; try lia. unfold digits_val. simpl. lia. }
  cbn [dec_digits]. destruct (Z.ltb_spec n 10).
  { split_and!; try done.
    - unfold digits_val. simpl. lia.
    - repeat constructor. char_cases. }
  assert (0 <= n / 10 < 2 ^ Z.of_nat f)%Z as Hd.
  { split; [apply Z.div_pos; lia|]. apply Z.div_lt_upper_bound; [lia|].
    replace (Z.of_nat (S f)) with (1 + Z.of_nat f)%Z in Hn by lia.
    rewrite Z.pow_add_r in Hn by lia. change (2 ^ 1)%Z with 2%Z in Hn.
    pose proof (Z.pow_pos_nonneg 2 (Z.of_nat f)). lia. }
  destruct (IH _ Hd) as (H1 & H2 & _). split_and!.
  - rewrite digits_val_snoc, H1. pose proof (Z.div_mod n 10). lia.
  - apply Forall_app. split; auto. repeat constructor.
    pose proof (Z.mod_pos_bound n 10). char_cases.
  - intros _ E. by apply app_eq_nil in E as [_ ?].
Qed.

Lemma to_string_spec n :
  (0 <= n)%Z ->
  digits_val (to_string n) = n /\ Forall (fun c => is_digit c = true) (to_string n) /\
  to_string n <> [].
Proof.
  intros Hn. unfold to_string. destruct (Z.ltb_spec n 0); [lia|].
  destruct (dec_digits_spec (S (Z.to_nat (Z.log2 n))) n) as (H1 & H2 & H3); auto with lia.
  split; [done|]. rewrite Nat2Z.inj_succ, Z2Nat.id by apply Z.log2_nonneg.
  destruct (Z.eq_dec n 0%Z) as [->|]; [done|]. apply Z.log2_spec. lia.
Qed.

Lemma scan_int_to_string n rest :
  (0 <= n)%Z ->
  (match rest with [] => True | c :: _ => is_digit c = false end) ->
  scan_int (to_string n ++ rest) = Some (false, n).
Proof.
  intros Hn Hr. destruct (to_string_spec n Hn) as (H1 & H2 & H3).
  destruct (take_while_all is_digit (to_string n) rest H2 Hr) as [Ht _].
  unfold scan_int. destruct (to_string n) as [|d ds] eqn:E; [done|].
  inversion H2 as [|? ? Hd Hds]; subst. cbn [app drop_while].
  assert (is_space d = false) as -> by (char_cases).
  assert ((d =? 45)%Z = false) as -> by (char_cases).
  assert ((d =? 43)%Z = false) as -> by (char_cases).
  cbn [app] in Ht. by rewrite Ht.
Qed.

(** Reading back a printed 64-bit counter. *)
Lemma stoull_to_string n : (0 <= n < 2 ^ 64)%Z -> stoull (to_string n) = Some n.
Proof.
  intros Hn. unfold stoull. rewrite <- (app_nil_r (to_string n)).
  rewrite scan_int_to_string by (auto; lia). simpl.
  destruct (Z.leb_spec (2 ^ 64) n); [lia|]. rewrite u64_id; auto.
Qed.

(** ** Ordered containers

    [std::map] is a [gmap] whose traversal visits the keys in increasing
    order: [map_iter R m] is the sequence a range-for over it sees. *)

Section ordered.
Context {K V : Type} `{Countable K} (R : relation K) `{!RelDecision R}.

Definition key_rel (p q : K * V) : Prop := R p.1 q.1.

#[export] Instance key_rel_dec : RelDecision key_rel.
Proof. intros p q. unfold key_rel. apply _. Defined.

Definition map_iter (m : gmap K V) : list (K * V) :=
  merge_sort key_rel (map_to_list m).

Lemma map_iter_perm m : map_iter m ≡ₚ map_to_list m.
Proof. apply merge_sort_Permutation. Qed.

Lemma elem_of_map_iter m k v : (k, v) ∈ map_iter m <-> m !! k = Some v.
Proof. rewrite map_iter_perm. apply elem_of_map_to_list. Qed.

Lemma NoDup_fst_map_iter m : NoDup (map_iter m).*1.
Proof. rewrite map_iter_perm. apply NoDup_fst_map_to_list. Qed.

Lemma length_map_iter m : length (map_iter m) = size m.
Proof. by rewrite map_iter_perm, length_map_to_list. Qed.
End ordered.

Abbreviation str_iter := (map_iter bytes_le).
Abbreviation int_iter := (map_iter Z.le).

(** ** List lemmas shared by the byte-level components *)

Lemma take_drop_app {A} n m (l : list A) : take n l ++ take m (drop n l) = take (n + m) l.
Proof. by rewrite take_take_drop. Qed.

Lemma take_S_nth {A} (d : A) n l : n < length l -> take (S n) l = take n l ++ [nth n l d].
Proof.
  revert l. induction n as [|n IH]; intros [|x l] Hn; simpl in *; try lia; auto.
  rewrite IH; [done | lia].
Qed.

Lemma nth_take {A} (d : A) n m l : m < n -> nth m (take n l) d = nth m l d.
Proof.
  revert m l. induction n as [|n IH]; intros [|m] [|x l] Hm; simpl; try lia; auto.
  apply IH. lia.
Qed.

Lemma drop_nth {A} (d : A) n l : n < length l -> drop n l = nth n l d :: drop (S n) l.
Proof.
  revert l. induction n as [|n IH]; intros [|x l] Hn; simpl in *; try lia; auto.
  apply IH. lia.
Qed.

Lemma nth_drop {A} (d : A) n m l : nth m (drop n l) d = nth (n + m) l d.
Proof.
  revert l. induction n as [|n IH]; intros [|x l]; simpl; auto. by destruct m.
Qed.

Lemma bool_and_true (a b : bool) : a && b = true -> a = true /\ b = true.
Proof. by destruct a, b. Qed.

(** Turn boolean tests on [nat] and [Z] into propositions. *)
Ltac to_prop :=
  repeat match goal with
  | H : _ && _ = true |- _ => apply bool_and_true in H as [? ?]
  | H : (_ <? _) = true |- _ => apply Nat.ltb_lt in H
  | H : (_ <? _) = false |- _ => apply Nat.ltb_ge in H
  | H : (_ <=? _) = true |- _ => apply Nat.leb_le in H
  | H : (_ <=? _) = false |- _ => apply Nat.leb_gt in H
  | H : (_ =? _) = true |- _ => apply Nat.eqb_eq in H
  | H : (_ =? _) = false |- _ => apply Nat.eqb_neq in H
  | H : (_ <? _)%Z = true |- _ => apply Z.ltb_lt in H
  | H : (_ <? _)%Z = false |- _ => apply Z.ltb_ge in H
  | H : (_ <=? _)%Z = true |- _ => apply Z.leb_le in H
  | H : (_ <=? _)%Z = false |- _ => apply Z.leb_gt in H
  | H : (_ =? _)%Z = true |- _ => apply Z.eqb_eq in H
  | H : (_ =? _)%Z = false |- _ => apply Z.eqb_neq in H
  | H : negb _ = true |- _ => apply negb_true_iff in H
  | H : negb _ = false |- _ => apply negb_false_iff in H
  end.

(** Case analysis on the next boolean test of the goal. *)
Ltac case_if :=
  match goal with
  | |- context [if ?b then _ else _] => let E := fresh "E" in destruct b eqn:E; to_prop
  end.

(** ** Assembling integers from bytes with [|] and [<<] *)

Lemma lor_shiftl_add a b k :
  (0 <= a < 2 ^ k)%Z -> (0 <= k)%Z -> Z.lor a (Z.shiftl b k) = (a + b * 2 ^ k)%Z.
Proof.
  intros Ha Hk. rewrite <- Z.add_nocarry_lor; [by rewrite Z.shiftl_mul_pow2|].
  apply Z.bits_inj'. intros i Hi. rewrite Z.land_spec, Z.shiftl_spec, Z.bits_0 by lia.
  destruct (Z.ltb_spec i k).
  - rewrite (Z.testbit_neg_r b (i - k)) by lia. apply andb_false_r.
  - destruct (Z.eq_dec a 0%Z) as [->|]; [by rewrite Z.bits_0|].
    rewrite (Z.bits_above_log2 a i); [done|lia|].
    assert (Z.log2 a < k)%Z by (apply Z.log2_lt_pow2; lia). lia.
Qed.

(** [static_cast<uint8_t>((z >> k) & 0xFF)] *)
Definition byte_at (z k : Z) : byte := u8 (Z.land (Z.shiftr z k) 255).

Lemma byte_at_div z k : (0 <= k)%Z -> byte_at z k = ((z / 2 ^ k) mod 256)%Z.
Proof.
  intros. unfold byte_at, u8. change 255%Z with (Z.ones 8).
  rewrite Z.land_ones, Z.shiftr_div_pow2 by lia. by rewrite Zmod_mod.
Qed.

Lemma byte_at_range z k : wf_byte (byte_at z k).
Proof. apply u8_range. Qed.

Lemma two_bytes z :
  (0 <= z)%Z -> Z.lor (byte_at z 0) (Z.shiftl (byte_at z 8) 8) = (z mod 65536)%Z.
Proof.
  intros. rewrite lor_shiftl_add by (try apply byte_at_range; lia).
  rewrite !byte_at_div by lia. change (2 ^ 0)%Z with 1%Z. rewrite Z.div_1_r.
  change 65536%Z with (256 * 256)%Z. rewrite Z.rem_mul_r by lia.
  change (2 ^ 8)%Z with 256%Z. lia.
Qed.

Lemma four_bytes z :
  (0 <= z)%Z ->
  Z.lor (Z.lor (Z.lor (byte_at z 0) (Z.shiftl (byte_at z 8) 8))
           (Z.shiftl (byte_at z 16) 16)) (Z.shiftl (byte_at z 24) 24) = (z mod 2 ^ 32)%Z.
Proof.
  intros Hz. rewrite two_bytes by done.
  pose proof (Z.mod_pos_bound z 65536 ltac:(lia)).
  pose proof (byte_at_range z 16). pose proof (byte_at_range z 24). unfold wf_byte in *.
  rewrite (lor_shiftl_add _ _ 16), (lor_shiftl_add _ _ 24) by lia.
  rewrite !byte_at_div by lia.
  change (2 ^ 32)%Z with (65536 * (256 * 256))%Z.
  rewrite Z.rem_mul_r, Z.rem_mul_r by lia. rewrite Z.div_div by lia.
  change (2 ^ 16)%Z with 65536%Z. change (2 ^ 24)%Z with (65536 * 256)%Z. lia.
Qed.

(** ** Raw memory: [std::memcpy] to and from a buffer at an offset *)

Definition mem_read (off n : nat) (raw : bytes) : bytes := take n (drop off raw).
Definition mem_write (off : nat) (bs raw : bytes) : bytes :=
  take off raw ++ bs ++ drop (off + length bs) raw.

Lemma length_mem_read off n raw : off + n <= length raw -> length (mem_read off n raw) = n.
Proof. intros. unfold mem_read. rewrite length_take, length_drop. lia. Qed.

Lemma length_mem_write off bs raw :
  off + length bs <= length raw -> length (mem_write off bs raw) = length raw.
Proof.
  intros. unfold mem_write. rewrite !length_app, length_take, length_drop. lia.
Qed.

Lemma mem_read_write off bs raw n :
  off + length bs <= length raw -> n = length bs -> mem_read off n (mem_write off bs raw) = bs.
Proof.
  intros H ->. unfold mem_read, mem_write.
  rewrite drop_app_length' by (rewrite length_take; lia). by rewrite take_app_length.
Qed.

Lemma mem_read_write_before off bs raw off' n :
  off' + n <= off -> off + length bs <= length raw ->
  mem_read off' n (mem_write off bs raw) = mem_read off' n raw.
Proof.
  intros H1 H2. unfold mem_read, mem_write.
  rewrite drop_app_le by (rewrite length_take; lia).
  rewrite take_app_le by (rewrite length_drop, length_take; lia).
  rewrite skipn_firstn_comm, take_take. f_equal. lia.
Qed.

Lemma mem_read_write_after off bs raw off' n :
  off + length bs <= off' -> off + length bs <= length raw ->
  mem_read off' n (mem_write off bs raw) = mem_read off' n raw.
Proof.
  intros H1 H2. unfold mem_read, mem_write. f_equal.
  rewrite app_assoc, drop_app_ge by (rewrite length_app, length_take; lia).
  rewrite drop_drop. f_equal. rewrite length_app, length_take. lia.
Qed.

(** *** Files: [seekp(off)] and [write]; a gap behind the end is filled with zeros *)

Definition file_write (off : nat) (bs f : bytes) : bytes :=
  if bool_decide (bs = []) then f
  else take off f ++ replicate (off - length f) 0%Z ++ bs ++ drop (off + length bs) f.

Lemma file_write_inside off bs f : off + length bs <= length f -> file_write off bs f = mem_write off bs f.
Proof.
  intros H. unfold file_write, mem_write. case_bool_decide as E.
  - subst bs. simpl. by rewrite Nat.add_0_r, take_drop.
  - by replace (off - length f) with 0 by lia.
Qed.

Lemma length_file_write off bs f :
  bs <> [] -> length (file_write off bs f) = Nat.max (length f) (off + length bs).
Proof.
  intros H. unfold file_write. rewrite bool_decide_false by done.
  rewrite !length_app, length_take, length_replicate, length_drop. lia.
Qed.

Lemma lookup_file_write off bs f i :
  bs <> [] -> file_write off bs f !! i =
    if decide (i < off) then (if decide (i < length f) then f !! i else Some 0%Z)
    else if decide (i < off + length bs) then bs !! (i - off) else f !! i.
Proof.
  intros H. unfold file_write. rewrite bool_decide_false by done.
  destruct (decide (i < off)) as [Hi|Hi].
  - destruct (decide (i < length f)).
    + rewrite lookup_app_l by (rewrite length_take; lia). by apply lookup_take_lt.
    + rewrite lookup_app_r by (rewrite length_take; lia).
      rewrite lookup_app_l by (rewrite length_take, length_replicate; lia).
      apply lookup_replicate_2. rewrite length_take. lia.
  - rewrite lookup_app_r by (rewrite length_take; lia). rewrite length_take.
    rewrite lookup_app_r by (rewrite length_replicate; lia). rewrite length_replicate.
    replace (i - min off (length f) - (off - length f)) with (i - off) by lia.
    destruct (decide (i < off + length bs)).
    + by rewrite lookup_app_l by lia.
    + rewrite lookup_app_r, lookup_drop by lia. f_equal. lia.
Qed.

(** Writing on behind a write is one longer write. *)
Lemma file_write_app off a b f :
  a <> [] -> file_write (off + length a) b (file_write off a f) = file_write off (a ++ b) f.
Proof.
  intros Ha. destruct (decide (b = [])) as [->|Hb].
  { rewrite app_nil_r. unfold file_write at 1. by rewrite bool_decide_true. }
  assert (a ++ b <> []) as Hab by (by destruct a).
  apply list_eq. intros i. rewrite !lookup_file_write, length_file_write, length_app by done.
  repeat case_decide; try lia; try done.
  - rewrite lookup_app_l by lia. done.
  - rewrite lookup_app_r by lia. f_equal. lia.
Qed.

Lemma file_write_nil off f : file_write off [] f = f.
Proof. done. Qed.

Lemma mem_read_prefix off n m raw : n <= m -> mem_read off n raw = take n (mem_read off m raw).
Proof. intros. unfold mem_read. rewrite take_take. f_equal. lia. Qed.

Lemma wf_mem_read off n raw : wf_bytes raw -> wf_bytes (mem_read off n raw).
Proof. intros. by apply Forall_take, Forall_drop. Qed.

Lemma wf_mem_write off bs raw : wf_bytes bs -> wf_bytes raw -> wf_bytes (mem_write off bs raw).
Proof.
  intros. unfold mem_write, wf_bytes. rewrite !Forall_app.
  split_and!; [by apply Forall_take|done|by apply Forall_drop].
Qed.

Lemma le_val_bound l : wf_bytes l -> (0 <= le_val l < 2 ^ (8 * Z.of_nat (length l)))%Z.
Proof.
  induction 1 as [|b l Hb _ IH]; cbn [le_val length]; [simpl; lia|].
  unfold wf_byte in Hb. replace (8 * Z.of_nat (S (length l)))%Z with (8 + 8 * Z.of_nat (length l))%Z by lia.
  rewrite Z.pow_add_r by lia. change (2 ^ 8)%Z with 256%Z. lia.
Qed.

Lemma le_val_inj l1 l2 :
  wf_bytes l1 -> wf_bytes l2 -> length l1 = length l2 -> le_val l1 = le_val l2 -> l1 = l2.
Proof.
  intros H1. revert l2. induction H1 as [|b1 l1 Hb1 _ IH]; intros [|b2 l2] H2 Hlen Hv; try done.
  apply Forall_cons in H2 as [Hb2 H2]. cbn [le_val length] in *. unfold wf_byte in *.
  assert (b1 = b2) by lia. subst. f_equal. apply IH; [done|lia|lia].
Qed.

Lemma lxor_bound a b k :
  (0 <= k)%Z -> (0 <= a < 2 ^ k)%Z -> (0 <= b < 2 ^ k)%Z -> (0 <= Z.lxor a b < 2 ^ k)%Z.
Proof.
  intros Hk Ha Hb. assert (0 <= Z.lxor a b)%Z as H0 by (apply Z.lxor_nonneg; lia).
  split; [done|]. destruct (Z.eq_dec (Z.lxor a b) 0%Z) as [->|Hne].
  { apply Z.pow_pos_nonneg; lia. }
  apply Z.log2_lt_pow2; [lia|]. destruct (Z.eq_dec k 0%Z) as [->|].
  { change (2 ^ 0)%Z with 1%Z in *. assert (a = 0 /\ b = 0)%Z as [-> ->] by lia. done. }
  assert (forall x, 0 <= x < 2 ^ k -> Z.log2 x < k)%Z as Hlog.
  { intros x Hx. destruct (Z.eq_dec x 0%Z) as [->|]; [simpl; lia|].
    apply Z.log2_lt_pow2; lia. }
  pose proof (Z.log2_lxor a b). pose proof (Hlog a Ha). pose proof (Hlog b Hb). lia.
Qed.

Lemma mjoin_cons {A} (x : list A) xs : mjoin (x :: xs) = x ++ mjoin xs.
Proof. done. Qed.

Lemma mjoin_snoc {A} (x : list A) xs : mjoin (xs ++ [x]) = mjoin xs ++ x.
Proof.
  induction xs as [|y xs IH]; [simpl; apply app_nil_r|].
  rewrite <- app_comm_cons, !mjoin_cons, IH. apply app_assoc.
Qed.

Lemma mem_read_app off a b raw :
  mem_read off (length a + length b) raw = a ++ b ->
  mem_read off (length a) raw = a /\ mem_read (off + length a) (length b) raw = b.
Proof.
  intros H. split.
  - rewrite (mem_read_prefix off _ (length a + length b)) by lia. rewrite H.
    apply take_app_length.
  - unfold mem_read in *. rewrite <- drop_drop.
    assert (drop (length a) (take (length a + length b) (drop off raw)) = b) as H2
      by (rewrite H; apply drop_app_length).
    rewrite <- H2 at 2. by rewrite skipn_firstn_comm, Nat.add_comm, Nat.add_sub.
Qed.

Lemma mem_read_app_join off a b raw :
  mem_read off (length a) raw = a -> mem_read (off + length a) (length b) raw = b ->
  mem_read off (length (a ++ b)) raw = a ++ b.
Proof.
  unfold mem_read. intros H1 H2. rewrite length_app, <- take_drop_app, drop_drop, H1. by f_equal.
Qed.

#[export] Instance ge_dec : RelDecision ge.
Proof. intros a b. unfold ge. apply _. Defined.

(** ** Text files written line by line *)

Definition NL : byte := 10.

Definition unlines (ls : list bytes) : bytes := mjoin (map (fun l => l ++ [NL]) ls).

Lemma unlines_cons l ls : unlines (l :: ls) = l ++ NL :: unlines ls.
Proof. unfold unlines. cbn [map]. rewrite mjoin_cons. by rewrite <- app_assoc. Qed.

Lemma unlines_app l1 l2 : unlines (l1 ++ l2) = unlines l1 ++ unlines l2.
Proof.
  induction l1 as [|l l1 IH]; [done|].
  rewrite <- app_comm_cons, !unlines_cons, IH, <- app_assoc. done.
Qed.

(** [std::getline] gets back the lines that were written, and then whatever
    follows. *)
Lemma lines_unlines ls rest :
  Forall (Forall (fun c => c <> NL)) ls -> lines (unlines ls ++ rest) = ls ++ lines rest.
Proof.
  induction 1 as [|l ls Hl _ IH]; [done|].
  rewrite unlines_cons, <- !app_assoc, <- app_comm_cons. unfold lines in *.
  change 10%Z with NL in *. rewrite split_on_line by done. by rewrite IH.
Qed.

(** The whitespace-separated tokens [stream >> s] extracts. *)
Fixpoint words_aux (s : bytes) (acc : bytes) : list bytes :=
  match s with
  | [] => match acc with [] => [] | _ => [acc] end
  | c :: s' =>
      if is_space c then match acc with [] => words_aux s' [] | _ => acc :: words_aux s' [] end
      else words_aux s' (acc ++ [c])
  end.
Definition words (s : bytes) : list bytes := words_aux s [].

Definition no_space (s : bytes) : Prop := Forall (fun c => is_space c = false) s.

Lemma words_aux_word w acc rest :
  no_space w -> words_aux (w ++ rest) acc = words_aux rest (acc ++ w).
Proof.
  intros H. revert acc. induction H as [|c w Hc _ IH]; intros acc; simpl.
  - by rewrite app_nil_r.
  - rewrite Hc, IH. by rewrite <- app_assoc.
Qed.

Lemma words_cons w rest :
  no_space w -> w <> [] -> words (w ++ 32%Z :: rest) = w :: words rest.
Proof.
  intros H Hne. unfold words. rewrite words_aux_word by done. simpl.
  destruct w; [done|]. done.
Qed.

Lemma words_blank rest : words (32%Z :: rest) = words rest.
Proof. done. Qed.

Lemma words_one w : no_space w -> w <> [] -> words w = [w].
Proof.
  intros H Hne. unfold words. transitivity (words_aux (w ++ []) []); [by rewrite app_nil_r|].
  rewrite words_aux_word by done. simpl. by destruct w.
Qed.

(** [line.size() > n && line.substr(0, n) == p] with [n] the length of [p]. *)
Definition has_prefix (p line : bytes) : bool := (length p <? length line) && starts_with p line.

Lemma has_prefix_app p s : s <> [] -> has_prefix p (p ++ s) = true.
Proof.
  intros H. unfold has_prefix. rewrite starts_with_app, andb_true_r, length_app.
  apply Nat.ltb_lt. destruct s; [done|simpl; lia].
Qed.

Lemma find_char_app c s rest : Forall (fun x => x <> c) s -> find_char c (s ++ c :: rest) = Some (length s).
Proof.
  induction 1 as [|x s Hx _ IH]; simpl; [by rewrite Z.eqb_refl|].
  by rewrite (proj2 (Z.eqb_neq x c)), IH.
Qed.

(** The literals [p] and [q] differ at a position both have. *)
Fixpoint mismatch (p q : bytes) : bool :=
  match p, q with
  | x :: p', y :: q' => if (x =? y)%Z then mismatch p' q' else true
  | _, _ => false
  end.

Lemma has_prefix_mismatch p q s : mismatch p q = true -> has_prefix p (q ++ s) = false.
Proof.
  intros H. unfold has_prefix. apply andb_false_iff. right. revert q H.
  induction p as [|x p IH]; intros [|y q] H; try done. simpl in *.
  destruct (x =? y)%Z; [by apply IH|done].
Qed.
