(* ===== verification/Compression.v ===== *)
(** * Column compression codecs ([src/compression/])

    [Compressor] is the abstract class of [compressor.hpp]; [Rle], [Lz4],
    [Dict] and [Zstd] are its four implementations.  A codec is used through
    the class [Lossless], which promises that [decompress] undoes [compress];
    [Zstd], which stacks [Lz4] on [Rle], is verified against that promise. *)

From S2P Require Import Prelude.

(** The interface of [compressor.hpp]: both members are pure ([const]). *)
Class Compressor (C : Type) : Type := {
  compress : C -> bytes -> bytes;
  decompress : C -> bytes -> result bytes
}.

(** What a client relies on: the inputs in [ok] survive the round trip. *)
Class Lossless (C : Type) `{Compressor C} (ok : C -> bytes -> Prop) : Prop :=
  lossless c s : ok c s -> decompress c (compress c s) = Ok s.

Inductive CompressionType := NONE | LZ4 | RLE | DICTIONARY | ZSTD.

#[export] Instance CompressionType_eq_dec : EqDecision CompressionType.
Proof. solve_decision. Defined.

Definition parseCompressionType (s : bytes) : CompressionType :=
  let lower := map to_lower s in
  if bytes_eqb lower (str "lz4") then LZ4
  else if bytes_eqb lower (str "rle") then RLE
  else if bytes_eqb lower (str "dictionary") || bytes_eqb lower (str "dict") then DICTIONARY
  else if bytes_eqb lower (str "zstd") then ZSTD
  else NONE.

Definition compressionTypeName (t : CompressionType) : bytes :=
  match t with
  | LZ4 => str "lz4"
  | RLE => str "rle"
  | DICTIONARY => str "dictionary"
  | ZSTD => str "zstd"
  | NONE => str "none"
  end.

(** [src[i]] for an index the loops keep in range. *)
Definition at_ (src : bytes) (i : nat) : byte := nth i src 0%Z.

Definition same_at (src : bytes) (i j : nat) : bool := (at_ src i =? at_ src j)%Z.

Module Rle.
(** [while (i + runLen < srcLen && runLen < 255 && src[i + runLen] == src[i]) ++runLen;] *)
Fixpoint run_len (fuel : nat) (src : bytes) (i runLen : nat) : nat :=
  match fuel with
  | O => runLen
  | S f =>
      if (i + runLen <? length src) && (runLen <? 255) && same_at src (i + runLen) i
      then run_len f src i (S runLen) else runLen
  end.

(** [while (j + peek < srcLen && peek < 3 && src[j + peek] == src[j]) ++peek;]
    where the source's [j] is [i + litLen]. *)
Fixpoint peek_len (fuel : nat) (src : bytes) (j peek : nat) : nat :=
  match fuel with
  | O => peek
  | S f =>
      if (j + peek <? length src) && (peek <? 3) && same_at src (j + peek) j
      then peek_len f src j (S peek) else peek
  end.

(** The literal run; both [litLen] and [i] advance, as in the source. *)
Fixpoint lit_run (fuel : nat) (src : bytes) (i litLen : nat) : nat * nat :=
  match fuel with
  | O => (i, litLen)
  | S f =>
      if (i <? length src) && (litLen <? 255) then
        if 3 <=? peek_len 3 src (i + litLen) 1 then (i, litLen)
        else lit_run f src (S i) (S litLen)
      else (i, litLen)
  end.

Fixpoint compress_loop (fuel : nat) (src : bytes) (i : nat) (out : bytes) : bytes :=
  match fuel with
  | O => out
  | S f =>
      if i <? length src then
        let runLen := run_len 255 src i 1 in
        if 3 <=? runLen then
          compress_loop f src (i + runLen)
            (out ++ [1%Z; u8 (Z.of_nat runLen); at_ src i])
        else
          let '(i', litLen) := lit_run 255 src i 0 in
          if litLen =? 0 then
            compress_loop f src (S i') (out ++ [0%Z; 1%Z; at_ src i'])
          else
            compress_loop f src i'
              (out ++ [0%Z; u8 (Z.of_nat litLen)] ++ take litLen (drop i src))
      else out
  end.

Definition compress (input : bytes) : bytes := compress_loop (length input) input 0 [].

(** [data] is what is left to read, [out] what has been produced. *)
Fixpoint decompress_loop (fuel : nat) (data out : bytes) : result bytes :=
  match fuel with
  | O => Ok out
  | S f =>
      match data with
      | [] => Ok out
      | [_] => Throw "RLE decompress: truncated data"
      | marker :: count :: rest =>
          if (marker =? 1)%Z then
            match rest with
            | [] => Throw "RLE decompress: missing run byte"
            | b :: rest' =>
                decompress_loop f rest' (out ++ replicate (Z.to_nat count) b)
            end
          else if length rest <? Z.to_nat count then
            Throw "RLE decompress: truncated literals"
          else decompress_loop f (drop (Z.to_nat count) rest)
                 (out ++ take (Z.to_nat count) rest)
      end
  end.

Definition decompress (data : bytes) : result bytes :=
  decompress_loop (length data) data [].

(** *** Specification of the run scanners *)

Lemma run_len_spec fuel src i r :
  1 <= r <= 255 -> i + r <= length src ->
  take r (drop i src) = replicate r (at_ src i) ->
  let r' := run_len fuel src i r in
  r <= r' <= 255 /\ i + r' <= length src /\
  take r' (drop i src) = replicate r' (at_ src i).
Proof.
  revert r. induction fuel as [|f IH]; intros r Hr Hl Ht; simpl; [auto with lia|].
  case_if; [|auto with lia]. unfold same_at in *. to_prop.
  destruct (IH (S r)) as (? & ? & ?); try lia; [|auto with lia].
  rewrite (take_S_nth 0%Z) by (rewrite length_drop; lia).
  rewrite nth_drop, Ht. unfold at_ in *.
  match goal with E : nth (i + r) src _ = _ |- _ => rewrite E end.
  by rewrite replicate_S_end.
Qed.

Lemma run_len_first src i :
  i < length src ->
  let r := run_len 255 src i 1 in
  1 <= r <= 255 /\ i + r <= length src /\
  take r (drop i src) = replicate r (at_ src i).
Proof.
  intros Hi. apply run_len_spec; try lia.
  by rewrite (drop_nth 0%Z) by done.
Qed.

Lemma lit_run_spec fuel src i l :
  i <= length src -> l <= 255 ->
  let '(i', l') := lit_run fuel src i l in
  l <= l' <= 255 /\ i' + l = i + l' /\ i' <= length src.
Proof.
  revert i l. induction fuel as [|f IH]; intros i l Hi Hl; cbn [lit_run]; [lia|].
  repeat case_if; try lia.
  specialize (IH (S i) (S l)). destruct (lit_run f src (S i) (S l)). lia.
Qed.

(** *** Compression, token by token *)

Lemma rle_compress_app f src i out :
  compress_loop f src i out = out ++ compress_loop f src i [].
Proof.
  revert i out. induction f as [|f IH]; intros i out; cbn [compress_loop].
  { by rewrite app_nil_r. }
  destruct (i <? length src); [|by rewrite app_nil_r].
  destruct (3 <=? _).
  { rewrite IH, (IH _ ([] ++ _)). by rewrite <- app_assoc. }
  destruct (lit_run _ _ _ _) as [i' l']. destruct (l' =? 0).
  all: rewrite IH, (IH _ ([] ++ _)); by rewrite <- app_assoc.
Qed.

Lemma rle_decompress_compress f src i fd out :
  i <= length src -> length src - i <= f ->
  length (compress_loop f src i []) <= fd ->
  decompress_loop fd (compress_loop f src i []) out = Ok (out ++ drop i src).
Proof.
  revert i fd out. induction f as [|f IH]; intros i fd out Hi Hf.
  { intros _. rewrite drop_ge by lia. rewrite app_nil_r. by destruct fd. }
  cbn [compress_loop]. case_if.
  2: { intros _. rewrite drop_ge by lia. rewrite app_nil_r. by destruct fd. }
  pose proof (run_len_first src i ltac:(done)) as (Hr & Hri & Ht).
  set (r := run_len 255 src i 1) in *. case_if.
  - rewrite rle_compress_app. cbn [app length]. intros Hfd.
    destruct fd as [|fd]; [lia|]. cbn [app decompress_loop Z.eqb Pos.eqb].
    rewrite u8_id by (unfold wf_byte; lia). rewrite Nat2Z.id.
    rewrite IH by lia. rewrite <- app_assoc, <- Ht.
    do 2 f_equal. rewrite <- drop_drop. by rewrite take_drop.
  - pose proof (lit_run_spec 255 src i 0) as Hlit.
    destruct (lit_run 255 src i 0) as [i' l']. specialize (Hlit ltac:(lia) ltac:(lia)).
    case_if; rewrite rle_compress_app; cbn [app length];
      rewrite ?length_app, ?length_take, ?length_drop; intros Hfd;
      (destruct fd as [|fd]; [lia|]); cbn [app decompress_loop Z.eqb Pos.eqb].
    + assert (i' = i) as -> by lia.
      replace (Z.to_nat 1) with 1 by done. cbn [length take drop].
      case_if; [simpl in *; lia|]. rewrite drop_0, take_0, IH by lia. rewrite <- app_assoc.
      by rewrite (drop_nth 0%Z i src) by done.
    + rewrite u8_id by (unfold wf_byte; lia). rewrite Nat2Z.id.
      rewrite length_app, length_take, length_drop.
      case_if; [lia|].
      rewrite take_app_length', drop_app_length' by (rewrite length_take, length_drop; lia).
      rewrite IH by lia. rewrite <- app_assoc. do 2 f_equal.
      replace i' with (i + l') by lia. rewrite <- drop_drop. by rewrite take_drop.
Qed.
End Rle.

Inductive RleCompressor : Type := mkRle.

#[export] Instance rle_compressor : Compressor RleCompressor :=
  {| compress := fun _ => Rle.compress; decompress := fun _ => Rle.decompress |}.

#[export] Instance rle_lossless : Lossless RleCompressor (fun _ _ => True).
Proof.
  intros c s _. simpl. unfold Rle.decompress, Rle.compress.
  rewrite Rle.rle_decompress_compress by lia. by rewrite drop_0.
Qed.

Module Lz4.
(** [while (pos + matchLen < srcLen && matchLen < 255 && src[back + matchLen]
    == src[pos + matchLen]) ++matchLen;] *)
Fixpoint match_len (fuel : nat) (src : bytes) (back pos m : nat) : nat :=
  match fuel with
  | O => m
  | S f =>
      if (pos + m <? length src) && (m <? 255) && same_at src (back + m) (pos + m)
      then match_len f src back pos (S m) else m
  end.

(** One candidate of the window; the state is [(bestOffset, bestLen)]. *)
Definition try_back (src : bytes) (pos : nat) (best : nat * nat) (back : nat) : nat * nat :=
  let matchLen := match_len 255 src back pos 0 in
  if (4 <=? matchLen) && (best.2 <? matchLen) then (pos - back, matchLen) else best.

Definition best_match (src : bytes) (pos : nat) : nat * nat :=
  let windowStart := if 4096 <? pos then pos - 4096 else 0 in
  fold_left (try_back src pos) (seq windowStart (pos - windowStart)) (0, 0).

Fixpoint compress_loop (fuel : nat) (src : bytes) (pos : nat) (out : bytes) : bytes :=
  match fuel with
  | O => out
  | S f =>
      if pos <? length src then
        let '(bestOffset, bestLen) := best_match src pos in
        if 4 <=? bestLen then
          compress_loop f src (pos + bestLen)
            (out ++ [255%Z; byte_at (Z.of_nat bestOffset) 0;
                     byte_at (Z.of_nat bestOffset) 8; u8 (Z.of_nat bestLen)])
        else compress_loop f src (S pos) (out ++ [0%Z; at_ src pos])
      else out
  end.

Definition compress (input : bytes) : bytes := compress_loop (length input) input 0 [].

(** [for (k = 0; k < mlen; ++k) out.push_back(out[copyFrom + k]);] *)
Fixpoint copy_back (mlen copyFrom : nat) (out : bytes) : bytes :=
  match mlen with
  | O => out
  | S m => copy_back m (S copyFrom) (out ++ [at_ out copyFrom])
  end.

Fixpoint decompress_loop (fuel : nat) (data out : bytes) : result bytes :=
  match fuel with
  | O => Ok out
  | S f =>
      match data with
      | [] => Ok out
      | tag :: rest =>
          if (tag =? 255)%Z then
            match rest with
            | offLo :: offHi :: mlen :: rest' =>
                let offset := Z.to_nat (Z.lor offLo (Z.shiftl offHi 8)) in
                if (offset =? 0) || (length out <? offset) then
                  Throw "LZ4 decompress: invalid offset"
                else decompress_loop f rest'
                       (copy_back (Z.to_nat mlen) (length out - offset) out)
            | _ => Throw "LZ4 decompress: truncated match token"
            end
          else
            match rest with
            | [] => Throw "LZ4 decompress: truncated literal token"
            | b :: rest' => decompress_loop f rest' (out ++ [b])
            end
      end
  end.

Definition decompress (data : bytes) : result bytes :=
  decompress_loop (length data) data [].

(** *** What the window search returns *)

Definition is_match (src : bytes) (pos off len : nat) : Prop :=
  1 <= off <= 4096 /\ off <= pos /\ len <= 255 /\ pos + len <= length src /\
  forall k, k < len -> at_ src (pos - off + k) = at_ src (pos + k).

Lemma match_len_spec fuel src back pos m :
  m <= 255 -> pos + m <= length src ->
  (forall k, k < m -> at_ src (back + k) = at_ src (pos + k)) ->
  let m' := match_len fuel src back pos m in
  m' <= 255 /\ pos + m' <= length src /\
  forall k, k < m' -> at_ src (back + k) = at_ src (pos + k).
Proof.
  revert m. induction fuel as [|f IH]; intros m Hm Hl Hk; simpl; [done|].
  case_if; [|done]. unfold same_at in *. to_prop. apply IH; try lia.
  intros k Hkm. destruct (decide (k = m)) as [->|]; [done|]. apply Hk. lia.
Qed.

Lemma best_match_spec src pos :
  pos < length src ->
  let '(off, len) := best_match src pos in 4 <= len -> is_match src pos off len.
Proof.
  intros Hpos. unfold best_match.
  set (ws := if 4096 <? pos then pos - 4096 else 0).
  assert (forall b, b ∈ seq ws (pos - ws) -> b < pos /\ pos - b <= 4096) as Hb.
  { intros b Hb. apply elem_of_seq in Hb. subst ws. destruct (4096 <? pos) eqn:E; to_prop; lia. }
  assert (forall l best, (forall b, b ∈ l -> b < pos /\ pos - b <= 4096) ->
            (4 <= best.2 -> is_match src pos best.1 best.2) ->
            let '(off, len) := fold_left (try_back src pos) l best in
            4 <= len -> is_match src pos off len) as Hfold.
  { intros l. induction l as [|b l IHl]; intros [o n] Hl Hbest; cbn [fold_left]; [done|].
    apply IHl; [intros ? ?; apply Hl; rewrite elem_of_cons; auto|].
    unfold try_back. case_if; [|done]. cbn [fst snd] in *. intros _.
    destruct (Hl b ltac:(rewrite elem_of_cons; auto)).
    pose proof (match_len_spec 255 src b pos 0) as (Hm1 & Hm2 & Hm3); try lia.
    repeat split; try lia. intros k Hk. replace (pos - (pos - b) + k) with (b + k) by lia.
    auto. }
  apply Hfold; [done|]. simpl. lia.
Qed.

(** *** Replaying a match rebuilds the source *)

Lemma copy_back_spec n src p off :
  1 <= off -> off <= p -> p + n <= length src ->
  (forall k, k < n -> at_ src (p - off + k) = at_ src (p + k)) ->
  copy_back n (p - off) (take p src) = take (p + n) src.
Proof.
  revert p. induction n as [|n IH]; intros p H1 H2 H3 Hk; simpl.
  { by rewrite Nat.add_0_r. }
  assert (at_ (take p src) (p - off) = at_ src p) as ->.
  { unfold at_. rewrite nth_take by lia. specialize (Hk 0 ltac:(lia)).
    by rewrite !Nat.add_0_r in Hk. }
  unfold at_. rewrite <- (take_S_nth 0%Z p src) by lia.
  replace (S (p - off)) with (S p - off) by lia. rewrite IH by
    (try lia; intros k Hk'; replace (S p - off + k) with (p - off + S k) by lia;
     replace (S p + k) with (p + S k) by lia; apply Hk; lia).
  f_equal. lia.
Qed.

Lemma offset_bytes (n : nat) :
  n <= 4096 ->
  Z.to_nat (Z.lor (byte_at (Z.of_nat n) 0) (Z.shiftl (byte_at (Z.of_nat n) 8) 8)) = n.
Proof. intros Hn. rewrite two_bytes, Z.mod_small by lia. lia. Qed.

Lemma lz4_compress_app f src i out :
  compress_loop f src i out = out ++ compress_loop f src i [].
Proof.
  revert i out. induction f as [|f IH]; intros i out; cbn [compress_loop].
  { by rewrite app_nil_r. }
  destruct (i <? length src); [|by rewrite app_nil_r].
  destruct (best_match src i) as [o n]. destruct (4 <=? n).
  all: rewrite IH, (IH _ ([] ++ _)); by rewrite <- app_assoc.
Qed.

Lemma lz4_decompress_compress f src pos fd :
  pos <= length src -> length src - pos <= f ->
  length (compress_loop f src pos []) <= fd ->
  decompress_loop fd (compress_loop f src pos []) (take pos src) = Ok src.
Proof.
  revert pos fd. induction f as [|f IH]; intros pos fd Hp Hf.
  { intros _. rewrite take_ge by lia. by destruct fd. }
  cbn [compress_loop]. case_if.
  2: { intros _. rewrite take_ge by lia. by destruct fd. }
  pose proof (best_match_spec src pos ltac:(done)) as Hm.
  destruct (best_match src pos) as [off len].
  case_if; rewrite lz4_compress_app; cbn [app length]; intros Hfd;
    (destruct fd as [|fd]; [lia|]); cbn [decompress_loop Z.eqb Pos.eqb].
  - destruct (Hm ltac:(done)) as (H1 & H2 & H3 & H4 & H5).
    rewrite offset_bytes by lia. rewrite length_take_le by lia.
    rewrite (proj2 (Nat.eqb_neq off 0)) by lia. rewrite (proj2 (Nat.ltb_ge pos off)) by lia.
    cbn [orb]. rewrite u8_id by (unfold wf_byte; lia). rewrite Nat2Z.id.
    rewrite copy_back_spec by (done || lia). apply IH; lia.
  - unfold at_. rewrite <- take_S_nth by lia. apply IH; lia.
Qed.
End Lz4.

Inductive Lz4Compressor : Type := mkLz4.

#[export] Instance lz4_compressor : Compressor Lz4Compressor :=
  {| compress := fun _ => Lz4.compress; decompress := fun _ => Lz4.decompress |}.

#[export] Instance lz4_lossless : Lossless Lz4Compressor (fun _ _ => True).
Proof.
  intros c s _. simpl. unfold Lz4.decompress, Lz4.compress.
  change (@nil Z) with (take 0 s) at 3.
  apply Lz4.lz4_decompress_compress; lia.
Qed.

Module Dict.
Record DictCompressor := mkDict {
  dict_ : gmap bytes byte;          (* string → code *)
  reverseDict_ : gmap byte bytes    (* code → string *)
}.

(** [freq[v]++] for the non-empty values other than ["NULL"]. *)
Definition frequencies (values : list bytes) : gmap bytes nat :=
  fold_left (fun freq v =>
    if bytes_eqb v [] || bytes_eqb v (str "NULL") then freq
    else <[v := S (default 0 (freq !! v))]> freq) values ∅.

(** The loop that numbers the ranked words from [i]. *)
Fixpoint assign_codes (i : nat) (ranked : list (nat * bytes)) (d : DictCompressor)
    : DictCompressor :=
  match ranked with
  | [] => d
  | (_, w) :: rest =>
      let code := u8 (Z.of_nat i) in
      assign_codes (S i) rest
        {| dict_ := <[w := code]> (dict_ d); reverseDict_ := <[code := w]> (reverseDict_ d) |}
  end.

(** [sort] is [std::sort] by decreasing frequency; the order it gives words
    of equal frequency is not specified by the language. *)
Definition buildDictionary (sort : list (nat * bytes) -> list (nat * bytes))
    (values : list bytes) : DictCompressor :=
  let ranked := sort (map (fun kv => (kv.2, kv.1)) (str_iter (frequencies values))) in
  let limit := Nat.min (length ranked) 256 in
  assign_codes 0 (take limit ranked) {| dict_ := ∅; reverseDict_ := ∅ |}.

Definition compress (d : DictCompressor) (input : bytes) : bytes :=
  match dict_ d !! input with
  | Some code => [1%Z; code]
  | None =>
      let len := Z.of_nat (length input) in
      [0%Z; byte_at len 0; byte_at len 8] ++ input
  end.

Definition decompress (d : DictCompressor) (data : bytes) : result bytes :=
  match data with
  | [] => Throw "Dict decompress: empty data"
  | tag :: rest =>
      if (tag =? 1)%Z then
        match rest with
        | [] => Throw "Dict decompress: truncated dict token"
        | code :: _ =>
            match reverseDict_ d !! code with
            | None => Throw "Dict decompress: unknown code"
            | Some w => Ok w
            end
        end
      else
        match rest with
        | lo :: hi :: body =>
            let len := Z.to_nat (Z.lor lo (Z.shiftl hi 8)) in
            if length body <? len then Throw "Dict decompress: truncated literal data"
            else Ok (take len body)
        | _ => Throw "Dict decompress: truncated literal"
        end
  end.

Definition hasDictionary (d : DictCompressor) : bool :=
  negb (bool_decide (dict_ d = ∅)).

Definition compressAll (d : DictCompressor) (values : list bytes) : bytes :=
  fold_left (fun out v => out ++ compress d v) values [].

(** The two maps of a dictionary agree. *)
Definition coherent (d : DictCompressor) : Prop :=
  forall w c, dict_ d !! w = Some c -> reverseDict_ d !! c = Some w.

Lemma assign_codes_coherent ranked i d :
  coherent d ->
  (forall c w, reverseDict_ d !! c = Some w -> (0 <= c < Z.of_nat i)%Z) ->
  NoDup ranked.*2 -> (forall p, p ∈ ranked -> dict_ d !! p.2 = None) ->
  i + length ranked <= 256 ->
  coherent (assign_codes i ranked d).
Proof.
  revert i d. induction ranked as [|[n w] rest IH]; intros i d Hc Hr Hnd Hfree Hlen;
    cbn [assign_codes]; [done|].
  simpl in Hnd, Hlen. apply NoDup_cons in Hnd as [Hw Hnd].
  rewrite u8_id by (unfold wf_byte; lia).
  apply IH; cbn [dict_ reverseDict_]; try done; try lia.
  - intros w' c. destruct (decide (w = w')) as [<-|Hne]; cbn [dict_ reverseDict_].
    { rewrite lookup_insert_eq. intros [= <-]. apply lookup_insert_eq. }
    rewrite lookup_insert_ne by done. intros Hw'. pose proof (Hc _ _ Hw') as Hrev.
    rewrite lookup_insert_ne; [done|]. specialize (Hr _ _ Hrev). lia.
  - intros c w'. destruct (decide (c = Z.of_nat i)) as [->|]; [lia|].
    rewrite lookup_insert_ne by done. intros H. specialize (Hr _ _ H). lia.
  - intros [n' w'] Hp. cbn [snd]. rewrite lookup_insert_ne.
    + apply (Hfree (n', w')). rewrite elem_of_cons; auto.
    + intros ->. apply Hw. apply list_elem_of_fmap. by exists (n', w').
Qed.

Lemma buildDictionary_coherent sort values :
  (forall l, sort l ≡ₚ l) -> coherent (buildDictionary sort values).
Proof.
  intros Hsort. unfold buildDictionary.
  set (l := map _ (str_iter (frequencies values))).
  assert (NoDup (sort l).*2) as Hnd.
  { rewrite Hsort. unfold l. rewrite <- list_fmap_compose.
    apply (NoDup_fst_map_iter bytes_le (frequencies values)). }
  apply assign_codes_coherent; cbn [dict_ reverseDict_].
  - intros w c; cbn [dict_]. by rewrite lookup_empty.
  - intros c w. by rewrite lookup_empty.
  - rewrite fmap_take. exact (sublist_NoDup _ _ Hnd (sublist_take _ _)).
  - intros p _. apply lookup_empty.
  - rewrite length_take. lia.
Qed.

Lemma decompress_compress d s :
  coherent d ->
  decompress d (compress d s) =
    Ok (match dict_ d !! s with
        | Some _ => s
        | None => take (Z.to_nat (Z.of_nat (length s) mod 65536)) s
        end).
Proof.
  intros Hc. unfold compress. destruct (dict_ d !! s) as [c|] eqn:E; cbn [decompress app].
  { cbn [Z.eqb Pos.eqb]. by rewrite (Hc _ _ E). }
  cbn [Z.eqb]. rewrite two_bytes by lia. case_if; [|done].
  pose proof (Z.mod_le (Z.of_nat (length s)) 65536). lia.
Qed.
End Dict.

#[export] Instance dict_compressor : Compressor Dict.DictCompressor :=
  {| compress := Dict.compress; decompress := Dict.decompress |}.

#[export] Instance dict_lossless :
  Lossless Dict.DictCompressor
    (fun d s => Dict.coherent d /\ (Z.of_nat (length s) < 65536)%Z).
Proof.
  intros d s [Hc Hl]. simpl. rewrite Dict.decompress_compress by done.
  rewrite Z.mod_small, Nat2Z.id, take_ge by lia. by destruct (_ !! _).
Qed.

Module Zstd.
Inductive ZstdCompressor : Type := mkZstd.

(** Header byte, the two sizes in little-endian order, then the payload. *)
Definition le_header (n : Z) : bytes := [byte_at n 0; byte_at n 8; byte_at n 16; byte_at n 24].

Definition compress (input : bytes) : bytes :=
  let rleOut := compress mkRle input in
  let lz4Out := compress mkLz4 rleOut in
  let origSize := u32 (Z.of_nat (length input)) in
  let rleSize := u32 (Z.of_nat (length rleOut)) in
  171%Z :: le_header origSize ++ le_header rleSize ++ lz4Out.

Definition decompress (data : bytes) : result bytes :=
  if (length data <? 9) || negb (at_ data 0 =? 171)%Z
  then Throw "ZSTD decompress: invalid header"
  else
    let rleSize := Z.lor (Z.lor (Z.lor (at_ data 5) (Z.shiftl (at_ data 6) 8))
                     (Z.shiftl (at_ data 7) 16)) (Z.shiftl (at_ data 8) 24) in
    rleStr ← decompress mkLz4 (drop 9 data);
    if negb (Z.of_nat (length rleStr) =? rleSize)%Z
    then Throw "ZSTD decompress: RLE size mismatch"
    else decompress mkRle rleStr.
End Zstd.

#[export] Instance zstd_compressor : Compressor Zstd.ZstdCompressor :=
  {| compress := fun _ => Zstd.compress; decompress := fun _ => Zstd.decompress |}.

#[export] Instance zstd_lossless :
  Lossless Zstd.ZstdCompressor
    (fun _ s => (Z.of_nat (length (compress mkRle s)) < 2 ^ 32)%Z).
Proof.
  intros c s Hlen. cbn [compress decompress zstd_compressor]. unfold Zstd.compress.
  set (r := compress mkRle s) in *.
  unfold Zstd.decompress, Zstd.le_header. cbn [app length Nat.ltb Nat.leb at_ nth negb orb Z.eqb Pos.eqb drop skipn].
  rewrite four_bytes by (apply Z.mod_pos_bound; lia).
  rewrite drop_0, (lossless mkLz4 r I). cbn [mbind result_bind].
  rewrite (u32_id (Z.of_nat (length r))) by lia.
  rewrite Z.mod_small by lia. rewrite Z.eqb_refl. cbn [negb].
  apply (lossless mkRle s I).
Qed.

(** ** Properties *)

(** [C18] The LZ4-style codec loses nothing: for every input the decompressor
    gives the input back (window search, overlapping copies and token framing
    included), and it never throws on compressor output. *)
Theorem lz4_roundtrip (s : bytes) : Lz4.decompress (Lz4.compress s) = Ok s.
Proof. exact (lossless mkLz4 s I). Qed.

(** The run-length codec loses nothing, although the literal scanner
    advances the cursor and the literal counter together. *)
Theorem rle_roundtrip (s : bytes) : Rle.decompress (Rle.compress s) = Ok s.
Proof. exact (lossless mkRle s I). Qed.

(** The two-pass codec loses nothing as long as the size of the first
    pass fits the 32-bit header field it is checked against. *)
Theorem zstd_roundtrip (s : bytes) :
  (Z.of_nat (length (Rle.compress s)) < 2 ^ 32)%Z ->
  Zstd.decompress (Zstd.compress s) = Ok s.
Proof. exact (lossless Zstd.mkZstd s). Qed.

Lemma zstd_roundtrip_witness :
  (Z.of_nat (length (Rle.compress (str "aaaaaaabbbbbcaaaaaaab"))) < 2 ^ 32)%Z /\
  Zstd.decompress (Zstd.compress (str "aaaaaaabbbbbcaaaaaaab")) = Ok (str "aaaaaaabbbbbcaaaaaaab").
Proof. split; [vm_compute; reflexivity | apply zstd_roundtrip; vm_compute; reflexivity]. Defined.

(** With the dictionary built from any column, whatever order equally
    frequent words are ranked in, a dictionary word is recovered exactly and
    any other string is recovered up to its length modulo 65536: literals of
    64 KiB and more are cut silently. *)
Theorem dict_roundtrip sort values (s : bytes) :
  (forall l, sort l ≡ₚ l) ->
  let d := Dict.buildDictionary sort values in
  Dict.decompress d (Dict.compress d s) =
    Ok (match Dict.dict_ d !! s with
        | Some _ => s
        | None => take (Z.to_nat (Z.of_nat (length s) mod 65536)) s
        end).
Proof. intros Hs. by apply Dict.decompress_compress, Dict.buildDictionary_coherent. Qed.

Lemma dict_roundtrip_witness :
  let d := Dict.buildDictionary (fun l => l) [str "x"; str "ab"; str "x"] in
  (forall l : list (nat * bytes), l ≡ₚ l) /\
  Dict.decompress d (Dict.compress d (str "x")) = Ok (str "x").
Proof.
  split; [reflexivity|].
  rewrite (dict_roundtrip (fun l => l) [str "x"; str "ab"; str "x"] (str "x")) by reflexivity.
  vm_compute. reflexivity.
Defined.
