(* ===== verification/Index.v ===== *)
(** * The interface between tables and their indices

    [Table] stores, per index, a tree mapping a column value to the numbers of
    the rows that hold it.  [RowIndex] is what a table calls, [RowIndexSpec]
    what it relies on; the B-tree discharges both in [BTree]. *)

From S2P Require Import Prelude.

Class RowIndex (tree : Type) := {
  ri_empty : tree;
  ri_insert : tree -> bytes -> nat -> tree;
  ri_search : tree -> bytes -> list nat;
  ri_clear : tree -> tree }.

Class RowIndexSpec (tree : Type) `{RowIndex tree} := {
  ri_ok : tree -> Prop;
  ri_ok_clear t : ri_ok (ri_clear t);
  ri_ok_empty : ri_ok ri_empty;
  ri_ok_insert t k r : ri_ok t -> ri_ok (ri_insert t k r);
  ri_search_clear t k : ri_search (ri_clear t) k = [];
  ri_search_empty k : ri_search ri_empty k = [];
  ri_search_insert t k r k' :
    ri_ok t ->
    ri_search (ri_insert t k r) k' =
      if bytes_eqb k' k then ri_search t k' ++ [r] else ri_search t k' }.

(** Filling an index from a sequence of (value, row number) pairs. *)
Definition ri_fill {tree} `{RowIndex tree} (t : tree) (kvs : list (bytes * nat)) : tree :=
  fold_left (fun t kv => ri_insert t kv.1 kv.2) kvs t.

Definition rows_for (k : bytes) (kvs : list (bytes * nat)) : list nat :=
  map snd (List.filter (fun kv => bytes_eqb k kv.1) kvs).

Section fill.
Context {tree : Type} `{RowIndexSpec tree}.

Lemma ri_fill_spec t kvs :
  ri_ok t -> ri_ok (ri_fill t kvs) /\
    forall k, ri_search (ri_fill t kvs) k = ri_search t k ++ rows_for k kvs.
Proof.
  revert t. induction kvs as [|[k r] kvs IH]; intros t Hok.
  { split; [done|]. intros k. by rewrite app_nil_r. }
  destruct (IH (ri_insert t k r)) as [H1 H2]; [by apply ri_ok_insert|]. split; [done|].
  intros k'. unfold ri_fill, rows_for in *. cbn [fold_left List.filter fst snd].
  rewrite H2, ri_search_insert by done.
  destruct (bytes_eqb k' k); simpl; [by rewrite <- app_assoc|done].
Qed.
End fill.
