(* ===== verification/BTree.v ===== *)
(** * The B-tree index ([src/engine/btree.hpp])

    [node] is [BTree::Node]; [insert], [search], [rangeSearch], [clear] and
    [keyCount] are the public members, [splitChild], [insertNonFull],
    [searchNode], [rangeCollect] and [countKeys] the private ones.  The
    recursive members take the height of the tree as fuel.

    [flatten] reads a tree in order.  The abstract index is a sorted list of
    entries with the insertion [ins] and the lookup [find]; the theorems show
    that the tree implements it, stays sorted, balanced and within the
    occupancy bounds of a B-tree of minimum degree 3. *)

From S2P Require Import Prelude Index.

Definition T : nat := 3.
Definition MAX_KEYS : nat := 2 * T - 1.
Definition MIN_KEYS : nat := T - 1.

Inductive node : Type :=
  Node (isLeaf : bool) (keys : list bytes) (rowIndices : list (list nat)) (children : list node).

Definition isLeaf (n : node) : bool := let 'Node lf _ _ _ := n in lf.
Definition keys (n : node) : list bytes := let 'Node _ ks _ _ := n in ks.
Definition rowIndices (n : node) : list (list nat) := let 'Node _ _ rs _ := n in rs.
Definition children (n : node) : list node := let 'Node _ _ _ cs := n in cs.

Definition isFull (n : node) : bool := length (keys n) =? MAX_KEYS.

(** A tree is its root. *)
Abbreviation BTree := node (only parsing).
Definition empty : BTree := Node true [] [] [].

(** [v.insert(v.begin() + i, x)] *)
Definition insert_at {A} (i : nat) (x : A) (l : list A) : list A := take i l ++ x :: drop i l.

(** Levels below and including a node: the fuel of the recursive members. *)
Fixpoint depth (n : node) : nat :=
  let 'Node _ _ _ cs := n in S (fold_right Nat.max 0 (map depth cs)).

(** ** Search *)

(** [while (i < n && key > node->keys[i]) ++i;] from [i], on the remaining keys. *)
Fixpoint scan_left (key : bytes) (ks : list bytes) : nat :=
  match ks with
  | [] => 0
  | k :: ks' => if bytes_ltb k key then S (scan_left key ks') else 0
  end.

Fixpoint searchNode (fuel : nat) (n : node) (key : bytes) : list nat :=
  match fuel with
  | O => []
  | S f =>
      let i := scan_left key (keys n) in
      if (i <? length (keys n)) && bytes_eqb key (nth i (keys n) []) then nth i (rowIndices n) []
      else if isLeaf n then []
      else match children n !! i with
           | Some c => searchNode f c key
           | None => []
           end
  end.

Definition search (t : BTree) (key : bytes) : list nat := searchNode (depth t) t key.

(** ** Insertion *)

Definition splitChild (parent : node) (i : nat) : node :=
  let 'Node lf ks rs cs := parent in
  match cs !! i with
  | None => parent
  | Some (Node ylf yks yrs ycs) =>
      let z := Node ylf (take (T - 1) (drop T yks)) (take (T - 1) (drop T yrs))
                 (if ylf then [] else take T (drop T ycs)) in
      let medKey := nth (T - 1) yks [] in
      let medRows := nth (T - 1) yrs [] in
      let y := Node ylf (take (T - 1) yks) (take (T - 1) yrs)
                 (if ylf then ycs else take T ycs) in
      Node lf (insert_at i medKey ks) (insert_at i medRows rs)
        (insert_at (S i) z (<[i := y]> cs))
  end.

(** [while (i >= 0 && key < keys[i]) --i;] started at the last key; the result
    is the final [i + 1]. *)
Fixpoint scan_right (key : bytes) (ks : list bytes) (i : nat) : nat :=
  match i with
  | O => O
  | S j => if bytes_ltb key (nth j ks []) then scan_right key ks j else i
  end.

(** The duplicate check of a leaf: the first [j] with [keys[j] == key]. *)
Fixpoint find_key (key : bytes) (ks : list bytes) : option nat :=
  match ks with
  | [] => None
  | k :: ks' => if bytes_eqb k key then Some 0 else S <$> find_key key ks'
  end.

(** [rowIndices[j].push_back(rowIdx)] *)
Definition push_row (rowIdx : nat) (j : nat) (rs : list (list nat)) : list (list nat) :=
  alter (fun r => r ++ [rowIdx]) j rs.

Fixpoint insertNonFull (fuel : nat) (n : node) (key : bytes) (rowIdx : nat) : node :=
  match fuel with
  | O => n
  | S f =>
      let 'Node lf ks rs cs := n in
      let i := scan_right key ks (length ks) in
      if lf then
        match find_key key ks with
        | Some j => Node lf ks (push_row rowIdx j rs) cs
        | None => Node lf (insert_at i key ks) (insert_at i [rowIdx] rs) cs
        end
      else if (0 <? i) && bytes_eqb (nth (i - 1) ks []) key then
        Node lf ks (push_row rowIdx (i - 1) rs) cs
      else
        let descend (m : node) (i : nat) :=
          let 'Node lf' ks' rs' cs' := m in
          Node lf' ks' rs' (alter (fun c => insertNonFull f c key rowIdx) i cs') in
        match cs !! i with
        | None => n
        | Some c =>
            if isFull c then
              let m := splitChild n i in
              let med := nth i (keys m) [] in
              if bytes_ltb med key then descend m (S i)
              else if bytes_eqb key med then
                Node (isLeaf m) (keys m) (push_row rowIdx i (rowIndices m)) (children m)
              else descend m i
            else descend n i
        end
  end.

Definition insert (t : BTree) (key : bytes) (rowIdx : nat) : BTree :=
  let root := if isFull t then splitChild (Node false [] [] [t]) 0 else t in
  insertNonFull (depth root) root key rowIdx.

Definition clear (t : BTree) : BTree := empty.

(** ** Counting and range scans *)

Fixpoint countKeys (n : node) : nat :=
  let 'Node _ ks _ cs := n in length ks + list_sum (map countKeys cs).

Definition keyCount (t : BTree) : nat := countKeys t.

Inductive range_op := OpGt | OpGe | OpLt | OpLe | OpBetween | OpOther.

Section range.
(** [double] with [std::stod] and its comparisons; [None] is an exception. *)
Context {dbl : Type} (dzero : dbl) (stod : bytes -> option dbl).
Context (dlt dle : dbl -> dbl -> bool).

(** The comparison of one key, numeric when key and non-empty bounds parse. *)
Definition range_match (lo hi : bytes) (op : range_op) (k : bytes) : bool :=
  let bound b := if bytes_eqb b [] then Some dzero else stod b in
  match stod k, bound lo, bound hi with
  | Some kd, Some lod, Some hid =>
      match op with
      | OpGt => dlt lod kd
      | OpGe => dle lod kd
      | OpLt => dlt kd hid
      | OpLe => dle kd hid
      | OpBetween => dle lod kd && dle kd hid
      | OpOther => false
      end
  | _, _, _ =>
      match op with
      | OpGt => bytes_ltb lo k
      | OpGe => bytes_leb lo k
      | OpLt => bytes_ltb k hi
      | OpLe => bytes_leb k hi
      | OpBetween => bytes_leb lo k && bytes_leb k hi
      | OpOther => false
      end
  end.

(** Children and keys alternate; [result] accumulates. *)
Fixpoint rangeCollect (fuel : nat) (n : node) (lo hi : bytes) (op : range_op)
    (result : list nat) : list nat :=
  match fuel with
  | O => result
  | S f =>
      let 'Node lf ks rs cs := n in
      let visit i result :=
        if lf then result
        else match cs !! i with
             | Some c => rangeCollect f c lo hi op result
             | None => result
             end in
      let step result i :=
        let result := visit i result in
        if range_match lo hi op (nth i ks []) then result ++ nth i rs [] else result in
      let result := fold_left step (seq 0 (length ks)) result in
      if length ks <? length cs then visit (length ks) result else result
  end.

Definition rangeSearch (t : BTree) (lo hi : bytes) (op : range_op) : list nat :=
  rangeCollect (depth t) t lo hi op [].
End range.

(** ** The abstract index *)

Abbreviation entry := (bytes * list nat)%type.

Definition sorted (es : list entry) : Prop := StronglySorted bytes_lt es.*1.

(** Adding a row to a sorted index. *)
Fixpoint ins (key : bytes) (rowIdx : nat) (es : list entry) : list entry :=
  match es with
  | [] => [(key, [rowIdx])]
  | (k, rs) :: es' =>
      match bytes_cmp key k with
      | Lt => (key, [rowIdx]) :: es
      | Eq => (k, rs ++ [rowIdx]) :: es'
      | Gt => (k, rs) :: ins key rowIdx es'
      end
  end.

(** The rows filed under a key; none when it is absent. *)
Fixpoint find (key : bytes) (es : list entry) : list nat :=
  match es with
  | [] => []
  | (k, rs) :: es' => if bytes_eqb key k then rs else find key es'
  end.

Definition keys_lt (es : list entry) (key : bytes) : Prop := Forall (fun e => bytes_lt e.1 key) es.
Definition keys_gt (es : list entry) (key : bytes) : Prop := Forall (fun e => bytes_lt key e.1) es.

Lemma bytes_eqb_spec a b : reflect (a = b) (bytes_eqb a b).
Proof. unfold bytes_eqb. apply bool_decide_reflect. Qed.

Lemma ins_app_r key r es1 es2 : keys_lt es1 key -> ins key r (es1 ++ es2) = es1 ++ ins key r es2.
Proof.
  induction 1 as [|[k rs] es1 Hk _ IH]; simpl; [done|]. simpl in Hk.
  destruct (bytes_cmp_spec key k); [bytes_order|bytes_order|]. by rewrite IH.
Qed.

Lemma ins_app_l key r es1 es2 : keys_gt es2 key -> ins key r (es1 ++ es2) = ins key r es1 ++ es2.
Proof.
  intros H. induction es1 as [|[k rs] es1 IH]; simpl.
  - destruct H as [|[k rs] es2 Hk _]; simpl; [done|]. simpl in Hk.
    destruct (bytes_cmp_spec key k); [bytes_order|done|bytes_order].
  - destruct (bytes_cmp_spec key k); simpl; congruence.
Qed.

Lemma ins_here key r rs es1 es2 :
  keys_lt es1 key -> ins key r (es1 ++ (key, rs) :: es2) = es1 ++ (key, rs ++ [r]) :: es2.
Proof. intros. rewrite ins_app_r by done. simpl. by rewrite bytes_cmp_refl. Qed.

Lemma ins_new key r es1 es2 :
  keys_lt es1 key -> keys_gt es2 key -> ins key r (es1 ++ es2) = es1 ++ (key, [r]) :: es2.
Proof.
  intros. rewrite ins_app_r by done. change es2 with ([] ++ es2) at 1.
  by rewrite ins_app_l.
Qed.

Lemma sorted_cons k rs es : sorted ((k, rs) :: es) <-> keys_gt es k /\ sorted es.
Proof.
  unfold sorted, keys_gt. rewrite fmap_cons. split.
  - intros H. inversion H as [|? ? Hs Hall]; subst. apply (Forall_fmap fst) in Hall. split; [exact Hall | exact Hs].
  - intros [H1 H2]. constructor; [done|]. by apply (Forall_fmap fst).
Qed.

Lemma ins_keys_gt key r es k : bytes_lt k key -> keys_gt es k -> keys_gt (ins key r es) k.
Proof.
  intros Hk H. induction H as [|[k' rs] es Hk' H IH]; simpl.
  - by repeat constructor.
  - unfold keys_gt in *. destruct (bytes_cmp_spec key k'); rewrite !Forall_cons; auto.
Qed.

Lemma keys_gt_trans es k k' : bytes_lt k k' -> keys_gt es k' -> keys_gt es k.
Proof. intros Hk H. eapply Forall_impl; [exact H|]. intros [k'' ?]. simpl. intros. bytes_order. Qed.

Lemma keys_lt_trans es k k' : bytes_lt k k' -> keys_lt es k -> keys_lt es k'.
Proof. intros Hk H. eapply Forall_impl; [exact H|]. intros [k'' ?]. simpl. intros. bytes_order. Qed.

Lemma ins_sorted key r es : sorted es -> sorted (ins key r es).
Proof.
  induction es as [|[k rs] es IH]; intros Hs; simpl.
  { apply sorted_cons. split; [constructor|done]. }
  pose proof Hs as Hs0. apply sorted_cons in Hs as [Hall Hs'].
  destruct (bytes_cmp_spec key k); subst.
  - by apply sorted_cons.
  - apply sorted_cons. split; [|done]. constructor; [done|]. by eapply keys_gt_trans.
  - apply sorted_cons. split; [by apply ins_keys_gt|auto].
Qed.

Lemma sorted_app es1 es2 :
  sorted (es1 ++ es2) <->
  sorted es1 /\ sorted es2 /\ forall e1 e2, e1 ∈ es1 -> e2 ∈ es2 -> bytes_lt e1.1 e2.1.
Proof.
  induction es1 as [|[k rs] es1 IH]; simpl.
  { split; [intros; split_and!; [constructor|done|]|naive_solver].
    intros ? ? Hin. by apply not_elem_of_nil in Hin. }
  rewrite !sorted_cons, IH. unfold keys_gt. rewrite Forall_app, !Forall_forall. split.
  - intros [[H1 H2] (H3 & H4 & H5)]. split_and!; auto. intros e1 e2 He1 He2.
    apply elem_of_cons in He1 as [->|He1]; simpl; auto.
  - intros [[H1 H2] (H3 & H4)]. split_and!; auto.
    + intros e He. apply (H4 (k, rs) e); [by left|done].
    + intros e1 e2 He1 He2. apply H4; [by right|done].
Qed.

Lemma find_app_r key es1 es2 : keys_lt es1 key -> find key (es1 ++ es2) = find key es2.
Proof.
  induction 1 as [|[k rs] es1 Hk _ IH]; simpl; [done|]. simpl in Hk.
  destruct (bytes_eqb_spec key k); [bytes_order|done].
Qed.

Lemma find_none_gt key es : keys_gt es key -> find key es = [].
Proof.
  induction 1 as [|[k rs] es Hk _ IH]; simpl; [done|]. simpl in Hk.
  destruct (bytes_eqb_spec key k); [bytes_order|done].
Qed.

Lemma find_app_l key es1 es2 : keys_gt es2 key -> find key (es1 ++ es2) = find key es1.
Proof.
  intros H. induction es1 as [|[k rs] es1 IH]; simpl; [by apply find_none_gt|].
  by rewrite IH.
Qed.

Lemma find_ins key r es key' :
  sorted es -> find key' (ins key r es) = if bytes_eqb key' key then find key' es ++ [r] else find key' es.
Proof.
  induction es as [|[k rs] es IH]; simpl; intros Hs.
  { by destruct (bytes_eqb_spec key' key). }
  apply sorted_cons in Hs as [Hall Hs'].
  destruct (bytes_cmp_spec key k) as [->|Hlt|Hgt]; simpl.
  - by destruct (bytes_eqb_spec key' k).
  - destruct (bytes_eqb_spec key' key); [subst key'|done].
    destruct (bytes_eqb_spec key k); [bytes_order|].
    by rewrite find_none_gt by (by eapply keys_gt_trans).
  - rewrite IH by done. destruct (bytes_eqb_spec key' k); [subst key'|done].
    destruct (bytes_eqb_spec k key); [bytes_order|done].
Qed.

(** ** In-order contents and shape of a tree *)

Fixpoint interleave (cs : list (list entry)) (es : list entry) : list entry :=
  match cs, es with
  | c :: cs', e :: es' => c ++ e :: interleave cs' es'
  | c :: _, [] => c
  | [], _ => []
  end.

Fixpoint flatten (n : node) : list entry :=
  let 'Node lf ks rs cs := n in
  if lf then zip ks rs else interleave (map flatten cs) (zip ks rs).

(** [shape h n]: [n] is a tree of [h + 1] levels with all leaves at the bottom
    and every node but the root itself between half full and full. *)
Fixpoint shape (h : nat) (n : node) : Prop :=
  let 'Node lf ks rs cs := n in
  length rs = length ks /\
  match h with
  | O => lf = true /\ cs = []
  | S h' =>
      lf = false /\ length cs = S (length ks) /\
      Forall (fun c => shape h' c /\ MIN_KEYS <= length (keys c) <= MAX_KEYS) cs
  end.

(** The invariant of an index tree. *)
Definition wf (t : BTree) : Prop :=
  sorted (flatten t) /\ length (keys t) <= MAX_KEYS /\
  exists h, shape h t /\ (0 < h -> 0 < length (keys t)).

Definition pre (cs : list (list entry)) (es : list entry) : list entry :=
  concat (zip_with (fun c e => c ++ [e]) cs es).
Definition post (es : list entry) (cs : list (list entry)) : list entry :=
  concat (zip_with (fun e c => e :: c) es cs).

Lemma interleave_split cs1 c cs2 es1 es2 :
  length cs1 = length es1 -> length cs2 = length es2 ->
  interleave (cs1 ++ c :: cs2) (es1 ++ es2) = pre cs1 es1 ++ c ++ post es2 cs2.
Proof.
  intros H1 H2. revert es1 H1. induction cs1 as [|c1 cs1 IH]; intros [|e es1] H1; try done.
  - cbn [app pre zip_with concat]. clear H1. revert c cs2 H2.
    induction es2 as [|e es2 IH]; intros c [|c2 cs2] H2; try done.
    + unfold post. simpl. by rewrite app_nil_r.
    + change (interleave (c :: c2 :: cs2) (e :: es2)) with (c ++ e :: interleave (c2 :: cs2) es2).
      rewrite IH by (simpl in *; lia). by unfold post.
  - unfold pre in *. simpl in *. rewrite IH by lia. by rewrite <- !app_assoc.
Qed.

Lemma pre_snoc cs1 c es1 e :
  length cs1 = length es1 -> pre (cs1 ++ [c]) (es1 ++ [e]) = (pre cs1 es1 ++ c) ++ [e].
Proof.
  intros. unfold pre. rewrite zip_with_app by done. rewrite concat_app. simpl.
  by rewrite app_nil_r, app_assoc.
Qed.

Lemma list_middle {A} (l : list A) i :
  i < length l -> exists l1 x l2, l = l1 ++ x :: l2 /\ length l1 = i.
Proof.
  intros Hi. destruct (lookup_lt_is_Some_2 l i Hi) as [x Hx].
  exists (take i l), x, (drop (S i) l). split; [by rewrite take_drop_middle|].
  rewrite length_take. lia.
Qed.

Lemma lookup_middle {A} (l1 : list A) x l2 : (l1 ++ x :: l2) !! length l1 = Some x.
Proof. by rewrite list_lookup_middle. Qed.

Lemma alter_middle {A} (f : A -> A) l1 x l2 :
  alter f (length l1) (l1 ++ x :: l2) = l1 ++ f x :: l2.
Proof. induction l1 as [|y l1 IH]; simpl; [done|]. by f_equal. Qed.

Lemma insert_middle {A} (x y : A) l1 l2 : <[length l1 := y]> (l1 ++ x :: l2) = l1 ++ y :: l2.
Proof. induction l1 as [|z l1 IH]; simpl; [done|]. by f_equal. Qed.

Lemma insert_at_middle {A} (x : A) l1 l2 : insert_at (length l1) x (l1 ++ l2) = l1 ++ x :: l2.
Proof. unfold insert_at. by rewrite take_app_length, drop_app_length. Qed.

Lemma insert_at_app {A} i (x : A) l1 l2 :
  length l1 = i -> insert_at i x (l1 ++ l2) = l1 ++ x :: l2.
Proof. intros <-. apply insert_at_middle. Qed.

Lemma insert_at_next {A} (x y : A) l1 l2 :
  insert_at (S (length l1)) x (l1 ++ y :: l2) = l1 ++ y :: x :: l2.
Proof. unfold insert_at. induction l1 as [|z l1 IH]; simpl in *; [done|]. by f_equal. Qed.

(** Zipping splits where both lists do. *)
Lemma zip_split {A B} (ks ks' : list A) (cs cs' : list B) :
  length ks = length cs -> zip (ks ++ ks') (cs ++ cs') = zip ks cs ++ zip ks' cs'.
Proof. apply zip_with_app. Qed.

Lemma length_zip {A B} (l1 : list A) (l2 : list B) :
  length l1 = length l2 -> length (zip l1 l2) = length l1.
Proof. intros H. rewrite length_zip_with. lia. Qed.

(** A node seen around the child at position [length cs1]. *)
Lemma flatten_at ks1 ks2 rs1 rs2 cs1 c cs2 :
  length rs1 = length ks1 -> length rs2 = length ks2 ->
  length cs1 = length ks1 -> length cs2 = length ks2 ->
  flatten (Node false (ks1 ++ ks2) (rs1 ++ rs2) (cs1 ++ c :: cs2)) =
    pre (map flatten cs1) (zip ks1 rs1) ++ flatten c ++ post (zip ks2 rs2) (map flatten cs2).
Proof.
  intros. cbn [flatten]. rewrite zip_split, map_app by done. cbn [map].
  apply interleave_split; rewrite length_map, length_zip; lia.
Qed.

Lemma in_order_lt L e R : sorted (L ++ e :: R) -> keys_lt L e.1 /\ keys_gt R e.1.
Proof.
  intros Hs. apply sorted_app in Hs as (_ & Hs & Hlt). destruct e as [k r].
  apply sorted_cons in Hs as [Hgt _]. split; [|done]. apply Forall_forall.
  intros e He. apply (Hlt e (k, r)); [done|by left].
Qed.

(** Everything before a child is below a key above the preceding separator. *)
Lemma pre_keys_lt key cs1 ks1 rs1 R :
  length rs1 = length ks1 -> length cs1 = length ks1 ->
  sorted (pre cs1 (zip ks1 rs1) ++ R) ->
  (forall k, last ks1 = Some k -> bytes_lt k key) ->
  keys_lt (pre cs1 (zip ks1 rs1)) key.
Proof.
  intros Hr Hc Hs Hk. destruct ks1 as [|k ks1 _] using rev_ind.
  { destruct rs1, cs1; try done. constructor. }
  rewrite length_app in *. simpl in Hr, Hc.
  destruct rs1 as [|r rs1 _] using rev_ind; [simpl in *; lia|].
  destruct cs1 as [|c cs1 _] using rev_ind; [simpl in *; lia|].
  rewrite !length_app in *. simpl in Hr, Hc.
  rewrite zip_split in * by lia. cbn [zip zip_with] in *.
  rewrite pre_snoc in * by (rewrite length_zip; lia).
  rewrite last_snoc in Hk. specialize (Hk _ eq_refl).
  rewrite <- app_assoc in Hs. destruct (in_order_lt _ _ _ Hs) as [Hlt _]. simpl in Hlt.
  apply Forall_app. split; [by eapply keys_lt_trans|]. by constructor.
Qed.

(** Everything behind a child is above a key below the following separator. *)
Lemma post_keys_gt key cs2 ks2 rs2 L :
  length rs2 = length ks2 -> length cs2 = length ks2 ->
  sorted (L ++ post (zip ks2 rs2) cs2) ->
  (forall k, head ks2 = Some k -> bytes_lt key k) ->
  keys_gt (post (zip ks2 rs2) cs2) key.
Proof.
  intros Hr Hc Hs Hk. destruct ks2 as [|k ks2], rs2 as [|r rs2], cs2 as [|c cs2]; try done.
  { constructor. }
  specialize (Hk _ eq_refl). unfold post in *. cbn [zip zip_with concat] in *.
  destruct (in_order_lt _ _ _ Hs) as [_ Hgt]. simpl in Hgt.
  constructor; [done|]. by eapply keys_gt_trans.
Qed.

(** Inserting below one child inserts into the whole. *)
Lemma flatten_descend key r ks1 ks2 rs1 rs2 cs1 c c' cs2 :
  length rs1 = length ks1 -> length rs2 = length ks2 ->
  length cs1 = length ks1 -> length cs2 = length ks2 ->
  sorted (flatten (Node false (ks1 ++ ks2) (rs1 ++ rs2) (cs1 ++ c :: cs2))) ->
  (forall k, last ks1 = Some k -> bytes_lt k key) ->
  (forall k, head ks2 = Some k -> bytes_lt key k) ->
  flatten c' = ins key r (flatten c) ->
  flatten (Node false (ks1 ++ ks2) (rs1 ++ rs2) (cs1 ++ c' :: cs2)) =
    ins key r (flatten (Node false (ks1 ++ ks2) (rs1 ++ rs2) (cs1 ++ c :: cs2))).
Proof.
  intros H1 H2 H3 H4 Hs Hl Hg Hc. rewrite flatten_at in * by done.
  rewrite flatten_at by done. rewrite ins_app_r, ins_app_l, Hc; [done| |].
  - rewrite app_assoc in Hs. eapply post_keys_gt; rewrite ?length_map; done.
  - eapply pre_keys_lt; rewrite ?length_map; done.
Qed.

(** Adding a row to a key that the node itself holds. *)
Lemma flatten_hit lf ks1 key ks2 rs1 row rs2 cs r :
  length rs1 = length ks1 -> length rs2 = length ks2 ->
  (lf = true \/ length cs = S (length (ks1 ++ key :: ks2))) ->
  sorted (flatten (Node lf (ks1 ++ key :: ks2) (rs1 ++ row :: rs2) cs)) ->
  flatten (Node lf (ks1 ++ key :: ks2) (rs1 ++ (row ++ [r]) :: rs2) cs) =
    ins key r (flatten (Node lf (ks1 ++ key :: ks2) (rs1 ++ row :: rs2) cs)).
Proof.
  intros H1 H2 Hcs Hs. destruct lf.
  - cbn [flatten] in *. rewrite !zip_split in * by done. cbn [zip zip_with] in *.
    rewrite ins_here; [done|]. by apply in_order_lt in Hs as [? _].
  - destruct Hcs as [?|Hcs]; [done|]. rewrite length_app in Hcs. simpl in Hcs.
    destruct (list_middle cs (length ks1)) as (cs1 & c & cs2 & -> & Hl); [lia|].
    rewrite length_app in Hcs. simpl in Hcs. destruct cs2 as [|c2 cs2]; [simpl in *; lia|].
    simpl in Hcs. rewrite flatten_at in * by (simpl; lia). rewrite flatten_at by (simpl; lia).
    unfold post in *. cbn [zip zip_with map concat] in *. rewrite app_assoc in Hs |- *.
    rewrite (app_assoc (pre _ _)). simpl in *. rewrite ins_here; [done|].
    by apply in_order_lt in Hs as [? _].
Qed.

(** ** The split of a full child *)

(** What [splitChild] makes of the full child [y]. *)
Definition left_half (y : node) : node :=
  let 'Node lf ks rs cs := y in
  Node lf (take (T - 1) ks) (take (T - 1) rs) (if lf then cs else take T cs).
Definition right_half (y : node) : node :=
  let 'Node lf ks rs cs := y in
  Node lf (take (T - 1) (drop T ks)) (take (T - 1) (drop T rs))
    (if lf then [] else take T (drop T cs)).
Definition median (y : node) : entry := (nth (T - 1) (keys y) [], nth (T - 1) (rowIndices y) []).

Lemma splitChild_at lf ks1 ks2 rs1 rs2 cs1 y cs2 :
  length rs1 = length ks1 -> length cs1 = length ks1 ->
  splitChild (Node lf (ks1 ++ ks2) (rs1 ++ rs2) (cs1 ++ y :: cs2)) (length ks1) =
    Node lf (ks1 ++ (median y).1 :: ks2) (rs1 ++ (median y).2 :: rs2)
      (cs1 ++ left_half y :: right_half y :: cs2).
Proof.
  intros Hr Hc. unfold splitChild. rewrite <- Hc, lookup_middle.
  destruct y as [ylf yks yrs ycs]. rewrite insert_middle.
  rewrite Hc, !insert_at_app by done. rewrite <- Hc. by rewrite insert_at_next.
Qed.

Lemma full_lists {A B} (ks : list A) (rs : list B) :
  length ks = MAX_KEYS -> length rs = length ks ->
  exists k0 k1 k2 k3 k4 r0 r1 r2 r3 r4, ks = [k0; k1; k2; k3; k4] /\ rs = [r0; r1; r2; r3; r4].
Proof.
  intros Hk Hr. rewrite Hk in Hr.
  do 5 (destruct ks as [|? ks]; [done|]). destruct ks; [|done].
  do 5 (destruct rs as [|? rs]; [done|]). destruct rs; [|done]. eauto 15.
Qed.

Lemma halves_shape h y :
  shape h y -> length (keys y) = MAX_KEYS ->
  shape h (left_half y) /\ shape h (right_half y) /\
  length (keys (left_half y)) = MIN_KEYS /\ length (keys (right_half y)) = MIN_KEYS.
Proof.
  destruct y as [lf ks rs cs]. cbn [keys]. intros Hs Hk.
  destruct h as [|h]; cbn [shape] in Hs; destruct Hs as (Hr & Hlf & Hcs); subst;
    destruct (full_lists ks rs Hk Hr) as (?&?&?&?&?&?&?&?&?&?&->&->); [done|].
  destruct Hcs as [Hlen Hall]. simpl in Hlen.
  do 6 (destruct cs as [|? cs]; [done|]). destruct cs; [|done].
  rewrite !Forall_cons in Hall.
  cbn -[MIN_KEYS MAX_KEYS]. split_and!; try done; rewrite !Forall_cons, Forall_nil; tauto.
Qed.

Lemma halves_flatten h y :
  shape h y -> length (keys y) = MAX_KEYS ->
  flatten y = flatten (left_half y) ++ median y :: flatten (right_half y).
Proof.
  destruct y as [lf ks rs cs]. cbn [keys]. intros Hs Hk.
  destruct h as [|h]; cbn [shape] in Hs; destruct Hs as (Hr & Hlf & Hcs); subst;
    destruct (full_lists ks rs Hk Hr) as (?&?&?&?&?&?&?&?&?&?&->&->); [done|].
  destruct Hcs as [Hlen _]. simpl in Hlen.
  do 6 (destruct cs as [|? cs]; [done|]). destruct cs; [|done].
  simpl. rewrite <- !app_assoc. simpl. by rewrite <- !app_assoc.
Qed.

(** Splitting a child does not change the contents. *)
Lemma split_flatten h ks1 ks2 rs1 rs2 cs1 y cs2 :
  length rs1 = length ks1 -> length rs2 = length ks2 ->
  length cs1 = length ks1 -> length cs2 = length ks2 ->
  shape h y -> length (keys y) = MAX_KEYS ->
  flatten (Node false (ks1 ++ (median y).1 :: ks2) (rs1 ++ (median y).2 :: rs2)
             (cs1 ++ left_half y :: right_half y :: cs2)) =
    flatten (Node false (ks1 ++ ks2) (rs1 ++ rs2) (cs1 ++ y :: cs2)).
Proof.
  intros H1 H2 H3 H4 Hs Hk. rewrite !flatten_at by (simpl; congruence || done).
  rewrite (halves_flatten h y) by done. unfold post. cbn [zip zip_with map concat].
  rewrite <- app_assoc. by destruct (median y).
Qed.

(** ** Insertion into a node that is not full *)

(** Where the scan from the right stops. *)
Lemma scan_right_spec key ks i :
  i <= length ks ->
  let p := scan_right key ks i in
  p <= i /\ (forall j, p <= j < i -> bytes_lt key (nth j ks [])) /\
  (0 < p -> bytes_le (nth (p - 1) ks []) key).
Proof.
  induction i as [|i IH]; intros Hi; cbn [scan_right].
  { split_and!; [lia|intros; lia|lia]. }
  destruct (bytes_ltb_spec key (nth i ks [])) as [Hlt|Hge].
  - destruct IH as (H1 & H2 & H3); [lia|]. split_and!; [lia| |done].
    intros j Hj. destruct (decide (j = i)) as [->|]; [done|]. apply H2. lia.
  - split_and!; [lia|intros; lia|]. intros _. simpl. rewrite Nat.sub_0_r. bytes_order.
Qed.

(** The key list cut where the scan stops. *)
Lemma scan_right_cut key ks :
  exists ks1 ks2, ks = ks1 ++ ks2 /\ scan_right key ks (length ks) = length ks1 /\
    (forall k, last ks1 = Some k -> bytes_le k key) /\
    (forall k, head ks2 = Some k -> bytes_lt key k).
Proof.
  destruct (scan_right_spec key ks (length ks)) as (H1 & H2 & H3); [lia|].
  set (p := scan_right key ks (length ks)) in *.
  exists (take p ks), (drop p ks). split_and!.
  - by rewrite take_drop.
  - rewrite length_take. lia.
  - intros k Hk. destruct p as [|p]; [done|]. rewrite (take_S_nth []) in Hk by lia.
    rewrite last_snoc in Hk. injection Hk as <-. specialize (H3 ltac:(lia)). simpl in H3.
    by rewrite Nat.sub_0_r in H3.
  - intros k Hk. destruct (decide (p < length ks)) as [Hp|]; [|by rewrite drop_ge in Hk by lia].
    rewrite (drop_nth [] p) in Hk by done. injection Hk as <-. apply H2. lia.
Qed.

Lemma find_key_some key ks j :
  find_key key ks = Some j -> exists ks1 ks2, ks = ks1 ++ key :: ks2 /\ length ks1 = j.
Proof.
  revert j. induction ks as [|k ks IH]; intros j; simpl; [done|].
  destruct (bytes_eqb_spec k key) as [->|].
  - intros [= <-]. by exists [], ks.
  - destruct (find_key key ks) as [j'|]; [|done]. intros [= <-].
    destruct (IH j' eq_refl) as (ks1 & ks2 & -> & <-). by exists (k :: ks1), ks2.
Qed.

Lemma find_key_none key ks : find_key key ks = None -> key ∉ ks.
Proof.
  induction ks as [|k ks IH]; simpl; [intros _; apply not_elem_of_nil|].
  destruct (bytes_eqb_spec k key) as [->|]; [done|].
  destruct (find_key key ks); [done|]. rewrite not_elem_of_cons. auto.
Qed.

(** A leaf takes a new key. *)
Lemma leaf_insert ks1 ks2 rs1 rs2 key r :
  length rs1 = length ks1 -> sorted (zip (ks1 ++ ks2) (rs1 ++ rs2)) -> key ∉ ks1 ++ ks2 ->
  (forall k, last ks1 = Some k -> bytes_le k key) ->
  (forall k, head ks2 = Some k -> bytes_lt key k) ->
  length rs2 = length ks2 ->
  zip (ks1 ++ key :: ks2) (rs1 ++ [r] :: rs2) = ins key r (zip (ks1 ++ ks2) (rs1 ++ rs2)).
Proof.
  intros Hr Hs Hin Hl Hg Hr2. rewrite !zip_split in * by done. cbn [zip zip_with].
  rewrite ins_new; [done| |].
  - destruct ks1 as [|k ks1 _] using rev_ind; [destruct rs1; [constructor|done]|].
    destruct rs1 as [|r1 rs1 _] using rev_ind; rewrite ?length_app in *; [simpl in *; lia|].
    simpl in Hr. rewrite zip_split in * by lia. rewrite last_snoc in Hl.
    specialize (Hl _ eq_refl). rewrite <- app_assoc in Hs.
    apply in_order_lt in Hs as [Hlt _]. simpl in Hlt.
    assert (k <> key) by (intros ->; apply Hin; rewrite !elem_of_app; set_solver).
    apply Forall_app. split; [|constructor; [simpl; bytes_order|constructor]].
    eapply keys_lt_trans; [|exact Hlt]. bytes_order.
  - destruct ks2 as [|k ks2], rs2 as [|r2 rs2]; try done; [constructor|].
    specialize (Hg _ eq_refl). cbn [zip zip_with] in *.
    apply in_order_lt in Hs as [_ Hgt]. simpl in Hgt. constructor; [done|].
    by eapply keys_gt_trans.
Qed.

(** What insertion below a node that is not full must achieve. *)
Definition insert_ok (h : nat) (key : bytes) (r : nat) (n n' : node) : Prop :=
  shape h n' /\ flatten n' = ins key r (flatten n) /\
  length (keys n) <= length (keys n') <= S (length (keys n)).

Definition child_ok (h : nat) (c : node) : Prop :=
  shape h c /\ MIN_KEYS <= length (keys c) <= MAX_KEYS.

Lemma child_sorted ks1 ks2 rs1 rs2 cs1 c cs2 :
  length rs1 = length ks1 -> length rs2 = length ks2 ->
  length cs1 = length ks1 -> length cs2 = length ks2 ->
  sorted (flatten (Node false (ks1 ++ ks2) (rs1 ++ rs2) (cs1 ++ c :: cs2))) ->
  sorted (flatten c).
Proof.
  intros H1 H2 H3 H4 Hs. rewrite flatten_at in Hs by done.
  apply sorted_app in Hs as (_ & Hs & _). by apply sorted_app in Hs as (? & _ & _).
Qed.

(** One level of the descent, given what it achieves in the child. *)
Lemma descend_step h (go : node -> node) key r ks1 ks2 rs1 rs2 cs1 c cs2 :
  (length (keys c) < MAX_KEYS -> sorted (flatten c) -> insert_ok h key r c (go c)) ->
  length rs1 = length ks1 -> length rs2 = length ks2 ->
  length cs1 = length ks1 -> length cs2 = length ks2 ->
  Forall (child_ok h) (cs1 ++ c :: cs2) -> length (keys c) < MAX_KEYS ->
  sorted (flatten (Node false (ks1 ++ ks2) (rs1 ++ rs2) (cs1 ++ c :: cs2))) ->
  (forall k, last ks1 = Some k -> bytes_lt k key) ->
  (forall k, head ks2 = Some k -> bytes_lt key k) ->
  let m := Node false (ks1 ++ ks2) (rs1 ++ rs2) (alter go (length ks1) (cs1 ++ c :: cs2)) in
  shape (S h) m /\
  flatten m = ins key r (flatten (Node false (ks1 ++ ks2) (rs1 ++ rs2) (cs1 ++ c :: cs2))).
Proof.
  intros IH H1 H2 H3 H4 Hall Hlen Hs Hl Hg m. subst m.
  destruct IH as (Hsh & Hfl & Hk); [done|by eapply (child_sorted ks1 ks2 rs1 rs2)|].
  rewrite <- H3, alter_middle. apply Forall_app in Hall as [Ha1 Ha2].
  apply Forall_cons in Ha2 as [Hc Ha2]. split; [|by apply flatten_descend].
  cbn [shape]. rewrite !length_app. cbn [length]. split_and!; [lia|done|lia|].
  apply Forall_app. split; [done|]. apply Forall_cons. split; [|done].
  split; [done|]. unfold child_ok in Hc. lia.
Qed.

Lemma length_split_eq {A B} (l1 l2 : list A) (r : list B) :
  length r = length (l1 ++ l2) ->
  exists r1 r2, r = r1 ++ r2 /\ length r1 = length l1 /\ length r2 = length l2.
Proof.
  rewrite length_app. intros H. exists (take (length l1) r), (drop (length l1) r).
  rewrite take_drop, length_take, length_drop. split_and!; [done|lia|lia].
Qed.

Lemma push_row_middle r rs1 row rs2 :
  push_row r (length rs1) (rs1 ++ row :: rs2) = rs1 ++ (row ++ [r]) :: rs2.
Proof. unfold push_row. by rewrite alter_middle. Qed.

Lemma insert_leaf key r f ks rs cs :
  shape 0 (Node true ks rs cs) -> sorted (flatten (Node true ks rs cs)) ->
  insert_ok 0 key r (Node true ks rs cs) (insertNonFull (S f) (Node true ks rs cs) key r).
Proof.
  intros (Hr & _ & ->) Hs. cbn [insertNonFull].
  destruct (find_key key ks) as [j|] eqn:Ef.
  - apply find_key_some in Ef as (ks1 & ks2 & -> & <-).
    apply length_split_eq in Hr as (rs1 & rs' & -> & Hr1 & Hr2).
    destruct rs' as [|row rs2]; [done|]. rewrite <- Hr1, push_row_middle.
    simpl in Hr2. split_and!; cbn [keys]; [|apply flatten_hit; auto|lia|lia].
    cbn [shape]. rewrite !length_app. simpl. split_and!; [lia|done|done].
  - apply find_key_none in Ef. destruct (scan_right_cut key ks) as (ks1 & ks2 & Hk & Hp & Hl & Hg).
    rewrite Hp. subst ks. apply length_split_eq in Hr as (rs1 & rs2 & -> & Hr1 & Hr2).
    rewrite insert_at_middle, insert_at_app by done. split_and!; cbn [keys].
    + cbn [shape]. rewrite !length_app. simpl. split_and!; [lia|done|done].
    + cbn [flatten] in *. by apply leaf_insert.
    + rewrite !length_app. simpl. lia.
    + rewrite !length_app. simpl. lia.
Qed.

(** Descending into a full child: it is split first. *)
Lemma insert_full_child h (go : node -> node) key r ks1 ks2 rs1 rs2 cs1 y cs2 :
  (forall c, shape h c -> length (keys c) < MAX_KEYS -> sorted (flatten c) ->
     insert_ok h key r c (go c)) ->
  length rs1 = length ks1 -> length rs2 = length ks2 ->
  length cs1 = length ks1 -> length cs2 = length ks2 ->
  Forall (child_ok h) (cs1 ++ y :: cs2) -> length (keys y) = MAX_KEYS ->
  sorted (flatten (Node false (ks1 ++ ks2) (rs1 ++ rs2) (cs1 ++ y :: cs2))) ->
  (forall k, last ks1 = Some k -> bytes_lt k key) ->
  (forall k, head ks2 = Some k -> bytes_lt key k) ->
  let ks := ks1 ++ (median y).1 :: ks2 in
  let rs := rs1 ++ (median y).2 :: rs2 in
  let cs := cs1 ++ left_half y :: right_half y :: cs2 in
  let m' := if bytes_ltb (median y).1 key then Node false ks rs (alter go (S (length ks1)) cs)
            else if bytes_eqb key (median y).1 then Node false ks (push_row r (length ks1) rs) cs
            else Node false ks rs (alter go (length ks1) cs) in
  shape (S h) m' /\
  flatten m' = ins key r (flatten (Node false (ks1 ++ ks2) (rs1 ++ rs2) (cs1 ++ y :: cs2))).
Proof.
  intros IH H1 H2 H3 H4 Hall Hy Hs Hl Hg ks rs cs m'. subst ks rs cs m'.
  assert (shape h y) as Hsy.
  { apply Forall_app in Hall as [_ Hall]. by apply Forall_cons in Hall as [[? _] _]. }
  destruct (halves_shape h y) as (Hsl & Hsr & Hkl & Hkr); [done|done|].
  pose proof (split_flatten h ks1 ks2 rs1 rs2 cs1 y cs2 H1 H2 H3 H4 Hsy Hy) as Hsplit.
  rewrite <- Hsplit in Hs |- *. set (med := (median y).1) in *. set (row := (median y).2) in *.
  assert (Forall (child_ok h) (cs1 ++ left_half y :: right_half y :: cs2)) as Hall'.
  { apply Forall_app in Hall as [? Hall]. apply Forall_cons in Hall as [_ ?].
    rewrite Forall_app, !Forall_cons. unfold child_ok. rewrite Hkl, Hkr.
    split_and!; try done; vm_compute; lia. }
  destruct (bytes_ltb_spec med key) as [Hlt|Hge]; [|destruct (bytes_eqb_spec key med) as [Heq|Hne]].
  - assert (forall {A} (l1 : list A) x l2, l1 ++ x :: l2 = (l1 ++ [x]) ++ l2) as Hmid.
    { intros. by rewrite <- app_assoc. }
    rewrite (Hmid _ ks1 med ks2), (Hmid _ rs1 row rs2), (Hmid _ cs1 (left_half y)) in *.
    replace (S (length ks1)) with (length (ks1 ++ [med])) by (rewrite length_app; simpl; lia).
    apply (descend_step h go key r); rewrite ?length_app; simpl; try lia; try done.
    + intros. by apply IH.
    + rewrite Hkr. vm_compute. lia.
    + intros k. rewrite last_snoc. by intros [= <-].
  - rewrite <- Heq in *. rewrite <- H1, push_row_middle. split.
    + cbn [shape]. rewrite !length_app. simpl. split_and!; [lia|done|lia|done].
    + apply flatten_hit; try done. right. rewrite !length_app. simpl. lia.
  - apply (descend_step h go key r); simpl; try lia; try done.
    + intros. by apply IH.
    + rewrite Hkl. vm_compute. lia.
    + intros k [= <-]. bytes_order.
Qed.

Lemma insertNonFull_spec h fuel n key r :
  shape h n -> length (keys n) < MAX_KEYS -> sorted (flatten n) -> h < fuel ->
  insert_ok h key r n (insertNonFull fuel n key r).
Proof.
  revert n fuel. induction h as [|h IH]; intros [lf ks rs cs] [|f] Hsh Hk Hs Hf; try lia.
  { destruct Hsh as (? & -> & ->). by apply insert_leaf. }
  assert (forall c, shape h c -> length (keys c) < MAX_KEYS -> sorted (flatten c) ->
            insert_ok h key r c (insertNonFull f c key r)) as IH'.
  { intros. apply IH; try done. lia. }
  pose proof Hsh as (Hr & -> & Hc & Hall). cbn [insertNonFull keys] in *.
  destruct (scan_right_cut key ks) as (ks1 & ks2 & -> & Hp & Hl & Hg). rewrite Hp.
  apply length_split_eq in Hr as (rs1 & rs2 & -> & Hr1 & Hr2).
  destruct (list_middle cs (length ks1)) as (cs1 & c & cs2 & -> & Hc1).
  { rewrite Hc, length_app. lia. }
  rewrite !length_app in Hc. simpl in Hc. assert (length cs2 = length ks2) as Hc2 by lia.
  destruct ((0 <? length ks1) && bytes_eqb _ key) eqn:Ehit.
  { apply bool_and_true in Ehit as [Hpos Heq]. to_prop.
    destruct ks1 as [|k ks1 _] using rev_ind; [simpl in *; lia|].
    destruct rs1 as [|row rs1 _] using rev_ind; rewrite !length_app in *; simpl in *; [lia|].
    rewrite <- !app_assoc in *. replace (length ks1 + 1 - 1) with (length ks1) in * by lia.
    cbn [app] in *. rewrite nth_middle in Heq. apply bool_decide_eq_true in Heq as ->.
    replace (length ks1) with (length rs1) by lia. rewrite push_row_middle.
    split_and!; cbn [keys]; [|apply flatten_hit; try done; [lia|]|lia|lia].
    - cbn [shape]. rewrite !length_app. simpl. split_and!; [lia|done|lia|done].
    - right. rewrite !length_app. simpl. lia. }
  assert (forall k, last ks1 = Some k -> bytes_lt k key) as Hl'.
  { intros k Hk'. specialize (Hl _ Hk'). destruct ks1 as [|k' ks1 _] using rev_ind; [done|].
    rewrite last_snoc in Hk'. injection Hk' as ->. rewrite length_app in Ehit. simpl in Ehit.
    replace (length ks1 + 1 - 1) with (length ks1) in Ehit by lia.
    rewrite <- app_assoc in Ehit. cbn [app] in Ehit. rewrite nth_middle in Ehit.
    apply andb_false_iff in Ehit as [Ehit|Ehit]; to_prop; [lia|].
    apply bool_decide_eq_false in Ehit. bytes_order. }
  rewrite <- Hc1 at 1. rewrite lookup_middle. unfold isFull.
  destruct (length (keys c) =? MAX_KEYS) eqn:Efull; to_prop.
  - rewrite splitChild_at by done. cbn [keys isLeaf rowIndices children].
    rewrite nth_middle.
    pose proof (insert_full_child h (fun c => insertNonFull f c key r) key r
      ks1 ks2 rs1 rs2 cs1 c cs2 IH' Hr1 Hr2 Hc1 Hc2 Hall Efull Hs Hl' Hg) as [H1 H2].
    destruct (bytes_ltb _ key); [|destruct (bytes_eqb key _)];
      (split_and!; [exact H1|exact H2|..]); cbn [keys]; rewrite !length_app; simpl; lia.
  - assert (child_ok h c) as [Hsc Hkc].
    { apply Forall_app in Hall as [_ Hall]. by apply Forall_cons in Hall as [? _]. }
    destruct (descend_step h (fun c => insertNonFull f c key r) key r ks1 ks2 rs1 rs2 cs1 c cs2)
      as [H1 H2]; try done; [by apply IH'|lia|].
    split_and!; [exact H1|exact H2|cbn [keys]; lia..].
Qed.

Lemma depth_shape h n : shape h n -> depth n = S h.
Proof.
  revert n. induction h as [|h IH]; intros [lf ks rs cs]; cbn [shape depth]; intros (_ & _ & Hcs).
  { by subst. }
  destruct Hcs as [Hlen Hall]. f_equal. destruct cs as [|c cs]; [done|]. clear Hlen.
  revert c Hall. induction cs as [|c' cs IHcs]; intros c Hall;
    apply Forall_cons in Hall as [[Hc _] Hall]; simpl; rewrite (IH _ Hc); [lia|].
  specialize (IHcs c' Hall). simpl in IHcs. rewrite IHcs. lia.
Qed.

Lemma insert_spec t key r :
  wf t -> wf (insert t key r) /\ flatten (insert t key r) = ins key r (flatten t).
Proof.
  intros (Hs & Hk & h & Hsh & Hh). unfold insert, isFull.
  destruct (length (keys t) =? MAX_KEYS) eqn:E; to_prop.
  - pose proof (splitChild_at false [] [] [] [] [] t [] eq_refl eq_refl) as Hsp.
    cbn [app length] in Hsp. rewrite Hsp.
    pose proof (split_flatten h [] [] [] [] [] t [] eq_refl eq_refl eq_refl eq_refl Hsh E) as Hfl.
    cbn [app] in Hfl. destruct (halves_shape h t Hsh E) as (H1 & H2 & H3 & H4).
    set (m := Node false [_] [_] [_; _]) in *.
    assert (shape (S h) m) as Hm.
    { assert (Forall (child_ok h) [left_half t; right_half t]) as Hall; [|split_and!; [done|done|done|exact Hall]].
      rewrite !Forall_cons, Forall_nil. unfold child_ok. rewrite H3, H4.
      split_and!; try done; vm_compute; lia. }
    assert (flatten m = flatten t) as Hmt.
    { rewrite Hfl. simpl. by rewrite ?app_nil_r. }
    rewrite (depth_shape _ _ Hm), <- Hmt.
    destruct (insertNonFull_spec (S h) (S (S h)) m key r) as (Ha & Hb & Hc);
      [done|vm_compute; lia|by rewrite Hmt|lia|].
    split; [|done]. split_and!; [rewrite Hb, Hmt; by apply ins_sorted| |].
    + cbn [keys length] in Hc. unfold MAX_KEYS, T in *. subst m. cbn [keys length] in *. lia.
    + exists (S h). split; [done|]. subst m. cbn [keys length] in *. lia.
  - rewrite (depth_shape _ _ Hsh).
    destruct (insertNonFull_spec h (S h) t key r) as (Ha & Hb & Hc); try done; try lia.
    split; [|done]. split_and!; [rewrite Hb; by apply ins_sorted|lia|].
    exists h. split; [done|]. lia.
Qed.

Lemma wf_empty : wf empty.
Proof. split_and!; [constructor|vm_compute; lia|]. exists 0. split; [done|lia]. Qed.

(** ** Search *)

Lemma scan_left_cut key ks :
  exists ks1 ks2, ks = ks1 ++ ks2 /\ scan_left key ks = length ks1 /\
    (forall k, last ks1 = Some k -> bytes_lt k key) /\
    (forall k, head ks2 = Some k -> bytes_le key k).
Proof.
  induction ks as [|k ks (ks1 & ks2 & -> & Hl & H1 & H2)]; simpl.
  { by exists [], []. }
  destruct (bytes_ltb_spec k key) as [Hlt|Hge].
  - exists (k :: ks1), ks2. split_and!; [done|simpl; congruence| |done].
    intros k'. destruct ks1 as [|k1 ks1]; simpl; [by intros [= <-]|]. intros. by apply H1.
  - exists [], (k :: ks1 ++ ks2). split_and!; try done. intros k' [= <-]. bytes_order.
Qed.

Lemma leaf_find ks1 ks2 rs1 rs2 key :
  length rs1 = length ks1 -> length rs2 = length ks2 ->
  sorted (zip (ks1 ++ ks2) (rs1 ++ rs2)) ->
  (forall k, last ks1 = Some k -> bytes_lt k key) ->
  find key (zip (ks1 ++ ks2) (rs1 ++ rs2)) = find key (zip ks2 rs2).
Proof.
  intros H1 H2 Hs Hl. rewrite zip_split in * by done. apply find_app_r.
  destruct ks1 as [|k ks1 _] using rev_ind; [destruct rs1; [constructor|done]|].
  destruct rs1 as [|r rs1 _] using rev_ind; rewrite ?length_app in *; [simpl in *; lia|].
  simpl in H1. rewrite zip_split in * by lia. rewrite last_snoc in Hl. specialize (Hl _ eq_refl).
  rewrite <- app_assoc in Hs. apply in_order_lt in Hs as [Hlt _]. simpl in Hlt.
  apply Forall_app. split; [by eapply keys_lt_trans|by constructor].
Qed.

Lemma searchNode_spec h fuel n key :
  shape h n -> sorted (flatten n) -> h < fuel -> searchNode fuel n key = find key (flatten n).
Proof.
  revert n fuel. induction h as [|h IH]; intros [lf ks rs cs] [|f] Hsh Hs Hf; try lia;
    pose proof Hsh as (Hr & -> & Hc); cbn [searchNode keys rowIndices isLeaf children];
    destruct (scan_left_cut key ks) as (ks1 & ks2 & -> & Hp & Hl & Hg); rewrite Hp;
    apply length_split_eq in Hr as (rs1 & rs2 & -> & Hr1 & Hr2).
  - cbn [flatten] in *. rewrite leaf_find by done.
    destruct ks2 as [|k ks2], rs2 as [|row rs2]; try done.
    { rewrite app_nil_r. case_if; [|done]. to_prop. lia. }
    rewrite nth_middle, length_app. rewrite <- Hr1, nth_middle. cbn [length zip zip_with find].
    rewrite (proj2 (Nat.ltb_lt _ _)) by lia. cbn [andb]. destruct (bytes_eqb_spec key k); [done|].
    rewrite find_none_gt; [done|]. specialize (Hg _ eq_refl). rewrite zip_split in Hs by done.
    apply in_order_lt in Hs as [_ Hgt]. simpl in Hgt. eapply keys_gt_trans; [|done]. bytes_order.
  - destruct Hc as [Hc Hall]. destruct (list_middle cs (length ks1)) as (cs1 & c & cs2 & -> & Hc1).
    { rewrite Hc, length_app. lia. }
    rewrite !length_app in Hc. simpl in Hc. assert (length cs2 = length ks2) as Hc2 by lia.
    pose proof (child_sorted ks1 ks2 rs1 rs2 cs1 c cs2 Hr1 Hr2 Hc1 Hc2 Hs) as Hsc.
    rewrite flatten_at in * by done.
    rewrite find_app_r by (eapply pre_keys_lt; rewrite ?length_map; done).
    rewrite <- Hc1, lookup_middle, Hc1.
    destruct ((_ <? _) && _) eqn:E.
    + destruct ks2 as [|k ks2], rs2 as [|row rs2], cs2 as [|c2 cs2]; try done.
      { rewrite app_nil_r in E. apply bool_and_true in E as [E _]. to_prop. lia. }
      rewrite nth_middle in E. apply bool_and_true in E as [_ E]. apply bool_decide_eq_true in E as ->.
      rewrite <- Hr1, nth_middle. unfold post in *. cbn [zip zip_with map concat] in *.
      rewrite app_assoc in Hs. apply sorted_app in Hs as (Hs1 & Hs2 & Hs3).
      rewrite find_app_r; [simpl; by destruct (bytes_eqb_spec k k)|].
      apply Forall_forall. intros e He. apply (Hs3 e (k, row)); [|by left].
      apply elem_of_app. by right.
    + rewrite find_app_l.
      * apply IH; [|done|lia]. apply Forall_app in Hall as [_ Hall].
        by apply Forall_cons in Hall as [[? _] _].
      * rewrite app_assoc in Hs. eapply post_keys_gt; rewrite ?length_map; try done.
        intros k Hk. destruct ks2 as [|k' ks2]; [done|]. injection Hk as ->.
        specialize (Hg _ eq_refl). rewrite nth_middle, length_app in E. simpl in E.
        apply andb_false_iff in E as [E|E]; to_prop; [lia|].
        apply bool_decide_eq_false in E. bytes_order.
Qed.

Lemma search_spec t key : wf t -> search t key = find key (flatten t).
Proof.
  intros (Hs & _ & h & Hsh & _). unfold search. rewrite (depth_shape _ _ Hsh).
  apply searchNode_spec with h; try done. lia.
Qed.

(** ** Counting, height and range scans *)

Lemma length_interleave cs es :
  length cs = S (length es) ->
  length (interleave cs es) = length es + list_sum (map length cs).
Proof.
  revert cs. induction es as [|e es IH]; intros [|c [|c' cs]] H; simpl in H; try lia.
  - simpl. lia.
  - change (interleave (c :: c' :: cs) (e :: es)) with (c ++ e :: interleave (c' :: cs) es).
    rewrite length_app. cbn [length]. rewrite IH by (simpl; lia). simpl. lia.
Qed.

Lemma countKeys_spec h n : shape h n -> countKeys n = length (flatten n).
Proof.
  revert n. induction h as [|h IH]; intros [lf ks rs cs]; cbn [shape]; intros (Hr & -> & Hc);
    cbn [countKeys flatten].
  - subst cs. simpl. rewrite length_zip by done. lia.
  - destruct Hc as [Hlen Hall].
    rewrite length_interleave by (rewrite length_map, length_zip; done).
    rewrite length_zip, map_map by done. f_equal. f_equal. clear Hlen.
    induction Hall as [|c cs [Hc _] _ IHcs]; simpl; [done|]. by rewrite (IH _ Hc), IHcs.
Qed.

Lemma list_sum_ge {A} (f : A -> nat) m l :
  Forall (fun x => m <= f x) l -> length l * m <= list_sum (map f l).
Proof. induction 1; simpl; lia. Qed.

Lemma count_ge h n : shape h n -> length (keys n) * 3 ^ h + 3 ^ h <= S (countKeys n).
Proof.
  revert n. induction h as [|h IH]; intros [lf ks rs cs]; cbn [shape keys]; intros (_ & -> & Hc);
    cbn [countKeys].
  - subst cs. simpl. lia.
  - destruct Hc as [Hlen Hall].
    assert (Forall (fun c => 3 ^ S h - 1 <= countKeys c) cs) as Hge.
    { eapply Forall_impl; [exact Hall|]. intros c [Hc Hk]. specialize (IH _ Hc).
      unfold MIN_KEYS, T in Hk. rewrite Nat.pow_succ_r'. nia. }
    apply list_sum_ge in Hge. rewrite Hlen in Hge.
    assert (0 < 3 ^ S h) by (apply Nat.neq_0_lt_0, Nat.pow_nonzero; lia). nia.
Qed.

Section range_spec.
Context {dbl : Type} (dzero : dbl) (stod : bytes -> option dbl) (dlt dle : dbl -> dbl -> bool).
Context (lo hi : bytes) (op : range_op).

(** The rows of the entries in range, in key order. *)
Definition rows_in_range (es : list entry) : list nat :=
  concat (map (fun e : entry => if range_match dzero stod dlt dle lo hi op e.1 then e.2 else []) es).

Lemma rows_in_range_app es1 es2 :
  rows_in_range (es1 ++ es2) = rows_in_range es1 ++ rows_in_range es2.
Proof. unfold rows_in_range. by rewrite map_app, concat_app. Qed.

Lemma rows_in_range_one k r :
  rows_in_range [(k, r)] = if range_match dzero stod dlt dle lo hi op k then r else [].
Proof. unfold rows_in_range. simpl. by rewrite app_nil_r. Qed.

Lemma zip_take_S (ks : list bytes) (rs : list (list nat)) j :
  length rs = length ks -> j < length ks ->
  take (S j) (zip ks rs) = take j (zip ks rs) ++ [(nth j ks [], nth j rs [])].
Proof.
  intros Hr Hj. rewrite (take_S_nth ([], [])) by (rewrite length_zip; lia). do 2 f_equal.
  revert rs j Hr Hj. induction ks as [|k ks IH]; intros [|r rs] [|j] Hr Hj; simpl in *; try lia; auto.
  all: apply IH; lia.
Qed.

Lemma rangeCollect_spec h fuel n result :
  shape h n -> h < fuel ->
  rangeCollect dzero stod dlt dle fuel n lo hi op result = result ++ rows_in_range (flatten n).
Proof.
  revert n fuel result. induction h as [|h IH]; intros [lf ks rs cs] [|f] result Hsh Hf; try lia;
    pose proof Hsh as (Hr & -> & Hc); cbn [rangeCollect].
  - subst cs. cbn [length Nat.ltb Nat.leb flatten].
    assert (forall j, j <= length ks -> fold_left (fun result i =>
        if range_match dzero stod dlt dle lo hi op (nth i ks []) then result ++ nth i rs [] else result)
        (seq 0 j) result = result ++ rows_in_range (take j (zip ks rs))) as Hj.
    { induction j as [|j IHj]; intros Hj; [simpl; by rewrite take_0, app_nil_r|].
      rewrite seq_S, fold_left_app, IHj by lia. simpl.
      rewrite zip_take_S, rows_in_range_app, rows_in_range_one by lia.
      case_if; by rewrite ?app_assoc, ?app_nil_r. }
    rewrite Hj by lia. rewrite take_ge by (rewrite length_zip; lia).
    destruct (length ks); done.
  - destruct Hc as [Hlen Hall]. rewrite (proj2 (Nat.ltb_lt _ _)) by lia.
    assert (forall i c res, cs !! i = Some c ->
        rangeCollect dzero stod dlt dle f c lo hi op res = res ++ rows_in_range (flatten c)) as Hci.
    { intros i c res Hi. apply IH; [|lia]. rewrite Forall_lookup in Hall. by apply (Hall i). }
    assert (forall j, j <= length ks -> fold_left (fun result i =>
        let result := match cs !! i with
                      | Some c => rangeCollect dzero stod dlt dle f c lo hi op result
                      | None => result end in
        if range_match dzero stod dlt dle lo hi op (nth i ks []) then result ++ nth i rs [] else result)
        (seq 0 j) result =
        result ++ rows_in_range (pre (take j (map flatten cs)) (take j (zip ks rs)))) as Hj.
    { induction j as [|j IHj]; intros Hj; [simpl; by rewrite !take_0, app_nil_r|].
      rewrite seq_S, fold_left_app, IHj by lia. simpl.
      destruct (lookup_lt_is_Some_2 cs j) as [c Hcj]; [lia|]. rewrite Hcj, (Hci j c) by done.
      rewrite zip_take_S by lia.
      rewrite (take_S_r _ _ (flatten c)) by (rewrite list_lookup_fmap, Hcj; done).
      rewrite pre_snoc by (rewrite !length_take, length_map, length_zip; lia).
      rewrite !rows_in_range_app, rows_in_range_one.
      case_if; by rewrite ?app_assoc, ?app_nil_r. }
    cbv zeta in Hj. rewrite Hj by lia.
    destruct (list_middle cs (length ks)) as (cs1 & c & cs2 & -> & Hl); [lia|].
    rewrite length_app in Hlen. simpl in Hlen. destruct cs2; [|simpl in *; lia].
    rewrite <- Hl, lookup_middle, Hl. rewrite (Hci (length cs1) c) by apply lookup_middle.
    pose proof (flatten_at ks [] rs [] cs1 c [] Hr eq_refl Hl eq_refl) as Hfl.
    cbn [zip zip_with map] in Hfl. unfold post in Hfl. cbn [zip_with concat] in Hfl.
    rewrite !app_nil_r in Hfl. rewrite Hfl, rows_in_range_app, <- app_assoc. f_equal. f_equal.
    rewrite map_app, take_app_length' by (rewrite length_map; lia).
    by rewrite take_ge by (rewrite length_zip; lia).
Qed.
End range_spec.

(** ** The index built by a sequence of insertions *)

Definition build (ops : list (bytes * nat)) : BTree :=
  fold_left (fun t op => insert t op.1 op.2) ops empty.

Definition rows_of (key : bytes) (ops : list (bytes * nat)) : list nat :=
  concat (map (fun op => if bytes_eqb key op.1 then [op.2] else []) ops).

Lemma build_wf ops : wf (build ops).
Proof.
  unfold build. assert (forall t, wf t -> wf (fold_left (fun t op => insert t op.1 op.2) ops t)) as H.
  { induction ops as [|op ops IH]; intros t Ht; simpl; [done|]. by apply IH, insert_spec. }
  apply H, wf_empty.
Qed.

(** ** The tree as a table index *)

#[export] Instance BTree_index : RowIndex BTree := {|
  ri_empty := empty; ri_insert := insert; ri_search := search; ri_clear := clear |}.

#[export] Instance BTree_index_spec : RowIndexSpec BTree.
Proof.
  refine {| ri_ok := wf |}.
  - intros t. exact wf_empty.
  - exact wf_empty.
  - intros t k r H. by apply insert_spec.
  - done.
  - done.
  - intros t k r k' H. destruct (insert_spec t k r H) as [Hwf Hfl]. simpl.
    rewrite !search_spec by done. rewrite Hfl. apply find_ins, H.
Qed.

(** ** Properties *)

(** Inserting keeps the B-tree invariant: keys sorted in order, all
    leaves on one level, every node but the root holding between 2 and 5 keys. *)
Theorem insert_preserves_wf t key rowIdx : wf t -> wf (insert t key rowIdx).
Proof. intros H. by apply insert_spec. Qed.

Lemma insert_preserves_wf_witness :
  wf empty /\ wf (insert empty (str "anna") 4).
Proof. split; [exact wf_empty | apply insert_preserves_wf; exact wf_empty]. Defined.

(** [C2] Looking up a key after inserting one: the new row is appended to the
    rows of that key and every other key keeps its rows, through all node
    splits. *)
Theorem search_insert t key rowIdx key' :
  wf t ->
  search (insert t key rowIdx) key' =
    if bytes_eqb key' key then search t key' ++ [rowIdx] else search t key'.
Proof.
  intros H. destruct (insert_spec t key rowIdx H) as [Hwf Hfl].
  rewrite !search_spec by done. rewrite Hfl. apply find_ins, H.
Qed.

Lemma search_insert_witness :
  wf (build [(str "a", 1); (str "b", 2)]) /\
  search (insert (build [(str "a", 1); (str "b", 2)]) (str "b") 7) (str "b") = [2; 7].
Proof.
  split; [apply build_wf|].
  rewrite search_insert by apply build_wf. vm_compute. reflexivity.
Defined.

(** [C33] The index refines a multimap: after any sequence of insertions into
    an empty tree a search gives the rows inserted under that key, in order. *)
Theorem build_refines_multimap ops key : search (build ops) key = rows_of key ops.
Proof.
  induction ops as [|[k r] ops IH] using rev_ind; [done|].
  unfold build, rows_of in *. rewrite fold_left_app, map_app, concat_app. cbn [fold_left map concat].
  pose proof (build_wf ops) as Hwf. unfold build in Hwf.
  destruct (insert_spec _ k r Hwf) as [Hwf' Hfl]. rewrite search_spec by done.
  cbn [fst snd]. rewrite Hfl, find_ins by apply Hwf. rewrite <- search_spec, IH by done.
  rewrite app_nil_r. by destruct (bytes_eqb key k); rewrite ?app_nil_r.
Qed.

(** A range scan returns the rows of exactly the matching keys, in key
    order, whatever [std::stod] does. *)
Theorem rangeSearch_spec {dbl} dzero (stod : bytes -> option dbl) dlt dle t lo hi op :
  wf t ->
  rangeSearch dzero stod dlt dle t lo hi op = rows_in_range dzero stod dlt dle lo hi op (flatten t).
Proof.
  intros (_ & _ & h & Hsh & _). unfold rangeSearch. rewrite (depth_shape _ _ Hsh).
  by rewrite (rangeCollect_spec dzero stod dlt dle lo hi op h) by (done || lia).
Qed.

Lemma rangeSearch_spec_witness :
  wf (build [(str "b", 1); (str "a", 2); (str "c", 3)]) /\
  rangeSearch 0%Z stoll Z.ltb Z.leb (build [(str "b", 1); (str "a", 2); (str "c", 3)])
    (str "a") (str "b") OpBetween = [2; 1].
Proof.
  split; [apply build_wf|]. rewrite rangeSearch_spec by apply build_wf. vm_compute. reflexivity.
Defined.

(** The height is logarithmic: a tree of [n > 0] keys and [d] levels has
    [2 * 3 ^ (d - 1) <= n + 1]. *)
Theorem height_bound t : wf t -> 0 < keyCount t -> 2 * 3 ^ (depth t - 1) <= S (keyCount t).
Proof.
  intros (_ & _ & h & Hsh & Hh) Hn. rewrite (depth_shape _ _ Hsh). simpl. rewrite Nat.sub_0_r.
  pose proof (count_ge h t Hsh) as Hge. unfold keyCount in *.
  destruct h as [|h]; [simpl; lia|]. specialize (Hh ltac:(lia)).
  assert (3 ^ S h <= length (keys t) * 3 ^ S h) by nia. lia.
Qed.

Lemma height_bound_witness :
  let t := build (map (fun i => ([Z.of_nat i], i)) (seq 0 20)) in
  (wf t /\ 0 < keyCount t) /\ 2 * 3 ^ (depth t - 1) <= S (keyCount t).
Proof.
  cbv zeta. split; [split; [apply build_wf|vm_compute; lia]|].
  apply height_bound; [apply build_wf|vm_compute; lia].
Defined.
