(* ===== verification/Partition.v ===== *)
(** * Table partitioning ([src/engine/engine.hpp], [PartitionInfo])

    Routing of an inserted row to a child table, pruning of the children a
    query scans, and the partition names a [Table] computes for its rows.
    The theorems relate the two directions: a row that is routed to a child is
    found by every query whose conditions it satisfies. *)

From S2P Require Import Prelude.

Inductive PartitionType := NONE | RANGE | LIST | HASH.

Record PartitionRangeDef := mkRange {
  r_name : bytes; r_fromStr : bytes; r_limitStr : bytes; r_fromVal : Z; r_limit : Z }.

Record PartitionListDef := mkList { l_name : bytes; l_values : list bytes }.

Record PartitionInfo := mkPartitionInfo {
  p_type : PartitionType; p_column : bytes;
  p_ranges : list PartitionRangeDef; p_lists : list PartitionListDef;
  p_hashCount : Z; p_physical : bool; p_children : list bytes }.

(** The fields of [WhereCondition] that pruning reads. *)
Record WhereCondition := mkCond { w_col : bytes; w_op : bytes; w_val : bytes }.

#[export] Instance PartitionType_eq_dec : EqDecision PartitionType.
Proof. solve_decision. Defined.

Definition hasPartitions (pi : PartitionInfo) : bool := negb (bool_decide (p_type pi = NONE)).

Definition MAXVALUE : bytes := str "MAXVALUE".

(** [ch.find(name) != npos] *)
Definition contains (name ch : bytes) : bool :=
  match find_sub name ch with Some _ => true | None => false end.

(** The first child whose name contains [name]. *)
Definition find_child (name : bytes) (children : list bytes) : option bytes :=
  snd <$> list_find (fun ch => contains name ch = true) children.

(** [aboveFrom] and [belowTo] for a value given as a string and, when [stoll]
    accepts it, as a number. *)
Definition aboveFrom (r : PartitionRangeDef) (num : option Z) (val : bytes) : bool :=
  bytes_eqb (r_fromStr r) [] ||
  match num with Some n => (r_fromVal r <=? n)%Z | None => bytes_leb (r_fromStr r) val end.
Definition belowTo (r : PartitionRangeDef) (num : option Z) (val : bytes) : bool :=
  bytes_eqb (r_limitStr r) MAXVALUE ||
  match num with Some n => (n <? r_limit r)%Z | None => bytes_ltb val (r_limitStr r) end.

(** FNV-1a in 32 bits. *)
Definition fnv1a (val : bytes) : Z :=
  fold_left (fun h c => u32 (Z.lxor h c * 16777619)) val 2166136261%Z.

(** [children[(int)(h % (uint32_t)hashCount)]], or [""] out of range. *)
Definition hash_child (pi : PartitionInfo) (val : bytes) : option bytes :=
  p_children pi !! Z.to_nat (fnv1a val mod p_hashCount pi).

Definition routeInsert (pi : PartitionInfo) (val : bytes) : bytes :=
  match p_type pi with
  | RANGE =>
      let num := stoll val in
      match list_find (fun r => aboveFrom r num val && belowTo r num val = true) (p_ranges pi) with
      | Some (_, r) => default (r_name r) (find_child (r_name r) (p_children pi))
      | None => []
      end
  | LIST =>
      match list_find (fun l => val ∈ l_values l) (p_lists pi) with
      | Some (_, l) => default (l_name l) (find_child (l_name l) (p_children pi))
      | None => []
      end
  | HASH => if (0 <? p_hashCount pi)%Z then default [] (hash_child pi val) else []
  | NONE => []
  end.

Definition is_eq_op (op : bytes) : bool := bytes_eqb op (str "=") || bytes_eqb op (str "==").
Definition is_lower_op (op : bytes) : bool := bytes_eqb op (str ">=") || bytes_eqb op (str ">").
Definition is_upper_op (op : bytes) : bool := bytes_eqb op (str "<=") || bytes_eqb op (str "<").

(** Does condition [c] exclude range partition [r]? *)
Definition dominated_by (r : PartitionRangeDef) (c : WhereCondition) : bool :=
  let num := stoll (w_val c) in
  (is_eq_op (w_op c) && negb (aboveFrom r num (w_val c) && belowTo r num (w_val c))) ||
  (is_lower_op (w_op c) && negb (bytes_eqb (r_limitStr r) MAXVALUE) &&
     match num with
     | Some n => (r_limit r <=? n)%Z
     | None => bytes_leb (r_limitStr r) (w_val c)
     end) ||
  (is_upper_op (w_op c) && negb (bytes_eqb (r_fromStr r) []) &&
     match num with
     | Some n => (n <? r_fromVal r)%Z
     | None => bytes_ltb (w_val c) (r_fromStr r)
     end).

(** [pruneChildren]; the argument [logic] of the code is not read by it. *)
Definition pruneChildren (pi : PartitionInfo) (conds : list WhereCondition) (logic : bytes)
  : list bytes :=
  let on_col := List.filter (fun c => bytes_eqb (w_col c) (p_column pi)) conds in
  let eq_conds := List.filter (fun c => is_eq_op (w_op c)) on_col in
  if bool_decide (p_children pi = []) then []
  else if bool_decide (on_col = []) then p_children pi
  else
    let result :=
      match p_type pi with
      | RANGE =>
          omap (fun r =>
            if existsb (dominated_by r) on_col then None
            else find_child (r_name r) (p_children pi)) (p_ranges pi)
      | LIST =>
          mjoin (map (fun l =>
            mjoin (map (fun c =>
              mjoin (map (fun v =>
                if bytes_eqb v (w_val c)
                then match list_find (fun ch => ch = l_name l) (p_children pi) with
                     | Some (_, ch) => [ch] | None => [] end
                else []) (l_values l))) eq_conds)) (p_lists pi))
      | HASH =>
          if (0 <? p_hashCount pi)%Z
          then omap (fun c => hash_child pi (w_val c)) eq_conds
          else []
      | NONE => []
      end in
    if bool_decide (result = []) then p_children pi else result.

(** ** The partition names a [Table] reports *)

(** Strip one pair of surrounding single quotes. *)
Definition strip_single_quotes (val : bytes) : bytes :=
  match val with
  | c :: rest =>
      if (2 <=? length val) && (c =? 39)%Z && (List.last val 0 =? 39)%Z
      then removelast rest else val
  | [] => val
  end.

(** [long long] arithmetic on the targets the code is built for. *)
Definition i64 (z : Z) : Z := ((z + 2 ^ 63) mod 2 ^ 64 - 2 ^ 63)%Z.

(** The bucket of a value in HASH partitioning; [%] truncates. *)
Definition hash_number (val : bytes) : Z :=
  match stoll val with
  | Some h => h
  | None => fold_left (fun h c => i64 (i64 (h * 31) + c)) val 0%Z
  end.
Definition hash_bucket (n : Z) (val : bytes) : Z :=
  Z.rem (Z.rem (hash_number val) n + n) n.

(** [getPartitionName] for the value of the partition column. *)
Definition partition_of_value (pi : PartitionInfo) (raw : bytes) : bytes :=
  let val := strip_single_quotes raw in
  match p_type pi with
  | RANGE =>
      let numVal := default 0%Z (stoll val) in
      match list_find (fun r => (numVal < r_limit r)%Z) (p_ranges pi) with
      | Some (_, r) => r_name r
      | None => []
      end
  | LIST =>
      match list_find (fun l => val ∈ l_values l) (p_lists pi) with
      | Some (_, l) => l_name l
      | None => []
      end
  | HASH =>
      if (p_hashCount pi <=? 0)%Z then []
      else str "p" ++ to_string (hash_bucket (p_hashCount pi) val)
  | NONE => []
  end.

(** All partition names, the start of [prunePartitions]. *)
Definition all_partitions (pi : PartitionInfo) : list bytes :=
  match p_type pi with
  | RANGE => map r_name (p_ranges pi)
  | LIST => map l_name (p_lists pi)
  | HASH => map (fun i => str "p" ++ to_string (Z.of_nat i)) (seq 0 (Z.to_nat (p_hashCount pi)))
  | NONE => []
  end.

(** [long long] minimum, the initial [prevLimit]. *)
Definition LLONG_MIN : Z := (- 2 ^ 63)%Z.

Fixpoint prune_ranges (op : bytes) (numVal prevLimit : Z) (rs : list PartitionRangeDef)
  : list bytes :=
  match rs with
  | [] => []
  | r :: rs' =>
      let keep :=
        if bytes_eqb op (str "=") || bytes_eqb op (str "BETWEEN")
        then (prevLimit <=? numVal)%Z && (numVal <? r_limit r)%Z
        else if bytes_eqb op (str "<") || bytes_eqb op (str "<=")
        then (prevLimit <? i64 (numVal + if bytes_eqb op (str "<=") then 1 else 0))%Z
        else if bytes_eqb op (str ">") || bytes_eqb op (str ">=")
        then (numVal <? r_limit r)%Z
        else true in
      (if keep then [r_name r] else []) ++ prune_ranges op numVal (r_limit r) rs'
  end.

Definition prunePartitions (pi : PartitionInfo) (col op val : bytes) : list bytes :=
  let all := all_partitions pi in
  if negb (bytes_eqb col (p_column pi)) then all else
  let cmpVal := strip_single_quotes val in
  match p_type pi with
  | RANGE =>
      match stoll cmpVal with
      | None => all
      | Some numVal =>
          let pruned := prune_ranges op numVal LLONG_MIN (p_ranges pi) in
          if bool_decide (pruned = []) then all else pruned
      end
  | LIST =>
      if bytes_eqb op (str "=") then
        match list_find (fun l => cmpVal ∈ l_values l) (p_lists pi) with
        | Some (_, l) => [l_name l]
        | None => []
        end
      else all
  | HASH =>
      if bytes_eqb op (str "=")
      then [str "p" ++ to_string (hash_bucket (p_hashCount pi) cmpVal)]
      else all
  | NONE => all
  end.

(** ** Pruning is sound *)

(** The comparison a WHERE condition makes on the partition column, numeric
    when both sides are numbers. *)
Definition cmp_num (op : bytes) (n m : Z) : Prop :=
  (is_eq_op op = true -> n = m) /\
  (bytes_eqb op (str ">=") = true -> (m <= n)%Z) /\ (bytes_eqb op (str ">") = true -> (m < n)%Z) /\
  (bytes_eqb op (str "<=") = true -> (n <= m)%Z) /\ (bytes_eqb op (str "<") = true -> (n < m)%Z).

Definition cmp_str (op : bytes) (v w : bytes) : Prop :=
  (is_eq_op op = true -> v = w) /\
  (bytes_eqb op (str ">=") = true -> bytes_le w v) /\ (bytes_eqb op (str ">") = true -> bytes_lt w v) /\
  (bytes_eqb op (str "<=") = true -> bytes_le v w) /\ (bytes_eqb op (str "<") = true -> bytes_lt v w).

(** Value [v] of the partition column satisfies condition [c]. *)
Definition cond_holds (pi : PartitionInfo) (v : bytes) (c : WhereCondition) : Prop :=
  match p_type pi with
  | RANGE =>
      match stoll v, stoll (w_val c) with
      | Some n, Some m => cmp_num (w_op c) n m
      | None, None => cmp_str (w_op c) v (w_val c)
      | _, _ => False
      end
  | _ => is_eq_op (w_op c) = true -> v = w_val c
  end.

Lemma bytes_leb_spec a b : reflect (bytes_le a b) (bytes_leb a b).
Proof.
  unfold bytes_leb. pose proof (bytes_cmp_spec a b) as H.
  destruct (bytes_cmp a b); constructor; inversion_clear H; bytes_order.
Qed.

Lemma contains_refl s : contains s s = true.
Proof.
  unfold contains. destruct s as [|c s]; [done|]. cbn [find_sub].
  pose proof (starts_with_app (c :: s) []) as H. rewrite app_nil_r in H. by rewrite H.
Qed.

Lemma find_child_some name children ch :
  find_child name children = Some ch -> ch ∈ children /\ contains name ch = true.
Proof.
  unfold find_child. intros H. apply fmap_Some in H as ([i x] & H & ->).
  apply list_find_Some in H as (H1 & H2 & _). split; [by eapply list_elem_of_lookup_2|done].
Qed.

Lemma find_child_none name children ch :
  find_child name children = None -> ch ∈ children -> contains name ch = false.
Proof.
  unfold find_child. intros H Hin. apply fmap_None, list_find_None in H.
  rewrite Forall_forall in H. apply H in Hin. by destruct (contains name ch).
Qed.

(** A routed value whose target is a child was routed through [find_child]. *)
Lemma routed_child name children ch :
  default name (find_child name children) = ch -> ch ∈ children ->
  find_child name children = Some ch.
Proof.
  destruct (find_child name children) eqn:E; simpl; [by intros ->|]. intros <- Hin.
  pose proof (find_child_none _ _ _ E Hin) as H. by rewrite contains_refl in H.
Qed.

Lemma not_dominated pi r v c :
  p_type pi = RANGE -> cond_holds pi v c ->
  aboveFrom r (stoll v) v = true -> belowTo r (stoll v) v = true -> dominated_by r c = false.
Proof.
  unfold cond_holds, dominated_by, aboveFrom, belowTo. intros -> Hc Ha Hb.
  destruct (stoll v) as [n|], (stoll (w_val c)) as [m|]; try done.
  - destruct Hc as (He & Hge & Hgt & Hle & Hlt). unfold is_lower_op, is_upper_op.
    destruct (is_eq_op (w_op c)).
    { rewrite <- (He eq_refl) in *. rewrite Ha, Hb. simpl.
      destruct (bytes_eqb (r_limitStr r) MAXVALUE), (bytes_eqb (r_fromStr r) []);
        simpl in *; to_prop;
        destruct (Z.leb_spec (r_limit r) n), (Z.ltb_spec n (r_fromVal r)); try lia;
        by rewrite ?andb_false_r. }
    simpl. apply orb_false_iff. split.
    + destruct (bytes_eqb (r_limitStr r) MAXVALUE); simpl in *; rewrite ?andb_false_r; [done|].
      to_prop. destruct (bytes_eqb _ (str ">=")), (bytes_eqb _ (str ">")); simpl; try done;
        apply Z.leb_gt; try specialize (Hge eq_refl); try specialize (Hgt eq_refl); lia.
    + destruct (bytes_eqb (r_fromStr r) []); simpl in *; rewrite ?andb_false_r; [done|].
      to_prop. destruct (bytes_eqb _ (str "<=")), (bytes_eqb _ (str "<")); simpl; try done;
        apply Z.ltb_ge; try specialize (Hle eq_refl); try specialize (Hlt eq_refl); lia.
  - destruct Hc as (He & Hge & Hgt & Hle & Hlt). unfold is_lower_op, is_upper_op.
    assert (is_eq_op (w_op c) && negb
      ((bytes_eqb (r_fromStr r) [] || bytes_leb (r_fromStr r) (w_val c)) &&
       (bytes_eqb (r_limitStr r) MAXVALUE || bytes_ltb (w_val c) (r_limitStr r))) = false) as ->.
    { destruct (is_eq_op (w_op c)); [|done]. rewrite <- (He eq_refl), Ha, Hb. done. }
    simpl. apply orb_false_iff. split.
    + destruct (bytes_eqb (r_limitStr r) MAXVALUE); simpl in *; rewrite ?andb_false_r; [done|].
      destruct (bytes_ltb_spec v (r_limitStr r)); [|done].
      destruct (bytes_eqb _ (str ">=")), (bytes_eqb _ (str ">")); simpl; try done;
        destruct (bytes_leb_spec (r_limitStr r) (w_val c)); try done; exfalso;
        try specialize (Hge eq_refl); try specialize (Hgt eq_refl); bytes_order.
    + destruct (bytes_eqb (r_fromStr r) []); simpl in *; rewrite ?andb_false_r; [done|].
      destruct (bytes_leb_spec (r_fromStr r) v); [|done].
      destruct (bytes_eqb _ (str "<=")), (bytes_eqb _ (str "<")); simpl; try done;
        destruct (bytes_ltb_spec (w_val c) (r_fromStr r)); try done; exfalso;
        try specialize (Hle eq_refl); try specialize (Hlt eq_refl); bytes_order.
Qed.

Definition on_column (pi : PartitionInfo) (conds : list WhereCondition) : list WhereCondition :=
  List.filter (fun c => bytes_eqb (w_col c) (p_column pi)) conds.

Lemma on_column_holds pi v conds c :
  Forall (fun c => w_col c = p_column pi -> cond_holds pi v c) conds ->
  c ∈ on_column pi conds -> cond_holds pi v c.
Proof.
  rewrite Forall_forall. intros H Hc. apply list_elem_of_In, filter_In in Hc as [Hc He].
  apply H; [by apply list_elem_of_In|]. by apply bool_decide_eq_true in He.
Qed.

Lemma mjoin_elem {A B} (f : A -> list B) l x y : x ∈ l -> y ∈ f x -> y ∈ mjoin (map f l).
Proof. intros H1 H2. apply list_elem_of_join. exists (f x). split; [done|]. by apply list_elem_of_fmap_2. Qed.

(** The child a row with partition value [v] is stored in: routing found a
    partition and the target is an existing child. *)
Definition stored_in (pi : PartitionInfo) (v ch : bytes) : Prop :=
  routeInsert pi v = ch /\ ch <> [] /\ ch ∈ p_children pi.

Lemma range_child pi conds v ch :
  p_type pi = RANGE -> stored_in pi v ch ->
  (forall c, c ∈ on_column pi conds -> cond_holds pi v c) ->
  ch ∈ omap (fun r => if existsb (dominated_by r) (on_column pi conds) then None
                      else find_child (r_name r) (p_children pi)) (p_ranges pi).
Proof.
  unfold stored_in, routeInsert. intros Ht (Hr & Hne & Hin) Hc. rewrite Ht in Hr.
  destruct (list_find _ (p_ranges pi)) as [[i r]|] eqn:E; [|congruence].
  apply list_find_Some in E as (Hi & Hab & _). apply bool_and_true in Hab as [Ha Hb].
  apply list_elem_of_omap. exists r. split; [by eapply list_elem_of_lookup_2|].
  destruct (existsb _ _) eqn:Ed; [|by apply routed_child].
  apply existsb_exists in Ed as (c & Hcin & Hd). apply list_elem_of_In in Hcin.
  by rewrite (not_dominated pi r v c Ht (Hc c Hcin) Ha Hb) in Hd.
Qed.

Lemma hash_child_pruned pi conds v ch :
  p_type pi = HASH -> stored_in pi v ch -> (0 < p_hashCount pi)%Z ->
  (forall c, c ∈ on_column pi conds -> cond_holds pi v c) ->
  List.filter (fun c => is_eq_op (w_op c)) (on_column pi conds) <> [] ->
  ch ∈ omap (fun c => hash_child pi (w_val c))
         (List.filter (fun c => is_eq_op (w_op c)) (on_column pi conds)).
Proof.
  unfold stored_in, routeInsert. intros Ht (Hr & Hne & Hin) Hn Hc He. rewrite Ht in Hr.
  rewrite (proj2 (Z.ltb_lt _ _)) in Hr by done.
  destruct (List.filter _ _) as [|c cs] eqn:Ef; [done|].
  assert (In c (c :: cs)) as Hcin by (by left). rewrite <- Ef in Hcin.
  apply filter_In in Hcin as [Hcin Hop]. apply list_elem_of_In in Hcin.
  specialize (Hc c Hcin). unfold cond_holds in Hc. rewrite Ht in Hc.
  apply list_elem_of_omap. exists c. split; [left|]. rewrite <- Hc by done.
  destruct (hash_child pi v); simpl in *; congruence.
Qed.

Lemma list_child_pruned pi conds v ch :
  p_type pi = LIST -> stored_in pi v ch ->
  (forall l, l ∈ p_lists pi -> find_child (l_name l) (p_children pi) = Some (l_name l)) ->
  (forall c, c ∈ on_column pi conds -> cond_holds pi v c) ->
  List.filter (fun c => is_eq_op (w_op c)) (on_column pi conds) <> [] ->
  ch ∈ mjoin (map (fun l =>
         mjoin (map (fun c =>
           mjoin (map (fun v =>
             if bytes_eqb v (w_val c)
             then match list_find (fun ch => ch = l_name l) (p_children pi) with
                  | Some (_, ch) => [ch] | None => [] end
             else []) (l_values l)))
           (List.filter (fun c => is_eq_op (w_op c)) (on_column pi conds)))) (p_lists pi)).
Proof.
  unfold stored_in, routeInsert. intros Ht (Hr & Hne & Hin) Hl Hc He. rewrite Ht in Hr.
  destruct (list_find _ (p_lists pi)) as [[i l]|] eqn:E; [|congruence].
  apply list_find_Some in E as (Hi & Hv & _).
  pose proof (list_elem_of_lookup_2 _ _ _ Hi) as Hlin.
  rewrite (Hl l Hlin) in Hr. simpl in Hr.
  destruct (List.filter _ _) as [|c cs] eqn:Ef; [done|].
  assert (In c (c :: cs)) as Hcin by (by left). rewrite <- Ef in Hcin.
  apply filter_In in Hcin as [Hcin Hop]. apply list_elem_of_In in Hcin.
  specialize (Hc c Hcin). unfold cond_holds in Hc. rewrite Ht in Hc.
  eapply mjoin_elem; [done|]. eapply mjoin_elem; [left|]. eapply mjoin_elem; [done|].
  unfold bytes_eqb. rewrite bool_decide_true by auto.
  destruct (list_find _ (p_children pi)) as [[j x]|] eqn:Ex.
  - apply list_find_Some in Ex as (_ & -> & _). subst. by left.
  - apply list_find_None in Ex. rewrite Forall_forall in Ex. by destruct (Ex ch Hin).
Qed.

(** Partition pruning is sound for conjunctions: the child a row was
    routed to is among the children scanned by any query whose conditions on
    the partition column the row satisfies (for LIST, when every list has a
    child of its own name that no earlier child name contains). *)
Theorem pruneChildren_sound pi conds v ch :
  stored_in pi v ch ->
  Forall (fun c => w_col c = p_column pi -> cond_holds pi v c) conds ->
  (p_type pi = LIST -> forall l, l ∈ p_lists pi ->
     find_child (l_name l) (p_children pi) = Some (l_name l)) ->
  ch ∈ pruneChildren pi conds (str "AND").
Proof.
  intros Hs Hc Hlist. pose proof Hs as (Hr & Hne & Hin).
  pose proof (on_column_holds pi v conds) as Hon.
  assert (forall c, c ∈ on_column pi conds -> cond_holds pi v c) as Hon' by auto. clear Hon.
  unfold pruneChildren. fold (on_column pi conds).
  rewrite bool_decide_false by (intros E; rewrite E in Hin; by apply not_elem_of_nil in Hin).
  case_if; [done|]. destruct (p_type pi) eqn:Ht.
  - by rewrite bool_decide_true.
  - rewrite bool_decide_false; [by eapply range_child|].
    intros E0. pose proof (range_child pi conds v ch Ht Hs Hon') as H. rewrite E0 in H.
    by apply not_elem_of_nil in H.
  - case_if; [done|]. apply list_child_pruned with (v := v); auto.
    intros E1. rewrite E1 in E0. apply bool_decide_eq_false in E0. apply E0.
    clear. induction (p_lists pi); simpl; auto.
  - destruct (Z.ltb_spec 0 (p_hashCount pi)); [|by rewrite bool_decide_true].
    case_if; [done|]. apply (hash_child_pruned pi conds v ch Ht Hs); auto.
    intros E1. rewrite E1 in E0. by apply bool_decide_eq_false in E0.
Qed.

Definition ex_orders : PartitionInfo := {|
  p_type := RANGE; p_column := str "k";
  p_ranges := [ {| r_name := str "low"; r_fromStr := []; r_limitStr := str "10";
                   r_fromVal := LLONG_MIN; r_limit := 10 |};
                {| r_name := str "high"; r_fromStr := str "10"; r_limitStr := MAXVALUE;
                   r_fromVal := 10; r_limit := 2 ^ 63 - 1 |} ];
  p_lists := []; p_hashCount := 0; p_physical := true;
  p_children := [str "orders_low"; str "orders_high"] |}.

Lemma pruneChildren_sound_witness :
  str "orders_high" ∈ pruneChildren ex_orders [mkCond (str "k") (str ">=") (str "15")] (str "AND").
Proof.
  apply (pruneChildren_sound ex_orders _ (str "20")).
  - split; [reflexivity|]. split; [discriminate|]. by_decide.
  - constructor; [|constructor]. intros _. unfold cond_holds. simpl.
    repeat split; vm_compute; try discriminate; intros; discriminate.
  - discriminate.
Defined.

(** The connective is ignored: under OR the child of a matching row is lost. *)
Definition ex_or_conds : list WhereCondition :=
  [mkCond (str "k") (str "=") (str "5"); mkCond (str "x") (str "=") (str "1")].

Lemma pruneChildren_or_loses_rows :
  stored_in ex_orders (str "20") (str "orders_high") /\
  ~ (str "orders_high" ∈ pruneChildren ex_orders ex_or_conds (str "OR")).
Proof.
  split; [split_and!; [reflexivity|discriminate|by_decide]|]. by_decide.
Qed.

(** ** Partition names of a table's rows *)

Lemma stoll_range s z : stoll s = Some z -> (- 2 ^ 63 <= z < 2 ^ 63)%Z.
Proof.
  unfold stoll, sto_signed. destruct (scan_int s) as [[neg n]|]; [|done]. cbn [mbind option_bind].
  case_if; [|done]. intros [= <-]. to_prop. lia.
Qed.

Lemma i64_range z : (- 2 ^ 63 <= i64 z < 2 ^ 63)%Z.
Proof. unfold i64. pose proof (Z.mod_pos_bound (z + 2 ^ 63) (2 ^ 64)). lia. Qed.

Lemma i64_id z : (- 2 ^ 63 <= z < 2 ^ 63)%Z -> i64 z = z.
Proof. intros. unfold i64. rewrite Z.mod_small; lia. Qed.

(** The bucket is a valid partition number although [%] truncates and the
    number may be negative. *)
Lemma hash_bucket_bound n v : (0 < n)%Z -> (0 <= hash_bucket n v < n)%Z.
Proof.
  intros Hn. unfold hash_bucket. pose proof (Z.rem_bound_abs (hash_number v) n ltac:(lia)) as H.
  assert (0 <= Z.rem (hash_number v) n + n)%Z by lia.
  apply Z.rem_bound_pos; lia.
Qed.

Lemma prune_ranges_sound op m n prevLimit rs i r :
  (prevLimit <= n)%Z -> (m + 1 < 2 ^ 63)%Z -> (- 2 ^ 63 <= m)%Z ->
  cmp_num op n m -> bytes_eqb op (str "BETWEEN") = false ->
  list_find (fun r => (n < r_limit r)%Z) rs = Some (i, r) ->
  r_name r ∈ prune_ranges op m prevLimit rs.
Proof.
  intros Hp Hm Hm' (He & Hge & Hgt & Hle & Hlt) Hb. revert prevLimit i Hp.
  induction rs as [|r0 rs IH]; intros prevLimit i Hp; [done|]. cbn [list_find prune_ranges].
  rewrite Hb, orb_false_r. unfold is_eq_op in He.
  rewrite elem_of_app. case_decide as Hr0.
  - intros [= _ <-]. left.
    destruct (bytes_eqb op (str "=")).
    { rewrite <- (He eq_refl). rewrite (proj2 (Z.leb_le _ _)), (proj2 (Z.ltb_lt _ _)) by done.
      by left. }
    destruct (bytes_eqb op (str "<")) eqn:E1; cbn [orb].
    { specialize (Hlt eq_refl). destruct (bytes_eqb op (str "<=")); rewrite i64_id by lia;
        rewrite (proj2 (Z.ltb_lt _ _)) by lia; by left. }
    destruct (bytes_eqb op (str "<=")) eqn:E2; cbn [orb].
    { specialize (Hle eq_refl). rewrite i64_id by lia.
      rewrite (proj2 (Z.ltb_lt _ _)) by lia; by left. }
    destruct (bytes_eqb op (str ">")), (bytes_eqb op (str ">=")); cbn [orb]; try (by left);
      try specialize (Hgt eq_refl); try specialize (Hge eq_refl);
      rewrite (proj2 (Z.ltb_lt _ _)) by lia; by left.
  - intros H. apply fmap_Some in H as ([j x] & H & [= -> ->]).
    right. eapply IH; [lia|exact H].
Qed.

(** The row's value satisfies [col op val] for the partition column. *)
Definition value_matches (pi : PartitionInfo) (op raw val : bytes) : Prop :=
  match p_type pi with
  | RANGE =>
      exists n m, stoll (strip_single_quotes raw) = Some n /\
        stoll (strip_single_quotes val) = Some m /\ (m + 1 < 2 ^ 63)%Z /\
        cmp_num op n m /\ bytes_eqb op (str "BETWEEN") = false
  | LIST => bytes_eqb op (str "=") = true -> strip_single_quotes raw = strip_single_quotes val
  | HASH => bytes_eqb op (str "=") = true ->
              hash_number (strip_single_quotes raw) = hash_number (strip_single_quotes val)
  | NONE => False
  end.

Lemma partition_of_value_all pi raw :
  partition_of_value pi raw <> [] -> partition_of_value pi raw ∈ all_partitions pi.
Proof.
  unfold partition_of_value, all_partitions. destruct (p_type pi); try done.
  - destruct (list_find _ _) as [[i r]|] eqn:E; [|done]. intros _.
    apply list_find_Some in E as (E & _). apply list_elem_of_fmap_2. by eapply list_elem_of_lookup_2.
  - destruct (list_find _ _) as [[i r]|] eqn:E; [|done]. intros _.
    apply list_find_Some in E as (E & _). apply list_elem_of_fmap_2. by eapply list_elem_of_lookup_2.
  - destruct (Z.leb_spec (p_hashCount pi) 0); [done|]. intros _.
    pose proof (hash_bucket_bound (p_hashCount pi) (strip_single_quotes raw) ltac:(lia)) as Hb.
    apply list_elem_of_fmap. exists (Z.to_nat (hash_bucket (p_hashCount pi) (strip_single_quotes raw))).
    rewrite Z2Nat.id by lia. split; [done|]. apply elem_of_seq. lia.
Qed.

(** The partition a table reports for a row is among the partitions kept
    by [prunePartitions] for any comparison the row's value satisfies. *)
Theorem prunePartitions_sound pi col op val raw :
  partition_of_value pi raw <> [] -> value_matches pi op raw val ->
  partition_of_value pi raw ∈ prunePartitions pi col op val.
Proof.
  intros Hne Hm. pose proof (partition_of_value_all pi raw Hne) as Hall.
  unfold prunePartitions. case_if; [done|]. clear E.
  unfold value_matches in Hm. unfold partition_of_value in *.
  destruct (p_type pi) eqn:Ht; [done| | |].
  - destruct Hm as (n & m & Hn & Hmm & Hm1 & Hc & Hb). rewrite Hn, Hmm in *.
    destruct (list_find _ _) as [[i r]|] eqn:E; [|done]. case_if; [done|].
    apply stoll_range in Hn, Hmm. eapply prune_ranges_sound; eauto; unfold LLONG_MIN; lia.
  - case_if; [|done]. rewrite <- (Hm eq_refl).
    destruct (list_find _ _) as [[i l]|] eqn:El; [|done]. by left.
  - destruct (Z.leb_spec (p_hashCount pi) 0); [done|]. case_if; [|done].
    unfold hash_bucket. rewrite <- (Hm eq_refl). by left.
Qed.

Lemma prunePartitions_sound_witness :
  str "low" ∈ prunePartitions ex_orders (str "k") (str "<") (str "7").
Proof.
  apply (prunePartitions_sound ex_orders (str "k") (str "<") (str "7") (str "'3'")).
  - discriminate.
  - exists 3%Z, 7%Z. repeat split; vm_compute; intros; discriminate || reflexivity.
Defined.
