(* ===== verification/Table.v ===== *)
(** * In-memory tables ([src/engine/engine.hpp], class [Table])

    Rows in insertion order with their MVCC stamps, the schema, and the
    secondary indices, which the table keeps in step with the rows after every
    change.  The trees are used through the interface [RowIndex]; the central
    theorem is that every sequence of operations leaves every index an exact
    map from column values to the live rows. *)

From S2P Require Import Prelude Index Partition.

(** ** Data *)

Record Row := mkRow { values : list bytes; xmin : Z; xmax : Z }.

(** [explicit Row(std::vector<std::string> v)] *)
Definition row_of (v : list bytes) : Row := {| values := v; xmin := 0; xmax := 0 |}.

Record CheckConstraint := mkCheck { ck_op : bytes; ck_val : bytes; ck_inList : list bytes }.

Record Column := mkColumn {
  c_name : bytes; c_type : bytes; notNull : bool; isUnique : bool;
  hasDefault : bool; defaultValue : bytes; isPrimaryKey : bool; autoIncrement : bool;
  checks : list CheckConstraint; isGenerated : bool; generatedExpr : bytes; isStored : bool }.

(** [Column(std::string n, std::string t)] *)
Definition column (n t : bytes) : Column :=
  mkColumn n t false false false [] false false [] false [] false.

Record ForeignKeyDef := mkFK {
  fromCol : bytes; refTable : bytes; refCol : bytes; onDelete : bytes }.

#[export] Instance Row_eq_dec : EqDecision Row.
Proof. solve_decision. Defined.

Abbreviation NULL := (str "NULL") (only parsing).

Definition alive (r : Row) : bool := (xmax r =? 0)%Z.

(** [dateutils::stripQuotes] *)
Definition stripQuotes (s : bytes) : bytes :=
  match s with
  | c :: rest =>
      if (2 <=? length s) && (((c =? 39) && (List.last s 0 =? 39)) ||
                              ((c =? 34) && (List.last s 0 =? 34)))%Z
      then removelast rest else s
  | [] => s
  end.

(** ** Column lookup *)

Definition DOT : byte := 46.

(** The part of a name before its last dot, if any, and the part after it. *)
Definition split_name (s : bytes) : option bytes * bytes :=
  match rfind_char DOT s with
  | Some p => (Some (take p s), drop (S p) s)
  | None => (None, s)
  end.

(** [cnTbl] is acceptable for the table qualifier [pre]. *)
Definition table_part_ok (cnTbl pre : bytes) : bool :=
  bytes_eqb cnTbl [] || bytes_eqb cnTbl pre ||
  let n := length cnTbl - length pre in
  ((length pre <? length cnTbl) && bytes_eqb (drop n cnTbl) pre &&
   (nth (n - 1) cnTbl 0 =? DOT)%Z).

Fixpoint colOf_loop (i : nat) (cs : list Column) (raw pre : bytes)
    (bareMatch : option nat) (bareCount : nat) : option nat :=
  match cs with
  | [] => if bareCount =? 1 then bareMatch else None
  | c :: cs' =>
      let '(p, suf) := split_name (c_name c) in
      if negb (bytes_eqb suf raw) then colOf_loop (S i) cs' raw pre bareMatch bareCount
      else if negb (bytes_eqb pre []) then
        if negb (table_part_ok (default [] p) pre)
        then colOf_loop (S i) cs' raw pre bareMatch bareCount
        else Some i
      else colOf_loop (S i) cs' raw pre (Some i) (S bareCount)
  end.

(** [colOf]; [None] is the result [-1]. *)
Definition colOf_cols (cs : list Column) (col : bytes) : option nat :=
  match list_find (fun c => c_name c = col) cs with
  | Some (i, _) => Some i
  | None =>
      let '(p, raw) := split_name col in
      colOf_loop 0 cs raw (default [] p) None 0
  end.

(** ** The table *)

Section table.
Context {tree : Type} {RI : RowIndex tree}.

Record IndexEntry := mkIndex { ix_name : bytes; ix_cols : list bytes; ix_tree : tree; ix_type : bytes }.

Record Table := mkTable {
  name_ : bytes; columns_ : list Column; rows_ : list Row;
  indices_ : gmap bytes IndexEntry; autoIncMap_ : gmap bytes Z;
  foreignKeys_ : list ForeignKeyDef; partitionInfo_ : PartitionInfo }.

Definition no_partitions : PartitionInfo := mkPartitionInfo Partition.NONE [] [] [] 0 false [].

(** [Table(std::string name, std::vector<Column> cols)] *)
Definition table (name : bytes) (cols : list Column) : Table :=
  mkTable name cols [] ∅ ∅ [] no_partitions.

Definition with_rows (t : Table) (rs : list Row) : Table :=
  mkTable (name_ t) (columns_ t) rs (indices_ t) (autoIncMap_ t) (foreignKeys_ t) (partitionInfo_ t).
Definition with_columns (t : Table) (cs : list Column) : Table :=
  mkTable (name_ t) cs (rows_ t) (indices_ t) (autoIncMap_ t) (foreignKeys_ t) (partitionInfo_ t).
Definition with_indices (t : Table) (ix : gmap bytes IndexEntry) : Table :=
  mkTable (name_ t) (columns_ t) (rows_ t) ix (autoIncMap_ t) (foreignKeys_ t) (partitionInfo_ t).
Definition with_autoInc (t : Table) (m : gmap bytes Z) : Table :=
  mkTable (name_ t) (columns_ t) (rows_ t) (indices_ t) m (foreignKeys_ t) (partitionInfo_ t).
Definition with_tree (e : IndexEntry) (tr : tree) : IndexEntry :=
  mkIndex (ix_name e) (ix_cols e) tr (ix_type e).

Definition colOf (t : Table) (col : bytes) : option nat := colOf_cols (columns_ t) col.

(** The (value, row number) pairs of column [ci] for the rows from number [k]. *)
Fixpoint index_pairs (ci k : nat) (rs : list Row) : list (bytes * nat) :=
  match rs with
  | [] => []
  | r :: rs' =>
      (if alive r then match values r !! ci with Some v => [(v, k)] | None => [] end else [])
      ++ index_pairs ci (S k) rs'
  end.

Definition rebuild_entry (t : Table) (e : IndexEntry) : IndexEntry :=
  match ix_cols e with
  | [] => e
  | c :: _ =>
      match colOf t c with
      | None => e
      | Some ci => with_tree e (ri_fill (ri_clear (ix_tree e)) (index_pairs ci 0 (rows_ t)))
      end
  end.

Definition rebuildAll (t : Table) : Table := with_indices t (rebuild_entry t <$> indices_ t).

(** *** INSERT *)

(** The value violates UNIQUE on column [i]. *)
Definition duplicate (i : nat) (v : bytes) (rs : list Row) : bool :=
  existsb (fun r => alive r && bool_decide (values r !! i = Some v)) rs.

(** The constraint loop; columns and values have equal length here. *)
Fixpoint check_constraints (i : nat) (cs : list Column) (vs : list bytes) (rs : list Row)
  : result () :=
  match cs, vs with
  | c :: cs', v :: vs' =>
      if notNull c && bytes_eqb v NULL then Throw "NOT NULL verletzt"
      else if isUnique c && negb (bytes_eqb v NULL) && duplicate i v rs
      then Throw "UNIQUE verletzt"
      else check_constraints (S i) cs' vs' rs
  | _, _ => Ok ()
  end.

(** Enter the new last row [row], whose number is [ni], in one index. *)
Definition index_new_row (t : Table) (row : Row) (ni : nat) (e : IndexEntry) : IndexEntry :=
  match ix_cols e with
  | [] => e
  | c :: _ =>
      match colOf t c with
      | None => e
      | Some ci =>
          match values row !! ci with
          | Some v => if alive row then with_tree e (ri_insert (ix_tree e) v ni) else e
          | None => e
          end
      end
  end.

Definition insert_row (t : Table) (row : Row) : result Table :=
  if negb (length (values row) =? length (columns_ t)) then Throw "Zeilenbreite"
  else
    match check_constraints 0 (columns_ t) (values row) (rows_ t) with
    | Throw e => Throw e
    | Ok _ =>
        let t := with_rows t (rows_ t ++ [row]) in
        let ni := length (rows_ t) - 1 in
        Ok (with_indices t (index_new_row t row ni <$> indices_ t))
    end.

(** *** UPDATE and DELETE *)

Definition where_matches (wCI : nat) (wVal : bytes) (row : Row) : bool :=
  match values row !! wCI with
  | Some v => bytes_eqb v wVal || bytes_eqb v (stripQuotes wVal)
  | None => false
  end.

Definition set_values (row : Row) (vs : list bytes) : Row := mkRow vs (xmin row) (xmax row).
Definition set_xmax (id : Z) (row : Row) : Row := mkRow (values row) (xmin row) id.
Definition set_xmin (id : Z) (row : Row) : Row := mkRow (values row) id (xmax row).

(** Apply [f] to the rows selected by [p] and rebuild if there were any. *)
Definition update_rows (p : Row -> bool) (f : Row -> Row) (t : Table) : nat * Table :=
  let n := length (List.filter p (rows_ t)) in
  let t := with_rows t (map (fun r => if p r then f r else r) (rows_ t)) in
  (n, if n =? 0 then t else rebuildAll t).

(** Drop the rows selected by [p] and rebuild if there were any. *)
Definition erase_rows (p : Row -> bool) (t : Table) : nat * Table :=
  let n := length (List.filter p (rows_ t)) in
  let t := with_rows t (List.filter (fun r => negb (p r)) (rows_ t)) in
  (n, if n =? 0 then t else rebuildAll t).

(** Assign the columns [setCIs] one after the other, skipping those the row
    does not have (stdpp's [<[_ := _]>] does nothing there). *)
Definition set_columns (setCIs : list nat) (newVals : list bytes) (row : Row) : Row :=
  set_values row
    (fold_left (fun vs kv => <[kv.1 := kv.2]> vs) (zip setCIs newVals) (values row)).

(** [updateWhere] with one column and with several; [updateAll] likewise. *)
Definition updateWhere (setCI : nat) (newVal : bytes) (wCI : nat) (wVal : bytes)
  : Table -> nat * Table :=
  update_rows (where_matches wCI wVal) (fun r => set_values r (<[setCI := newVal]> (values r))).
Definition updateWhereMulti (setCIs : list nat) (newVals : list bytes) (wCI : nat) (wVal : bytes)
  : Table -> nat * Table :=
  update_rows (where_matches wCI wVal) (set_columns setCIs newVals).
Definition updateAll (setCI : nat) (newVal : bytes) (t : Table) : nat * Table :=
  (length (rows_ t),
   rebuildAll (with_rows t (map (fun r => set_values r (<[setCI := newVal]> (values r))) (rows_ t)))).
Definition updateAllMulti (setCIs : list nat) (newVals : list bytes) (t : Table) : nat * Table :=
  (length (rows_ t), rebuildAll (with_rows t (map (set_columns setCIs newVals) (rows_ t)))).

Definition deleteWhere (wCI : nat) (wVal : bytes) : Table -> nat * Table :=
  erase_rows (where_matches wCI wVal).
Definition deleteAll (t : Table) : nat * Table :=
  (length (rows_ t), rebuildAll (with_rows t [])).
Definition truncateRows (maxRows : nat) (t : Table) : Table :=
  with_rows t (take maxRows (rows_ t)).

(** *** UPSERT helpers *)

Definition conflictRows (t : Table) (vals : list bytes) : list nat :=
  List.filter (fun r =>
    match rows_ t !! r with
    | Some row =>
        alive row &&
        existsb (fun i =>
          match columns_ t !! i, vals !! i with
          | Some c, Some v =>
              isUnique c && negb (bytes_eqb v NULL) && bool_decide (values row !! i = Some v)
          | _, _ => false
          end) (seq 0 (length (columns_ t)))
    | None => false
    end) (seq 0 (length (rows_ t))).

Definition eraseByIndices (idxs : list nat) (t : Table) : Table :=
  let sorted := merge_sort ge idxs in
  let t := with_rows t (fold_left (fun rs i => take i rs ++ drop (S i) rs) sorted (rows_ t)) in
  if bool_decide (idxs = []) then t else rebuildAll t.

(** *** ALTER TABLE *)

Definition push_value (fill : bytes) (r : Row) : Row := set_values r (values r ++ [fill]).
Definition erase_value (ci : nat) (r : Row) : Row :=
  set_values r (take ci (values r) ++ drop (S ci) (values r)).

Definition addColumn (col : Column) (t : Table) : Table :=
  let fill := if hasDefault col then defaultValue col else NULL in
  with_rows (with_columns t (columns_ t ++ [col])) (map (push_value fill) (rows_ t)).

Definition dropColumn (colName : bytes) (t : Table) : result Table :=
  match colOf t colName with
  | None => Throw "ALTER TABLE: Spalte nicht gefunden"
  | Some ci =>
      let t := with_columns t (take ci (columns_ t) ++ drop (S ci) (columns_ t)) in
      let t := with_rows t (map (erase_value ci) (rows_ t)) in
      let t := with_indices t
        (filter (fun kv => colName ∉ ix_cols kv.2) (indices_ t)) in
      Ok (rebuildAll t)
  end.

Definition rename_col (newName : bytes) (c : Column) : Column :=
  mkColumn newName (c_type c) (notNull c) (isUnique c) (hasDefault c) (defaultValue c)
    (isPrimaryKey c) (autoIncrement c) (checks c) (isGenerated c) (generatedExpr c) (isStored c).

Definition renameColumn (oldName newName : bytes) (t : Table) : result Table :=
  match colOf t oldName with
  | None => Throw "ALTER TABLE: Spalte nicht gefunden"
  | Some ci =>
      match colOf t newName with
      | Some _ => Throw "ALTER TABLE: Spalte existiert bereits"
      | None =>
          let t := with_columns t (alter (rename_col newName) ci (columns_ t)) in
          Ok (with_indices t
            ((fun e => mkIndex (ix_name e)
                (map (fun c => if bytes_eqb c oldName then newName else c) (ix_cols e))
                (ix_tree e) (ix_type e)) <$> indices_ t))
      end
  end.

(** *** Index operations *)

(** [createIndex] enters every row, the logically deleted ones included. *)
Fixpoint all_pairs (ci k : nat) (rs : list Row) : list (bytes * nat) :=
  match rs with
  | [] => []
  | r :: rs' =>
      match values r !! ci with Some v => [(v, k)] | None => [] end ++ all_pairs ci (S k) rs'
  end.

Definition createIndex (cols : list bytes) (idxName idxType : bytes) (t : Table) : result Table :=
  match cols with
  | [] => Throw "CREATE INDEX: Keine Spalten angegeben."
  | c :: _ =>
      match colOf t c with
      | None => Throw "Spalte nicht gefunden"
      | Some ci =>
          match indices_ t !! idxName with
          | Some _ => Throw "Index existiert bereits"
          | None =>
              let tr := ri_fill ri_empty (all_pairs ci 0 (rows_ t)) in
              Ok (with_indices t (<[idxName := mkIndex idxName cols tr idxType]> (indices_ t)))
          end
      end
  end.

Definition dropIndex (idxName : bytes) (t : Table) : result Table :=
  match indices_ t !! idxName with
  | None => Throw "Index nicht gefunden"
  | Some _ => Ok (with_indices t (delete idxName (indices_ t)))
  end.

Definition leads (colName : bytes) (kv : bytes * IndexEntry) : bool :=
  match ix_cols kv.2 with c :: _ => bytes_eqb c colName | [] => false end.

Definition hasIndex (t : Table) (colName : bytes) : bool :=
  existsb (leads colName) (str_iter (indices_ t)).

Definition indexSearch (t : Table) (colName val : bytes) : list nat :=
  match List.find (leads colName) (str_iter (indices_ t)) with
  | Some (_, e) => ri_search (ix_tree e) val
  | None => []
  end.

(** *** AUTO_INCREMENT counters *)

Definition consumeAutoInc (colName : bytes) (t : Table) : Z * Table :=
  let v := default 0%Z (autoIncMap_ t !! colName) in
  let v := if (v =? 0)%Z then 1%Z else v in
  (v, with_autoInc t (<[colName := u64 (v + 1)]> (autoIncMap_ t))).
Definition updateAutoIncBase (colName : bytes) (minNext : Z) (t : Table) : Table :=
  let v := default 0%Z (autoIncMap_ t !! colName) in
  with_autoInc t (<[colName := if (v <? minNext)%Z then minNext else v]> (autoIncMap_ t)).
Definition peekAutoInc (t : Table) (colName : bytes) : Z :=
  match autoIncMap_ t !! colName with
  | Some v => if (0 <? v)%Z then v else 1%Z
  | None => 1%Z
  end.

(** *** Query helpers *)

(** Keep the first live row of each tuple of values. *)
Fixpoint distinct_rows (seen : list (list bytes)) (rs : list Row) : list Row :=
  match rs with
  | [] => []
  | r :: rs' =>
      if negb (alive r) then distinct_rows seen rs'
      else if bool_decide (values r ∈ seen) then distinct_rows seen rs'
      else r :: distinct_rows (values r :: seen) rs'
  end.
Definition makeDistinct (t : Table) : Table := with_rows t (distinct_rows [] (rows_ t)).

Definition clone (t : Table) : Table :=
  mkTable (name_ t) (columns_ t) (List.filter alive (rows_ t)) ∅ (autoIncMap_ t)
    (foreignKeys_ t) no_partitions.

(** *** MVCC helpers *)

Definition stamp_matches (wCI : nat) (wVal : bytes) (row : Row) : bool :=
  alive row && bool_decide (values row !! wCI = Some wVal).

Definition stampDeleteWhere (wCI : nat) (wVal : bytes) (txId : Z) : Table -> nat * Table :=
  update_rows (stamp_matches wCI wVal) (set_xmax txId).
Definition stampDeleteAll (txId : Z) : Table -> nat * Table :=
  update_rows alive (set_xmax txId).
Definition stampXminLast (txId : Z) (t : Table) : Table :=
  match rows_ t with
  | [] => t
  | _ => with_rows t (alter (set_xmin txId) (length (rows_ t) - 1) (rows_ t))
  end.

Definition dead_version (isCommitted : Z -> bool) (horizon : Z) (r : Row) : bool :=
  negb (xmax r =? 0)%Z && (xmax r <? horizon)%Z && isCommitted (xmax r).
Definition vacuum (isCommitted : Z -> bool) (horizon : Z) : Table -> nat * Table :=
  erase_rows (dead_version isCommitted horizon).
Definition deadRowCount (t : Table) : nat :=
  length (List.filter (fun r => negb (xmax r =? 0)%Z) (rows_ t)).

(** *** Partition names *)

Definition getPartitionName (t : Table) (row : Row) : bytes :=
  let pi := partitionInfo_ t in
  if negb (hasPartitions pi) then []
  else
    let val := match colOf t (p_column pi) with
               | Some ci => default [] (values row !! ci)
               | None => []
               end in
    partition_of_value pi val.

(** ** The rows an index must list *)

(** Numbers of the live rows whose column [ci] is [val], in ascending order. *)
Definition live_matches (t : Table) (ci : nat) (val : bytes) : list nat :=
  List.filter (fun i => match rows_ t !! i with
                        | Some r => alive r && bool_decide (values r !! ci = Some val)
                        | None => false end) (seq 0 (length (rows_ t))).

(** The pairs of an index that lists, besides the live rows, the dead ones that
    [stale] marks. *)
Fixpoint listed_pairs (stale : nat -> bool) (ci k : nat) (rs : list Row) : list (bytes * nat) :=
  match rs with
  | [] => []
  | r :: rs' =>
      (if alive r || stale k then match values r !! ci with Some v => [(v, k)] | None => [] end else [])
      ++ listed_pairs stale ci (S k) rs'
  end.

Definition row_at (t : Table) (p : Row -> bool) (i : nat) : bool :=
  match rows_ t !! i with Some r => p r | None => false end.

Lemma listed_none stale ci k rs :
  (forall i, stale i = false) -> listed_pairs stale ci k rs = index_pairs ci k rs.
Proof. intros H. revert k. induction rs as [|r rs IH]; intros k; simpl; [done|]. by rewrite IH, H, orb_false_r. Qed.

Lemma listed_all stale ci k rs :
  (forall i, k <= i < k + length rs -> stale i = true) -> listed_pairs stale ci k rs = all_pairs ci k rs.
Proof.
  revert k. induction rs as [|r rs IH]; intros k H; simpl; [done|].
  rewrite IH by (intros i Hi; apply H; simpl; lia). by rewrite H, orb_true_r by (simpl; lia).
Qed.

Lemma listed_pairs_app stale ci k rs1 rs2 :
  listed_pairs stale ci k (rs1 ++ rs2) = listed_pairs stale ci k rs1 ++ listed_pairs stale ci (k + length rs1) rs2.
Proof.
  revert k. induction rs1 as [|r rs1 IH]; intros k; simpl; [by rewrite Nat.add_0_r|].
  rewrite IH, <- app_assoc. do 3 f_equal. lia.
Qed.

Lemma rows_for_app k l1 l2 : rows_for k (l1 ++ l2) = rows_for k l1 ++ rows_for k l2.
Proof. unfold rows_for. by rewrite List.filter_app, map_app. Qed.

Lemma rows_for_pairs stale k ci n rs :
  rows_for k (listed_pairs stale ci n rs) =
    List.filter (fun i => match rs !! (i - n) with
                          | Some r => (alive r || stale i) && bool_decide (values r !! ci = Some k)
                          | None => false end) (seq n (length rs)).
Proof.
  revert n. induction rs as [|r rs IH]; intros n; [done|].
  cbn [listed_pairs length seq List.filter]. rewrite rows_for_app, IH, Nat.sub_diag. simpl.
  assert (forall l, (forall i, i ∈ l -> n < i) ->
    List.filter (fun i => match rs !! (i - S n) with
      | Some r => (alive r || stale i) && bool_decide (values r !! ci = Some k) | None => false end) l =
    List.filter (fun i => match (r :: rs) !! (i - n) with
      | Some r => (alive r || stale i) && bool_decide (values r !! ci = Some k) | None => false end) l) as Hf.
  { induction l as [|i l IHl]; intros Hl; [done|]. cbn [List.filter].
    assert (n < i) by (apply Hl; left). rewrite IHl by (intros; apply Hl; by right).
    by replace (i - n) with (S (i - S n)) by lia. }
  rewrite Hf by (intros i Hi; apply elem_of_seq in Hi; lia).
  destruct (alive r || stale n); simpl; [|done].
  destruct (values r !! ci) as [v|]; [|by rewrite bool_decide_false].
  unfold rows_for, bytes_eqb. simpl. destruct (decide (k = v)) as [->|Hne].
  - by rewrite !bool_decide_true by done.
  - rewrite !bool_decide_false by congruence. done.
Qed.

Lemma filter_filter {A} (p q : A -> bool) l :
  List.filter p (List.filter q l) = List.filter (fun x => q x && p x) l.
Proof. induction l as [|x l IH]; simpl; [done|]. destruct (q x); simpl; [destruct (p x)|]; by rewrite IH. Qed.

(** What such an index answers: rows with the value, of which the live ones are
    all there. *)
Lemma rows_for_listed stale t ci k :
  let found := rows_for k (listed_pairs stale ci 0 (rows_ t)) in
  Forall (fun i => row_at t (fun r => bool_decide (values r !! ci = Some k)) i = true) found /\
  List.filter (row_at t alive) found = live_matches t ci k /\
  ((forall i, stale i = false) -> found = live_matches t ci k).
Proof.
  cbn zeta. rewrite rows_for_pairs. unfold live_matches, row_at. split_and!.
  - apply List.Forall_forall. intros i Hi. apply filter_In in Hi as [_ Hi]. rewrite Nat.sub_0_r in Hi.
    destruct (rows_ t !! i); [|done]. by apply andb_prop in Hi as [_ Hi].
  - rewrite filter_filter. apply List.filter_ext. intros i. rewrite Nat.sub_0_r.
    destruct (rows_ t !! i) as [r|]; [|done]. destruct (alive r), (stale i); simpl; by rewrite ?andb_true_r, ?andb_false_r.
  - intros H. apply List.filter_ext. intros i. rewrite Nat.sub_0_r, H. destruct (rows_ t !! i); [|done]. by rewrite orb_false_r.
Qed.

(** Only the stamps' liveness and the values matter to an index. *)
Lemma listed_pairs_ext stale ci k rs rs' :
  map (fun r => (alive r, values r)) rs = map (fun r => (alive r, values r)) rs' ->
  listed_pairs stale ci k rs = listed_pairs stale ci k rs'.
Proof.
  revert k rs'. induction rs as [|r rs IH]; intros k [|r' rs'] E; try done.
  injection E as E1 E2 E3. simpl. by rewrite E1, E2, (IH (S k) rs').
Qed.

Lemma listed_pairs_push stale ci k fill rs w :
  Forall (fun r => length (values r) = w) rs -> ci < w ->
  listed_pairs stale ci k (map (push_value fill) rs) = listed_pairs stale ci k rs.
Proof.
  intros Hw Hci. revert k. induction Hw as [|r rs Hr _ IH]; intros k; simpl; [done|].
  rewrite IH. unfold alive. simpl. by rewrite lookup_app_l by lia.
Qed.

Lemma all_pairs_alive ci k rs :
  Forall (fun r => alive r = true) rs -> all_pairs ci k rs = index_pairs ci k rs.
Proof.
  intros H. revert k. induction H as [|r rs Hr _ IH]; intros k; simpl; [done|].
  by rewrite Hr, IH.
Qed.

(** ** Column lookup in a plain schema *)

Definition plain_name (s : bytes) : Prop := DOT ∉ s.

Lemma split_plain s : plain_name s -> split_name s = (None, s).
Proof. unfold split_name. intros H. by rewrite (proj2 (rfind_char_none DOT s) H). Qed.

Definition names (cs : list Column) : list bytes := map c_name cs.

Lemma colOf_loop_fresh i cs raw bm bc :
  Forall plain_name (names cs) -> raw ∉ names cs ->
  colOf_loop i cs raw [] bm bc = if bc =? 1 then bm else None.
Proof.
  revert i. induction cs as [|c cs IH]; intros i Hp Hn; [done|]. cbn [colOf_loop].
  apply Forall_cons in Hp as [Hc Hp]. rewrite split_plain by done.
  apply not_elem_of_cons in Hn as [Hn1 Hn2].
  unfold bytes_eqb. rewrite bool_decide_false by congruence. by apply IH.
Qed.

Lemma colOf_plain cs c :
  Forall plain_name (names cs) -> plain_name c ->
  colOf_cols cs c = fst <$> list_find (fun k => c_name k = c) cs.
Proof.
  intros Hp Hc. unfold colOf_cols. destruct (list_find _ cs) as [[i k]|] eqn:E; [done|].
  rewrite split_plain by done. simpl. rewrite colOf_loop_fresh; [done|done|].
  apply list_find_None in E. rewrite Forall_forall in E.
  intros Hin. apply list_elem_of_fmap in Hin as (k & -> & Hk). by apply (E k).
Qed.

Lemma colOf_plain_bound cs c ci :
  Forall plain_name (names cs) -> plain_name c -> colOf_cols cs c = Some ci -> ci < length cs.
Proof.
  intros Hp Hc. rewrite colOf_plain by done. intros H.
  apply fmap_Some in H as ([i k] & H & ->). apply list_find_Some in H as (H & _).
  by apply lookup_lt_Some in H.
Qed.

Lemma list_find_name_app cs c col :
  c ∈ names cs ->
  fst <$> list_find (fun k => c_name k = c) (cs ++ [col]) = fst <$> list_find (fun k => c_name k = c) cs.
Proof.
  induction cs as [|k cs IH]; intros Hin; [by apply not_elem_of_nil in Hin|].
  cbn [list_find app]. case_decide; [done|].
  apply elem_of_cons in Hin as [|Hin]; [congruence|]. specialize (IH Hin).
  destruct (list_find _ (cs ++ [col])) as [[? ?]|], (list_find _ cs) as [[? ?]|];
    simpl in *; congruence.
Qed.

Lemma list_find_name cs c :
  c ∈ names cs -> exists i k, list_find (fun k => c_name k = c) cs = Some (i, k).
Proof.
  intros Hin. apply list_elem_of_fmap in Hin as (k & -> & Hk).
  apply list_elem_of_In in Hk.
  destruct (list_find (fun k' => c_name k' = c_name k) cs) as [[i k']|] eqn:E; [eauto|].
  apply list_find_None in E. rewrite Forall_forall in E. apply list_elem_of_In in Hk.
  by destruct (E k Hk).
Qed.

(** ** Index consistency *)

Context {RIS : RowIndexSpec tree}.

(** With [clean], no index was created while the table held dead rows. *)
Section clean.
Context (clean : bool).

(** The dead rows an index may list: rows of the table, and none if [clean]. *)
Definition may_list (stale : nat -> bool) (n : nat) : Prop :=
  forall i, stale i = true -> clean = false /\ i < n.

(** An index whose leading column resolves maps every value to the live rows
    that hold it, and to dead ones it was created over. *)
Definition entry_ok (cs : list Column) (rs : list Row) (e : IndexEntry) : Prop :=
  match ix_cols e with
  | [] => True
  | c :: _ =>
      match colOf_cols cs c with
      | None => True
      | Some ci =>
          ri_ok (ix_tree e) /\
          exists stale, may_list stale (length rs) /\
            forall k, ri_search (ix_tree e) k = rows_for k (listed_pairs stale ci 0 rs)
      end
  end.

Definition consistent (t : Table) : Prop :=
  map_Forall (fun _ e => entry_ok (columns_ t) (rows_ t) e) (indices_ t).

Definition wide (t : Table) : Prop :=
  Forall (fun r => length (values r) = length (columns_ t)) (rows_ t).

(** Distinct column names without a table qualifier, and indices that name
    columns of the schema. *)
Definition plain (t : Table) : Prop :=
  NoDup (names (columns_ t)) /\ Forall plain_name (names (columns_ t)) /\
  map_Forall (fun _ e => exists c cs, ix_cols e = c :: cs /\ c ∈ names (columns_ t)) (indices_ t).

Definition good_indices (t : Table) : Prop := consistent t /\ wide t /\ plain t.

Lemma fmap_entries_ok (f : IndexEntry -> IndexEntry) (ix : gmap bytes IndexEntry) P Q :
  map_Forall (fun _ e => P e) ix -> (forall e, P e -> Q (f e)) ->
  map_Forall (fun _ e => Q e) (f <$> ix).
Proof.
  intros H1 H2 i e He. apply lookup_fmap_Some in He as (e0 & <- & He). by eapply H2, H1.
Qed.

Lemma rebuild_entry_ok t e : entry_ok (columns_ t) (rows_ t) (rebuild_entry t e).
Proof.
  unfold entry_ok, rebuild_entry. destruct (ix_cols e) as [|c cs] eqn:Ec; [by rewrite Ec|].
  fold (colOf t c). destruct (colOf t c) as [ci|] eqn:Eci.
  - simpl. rewrite Ec. fold (colOf t c). rewrite Eci.
    destruct (ri_fill_spec (ri_clear (ix_tree e)) (index_pairs ci 0 (rows_ t))) as [H1 H2];
      [by apply ri_ok_clear|].
    split; [done|]. exists (fun _ => false). split; [done|]. intros k.
    by rewrite listed_none, H2, ri_search_clear by done.
  - rewrite Ec. fold (colOf t c). by rewrite Eci.
Qed.

Lemma rebuild_entry_cols t e : ix_cols (rebuild_entry t e) = ix_cols e.
Proof.
  unfold rebuild_entry. destruct (ix_cols e) as [|c cs] eqn:E; [done|]. by destruct (colOf t c).
Qed.

(** Rebuilding restores consistency and keeps the rest. *)
Lemma rebuildAll_good t : wide t -> plain t -> good_indices (rebuildAll t).
Proof.
  intros Hw (Hn & Hd & Hi). split_and!; [|done|split_and!; [done|done|]].
  - intros i e He. apply lookup_fmap_Some in He as (e0 & <- & He). exact (rebuild_entry_ok t e0).
  - eapply fmap_entries_ok; [exact Hi|]. intros e (c & cs & Hc & Hin).
    exists c, cs. by rewrite rebuild_entry_cols.
Qed.

Lemma filter_nil_map {A} (p : A -> bool) (f : A -> A) l :
  List.filter p l = [] -> map (fun r => if p r then f r else r) l = l.
Proof.
  induction l as [|x l IH]; simpl; [done|]. destruct (p x); [done|]. intros H. by rewrite IH.
Qed.

Lemma filter_nil_negb {A} (p : A -> bool) l :
  List.filter p l = [] -> List.filter (fun r => negb (p r)) l = l.
Proof.
  induction l as [|x l IH]; simpl; [done|]. destruct (p x); simpl; [done|]. intros H. by rewrite IH.
Qed.

Lemma with_rows_id t : with_rows t (rows_ t) = t.
Proof. by destruct t. Qed.

Lemma Forall_map_if {A} (P : A -> Prop) (p : A -> bool) f l :
  Forall P l -> (forall x, P x -> P (f x)) -> Forall P (map (fun r => if p r then f r else r) l).
Proof. intros H Hf. induction H; simpl; constructor; auto. destruct (p x); auto. Qed.

Lemma Forall_filter {A} (P : A -> Prop) (p : A -> bool) l : Forall P l -> Forall P (List.filter p l).
Proof. intros H. induction H; simpl; [constructor|]. destruct (p x); auto. Qed.

Definition keeps_width (f : Row -> Row) : Prop :=
  forall r, length (values (f r)) = length (values r).

Lemma update_rows_good p f t : keeps_width f -> good_indices t -> good_indices (update_rows p f t).2.
Proof.
  intros Hf (Hc & Hw & Hp). unfold update_rows. cbn [snd]. case_if.
  - apply length_zero_iff_nil in E. rewrite filter_nil_map, with_rows_id by done. done.
  - apply rebuildAll_good; [|done]. apply Forall_map_if; [done|]. intros r Hr. by rewrite Hf.
Qed.

Lemma erase_rows_good p t : good_indices t -> good_indices (erase_rows p t).2.
Proof.
  intros (Hc & Hw & Hp). unfold erase_rows. cbn [snd]. case_if.
  - apply length_zero_iff_nil in E. rewrite filter_nil_negb, with_rows_id by done. done.
  - apply rebuildAll_good; [|done]. by apply Forall_filter.
Qed.

Lemma keeps_width_set setCI newVal :
  keeps_width (fun r => set_values r (<[setCI := newVal]> (values r))).
Proof. intros r. simpl. apply length_insert. Qed.

Lemma keeps_width_set_columns setCIs newVals : keeps_width (set_columns setCIs newVals).
Proof.
  intros r. unfold set_columns. simpl. generalize (zip setCIs newVals) (values r).
  induction l as [|kv l IH]; intros vs; simpl; [done|]. by rewrite IH, length_insert.
Qed.

Lemma rows_all_good f t :
  keeps_width f -> good_indices t -> good_indices (rebuildAll (with_rows t (map f (rows_ t)))).
Proof.
  intros Hf (Hc & Hw & Hp). apply rebuildAll_good; [|done].
  unfold wide. simpl. apply Forall_map. eapply Forall_impl; [exact Hw|].
  intros r Hr. by rewrite Hf.
Qed.

(** ** INSERT and the other operations *)

Lemma insert_row_ok t row t' :
  insert_row t row = Ok t' ->
  length (values row) = length (columns_ t) /\
  check_constraints 0 (columns_ t) (values row) (rows_ t) = Ok () /\
  t' = with_indices (with_rows t (rows_ t ++ [row]))
         (index_new_row t row (length (rows_ t)) <$> indices_ t).
Proof.
  unfold insert_row. destruct (Nat.eqb_spec (length (values row)) (length (columns_ t))); [|done].
  cbn [negb]. destruct (check_constraints _ _ _ _) as [[]|]; [|done]. intros [= <-].
  split_and!; [done|done|]. simpl. rewrite length_app. simpl.
  by replace (length (rows_ t) + 1 - 1) with (length (rows_ t)) by lia.
Qed.

Lemma index_new_row_ok t row e :
  entry_ok (columns_ t) (rows_ t) e ->
  entry_ok (columns_ t) (rows_ t ++ [row]) (index_new_row t row (length (rows_ t)) e).
Proof.
  unfold entry_ok, index_new_row. destruct (ix_cols e) as [|c cs] eqn:Ec; [by rewrite Ec|].
  unfold colOf. destruct (colOf_cols (columns_ t) c) as [ci|] eqn:Eci; [|by rewrite Ec, Eci].
  intros (Hok & stale & Hst & Hs).
  assert (stale (length (rows_ t)) = false) as Hn.
  { destruct (stale (length (rows_ t))) eqn:E; [|done]. apply Hst in E. lia. }
  assert (may_list stale (length (rows_ t ++ [row]))) as Hst'.
  { intros i Hi. apply Hst in Hi. rewrite length_app. simpl. intuition lia. }
  assert (forall k, rows_for k (listed_pairs stale ci 0 (rows_ t ++ [row])) =
    ri_search (ix_tree e) k ++ rows_for k (if alive row then
      match values row !! ci with Some v => [(v, length (rows_ t))] | None => [] end else [])) as Hl.
  { intros k. rewrite listed_pairs_app, rows_for_app, Hs. cbn [listed_pairs Nat.add].
    by rewrite Hn, orb_false_r, app_nil_r. }
  destruct (values row !! ci) as [v|] eqn:Ev; [destruct (alive row) eqn:Ea|]; cbn [with_tree ix_cols ix_tree]; rewrite Ec, Eci.
  - split; [by apply ri_ok_insert|]. exists stale. split; [done|]. intros k.
    rewrite ri_search_insert, Hl by done. unfold rows_for, bytes_eqb. simpl.
    destruct (decide (k = v)); [by rewrite !bool_decide_true by done|].
    by rewrite !bool_decide_false, app_nil_r by done.
  - split; [done|]. exists stale. split; [done|]. intros k. by rewrite Hl, app_nil_r.
  - split; [done|]. exists stale. split; [done|]. intros k. rewrite Hl. destruct (alive row); by rewrite app_nil_r.
Qed.

Lemma index_new_row_cols t row ni e : ix_cols (index_new_row t row ni e) = ix_cols e.
Proof.
  unfold index_new_row. destruct (ix_cols e) as [|c cs] eqn:E; [done|].
  destruct (colOf t c) as [n|]; [|done]. destruct (values row !! n); [|done]. by destruct (alive row).
Qed.

Lemma insert_row_good t row t' : good_indices t -> insert_row t row = Ok t' -> good_indices t'.
Proof.
  intros (Hc & Hw & Hn & Hd & Hi) H. apply insert_row_ok in H as (Hl & _ & ->).
  split_and!; [| |split_and!; [done|done|]].
  - eapply fmap_entries_ok; [exact Hc|]. intros e He. exact (index_new_row_ok t row e He).
  - apply Forall_app. split; [done|]. by constructor.
  - eapply fmap_entries_ok; [exact Hi|]. intros e (c & cs & E & Hin).
    exists c, cs. by rewrite index_new_row_cols.
Qed.

Lemma entry_ok_ext cs rs rs' e :
  map (fun r => (alive r, values r)) rs = map (fun r => (alive r, values r)) rs' ->
  entry_ok cs rs e -> entry_ok cs rs' e.
Proof.
  intros E. unfold entry_ok. destruct (ix_cols e) as [|c ?]; [done|].
  destruct (colOf_cols cs c); [|done].
  intros (H1 & stale & H2 & H3). split; [done|]. exists stale. split.
  - apply (f_equal length) in E. rewrite !length_map in E. by rewrite <- E.
  - intros k. by rewrite H3, (listed_pairs_ext _ _ _ rs rs').
Qed.

Lemma map_alter {A B} (g : A -> B) (f : A -> A) i l :
  (forall x, g (f x) = g x) -> map g (alter f i l) = map g l.
Proof.
  intros Hg. revert i. induction l as [|x l IH]; intros [|i]; simpl; try done.
  - by rewrite Hg.
  - f_equal. apply IH.
Qed.

Lemma stampXminLast_good id t : good_indices t -> good_indices (stampXminLast id t).
Proof.
  intros (Hc & Hw & Hp). unfold stampXminLast. destruct (rows_ t) as [|r rs] eqn:E; [done|].
  rewrite <- E. split_and!; [| |done].
  - intros i e He. specialize (Hc i e He). cbn beta in Hc. eapply entry_ok_ext; [|exact Hc].
    symmetry. simpl. by apply map_alter.
  - unfold wide in *. simpl.
    assert (map (fun r => length (values r)) (alter (set_xmin id) (length (rows_ t) - 1) (rows_ t))
            = map (fun r => length (values r)) (rows_ t)) as Hm by (by apply map_alter).
    rewrite <- (Forall_map (fun r => length (values r)) (fun n => n = length (columns_ t))).
    rewrite Hm. by apply Forall_map.
Qed.

Lemma eraseByIndices_good idxs t : good_indices t -> good_indices (eraseByIndices idxs t).
Proof.
  intros (Hc & Hw & Hp). unfold eraseByIndices. case_if.
  - apply bool_decide_eq_true in E as ->. cbn. by rewrite with_rows_id.
  - apply rebuildAll_good; [|done]. unfold wide. simpl.
    generalize (merge_sort ge idxs). intros l.
    assert (forall l rs, Forall (fun r => length (values r) = length (columns_ t)) rs ->
      Forall (fun r => length (values r) = length (columns_ t))
        (fold_left (fun rs i => take i rs ++ drop (S i) rs) l rs)) as H; [|by apply H].
    clear. induction l as [|i l IH]; intros rs Hrs; simpl; [done|]. apply IH.
    apply Forall_app. split; [by apply Forall_take|by apply Forall_drop].
Qed.

Lemma fresh_name t c :
  plain t -> plain_name c -> colOf t c = None -> c ∉ names (columns_ t).
Proof.
  intros (Hn & Hd & Hi) Hc. unfold colOf. rewrite colOf_plain by done. intros H Hin.
  destruct (list_find_name _ _ Hin) as (i & k & E). rewrite E in H. done.
Qed.

Lemma addColumn_good col t :
  plain_name (c_name col) -> colOf t (c_name col) = None -> good_indices t -> good_indices (addColumn col t).
Proof.
  intros Hpl Hnone (Hc & Hw & Hp). pose proof (fresh_name _ _ Hp Hpl Hnone) as Hfr.
  destruct Hp as (Hn & Hd & Hi).
  assert (Forall plain_name (names (columns_ t ++ [col]))) as Hd'.
  { unfold names. rewrite map_app. apply Forall_app. split; [done|]. by constructor. }
  split_and!; [| |split_and!; [|done|]].
  - intros i e He. specialize (Hc i e He). destruct (Hi i e He) as (c & cs & Ec & Hin).
    unfold entry_ok in *. simpl. rewrite Ec in *.
    assert (plain_name c) as Hcp by (rewrite Forall_forall in Hd; by apply Hd).
    pose proof (colOf_plain_bound (columns_ t) c) as Hb.
    rewrite colOf_plain, list_find_name_app in * by done.
    destruct (fst <$> list_find _ (columns_ t)) as [ci|]; [|done].
    destruct Hc as (H1 & stale & H2 & H3). split; [done|]. exists stale. split; [by rewrite length_map|].
    intros k. rewrite H3. symmetry. f_equal. eapply listed_pairs_push; [exact Hw|]. by apply Hb.
  - unfold wide in *. simpl. apply Forall_map. eapply Forall_impl; [exact Hw|].
    intros r Hr. cbn beta in Hr. simpl. rewrite !length_app. simpl. lia.
  - unfold names. simpl. rewrite map_app. apply NoDup_app. split_and!; [done| |apply NoDup_singleton].
    intros x Hx Hx'. apply list_elem_of_singleton in Hx' as ->. done.
  - intros i e He. destruct (Hi i e He) as (c & cs & Ec & Hin). exists c, cs.
    split; [done|]. unfold names. simpl. rewrite map_app. apply elem_of_app. by left.
Qed.

Lemma names_take_drop ci cs : names (take ci cs ++ drop (S ci) cs) = take ci (names cs) ++ drop (S ci) (names cs).
Proof. unfold names. by rewrite map_app, firstn_map, skipn_map. Qed.

Lemma dropColumn_good c t t' : plain_name c -> good_indices t -> dropColumn c t = Ok t' -> good_indices t'.
Proof.
  intros Hpl (Hc & Hw & Hn & Hd & Hi). unfold dropColumn, colOf. rewrite colOf_plain by done.
  destruct (list_find _ _) as [[ci k]|] eqn:E; [|done]. cbn [fmap option_fmap option_map fst].
  intros [= <-]. apply list_find_Some in E as (Hci & Hk & _).
  assert (ci < length (columns_ t)) as Hlt by (by apply lookup_lt_Some in Hci).
  assert (names (columns_ t) = take ci (names (columns_ t)) ++ c :: drop (S ci) (names (columns_ t)))
    as Hsplit.
  { rewrite <- (take_drop ci (names (columns_ t))) at 1. f_equal.
    apply drop_S. unfold names. rewrite list_lookup_fmap, Hci. simpl. by rewrite Hk. }
  apply rebuildAll_good; [|split_and!].
  - change (Forall (fun r => length (values r) = length (take ci (columns_ t) ++ drop (S ci) (columns_ t)))
              (map (erase_value ci) (rows_ t))).
    apply Forall_map. eapply Forall_impl; [exact Hw|].
    intros r Hr. cbn beta in Hr. cbn [erase_value set_values values].
    rewrite !length_app, !length_take, !length_drop. lia.
  - cbn [columns_ with_rows with_columns with_indices]. rewrite names_take_drop. rewrite Hsplit in Hn. apply NoDup_app in Hn as (H1 & H2 & H3).
    apply NoDup_cons in H3 as [H3 H4]. apply NoDup_app. split_and!; [done| |done].
    intros x Hx Hx'. apply (H2 x Hx). by right.
  - cbn [columns_ with_rows with_columns with_indices]. rewrite names_take_drop. apply Forall_app. split; [by apply Forall_take|by apply Forall_drop].
  - intros i e He. simpl in He. apply map_lookup_filter_Some in He as [He Hnot]. simpl in Hnot.
    destruct (Hi i e He) as (d & ds & Ed & Hin). exists d, ds. split; [done|].
    cbn [columns_ with_rows with_columns with_indices]. rewrite names_take_drop. rewrite Hsplit in Hin. rewrite Ed in Hnot.
    apply not_elem_of_cons in Hnot as [Hne _].
    apply elem_of_app in Hin as [Hin|Hin]; [apply elem_of_app; by left|].
    apply elem_of_cons in Hin as [|Hin]; [congruence|]. apply elem_of_app. by right.
Qed.

Lemma names_rename ci new cs : names (alter (rename_col new) ci cs) = <[ci := new]> (names cs).
Proof.
  revert ci. induction cs as [|k cs IH]; intros [|ci]; simpl; try done. f_equal. apply IH.
Qed.

(** Renaming column [ci] renames the lookups of its old name. *)
Lemma list_find_rename cs ci old new c :
  NoDup (names cs) -> names cs !! ci = Some old -> new ∉ names cs -> c ∈ names cs ->
  fst <$> list_find (fun k => c_name k = (if bytes_eqb c old then new else c))
            (alter (rename_col new) ci cs)
  = fst <$> list_find (fun k => c_name k = c) cs.
Proof.
  unfold bytes_eqb. revert ci. induction cs as [|k cs IH]; intros ci Hn Hci Hnew Hc; [done|].
  apply NoDup_cons in Hn as [Hk Hn]. apply not_elem_of_cons in Hnew as [Hnew1 Hnew2].
  destruct ci as [|ci]; simpl in Hci.
  - injection Hci as <-. cbn [alter list_alter list_find rename_col c_name].
    destruct (decide (c = c_name k)) as [->|Hne].
    + rewrite !bool_decide_true by done. by rewrite !decide_True by done.
    + rewrite !bool_decide_false by congruence. rewrite !decide_False; [|congruence|].
      * done.
      * intros <-. apply elem_of_cons in Hc as [|Hc]; [congruence|done].
  - cbn [alter list_alter list_find].
    destruct (decide (c_name k = c)) as [<-|Hne].
    + assert (c_name k <> old).
      { intros E. apply Hk. rewrite E. by eapply list_elem_of_lookup_2. }
      rewrite bool_decide_false by done. by rewrite !decide_True by done.
    + assert (c ∈ names cs) as Hc' by (apply elem_of_cons in Hc as [|]; [congruence|done]).
      specialize (IH ci Hn Hci Hnew2 Hc').
      rewrite decide_False by (case_bool_decide; congruence).
      destruct (list_find _ (alter _ _ _)) as [[? ?]|],
        (list_find (fun k0 => c_name k0 = c) cs) as [[? ?]|]; simpl in *; congruence.
Qed.

Lemma renameColumn_good old new t t' :
  plain_name old -> plain_name new -> good_indices t -> renameColumn old new t = Ok t' -> good_indices t'.
Proof.
  intros Hpo Hpn (Hc & Hw & Hp). unfold renameColumn.
  destruct (colOf t new) eqn:Hnone; [by destruct (colOf t old)|].
  pose proof (fresh_name _ _ Hp Hpn Hnone) as Hfr. destruct Hp as (Hn & Hd & Hi).
  unfold colOf. rewrite colOf_plain by done.
  destruct (list_find _ _) as [[ci k]|] eqn:E; [|done]. cbn [fmap option_fmap option_map fst].
  intros [= <-]. apply list_find_Some in E as (Hci & Hk & _).
  assert (names (columns_ t) !! ci = Some old) as Hold.
  { unfold names. rewrite list_lookup_fmap, Hci. simpl. by rewrite Hk. }
  assert (Forall plain_name (<[ci:=new]> (names (columns_ t)))) as Hd'.
  { by apply Forall_insert. }
  assert (forall c, c ∈ names (columns_ t) ->
    (if bytes_eqb c old then new else c) ∈ <[ci := new]> (names (columns_ t))) as Hmem.
  { intros c Hin. unfold bytes_eqb. case_bool_decide.
    - eapply list_elem_of_lookup_2, list_lookup_insert_eq. by apply lookup_lt_Some in Hold.
    - apply list_elem_of_lookup_1 in Hin as [j Hj]. apply (list_elem_of_lookup_2 _ j).
      rewrite list_lookup_insert_ne; [done|]. intros ->. congruence. }
  split_and!; [| |split_and!].
  - eapply map_Forall_fmap. intros i e He. specialize (Hc i e He).
    destruct (Hi i e He) as (c & cs & Ec & Hin). unfold entry_ok in *. simpl.
    rewrite Ec in *. cbn [map].
    assert (plain_name c) as Hcp by (rewrite Forall_forall in Hd; by apply Hd).
    rewrite colOf_plain in Hc by done.
    rewrite colOf_plain.
    + by rewrite list_find_rename.
    + by rewrite names_rename.
    + unfold bytes_eqb. by case_bool_decide.
  - unfold wide in *. simpl. by rewrite length_alter.
  - simpl. rewrite names_rename. apply NoDup_alt. intros i j x Hx1 Hx2.
    rewrite NoDup_alt in Hn.
    destruct (decide (i = ci)) as [->|]; destruct (decide (j = ci)) as [->|]; [done| | |].
    + rewrite list_lookup_insert_eq in Hx1 by (by apply lookup_lt_Some in Hold).
      rewrite list_lookup_insert_ne in Hx2 by done. injection Hx1 as <-.
      destruct Hfr. by eapply list_elem_of_lookup_2.
    + rewrite list_lookup_insert_eq in Hx2 by (by apply lookup_lt_Some in Hold).
      rewrite list_lookup_insert_ne in Hx1 by done. injection Hx2 as <-.
      destruct Hfr. by eapply list_elem_of_lookup_2.
    + rewrite list_lookup_insert_ne in Hx1, Hx2 by done. by eapply Hn.
  - simpl. by rewrite names_rename.
  - eapply map_Forall_fmap. intros i e He. destruct (Hi i e He) as (c & cs & Ec & Hin).
    exists (if bytes_eqb c old then new else c), (map (fun c => if bytes_eqb c old then new else c) cs).
    simpl. rewrite Ec. split; [done|]. rewrite names_rename. by apply Hmem.
Qed.

Lemma createIndex_good cols nm ty t t' :
  Forall plain_name cols -> (clean = true -> Forall (fun r => alive r = true) (rows_ t)) ->
  good_indices t -> createIndex cols nm ty t = Ok t' -> good_indices t'.
Proof.
  intros Hpl Ha (Hc & Hw & Hn & Hd & Hi). unfold createIndex.
  destruct cols as [|c cs]; [done|]. apply Forall_cons in Hpl as [Hpc _].
  destruct (colOf t c) as [ci|] eqn:Eci; [|done]. destruct (indices_ t !! nm) eqn:En; [done|].
  intros [= <-]. split_and!; [|done|split_and!; [done|done|]].
  - apply map_Forall_insert_2; [|done]. unfold entry_ok. simpl. fold (colOf t c). rewrite Eci.
    destruct (ri_fill_spec ri_empty (all_pairs ci 0 (rows_ t)) ri_ok_empty) as [H1 H2].
    split; [done|]. exists (fun i => negb clean && (i <? length (rows_ t))). split.
    + intros i [Hcl Hlt]%andb_prop. apply Nat.ltb_lt in Hlt. by destruct clean.
    + intros k. rewrite H2, ri_search_empty. cbn [app]. f_equal. destruct clean eqn:E; cbn [negb andb].
      * by rewrite listed_none, all_pairs_alive by auto.
      * symmetry. apply listed_all. intros j Hj. apply Nat.ltb_lt. lia.
  - apply map_Forall_insert_2; [|done]. exists c, cs. split; [done|].
    unfold colOf in Eci. rewrite colOf_plain in Eci by done.
    apply fmap_Some in Eci as ([i k] & E & ->). apply list_find_Some in E as (E & <- & _).
    apply list_elem_of_fmap_2. by eapply list_elem_of_lookup_2.
Qed.

Lemma dropIndex_good nm t t' : good_indices t -> dropIndex nm t = Ok t' -> good_indices t'.
Proof.
  intros (Hc & Hw & Hn & Hd & Hi). unfold dropIndex. destruct (indices_ t !! nm); [|done].
  intros [= <-]. split_and!; [|done|split_and!; [done|done|]]; by apply map_Forall_delete.
Qed.

(** ** Reachable tables *)

Inductive op :=
| OInsert (row : Row)
| OUpdateWhere (setCI : nat) (newVal : bytes) (wCI : nat) (wVal : bytes)
| OUpdateWhereMulti (setCIs : list nat) (newVals : list bytes) (wCI : nat) (wVal : bytes)
| OUpdateAll (setCI : nat) (newVal : bytes)
| OUpdateAllMulti (setCIs : list nat) (newVals : list bytes)
| ODeleteWhere (wCI : nat) (wVal : bytes)
| ODeleteAll
| OEraseByIndices (idxs : list nat)
| OAddColumn (col : Column)
| ODropColumn (c : bytes)
| ORenameColumn (old new : bytes)
| OCreateIndex (cols : list bytes) (nm ty : bytes)
| ODropIndex (nm : bytes)
| OStampDeleteWhere (wCI : nat) (wVal : bytes) (txId : Z)
| OStampDeleteAll (txId : Z)
| OStampXminLast (txId : Z)
| OVacuum (isCommitted : Z -> bool) (horizon : Z).

Definition apply (o : op) (t : Table) : result Table :=
  match o with
  | OInsert row => insert_row t row
  | OUpdateWhere s n w v => Ok (updateWhere s n w v t).2
  | OUpdateWhereMulti s n w v => Ok (updateWhereMulti s n w v t).2
  | OUpdateAll s n => Ok (updateAll s n t).2
  | OUpdateAllMulti s n => Ok (updateAllMulti s n t).2
  | ODeleteWhere w v => Ok (deleteWhere w v t).2
  | ODeleteAll => Ok (deleteAll t).2
  | OEraseByIndices idxs => Ok (eraseByIndices idxs t)
  | OAddColumn col => Ok (addColumn col t)
  | ODropColumn c => dropColumn c t
  | ORenameColumn old new => renameColumn old new t
  | OCreateIndex cols nm ty => createIndex cols nm ty t
  | ODropIndex nm => dropIndex nm t
  | OStampDeleteWhere w v id => Ok (stampDeleteWhere w v id t).2
  | OStampDeleteAll id => Ok (stampDeleteAll id t).2
  | OStampXminLast id => Ok (stampXminLast id t)
  | OVacuum isC h => Ok (vacuum isC h t).2
  end.

(** The calls considered: column names carry no table qualifier, a new column
    is fresh (the engine tests that), and, with [clean], an index is created while
    the table holds no logically deleted row. *)
Definition allowed (o : op) (t : Table) : Prop :=
  match o with
  | OAddColumn col => plain_name (c_name col) /\ colOf t (c_name col) = None
  | ODropColumn c => plain_name c
  | ORenameColumn old new => plain_name old /\ plain_name new
  | OCreateIndex cols _ _ =>
      Forall plain_name cols /\ (clean = true -> Forall (fun r => alive r = true) (rows_ t))
  | _ => True
  end.

Inductive reached : Table -> Prop :=
| reach_new name cols :
    NoDup (names cols) -> Forall plain_name (names cols) -> reached (table name cols)
| reach_step t o t' :
    reached t -> allowed o t -> apply o t = Ok t' -> reached t'.

Lemma apply_good o t t' : good_indices t -> allowed o t -> apply o t = Ok t' -> good_indices t'.
Proof.
  intros Hg Ha. destruct o; cbn [apply allowed] in *.
  - by apply insert_row_good.
  - intros [= <-]. apply update_rows_good; [apply keeps_width_set|done].
  - intros [= <-]. apply update_rows_good; [apply keeps_width_set_columns|done].
  - intros [= <-]. apply rows_all_good; [apply keeps_width_set|done].
  - intros [= <-]. apply rows_all_good; [apply keeps_width_set_columns|done].
  - intros [= <-]. by apply erase_rows_good.
  - intros [= <-]. destruct Hg as (_ & _ & Hp). apply rebuildAll_good; [constructor|done].
  - intros [= <-]. by apply eraseByIndices_good.
  - intros [= <-]. destruct Ha. by apply addColumn_good.
  - by apply dropColumn_good.
  - destruct Ha. by apply renameColumn_good.
  - destruct Ha. by apply createIndex_good.
  - by apply dropIndex_good.
  - intros [= <-]. by apply update_rows_good.
  - intros [= <-]. by apply update_rows_good.
  - intros [= <-]. by apply stampXminLast_good.
  - intros [= <-]. by apply erase_rows_good.
Qed.

Lemma reached_good t : reached t -> good_indices t.
Proof.
  induction 1 as [name cols Hn Hd|t o t' _ IH Ha Ho]; [|by eapply apply_good].
  split_and!; [apply map_Forall_empty|constructor|split_and!; [done|done|apply map_Forall_empty]].
Qed.

Lemma good_index_finds t col ci val :
  good_indices t -> hasIndex t col = true -> colOf t col = Some ci ->
  Forall (fun i => row_at t (fun r => bool_decide (values r !! ci = Some val)) i = true) (indexSearch t col val) /\
  List.filter (row_at t alive) (indexSearch t col val) = live_matches t ci val /\
  (clean = true -> indexSearch t col val = live_matches t ci val).
Proof.
  intros (Hc & _ & _) Hh Hci.
  unfold hasIndex, indexSearch in *. apply existsb_exists in Hh as ([nm e] & Hin & Hl).
  destruct (List.find (leads col) (str_iter (indices_ t))) as [[nm' e']|] eqn:E.
  - apply find_some in E as [E El]. apply list_elem_of_In, elem_of_map_iter in E.
    specialize (Hc _ _ E). unfold entry_ok, leads in *. simpl in El.
    destruct (ix_cols e') as [|c cs]; [done|]. apply bool_decide_eq_true in El as ->.
    fold (colOf t col) in Hc. rewrite Hci in Hc. destruct Hc as (_ & stale & Hst & Hs). rewrite Hs.
    destruct (rows_for_listed stale t ci val) as (H1 & H2 & H3). split_and!; [done..|].
    intros Hcl. apply H3. intros i. destruct (stale i) eqn:Ei; [|done]. apply Hst in Ei as [? _]. congruence.
  - by rewrite (find_none _ _ E _ Hin) in Hl.
Qed.
End clean.

(** Tables whose indices were all created over live rows only. *)
Definition good (t : Table) : Prop := good_indices true t.
Definition reachable (t : Table) : Prop := reached true t.

Lemma reachable_good t : reachable t -> good t.
Proof. apply reached_good. Qed.

Lemma good_indexSearch t col ci val :
  good t -> hasIndex t col = true -> colOf t col = Some ci ->
  indexSearch t col val = live_matches t ci val.
Proof. intros Hg Hh Hci. by apply (good_index_finds true t col ci val). Qed.

(** [C1] Index lookups after any sequence of operations on a table whose column
    names are distinct and unqualified, new columns being fresh.  Every row a
    lookup lists holds the value in the indexed column, and the live rows among
    them are exactly the live rows with the value, in ascending order; a SELECT
    drops the dead ones.  If no index was created while the table held logically
    deleted rows ([clean]), the lookup lists nothing else
    ([createIndex_lists_dead_rows] shows that the condition is needed). *)
Theorem indexSearch_exact clean t col ci val :
  reached clean t -> hasIndex t col = true -> colOf t col = Some ci ->
  Forall (fun i => row_at t (fun r => bool_decide (values r !! ci = Some val)) i = true) (indexSearch t col val) /\
  List.filter (row_at t alive) (indexSearch t col val) = live_matches t ci val /\
  (clean = true -> indexSearch t col val = live_matches t ci val).
Proof. intros Hr. by apply good_index_finds, reached_good. Qed.

(** ** Constraints *)

(** Column [i] holds no value twice among the live rows, if it is UNIQUE, and
    no NULL, if it is NOT NULL. *)
Definition column_ok (i : nat) (c : Column) (rs : list Row) : Prop :=
  (notNull c = true -> forall a r, rs !! a = Some r -> values r !! i <> Some NULL) /\
  (isUnique c = true -> forall a b r r' v,
     rs !! a = Some r -> rs !! b = Some r' -> a <> b -> alive r = true -> alive r' = true ->
     values r !! i = Some v -> values r' !! i = Some v -> v = NULL).

Definition constraints (t : Table) : Prop :=
  forall i c, columns_ t !! i = Some c -> column_ok i c (rows_ t).

(** The constraint loop accepts exactly the rows that violate nothing. *)
Lemma check_constraints_ok k cs vs rs :
  check_constraints k cs vs rs = Ok () <->
  (forall i c v, cs !! i = Some c -> vs !! i = Some v ->
     (notNull c && bytes_eqb v NULL) = false /\
     (isUnique c && negb (bytes_eqb v NULL) && duplicate (k + i) v rs) = false).
Proof.
  revert k vs. induction cs as [|c cs IH]; intros k vs; [by split|].
  destruct vs as [|v vs]; [by split|]. cbn [check_constraints].
  destruct (notNull c && bytes_eqb v NULL) eqn:E1.
  { split; [done|]. intros H. destruct (H 0 c v); simpl in *; congruence. }
  destruct (isUnique c && negb (bytes_eqb v NULL) && duplicate k v rs) eqn:E2.
  { split; [done|]. intros H. destruct (H 0 c v) as [_ H2]; [done|done|].
    rewrite Nat.add_0_r in H2. congruence. }
  rewrite IH. split; intros H.
  - intros [|i] c' v'; simpl.
    + intros [= <-] [= <-]. by rewrite Nat.add_0_r.
    + intros H1 H2. replace (k + S i) with (S k + i) by lia. by apply H.
  - intros i c' v' H1 H2. replace (S k + i) with (k + S i) by lia. by apply (H (S i)).
Qed.

Lemma check_constraints_throw k cs vs rs msg :
  check_constraints k cs vs rs = Throw msg ->
  exists i c v, cs !! i = Some c /\ vs !! i = Some v /\
    ((notNull c = true /\ v = NULL) \/
     (isUnique c = true /\ v <> NULL /\ duplicate (k + i) v rs = true)).
Proof.
  revert k vs. induction cs as [|c cs IH]; intros k [|v vs]; try done.
  cbn [check_constraints]. destruct (notNull c && bytes_eqb v NULL) eqn:E1.
  { intros _. exists 0, c, v. apply bool_and_true in E1 as [E1 E2].
    apply bool_decide_eq_true in E2. auto. }
  destruct (isUnique c && negb (bytes_eqb v NULL) && duplicate k v rs) eqn:E2.
  { intros _. exists 0, c, v. rewrite Nat.add_0_r. to_prop.
    match goal with H : bytes_eqb _ _ = false |- _ => apply bool_decide_eq_false in H end. split_and!; [done|done|by right]. }
  intros H. apply IH in H as (i & c' & v' & H1 & H2 & H3).
  exists (S i), c', v'. by rewrite Nat.add_succ_r.
Qed.

Lemma duplicate_spec i v rs :
  duplicate i v rs = true <->
  exists a r, rs !! a = Some r /\ alive r = true /\ values r !! i = Some v.
Proof.
  unfold duplicate. rewrite existsb_exists. split.
  - intros (r & Hin & H). apply bool_and_true in H as [H1 H2].
    apply bool_decide_eq_true in H2. apply list_elem_of_In, list_elem_of_lookup_1 in Hin as [a Ha].
    eauto.
  - intros (a & r & H1 & H2 & H3). exists r. split.
    + by eapply list_elem_of_In, list_elem_of_lookup_2.
    + rewrite H2. by apply bool_decide_eq_true.
Qed.

(** INSERT is accepted exactly when the row has one value per column, no
    NULL in a NOT NULL column and no value of a UNIQUE column that a live row
    already holds; it appends the row, and the constraints of the table keep
    holding. *)
Theorem insert_row_spec t row :
  constraints t ->
  match insert_row t row with
  | Ok t' =>
      rows_ t' = rows_ t ++ [row] /\ columns_ t' = columns_ t /\ constraints t'
  | Throw _ =>
      length (values row) <> length (columns_ t) \/
      exists i c v, columns_ t !! i = Some c /\ values row !! i = Some v /\
        ((notNull c = true /\ v = NULL) \/
         (isUnique c = true /\ v <> NULL /\ duplicate i v (rows_ t) = true))
  end.
Proof.
  intros Hc. destruct (insert_row t row) as [t'|msg] eqn:E.
  - apply insert_row_ok in E as (Hl & Hck & ->). split_and!; [done|done|].
    rewrite check_constraints_ok in Hck. intros i c Hi. simpl in Hi |- *.
    destruct (Hc i c Hi) as [Hnn Huq]. split.
    + intros Hn a r Ha Hv. apply lookup_snoc_Some in Ha as [[_ Ha]|[_ <-]]; [by eapply Hnn|].
      destruct (Hck i c NULL Hi Hv) as [H _]. rewrite Hn in H. done.
    + intros Hu a b r r' v Ha Hb Hab Hal Hal' Hv Hv'.
      assert (forall r0 a0, rows_ t !! a0 = Some r0 -> alive r0 = true -> values r0 !! i = Some v ->
        values row !! i = Some v -> v = NULL) as Hnew.
      { intros r0 a0 H1 H2 H3 H4. destruct (Hck i c v Hi H4) as [_ H]. rewrite Hu in H.
        assert (duplicate (0 + i) v (rows_ t) = true) as Hd by (apply duplicate_spec; eauto).
        rewrite Hd, andb_true_r in H. simpl in H. apply negb_false_iff in H.
        by apply bool_decide_eq_true in H. }
      apply lookup_snoc_Some in Ha as [[_ Ha]|[? <-]], Hb as [Hb|Hb]; try (destruct Hb as [? Hb]).
      * by eapply (Huq Hu a b r r').
      * subst r'. by eapply Hnew.
      * by eapply Hnew.
      * lia.
  - unfold insert_row in E.
    destruct (Nat.eqb_spec (length (values row)) (length (columns_ t))); [|by left].
    right. cbn [negb] in E. destruct (check_constraints _ _ _ _) as [[]|] eqn:Ec; [done|].
    by apply check_constraints_throw in Ec.
Qed.

(** ** DISTINCT *)

(** [makeDistinct] leaves one live row for each tuple of values that a live
    row had, and no others. *)
Lemma distinct_rows_spec seen rs :
  NoDup (map values (distinct_rows seen rs)) /\
  forall v, v ∈ map values (distinct_rows seen rs) <->
    ~ (v ∈ seen) /\ (v ∈ map values (List.filter alive rs)).
Proof.
  revert seen. induction rs as [|r rs IH]; intros seen; cbn [distinct_rows List.filter].
  { split; [constructor|]. intros v. split; [intros H|intros [_ H]]; by apply not_elem_of_nil in H. }
  destruct (alive r); cbn [negb]; [|apply IH].
  case_bool_decide as Hs.
  - destruct (IH seen) as [H1 H2]. split; [done|]. intros v. rewrite H2. simpl.
    rewrite elem_of_cons. split; [naive_solver|]. intros [Hn [->|Hv]]; [done|done].
  - destruct (IH (values r :: seen)) as [H1 H2]. cbn [map]. split.
    + constructor; [|done]. rewrite H2. intros [Hn _]. apply Hn. by left.
    + intros v. rewrite !elem_of_cons, H2, not_elem_of_cons.
      destruct (decide (v = values r)); naive_solver.
Qed.

(** Numbers handed out by [consumeAutoInc] increase by one, from 1. *)
Lemma consumeAutoInc_next col t :
  (0 <= default 0%Z (autoIncMap_ t !! col) < 2 ^ 64 - 1)%Z ->
  let '(v, t') := consumeAutoInc col t in
  v = peekAutoInc t col /\ peekAutoInc t' col = (v + 1)%Z.
Proof.
  unfold consumeAutoInc, peekAutoInc. cbn [autoIncMap_ with_autoInc].
  rewrite lookup_insert_eq. intros Hv. destruct (autoIncMap_ t !! col) as [v|]; simpl in *.
  - destruct (Z.eqb_spec v 0) as [->|]; [done|]. rewrite u64_id by lia.
    rewrite !(proj2 (Z.ltb_lt _ _)) by lia. done.
  - done.
Qed.
End table.

Arguments Table : clear implicits.
Arguments IndexEntry : clear implicits.

(** ** Witnesses, with the B-tree as the index *)

From S2P Require Import BTree.

Definition ex_cols : list Column :=
  [ mkColumn (str "id") (str "INT") true true false [] true false [] false [] false;
    column (str "city") (str "TEXT") ].

Definition run1 (o : op) (t : Table BTree) : Table BTree :=
  match apply o t with Ok t' => t' | Throw _ => t end.

Definition ex_op1 : op := OInsert (row_of [str "1"; str "Rom"]).
Definition ex_op2 : op := OCreateIndex [str "city"] (str "ix") (str "BTREE").
Definition ex_op3 : op := OInsert (row_of [str "2"; str "Rom"]).
Definition ex_t0 : Table BTree := table (str "t") ex_cols.
Definition ex_t1 : Table BTree := run1 ex_op1 ex_t0.
Definition ex_t2 : Table BTree := run1 ex_op2 ex_t1.
Definition ex_table : Table BTree := run1 ex_op3 ex_t2.

Lemma ex_table_reachable : reachable ex_table.
Proof.
  apply (reach_step _ ex_t2 ex_op3); [|exact I|vm_compute; reflexivity].
  apply (reach_step _ ex_t1 ex_op2); [|split; [by_decide|intros _; by_decide]|vm_compute; reflexivity].
  apply (reach_step _ ex_t0 ex_op1); [|exact I|vm_compute; reflexivity].
  apply reach_new; by_decide.
Qed.

Lemma indexSearch_exact_witness :
  indexSearch ex_table (str "city") (str "Rom") = live_matches ex_table 1 (str "Rom") /\
  live_matches ex_table 1 (str "Rom") = [0; 1].
Proof.
  split; [|vm_compute; reflexivity].
  apply (indexSearch_exact true ex_table (str "city") 1 (str "Rom"));
    [apply ex_table_reachable|vm_compute; reflexivity..].
Defined.

Lemma insert_row_spec_witness :
  let t := table (tree := BTree) (str "t") ex_cols in
  let row := row_of [str "NULL"; str "Rom"] in
  constraints t /\
  (length (values row) <> length (columns_ t) \/
   exists i c v, columns_ t !! i = Some c /\ values row !! i = Some v /\
     ((notNull c = true /\ v = NULL) \/
      (isUnique c = true /\ v <> NULL /\ duplicate i v (rows_ t) = true))).
Proof.
  intros t row. assert (constraints t) as H.
  { intros i c _. split; [intros _ a r Ha|intros _ a b r r' v Ha]; discriminate Ha. }
  split; [exact H|]. exact (insert_row_spec t row H).
Defined.

(** An index created over a logically deleted row lists it, unlike one that is
    rebuilt. *)
Definition ex_dead : Table BTree :=
  match insert_row (table (str "t") ex_cols) (row_of [str "1"; str "Rom"]) with
  | Ok t => (stampDeleteAll 7 t).2
  | Throw _ => table (str "t") ex_cols
  end.

Lemma createIndex_lists_dead_rows :
  match createIndex [str "city"] (str "ix") (str "BTREE") ex_dead with
  | Ok t =>
      indexSearch t (str "city") (str "Rom") = [0] /\
      indexSearch (rebuildAll t) (str "city") (str "Rom") = []
  | Throw _ => False
  end.
Proof. vm_compute. by split. Qed.
