(* ===== verification/Page.v ===== *)
(** * The 8 KB page format ([src/storage/page.hpp])

    [Page] is the flat byte array [raw_]; header fields are read and written
    with [memcpy] at fixed offsets.  [holds] is the abstraction relation to
    the list of rows a page stores; [addRow], [getRows], [init] and the
    checksum are shown to respect it. *)

From S2P Require Import Prelude Table.

Module Page.

Definition Page := bytes.

Definition PAGE_SIZE : Z := 8192.
Definition HEADER_SIZE : Z := 64.
Definition DATA_SIZE : Z := PAGE_SIZE - HEADER_SIZE.
Definition NO_NEXT : Z := 2 ^ 64 - 1.

Definition OFF_PAGE_ID : Z := 0.
Definition OFF_TBL_NAME : Z := 8.
Definition OFF_ROW_COUNT : Z := 36.
Definition OFF_WRITE_POS : Z := 38.
Definition OFF_NEXT_PAGE : Z := 40.
Definition OFF_CHECKSUM : Z := 48.

(** [memcpy(&v, raw_ + off, n)] and [memcpy(raw_ + off, &v, n)] *)
Definition get (off : Z) (n : nat) (pg : Page) : Z :=
  le_val (mem_read (Z.to_nat off) n pg).
Definition put (off : Z) (n : nat) (v : Z) (pg : Page) : Page :=
  mem_write (Z.to_nat off) (le_bytes n v) pg.

Definition pageId (pg : Page) : Z := get OFF_PAGE_ID 8 pg.
Definition setPageId (v : Z) (pg : Page) : Page := put OFF_PAGE_ID 8 v pg.

Definition tableName (pg : Page) : bytes :=
  take_while (fun c => negb (c =? 0)%Z) (mem_read (Z.to_nat OFF_TBL_NAME) 28 pg).

Definition setTableName (s : bytes) (pg : Page) : Page :=
  let pg := mem_write (Z.to_nat OFF_TBL_NAME) (replicate 28 0%Z) pg in
  let n := if length s <? 27 then length s else 27 in
  mem_write (Z.to_nat OFF_TBL_NAME) (take n s) pg.

Definition rowCount (pg : Page) : Z := get OFF_ROW_COUNT 2 pg.
Definition setRowCount (v : Z) (pg : Page) : Page := put OFF_ROW_COUNT 2 (u16 v) pg.
Definition writePos (pg : Page) : Z := get OFF_WRITE_POS 2 pg.
Definition setWritePos (v : Z) (pg : Page) : Page := put OFF_WRITE_POS 2 (u16 v) pg.
Definition nextPageId (pg : Page) : Z := get OFF_NEXT_PAGE 8 pg.
Definition setNextPageId (v : Z) (pg : Page) : Page := put OFF_NEXT_PAGE 8 v pg.
Definition storedChecksum (pg : Page) : Z := get OFF_CHECKSUM 4 pg.
Definition setChecksum (v : Z) (pg : Page) : Page := put OFF_CHECKSUM 4 v pg.

(** [for (i = 0; i + 3 < DATA_SIZE; i += 4) cs ^= chunk] from index [i] *)
Fixpoint xor_chunks (n : nat) (i cs : Z) (pg : Page) : Z :=
  match n with
  | O => cs
  | S n' =>
      if (i + 3 <? DATA_SIZE)%Z
      then xor_chunks n' (i + 4) (Z.lxor cs (get (HEADER_SIZE + i) 4 pg)) pg
      else cs
  end.

Definition computeChecksum (pg : Page) : Z := xor_chunks (Z.to_nat DATA_SIZE) 0 0 pg.
Definition updateChecksum (pg : Page) : Page := setChecksum (computeChecksum pg) pg.
Definition verifyChecksum (pg : Page) : bool :=
  (storedChecksum pg =? computeChecksum pg)%Z.

Definition init (id : Z) (tblName : bytes) : Page :=
  let pg := replicate (Z.to_nat PAGE_SIZE) 0%Z in
  let pg := setPageId id pg in
  let pg := setTableName tblName pg in
  let pg := setRowCount 0 pg in
  let pg := setWritePos 0 pg in
  let pg := setNextPageId NO_NEXT pg in
  updateChecksum pg.

(** [needed] is a [uint32_t]. *)
Definition needed (row : Row) : Z :=
  fold_left (fun n v => u32 (n + u32 (2 + u32 (Z.of_nat (length v))))) (values row) 2%Z.

(** The copy loop of [addRow], [dst] being an offset into [raw_]. *)
Fixpoint write_values (dst : Z) (vs : list bytes) (pg : Page) : Page :=
  match vs with
  | [] => pg
  | v :: vs' =>
      let len := u16 (Z.of_nat (length v)) in
      let pg := mem_write (Z.to_nat dst) (le_bytes 2 len) pg in
      let dst := (dst + 2)%Z in
      let pg := if (len =? 0)%Z then pg
                else mem_write (Z.to_nat dst) (take (Z.to_nat len) v) pg in
      write_values (dst + len) vs' pg
  end.

(** [addRow]: [None] is the result [false], which leaves the page alone. *)
Definition addRow (row : Row) (pg : Page) : option Page :=
  let need := needed row in
  if (DATA_SIZE <? need)%Z then None else
  let wp := writePos pg in
  if (DATA_SIZE <? wp + need)%Z then None else
  let dst := (HEADER_SIZE + wp)%Z in
  let nc := u16 (Z.of_nat (length (values row))) in
  let pg := mem_write (Z.to_nat dst) (le_bytes 2 nc) pg in
  let pg := write_values (dst + 2) (values row) pg in
  let pg := setWritePos (wp + need) pg in
  let pg := setRowCount (rowCount pg + 1) pg in
  Some (updateChecksum pg).

(** The column loop of [getRows]; [None] is [ok = false]. *)
Fixpoint read_values (nc : nat) (pos : Z) (vals : list bytes) (pg : Page)
  : option (Z * list bytes) :=
  match nc with
  | O => Some (pos, vals)
  | S nc' =>
      if (DATA_SIZE <? pos + 2)%Z then None else
      let vlen := get (HEADER_SIZE + pos) 2 pg in
      let pos := (pos + 2)%Z in
      if (DATA_SIZE <? pos + vlen)%Z then None else
      let v := mem_read (Z.to_nat (HEADER_SIZE + pos)) (Z.to_nat vlen) pg in
      read_values nc' (pos + vlen) (vals ++ [v]) pg
  end.

(** The row loop; [left] is [count - result.size()]. *)
Fixpoint rows_loop (left : nat) (pos wp : Z) (result : list Row) (pg : Page) : list Row :=
  match left with
  | O => result
  | S left' =>
      if (pos <? wp)%Z then
        if (DATA_SIZE <? pos + 2)%Z then result else
        let nc := get (HEADER_SIZE + pos) 2 pg in
        match read_values (Z.to_nat nc) (pos + 2) [] pg with
        | None => result
        | Some (pos', vals) => rows_loop left' pos' wp (result ++ [row_of vals]) pg
        end
      else result
  end.

Definition getRows (pg : Page) : list Row :=
  rows_loop (Z.to_nat (rowCount pg)) 0 (writePos pg) [] pg.

(** ** Well-formed pages and the fields of a page *)

Definition wf_page (pg : Page) : Prop := length pg = Z.to_nat PAGE_SIZE /\ wf_bytes pg.

Definition wf_row (row : Row) : Prop := Forall wf_bytes (values row).

#[export] Instance wf_page_dec pg : Decision (wf_page pg).
Proof. unfold wf_page. apply _. Defined.
#[export] Instance wf_row_dec row : Decision (wf_row row).
Proof. unfold wf_row. apply _. Defined.

Ltac page_consts :=
  unfold DATA_SIZE, OFF_PAGE_ID, OFF_TBL_NAME, OFF_ROW_COUNT, OFF_WRITE_POS,
    OFF_NEXT_PAGE, OFF_CHECKSUM, PAGE_SIZE, HEADER_SIZE in *.

Lemma wf_put off n v pg :
  wf_page pg -> (0 <= off)%Z -> (off + Z.of_nat n <= PAGE_SIZE)%Z -> wf_page (put off n v pg).
Proof.
  intros [Hl Hw] H1 H2. unfold put. split.
  - rewrite length_mem_write; [done|]. rewrite length_le_bytes, Hl. lia.
  - apply wf_mem_write; [apply wf_le_bytes|done].
Qed.

Lemma get_put off n v pg :
  wf_page pg -> (0 <= off)%Z -> (off + Z.of_nat n <= PAGE_SIZE)%Z ->
  (0 <= v < 2 ^ (8 * Z.of_nat n))%Z -> get off n (put off n v pg) = v.
Proof.
  intros [Hl Hw] H1 H2 Hv. unfold get, put.
  rewrite mem_read_write by (rewrite length_le_bytes; lia). by apply le_val_bytes_id.
Qed.

(** A write leaves the ranges it does not touch alone. *)
Lemma read_put off n v pg off' m :
  wf_page pg -> (0 <= off)%Z -> (off + Z.of_nat n <= PAGE_SIZE)%Z ->
  (off' + m <= Z.to_nat off \/ Z.to_nat off + n <= off') ->
  mem_read off' m (put off n v pg) = mem_read off' m pg.
Proof.
  intros [Hl Hw] H1 H2 H3. unfold put. destruct H3.
  - apply mem_read_write_before; rewrite ?length_le_bytes; lia.
  - apply mem_read_write_after; rewrite ?length_le_bytes; lia.
Qed.

Lemma get_put_other off n v pg off' m :
  wf_page pg -> (0 <= off)%Z -> (off + Z.of_nat n <= PAGE_SIZE)%Z -> (0 <= off')%Z ->
  (off' + Z.of_nat m <= off \/ off + Z.of_nat n <= off')%Z ->
  get off' m (put off n v pg) = get off' m pg.
Proof. intros. unfold get. rewrite read_put; auto; lia. Qed.

Lemma get_bound off n pg :
  wf_page pg -> (0 <= get off n pg < 2 ^ (8 * Z.of_nat n))%Z.
Proof.
  intros [Hl Hw]. unfold get.
  pose proof (le_val_bound (mem_read (Z.to_nat off) n pg) (wf_mem_read _ _ _ Hw)) as Hb.
  assert (length (mem_read (Z.to_nat off) n pg) <= n).
  { unfold mem_read. rewrite length_take. lia. }
  split; [lia|]. eapply Z.lt_le_trans; [apply Hb|]. apply Z.pow_le_mono_r; lia.
Qed.

(** The checksum only reads the data area. *)
Lemma get_data_agree pg pg' i n :
  (0 <= i)%Z -> (i + Z.of_nat n <= DATA_SIZE)%Z ->
  drop (Z.to_nat HEADER_SIZE) pg = drop (Z.to_nat HEADER_SIZE) pg' ->
  get (HEADER_SIZE + i) n pg = get (HEADER_SIZE + i) n pg'.
Proof.
  intros H1 H2 He. unfold get, mem_read.
  replace (Z.to_nat (HEADER_SIZE + i)) with (Z.to_nat HEADER_SIZE + Z.to_nat i)
    by (page_consts; lia).
  by rewrite <- !drop_drop, He.
Qed.

Lemma xor_chunks_agree n i cs pg pg' :
  (0 <= i)%Z -> drop (Z.to_nat HEADER_SIZE) pg = drop (Z.to_nat HEADER_SIZE) pg' ->
  xor_chunks n i cs pg = xor_chunks n i cs pg'.
Proof.
  revert i cs. induction n as [|n IH]; intros i cs Hi He; [done|].
  cbn [xor_chunks]. case_if; [|done].
  rewrite (get_data_agree pg pg') by (auto; lia). apply IH; [lia|done].
Qed.

Lemma drop_put off n v pg :
  wf_page pg -> (0 <= off)%Z -> (off + Z.of_nat n <= HEADER_SIZE)%Z ->
  drop (Z.to_nat HEADER_SIZE) (put off n v pg) = drop (Z.to_nat HEADER_SIZE) pg.
Proof.
  intros [Hl Hw] H1 H2. unfold put, mem_write. page_consts.
  rewrite app_assoc, drop_app_ge by (rewrite length_app, length_take, length_le_bytes; lia).
  rewrite drop_drop. f_equal. rewrite length_app, length_take, length_le_bytes. lia.
Qed.

Lemma xor_chunks_bound n i cs pg :
  wf_page pg -> (0 <= cs < 2 ^ 32)%Z -> (0 <= xor_chunks n i cs pg < 2 ^ 32)%Z.
Proof.
  intros Hp. revert i cs. induction n as [|n IH]; intros i cs Hcs; [done|].
  cbn [xor_chunks]. case_if; [|done]. apply IH, lxor_bound; [lia|done|].
  apply (get_bound _ 4 _ Hp).
Qed.

Lemma wf_updateChecksum pg : wf_page pg -> wf_page (updateChecksum pg).
Proof. intros. apply wf_put; page_consts; [done|lia|lia]. Qed.

Lemma verify_updateChecksum pg : wf_page pg -> verifyChecksum (updateChecksum pg) = true.
Proof.
  intros Hp. unfold verifyChecksum, storedChecksum, updateChecksum, setChecksum.
  apply Z.eqb_eq. rewrite get_put; [|done|page_consts; lia|page_consts; lia|].
  - apply xor_chunks_agree; [lia|]. symmetry. apply drop_put; page_consts; [done|lia|lia].
  - apply xor_chunks_bound; [done|lia].
Qed.

(** ** Encoding of rows in the data area *)

Definition enc_value (v : bytes) : bytes := le_bytes 2 (Z.of_nat (length v)) ++ v.
Definition enc_row (row : Row) : bytes :=
  le_bytes 2 (Z.of_nat (length (values row))) ++ mjoin (enc_value <$> values row).
Definition enc_rows (rows : list Row) : bytes := mjoin (enc_row <$> rows).

Definition values_size (vs : list bytes) : Z :=
  Z.of_nat (length (mjoin (enc_value <$> vs))).
Definition row_size (row : Row) : Z := Z.of_nat (length (enc_row row)).

Lemma length_enc_value v : length (enc_value v) = 2 + length v.
Proof. unfold enc_value. by rewrite length_app, length_le_bytes. Qed.

Lemma values_size_cons v vs :
  values_size (v :: vs) = (2 + Z.of_nat (length v) + values_size vs)%Z.
Proof.
  unfold values_size. rewrite fmap_cons, mjoin_cons.
  rewrite length_app, length_enc_value. lia.
Qed.

Lemma values_size_count vs : (2 * Z.of_nat (length vs) <= values_size vs)%Z.
Proof.
  induction vs as [|v vs IH]; [done|]. rewrite values_size_cons. cbn [length]. lia.
Qed.

Lemma row_size_eq row : row_size row = (2 + values_size (values row))%Z.
Proof.
  unfold row_size, enc_row, values_size. rewrite length_app, length_le_bytes. lia.
Qed.

(** The 32-bit sum is the size as long as that fits 32 bits. *)
Lemma needed_row_size row : (row_size row < 2 ^ 32)%Z -> needed row = row_size row.
Proof.
  rewrite row_size_eq. unfold needed.
  assert (forall vs acc, 0 <= acc -> acc + values_size vs < 2 ^ 32 ->
    fold_left (fun n v => u32 (n + u32 (2 + u32 (Z.of_nat (length v))))) vs acc
    = acc + values_size vs)%Z as Hgen.
  { induction vs as [|v vs IH]; intros acc Ha Hs; cbn [fold_left].
    - unfold values_size. simpl. lia.
    - rewrite values_size_cons in *. pose proof (values_size_count vs).
      rewrite (u32_id (Z.of_nat (length v))), (u32_id (2 + _)), (u32_id (acc + _)), IH by lia.
      lia. }
  intros. apply Hgen; lia.
Qed.

Lemma wf_enc_values vs : Forall wf_bytes vs -> wf_bytes (mjoin (enc_value <$> vs)).
Proof.
  induction 1 as [|v vs Hv _ IH]; [constructor|]. rewrite fmap_cons, mjoin_cons.
  apply Forall_app. split; [|done]. apply Forall_app. split; [apply wf_le_bytes|done].
Qed.

Lemma wf_enc_row row : wf_row row -> wf_bytes (enc_row row).
Proof. intros. apply Forall_app. split; [apply wf_le_bytes|by apply wf_enc_values]. Qed.

(** Two adjacent writes are one. *)
Lemma mem_write_app off a b raw :
  off + length a + length b <= length raw ->
  mem_write (off + length a) b (mem_write off a raw) = mem_write off (a ++ b) raw.
Proof.
  intros H. unfold mem_write at 1.
  assert (take (off + length a) (mem_write off a raw) = take off raw ++ a) as ->.
  { unfold mem_write. rewrite app_assoc. apply take_app_length'.
    rewrite length_app, length_take. lia. }
  assert (drop (off + length a + length b) (mem_write off a raw)
          = drop (off + length (a ++ b)) raw) as ->.
  { unfold mem_write. rewrite app_assoc, drop_app_ge by (rewrite length_app, length_take; lia).
    rewrite drop_drop. f_equal. rewrite !length_app, length_take. lia. }
  unfold mem_write. by rewrite <- !app_assoc.
Qed.

Lemma mem_write_nil off raw : mem_write off [] raw = raw.
Proof. unfold mem_write. simpl. rewrite Nat.add_0_r. apply take_drop. Qed.

(** The copy loop writes the encoding of the values. *)
Lemma write_values_eq vs dst pg :
  (0 <= dst)%Z -> (dst + values_size vs <= Z.of_nat (length pg))%Z -> (values_size vs < 65536)%Z ->
  write_values dst vs pg = mem_write (Z.to_nat dst) (mjoin (enc_value <$> vs)) pg.
Proof.
  revert dst pg. induction vs as [|v vs IH]; intros dst pg Hd Hl Hs; cbn [write_values].
  { simpl. by rewrite mem_write_nil. }
  rewrite values_size_cons in *. pose proof (values_size_count vs).
  rewrite u16_id by lia. rewrite Nat2Z.id, firstn_all.
  assert ((if (Z.of_nat (length v) =? 0)%Z
           then mem_write (Z.to_nat dst) (le_bytes 2 (Z.of_nat (length v))) pg
           else mem_write (Z.to_nat (dst + 2)) v
                  (mem_write (Z.to_nat dst) (le_bytes 2 (Z.of_nat (length v))) pg))
          = mem_write (Z.to_nat dst) (enc_value v) pg) as ->.
  { unfold enc_value. case_if.
    - destruct v; [|simpl in *; lia]. by rewrite app_nil_r.
    - replace (Z.to_nat (dst + 2)) with (Z.to_nat dst + length (le_bytes 2 (Z.of_nat (length v))))
        by (rewrite length_le_bytes; lia).
      apply mem_write_app. rewrite length_le_bytes. lia. }
  rewrite IH; [|lia| |lia].
  2:{ rewrite length_mem_write; rewrite ?length_enc_value; lia. }
  rewrite fmap_cons, mjoin_cons.
  replace (Z.to_nat (dst + 2 + Z.of_nat (length v))) with (Z.to_nat dst + length (enc_value v))
    by (rewrite length_enc_value; lia).
  apply mem_write_app. rewrite length_enc_value. unfold values_size in *. lia.
Qed.

(** ** The abstraction relation *)

Record holds (pg : Page) (rows : list Row) : Prop := {
  h_wf : wf_page pg;
  h_pos : writePos pg = Z.of_nat (length (enc_rows rows));
  h_fits : (Z.of_nat (length (enc_rows rows)) <= DATA_SIZE)%Z;
  h_count : rowCount pg = Z.of_nat (length rows);
  h_data : mem_read (Z.to_nat HEADER_SIZE) (length (enc_rows rows)) pg = enc_rows rows;
  h_sum : verifyChecksum pg = true }.

Lemma enc_rows_count rows : (2 * length rows <= length (enc_rows rows)).
Proof.
  induction rows as [|r rows IH]; [done|]. unfold enc_rows in *.
  rewrite fmap_cons, mjoin_cons, length_app. cbn [length].
  pose proof (row_size_eq r) as H. pose proof (values_size_count (values r)).
  unfold row_size in H. lia.
Qed.

Lemma read_values_enc vs pos acc pg :
  wf_page pg -> (0 <= pos)%Z -> (pos + values_size vs <= DATA_SIZE)%Z ->
  mem_read (Z.to_nat (HEADER_SIZE + pos)) (length (mjoin (enc_value <$> vs))) pg
    = mjoin (enc_value <$> vs) ->
  read_values (length vs) pos acc pg = Some ((pos + values_size vs)%Z, acc ++ vs).
Proof.
  intros Hp. revert pos acc. induction vs as [|v vs IH]; intros pos acc H0 Hs Hr.
  { simpl. unfold values_size. simpl. by rewrite Z.add_0_r, app_nil_r. }
  cbn [read_values length]. rewrite values_size_cons in *. pose proof (values_size_count vs).
  destruct (Z.ltb_spec DATA_SIZE (pos + 2)); [lia|].
  rewrite fmap_cons, mjoin_cons in Hr. unfold enc_value at 1 3 in Hr. rewrite <- app_assoc in Hr.
  rewrite !length_app in Hr. rewrite <- length_app in Hr.
  apply mem_read_app in Hr as [Hlen Hr]. rewrite length_app in Hr.
  apply mem_read_app in Hr as [Hv Hr]. rewrite length_le_bytes in *.
  assert (get (HEADER_SIZE + pos) 2 pg = Z.of_nat (length v)) as ->.
  { unfold get. rewrite Hlen. apply le_val_bytes_id. page_consts. lia. }
  destruct (Z.ltb_spec DATA_SIZE (pos + 2 + Z.of_nat (length v))); [lia|].
  rewrite Nat2Z.id.
  replace (Z.to_nat (HEADER_SIZE + (pos + 2))) with (Z.to_nat (HEADER_SIZE + pos) + 2)
    by (page_consts; lia).
  rewrite Hv, IH.
  - rewrite <- app_assoc. simpl. f_equal. f_equal. lia.
  - lia.
  - lia.
  - rewrite <- Hr at 2. f_equal. page_consts. lia.
Qed.

Lemma rows_loop_enc rows pos wp acc pg :
  wf_page pg -> (0 <= pos)%Z -> wp = (pos + Z.of_nat (length (enc_rows rows)))%Z ->
  (wp <= DATA_SIZE)%Z ->
  mem_read (Z.to_nat (HEADER_SIZE + pos)) (length (enc_rows rows)) pg = enc_rows rows ->
  rows_loop (length rows) pos wp acc pg = acc ++ ((fun r => row_of (values r)) <$> rows).
Proof.
  intros Hp. revert pos acc. induction rows as [|r rows IH]; intros pos acc H0 Hw Hd Hr.
  { simpl. by rewrite app_nil_r. }
  change (enc_rows (r :: rows)) with (enc_row r ++ enc_rows rows) in *.
  rewrite length_app in *.
  pose proof (row_size_eq r) as Hsz. pose proof (values_size_count (values r)).
  unfold row_size in Hsz. cbn [rows_loop length].
  destruct (Z.ltb_spec pos wp); [|lia]. destruct (Z.ltb_spec DATA_SIZE (pos + 2)); [lia|].
  apply mem_read_app in Hr as [Hrow Hrest].
  pose proof Hrow as Hrow'. unfold enc_row in Hrow. rewrite length_app in Hrow.
  apply mem_read_app in Hrow as [Hn Hvals]. rewrite length_le_bytes in *.
  assert (get (HEADER_SIZE + pos) 2 pg = Z.of_nat (length (values r))) as ->.
  { unfold get. rewrite Hn. apply le_val_bytes_id. page_consts. lia. }
  rewrite Nat2Z.id, read_values_enc; [|done|lia|lia|].
  2:{ rewrite <- Hvals at 2. f_equal. page_consts. lia. }
  rewrite (IH (pos + 2 + values_size (values r))%Z).
  - rewrite <- app_assoc. done.
  - lia.
  - lia.
  - done.
  - rewrite <- Hrest at 2. f_equal. page_consts. lia.
Qed.

(** Reading a page back yields the stored values; the MVCC stamps are not in
    the format and come back as 0. *)
Lemma getRows_holds pg rows :
  holds pg rows -> getRows pg = (fun r => row_of (values r)) <$> rows.
Proof.
  intros [Hwf Hpos Hfit Hcnt Hdata Hsum]. unfold getRows. rewrite Hcnt, Hpos, Nat2Z.id.
  rewrite rows_loop_enc; auto; lia.
Qed.


Lemma wf_mem_write_page off bs pg :
  wf_page pg -> wf_bytes bs -> off + length bs <= Z.to_nat PAGE_SIZE ->
  wf_page (mem_write off bs pg).
Proof.
  intros [Hl Hw] Hb Ho. split; [rewrite length_mem_write; lia|by apply wf_mem_write].
Qed.

Lemma wf_setTableName name pg : wf_bytes name -> wf_page pg -> wf_page (setTableName name pg).
Proof.
  intros Hn Hp. unfold setTableName.
  apply wf_mem_write_page; [apply wf_mem_write_page; [done| |page_consts; simpl; lia]| |].
  - by apply Forall_replicate.
  - by apply Forall_take.
  - page_consts. rewrite length_take. case_if; lia.
Qed.

Lemma wf_blank : wf_page (replicate (Z.to_nat PAGE_SIZE) 0%Z).
Proof. split; [apply length_replicate|by apply Forall_replicate]. Qed.

Lemma wf_init id name : wf_bytes name -> wf_page (init id name).
Proof.
  intros. unfold init, setPageId, setRowCount, setWritePos, setNextPageId.
  apply wf_updateChecksum.
  repeat (apply wf_put; [|page_consts; lia|page_consts; lia]).
  apply wf_setTableName; [done|]. apply wf_put; [apply wf_blank|page_consts; lia|page_consts; lia].
Qed.

(** Side conditions on constant offsets. *)
Ltac off_tac := first [ by vm_compute | left; by vm_compute | right; by vm_compute
                      | page_consts; lia ].

Ltac wf_tac :=
  lazymatch goal with
  | |- wf_page (put _ _ _ _) => apply wf_put; [wf_tac|off_tac|off_tac]
  | |- wf_page (updateChecksum _) => apply wf_updateChecksum; wf_tac
  | |- wf_page (setTableName _ _) => apply wf_setTableName; [done|wf_tac]
  | |- wf_page (setPageId _ _) => unfold setPageId; wf_tac
  | |- wf_page (setNextPageId _ _) => unfold setNextPageId; wf_tac
  | |- wf_page (setRowCount _ _) => unfold setRowCount; wf_tac
  | |- wf_page (setWritePos _ _) => unfold setWritePos; wf_tac
  | |- wf_page (replicate _ _) => apply wf_blank
  | |- wf_page _ => assumption
  end.

(** [init] gives an empty page with the requested identity. *)
Lemma init_holds id name :
  (0 <= id < 2 ^ 64)%Z -> wf_bytes name ->
  holds (init id name) [] /\ pageId (init id name) = id /\ nextPageId (init id name) = NO_NEXT.
Proof.
  intros Hid Hn. pose proof (wf_init id name Hn) as Hwf. split_and!.
  - constructor; try done.
    + unfold init, writePos, updateChecksum, setChecksum, setNextPageId, setWritePos.
      do 2 (rewrite get_put_other; [|wf_tac|off_tac..]).
      rewrite get_put; [done|wf_tac|off_tac|off_tac|done].
    + unfold init, rowCount, updateChecksum, setChecksum, setNextPageId, setWritePos, setRowCount.
      do 3 (rewrite get_put_other; [|wf_tac|off_tac..]).
      rewrite get_put; [done|wf_tac|off_tac|off_tac|done].
    + apply verify_updateChecksum. wf_tac.
  - unfold init, pageId, updateChecksum, setChecksum, setNextPageId, setWritePos, setRowCount.
    do 4 (rewrite get_put_other; [|wf_tac|off_tac..]).
    assert (wf_page (replicate (Z.to_nat PAGE_SIZE) 0%Z)) as Hb by apply wf_blank.
    unfold get, setTableName.
    assert (length (setPageId id (replicate (Z.to_nat PAGE_SIZE) 0%Z)) = Z.to_nat PAGE_SIZE) as Hl.
    { apply wf_put; [done|page_consts; lia..]. }
    rewrite !mem_read_write_before.
    + apply get_put; [done|page_consts; lia..].
    + page_consts. lia.
    + rewrite length_replicate, Hl. page_consts. lia.
    + page_consts. lia.
    + rewrite length_mem_write, Hl; rewrite ?Hl, ?length_replicate, ?length_take; page_consts;
        [case_if|]; lia.
  - unfold init, nextPageId, updateChecksum, setChecksum, setNextPageId.
    rewrite get_put_other; [|wf_tac|off_tac..].
    apply get_put; [wf_tac|off_tac|off_tac|done].
Qed.

Lemma enc_rows_snoc rows row : enc_rows (rows ++ [row]) = enc_rows rows ++ enc_row row.
Proof. unfold enc_rows. rewrite fmap_app. apply mjoin_snoc. Qed.

(** The writes of [addRow] before the header is updated. *)
Lemma addRow_writes row wp pg :
  wf_page pg -> (0 <= wp)%Z -> (wp + row_size row <= DATA_SIZE)%Z ->
  write_values (HEADER_SIZE + wp + 2) (values row)
    (mem_write (Z.to_nat (HEADER_SIZE + wp)) (le_bytes 2 (u16 (Z.of_nat (length (values row))))) pg)
  = mem_write (Z.to_nat (HEADER_SIZE + wp)) (enc_row row) pg.
Proof.
  intros [Hl Hw] H0 Hs. rewrite row_size_eq in Hs. pose proof (values_size_count (values row)).
  rewrite u16_id by (page_consts; lia).
  rewrite write_values_eq; [|page_consts; lia| |page_consts; lia].
  2:{ rewrite length_mem_write; rewrite ?length_le_bytes; page_consts; lia. }
  unfold enc_row.
  replace (Z.to_nat (HEADER_SIZE + wp + 2)) with (Z.to_nat (HEADER_SIZE + wp) +
    length (le_bytes 2 (Z.of_nat (length (values row))))) by (rewrite length_le_bytes; page_consts; lia).
  apply mem_write_app. rewrite length_le_bytes. unfold values_size in *. page_consts. lia.
Qed.

(** The header updates that end [addRow] and [PagedTable::insertRow]. *)
Lemma holds_header pg rows :
  wf_page pg -> (Z.of_nat (length (enc_rows rows)) <= DATA_SIZE)%Z ->
  mem_read (Z.to_nat HEADER_SIZE) (length (enc_rows rows)) pg = enc_rows rows ->
  (rowCount pg + 1 = Z.of_nat (length rows))%Z ->
  holds (updateChecksum (setRowCount (rowCount pg + 1)
           (setWritePos (Z.of_nat (length (enc_rows rows))) pg))) rows.
Proof.
  intros Hwf Hfit Hdata Hc. pose proof (enc_rows_count rows) as Hcnt.
  set (n := length (enc_rows rows)) in *.
  constructor.
  - unfold setRowCount, setWritePos. wf_tac.
  - unfold writePos, updateChecksum, setChecksum, setRowCount, setWritePos.
    do 2 (rewrite get_put_other; [|wf_tac|off_tac..]).
    rewrite get_put; [|wf_tac|off_tac..|]; rewrite u16_id; page_consts; lia.
  - done.
  - unfold rowCount at 1. unfold updateChecksum, setChecksum, setRowCount, setWritePos.
    rewrite get_put_other; [|wf_tac|off_tac..].
    rewrite get_put; [|wf_tac|off_tac..|]; rewrite u16_id; page_consts; lia.
  - fold n. rewrite <- Hdata.
    unfold updateChecksum, setChecksum, setRowCount, setWritePos.
    rewrite !read_put; [done|first [wf_tac|page_consts; lia]..].
  - apply verify_updateChecksum. unfold setRowCount, setWritePos. wf_tac.
Qed.

(** [addRow] appends exactly when the row fits, and keeps the identity. *)
Lemma addRow_holds pg rows row :
  holds pg rows -> wf_row row -> (row_size row < 2 ^ 32)%Z ->
  match addRow row pg with
  | Some pg' =>
      (Z.of_nat (length (enc_rows rows)) + row_size row <= DATA_SIZE)%Z /\
      holds pg' (rows ++ [row]) /\
      pageId pg' = pageId pg /\ nextPageId pg' = nextPageId pg
  | None => (DATA_SIZE < Z.of_nat (length (enc_rows rows)) + row_size row)%Z
  end.
Proof.
  intros [Hwf Hpos Hfit Hcnt Hdata Hsum] Hrow H32. unfold addRow.
  rewrite needed_row_size, Hpos by done.
  destruct (Z.ltb_spec DATA_SIZE (row_size row)); [lia|].
  destruct (Z.ltb_spec DATA_SIZE (Z.of_nat (length (enc_rows rows)) + row_size row)); [lia|].
  split; [lia|]. rewrite addRow_writes by (auto; lia).
  set (off := Z.to_nat (HEADER_SIZE + Z.of_nat (length (enc_rows rows)))).
  set (pg1 := mem_write off (enc_row row) pg).
  assert (off + length (enc_row row) <= length pg) as Hoff.
  { unfold off, row_size in *. destruct Hwf as [-> _]. page_consts. lia. }
  assert (wf_page pg1) as Hwf1.
  { apply wf_mem_write_page; [done|by apply wf_enc_row|]. destruct Hwf as [<- _]. done. }
  assert (forall o n, (0 <= o)%Z -> (o + Z.of_nat n <= HEADER_SIZE)%Z -> get o n pg1 = get o n pg)
    as Hget.
  { intros o n Ho1 Ho2. unfold get, pg1. rewrite mem_read_write_before; [done| |done].
    unfold off. page_consts. lia. }
  replace (Z.of_nat (length (enc_rows rows)) + row_size row)%Z
    with (Z.of_nat (length (enc_rows (rows ++ [row]))))
    by (rewrite enc_rows_snoc, length_app; unfold row_size; lia).
  assert (rowCount (setWritePos (Z.of_nat (length (enc_rows (rows ++ [row])))) pg1) = rowCount pg1)
    as ->.
  { unfold rowCount, setWritePos. apply get_put_other; [done|page_consts; lia..]. }
  split_and!.
  - apply holds_header; [done| | |].
    + rewrite enc_rows_snoc, length_app. unfold row_size in *. lia.
    + rewrite enc_rows_snoc. apply mem_read_app_join.
      * unfold pg1. rewrite mem_read_write_before; [done| |done]. unfold off. page_consts. lia.
      * unfold pg1. replace (Z.to_nat HEADER_SIZE + length (enc_rows rows)) with off
          by (unfold off; page_consts; lia). by apply mem_read_write.
    + unfold rowCount in *. rewrite Hget, Hcnt by (page_consts; lia). rewrite length_app. simpl. lia.
  - unfold pageId, updateChecksum, setChecksum, setRowCount, setWritePos.
    do 3 (rewrite get_put_other; [|wf_tac|off_tac..]). apply Hget; page_consts; lia.
  - unfold nextPageId, updateChecksum, setChecksum, setRowCount, setWritePos.
    do 3 (rewrite get_put_other; [|wf_tac|off_tac..]). apply Hget; page_consts; lia.
Qed.

Lemma computeChecksum_agree pg pg' :
  drop (Z.to_nat HEADER_SIZE) pg = drop (Z.to_nat HEADER_SIZE) pg' ->
  computeChecksum pg = computeChecksum pg'.
Proof. intros. apply xor_chunks_agree; [lia|done]. Qed.


(** Refreshing the checksum, and linking the next page as
    [PagedTable::insertRow] does, leave the rows and the identity alone. *)
Lemma holds_updateChecksum pg rows :
  holds pg rows -> holds (updateChecksum pg) rows /\ pageId (updateChecksum pg) = pageId pg.
Proof.
  intros [Hwf Hpos Hfit Hcnt Hdata Hsum].
  assert (updateChecksum pg = put OFF_CHECKSUM 4 (computeChecksum pg) pg) as E by done. split.
  - constructor; [by apply wf_updateChecksum| |done| | |by apply verify_updateChecksum].
    + rewrite <- Hpos. unfold writePos. rewrite E, get_put_other; [done|wf_tac|off_tac..].
    + rewrite <- Hcnt. unfold rowCount. rewrite E, get_put_other; [done|wf_tac|off_tac..].
    + rewrite <- Hdata at 2. rewrite E, read_put; [done|first [wf_tac|page_consts; lia]..].
  - unfold pageId. rewrite E, get_put_other; [done|wf_tac|off_tac..].
Qed.

Lemma holds_setNextPageId pg rows n :
  holds pg rows ->
  holds (updateChecksum (setNextPageId n pg)) rows /\
  pageId (updateChecksum (setNextPageId n pg)) = pageId pg.
Proof.
  intros [Hwf Hpos Hfit Hcnt Hdata Hsum].
  assert (wf_page (setNextPageId n pg)) as Hwf' by wf_tac.
  assert (holds (setNextPageId n pg) rows) as H.
  { constructor; [done| |done| | |].
    - rewrite <- Hpos. unfold writePos, setNextPageId. rewrite get_put_other; [done|wf_tac|off_tac..].
    - rewrite <- Hcnt. unfold rowCount, setNextPageId. rewrite get_put_other; [done|wf_tac|off_tac..].
    - rewrite <- Hdata at 2. unfold setNextPageId.
      rewrite read_put; [done|first [wf_tac|page_consts; lia]..].
    - unfold verifyChecksum in *. apply Z.eqb_eq in Hsum. apply Z.eqb_eq.
      unfold storedChecksum, setNextPageId in *. rewrite get_put_other by (auto; page_consts; lia).
      rewrite Hsum. apply computeChecksum_agree. symmetry. apply drop_put; [done|off_tac..]. }
  destruct (holds_updateChecksum _ _ H) as [H1 H2]. split; [done|]. rewrite H2.
  unfold pageId, setNextPageId. rewrite get_put_other; [done|wf_tac|off_tac..].
Qed.

(** ** The page as a bounded log of rows *)

(** The specification: rows are accepted, in order, while they fit. *)
Fixpoint accepted (used : Z) (rows : list Row) : list Row :=
  match rows with
  | [] => []
  | r :: rows' =>
      if (used + row_size r <=? DATA_SIZE)%Z then r :: accepted (used + row_size r) rows'
      else accepted used rows'
  end.

(** Offer each row to the page in turn, as a bulk load does. *)
Definition add_all (rows : list Row) (pg : Page) : Page :=
  fold_left (fun pg r => default pg (addRow r pg)) rows pg.

Lemma add_all_holds rows pg stored :
  holds pg stored -> Forall wf_row rows -> Forall (fun r => row_size r < 2 ^ 32)%Z rows ->
  holds (add_all rows pg)
    (stored ++ accepted (Z.of_nat (length (enc_rows stored))) rows).
Proof.
  intros Hh Hw. revert pg stored Hh. induction Hw as [|r rows Hr Hw IH]; intros pg stored Hh Hs.
  { simpl. by rewrite app_nil_r. }
  apply Forall_cons in Hs as [Hr32 Hs]. unfold add_all. cbn [fold_left accepted].
  pose proof (addRow_holds pg stored r Hh Hr Hr32) as Ha.
  destruct (addRow r pg) as [pg'|]; simpl.
  - destruct Ha as (Hf & Hh' & _). rewrite (proj2 (Z.leb_le _ _)) by done.
    specialize (IH pg' _ Hh' Hs). rewrite <- app_assoc in IH.
    rewrite enc_rows_snoc, length_app, Nat2Z.inj_add in IH. exact IH.
  - rewrite (proj2 (Z.leb_gt _ _)) by done. by apply IH.
Qed.

(** A page implements a bounded append-only log: whatever sequence of rows
    is offered to a fresh page, [getRows] returns the values of exactly the
    rows that fitted, in order, and the checksum is valid. *)
Theorem page_refines_log id name rows :
  (0 <= id < 2 ^ 64)%Z -> wf_bytes name -> Forall wf_row rows ->
  Forall (fun r => row_size r < 2 ^ 32)%Z rows ->
  getRows (add_all rows (init id name))
    = (fun r => row_of (values r)) <$> accepted 0 rows /\
  verifyChecksum (add_all rows (init id name)) = true.
Proof.
  intros Hid Hn Hw Hs. destruct (init_holds id name Hid Hn) as (Hh & _ & _).
  pose proof (add_all_holds rows _ [] Hh Hw Hs) as H. split.
  - by apply getRows_holds in H.
  - apply H.
Qed.

(** A row is rejected exactly when it does not fit behind the stored ones. *)
Lemma addRow_none pg rows row :
  holds pg rows -> wf_row row -> (row_size row < 2 ^ 32)%Z ->
  addRow row pg = None <-> (DATA_SIZE < Z.of_nat (length (enc_rows rows)) + row_size row)%Z.
Proof.
  intros Hh Hw Hs. pose proof (addRow_holds pg rows row Hh Hw Hs) as H.
  destruct (addRow row pg); [destruct H|]; split; auto; try done; lia.
Qed.

(** ** Error detection *)

Lemma lxor_cancel a b : a = Z.lxor a b -> b = 0%Z.
Proof.
  intros H. apply (f_equal (Z.lxor a)) in H.
  by rewrite <- Z.lxor_assoc, Z.lxor_nilpotent, Z.lxor_0_l in H.
Qed.

Lemma xor_chunks_cs n i cs d pg :
  xor_chunks n i (Z.lxor cs d) pg = Z.lxor (xor_chunks n i cs pg) d.
Proof.
  revert i cs. induction n as [|n IH]; intros i cs; cbn [xor_chunks]; [done|].
  case_if; [|done]. rewrite <- IH. f_equal. rewrite !Z.lxor_assoc. f_equal. apply Z.lxor_comm.
Qed.

Lemma xor_chunks_after n i cs w k pg :
  wf_page pg -> length w = 4 -> (0 <= k)%Z -> (4 * k + 4 <= DATA_SIZE)%Z -> (4 * k + 4 <= i)%Z ->
  xor_chunks n i cs (mem_write (Z.to_nat (HEADER_SIZE + 4 * k)) w pg) = xor_chunks n i cs pg.
Proof.
  intros [Hl Hw] Hlen Hk Hk' Hi. revert i cs Hi.
  induction n as [|n IH]; intros i cs Hi; cbn [xor_chunks]; [done|].
  case_if; [|done]. rewrite IH by lia. do 2 f_equal.
  unfold get. rewrite mem_read_write_after; [done|page_consts; lia..].
Qed.

Lemma xor_chunks_write n i j k cs w pg :
  i = (4 * j)%Z -> wf_page pg -> length w = 4 -> (0 <= j <= k)%Z -> (4 * k + 4 <= DATA_SIZE)%Z ->
  (k < j + Z.of_nat n)%Z ->
  xor_chunks n i cs (mem_write (Z.to_nat (HEADER_SIZE + 4 * k)) w pg)
  = Z.lxor (xor_chunks n i cs pg) (Z.lxor (get (HEADER_SIZE + 4 * k) 4 pg) (le_val w)).
Proof.
  intros -> Hp Hlen Hj Hk Hn. pose proof Hp as [Hl Hw]. revert j cs Hj Hn.
  induction n as [|n IH]; intros j cs Hj Hn; [lia|]. cbn [xor_chunks].
  destruct (Z.ltb_spec (4 * j + 3) DATA_SIZE); [|lia].
  replace (4 * j + 4)%Z with (4 * (j + 1))%Z by lia.
  destruct (Z.eq_dec j k) as [->|Hne].
  - rewrite xor_chunks_after by (auto; lia).
    assert (get (HEADER_SIZE + 4 * k) 4 (mem_write (Z.to_nat (HEADER_SIZE + 4 * k)) w pg)
            = le_val w) as ->.
    { unfold get. rewrite mem_read_write; [done|page_consts; lia..]. }
    rewrite <- xor_chunks_cs. f_equal. rewrite !Z.lxor_assoc. f_equal.
    by rewrite <- Z.lxor_assoc, Z.lxor_nilpotent, Z.lxor_0_l.
  - rewrite IH by lia. do 3 f_equal.
    unfold get. rewrite mem_read_write_before; [done|page_consts; lia..].
Qed.

Lemma computeChecksum_write k w pg :
  wf_page pg -> length w = 4 -> (0 <= k)%Z -> (4 * k + 4 <= DATA_SIZE)%Z ->
  computeChecksum (mem_write (Z.to_nat (HEADER_SIZE + 4 * k)) w pg)
  = Z.lxor (computeChecksum pg) (Z.lxor (get (HEADER_SIZE + 4 * k) 4 pg) (le_val w)).
Proof. intros. apply (xor_chunks_write _ 0 0 k); auto; page_consts; lia. Qed.

(** Overwriting one aligned 32-bit word of the data area of a valid page
    with different bytes is always detected by [verifyChecksum]. *)
Theorem checksum_detects_word pg w k :
  wf_page pg -> verifyChecksum pg = true ->
  wf_bytes w -> length w = 4 -> (0 <= k < DATA_SIZE / 4)%Z ->
  w <> mem_read (Z.to_nat (HEADER_SIZE + 4 * k)) 4 pg ->
  verifyChecksum (mem_write (Z.to_nat (HEADER_SIZE + 4 * k)) w pg) = false.
Proof.
  intros Hp Hv Hw Hlen Hk Hne. pose proof Hp as [Hl Hwf].
  assert (4 * k + 4 <= DATA_SIZE)%Z as Hk'.
  { change (DATA_SIZE / 4)%Z with 2032%Z in Hk. page_consts. lia. }
  unfold verifyChecksum in *. apply Z.eqb_eq in Hv. apply Z.eqb_neq.
  assert (storedChecksum (mem_write (Z.to_nat (HEADER_SIZE + 4 * k)) w pg) = storedChecksum pg)
    as ->.
  { unfold storedChecksum, get. rewrite mem_read_write_before; [done|page_consts; lia..]. }
  rewrite Hv, computeChecksum_write by (auto; lia).
  intros Heq. apply lxor_cancel in Heq.
  apply Z.lxor_eq in Heq. apply Hne. apply le_val_inj; [done|by apply wf_mem_read| |].
  - rewrite length_mem_read; [done|page_consts; lia].
  - unfold get in Heq. symmetry. done.
Qed.

(** The data area is the whole of what the checksum protects: the header,
    row count and write position included, is not covered. *)
Lemma checksum_ignores_header off n v pg :
  wf_page pg -> (0 <= off)%Z -> (off + Z.of_nat n <= OFF_CHECKSUM)%Z ->
  verifyChecksum pg = true -> verifyChecksum (put off n v pg) = true.
Proof.
  intros Hp H0 H1 Hv. unfold verifyChecksum in *. apply Z.eqb_eq in Hv. apply Z.eqb_eq.
  unfold storedChecksum in *.
  rewrite get_put_other by (auto; page_consts; lia). rewrite Hv. apply computeChecksum_agree.
  symmetry. apply drop_put; [done|done|page_consts; lia].
Qed.

(** ** The table name field *)

Lemma take_while_upto_nul s m :
  Forall (fun c => c <> 0%Z) s -> take_while (fun c => negb (c =? 0)%Z) (s ++ replicate m 0%Z) = s.
Proof.
  intros Hs. destruct (take_while_all (fun c => negb (c =? 0)%Z) s (replicate m 0%Z)) as [H _].
  - eapply Forall_impl; [exact Hs|]. intros c Hc. by apply negb_true_iff, Z.eqb_neq.
  - destruct m; simpl; done.
  - done.
Qed.

(** A name without NUL is stored up to its first 27 bytes. *)
Lemma tableName_setTableName name pg :
  wf_page pg -> Forall (fun c => c <> 0%Z) name ->
  tableName (setTableName name pg) = take 27 name.
Proof.
  intros [Hl Hw] Hn. unfold tableName, setTableName.
  assert ((if length name <? 27 then length name else 27) = length (take 27 name)) as ->.
  { rewrite length_take. case_if; lia. }
  assert (take (length (take 27 name)) name = take 27 name) as ->.
  { rewrite length_take. destruct (Nat.le_gt_cases (length name) 27).
    - rewrite Nat.min_r, firstn_all, (take_ge name) by lia. done.
    - by rewrite Nat.min_l by lia. }
  set (s := take 27 name). assert (length s <= 27) as Hs by (unfold s; rewrite length_take; lia).
  set (z := mem_write (Z.to_nat OFF_TBL_NAME) (replicate 28 0%Z) pg).
  assert (mem_read (Z.to_nat OFF_TBL_NAME) 28 z = replicate 28 0%Z) as Hz.
  { apply mem_read_write; rewrite length_replicate; page_consts; lia. }
  assert (length z = length pg) as Hlz.
  { unfold z. rewrite length_mem_write; rewrite ?length_replicate; page_consts; lia. }
  assert (mem_read (Z.to_nat OFF_TBL_NAME) 28 (mem_write (Z.to_nat OFF_TBL_NAME) s z)
          = s ++ replicate (28 - length s) 0%Z) as ->.
  { replace 28 with (length s + (28 - length s)) at 1 by lia.
    unfold mem_read at 1. rewrite <- take_drop_app. f_equal.
    - apply mem_read_write; [page_consts; lia|done].
    - rewrite drop_drop. fold (mem_read (Z.to_nat OFF_TBL_NAME + length s) (28 - length s)
        (mem_write (Z.to_nat OFF_TBL_NAME) s z)).
      rewrite mem_read_write_after by (page_consts; lia).
      unfold mem_read in *. rewrite <- drop_drop.
      apply (f_equal (drop (length s))) in Hz. rewrite skipn_firstn_comm in Hz.
      rewrite Hz, drop_replicate. done. }
  apply take_while_upto_nul. by apply Forall_take.
Qed.

End Page.

Definition ex_row : Row := row_of [str "1"; str "Ada"].
Definition big_row : Row := row_of [replicate (Z.to_nat 8120) 65%Z].

Lemma page_refines_log_witness :
  Page.getRows (Page.add_all [ex_row; big_row; ex_row] (Page.init 7 (str "users")))
    = [ex_row; ex_row].
Proof.
  destruct (Page.page_refines_log 7 (str "users") [ex_row; big_row; ex_row]) as [H _].
  - lia.
  - by_decide.
  - by_decide.
  - by_decide.
  - etransitivity; [exact H|]. vm_compute. reflexivity.
Defined.

(** Flipping the first stored byte of a page with one row. *)
Lemma checksum_detects_word_witness :
  Page.verifyChecksum
    (mem_write (Z.to_nat (Page.HEADER_SIZE + 4 * 0)) [3%Z; 0%Z; 1%Z; 0%Z]
      (Page.add_all [ex_row] (Page.init 7 (str "users")))) = false.
Proof.
  apply Page.checksum_detects_word.
  - by_decide.
  - vm_compute. reflexivity.
  - by_decide.
  - vm_compute. reflexivity.
  - by_decide.
  - by_decide.
Defined.
