(* ===== verification/Mvcc.v ===== *)
(** * Transaction identifiers and vacuuming
      ([src/mvcc/transaction_manager.hpp], [src/mvcc/vacuum.hpp])

    [TransactionManager] hands out transaction numbers, remembers the committed
    ones and forgets those below the horizon; [isCommitted] answers from what
    is left.  [History] runs the manager next to the full, never pruned record
    of what happened.  [VacuumManager] is the bookkeeping around [Table.vacuum]. *)

From S2P Require Import Prelude Index Partition Table.

Module TransactionManager.

Record TxInfo := mkTxInfo { tx_id : Z; isolationLevel : bytes; startTime : bytes }.

Record State := mkState {
  globalTxId_ : Z; activeTxs_ : gmap Z TxInfo; committedTxs_ : gset Z }.

Definition initial : State := mkState 0 ∅ ∅.

(** [beginTx]; [now] is what the clock prints. *)
Definition beginTx (iso now : bytes) (s : State) : Z * State :=
  let id := u64 (globalTxId_ s + 1) in
  (id, mkState id (<[id := mkTxInfo id iso now]> (activeTxs_ s)) (committedTxs_ s)).

(** The first key of the ordered map, or one past the counter. *)
Definition minActiveTxId (s : State) : Z :=
  match int_iter (activeTxs_ s) with
  | [] => u64 (globalTxId_ s + 1)
  | (id, _) :: _ => id
  end.

(** Erasing from the front of the ordered set while below [horizon]. *)
Definition prune (horizon : Z) (c : gset Z) : gset Z := filter (fun id => horizon <= id)%Z c.

Definition commitTx (id : Z) (s : State) : State :=
  let s := mkState (globalTxId_ s) (delete id (activeTxs_ s)) ({[id]} ∪ committedTxs_ s) in
  if (10000 <? Z.of_nat (size (committedTxs_ s)))%Z
  then mkState (globalTxId_ s) (activeTxs_ s) (prune (minActiveTxId s) (committedTxs_ s))
  else s.

Definition rollbackTx (id : Z) (s : State) : State :=
  mkState (globalTxId_ s) (delete id (activeTxs_ s)) (committedTxs_ s).

Definition isCommitted (s : State) (id : Z) : bool :=
  if (id =? 0)%Z then true
  else if bool_decide (id ∈ committedTxs_ s) then true
  else bool_decide (activeTxs_ s !! id = None) && (id <? minActiveTxId s)%Z.

Definition currentGlobalId (s : State) : Z := globalTxId_ s.

(** ** The manager next to the record of everything that happened *)

Record History := mkHistory { h_state : State; h_committed : gset Z; h_rolledback : gset Z }.

(** The engine commits or rolls back transactions that are active, and the
    counter does not wrap. *)
Inductive step : History -> History -> Prop :=
| step_begin s c r iso now :
    (globalTxId_ s + 1 < 2 ^ 64 - 1)%Z ->
    step (mkHistory s c r) (mkHistory (beginTx iso now s).2 c r)
| step_commit s c r id :
    is_Some (activeTxs_ s !! id) ->
    step (mkHistory s c r) (mkHistory (commitTx id s) ({[id]} ∪ c) r)
| step_rollback s c r id :
    is_Some (activeTxs_ s !! id) ->
    step (mkHistory s c r) (mkHistory (rollbackTx id s) c ({[id]} ∪ r)).

Inductive reachable : History -> Prop :=
| reach_init : reachable (mkHistory initial ∅ ∅)
| reach_step h h' : reachable h -> step h h' -> reachable h'.

(** ** The horizon *)

Lemma int_iter_sorted {V} (m : gmap Z V) : StronglySorted Z.le (int_iter m).*1.
Proof.
  assert (StronglySorted (key_rel Z.le) (int_iter m)) as H.
  { apply StronglySorted_merge_sort; [intros [a ?] [b ?] [c ?]; unfold key_rel; simpl; lia|].
    intros [a ?] [b ?]. unfold key_rel. simpl. lia. }
  induction H as [|[a x] l _ IH Hf]; simpl; constructor; [done|].
  apply Forall_map. eapply Forall_impl; [exact Hf|]. by intros [b y].
Qed.

(** The horizon is the least active number, or one past the last number used. *)
Lemma minActiveTxId_spec s :
  (activeTxs_ s = ∅ /\ minActiveTxId s = u64 (globalTxId_ s + 1)) \/
  (is_Some (activeTxs_ s !! minActiveTxId s) /\
   forall id, is_Some (activeTxs_ s !! id) -> (minActiveTxId s <= id)%Z).
Proof.
  unfold minActiveTxId. destruct (int_iter (activeTxs_ s)) as [|[id x] l] eqn:E.
  - left. split; [|done]. apply map_eq. intros i. rewrite lookup_empty.
    destruct (activeTxs_ s !! i) as [y|] eqn:Ei; [|done].
    apply (elem_of_map_iter Z.le) in Ei. rewrite E in Ei. by apply not_elem_of_nil in Ei.
  - right. split.
    + exists x. apply (elem_of_map_iter Z.le). rewrite E. by left.
    + intros i [y Hi]. apply (elem_of_map_iter Z.le) in Hi. rewrite E in Hi.
      pose proof (int_iter_sorted (activeTxs_ s)) as Hs. rewrite E in Hs.
      apply StronglySorted_inv in Hs as [_ Hf]. rewrite Forall_forall in Hf.
      apply elem_of_cons in Hi as [[= -> ->]|Hi]; [lia|].
      apply Hf. simpl. by apply (list_elem_of_fmap_2 fst _ (i, y)).
Qed.

(** ** The invariant of the pair *)

Record inv (h : History) : Prop := {
  i_range : (0 <= globalTxId_ (h_state h) < 2 ^ 64 - 1)%Z;
  i_active : forall id, is_Some (activeTxs_ (h_state h) !! id) ->
               (0 < id <= globalTxId_ (h_state h))%Z /\ ~ (id ∈ h_committed h) /\ ~ (id ∈ h_rolledback h);
  i_kept : forall id, id ∈ committedTxs_ (h_state h) -> id ∈ h_committed h;
  i_pruned : forall id, id ∈ h_committed h -> id ∉ committedTxs_ (h_state h) ->
               (id < minActiveTxId (h_state h))%Z;
  i_disj : forall id, id ∈ h_committed h -> id ∉ h_rolledback h;
  i_ended : forall id, id ∈ h_committed h \/ id ∈ h_rolledback h ->
              (0 < id <= globalTxId_ (h_state h))%Z;
  i_begun : forall id, (0 < id <= globalTxId_ (h_state h))%Z ->
              is_Some (activeTxs_ (h_state h) !! id) \/ id ∈ h_committed h \/ id ∈ h_rolledback h }.

(** Ending a transaction does not lower the horizon. *)
Lemma minActive_delete id s :
  (0 <= globalTxId_ s < 2 ^ 64 - 1)%Z ->
  (forall i, is_Some (activeTxs_ s !! i) -> (i <= globalTxId_ s)%Z) ->
  forall c, (minActiveTxId s <= minActiveTxId (mkState (globalTxId_ s) (delete id (activeTxs_ s)) c))%Z.
Proof.
  intros Hg Ha c. set (s' := mkState _ _ c).
  destruct (minActiveTxId_spec s) as [[He Hm]|[Hm Hle]].
  - assert (activeTxs_ s' = ∅) as He' by (unfold s'; simpl; by rewrite He, delete_empty).
    destruct (minActiveTxId_spec s') as [[_ ->]|[Hm' _]]; [by rewrite Hm|].
    rewrite He', lookup_empty in Hm'. by destruct Hm'.
  - destruct (minActiveTxId_spec s') as [[_ ->]|[Hm' _]].
    + simpl. rewrite u64_id by lia. specialize (Ha _ Hm). lia.
    + apply Hle. destruct Hm' as [x Hx].
      remember (minActiveTxId s') as m' eqn:Em. clear Em. unfold s' in Hx. simpl in Hx.
      apply lookup_delete_Some in Hx as [_ Hx]. eauto.
Qed.

Lemma minActive_same g a c c' : minActiveTxId (mkState g a c) = minActiveTxId (mkState g a c').
Proof. done. Qed.

Lemma commitTx_active id s : activeTxs_ (commitTx id s) = delete id (activeTxs_ s).
Proof. unfold commitTx. by case_if. Qed.
Lemma commitTx_global id s : globalTxId_ (commitTx id s) = globalTxId_ s.
Proof. unfold commitTx. by case_if. Qed.
Lemma commitTx_min id s :
  minActiveTxId (commitTx id s) =
  minActiveTxId (mkState (globalTxId_ s) (delete id (activeTxs_ s)) ∅).
Proof. unfold commitTx. by case_if. Qed.
Lemma commitTx_committed id s i :
  i ∈ committedTxs_ (commitTx id s) -> i = id \/ i ∈ committedTxs_ s.
Proof.
  unfold commitTx. case_if; simpl; [|set_solver].
  unfold prune. intros H. apply elem_of_filter in H as [_ H]. set_solver.
Qed.
Lemma commitTx_dropped id s i :
  (i = id \/ i ∈ committedTxs_ s) -> i ∉ committedTxs_ (commitTx id s) ->
  (i < minActiveTxId (commitTx id s))%Z.
Proof.
  intros Hi. unfold commitTx. case_if; simpl; [|set_solver].
  unfold prune. rewrite elem_of_filter. intros H.
  match goal with |- (_ < ?m)%Z => change m with (minActiveTxId (mkState (globalTxId_ s) (delete id (activeTxs_ s)) ({[id]} ∪ committedTxs_ s))) end.
  destruct (Z.lt_ge_cases i (minActiveTxId (mkState (globalTxId_ s) (delete id (activeTxs_ s))
    ({[id]} ∪ committedTxs_ s)))); [done|].
  destruct H. split; [done|set_solver].
Qed.

Lemma inv_init : inv (mkHistory initial ∅ ∅).
Proof.
  constructor; unfold initial; simpl; try set_solver.
  - intros id [x H]. by rewrite lookup_empty in H.
  - intros id H. lia.
Qed.

Lemma inv_begin s c r iso now :
  (globalTxId_ s + 1 < 2 ^ 64 - 1)%Z -> inv (mkHistory s c r) ->
  inv (mkHistory (beginTx iso now s).2 c r).
Proof.
  intros Hlt [Hr Ha Hk Hp Hd He Hb]. simpl in *. set (s' := (beginTx iso now s).2).
  assert (u64 (globalTxId_ s + 1) = globalTxId_ s + 1)%Z as Hu by (apply u64_id; lia).
  assert (minActiveTxId s <= minActiveTxId s')%Z as Hmono.
  { destruct (minActiveTxId_spec s') as [[Hemp _]|[[x Hm'] _]].
    - exfalso. assert (activeTxs_ s' !! u64 (globalTxId_ s + 1) = None) as Hn by (by rewrite Hemp).
      unfold s' in Hn. simpl in Hn. by rewrite lookup_insert_eq in Hn.
    - remember (minActiveTxId s') as m' eqn:Em. clear Em. unfold s' in Hm'. simpl in Hm'.
      apply lookup_insert_Some in Hm' as [[<- _]|[_ Hm']].
      + rewrite Hu. destruct (minActiveTxId_spec s) as [[_ ->]|[Hm _]]; [lia|].
        apply Ha in Hm. lia.
      + destruct (minActiveTxId_spec s) as [[Hemp _]|[_ Hle]].
        * by rewrite Hemp, lookup_empty in Hm'.
        * apply Hle. eauto. }
  constructor; unfold s' in *; simpl in *.
  - lia.
  - intros id [x H]. rewrite Hu in *. apply lookup_insert_Some in H as [[<- _]|[_ H]].
    + split; [lia|]. split; intros Hin; [destruct (He (globalTxId_ s + 1)%Z)|destruct (He (globalTxId_ s + 1)%Z)]; auto; lia.
    + destruct (Ha id) as (H1 & H2 & H3); [eauto|]. split; [lia|done].
  - done.
  - intros id H1 H2. specialize (Hp id H1 H2). lia.
  - done.
  - intros id H. specialize (He id H). lia.
  - intros id H. rewrite Hu in *. destruct (decide (id = globalTxId_ s + 1)%Z) as [->|].
    + left. rewrite lookup_insert_eq. eauto.
    + rewrite lookup_insert_ne by done. apply Hb. lia.
Qed.

Lemma inv_commit s c r id :
  is_Some (activeTxs_ s !! id) -> inv (mkHistory s c r) ->
  inv (mkHistory (commitTx id s) ({[id]} ∪ c) r).
Proof.
  intros Hid [Hr Ha Hk Hp Hd He Hb]. simpl in *. destruct (Ha id Hid) as (H1 & H2 & H3).
  pose proof (minActive_delete id s Hr (fun i Hi => proj2 (proj1 (Ha i Hi))) ∅) as Hmono.
  rewrite <- commitTx_min in Hmono.
  constructor; simpl; rewrite ?commitTx_active, ?commitTx_global.
  - done.
  - intros i [x H]. apply lookup_delete_Some in H as [Hne H].
    destruct (Ha i) as (? & ? & ?); [eauto|]. set_solver.
  - intros i H. apply commitTx_committed in H. set_solver.
  - intros i Hi Hni. destruct (decide (i = id \/ i ∈ committedTxs_ s)) as [Hin|Hin].
    + by apply commitTx_dropped.
    + assert (i < minActiveTxId s)%Z; [|lia]. apply Hp; set_solver.
  - set_solver.
  - intros i H. destruct (decide (i = id)) as [->|]; [lia|]. apply He. set_solver.
  - intros i H. destruct (decide (i = id)) as [->|]; [set_solver|].
    rewrite lookup_delete_ne by done. destruct (Hb i H) as [?|[?|?]]; set_solver.
Qed.

Lemma inv_rollback s c r id :
  is_Some (activeTxs_ s !! id) -> inv (mkHistory s c r) ->
  inv (mkHistory (rollbackTx id s) c ({[id]} ∪ r)).
Proof.
  intros Hid [Hr Ha Hk Hp Hd He Hb]. simpl in *. destruct (Ha id Hid) as (H1 & H2 & H3).
  pose proof (minActive_delete id s Hr (fun i Hi => proj2 (proj1 (Ha i Hi))) (committedTxs_ s)) as Hmono.
  constructor; simpl.
  - done.
  - intros i [x H]. apply lookup_delete_Some in H as [Hne H].
    destruct (Ha i) as (? & ? & ?); [eauto|]. set_solver.
  - done.
  - intros i Hi Hni. specialize (Hp i Hi Hni). unfold rollbackTx. lia.
  - set_solver.
  - intros i H. destruct (decide (i = id)) as [->|]; [lia|]. apply He. set_solver.
  - intros i H. destruct (decide (i = id)) as [->|]; [set_solver|].
    rewrite lookup_delete_ne by done. destruct (Hb i H) as [?|[?|?]]; set_solver.
Qed.

Lemma reachable_inv h : reachable h -> inv h.
Proof.
  induction 1 as [|h h' _ IH Hs]; [apply inv_init|].
  destruct Hs; [by apply inv_begin|by apply inv_commit|by apply inv_rollback].
Qed.

(** Forgetting old commits is invisible: in every reachable state
    [isCommitted] is true, among the numbers handed out so far, for exactly
    those that were committed, however long ago, and the rolled back ones
    below the horizon; it is also true for 0. *)
Theorem isCommitted_exact h id :
  reachable h -> (0 <= id <= globalTxId_ (h_state h))%Z ->
  isCommitted (h_state h) id = true <->
    id = 0%Z \/ id ∈ h_committed h \/
    (id ∈ h_rolledback h /\ (id < minActiveTxId (h_state h))%Z).
Proof.
  intros Hh Hid. destruct (reachable_inv h Hh) as [Hr Ha Hk Hp Hd He Hb].
  unfold isCommitted. destruct (Z.eqb_spec id 0); [naive_solver|].
  case_bool_decide as Hc; [naive_solver|]. rewrite andb_true_iff, bool_decide_eq_true, Z.ltb_lt.
  split.
  - intros [Hnone Hlt]. destruct (Hb id) as [[x Hx]|[?|?]]; [lia|congruence|auto|auto].
  - intros [?|[Hin|[Hin Hlt]]]; [done| |].
    + split; [|by apply Hp]. apply eq_None_not_Some. intros Hs. by apply Ha in Hs as (_ & ? & _).
    + split; [|done]. apply eq_None_not_Some. intros Hs. by apply Ha in Hs as (_ & _ & ?).
Qed.

(** A transaction that is still running is never taken for committed. *)
Lemma active_not_committed h id :
  reachable h -> is_Some (activeTxs_ (h_state h) !! id) -> isCommitted (h_state h) id = false.
Proof.
  intros Hh Hs. destruct (reachable_inv h Hh) as [Hr Ha Hk Hp Hd He Hb].
  destruct (Ha id Hs) as (H1 & H2 & H3). unfold isCommitted.
  destruct (Z.eqb_spec id 0); [lia|]. rewrite bool_decide_false by (intros H; by apply Hk in H).
  rewrite bool_decide_false; [done|]. destruct Hs as [x ->]. done.
Qed.

Definition ex_history : History :=
  mkHistory (commitTx 1 (beginTx [] [] initial).2) {[1%Z]} ∅.

Lemma ex_history_reachable : reachable ex_history.
Proof.
  eapply reach_step; [eapply reach_step; [apply reach_init|apply (step_begin _ _ _ [] []); simpl; lia]|].
  replace {[1%Z]} with ({[1%Z]} ∪ ∅ : gset Z) at 1 by set_solver.
  unfold ex_history. rewrite <- (union_empty_r_L {[1%Z]}) at 1. apply step_commit. vm_compute. eauto.
Qed.

Lemma isCommitted_exact_witness : isCommitted (h_state ex_history) 1 = true.
Proof.
  apply isCommitted_exact; [exact ex_history_reachable|by_decide|].
  right. left. by_decide.
Defined.

(** A rolled back transaction counts as committed once the horizon has passed
    it, here at once. *)
Lemma rolledback_counts_as_committed :
  isCommitted (rollbackTx 1 (beginTx [] [] initial).2) 1 = true.
Proof. vm_compute. reflexivity. Qed.

End TransactionManager.

(** ** Vacuuming with the manager's horizon *)

Section vacuum.
Context {tree : Type} {RI : RowIndex tree}.
Import TransactionManager.

Lemma vacuum_rows isC horizon (t : Table tree) :
  rows_ (vacuum isC horizon t).2 = List.filter (fun r => negb (dead_version isC horizon r)) (rows_ t).
Proof. unfold vacuum, erase_rows. cbn [snd]. by case_if. Qed.

(** VACUUM with the manager's horizon keeps every live row and every row
    whose deleting transaction is still running, keeps the order, and removes
    only rows whose deleting transaction has ended. *)
Theorem vacuum_safe h (t : Table tree) r :
  TransactionManager.reachable h -> r ∈ rows_ t ->
  (0 <= xmax r <= globalTxId_ (h_state h))%Z ->
  let s := h_state h in
  let t' := (vacuum (isCommitted s) (minActiveTxId s) t).2 in
  sublist (rows_ t') (rows_ t) /\
  (alive r = true \/ is_Some (activeTxs_ s !! xmax r) -> r ∈ rows_ t') /\
  (r ∈ rows_ t' \/ (xmax r < minActiveTxId s)%Z /\
     (xmax r ∈ h_committed h \/ xmax r ∈ h_rolledback h)).
Proof.
  intros Hh Hin Hx s t'. unfold t'. rewrite vacuum_rows. split_and!.
  - generalize (dead_version (isCommitted s) (minActiveTxId s)). intros p. clear.
    induction (rows_ t) as [|x l IH]; simpl; [constructor|]. by destruct (negb (p x)); constructor.
  - intros Hk. apply list_elem_of_In, filter_In. split; [by apply list_elem_of_In|].
    unfold dead_version. destruct Hk as [Ha|Hact]; [unfold alive in Ha; by rewrite Ha|].
    rewrite (active_not_committed h) by done. by rewrite andb_false_r.
  - destruct (dead_version (isCommitted s) (minActiveTxId s) r) eqn:Ed.
    + right. unfold dead_version in Ed. to_prop. split; [done|].
      match goal with H : isCommitted _ _ = true |- _ =>
        pose proof (active_not_committed h (xmax r) Hh) as Hna;
        destruct (reachable_inv h Hh) as [Hr Ha Hk Hp Hd He Hb]
      end.
      destruct (Hb (xmax r)) as [Hs|[?|?]]; [lia| |by left|by right].
      apply Hna in Hs. unfold s in *. congruence.
    + left. apply list_elem_of_In, filter_In. split; [by apply list_elem_of_In|]. by rewrite Ed.
Qed.
End vacuum.

(** ** Bookkeeping: [VacuumManager] *)

Module VacuumManager.

Definition DEFAULT_THRESHOLD : Z := 100.

Record State := mkState {
  deadTupleCount_ : gmap bytes Z; lastVacuumTime_ : gmap bytes bytes;
  autoVacuumEnabled_ : bool; autoVacuumThreshold_ : Z; autoVacuumCount_ : Z;
  lastAutoVacuumTime_ : bytes; vacuumRuns_ : Z; totalFreedRows_ : Z; totalFreedBytes_ : Z;
  lastFreedRows_ : Z; lastFreedBytes_ : Z; lastRunTime_ : bytes }.

Definition initial : State :=
  mkState ∅ ∅ true DEFAULT_THRESHOLD 0 [] 0 0 0 0 0 [].

Definition with_tables (d : gmap bytes Z) (l : gmap bytes bytes) (s : State) : State :=
  mkState d l (autoVacuumEnabled_ s) (autoVacuumThreshold_ s) (autoVacuumCount_ s)
    (lastAutoVacuumTime_ s) (vacuumRuns_ s) (totalFreedRows_ s) (totalFreedBytes_ s)
    (lastFreedRows_ s) (lastFreedBytes_ s) (lastRunTime_ s).

Definition addDeadTuples (tbl : bytes) (count : Z) (s : State) : State :=
  let n := default 0%Z (deadTupleCount_ s !! tbl) in
  with_tables (<[tbl := u64 (n + count)]> (deadTupleCount_ s)) (lastVacuumTime_ s) s.

Definition resetDeadTuples (now tbl : bytes) (s : State) : State :=
  with_tables (<[tbl := 0%Z]> (deadTupleCount_ s)) (<[tbl := now]> (lastVacuumTime_ s)) s.

Definition getDeadTupleCount (s : State) (tbl : bytes) : Z :=
  match deadTupleCount_ s !! tbl with None => 0%Z | Some n => n end.

Definition shouldAutoVacuum (s : State) (tbl : bytes) : bool :=
  if negb (autoVacuumEnabled_ s) then false
  else match deadTupleCount_ s !! tbl with
       | None => false
       | Some n => (autoVacuumThreshold_ s <=? n)%Z
       end.

Definition anyTableNeedsVacuum (s : State) : bool :=
  if negb (autoVacuumEnabled_ s) then false
  else existsb (fun kv => (autoVacuumThreshold_ s <=? kv.2)%Z) (str_iter (deadTupleCount_ s)).

Definition getTotalDeadTuples (s : State) : Z :=
  fold_left (fun total kv => u64 (total + kv.2)) (str_iter (deadTupleCount_ s)) 0%Z.

Definition recordVacuumRun (now : bytes) (freedRows freedBytes : Z) (automatic : bool) (s : State)
  : State :=
  mkState (deadTupleCount_ s) (lastVacuumTime_ s) (autoVacuumEnabled_ s) (autoVacuumThreshold_ s)
    (if automatic then u64 (autoVacuumCount_ s + 1) else autoVacuumCount_ s)
    (if automatic then now else lastAutoVacuumTime_ s)
    (u64 (vacuumRuns_ s + 1)) (u64 (totalFreedRows_ s + freedRows))
    (u64 (totalFreedBytes_ s + freedBytes)) freedRows freedBytes now.

(** The body of the background thread after its callback returned [cleaned]. *)
Definition afterAutoVacuum (now : bytes) (cleaned : Z) (s : State) : State :=
  if (0 <? cleaned)%Z then
    mkState ((fun _ => 0%Z) <$> deadTupleCount_ s)
      (((fun _ => now) <$> deadTupleCount_ s) ∪ lastVacuumTime_ s)
      (autoVacuumEnabled_ s) (autoVacuumThreshold_ s) (autoVacuumCount_ s) now
      (vacuumRuns_ s) (totalFreedRows_ s) (totalFreedBytes_ s) (lastFreedRows_ s)
      (lastFreedBytes_ s) (lastRunTime_ s)
  else s.

(** The background check fires exactly when some table is due. *)
Lemma anyTableNeedsVacuum_spec s :
  anyTableNeedsVacuum s = true <-> exists tbl, shouldAutoVacuum s tbl = true.
Proof.
  unfold anyTableNeedsVacuum, shouldAutoVacuum. destruct (autoVacuumEnabled_ s); cbn [negb].
  2:{ split; [done|]. by intros [? ?]. }
  rewrite existsb_exists. split.
  - intros ([tbl n] & Hin & Hn). apply list_elem_of_In, elem_of_map_iter in Hin.
    exists tbl. by rewrite Hin.
  - intros [tbl H]. destruct (deadTupleCount_ s !! tbl) as [n|] eqn:E; [|done].
    exists (tbl, n). split; [|done]. by apply list_elem_of_In, elem_of_map_iter.
Qed.
End VacuumManager.

(** ** [Engine::vacuumAllTracked] *)

Section vacuum_all.
Context {tree : Type} {RI : RowIndex tree}.
Import TransactionManager.
(** The memory estimate of a removed row (string capacities). *)
Context (row_bytes : Row -> Z).

Definition freed_bytes (isC : Z -> bool) (horizon : Z) (t : Table tree) : Z :=
  fold_left (fun b r => u64 (b + row_bytes r)) (List.filter (dead_version isC horizon) (rows_ t)) 0%Z.

(** One iteration over [tables_]: vacuum the table, add up, reset its counter. *)
Definition vacuum_one (now : bytes) (s : State) (acc : gmap bytes (Table tree) * Z * Z * VacuumManager.State)
    (kv : bytes * Table tree) : gmap bytes (Table tree) * Z * Z * VacuumManager.State :=
  let '(tables, total, totalBytes, vm) := acc in
  let '(name, tbl) := kv in
  let horizon := minActiveTxId s in
  let '(cleaned, tbl') := vacuum (isCommitted s) horizon tbl in
  (<[name := tbl']> tables, u64 (total + Z.of_nat cleaned),
   u64 (totalBytes + freed_bytes (isCommitted s) horizon tbl),
   VacuumManager.resetDeadTuples now name vm).

Definition vacuumAllTracked (automatic : bool) (now : bytes) (s : State)
    (tables : gmap bytes (Table tree)) (vm : VacuumManager.State)
  : Z * gmap bytes (Table tree) * VacuumManager.State :=
  let '(tables', total, totalBytes, vm') :=
    fold_left (vacuum_one now s) (str_iter tables) (tables, 0%Z, 0%Z, vm) in
  (total, tables', VacuumManager.recordVacuumRun now total totalBytes automatic vm').

Lemma vacuum_fold now s kvs tables a b vm :
  NoDup kvs.*1 ->
  let '(tables', _, _, vm') := fold_left (vacuum_one now s) kvs (tables, a, b, vm) in
  (forall name, (forall t, (name, t) ∉ kvs) -> tables' !! name = tables !! name /\
     VacuumManager.getDeadTupleCount vm' name = VacuumManager.getDeadTupleCount vm name) /\
  (forall name t, (name, t) ∈ kvs ->
     tables' !! name = Some (vacuum (isCommitted s) (minActiveTxId s) t).2 /\
     VacuumManager.getDeadTupleCount vm' name = 0%Z).
Proof.
  revert tables a b vm. induction kvs as [|[n0 t0] kvs IH]; intros tables a b vm Hnd.
  { simpl. split; [done|]. intros name t H. by apply not_elem_of_nil in H. }
  rewrite fmap_cons in Hnd. apply NoDup_cons in Hnd as [Hn0 Hnd].
  cbn [fold_left vacuum_one].
  destruct (vacuum (isCommitted s) (minActiveTxId s) t0) as [c0 t0'] eqn:Ev.
  specialize (IH (<[n0 := t0']> tables) (u64 (a + Z.of_nat c0))
    (u64 (b + freed_bytes (isCommitted s) (minActiveTxId s) t0))
    (VacuumManager.resetDeadTuples now n0 vm) Hnd).
  destruct (fold_left _ _ _) as [[[tables' a'] b'] vm']. destruct IH as [H1 H2].
  assert (forall t, (n0, t) ∉ kvs) as Hfresh.
  { intros t Hin. apply Hn0. by apply (list_elem_of_fmap_2 fst _ (n0, t)). }
  split.
  - intros name Hname. destruct (H1 name) as [Ha Hb].
    { intros t Hin. apply (Hname t). by right. }
    assert (name <> n0) as Hne by (intros ->; apply (Hname t0); by left).
    rewrite Ha, Hb, lookup_insert_ne by done. split; [done|].
    unfold VacuumManager.getDeadTupleCount. simpl. by rewrite lookup_insert_ne by done.
  - intros name t Hin. apply elem_of_cons in Hin as [[= -> ->]|Hin]; [|by apply H2].
    destruct (H1 n0 Hfresh) as [Ha Hb]. rewrite Ha, Hb, lookup_insert_eq, Ev. split; [done|].
    unfold VacuumManager.getDeadTupleCount. simpl. by rewrite lookup_insert_eq.
Qed.

(** [vacuumAllTracked] vacuums every table of the engine exactly once,
    leaves no other name in the map, and resets every table's dead-tuple
    counter. *)
Theorem vacuumAllTracked_spec automatic now s tables vm name :
  let '(_, tables', vm') := vacuumAllTracked automatic now s tables vm in
  tables' !! name = (fun t => (vacuum (isCommitted s) (minActiveTxId s) t).2) <$> tables !! name /\
  (is_Some (tables !! name) -> VacuumManager.getDeadTupleCount vm' name = 0%Z).
Proof.
  unfold vacuumAllTracked.
  pose proof (vacuum_fold now s (str_iter tables) tables 0%Z 0%Z vm
    (NoDup_fst_map_iter bytes_le tables)) as H.
  destruct (fold_left _ _ _) as [[[tables' a'] b'] vm']. destruct H as [H1 H2].
  destruct (tables !! name) as [t|] eqn:E; simpl.
  - destruct (H2 name t) as [Ha Hb]; [by apply elem_of_map_iter|]. by rewrite Ha.
  - destruct (H1 name) as [Ha Hb].
    { intros t Hin. apply elem_of_map_iter in Hin. congruence. }
    rewrite Ha, E. split; [done|]. intros [? ?]. congruence.
Qed.
End vacuum_all.

From S2P Require Import BTree.

Definition ex_mv_table : Table.Table BTree.BTree :=
  with_rows (Table.table (str "t") []) [mkRow [str "a"] 1 0; mkRow [str "b"] 0 1].

Lemma vacuum_safe_witness :
  mkRow [str "a"] 1 0 ∈
    rows_ (vacuum (TransactionManager.isCommitted (TransactionManager.h_state TransactionManager.ex_history))
             (TransactionManager.minActiveTxId (TransactionManager.h_state TransactionManager.ex_history))
             ex_mv_table).2.
Proof.
  apply (vacuum_safe TransactionManager.ex_history ex_mv_table (mkRow [str "a"] 1 0)).
  - exact TransactionManager.ex_history_reachable.
  - by_decide.
  - by_decide.
  - left. reflexivity.
Defined.
