(* ===== verification/Locks.v ===== *)
(** * Row and table locks ([src/locking/lock_manager.hpp], [src/lock_manager.hpp])

    Every method takes the mutex for its whole body, so a run is a sequence of
    calls by named threads.  The invariant is the mutual exclusion of table
    locks; the theorems show what a granted lock excludes. *)

From S2P Require Import Prelude.

Inductive LockType := READ | WRITE.

#[export] Instance LockType_eq_dec : EqDecision LockType.
Proof. solve_decision. Defined.

(** [std::thread::id] *)
Abbreviation tid := Z (only parsing).

Record TableLockEntry := mkEntry { holders : gset Z; type : LockType }.

Record LockManager := mkLockManager {
  rowLocks_ : gmap bytes Z; tableLocks_ : gmap bytes TableLockEntry }.

Definition initial : LockManager := mkLockManager ∅ ∅.

(** [table + ":" + rowKey] *)
Definition row_key (table rowKey : bytes) : bytes := table ++ 58%Z :: rowKey.

Definition acquireRowLock (t : tid) (table rowKey : bytes) (s : LockManager)
  : bool * LockManager :=
  let key := row_key table rowKey in
  match rowLocks_ s !! key with
  | None => (true, mkLockManager (<[key := t]> (rowLocks_ s)) (tableLocks_ s))
  | Some t' => ((t' =? t)%Z, s)
  end.

Definition set_table (table : bytes) (e : TableLockEntry) (s : LockManager) : LockManager :=
  mkLockManager (rowLocks_ s) (<[table := e]> (tableLocks_ s)).

Definition acquireTableLock (t : tid) (table : bytes) (ty : LockType) (s : LockManager)
  : bool * LockManager :=
  match tableLocks_ s !! table with
  | None => (true, set_table table (mkEntry {[t]} ty) s)
  | Some e =>
      if (size (holders e) =? 1) && bool_decide (t ∈ holders e)
      then (true, set_table table (mkEntry (holders e) ty) s)
      else if bool_decide (t ∈ holders e)
      then if bool_decide (ty = WRITE) then (size (holders e) =? 1, s) else (true, s)
      else if bool_decide (ty = READ) && bool_decide (type e = READ)
      then (true, set_table table (mkEntry ({[t]} ∪ holders e) (type e)) s)
      else (false, s)
  end.

Definition releaseRowLocks (t : tid) (s : LockManager) : LockManager :=
  mkLockManager (filter (fun kv => kv.2 <> t) (rowLocks_ s)) (tableLocks_ s).

(** Remove [t] from the holders and drop the entry if nobody is left. *)
Definition release_entry (t : tid) (e : TableLockEntry) : option TableLockEntry :=
  let h := holders e ∖ {[t]} in
  if bool_decide (h = ∅) then None else Some (mkEntry h (type e)).

Definition releaseTableLocks (t : tid) (s : LockManager) : LockManager :=
  mkLockManager (rowLocks_ s) (omap (release_entry t) (tableLocks_ s)).

Definition releaseAllLocks (t : tid) (s : LockManager) : LockManager :=
  mkLockManager (filter (fun kv => kv.2 <> t) (rowLocks_ s))
    (omap (release_entry t) (tableLocks_ s)).

Definition checkWriteAllowed (t : tid) (table : bytes) (s : LockManager) : bool :=
  match tableLocks_ s !! table with
  | None => true
  | Some e => (size (holders e) =? 1) && bool_decide (t ∈ holders e)
  end.

Definition checkReadAllowed (t : tid) (table : bytes) (s : LockManager) : bool :=
  match tableLocks_ s !! table with
  | None => true
  | Some e => if bool_decide (type e = READ) then true else bool_decide (t ∈ holders e)
  end.

(** ** Calls and runs *)

Inductive call :=
| CRow (table rowKey : bytes)
| CTable (table : bytes) (ty : LockType)
| CReleaseRows | CReleaseTables | CReleaseAll.

Definition perform (t : tid) (c : call) (s : LockManager) : bool * LockManager :=
  match c with
  | CRow table rowKey => acquireRowLock t table rowKey s
  | CTable table ty => acquireTableLock t table ty s
  | CReleaseRows => (true, releaseRowLocks t s)
  | CReleaseTables => (true, releaseTableLocks t s)
  | CReleaseAll => (true, releaseAllLocks t s)
  end.

Inductive reachable : LockManager -> Prop :=
| reach_init : reachable initial
| reach_call s t c : reachable s -> reachable (perform t c s).2.

(** ** Mutual exclusion *)

(** Every entry has a holder, and a WRITE entry has one only. *)
Definition exclusive (s : LockManager) : Prop :=
  map_Forall (fun _ e => holders e <> ∅ /\ (type e = WRITE -> size (holders e) = 1)) (tableLocks_ s).

Lemma release_entry_exclusive (t : Z) (m : gmap bytes TableLockEntry) :
  map_Forall (fun _ e => holders e <> ∅ /\ (type e = WRITE -> size (holders e) = 1)) m ->
  map_Forall (fun _ e => holders e <> ∅ /\ (type e = WRITE -> size (holders e) = 1))
    (omap (release_entry t) m).
Proof.
  intros H k e He. apply lookup_omap_Some in He as (e0 & He & Hk).
  destruct (H k e0 Hk) as [Hne Hw]. unfold release_entry in He.
  case_bool_decide as Hb; [done|]. injection He as <-. simpl. split; [done|].
  intros Ht. specialize (Hw Ht). apply size_1_elem_of in Hw as [x Hx].
  assert (holders e0 ∖ {[t]} = holders e0) as ->; [|rewrite Hx; apply size_singleton].
  destruct (decide (x = t)); set_solver.
Qed.

Lemma perform_exclusive t c s : exclusive s -> exclusive (perform t c s).2.
Proof.
  intros H. destruct c as [tb rk|tb ty| | |]; cbn [perform snd].
  - unfold acquireRowLock. by destruct (rowLocks_ s !! _).
  - unfold acquireTableLock. destruct (tableLocks_ s !! tb) as [e|] eqn:E.
    + destruct (H tb e E) as [Hne Hw]. case_if; [|case_if; [case_if; done|case_if; [|done]]].
      * apply map_Forall_insert_2; [|done]. simpl. split; [done|]. intros _. to_prop. done.
      * apply map_Forall_insert_2; [|done]. simpl. to_prop.
        repeat match goal with Hb : bool_decide _ = true |- _ => apply bool_decide_eq_true in Hb end.
        split; [set_solver|]. congruence.
    + apply map_Forall_insert_2; [|done]. cbn [holders type]. split; [set_solver|]. intros _. by rewrite size_singleton.
  - done.
  - by apply release_entry_exclusive.
  - by apply release_entry_exclusive.
Qed.

Lemma reachable_exclusive s : reachable s -> exclusive s.
Proof. induction 1; [apply map_Forall_empty|by apply perform_exclusive]. Qed.

(** Thread [t] holds the lock on [table]. *)
Definition holds (s : LockManager) (table : bytes) (t : tid) (ty : LockType) : Prop :=
  exists e, tableLocks_ s !! table = Some e /\ t ∈ holders e /\ type e = ty.

(** Mutual exclusion: in every reachable state of the lock manager, when
    a thread holds a table for writing no other thread holds it at all, the
    checks before a read or a write turn every other thread away, and nobody
    else can acquire it. *)
Theorem write_lock_excludes s table t t' ty :
  reachable s -> holds s table t WRITE -> t' <> t ->
  ~ holds s table t' ty /\
  checkReadAllowed t' table s = false /\ checkWriteAllowed t' table s = false /\
  acquireTableLock t' table ty s = (false, s).
Proof.
  intros Hr (e & He & Ht & Hty) Hne. destruct (reachable_exclusive s Hr table e He) as [_ Hw].
  specialize (Hw Hty). apply size_1_elem_of in Hw as [x Hx].
  assert (t' ∉ holders e) as Hn.
  { rewrite Hx in *. apply elem_of_singleton in Ht as ->. intros H. by apply elem_of_singleton in H. }
  unfold checkReadAllowed, checkWriteAllowed, acquireTableLock, holds. rewrite He, Hty.
  rewrite (bool_decide_false (t' ∈ holders e)) by done. rewrite !andb_false_r.
  rewrite !bool_decide_false by done. rewrite ?andb_false_r. split_and!; try done.
  intros (e' & He' & Hin & _). congruence.
Qed.

(** A successful request leaves the caller holding the table in the requested
    mode, or, for READ, in some mode; a refused one changes nothing. *)
Lemma acquireTableLock_spec t table ty s :
  match acquireTableLock t table ty s with
  | (true, s') => exists e, tableLocks_ s' !! table = Some e /\ t ∈ holders e /\
                    (ty = WRITE -> type e = WRITE \/ size (holders e) = 1)
  | (false, s') => s' = s
  end.
Proof.
  unfold acquireTableLock. destruct (tableLocks_ s !! table) as [e|] eqn:E.
  - case_if.
    { apply bool_decide_eq_true in H0. eexists. simpl. rewrite lookup_insert_eq.
      split_and!; [done|done|]. simpl. auto. }
    case_if.
    + apply bool_decide_eq_true in E1. case_if.
      * destruct (Nat.eqb_spec (size (holders e)) 1); [|done]. eauto.
      * apply bool_decide_eq_false in E2. exists e. split_and!; [done|done|congruence].
    + case_if; [|done]. eexists. simpl. rewrite lookup_insert_eq. split_and!; [done|set_solver|].
      simpl. to_prop.
      repeat match goal with Hb : bool_decide _ = true |- _ => apply bool_decide_eq_true in Hb end.
      congruence.
  - eexists. simpl. rewrite lookup_insert_eq. split_and!; [done|set_solver|]. simpl. auto.
Qed.

(** Releasing all locks of a thread leaves it with none, keeps every
    lock of the other threads, and grants no new one. *)
Theorem releaseAllLocks_spec t s table t' key :
  exclusive s ->
  let s' := releaseAllLocks t s in
  rowLocks_ s' !! key = (if bool_decide (rowLocks_ s !! key = Some t) then None else rowLocks_ s !! key) /\
  (forall ty, holds s' table t' ty <-> holds s table t' ty /\ t' <> t).
Proof.
  intros Hx s'. unfold s', releaseAllLocks, holds. simpl. split.
  - destruct (rowLocks_ s !! key) as [x|] eqn:E.
    + case_bool_decide as Hb.
      * injection Hb as ->. apply map_lookup_filter_None. right. intros x Hxx. simpl. congruence.
      * apply map_lookup_filter_Some. split; [done|]. simpl. congruence.
    + rewrite bool_decide_false by done. apply map_lookup_filter_None. by left.
  - intros ty. split.
    + intros (e & He & Hin & Hty). apply lookup_omap_Some in He as (e0 & He & Hk).
      unfold release_entry in He. case_bool_decide; [done|]. injection He as <-. simpl in *.
      split; [|set_solver]. exists e0. split_and!; [done|set_solver|done].
    + intros [(e & He & Hin & Hty) Hne]. exists (mkEntry (holders e ∖ {[t]}) (type e)).
      split_and!; [|simpl; set_solver|done]. apply lookup_omap_Some. exists e. split; [|done].
      unfold release_entry. rewrite bool_decide_false; [done|]. set_solver.
Qed.

(** Row locks: a key has one owner until that owner releases it. *)
Lemma acquireRowLock_spec t table rowKey s :
  let key := row_key table rowKey in
  match acquireRowLock t table rowKey s with
  | (true, s') => rowLocks_ s' !! key = Some t /\
                  (forall k, k <> key -> rowLocks_ s' !! k = rowLocks_ s !! k)
  | (false, s') => s' = s /\ exists t', t' <> t /\ rowLocks_ s !! key = Some t'
  end.
Proof.
  intros key. unfold acquireRowLock. fold key. destruct (rowLocks_ s !! key) as [t'|] eqn:E.
  - destruct (Z.eqb_spec t' t) as [->|]; [done|]. eauto.
  - simpl. split; [apply lookup_insert_eq|]. intros k Hk. by apply lookup_insert_ne.
Qed.

Definition ex_locked : LockManager := (perform 1 (CTable (str "t") WRITE) initial).2.

Lemma write_lock_excludes_witness :
  checkReadAllowed 2 (str "t") ex_locked = false /\
  acquireTableLock 2 (str "t") READ ex_locked = (false, ex_locked).
Proof.
  destruct (write_lock_excludes ex_locked (str "t") 1 2 READ) as (_ & H1 & _ & H2).
  - apply reach_call, reach_init.
  - exists (mkEntry {[1%Z]} WRITE). split_and!; [reflexivity|set_solver|reflexivity].
  - done.
  - by split.
Defined.

Lemma releaseAllLocks_spec_witness :
  exclusive ex_locked /\ ~ holds (releaseAllLocks 1 ex_locked) (str "t") 1 WRITE.
Proof.
  assert (exclusive ex_locked) as H by (apply perform_exclusive, map_Forall_empty).
  split; [exact H|]. destruct (releaseAllLocks_spec 1 ex_locked (str "t") 1 [] H) as [_ H2].
  intros Hh. apply H2 in Hh. destruct Hh as [_ Hne]. by apply Hne.
Defined.

(** A WRITE holder that asks for READ silently loses the write lock. *)
Lemma reacquire_downgrades :
  let s := (acquireTableLock 1 (str "t") READ ex_locked).2 in
  checkReadAllowed 2 (str "t") ex_locked = false /\ checkReadAllowed 2 (str "t") s = true /\
  (acquireTableLock 2 (str "t") READ s).1 = true.
Proof. vm_compute. done. Qed.

(** Different rows can share a lock key. *)
Lemma row_key_collision :
  row_key (str "a") (str "b:c") = row_key (str "a:b") (str "c").
Proof. reflexivity. Qed.
