(* ===== verification/Crc32.v ===== *)
(** * CRC-32 ([Engine::walCrc32], [WalRecovery::walCrc32], [dwbCrc32])

    The bit-by-bit checksum that guards commit records and double-written
    pages, and the proof that it detects every error burst of at most 32 bits. *)

From S2P Require Import Prelude.

Definition POLY : Z := 0xEDB88320.

(** The inner loop: [n] rounds on the register and the remaining bits of the byte. *)
Fixpoint crc_rounds (n : nat) (crc c : Z) : Z :=
  match n with
  | O => crc
  | S n' =>
      let xorBit := negb (Z.land (Z.lxor crc c) 1 =? 0)%Z in
      let crc := Z.shiftr crc 1 in
      let crc := if xorBit then Z.lxor crc POLY else crc in
      crc_rounds n' crc (Z.shiftr c 1)
  end.

Definition crc_byte (crc c : Z) : Z := crc_rounds 8 crc c.

Definition crc32 (s : bytes) : Z :=
  Z.lxor (fold_left crc_byte s 0xFFFFFFFF%Z) 0xFFFFFFFF%Z.

(** ** One bit at a time *)

Definition crc_bit (crc : Z) (b : bool) : Z :=
  Z.lxor (Z.shiftr crc 1) (if xorb (Z.odd crc) b then POLY else 0%Z).

(** The bits of a byte, least significant first. *)
Fixpoint bits_of (n : nat) (c : Z) : list bool :=
  match n with O => [] | S n' => Z.odd c :: bits_of n' (Z.shiftr c 1) end.

Lemma odd_lxor a b : Z.odd (Z.lxor a b) = xorb (Z.odd a) (Z.odd b).
Proof. by rewrite <- !Z.bit0_odd, Z.lxor_spec. Qed.

Lemma crc_rounds_bits n crc c : crc_rounds n crc c = fold_left crc_bit (bits_of n c) crc.
Proof.
  revert crc c. induction n as [|n IH]; intros crc c; [done|]. cbn [crc_rounds bits_of fold_left].
  rewrite IH. f_equal. unfold crc_bit.
  change 1%Z with (Z.ones 1) at 1. rewrite Z.land_ones by lia. change (2 ^ 1)%Z with 2%Z.
  rewrite Zmod_odd, odd_lxor. destruct (xorb (Z.odd crc) (Z.odd c)); simpl; [done|].
  by rewrite Z.lxor_0_r.
Qed.

Definition byte_bits (s : bytes) : list bool := mjoin (map (bits_of 8) s).

Lemma byte_bits_cons c s : byte_bits (c :: s) = bits_of 8 c ++ byte_bits s.
Proof. unfold byte_bits. cbn [map]. apply mjoin_cons. Qed.

Lemma byte_bits_app s1 s2 : byte_bits (s1 ++ s2) = byte_bits s1 ++ byte_bits s2.
Proof.
  induction s1 as [|c s1 IH]; [done|].
  by rewrite <- app_comm_cons, !byte_bits_cons, IH, app_assoc.
Qed.

Lemma crc_bytes_bits s crc :
  fold_left crc_byte s crc = fold_left crc_bit (byte_bits s) crc.
Proof.
  revert crc. induction s as [|c s IH]; intros crc; [done|]. cbn [fold_left].
  rewrite byte_bits_cons, fold_left_app, IH. unfold crc_byte. by rewrite crc_rounds_bits.
Qed.

Lemma length_bits_of n c : length (bits_of n c) = n.
Proof. revert c. induction n; intros; simpl; auto. Qed.

Lemma bits_of_inj n a b :
  (0 <= a < 2 ^ Z.of_nat n)%Z -> (0 <= b < 2 ^ Z.of_nat n)%Z -> bits_of n a = bits_of n b -> a = b.
Proof.
  revert a b. induction n as [|n IH]; intros a b Ha Hb H.
  { change (2 ^ Z.of_nat 0)%Z with 1%Z in *. lia. }
  injection H as Ho Hr.
  replace (Z.of_nat (S n)) with (1 + Z.of_nat n)%Z in * by lia.
  rewrite Z.pow_add_r in * by lia. change (2 ^ 1)%Z with 2%Z in *.
  rewrite !Z.shiftr_div_pow2 in Hr by lia. change (2 ^ 1)%Z with 2%Z in *.
  apply IH in Hr.
  - pose proof (Z.div_mod a 2 ltac:(lia)). pose proof (Z.div_mod b 2 ltac:(lia)).
    rewrite !Zmod_odd, Ho, Hr in *. lia.
  - split; [apply Z.div_pos; lia|apply Z.div_lt_upper_bound; lia].
  - split; [apply Z.div_pos; lia|apply Z.div_lt_upper_bound; lia].
Qed.

(** ** The difference of two runs *)

Lemma crc_bit_lxor c1 c2 b1 b2 :
  Z.lxor (crc_bit c1 b1) (crc_bit c2 b2) = crc_bit (Z.lxor c1 c2) (xorb b1 b2).
Proof.
  unfold crc_bit. rewrite Z.shiftr_lxor, odd_lxor.
  apply Z.bits_inj'. intros i Hi. rewrite !Z.lxor_spec.
  destruct (Z.odd c1), (Z.odd c2), b1, b2; cbn [xorb];
    rewrite ?Z.bits_0; destruct (Z.testbit (Z.shiftr c1 1) i), (Z.testbit (Z.shiftr c2 1) i),
      (Z.testbit POLY i); done.
Qed.

Lemma crc_run_lxor bs1 bs2 c1 c2 :
  length bs1 = length bs2 ->
  Z.lxor (fold_left crc_bit bs1 c1) (fold_left crc_bit bs2 c2) =
  fold_left crc_bit (zip_with xorb bs1 bs2) (Z.lxor c1 c2).
Proof.
  revert bs2 c1 c2. induction bs1 as [|b1 bs1 IH]; intros [|b2 bs2] c1 c2 Hl; try done.
  cbn [fold_left zip_with]. rewrite IH by (simpl in Hl; lia). by rewrite crc_bit_lxor.
Qed.

Lemma crc_bit_range d b : (0 <= d < 2 ^ 32)%Z -> (0 <= crc_bit d b < 2 ^ 32)%Z.
Proof.
  intros Hd. unfold crc_bit. apply lxor_bound; [lia| |].
  - rewrite Z.shiftr_div_pow2 by lia. change (2 ^ 1)%Z with 2%Z.
    split; [apply Z.div_pos; lia|apply Z.div_lt_upper_bound; lia].
  - unfold POLY. destruct (xorb _ _); lia.
Qed.

(** Adding the polynomial sets the top bit. *)
Lemma crc_bit_top d b :
  (0 <= d < 2 ^ 32)%Z -> xorb (Z.odd d) b = true -> (2 ^ 31 <= crc_bit d b)%Z.
Proof.
  intros Hd Hx. pose proof (crc_bit_range d b Hd) as Hr.
  destruct (Z.lt_ge_cases (crc_bit d b) (2 ^ 31)) as [Hlt|]; [|done]. exfalso.
  assert (Z.testbit (crc_bit d b) 31 = true) as Ht.
  { unfold crc_bit. rewrite Hx, Z.lxor_spec, Z.shiftr_spec by lia.
    change (Z.testbit POLY 31) with true. change (31 + 1)%Z with 32%Z.
    assert (Z.testbit d 32 = false) as ->; [|done].
    rewrite Z.testbit_false by lia. rewrite Z.div_small by lia. done. }
  rewrite Z.testbit_true in Ht by lia. rewrite Z.div_small in Ht by lia. done.
Qed.

(** A difference with a bit at position [n] or above keeps one at [n - 1]. *)
Lemma crc_bit_high d b n :
  (0 <= d < 2 ^ 32)%Z -> (0 <= n <= 31)%Z -> (2 ^ (n + 1) <= d)%Z -> (2 ^ n <= crc_bit d b)%Z.
Proof.
  intros Hd Hn Hh. destruct (xorb (Z.odd d) b) eqn:E.
  - pose proof (crc_bit_top d b Hd E). transitivity (2 ^ 31)%Z; [|done].
    apply Z.pow_le_mono_r; lia.
  - unfold crc_bit. rewrite E, Z.lxor_0_r, Z.shiftr_div_pow2 by lia.
    change (2 ^ 1)%Z with 2%Z. rewrite Z.pow_add_r in Hh by lia.
    apply Z.div_le_lower_bound; lia.
Qed.

Lemma crc_run_high bs d n :
  (0 <= d < 2 ^ 32)%Z -> (Z.of_nat (length bs) <= n <= 31)%Z -> (2 ^ n <= d)%Z ->
  (0 < fold_left crc_bit bs d < 2 ^ 32)%Z.
Proof.
  revert d n. induction bs as [|b bs IH]; intros d n Hd Hn Hh; cbn [fold_left].
  { pose proof (Z.pow_pos_nonneg 2 n). lia. }
  cbn [length] in Hn. apply (IH _ (n - 1)%Z).
  - by apply crc_bit_range.
  - lia.
  - apply crc_bit_high; [done|lia|]. by replace (n - 1 + 1)%Z with n by lia.
Qed.

(** Bits that agree do not cancel a difference. *)
Lemma crc_run_agree bs d :
  Forall (fun b => b = false) bs -> (0 < d < 2 ^ 32)%Z -> (0 < fold_left crc_bit bs d < 2 ^ 32)%Z.
Proof.
  intros Hb. revert d. induction Hb as [|b bs -> _ IH]; intros d Hd; cbn [fold_left]; [done|].
  apply IH. pose proof (crc_bit_range d false ltac:(lia)) as Hr.
  destruct (Z.odd d) eqn:E.
  - pose proof (crc_bit_top d false ltac:(lia)) as Ht. rewrite E in Ht.
    specialize (Ht eq_refl). lia.
  - split; [|lia]. unfold crc_bit in *. rewrite E in *. cbn [xorb] in *.
    rewrite Z.lxor_0_r, Z.shiftr_div_pow2 in * by lia. change (2 ^ 1)%Z with 2%Z in *.
    apply Z.div_str_pos. split; [lia|]. destruct (Z.eq_dec d 1%Z) as [->|]; [done|lia].
Qed.

(** A burst of at most 32 bits leaves a difference. *)
Lemma crc_run_burst bs :
  length bs <= 32 -> Exists (fun b => b = true) bs -> (0 < fold_left crc_bit bs 0 < 2 ^ 32)%Z.
Proof.
  induction bs as [|b bs IH]; intros Hl He; [by apply Exists_nil in He|].
  cbn [fold_left length] in *. destruct b.
  - apply (crc_run_high bs _ 31).
    + apply crc_bit_range. lia.
    + lia.
    + apply crc_bit_top; [lia|done].
  - apply Exists_cons in He as [|He]; [done|]. apply IH; [lia|done].
Qed.

Lemma zip_xorb_self bs : Forall (fun b => b = false) (zip_with xorb bs bs).
Proof. induction bs as [|b bs IH]; simpl; constructor; [by destruct b|done]. Qed.

Lemma zip_xorb_diff bs1 bs2 :
  length bs1 = length bs2 -> bs1 <> bs2 -> Exists (fun b => b = true) (zip_with xorb bs1 bs2).
Proof.
  revert bs2. induction bs1 as [|b1 bs1 IH]; intros [|b2 bs2] Hl Hne; try done.
  simpl. destruct (decide (b1 = b2)) as [->|Hb].
  - right. apply IH; [simpl in Hl; lia|congruence].
  - left. by destruct b1, b2.
Qed.

Lemma byte_bits_inj a b :
  wf_bytes a -> wf_bytes b -> length a = length b ->
  byte_bits a = byte_bits b -> a = b.
Proof.
  intros Ha. revert b. induction Ha as [|x a Hx Ha IH]; intros [|y b] Hb Hl H; try done.
  apply Forall_cons in Hb as [Hy Hb]. rewrite !byte_bits_cons in H.
  apply app_inj_1 in H as [H1 H2]; [|by rewrite !length_bits_of].
  f_equal; [|apply IH; [done|simpl in Hl; lia|done]]. by apply (bits_of_inj 8).
Qed.

Lemma length_byte_bits a : length (byte_bits a) = 8 * length a.
Proof.
  induction a as [|x a IH]; [done|]. rewrite byte_bits_cons, length_app, length_bits_of, IH.
  cbn [length]. lia.
Qed.

(** The checksum detects every corruption confined to four consecutive
    bytes: the messages [pre ++ a ++ post] and [pre ++ b ++ post] with
    different [a] and [b] of equal length at most 4 have different CRCs. *)
Theorem crc32_burst pre a b post :
  wf_bytes a -> wf_bytes b -> length a = length b -> length a <= 4 -> a <> b ->
  crc32 (pre ++ a ++ post) <> crc32 (pre ++ b ++ post).
Proof.
  intros Ha Hb Hl H4 Hne He. unfold crc32 in He.
  apply (f_equal (fun z => Z.lxor z 0xFFFFFFFF%Z)) in He.
  rewrite !Z.lxor_assoc, Z.lxor_nilpotent, !Z.lxor_0_r, !crc_bytes_bits in He.
  rewrite !byte_bits_app, !fold_left_app in He.
  set (c := fold_left crc_bit (byte_bits pre) 0xFFFFFFFF%Z) in *.
  assert (length (byte_bits a) = length (byte_bits b)) as Hlen by (by rewrite !length_byte_bits, Hl).
  rewrite <- Z.lxor_eq_0_iff, crc_run_lxor in He by done.
  rewrite crc_run_lxor, Z.lxor_nilpotent in He by done.
  assert (0 < fold_left crc_bit (zip_with xorb (byte_bits a) (byte_bits b)) 0 < 2 ^ 32)%Z as Hd.
  { apply crc_run_burst.
    - rewrite length_zip_with, <- Hlen, length_byte_bits. lia.
    - apply zip_xorb_diff; [done|]. intros E. apply Hne. by apply byte_bits_inj. }
  pose proof (crc_run_agree _ _ (zip_xorb_self (byte_bits post)) Hd). lia.
Qed.

Lemma crc32_burst_witness : crc32 (str "TX_COMMIT:17") <> crc32 (str "TX_COMMIT:71").
Proof.
  apply (crc32_burst (str "TX_COMMIT:") (str "17") (str "71") []).
  - by_decide.
  - by_decide.
  - reflexivity.
  - by_decide.
  - by_decide.
Defined.

(** The standard check value. *)
Example crc32_check : crc32 (str "123456789") = 0xCBF43926%Z.
Proof. vm_compute. reflexivity. Qed.

Lemma crc_run_range bs d : (0 <= d < 2 ^ 32)%Z -> (0 <= fold_left crc_bit bs d < 2 ^ 32)%Z.
Proof.
  revert d. induction bs as [|b bs IH]; intros d Hd; [done|]. cbn [fold_left].
  by apply IH, crc_bit_range.
Qed.

Lemma crc32_range s : (0 <= crc32 s < 2 ^ 32)%Z.
Proof.
  unfold crc32. rewrite crc_bytes_bits. apply lxor_bound; [lia| |lia]. apply crc_run_range. lia.
Qed.
