(* ===== verification/Wal.v ===== *)
(** * The write-ahead log: writing, scanning, replaying
      ([src/engine/engine.hpp] [appendWal], [src/wal/wal_recovery.hpp])

    The log is a text file.  [op_lines] and [tx_lines] are what a session
    appends, [scanWal] the reader's state machine, [parseOpBlock] the decoder
    of one operation and [recover] the replay.  The theorems compose them: a
    log written by the engine is replayed exactly. *)

From S2P Require Import Prelude Crc32.

(** ** Escaping of values *)

Definition BSLASH : byte := 92.
Definition CR : byte := 13.

Fixpoint walEscape (s : bytes) : bytes :=
  match s with
  | [] => []
  | c :: s' =>
      (if (c =? BSLASH)%Z then [BSLASH; BSLASH]
       else if (c =? NL)%Z then [BSLASH; 110%Z]
       else if (c =? CR)%Z then [BSLASH; 114%Z]
       else [c]) ++ walEscape s'
  end.

Fixpoint walUnescape (s : bytes) : bytes :=
  match s with
  | [] => []
  | c :: s' =>
      match s' with
      | n :: s'' =>
          if (c =? BSLASH)%Z then
            if (n =? 110)%Z then NL :: walUnescape s''
            else if (n =? 114)%Z then CR :: walUnescape s''
            else if (n =? BSLASH)%Z then BSLASH :: walUnescape s''
            else c :: walUnescape s'
          else c :: walUnescape s'
      | [] => [c]
      end
  end.

(** ** Buffered operations and their log records *)

Inductive OpType := INSERT | UPDATE_WHERE | UPDATE_ALL | DELETE_WHERE | DELETE_ALL | ALTER.

(** [static_cast<int>] of the enumerators and back; other integers are outside
    the enumeration. *)
Definition op_code (t : OpType) : Z :=
  match t with
  | INSERT => 0 | UPDATE_WHERE => 1 | UPDATE_ALL => 2
  | DELETE_WHERE => 3 | DELETE_ALL => 4 | ALTER => 5
  end%Z.
Definition op_of_code (z : Z) : option OpType :=
  (if z =? 0 then Some INSERT else if z =? 1 then Some UPDATE_WHERE
   else if z =? 2 then Some UPDATE_ALL else if z =? 3 then Some DELETE_WHERE
   else if z =? 4 then Some DELETE_ALL else if z =? 5 then Some ALTER else None)%Z.

(** [opType] is [None] while it holds no enumerator of the type. *)
Record BufferedOp := mkOp {
  opType : option OpType; tableName : bytes; op_values : list bytes;
  setCol : bytes; setVal : bytes; whereCol : bytes; whereVal : bytes;
  alterOp : bytes; alterColName : bytes; alterColType : bytes; alterColNew : bytes }.

(** [BufferedOp{}] zero-initialises the enumerator. *)
Definition empty_op : BufferedOp := mkOp (Some INSERT) [] [] [] [] [] [] [] [] [] [].

Definition SP : byte := 32.

(** The lines [appendWal] writes for one operation. *)
Definition op_lines (op : BufferedOp) : list bytes :=
  [str "OP " ++ to_string (default 0%Z (op_code <$> opType op)) ++ SP :: tableName op]
  ++ map (fun v => str "VAL " ++ walEscape v) (op_values op)
  ++ (if bool_decide (setCol op = []) then []
      else [str "SET " ++ setCol op ++ SP :: walEscape (setVal op)])
  ++ (if bool_decide (whereCol op = []) then []
      else [str "WHERE " ++ whereCol op ++ SP :: walEscape (whereVal op)])
  ++ (if bool_decide (alterOp op = []) then []
      else [str "ALTER " ++ alterOp op ++ SP :: alterColName op ++ SP :: alterColType op
              ++ SP :: alterColNew op])
  ++ [str "---"].

Definition appendWal (op : BufferedOp) (file : bytes) : bytes := file ++ unlines (op_lines op).

(** ** Decoding one block *)

Definition set_type (t : option OpType) (tbl : bytes) (op : BufferedOp) : BufferedOp :=
  mkOp t tbl (op_values op) (setCol op) (setVal op) (whereCol op) (whereVal op)
    (alterOp op) (alterColName op) (alterColType op) (alterColNew op).
Definition push_val (v : bytes) (op : BufferedOp) : BufferedOp :=
  mkOp (opType op) (tableName op) (op_values op ++ [v]) (setCol op) (setVal op) (whereCol op)
    (whereVal op) (alterOp op) (alterColName op) (alterColType op) (alterColNew op).
Definition set_set (c v : bytes) (op : BufferedOp) : BufferedOp :=
  mkOp (opType op) (tableName op) (op_values op) c v (whereCol op) (whereVal op)
    (alterOp op) (alterColName op) (alterColType op) (alterColNew op).
Definition set_where (c v : bytes) (op : BufferedOp) : BufferedOp :=
  mkOp (opType op) (tableName op) (op_values op) (setCol op) (setVal op) c v
    (alterOp op) (alterColName op) (alterColType op) (alterColNew op).
Definition set_alter (w : list bytes) (op : BufferedOp) : BufferedOp :=
  let get i old := default old (w !! i) in
  mkOp (opType op) (tableName op) (op_values op) (setCol op) (setVal op) (whereCol op) (whereVal op)
    (get 0 (alterOp op)) (get 1 (alterColName op)) (get 2 (alterColType op))
    (get 3 (alterColNew op)).

(** The state is the operation built so far and [hasOp]. *)
Definition parse_line (acc : BufferedOp * bool) (line : bytes) : BufferedOp * bool :=
  let '(op, hasOp) := acc in
  if has_prefix (str "OP ") line then
    let rest := drop 3 line in
    match find_char SP rest with
    | None => (op, hasOp)
    | Some sp =>
        match stoi (take sp rest) with
        | None => (op, hasOp)
        | Some z => (set_type (op_of_code z) (drop (S sp) rest) op, true)
        end
    end
  else if has_prefix (str "VAL ") line then (push_val (walUnescape (drop 4 line)) op, hasOp)
  else if has_prefix (str "SET ") line then
    let rest := drop 4 line in
    match find_char SP rest with
    | None => (set_set rest (setVal op) op, hasOp)
    | Some sp => (set_set (take sp rest) (walUnescape (drop (S sp) rest)) op, hasOp)
    end
  else if has_prefix (str "WHERE ") line then
    let rest := drop 6 line in
    match find_char SP rest with
    | None => (set_where rest (whereVal op) op, hasOp)
    | Some sp => (set_where (take sp rest) (walUnescape (drop (S sp) rest)) op, hasOp)
    end
  else if has_prefix (str "ALTER ") line then (set_alter (words (drop 6 line)) op, hasOp)
  else (op, hasOp).

Definition parseOpBlock (block : list bytes) : BufferedOp * bool :=
  fold_left parse_line block (empty_op, false).

(** ** Scanning the file *)

Record WalTxEntry := mkTx {
  txId : Z; committed : bool; rolledBack : bool; opBlocks : list (list bytes) }.

(** [cur] says whether [current] points at the last entry of [txs]. *)
Record Scan := mkScan {
  txs : list WalTxEntry; cur : bool; block : list bytes; pending : gmap Z bytes }.

Definition set_committed (b : bool) (e : WalTxEntry) : WalTxEntry :=
  mkTx (txId e) b (rolledBack e) (opBlocks e).
Definition set_rolledBack (e : WalTxEntry) : WalTxEntry :=
  mkTx (txId e) (committed e) true (opBlocks e).
Definition push_block (b : list bytes) (e : WalTxEntry) : WalTxEntry :=
  mkTx (txId e) (committed e) (rolledBack e) (opBlocks e ++ [b]).

(** Change the first entry with this number. *)
Fixpoint mark (id : Z) (f : WalTxEntry -> WalTxEntry) (l : list WalTxEntry) : list WalTxEntry :=
  match l with
  | [] => []
  | e :: l' => if (txId e =? id)%Z then f e :: l' else e :: mark id f l'
  end.

Definition map_last {A} (f : A -> A) (l : list A) : list A := alter f (length l - 1) l.

Definition strip_cr (line : bytes) : bytes :=
  match line with
  | [] => []
  | _ => if (List.last line 0 =? CR)%Z then removelast line else line
  end.

(** [try { id = stoull(...) } catch (...) {}] with [id] initially 0 *)
Definition number (s : bytes) : Z := default 0%Z (stoull s).

Definition scan_line (s : Scan) (raw : bytes) : Scan :=
  let line := strip_cr raw in
  if bool_decide (line = []) then s
  else if has_prefix (str "TX_BEGIN:") line then
    mkScan (txs s ++ [mkTx (number (drop 9 line)) false false []]) true [] (pending s)
  else if has_prefix (str "TX_COMMIT:") line then
    let id := number (drop 10 line) in
    mkScan (mark id (set_committed true) (txs s)) false [] (<[id := line]> (pending s))
  else if has_prefix (str "CRC:") line then
    let expectedCrc := u32 (number (drop 4 line)) in
    match List.last (map Some (int_iter (pending s))) None with
    | None => s
    | Some (id, commit) =>
        mkScan (if (crc32 commit =? expectedCrc)%Z then txs s
                else mark id (set_committed false) (txs s))
          (cur s) (block s) (delete id (pending s))
    end
  else if has_prefix (str "TX_ROLLBACK:") line then
    mkScan (mark (number (drop 12 line)) set_rolledBack (txs s)) false [] (pending s)
  else if cur s then
    if bytes_eqb line (str "---") then
      if bool_decide (block s = []) then s
      else mkScan (map_last (push_block (block s)) (txs s)) true [] (pending s)
    else mkScan (txs s) true (block s ++ [line]) (pending s)
  else s.

Definition scan_lines (s : Scan) (ls : list bytes) : Scan := fold_left scan_line ls s.

Definition scan_init : Scan := mkScan [] false [] ∅.

Definition scanWal (file : bytes) : list WalTxEntry := txs (scan_lines scan_init (lines file)).

(** ** Replaying *)

Record RecoveryResult := mkResult {
  recoveredTxCount : Z; discardedTxCount : Z; replayedOpCount : Z }.

Section recover.
Context {engine : Type}.
(** [engine.applyBufferedOp(op)]: whether it returned, and the engine after. *)
Context (applyBufferedOp : BufferedOp -> engine -> bool * engine).

Definition replay_block (acc : engine * Z) (blk : list bytes) : engine * Z :=
  let '(e, n) := acc in
  let '(op, hasOp) := parseOpBlock blk in
  if hasOp then
    let '(ok, e') := applyBufferedOp op e in (e', if ok then (n + 1)%Z else n)
  else (e, n).

Definition replay_tx (acc : engine * Z) (tx : WalTxEntry) : engine * Z :=
  if committed tx then fold_left replay_block (opBlocks tx) acc else acc.

(** [recover] on an existing WAL file; the file is removed afterwards. *)
Definition recover (file : bytes) (e : engine) : RecoveryResult * engine :=
  let txList := scanWal file in
  let recovered := length (List.filter committed txList) in
  let discarded := length (List.filter (fun tx =>
    negb (committed tx) && negb (rolledBack tx) && negb (bool_decide (opBlocks tx = []))) txList) in
  let '(e', n) := fold_left replay_tx txList (e, 0%Z) in
  (mkResult (Z.of_nat recovered) (Z.of_nat discarded) n, e').
End recover.

(** ** What the engine writes for a transaction *)

Inductive outcome :=
| Committed (ts : Z)
| RolledBack
| Open (tail : list bytes).   (* the crash left these lines of a last record *)

Record TxLog := mkTxLog { l_id : Z; l_ts : Z; l_ops : list BufferedOp; l_end : outcome }.

Definition commit_line (id : Z) : bytes := str "TX_COMMIT:" ++ to_string id.

Definition end_lines (id : Z) (o : outcome) : list bytes :=
  match o with
  | Committed ts =>
      [commit_line id; str "TS:" ++ to_string ts; str "CRC:" ++ to_string (crc32 (commit_line id))]
  | RolledBack => [str "TX_ROLLBACK:" ++ to_string id]
  | Open tail => tail
  end.

Definition tx_lines (l : TxLog) : list bytes :=
  [str "TX_BEGIN:" ++ to_string (l_id l); str "TS:" ++ to_string (l_ts l)]
  ++ mjoin (map op_lines (l_ops l)) ++ end_lines (l_id l) (l_end l).

(** ** Escaping *)

Lemma walUnescape_plain c s :
  c <> BSLASH -> walUnescape (c :: s) = c :: walUnescape s.
Proof.
  intros H. cbn [walUnescape]. rewrite (proj2 (Z.eqb_neq c BSLASH)) by done. by destruct s.
Qed.

Lemma unescape_escape s :
  walUnescape (walEscape s) = s /\ Forall (fun c => c <> NL /\ c <> CR) (walEscape s).
Proof.
  induction s as [|c s [IH1 IH2]]; [by split|]. cbn [walEscape].
  destruct (Z.eqb_spec c BSLASH) as [->|Hb]; [|destruct (Z.eqb_spec c NL) as [->|Hn];
    [|destruct (Z.eqb_spec c CR) as [->|Hc]]].
  1-3: split; [cbn; by rewrite IH1|]; repeat constructor; done.
  cbn [app]. rewrite walUnescape_plain, IH1 by done. split; [done|]. by constructor.
Qed.

(** Escaping loses nothing: a value read back from the log is the value
    that was written, and the escaped form has no line break. *)
Theorem walUnescape_walEscape s :
  walUnescape (walEscape s) = s /\ Forall (fun c => c <> NL /\ c <> CR) (walEscape s).
Proof. apply unescape_escape. Qed.

Lemma walEscape_nonempty s : s <> [] -> walEscape s <> [].
Proof. destruct s as [|c s]; [done|]. cbn [walEscape]. repeat (destruct (_ =? _)%Z; [done|]). done. Qed.

(** ** Decoding what was written *)

Definition word (w : bytes) : Prop := w <> [] /\ no_space w.
Definition one_line (s : bytes) : Prop := Forall (fun c => c <> NL /\ c <> CR) s.

(** The operations the text format can carry: no empty value, names without
    blanks, and an ALTER whose missing fields come last. *)
Record loggable (op : BufferedOp) : Prop := {
  lg_type : is_Some (opType op);
  lg_table : one_line (tableName op);
  lg_values : Forall (fun v => v <> []) (op_values op);
  lg_set : (setCol op = [] /\ setVal op = []) \/ word (setCol op);
  lg_where : (whereCol op = [] /\ whereVal op = []) \/ word (whereCol op);
  lg_alter :
    (alterOp op = [] /\ alterColName op = [] /\ alterColType op = [] /\ alterColNew op = []) \/
    (word (alterOp op) /\ word (alterColName op) /\
     ((alterColType op = [] /\ alterColNew op = []) \/
      (word (alterColType op) /\ (alterColNew op = [] \/ word (alterColNew op))))) }.

(** The lines of a record without the closing [---]. *)
Definition op_body (op : BufferedOp) : list bytes :=
  [str "OP " ++ to_string (default 0%Z (op_code <$> opType op)) ++ SP :: tableName op]
  ++ map (fun v => str "VAL " ++ walEscape v) (op_values op)
  ++ (if bool_decide (setCol op = []) then []
      else [str "SET " ++ setCol op ++ SP :: walEscape (setVal op)])
  ++ (if bool_decide (whereCol op = []) then []
      else [str "WHERE " ++ whereCol op ++ SP :: walEscape (whereVal op)])
  ++ (if bool_decide (alterOp op = []) then []
      else [str "ALTER " ++ alterOp op ++ SP :: alterColName op ++ SP :: alterColType op
              ++ SP :: alterColNew op]).

Lemma op_lines_body op : op_lines op = op_body op ++ [str "---"].
Proof. unfold op_lines, op_body. by rewrite <- !app_assoc. Qed.

Ltac no_prefix := rewrite has_prefix_mismatch by (vm_compute; reflexivity).

Lemma no_space_no_sp w : no_space w -> Forall (fun x => x <> SP) w.
Proof. intros H. eapply Forall_impl; [exact H|]. intros c Hc ->. done. Qed.

Lemma to_string_digits n : (0 <= n)%Z -> no_space (to_string n) /\ to_string n <> [].
Proof.
  intros Hn. destruct (to_string_spec n Hn) as (_ & Hd & Hne). split; [|done].
  eapply Forall_impl; [exact Hd|]. intros c Hc. cbn beta in Hc. char_cases.
Qed.

Lemma cut_at_space w rest :
  Forall (fun x => x <> SP) w ->
  find_char SP (w ++ SP :: rest) = Some (length w) /\
  take (length w) (w ++ SP :: rest) = w /\ drop (S (length w)) (w ++ SP :: rest) = rest.
Proof.
  intros H. split_and!; [by apply find_char_app|by rewrite take_app_length|].
  replace (S (length w)) with (length (w ++ [SP])) by (rewrite length_app; simpl; lia).
  change (SP :: rest) with ([SP] ++ rest). rewrite app_assoc. apply drop_app_length.
Qed.

Lemma stoi_small n : (0 <= n < 10)%Z -> stoi (to_string n) = Some n.
Proof.
  intros Hn. unfold stoi, sto_signed. rewrite <- (app_nil_r (to_string n)).
  rewrite scan_int_to_string by (auto; lia). cbn [mbind option_bind].
  rewrite !(proj2 (Z.leb_le _ _)), !(proj2 (Z.ltb_lt _ _)) by lia. done.
Qed.

Lemma op_code_range t : (0 <= op_code t < 10)%Z.
Proof. destruct t; simpl; lia. Qed.

Lemma op_of_code_code t : op_of_code (op_code t) = Some t.
Proof. by destruct t. Qed.

Lemma parse_op_line t tbl o b :
  parse_line (o, b) (str "OP " ++ to_string (op_code t) ++ SP :: tbl) = (set_type (Some t) tbl o, true).
Proof.
  pose proof (op_code_range t) as Ht. destruct (to_string_digits (op_code t)) as [H1 H2]; [lia|].
  unfold parse_line. rewrite has_prefix_app by (intros E; by apply app_eq_nil in E as [_ E]).
  change 3 with (length (str "OP ")). rewrite drop_app_length.
  destruct (cut_at_space (to_string (op_code t)) tbl) as (-> & -> & ->); [by apply no_space_no_sp|].
  by rewrite stoi_small, op_of_code_code by lia.
Qed.

Lemma parse_val_line v o b :
  v <> [] -> parse_line (o, b) (str "VAL " ++ walEscape v) = (push_val v o, b).
Proof.
  intros Hv. unfold parse_line. no_prefix. rewrite has_prefix_app by (by apply walEscape_nonempty).
  change 4 with (length (str "VAL ")). rewrite drop_app_length.
  by rewrite (proj1 (unescape_escape v)).
Qed.

Lemma parse_set_line c v o b :
  no_space c -> parse_line (o, b) (str "SET " ++ c ++ SP :: walEscape v) = (set_set c v o, b).
Proof.
  intros Hc. unfold parse_line. do 2 no_prefix.
  rewrite has_prefix_app by (intros E; by apply app_eq_nil in E as [_ E]).
  change 4 with (length (str "SET ")). rewrite drop_app_length.
  destruct (cut_at_space c (walEscape v)) as (-> & -> & ->); [by apply no_space_no_sp|].
  by rewrite (proj1 (unescape_escape v)).
Qed.

Lemma parse_where_line c v o b :
  no_space c -> parse_line (o, b) (str "WHERE " ++ c ++ SP :: walEscape v) = (set_where c v o, b).
Proof.
  intros Hc. unfold parse_line. do 3 no_prefix.
  rewrite has_prefix_app by (intros E; by apply app_eq_nil in E as [_ E]).
  change 6 with (length (str "WHERE ")). rewrite drop_app_length.
  destruct (cut_at_space c (walEscape v)) as (-> & -> & ->); [by apply no_space_no_sp|].
  by rewrite (proj1 (unescape_escape v)).
Qed.

Lemma parse_alter_line op o b :
  word (alterOp op) -> word (alterColName op) ->
  ((alterColType op = [] /\ alterColNew op = []) \/
   (word (alterColType op) /\ (alterColNew op = [] \/ word (alterColNew op)))) ->
  alterColType o = [] -> alterColNew o = [] ->
  parse_line (o, b) (str "ALTER " ++ alterOp op ++ SP :: alterColName op ++ SP :: alterColType op
                       ++ SP :: alterColNew op)
  = (mkOp (opType o) (tableName o) (op_values o) (setCol o) (setVal o) (whereCol o) (whereVal o)
       (alterOp op) (alterColName op) (alterColType op) (alterColNew op), b).
Proof.
  intros [Ho1 Ho2] [Hn1 Hn2] Hrest Ht Hw. unfold parse_line. do 4 no_prefix.
  rewrite has_prefix_app by (intros E; by apply app_eq_nil in E as [_ E]).
  change 6 with (length (str "ALTER ")). rewrite drop_app_length.
  rewrite words_cons, words_cons by done. unfold set_alter.
  destruct Hrest as [[-> ->]|[[Ht1 Ht2] [->|[Hw1 Hw2]]]].
  - cbn. by rewrite Ht, Hw.
  - rewrite words_cons by done. cbn. by rewrite Hw.
  - rewrite words_cons, words_one by done. done.
Qed.

Lemma parse_val_lines vs o b :
  Forall (fun v => v <> []) vs ->
  fold_left parse_line (map (fun v => str "VAL " ++ walEscape v) vs) (o, b) =
  (mkOp (opType o) (tableName o) (op_values o ++ vs) (setCol o) (setVal o) (whereCol o) (whereVal o)
     (alterOp o) (alterColName o) (alterColType o) (alterColNew o), b).
Proof.
  intros H. revert o. induction H as [|v vs Hv _ IH]; intros o; cbn [map fold_left].
  - rewrite app_nil_r. by destruct o.
  - rewrite parse_val_line, IH by done. cbn. by rewrite <- app_assoc.
Qed.

(** A record decodes to the operation it was written for. *)
Lemma parse_op_body op o :
  loggable op -> o = (empty_op, false) -> fold_left parse_line (op_body op) o = (op, true).
Proof.
  intros [[t Ht] Htb Hv Hs Hw Ha] ->. unfold op_body. rewrite Ht. cbn [fmap option_fmap option_map].
  rewrite !fold_left_app. cbn [fold_left]. cbn [default from_option id].
  rewrite parse_op_line, parse_val_lines by done. cbn [set_type empty_op opType tableName op_values
    setCol setVal whereCol whereVal alterOp alterColName alterColType alterColNew app].
  destruct op as [ot tb vs sc sv wc wv ao an at_ aw]; simpl in *. subst ot.
  assert (forall o : BufferedOp, setCol o = [] -> setVal o = [] ->
    fold_left parse_line (if bool_decide (sc = []) then [] else [str "SET " ++ sc ++ SP :: walEscape sv])
      (o, true) = (set_set sc sv o, true)) as Hset.
  { intros o Ho1 Ho2. destruct Hs as [[-> ->]|[H1 H2]].
    - rewrite bool_decide_true by done. cbn. destruct o; simpl in *. by subst.
    - rewrite bool_decide_false by done. cbn [fold_left]. by rewrite parse_set_line. }
  rewrite Hset by done.
  assert (forall o : BufferedOp, whereCol o = [] -> whereVal o = [] ->
    fold_left parse_line (if bool_decide (wc = []) then [] else [str "WHERE " ++ wc ++ SP :: walEscape wv])
      (o, true) = (set_where wc wv o, true)) as Hwhere.
  { intros o Ho1 Ho2. destruct Hw as [[-> ->]|[H1 H2]].
    - rewrite bool_decide_true by done. cbn. destruct o; simpl in *. by subst.
    - rewrite bool_decide_false by done. cbn [fold_left]. by rewrite parse_where_line. }
  rewrite Hwhere by done. unfold set_set, set_where.
  cbn [opType tableName op_values setCol setVal whereCol whereVal alterOp alterColName alterColType
    alterColNew].
  destruct Ha as [(-> & -> & -> & ->)|(Ho & Hn & Hr)].
  - by rewrite bool_decide_true by done.
  - rewrite bool_decide_false by (by destruct Ho). cbn [fold_left].
    pose proof (parse_alter_line (mkOp (Some t) tb vs sc sv wc wv ao an at_ aw)
      (mkOp (Some t) tb vs sc sv wc wv [] [] [] []) true Ho Hn Hr eq_refl eq_refl) as Hp.
    cbn in Hp. exact Hp.
Qed.

(** ** Scanning what was written *)

Definition markers : list bytes :=
  [str "TX_BEGIN:"; str "TX_COMMIT:"; str "CRC:"; str "TX_ROLLBACK:"].

(** A line the scanner only collects. *)
Definition collected (l : bytes) : Prop :=
  l <> [] /\ one_line l /\ Forall (fun p => has_prefix p l = false) markers.

Lemma strip_cr_one_line l : one_line l -> strip_cr l = l.
Proof.
  intros H. destruct l as [|c l]; [done|]. unfold strip_cr.
  destruct (Z.eqb_spec (List.last (c :: l) 0%Z) CR) as [Hl|]; [|done]. exfalso.
  assert (In (List.last (c :: l) 0%Z) (c :: l)) as Hin.
  { destruct (exists_last (l := c :: l)) as (l' & x & ->); [done|].
    rewrite last_last. apply in_or_app. right. by left. }
  unfold one_line in H. rewrite List.Forall_forall in H. by apply H in Hin as [_ ?].
Qed.

Lemma collected_mismatch q s :
  q <> [] -> one_line (q ++ s) -> Forall (fun p => mismatch p q = true) markers -> collected (q ++ s).
Proof.
  intros Hne Ho Hm. split_and!; [by destruct q|done|].
  eapply Forall_impl; [exact Hm|]. intros p Hp. by apply has_prefix_mismatch.
Qed.

Lemma no_space_one_line w : no_space w -> one_line w.
Proof.
  intros H. eapply Forall_impl; [exact H|]. intros c Hc. by split; intros ->.
Qed.

Lemma one_line_app a b : one_line (a ++ b) <-> one_line a /\ one_line b.
Proof. apply Forall_app. Qed.

Lemma one_line_sp b : one_line (SP :: b) <-> one_line b.
Proof. unfold one_line. rewrite Forall_cons. split; [by intros [_ H]|]. by split. Qed.

Lemma one_line_digits n : (0 <= n)%Z -> one_line (to_string n).
Proof. intros H. apply no_space_one_line. by apply to_string_digits. Qed.

Lemma word_or_nil_one_line w : w = [] \/ word w -> one_line w.
Proof. intros [->|[_ H]]; [constructor|by apply no_space_one_line]. Qed.

Ltac collect := apply collected_mismatch; [done| |by_decide].

Lemma op_body_collected op : loggable op -> Forall (fun l => collected l /\ l <> str "---") (op_body op).
Proof.
  intros [[t Ht] Htb Hv Hs Hw Ha]. unfold op_body. rewrite Ht. cbn [fmap option_fmap option_map default from_option id].
  pose proof (op_code_range t). rewrite !Forall_app. split_and!.
  - constructor; [|constructor]. split; [|done]. collect.
    apply one_line_app. split; [by_decide|]. apply one_line_app. split; [apply one_line_digits; lia|].
    by apply one_line_sp.
  - apply Forall_map, Forall_forall. intros v _. split; [|done]. collect.
    apply one_line_app. split; [by_decide|]. apply unescape_escape.
  - destruct Hs as [[-> _]|[H1 H2]]; [constructor|]. rewrite bool_decide_false by done.
    constructor; [|constructor]. split; [|done]. collect. apply one_line_app. split; [by_decide|].
    apply one_line_app. split; [by apply no_space_one_line|]. apply one_line_sp, unescape_escape.
  - destruct Hw as [[-> _]|[H1 H2]]; [constructor|]. rewrite bool_decide_false by done.
    constructor; [|constructor]. split; [|done]. collect. apply one_line_app. split; [by_decide|].
    apply one_line_app. split; [by apply no_space_one_line|]. apply one_line_sp, unescape_escape.
  - destruct Ha as [(-> & _)|([Ho1 Ho2] & [Hn1 Hn2] & Hr)]; [constructor|].
    rewrite bool_decide_false by done. constructor; [|constructor]. split; [|done]. collect.
    rewrite !one_line_app, !one_line_sp, !one_line_app, !one_line_sp, !one_line_app, !one_line_sp.
    split_and!; [by_decide|by apply no_space_one_line|by apply no_space_one_line| |];
      apply word_or_nil_one_line; tauto.
Qed.

Lemma op_body_nonempty op : op_body op <> [].
Proof. done. Qed.

(** Collected lines go to the block. *)
Lemma scan_collect T b p l :
  collected l -> l <> str "---" ->
  scan_line (mkScan T true b p) l = mkScan T true (b ++ [l]) p.
Proof.
  intros (Hne & Ho & Hm) Hd. unfold scan_line. rewrite strip_cr_one_line by done.
  rewrite bool_decide_false by done. unfold markers in Hm.
  repeat (apply Forall_cons in Hm as [-> Hm]). cbn [cur block txs pending].
  unfold bytes_eqb. by rewrite bool_decide_false.
Qed.

Lemma scan_separator T b p :
  b <> [] -> scan_line (mkScan T true b p) (str "---") = mkScan (map_last (push_block b) T) true [] p.
Proof.
  intros Hb. unfold scan_line. rewrite strip_cr_one_line by by_decide.
  cbn [cur block txs pending]. by rewrite (bool_decide_false (b = [])).
Qed.

Lemma scan_collect_all T b p ls :
  Forall (fun l => collected l /\ l <> str "---") ls ->
  scan_lines (mkScan T true b p) ls = mkScan T true (b ++ ls) p.
Proof.
  intros H. revert b. induction H as [|l ls [Hl Hd] _ IH]; intros b; cbn.
  - by rewrite app_nil_r.
  - unfold scan_lines in *. rewrite scan_collect, IH by done. by rewrite <- app_assoc.
Qed.

Lemma scan_lines_app s l1 l2 : scan_lines s (l1 ++ l2) = scan_lines (scan_lines s l1) l2.
Proof. apply fold_left_app. Qed.

Lemma map_last_snoc {A} (f : A -> A) l x : map_last f (l ++ [x]) = l ++ [f x].
Proof.
  unfold map_last. rewrite length_app. simpl.
  replace (length l + 1 - 1) with (length l) by lia.
  induction l as [|y l IH]; [done|]. simpl. f_equal. exact IH.
Qed.

(** The blocks of a transaction whose operations are [ops], when the scanner
    already holds the lines [b]. *)
Definition blocks_of (b : list bytes) (ops : list BufferedOp) : list (list bytes) :=
  match ops with
  | [] => []
  | o :: os => (b ++ op_body o) :: map op_body os
  end.

Lemma scan_ops T e b p ops :
  Forall loggable ops ->
  scan_lines (mkScan (T ++ [e]) true b p) (mjoin (map op_lines ops)) =
  mkScan (T ++ [mkTx (txId e) (committed e) (rolledBack e) (opBlocks e ++ blocks_of b ops)]) true
    (if bool_decide (ops = []) then b else []) p.
Proof.
  intros H. revert e b. induction H as [|o ops Ho _ IH]; intros e b.
  { rewrite app_nil_r. by destruct e. }
  cbn [map]. rewrite mjoin_cons, scan_lines_app, op_lines_body, scan_lines_app.
  rewrite scan_collect_all by (by apply op_body_collected).
  cbn [scan_lines fold_left]. rewrite scan_separator, map_last_snoc.
  2:{ intros E. by apply app_eq_nil in E as [_ ?]. }
  fold (scan_lines (mkScan (T ++ [push_block (b ++ op_body o) e]) true [] p) (mjoin (map op_lines ops))).
  rewrite IH. rewrite (bool_decide_false (o :: ops = [])) by done.
  rewrite Tauto.if_same. f_equal. f_equal. f_equal. unfold push_block. cbn. f_equal.
  rewrite <- app_assoc. f_equal. by destruct ops.
Qed.

Lemma number_to_string n : (0 <= n < 2 ^ 64)%Z -> number (to_string n) = n.
Proof. intros H. unfold number. by rewrite stoull_to_string. Qed.

(** A marker line is recognised by its own prefix and carries its number. *)
Lemma marker_line q n :
  (0 <= n)%Z -> one_line q ->
  strip_cr (q ++ to_string n) = q ++ to_string n /\ q ++ to_string n <> [] /\
  has_prefix q (q ++ to_string n) = true /\ drop (length q) (q ++ to_string n) = to_string n.
Proof.
  intros Hn Hq. destruct (to_string_digits n Hn) as [_ Hne]. split_and!.
  - apply strip_cr_one_line, one_line_app. split; [done|by apply one_line_digits].
  - intros E. by apply app_eq_nil in E as [_ ?].
  - by apply has_prefix_app.
  - apply drop_app_length.
Qed.

Lemma scan_begin T c b p id :
  (0 <= id < 2 ^ 64)%Z ->
  scan_line (mkScan T c b p) (str "TX_BEGIN:" ++ to_string id) =
  mkScan (T ++ [mkTx id false false []]) true [] p.
Proof.
  intros Hid. destruct (marker_line (str "TX_BEGIN:") id ltac:(lia) ltac:(by_decide)) as (H1 & H2 & H3 & H4).
  unfold scan_line. rewrite H1, bool_decide_false, H3 by done. cbn [txs pending].
  change 9 with (length (str "TX_BEGIN:")). by rewrite H4, number_to_string.
Qed.

Lemma scan_ignored T b p l : collected l -> scan_line (mkScan T false b p) l = mkScan T false b p.
Proof.
  intros (Hne & Ho & Hm). unfold scan_line. rewrite strip_cr_one_line by done.
  rewrite bool_decide_false by done. unfold markers in Hm.
  repeat (apply Forall_cons in Hm as [-> Hm]). done.
Qed.

Lemma mark_last id f T e :
  Forall (fun x => txId x <> id) T -> txId e = id -> mark id f (T ++ [e]) = T ++ [f e].
Proof.
  intros H He. induction H as [|x T Hx _ IH]; simpl.
  - by rewrite (proj2 (Z.eqb_eq _ _)).
  - by rewrite (proj2 (Z.eqb_neq _ _)), IH.
Qed.

Lemma int_iter_singleton {V} (k : Z) (v : V) : int_iter {[k := v]} = [(k, v)].
Proof.
  pose proof (map_iter_perm Z.le {[k := v]}) as H.
  change ({[k := v]} : gmap Z V) with (<[k := v]> (∅ : gmap Z V)) in *.
  rewrite map_to_list_insert, map_to_list_empty in H by apply lookup_empty.
  by apply Permutation_singleton_r in H.
Qed.

Lemma ts_collected ts : (0 <= ts)%Z -> collected (str "TS:" ++ to_string ts) /\ str "TS:" ++ to_string ts <> str "---".
Proof.
  intros H. split; [|done]. collect. apply one_line_app. split; [by_decide|by apply one_line_digits].
Qed.

Lemma scan_commit T e b id ts :
  (0 <= id < 2 ^ 64)%Z -> (0 <= ts)%Z -> Forall (fun x => txId x <> id) T -> txId e = id ->
  scan_lines (mkScan (T ++ [e]) true b ∅) (end_lines id (Committed ts)) =
  mkScan (T ++ [set_committed true e]) false [] ∅.
Proof.
  intros Hid Hts HT He. cbn [end_lines scan_lines fold_left].
  destruct (marker_line (str "TX_COMMIT:") id ltac:(lia) ltac:(by_decide)) as (H1 & H2 & H3 & H4).
  assert (scan_line (mkScan (T ++ [e]) true b ∅) (commit_line id) =
    mkScan (T ++ [set_committed true e]) false [] {[id := commit_line id]}) as ->.
  { unfold commit_line, scan_line. rewrite H1, bool_decide_false by done. no_prefix.
    rewrite H3. change 10 with (length (str "TX_COMMIT:")). rewrite H4, number_to_string by done.
    cbn [txs pending]. by rewrite mark_last. }
  rewrite scan_ignored by (by apply ts_collected).
  pose proof (crc32_range (commit_line id)) as Hc.
  destruct (marker_line (str "CRC:") (crc32 (commit_line id)) ltac:(lia) ltac:(by_decide)) as (K1 & K2 & K3 & K4).
  unfold scan_line. rewrite K1, bool_decide_false by done. do 2 no_prefix. rewrite K3.
  change 4 with (length (str "CRC:")). rewrite K4, number_to_string, u32_id by lia.
  cbn [pending]. rewrite int_iter_singleton. cbn [map List.last].
  rewrite Z.eqb_refl. cbn [txs cur block]. f_equal.
  change ({[id := commit_line id]} : gmap Z bytes) with (<[id := commit_line id]> (∅ : gmap Z bytes)).
  by rewrite delete_insert_id by apply lookup_empty.
Qed.

Lemma scan_rollback T e b id :
  (0 <= id < 2 ^ 64)%Z -> Forall (fun x => txId x <> id) T -> txId e = id ->
  scan_lines (mkScan (T ++ [e]) true b ∅) (end_lines id RolledBack) =
  mkScan (T ++ [set_rolledBack e]) false [] ∅.
Proof.
  intros Hid HT He. cbn [end_lines scan_lines fold_left].
  destruct (marker_line (str "TX_ROLLBACK:") id ltac:(lia) ltac:(by_decide)) as (H1 & H2 & H3 & H4).
  unfold scan_line. rewrite H1, bool_decide_false by done. do 3 no_prefix. rewrite H3.
  change 12 with (length (str "TX_ROLLBACK:")). rewrite H4, number_to_string by done.
  cbn [txs pending]. by rewrite mark_last.
Qed.

(** The lines a crash can leave of an unfinished transaction. *)
Definition torn (l : bytes) : Prop := collected l \/ l = str "---".

Lemma scan_torn T e b p tail :
  Forall torn tail ->
  exists bl b', scan_lines (mkScan (T ++ [e]) true b p) tail =
    mkScan (T ++ [mkTx (txId e) (committed e) (rolledBack e) bl]) true b' p.
Proof.
  intros H. revert e b. induction H as [|l tail Hl _ IH]; intros e b.
  { exists (opBlocks e), b. by destruct e. }
  cbn [scan_lines fold_left]. destruct (decide (l = str "---")) as [->|Hne].
  - destruct (decide (b = [])) as [->|Hb].
    + assert (scan_line (mkScan (T ++ [e]) true [] p) (str "---") = mkScan (T ++ [e]) true [] p) as ->.
      { unfold scan_line. by rewrite strip_cr_one_line by by_decide. }
      apply IH.
    + rewrite scan_separator, map_last_snoc by done. apply (IH (push_block b e)).
  - destruct Hl as [Hl|?]; [|done]. rewrite scan_collect by done. apply IH.
Qed.

(** ** Recovery of a whole log *)

Definition is_committed (l : TxLog) : bool := match l_end l with Committed _ => true | _ => false end.

Record wf_tx (l : TxLog) : Prop := {
  wt_id : (0 <= l_id l < 2 ^ 64)%Z;
  wt_ts : (0 <= l_ts l)%Z;
  wt_ops : Forall loggable (l_ops l);
  wt_end : match l_end l with Committed ts => (0 <= ts)%Z | RolledBack => True | Open tail => Forall torn tail end }.

(** What the scanner should find for a transaction. *)
Definition entry_for (l : TxLog) (e : WalTxEntry) : Prop :=
  txId e = l_id l /\ committed e = is_committed l /\
  (is_committed l = true -> opBlocks e = blocks_of [str "TS:" ++ to_string (l_ts l)] (l_ops l)).

Lemma scan_tx T c b l :
  wf_tx l -> Forall (fun x => txId x <> l_id l) T ->
  exists e c' b', scan_lines (mkScan T c b ∅) (tx_lines l) = mkScan (T ++ [e]) c' b' ∅ /\
    entry_for l e.
Proof.
  intros [Hid Hts Hops Hend] HT. unfold tx_lines. rewrite !scan_lines_app.
  cbn [scan_lines fold_left]. rewrite scan_begin by done.
  destruct (ts_collected (l_ts l) Hts) as [Hc Hd]. rewrite scan_collect by done. cbn [app].
  fold (scan_lines (mkScan (T ++ [mkTx (l_id l) false false []]) true [str "TS:" ++ to_string (l_ts l)] ∅)
    (mjoin (map op_lines (l_ops l)))).
  rewrite scan_ops by done. cbn [txId committed rolledBack opBlocks app].
  set (bl := blocks_of _ (l_ops l)). set (b1 := if bool_decide _ then _ else _).
  unfold entry_for, is_committed. destruct (l_end l) as [ts| |tail].
  - rewrite scan_commit by done. do 3 eexists. split; [done|]. done.
  - rewrite scan_rollback by done. do 3 eexists. split; [done|]. done.
  - destruct (scan_torn T (mkTx (l_id l) false false bl) b1 ∅ tail Hend) as (bl' & b' & E).
    cbn [end_lines]. rewrite E. do 3 eexists. split; [done|]. done.
Qed.

Lemma scan_log T c b ls :
  Forall wf_tx ls -> NoDup (map l_id ls) ->
  Forall (fun x => txId x ∉ map l_id ls) T ->
  exists es c' b', scan_lines (mkScan T c b ∅) (mjoin (map tx_lines ls)) = mkScan (T ++ es) c' b' ∅ /\
    Forall2 entry_for ls es.
Proof.
  intros H. revert T c b. induction H as [|l ls Hl _ IH]; intros T c b Hnd HT.
  { exists [], c, b. by rewrite app_nil_r. }
  apply NoDup_cons in Hnd as [Hnl Hnd]. cbn [map]. rewrite mjoin_cons, scan_lines_app.
  destruct (scan_tx T c b l Hl) as (e & c' & b' & -> & He).
  { eapply Forall_impl; [exact HT|]. intros x Hx. cbn in Hx. by apply not_elem_of_cons in Hx as [? _]. }
  destruct (IH (T ++ [e]) c' b' Hnd) as (es & c2 & b2 & E & Hes).
  { apply Forall_app. split.
    - eapply Forall_impl; [exact HT|]. intros x Hx. cbn in Hx. by apply not_elem_of_cons in Hx as [_ ?].
    - constructor; [|done]. destruct He as [-> _]. done. }
  exists (e :: es), c2, b2. rewrite E, <- app_assoc. split; [done|]. by constructor.
Qed.

Lemma parse_blocks ts ops :
  (0 <= ts)%Z -> Forall loggable ops ->
  map parseOpBlock (blocks_of [str "TS:" ++ to_string ts] ops) = map (fun o => (o, true)) ops.
Proof.
  intros Hts H. assert (forall os, Forall loggable os ->
    map parseOpBlock (map op_body os) = map (fun o => (o, true)) os) as Hall.
  { induction 1 as [|o os Ho _ IH]; [done|]. cbn [map]. f_equal; [|exact IH].
    unfold parseOpBlock. by apply parse_op_body. }
  destruct H as [|o os Ho Hos]; [done|]. cbn [blocks_of map]. f_equal; [|by apply Hall].
  unfold parseOpBlock. cbn [app fold_left].
  assert (parse_line (empty_op, false) (str "TS:" ++ to_string ts) = (empty_op, false)) as ->.
  { unfold parse_line. by do 5 no_prefix. }
  by apply parse_op_body.
Qed.

(** A record written line by line is read back line by line. *)
Lemma one_line_no_nl l : one_line l -> Forall (fun c => c <> NL) l.
Proof. intros H. eapply Forall_impl; [exact H|]. by intros c [? ?]. Qed.

Lemma tx_lines_one_line l : wf_tx l -> Forall one_line (tx_lines l).
Proof.
  intros [Hid Hts Hops Hend]. unfold tx_lines. rewrite !Forall_app. split_and!.
  - constructor; [|constructor; [|constructor]].
    + apply one_line_app. split; [by_decide|apply one_line_digits; lia].
    + by apply ts_collected.
  - induction Hops as [|o ops Ho _ IH]; [constructor|]. cbn [map]. rewrite mjoin_cons, op_lines_body.
    rewrite !Forall_app. split_and!; [|constructor; [by_decide|constructor]|done].
    eapply Forall_impl; [by apply op_body_collected|]. by intros x [(_ & ? & _) _].
  - destruct (l_end l) as [ts| |tail]; cbn [end_lines].
    + pose proof (crc32_range (commit_line (l_id l))) as Hcrc. unfold commit_line in *.
      rewrite !Forall_cons, !one_line_app. split_and!;
        lazymatch goal with
        | |- one_line (to_string _) => apply one_line_digits; lia
        | |- one_line (str _) => by_decide
        | |- _ => constructor
        end.
    + rewrite !Forall_cons, !one_line_app.
      split_and!; [by_decide|apply one_line_digits; lia|constructor].
    + eapply Forall_impl; [exact Hend|]. intros x [(_ & ? & _)| ->]; [done|by_decide].
Qed.

Section recovery.
Context {engine : Type} (applyBufferedOp : BufferedOp -> engine -> bool * engine).

(** The specification: apply the operations of the committed transactions, in
    order, counting those that are accepted. *)
Definition apply_all (ops : list BufferedOp) (acc : engine * Z) : engine * Z :=
  fold_left (fun acc op =>
    let '(ok, e) := applyBufferedOp op acc.1 in (e, if ok then (acc.2 + 1)%Z else acc.2)) ops acc.

Lemma replay_blocks blks ops acc :
  map parseOpBlock blks = map (fun o => (o, true)) ops ->
  fold_left (replay_block applyBufferedOp) blks acc = apply_all ops acc.
Proof.
  revert ops acc. induction blks as [|blk blks IH]; intros [|o ops] acc H; try done.
  injection H as H1 H2. unfold apply_all in *. cbn [fold_left]. rewrite (IH ops) by done.
  f_equal. unfold replay_block. destruct acc as [e n]. rewrite H1. cbn [fst snd].
  by destruct (applyBufferedOp o e).
Qed.

Lemma replay_txs ls es acc :
  Forall wf_tx ls -> Forall2 entry_for ls es ->
  fold_left (replay_tx applyBufferedOp) es acc =
  apply_all (mjoin (map l_ops (List.filter is_committed ls))) acc.
Proof.
  intros Hw H. revert acc Hw. induction H as [|l e ls es (Hid & Hc & Hb) _ IH]; intros acc Hw; [done|].
  apply Forall_cons in Hw as [[Hi Hts Hops Hend] Hw]. cbn [fold_left List.filter].
  unfold replay_tx at 2. rewrite Hc. destruct (is_committed l) eqn:El; [|by apply IH].
  cbn [map]. rewrite mjoin_cons. unfold apply_all at 1. rewrite fold_left_app.
  rewrite Hb by done. rewrite (replay_blocks _ (l_ops l)) by (by apply parse_blocks).
  rewrite IH by done. done.
Qed.

Lemma count_committed ls es :
  Forall2 entry_for ls es ->
  length (List.filter committed es) = length (List.filter is_committed ls).
Proof.
  induction 1 as [|l e ls es (_ & Hc & _) _ IH]; [done|]. cbn [List.filter]. rewrite Hc.
  destruct (is_committed l); simpl; congruence.
Qed.

(** [C14] Crash recovery is exact: when the log consists of transactions with
    distinct numbers whose operations the format can carry, each committed,
    rolled back or cut off by the crash, [recover] applies the operations of
    the committed transactions, all of them and nothing else, in the order
    they were logged, and counts them. *)
Theorem recover_replays_committed ls e :
  Forall wf_tx ls -> NoDup (map l_id ls) ->
  let '(res, e') := recover applyBufferedOp (unlines (mjoin (map tx_lines ls))) e in
  (e', replayedOpCount res) =
    apply_all (mjoin (map l_ops (List.filter is_committed ls))) (e, 0%Z) /\
  recoveredTxCount res = Z.of_nat (length (List.filter is_committed ls)).
Proof.
  intros Hw Hnd. unfold recover, scanWal.
  rewrite <- (app_nil_r (unlines _)), lines_unlines.
  2:{ clear Hnd. induction Hw as [|l ls Hl _ IH]; [constructor|]. cbn [map]. rewrite mjoin_cons.
      apply Forall_app. split; [|done]. eapply Forall_impl; [by apply tx_lines_one_line|].
      apply one_line_no_nl. }
  rewrite app_nil_r.
  destruct (scan_log [] false [] ls Hw Hnd) as (es & c & b & E & Hes); [constructor|].
  unfold scan_init. rewrite E. cbn [txs app].
  destruct (fold_left (replay_tx applyBufferedOp) es (e, 0%Z)) as [e' n] eqn:Er.
  rewrite (replay_txs ls es _ Hw Hes) in Er. cbn [replayedOpCount recoveredTxCount].
  rewrite Er. split; [done|]. by rewrite (count_committed ls es).
Qed.
End recovery.

(** ** Examples *)

Definition ex_insert : BufferedOp :=
  mkOp (Some INSERT) (str "public.t") [str "1"; [104%Z; NL; 105%Z]] [] [] [] [] [] [] [] [].
Definition ex_update : BufferedOp :=
  mkOp (Some UPDATE_WHERE) (str "public.t") [] (str "city") (str "Rom") (str "id") (str "1") [] [] [] [].

Definition ex_log : list TxLog :=
  [ mkTxLog 1 1700000000 [ex_insert] (Committed 1700000001);
    mkTxLog 2 1700000002 [ex_update] RolledBack;
    mkTxLog 3 1700000003 [ex_update] (Open [str "OP 3 public.t"; str "WHERE id 1"]) ].

#[export] Instance word_dec w : Decision (word w).
Proof. unfold word, no_space. apply _. Defined.
#[export] Instance one_line_dec w : Decision (one_line w).
Proof. unfold one_line. apply _. Defined.
#[export] Instance collected_dec w : Decision (collected w).
Proof. unfold collected. apply _. Defined.
#[export] Instance torn_dec w : Decision (torn w).
Proof. unfold torn. apply _. Defined.

Lemma ex_insert_loggable : loggable ex_insert.
Proof. constructor; try (left; done); [by eexists|by_decide|by_decide]. Qed.

Lemma ex_update_loggable : loggable ex_update.
Proof.
  constructor; [by eexists|by_decide|by_decide|right; by_decide|right; by_decide|by left].
Qed.

Lemma ex_log_wf : Forall wf_tx ex_log.
Proof.
  apply Forall_cons; split; [|apply Forall_cons; split; [|apply Forall_cons; split; [|constructor]]].
  - constructor; cbn; [lia|lia|constructor; [apply ex_insert_loggable|constructor]|lia].
  - constructor; cbn; [lia|lia|constructor; [apply ex_update_loggable|constructor]|done].
  - constructor; [by_decide|by_decide|constructor; [apply ex_update_loggable|constructor]|by_decide].
Qed.

Lemma recover_replays_committed_witness :
  (recover (fun op ops => (true, ops ++ [op])) (unlines (mjoin (map tx_lines ex_log))) []).2 = [ex_insert].
Proof.
  pose proof (recover_replays_committed (fun op ops => (true, ops ++ [op])) ex_log []
    ex_log_wf ltac:(by_decide)) as H.
  destruct (recover _ _ _) as [res e']. destruct H as [H _].
  cbn in H. injection H as H _. exact H.
Defined.

(** An empty value is written as [VAL ] and not read back: the row comes back
    one value short. *)
Lemma empty_value_lost :
  parseOpBlock (op_body (mkOp (Some INSERT) (str "t") [str "1"; []] [] [] [] [] [] [] [] []))
  = (mkOp (Some INSERT) (str "t") [str "1"] [] [] [] [] [] [] [] [], true).
Proof. vm_compute. reflexivity. Qed.

(** RENAME COLUMN has no type: the new name is read into the type field. *)
Lemma rename_garbled :
  parseOpBlock (op_body (mkOp (Some ALTER) (str "t") [] [] [] [] [] (str "RENAME") (str "a") [] (str "b")))
  = (mkOp (Some ALTER) (str "t") [] [] [] [] [] (str "RENAME") (str "a") (str "b") [], true).
Proof. vm_compute. reflexivity. Qed.

(** A commit record whose checksum line was lost still commits. *)
Lemma missing_crc_commits :
  map committed (scanWal (unlines [str "TX_BEGIN:7"; str "TX_COMMIT:7"])) = [true].
Proof. vm_compute. reflexivity. Qed.
