(* ===== verification/Transaction.v ===== *)
(** * Transactions of the engine ([src/engine/engine.hpp])

    A session buffers its operations and logs them; COMMIT applies the buffer
    to the tables, ROLLBACK drops it, savepoints cut it back.  The engine state
    brings together the tables, the transaction manager, the vacuum counters,
    the row locks, the sessions and the log files. *)

From S2P Require Import Prelude Index Partition Table Mvcc Locks Crc32 Wal.

Section transaction.
Context {tree : Type} {RI : RowIndex tree}.

(** [std::hash<std::string>] and [evaluateGenExpr], the evaluator of generated
    columns (given the expression, the schema and the values of the row). *)
Context (hash_string : bytes -> Z).
Context (evaluateGenExpr : bytes -> list Column -> list bytes -> bytes).

Record SavepointEntry := mkSavepoint { sp_name : bytes; txSize : nat }.

Record TxState := mkTxState {
  active : bool; walPath : bytes; txBuffer : list BufferedOp;
  savepoints : list SavepointEntry; mvccTxId : Z }.

Definition idle : TxState := mkTxState false [] [] [] 0.

Record Engine := mkEngine {
  tables_ : gmap bytes (Table tree);
  txManager_ : TransactionManager.State;
  vacuumMgr_ : VacuumManager.State;
  locks_ : LockManager;
  sessionTx_ : gmap bytes TxState;
  currentSession_ : bytes;
  isolationLevel_ : bytes;
  files : gmap bytes bytes }.

(** [tx()] *)
Definition tx (e : Engine) : TxState := default idle (sessionTx_ e !! currentSession_ e).

Definition set_tx (s : TxState) (e : Engine) : Engine :=
  mkEngine (tables_ e) (txManager_ e) (vacuumMgr_ e) (locks_ e)
    (<[currentSession_ e := s]> (sessionTx_ e)) (currentSession_ e) (isolationLevel_ e) (files e).
Definition set_tables (m : gmap bytes (Table tree)) (e : Engine) : Engine :=
  mkEngine m (txManager_ e) (vacuumMgr_ e) (locks_ e) (sessionTx_ e) (currentSession_ e)
    (isolationLevel_ e) (files e).
Definition set_manager (s : TransactionManager.State) (e : Engine) : Engine :=
  mkEngine (tables_ e) s (vacuumMgr_ e) (locks_ e) (sessionTx_ e) (currentSession_ e)
    (isolationLevel_ e) (files e).
Definition set_vacuum (s : VacuumManager.State) (e : Engine) : Engine :=
  mkEngine (tables_ e) (txManager_ e) s (locks_ e) (sessionTx_ e) (currentSession_ e)
    (isolationLevel_ e) (files e).
Definition set_locks (s : LockManager) (e : Engine) : Engine :=
  mkEngine (tables_ e) (txManager_ e) (vacuumMgr_ e) s (sessionTx_ e) (currentSession_ e)
    (isolationLevel_ e) (files e).
Definition set_files (m : gmap bytes bytes) (e : Engine) : Engine :=
  mkEngine (tables_ e) (txManager_ e) (vacuumMgr_ e) (locks_ e) (sessionTx_ e) (currentSession_ e)
    (isolationLevel_ e) m.
Definition setCurrentSession (key : bytes) (e : Engine) : Engine :=
  mkEngine (tables_ e) (txManager_ e) (vacuumMgr_ e) (locks_ e) (sessionTx_ e) key
    (isolationLevel_ e) (files e).

(** Append to a file, creating it if needed. *)
Definition append_file (path text : bytes) (e : Engine) : Engine :=
  set_files (<[path := default [] (files e !! path) ++ text]> (files e)) e.

(** ** Applying one operation *)

Definition getTable (e : Engine) (n : bytes) : result (Table tree) :=
  match tables_ e !! n with Some t => Ok t | None => Throw "Tabelle nicht gefunden" end.

Definition colIdx (t : Table tree) (c : bytes) : result nat :=
  match colOf t c with Some i => Ok i | None => Throw "Spalte nicht gefunden" end.

(** [applyGeneratedCols] from column [i] on. *)
Fixpoint applyGeneratedCols (i : nat) (rest cols : list Column) (vals : list bytes) : list bytes :=
  match rest with
  | [] => vals
  | c :: rest' =>
      applyGeneratedCols (S i) rest' cols
        (if isGenerated c && (i <? length vals)
         then <[i := evaluateGenExpr (generatedExpr c) cols vals]> vals else vals)
  end.

Definition regenerate (t : Table tree) (r : Row) : Row :=
  set_values r (applyGeneratedCols 0 (columns_ t) (columns_ t) (values r)).

Definition put_table (n : bytes) (t : Table tree) (e : Engine) : Engine :=
  set_tables (<[n := t]> (tables_ e)) e.

(** [applyOp]; an exception leaves the engine as it was.  The call of the
    statistics collector [g_autoAnalyze()] is left out. *)
Definition applyOp (op : BufferedOp) (e : Engine) : result Engine :=
  let id := mvccTxId (tx e) in
  match opType op with
  | Some INSERT =>
      t ← getTable e (tableName op);
      t ← insert_row t (row_of (op_values op));
      Ok (put_table (tableName op) (if (id =? 0)%Z then t else stampXminLast id t) e)
  | Some UPDATE_WHERE =>
      t ← getTable e (tableName op);
      wCI ← colIdx t (whereCol op);
      sCI ← colIdx t (setCol op);
      let t := (updateWhere sCI (setVal op) wCI (whereVal op) t).2 in
      let t := with_rows t (map (fun r =>
                 if bool_decide (values r !! wCI = Some (whereVal op)) then regenerate t r else r)
                 (rows_ t)) in
      Ok (put_table (tableName op) (rebuildAll t) e)
  | Some UPDATE_ALL =>
      t ← getTable e (tableName op);
      sCI ← colIdx t (setCol op);
      let t := (updateAll sCI (setVal op) t).2 in
      let t := with_rows t (map (regenerate t) (rows_ t)) in
      Ok (put_table (tableName op) (rebuildAll t) e)
  | Some DELETE_WHERE =>
      t ← getTable e (tableName op);
      wCI ← colIdx t (whereCol op);
      let '(n, t') := if (id =? 0)%Z then deleteWhere wCI (whereVal op) t
                      else stampDeleteWhere wCI (whereVal op) id t in
      let e := put_table (tableName op) t' e in
      Ok (if n =? 0 then e
          else set_vacuum (VacuumManager.addDeadTuples (tableName op) (Z.of_nat n) (vacuumMgr_ e)) e)
  | Some DELETE_ALL =>
      t ← getTable e (tableName op);
      if (id =? 0)%Z then Ok (put_table (tableName op) (deleteAll t).2 e)
      else
        let before := length (rows_ t) in
        let e := put_table (tableName op) (stampDeleteAll id t).2 e in
        Ok (set_vacuum
              (VacuumManager.addDeadTuples (tableName op) (Z.of_nat before) (vacuumMgr_ e)) e)
  | Some ALTER =>
      t ← getTable e (tableName op);
      if bytes_eqb (alterOp op) (str "ADD") then
        match colOf t (alterColName op) with
        | Some _ => Ok e
        | None =>
            let ty := if bool_decide (alterColType op = []) then str "TEXT" else alterColType op in
            Ok (put_table (tableName op) (addColumn (column (alterColName op) ty) t) e)
        end
      else if bytes_eqb (alterOp op) (str "DROP") then
        t ← dropColumn (alterColName op) t; Ok (put_table (tableName op) t e)
      else if bytes_eqb (alterOp op) (str "RENAME") then
        t ← renameColumn (alterColName op) (alterColNew op) t; Ok (put_table (tableName op) t e)
      else Ok e
  | None => Ok e
  end.

(** ** BEGIN, buffering, COMMIT, ROLLBACK *)

(** What a call that may throw leaves behind: the exception, if any, and the
    engine. *)
Definition outcome : Type := option string * Engine.

Definition wal_name (path : bytes) (e : Engine) : bytes :=
  path ++ str ".sess_" ++
    (if bool_decide (currentSession_ e = []) then str "default"
     else to_string (hash_string (currentSession_ e))).

Definition beginTransaction (path now : bytes) (time : Z) (e : Engine) : outcome :=
  if active (tx e) then (Some "Transaktion bereits aktiv.", e)
  else
    let wal := wal_name path e in
    let '(id, tm) := TransactionManager.beginTx (isolationLevel_ e) now (txManager_ e) in
    let e := set_manager tm e in
    let e := append_file wal
      (unlines [str "TX_BEGIN:" ++ to_string id; str "TS:" ++ to_string time]) e in
    (None, set_tx (mkTxState true wal [] [] id) e).

(** The common end of the data-changing calls inside a transaction. *)
Definition bufferOp (op : BufferedOp) (e : Engine) : Engine :=
  let s := tx e in
  let e := if bool_decide (walPath s = []) then e
           else append_file (walPath s) (unlines (op_lines op)) e in
  set_tx (mkTxState (active s) (walPath s) (txBuffer s ++ [op]) (savepoints s) (mvccTxId s)) e.

(** The loop over the buffer: stops at the first exception. *)
Fixpoint apply_buffer (ops : list BufferedOp) (e : Engine) : outcome :=
  match ops with
  | [] => (None, e)
  | op :: ops' =>
      match applyOp op e with
      | Ok e' => apply_buffer ops' e'
      | Throw msg => (Some msg, e)
      end
  end.

Definition applyAndCommit (thread time : Z) (e : Engine) : outcome :=
  if negb (active (tx e)) then (Some "Keine aktive Transaktion.", e)
  else
    match apply_buffer (txBuffer (tx e)) e with
    | (Some msg, e) => (Some msg, e)
    | (None, e) =>
        let s := tx e in
        let commitId := mvccTxId s in
        let e := set_locks (releaseRowLocks thread (locks_ e)) e in
        let e := if (commitId =? 0)%Z then e
                 else set_manager (TransactionManager.commitTx commitId (txManager_ e)) e in
        let e := set_tx (mkTxState false (walPath s) [] [] 0) e in
        (None,
         if bool_decide (walPath s = []) || (commitId =? 0)%Z then e
         else append_file (walPath s) (unlines (end_lines commitId (Committed time))) e)
    end.

Definition rollbackTransaction (thread : Z) (e : Engine) : outcome :=
  let s := tx e in
  if negb (active s) then (Some "Keine aktive Transaktion.", e)
  else
    let rollbackId := mvccTxId s in
    let e := set_locks (releaseRowLocks thread (locks_ e)) e in
    let e := if (rollbackId =? 0)%Z then e
             else set_manager (TransactionManager.rollbackTx rollbackId (txManager_ e)) e in
    let e := set_tx (mkTxState false (walPath s) [] [] 0) e in
    (* the record is appended and the file removed *)
    (None, if bool_decide (walPath s = []) then e
           else set_files (delete (walPath s) (files e)) e).

(** ** Savepoints *)

Definition with_buffer (b : list BufferedOp) (sp : list SavepointEntry) (s : TxState) : TxState :=
  mkTxState (active s) (walPath s) b sp (mvccTxId s).

Definition createSavepoint (name : bytes) (e : Engine) : outcome :=
  let s := tx e in
  if negb (active s) then (Some "SAVEPOINT erfordert eine aktive Transaktion (BEGIN).", e)
  else (None, set_tx (with_buffer (txBuffer s)
                (savepoints s ++ [mkSavepoint name (length (txBuffer s))]) s) e).

(** The index of the last savepoint of that name. *)
Fixpoint find_savepoint (name : bytes) (l : list SavepointEntry) : option nat :=
  match l with
  | [] => None
  | sp :: l' =>
      match find_savepoint name l' with
      | Some i => Some (S i)
      | None => if bytes_eqb (sp_name sp) name then Some 0 else None
      end
  end.

(** [std::vector::resize] *)
Definition resize_buffer (n : nat) (b : list BufferedOp) : list BufferedOp :=
  take n b ++ replicate (n - length b) empty_op.

Definition rollbackToSavepoint (name : bytes) (e : Engine) : outcome :=
  let s := tx e in
  if negb (active s) then (Some "Keine aktive Transaktion.", e)
  else
    match find_savepoint name (savepoints s) with
    | Some i =>
        let sz := match savepoints s !! i with Some sp => txSize sp | None => 0 end in
        (None, set_tx (with_buffer (resize_buffer sz (txBuffer s)) (take i (savepoints s)) s) e)
    | None => (Some "SAVEPOINT nicht gefunden.", e)
    end.

Definition releaseSavepoint (name : bytes) (e : Engine) : outcome :=
  let s := tx e in
  if negb (active s) then (Some "Keine aktive Transaktion.", e)
  else
    match find_savepoint name (savepoints s) with
    | Some i => (None, set_tx (with_buffer (txBuffer s) (take i (savepoints s)) s) e)
    | None => (Some "SAVEPOINT nicht gefunden.", e)
    end.

(** ** Calls inside a transaction *)

Inductive tcall :=
| TBuffer (op : BufferedOp)
| TSavepoint (name : bytes)
| TRollbackTo (name : bytes)
| TRelease (name : bytes).

Definition run_call (e : Engine) (c : tcall) : Engine :=
  match c with
  | TBuffer op => bufferOp op e
  | TSavepoint n => (createSavepoint n e).2
  | TRollbackTo n => (rollbackToSavepoint n e).2
  | TRelease n => (releaseSavepoint n e).2
  end.

Lemma tx_set_tx s e : tx (set_tx s e) = s.
Proof. unfold tx. simpl. by rewrite lookup_insert_eq. Qed.

(** What the calls of a session leave alone: everything but its own buffer,
    its savepoints and the log files. *)
Record frame (e e' : Engine) : Prop := {
  f_tables : tables_ e' = tables_ e;
  f_manager : txManager_ e' = txManager_ e;
  f_vacuum : vacuumMgr_ e' = vacuumMgr_ e;
  f_locks : locks_ e' = locks_ e;
  f_session : currentSession_ e' = currentSession_ e;
  f_isolation : isolationLevel_ e' = isolationLevel_ e;
  f_active : active (tx e') = active (tx e);
  f_id : mvccTxId (tx e') = mvccTxId (tx e);
  f_wal : walPath (tx e') = walPath (tx e);
  f_others : forall s, s <> currentSession_ e -> sessionTx_ e' !! s = sessionTx_ e !! s }.

Lemma frame_refl e : frame e e.
Proof. by constructor. Qed.

Lemma frame_set_tx e b sp : frame e (set_tx (with_buffer b sp (tx e)) e).
Proof.
  constructor; rewrite ?tx_set_tx; try done. intros s Hs. simpl. by apply lookup_insert_ne.
Qed.

Lemma bufferOp_frame op e : frame e (bufferOp op e).
Proof.
  unfold bufferOp. case_if; constructor; rewrite ?tx_set_tx; try done;
    intros s Hs; simpl; by apply lookup_insert_ne.
Qed.

Lemma run_call_frame c e : frame e (run_call e c).
Proof.
  destruct c as [op|n|n|n]; cbn [run_call].
  - apply bufferOp_frame.
  - unfold createSavepoint. destruct (active (tx e)); [apply frame_set_tx|apply frame_refl].
  - unfold rollbackToSavepoint. destruct (active (tx e)); [|apply frame_refl]. cbn [negb].
    destruct (find_savepoint _ _); [apply frame_set_tx|apply frame_refl].
  - unfold releaseSavepoint. destruct (active (tx e)); [|apply frame_refl]. cbn [negb].
    destruct (find_savepoint _ _); [apply frame_set_tx|apply frame_refl].
Qed.

Lemma frame_trans e1 e2 e3 : frame e1 e2 -> frame e2 e3 -> frame e1 e3.
Proof.
  intros [A1 A2 A3 A4 A5 A6 A7 A8 A9 A10] [B1 B2 B3 B4 B5 B6 B7 B8 B9 B10].
  constructor; try congruence. intros s Hs. rewrite B10 by congruence. by apply A10.
Qed.

Lemma run_calls_frame cs e : frame e (fold_left run_call cs e).
Proof.
  revert e. induction cs as [|c cs IH]; intros e; cbn [fold_left]; [apply frame_refl|].
  eapply frame_trans; [apply run_call_frame|apply IH].
Qed.

Lemma begin_spec path now time e :
  active (tx e) = false ->
  exists e1, beginTransaction path now time e = (None, e1) /\
    tables_ e1 = tables_ e /\ vacuumMgr_ e1 = vacuumMgr_ e /\ locks_ e1 = locks_ e /\
    currentSession_ e1 = currentSession_ e /\
    txManager_ e1 = (TransactionManager.beginTx (isolationLevel_ e) now (txManager_ e)).2 /\
    tx e1 = mkTxState true (wal_name path e) [] []
              (TransactionManager.beginTx (isolationLevel_ e) now (txManager_ e)).1 /\
    (forall s, s <> currentSession_ e -> sessionTx_ e1 !! s = sessionTx_ e !! s) /\
    files e1 = <[wal_name path e := default [] (files e !! wal_name path e) ++
      unlines [str "TX_BEGIN:" ++ to_string (TransactionManager.beginTx (isolationLevel_ e) now (txManager_ e)).1;
               str "TS:" ++ to_string time]]> (files e).
Proof.
  intros Ha. unfold beginTransaction. rewrite Ha. eexists. split; [done|].
  split_and!; try done; [by rewrite tx_set_tx|]. intros s Hs. simpl. by apply lookup_insert_ne.
Qed.

Lemma wal_name_nonempty path e : wal_name path e <> [].
Proof. unfold wal_name. destruct path; done. Qed.

(** ** COMMIT is what the log says *)

(** The calls that do not discard operations. *)
Definition keeps_ops (c : tcall) : Prop := match c with TRollbackTo _ => False | _ => True end.

Definition ops_of (cs : list tcall) : list BufferedOp :=
  omap (fun c => match c with TBuffer op => Some op | _ => None end) cs.

Lemma run_keeps cs e :
  Forall keeps_ops cs -> walPath (tx e) <> [] ->
  txBuffer (tx (fold_left run_call cs e)) = txBuffer (tx e) ++ ops_of cs /\
  files (fold_left run_call cs e) !! walPath (tx e) =
    match files e !! walPath (tx e), ops_of cs with
    | f, [] => f
    | f, ops => Some (default [] f ++ unlines (mjoin (map op_lines ops)))
    end.
Proof.
  intros H. revert e. induction H as [|c cs Hc _ IH]; intros e Hw; cbn [fold_left].
  { rewrite app_nil_r. split; [done|]. by destruct (files e !! _). }
  pose proof (run_call_frame c e) as [_ _ _ _ _ _ _ _ Hwal _].
  destruct (IH (run_call e c)) as [I1 I2]; [congruence|]. rewrite Hwal in I2.
  rewrite I1, I2. clear IH I1 I2. destruct c as [op|n|n|n]; [|clear Hwal|done|clear Hwal].
  - cbn [run_call ops_of omap list_omap]. fold (ops_of cs). unfold bufferOp.
    rewrite bool_decide_false by done. rewrite tx_set_tx. cbn [txBuffer].
    split; [by rewrite <- app_assoc|]. cbn [files set_tx append_file set_files].
    rewrite lookup_insert_eq. cbn [map].
    destruct (ops_of cs) as [|o os] eqn:Eo; cbn [map default from_option id].
    + by rewrite mjoin_cons, app_nil_r.
    + rewrite !mjoin_cons, <- app_assoc. by rewrite !unlines_app.
  - cbn [run_call ops_of omap list_omap]. fold (ops_of cs). unfold createSavepoint.
    destruct (active (tx e)); cbn [negb snd]; [|done]. by rewrite tx_set_tx.
  - cbn [run_call ops_of omap list_omap]. fold (ops_of cs). unfold releaseSavepoint.
    destruct (active (tx e)); cbn [negb snd]; [|done].
    destruct (find_savepoint _ _); cbn [snd]; [|done]. by rewrite tx_set_tx.
Qed.

(** Applying operations changes the tables and the vacuum counters only. *)
Record applied (e e' : Engine) : Prop := {
  a_manager : txManager_ e' = txManager_ e;
  a_locks : locks_ e' = locks_ e;
  a_sessions : sessionTx_ e' = sessionTx_ e;
  a_session : currentSession_ e' = currentSession_ e;
  a_files : files e' = files e }.

Lemma result_bind_ok {A B} (m : result A) (f : A -> result B) y :
  m ≫= f = Ok y -> exists x, m = Ok x /\ f x = Ok y.
Proof. destruct m; [eauto|done]. Qed.

Lemma applyOp_applied op e e' : applyOp op e = Ok e' -> applied e e'.
Proof.
  unfold applyOp. destruct (opType op) as [[]|].
  all: repeat match goal with
    | |- (_ ≫= _ = Ok _) -> _ => intros H; apply result_bind_ok in H as (? & _ & H); revert H
    | |- context [let '(_, _) := ?x in _] => destruct x
    | |- context [if ?b then _ else _] => destruct b
    | |- context [match colOf ?t ?c with _ => _ end] => destruct (colOf t c)
    end.
  all: intros [= <-]; by constructor.
Qed.

Lemma apply_buffer_applied ops e err e' : apply_buffer ops e = (err, e') -> applied e e'.
Proof.
  revert e. induction ops as [|op ops IH]; intros e; cbn [apply_buffer].
  { intros [= <- <-]. by constructor. }
  destruct (applyOp op e) as [e1|msg] eqn:E; [|intros [= <- <-]; by constructor].
  intros H. apply IH in H as [B1 B2 B3 B4 B5]. apply applyOp_applied in E as [A1 A2 A3 A4 A5].
  constructor; congruence.
Qed.

(** The operations one after the other, each on what the one before it made. *)
Definition in_order (ops : list BufferedOp) (e : Engine) : result Engine :=
  fold_left (fun r op => e ← r; applyOp op e) ops (Ok e).

Lemma apply_buffer_in_order ops e e' : apply_buffer ops e = (None, e') -> in_order ops e = Ok e'.
Proof.
  revert e. induction ops as [|op ops IH]; intros e; cbn [apply_buffer]; [by intros [= ->]|].
  unfold in_order. cbn [fold_left mbind result_bind]. destruct (applyOp op e) as [e1|]; [apply IH|done].
Qed.

(** [C16] COMMIT and its log agree: when a session whose calls have buffered operations
    and set or released savepoints commits without an error, the tables are those
    that its operations give, each applied to the result of the one before it in
    the order in which they were issued, its number is committed, the session is
    idle, and its log has grown by exactly the record of this transaction, which
    [Wal] shows to be replayed as the same operations.  Sessions that went back to
    a savepoint are excluded ([keeps_ops]): the log keeps the operations they
    discarded ([discarded_operation_replayed]). *)
Theorem commit_logged path now time time2 thread cs e e3 :
  active (tx e) = false -> (0 <= TransactionManager.globalTxId_ (txManager_ e) < 2 ^ 64 - 1)%Z ->
  Forall keeps_ops cs ->
  let e2 := fold_left run_call cs (beginTransaction path now time e).2 in
  let id := (TransactionManager.beginTx (isolationLevel_ e) now (txManager_ e)).1 in
  applyAndCommit thread time2 e2 = (None, e3) ->
  (exists e2', in_order (ops_of cs) e2 = Ok e2' /\ tables_ e3 = tables_ e2') /\
  TransactionManager.isCommitted (txManager_ e3) id = true /\ active (tx e3) = false /\
  files e3 !! wal_name path e =
    Some (default [] (files e !! wal_name path e) ++
          unlines (tx_lines (mkTxLog id time (ops_of cs) (Committed time2)))).
Proof.
  intros Ha Hg Hk e2 id. destruct (begin_spec path now time e Ha) as
    (e1 & Eb & Ht & Hv & Hl & Hc & Hm & Htx & Ho & Hf).
  assert (walPath (tx e1) = wal_name path e) as Hw by (by rewrite Htx).
  destruct (run_keeps cs e1 Hk) as [Hb Hfiles]; [rewrite Hw; apply wal_name_nonempty|].
  pose proof (run_calls_frame cs e1) as [F1 F2 F3 F4 F5 F6 F7 F8 F9 F10].
  unfold e2. rewrite Eb. cbn [snd]. set (ex := fold_left run_call cs e1) in *.
  rewrite Htx in F7, F8, F9, Hb. cbn [active mvccTxId walPath txBuffer app] in *.
  assert (id <> 0%Z) as Hid by (unfold id; simpl; rewrite u64_id; lia).
  unfold applyAndCommit. rewrite F7, Hb. cbn [negb].
  destruct (apply_buffer (ops_of cs) ex) as [[msg|] ea] eqn:Eap; [done|].
  pose proof (apply_buffer_applied _ _ _ _ Eap) as [A1 A2 A3 A4 A5].
  assert (tx ea = tx ex) as Hta by (unfold tx; by rewrite A3, A4).
  rewrite Hta, F8, F9. fold id.
  rewrite bool_decide_false by apply wal_name_nonempty.
  rewrite !(proj2 (Z.eqb_neq id 0)) by done. cbn [orb]. intros [= <-].
  split; [|split; [|split]].
  - exists ea. split; [by apply apply_buffer_in_order|done].
  - simpl. unfold TransactionManager.isCommitted. rewrite (proj2 (Z.eqb_neq id 0)) by done.
    case_bool_decide as Hin; [done|].
    pose proof (TransactionManager.commitTx_dropped id (txManager_ ea) id (or_introl eq_refl) Hin) as Hlt.
    rewrite TransactionManager.commitTx_active, lookup_delete_eq, bool_decide_true by done.
    by rewrite (proj2 (Z.ltb_lt _ _)).
  - unfold tx. simpl. by rewrite lookup_insert_eq.
  - simpl. rewrite lookup_insert_eq, A5. rewrite Hw in Hfiles. rewrite Hfiles, Hf, lookup_insert_eq.
    f_equal. unfold tx_lines. cbn [l_id l_ts l_ops l_end]. rewrite !unlines_app. fold id.
    destruct (ops_of cs) as [|o os]; unfold default, from_option, Datatypes.id; rewrite <- ?app_assoc; done.
Qed.

(** ** Savepoints against full snapshots *)

(** The specification keeps a copy of the buffer with every savepoint. *)
Definition snapshots : Type := list BufferedOp * list (bytes * list BufferedOp).

Fixpoint find_snapshot (name : bytes) (l : list (bytes * list BufferedOp)) : option nat :=
  match l with
  | [] => None
  | sp :: l' =>
      match find_snapshot name l' with
      | Some i => Some (S i)
      | None => if bytes_eqb sp.1 name then Some 0 else None
      end
  end.

Definition spec_call (s : snapshots) (c : tcall) : snapshots :=
  let '(buf, st) := s in
  match c with
  | TBuffer op => (buf ++ [op], st)
  | TSavepoint n => (buf, st ++ [(n, buf)])
  | TRollbackTo n =>
      match find_snapshot n st with
      | Some i => (match st !! i with Some (_, b) => b | None => buf end, take i st)
      | None => s
      end
  | TRelease n =>
      match find_snapshot n st with Some i => (buf, take i st) | None => s end
  end.

(** The session's savepoints are the lengths of the snapshots, which are
    prefixes of each other and of the buffer. *)
Definition simulates (s : TxState) (sp : snapshots) : Prop :=
  active s = true /\ txBuffer s = sp.1 /\
  savepoints s = map (fun nb => mkSavepoint nb.1 (length nb.2)) sp.2 /\
  StronglySorted prefix (map snd sp.2 ++ [sp.1]).

Lemma find_savepoint_map n st :
  find_savepoint n (map (fun nb => mkSavepoint nb.1 (length nb.2)) st) = find_snapshot n st.
Proof. induction st as [|[m b] st IH]; [done|]. cbn [map find_savepoint find_snapshot]. by rewrite IH. Qed.

Lemma find_snapshot_bound n st i : find_snapshot n st = Some i -> i < length st.
Proof.
  revert i. induction st as [|[m b] st IH]; intros i; [done|]. cbn [find_snapshot].
  destruct (find_snapshot n st) as [j|] eqn:E.
  - intros [= <-]. simpl. specialize (IH j eq_refl). lia.
  - destruct (bytes_eqb _ _); [|done]. intros [= <-]. simpl. lia.
Qed.

Lemma ssorted_app_inv {A} (R : relation A) l1 l2 :
  StronglySorted R (l1 ++ l2) ->
  StronglySorted R l1 /\ StronglySorted R l2 /\ Forall (fun x => Forall (R x) l2) l1.
Proof.
  induction l1 as [|x l1 IH]; cbn [app]; intros H; [split_and!; [constructor|done|constructor]|].
  apply StronglySorted_inv in H as [H Hf]. apply Forall_app in Hf as [Hf1 Hf2].
  destruct (IH H) as (H1 & H2 & H3). split_and!; [by constructor|done|by constructor].
Qed.

Lemma ssorted_app {A} (R : relation A) l1 l2 :
  StronglySorted R l1 -> StronglySorted R l2 -> Forall (fun x => Forall (R x) l2) l1 ->
  StronglySorted R (l1 ++ l2).
Proof.
  induction 1 as [|x l1 H1 IH Hf]; intros H2 H3; [done|]. apply Forall_cons in H3 as [Hx H3].
  cbn [app]. constructor; [by apply IH|]. by apply Forall_app.
Qed.

Lemma simulates_call e sp c :
  simulates (tx e) sp -> simulates (tx (run_call e c)) (spec_call sp c).
Proof.
  destruct sp as [buf st]. intros (Ha & Hb & Hs & Hso). cbn [fst snd] in *.
  pose proof (ssorted_app_inv _ _ _ Hso) as (S1 & _ & S3).
  destruct c as [op|n|n|n]; cbn [run_call spec_call].
  - unfold bufferOp. rewrite tx_set_tx. split_and!; cbn; [done|by rewrite Hb|done|].
    apply ssorted_app; [done|repeat constructor|]. eapply Forall_impl; [exact S3|].
    intros x Hx. cbn beta in Hx. rewrite Forall_singleton in Hx. apply Forall_singleton. by apply prefix_app_r.
  - unfold createSavepoint. rewrite Ha. cbn [negb snd]. rewrite tx_set_tx.
    split_and!; cbn; [done|done| |].
    + rewrite map_app, Hs, Hb. done.
    + rewrite map_app, <- app_assoc. cbn [map snd app]. apply ssorted_app; [done| |].
      * constructor; [constructor; constructor|by apply Forall_singleton].
      * eapply Forall_impl; [exact S3|]. intros x Hx. cbn beta in Hx. rewrite Forall_singleton in Hx.
        apply Forall_cons. split; [done|by apply Forall_singleton].
  - unfold rollbackToSavepoint. rewrite Ha, Hs, find_savepoint_map. cbn [negb].
    destruct (find_snapshot n st) as [i|] eqn:E; cbn [snd]; [|done].
    pose proof (find_snapshot_bound _ _ _ E) as Hi.
    apply lookup_lt_is_Some_2 in Hi as [[m b] Hmb]. rewrite Hmb.
    rewrite list_lookup_fmap, Hmb, tx_set_tx. cbn [fmap option_fmap option_map txSize snd].
    assert (prefix b buf) as [k Hk].
    { rewrite Forall_forall in S3. assert (b ∈ map snd st) as Hin.
      { apply (list_elem_of_fmap_2 snd _ (m, b)). by eapply list_elem_of_lookup_2. }
      specialize (S3 b Hin). by rewrite Forall_singleton in S3. }
    split_and!; cbn.
    + done.
    + rewrite Hb, Hk. unfold resize_buffer. rewrite take_app_length, length_app.
      replace (length b - _) with 0 by lia. by rewrite app_nil_r.
    + by rewrite firstn_map.
    + rewrite <- (take_drop_middle st i (m, b) Hmb), map_app in S1. cbn [map snd] in S1.
      apply ssorted_app_inv in S1 as (T1 & T2 & T3). apply ssorted_app; [done|repeat constructor|].
      eapply Forall_impl; [exact T3|]. intros x Hx. cbn beta in Hx. apply Forall_cons in Hx as [Hx _].
      by apply Forall_singleton.
  - unfold releaseSavepoint. rewrite Ha, Hs, find_savepoint_map. cbn [negb].
    destruct (find_snapshot n st) as [i|] eqn:E; cbn [snd]; [|done].
    rewrite tx_set_tx. split_and!; cbn; [done|done|by rewrite firstn_map|].
    rewrite <- (take_drop i st), map_app, <- app_assoc in Hso.
    apply ssorted_app_inv in Hso as (T1 & T2 & T3). apply ssorted_app; [done|repeat constructor|].
    eapply Forall_impl; [exact T3|]. intros x Hx. cbn beta in Hx. apply Forall_app in Hx as [_ Hx]. done.
Qed.

(** Savepoints, which store only a length, behave as if each stored a
    copy of the buffer: after any sequence of calls the buffer is the one the
    specification with full copies computes. *)
Theorem savepoints_refine_snapshots path now time cs e :
  active (tx e) = false ->
  txBuffer (tx (fold_left run_call cs (beginTransaction path now time e).2)) =
    (fold_left spec_call cs ([], [])).1.
Proof.
  intros Ha. destruct (begin_spec path now time e Ha) as
    (e1 & Eb & Ht & Hv & Hl & Hc & Hm & Htx & Ho & Hf). rewrite Eb. cbn [snd].
  assert (simulates (tx e1) ([], [])) as Hsim.
  { rewrite Htx. split_and!; [done|done|done|repeat constructor]. }
  revert Hsim. generalize (([], []) : snapshots). clear. revert e1.
  induction cs as [|c cs IH]; intros e1 sp Hsim; cbn [fold_left]; [by destruct Hsim as (_ & ? & _)|].
  by apply IH, simulates_call.
Qed.
End transaction.

Arguments Engine : clear implicits.

(** ** Examples *)

From S2P Require Import BTree.

Definition no_hash (s : bytes) : Z := 0.
Definition no_gen (e : bytes) (cs : list Column) (vs : list bytes) : bytes := [].

Definition ex_engine : Engine BTree :=
  mkEngine {[ str "public.t" := Table.table (str "public.t") [column (str "id") (str "INT")] ]}
    TransactionManager.initial VacuumManager.initial Locks.initial ∅ [] (str "REPEATABLE READ") ∅.

Definition ins (v : bytes) : BufferedOp :=
  mkOp (Some INSERT) (str "public.t") [v] [] [] [] [] [] [] [] [].

Definition ex_calls : list tcall :=
  [TBuffer (ins (str "1")); TSavepoint (str "s"); TBuffer (ins (str "2"))].

Definition ex_committed : outcome (tree := BTree) :=
  applyAndCommit no_gen 1 6 (fold_left run_call ex_calls
    (beginTransaction no_hash (str "db.wal") [] 5 ex_engine).2).

Lemma commit_logged_witness :
  files ex_committed.2 !! str "db.wal.sess_default" =
    Some (unlines (tx_lines (mkTxLog 1 5 [ins (str "1"); ins (str "2")] (Committed 6)))).
Proof.
  destruct (commit_logged no_hash no_gen (str "db.wal") [] 5 6 1 ex_calls ex_engine ex_committed.2)
    as (_ & _ & _ & H).
  - reflexivity.
  - by_decide.
  - repeat constructor.
  - vm_compute. reflexivity.
  - exact H.
Defined.

Lemma savepoints_refine_snapshots_witness :
  txBuffer (tx (fold_left run_call (ex_calls ++ [TRollbackTo (str "s")])
    (beginTransaction no_hash (str "db.wal") [] 5 ex_engine).2)) = [ins (str "1")].
Proof.
  etransitivity; [apply savepoints_refine_snapshots; reflexivity|]. vm_compute. reflexivity.
Defined.

(** ROLLBACK TO SAVEPOINT does not touch the log: after the commit, recovery
    replays the discarded operation as well. *)
Definition ex_partial : outcome (tree := BTree) :=
  applyAndCommit no_gen 1 6 (fold_left run_call (ex_calls ++ [TRollbackTo (str "s")])
    (beginTransaction no_hash (str "db.wal") [] 5 ex_engine).2).

Lemma discarded_operation_replayed :
  (recover (fun op ops => (true, ops ++ [op]))
     (default [] (files ex_partial.2 !! str "db.wal.sess_default")) []).2
    = [ins (str "1"); ins (str "2")] /\
  match tables_ ex_partial.2 !! str "public.t" with
  | Some t => map values (rows_ t) = [[str "1"]]
  | None => False
  end.
Proof. vm_compute. by split. Qed.

(** A COMMIT whose second operation fails leaves the first one applied and the
    transaction open with its full buffer. *)
Definition ex_failing : outcome (tree := BTree) :=
  applyAndCommit no_gen 1 6 (fold_left run_call
    [TBuffer (ins (str "1")); TBuffer (mkOp (Some DELETE_ALL) (str "nope") [] [] [] [] [] [] [] [] [])]
    (beginTransaction no_hash (str "db.wal") [] 5 ex_engine).2).

Lemma failed_commit_is_partial :
  ex_failing.1 <> None /\ active (tx ex_failing.2) = true /\ length (txBuffer (tx ex_failing.2)) = 2 /\
  match tables_ ex_failing.2 !! str "public.t" with
  | Some t => map values (rows_ t) = [[str "1"]]
  | None => False
  end.
Proof. vm_compute. by split_and!. Qed.
