(* ===== verification/Joins.v ===== *)
(** * Join operators ([src/executor/hash_join.hpp], [merge_join.hpp],
      [indexed_nested_loop.hpp], [join_planner.hpp])

    Each operator is modelled as the sequence of value rows it hands to
    [next.insert]; [emit] is the insertion.  The nested loop is the reference:
    the hash join produces it exactly, the indexed loop exactly when the index
    is exact, the merge join up to the order of rows. *)

From S2P Require Import Prelude Index Partition Table.

(** [ci < row.values.size() ? row.values[ci] : ""] *)
Definition key_of (ci : nat) (r : Row) : bytes := default [] (values r !! ci).

Definition nulls (n : nat) : list bytes := replicate n NULL.

Inductive JoinType := INNER | LEFT | RIGHT | FULL | CROSS.

#[export] Instance JoinType_eq_dec : EqDecision JoinType.
Proof. solve_decision. Defined.

(** ** The planner *)

Inductive JoinStrategy := NESTED_LOOP | HASH_JOIN | MERGE_JOIN.

Definition THRESHOLD : nat := 10.

Definition choose (leftSize rightSize : nat) (leftHasIndex rightHasIndex : bool) : JoinStrategy :=
  if (leftSize <? THRESHOLD) && (rightSize <? THRESHOLD) then NESTED_LOOP
  else if leftHasIndex && rightHasIndex then MERGE_JOIN
  else HASH_JOIN.

(** ** Nested loop ([Engine::executeJoins], the branch for small tables) *)

Definition matches (lci rci : nat) (l : Row) (rrows : list Row) : list Row :=
  List.filter (fun r => bytes_eqb (key_of rci r) (key_of lci l)) rrows.

Definition combine (l : Row) (r : Row) : list bytes := values l ++ values r.

Definition inner_join (lci rci : nat) (lrows rrows : list Row) : list (list bytes) :=
  mjoin (map (fun l => map (combine l) (matches lci rci l rrows)) lrows).

Definition left_join (lci rci rightWidth : nat) (lrows rrows : list Row) : list (list bytes) :=
  mjoin (map (fun l =>
    match matches lci rci l rrows with
    | [] => [values l ++ nulls rightWidth]
    | ms => map (combine l) ms
    end) lrows).

Definition right_join (lci rci leftWidth : nat) (lrows rrows : list Row) : list (list bytes) :=
  mjoin (map (fun r =>
    match matches rci lci r lrows with
    | [] => [nulls leftWidth ++ values r]
    | ms => map (fun l => combine l r) ms
    end) rrows).

Definition full_join (lci rci leftWidth rightWidth : nat) (lrows rrows : list Row)
  : list (list bytes) :=
  left_join lci rci rightWidth lrows rrows ++
  map (fun r => nulls leftWidth ++ values r)
    (List.filter (fun r => bool_decide (matches rci lci r lrows = [])) rrows).

Definition nested_loop (jt : JoinType) (lci rci lw rw : nat) (lrows rrows : list Row)
  : list (list bytes) :=
  match jt with
  | INNER => inner_join lci rci lrows rrows
  | LEFT => left_join lci rci rw lrows rrows
  | RIGHT => right_join lci rci lw lrows rrows
  | FULL => full_join lci rci lw rw lrows rrows
  | CROSS => []
  end.

(** CROSS JOIN, the only branch that skips dead rows. *)
Definition cross_join (lrows rrows : list Row) : list (list bytes) :=
  mjoin (map (fun l => map (combine l) (List.filter alive rrows)) lrows).

(** ** Hash join *)

(** [hashMap[key].push_back(ri)] for the rows from number [k] on. *)
Fixpoint build (ci k : nat) (rows : list Row) (m : gmap bytes (list nat)) : gmap bytes (list nat) :=
  match rows with
  | [] => m
  | r :: rows' =>
      let key := key_of ci r in
      build ci (S k) rows' (<[key := default [] (m !! key) ++ [k]]> m)
  end.

Definition row_at (rows : list Row) (i : nat) : Row := nth i rows (row_of []).

Definition probe_left (pad : bool) (lci rw : nat) (rrows : list Row) (m : gmap bytes (list nat))
    (l : Row) : list (list bytes) :=
  match m !! key_of lci l with
  | Some ris => map (fun ri => combine l (row_at rrows ri)) ris
  | None => if pad then [values l ++ nulls rw] else []
  end.

Definition probe_right (rci lw : nat) (lrows : list Row) (m : gmap bytes (list nat)) (r : Row)
  : list (list bytes) :=
  match m !! key_of rci r with
  | Some lis => map (fun li => combine (row_at lrows li) r) lis
  | None => [nulls lw ++ values r]
  end.

(** The row numbers the probe of the left rows marks in [rightMatched]. *)
Definition marked (lci : nat) (m : gmap bytes (list nat)) (lrows : list Row) : list nat :=
  mjoin (map (fun l => default [] (m !! key_of lci l)) lrows).

Definition hash_join (jt : JoinType) (lci rci lw rw : nat) (lrows rrows : list Row)
  : list (list bytes) :=
  match jt with
  | INNER => mjoin (map (probe_left false lci rw rrows (build rci 0 rrows ∅)) lrows)
  | LEFT => mjoin (map (probe_left true lci rw rrows (build rci 0 rrows ∅)) lrows)
  | RIGHT => mjoin (map (probe_right rci lw lrows (build lci 0 lrows ∅)) rrows)
  | FULL =>
      let m := build rci 0 rrows ∅ in
      mjoin (map (probe_left true lci rw rrows m) lrows) ++
      map (fun ri => nulls lw ++ values (row_at rrows ri))
        (List.filter (fun ri => negb (bool_decide (ri ∈ marked lci m lrows)))
           (seq 0 (length rrows)))
  | CROSS => []
  end.

(** ** Merge join *)

(** The two-pointer loop; a pointer is the suffix of rows it still has to
    read, in the order of the sorted index array. *)
Fixpoint merge (fuel : nat) (lci rci : nat) (ls rs : list Row) : list (list bytes) :=
  match fuel with
  | O => []
  | S fuel' =>
      match ls, rs with
      | l :: ls', r :: rs' =>
          let lv := key_of lci l in
          let rv := key_of rci r in
          if bytes_ltb lv rv then merge fuel' lci rci ls' rs
          else if bytes_ltb rv lv then merge fuel' lci rci ls rs'
          else
            let group := r :: take_while (fun r2 => bytes_eqb (key_of rci r2) lv) rs' in
            let rest := drop_while (fun r2 => bytes_eqb (key_of rci r2) lv) rs' in
            mjoin (map (fun l2 => map (combine l2) group)
                     (take_while (fun l2 => bytes_eqb (key_of lci l2) lv) ls))
            ++ merge fuel' lci rci (drop_while (fun l2 => bytes_eqb (key_of lci l2) lv) ls) rest
      | _, _ => []
      end
  end.

(** [std::sort] of the row numbers by key; the order of equal keys is not
    specified, so the sort is a parameter: it gets the keys and returns the
    numbers. *)
Definition sorts (sort : list bytes -> list nat) : Prop :=
  forall ks, sort ks ≡ₚ seq 0 (length ks) /\
             StronglySorted bytes_le (map (fun i => nth i ks []) (sort ks)).

Definition merge_join (sort : list bytes -> list nat) (lci rci : nat) (lrows rrows : list Row)
  : list (list bytes) :=
  let leftIdx := sort (map (key_of lci) lrows) in
  let rightIdx := sort (map (key_of rci) rrows) in
  merge (length leftIdx + length rightIdx) lci rci
    (map (row_at lrows) leftIdx) (map (row_at rrows) rightIdx).

(** ** Resolving the ON clause *)

(** [tblNamesMatch] *)
Definition name_suffix (a b : bytes) : bool :=
  let k := length b - length a in
  (length a + 1 <? length b) && (nth (k - 1) b 0 =? DOT)%Z && bytes_eqb (drop k b) a.

Definition tblNamesMatch (a b : bytes) : bool :=
  bytes_eqb a b || name_suffix a b || name_suffix b a.

Definition tblOf (s : bytes) : bytes := default [] (split_name s).1.
Definition bareColOf (s : bytes) : bytes := (split_name s).2.

Definition qual_ok (raw tblPrefix : bytes) (c : Column) : bool :=
  let '(p, suf) := split_name (c_name c) in
  bytes_eqb suf raw &&
  (bytes_eqb tblPrefix [] || bytes_eqb (default [] p) [] ||
   tblNamesMatch (default [] p) tblPrefix).

Definition findQualColIdx (cs : list Column) (qual : bytes) : result nat :=
  match list_find (fun c => c_name c = qual) cs with
  | Some (i, _) => Ok i
  | None =>
      match list_find (fun c => qual_ok (bareColOf qual) (tblOf qual) c = true) cs with
      | Some (i, _) => Ok i
      | None => Throw "JOIN ON: Spalte nicht im Ergebnis gefunden"
      end
  end.

Definition findRawColIdx (cs : list Column) (qual : bytes) : result nat :=
  match list_find (fun c => c_name c = bareColOf qual) cs with
  | Some (i, _) => Ok i
  | None => Throw "JOIN ON: Spalte in rechter Tabelle nicht gefunden"
  end.

Record JoinClause := mkJoin { joinType : JoinType; jc_table : bytes; onLeft : bytes; onRight : bytes }.

(** Which side of ON belongs to the result so far, which to the new table. *)
Definition on_sides (jc : JoinClause) : bytes * bytes :=
  if tblNamesMatch (tblOf (onLeft jc)) (jc_table jc) then (onRight jc, onLeft jc)
  else (onLeft jc, onRight jc).

(** ** The chain of joins *)

Section operators.
Context {tree : Type} {RI : RowIndex tree}.

Definition inl_row (right : Table tree) (lci rci rw : nat) (rightColBare : bytes) (jt : JoinType)
    (l : Row) : list (list bytes) :=
  let lval := key_of lci l in
  let found := omap (fun ri =>
    match rows_ right !! ri with
    | Some r => if bytes_eqb (key_of rci r) lval then Some (combine l r) else None
    | None => None
    end) (indexSearch right rightColBare lval) in
  if bool_decide (found = []) && bool_decide (jt = LEFT)
  then [values l ++ nulls rw] else found.

Definition indexed_nested_loop (jt : JoinType) (lrows : list Row) (right : Table tree)
    (lci rci : nat) (rightColBare : bytes) : list (list bytes) :=
  mjoin (map (inl_row right lci rci (length (columns_ right)) rightColBare jt) lrows).

(** [Table next("", newCols)] and [next.insert] for each row. *)
Fixpoint insert_all (t : Table tree) (rows : list Row) : result (Table tree) :=
  match rows with
  | [] => Ok t
  | r :: rows' => match insert_row t r with Ok t' => insert_all t' rows' | Throw e => Throw e end
  end.

Definition emit (newCols : list Column) (outs : list (list bytes)) : result (Table tree) :=
  insert_all (table [] newCols) (map row_of outs).

Definition qualified (tbl : bytes) (cs : list Column) : list Column :=
  map (fun c => column (tbl ++ [DOT] ++ c_name c) (c_type c)) cs.

Definition MAX_JOIN_ROWS : Z := 500000.

Definition getTable (tables_ : gmap bytes (Table tree)) (n : bytes) : result (Table tree) :=
  match tables_ !! n with Some t => Ok t | None => Throw "Tabelle nicht gefunden" end.

(** The hook [g_joinMethodAdvisor]: it gets the right table, its column, both
    row counts and whether the right side has an index; no hook installed is
    the function that returns the empty string. *)
Definition Advisor : Type := bytes -> bytes -> nat -> nat -> bool -> bytes.

Definition INDEXED : bytes := str "nested_loop_indexed".

(** The rows of one join step after the ON columns are known. *)
Definition join_rows (method : bytes) (sort : list bytes -> list nat) (jt : JoinType)
    (current right : Table tree) (lci rci : nat) (rightColBare : bytes) (leftHasIdx rightHasIdx : bool)
  : list (list bytes) :=
  let lrows := rows_ current in
  let rrows := rows_ right in
  let lw := length (columns_ current) in
  let rw := length (columns_ right) in
  let strategy := choose (length lrows) (length rrows) leftHasIdx rightHasIdx in
  if bytes_eqb method INDEXED && (bool_decide (jt = INNER) || bool_decide (jt = LEFT))
  then indexed_nested_loop jt lrows right lci rci rightColBare
  else
    match (if bytes_eqb method (str "hash") then HASH_JOIN else strategy) with
    | HASH_JOIN => hash_join jt lci rci lw rw lrows rrows
    | MERGE_JOIN =>
        if bool_decide (jt = INNER) then merge_join sort lci rci lrows rrows
        else hash_join jt lci rci lw rw lrows rrows
    | NESTED_LOOP => nested_loop jt lci rci lw rw lrows rrows
    end.

Definition join_step (tables_ : gmap bytes (Table tree)) (advisor : Advisor)
    (sort : list bytes -> list nat) (current : Table tree) (jc : JoinClause) : result (Table tree) :=
  right ← getTable tables_ (jc_table jc);
  let newCols := columns_ current ++ qualified (jc_table jc) (columns_ right) in
  if bool_decide (joinType jc = CROSS) then
    let liveRight := Z.of_nat (length (List.filter alive (rows_ right))) in
    if ((0 <? liveRight) && (MAX_JOIN_ROWS / liveRight <? Z.of_nat (length (rows_ current))))%Z
    then Throw "CROSS JOIN result exceeds maximum row limit"
    else emit newCols (cross_join (rows_ current) (rows_ right))
  else
    let '(resultSide, rightSide) := on_sides jc in
    leftCI ← findQualColIdx (columns_ current) resultSide;
    rightCI ← findRawColIdx (columns_ right) rightSide;
    let rightHasIdx := hasIndex right (bareColOf rightSide) in
    let leftHasIdx :=
      match (split_name resultSide).1 with
      | Some lTbl =>
          match tables_ !! lTbl with Some t => hasIndex t (bareColOf resultSide) | None => false end
      | None => false
      end in
    let method := advisor (jc_table jc) (bareColOf rightSide) (length (rows_ current))
                    (length (rows_ right)) rightHasIdx in
    emit newCols
      (join_rows method sort (joinType jc) current right leftCI rightCI (bareColOf rightSide)
         leftHasIdx rightHasIdx).

(** The start: the live rows of the base table under qualified names. *)
Definition join_base (tables_ : gmap bytes (Table tree)) (baseName : bytes) : result (Table tree) :=
  base ← getTable tables_ baseName;
  insert_all (table [] (qualified baseName (columns_ base))) (List.filter alive (rows_ base)).

Fixpoint join_loop (tables_ : gmap bytes (Table tree)) (advisor : Advisor)
    (sort : list bytes -> list nat) (joins : list JoinClause) (current : Table tree)
  : result (Table tree) :=
  match joins with
  | [] => Ok current
  | jc :: joins' =>
      current ← join_step tables_ advisor sort current jc;
      join_loop tables_ advisor sort joins' current
  end.

Definition executeJoins (tables_ : gmap bytes (Table tree)) (advisor : Advisor)
    (sort : list bytes -> list nat) (baseName : bytes) (joins : list JoinClause)
  : result (Table tree) :=
  current ← join_base tables_ baseName;
  join_loop tables_ advisor sort joins current.

(** *** The reference: nested loops throughout *)

Definition nested_step (tables_ : gmap bytes (Table tree)) (current : Table tree) (jc : JoinClause)
  : result (Table tree) :=
  right ← getTable tables_ (jc_table jc);
  let newCols := columns_ current ++ qualified (jc_table jc) (columns_ right) in
  if bool_decide (joinType jc = CROSS) then
    let liveRight := Z.of_nat (length (List.filter alive (rows_ right))) in
    if ((0 <? liveRight) && (MAX_JOIN_ROWS / liveRight <? Z.of_nat (length (rows_ current))))%Z
    then Throw "CROSS JOIN result exceeds maximum row limit"
    else emit newCols (cross_join (rows_ current) (rows_ right))
  else
    let '(resultSide, rightSide) := on_sides jc in
    leftCI ← findQualColIdx (columns_ current) resultSide;
    rightCI ← findRawColIdx (columns_ right) rightSide;
    emit newCols (nested_loop (joinType jc) leftCI rightCI (length (columns_ current))
                    (length (columns_ right)) (rows_ current) (rows_ right)).

Definition nested_joins (tables_ : gmap bytes (Table tree)) (baseName : bytes)
    (joins : list JoinClause) : result (Table tree) :=
  current ← join_base tables_ baseName;
  fold_left (fun cur jc => cur ← cur; nested_step tables_ cur jc) joins (Ok current).
End operators.

(** ** The hash map *)

(** Numbers, from [k], of the rows whose key is [key]. *)
Fixpoint positions (ci k : nat) (key : bytes) (rows : list Row) : list nat :=
  match rows with
  | [] => []
  | r :: rows' =>
      (if bytes_eqb (key_of ci r) key then [k] else []) ++ positions ci (S k) key rows'
  end.

Lemma build_lookup ci k rows m key :
  default [] (build ci k rows m !! key) = default [] (m !! key) ++ positions ci k key rows /\
  (is_Some (build ci k rows m !! key) <-> is_Some (m !! key) \/ positions ci k key rows <> []).
Proof.
  revert k m. induction rows as [|r rows IH]; intros k m; cbn [build positions].
  { rewrite app_nil_r. split; [done|]. tauto. }
  destruct (IH (S k) (<[key_of ci r := default [] (m !! key_of ci r) ++ [k]]> m)) as [H1 H2].
  rewrite H1, H2. clear IH H1 H2. unfold bytes_eqb. destruct (decide (key_of ci r = key)) as [<-|Hne].
  - rewrite bool_decide_true by done. rewrite lookup_insert_eq. simpl. rewrite <- app_assoc. simpl.
    split; [done|]. split; [by right|]. by left.
  - rewrite bool_decide_false by done. rewrite lookup_insert_ne by done. done.
Qed.

Lemma build_spec ci rows key :
  build ci 0 rows ∅ !! key =
    (if bool_decide (positions ci 0 key rows = []) then None else Some (positions ci 0 key rows)).
Proof.
  destruct (build_lookup ci 0 rows ∅ key) as [H1 H2]. rewrite lookup_empty in *. simpl in *.
  case_bool_decide as E.
  - apply eq_None_not_Some. rewrite H2. intros [[? ?]|?]; done.
  - destruct (build ci 0 rows ∅ !! key) as [l|] eqn:El; [by simpl in *; subst|].
    destruct H2 as [_ H2]. destruct H2 as [? ?]; [by right|]. done.
Qed.

Lemma positions_rows ci key pre rows :
  map (row_at (pre ++ rows)) (positions ci (length pre) key rows) =
  List.filter (fun r => bytes_eqb (key_of ci r) key) rows.
Proof.
  revert pre. induction rows as [|r rows IH]; intros pre; [done|]. cbn [positions List.filter].
  rewrite map_app. specialize (IH (pre ++ [r])). rewrite length_app, <- app_assoc in IH.
  simpl in IH. rewrite Nat.add_1_r in IH. rewrite IH.
  destruct (bytes_eqb _ _); [|done]. simpl. f_equal. unfold row_at.
  rewrite app_nth2, Nat.sub_diag by lia. done.
Qed.

Lemma positions_rows0 ci key rows :
  map (row_at rows) (positions ci 0 key rows) = List.filter (fun r => bytes_eqb (key_of ci r) key) rows.
Proof. apply (positions_rows ci key []). Qed.

Lemma positions_nil ci key rows :
  positions ci 0 key rows = [] <-> List.filter (fun r => bytes_eqb (key_of ci r) key) rows = [].
Proof.
  rewrite <- positions_rows0. split; [by intros ->|]. by destruct (positions ci 0 key rows).
Qed.

Lemma probe_left_spec pad lci rci rw rrows l :
  probe_left pad lci rw rrows (build rci 0 rrows ∅) l =
    match matches lci rci l rrows with
    | [] => if pad then [values l ++ nulls rw] else []
    | ms => map (combine l) ms
    end.
Proof.
  unfold probe_left, matches. rewrite build_spec.
  pose proof (positions_nil rci (key_of lci l) rrows) as Hn. rewrite <- positions_rows0 in *.
  case_bool_decide as E; [by rewrite E|]. destruct (positions rci 0 (key_of lci l) rrows); [done|].
  cbn [map]. f_equal. symmetry. apply map_map.
Qed.

Lemma probe_right_spec lci rci lw lrows r :
  probe_right rci lw lrows (build lci 0 lrows ∅) r =
    match matches rci lci r lrows with
    | [] => [nulls lw ++ values r]
    | ms => map (fun l => combine l r) ms
    end.
Proof.
  unfold probe_right, matches. rewrite build_spec. rewrite <- positions_rows0.
  case_bool_decide as E; [by rewrite E|]. destruct (positions lci 0 (key_of rci r) lrows); [done|].
  cbn [map]. f_equal. symmetry. apply map_map.
Qed.

Lemma elem_positions ci key k rows i :
  i ∈ positions ci k key rows <->
  exists r, k <= i /\ rows !! (i - k) = Some r /\ key_of ci r = key.
Proof.
  revert k. induction rows as [|r rows IH]; intros k; cbn [positions].
  { split; [intros H; by apply not_elem_of_nil in H|]. intros (r & _ & H & _). done. }
  rewrite elem_of_app, IH. unfold bytes_eqb. split.
  - intros [H|(r' & H1 & H2 & H3)].
    + case_bool_decide; [|by apply not_elem_of_nil in H]. apply list_elem_of_singleton in H as ->.
      exists r. by rewrite Nat.sub_diag.
    + exists r'. split; [lia|]. by replace (i - k) with (S (i - S k)) by lia.
  - intros (r' & H1 & H2 & H3). destruct (decide (i = k)) as [->|].
    + rewrite Nat.sub_diag in H2. injection H2 as <-. left. rewrite bool_decide_true by done. by left.
    + right. exists r'. split; [lia|]. by replace (i - k) with (S (i - S k)) in H2 by lia.
Qed.

(** A right row is marked exactly when some left row has its key. *)
Lemma marked_spec lci rci lrows rrows i r :
  rrows !! i = Some r ->
  i ∈ marked lci (build rci 0 rrows ∅) lrows <-> matches rci lci r lrows <> [].
Proof.
  intros Hi. unfold marked, matches. rewrite list_elem_of_join. split.
  - intros (ris & Hin & Hr). apply list_elem_of_fmap in Hr as (l & -> & Hl).
    rewrite build_spec in Hin. case_bool_decide; [by apply not_elem_of_nil in Hin|].
    simpl in Hin. apply elem_positions in Hin as (r' & _ & Hr' & Hk). rewrite Nat.sub_0_r in Hr'.
    assert (r' = r) as -> by congruence. intros E.
    assert (In l (List.filter (fun l => bytes_eqb (key_of lci l) (key_of rci r)) lrows)) as Hc.
    { apply filter_In. split; [by apply list_elem_of_In|]. by apply bool_decide_eq_true. }
    by rewrite E in Hc.
  - intros Hne. destruct (List.filter _ lrows) as [|l ls] eqn:E; [done|].
    assert (In l (l :: ls)) as Hl by (by left). rewrite <- E in Hl.
    apply filter_In in Hl as [Hl Hk]. apply bool_decide_eq_true in Hk.
    exists (default [] (build rci 0 rrows ∅ !! key_of lci l)). split.
    + assert (i ∈ positions rci 0 (key_of lci l) rrows) as Hp.
      { apply elem_positions. exists r. rewrite Nat.sub_0_r. split_and!; [lia|done|done]. }
      rewrite build_spec. case_bool_decide as En; [rewrite En in Hp; by apply not_elem_of_nil in Hp|done].
    + apply (list_elem_of_fmap_2 (fun l => default [] (build rci 0 rrows ∅ !! key_of lci l))).
      by apply list_elem_of_In.
Qed.

Lemma filter_seq_rows (p : Row -> bool) (q : nat -> bool) rows :
  (forall i r, rows !! i = Some r -> q i = p r) ->
  map (row_at rows) (List.filter q (seq 0 (length rows))) = List.filter p rows.
Proof.
  intros H. assert (forall pre suf, pre ++ suf = rows ->
    map (row_at rows) (List.filter q (seq (length pre) (length suf))) = List.filter p suf) as Hg.
  2:{ by apply (Hg []). }
  intros pre suf. revert pre. induction suf as [|r suf IH]; intros pre E; [done|].
  cbn [length seq List.filter].
  rewrite (H (length pre) r) by (rewrite <- E; apply list_lookup_middle; done).
  specialize (IH (pre ++ [r])). rewrite length_app, Nat.add_1_r, <- app_assoc in IH.
  specialize (IH E). destruct (p r); cbn [map]; rewrite IH; [|done]. f_equal.
  unfold row_at. rewrite <- E, app_nth2, Nat.sub_diag by lia. done.
Qed.

(** The hash join computes the nested-loop join: for every join type it
    produces the same rows in the same order. *)
Lemma hash_join_nested jt lci rci lw rw lrows rrows :
  hash_join jt lci rci lw rw lrows rrows = nested_loop jt lci rci lw rw lrows rrows.
Proof.
  destruct jt; cbn [hash_join nested_loop]; [| | | |done].
  - unfold inner_join. f_equal. apply map_ext. intros l. rewrite probe_left_spec.
    by destruct (matches lci rci l rrows).
  - unfold left_join. f_equal. apply map_ext. intros l. by rewrite probe_left_spec.
  - unfold right_join. f_equal. apply map_ext. intros r. by rewrite probe_right_spec.
  - unfold full_join, left_join. f_equal.
    + f_equal. apply map_ext. intros l. by rewrite probe_left_spec.
    + rewrite <- (map_map (row_at rrows) (fun r => nulls lw ++ values r)). f_equal.
      apply filter_seq_rows. intros i r Hi.
      pose proof (marked_spec lci rci lrows rrows i r Hi) as Hm.
      case_bool_decide as H1; case_bool_decide as H2; tauto.
Qed.

(** ** The nested loop up to the order of the rows *)

Lemma mjoin_map_perm {A B} (f : A -> list B) l l' : l ≡ₚ l' -> mjoin (map f l) ≡ₚ mjoin (map f l').
Proof.
  induction 1 as [|x l l' _ IH|x y l|l1 l2 l3 _ IH1 _ IH2]; cbn [map]; rewrite ?mjoin_cons.
  - done.
  - by rewrite IH.
  - rewrite !(assoc_L (++)). f_equiv. apply Permutation_app_comm.
  - by etrans.
Qed.

Lemma mjoin_map_pointwise {A B} (f g : A -> list B) l :
  (forall x, f x ≡ₚ g x) -> mjoin (map f l) ≡ₚ mjoin (map g l).
Proof. intros H. induction l as [|x l IH]; cbn [map]; rewrite ?mjoin_cons; [done|]. by rewrite H, IH. Qed.

Lemma filter_perm {A} (p : A -> bool) l l' : l ≡ₚ l' -> List.filter p l ≡ₚ List.filter p l'.
Proof.
  induction 1 as [|x l l' _ IH|x y l|l1 l2 l3 _ IH1 _ IH2]; simpl; try done.
  - by destruct (p x); rewrite IH.
  - destruct (p x), (p y); try done. apply perm_swap.
  - by etrans.
Qed.

Lemma matches_perm lci rci l rrows rrows' :
  rrows ≡ₚ rrows' -> matches lci rci l rrows ≡ₚ matches lci rci l rrows'.
Proof. apply filter_perm. Qed.

Lemma inner_join_perm lci rci lrows lrows' rrows rrows' :
  lrows ≡ₚ lrows' -> rrows ≡ₚ rrows' ->
  inner_join lci rci lrows rrows ≡ₚ inner_join lci rci lrows' rrows'.
Proof.
  intros Hl Hr. unfold inner_join. rewrite (mjoin_map_perm _ _ _ Hl).
  apply mjoin_map_pointwise. intros l. by apply Permutation_map, matches_perm.
Qed.

Lemma nested_loop_perm jt lci rci lw rw lrows lrows' rrows :
  lrows ≡ₚ lrows' ->
  nested_loop jt lci rci lw rw lrows rrows ≡ₚ nested_loop jt lci rci lw rw lrows' rrows.
Proof.
  intros Hl. assert (left_join lci rci rw lrows rrows ≡ₚ left_join lci rci rw lrows' rrows) as Hlj
    by by apply mjoin_map_perm.
  destruct jt; cbn [nested_loop]; [by apply inner_join_perm|done| | |done].
  - apply mjoin_map_pointwise. intros r. pose proof (matches_perm rci lci r _ _ Hl) as Hm.
    destruct (matches rci lci r lrows).
    + by apply Permutation_nil_l in Hm as <-.
    + destruct (matches rci lci r lrows'); [by apply Permutation_nil_r in Hm|].
      by apply Permutation_map.
  - unfold full_join. rewrite Hlj. f_equiv. apply Permutation_map.
    erewrite List.filter_ext; [done|]. intros r. pose proof (matches_perm rci lci r _ _ Hl) as Hm.
    apply bool_decide_ext. split; intros E; rewrite E in Hm.
    + by apply Permutation_nil_l in Hm.
    + by apply Permutation_nil_r in Hm.
Qed.

Lemma cross_join_perm lrows lrows' rrows :
  lrows ≡ₚ lrows' -> cross_join lrows rrows ≡ₚ cross_join lrows' rrows.
Proof. apply mjoin_map_perm. Qed.

(** ** Merge join *)

Definition by_key (ci : nat) (r r' : Row) : Prop := bytes_le (key_of ci r) (key_of ci r').

Lemma matches_none lci rci l rrows :
  Forall (fun r => key_of rci r <> key_of lci l) rrows -> matches lci rci l rrows = [].
Proof.
  unfold matches, bytes_eqb. induction 1 as [|r rrows Hr _ IH]; simpl; [done|].
  by rewrite bool_decide_false.
Qed.

Lemma matches_all lci rci l rrows :
  Forall (fun r => key_of rci r = key_of lci l) rrows -> matches lci rci l rrows = rrows.
Proof.
  unfold matches, bytes_eqb. induction 1 as [|r rrows Hr _ IH]; simpl; [done|].
  rewrite bool_decide_true by done. by rewrite IH.
Qed.

Lemma matches_app lci rci l r1 r2 :
  matches lci rci l (r1 ++ r2) = matches lci rci l r1 ++ matches lci rci l r2.
Proof. apply List.filter_app. Qed.

Lemma take_while_Forall {A} (p : A -> bool) l : Forall (fun x => p x = true) (take_while p l).
Proof. induction l as [|x l IH]; simpl; [done|]. destruct (p x) eqn:E; by constructor. Qed.

Lemma drop_while_suffix {A} (p : A -> bool) l : drop_while p l `suffix_of` l.
Proof. exists (take_while p l). by rewrite take_drop_while. Qed.

(** The rows behind a group of equal keys in sorted rows have greater keys. *)
Lemma sorted_group ci v rows :
  StronglySorted (by_key ci) rows -> Forall (fun r => bytes_le v (key_of ci r)) rows ->
  Forall (fun r => bytes_lt v (key_of ci r)) (drop_while (fun r => bytes_eqb (key_of ci r) v) rows).
Proof.
  intros Hs Hv. induction Hs as [|r rows Hs IH Hr]; [done|].
  apply Forall_cons in Hv as [Hv1 Hv2]. cbn [drop_while]. unfold bytes_eqb at 1.
  case_bool_decide as E; [by apply IH|]. constructor; [bytes_order|].
  eapply Forall_impl; [exact Hr|]. intros r' H. cbn beta in H. unfold by_key in H. bytes_order.
Qed.

Lemma sorted_suffix {A} (R : A -> A -> Prop) l l' :
  StronglySorted R l -> l' `suffix_of` l -> StronglySorted R l'.
Proof. intros Hs [k ->]. induction k as [|x k IH]; [done|]. inversion Hs; subst. by apply IH. Qed.

Lemma mjoin_map_nil {A B} (f : A -> list B) l : Forall (fun x => f x = []) l -> mjoin (map f l) = [].
Proof. induction 1 as [|x l Hx _ IH]; cbn [map]; rewrite ?mjoin_cons; [done|]. by rewrite Hx, IH. Qed.

Lemma mjoin_map_app {A B} (f : A -> list B) l1 l2 :
  mjoin (map f (l1 ++ l2)) = mjoin (map f l1) ++ mjoin (map f l2).
Proof.
  induction l1 as [|x l1 IH]; [done|]. cbn [app map]. by rewrite !mjoin_cons, IH, (assoc_L (++)).
Qed.

Lemma mjoin_map_ext_Forall {A B} (f g : A -> list B) l :
  Forall (fun x => f x = g x) l -> mjoin (map f l) = mjoin (map g l).
Proof. induction 1 as [|x l Hx _ IH]; cbn [map]; rewrite ?mjoin_cons; [done|]. by rewrite Hx, IH. Qed.

Lemma inner_join_skip_right lci rci lrows r rrows :
  Forall (fun l => key_of rci r <> key_of lci l) lrows ->
  inner_join lci rci lrows (r :: rrows) = inner_join lci rci lrows rrows.
Proof.
  intros H. apply mjoin_map_ext_Forall. eapply Forall_impl; [exact H|]. intros l Hl. cbn beta in Hl.
  unfold matches. cbn [List.filter]. unfold bytes_eqb at 1. by rewrite bool_decide_false.
Qed.

(** One equal-key group: the cross product of the two groups, then the rest. *)
Lemma inner_join_group lci rci v lg lrest rg rrest :
  Forall (fun l => key_of lci l = v) lg -> Forall (fun l => bytes_lt v (key_of lci l)) lrest ->
  Forall (fun r => key_of rci r = v) rg -> Forall (fun r => bytes_lt v (key_of rci r)) rrest ->
  inner_join lci rci (lg ++ lrest) (rg ++ rrest) =
    mjoin (map (fun l => map (combine l) rg) lg) ++ inner_join lci rci lrest rrest.
Proof.
  intros Hlg Hlr Hrg Hrr. unfold inner_join at 1. rewrite mjoin_map_app. f_equal.
  - apply mjoin_map_ext_Forall. eapply Forall_impl; [exact Hlg|]. intros l <-.
    rewrite matches_app, matches_all, matches_none, app_nil_r; [done| |done].
    eapply Forall_impl; [exact Hrr|]. intros r Hr E. cbn beta in Hr. bytes_order.
  - apply mjoin_map_ext_Forall. eapply Forall_impl; [exact Hlr|]. intros l Hl. cbn beta in Hl.
    rewrite matches_app, (matches_none lci rci l rg); [done|].
    eapply Forall_impl; [exact Hrg|]. intros r Hr E. cbn beta in Hr. bytes_order.
Qed.

Lemma group_rows ci v rows :
  StronglySorted (by_key ci) rows -> Forall (fun r => bytes_le v (key_of ci r)) rows ->
  let p := fun r => bytes_eqb (key_of ci r) v in
  take_while p rows ++ drop_while p rows = rows /\
  Forall (fun r => key_of ci r = v) (take_while p rows) /\
  Forall (fun r => bytes_lt v (key_of ci r)) (drop_while p rows).
Proof.
  intros Hs Hv p. split_and!; [apply take_drop_while| |by apply sorted_group].
  eapply Forall_impl; [apply take_while_Forall|]. intros r Hr. by apply bool_decide_eq_true in Hr.
Qed.

Lemma sorted_head ci r rows :
  StronglySorted (by_key ci) (r :: rows) ->
  Forall (fun r' => bytes_le (key_of ci r) (key_of ci r')) (r :: rows).
Proof. intros H. inversion H; subst. constructor; [by right|done]. Qed.

(** On sorted rows the merge is the nested loop, given enough fuel. *)
Lemma merge_inner fuel lci rci ls rs :
  StronglySorted (by_key lci) ls -> StronglySorted (by_key rci) rs ->
  length ls + length rs <= fuel -> merge fuel lci rci ls rs = inner_join lci rci ls rs.
Proof.
  revert ls rs. induction fuel as [|fuel IH]; intros [|l ls] [|r rs] Hl Hr Hf; cbn [length] in Hf;
    try lia; try done.
  { symmetry. by apply mjoin_map_nil, Forall_forall. }
  pose proof (sorted_head _ _ _ Hl) as Hlh. pose proof (sorted_head _ _ _ Hr) as Hrh.
  cbn [merge]. destruct (bytes_ltb_spec (key_of lci l) (key_of rci r)) as [Hlt|Hlt].
  { inversion Hl; subst. rewrite IH by (cbn [length]; done || lia).
    unfold inner_join at 2. cbn [map]. rewrite mjoin_cons, matches_none; [done|].
    eapply Forall_impl; [exact Hrh|]. intros r' H E. cbn beta in H. bytes_order. }
  destruct (bytes_ltb_spec (key_of rci r) (key_of lci l)) as [Hgt|Hgt].
  { inversion Hr; subst. rewrite IH by (cbn [length]; done || lia).
    symmetry. apply inner_join_skip_right.
    eapply Forall_impl; [exact Hlh|]. intros l' H E. cbn beta in H. bytes_order. }
  assert (key_of rci r = key_of lci l) as E by bytes_order.
  rewrite E in Hrh. set (v := key_of lci l) in *.
  destruct (group_rows lci v (l :: ls) Hl Hlh) as (E1 & Hlg & Hlr).
  destruct (group_rows rci v (r :: rs) Hr Hrh) as (E2 & Hrg & Hrr).
  set (pl := fun l2 => bytes_eqb (key_of lci l2) v) in *.
  set (pr := fun r2 => bytes_eqb (key_of rci r2) v) in *.
  assert (pr r = true) as Epr by (by apply bool_decide_eq_true).
  assert (pl l = true) as Epl by (by apply bool_decide_eq_true).
  cbn [take_while drop_while] in E2, Hrg, Hrr. rewrite Epr in E2, Hrg, Hrr.
  rewrite IH.
  - rewrite <- (inner_join_group lci rci v) by done. by rewrite E1, E2.
  - eapply sorted_suffix; [exact Hl|]. exists (take_while pl (l :: ls)). by rewrite E1.
  - eapply sorted_suffix; [exact Hr|]. exists (r :: take_while pr rs). by rewrite E2.
  - cbn [drop_while]. rewrite Epl. apply (f_equal length) in E1, E2.
    cbn [take_while drop_while app] in E1, E2. rewrite Epl in E1.
    cbn [app length] in E1, E2. rewrite length_app in E1, E2. lia.
Qed.

Lemma sorts_rows sort ci rows :
  sorts sort ->
  let idx := sort (map (key_of ci) rows) in
  map (row_at rows) idx ≡ₚ rows /\ StronglySorted (by_key ci) (map (row_at rows) idx) /\
  length idx = length rows.
Proof.
  intros H. destruct (H (map (key_of ci) rows)) as [Hp Hs]. rewrite length_map in Hp. cbn zeta.
  set (idx := sort _) in *. split_and!.
  - rewrite Hp. rewrite <- (List.filter_true (seq 0 (length rows))) at 1.
    rewrite (filter_seq_rows (fun _ => true)) by done. by rewrite List.filter_true.
  - assert (Forall (fun i => i < length rows) idx) as Hi.
    { rewrite Hp. apply Forall_forall. intros i Hi. apply elem_of_seq in Hi. lia. }
    clear Hp. revert Hs Hi. generalize idx. intros l Hs Hi.
    assert (map (fun i => nth i (map (key_of ci) rows) []) l = map (key_of ci) (map (row_at rows) l)) as E.
    { rewrite map_map. apply map_ext_in. intros i Hin. rewrite Forall_forall in Hi.
      apply list_elem_of_In in Hin. specialize (Hi i Hin).
      rewrite (nth_indep _ [] (key_of ci (row_of []))) by (by rewrite length_map).
      by rewrite map_nth. }
    rewrite E in Hs. clear E Hi. induction l as [|i l IH]; [constructor|].
    cbn [map] in Hs |- *. inversion Hs as [|? ? Hs' Hall]; subst. constructor; [by apply IH|].
    by rewrite Forall_map in Hall.
  - rewrite Hp. apply length_seq.
Qed.

Lemma merge_join_perm sort lci rci lrows rrows :
  sorts sort -> merge_join sort lci rci lrows rrows ≡ₚ inner_join lci rci lrows rrows.
Proof.
  intros H. destruct (sorts_rows sort lci lrows H) as (Hl & Hls & Hll).
  destruct (sorts_rows sort rci rrows H) as (Hr & Hrs & Hrl).
  unfold merge_join. rewrite merge_inner; [by apply inner_join_perm|done|done|].
  rewrite !length_map. lia.
Qed.

(** ** Inserting the result rows *)

Definition unconstrained (cs : list Column) : Prop :=
  Forall (fun c => notNull c = false /\ isUnique c = false) cs.

Lemma unconstrained_qualified tbl cs : unconstrained (qualified tbl cs).
Proof. by apply Forall_map, Forall_forall. Qed.

Lemma check_unconstrained k cs vs rs : unconstrained cs -> check_constraints k cs vs rs = Ok ().
Proof.
  intros H. revert k vs. induction H as [|c cs [H1 H2] _ IH]; intros k vs; [done|].
  destruct vs as [|v vs]; [done|]. cbn [check_constraints]. by rewrite H1, H2, IH.
Qed.

Section chain.
Context {tree : Type} {RI : RowIndex tree} {RIS : RowIndexSpec tree}.
Implicit Types t right current : Table tree.

Lemma insert_all_ok t rows :
  unconstrained (columns_ t) ->
  Forall (fun r => length (values r) = length (columns_ t)) rows ->
  exists t', insert_all t rows = Ok t' /\ columns_ t' = columns_ t /\ rows_ t' = rows_ t ++ rows.
Proof.
  intros Hu Hw. revert t Hu Hw. induction rows as [|r rows IH]; intros t Hu Hw.
  { exists t. by rewrite app_nil_r. }
  apply Forall_cons in Hw as [Hr Hw]. cbn [insert_all]. unfold insert_row.
  rewrite Hr, Nat.eqb_refl. cbn [negb]. rewrite check_unconstrained by done.
  edestruct IH as (t' & E1 & E2 & E3); [..|rewrite E1; exists t'; split_and!; [done|exact E2|]].
  - exact Hu.
  - exact Hw.
  - rewrite E3. cbn [rows_ with_indices with_rows]. by rewrite <- app_assoc.
Qed.

Lemma emit_ok cs outs :
  unconstrained cs -> Forall (fun v => length v = length cs) outs ->
  exists t, emit (tree := tree) cs outs = Ok t /\ columns_ t = cs /\ rows_ t = map row_of outs.
Proof.
  intros Hu Hw. destruct (insert_all_ok (table [] cs) (map row_of outs)) as (t & H1 & H2 & H3).
  - exact Hu.
  - by apply Forall_map.
  - by exists t.
Qed.

(** ** Indexed nested loop *)

Lemma omap_all {A B} (f : A -> option B) (g : A -> B) l :
  Forall (fun x => f x = Some (g x)) l -> omap f l = map g l.
Proof. induction 1 as [|x l Hx _ IH]; [done|]. csimpl. by rewrite Hx, IH. Qed.

Lemma key_of_in rci w (r : Row) v :
  length (values r) = w -> rci < w -> bytes_eqb (key_of rci r) v = bool_decide (values r !! rci = Some v).
Proof.
  intros Hw Hlt. unfold key_of, bytes_eqb. apply bool_decide_ext.
  destruct (lookup_lt_is_Some_2 (values r) rci) as [x Hx]; [lia|]. rewrite Hx. simpl.
  split; congruence.
Qed.

Lemma inl_row_spec right lci rci rw col jt l :
  good right -> Forall (fun r => alive r = true) (rows_ right) ->
  hasIndex right col = true -> colOf right col = Some rci -> rci < length (columns_ right) ->
  inl_row right lci rci rw col jt l =
    match matches lci rci l (rows_ right) with
    | [] => if bool_decide (jt = LEFT) then [values l ++ nulls rw] else []
    | ms => map (combine l) ms
    end.
Proof.
  intros Hg Hal Hh Hci Hlt. unfold inl_row. rewrite (good_indexSearch right col rci) by done.
  destruct Hg as (_ & Hw & _). unfold wide in Hw. rewrite Forall_forall in Hal, Hw.
  assert (forall i r, rows_ right !! i = Some r ->
    match rows_ right !! i with
    | Some r => alive r && bool_decide (values r !! rci = Some (key_of lci l)) | None => false end
    = bytes_eqb (key_of rci r) (key_of lci l)) as Hq.
  { intros i r Hi. rewrite Hi. apply list_elem_of_lookup_2 in Hi.
    rewrite Hal by done. by rewrite (key_of_in rci (length (columns_ right))) by auto. }
  rewrite (omap_all _ (fun ri => combine l (row_at (rows_ right) ri))).
  - rewrite <- (map_map (row_at (rows_ right)) (combine l)). unfold live_matches.
    rewrite (filter_seq_rows _ _ (rows_ right) Hq). fold (matches lci rci l (rows_ right)).
    destruct (matches lci rci l (rows_ right)) as [|m ms]; [by destruct jt|]. done.
  - apply Forall_forall. intros i Hi. apply list_elem_of_In, filter_In in Hi as [_ Hi].
    destruct (rows_ right !! i) as [r|] eqn:Er; [|done].
    specialize (Hq i r Er). rewrite Er in Hq. rewrite Hq in Hi. rewrite Hi. unfold row_at.
    by rewrite (nth_lookup_Some _ _ _ _ Er).
Qed.

Lemma indexed_nested_loop_spec jt lrows right lci rci lw col :
  good right -> Forall (fun r => alive r = true) (rows_ right) ->
  hasIndex right col = true -> colOf right col = Some rci -> rci < length (columns_ right) ->
  jt = INNER \/ jt = LEFT ->
  indexed_nested_loop jt lrows right lci rci col =
    nested_loop jt lci rci lw (length (columns_ right)) lrows (rows_ right).
Proof.
  intros Hg Hal Hh Hci Hlt Hjt. unfold indexed_nested_loop.
  rewrite (map_ext _ _ (fun l => inl_row_spec right lci rci _ col jt l Hg Hal Hh Hci Hlt)).
  destruct Hjt as [-> | ->]; [|done]. cbn [nested_loop]. unfold inner_join. f_equal.
  apply map_ext. intros l. by destruct (matches lci rci l (rows_ right)).
Qed.

(** ** The chain *)

(** Result tables: same columns, the same rows in some order. *)
Definition same_table t t' : Prop := columns_ t = columns_ t' /\ rows_ t ≡ₚ rows_ t'.

#[export] Instance same_table_equiv : Equivalence same_table.
Proof.
  split.
  - by intros t.
  - intros t t' [E H]. by split.
  - intros t1 t2 t3 [E1 H1] [E2 H2]. split; by etrans.
Qed.

(** An intermediate result: no constraints, every row as wide as the schema. *)
Definition intermediate t : Prop := unconstrained (columns_ t) /\ wide t.

(** The advisor picks the indexed loop only where there is an index, and the
    indexed table has no dead rows. *)
Definition advisor_ok (tables_ : gmap bytes (Table tree)) (advisor : Advisor) : Prop :=
  forall n t col o r hasIdx, tables_ !! n = Some t -> advisor n col o r hasIdx = INDEXED ->
    hasIdx = true /\ Forall (fun r => alive r = true) (rows_ t).

Lemma nested_loop_wide jt lci rci lw rw lrows rrows :
  Forall (fun r => length (values r) = lw) lrows -> Forall (fun r => length (values r) = rw) rrows ->
  Forall (fun v => length v = lw + rw) (nested_loop jt lci rci lw rw lrows rrows).
Proof.
  intros Hl Hr. rewrite Forall_forall in Hl, Hr.
  assert (forall lci rci l rows, Forall (fun r => r ∈ rows) (matches lci rci l rows)) as Hm.
  { intros. apply Forall_forall. intros r H. apply list_elem_of_In, filter_In in H as [H _].
    by apply list_elem_of_In. }
  assert (Forall (fun v => length v = lw + rw) (left_join lci rci rw lrows rrows)) as Hlj.
  { unfold left_join. apply Forall_join, Forall_map, Forall_forall. intros l Hin.
    specialize (Hm lci rci l rrows). destruct (matches lci rci l rrows) as [|m ms].
    - constructor; [|done]. rewrite length_app, Hl by done. unfold nulls. by rewrite length_replicate.
    - apply Forall_map. eapply Forall_impl; [exact Hm|]. intros r H. cbn beta in H.
      unfold combine. by rewrite length_app, Hl, Hr. }
  destruct jt; cbn [nested_loop]; [|done| |apply Forall_app; split; [done|]|done].
  - unfold inner_join. apply Forall_join, Forall_map, Forall_forall. intros l Hin.
    apply Forall_map. eapply Forall_impl; [apply Hm|]. intros r H. cbn beta in H.
    unfold combine. by rewrite length_app, Hl, Hr.
  - unfold right_join. apply Forall_join, Forall_map, Forall_forall. intros r Hin.
    specialize (Hm rci lci r lrows). destruct (matches rci lci r lrows) as [|m ms].
    + constructor; [|done]. rewrite length_app, Hr by done. unfold nulls. by rewrite length_replicate.
    + apply Forall_map. eapply Forall_impl; [exact Hm|]. intros l H. cbn beta in H.
      unfold combine. by rewrite length_app, Hl, Hr.
  - apply Forall_map, Forall_forall. intros r H. apply list_elem_of_In, filter_In in H as [H _].
    apply list_elem_of_In in H. rewrite length_app, Hr by done. unfold nulls.
    by rewrite length_replicate.
Qed.

Lemma cross_join_wide lw rw lrows rrows :
  Forall (fun r => length (values r) = lw) lrows -> Forall (fun r => length (values r) = rw) rrows ->
  Forall (fun v => length v = lw + rw) (cross_join lrows rrows).
Proof.
  intros Hl Hr. apply Forall_join, Forall_map. eapply Forall_impl; [exact Hl|]. intros l <-.
  apply Forall_map. eapply Forall_impl; [by apply Forall_filter|]. intros r <-. apply length_app.
Qed.

Lemma emit_same cs outs outs' :
  unconstrained cs -> Forall (fun v => length v = length cs) outs -> outs ≡ₚ outs' ->
  exists t t', emit (tree := tree) cs outs = Ok t /\ emit cs outs' = Ok t' /\
    same_table t t' /\ intermediate t.
Proof.
  intros Hu Hw Hp. destruct (emit_ok cs outs Hu Hw) as (t & E1 & Ec & Er).
  destruct (emit_ok cs outs' Hu) as (t' & E2 & Ec' & Er'); [by rewrite <- Hp|].
  exists t, t'. split_and!; [done|done| |].
  - split; [congruence|]. by rewrite Er, Er', Hp.
  - split; [by rewrite Ec|]. unfold wide. rewrite Er, Ec. by apply Forall_map.
Qed.

Lemma findRawColIdx_spec t qual i :
  findRawColIdx (columns_ t) qual = Ok i ->
  colOf t (bareColOf qual) = Some i /\ i < length (columns_ t).
Proof.
  unfold findRawColIdx, colOf, colOf_cols. destruct (list_find _ _) as [[k c]|] eqn:E; [|done].
  intros [= ->]. split; [done|]. apply list_find_Some in E as [E _]. by apply lookup_lt_Some in E.
Qed.

Lemma strategy_rows sort strategy jt lci rci lw rw lrows rrows :
  sorts sort ->
  match strategy with
  | HASH_JOIN => hash_join jt lci rci lw rw lrows rrows
  | MERGE_JOIN => if bool_decide (jt = INNER) then merge_join sort lci rci lrows rrows
                  else hash_join jt lci rci lw rw lrows rrows
  | NESTED_LOOP => nested_loop jt lci rci lw rw lrows rrows
  end ≡ₚ nested_loop jt lci rci lw rw lrows rrows.
Proof.
  intros Hs. destruct strategy; rewrite ?hash_join_nested; [done|done|].
  case_bool_decide as E; [subst jt|done]. by apply merge_join_perm.
Qed.

(** Whatever the planner and the advisor choose, the rows are those of the
    nested loop. *)
Lemma join_rows_perm method sort jt current right lci rci col leftHasIdx :
  sorts sort -> good right -> colOf right col = Some rci -> rci < length (columns_ right) ->
  (method = INDEXED ->
   hasIndex right col = true /\ Forall (fun r => alive r = true) (rows_ right)) ->
  join_rows method sort jt current right lci rci col leftHasIdx (hasIndex right col) ≡ₚ
    nested_loop jt lci rci (length (columns_ current)) (length (columns_ right))
      (rows_ current) (rows_ right).
Proof.
  intros Hs Hg Hci Hlt Hm. unfold join_rows. unfold bytes_eqb at 1.
  destruct (decide (method = INDEXED)) as [E|E].
  - destruct (Hm E) as [Hh Hal]. rewrite (bool_decide_true (method = INDEXED)) by done.
    case_match eqn:Ej; [|by apply strategy_rows].
    rewrite (indexed_nested_loop_spec _ _ _ _ _ (length (columns_ current))); try done.
    apply andb_prop in Ej as [_ Ej]. apply orb_prop in Ej as [Ej|Ej];
      apply bool_decide_eq_true in Ej; auto.
  - rewrite bool_decide_false by done. by apply strategy_rows.
Qed.

(** A step under any strategy simulates the nested-loop step. *)
Definition steps_agree (r r' : result (Table tree)) : Prop :=
  match r, r' with
  | Ok t, Ok t' => same_table t t' /\ intermediate t
  | Throw e, Throw e' => e = e'
  | _, _ => False
  end.

Lemma join_step_nested tables_ advisor sort current current' jc :
  sorts sort -> map_Forall (fun _ t => good t) tables_ -> advisor_ok tables_ advisor ->
  same_table current current' -> intermediate current ->
  steps_agree (join_step tables_ advisor sort current jc) (nested_step tables_ current' jc).
Proof.
  intros Hs Hg Ha [Ec Er] [Hu Hw]. unfold join_step, nested_step, getTable.
  destruct (tables_ !! jc_table jc) as [right|] eqn:Et; [|done]. cbn [mbind result_bind].
  pose proof (Hg _ _ Et) as Hgr. pose proof Hgr as (_ & Hwr & _).
  rewrite <- Ec. rewrite <- (Permutation_length Er).
  assert (unconstrained (columns_ current ++ qualified (jc_table jc) (columns_ right))) as Hun
    by (apply Forall_app; split; [done|apply unconstrained_qualified]).
  assert (length (columns_ current ++ qualified (jc_table jc) (columns_ right)) =
          length (columns_ current) + length (columns_ right)) as Elen
    by (unfold qualified; by rewrite length_app, length_map).
  case_bool_decide as Ej.
  - case_match; [done|].
    destruct (emit_same _ (cross_join (rows_ current) (rows_ right))
      (cross_join (rows_ current') (rows_ right)) Hun) as (t & t' & E1 & E2 & ? & ?).
    + rewrite Elen. by apply cross_join_wide.
    + by apply cross_join_perm.
    + by rewrite E1, E2.
  - destruct (on_sides jc) as [resultSide rightSide].
    destruct (findQualColIdx (columns_ current) resultSide) as [lci|]; [|done].
    cbn [mbind result_bind].
    destruct (findRawColIdx (columns_ right) rightSide) as [rci|] eqn:Erci; [|done].
    cbn [mbind result_bind]. apply findRawColIdx_spec in Erci as [Hci Hlt].
    set (lhi := match (split_name resultSide).1 with Some _ => _ | None => _ end).
    set (method := advisor _ _ _ _ _).
    pose proof (join_rows_perm method sort (joinType jc) current right lci rci
      (bareColOf rightSide) lhi Hs Hgr Hci Hlt) as Hp.
    specialize (Hp (fun E => Ha _ _ _ _ _ _ Et E)).
    match type of Hp with ?outs ≡ₚ _ => set (rows := outs) in * end.
    destruct (emit_same _ rows (nested_loop (joinType jc) lci rci (length (columns_ current))
      (length (columns_ right)) (rows_ current') (rows_ right)) Hun) as (t & t' & E1 & E2 & ? & ?).
    + rewrite Hp, Elen. by apply nested_loop_wide.
    + rewrite Hp. by apply nested_loop_perm.
    + by rewrite E1, E2.
Qed.

Lemma join_base_ok tables_ baseName :
  map_Forall (fun _ t => good t) tables_ ->
  match join_base tables_ baseName with
  | Ok t => intermediate t
  | Throw _ => tables_ !! baseName = None
  end.
Proof.
  intros Hg. unfold join_base, getTable. destruct (tables_ !! baseName) as [base|] eqn:Eb; [|done].
  cbn [mbind result_bind]. destruct (Hg _ _ Eb) as (_ & Hw & _).
  assert (Forall (fun r => length (values r) = length (qualified baseName (columns_ base)))
            (List.filter alive (rows_ base))) as Hwf.
  { apply Forall_filter. unfold qualified. by rewrite length_map. }
  destruct (insert_all_ok (table [] (qualified baseName (columns_ base)))
              (List.filter alive (rows_ base))) as (t & -> & E1 & E2);
    [apply unconstrained_qualified|exact Hwf|].
  split; [rewrite E1; apply unconstrained_qualified|]. unfold wide. by rewrite E2, E1.
Qed.

Lemma join_loop_nested tables_ advisor sort joins cur cur' :
  sorts sort -> map_Forall (fun _ t => good t) tables_ -> advisor_ok tables_ advisor ->
  same_table cur cur' -> intermediate cur ->
  steps_agree (join_loop tables_ advisor sort joins cur)
    (fold_left (fun cur jc => cur ← cur; nested_step tables_ cur jc) joins (Ok cur')).
Proof.
  intros Hs Hg Ha. revert cur cur'. induction joins as [|jc joins IH]; intros cur cur' Hc Hi; [done|].
  cbn [join_loop fold_left mbind result_bind].
  pose proof (join_step_nested tables_ advisor sort cur cur' jc Hs Hg Ha Hc Hi) as Hst.
  destruct (join_step _ _ _ cur jc) as [t|e], (nested_step _ cur' jc) as [t'|e']; try done.
  - destruct Hst as [Hst1 Hst2]. by apply IH.
  - simpl in Hst. subst e'. cbn [mbind result_bind]. clear. by induction joins.
Qed.

(** [C23] Join chains do not depend on the join algorithms: for every advisor that
    chooses the indexed loop only for tables without dead rows, every admissible
    sort and every chain of INNER, LEFT, RIGHT, FULL and CROSS joins, the
    planner's mixture of hash, merge, indexed and nested loops throws exactly when
    nested loops throughout throw, with the same message, and otherwise returns
    the same columns and the same rows up to their order. On a table with dead
    rows the indexed loop differs: its index lists live rows only, the others join
    dead ones too ([dead_rows_join]). *)
Theorem executeJoins_nested_loops tables_ advisor sort baseName joins :
  sorts sort -> map_Forall (fun _ t => reachable t) tables_ -> advisor_ok tables_ advisor ->
  match executeJoins tables_ advisor sort baseName joins, nested_joins tables_ baseName joins with
  | Ok t, Ok t' => columns_ t = columns_ t' /\ rows_ t ≡ₚ rows_ t'
  | Throw e, Throw e' => e = e'
  | _, _ => False
  end.
Proof.
  intros Hs Hr Ha.
  assert (map_Forall (fun _ t => good t) tables_) as Hg.
  { intros n t Ht. by apply reachable_good, (Hr n). }
  unfold executeJoins, nested_joins. pose proof (join_base_ok tables_ baseName Hg) as Hb.
  destruct (join_base tables_ baseName) as [cur|e]; cbn [mbind result_bind]; [|done].
  pose proof (join_loop_nested tables_ advisor sort joins cur cur Hs Hg Ha (reflexivity _) Hb) as H.
  destruct (join_loop _ _ _ joins cur), (fold_left _ joins _); try done. by destruct H as [[??] _].
Qed.
End chain.

(** ** Witnesses *)

From S2P Require Import BTree.

(** A stable sort of the row numbers by key. *)
Definition index_le (ks : list bytes) (i j : nat) : Prop := bytes_le (nth i ks []) (nth j ks []).

#[export] Instance index_le_dec ks : RelDecision (index_le ks).
Proof. intros i j. unfold index_le. apply _. Defined.

Definition std_sort (ks : list bytes) : list nat := merge_sort (index_le ks) (seq 0 (length ks)).

Lemma std_sort_sorts : sorts std_sort.
Proof.
  intros ks. split; [apply merge_sort_Permutation|].
  assert (Transitive (index_le ks)) by (intros i j k; unfold index_le; intros; bytes_order).
  assert (Total (index_le ks)) as Ht.
  { intros i j. unfold index_le, bytes_le. destruct (bytes_lt_total (nth i ks []) (nth j ks []));
      naive_solver. }
  pose proof (StronglySorted_merge_sort (index_le ks) (seq 0 (length ks))) as Hs.
  unfold std_sort. induction Hs as [|i l _ IH Hi]; [constructor|]. cbn [map].
  constructor; [done|]. by apply Forall_map.
Qed.

Definition ex_advisor : Advisor := fun _ _ _ _ hasIdx => if hasIdx then INDEXED else [].

Definition ex_tables : gmap bytes (Table BTree) := {[str "t" := ex_table]}.

Definition ex_joins : list JoinClause :=
  [ mkJoin INNER (str "t") (str "t.city") (str "t.city");
    mkJoin LEFT (str "t") (str "t.city") (str "t.id");
    mkJoin CROSS (str "t") [] [] ].

Lemma executeJoins_nested_loops_witness :
  match executeJoins ex_tables ex_advisor std_sort (str "t") ex_joins,
        nested_joins ex_tables (str "t") ex_joins with
  | Ok t, Ok t' => columns_ t = columns_ t' /\ rows_ t ≡ₚ rows_ t'
  | Throw e, Throw e' => e = e'
  | _, _ => False
  end /\
  match executeJoins ex_tables ex_advisor std_sort (str "t") ex_joins with
  | Ok t => length (rows_ t) = 8
  | Throw _ => False
  end.
Proof.
  split; [|vm_compute; reflexivity].
  apply (executeJoins_nested_loops ex_tables ex_advisor std_sort (str "t") ex_joins).
  - apply std_sort_sorts.
  - apply map_Forall_singleton, ex_table_reachable.
  - intros n t col o r hasIdx Ht Ha. unfold ex_tables in Ht; apply lookup_singleton_Some in Ht as [_ <-].
    destruct hasIdx; [|discriminate Ha]. split; [reflexivity|by_decide].
Defined.

(** A logically deleted row of the right table still takes part in an INNER
    join, unlike in a CROSS JOIN. *)
Definition ex_deleted : gmap bytes (Table BTree) :=
  {[str "t" := ex_table; str "d" := (stampDeleteAll 7 ex_table).2]}.

Definition row_count (r : result (Table BTree)) : option nat :=
  match r with Ok t => Some (length (rows_ t)) | Throw _ => None end.

Lemma dead_rows_join :
  row_count (executeJoins ex_deleted (fun _ _ _ _ _ => []) std_sort (str "t")
               [mkJoin INNER (str "d") (str "t.city") (str "d.city")]) = Some 4 /\
  row_count (executeJoins ex_deleted (fun _ _ _ _ _ => []) std_sort (str "t")
               [mkJoin CROSS (str "d") [] []]) = Some 0.
Proof. by split; vm_compute. Qed.
