(* ===== verification/JoinMeaning.v ===== *)
(** * What a chain of INNER joins means ([Engine::executeJoins])

    A row of a join, read as a map from qualified column names to values, is a
    union of one row per table in which the sides of every ON clause are equal.
    Nested loops compute exactly these maps, so the order of the joins does not
    matter as long as each table comes behind the one its ON clause refers to. *)

From S2P Require Import Prelude Index BTree Partition Table Joins.

(** ** Products of sets of rows *)

Abbreviation meaning := (gmap bytes bytes).

Definition times (ms xs : list meaning) : list meaning := mjoin (map (fun m => map (fun x => m ∪ x) xs) ms).
Definition product (ms : list meaning) (ts : list (list meaning)) : list meaning := fold_left times ts ms.

Lemma elem_of_times m ms xs : m ∈ times ms xs <-> exists a x, a ∈ ms /\ x ∈ xs /\ m = a ∪ x.
Proof.
  unfold times. rewrite list_elem_of_join. split.
  - intros (l & Hm & Hl). apply list_elem_of_fmap in Hl as (a & -> & Ha). apply list_elem_of_fmap in Hm as (x & -> & Hx). eauto.
  - intros (a & x & Ha & Hx & ->). exists (map (fun x => a ∪ x) xs). split; apply list_elem_of_fmap; eauto.
Qed.

Lemma times_cons m ms xs : times (m :: ms) xs = map (fun x => m ∪ x) xs ++ times ms xs.
Proof. done. Qed.

Lemma times_app ms ms' xs : times (ms ++ ms') xs = times ms xs ++ times ms' xs.
Proof. unfold times. by rewrite map_app, join_app. Qed.

Lemma times_nil_r ms : times ms [] = [].
Proof. by induction ms. Qed.

#[export] Instance times_perm : Proper ((≡ₚ) ==> (≡ₚ) ==> (≡ₚ)) times.
Proof.
  intros ms ms' Hm xs xs' Hx. transitivity (times ms xs').
  - clear Hm. induction ms as [|m ms IH]; [done|]. rewrite !times_cons. by rewrite IH, Hx.
  - clear Hx. induction Hm as [|m ms ms' _ IH|m m' ms|ms1 ms2 ms3 _ IH1 _ IH2]; [done|..].
    + by rewrite !times_cons, IH.
    + rewrite !times_cons, !app_assoc. by rewrite (Permutation_app_comm (map _ xs')).
    + by rewrite IH1.
Qed.

Lemma times_cons_r ms x xs : times ms (x :: xs) ≡ₚ map (fun m => m ∪ x) ms ++ times ms xs.
Proof.
  induction ms as [|m ms IH]; [done|]. rewrite !times_cons. cbn [map app]. rewrite IH. constructor.
  rewrite !app_assoc. by rewrite (Permutation_app_comm (map _ xs)).
Qed.

Definition apart (xs ys : list meaning) : Prop := forall x y, x ∈ xs -> y ∈ ys -> x ##ₘ y.

(** Tables with different columns may be joined in either order. *)
Lemma times_comm ms xs ys : apart xs ys -> times (times ms xs) ys ≡ₚ times (times ms ys) xs.
Proof.
  intros Ha. induction ms as [|m ms IH]; [done|]. rewrite !times_cons, !times_app, IH. apply Permutation_app; [|done]. clear IH.
  induction xs as [|x xs IH]; [by rewrite times_nil_r|]. cbn [map]. rewrite times_cons, times_cons_r.
  rewrite IH by (intros a b H; apply Ha; by right). apply Permutation_app; [|done].
  rewrite map_map. apply reflexive_eq, map_ext_in. intros y Hy. apply list_elem_of_In in Hy.
  rewrite <- !map_union_assoc. f_equal. apply map_union_comm. apply Ha; [by left|done].
Qed.

#[export] Instance product_perm_l : Proper ((≡ₚ) ==> (=) ==> (≡ₚ)) product.
Proof.
  intros ms ms' Hm ts ? <-. revert ms ms' Hm. induction ts as [|xs ts IH]; intros ms ms' Hm; [done|]. cbn. apply IH. by rewrite Hm.
Qed.

Lemma product_perm (f : bytes -> list meaning) ms ns ns' :
  ns ≡ₚ ns' -> NoDup ns -> (forall a b, a ∈ ns -> b ∈ ns -> a <> b -> apart (f a) (f b)) ->
  product ms (map f ns) ≡ₚ product ms (map f ns').
Proof.
  intros Hp. revert ms. induction Hp as [|a ns ns' _ IH|a b ns|ns1 ns2 ns3 H12 IH1 _ IH2]; intros ms Hn Ha; [done|..].
  - apply NoDup_cons in Hn as [_ Hn]. cbn. apply IH; [done|]. intros x y Hx Hy. apply Ha; by right.
  - cbn. apply product_perm_l; [|done]. apply times_comm. apply Ha; [by left|by right; left|].
    apply NoDup_cons in Hn as [Hn _]. set_solver.
  - etrans; [by apply IH1|]. apply IH2; [by rewrite <- H12|]. intros x y Hx Hy. apply Ha; by rewrite H12.
Qed.

(** ** Filters *)

(** The verdict on a row does not change when the row is extended. *)
Definition settled (p : meaning -> bool) (ms : list meaning) : Prop := forall m x, m ∈ ms -> p (m ∪ x) = p m.

Lemma filter_times p ms xs : settled p ms -> List.filter p (times ms xs) = times (List.filter p ms) xs.
Proof.
  induction ms as [|m ms IH]; intros H; [done|]. rewrite times_cons, List.filter_app, IH by (intros a x Ha; apply H; by right).
  cbn [List.filter]. assert (forall x, p (m ∪ x) = p m) as Hm by (intros x; apply H; by left).
  assert (List.filter p (map (fun x => m ∪ x) xs) = if p m then map (fun x => m ∪ x) xs else []) as ->.
  { clear IH. induction xs as [|x xs IHx]; [by destruct (p m)|]. cbn [map List.filter]. rewrite Hm, IHx. by destruct (p m). }
  by destruct (p m).
Qed.

Lemma settled_times p ms xs : settled p ms -> settled p (times ms xs).
Proof. intros H m x (a & b & Ha & Hb & ->)%elem_of_times. rewrite <- map_union_assoc. by rewrite !H. Qed.

Lemma filter_product p ms ts : settled p ms -> List.filter p (product ms ts) = product (List.filter p ms) ts.
Proof.
  revert ms. induction ts as [|xs ts IH]; intros ms H; [done|].
  change (product ?a (xs :: ts)) with (product (times a xs) ts). rewrite IH by by apply settled_times. by rewrite filter_times.
Qed.

(** ** Rows as maps *)

Definition row_map (cs : list Column) (vs : list bytes) : meaning := list_to_map (zip (names cs) vs).

Lemma row_map_app cs cs' vs vs' : length vs = length cs -> row_map (cs ++ cs') (vs ++ vs') = row_map cs vs ∪ row_map cs' vs'.
Proof. intros H. unfold row_map, names. rewrite map_app, zip_with_app by (by rewrite length_map). apply list_to_map_app. Qed.

Lemma row_map_lookup cs vs i k :
  NoDup (names cs) -> length vs = length cs -> names cs !! i = Some k -> row_map cs vs !! k = vs !! i.
Proof.
  intros Hn Hl Hi. assert (i < length vs) as Hlt by (apply lookup_lt_Some in Hi; unfold names in Hi; rewrite length_map in Hi; lia).
  destruct (lookup_lt_is_Some_2 vs i Hlt) as [v Hv]. rewrite Hv. apply elem_of_list_to_map_1.
  - rewrite fst_zip; [done|]. unfold names. rewrite length_map. lia.
  - apply list_elem_of_lookup. exists i. by apply lookup_zip_Some.
Qed.

Lemma row_map_none cs vs k : k ∉ names cs -> row_map cs vs !! k = None.
Proof.
  intros H. apply not_elem_of_list_to_map_1. intros Hk. apply H. apply list_elem_of_fmap in Hk as ([a b] & -> & Hp).
  by apply elem_of_zip_l in Hp.
Qed.

Lemma row_map_dom cs vs k : length vs = length cs -> k ∈ names cs -> is_Some (row_map cs vs !! k).
Proof.
  intros Hl Hk. destruct (row_map cs vs !! k) eqn:E; [done|]. apply not_elem_of_list_to_map_2 in E.
  rewrite fst_zip in E; [done|]. unfold names. rewrite length_map. lia.
Qed.

(** ** The chain *)

Definition qual (t c : bytes) : bytes := t ++ DOT :: c.

Lemma split_qual t c : plain_name c -> split_name (qual t c) = (Some t, c).
Proof.
  intros H. unfold split_name, qual. assert (rfind_char DOT (t ++ DOT :: c) = Some (length t)) as ->.
  { induction t as [|x t IH]; cbn [app rfind_char length]; [|by rewrite IH].
    by rewrite (proj2 (rfind_char_none DOT c) H), Z.eqb_refl. }
  rewrite take_app_length. f_equal. change (DOT :: c) with ([DOT] ++ c). rewrite app_assoc.
  apply drop_app_length'. rewrite length_app. cbn. lia.
Qed.

Lemma qual_inj t c t' c' : plain_name c -> plain_name c' -> qual t c = qual t' c' -> t = t' /\ c = c'.
Proof. intros H H' E. apply (f_equal split_name) in E. rewrite !split_qual in E by done. by injection E. Qed.

Lemma tblOf_qual t c : plain_name c -> tblOf (qual t c) = t.
Proof. intros H. unfold tblOf. by rewrite split_qual. Qed.

Lemma bareColOf_qual t c : plain_name c -> bareColOf (qual t c) = c.
Proof. intros H. unfold bareColOf. by rewrite split_qual. Qed.

Lemma names_qualified n cs : names (qualified n cs) = map (qual n) (names cs).
Proof. unfold names, qualified. by rewrite !map_map. Qed.

(** The table an ON clause refers to beside the new one. *)
Definition other (jc : JoinClause) : bytes := tblOf (on_sides jc).1.

Definition on_holds (jc : JoinClause) (m : meaning) : bool := bool_decide (m !! onLeft jc = m !! onRight jc).

(** Each table comes behind the one its ON clause refers to. *)
Fixpoint placed (seen : list bytes) (joins : list JoinClause) : Prop :=
  match joins with
  | [] => True
  | jc :: joins' => other jc ∈ seen /\ placed (jc_table jc :: seen) joins'
  end.

Section chain.
Context {tree : Type} {RI : RowIndex tree} {RIS : RowIndexSpec tree}.
Context (tables_ : gmap bytes (Table tree)).
Hypothesis tables_good : map_Forall (fun _ t => good t) tables_.
Implicit Types t right current : Table tree.

Definition columns_of (n : bytes) : list Column := from_option columns_ [] (tables_ !! n).
Definition maps (t : Table tree) : list meaning := map (fun r => row_map (columns_ t) (values r)) (rows_ t).
Definition table_maps (n : bytes) : list meaning :=
  map (fun r => row_map (qualified n (columns_of n)) (values r)) (from_option rows_ [] (tables_ !! n)).

(** An INNER join whose ON clause names a column of the new table and one of
    another table. *)
Definition edge (jc : JoinClause) : Prop :=
  joinType jc = INNER /\ is_Some (tables_ !! jc_table jc) /\ is_Some (tables_ !! other jc) /\
  exists c oc, c ∈ names (columns_of (jc_table jc)) /\ oc ∈ names (columns_of (other jc)) /\
    on_sides jc = (qual (other jc) oc, qual (jc_table jc) c).

(** The columns of the result are those of the tables joined so far. *)
Definition joined (seen : list bytes) (t : Table tree) : Prop :=
  intermediate t /\ NoDup (names (columns_ t)) /\
  forall k, k ∈ names (columns_ t) <-> exists n c, n ∈ seen /\ c ∈ names (columns_of n) /\ k = qual n c.

Lemma columns_of_plain n c : c ∈ names (columns_of n) -> plain_name c.
Proof.
  unfold columns_of. destruct (tables_ !! n) as [t|] eqn:E; [|set_solver]. cbn. intros H.
  destruct (tables_good n t E) as (_ & _ & _ & Hp & _). rewrite Forall_forall in Hp. by apply Hp.
Qed.

Lemma columns_of_nodup n : NoDup (names (columns_of n)).
Proof.
  unfold columns_of. destruct (tables_ !! n) as [t|] eqn:E; [|constructor]. by destruct (tables_good n t E) as (_ & _ & ? & _).
Qed.

Lemma qualified_nodup n : NoDup (names (qualified n (columns_of n))).
Proof.
  rewrite names_qualified. apply NoDup_fmap_2_strong; [|apply columns_of_nodup]. intros a b Ha Hb E.
  apply qual_inj in E as [_ ?]; [done|by eapply columns_of_plain..].
Qed.

Lemma find_exact cs k : NoDup (names cs) -> k ∈ names cs -> exists i c, list_find (fun c => c_name c = k) cs = Some (i, c) /\ names cs !! i = Some k.
Proof.
  intros _ Hk. destruct (list_find (fun c => c_name c = k) cs) as [[i c]|] eqn:E.
  - exists i, c. split; [done|]. apply list_find_Some in E as (Hi & <- & _). unfold names. by rewrite list_lookup_fmap, Hi.
  - apply list_find_None in E. rewrite Forall_forall in E. apply list_elem_of_fmap in Hk as (c & -> & Hc). by destruct (E c Hc).
Qed.

Lemma key_of_map cs (r : Row) i k :
  NoDup (names cs) -> length (values r) = length cs -> names cs !! i = Some k -> row_map cs (values r) !! k = Some (key_of i r).
Proof.
  intros Hn Hl Hi. rewrite (row_map_lookup cs (values r) i k) by done. unfold key_of.
  destruct (lookup_lt_is_Some_2 (values r) i) as [v Hv]; [|by rewrite Hv].
  apply lookup_lt_Some in Hi. unfold names in Hi. rewrite length_map in Hi. lia.
Qed.

Lemma on_holds_sides jc m : on_holds jc m = bool_decide (m !! (on_sides jc).1 = m !! (on_sides jc).2).
Proof. unfold on_holds, on_sides. destruct (tblNamesMatch _ _); [|done]. apply bool_decide_ext. done. Qed.

(** The inner join of two sets of rows, as maps. *)
Lemma inner_join_maps cs rcs lci rci jc lrows rrows :
  NoDup (names cs) -> NoDup (names rcs) -> (forall k, k ∈ names cs -> k ∈ names rcs -> False) ->
  Forall (fun r => length (values r) = length cs) lrows -> Forall (fun r => length (values r) = length rcs) rrows ->
  names cs !! lci = Some (on_sides jc).1 -> names rcs !! rci = Some (on_sides jc).2 ->
  map (row_map (cs ++ rcs)) (inner_join lci rci lrows rrows) =
    List.filter (on_holds jc) (times (map (fun r => row_map cs (values r)) lrows) (map (fun r => row_map rcs (values r)) rrows)).
Proof.
  intros Hn Hnr Hd Hw Hwr Hl Hr. induction Hw as [|l lrows Hll _ IH]; [done|].
  change (inner_join lci rci (l :: lrows) rrows) with (map (combine l) (matches lci rci l rrows) ++ inner_join lci rci lrows rrows).
  cbn [map]. rewrite times_cons, List.filter_app, map_app, IH. f_equal. clear IH.
  induction Hwr as [|r rrows Hlr _ IHr]; [done|]. unfold matches in *. cbn [map List.filter].
  assert (row_map (cs ++ rcs) (combine l r) = row_map cs (values l) ∪ row_map rcs (values r)) as Em by (by apply row_map_app).
  assert (on_holds jc (row_map cs (values l) ∪ row_map rcs (values r)) = bytes_eqb (key_of rci r) (key_of lci l)) as ->.
  { rewrite on_holds_sides, (lookup_union_l (row_map cs (values l)) (row_map rcs (values r)) (on_sides jc).1), lookup_union_r.
    - rewrite (key_of_map cs l lci), (key_of_map rcs r rci) by done. unfold bytes_eqb. apply bool_decide_ext. split; congruence.
    - apply row_map_none. intros K. eapply Hd; [exact K|]. by eapply list_elem_of_lookup_2.
    - apply row_map_none. intros K. eapply Hd; [|exact K]. by eapply list_elem_of_lookup_2. }
  destruct (bytes_eqb _ _); cbn [map]; by rewrite ?Em, IHr.
Qed.

(** One step: the product with the new table, filtered by ON. *)
Lemma nested_step_maps seen current jc :
  joined seen current -> edge jc -> other jc ∈ seen -> jc_table jc ∉ seen ->
  exists t, nested_step tables_ current jc = Ok t /\ joined (jc_table jc :: seen) t /\
    maps t = List.filter (on_holds jc) (times (maps current) (table_maps (jc_table jc))).
Proof.
  intros ((Hu & Hw) & Hnd & Hcols) (Hi & [right Hr] & _ & c & oc & Hc & Hoc & Hon) Ho Hnew.
  assert (columns_of (jc_table jc) = columns_ right) as Ecols by (unfold columns_of; by rewrite Hr).
  pose proof (columns_of_plain _ _ Hc) as Hpc. pose proof (columns_of_plain _ _ Hoc) as Hpo.
  destruct (tables_good _ _ Hr) as (_ & Hwr & Hplain & _).
  unfold nested_step, getTable. rewrite Hr. cbn [mbind result_bind]. rewrite Hi, Hon. rewrite bool_decide_eq_false_2 by done.
  destruct (find_exact (columns_ current) (qual (other jc) oc)) as (lci & lc & Efl & Hl); [done|apply Hcols; eauto|].
  unfold findQualColIdx. rewrite Efl. cbn [mbind result_bind]. unfold findRawColIdx. rewrite bareColOf_qual by done.
  rewrite <- Ecols in *. destruct (find_exact (columns_of (jc_table jc)) c) as (rci & rc & Efr & Hrr); [done|done|].
  rewrite Efr. cbn [mbind result_bind nested_loop].
  set (rcs := qualified (jc_table jc) (columns_of (jc_table jc))).
  assert (forall k, k ∈ names (columns_ current) -> k ∈ names rcs -> False) as Hdis.
  { intros k (n & x & Hn & Hx & ->)%Hcols Hk. unfold rcs in Hk. rewrite names_qualified in Hk.
    apply list_elem_of_fmap in Hk as (y & E & Hy). apply qual_inj in E as [-> _]; [done|by eapply columns_of_plain..]. }
  assert (NoDup (names (columns_ current ++ rcs))) as Hnd'.
  { unfold names. rewrite map_app. apply NoDup_app. split; [done|]. split; [intros k Hk Hk'; by apply (Hdis k)|apply qualified_nodup]. }
  assert (Forall (fun r => length (values r) = length rcs) (rows_ right)) as Hwr'.
  { unfold rcs, qualified. rewrite length_map, Ecols. exact Hwr. }
  destruct (emit_ok (columns_ current ++ rcs) (inner_join lci rci (rows_ current) (rows_ right))) as (t & Et & Ec & Er).
  { apply Forall_app. split; [done|apply unconstrained_qualified]. }
  { rewrite length_app. apply (nested_loop_wide INNER lci rci (length (columns_ current)) (length rcs)); [exact Hw|exact Hwr']. }
  exists t. split; [exact Et|]. split.
  - split_and!.
    + split; [rewrite Ec; apply Forall_app; split; [done|apply unconstrained_qualified]|]. unfold wide. rewrite Ec, Er, length_app.
      apply Forall_map. apply (nested_loop_wide INNER lci rci (length (columns_ current)) (length rcs)); [exact Hw|exact Hwr'].
    + by rewrite Ec.
    + intros k. rewrite Ec. unfold names. rewrite map_app, elem_of_app. fold (names (columns_ current)) (names rcs).
      rewrite Hcols. unfold rcs. rewrite names_qualified, list_elem_of_fmap. split.
      * intros [(n & x & Hn & Hx & ->)|(x & -> & Hx)]; [exists n, x|exists (jc_table jc), x]; rewrite elem_of_cons; tauto.
      * intros (n & x & [->|Hn]%elem_of_cons & Hx & ->); [right|left]; eauto.
  - unfold maps. rewrite Er, Ec, map_map. unfold table_maps. rewrite Hr. cbn [from_option].
    apply (inner_join_maps (columns_ current) rcs); try done; [apply qualified_nodup|by rewrite Hon|].
    rewrite Hon. unfold rcs. rewrite names_qualified, list_lookup_fmap, Hrr. done.
Qed.

(** Every map has the columns of the tables. *)
Definition has_keys (seen : list bytes) (ms : list meaning) : Prop :=
  forall m n c, m ∈ ms -> n ∈ seen -> c ∈ names (columns_of n) -> is_Some (m !! qual n c).

Lemma joined_keys seen t : joined seen t -> has_keys seen (maps t).
Proof.
  intros ((_ & Hw) & _ & Hc) m n c Hm Hn Hcn. apply list_elem_of_fmap in Hm as (r & -> & Hr).
  unfold wide in Hw. rewrite Forall_forall in Hw. apply row_map_dom; [by apply Hw|]. apply Hc. eauto.
Qed.

Lemma table_maps_key n m k : m ∈ table_maps n -> is_Some (m !! k) <-> exists c, c ∈ names (columns_of n) /\ k = qual n c.
Proof.
  intros Hm. unfold table_maps in Hm. apply list_elem_of_fmap in Hm as (r & -> & Hr).
  assert (length (values r) = length (qualified n (columns_of n))) as Hl.
  { unfold qualified, columns_of. rewrite length_map. destruct (tables_ !! n) as [t|] eqn:E; cbn [from_option] in *; [|set_solver].
    destruct (tables_good n t E) as (_ & Hw & _). unfold wide in Hw. rewrite Forall_forall in Hw. by apply Hw. }
  split.
  - intros [v Hv]. destruct (decide (k ∈ names (qualified n (columns_of n)))) as [Hk|Hk]; [|by rewrite row_map_none in Hv].
    rewrite names_qualified in Hk. apply list_elem_of_fmap in Hk as (c & -> & Hc). eauto.
  - intros (c & Hc & ->). apply row_map_dom; [done|]. rewrite names_qualified. apply list_elem_of_fmap. eauto.
Qed.

Lemma has_keys_times seen ms n : has_keys seen ms -> has_keys (n :: seen) (times ms (table_maps n)).
Proof.
  intros H m n' c (a & x & Ha & Hx & ->)%elem_of_times Hn Hc. apply lookup_union_is_Some.
  apply elem_of_cons in Hn as [->|Hn]; [right|left; by eapply H]. eapply table_maps_key; eauto.
Qed.

Lemma settled_edge seen jc ms :
  edge jc -> other jc ∈ seen -> jc_table jc ∈ seen -> has_keys seen ms -> settled (on_holds jc) ms.
Proof.
  intros (_ & _ & _ & c & oc & Hc & Hoc & Hon) Ho Hj Hk m x Hm. rewrite !on_holds_sides, Hon. cbn [fst snd].
  destruct (Hk m _ _ Hm Ho Hoc) as [v Hv], (Hk m _ _ Hm Hj Hc) as [w Hw].
  by rewrite !(lookup_union_l' m x), Hv, Hw by (rewrite ?Hv, ?Hw; eauto).
Qed.

Lemma apart_tables a b : a <> b -> apart (table_maps a) (table_maps b).
Proof.
  intros Hne x y Hx Hy. apply map_disjoint_spec. intros k v w Hv Hw.
  destruct (proj1 (table_maps_key a x k Hx)) as (c & Hc & ->); [eauto|].
  destruct (proj1 (table_maps_key b y (qual a c) Hy)) as (d & Hd & E); [eauto|].
  apply qual_inj in E as [? _]; [done|by eapply columns_of_plain..].
Qed.

Definition all_hold (joins : list JoinClause) (m : meaning) : bool := forallb (fun jc => on_holds jc m) joins.

Lemma filter_and {A} (p q : A -> bool) l : List.filter p (List.filter q l) = List.filter (fun x => q x && p x) l.
Proof. induction l as [|x l IH]; [done|]. cbn. destruct (q x); cbn; [destruct (p x)|]; by rewrite IH. Qed.

(** The steps of a chain, from what is joined already. *)
Lemma nested_chain_maps joins seen current :
  joined seen current -> Forall edge joins -> placed seen joins -> NoDup (map jc_table joins) ->
  (forall n, n ∈ seen -> n ∉ map jc_table joins) ->
  exists t, fold_left (fun cur jc => cur ← cur; nested_step tables_ cur jc) joins (Ok current) = Ok t /\
    joined (rev (map jc_table joins) ++ seen) t /\
    maps t = List.filter (all_hold joins) (product (maps current) (map table_maps (map jc_table joins))).
Proof.
  intros Hj He. revert seen current Hj. induction He as [|jc joins Hjc _ IH]; intros seen current Hj Hp Hn Hf.
  { exists current. split; [done|]. split; [done|]. cbn. clear. induction (maps current) as [|m l IH]; [done|]. cbn. by rewrite <- IH. }
  destruct Hp as [Ho Hp]. cbn [map] in *. apply NoDup_cons in Hn as [Hnj Hn].
  destruct (nested_step_maps seen current jc) as (t1 & E1 & J1 & M1); [done..| |].
  { intros K. apply (Hf _ K). by left. }
  destruct (IH (jc_table jc :: seen) t1 J1 Hp Hn) as (t & Et & Jt & Mt).
  { intros n [->|K]%elem_of_cons; [done|]. specialize (Hf n K). set_solver. }
  exists t. split; [by cbn [fold_left mbind result_bind]; rewrite E1|]. cbn [rev]. rewrite <- app_assoc. split; [exact Jt|]. rewrite Mt, M1.
  assert (settled (on_holds jc) (times (maps current) (table_maps (jc_table jc)))) as Hs.
  { apply (settled_edge (jc_table jc :: seen)); [done|by right|by left|]. apply has_keys_times. by apply joined_keys. }
  rewrite <- filter_product by done. by rewrite filter_and.
Qed.

(** *** From the base table *)

Definition base_maps (n : bytes) : list meaning :=
  map (fun r => row_map (qualified n (columns_of n)) (values r)) (List.filter alive (from_option rows_ [] (tables_ !! n))).

(** The unions of a live row of the base table and a row of each other table that
    satisfy all ON clauses. *)
Definition chain_meaning (baseName : bytes) (joins : list JoinClause) : list meaning :=
  List.filter (all_hold joins) (product (base_maps baseName) (map table_maps (map jc_table joins))).

(** INNER joins of different tables over columns that exist. *)
Definition inner_chain (baseName : bytes) (joins : list JoinClause) : Prop :=
  is_Some (tables_ !! baseName) /\ Forall edge joins /\ NoDup (baseName :: map jc_table joins).

Lemma join_base_joined baseName :
  is_Some (tables_ !! baseName) ->
  exists t, join_base tables_ baseName = Ok t /\ joined [baseName] t /\ maps t = base_maps baseName.
Proof.
  intros [base Hb]. assert (columns_of baseName = columns_ base) as Ec by (unfold columns_of; by rewrite Hb).
  destruct (tables_good _ _ Hb) as (_ & Hw & _). unfold join_base, getTable. rewrite Hb. cbn [mbind result_bind].
  assert (Forall (fun r => length (values r) = length (qualified baseName (columns_ base))) (List.filter alive (rows_ base))) as Hf.
  { apply Forall_filter. unfold qualified. by rewrite length_map. }
  destruct (insert_all_ok (table [] (qualified baseName (columns_ base))) (List.filter alive (rows_ base))) as (t & E & Ect & Er);
    [apply unconstrained_qualified|exact Hf|]. cbn [columns_ rows_ table app] in *. exists t. split; [exact E|]. split.
  - split_and!.
    + split; [rewrite Ect; apply unconstrained_qualified|]. unfold wide. by rewrite Ect, Er.
    + rewrite Ect, <- Ec. apply qualified_nodup.
    + intros k. rewrite Ect, <- Ec, names_qualified, list_elem_of_fmap. split.
      * intros (c & -> & Hc). exists baseName, c. split_and!; [by left|done..].
      * intros (n & c & ->%list_elem_of_singleton & Hc & ->). eauto.
  - unfold maps, base_maps. rewrite Er, Ect, Ec, Hb. done.
Qed.

Lemma nested_joins_maps baseName joins :
  inner_chain baseName joins -> placed [baseName] joins ->
  exists t, nested_joins tables_ baseName joins = Ok t /\ joined (rev (map jc_table joins) ++ [baseName]) t /\
    maps t = chain_meaning baseName joins.
Proof.
  intros (Hb & He & [Hn1 Hn2]%NoDup_cons) Hp. destruct (join_base_joined baseName Hb) as (cur & Ecur & Jcur & Mcur).
  destruct (nested_chain_maps joins [baseName] cur) as (t & Et & Jt & Mt); [done..| |].
  { by intros n ->%list_elem_of_singleton. }
  exists t. unfold nested_joins. rewrite Ecur. split; [exact Et|]. split; [exact Jt|]. unfold chain_meaning. by rewrite Mt, Mcur.
Qed.

(** The meaning does not depend on the order of the joins. *)
Lemma chain_meaning_perm baseName joins joins' :
  joins ≡ₚ joins' -> NoDup (map jc_table joins) -> chain_meaning baseName joins ≡ₚ chain_meaning baseName joins'.
Proof.
  intros Hp Hn. unfold chain_meaning.
  rewrite (Joins.filter_perm _ _ _ (product_perm table_maps (base_maps baseName) _ _ (Permutation_map jc_table Hp) Hn
             (fun a b _ _ => apart_tables a b))).
  apply reflexive_eq, filter_ext. intros m. unfold all_hold. apply eq_true_iff_eq. rewrite !forallb_forall. setoid_rewrite <- list_elem_of_In.
  split; intros H jc Hj; apply H; [by rewrite Hp|by rewrite <- Hp].
Qed.
End chain.
