(* ===== verification/PageManager.v ===== *)
(** * The page cache ([src/storage/page_manager.hpp])

    A cache of 8 KB pages over one file per table, with LRU eviction of dirty
    and clean pages.  The cache is shown to be transparent: every operation acts
    on the list of pages of a table as if there were no cache. *)

From S2P Require Import Prelude Table Page.

Abbreviation Page := Page.Page.

(** Bytes of a page, as a length. *)
Definition PS : nat := Z.to_nat Page.PAGE_SIZE.

(** ** Files *)

Definition block (pid : nat) (f : bytes) : Page := mem_read (pid * PS) PS f.
Definition write_block (pid : nat) (pg : Page) (f : bytes) : bytes := file_write (pid * PS) pg f.

(** ** State *)

Record CacheEntry := mkEntry { page : Page; dirty : bool; accessTime : Z }.

(** [cache_] and the counters, with the [.mdb] files of the directory. *)
Record State := mkState {
  cache_ : gmap bytes (gmap nat CacheEntry);
  maxPages_ : nat; clock_ : Z; cacheHits_ : nat; cacheMisses_ : nat;
  files : gmap bytes bytes }.

Definition with_cache (s : State) c :=
  mkState c (maxPages_ s) (clock_ s) (cacheHits_ s) (cacheMisses_ s) (files s).
Definition with_files (s : State) fs :=
  mkState (cache_ s) (maxPages_ s) (clock_ s) (cacheHits_ s) (cacheMisses_ s) fs.
Definition tick (s : State) :=
  mkState (cache_ s) (maxPages_ s) (u64 (clock_ s + 1)) (cacheHits_ s) (cacheMisses_ s) (files s).
Definition hit (s : State) :=
  mkState (cache_ s) (maxPages_ s) (clock_ s) (S (cacheHits_ s)) (cacheMisses_ s) (files s).
Definition miss (s : State) :=
  mkState (cache_ s) (maxPages_ s) (clock_ s) (cacheHits_ s) (S (cacheMisses_ s)) (files s).

Definition initial (maxPages : nat) (fs : gmap bytes bytes) : State :=
  mkState ∅ maxPages 0 0 0 fs.

Definition UINT64_MAX : Z := 2 ^ 64 - 1.

(** A table name without path separator, NUL or [..]. *)
Fixpoint has_dotdot (s : bytes) : bool :=
  match s with
  | c :: (d :: _) as rest => ((c =? DOT) && (d =? DOT))%Z || has_dotdot rest
  | _ => false
  end.

Definition pageFilePath (t : bytes) : result bytes :=
  if existsb (fun c => (c =? 47) || (c =? 92) || (c =? 0))%Z t
  then Throw "Invalid table name: contains path separator"
  else if has_dotdot t then Throw "Invalid table name: contains path traversal"
  else Ok (t ++ str ".mdb").

(** ** Operations *)

Definition total_of (c : gmap bytes (gmap nat CacheEntry)) : nat :=
  map_fold (fun _ m n => size m + n) 0 c.

Definition totalCached (s : State) : nat := total_of (cache_ s).

(** The cached pages in the order the two loops of [evictOne] visit them; an
    [unordered_map] has no specified order. *)
Definition entries (s : State) : list (bytes * nat * CacheEntry) :=
  mjoin (map (fun tm => map (fun pe => (tm.1, pe.1, pe.2)) (map_to_list tm.2)) (map_to_list (cache_ s))).

Definition older (best : option (bytes * nat * CacheEntry)) (x : bytes * nat * CacheEntry) :=
  let bestTime := match best with Some b => accessTime b.2 | None => UINT64_MAX end in
  if (accessTime x.2 <? bestTime)%Z then Some x else best.

Definition lru (s : State) : option (bytes * nat * CacheEntry) := fold_left older (entries s) None.

(** Remove the entry and, if it was the table's last, the table. *)
Definition erase_entry (t : bytes) (pid : nat) (s : State) : State :=
  let m := delete pid (default ∅ (cache_ s !! t)) in
  with_cache s (if decide (m = ∅) then delete t (cache_ s) else <[t := m]> (cache_ s)).

(** A dirty page is written back; if the file cannot be opened it is lost. *)
Definition write_back (t : bytes) (pid : nat) (e : CacheEntry) (s : State) : result State :=
  if dirty e then
    path ← pageFilePath t;
    Ok (match files s !! path with
        | Some f => with_files s (<[path := write_block pid (page e) f]> (files s))
        | None => s
        end)
  else Ok s.

Definition evictOne (s : State) : result State :=
  match lru s with
  | None => Ok s
  | Some (t, pid, e) => s' ← write_back t pid e s; Ok (erase_entry t pid s')
  end.

(** [while (totalCached() >= maxPages_) evictOne();] with a bound on the rounds. *)
Fixpoint makeRoom_loop (fuel : nat) (s : State) : result State :=
  if totalCached s <? maxPages_ s then Ok s
  else
    match fuel with
    | O => Throw "makeRoom does not end"
    | S fuel' => s' ← evictOne s; makeRoom_loop fuel' s'
    end.

Definition makeRoom (s : State) : result State := makeRoom_loop (S (totalCached s)) s.

Definition getPageCount (s : State) (t : bytes) : result nat :=
  path ← pageFilePath t;
  Ok (match files s !! path with Some f => length f / PS | None => 0 end).

(** [entry.accessTime = ++clock_] for a new or replaced entry. *)
Definition put_entry (t : bytes) (pid : nat) (pg : Page) (d : bool) (s : State) : State :=
  let s := tick s in
  with_cache s (<[t := <[pid := mkEntry pg d (clock_ s)]> (default ∅ (cache_ s !! t))]> (cache_ s)).

Definition DANGLING : string := "reference into an erased table cache".

(** [readPage].  [tblCache] is a reference into [cache_]: when [makeRoom] erases
    the table's last page it dangles, and the store through it is undefined. *)
Definition readPage (t : bytes) (pid : nat) (s : State) : result (State * Page) :=
  let tblCache := default ∅ (cache_ s !! t) in
  let s := with_cache s (<[t := tblCache]> (cache_ s)) in
  match tblCache !! pid with
  | Some e => Ok (put_entry t pid (page e) (dirty e) (hit s), page e)
  | None =>
      let s := miss s in
      path ← pageFilePath t;
      let pg : Page := match files s !! path with
                       | Some f => block pid f ++ replicate (PS - length (block pid f)) 0%Z
                       | None => Page.init (Z.of_nat pid) t
                       end in
      s ← makeRoom s;
      match cache_ s !! t with
      | None => Throw DANGLING
      | Some _ => Ok (put_entry t pid pg false s, pg)
      end
  end.

Definition writePage (t : bytes) (pg : Page) (s : State) : result State :=
  s ← makeRoom s;
  Ok (put_entry t (Z.to_nat (Page.pageId pg)) pg true s).

Definition allocatePage (t : bytes) (s : State) : result (State * Page) :=
  newId ← getPageCount s t;
  let pg := Page.init (Z.of_nat newId) t in
  path ← pageFilePath t;
  let f := default [] (files s !! path) in
  let s := with_files s (<[path := f ++ replicate PS 0%Z]> (files s)) in
  s ← makeRoom s;
  Ok (put_entry t newId pg true s, pg).

Definition flush_entry (f : bytes) (x : nat * CacheEntry) : bytes :=
  if dirty x.2 then write_block x.1 (page x.2) f else f.

Definition clean (e : CacheEntry) : CacheEntry := mkEntry (page e) false (accessTime e).

Definition flushDirtyPages (t : bytes) (s : State) : result State :=
  match cache_ s !! t with
  | None => Ok s
  | Some m =>
      path ← pageFilePath t;
      let f := default [] (files s !! path) in
      let s := with_files s (<[path := fold_left flush_entry (map_to_list m) f]> (files s)) in
      Ok (with_cache s (<[t := clean <$> m]> (cache_ s)))
  end.

Definition flushAll (s : State) : result State :=
  fold_left (fun s t => s ← s; flushDirtyPages t s) (map fst (map_to_list (cache_ s))) (Ok s).

(** ** Blocks of a file *)

Implicit Types (f bs zs : bytes) (t : bytes) (pid : nat) (pg : Page) (s : State).

Lemma PS_pos : 0 < PS.
Proof. by apply Nat.ltb_lt; vm_compute. Qed.

Lemma wf_page_length pg : Page.wf_page pg -> length pg = PS.
Proof. by intros [H _]. Qed.

#[global] Opaque PS.

Lemma block_end pid n : pid < n -> pid * PS + PS <= n * PS.
Proof. intros H. replace (pid * PS + PS) with (S pid * PS) by lia. apply Nat.mul_le_mono_r. lia. Qed.

Lemma block_inside pid f : pid < length f / PS -> pid * PS + PS <= length f.
Proof.
  intros H. etrans; [by apply block_end|]. rewrite Nat.mul_comm. apply Nat.Div0.mul_div_le.
Qed.

Lemma length_block pid f : pid < length f / PS -> length (block pid f) = PS.
Proof. intros H. apply length_mem_read. by apply block_inside. Qed.

Lemma write_block_mem pid pg f :
  pid < length f / PS -> length pg = PS -> write_block pid pg f = mem_write (pid * PS) pg f.
Proof. intros H Hl. apply file_write_inside. rewrite Hl. by apply block_inside. Qed.

Lemma length_write_block pid pg f :
  pid < length f / PS -> length pg = PS -> length (write_block pid pg f) = length f.
Proof.
  intros H Hl. rewrite write_block_mem by done. apply length_mem_write. rewrite Hl.
  by apply block_inside.
Qed.

Lemma block_write pid pg f pid' :
  pid < length f / PS -> length pg = PS ->
  block pid' (write_block pid pg f) = if decide (pid' = pid) then pg else block pid' f.
Proof.
  intros H Hl. rewrite write_block_mem by done. pose proof (block_inside _ _ H).
  unfold block. destruct (decide (pid' = pid)) as [->|Hne]; [apply mem_read_write; lia|].
  destruct (Nat.lt_total pid' pid) as [Hlt|[Heq|Hlt]]; [|by destruct (Hne Heq)|].
  - apply mem_read_write_before; [by apply block_end|lia].
  - apply mem_read_write_after; [rewrite Hl; by apply block_end|lia].
Qed.

Lemma block_append pid f zs : pid < length f / PS -> block pid (f ++ zs) = block pid f.
Proof.
  intros H. pose proof (block_inside _ _ H). unfold block, mem_read.
  rewrite drop_app_le by lia. apply take_app_le. rewrite length_drop. lia.
Qed.

Lemma div_append n m : n mod PS = 0 -> (n + m * PS) / PS = n / PS + m.
Proof. intros _. pose proof PS_pos. apply Nat.div_add. lia. Qed.

(** ** The cache as a map *)

Definition cached (s : State) (t : bytes) (pid : nat) : option CacheEntry := cache_ s !! t ≫= (.!! pid).

Lemma total_insert c t m : c !! t = None -> total_of (<[t := m]> c) = size m + total_of c.
Proof. intros H. unfold total_of. rewrite map_fold_insert_L; [done|intros; lia|done]. Qed.

Lemma total_delete c t m : c !! t = Some m -> total_of c = size m + total_of (delete t c).
Proof. intros H. unfold total_of. rewrite (map_fold_delete_L _ _ t m); [done|intros; lia|done]. Qed.

Lemma total_update c t m :
  total_of (<[t := m]> c) + size (default ∅ (c !! t)) = size m + total_of c.
Proof.
  destruct (c !! t) as [m0|] eqn:E; simpl.
  - rewrite (total_delete c t m0 E), <- insert_delete_eq.
    rewrite total_insert by apply lookup_delete_eq. lia.
  - rewrite total_insert, map_size_empty by done. lia.
Qed.

Lemma cached_default s t pid : default ∅ (cache_ s !! t) !! pid = cached s t pid.
Proof. unfold cached. by destruct (cache_ s !! t). Qed.

Lemma cached_insert s t m t' pid :
  cached (with_cache s (<[t := m]> (cache_ s))) t' pid =
    if decide (t' = t) then m !! pid else cached s t' pid.
Proof.
  unfold cached. simpl. destruct (decide (t' = t)) as [->|].
  - by rewrite lookup_insert_eq.
  - by rewrite lookup_insert_ne.
Qed.

Lemma cached_put t pid pg d s t' pid' :
  cached (put_entry t pid pg d s) t' pid' =
    if decide (t' = t /\ pid' = pid) then Some (mkEntry pg d (u64 (clock_ s + 1)))
    else cached s t' pid'.
Proof.
  unfold put_entry. rewrite (cached_insert (tick s)). destruct (decide (t' = t)) as [->|].
  - destruct (decide (pid' = pid)) as [->|].
    + rewrite lookup_insert_eq, decide_True by done. done.
    + rewrite lookup_insert_ne, decide_False by naive_solver. apply (cached_default (tick s)).
  - by rewrite decide_False by naive_solver.
Qed.

Lemma cached_erase t pid s t' pid' :
  cached (erase_entry t pid s) t' pid' =
    if decide (t' = t /\ pid' = pid) then None else cached s t' pid'.
Proof.
  unfold erase_entry. rewrite <- (cached_default s t' pid'). unfold cached. simpl.
  destruct (decide (delete pid (default ∅ (cache_ s !! t)) = ∅)) as [E|E];
    destruct (decide (t' = t)) as [->|Hne].
  - rewrite lookup_delete_eq. simpl. destruct (decide (pid' = pid)) as [->|Hp].
    + by rewrite decide_True.
    + rewrite decide_False by naive_solver. apply (f_equal (.!! pid')) in E.
      rewrite lookup_delete_ne, lookup_empty in E by done. done.
  - rewrite lookup_delete_ne, decide_False by naive_solver. by destruct (cache_ s !! t').
  - rewrite lookup_insert_eq. simpl. destruct (decide (pid' = pid)) as [->|Hp].
    + by rewrite decide_True, lookup_delete_eq.
    + by rewrite decide_False, lookup_delete_ne by naive_solver.
  - rewrite lookup_insert_ne, decide_False by naive_solver. by destruct (cache_ s !! t').
Qed.

Lemma total_put t pid pg d s :
  totalCached (put_entry t pid pg d s) =
    totalCached s + match cached s t pid with Some _ => 0 | None => 1 end.
Proof.
  unfold totalCached, put_entry. cbn [cache_ with_cache tick clock_].
  pose proof (total_update (cache_ s) t
    (<[pid := mkEntry pg d (u64 (clock_ s + 1))]> (default ∅ (cache_ s !! t)))) as H.
  rewrite <- cached_default.
  set (m := default ∅ (cache_ s !! t)) in *.
  destruct (m !! pid) as [e|] eqn:E.
  - rewrite map_size_insert_Some in H by eauto. lia.
  - rewrite map_size_insert_None in H by done. lia.
Qed.

Lemma total_erase t pid s e :
  cached s t pid = Some e -> S (totalCached (erase_entry t pid s)) = totalCached s.
Proof.
  intros H. unfold cached in H. destruct (cache_ s !! t) as [m|] eqn:E; [|done]. simpl in H.
  unfold totalCached, erase_entry. rewrite E. cbn [cache_ with_cache default from_option id].
  assert (size m = S (size (delete pid m))) as Hs.
  { rewrite <- (insert_id m pid e H) at 1. rewrite <- insert_delete_eq.
    apply map_size_insert_None, lookup_delete_eq. }
  pose proof (total_delete (cache_ s) t m E) as Hd.
  destruct (decide (delete pid m = ∅)) as [Ed|Ed].
  - rewrite Ed, map_size_empty in Hs. lia.
  - pose proof (total_update (cache_ s) t (delete pid m)) as Hu. rewrite E in Hu.
    simpl in Hu. lia.
Qed.

(** ** The victim *)

Lemma elem_entries s t pid e : (t, pid, e) ∈ entries s <-> cached s t pid = Some e.
Proof.
  unfold entries, cached. rewrite list_elem_of_join. split.
  - intros (l & Hin & Hl). apply list_elem_of_fmap in Hl as ([t' m] & -> & Hm).
    apply list_elem_of_fmap in Hin as ([pid' e'] & [= -> -> ->] & He).
    apply elem_of_map_to_list in Hm, He. by rewrite Hm.
  - intros H. destruct (cache_ s !! t) as [m|] eqn:E; [|done]. simpl in H.
    exists (map (fun pe => (t, pe.1, pe.2)) (map_to_list m)). split.
    + apply list_elem_of_fmap. exists (pid, e). split; [done|]. by apply elem_of_map_to_list.
    + apply list_elem_of_fmap. exists (t, m). split; [done|]. by apply elem_of_map_to_list.
Qed.

Lemma total_entries s : totalCached s = length (entries s).
Proof.
  unfold totalCached, total_of, entries. rewrite map_fold_foldr.
  induction (map_to_list (cache_ s)) as [|[t m] l IH]; [done|]. cbn [map foldr uncurry].
  rewrite mjoin_cons, length_app, length_map, IH. f_equal; by rewrite length_map_to_list.
Qed.

Lemma older_fold l best :
  match best with Some _ => True | None => exists x, x ∈ l /\ (accessTime x.2 < UINT64_MAX)%Z end ->
  exists x, fold_left older l best = Some x /\ (x ∈ l \/ best = Some x).
Proof.
  revert best. induction l as [|y l IH]; intros best H; cbn [fold_left].
  { destruct best as [b|]; [by exists b; auto|]. destruct H as (x & Hx & _).
    by apply not_elem_of_nil in Hx. }
  assert (match older best y with
          | Some _ => True
          | None => exists x, x ∈ l /\ (accessTime x.2 < UINT64_MAX)%Z
          end) as H'.
  { unfold older. destruct best as [b|]; [by destruct (_ <? _)%Z|].
    destruct (Z.ltb_spec (accessTime y.2) UINT64_MAX); [done|].
    destruct H as (x & Hx & Hlt). apply elem_of_cons in Hx as [->|Hx]; [lia|eauto]. }
  destruct (IH _ H') as (x & Hx & Hin). exists x. split; [done|].
  rewrite elem_of_cons. destruct Hin as [?|Hb]; [auto|].
  unfold older in Hb. destruct (_ <? _)%Z; [|auto]. injection Hb as ->. auto.
Qed.

(** ** The invariant *)

Definition path_of t : bytes := t ++ str ".mdb".
Definition file s t : bytes := default [] (files s !! path_of t).
Definition count s t : nat := length (file s t) / PS.

(** Page [pid] of table [t]: the cached copy, or the one in the file. *)
Definition page_of s t pid : Page :=
  match cached s t pid with Some e => page e | None => block pid (file s t) end.

(** The contents of table [t] as its users see them. *)
Definition pages s t : list Page := map (page_of s t) (seq 0 (count s t)).

Definition entry_ok s t pid (e : CacheEntry) : Prop :=
  pageFilePath t = Ok (path_of t) /\ pid < count s t /\ length (page e) = PS /\
  (accessTime e <= clock_ s)%Z /\ (dirty e = false -> block pid (file s t) = page e).

Record ok s : Prop := {
  ok_room : 0 < maxPages_ s;
  ok_total : totalCached s <= maxPages_ s;
  ok_clock : (0 <= clock_ s)%Z;
  ok_files : forall t, length (file s t) mod PS = 0;
  ok_entries : forall t pid e, cached s t pid = Some e -> entry_ok s t pid e }.

(** [s'] shows the same tables as [s]. *)
Definition same_view s s' : Prop :=
  (forall t, count s' t = count s t) /\
  (forall t pid, pid < count s t -> page_of s' t pid = page_of s t pid).

#[export] Instance same_view_preorder : PreOrder same_view.
Proof.
  split; [by split|]. intros s1 s2 s3 [H1 H2] [H3 H4]. split; [by intros; rewrite H3|].
  intros t pid Hp. rewrite H4 by (by rewrite H1). by apply H2.
Qed.

Lemma same_view_pages s s' t : same_view s s' -> pages s' t = pages s t.
Proof.
  intros [H1 H2]. unfold pages. rewrite H1. apply map_ext_in. intros pid Hp.
  apply in_seq in Hp. apply H2. lia.
Qed.

Lemma path_of_inj t t' : path_of t = path_of t' -> t = t'.
Proof. apply app_inj_2. done. Qed.

Lemma pageFilePath_ok t p : pageFilePath t = Ok p -> p = path_of t.
Proof. unfold pageFilePath. do 2 (case_match; [done|]). by intros [= <-]. Qed.

(** ** Eviction keeps the view *)

Lemma write_back_spec s t pid e :
  ok s -> cached s t pid = Some e ->
  exists s', write_back t pid e s = Ok s' /\ cache_ s' = cache_ s /\ maxPages_ s' = maxPages_ s /\
    clock_ s' = clock_ s /\
    (forall t', length (file s' t') = length (file s t')) /\
    (forall t' pid', block pid' (file s' t') =
       if decide (t' = t /\ pid' = pid) then page e else block pid' (file s t')).
Proof.
  intros Hok Hc. destruct (ok_entries s Hok t pid e Hc) as (Hp & Hlt & Hl & _ & Hd).
  unfold write_back. destruct (dirty e).
  - rewrite Hp. cbn [mbind result_bind]. unfold count, file in Hlt.
    destruct (files s !! path_of t) as [f|] eqn:Ef.
    2:{ simpl in Hlt. rewrite Nat.Div0.div_0_l in Hlt. lia. }
    simpl in Hlt. eexists. split; [done|]. split_and!; [done..| |]; intros t'; unfold file; simpl.
    + destruct (decide (path_of t' = path_of t)) as [->|Hne].
      * rewrite lookup_insert_eq, Ef. simpl. by apply length_write_block.
      * by rewrite lookup_insert_ne.
    + intros pid'. destruct (decide (t' = t)) as [->|Hne].
      * rewrite lookup_insert_eq, Ef. simpl. rewrite block_write by done.
        destruct (decide (pid' = pid)) as [->|]; [by rewrite decide_True|].
        by rewrite decide_False by naive_solver.
      * rewrite lookup_insert_ne by (intros E; apply Hne; symmetry; by apply path_of_inj).
        by rewrite decide_False by naive_solver.
  - exists s. split; [done|]. split_and!; try done. intros t' pid'.
    destruct (decide (t' = t /\ pid' = pid)) as [[-> ->]|]; [by apply Hd|done].
Qed.

Lemma erase_unfold t pid s s' :
  cache_ s' = cache_ s -> cache_ (erase_entry t pid s') = cache_ (erase_entry t pid s).
Proof. intros E. unfold erase_entry. simpl. by rewrite E. Qed.

Lemma cached_eq s s' t pid : cache_ s' = cache_ s -> cached s' t pid = cached s t pid.
Proof. unfold cached. by intros ->. Qed.

Lemma evictOne_spec s :
  ok s -> 0 < totalCached s -> (clock_ s < UINT64_MAX)%Z ->
  exists t pid e s', lru s = Some (t, pid, e) /\ cached s t pid = Some e /\ evictOne s = Ok s' /\
    ok s' /\ same_view s s' /\ S (totalCached s') = totalCached s /\
    cache_ s' = cache_ (erase_entry t pid s) /\
    maxPages_ s' = maxPages_ s /\ clock_ s' = clock_ s.
Proof.
  intros Hok Hpos Hclk.
  destruct (older_fold (entries s) None) as ([[t pid] e] & Hlru & Hin).
  { rewrite total_entries in Hpos. destruct (entries s) as [|[[t pid] e] l] eqn:E; [simpl in Hpos; lia|].
    exists (t, pid, e). split; [left|]. simpl.
    assert (cached s t pid = Some e) as Hc by (apply elem_entries; rewrite E; left).
    destruct (ok_entries s Hok t pid e Hc) as (_ & _ & _ & H & _). lia. }
  destruct Hin as [Hin|Hin]; [|done]. apply elem_entries in Hin as Hc.
  destruct (write_back_spec s t pid e Hok Hc) as (s' & Hw & Ec & Em & Ek & Hlen & Hblk).
  fold (lru s) in Hlru. exists t, pid, e, (erase_entry t pid s').
  assert (forall t', count (erase_entry t pid s') t' = count s t') as Hcnt.
  { intros t'. unfold count, file. simpl. fold (file s' t') (file s t'). by rewrite Hlen. }
  assert (forall t' pid', cached (erase_entry t pid s') t' pid' =
            if decide (t' = t /\ pid' = pid) then None else cached s t' pid') as Hce.
  { intros. rewrite cached_erase. by rewrite (cached_eq s s'). }
  assert (S (totalCached (erase_entry t pid s')) = totalCached s) as Htot.
  { rewrite <- (total_erase t pid s e Hc). unfold totalCached. by rewrite (erase_unfold t pid s s'). }
  split_and!; try done.
  - unfold evictOne. rewrite Hlru, Hw. done.
  - destruct Hok as [H1 H2 H3 H4 H5]. constructor; simpl; rewrite ?Em, ?Ek; try done.
    + lia.
    + intros t'. unfold file. simpl. fold (file s' t'). rewrite Hlen. apply H4.
    + intros t' pid' e' He'. rewrite Hce in He'. destruct (decide _) as [|Hne]; [done|].
      destruct (H5 t' pid' e' He') as (G1 & G2 & G3 & G4 & G5).
      split_and!; try done; [by rewrite Hcnt|simpl; by rewrite Ek|].
      intros Hd. unfold file. simpl. fold (file s' t'). rewrite Hblk, decide_False by done. by apply G5.
  - split; [done|]. intros t' pid' Hlt. unfold page_of. rewrite Hce.
    destruct (decide (t' = t /\ pid' = pid)) as [[-> ->]|Hne].
    + rewrite Hc. unfold file. simpl. fold (file s' t). by rewrite Hblk, decide_True.
    + destruct (cached s t' pid'); [done|]. unfold file at 1. simpl. fold (file s' t').
      by rewrite Hblk, decide_False.
  - by apply erase_unfold.
Qed.

(** One round suffices: the cache is never more than full. *)
Lemma makeRoom_spec s :
  ok s -> (clock_ s < UINT64_MAX)%Z ->
  exists s', makeRoom s = Ok s' /\ ok s' /\ same_view s s' /\ totalCached s' < maxPages_ s' /\
    maxPages_ s' = maxPages_ s /\ clock_ s' = clock_ s /\
    (s' = s \/ totalCached s = maxPages_ s /\ exists t pid e, lru s = Some (t, pid, e) /\
       cached s t pid = Some e /\ cache_ s' = cache_ (erase_entry t pid s)).
Proof.
  intros Hok Hclk. pose proof (ok_room s Hok). pose proof (ok_total s Hok). unfold makeRoom.
  destruct (Nat.ltb_spec (totalCached s) (maxPages_ s)) as [Hlt|Hge].
  - exists s. cbn [makeRoom_loop]. rewrite (proj2 (Nat.ltb_lt _ _)) by done. split_and!; (reflexivity || auto).
  - destruct (evictOne_spec s Hok) as (t & pid & e & s' & H1 & H2 & H3 & H4 & H5 & H6 & H7 & H8 & H9);
      [lia|done|].
    exists s'. cbn [makeRoom_loop]. rewrite (proj2 (Nat.ltb_ge _ _)) by lia.
    rewrite H3. cbn [mbind result_bind]. destruct (totalCached s) eqn:Et; [lia|].
    cbn [makeRoom_loop]. rewrite (proj2 (Nat.ltb_lt _ _)) by lia.
    split_and!; try done; [lia|]. right. split; [lia|]. by exists t, pid, e.
Qed.

(** ** The operations on the view *)

Lemma put_entry_spec s t pid pg d :
  ok s -> totalCached s + (match cached s t pid with Some _ => 0 | None => 1 end) <= maxPages_ s ->
  (clock_ s + 1 < UINT64_MAX)%Z -> pageFilePath t = Ok (path_of t) -> pid < count s t ->
  length pg = PS -> (d = false -> block pid (file s t) = pg) ->
  ok (put_entry t pid pg d s) /\ clock_ (put_entry t pid pg d s) = (clock_ s + 1)%Z /\
  (forall t', count (put_entry t pid pg d s) t' = count s t') /\
  (forall t' pid', page_of (put_entry t pid pg d s) t' pid' =
     if decide (t' = t /\ pid' = pid) then pg else page_of s t' pid').
Proof.
  intros Hok Htot Hclk Hp Hlt Hl Hd. pose proof Hok as [H1 H2 H3 H4 H5].
  assert (u64 (clock_ s + 1) = (clock_ s + 1)%Z) as Hu by (apply u64_id; unfold UINT64_MAX in *; lia).
  split_and!.
  - constructor; simpl.
    + done.
    + rewrite total_put. done.
    + rewrite Hu. lia.
    + done.
    + intros t' pid' e He. rewrite cached_put, Hu in He.
      destruct (decide (t' = t /\ pid' = pid)) as [[-> ->]|Hne].
      * injection He as <-. split_and!; simpl; rewrite ?Hu; done || lia.
      * destruct (H5 t' pid' e He) as (G1 & G2 & G3 & G4 & G5).
        split_and!; try done. simpl. rewrite Hu. lia.
  - done.
  - done.
  - intros t' pid'. unfold page_of. rewrite cached_put.
    by destruct (decide (t' = t /\ pid' = pid)) as [[-> ->]|].
Qed.

Lemma lookup_pages s t pid :
  pages s t !! pid = if decide (pid < count s t) then Some (page_of s t pid) else None.
Proof.
  unfold pages. rewrite list_lookup_fmap. destruct (decide (pid < count s t)) as [H|H].
  - by rewrite lookup_seq_lt.
  - rewrite lookup_seq_ge by lia. done.
Qed.

Lemma length_pages s t : length (pages s t) = count s t.
Proof. unfold pages. by rewrite length_map, length_seq. Qed.

(** Changing one page of the view changes one element of the list. *)
Lemma pages_update s s' t pid pg :
  (forall t', count s' t' = count s t') -> pid < count s t ->
  (forall t' pid', pid' < count s t' ->
     page_of s' t' pid' = if decide (t' = t /\ pid' = pid) then pg else page_of s t' pid') ->
  forall t', pages s' t' = if decide (t' = t) then <[pid := pg]> (pages s t) else pages s t'.
Proof.
  intros Hc Hlt Hp t'. apply list_eq. intros i. rewrite lookup_pages, Hc.
  destruct (decide (t' = t)) as [->|Hne].
  - destruct (decide (i < count s t)) as [Hi|Hi].
    + rewrite Hp by done. destruct (decide (i = pid)) as [->|Hn].
      * rewrite decide_True by done. rewrite list_lookup_insert_eq; [done|by rewrite length_pages].
      * rewrite decide_False by naive_solver. rewrite list_lookup_insert_ne by done.
        by rewrite lookup_pages, decide_True.
    + symmetry. apply lookup_ge_None. rewrite length_insert, length_pages. lia.
  - rewrite lookup_pages. destruct (decide (i < count s t')) as [Hi|Hi]; [|done].
    rewrite Hp by done. by rewrite decide_False by naive_solver.
Qed.

(** Making room for a page that is not cached, then storing it. *)
Lemma store_spec s t pid pg d :
  ok s -> (clock_ s + 1 < UINT64_MAX)%Z -> pageFilePath t = Ok (path_of t) -> pid < count s t ->
  length pg = PS -> (d = false -> page_of s t pid = pg /\ cached s t pid = None) ->
  exists s1, makeRoom s = Ok s1 /\ ok (put_entry t pid pg d s1) /\
    clock_ (put_entry t pid pg d s1) = (clock_ s + 1)%Z /\
    maxPages_ s1 = maxPages_ s /\
    (forall t', count (put_entry t pid pg d s1) t' = count s t') /\
    (forall t' pid', pid' < count s t' -> page_of (put_entry t pid pg d s1) t' pid' =
       if decide (t' = t /\ pid' = pid) then pg else page_of s t' pid') /\
    (s1 = s \/ totalCached s = maxPages_ s /\ exists t0 pid0 e, lru s = Some (t0, pid0, e) /\
       cached s t0 pid0 = Some e /\ cache_ s1 = cache_ (erase_entry t0 pid0 s)).
Proof.
  intros Hok Hclk Hp Hlt Hl Hd.
  destruct (makeRoom_spec s Hok) as (s1 & E1 & Hok1 & [Hv1 Hv2] & Ht1 & Hm1 & Hk1 & Hcase); [lia|].
  exists s1. destruct (put_entry_spec s1 t pid pg d) as (G1 & G2 & G3 & G4);
    rewrite ?Hk1, ?Hv1; try done.
  - destruct (cached s1 t pid); lia.
  - intros ->. destruct (Hd eq_refl) as [Hpg Hnone]. rewrite <- Hpg, <- Hv2 by done.
    unfold page_of. assert (cached s1 t pid = None) as ->; [|done].
    destruct Hcase as [->|(_ & t0 & pid0 & e & _ & _ & Ec)]; [done|].
    rewrite (cached_eq (erase_entry t0 pid0 s)) by done. rewrite cached_erase. by case_decide.
  - split_and!; try done.
    + by rewrite G2, Hk1.
    + intros t' pid' Hlt'. rewrite G4. case_decide; [done|]. by apply Hv2.
Qed.

(** Reading through a dangling reference: the cache is full, the page is not in
    it, and the page to evict is the last cached page of the same table. *)
Definition dangles s t pid : Prop :=
  cached s t pid = None /\ totalCached s = maxPages_ s /\
  exists pid0 e, lru s = Some (t, pid0, e) /\ default ∅ (cache_ s !! t) = {[pid0 := e]}.

Lemma erase_last t t0 pid0 s e m :
  cache_ s !! t = Some m -> cached s t0 pid0 = Some e ->
  cache_ (erase_entry t0 pid0 s) !! t = None -> t0 = t /\ m = {[pid0 := e]}.
Proof.
  unfold cached. intros Hm Hc H. unfold erase_entry in H. simpl in H.
  destruct (decide (t0 = t)) as [->|Hne].
  - split; [done|]. rewrite Hm in *. simpl in *. case_decide as E.
    + rewrite <- (insert_id m pid0 e Hc), <- insert_delete_eq, E. done.
    + by rewrite lookup_insert_eq in H.
  - case_decide; rewrite ?lookup_delete_ne, ?lookup_insert_ne in H by done; congruence.
Qed.

(** Touching an empty table entry, counting a miss. *)
Lemma with_table_ok s t :
  ok s -> let s' := miss (with_cache s (<[t := default ∅ (cache_ s !! t)]> (cache_ s))) in
  ok s' /\ (forall t' pid, cached s' t' pid = cached s t' pid) /\ totalCached s' = totalCached s.
Proof.
  intros [H1 H2 H3 H4 H5] s'.
  assert (forall t' pid, cached s' t' pid = cached s t' pid) as Hc.
  { intros t' pid. etrans; [apply (cached_insert s)|]. case_decide as E; [|done].
    subst t'. apply cached_default. }
  assert (totalCached s' = totalCached s) as Ht.
  { unfold totalCached, s'. simpl.
    pose proof (total_update (cache_ s) t (default ∅ (cache_ s !! t))). lia. }
  split_and!; [|done|done]. constructor; try done; [by rewrite Ht|].
  intros t' pid e He. rewrite Hc in He. apply (H5 _ _ _ He).
Qed.

Lemma entries_touch s t :
  cache_ s !! t <> None -> entries (miss (with_cache s (<[t := default ∅ (cache_ s !! t)]> (cache_ s)))) = entries s.
Proof.
  intros H. unfold entries. simpl. destruct (cache_ s !! t) as [m|] eqn:E; [|done]. simpl.
  by rewrite insert_id.
Qed.

Lemma readPage_spec s t pid :
  ok s -> (clock_ s + 1 < UINT64_MAX)%Z -> pageFilePath t = Ok (path_of t) -> pid < count s t ->
  match readPage t pid s with
  | Ok (s', pg) =>
      pg = page_of s t pid /\ ok s' /\ same_view s s' /\ clock_ s' = (clock_ s + 1)%Z /\
      maxPages_ s' = maxPages_ s
  | Throw e => e = DANGLING /\ dangles s t pid
  end.
Proof.
  intros Hok Hclk Hp Hlt. unfold readPage. rewrite cached_default.
  destruct (with_table_ok s t Hok) as (Hok1 & Hc1 & Ht1).
  set (s0 := with_cache s (<[t := default ∅ (cache_ s !! t)]> (cache_ s))) in *.
  destruct (cached s t pid) as [e|] eqn:Ec.
  - destruct (ok_entries s Hok t pid e Ec) as (_ & _ & Hl & _ & Hd).
    assert (ok (hit s0)) as Hokh by (destruct Hok1; constructor; done).
    destruct (put_entry_spec (hit s0) t pid (page e) (dirty e)) as (G1 & G2 & G3 & G4); try done.
    + specialize (Hc1 t pid). unfold cached in Hc1. unfold cached. simpl in *. rewrite Hc1.
      unfold cached in Ec. rewrite Ec. rewrite Nat.add_0_r. apply (ok_total _ Hokh).
    + unfold page_of at 1. rewrite Ec. split_and!; try done. split; [done|].
      intros t' pid' Hlt'. rewrite G4. unfold page_of. case_decide as E.
      * destruct E as [-> ->]. by rewrite Ec.
      * specialize (Hc1 t' pid'). unfold cached in *. simpl in *. by rewrite Hc1.
  - rewrite Hp. cbn [mbind result_bind].
    assert (page_of s t pid = match files (miss s0) !! path_of t with
      | Some f => block pid f ++ replicate (PS - length (block pid f)) 0%Z
      | None => Page.init (Z.of_nat pid) t end) as Hpg.
    { unfold page_of. rewrite Ec. unfold count, file in *. simpl.
      destruct (files s !! path_of t) as [f|]; simpl in *.
      - rewrite length_block, Nat.sub_diag, app_nil_r by done. done.
      - rewrite Nat.Div0.div_0_l in Hlt. lia. }
    rewrite <- Hpg.
    assert (page_of (miss s0) t pid = page_of s t pid) as Hpo
      by (unfold page_of; rewrite Hc1; done).
    destruct (store_spec (miss s0) t pid (page_of s t pid) false) as
      (s1 & E1 & G1 & G2 & G3 & G4 & G5 & Hcase); try done.
    + unfold page_of. rewrite Ec. by apply length_block.
    + intros _. split; [done|]. by rewrite Hc1.
    + rewrite E1. cbn [mbind result_bind]. destruct (cache_ s1 !! t) as [m|] eqn:Em.
      * split_and!; try done. split; [done|]. intros t' pid' Hlt'. rewrite G5 by done.
        case_decide as E; [by destruct E as [-> ->]|]. unfold page_of. by rewrite Hc1.
      * split; [done|]. destruct Hcase as [->|(Hfull & t0 & pid0 & e & Hlru & Hc0 & Ec0)].
        { simpl in Em. by rewrite lookup_insert_eq in Em. }
        rewrite Ec0 in Em.
        eapply erase_last in Em as [-> Hm]; [|apply lookup_insert_eq|exact Hc0].
        split_and!; [done|by rewrite <- Ht1|]. exists pid0, e. split; [|exact Hm].
        unfold lru in *. rewrite <- Hlru. unfold s0; rewrite entries_touch; [done|].
        intros En. rewrite En in Hm. simpl in Hm. apply (f_equal (.!! pid0)) in Hm.
        by rewrite lookup_singleton_eq, lookup_empty in Hm.
Qed.

Lemma writePage_spec s t pg :
  ok s -> (clock_ s + 1 < UINT64_MAX)%Z -> pageFilePath t = Ok (path_of t) ->
  Z.to_nat (Page.pageId pg) < count s t -> length pg = PS ->
  exists s', writePage t pg s = Ok s' /\ ok s' /\ clock_ s' = (clock_ s + 1)%Z /\
    maxPages_ s' = maxPages_ s /\
    forall t', pages s' t' =
      if decide (t' = t) then <[Z.to_nat (Page.pageId pg) := pg]> (pages s t) else pages s t'.
Proof.
  intros Hok Hclk Hp Hlt Hl.
  destruct (store_spec s t (Z.to_nat (Page.pageId pg)) pg true)
    as (s1 & E1 & G1 & G2 & G3 & G4 & G5 & _); try done.
  eexists. unfold writePage. rewrite E1. cbn [mbind result_bind].
  split_and!; [done|done|done|done|]. by apply pages_update.
Qed.

Lemma init_length (id : Z) t : wf_bytes t -> length (Page.init id t) = PS.
Proof. intros H. by apply wf_page_length, Page.wf_init. Qed.

(** The file grows by a zeroed page. *)
Definition grown t s : State :=
  with_files s (<[path_of t := file s t ++ replicate PS 0%Z]> (files s)).

Lemma file_grown t s t' :
  file (grown t s) t' = if decide (t' = t) then file s t ++ replicate PS 0%Z else file s t'.
Proof.
  unfold file at 1. simpl. case_decide as E; [by rewrite E, lookup_insert_eq|].
  rewrite lookup_insert_ne; [done|]. intros H. apply E. symmetry. by apply path_of_inj.
Qed.

Lemma count_grown t s t' :
  length (file s t) mod PS = 0 ->
  count (grown t s) t' = if decide (t' = t) then S (count s t) else count s t'.
Proof.
  intros H. unfold count. rewrite file_grown. case_decide; [|done].
  rewrite length_app, length_replicate. pose proof (div_append _ 1 H) as Hd.
  rewrite Nat.mul_1_l in Hd. rewrite Hd. lia.
Qed.

Lemma grown_ok t s : ok s -> ok (grown t s).
Proof.
  intros [H1 H2 H3 H4 H5]. constructor; try done.
  - intros t'. rewrite file_grown. case_decide; [|done].
    rewrite length_app, length_replicate. pose proof PS_pos.
    rewrite <- (Nat.mul_1_l PS) at 1. rewrite Nat.Div0.mod_add. apply H4.
  - intros t' pid e He. destruct (H5 t' pid e He) as (G1 & G2 & G3 & G4 & G5).
    split_and!; try done.
    + rewrite count_grown by done. case_decide as E; [subst; lia|done].
    + intros Hd. rewrite file_grown. case_decide as E; [subst t'|by apply G5].
      rewrite block_append by done. by apply G5.
Qed.

Lemma pages_grown_old t s t' pid :
  pid < count s t' -> page_of (grown t s) t' pid = page_of s t' pid.
Proof.
  intros H. unfold page_of. change (cached (grown t s) t' pid) with (cached s t' pid).
  destruct (cached s t' pid); [done|]. rewrite file_grown. case_decide as E; [subst t'|done].
  by apply block_append.
Qed.

Lemma map_seq_snoc {A} (f g : nat -> A) n :
  (forall i, i < n -> f i = g i) -> map f (seq 0 (S n)) = map g (seq 0 n) ++ [f n].
Proof.
  intros H. rewrite seq_S, map_app. f_equal. apply map_ext_in. intros i Hi.
  apply in_seq in Hi. apply H. lia.
Qed.

Lemma allocatePage_spec s t :
  ok s -> (clock_ s + 1 < UINT64_MAX)%Z -> pageFilePath t = Ok (path_of t) -> wf_bytes t ->
  exists s', allocatePage t s = Ok (s', Page.init (Z.of_nat (count s t)) t) /\ ok s' /\
    clock_ s' = (clock_ s + 1)%Z /\ maxPages_ s' = maxPages_ s /\
    forall t', pages s' t' =
      if decide (t' = t) then pages s t ++ [Page.init (Z.of_nat (count s t)) t] else pages s t'.
Proof.
  intros Hok Hclk Hp Hw. unfold allocatePage, getPageCount. rewrite Hp. cbn [mbind result_bind].
  assert (match files s !! path_of t with Some f => length f / PS | None => 0 end = count s t) as ->.
  { unfold count, file. destruct (files s !! path_of t); [done|]. simpl.
    by rewrite Nat.Div0.div_0_l. }
  fold (file s t). fold (grown t s). pose proof (ok_files s Hok t) as Hm.
  pose proof (count_grown t s t Hm) as Hct. rewrite decide_True in Hct by done.
  set (pg := Page.init (Z.of_nat (count s t)) t).
  destruct (store_spec (grown t s) t (count s t) pg true)
    as (s1 & E1 & G1 & G2 & G3 & G4 & G5 & _); try done.
  - by apply grown_ok.
  - rewrite Hct. lia.
  - by apply init_length.
  - exists (put_entry t (count s t) pg true s1). rewrite E1. cbn [mbind result_bind].
    split_and!; [done|done|done|done|]. intros t'.
    rewrite (pages_update (grown t s) _ t (count s t) pg); [|done|rewrite Hct; lia|done].
    assert (pages (grown t s) t = pages s t ++ [page_of (grown t s) t (count s t)]) as Hg.
    { unfold pages. rewrite Hct. apply map_seq_snoc. intros pid Hlt. by apply pages_grown_old. }
    case_decide as E.
    + rewrite Hg, insert_app_r_alt by (rewrite length_pages; lia).
      by rewrite length_pages, Nat.sub_diag.
    + unfold pages. rewrite count_grown, decide_False by done. apply map_ext_in.
      intros pid Hin. apply in_seq in Hin. apply pages_grown_old. lia.
Qed.

(** Writing the dirty entries [l] of a table, whatever their order. *)
Lemma flush_fold l f :
  NoDup (map fst l) ->
  Forall (fun x => x.1 < length f / PS /\ length (page x.2) = PS) l ->
  length (fold_left flush_entry l f) = length f /\
  forall pid, block pid (fold_left flush_entry l f) =
    match (list_to_map l : gmap nat CacheEntry) !! pid with
    | Some e => if dirty e then page e else block pid f
    | None => block pid f
    end.
Proof.
  revert f. induction l as [|[p e] l IH]; intros f Hnd Hall; [done|].
  apply NoDup_cons in Hnd as [Hn Hnd]. apply Forall_cons in Hall as [[H1 H2] Hall].
  simpl in Hn, H1, H2. cbn [fold_left list_to_map fst snd foldr].
  assert (length (flush_entry f (p, e)) = length f) as Hlen.
  { unfold flush_entry. simpl. destruct (dirty e); [by apply length_write_block|done]. }
  destruct (IH (flush_entry f (p, e)) Hnd) as [E1 E2]; [by rewrite Hlen|].
  split; [by rewrite E1|]. intros pid. rewrite E2. simpl.
  assert (block pid (flush_entry f (p, e)) =
          if decide (pid = p) then (if dirty e then page e else block pid f) else block pid f) as Hb.
  { unfold flush_entry. simpl. destruct (dirty e); [by rewrite block_write|by case_decide]. }
  rewrite Hb. destruct (decide (pid = p)) as [->|Hne].
  - rewrite lookup_insert_eq. rewrite not_elem_of_list_to_map_1; [done|exact Hn].
  - by rewrite lookup_insert_ne.
Qed.

Lemma flushDirtyPages_spec s t :
  ok s -> pageFilePath t = Ok (path_of t) ->
  exists s', flushDirtyPages t s = Ok s' /\ ok s' /\ clock_ s' = clock_ s /\
    maxPages_ s' = maxPages_ s /\ same_view s s' /\
    (forall pid, pid < count s t -> block pid (file s' t) = page_of s t pid).
Proof.
  intros Hok Hp. pose proof Hok as [H1 H2 H3 H4 H5]. unfold flushDirtyPages.
  destruct (cache_ s !! t) as [m|] eqn:Em.
  2:{ exists s. split_and!; try done. intros pid Hlt. unfold page_of, cached. by rewrite Em. }
  rewrite Hp. cbn [mbind result_bind]. fold (file s t).
  assert (forall pid, cached s t pid = m !! pid) as Hcm by (intros; unfold cached; by rewrite Em).
  destruct (flush_fold (map_to_list m) (file s t)) as [E1 E2].
  { apply NoDup_fst_map_to_list. }
  { apply Forall_forall. intros [pid e] Hin. apply elem_of_map_to_list in Hin.
    rewrite <- Hcm in Hin. by destruct (H5 t pid e Hin) as (_ & ? & ? & _). }
  rewrite list_to_map_to_list in E2. set (f' := fold_left flush_entry (map_to_list m) (file s t)) in *.
  set (s' := with_cache (with_files s (<[path_of t := f']> (files s))) (<[t := clean <$> m]> (cache_ s))).
  assert (forall t', file s' t' = if decide (t' = t) then f' else file s t') as Hf.
  { intros t'. unfold file at 1. simpl. case_decide as E; [by rewrite E, lookup_insert_eq|].
    rewrite lookup_insert_ne; [done|]. intros H. apply E. symmetry. by apply path_of_inj. }
  assert (forall t', count s' t' = count s t') as Hc.
  { intros t'. unfold count. rewrite Hf. case_decide as E; [subst t'; by rewrite E1|done]. }
  assert (forall t' pid, cached s' t' pid =
            if decide (t' = t) then clean <$> cached s t pid else cached s t' pid) as Hcc.
  { intros t' pid. unfold cached. simpl. case_decide as E.
    - subst t'. rewrite lookup_insert_eq, Em. simpl. apply lookup_fmap.
    - by rewrite lookup_insert_ne. }
  assert (forall pid, block pid f' = page_of s t pid) as Hb.
  { intros pid. rewrite E2. unfold page_of. rewrite Hcm. destruct (m !! pid) as [e|] eqn:Ee; [|done].
    rewrite <- Hcm in Ee. destruct (H5 t pid e Ee) as (_ & _ & _ & _ & Hd).
    destruct (dirty e); [done|by apply Hd]. }
  exists s'. split_and!; try done.
  - constructor; try done.
    + unfold totalCached. pose proof (total_update (cache_ s) t (clean <$> m)) as Ht.
      rewrite Em in Ht. simpl in Ht. rewrite map_size_fmap in Ht. unfold totalCached in H2.
      unfold s'. simpl. lia.
    + intros t'. rewrite Hf. case_decide; [by rewrite E1|done].
    + intros t' pid e He. rewrite Hcc in He. case_decide as E.
      * subst t'. apply fmap_Some in He as (e0 & He & ->).
        destruct (H5 t pid e0 He) as (G1 & G2 & G3 & G4 & _). split_and!; try done.
        -- by rewrite Hc.
        -- intros _. rewrite Hf, decide_True, Hb by done. unfold page_of. by rewrite He.
      * destruct (H5 t' pid e He) as (G1 & G2 & G3 & G4 & G5). split_and!; try done.
        -- by rewrite Hc.
        -- rewrite Hf, decide_False by done. done.
  - split; [done|]. intros t' pid Hlt. unfold page_of. rewrite Hcc, Hf. case_decide as E.
    + subst t'. rewrite Hb. unfold page_of. by destruct (cached s t pid).
    + done.
  - intros pid Hlt. by rewrite Hf, decide_True.
Qed.

(** ** The cache is transparent *)

Inductive op :=
| ORead (t : bytes) (pid : nat)
| OWrite (t : bytes) (pg : Page)
| OAlloc (t : bytes)
| OFlush (t : bytes).

Definition run (o : op) (s : State) : result (State * option Page) :=
  match o with
  | ORead t pid => '(s, pg) ← readPage t pid s; Ok (s, Some pg)
  | OWrite t pg => s ← writePage t pg s; Ok (s, None)
  | OAlloc t => '(s, pg) ← allocatePage t s; Ok (s, Some pg)
  | OFlush t => s ← flushDirtyPages t s; Ok (s, None)
  end.

(** The specification: tables are lists of pages. *)
Definition spec_pages (o : op) (st : bytes -> list Page) (t' : bytes) : list Page :=
  match o with
  | ORead _ _ | OFlush _ => st t'
  | OWrite t pg => if decide (t' = t) then <[Z.to_nat (Page.pageId pg) := pg]> (st t) else st t'
  | OAlloc t => if decide (t' = t) then st t ++ [Page.init (Z.of_nat (length (st t))) t] else st t'
  end.

Definition spec_result (o : op) (st : bytes -> list Page) : option Page :=
  match o with
  | ORead t pid => st t !! pid
  | OAlloc t => Some (Page.init (Z.of_nat (length (st t))) t)
  | OWrite _ _ | OFlush _ => None
  end.

Definition pre (o : op) s : Prop :=
  match o with
  | ORead t pid => pageFilePath t = Ok (path_of t) /\ pid < count s t
  | OWrite t pg => pageFilePath t = Ok (path_of t) /\ Z.to_nat (Page.pageId pg) < count s t /\
                   length pg = PS
  | OAlloc t => pageFilePath t = Ok (path_of t) /\ wf_bytes t
  | OFlush t => pageFilePath t = Ok (path_of t)
  end.

(** The pages of the file of [t]. *)
Definition on_disk s t : list Page := map (fun pid => block pid (file s t)) (seq 0 (count s t)).

(** The page cache is transparent: whatever is cached, dirty or evicted,
    reading, writing, allocating and flushing act on the list of pages of each
    table as plain operations on that list, and a flush leaves exactly these
    pages on disk.  The only failure is the read whose reference into the
    cache dangles. *)
Theorem page_cache_transparent o s :
  ok s -> pre o s -> (clock_ s + 1 < UINT64_MAX)%Z ->
  match run o s with
  | Ok (s', r) =>
      ok s' /\ (forall t, pages s' t = spec_pages o (pages s) t) /\
      r = spec_result o (pages s) /\
      match o with OFlush t => on_disk s' t = pages s' t | _ => True end
  | Throw e => exists t pid, o = ORead t pid /\ e = DANGLING /\ dangles s t pid
  end.
Proof.
  intros Hok Hpre Hclk. destruct o as [t pid|t pg|t|t]; cbn [run pre spec_pages spec_result] in *.
  - destruct Hpre as [Hp Hlt]. pose proof (readPage_spec s t pid Hok Hclk Hp Hlt) as H.
    destruct (readPage t pid s) as [[s' pg]|e]; cbn [mbind result_bind].
    + destruct H as (-> & Hok' & Hv & _). rewrite lookup_pages, decide_True by done.
      split_and!; [done| |done|exact I]. intros t'. by apply same_view_pages.
    + destruct H as [-> Hd]. by exists t, pid.
  - destruct Hpre as (Hp & Hlt & Hl).
    destruct (writePage_spec s t pg Hok Hclk Hp Hlt Hl) as (s' & -> & Hok' & _ & _ & H).
    cbn [mbind result_bind]. split_and!; [exact Hok'|exact H|reflexivity|exact I].
  - destruct Hpre as [Hp Hw].
    destruct (allocatePage_spec s t Hok Hclk Hp Hw) as (s' & -> & Hok' & _ & _ & H).
    cbn [mbind result_bind]. rewrite length_pages.
    split_and!; [exact Hok'|exact H|reflexivity|exact I].
  - destruct (flushDirtyPages_spec s t Hok Hpre) as (s' & -> & Hok' & _ & _ & Hv & Hd).
    cbn [mbind result_bind]. split_and!; [exact Hok'| |reflexivity|].
    + intros t'. by apply same_view_pages.
    + rewrite (same_view_pages s s' t Hv). unfold on_disk. rewrite (proj1 Hv). apply map_ext_in.
      intros pid Hin. apply in_seq in Hin. apply Hd. lia.
Qed.
