(* ===== verification/PagedTable.v ===== *)
(** * Paged tables ([src/storage/paged_table.hpp])

    A table whose rows live in the pages of one file, behind the page cache.
    It is shown to be an append-only log of the rows that fit a page. *)

From S2P Require Import Prelude Table Page PageManager.

(** ** Operations *)

Definition insertRow (name : bytes) (row : Row) (s : State) : result State :=
  pageCount ← getPageCount s name;
  if pageCount =? 0 then
    '(s, pg) ← allocatePage name s;
    let pg := Page.updateChecksum (default pg (Page.addRow row pg)) in
    s ← writePage name pg s;
    flushDirtyPages name s
  else
    '(s, last) ← readPage name (pageCount - 1) s;
    match Page.addRow row last with
    | Some last =>
        s ← writePage name (Page.updateChecksum last) s;
        flushDirtyPages name s
    | None =>
        '(s, newPg) ← allocatePage name s;
        let last := Page.updateChecksum (Page.setNextPageId (Page.pageId newPg) last) in
        s ← writePage name last s;
        let newPg := Page.updateChecksum (default newPg (Page.addRow row newPg)) in
        s ← writePage name newPg s;
        flushDirtyPages name s
    end.

Fixpoint scan_pages (name : bytes) (pid n : nat) (rows : list Row) (s : State)
  : result (State * list Row) :=
  match n with
  | O => Ok (s, rows)
  | S n' =>
      '(s, pg) ← readPage name pid s;
      scan_pages name (S pid) n'
        (if Page.verifyChecksum pg then rows ++ Page.getRows pg else rows) s
  end.

Definition scanAll (name : bytes) (s : State) : result (State * list Row) :=
  pageCount ← getPageCount s name;
  scan_pages name 0 pageCount [] s.

Fixpoint count_pages (name : bytes) (pid n : nat) (total : Z) (s : State) : result (State * Z) :=
  match n with
  | O => Ok (s, total)
  | S n' =>
      '(s, pg) ← readPage name pid s;
      count_pages name (S pid) n'
        (if Page.verifyChecksum pg then total + Page.rowCount pg else total)%Z s
  end.

Definition getRowCount (name : bytes) (s : State) : result (State * Z) :=
  pageCount ← getPageCount s name;
  count_pages name 0 pageCount 0 s.

(** ** One table behind the cache *)

Implicit Types (t name : bytes) (pid : nat) (pg : Page) (s : State) (row : Row) (rows rs : list Row).

(** Only pages of table [t] are cached. *)
Definition sole t s : Prop := forall t' pid, cached s t' pid <> None -> t' = t.

Lemma write_back_cache s t pid e s' : write_back t pid e s = Ok s' -> cache_ s' = cache_ s.
Proof.
  unfold write_back. destruct (dirty e); [|by intros [= ->]].
  destruct (pageFilePath t); [|done]. cbn [mbind result_bind]. intros [= <-]. by case_match.
Qed.

Lemma makeRoom_loop_sole fuel s s' t : makeRoom_loop fuel s = Ok s' -> sole t s -> sole t s'.
Proof.
  revert s. induction fuel as [|fuel IH]; intros s; cbn [makeRoom_loop].
  { destruct (_ <? _); [by intros [= ->]|done]. }
  destruct (_ <? _); [by intros [= ->]|]. unfold evictOne.
  destruct (lru s) as [[[t0 pid0] e0]|]; [|by apply IH].
  destruct (write_back t0 pid0 e0 s) as [s1|] eqn:E; [|done]. cbn [mbind result_bind].
  intros H Hs. eapply IH; [exact H|]. intros t' pid Hc. rewrite cached_erase in Hc.
  case_decide; [done|]. rewrite (cached_eq s s1) in Hc by (by eapply write_back_cache).
  by eapply Hs.
Qed.

Lemma put_entry_sole t pid pg d s : sole t s -> sole t (put_entry t pid pg d s).
Proof.
  intros Hs t' pid'. rewrite cached_put. case_decide as E; [by destruct E|]. apply Hs.
Qed.

Lemma sole_cache s s' t :
  (forall t' pid, cached s' t' pid = cached s t' pid) -> sole t s -> sole t s'.
Proof. intros H Hs t' pid. rewrite H. apply Hs. Qed.

Lemma writePage_sole t pg s s' : writePage t pg s = Ok s' -> sole t s -> sole t s'.
Proof.
  unfold writePage, makeRoom. destruct (makeRoom_loop _ s) as [s1|] eqn:E; [|done].
  cbn [mbind result_bind]. intros [= <-] Hs. apply put_entry_sole.
  by eapply makeRoom_loop_sole.
Qed.

Lemma allocatePage_sole t s s' pg : allocatePage t s = Ok (s', pg) -> sole t s -> sole t s'.
Proof.
  unfold allocatePage, makeRoom. destruct (getPageCount s t) as [n|]; [|done].
  cbn [mbind result_bind]. destruct (pageFilePath t) as [path|]; [|done]. cbn [mbind result_bind].
  set (s0 := with_files _ _). destruct (makeRoom_loop _ s0) as [s1|] eqn:E; [|done].
  cbn [mbind result_bind]. intros [= <- <-] Hs. apply put_entry_sole.
  by eapply makeRoom_loop_sole.
Qed.

Lemma readPage_sole t pid s s' pg : readPage t pid s = Ok (s', pg) -> sole t s -> sole t s'.
Proof.
  intros H Hs. unfold readPage, makeRoom in H.
  assert (sole t (with_cache s (<[t := default ∅ (cache_ s !! t)]> (cache_ s)))) as Hs0.
  { intros t' pid'. rewrite cached_insert. case_decide; [done|apply Hs]. }
  set (s0 := with_cache s _) in *. destruct (default ∅ (cache_ s !! t) !! pid) as [e|].
  - injection H as <- <-. apply put_entry_sole. exact Hs0.
  - destruct (pageFilePath t) as [path|]; [|done]. cbn [mbind result_bind] in H.
    destruct (makeRoom_loop _ (miss s0)) as [s1|] eqn:E; [|done]. cbn [mbind result_bind] in H.
    destruct (cache_ s1 !! t); [|done]. injection H as <- <-.
    apply put_entry_sole. by eapply makeRoom_loop_sole.
Qed.

Lemma flush_sole t s s' : flushDirtyPages t s = Ok s' -> sole t s -> sole t s'.
Proof.
  unfold flushDirtyPages. destruct (cache_ s !! t) as [m|]; [|by intros [= ->]].
  destruct (pageFilePath t) as [path|]; [|done]. cbn [mbind result_bind]. intros [= <-] Hs t' pid.
  unfold cached. simpl. destruct (decide (t' = t)) as [->|]; [done|].
  rewrite lookup_insert_ne by done. apply Hs.
Qed.

(** With room for two pages a table on its own never loses its cache entry. *)
Lemma sole_no_dangling t s pid : sole t s -> 2 <= maxPages_ s -> ~ dangles s t pid.
Proof.
  intros Hs H2 (Hn & Hfull & pid0 & e & Hlru & Hm).
  assert (cached s t pid0 = Some e) as Hc by (by rewrite <- cached_default, Hm, lookup_singleton_eq).
  pose proof (total_erase t pid0 s e Hc) as Ht.
  destruct (entries (erase_entry t pid0 s)) as [|[[t1 p1] e1] l] eqn:E.
  { rewrite (total_entries (erase_entry _ _ _)), E in Ht. simpl in Ht. lia. }
  assert (cached (erase_entry t pid0 s) t1 p1 = Some e1) as Hc1 by (apply elem_entries; rewrite E; left).
  rewrite cached_erase in Hc1. case_decide as Hd; [done|].
  assert (t1 = t) as -> by (apply (Hs t1 p1); by rewrite Hc1).
  rewrite <- cached_default, Hm in Hc1. apply lookup_singleton_Some in Hc1 as [<- _]. by apply Hd.
Qed.

(** ** The log of rows *)

Definition fits row : bool := bool_decide (Page.row_size row <= Page.DATA_SIZE)%Z.

(** The pages hold consecutive chunks of the rows, under their own numbers. *)
Definition chunked (pgs : list Page) (chunks : list (list Row)) : Prop :=
  Forall2 Page.holds pgs chunks /\
  forall i pg, pgs !! i = Some pg -> Page.pageId pg = Z.of_nat i.

Record represents name rows s : Prop := {
  rep_ok : ok s;
  rep_sole : sole name s;
  rep_room : 2 <= maxPages_ s;
  rep_name : pageFilePath name = Ok (path_of name) /\ wf_bytes name;
  rep_rows : exists chunks, rows = mjoin chunks /\ chunked (pages s name) chunks }.

Lemma add_default pg row :
  Page.holds pg [] -> Page.wf_row row -> (Page.row_size row < 2 ^ 32)%Z ->
  let pg' := Page.updateChecksum (default pg (Page.addRow row pg)) in
  Page.holds pg' (if fits row then [row] else []) /\ Page.pageId pg' = Page.pageId pg.
Proof.
  intros Hh Hw Hs. pose proof (Page.addRow_holds pg [] row Hh Hw Hs) as H. unfold fits.
  destruct (Page.addRow row pg) as [pg1|]; cbn [default from_option id]; simpl in H.
  - destruct H as (Hf & Hh1 & Hid & _). rewrite bool_decide_true by lia.
    destruct (Page.holds_updateChecksum _ _ Hh1) as [H1 H2]. split; [done|]. by rewrite H2.
  - rewrite bool_decide_false by lia. by apply Page.holds_updateChecksum.
Qed.

Lemma chunked_snoc pgs chunks pg rs :
  chunked pgs chunks -> Page.holds pg rs -> Page.pageId pg = Z.of_nat (length pgs) ->
  chunked (pgs ++ [pg]) (chunks ++ [rs]).
Proof.
  intros [H1 H2] Hh Hid. split; [apply Forall2_app; [done|by constructor]|].
  intros i pg' Hi. apply lookup_snoc_Some in Hi as [[_ Hi]|[-> <-]]; [by apply H2|done].
Qed.

Lemma chunked_snoc_inv pgs pg chunks :
  chunked (pgs ++ [pg]) chunks ->
  exists cs rs, chunks = cs ++ [rs] /\ chunked pgs cs /\ Page.holds pg rs /\
    Page.pageId pg = Z.of_nat (length pgs).
Proof.
  intros [H1 H2]. apply Forall2_app_inv_l in H1 as (cs & l & Hcs & Hl & ->).
  inversion Hl as [|? rs ? l' Hh Hl' ]; subst. inversion Hl'; subst.
  exists cs, rs. split_and!; [done| |done|].
  - split; [done|]. intros i pg' Hi. apply H2. by apply lookup_app_l_Some.
  - apply H2. rewrite lookup_app_r, Nat.sub_diag by done. done.
Qed.

Lemma holds_length pg rs : Page.holds pg rs -> length pg = PS.
Proof. intros H. by eapply wf_page_length, Page.h_wf. Qed.

Lemma init_chunk name n :
  (Z.of_nat n < 2 ^ 64)%Z -> wf_bytes name ->
  Page.holds (Page.init (Z.of_nat n) name) [] /\
  Page.pageId (Page.init (Z.of_nat n) name) = Z.of_nat n.
Proof. intros Hn Hw. destruct (Page.init_holds (Z.of_nat n) name) as (H1 & H2 & _); [lia|done|done]. Qed.

Lemma getPageCount_spec s t : pageFilePath t = Ok (path_of t) -> getPageCount s t = Ok (count s t).
Proof.
  intros Hp. unfold getPageCount. rewrite Hp. cbn [mbind result_bind]. unfold count, file.
  destruct (files s !! path_of t); [done|]. simpl. by rewrite Nat.Div0.div_0_l.
Qed.

(** A page that ends [insertRow]: it is stored as page number [i] and flushed. *)
Lemma store_page name s pgs pg pg' cs rs :
  ok s -> sole name s -> 2 <= maxPages_ s -> pageFilePath name = Ok (path_of name) ->
  (clock_ s + 1 < UINT64_MAX)%Z ->
  pages s name = pgs ++ pg :: cs -> Page.holds pg' rs -> Page.pageId pg' = Z.of_nat (length pgs) ->
  exists s', writePage name pg' s = Ok s' /\ ok s' /\ sole name s' /\ 2 <= maxPages_ s' /\
    clock_ s' = (clock_ s + 1)%Z /\ pages s' name = pgs ++ pg' :: cs.
Proof.
  intros Hok Hs H2 Hp Hclk Hpg Hh Hid.
  destruct (writePage_spec s name pg') as (s' & E & G1 & G2 & G3 & G4); try done.
  - rewrite Hid, Nat2Z.id, <- length_pages, Hpg, length_app. cbn [length]. lia.
  - by eapply holds_length.
  - exists s'. split_and!; try done; [by eapply writePage_sole|lia|].
    rewrite G4, decide_True, Hpg, Hid, Nat2Z.id by done.
    rewrite insert_app_r_alt, Nat.sub_diag by done. done.
Qed.

Lemma flush_pages name s :
  ok s -> sole name s -> pageFilePath name = Ok (path_of name) ->
  exists s', flushDirtyPages name s = Ok s' /\ ok s' /\ sole name s' /\
    clock_ s' = clock_ s /\ maxPages_ s' = maxPages_ s /\ pages s' name = pages s name.
Proof.
  intros Hok Hs Hp. destruct (flushDirtyPages_spec s name Hok Hp) as (s' & E & G1 & G2 & G3 & G4 & _).
  exists s'. split_and!; try done; [by eapply flush_sole|by apply same_view_pages].
Qed.

Lemma alloc_page name s :
  ok s -> sole name s -> pageFilePath name = Ok (path_of name) -> wf_bytes name ->
  (clock_ s + 1 < UINT64_MAX)%Z ->
  exists s', allocatePage name s = Ok (s', Page.init (Z.of_nat (count s name)) name) /\
    ok s' /\ sole name s' /\ maxPages_ s' = maxPages_ s /\ clock_ s' = (clock_ s + 1)%Z /\
    pages s' name = pages s name ++ [Page.init (Z.of_nat (count s name)) name].
Proof.
  intros Hok Hs Hp Hw Hclk.
  destruct (allocatePage_spec s name Hok Hclk Hp Hw) as (s' & E & G1 & G2 & G3 & G4).
  exists s'. split_and!; try done; [by eapply allocatePage_sole|]. by rewrite G4, decide_True.
Qed.

Lemma read_page name s pid pg :
  ok s -> sole name s -> 2 <= maxPages_ s -> pageFilePath name = Ok (path_of name) ->
  (clock_ s + 1 < UINT64_MAX)%Z -> pages s name !! pid = Some pg ->
  exists s', readPage name pid s = Ok (s', pg) /\ ok s' /\ sole name s' /\
    maxPages_ s' = maxPages_ s /\ clock_ s' = (clock_ s + 1)%Z /\ pages s' name = pages s name.
Proof.
  intros Hok Hs H2 Hp Hclk Hpg.
  assert (pid < count s name) as Hlt by (rewrite <- length_pages; by eapply lookup_lt_Some).
  rewrite lookup_pages, decide_True in Hpg by done. injection Hpg as Hpg.
  pose proof (readPage_spec s name pid Hok Hclk Hp Hlt) as H.
  destruct (readPage name pid s) as [[s' pg']|e] eqn:E.
  - destruct H as (-> & G1 & G2 & G3 & G4). exists s'. subst pg.
    split_and!; try done; [by eapply readPage_sole|by apply same_view_pages].
  - destruct H as [_ H]. by apply sole_no_dangling in H.
Qed.

Lemma list_snoc_cases {A} (l : list A) : l = [] \/ exists l' x, l = l' ++ [x].
Proof. induction l as [|x l _] using rev_ind; eauto. Qed.

(** The stages of [insertRow] keep these facts about a state. *)
Record live name s (clk : Z) (pgs : list Page) : Prop := {
  live_ok : ok s; live_sole : sole name s; live_room : 2 <= maxPages_ s;
  live_clock : (clock_ s <= clk)%Z; live_pages : pages s name = pgs }.

Section stages.
Context (name : bytes) (clk : Z).
Hypothesis Hp : pageFilePath name = Ok (path_of name).
Hypothesis Hw : wf_bytes name.
Hypothesis Hclk : (clk + 1 < UINT64_MAX)%Z.

Lemma live_store s pgs pg pg' cs rs :
  live name s clk (pgs ++ pg :: cs) -> Page.holds pg' rs -> Page.pageId pg' = Z.of_nat (length pgs) ->
  exists s', writePage name pg' s = Ok s' /\ live name s' (clk + 1) (pgs ++ pg' :: cs).
Proof.
  intros [H1 H2 H3 H4 H5] Hh Hid.
  destruct (store_page name s pgs pg pg' cs rs) as (s' & E & B1 & B2 & B3 & B4 & B5); try done; [lia|].
  exists s'. split; [done|]. constructor; done || lia.
Qed.

Lemma live_flush s pgs :
  live name s clk pgs ->
  exists s', flushDirtyPages name s = Ok s' /\ live name s' clk pgs.
Proof.
  intros [H1 H2 H3 H4 H5]. destruct (flush_pages name s) as (s' & E & B1 & B2 & B3 & B4 & B5); try done.
  exists s'. split; [done|]. constructor; [done|done|lia|lia|congruence].
Qed.

Lemma live_alloc s pgs :
  live name s clk pgs ->
  let pg := Page.init (Z.of_nat (length pgs)) name in
  exists s', allocatePage name s = Ok (s', pg) /\ live name s' (clk + 1) (pgs ++ [pg]).
Proof.
  intros [H1 H2 H3 H4 H5]. destruct (alloc_page name s) as (s' & E & B1 & B2 & B3 & B4 & B5); try done; [lia|].
  rewrite <- length_pages, H5 in *. exists s'. split; [done|]. constructor; done || lia.
Qed.

Lemma live_read s pgs pid pg :
  live name s clk pgs -> pgs !! pid = Some pg ->
  exists s', readPage name pid s = Ok (s', pg) /\ live name s' (clk + 1) pgs.
Proof.
  intros [H1 H2 H3 H4 H5] Hpg. rewrite <- H5 in Hpg.
  destruct (read_page name s pid pg) as (s' & E & B1 & B2 & B3 & B4 & B5); try done; [lia|].
  exists s'. split; [done|]. constructor; [done|done|lia|lia|congruence].
Qed.
End stages.

Lemma live_represents name s clk pgs chunks rows :
  pageFilePath name = Ok (path_of name) -> wf_bytes name ->
  live name s clk pgs -> chunked pgs chunks -> rows = mjoin chunks ->
  represents name rows s.
Proof.
  intros Hp Hw [H1 H2 H3 H4 H5] Hc ->. constructor; try done. exists chunks. by rewrite H5.
Qed.

Lemma mjoin_last {A} (cs : list (list A)) c : mjoin (cs ++ [c]) = mjoin cs ++ c.
Proof. apply mjoin_snoc. Qed.

Lemma insert_first name s clk row :
  pageFilePath name = Ok (path_of name) -> wf_bytes name -> Page.wf_row row ->
  (Page.row_size row < 2 ^ 32)%Z -> (clk + 4 < UINT64_MAX)%Z -> live name s clk [] ->
  exists s' pg, insertRow name row s = Ok s' /\ live name s' (clk + 1 + 1) [pg] /\
    chunked [pg] [if fits row then [row] else []].
Proof.
  intros Hp Hw Hrow Hsz Hclk Hl. unfold insertRow. rewrite getPageCount_spec by done.
  rewrite <- length_pages, (live_pages _ _ _ _ Hl). cbn [mbind result_bind length Nat.eqb].
  destruct (init_chunk name 0) as [Hi1 Hi2]; [lia|done|].
  destruct (add_default _ row Hi1 Hrow Hsz) as [Ha1 Ha2]. rewrite Hi2 in Ha2.
  destruct (live_alloc name clk Hp Hw ltac:(lia) s [] Hl) as (s1 & E1 & L1). cbn [length] in E1, L1.
  rewrite E1. cbn [mbind result_bind]. set (pg1 := Page.updateChecksum (default _ _)) in *.
  destruct (live_store name (clk + 1) Hp ltac:(lia) s1 [] _ pg1 [] _ L1 Ha1 Ha2) as (s2 & E2 & L2).
  rewrite E2. cbn [mbind result_bind].
  destruct (live_flush name _ Hp s2 _ L2) as (s3 & E3 & L3).
  exists s3, pg1. split_and!; [done|done|]. by apply (chunked_snoc [] []).
Qed.

Lemma insert_more name s clk row pgs last cs rs :
  pageFilePath name = Ok (path_of name) -> wf_bytes name -> Page.wf_row row ->
  (Page.row_size row < 2 ^ 32)%Z -> (clk + 4 < UINT64_MAX)%Z ->
  (Z.of_nat (S (length pgs)) < 2 ^ 64)%Z ->
  live name s clk (pgs ++ [last]) -> chunked pgs cs -> Page.holds last rs ->
  Page.pageId last = Z.of_nat (length pgs) ->
  exists s' pgs' chunks, insertRow name row s = Ok s' /\ live name s' (clk + 4) pgs' /\
    chunked pgs' chunks /\ length pgs' <= S (S (length pgs)) /\
    mjoin chunks = mjoin (cs ++ [rs]) ++ if fits row then [row] else [].
Proof.
  intros Hp Hw Hrow Hsz Hclk Hcnt Hl Hc Hh Hid. unfold insertRow. rewrite getPageCount_spec by done.
  rewrite <- length_pages, (live_pages _ _ _ _ Hl). cbn [mbind result_bind].
  rewrite length_app. cbn [length]. rewrite Nat.add_1_r. cbn [Nat.eqb]. rewrite Nat.sub_succ, Nat.sub_0_r.
  destruct (live_read name clk Hp ltac:(lia) s _ (length pgs) last Hl) as (s1 & -> & L1);
    [by rewrite lookup_app_r, Nat.sub_diag|]. cbn [mbind result_bind].
  pose proof (Page.addRow_holds last rs row Hh Hrow Hsz) as Ha.
  destruct (Page.addRow row last) as [last1|].
  - destruct Ha as (Hfit & Hh1 & Hid1 & _). destruct (Page.holds_updateChecksum _ _ Hh1) as [Hu1 Hu2].
    rewrite Hid1, Hid in Hu2.
    destruct (live_store name (clk + 1) Hp ltac:(lia) s1 pgs last _ [] _ L1 Hu1 Hu2) as (s2 & -> & L2).
    cbn [mbind result_bind]. destruct (live_flush name _ Hp s2 _ L2) as (s3 & -> & L3).
    exists s3, (pgs ++ [Page.updateChecksum last1]), (cs ++ [rs ++ [row]]). split_and!; [done| | |rewrite length_app; simpl; lia|].
    + destruct L3. constructor; done || lia.
    + by apply chunked_snoc.
    + unfold fits. rewrite bool_decide_true by lia. by rewrite !mjoin_last, (assoc_L (++)).
  - destruct (live_alloc name (clk + 1) Hp Hw ltac:(lia) s1 _ L1) as (s2 & -> & L2).
    cbn [mbind result_bind]. rewrite length_app in *. cbn [length] in *. rewrite Nat.add_1_r in *.
    destruct (init_chunk name (S (length pgs))) as [Hi1 Hi2]; [done|done|].
    rewrite Hi2. rewrite <- app_assoc in L2. cbn [app] in L2.
    destruct (Page.holds_setNextPageId last rs (Z.of_nat (S (length pgs))) Hh) as [Hn1 Hn2].
    rewrite Hid in Hn2. set (last2 := Page.updateChecksum (Page.setNextPageId _ _)) in *.
    destruct (live_store name (clk + 1 + 1) Hp ltac:(lia) s2 pgs last last2 _ _ L2 Hn1 Hn2) as (s3 & -> & L3).
    cbn [mbind result_bind]. destruct (add_default _ row Hi1 Hrow Hsz) as [Hd1 Hd2].
    set (pg2 := Page.updateChecksum (default _ _)) in *. rewrite Hi2 in Hd2.
    assert (Page.pageId pg2 = Z.of_nat (length (pgs ++ [last2]))) as Hd3
      by (rewrite length_app; simpl; by rewrite Nat.add_1_r).
    assert (live name s3 (clk + 1 + 1 + 1)
      ((pgs ++ [last2]) ++ [Page.init (Z.of_nat (S (length pgs))) name])) as L3'
      by (by rewrite <- app_assoc).
    destruct (live_store name (clk + 1 + 1 + 1) Hp ltac:(lia) s3 _ _ pg2 [] _ L3' Hd1 Hd3) as (s4 & -> & L4).
    cbn [mbind result_bind]. destruct (live_flush name _ Hp s4 _ L4) as (s5 & -> & L5).
    exists s5, ((pgs ++ [last2]) ++ [pg2]), ((cs ++ [rs]) ++ [if fits row then [row] else []]).
    split_and!; [done| | |rewrite !length_app; simpl; lia|by rewrite !mjoin_last].
    + destruct L5. constructor; done || lia.
    + apply chunked_snoc; [by apply chunked_snoc|done|done].
Qed.

(** [insertRow] appends the row if it fits a page, and otherwise loses it. *)
Lemma insertRow_appends name rows s row :
  represents name rows s -> Page.wf_row row -> (Page.row_size row < 2 ^ 32)%Z ->
  (clock_ s + 4 < UINT64_MAX)%Z -> (Z.of_nat (count s name) < 2 ^ 64)%Z ->
  exists s', insertRow name row s = Ok s' /\
    represents name (rows ++ if fits row then [row] else []) s' /\
    (clock_ s' <= clock_ s + 4)%Z /\ count s' name <= S (count s name).
Proof.
  intros [Hok Hsole H2 [Hp Hw] (chunks & -> & Hch)] Hrow Hsz Hclk Hcnt.
  assert (live name s (clock_ s) (pages s name)) as Hl by (constructor; done || lia).
  rewrite <- length_pages in Hcnt |- *.
  destruct (list_snoc_cases (pages s name)) as [En|(pgs & last & En)]; rewrite En in *.
  - destruct (insert_first name s _ row Hp Hw Hrow Hsz Hclk Hl) as (s' & pg & E & L & Hc).
    exists s'. rewrite <- length_pages, (live_pages _ _ _ _ L). destruct Hch as [Hch _].
    inversion Hch; subst. split_and!; [done| |destruct L; lia|done].
    eapply live_represents; [done|done|exact L|exact Hc|]. by rewrite mjoin_cons, app_nil_r.
  - apply chunked_snoc_inv in Hch as (cs & rs & -> & Hc & Hh & Hid).
    rewrite length_app in Hcnt |- *. cbn [length] in *.
    destruct (insert_more name s _ row pgs last cs rs Hp Hw Hrow Hsz Hclk) as
      (s' & pgs' & chunks & E & L & Hc' & Hlen & Hj); try done; [lia|].
    exists s'. rewrite <- length_pages, (live_pages _ _ _ _ L).
    split_and!; [done| |destruct L; lia|lia].
    eapply live_represents; [done|done|exact L|exact Hc'|done].
Qed.

(** ** Reading the table back *)

Definition erased (r : Row) : Row := row_of (values r).

Lemma scan_pages_spec name pgs1 pgs2 cs2 acc s clk :
  pageFilePath name = Ok (path_of name) -> Forall2 Page.holds pgs2 cs2 ->
  (clk + Z.of_nat (length pgs2) + 1 < UINT64_MAX)%Z -> live name s clk (pgs1 ++ pgs2) ->
  exists s', scan_pages name (length pgs1) (length pgs2) acc s
    = Ok (s', acc ++ map erased (mjoin cs2)).
Proof.
  intros Hp Hc. revert pgs1 acc s clk.
  induction Hc as [|pg rs pgs cs Hh Hc IH]; intros pgs1 acc s clk Hclk Hl; cbn [length scan_pages].
  { exists s. by rewrite app_nil_r. }
  cbn [length] in Hclk.
  destruct (live_read name clk Hp ltac:(lia) s _ (length pgs1) pg Hl) as (s1 & -> & L1);
    [by rewrite lookup_app_r, Nat.sub_diag|]. cbn [mbind result_bind].
  rewrite (Page.h_sum _ _ Hh), (Page.getRows_holds _ _ Hh).
  destruct (IH (pgs1 ++ [pg]) (acc ++ map erased rs) s1 (clk + 1)%Z) as (s' & E).
  - lia.
  - by rewrite <- app_assoc.
  - rewrite length_app, Nat.add_1_r in E. exists s'. rewrite mjoin_cons, map_app, (assoc_L (++)).
    exact E.
Qed.

Lemma count_pages_spec name pgs1 pgs2 cs2 acc s clk :
  pageFilePath name = Ok (path_of name) -> Forall2 Page.holds pgs2 cs2 ->
  (clk + Z.of_nat (length pgs2) + 1 < UINT64_MAX)%Z -> live name s clk (pgs1 ++ pgs2) ->
  exists s', count_pages name (length pgs1) (length pgs2) acc s
    = Ok (s', acc + Z.of_nat (length (mjoin cs2)))%Z.
Proof.
  intros Hp Hc. revert pgs1 acc s clk.
  induction Hc as [|pg rs pgs cs Hh Hc IH]; intros pgs1 acc s clk Hclk Hl; cbn [length count_pages].
  { exists s. by rewrite Z.add_0_r. }
  cbn [length] in Hclk.
  destruct (live_read name clk Hp ltac:(lia) s _ (length pgs1) pg Hl) as (s1 & -> & L1);
    [by rewrite lookup_app_r, Nat.sub_diag|]. cbn [mbind result_bind].
  rewrite (Page.h_sum _ _ Hh), (Page.h_count _ _ Hh).
  destruct (IH (pgs1 ++ [pg]) (acc + Z.of_nat (length rs))%Z s1 (clk + 1)%Z) as (s' & E).
  - lia.
  - by rewrite <- app_assoc.
  - rewrite length_app, Nat.add_1_r in E. exists s'. rewrite mjoin_cons, length_app, Nat2Z.inj_add.
    by rewrite Z.add_assoc.
Qed.

Lemma represents_scan name rows s :
  represents name rows s -> (clock_ s + Z.of_nat (count s name) + 1 < UINT64_MAX)%Z ->
  (exists s', scanAll name s = Ok (s', map erased rows)) /\
  (exists s', getRowCount name s = Ok (s', Z.of_nat (length rows))).
Proof.
  intros [Hok Hsole H2 [Hp Hw] (cs & -> & Hc & Hid)] Hclk.
  assert (live name s (clock_ s) ([] ++ pages s name)) as Hl by (constructor; done || lia).
  unfold scanAll, getRowCount. rewrite getPageCount_spec by done. cbn [mbind result_bind].
  rewrite <- length_pages in Hclk |- *. split.
  - by apply (scan_pages_spec name [] _ cs [] s (clock_ s)).
  - by apply (count_pages_spec name [] _ cs 0 s (clock_ s)).
Qed.

(** A sequence of inserts, as the engine issues them. *)
Definition insert_rows name rows s : result State :=
  fold_left (fun (cur : result State) r => s ← cur; insertRow name r s) rows (Ok s).

Lemma insert_rows_spec name stored rows s :
  represents name stored s -> Forall Page.wf_row rows ->
  Forall (fun r => Page.row_size r < 2 ^ 32)%Z rows ->
  (clock_ s + 4 * Z.of_nat (length rows) < UINT64_MAX)%Z ->
  (Z.of_nat (count s name + length rows) < 2 ^ 64)%Z ->
  exists s', insert_rows name rows s = Ok s' /\
    represents name (stored ++ List.filter fits rows) s' /\
    (clock_ s' <= clock_ s + 4 * Z.of_nat (length rows))%Z /\
    count s' name <= count s name + length rows.
Proof.
  intros Hr Hw. revert s stored Hr. induction Hw as [|r rows Hrow Hw IH]; intros s stored Hr Hs Hclk Hcnt.
  { exists s. simpl. rewrite app_nil_r. split_and!; done || lia. }
  apply Forall_cons in Hs as [Hr32 Hs]. cbn [length] in *.
  destruct (insertRow_appends name stored s r Hr Hrow Hr32) as (s1 & E & R1 & C1 & N1); [lia|lia|].
  destruct (IH s1 _ R1 Hs) as (s2 & E2 & R2 & C2 & N2); [lia|lia|].
  exists s2. unfold insert_rows. cbn [fold_left mbind result_bind]. rewrite E.
  split_and!; [exact E2| |lia|lia]. cbn [List.filter]. rewrite <- app_assoc in R2.
  by destruct (fits r).
Qed.

Lemma initial_represents name maxPages :
  2 <= maxPages -> pageFilePath name = Ok (path_of name) -> wf_bytes name ->
  represents name [] (initial maxPages ∅) /\ count (initial maxPages ∅) name = 0.
Proof.
  intros H2 Hp Hw. assert (forall t, file (initial maxPages ∅) t = []) as Hf by done.
  assert (count (initial maxPages ∅) name = 0) as Hc
    by (unfold count; by rewrite Hf, Nat.Div0.div_0_l).
  split; [|done]. constructor; try done.
  - constructor; simpl; [lia| |done| |].
    + unfold totalCached, total_of. simpl. rewrite map_fold_empty. lia.
    + intros t. rewrite Hf. apply Nat.Div0.mod_0_l.
    + by intros t pid e.
  - intros t pid H. by destruct H.
  - exists []. split; [done|]. unfold pages. rewrite Hc. split; [constructor|]. by intros [].
Qed.

(** A paged table is an append-only log: from an empty directory, any
    sequence of inserts succeeds, whatever the capacity of the page cache (two
    pages or more), and then [scanAll] returns exactly the inserted rows that
    fit a page, in order, and [getRowCount] their number. *)
Theorem paged_table_refines_log name maxPages rows :
  2 <= maxPages -> pageFilePath name = Ok (path_of name) -> wf_bytes name ->
  Forall Page.wf_row rows -> Forall (fun r => Page.row_size r < 2 ^ 32)%Z rows ->
  (5 * Z.of_nat (length rows) + 1 < UINT64_MAX)%Z ->
  exists s, insert_rows name rows (initial maxPages ∅) = Ok s /\
    (exists s', scanAll name s = Ok (s', map (fun r => row_of (values r)) (List.filter fits rows))) /\
    (exists s', getRowCount name s = Ok (s', Z.of_nat (length (List.filter fits rows)))).
Proof.
  intros H2 Hp Hw Hrows Hs Hn. destruct (initial_represents name maxPages H2 Hp Hw) as [Hr Hc].
  destruct (insert_rows_spec name [] rows _ Hr Hrows Hs) as (s & E & R & C & N).
  - simpl. unfold UINT64_MAX in *. lia.
  - rewrite Hc. unfold UINT64_MAX in *. lia.
  - exists s. split; [done|]. apply (represents_scan name (List.filter fits rows) s R).
    rewrite Hc in N. simpl in C. lia.
Qed.

(** ** Witnesses *)

Definition ex_rows : list Row :=
  [row_of [str "1"; str "Ada"]; row_of [replicate (Z.to_nat 8130) 65%Z]; row_of [str "2"]].

Lemma page_cache_transparent_witness :
  let s := initial 2 ∅ in
  pre (OAlloc (str "t")) s /\
  match run (OAlloc (str "t")) s with
  | Ok (s', r) => pages s' (str "t") = [Page.init 0 (str "t")]
  | Throw _ => False
  end.
Proof.
  intros s. assert (pre (OAlloc (str "t")) s) as Hpre by (split; [by vm_compute|by_decide]).
  split; [exact Hpre|].
  destruct (initial_represents (str "t") 2) as [[Hok _ _ _ _] Hc]; [lia|by vm_compute|by_decide|].
  pose proof (page_cache_transparent (OAlloc (str "t")) s Hok Hpre ltac:(by vm_compute)) as H.
  destruct (run (OAlloc (str "t")) s) as [[s' r]|e].
  - destruct H as (_ & H & _). etransitivity; [exact (H (str "t"))|].
    cbn [spec_pages]. rewrite decide_True by reflexivity. rewrite length_pages.
    unfold s. rewrite Hc. unfold pages. rewrite Hc. reflexivity.
  - destruct H as (t & pid & H & _). discriminate H.
Defined.

Lemma paged_table_refines_log_witness :
  exists s, insert_rows (str "t") ex_rows (initial 2 ∅) = Ok s /\
    (exists s', scanAll (str "t") s = Ok (s', [row_of [str "1"; str "Ada"]; row_of [str "2"]])) /\
    (exists s', getRowCount (str "t") s = Ok (s', 2%Z)).
Proof.
  apply (paged_table_refines_log (str "t") 2 ex_rows); [lia|by vm_compute|by_decide..|by vm_compute].
Defined.

(** A read that uses a dangling reference: two cache slots, two pages of [a] and
    one of [b]; reading page 0 of [a] evicts the only cached page of [a]. *)
Definition ex_alloc (t : string) (cur : result State) : result State :=
  s ← cur; '(s, _) ← allocatePage (str t) s; Ok s.

Lemma readPage_dangles :
  match (s ← ex_alloc "b" (ex_alloc "a" (ex_alloc "a" (Ok (initial 2 ∅)))); readPage (str "a") 0 s) with
  | Ok _ => False
  | Throw e => e = DANGLING
  end.
Proof. by vm_compute. Qed.

(** A row that fits no page is lost without an error. *)
Lemma big_row_lost name s rows row :
  represents name rows s -> Page.wf_row row -> (Page.DATA_SIZE < Page.row_size row < 2 ^ 32)%Z ->
  (clock_ s + 4 < UINT64_MAX)%Z -> (Z.of_nat (count s name) < 2 ^ 64)%Z ->
  exists s', insertRow name row s = Ok s' /\ represents name rows s'.
Proof.
  intros Hr Hw [Hb Hs] Hclk Hc.
  destruct (insertRow_appends name rows s row Hr Hw Hs Hclk Hc) as (s' & E & R & _).
  exists s'. split; [done|]. unfold fits in R. rewrite bool_decide_false in R by lia.
  by rewrite app_nil_r in R.
Qed.
