(* ===== verification/DoubleWrite.v ===== *)
(** * Double-write buffer ([src/wal/double_write_buffer.hpp])

    A page is first written to the buffer file, then to its destination, then
    the buffer file is removed.  [writePage] is modelled as the sequence of the
    byte writes it issues.  There are two ways to stop in the middle.  When the
    process stops, the operating system keeps what it was given: a prefix of the
    sequence ([after_kill]).  When the machine loses power, what was not synced may
    be missing, and [writePage] syncs nothing, though the comment above the class
    promises it: any part of the sequence may be lost ([after_power_failure]).
    After the first [recover] leaves the destination with the old or the new page;
    after the second the page may be torn. *)

From S2P Require Import Prelude Crc32.

Abbreviation Files := (gmap bytes bytes).

Definition PAGE_SIZE : Z := 8192.
Definition MAX_DEST_PATH : nat := 256.
Definition DWB_MAGIC : bytes := str "MSDWB001".

(** ** Records on disk *)

(** The 12 bytes the header checksum covers: magic and entry count. *)
Definition hdrBytes (magic : bytes) (entryCount : Z) : bytes := magic ++ le_bytes 4 entryCount.

(** [DwbHeader]: magic[8], entryCount, headerCrc *)
Definition enc_header (entryCount : Z) : bytes :=
  hdrBytes DWB_MAGIC entryCount ++ le_bytes 4 (crc32 (hdrBytes DWB_MAGIC entryCount)).

Record DwbEntryMeta := mkMeta {
  pageId : Z; dataLen : Z; m_crc32 : Z; destPath : bytes; destOffset : Z }.

Definition c_str (s : bytes) : bytes := take_while (fun c => negb (c =? 0)%Z) s.

(** [memset] and [strncpy(.., MAX_DEST_PATH - 1)] *)
Definition path_field (s : bytes) : bytes :=
  let p := take (MAX_DEST_PATH - 1) (c_str s) in p ++ replicate (MAX_DEST_PATH - length p) 0%Z.

Definition enc_meta (m : DwbEntryMeta) : bytes :=
  le_bytes 8 (pageId m) ++ le_bytes 4 (dataLen m) ++ le_bytes 4 (m_crc32 m) ++
  path_field (destPath m) ++ le_bytes 8 (destOffset m).

(** ** Disk operations *)

Inductive step :=
| STruncate (path : bytes)                      (* open an [ofstream], [trunc] *)
| SWrite (path : bytes) (off : nat) (b : byte)  (* one byte *)
| SRemove (path : bytes).

Definition do_step (fs : Files) (st : step) : Files :=
  match st with
  | STruncate p => <[p := []]> fs
  | SWrite p off b => <[p := file_write off [b] (default [] (fs !! p))]> fs
  | SRemove p => delete p fs
  end.

Definition do_steps (fs : Files) (l : list step) : Files := fold_left do_step l fs.

(** [f.write(bs)] at the current position [off] *)
Fixpoint write_steps (p : bytes) (off : nat) (bs : bytes) : list step :=
  match bs with
  | [] => []
  | b :: bs' => SWrite p off b :: write_steps p (S off) bs'
  end.

Definition meta_of (pid : Z) (data dest : bytes) (off : Z) : DwbEntryMeta :=
  mkMeta pid (u32 (Z.of_nat (length data))) (crc32 data) dest off.

Definition record_of (pid : Z) (data dest : bytes) (off : Z) : bytes :=
  enc_header 1 ++ enc_meta (meta_of pid data dest off) ++ data.

(** [writePage], when every file can be opened and written. *)
Definition writePage_steps (buffer : bytes) (pid : Z) (data dest : bytes) (off : Z) (fs : Files)
  : list step :=
  (STruncate buffer :: write_steps buffer 0 (record_of pid data dest off)) ++
  ((if bool_decide (fs !! dest = None) then [STruncate dest] else []) ++
   write_steps dest (Z.to_nat off) data) ++
  [SRemove buffer].

Definition writePage (buffer : bytes) (pid : Z) (data dest : bytes) (off : Z) (fs : Files) : Files :=
  do_steps fs (writePage_steps buffer pid data dest off fs).

(** ** Stopping in the middle *)

(** The process is stopped: the steps issued so far are done, in their order. *)
Definition after_kill (fs : Files) (l : list step) (d : Files) : Prop :=
  exists n, d = do_steps fs (take n l).

(** The machine loses power: no step is synced, so that of the steps issued any
    may be missing on the disk. *)
Definition after_power_failure (fs : Files) (l : list step) (d : Files) : Prop :=
  exists n kept, sublist kept (take n l) /\ d = do_steps fs kept.

(** ** Recovery *)

Record RecoverResult := mkRes { hadPendingWrite : bool; pagesRecovered : Z; pagesCorrupt : Z }.

Definition corrupt (r : RecoverResult) : RecoverResult :=
  mkRes (hadPendingWrite r) (pagesRecovered r) (pagesCorrupt r + 1).
Definition recovered (r : RecoverResult) : RecoverResult :=
  mkRes (hadPendingWrite r) (pagesRecovered r + 1) (pagesCorrupt r).

(** [f.read(buf, n)]: [None] when the stream fails. *)
Definition read_n (n : nat) (s : bytes) : option (bytes * bytes) :=
  if length s <? n then None else Some (take n s, drop n s).

Definition META_SIZE : nat := 280.

Definition dec_meta (bs : bytes) : DwbEntryMeta :=
  mkMeta (le_val (mem_read 0 8 bs)) (le_val (mem_read 8 4 bs)) (le_val (mem_read 12 4 bs))
    (c_str (mem_read 16 MAX_DEST_PATH bs)) (le_val (mem_read 272 8 bs)).

(** Put a page back, if its file can be opened for update. *)
Definition reapply (m : DwbEntryMeta) (data : bytes) (acc : RecoverResult * Files)
  : RecoverResult * Files :=
  let '(r, fs) := acc in
  match fs !! destPath m with
  | Some f => (recovered r, <[destPath m := file_write (Z.to_nat (destOffset m)) data f]> fs)
  | None => acc
  end.

(** The entry loop, on the rest [s] of the stream; every entry takes bytes, so
    its length bounds the rounds. *)
Fixpoint entries_loop (fuel : nat) (left : Z) (s : bytes) (acc : RecoverResult * Files)
  : RecoverResult * Files :=
  match fuel with
  | O => acc
  | S fuel' =>
      if (left <=? 0)%Z then acc
      else
        match read_n META_SIZE s with
        | None => (corrupt acc.1, acc.2)
        | Some (mbs, s) =>
            let m := dec_meta mbs in
            match read_n (Z.to_nat (dataLen m)) s with
            | None => (corrupt acc.1, acc.2)
            | Some (data, s) =>
                if negb (crc32 data =? m_crc32 m)%Z
                then entries_loop fuel' (left - 1) s (corrupt acc.1, acc.2)
                else entries_loop fuel' (left - 1) s (reapply m data acc)
            end
        end
  end.

Definition recover (buffer : bytes) (fs : Files) : RecoverResult * Files :=
  match fs !! buffer with
  | None => (mkRes false 0 0, fs)
  | Some f =>
      let r := mkRes true 0 0 in
      match read_n 16 f with
      | None => (corrupt r, fs)
      | Some (hdr, s) =>
          let magic := mem_read 0 8 hdr in
          let entryCount := le_val (mem_read 8 4 hdr) in
          if negb (bytes_eqb magic DWB_MAGIC) then (corrupt r, delete buffer fs)
          else if negb (le_val (mem_read 12 4 hdr) =? crc32 (hdrBytes magic entryCount))%Z
          then (corrupt r, delete buffer fs)
          else
            let '(r, fs) := entries_loop (S (length s)) entryCount s (r, fs) in
            (r, delete buffer fs)
      end
  end.

Definition isClean (buffer : bytes) (fs : Files) : bool := bool_decide (fs !! buffer = None).
Definition clear (buffer : bytes) (fs : Files) : Files := delete buffer fs.

(** ** Runs of byte writes *)

Implicit Types (fs : Files) (buffer dest p data bs f old : bytes) (off : nat).

Lemma do_steps_app fs l1 l2 : do_steps fs (l1 ++ l2) = do_steps (do_steps fs l1) l2.
Proof. apply fold_left_app. Qed.

Lemma length_write_steps p off bs : length (write_steps p off bs) = length bs.
Proof. revert off. induction bs; intros off; simpl; auto. Qed.

Lemma take_write_steps n p off bs : take n (write_steps p off bs) = write_steps p off (take n bs).
Proof. revert n off. induction bs as [|b bs IH]; intros [|n] off; simpl; [done..|]. by rewrite IH. Qed.

Lemma write_steps_run p off a bs fs f :
  a <> [] \/ bs <> [] -> fs !! p = Some (file_write off a f) ->
  do_steps fs (write_steps p (off + length a) bs) = <[p := file_write off (a ++ bs) f]> fs.
Proof.
  revert a fs. induction bs as [|b bs IH]; intros a fs Hne Hp; cbn [write_steps do_steps fold_left].
  { rewrite app_nil_r. by rewrite insert_id. }
  unfold do_steps in IH. cbn [do_step]. rewrite Hp. cbn [default from_option id].
  assert (file_write (off + length a) [b] (file_write off a f) = file_write off (a ++ [b]) f) as E.
  { destruct (decide (a = [])) as [->|Ha]; [by rewrite Nat.add_0_r|]. by apply file_write_app. }
  rewrite E. replace (S (off + length a)) with (off + length (a ++ [b])) by (rewrite length_app; simpl; lia).
  rewrite IH.
  - by rewrite <- app_assoc, insert_insert_eq.
  - left. by destruct a.
  - by rewrite lookup_insert_eq.
Qed.

(** Writing [bs] at [off] byte by byte is one [file_write]. *)
Lemma write_steps_file p off bs fs f :
  fs !! p = Some f -> do_steps fs (write_steps p off bs) = <[p := file_write off bs f]> fs.
Proof.
  intros Hp. destruct (decide (bs = [])) as [->|Hne].
  { simpl. by rewrite file_write_nil, insert_id. }
  pose proof (write_steps_run p off [] bs fs f (or_intror Hne) Hp) as H. cbn [length app] in H.
  by rewrite Nat.add_0_r in H.
Qed.

(** A complete write covers an earlier partial one. *)
Lemma file_write_over off bs k f :
  file_write off bs (file_write off (take k bs) f) = file_write off bs f.
Proof.
  destruct (decide (bs = [])) as [->|Hb]; [by rewrite take_nil|].
  destruct (decide (take k bs = [])) as [->|Hk]; [done|].
  apply list_eq. intros i. rewrite !lookup_file_write, length_file_write by done.
  rewrite length_take. repeat case_decide; try done; try lia.
Qed.

(** ** The record *)

Lemma length_hdrBytes magic n : length (hdrBytes magic n) = length magic + 4.
Proof. unfold hdrBytes. by rewrite length_app, length_le_bytes. Qed.

Lemma length_enc_header n : length (enc_header n) = 16.
Proof. unfold enc_header. by rewrite length_app, length_hdrBytes, length_le_bytes. Qed.

Lemma length_path_field s : length (path_field s) = MAX_DEST_PATH.
Proof.
  unfold path_field. rewrite length_app, length_replicate, length_take.
  unfold MAX_DEST_PATH. lia.
Qed.

Lemma length_enc_meta m : length (enc_meta m) = META_SIZE.
Proof. unfold enc_meta. rewrite !length_app, !length_le_bytes, length_path_field. done. Qed.

Definition plain_path (s : bytes) : Prop := Forall (fun c => c <> 0%Z) s /\ length s < MAX_DEST_PATH.

#[export] Instance plain_path_dec s : Decision (plain_path s).
Proof. unfold plain_path. apply _. Defined.

Lemma c_str_app s n : Forall (fun c => c <> 0%Z) s -> c_str (s ++ replicate n 0%Z) = s.
Proof.
  intros H. unfold c_str. destruct (take_while_all (fun c => negb (c =? 0)%Z) s (replicate n 0%Z)) as [E _].
  - eapply Forall_impl; [exact H|]. intros c Hc. by apply negb_true_iff, Z.eqb_neq.
  - by destruct n.
  - exact E.
Qed.

Lemma c_str_plain s : plain_path s -> c_str (path_field s) = s.
Proof.
  intros [H Hl]. unfold path_field. assert (c_str s = s) as E.
  { rewrite <- (app_nil_r s) at 1. by apply (c_str_app s 0). }
  rewrite E, take_ge by (unfold MAX_DEST_PATH in *; lia). by apply c_str_app.
Qed.

(** Reading the next field of a concatenation. *)
Lemma mem_read_field off n a b (r : bytes) :
  length a = off -> length b = n -> mem_read off n (a ++ b ++ r) = b.
Proof. intros <- <-. unfold mem_read. by rewrite drop_app_length, take_app_length. Qed.

Lemma mem_read_head n b (r : bytes) : length b = n -> mem_read 0 n (b ++ r) = b.
Proof. by apply (mem_read_field 0 n []). Qed.

Lemma dec_enc_meta m :
  (0 <= pageId m < 2 ^ 64)%Z -> (0 <= dataLen m < 2 ^ 32)%Z -> (0 <= m_crc32 m < 2 ^ 32)%Z ->
  plain_path (destPath m) -> (0 <= destOffset m < 2 ^ 64)%Z -> dec_meta (enc_meta m) = m.
Proof.
  intros H1 H2 H3 H4 H5. unfold dec_meta, enc_meta.
  set (a := le_bytes 8 (pageId m)). set (b := le_bytes 4 (dataLen m)). set (c := le_bytes 4 (m_crc32 m)).
  set (d := path_field (destPath m)). set (e := le_bytes 8 (destOffset m)).
  assert (length a = 8 /\ length b = 4 /\ length c = 4 /\ length d = 256) as (La & Lb & Lc & Ld).
  { unfold a, b, c, d. rewrite !length_le_bytes, length_path_field. done. }
  assert (length e = 8) as Le by (unfold e; by rewrite length_le_bytes).
  rewrite (mem_read_head 8 a), (mem_read_field 8 4 a b) by done.
  rewrite (app_assoc a b), (mem_read_field 12 4 (a ++ b) c) by (rewrite ?length_app; lia).
  rewrite (app_assoc (a ++ b) c), (mem_read_field 16 MAX_DEST_PATH ((a ++ b) ++ c) d)
    by (rewrite ?length_app; done || lia).
  rewrite (app_assoc ((a ++ b) ++ c) d), <- (app_nil_r e).
  rewrite (mem_read_field 272 8 (((a ++ b) ++ c) ++ d) e) by (rewrite ?length_app; lia).
  unfold a, b, c, d, e. rewrite !le_val_bytes_id by done. rewrite c_str_plain by done. by destruct m.
Qed.

Lemma take_header n (r : bytes) : take 16 (enc_header n ++ r) = enc_header n.
Proof. by rewrite take_app_length' by (by rewrite length_enc_header). Qed.
Lemma drop_header n (r : bytes) : drop 16 (enc_header n ++ r) = r.
Proof. by rewrite drop_app_length' by (by rewrite length_enc_header). Qed.
Lemma take_meta m (r : bytes) : take META_SIZE (enc_meta m ++ r) = enc_meta m.
Proof. by rewrite take_app_length' by (by rewrite length_enc_meta). Qed.
Lemma drop_meta m (r : bytes) : drop META_SIZE (enc_meta m ++ r) = r.
Proof. by rewrite drop_app_length' by (by rewrite length_enc_meta). Qed.

(** ** What recovery does with the buffer a crash leaves *)

Section crash.
Context (buffer : bytes) (pid : Z) (data dest : bytes) (off : Z).
Hypothesis Hpid : (0 <= pid < 2 ^ 64)%Z.
Hypothesis Hlen : (Z.of_nat (length data) < 2 ^ 32)%Z.
Hypothesis Hoff : (0 <= off < 2 ^ 63)%Z.
Hypothesis Hdest : plain_path dest.
Hypothesis Hneq : buffer <> dest.

Abbreviation record := (record_of pid data dest off).

Lemma meta_of_eq : meta_of pid data dest off = mkMeta pid (Z.of_nat (length data)) (crc32 data) dest off.
Proof. unfold meta_of. by rewrite u32_id by lia. Qed.

Lemma dec_meta_of :
  dec_meta (enc_meta (meta_of pid data dest off)) =
    mkMeta pid (Z.of_nat (length data)) (crc32 data) dest off.
Proof.
  rewrite meta_of_eq. apply dec_enc_meta; cbn [pageId dataLen m_crc32 destPath destOffset];
    [lia|lia|apply crc32_range|exact Hdest|lia].
Qed.

Lemma length_record : length record = 16 + META_SIZE + length data.
Proof. unfold record_of. rewrite !length_app, length_enc_header, length_enc_meta. lia. Qed.

(** A torn buffer is never applied. *)
Lemma recover_torn fs k :
  k < length record -> fs !! buffer = Some (take k record) ->
  forall p, p <> buffer -> (recover buffer fs).2 !! p = fs !! p.
Proof.
  intros Hk Hb p Hp. rewrite length_record in Hk. unfold recover. rewrite Hb. unfold read_n.
  destruct (Nat.ltb_spec (length (take k record)) 16) as [Hs|Hs]; [done|].
  rewrite length_take, length_record in Hs.
  assert (drop 16 (take k record) = take (k - 16) (enc_meta (meta_of pid data dest off) ++ data)) as Es.
  { unfold record_of. by rewrite skipn_firstn_comm, drop_header. }
  do 2 (case_match; [simpl; by rewrite lookup_delete_ne|]).
  rewrite Es. set (s := take (k - 16) _).
  assert (length s = k - 16) as Hls.
  { unfold s. rewrite length_take, length_app, length_enc_meta. lia. }
  destruct (entries_loop _ _ _ _) as [r fs1] eqn:El. cbn [snd].
  rewrite lookup_delete_ne by done. cbn [entries_loop] in El.
  destruct (_ <=? 0)%Z; [by injection El as <- <-|]. unfold read_n in El.
  destruct (Nat.ltb_spec (length s) META_SIZE) as [Hm|Hm]; [by injection El as <- <-|].
  assert (take META_SIZE s = enc_meta (meta_of pid data dest off) /\
          length (drop META_SIZE s) < length data) as [Em Hd].
  { unfold s. split.
    - rewrite take_take, Nat.min_l by lia. apply take_meta.
    - rewrite length_drop, length_take, length_app, length_enc_meta. lia. }
  rewrite Em, dec_meta_of in El.
  cbn [dataLen] in El. rewrite Nat2Z.id in El.
  rewrite (proj2 (Nat.ltb_lt _ _)) in El by done. by injection El as <- <-.
Qed.

(** A complete buffer is read back whole. *)
Lemma recover_record fs :
  fs !! buffer = Some record ->
  recover buffer fs =
    let '(r, fs) := reapply (mkMeta pid (Z.of_nat (length data)) (crc32 data) dest off) data (mkRes true 0 0, fs) in
    (r, delete buffer fs).
Proof.
  intros Hb. unfold recover. rewrite Hb. unfold read_n.
  pose proof length_record as Hl. rewrite (proj2 (Nat.ltb_ge _ _)) by lia.
  unfold record_of. rewrite take_header, drop_header. change (mem_read 0 8 (enc_header 1)) with DWB_MAGIC.
  change (le_val (mem_read 8 4 (enc_header 1))) with 1%Z.
  assert (le_val (mem_read 12 4 (enc_header 1)) = crc32 (hdrBytes DWB_MAGIC 1)) as -> by by vm_compute.
  rewrite Z.eqb_refl. unfold bytes_eqb. rewrite bool_decide_true by done. cbn [negb].
  set (s := enc_meta _ ++ data). cbn [entries_loop].
  replace (1 <=? 0)%Z with false by done. unfold read_n.
  assert (length s = META_SIZE + length data) as Hls
    by (unfold s; by rewrite length_app, length_enc_meta).
  rewrite (proj2 (Nat.ltb_ge _ _)) by lia.
  assert (take META_SIZE s = enc_meta (meta_of pid data dest off)) as -> by apply take_meta.
  assert (drop META_SIZE s = data) as -> by apply drop_meta.
  rewrite dec_meta_of.
  cbn [dataLen m_crc32 destPath destOffset]. rewrite Nat2Z.id, Nat.ltb_irrefl, (take_ge data), (drop_ge data) by lia.
  rewrite Z.eqb_refl. cbn [negb]. rewrite Hls. destruct (reapply _ _ _). by destruct (META_SIZE + length data).
Qed.

(** Its page is put back, if the destination exists. *)
Lemma recover_full fs f :
  fs !! buffer = Some record -> fs !! dest = Some f ->
  recover buffer fs =
    (mkRes true 1 0, delete buffer (<[dest := file_write (Z.to_nat off) data f]> fs)).
Proof. intros Hb Hd. rewrite recover_record by done. cbn [reapply destPath destOffset]. by rewrite Hd. Qed.

Lemma recover_nowhere fs :
  fs !! buffer = Some record -> fs !! dest = None -> recover buffer fs = (mkRes true 0 0, delete buffer fs).
Proof. intros Hb Hd. rewrite recover_record by done. cbn [reapply destPath]. by rewrite Hd. Qed.

(** The buffer phase, the destination phase, the removal. *)
Abbreviation buffer_steps := (STruncate buffer :: write_steps buffer 0 record).
Abbreviation dest_steps := (write_steps dest (Z.to_nat off) data).

Lemma buffer_phase fs k :
  do_steps fs (take (S k) buffer_steps) = <[buffer := take k record]> fs.
Proof.
  cbn [take]. rewrite take_write_steps. unfold do_steps. cbn [fold_left do_step].
  fold (do_steps (<[buffer := []]> fs) (write_steps buffer 0 (take k record))).
  rewrite (write_steps_file _ _ _ _ []) by by rewrite lookup_insert_eq.
  rewrite insert_insert_eq. f_equal. destruct (decide (take k record = [])) as [->|Hne]; [done|].
  unfold file_write. rewrite bool_decide_false by done. simpl. by rewrite drop_nil, app_nil_r.
Qed.

(** The destination, created if it does not exist. *)
Abbreviation create_steps fs := (if bool_decide (fs !! dest = None) then [STruncate dest] else []).
Abbreviation old fs := (default [] (fs !! dest)).

Lemma create_phase fs : do_steps fs (create_steps fs) = <[dest := old fs]> fs.
Proof.
  cbn beta. destruct (fs !! dest) as [f|] eqn:Hd.
  - rewrite bool_decide_false by congruence. symmetry. apply (insert_id fs dest f Hd).
  - by rewrite bool_decide_true.
Qed.

Lemma dest_phase fs k :
  do_steps (<[dest := old fs]> (<[buffer := record]> fs)) (take k dest_steps) =
    <[dest := file_write (Z.to_nat off) (take k data) (old fs)]> (<[buffer := record]> fs).
Proof.
  rewrite take_write_steps, (write_steps_file _ _ _ _ (old fs)) by (by rewrite lookup_insert_eq).
  by rewrite insert_insert_eq.
Qed.

Definition crashed fs (n : nat) : Files := do_steps fs (take n (writePage_steps buffer pid data dest off fs)).

Lemma recover_clean fs : fs !! buffer = None -> (recover buffer fs).2 = fs.
Proof. intros H. unfold recover. by rewrite H. Qed.

(** The states a crash can leave. *)
Lemma crashed_cases fs n :
  let full := S (length record) + length (create_steps fs) in
  (n = 0 /\ crashed fs n = fs) \/
  (exists k, n = S k /\ k < length record /\ crashed fs n = <[buffer := take k record]> fs) \/
  (0 < n < full /\ fs !! dest = None /\ crashed fs n = <[buffer := record]> fs) \/
  (0 < n /\ exists k,
     crashed fs n = <[dest := file_write (Z.to_nat off) (take k data) (old fs)]> (<[buffer := record]> fs)) \/
  (0 < n /\ crashed fs n = delete buffer (<[dest := file_write (Z.to_nat off) data (old fs)]> fs)).
Proof.
  intros full. unfold crashed, writePage_steps.
  assert (length buffer_steps = S (length record)) as Hlb by (cbn; by rewrite length_write_steps).
  destruct (Nat.lt_ge_cases n (S (length record))) as [Hn|Hn].
  { destruct n as [|k]; [by left|]. right. left. exists k. split_and!; [done|lia|].
    rewrite take_app_le by (rewrite Hlb; lia). apply buffer_phase. }
  right. right. rewrite take_app_ge by (rewrite Hlb; lia). rewrite Hlb, do_steps_app.
  assert (do_steps fs buffer_steps = <[buffer := record]> fs) as ->.
  { pose proof (buffer_phase fs (length record)) as H. rewrite (take_ge record) in H by done.
    by rewrite take_ge in H by (rewrite Hlb; done). }
  set (m := n - S (length record)). rewrite <- !app_assoc.
  assert (do_steps (<[buffer := record]> fs) (create_steps fs) = <[dest := old fs]> (<[buffer := record]> fs)) as Ec.
  { pose proof (create_phase (<[buffer := record]> fs)) as H. by rewrite lookup_insert_ne in H. }
  destruct (Nat.lt_ge_cases m (length (create_steps fs))) as [Hm|Hm].
  { left. assert (fs !! dest = None /\ m = 0) as [Hd Hm0] by (case_bool_decide; simpl in Hm; [split; [done|lia]|lia]).
    split_and!; [lia|unfold full; lia|done|]. by rewrite Hm0. }
  right. rewrite take_app_ge, do_steps_app, Ec by lia. set (j := m - length (create_steps fs)).
  destruct (Nat.le_gt_cases j (length dest_steps)) as [Hj|Hj].
  - left. split; [lia|]. exists j. rewrite take_app_le by done. apply dest_phase.
  - right. split; [lia|]. rewrite take_ge by (rewrite length_app; simpl; lia).
    rewrite do_steps_app, <- (take_ge dest_steps (length dest_steps)) by done.
    rewrite dest_phase. rewrite length_write_steps, take_ge by done.
    unfold do_steps. cbn [fold_left do_step].
    rewrite delete_insert_ne, delete_insert_eq by done. by rewrite delete_insert_ne.
Qed.
End crash.

(** [C36] Page writes are atomic when the process stops: after any number of the
    byte writes of [writePage], recovery leaves the destination as it was or with
    the whole new page, and touches no other file.  Once the buffer is complete
    and the destination exists - it did before, or it has been created - the new
    page is not lost.  The buffer file is absent at the start, as [recover] and a
    finished [writePage] leave it, or at least the step that empties it is done;
    the path of the destination is short enough for its field.  A power failure is
    another matter: the writes are not synced ([power_failure_tears]). *)
Theorem dwb_atomic buffer pid data dest (off : Z) fs (n : nat) :
  (0 <= pid < 2 ^ 64)%Z -> (Z.of_nat (length data) < 2 ^ 32)%Z -> (0 <= off < 2 ^ 63)%Z ->
  plain_path dest -> buffer <> dest -> fs !! buffer = None \/ 0 < n ->
  let after := (recover buffer (do_steps fs (take n (writePage_steps buffer pid data dest off fs)))).2 in
  let new := file_write (Z.to_nat off) data (default [] (fs !! dest)) in
  let created := if bool_decide (fs !! dest = None) then 1 else 0 in
  (after !! dest = fs !! dest \/ after !! dest = Some new) /\
  (forall p, p <> dest -> p <> buffer -> after !! p = fs !! p) /\
  (length (record_of pid data dest off) + created < n -> after !! dest = Some new /\ isClean buffer after = true).
Proof.
  intros Hpid Hlen Hoff Hdest Hneq Hb after new created. unfold after.
  fold (crashed buffer pid data dest off fs n).
  assert (length (if bool_decide (fs !! dest = None) then [STruncate dest] else []) = created) as Hc
    by (unfold created; by case_bool_decide).
  pose proof (crashed_cases buffer pid data dest off Hneq fs n) as H. cbn zeta beta in H. rewrite Hc in H.
  destruct H as [[-> ->]|[(k & -> & Hk & ->)|[(Hn & Hd & ->)|[[Hn (k & ->)]|[Hn ->]]]]].
  - destruct Hb as [Hb|?]; [|lia]. rewrite recover_clean by done. split_and!; [by left|done|lia].
  - pose proof (recover_torn buffer pid data dest off Hpid Hlen Hoff Hdest
      (<[buffer := take k (record_of pid data dest off)]> fs) k Hk) as H.
    rewrite lookup_insert_eq in H. specialize (H eq_refl). split_and!; [left| |lia].
    + by rewrite H, lookup_insert_ne.
    + intros p Hp Hpb. by rewrite H, lookup_insert_ne.
  - rewrite (recover_nowhere buffer pid data dest off); [|done..|by rewrite lookup_insert_eq|by rewrite lookup_insert_ne]. cbn [snd]. split_and!; [left| |lia].
    + by rewrite lookup_delete_ne, lookup_insert_ne.
    + intros p Hp Hpb. by rewrite lookup_delete_ne, lookup_insert_ne.
  - rewrite (recover_full buffer pid data dest off Hpid Hlen Hoff Hdest _
      (file_write (Z.to_nat off) (take k data) (default [] (fs !! dest)))).
    2:{ by rewrite lookup_insert_ne, lookup_insert_eq by done. }
    2:{ by rewrite lookup_insert_eq. }
    cbn [snd]. rewrite insert_insert_eq, file_write_over. fold new.
    assert (delete buffer (<[dest:=new]> (<[buffer:=record_of pid data dest off]> fs)) !! dest = Some new)
      as E by (by rewrite lookup_delete_ne, lookup_insert_eq by done).
    split_and!; [by right| |intros _; split; [done|]].
    + intros p Hp Hpb. by rewrite lookup_delete_ne, !lookup_insert_ne by done.
    + unfold isClean. by rewrite lookup_delete_eq.
  - rewrite recover_clean by (by rewrite lookup_delete_eq). fold new.
    assert (delete buffer (<[dest:=new]> fs) !! dest = Some new) as E
      by (by rewrite lookup_delete_ne, lookup_insert_eq by done).
    split_and!; [by right| |intros _; split; [done|]].
    + intros p Hp Hpb. by rewrite lookup_delete_ne, lookup_insert_ne by done.
    + unfold isClean. by rewrite lookup_delete_eq.
Qed.

Lemma dwb_atomic_witness :
  let fs := {[str "t.mdb" := replicate 8 1%Z]} : Files in
  let after := (recover (str "database.dwb") (do_steps fs (take 304
    (writePage_steps (str "database.dwb") 0 [7; 8; 9]%Z (str "t.mdb") 2 fs)))).2 in
  after !! str "t.mdb" = Some [1; 1; 7; 8; 9; 1; 1; 1]%Z.
Proof.
  intros fs after.
  destruct (dwb_atomic (str "database.dwb") 0 [7; 8; 9]%Z (str "t.mdb") 2 fs 304)
    as (_ & _ & H); [lia|by vm_compute|lia|by_decide|by_decide|left; by vm_compute|].
  destruct H as [H _]; [apply Nat.ltb_lt; vm_compute; reflexivity|]. exact H.
Defined.

(** Before the destination exists the complete buffer is dropped. *)
Lemma new_file_dropped :
  let fs := ∅ : Files in
  let after := (recover (str "database.dwb") (do_steps fs (take 300
    (writePage_steps (str "database.dwb") 0 [7; 8; 9]%Z (str "t.mdb") 0 fs)))) in
  after.2 = ∅ /\ pagesRecovered after.1 = 0%Z /\ pagesCorrupt after.1 = 0%Z.
Proof. vm_compute. by split_and!. Qed.

(** The synced writes that the comment of the class promises are not made: after
    a power failure the buffer may be missing and the page half written. *)
Lemma power_failure_tears :
  let fs := {[str "t.mdb" := replicate 4 1%Z]} : Files in
  let steps := writePage_steps (str "database.dwb") 0 [7; 8; 9]%Z (str "t.mdb") 0 fs in
  exists d, after_power_failure fs steps d /\
    (recover (str "database.dwb") d).2 = {[str "t.mdb" := [7; 8; 1; 1]%Z]}.
Proof.
  exists {[str "t.mdb" := [7; 8; 1; 1]%Z]}. split; [|by_decide].
  exists 302, (drop 300 (take 302 (writePage_steps (str "database.dwb") 0 [7; 8; 9]%Z (str "t.mdb") 0
    {[str "t.mdb" := replicate 4 1%Z]}))). split; [apply sublist_drop|by_decide].
Qed.

(** The process that stops is a case of it: nothing issued is lost. *)
Lemma after_kill_power fs l d : after_kill fs l d -> after_power_failure fs l d.
Proof. intros [n ->]. by exists n, (take n l). Qed.
