(* ===== verification/Arith.v ===== *)
(** * Arithmetic in queries ([src/engine/engine.hpp], namespace [milansql_arith])

    The recursive-descent evaluator that computes [col + 2 * (x - 1)] on the
    text of an expression.  Doubles are a parameter: the theorems hold for
    every arithmetic.  The evaluator is shown to stop on every text and to
    compute the value of the expression tree with the usual precedences. *)

From S2P Require Import Prelude Index Partition Table.

(** ** Doubles *)

(** [double] with the operations the code applies to it; [stod_pos] is
    [std::stod] with the number of characters it has read, [None] an exception;
    [print] is what [run] does with a value that is not NaN. *)
Class Double := mkDouble {
  dbl : Type; dzero : dbl; dnan : dbl;
  dadd : dbl -> dbl -> dbl; dsub : dbl -> dbl -> dbl; dmul : dbl -> dbl -> dbl;
  ddiv : dbl -> dbl -> dbl; dneg : dbl -> dbl; dtrunc : dbl -> dbl;
  disnan : dbl -> bool; diszero : dbl -> bool;
  deq : dbl -> dbl -> bool; dlt : dbl -> dbl -> bool; dle : dbl -> dbl -> bool;
  stod_pos : bytes -> option (dbl * nat); print : dbl -> bytes }.

Definition stod {DB : Double} (s : bytes) : option dbl := fst <$> stod_pos s.

Definition is_alnum (c : byte) : bool := is_alpha c || is_digit c.
Definition is_word (c : byte) : bool := is_alnum c || (c =? 95)%Z.
Definition is_numchar (c : byte) : bool := is_digit c || (c =? 46)%Z.

Definition upper (s : bytes) : bytes := map to_upper s.

(** ** Evaluation *)

Section eval.
Context {DB : Double} (cols : list Column) (vals : list bytes).

Definition isNullVal (v : bytes) : bool :=
  bytes_eqb v [] || bytes_eqb v NULL || bytes_eqb v (str "null").

(** The value of a stored field. *)
Definition field_value (v : bytes) : dbl :=
  if isNullVal v then dnan else default dzero (stod v).

Fixpoint first_match (p : Column -> bool) (cs : list Column) (vs : list bytes) : option bytes :=
  match cs, vs with
  | c :: cs', v :: vs' => if p c then Some v else first_match p cs' vs'
  | _, _ => None
  end.

Definition resolveIdent (tok : bytes) : dbl :=
  match first_match (fun c => bytes_eqb (c_name c) tok) cols vals with
  | Some v => field_value v
  | None =>
      match first_match (fun c => bytes_eqb (split_name (c_name c)).2 tok) cols vals with
      | Some v => field_value v
      | None => dzero
      end
  end.

Definition skipWS (s : bytes) : bytes := drop_while (fun c => c =? 32)%Z s.

(** [skipWS] and the loop over signs, which skips blanks after each. *)
Fixpoint signs (neg : bool) (s : bytes) : bool * bytes :=
  match s with
  | c :: s' =>
      if (c =? 32)%Z then signs neg s'
      else if (c =? 45)%Z then signs (negb neg) s'
      else if (c =? 43)%Z then signs neg s'
      else (neg, s)
  | [] => (neg, [])
  end.

(** An identifier token. *)
Definition ident_value (tok : bytes) : dbl :=
  if bytes_eqb (upper tok) NULL then dnan
  else match stod tok with Some v => v | None => resolveIdent tok end.

(** A factor that is not parenthesised: number, identifier, or a skipped byte. *)
Definition atom (s : bytes) : dbl * bytes :=
  match take_while is_numchar s with
  | [] =>
      match take_while is_word s with
      | [] => (dzero, drop 1 s)
      | tok => (ident_value tok, drop_while is_word s)
      end
  | num => (default dzero (stod num), drop_while is_numchar s)
  end.

Definition atDiv (s : bytes) : bool :=
  match s with
  | d :: i :: v :: s' =>
      (to_upper d =? 68)%Z && (to_upper i =? 73)%Z && (to_upper v =? 86)%Z &&
      match s' with after :: _ => negb (is_word after) | [] => true end
  | _ => false
  end.

(** [v = r ? v/r : 0.0] and [v = r ? std::trunc(v / r) : 0.0] *)
Definition quotient (v r : dbl) : dbl := if diszero r then dzero else ddiv v r.
Definition int_quotient (v r : dbl) : dbl := if diszero r then dzero else dtrunc (ddiv v r).

(** The mutually recursive descent; [None] is lack of fuel. *)
Fixpoint factor (fuel : nat) (s : bytes) : option (dbl * bytes) :=
  match fuel with
  | O => None
  | S f =>
      let '(neg, s) := signs false s in
      '(v, s) ← match s with
                | c :: s' =>
                    if (c =? 40)%Z then
                      '(v, s) ← sum f s';
                      Some (v, match skipWS s with
                               | c :: s'' => if (c =? 41)%Z then s'' else skipWS s
                               | [] => []
                               end)
                    else Some (atom s)
                | [] => Some (atom s)
                end;
      Some (if (neg : bool) then dneg v else v, s)
  end
with term (fuel : nat) (s : bytes) : option (dbl * bytes) :=
  match fuel with
  | O => None
  | S f => '(v, s) ← factor f s; term_loop f v s
  end
with term_loop (fuel : nat) (v : dbl) (s : bytes) : option (dbl * bytes) :=
  match fuel with
  | O => None
  | S f =>
      let s := skipWS s in
      match s with
      | c :: s' =>
          if (c =? 42)%Z then '(r, s) ← factor f s'; term_loop f (dmul v r) s
          else if (c =? 47)%Z then '(r, s) ← factor f s'; term_loop f (quotient v r) s
          else if atDiv s then '(r, s) ← factor f (drop 3 s); term_loop f (int_quotient v r) s
          else Some (v, s)
      | [] => Some (v, s)
      end
  end
with sum (fuel : nat) (s : bytes) : option (dbl * bytes) :=
  match fuel with
  | O => None
  | S f => '(v, s) ← term f s; sum_loop f v s
  end
with sum_loop (fuel : nat) (v : dbl) (s : bytes) : option (dbl * bytes) :=
  match fuel with
  | O => None
  | S f =>
      let s := skipWS s in
      match s with
      | c :: s' =>
          if (c =? 43)%Z then '(r, s) ← term f s'; sum_loop f (dadd v r) s
          else if (c =? 45)%Z then '(r, s) ← term f s'; sum_loop f (dsub v r) s
          else Some (v, s)
      | [] => Some (v, s)
      end
  end.

Definition fuel_for (s : bytes) : nat := 4 * length s + 3.

Definition run (expr : bytes) : option bytes :=
  '(r, _) ← sum (fuel_for expr) expr;
  Some (if disnan r then NULL else print r).

(** *** The equations of the descent *)

Lemma factor_S f s :
  factor (S f) s =
    let '(neg, s) := signs false s in
    '(v, s) ← match s with
              | c :: s' =>
                  if (c =? 40)%Z then
                    '(v, s) ← sum f s';
                    Some (v, match skipWS s with
                             | c :: s'' => if (c =? 41)%Z then s'' else skipWS s
                             | [] => []
                             end)
                  else Some (atom s)
              | [] => Some (atom s)
              end;
    Some (if (neg : bool) then dneg v else v, s).
Proof. done. Qed.

Lemma term_S f s : term (S f) s = '(v, s) ← factor f s; term_loop f v s.
Proof. done. Qed.

Lemma term_loop_S f v s :
  term_loop (S f) v s =
    match skipWS s with
    | c :: s' =>
        if (c =? 42)%Z then '(r, s) ← factor f s'; term_loop f (dmul v r) s
        else if (c =? 47)%Z then '(r, s) ← factor f s'; term_loop f (quotient v r) s
        else if atDiv (c :: s') then '(r, s) ← factor f (drop 2 s'); term_loop f (int_quotient v r) s
        else Some (v, c :: s')
    | [] => Some (v, [])
    end.
Proof. cbn [term_loop]. by destruct (skipWS s). Qed.

Lemma sum_S f s : sum (S f) s = '(v, s) ← term f s; sum_loop f v s.
Proof. done. Qed.

Lemma sum_loop_S f v s :
  sum_loop (S f) v s =
    match skipWS s with
    | c :: s' =>
        if (c =? 43)%Z then '(r, s) ← term f s'; sum_loop f (dadd v r) s
        else if (c =? 45)%Z then '(r, s) ← term f s'; sum_loop f (dsub v r) s
        else Some (v, c :: s')
    | [] => Some (v, [])
    end.
Proof. cbn [sum_loop]. by destruct (skipWS s). Qed.
End eval.

(** ** Does a text look like arithmetic? *)

(** The search for DIV as a word; [prev] is the byte before [s]. *)
Fixpoint has_div (fuel : nat) (prev : option byte) (s : bytes) : bool :=
  match fuel with
  | O => false
  | S f =>
      match s with
      | [] => false
      | c :: s' =>
          if starts_with (str "DIV") s then
            let leftOk := match prev with Some p => negb (is_word p) | None => true end in
            let rightOk := match drop 3 s with r :: _ => negb (is_word r) | [] => true end in
            if leftOk && rightOk then true else has_div f (Some 86%Z) (drop 3 s)
          else has_div f (Some c) s'
      end
  end.

(** Digits with at most one dot. *)
Fixpoint plain_number (dot : bool) (s : bytes) : bool :=
  match s with
  | [] => true
  | c :: s' =>
      if (c =? 46)%Z && negb dot then plain_number true s'
      else is_digit c && plain_number dot s'
  end.

Definition is_quoted (s : bytes) : bool :=
  match s with
  | c :: _ => (2 <=? length s) && ((c =? 39) || (c =? 34))%Z && (List.last s 0 =? c)%Z
  | [] => false
  end.

Definition looksArith (s : bytes) : bool :=
  if is_quoted s then false
  else
    match s with
    | [] => false
    | c0 :: rest =>
        (c0 =? 40)%Z ||
        existsb (fun c => (c =? 43) || (c =? 45) || (c =? 42) || (c =? 47))%Z s ||
        has_div (S (length s)) None (upper s) ||
        plain_number false (if (c0 =? 45)%Z then rest else s)
    end.

(** ** Expression trees

    The specification: an expression as a tree, its SQL text with the
    parentheses its precedences need, and its value. *)

Inductive binop := Plus | Minus | Times | Over | Div.

Inductive expr :=
| Num (d : bytes)
| Name (t : bytes)
| Null
| Opp (e : expr)
| Bin (o : binop) (l r : expr).

Definition prec (o : binop) : nat := match o with Plus | Minus => 0 | _ => 1 end.

Definition symbol (o : binop) : bytes :=
  match o with
  | Plus => str "+" | Minus => str "-" | Times => str "*" | Over => str "/" | Div => str "DIV"
  end.

Definition paren (b : bool) (s : bytes) : bytes := if b then 40%Z :: s ++ [41%Z] else s.

(** The text of [e] as an operand of level [lvl]: 0 in a sum, 1 in a product,
    2 as a factor, 3 behind a sign. *)
Fixpoint show (lvl : nat) (e : expr) : bytes :=
  match e with
  | Num d => d
  | Name t => t
  | Null => NULL
  | Opp e => paren (2 <? lvl) (45%Z :: show 3 e)
  | Bin o l r =>
      paren (prec o <? lvl) (show (prec o) l ++ 32%Z :: symbol o ++ 32%Z :: show (S (prec o)) r)
  end.

Section denote.
Context {DB : Double} (cols : list Column) (vals : list bytes).

Definition apply_op (o : binop) : dbl -> dbl -> dbl :=
  match o with
  | Plus => dadd | Minus => dsub | Times => dmul | Over => quotient | Div => int_quotient
  end.

Fixpoint denote (e : expr) : dbl :=
  match e with
  | Num d => default dzero (stod d)
  | Name t => resolveIdent cols vals t
  | Null => dnan
  | Opp e => dneg (denote e)
  | Bin o l r => apply_op o (denote l) (denote r)
  end.

(** Literals are digits with dots; a name is a word that neither is NULL nor
    starts with what [stod] takes for a number. *)
Fixpoint wf_expr (e : expr) : Prop :=
  match e with
  | Num d => d <> [] /\ Forall (fun c => is_numchar c = true) d
  | Name t =>
      (match t with c :: _ => is_numchar c = false | [] => False end) /\
      Forall (fun c => is_word c = true) t /\ upper t <> NULL /\ stod t = None
  | Null => True
  | Opp e => wf_expr e
  | Bin _ l r => wf_expr l /\ wf_expr r
  end.
End denote.

(** ** Fuel *)

Section fuel.
Context {DB : Double} (cols : list Column) (vals : list bytes).
Abbreviation factor := (factor cols vals).
Abbreviation term := (term cols vals).
Abbreviation term_loop := (term_loop cols vals).
Abbreviation sum := (sum cols vals).
Abbreviation sum_loop := (sum_loop cols vals).

(** [g] computes whatever [f] does. *)
Definition extends {A B} (f g : A -> option B) : Prop := forall x y, f x = Some y -> g x = Some y.

Lemma bind_some {A B} (o : option A) (k : A -> option B) y :
  (o ≫= k) = Some y <-> exists x, o = Some x /\ k x = Some y.
Proof. destruct o; simpl; split; [eauto|by intros (x & [= ->] & ?)|done|by intros (x & ? & _)]. Qed.

Lemma fuel_step f :
  extends (factor f) (factor (S f)) /\ extends (term f) (term (S f)) /\
  (forall v, extends (term_loop f v) (term_loop (S f) v)) /\
  extends (sum f) (sum (S f)) /\ (forall v, extends (sum_loop f v) (sum_loop (S f) v)).
Proof.
  induction f as [|f (IHf & IHt & IHtl & IHs & IHsl)]; [split_and!; by intros|].
  split_and!.
  - intros s y. rewrite !factor_S.
    destruct (signs false s) as [neg [|c s']]; [done|].
    destruct (c =? 40)%Z; [|done]. rewrite !bind_some. intros (x & H & Hy). exists x. split; [|done].
    apply bind_some in H as (p & H & Hp). apply bind_some. exists p. split; [by apply IHs|done].
  - intros s y. rewrite !term_S, !bind_some.
    intros ([v s1] & H & Hy). exists (v, s1). split; [by apply IHf|by apply IHtl].
  - intros v s y. rewrite !term_loop_S.
    destruct (skipWS s) as [|c s']; [done|].
    destruct (c =? 42)%Z; [|destruct (c =? 47)%Z; [|destruct (atDiv (c :: s')); [|done]]];
      rewrite !bind_some; intros ([r s1] & H & Hy); exists (r, s1);
      (split; [by apply IHf|by apply IHtl]).
  - intros s y. rewrite !sum_S, !bind_some.
    intros ([v s1] & H & Hy). exists (v, s1). split; [by apply IHt|by apply IHsl].
  - intros v s y. rewrite !sum_loop_S.
    destruct (skipWS s) as [|c s']; [done|].
    destruct (c =? 43)%Z; [|destruct (c =? 45)%Z; [|done]];
      rewrite !bind_some; intros ([r s1] & H & Hy); exists (r, s1);
      (split; [by apply IHt|by apply IHsl]).
Qed.

Lemma sum_mono f g s y : f <= g -> sum f s = Some y -> sum g s = Some y.
Proof. induction 1 as [|g _ IH]; [done|]. intros H. apply fuel_step, IH, H. Qed.
Lemma factor_mono f g s y : f <= g -> factor f s = Some y -> factor g s = Some y.
Proof. induction 1 as [|g _ IH]; [done|]. intros H. apply (proj1 (fuel_step g)), IH, H. Qed.
Lemma term_mono f g s y : f <= g -> term f s = Some y -> term g s = Some y.
Proof. induction 1 as [|g _ IH]; [done|]. intros H. apply (proj1 (proj2 (fuel_step g))), IH, H. Qed.
Lemma term_loop_mono f g v s y : f <= g -> term_loop f v s = Some y -> term_loop g v s = Some y.
Proof. induction 1 as [|g _ IH]; [done|]. intros H. apply (proj1 (proj2 (proj2 (fuel_step g)))), IH, H. Qed.
Lemma sum_loop_mono f g v s y : f <= g -> sum_loop f v s = Some y -> sum_loop g v s = Some y.
Proof. induction 1 as [|g _ IH]; [done|]. intros H. apply fuel_step, IH, H. Qed.

(** *** Every call stops and does not move backwards *)

Lemma length_drop_while {A} (p : A -> bool) l : length (drop_while p l) <= length l.
Proof. induction l as [|x l IH]; simpl; [lia|]. destruct (p x); simpl; lia. Qed.

Lemma length_signs neg s : length (signs neg s).2 <= length s.
Proof.
  revert neg. induction s as [|c s IH]; intros neg; cbn [signs]; [done|].
  repeat case_if; simpl; try (etrans; [apply IH|]); lia.
Qed.

Lemma length_atom s : length (atom cols vals s).2 <= length s.
Proof.
  unfold atom. destruct (take_while is_numchar s); [destruct (take_while is_word s)|]; simpl;
    rewrite ?length_drop; try lia; apply length_drop_while.
Qed.

(** [f s] succeeds and leaves at most [n] bytes. *)
Definition stops (f : bytes -> option (dbl * bytes)) (n : nat) : Prop :=
  forall s, length s <= n -> exists v s', f s = Some (v, s') /\ length s' <= length s.

Lemma stops_le f n s : stops f n -> length s <= n -> exists v s', f s = Some (v, s') /\ length s' <= length s.
Proof. auto. Qed.

(** Fuel that is enough for texts of at most [n] bytes. *)
Definition fuel_enough (n : nat) : Prop :=
  (forall f, 4 * n + 1 <= f ->
     stops (factor f) n /\ (forall v, stops (term_loop f v) n) /\ (forall v, stops (sum_loop f v) n)) /\
  (forall f, 4 * n + 2 <= f -> stops (term f) n) /\ (forall f, 4 * n + 3 <= f -> stops (sum f) n).

Lemma length_skipWS_cons s c s' n : skipWS s = c :: s' -> length s <= n -> S (length s') <= n.
Proof. intros E. pose proof (length_drop_while (fun c => (c =? 32)%Z) s). unfold skipWS in E. rewrite E in H. simpl in H. lia. Qed.

Lemma length_skipWS s : length (skipWS s) <= length s.
Proof. apply length_drop_while. Qed.

Lemma stops_factor f n :
  (forall m, m < n -> fuel_enough m) -> 4 * n + 1 <= f -> stops (factor f) n.
Proof.
  intros IH Hf s Hs. destruct f as [|f]; [lia|]. rewrite factor_S.
  pose proof (length_signs false s) as Hg. destruct (signs false s) as [neg s1]. cbn [snd] in Hg.
  destruct s1 as [|c s1]; [do 2 eexists; split; [reflexivity|]; pose proof (length_atom []); simpl in *; lia|].
  destruct (c =? 40)%Z;
    [|pose proof (length_atom (c :: s1)); destruct (atom cols vals (c :: s1)); do 2 eexists; split; [done|simpl in *; lia]].
  cbn [length] in Hg. destruct (IH (n - 1) ltac:(lia)) as (_ & _ & Hsum).
  destruct (Hsum f ltac:(lia) s1 ltac:(lia)) as (v & s2 & -> & H2). cbn [mbind option_bind].
  pose proof (length_skipWS s2). destruct (skipWS s2) as [|d s3] eqn:E;
    (do 2 eexists; split; [done|]); [simpl; lia|]. simpl in *. destruct (d =? 41)%Z; simpl; lia.
Qed.

Lemma stops_loops f n :
  (forall m, m < n -> fuel_enough m) -> 4 * n + 1 <= f ->
  (forall v, stops (term_loop f v) n) /\ (forall v, stops (sum_loop f v) n).
Proof.
  intros IH Hf. destruct f as [|f]; [lia|].
  split; intros v s Hs; rewrite ?term_loop_S, ?sum_loop_S; pose proof (length_skipWS s) as Hw;
    (destruct (skipWS s) as [|c s1] eqn:E; [by do 2 eexists; split; [done|simpl; lia]|]);
    (assert (n <> 0) as Hn0 by (intros ->; destruct s; [done|simpl in *; lia])).
  - apply (length_skipWS_cons _ _ _ n) in E as Hn; [|done].
    destruct (IH (n - 1) ltac:(lia)) as (Hl1 & _ & _). destruct (Hl1 f ltac:(lia)) as (Hfac & Hl & _).
    assert (forall k s2, length s2 <= length s1 ->
      exists w s', ('(r, s) ← factor f s2; term_loop f (k r) s) = Some (w, s') /\ length s' <= length s) as Hgo.
    { intros k s2 H2. destruct (Hfac s2 ltac:(lia)) as (r & s3 & -> & H3). simpl.
      destruct (Hl (k r) s3 ltac:(lia)) as (w & s4 & -> & H4). do 2 eexists. split; [done|]. simpl in Hw. lia. }
    destruct (c =? 42)%Z; [by apply Hgo|]. destruct (c =? 47)%Z; [by apply (Hgo (quotient v))|].
    destruct (atDiv (c :: s1)); [|by do 2 eexists; split].
    apply (Hgo (int_quotient v)). rewrite length_drop. simpl. lia.
  - apply (length_skipWS_cons _ _ _ n) in E as Hn; [|done].
    destruct (IH (n - 1) ltac:(lia)) as (Hl1 & Ht & _). destruct (Hl1 f ltac:(lia)) as (_ & _ & Hl).
    assert (forall k,
      exists w s', ('(r, s) ← term f s1; sum_loop f (k r) s) = Some (w, s') /\ length s' <= length s) as Hgo.
    { intros k. destruct (Ht f ltac:(lia) s1 ltac:(lia)) as (r & s3 & -> & H3). simpl.
      destruct (Hl (k r) s3 ltac:(lia)) as (w & s4 & -> & H4). do 2 eexists. split; [done|]. simpl in Hw. lia. }
    destruct (c =? 43)%Z; [by apply Hgo|]. destruct (c =? 45)%Z; [by apply (Hgo (dsub v))|].
    by do 2 eexists; split.
Qed.

Lemma always_enough n : fuel_enough n.
Proof.
  induction n as [n IH] using lt_wf_ind.
  assert (forall f, 4 * n + 2 <= f -> stops (term f) n) as Hterm.
  { intros f Hf s Hs. destruct f as [|f]; [lia|]. rewrite term_S.
    destruct (stops_factor f n IH ltac:(lia) s Hs) as (v & s1 & -> & H1). simpl.
    destruct (proj1 (stops_loops f n IH ltac:(lia)) v s1 ltac:(lia)) as (w & s2 & -> & H2).
    do 2 eexists. split; [done|lia]. }
  split_and!; [|done|].
  - intros f Hf. split; [by apply stops_factor|by apply stops_loops].
  - intros f Hf s Hs. destruct f as [|f]; [lia|]. rewrite sum_S.
    destruct (Hterm f ltac:(lia) s Hs) as (v & s1 & -> & H1). simpl.
    destruct (proj2 (stops_loops f n IH ltac:(lia)) v s1 ltac:(lia)) as (w & s2 & -> & H2).
    do 2 eexists. split; [done|lia].
Qed.

Lemma sum_stops s : exists v s', sum (fuel_for s) s = Some (v, s') /\ length s' <= length s.
Proof. by apply (always_enough (length s)). Qed.
End fuel.

(** ** Termination *)

(** Termination: on every text, for every row and every arithmetic of
    doubles, the descent evaluates to a value within the fuel [4 * length + 3]
    and leaves no more text than it was given. *)
Theorem run_terminates {DB : Double} cols vals expr :
  exists v rest, sum cols vals (fuel_for expr) expr = Some (v, rest) /\ length rest <= length expr /\
    run cols vals expr = Some (if disnan v then NULL else print v).
Proof.
  destruct (sum_stops cols vals expr) as (v & rest & H & Hr). exists v, rest. split_and!; [done..|].
  unfold run. by rewrite H.
Qed.

(** ** The value is that of the tree *)

Section correct.
Context {DB : Double} (cols : list Column) (vals : list bytes).
Abbreviation factor := (factor cols vals).
Abbreviation term := (term cols vals).
Abbreviation term_loop := (term_loop cols vals).
Abbreviation sum := (sum cols vals).
Abbreviation sum_loop := (sum_loop cols vals).
Abbreviation denote := (denote cols vals).

(** [rest] cannot continue a token. *)
Definition ends_token (rest : bytes) : Prop :=
  match rest with [] => True | c :: _ => is_word c = false /\ is_numchar c = false end.

(** [rest] cannot continue a product. *)
Definition ends_term (rest : bytes) : Prop :=
  ends_token rest /\
  match skipWS rest with
  | [] => True
  | c :: s => c <> 42%Z /\ c <> 47%Z /\ atDiv (c :: s) = false
  end.

(** What the descent does with [show lvl e] in front of [rest]. *)
Definition primary_ok (e : expr) : Prop :=
  forall rest neg, ends_token rest ->
    exists f, factor f ((if neg : bool then [45%Z] else []) ++ show 3 e ++ rest) =
      Some (if neg then dneg (denote e) else denote e, rest).
Definition factor_ok (e : expr) : Prop :=
  forall rest, ends_token rest -> exists f, factor f (show 2 e ++ rest) = Some (denote e, rest).
Definition term_ok (e : expr) : Prop :=
  forall rest f y, ends_token rest -> term_loop f (denote e) rest = Some y ->
    exists f', term f' (show 1 e ++ rest) = Some y.
Definition sum_ok (e : expr) : Prop :=
  forall rest f y, ends_term rest -> sum_loop f (denote e) rest = Some y ->
    exists f', sum f' (show 0 e ++ rest) = Some y.

Lemma factor_term_ok e : show 1 e = show 2 e -> factor_ok e -> term_ok e.
Proof.
  intros E H rest f y Hr Hy. destruct (H rest Hr) as [g Hg]. exists (S (max f g)).
  rewrite term_S, E. rewrite (factor_mono cols vals g (max f g) _ _ ltac:(lia) Hg). simpl.
  by apply (term_loop_mono cols vals f); [lia|].
Qed.

Lemma skipWS_idem s : skipWS (skipWS s) = skipWS s.
Proof.
  induction s as [|c s IH]; [done|]. unfold skipWS in *. simpl.
  destruct (c =? 32)%Z eqn:E; [done|]. simpl. by rewrite E.
Qed.

Lemma sum_loop_skipWS f v s : sum_loop f v (skipWS s) = sum_loop f v s.
Proof. destruct f; [done|]. by rewrite !sum_loop_S, skipWS_idem. Qed.

Lemma term_loop_stop v rest : ends_term rest -> term_loop 1 v rest = Some (v, skipWS rest).
Proof.
  intros [_ H]. rewrite term_loop_S. destruct (skipWS rest) as [|c s]; [done|].
  destruct H as (H1 & H2 & H3). by rewrite (proj2 (Z.eqb_neq c 42)), (proj2 (Z.eqb_neq c 47)), H3.
Qed.

Lemma term_sum_ok e : show 0 e = show 1 e -> term_ok e -> sum_ok e.
Proof.
  intros E H rest f y Hr Hy. destruct (H rest 1 _ (proj1 Hr) (term_loop_stop _ _ Hr)) as [g Hg].
  exists (S (max f g)). rewrite sum_S, E. rewrite (term_mono cols vals g (max f g) _ _ ltac:(lia) Hg). cbn.
  rewrite sum_loop_skipWS. by apply (sum_loop_mono cols vals f); [lia|].
Qed.

Lemma not_atDiv c s : to_upper c <> 68%Z -> atDiv (c :: s) = false.
Proof.
  intros H. destruct s as [|i [|v s]]; [done..|]. unfold atDiv.
  by rewrite (proj2 (Z.eqb_neq (to_upper c) 68)).
Qed.

Lemma ends_term_paren rest : ends_term (41%Z :: rest).
Proof. split; [done|]. change (skipWS (41%Z :: rest)) with (41%Z :: rest). split_and!; [done..|]. by apply not_atDiv. Qed.

Lemma ends_term_sum o s : prec o = 0 -> ends_term (32%Z :: symbol o ++ s).
Proof.
  intros H. split; [done|].
  destruct o; try done; cbn; (split_and!; [done..|]); by apply not_atDiv.
Qed.

Lemma sum_primary_ok e :
  show 3 e = 40%Z :: show 0 e ++ [41%Z] -> sum_ok e -> primary_ok e.
Proof.
  intros E H rest neg Hr.
  destruct (H (41%Z :: rest) 1 (denote e, 41%Z :: rest)) as [f Hf]; [apply ends_term_paren|done|].
  exists (S f). rewrite factor_S, E.
  assert (signs false ((if neg : bool then [45%Z] else []) ++ (40%Z :: show 0 e ++ [41%Z]) ++ rest) =
    (neg, 40%Z :: show 0 e ++ 41%Z :: rest)) as -> by (destruct neg; cbn; by rewrite <- app_assoc).
  cbn. by rewrite Hf.
Qed.

Lemma primary_factor_ok e : show 2 e = show 3 e -> primary_ok e -> factor_ok e.
Proof. intros E H rest Hr. destruct (H rest false Hr) as [f Hf]. exists f. by rewrite E. Qed.

(** The operators. *)
Lemma bin_term_ok o l r : prec o = 1 -> term_ok l -> factor_ok r -> term_ok (Bin o l r).
Proof.
  intros Ho Hl Hr rest f y Hrest Hy. destruct (Hr rest Hrest) as [g Hg].
  assert (show 1 (Bin o l r) ++ rest = show 1 l ++ 32%Z :: symbol o ++ 32%Z :: show 2 r ++ rest) as ->.
  { cbn [show]. rewrite Ho. cbn [paren Nat.ltb Nat.leb].
    rewrite <- app_assoc. cbn [app]. by rewrite <- app_assoc. }
  apply (Hl _ (S (max f g)) y); [done|]. rewrite term_loop_S.
  assert (factor (max f g) (32%Z :: show 2 r ++ rest) = Some (denote r, rest)) as Hf.
  { apply (factor_mono cols vals g); [lia|]. destruct g; [done|]. by rewrite factor_S in Hg |- *. }
  assert (forall k, term_loop f (k (denote r)) rest = Some y ->
    ('(r, s) ← factor (max f g) (32%Z :: show 2 r ++ rest); term_loop (max f g) (k r) s) = Some y) as Hgo.
  { intros k Hk. rewrite Hf. cbn. by apply (term_loop_mono cols vals f); [lia|]. }
  destruct o; try done; cbn in Hy |- *; by apply Hgo.
Qed.

Lemma bin_sum_ok o l r : prec o = 0 -> sum_ok l -> term_ok r -> sum_ok (Bin o l r).
Proof.
  intros Ho Hl Hr rest f y Hrest Hy.
  destruct (Hr rest 1 _ (proj1 Hrest) (term_loop_stop _ _ Hrest)) as [g Hg].
  assert (show 0 (Bin o l r) ++ rest = show 0 l ++ 32%Z :: symbol o ++ 32%Z :: show 1 r ++ rest) as ->.
  { cbn [show]. rewrite Ho. cbn [paren Nat.ltb Nat.leb].
    rewrite <- app_assoc. cbn [app]. by rewrite <- app_assoc. }
  apply (Hl _ (S (max f g)) y); [by apply ends_term_sum|]. rewrite sum_loop_S.
  assert (term (max f g) (32%Z :: show 1 r ++ rest) = Some (denote r, skipWS rest)) as Hf.
  { apply (term_mono cols vals g); [lia|]. destruct g; [done|]. rewrite term_S in Hg |- *.
    destruct g; [done|]. by rewrite factor_S in Hg |- *. }
  assert (forall k, sum_loop f (k (denote r)) rest = Some y ->
    ('(r, s) ← term (max f g) (32%Z :: show 1 r ++ rest); sum_loop (max f g) (k r) s) = Some y) as Hgo.
  { intros k Hk. rewrite Hf. cbn. rewrite sum_loop_skipWS. by apply (sum_loop_mono cols vals f); [lia|]. }
  destruct o; try done; cbn in Hy |- *; by apply Hgo.
Qed.

(** Literals, names and signs. *)
Lemma token_primary e c t :
  show 3 e = c :: t -> c <> 32%Z -> c <> 45%Z -> c <> 43%Z -> c <> 40%Z ->
  (forall rest, ends_token rest -> atom cols vals ((c :: t) ++ rest) = (denote e, rest)) -> primary_ok e.
Proof.
  intros E H1 H2 H3 H4 H rest neg Hr. exists 1. rewrite factor_S, E.
  assert (forall b, signs b ((c :: t) ++ rest) = (b, (c :: t) ++ rest)) as Hs.
  { intros b. cbn. by rewrite (proj2 (Z.eqb_neq c 32)), (proj2 (Z.eqb_neq c 45)), (proj2 (Z.eqb_neq c 43)). }
  assert (signs false ((if neg : bool then [45%Z] else []) ++ (c :: t) ++ rest) = (neg, (c :: t) ++ rest)) as ->
    by (destruct neg; apply Hs).
  cbn [app]. rewrite (proj2 (Z.eqb_neq c 40)) by done. cbn [app] in H. rewrite H by done. by destruct neg.
Qed.

Lemma atom_num d rest :
  d <> [] -> Forall (fun c => is_numchar c = true) d -> ends_token rest ->
  atom cols vals (d ++ rest) = (default dzero (stod d), rest).
Proof.
  intros Hne Hd Hr. unfold atom.
  destruct (take_while_all is_numchar d rest Hd) as [-> ->]; [by destruct rest; [|apply Hr]|].
  by destruct d.
Qed.

Lemma atom_word t rest :
  (match t with c :: _ => is_numchar c = false | [] => False end) ->
  Forall (fun c => is_word c = true) t -> ends_token rest ->
  atom cols vals (t ++ rest) = (ident_value cols vals t, rest).
Proof.
  intros Hc Ht Hr. unfold atom. destruct t as [|c t]; [done|].
  assert (take_while is_numchar ((c :: t) ++ rest) = []) as -> by (cbn; by rewrite Hc).
  destruct (take_while_all is_word (c :: t) rest Ht) as [-> ->]; [by destruct rest; [|apply Hr]|done].
Qed.

Lemma word_not_op c : is_word c = true -> c <> 32%Z /\ c <> 45%Z /\ c <> 43%Z /\ c <> 40%Z.
Proof. intros H. split_and!; intros ->; done. Qed.
Lemma numchar_not_op c : is_numchar c = true -> c <> 32%Z /\ c <> 45%Z /\ c <> 43%Z /\ c <> 40%Z.
Proof. intros H. split_and!; intros ->; done. Qed.

Lemma token_ok e :
  show 0 e = show 1 e -> show 1 e = show 2 e -> show 2 e = show 3 e -> primary_ok e ->
  primary_ok e /\ factor_ok e /\ term_ok e /\ sum_ok e.
Proof. auto 10 using primary_factor_ok, factor_term_ok, term_sum_ok. Qed.

Lemma all_ok e : wf_expr e -> primary_ok e /\ factor_ok e /\ term_ok e /\ sum_ok e.
Proof.
  induction e as [d|t| |e IH|o l IHl r IHr]; intros W.
  - assert (primary_ok (Num d)) as P; [|by apply token_ok].
    destruct W as [Hne Hd]. destruct d as [|c d]; [done|].
    destruct (numchar_not_op c) as (?&?&?&?); [by inversion Hd|].
    apply (token_primary _ c d); [done..|]. intros. by apply atom_num.
  - assert (primary_ok (Name t)) as P; [|by apply token_ok].
    destruct W as (Hc & Ht & Hn & Hs). destruct t as [|c t]; [done|].
    destruct (word_not_op c) as (?&?&?&?); [by inversion Ht|].
    apply (token_primary _ c t); [done..|]. intros rest Hr. rewrite atom_word by done. f_equal.
    unfold ident_value, bytes_eqb. by rewrite bool_decide_false, Hs.
  - assert (primary_ok Null) as P; [|by apply token_ok].
    apply (token_primary _ 78%Z (str "ULL")); [done..|]. intros rest Hr.
    by rewrite (atom_word (78%Z :: str "ULL")) by (try done; by_decide).
  - destruct (IH W) as (P & _).
    assert (factor_ok (Opp e)) as F.
    { intros rest Hr. destruct (P rest true Hr) as [f Hf]. by exists f. }
    assert (sum_ok (Opp e)) as S by by eauto using factor_term_ok, term_sum_ok.
    auto 10 using sum_primary_ok, factor_term_ok.
  - destruct W as [Wl Wr]. destruct (IHl Wl) as (_ & _ & Tl & Sl), (IHr Wr) as (_ & Fr & Tr & _).
    destruct (prec o) as [|[|]] eqn:Ho; [| |by destruct o].
    + assert (sum_ok (Bin o l r)) as S by by apply bin_sum_ok.
      assert (primary_ok (Bin o l r)) as P by (apply sum_primary_ok; [simpl; by rewrite Ho|done]).
      assert (factor_ok (Bin o l r)) as F by (apply primary_factor_ok; [simpl; by rewrite Ho|done]).
      split_and!; try done. apply factor_term_ok; [simpl; by rewrite Ho|done].
    + assert (term_ok (Bin o l r)) as T by by apply bin_term_ok.
      assert (sum_ok (Bin o l r)) as S by (apply term_sum_ok; [simpl; by rewrite Ho|done]).
      assert (primary_ok (Bin o l r)) as P by (apply sum_primary_ok; [simpl; by rewrite Ho|done]).
      split_and!; try done. apply primary_factor_ok; [simpl; by rewrite Ho|done].
Qed.
End correct.

(** The descent reaches the value of the tree. *)
Lemma sum_show {DB : Double} cols vals e :
  wf_expr e -> exists rest, sum cols vals (fuel_for (show 0 e)) (show 0 e) = Some (denote cols vals e, rest).
Proof.
  intros W. destruct (all_ok cols vals e W) as (_ & _ & _ & HS).
  destruct (HS [] 1 (denote cols vals e, [])) as [f Hf]; [by split|done|].
  rewrite app_nil_r in Hf. destruct (sum_stops cols vals (show 0 e)) as (v & rest & H & _).
  apply (sum_mono _ _ _ (max f (fuel_for (show 0 e)))) in Hf; [|lia].
  assert (sum cols vals (max f (fuel_for (show 0 e))) (show 0 e) = Some (v, rest)) as H2
    by (by eapply sum_mono; [|exact H]; lia).
  rewrite H. rewrite H2 in Hf. injection Hf as -> ->. by eexists.
Qed.

(** The evaluator computes the value of the expression: for every
    well-formed tree, evaluating its text [show 0 e] gives the value of the
    tree - products before sums, equal levels from left to right, a sign
    before everything, division by zero 0, NULL where the value is not a
    number. *)
Theorem run_show {DB : Double} cols vals e :
  wf_expr e ->
  run cols vals (show 0 e) =
    Some (if disnan (denote cols vals e) then NULL else print (denote cols vals e)).
Proof. intros W. destruct (sum_show cols vals e W) as [rest H]. unfold run. by rewrite H. Qed.

(** ** A concrete arithmetic *)

(** The characters [scan_int] reads. *)
Definition scan_length (s : bytes) : nat :=
  let t := drop_while is_space s in
  let u := match t with c :: t' => if (c =? 45)%Z || (c =? 43)%Z then t' else t | [] => t end in
  length s - length (drop_while is_digit u).

(** Integers, with [None] for NaN: enough to run the evaluator. *)
#[export] Instance IntDouble : Double := {
  dbl := option Z; dzero := Some 0%Z; dnan := None;
  dadd a b := x ← a; y ← b; Some (x + y)%Z;
  dsub a b := x ← a; y ← b; Some (x - y)%Z;
  dmul a b := x ← a; y ← b; Some (x * y)%Z;
  ddiv a b := x ← a; y ← b; Some (Z.quot x y);
  dneg a := Z.opp <$> a; dtrunc a := a;
  disnan a := bool_decide (a = None); diszero a := bool_decide (a = Some 0%Z);
  deq a b := match a, b with Some x, Some y => (x =? y)%Z | _, _ => false end;
  dlt a b := match a, b with Some x, Some y => (x <? y)%Z | _, _ => false end;
  dle a b := match a, b with Some x, Some y => (x <=? y)%Z | _, _ => false end;
  stod_pos s := '(neg, n) ← scan_int s; Some (Some (if (neg : bool) then - n else n)%Z, scan_length s);
  print a := from_option to_string [] a }.

(** A row with the columns [t.a] and [b]. *)
Definition ex_cols : list Column := [column (str "t.a") (str "INT"); column (str "b") (str "INT")].
Definition ex_vals : list bytes := [str "7"; str "-2"].

(** [2 * (a - 10) DIV -b + 1] *)
Definition ex_expr : expr :=
  Bin Plus (Bin Div (Bin Times (Num (str "2")) (Bin Minus (Name (str "a")) (Num (str "10"))))
                    (Opp (Name (str "b"))))
           (Num (str "1")).

Example show_ex : show 0 ex_expr = str "2 * (a - 10) DIV -b + 1".
Proof. by vm_compute. Qed.

Example run_ex : run ex_cols ex_vals (str "2 * (a - 10) DIV -b + 1") = Some (str "-2").
Proof. by vm_compute. Qed.

Lemma run_show_witness :
  run ex_cols ex_vals (show 0 ex_expr) =
    Some (if disnan (denote ex_cols ex_vals ex_expr) then NULL else print (denote ex_cols ex_vals ex_expr)).
Proof.
  apply (run_show ex_cols ex_vals ex_expr). repeat split; try (by vm_compute); try by_decide.
Defined.

(** ** Names that start like a number

    [std::stod] accepts a prefix, and knows "inf" and "nan": such a name never
    denotes its column. *)
Lemma numeric_name_shadows {DB : Double} cols vals t v :
  stod t = Some v -> upper t <> NULL -> ident_value cols vals t = v.
Proof. intros H Hn. unfold ident_value, bytes_eqb. by rewrite bool_decide_false, H. Qed.
