(* ===== verification/Caches.v ===== *)
(** * Result and statement caches
    ([src/cache/user_query_cache.hpp], [src/cache/statement_cache.hpp], and the
    use [src/server/http_server.hpp] makes of the first)

    The per-user result cache keeps a list of nodes, most recently used first,
    and an index of iterators into it.  An iterator is the address of its node;
    following one to a node that was erased is undefined behaviour, [None].
    The cache is shown never to do that and to refine a map without eviction
    from which entries only disappear by invalidation, flush or age. *)

From S2P Require Import Prelude.

(** ** [std::list] and its iterators *)

Section stdlist.
Context {A : Type}.
Implicit Types l : list (nat * A).

Fixpoint deref (it : nat) l : option A :=
  match l with
  | [] => None
  | n :: l' => if decide (n.1 = it) then Some n.2 else deref it l'
  end.

Definition erase (it : nat) l : list (nat * A) := filter (fun n => n.1 <> it) l.

(** [lru.splice(lru.begin(), lru, it)] *)
Definition splice (it : nat) (x : A) l : list (nat * A) := (it, x) :: erase it l.
End stdlist.

(** *** Lemmas on lists with iterators *)

Lemma deref_elem {A} it (x : A) l : deref it l = Some x -> (it, x) ∈ l.
Proof.
  induction l as [|[j y] l IH]; [done|]. cbn. case_decide as E.
  - intros [= ->]. simpl in E. subst. apply list_elem_of_here.
  - intros H. apply list_elem_of_further. auto.
Qed.

Lemma elem_deref {A} it (x : A) l : NoDup l.*1 -> (it, x) ∈ l -> deref it l = Some x.
Proof.
  induction l as [|[j y] l IH]; [by intros _ ?%not_elem_of_nil|].
  rewrite fmap_cons, NoDup_cons, elem_of_cons. intros [Hj Hl] [[= -> ->]|H]; cbn.
  - by rewrite decide_True.
  - rewrite decide_False; [auto|]. intros ->. apply Hj, list_elem_of_fmap. by exists (it, x).
Qed.

Lemma elem_of_erase {A} it (n : nat * A) l : n ∈ erase it l <-> n ∈ l /\ n.1 <> it.
Proof. unfold erase. rewrite list_elem_of_filter. tauto. Qed.

Lemma list_filter_id {A} (P : A -> Prop) `{!forall x, Decision (P x)} (l : list A) :
  (forall x, x ∈ l -> P x) -> filter P l = l.
Proof.
  induction l as [|x l IH]; intros HP; [done|].
  rewrite filter_cons_True by apply HP, list_elem_of_here. f_equal. apply IH. intros y Hy.
  by apply HP, list_elem_of_further.
Qed.

Lemma NoDup_fmap_filter {A B} (f : A -> B) (P : A -> Prop) `{!forall x, Decision (P x)} (l : list A) :
  NoDup (f <$> l) -> NoDup (f <$> filter P l).
Proof.
  induction l as [|x l IH]; [done|]. rewrite fmap_cons, NoDup_cons. intros [Hx Hl].
  rewrite filter_cons. case_decide; [|auto]. rewrite fmap_cons, NoDup_cons. split; [|auto].
  rewrite list_elem_of_fmap in Hx |- *. intros (y & E & Hy). apply Hx. exists y.
  by apply list_elem_of_filter in Hy as [_ Hy].
Qed.

Lemma list_filter_len_lt {A} (P : A -> Prop) `{!forall x, Decision (P x)} (l : list A) x :
  x ∈ l -> ~ P x -> length (filter P l) < length l.
Proof.
  intros Hx HP. induction l as [|y l IH]; [by apply not_elem_of_nil in Hx|].
  rewrite filter_cons. pose proof (length_filter P l). apply elem_of_cons in Hx as [<-|Hx].
  - rewrite decide_False by done. simpl. lia.
  - apply IH in Hx. case_decide; simpl; lia.
Qed.

Lemma erase_notin {A} it (l : list (nat * A)) : it ∉ l.*1 -> erase it l = l.
Proof.
  intros H. unfold erase. apply list_filter_id. intros n Hn E. apply H, list_elem_of_fmap. eauto.
Qed.

(** Erasing the last node of a list is [pop_back]. *)
Lemma erase_back {A} (l : list (nat * A)) b : NoDup (l ++ [b]).*1 -> erase b.1 (l ++ [b]) = l.
Proof.
  rewrite fmap_app, NoDup_app. intros (_ & H & _). unfold erase. rewrite filter_app, filter_cons_False by auto.
  rewrite app_nil_r. apply erase_notin. intros Hb. apply (H b.1 Hb), list_elem_of_here.
Qed.

(** ** SQL text as a key *)

(** One blank for a run of blanks, none in front. *)
Fixpoint collapse (f : byte -> byte) (lastWasSpace : bool) (acc s : bytes) : bytes :=
  match s with
  | [] => acc
  | c :: s' =>
      if is_space c then
        if negb lastWasSpace && negb (bool_decide (acc = [])) then collapse f true (acc ++ [32%Z]) s'
        else collapse f lastWasSpace acc s'
      else collapse f false (acc ++ [f c]) s'
  end.

(** [while (!s.empty() && s.back() == c) s.pop_back();] *)
Definition strip_back (c : byte) (s : bytes) : bytes :=
  rev (drop_while (fun x => x =? c)%Z (rev s)).

Definition normalizeSql (sql : bytes) : bytes :=
  strip_back 59 (strip_back 32 (collapse to_upper false [] sql)).

Definition makeKey (user sql : bytes) : bytes := user ++ 1%Z :: normalizeSql sql.

(** ** [UserQueryCache] *)

Module UserQueryCache.

Record LRUNode := mkNode { key : bytes; result : bytes; tableName : bytes; cachedAt : Z }.

(** [fresh] is the address the next node gets.  Times are nanoseconds. *)
Record State := mkState {
  lru_ : list (nat * LRUNode); index_ : gmap bytes nat;
  maxEntries_ : nat; enabled_ : bool; hits_ : Z; misses_ : Z; fresh : nat }.

Definition init : State := mkState [] ∅ 256 true 0 0 0.

Definition set_lru l ix (st : State) : State :=
  mkState l ix (maxEntries_ st) (enabled_ st) (hits_ st) (misses_ st) (fresh st).
Definition miss (st : State) : State :=
  mkState (lru_ st) (index_ st) (maxEntries_ st) (enabled_ st) (hits_ st) (misses_ st + 1)%Z (fresh st).
Definition hit (st : State) : State :=
  mkState (lru_ st) (index_ st) (maxEntries_ st) (enabled_ st) (hits_ st + 1)%Z (misses_ st) (fresh st).

(** [duration_cast<seconds>] *)
Definition seconds (d : Z) : Z := Z.quot d 1000000000.

Definition get (now : Z) (user sql : bytes) (st : State) : option (State * option bytes) :=
  if negb (enabled_ st) then Some (st, None)
  else
    let k := makeKey user sql in
    match index_ st !! k with
    | None => Some (miss st, None)
    | Some it =>
        n ← deref it (lru_ st);
        if (30 <? seconds (now - cachedAt n))%Z then
          Some (miss (set_lru (erase it (lru_ st)) (delete k (index_ st)) st), None)
        else Some (hit (set_lru (splice it n (lru_ st)) (index_ st) st), Some (result n))
    end.

(** [while (full(lru_.size())) ] evict the last node. *)
Fixpoint evict (fuel : nat) (full : nat -> bool) (l : list (nat * LRUNode)) (ix : gmap bytes nat)
  : option (list (nat * LRUNode) * gmap bytes nat) :=
  match fuel with
  | O => None
  | S f =>
      if full (length l) then
        back ← last l;
        evict f full (removelast l) (delete (key back.2) ix)
      else Some (l, ix)
  end.

Definition put (now : Z) (user sql res tbl : bytes) (st : State) : option State :=
  if negb (enabled_ st) then Some st
  else
    let k := makeKey user sql in
    let '(l, ix) :=
      match index_ st !! k with
      | Some it => (erase it (lru_ st), delete k (index_ st))
      | None => (lru_ st, index_ st)
      end in
    '(l, ix) ← evict (S (length l)) (fun n => maxEntries_ st <=? n) l ix;
    Some (mkState ((fresh st, mkNode k res tbl now) :: l) (<[k := fresh st]> ix)
            (maxEntries_ st) (enabled_ st) (hits_ st) (misses_ st) (S (fresh st))).

Definition upper (s : bytes) : bytes := map to_upper s.

(** The nodes of the table go, with their index entries. *)
Definition touches (tbl : bytes) (n : LRUNode) : bool := bytes_eqb (upper (tableName n)) (upper tbl).

Definition invalidate (tbl : bytes) (st : State) : State :=
  set_lru (filter (fun n => touches tbl n.2 = false) (lru_ st))
          (foldr (fun n ix => if touches tbl n.2 then delete (key n.2) ix else ix) (index_ st) (lru_ st)) st.

Definition flush (st : State) : State := set_lru [] ∅ st.

Definition setMaxEntries (n : nat) (st : State) : option State :=
  let m := if n =? 0 then 1 else n in
  '(l, ix) ← evict (S (length (lru_ st))) (fun k => m <? k) (lru_ st) (index_ st);
  Some (mkState l ix m (enabled_ st) (hits_ st) (misses_ st) (fresh st)).

Definition setEnabled (b : bool) (st : State) : State :=
  mkState (lru_ st) (index_ st) (maxEntries_ st) b (hits_ st) (misses_ st) (fresh st).

Definition resetCounters (st : State) : State :=
  mkState (lru_ st) (index_ st) (maxEntries_ st) (enabled_ st) 0 0 (fresh st).

(** *** Histories *)

Inductive event :=
| Get (now : Z) (user sql : bytes)
| Put (now : Z) (user sql res tbl : bytes)
| Invalidate (tbl : bytes)
| Flush
| SetMaxEntries (n : nat)
| SetEnabled (b : bool)
| ResetCounters.

Definition step (e : event) (st : State) : option State :=
  match e with
  | Get now user sql => fst <$> get now user sql st
  | Put now user sql res tbl => put now user sql res tbl st
  | Invalidate tbl => Some (invalidate tbl st)
  | Flush => Some (flush st)
  | SetMaxEntries n => setMaxEntries n st
  | SetEnabled b => Some (setEnabled b st)
  | ResetCounters => Some (resetCounters st)
  end.

Fixpoint exec (es : list event) (st : State) : option State :=
  match es with [] => Some st | e :: es' => st' ← step e st; exec es' st' end.

(** *** The specification: what was put, by user and normalized text *)

Record entry := mkEntry { e_sql : bytes; e_result : bytes; e_table : bytes; e_time : Z }.
Abbreviation spec := (gmap (bytes * bytes) entry).

Definition spec_step (e : event) (s : bool * spec) : bool * spec :=
  match e with
  | Put now user sql res tbl =>
      (s.1, if s.1 then <[(user, normalizeSql sql) := mkEntry sql res tbl now]> s.2 else s.2)
  | Invalidate tbl => (s.1, filter (fun p => bytes_eqb (upper (e_table p.2)) (upper tbl) = false) s.2)
  | Flush => (s.1, ∅)
  | SetEnabled b => (b, s.2)
  | _ => s
  end.

Definition spec_of (es : list event) : bool * spec := foldl (fun s e => spec_step e s) (true, ∅) es.

(** The users of a history; the separator of the key does not occur in them. *)
Definition user_ok (u : bytes) : Prop := 1%Z ∉ u.
Definition event_ok (e : event) : Prop :=
  match e with Put _ u _ _ _ => user_ok u | _ => True end.

(** *** The list and the index agree *)

Definition agree (l : list (nat * LRUNode)) (ix : gmap bytes nat) : Prop :=
  NoDup l.*1 /\ forall k it, ix !! k = Some it <-> exists n, (it, n) ∈ l /\ key n = k.

Lemma agree_same l ix it it' n n' :
  agree l ix -> (it, n) ∈ l -> (it', n') ∈ l -> key n = key n' -> it = it'.
Proof.
  intros [_ H] H1 H2 E. assert (ix !! key n = Some it) as A1 by (apply H; eauto).
  assert (ix !! key n = Some it') as A2 by (apply H; eauto). congruence.
Qed.

Lemma agree_node l ix it n n' : agree l ix -> (it, n) ∈ l -> (it, n') ∈ l -> n = n'.
Proof. intros [Hn _] H1%elem_deref H2%elem_deref; [congruence|done..]. Qed.

Lemma agree_filter (P : nat * LRUNode -> Prop) `{!forall n, Decision (P n)} l ix ix' :
  agree l ix ->
  (forall k it, ix' !! k = Some it <-> ix !! k = Some it /\ forall n, (it, n) ∈ l -> P (it, n)) ->
  agree (filter P l) ix'.
Proof.
  intros Ha Hix. split.
  - by apply NoDup_fmap_filter, Ha.
  - intros k it. rewrite Hix, (proj2 Ha). split.
    + intros [(n & Hn & E) HP]. exists n. rewrite list_elem_of_filter. auto.
    + intros (n & Hn & E). apply list_elem_of_filter in Hn as [HP Hn]. split; [eauto|].
      intros n' Hn'. by rewrite (agree_node l ix it n' n).
Qed.

Lemma agree_erase l ix k it : agree l ix -> ix !! k = Some it -> agree (erase it l) (delete k ix).
Proof.
  intros Ha Hk. apply (agree_filter _ l ix); [done|]. intros k' it'. cbn.
  rewrite lookup_delete_Some. split.
  - intros [Hne Hk']. split; [done|]. intros _ _ ->. apply (proj2 Ha) in Hk as (n & Hn & E).
    apply (proj2 Ha) in Hk' as (n' & Hn' & E'). by rewrite (agree_node l ix it n n') in E by done; subst.
  - intros [Hk' HP]. split; [|done]. intros <-. rewrite Hk in Hk'. injection Hk' as <-.
    apply (proj2 Ha) in Hk as (n & Hn & _). by apply (HP n).
Qed.

Lemma agree_cons l ix it n :
  agree l ix -> it ∉ l.*1 -> (forall m, m ∈ l -> key m.2 <> key n) -> agree ((it, n) :: l) (<[key n := it]> ix).
Proof.
  intros Ha Hit Hk. split; [rewrite fmap_cons; by constructor; [|apply Ha]|].
  intros k j. rewrite lookup_insert_Some, (proj2 Ha). split.
  - intros [[<- <-]|(Hne & m & Hm & E)]; [exists n|exists m]; rewrite elem_of_cons; auto.
  - intros (m & Hm & E). apply elem_of_cons in Hm as [[= -> ->]|Hm]; [auto|]. right. split; [|eauto].
    intros E'. apply (Hk _ Hm). simpl. congruence.
Qed.

(** *** Eviction *)

(** The loop ends with what fits, dropping nodes from the back only. *)
Lemma evict_spec f full l ix :
  agree l ix -> length l < f -> (forall n, full n = true -> 0 < n) ->
  exists k, k <= length l /\
    evict f full l ix = Some (take k l, foldr (fun n m => delete (key n.2) m) ix (drop k l)) /\
    agree (take k l) (foldr (fun n m => delete (key n.2) m) ix (drop k l)) /\ full k = false /\
    (forall j, k < j <= length l -> full j = true).
Proof.
  intros Ha Hf Hfull. revert l ix Ha Hf. induction f as [|f IH]; intros l ix Ha Hf; [lia|].
  cbn [evict]. destruct (full (length l)) eqn:E.
  2:{ exists (length l). rewrite firstn_all, drop_all. simpl. split_and!; try done. intros; lia. }
  apply Hfull in E as Hpos. destruct l as [|b l _] using rev_ind; [simpl in Hpos; lia|].
  rewrite last_snoc. cbn [mbind option_bind]. rewrite removelast_last.
  rewrite length_app in E, Hf, Hpos |- *. simpl in E, Hf, Hpos |- *.
  assert (agree l (delete (key b.2) ix)) as Ha'.
  { assert (l = erase b.1 (l ++ [b])) as El by (symmetry; apply erase_back, Ha).
    rewrite El at 1. apply agree_erase; [done|]. apply (proj2 Ha). exists b.2.
    split; [|done]. apply elem_of_app. right. destruct b. apply list_elem_of_here. }
  destruct (IH l _ Ha' ltac:(lia)) as (k & Hk & -> & Hag & Hfk & Hj). exists k.
  rewrite take_app_le, drop_app_le, foldr_app by lia. simpl. split_and!; try done; [lia|].
  intros j Hj'. destruct (decide (j = length l + 1)) as [->|]; [done|]. apply Hj. lia.
Qed.

(** *** The state invariant *)

Record wf (st : State) : Prop := {
  wf_agree : agree (lru_ st) (index_ st);
  wf_fresh : forall n, n ∈ lru_ st -> n.1 < fresh st;
  wf_max : 1 <= maxEntries_ st;
  wf_size : length (lru_ st) <= maxEntries_ st }.

(** Every node was put, and the specification still has it. *)
Definition backed (sp : spec) (n : LRUNode) : Prop :=
  exists u e, user_ok u /\ key n = makeKey u (e_sql e) /\ sp !! (u, normalizeSql (e_sql e)) = Some e /\
    result n = e_result e /\ tableName n = e_table e /\ cachedAt n = e_time e.

Record refines (st : State) (s : bool * spec) : Prop := {
  ref_wf : wf st;
  ref_enabled : enabled_ st = s.1;
  ref_backed : forall n, n ∈ lru_ st -> backed s.2 n.2 }.

Lemma makeKey_inj u1 s1 u2 s2 :
  user_ok u1 -> user_ok u2 -> makeKey u1 s1 = makeKey u2 s2 -> u1 = u2 /\ normalizeSql s1 = normalizeSql s2.
Proof.
  unfold makeKey, user_ok. revert u2. induction u1 as [|c u1 IH]; intros [|d u2] H1 H2 E; simpl in E.
  - by injection E.
  - injection E as E _. destruct H2. rewrite <- E. apply list_elem_of_here.
  - injection E as E _. destruct H1. rewrite E. apply list_elem_of_here.
  - injection E as -> E. rewrite not_elem_of_cons in H1, H2. destruct (IH u2) as [-> ->]; tauto.
Qed.

(** *** Every operation refines the specification *)

Lemma init_refines : refines init (true, ∅).
Proof.
  split; [|done|by intros n ?%not_elem_of_nil]. split; simpl; try lia; [|by intros n ?%not_elem_of_nil].
  split; [constructor|]. intros k it. rewrite lookup_empty. split; [done|].
  by intros (n & ?%not_elem_of_nil & _).
Qed.

(** Nodes and index entries may go. *)
Lemma refines_sub st s l ix st' s' :
  refines st s -> agree l ix -> (forall n, n ∈ l -> n ∈ lru_ st /\ backed s'.2 n.2) -> length l <= length (lru_ st) ->
  lru_ st' = l -> index_ st' = ix -> maxEntries_ st' = maxEntries_ st -> enabled_ st' = s'.1 -> fresh st' = fresh st ->
  refines st' s'.
Proof.
  intros [[Ha Hf Hm Hs] He Hb] Hag Hin Hlen El Ei Em Ee Ef.
  split; [split| |]; rewrite ?El, ?Ei, ?Em, ?Ef; try done; [|lia|].
  - intros n Hn. by apply Hf, Hin.
  - intros n Hn. by apply Hin.
Qed.

Lemma length_erase {A} it (l : list (nat * A)) : length (erase it l) <= length l.
Proof. apply length_filter. Qed.

Lemma get_refines now user sql st s :
  refines st s ->
  exists st' out, get now user sql st = Some (st', out) /\ refines st' s /\
    (user_ok user -> forall r, out = Some r ->
      exists e, s.2 !! (user, normalizeSql sql) = Some e /\ r = e_result e /\ (seconds (now - e_time e) <= 30)%Z).
Proof.
  intros R. unfold get. destruct (enabled_ st); [|by do 2 eexists]. cbn [negb].
  destruct (index_ st !! _) as [it|] eqn:Ek.
  2:{ do 2 eexists. split; [done|]. split; [|done]. destruct R as [[] ? ?]. by split. }
  pose proof (wf_agree _ (ref_wf _ _ R)) as Ha.
  destruct (proj1 (proj2 Ha _ _) Ek) as (n & Hn & En). rewrite (elem_deref it n) by (apply Ha || done).
  cbn [mbind option_bind]. pose proof (agree_erase _ _ _ _ Ha Ek) as Ha'.
  destruct (Z.ltb_spec 30 (seconds (now - cachedAt n))) as [Hold|Hnew]; do 2 eexists; (split; [done|]).
  - split; [|done]. apply (refines_sub st s (erase it (lru_ st)) _ _ _ R Ha'); try done; [|apply length_erase|apply R].
    intros m [Hm _]%elem_of_erase. split; [done|]. by apply (ref_backed _ _ R).
  - split.
    + assert (agree (splice it n (lru_ st)) (index_ st)) as Hag.
      { rewrite <- (insert_delete_id (index_ st) (makeKey user sql) it), <- En by done. apply agree_cons.
        - by rewrite En.
        - rewrite list_elem_of_fmap. intros (m & Em & Hm). apply elem_of_erase in Hm as [_ Hm]. by rewrite Em in Hm.
        - intros m [Hm Hne]%elem_of_erase E. apply Hne. destruct m as [j m].
          by apply (agree_same _ _ _ _ _ _ Ha Hm Hn). }
      assert (forall m, m ∈ splice it n (lru_ st) -> m ∈ lru_ st) as Hsub.
      { intros m [->|Hm]%elem_of_cons; [done|]. by apply elem_of_erase in Hm as [? _]. }
      apply (refines_sub st s (splice it n (lru_ st)) _ _ _ R Hag); try done; [| |apply R].
      * intros m Hm. split; [by apply Hsub|]. by apply (ref_backed _ _ R), Hsub.
      * unfold splice. simpl. apply (list_filter_len_lt _ _ (it, n)); auto.
    + intros Hu r [= <-]. destruct (ref_backed _ _ R _ Hn) as (u & e & Hu' & Hk & He & Hr & _ & Ht).
      simpl in Hk, Hr, Ht. rewrite En in Hk. destruct (makeKey_inj _ _ _ _ Hu Hu' Hk) as [<- HN].
      exists e. rewrite HN, <- Ht. auto.
Qed.

Lemma elem_of_take_in {A} (x : A) k l : x ∈ take k l -> x ∈ l.
Proof. intros H. rewrite <- (take_drop k l). apply elem_of_app. by left. Qed.

(** [put] replaces the entry of its key. *)
Lemma put_spec now user sql res tbl st :
  wf st -> enabled_ st = true ->
  exists l ix, put now user sql res tbl st =
      Some (mkState ((fresh st, mkNode (makeKey user sql) res tbl now) :: l)
              (<[makeKey user sql := fresh st]> ix) (maxEntries_ st) true (hits_ st) (misses_ st) (S (fresh st))) /\
    agree l ix /\ (forall n, n ∈ l -> n ∈ lru_ st /\ key n.2 <> makeKey user sql) /\ length l < maxEntries_ st.
Proof.
  intros [Ha Hf Hm Hs] He. unfold put. rewrite He. cbn [negb].
  assert (exists l0 ix0, (match index_ st !! makeKey user sql with
      | Some it => (erase it (lru_ st), delete (makeKey user sql) (index_ st))
      | None => (lru_ st, index_ st) end) = (l0, ix0) /\ agree l0 ix0 /\
    (forall n, n ∈ l0 -> n ∈ lru_ st /\ key n.2 <> makeKey user sql)) as (l0 & ix0 & -> & Ha0 & Hsub).
  { destruct (index_ st !! makeKey user sql) as [it|] eqn:Ek; do 2 eexists; (split; [done|]).
    - split; [by apply agree_erase|]. intros [j m] [Hm' Hne]%elem_of_erase. split; [done|]. intros E.
      assert (index_ st !! makeKey user sql = Some j) as Hj by (apply (proj2 Ha); eauto).
      rewrite Ek in Hj. by injection Hj as ->.
    - split; [done|]. intros [j m] Hm'. split; [done|]. intros E.
      assert (index_ st !! makeKey user sql = Some j) as Hj by (apply (proj2 Ha); eauto). congruence. }
  destruct (evict_spec (S (length l0)) (fun n => maxEntries_ st <=? n) l0 ix0) as (k & Hk & -> & Hag & Hfk & _);
    [done|lia|intros n ?%Nat.leb_le; lia|].
  cbn [mbind option_bind]. do 2 eexists. split; [done|]. split_and!; [done| |].
  - intros n Hn%elem_of_take_in. auto.
  - apply Nat.leb_gt in Hfk. rewrite length_take. lia.
Qed.

Lemma put_refines now user sql res tbl st s :
  refines st s -> user_ok user ->
  exists st', put now user sql res tbl st = Some st' /\ refines st' (spec_step (Put now user sql res tbl) s).
Proof.
  intros R Hu. destruct (enabled_ st) eqn:He.
  2:{ exists st. split; [unfold put; by rewrite He|]. destruct s as [b sp]. pose proof (ref_enabled _ _ R) as E.
      rewrite He in E. simpl in E. by subst b. }
  destruct R as [W E B]. destruct (put_spec now user sql res tbl st W He) as (l & ix & -> & Ha & Hsub & Hlen).
  eexists. split; [done|]. destruct s as [b sp]. simpl in E. rewrite He in E. subst b. cbn [spec_step fst snd].
  assert (fresh st ∉ l.*1) as Hfresh.
  { rewrite list_elem_of_fmap. intros (n & En & Hn). apply Hsub in Hn as [Hn _].
    apply (wf_fresh _ W) in Hn. lia. }
  split; [split| |]; simpl; [|  |apply W|lia|done|].
  - apply (agree_cons l ix (fresh st) (mkNode (makeKey user sql) res tbl now)); [done..|].
    intros m Hn. by apply Hsub.
  - intros n [->|Hn]%elem_of_cons; [simpl; lia|]. apply Hsub in Hn as [Hn _]. apply (wf_fresh _ W) in Hn. lia.
  - intros n [->|Hn]%elem_of_cons.
    + exists user, (mkEntry sql res tbl now). simpl. by rewrite lookup_insert_eq.
    + apply Hsub in Hn as [Hn Hne]. destruct (B n Hn) as (u & e & Hu' & Hk & He' & Hrest). exists u, e.
      split_and!; try done; try apply Hrest. rewrite lookup_insert_ne; [done|].
      intros [= -> HN]. apply Hne. rewrite Hk. unfold makeKey. by rewrite HN.
Qed.

(** The index entries of the nodes of the table are gone. *)
Lemma invalidate_index (tbl : bytes) (l : list (nat * LRUNode)) (ix : gmap bytes nat) (k : bytes) (it : nat) :
  foldr (fun n (ix : gmap bytes nat) => if touches tbl n.2 then delete (key n.2) ix else ix) ix l !! k = Some it <->
    ix !! k = Some it /\ forall n, n ∈ l -> touches tbl n.2 = true -> key n.2 <> k.
Proof.
  induction l as [|m l IH]; cbn [foldr].
  - split; [|by intros []]. intros H. split; [done|]. by intros n ?%not_elem_of_nil.
  - destruct (touches tbl m.2) eqn:Et; [rewrite lookup_delete_Some, IH|rewrite IH].
    + split.
      * intros (Hne & Hk & Hl). split; [done|]. intros n [->|Hn]%elem_of_cons; auto.
      * intros [Hk Hl]. split; [apply Hl; [apply list_elem_of_here|done]|]. split; [done|].
        intros n Hn. apply Hl. by apply list_elem_of_further.
    + split; intros [Hk Hl]; (split; [done|]); intros n Hn; [apply elem_of_cons in Hn as [->|Hn]|].
      * congruence.
      * by apply Hl.
      * apply Hl. by apply list_elem_of_further.
Qed.

Lemma invalidate_refines tbl st s :
  refines st s -> refines (invalidate tbl st) (spec_step (Invalidate tbl) s).
Proof.
  intros R. pose proof (wf_agree _ (ref_wf _ _ R)) as Ha.
  apply (refines_sub st s (lru_ (invalidate tbl st)) (index_ (invalidate tbl st)) _ _ R); try done; cbn [invalidate set_lru index_ lru_].
  - apply (agree_filter _ (lru_ st) (index_ st)); [done|]. intros k it. rewrite invalidate_index.
    split; intros [Hk Hl]; (split; [done|]); intros n Hn; simpl in *.
    + apply not_true_is_false. intros Ht. apply (Hl _ Hn Ht). simpl.
      apply (proj2 Ha) in Hk as (n' & Hn' & <-). by rewrite (agree_node _ _ _ _ _ Ha Hn Hn').
    + intros Ht E. apply (proj2 Ha) in Hk as (n' & Hn' & E'). destruct n as [j m]. simpl in *.
      assert (j = it) as -> by (eapply agree_same; [exact Ha|done..|congruence]).
      rewrite (Hl m Hn) in Ht. done.
  - intros n [Hp Hn]%list_elem_of_filter. split; [done|].
    destruct (ref_backed _ _ R n Hn) as (u & e & Hu & Hk & He & Hr & Ht & Hc). exists u, e.
    split_and!; try done. simpl. apply map_lookup_filter_Some. split; [done|]. simpl. by rewrite <- Ht.
  - apply length_filter.
  - apply R.
Qed.

Lemma setMaxEntries_refines m st s :
  refines st s -> exists st', setMaxEntries m st = Some st' /\ refines st' s.
Proof.
  intros [W E B]. unfold setMaxEntries. set (m' := if m =? 0 then 1 else m).
  assert (1 <= m') by (unfold m'; destruct (Nat.eqb_spec m 0); lia).
  destruct (evict_spec (S (length (lru_ st))) (fun k => m' <? k) (lru_ st) (index_ st))
    as (k & Hk & -> & Hag & Hfk & _); [apply W|lia|intros n ?%Nat.ltb_lt; lia|].
  eexists. split; [done|]. apply Nat.ltb_ge in Hfk.
  split; [split| |]; simpl; try done.
  - intros n Hn%elem_of_take_in. by apply (wf_fresh _ W).
  - rewrite length_take. lia.
  - intros n Hn%elem_of_take_in. by apply B.
Qed.

Lemma step_refines e st s :
  refines st s -> event_ok e -> exists st', step e st = Some st' /\ refines st' (spec_step e s).
Proof.
  intros R Hok. destruct e as [now u sql|now u sql res tbl|tbl| |m|b|]; cbn [step spec_step].
  - destruct (get_refines now u sql st s R) as (st' & out & -> & R' & _). by exists st'.
  - by apply put_refines.
  - eexists. split; [done|]. by apply invalidate_refines.
  - eexists. split; [done|]. destruct R as [W E B]. split; [split| |]; simpl; try done; try lia; try apply W.
    + split; [constructor|]. intros k it. rewrite lookup_empty. split; [done|]. by intros (n & ?%not_elem_of_nil & _).
    + by intros n ?%not_elem_of_nil.
    + by intros n ?%not_elem_of_nil.
  - by apply setMaxEntries_refines.
  - eexists. split; [done|]. by destruct R as [[] ? ?].
  - eexists. split; [done|]. by destruct R as [[] ? ?].
Qed.

Lemma exec_refines es st s :
  refines st s -> Forall event_ok es ->
  exists st', exec es st = Some st' /\ refines st' (foldl (fun s e => spec_step e s) s es).
Proof.
  intros R H. revert st s R. induction H as [|e es He _ IH]; intros st s R; [by exists st|].
  destruct (step_refines e st s R He) as (st' & E & R'). cbn [exec foldl]. rewrite E. by apply IH.
Qed.

(** The cache refines a map without capacity: after any sequence of
    operations no erased node is followed, the capacity is respected, and a
    hit returns the result that the same user stored for the same normalized
    text at most 30 seconds ago, unless its table was invalidated or the cache
    flushed since. *)
Theorem cache_refines es now user sql :
  Forall event_ok es -> user_ok user ->
  exists st st' out, exec es init = Some st /\ get now user sql st = Some (st', out) /\
    length (lru_ st) <= maxEntries_ st /\
    forall r, out = Some r ->
      exists e, (spec_of es).2 !! (user, normalizeSql sql) = Some e /\
        r = e_result e /\ (seconds (now - e_time e) <= 30)%Z.
Proof.
  intros Hes Hu. destruct (exec_refines es init _ init_refines Hes) as (st & E & R).
  destruct (get_refines now user sql st _ R) as (st' & out & Eg & _ & Hout).
  exists st, st', out. split_and!; [done..| |by apply Hout]. apply (ref_wf _ _ R).
Qed.

(** What was just stored is found: after any history that leaves the cache
    enabled, a [put] followed within 30 seconds by a [get] of the same user for
    a text with the same normal form returns the stored result. *)
Theorem put_get es st now now' user sql sql' res tbl :
  Forall event_ok es -> exec es init = Some st -> enabled_ st = true ->
  normalizeSql sql' = normalizeSql sql -> (seconds (now' - now) <= 30)%Z ->
  exists st1 st2, put now user sql res tbl st = Some st1 /\ get now' user sql' st1 = Some (st2, Some res).
Proof.
  intros Hes E He HN Hage. destruct (exec_refines es init _ init_refines Hes) as (st0 & E' & R).
  rewrite E in E'. injection E' as <-.
  destruct (put_spec now user sql res tbl st (ref_wf _ _ R) He) as (l & ix & -> & _).
  do 2 eexists. split; [done|]. unfold get. cbn [enabled_ negb index_ lru_].
  assert (makeKey user sql' = makeKey user sql) as -> by (unfold makeKey; by rewrite HN).
  rewrite lookup_insert_eq. cbn [deref fst snd mbind option_bind]. rewrite decide_True by done.
  cbn [mbind option_bind cachedAt result].
  destruct (Z.ltb_spec 30 (seconds (now' - now))); [lia|done].
Qed.

(** Two users, an update and an expiry. *)
Definition ex_es : list event :=
  [ Put 0 (str "u1") (str "select * from t ; ") (str "A") (str "T");
    Put 5 (str "u2") (str "SELECT * FROM t") (str "B") (str "t");
    Put 9 (str "u1") (str "SELECT 1") (str "C") []; SetMaxEntries 2;
    Get 10 (str "u2") (str "Select  *  From T") ].

Lemma cache_refines_witness :
  exists st st' out, exec ex_es init = Some st /\
    get 20 (str "u2") (str "select * from t;") st = Some (st', out) /\
    length (lru_ st) <= maxEntries_ st /\
    forall r, out = Some r ->
      exists e, (spec_of ex_es).2 !! (str "u2", normalizeSql (str "select * from t;")) = Some e /\
        r = e_result e /\ (seconds (20 - e_time e) <= 30)%Z.
Proof. apply (cache_refines ex_es); [repeat constructor; by_decide|by_decide]. Defined.

Example cache_hit_ex :
  (st ← exec ex_es init; snd <$> get 20 (str "u2") (str "select * from t;") st) = Some (Some (str "B")).
Proof. by vm_compute. Qed.

Lemma put_get_witness :
  exists st st1 st2, exec ex_es init = Some st /\
    put 30 (str "u1") (str "SELECT 1") (str "D") [] st = Some st1 /\
    get 40 (str "u1") (str " select  1;") st1 = Some (st2, Some (str "D")).
Proof.
  destruct (exec ex_es init) as [st|] eqn:E; [|by vm_compute in E].
  destruct (put_get ex_es st 30 40 (str "u1") (str "SELECT 1") (str " select  1;") (str "D") [])
    as (st1 & st2 & H); [repeat constructor; by_decide|done| | | |eauto].
  - vm_compute in E. by injection E as <-.
  - by vm_compute.
  - by vm_compute.
Defined.

End UserQueryCache.

(** ** [StatementCache]: parsed commands by text *)

Module StatementCache.
Section cache.
(** The parsed command; [parser.hpp] is not modelled. *)
Context {ParsedCommand : Type}.

Record Entry := mkEntry { cmd : ParsedCommand; lruIt : nat }.
Record State := mkState {
  cache_ : gmap bytes Entry; lruList_ : list (nat * bytes);
  maxSize_ : Z; enabled_ : bool; hits_ : Z; misses_ : Z; fresh : nat }.

Definition init (maxSize : Z) : State := mkState ∅ [] maxSize true 0 0 0.

Definition normalize (sql : bytes) : bytes := strip_back 32 (collapse to_lower false [] sql).

Definition get (sql : bytes) (st : State) : State * option ParsedCommand :=
  if negb (enabled_ st) then (st, None)
  else
    let k := normalize sql in
    match cache_ st !! k with
    | None => (mkState (cache_ st) (lruList_ st) (maxSize_ st) (enabled_ st) (hits_ st) (misses_ st + 1) (fresh st), None)
    | Some e =>
        (mkState (<[k := mkEntry (cmd e) (fresh st)]> (cache_ st))
           ((fresh st, k) :: erase (lruIt e) (lruList_ st))
           (maxSize_ st) (enabled_ st) (hits_ st + 1) (misses_ st) (S (fresh st)), Some (cmd e))
    end.

(** [None]: [lruList_.back()] of an empty list. *)
Definition put (sql : bytes) (c : ParsedCommand) (st : State) : option State :=
  if negb (enabled_ st) then Some st
  else
    let k := normalize sql in
    match cache_ st !! k with
    | Some e =>
        Some (mkState (<[k := mkEntry c (fresh st)]> (cache_ st))
                ((fresh st, k) :: erase (lruIt e) (lruList_ st))
                (maxSize_ st) (enabled_ st) (hits_ st) (misses_ st) (S (fresh st)))
    | None =>
        '(m, l) ← (if (maxSize_ st <=? Z.of_nat (size (cache_ st)))%Z then
                     back ← last (lruList_ st);
                     Some (delete back.2 (cache_ st), removelast (lruList_ st))
                   else Some (cache_ st, lruList_ st));
        Some (mkState (<[k := mkEntry c (fresh st)]> m) ((fresh st, k) :: l)
                (maxSize_ st) (enabled_ st) (hits_ st) (misses_ st) (S (fresh st)))
    end.

Definition clear (st : State) : State := mkState ∅ [] (maxSize_ st) (enabled_ st) 0 0 (fresh st).
Definition setEnabled (b : bool) (st : State) : State :=
  mkState (cache_ st) (lruList_ st) (maxSize_ st) b (hits_ st) (misses_ st) (fresh st).
Definition setMaxSize (n : Z) (st : State) : State :=
  mkState (cache_ st) (lruList_ st) n (enabled_ st) (hits_ st) (misses_ st) (fresh st).

(** The cache in front of the parser, as [pg_server.hpp] uses it. *)
Definition parse_cached (parse : bytes -> ParsedCommand) (sql : bytes) (st : State)
  : option (State * ParsedCommand) :=
  match get sql st with
  | (st, Some c) => Some (st, c)
  | (st, None) => st ← put sql (parse sql) st; Some (st, parse sql)
  end.

(** The SET and CLEAR statements; the size has been checked to be positive. *)
Inductive event :=
| Parse (sql : bytes)
| Clear
| SetEnabled (b : bool)
| SetMaxSize (n : Z).

Definition event_ok (e : event) : Prop :=
  match e with SetMaxSize n => (0 < n)%Z | _ => True end.

Definition step (parse : bytes -> ParsedCommand) (e : event) (st : State) : option State :=
  match e with
  | Parse sql => fst <$> parse_cached parse sql st
  | Clear => Some (clear st)
  | SetEnabled b => Some (setEnabled b st)
  | SetMaxSize n => Some (setMaxSize n st)
  end.

Fixpoint exec (parse : bytes -> ParsedCommand) (es : list event) (st : State) : option State :=
  match es with [] => Some st | e :: es' => st' ← step parse e st; exec parse es' st' end.

(** *** The list holds each key once, at its entry's iterator *)

Definition agree (m : gmap bytes Entry) (l : list (nat * bytes)) : Prop :=
  NoDup l.*1 /\ forall k it, lruIt <$> m !! k = Some it <-> (it, k) ∈ l.

Lemma agree_delete m l k e : agree m l -> m !! k = Some e -> agree (delete k m) (erase (lruIt e) l).
Proof.
  intros [Hn Ha] Hk. split; [by apply NoDup_fmap_filter|]. intros k' it.
  rewrite elem_of_erase, <- Ha. assert ((lruIt e, k) ∈ l) as Hel by (apply Ha; by rewrite Hk).
  destruct (decide (k' = k)) as [->|Hne].
  - rewrite lookup_delete_eq, Hk. split; [done|]. intros [[= <-] []]. done.
  - rewrite lookup_delete_ne by done. split; [|tauto]. intros H. split; [done|]. simpl. intros ->.
    apply Ha, (elem_deref _ _ _ Hn) in H. apply (elem_deref _ _ _ Hn) in Hel. congruence.
Qed.

Lemma agree_insert m l k c f :
  agree m l -> m !! k = None -> f ∉ l.*1 -> agree (<[k := mkEntry c f]> m) ((f, k) :: l).
Proof.
  intros [Hn Ha] Hk Hf. split; [rewrite fmap_cons; by constructor|]. intros k' it.
  rewrite elem_of_cons, <- Ha. destruct (decide (k' = k)) as [->|Hne].
  - rewrite lookup_insert_eq, Hk. simpl. split; [intros [= <-]; auto|intros [[= ->]|]; done].
  - rewrite lookup_insert_ne by done. split; [tauto|]. intros [[= _ ->]|]; done.
Qed.

Lemma agree_nil m : agree m [] -> m = ∅.
Proof.
  intros [_ Ha]. apply map_empty. intros k. destruct (m !! k) as [e|] eqn:E; [|done].
  assert ((lruIt e, k) ∈ []) as H%not_elem_of_nil by (apply Ha; by rewrite E). done.
Qed.

(** Every entry is the parse of a text with that normal form. *)
Definition parsed (parse : bytes -> ParsedCommand) (m : gmap bytes Entry) : Prop :=
  forall k e, m !! k = Some e -> exists sql, normalize sql = k /\ cmd e = parse sql.

Record wf (parse : bytes -> ParsedCommand) (st : State) : Prop := {
  wf_agree : agree (cache_ st) (lruList_ st);
  wf_fresh : forall n, n ∈ lruList_ st -> n.1 < fresh st;
  wf_max : (0 < maxSize_ st)%Z;
  wf_parsed : parsed parse (cache_ st) }.

Lemma fresh_notin parse st l : wf parse st -> (forall n, n ∈ l -> n ∈ lruList_ st) -> fresh st ∉ l.*1.
Proof.
  intros W Hsub. rewrite list_elem_of_fmap. intros (n & E & Hn). apply Hsub, (wf_fresh _ _ W) in Hn. lia.
Qed.

(** Storing [c] under [k], which the map and the list have lost. *)
Lemma wf_store parse st m l k c st' :
  wf parse st -> agree m l -> m !! k = None -> (forall n, n ∈ l -> n ∈ lruList_ st) ->
  (forall k e, m !! k = Some e -> cache_ st !! k = Some e) -> (exists sql, normalize sql = k /\ c = parse sql) ->
  cache_ st' = <[k := mkEntry c (fresh st)]> m -> lruList_ st' = (fresh st, k) :: l ->
  maxSize_ st' = maxSize_ st -> fresh st' = S (fresh st) -> wf parse st'.
Proof.
  intros W Ha Hk Hsub Hm Hc Ec El Em Ef. split; rewrite ?Ec, ?El, ?Em, ?Ef.
  - apply agree_insert; [done..|]. by apply (fresh_notin parse st).
  - intros n [->|Hn]%elem_of_cons; [simpl; lia|]. apply Hsub, (wf_fresh _ _ W) in Hn. lia.
  - apply W.
  - intros k' e. rewrite lookup_insert_Some. intros [[<- <-]|[_ H]]; [done|]. by apply (wf_parsed _ _ W), Hm.
Qed.

Lemma get_wf parse sql st :
  wf parse st -> wf parse (get sql st).1 /\
    forall c, (get sql st).2 = Some c -> exists sql', normalize sql' = normalize sql /\ c = parse sql'.
Proof.
  intros W. unfold get. destruct (enabled_ st); [|done]. cbn [negb].
  destruct (cache_ st !! normalize sql) as [e|] eqn:Ek; [|by destruct W].
  destruct (wf_parsed _ _ W _ _ Ek) as (sql' & HN & Hc). split.
  2:{ intros c [= <-]. by exists sql'. }
  eapply (wf_store parse st (delete (normalize sql) (cache_ st)) (erase (lruIt e) (lruList_ st))); try done.
  - apply agree_delete; [apply W|done].
  - apply lookup_delete_eq.
  - intros n Hn. by apply elem_of_erase in Hn as [? _].
  - intros k e' H. by apply lookup_delete_Some in H as [_ H].
  - by exists sql'.
  - simpl. by rewrite insert_delete_eq.
Qed.

Lemma put_wf parse sql st :
  wf parse st -> exists st', put sql (parse sql) st = Some st' /\ wf parse st'.
Proof.
  intros W. unfold put. destruct (enabled_ st); [|by exists st]. cbn [negb].
  destruct (cache_ st !! normalize sql) as [e|] eqn:Ek.
  { eexists. split; [done|].
    eapply (wf_store parse st (delete (normalize sql) (cache_ st)) (erase (lruIt e) (lruList_ st))); try done.
    - apply agree_delete; [apply W|done].
    - apply lookup_delete_eq.
    - intros n Hn. by apply elem_of_erase in Hn as [? _].
    - intros k e' H. by apply lookup_delete_Some in H as [_ H].
    - by exists sql.
    - simpl. by rewrite insert_delete_eq. }
  destruct (Z.leb_spec (maxSize_ st) (Z.of_nat (size (cache_ st)))) as [Hfull|_].
  2:{ eexists. split; [done|].
      eapply (wf_store parse st (cache_ st) (lruList_ st)); try done; [apply W|by exists sql]. }
  pose proof (wf_agree _ _ W) as Ha. pose proof (wf_max _ _ W) as Hpos.
  destruct (lruList_ st) as [|b l _] eqn:El using rev_ind.
  { rewrite (agree_nil _ Ha), map_size_empty in Hfull. lia. }
  rewrite last_snoc. cbn [mbind option_bind]. rewrite removelast_last.
  assert (exists e, cache_ st !! b.2 = Some e /\ lruIt e = b.1) as (e & Ee & Eit).
  { assert (lruIt <$> cache_ st !! b.2 = Some b.1) as H.
    { apply (proj2 Ha), elem_of_app. right. destruct b. apply list_elem_of_here. }
    apply fmap_Some in H as (e & ? & ->). by exists e. }
  eexists. split; [done|].
  assert (erase (lruIt e) (l ++ [b]) = l) as Hl by (rewrite Eit; apply erase_back, Ha).
  eapply (wf_store parse st (delete b.2 (cache_ st)) l); try done.
  - rewrite <- Hl. by apply agree_delete.
  - apply lookup_delete_None. by right.
  - intros n Hn. rewrite El. apply elem_of_app. by left.
  - intros k e' H. by apply lookup_delete_Some in H as [_ H].
  - by exists sql.
Qed.

Lemma parse_cached_wf parse sql st :
  wf parse st -> exists st' c, parse_cached parse sql st = Some (st', c) /\ wf parse st' /\
    exists sql', normalize sql' = normalize sql /\ c = parse sql'.
Proof.
  intros W. unfold parse_cached. destruct (get_wf parse sql st W) as [W1 Hc].
  destruct (get sql st) as [st1 [c|]]; simpl in *.
  - do 2 eexists. split; [done|]. split; [done|]. by apply Hc.
  - destruct (put_wf parse sql st1 W1) as (st2 & -> & W2). do 2 eexists. split; [done|]. split; [done|]. by exists sql.
Qed.

Lemma exec_wf parse es st :
  wf parse st -> Forall event_ok es -> exists st', exec parse es st = Some st' /\ wf parse st'.
Proof.
  intros W H. revert st W. induction H as [|e es He _ IH]; intros st W; [by exists st|].
  assert (exists st', step parse e st = Some st' /\ wf parse st') as (st' & E & W').
  { destruct e as [sql| |b|n]; simpl.
    - destruct (parse_cached_wf parse sql st W) as (st' & c & -> & W' & _). by exists st'.
    - eexists. split; [done|]. destruct W. split; simpl; try done.
      + split; [constructor|]. intros k it. rewrite lookup_empty. split; [done|]. by intros ?%not_elem_of_nil.
      + by intros n ?%not_elem_of_nil.
    - eexists. split; [done|]. by destruct W.
    - eexists. split; [done|]. by destruct W. }
  cbn [exec]. rewrite E. by apply IH.
Qed.

Lemma init_wf parse n : (0 < n)%Z -> wf parse (init n).
Proof.
  split; simpl; try done; [|by intros ? ?%not_elem_of_nil].
  split; [constructor|]. intros k it. rewrite lookup_empty. split; [done|]. by intros ?%not_elem_of_nil.
Qed.

(** The statement cache stands in for the parser up to normalization:
    after any sequence of statements and settings, looking up a text never
    fails and yields the parse of a text with the same normal form. *)
Theorem parse_cached_sound parse n es sql :
  (0 < n)%Z -> Forall event_ok es ->
  exists st st' c, exec parse es (init n) = Some st /\ parse_cached parse sql st = Some (st', c) /\
    exists sql', normalize sql' = normalize sql /\ c = parse sql'.
Proof.
  intros Hn Hes. destruct (exec_wf parse es _ (init_wf parse n Hn) Hes) as (st & E & W).
  destruct (parse_cached_wf parse sql st W) as (st' & c & Ep & _ & H). by exists st, st', c.
Qed.

(** A statement that has the normal form of an earlier one is not parsed: the
    earlier command is executed again. *)
Lemma same_form_same_command parse n sql sql' :
  (0 < n)%Z -> normalize sql' = normalize sql ->
  exists st st', parse_cached parse sql (init n) = Some (st, parse sql) /\
    parse_cached parse sql' st = Some (st', parse sql).
Proof.
  intros Hn HN. unfold parse_cached, get, put. cbn [init enabled_ negb cache_]. rewrite lookup_empty.
  cbn [mbind option_bind enabled_ negb cache_ maxSize_ lruList_ fresh]. rewrite lookup_empty, map_size_empty.
  destruct (Z.leb_spec (maxSize_ (init n)) (Z.of_nat 0)); [simpl in *; lia|]. cbn [mbind option_bind]. do 2 eexists. split; [done|].
  cbn [enabled_ negb cache_]. rewrite HN, lookup_insert_eq. done.
Qed.
End cache.

(** Upper and lower case differ in a literal, and the cache does not see it. *)
Example literals_collide :
  normalize (str "INSERT INTO t VALUES ('Bob')") = normalize (str "INSERT INTO t VALUES ('bob')").
Proof. by vm_compute. Qed.

Lemma parse_cached_sound_witness :
  exists st st' c,
    exec (fun s => s) [Parse (str "SELECT 1"); SetMaxSize 1; Parse (str "SELECT 2")] (init 500) = Some st /\
    parse_cached (fun s => s) (str " select 2") st = Some (st', c) /\
    exists sql', normalize sql' = normalize (str " select 2") /\ c = sql'.
Proof. apply (parse_cached_sound (fun s => s) 500); [done|repeat constructor]. Defined.
End StatementCache.

(** ** The result cache in front of the engine
    ([handleQueryForUser] of [src/server/http_server.hpp], one statement) *)

Module Http.
Import UserQueryCache.

Section handler.
(** The engine behind the cache: [execOne] runs a statement in a database state
    and yields the JSON text. *)
Context {DB : Type} (execOne : bytes -> DB -> DB * bytes).

Definition cacheUserKey (userId : Z) : bytes :=
  if (userId <=? 0)%Z then str "root" else str "u" ++ to_string userId.

Definition isCacheable (upper : bytes) : bool :=
  starts_with (str "SELECT") upper || starts_with (str "WITH ") upper.

(** ["success":true] occurs in the answer. *)
Definition succeeded (json : bytes) : bool :=
  match find_sub (34%Z :: str "success" ++ 34%Z :: str ":true") json with Some _ => true | None => false end.

(** The characters up to the end of a table name. *)
Definition name_char (c : byte) : bool := negb ((c =? 32) || (c =? 59) || (c =? 44) || (c =? 41))%Z.

Definition tblHint (prefix upper : bytes) : bytes :=
  match find_sub (str " FROM ") upper with
  | None => []
  | Some p =>
      let t := take_while name_char (drop_while (fun c => c =? 32)%Z (drop (p + 6) upper)) in
      if negb (bool_decide (prefix = [])) && starts_with prefix t then drop (length prefix) t else t
  end.

(** The first of several [find]s that succeeds. *)
Fixpoint first_find (ps : list bytes) (s : bytes) : option nat :=
  match ps with
  | [] => None
  | p :: ps' => match find_sub p s with Some i => Some i | None => first_find ps' s end
  end.

(** The table a mutating statement is taken to change. *)
Definition mutTbl (upper : bytes) : bytes :=
  let mutPos := first_find [str " INTO "; str " FROM "; str " TABLE "; str " UPDATE "] upper in
  let tblStart :=
    if starts_with (str "UPDATE") upper
    then Some (7 + length (take_while (fun c => c =? 32)%Z (drop 7 upper)))
    else (fun p => p + 7) <$> mutPos in
  match tblStart with
  | Some k => if k <? length upper then take_while name_char (drop k upper) else []
  | None => []
  end.

(** The answer to one statement at time [now]; [upper] is the whole request in
    upper case. *)
Definition handle (now userId : Z) (prefix upper sql : bytes) (w : DB * State) : option ((DB * State) * bytes) :=
  let '(db, st) := w in
  let user := cacheUserKey userId in
  '(st, cached) ← (if isCacheable upper then get now user sql st else Some (st, None));
  match cached with
  | Some r => Some ((db, st), r)
  | None =>
      let '(db, r) := execOne sql db in
      st ← (if isCacheable upper && succeeded r then put now user sql r (tblHint prefix upper) st else Some st);
      let t := mutTbl upper in
      Some ((db, if negb (isCacheable upper) && succeeded r && negb (bool_decide (t = [])) then invalidate t st else st), r)
  end.
End handler.

(** *** Namespaces *)

Lemma cacheUserKey_ok userId : user_ok (cacheUserKey userId).
Proof.
  unfold cacheUserKey, user_ok. destruct (Z.leb_spec userId 0); [by_decide|].
  destruct (to_string_spec userId ltac:(lia)) as (_ & Hd & _). intros [E|E]%elem_of_app.
  - revert E. by_decide.
  - rewrite Forall_forall in Hd. apply Hd in E. done.
Qed.

Lemma cacheUserKey_inj i j : (0 < i)%Z -> (0 < j)%Z -> cacheUserKey i = cacheUserKey j -> i = j.
Proof.
  intros Hi Hj. unfold cacheUserKey. rewrite !(proj2 (Z.leb_gt _ 0)) by lia.
  intros E%app_inv_head. destruct (to_string_spec i ltac:(lia)) as (<- & _).
  destruct (to_string_spec j ltac:(lia)) as (<- & _). by rewrite E.
Qed.

(** *** What an INSERT and a DELETE invalidate *)

Lemma find_sub_skip p c s : starts_with p (c :: s) = false -> find_sub p (c :: s) = S <$> find_sub p s.
Proof. intros H. cbn [find_sub]. by rewrite H. Qed.

(** The offset 7 fits [" TABLE "]; after [" INTO "] and [" FROM "] it drops the
    first character of the name. *)
Lemma insert_drops_first_char c t rest :
  Forall (fun x => name_char x = true) t ->
  mutTbl (str "INSERT INTO " ++ (c :: t) ++ 32%Z :: rest) = t.
Proof.
  intros Ht. unfold mutTbl.
  assert (first_find [str " INTO "; str " FROM "; str " TABLE "; str " UPDATE "]
    (str "INSERT INTO " ++ (c :: t) ++ 32%Z :: rest) = Some 6) as -> by done.
  assert ((6 + 7 <? length (str "INSERT INTO " ++ (c :: t) ++ 32%Z :: rest)) = true) as Hl.
  { apply Nat.ltb_lt. rewrite length_app. simpl. rewrite length_app. simpl. lia. }
  change (starts_with (str "UPDATE") (str "INSERT INTO " ++ (c :: t) ++ 32%Z :: rest)) with false.
  cbn [fmap option_fmap option_map]. rewrite Hl.
  change (drop (6 + 7) (str "INSERT INTO " ++ (c :: t) ++ 32%Z :: rest)) with (t ++ 32%Z :: rest).
  by destruct (take_while_all name_char t (32%Z :: rest) Ht) as [-> _].
Qed.

(** *** Who gets which answer *)

Section runs.
Context {DB : Type} (execOne : bytes -> DB -> DB * bytes).

Record request := mkRequest { at_ : Z; userId : Z; prefix : bytes; upper : bytes; sql : bytes }.

Definition serve (q : request) (w : DB * State) : option ((DB * State) * bytes) :=
  handle execOne (at_ q) (userId q) (prefix q) (upper q) (sql q) w.

(** The answers, one per request. *)
Fixpoint serve_all (qs : list request) (w : DB * State) : option ((DB * State) * list bytes) :=
  match qs with
  | [] => Some (w, [])
  | q :: qs' => '(w, r) ← serve q w; '(w, rs) ← serve_all qs' w; Some (w, r :: rs)
  end.

(** [q] was answered [r], and [q'] may be answered the same. *)
Definition answered (q' : request) (log : list (request * bytes)) (r : bytes) : Prop :=
  exists q, (q, r) ∈ log /\ cacheUserKey (userId q) = cacheUserKey (userId q') /\
    normalizeSql (sql q) = normalizeSql (sql q') /\ (seconds (at_ q' - at_ q) <= 30)%Z.

(** Every entry of the specification was an answer to its user. *)
Definition logged (log : list (request * bytes)) (s : bool * spec) : Prop :=
  forall u k e, s.2 !! (u, k) = Some e -> exists q, (q, e_result e) ∈ log /\
    cacheUserKey (userId q) = u /\ normalizeSql (sql q) = k /\ at_ q = e_time e.

Definition sound (log : list (request * bytes)) (st : State) : Prop :=
  exists s, refines st s /\ logged log s.

Lemma logged_mono log log' s : (forall x, x ∈ log -> x ∈ log') -> logged log s -> logged log' s.
Proof. intros Hsub H u k e He. destruct (H u k e He) as (q & Hq & Hrest). exists q. auto. Qed.

Lemma sound_get q log st :
  sound log st ->
  exists st' out, get (at_ q) (cacheUserKey (userId q)) (sql q) st = Some (st', out) /\ sound log st' /\
    forall r, out = Some r -> answered q log r.
Proof.
  intros (s & R & L). destruct (get_refines (at_ q) (cacheUserKey (userId q)) (sql q) st s R) as (st' & out & E & R' & H).
  exists st', out. split; [done|]. split; [by exists s|]. intros r Hr.
  destruct (H (cacheUserKey_ok _) r Hr) as (e & He & -> & Hage). destruct (L _ _ _ He) as (q' & Hq & Hu & Hk & Ht).
  exists q'. by rewrite Ht.
Qed.

Lemma sound_put q r tbl log st :
  sound log st -> exists st', put (at_ q) (cacheUserKey (userId q)) (sql q) r tbl st = Some st' /\ sound ((q, r) :: log) st'.
Proof.
  intros (s & R & L).
  destruct (put_refines (at_ q) (cacheUserKey (userId q)) (sql q) r tbl st s R (cacheUserKey_ok _)) as (st' & E & R').
  exists st'. split; [done|]. eexists. split; [exact R'|]. destruct s as [b sp]. intros u k e. cbn [spec_step fst snd].
  pose proof (logged_mono log ((q, r) :: log) (b, sp) (fun x Hx => proj2 (elem_of_cons _ _ _) (or_intror Hx)) L) as L'.
  destruct b; [|by apply L']. rewrite lookup_insert_Some. intros [[[= <- <-] <-]|[_ He]]; [|by apply L'].
  exists q. split; [apply list_elem_of_here|done].
Qed.

Lemma sound_invalidate tbl log st : sound log st -> sound log (invalidate tbl st).
Proof.
  intros (s & R & L). eexists. split; [by apply invalidate_refines|]. intros u k e He.
  apply map_lookup_filter_Some in He as [He _]. by apply L.
Qed.

(** One request: its answer is the engine's, or one the same user got. *)
Lemma serve_sound q log db st :
  sound log st ->
  exists db' st' r, serve q (db, st) = Some ((db', st'), r) /\ sound ((q, r) :: log) st' /\
    (answered q log r \/ (db', r) = execOne (sql q) db).
Proof.
  intros H. unfold serve, handle.
  assert (exists st1 out, (if isCacheable (upper q) then get (at_ q) (cacheUserKey (userId q)) (sql q) st else Some (st, None))
      = Some (st1, out) /\ sound log st1 /\ forall r, out = Some r -> answered q log r) as (st1 & out & -> & H1 & Hout).
  { destruct (isCacheable (upper q)); [by apply sound_get|]. by exists st, None. }
  assert (forall r st2, sound log st2 -> sound ((q, r) :: log) st2) as Hmono.
  { intros r st2 (s & R & L). exists s. split; [done|]. apply (logged_mono log); [|done].
    intros x Hx. by apply list_elem_of_further. }
  cbn [mbind option_bind]. destruct out as [r|]; [do 3 eexists; split; [done|]; auto|].
  destruct (execOne (sql q) db) as [db' r].
  assert (exists st2, (if isCacheable (upper q) && succeeded r
      then put (at_ q) (cacheUserKey (userId q)) (sql q) r (tblHint (prefix q) (upper q)) st1 else Some st1) = Some st2 /\
    sound ((q, r) :: log) st2) as (st2 & -> & H2).
  { destruct (_ && _); [by apply sound_put|]. exists st1. auto. }
  cbn [mbind option_bind]. do 3 eexists. split; [done|]. split; [|by right].
  destruct (_ && _); [by apply sound_invalidate|done].
Qed.

Lemma serve_all_sound qs log db st :
  sound log st -> exists db' st' rs, serve_all qs (db, st) = Some ((db', st'), rs) /\ length rs = length qs /\
    sound (rev (zip qs rs) ++ log) st'.
Proof.
  revert log db st. induction qs as [|q qs IH]; intros log db st H; [by do 3 eexists|].
  destruct (serve_sound q log db st H) as (db1 & st1 & r & E & H1 & _). cbn [serve_all]. rewrite E.
  destruct (IH _ db1 st1 H1) as (db2 & st2 & rs & E2 & Hlen & H2). cbn [mbind option_bind]. rewrite E2.
  do 3 eexists. split; [done|]. split; [simpl; by rewrite Hlen|]. simpl. by rewrite <- app_assoc.
Qed.

(** Isolation of the cached answers: after any sequence of requests, a
    request is answered by the engine, or with what the same user (all ids up
    to 0 being root) was answered within the last 30 seconds for a statement
    with the same normal form.  Serving never fails. *)
Theorem serve_isolated qs q db :
  exists db1 st1 rs db2 st2 r,
    serve_all qs (db, init) = Some ((db1, st1), rs) /\ serve q (db1, st1) = Some ((db2, st2), r) /\
    (answered q (zip qs rs) r \/ (db2, r) = execOne (sql q) db1).
Proof.
  assert (sound [] init) as H0 by (exists (true, ∅); split; [apply init_refines|intros u k e He; simpl in He; by rewrite lookup_empty in He]).
  destruct (serve_all_sound qs [] db init H0) as (db1 & st1 & rs & E & _ & H1).
  destruct (serve_sound q _ db1 st1 H1) as (db2 & st2 & r & E2 & _ & H2).
  do 6 eexists. split; [done|]. split; [done|]. destruct H2 as [(q' & Hq & Hrest)|]; [left|by right].
  exists q'. split; [|done]. rewrite app_nil_r in Hq. by apply list_elem_of_In, in_rev, list_elem_of_In in Hq.
Qed.
End runs.

(** *** A stale answer *)

(** A database that counts the rows of one table. *)
Definition ex_exec (sql : bytes) (n : Z) : Z * bytes :=
  let json := (34%Z :: str "success" ++ 34%Z :: str ":true,") ++ to_string n in
  if starts_with (str "INSERT") sql then ((n + 1)%Z, json) else (n, json).

Definition ex_request (t : Z) (sql : string) : request := mkRequest t 7 (str "u7_") (str sql) (str sql).

(** The count is read, a row is inserted, and one second later the old count is
    served: the INSERT invalidated the table "SERS". *)
Lemma insert_leaves_stale_answer :
  let qs := [ex_request 0 "SELECT COUNT(*) FROM USERS"; ex_request 1 "INSERT INTO USERS VALUES (1)"] in
  match serve_all ex_exec qs (5%Z, init) with
  | Some ((db, st), [before; _]) =>
      db = 6%Z /\ snd <$> serve ex_exec (ex_request 1000000000 "SELECT COUNT(*) FROM USERS") (db, st) = Some before /\
      (ex_exec (str "SELECT COUNT(*) FROM USERS") db).2 <> before
  | _ => False
  end.
Proof. vm_compute. split_and!; [done|done|discriminate]. Qed.

(** Texts that differ in the case of a literal share an entry. *)
Lemma literal_case_shared :
  normalizeSql (str "SELECT * FROM t WHERE n='bob'") = normalizeSql (str "SELECT * FROM t WHERE n='BOB'").
Proof. by vm_compute. Qed.

(** A join is stored under its first table only. *)
Lemma join_stored_under_first :
  tblHint [] (str "SELECT * FROM A JOIN B ON A.X = B.X") = str "A" /\ mutTbl (str "UPDATE B SET X = 1") = str "B".
Proof. by vm_compute. Qed.
End Http.
