(* ===== verification/Where.v ===== *)
(** * WHERE conditions ([src/engine/engine.hpp]: [likeMatch],
    [compareValues], [evalCond], [evalExists], [evalScalarSub], [rowMatches],
    [rowMatchesByIdx])

    The comparison of two stored texts, conditions on a row, and the two
    evaluators of a condition list: the general one, which resolves names for
    every row, and the fast one on column numbers resolved beforehand.  LIKE is
    proved against a declarative reading of patterns, and the fast evaluator
    against the general one. *)

From S2P Require Import Prelude Index Partition Table Arith.

(** ** LIKE *)

Definition PERCENT : byte := 37.
Definition UNDERSCORE : byte := 95.

(** Row 0 of the table [dp]: which prefixes of the pattern match the empty text. *)
Fixpoint like_first (b : bool) (p : bytes) : list bool :=
  match p with
  | [] => []
  | x :: p' => let b := (x =? PERCENT)%Z && b in b :: like_first b p'
  end.

(** Row [i] from row [i - 1] (behind its entry for [j - 1]); [left] is the entry
    just computed. *)
Fixpoint like_step (c : byte) (p : bytes) (prev : list bool) (left : bool) : list bool :=
  match p, prev with
  | x :: p', diag :: prev' =>
      let up := hd false prev' in
      let b := if (x =? PERCENT)%Z then up || left
               else ((x =? UNDERSCORE) || (x =? c))%Z && diag in
      b :: like_step c p' prev' b
  | _, _ => []
  end.

Definition like_row (p : bytes) (row : list bool) (c : byte) : list bool :=
  false :: like_step c p row false.

Definition likeMatch (s p : bytes) : bool :=
  List.last (fold_left (like_row p) s (true :: like_first true p)) false.

(** ** Values *)

(** [v.empty() || v == "NULL"] *)
Definition is_null (v : bytes) : bool := bytes_eqb v [] || bytes_eqb v NULL.

Inductive operator :=
| LIKE | IS_NULL | IS_NOT_NULL | REGEXP | NOT_REGEXP
| EQ | NE | LT | GT | LE | GE
| IN | NOT_IN | BETWEEN | NOT_BETWEEN | OTHER.

#[export] Instance operator_eq_dec : EqDecision operator.
Proof. solve_decision. Defined.

Section values.
Context {DB : Double}.
(** [std::regex_search]; [None] is an exception. *)
Context (regex_search : bytes -> bytes -> option bool).

(** Both texts are numbers from the first to the last character. *)
Definition numbers (a b : bytes) : option (dbl * dbl) :=
  '(da, ea) ← stod_pos a; '(db, eb) ← stod_pos b;
  if (ea =? length a) && (eb =? length b) then Some (da, db) else None.

Definition compare_numbers (op : operator) (da db : dbl) : bool :=
  match op with
  | EQ => deq da db | NE => negb (deq da db)
  | LT => dlt da db | GT => dlt db da | LE => dle da db | GE => dle db da
  | _ => false
  end.

Definition compare_texts (op : operator) (a b : bytes) : bool :=
  match op with
  | EQ => bytes_eqb a b | NE => negb (bytes_eqb a b)
  | LT => bytes_ltb a b | GT => bytes_ltb b a | LE => bytes_leb a b | GE => bytes_leb b a
  | _ => false
  end.

Definition compareValues (a : bytes) (op : operator) (b : bytes) : bool :=
  match op with
  | LIKE => likeMatch (stripQuotes a) (stripQuotes b)
  | IS_NULL => is_null a
  | IS_NOT_NULL => negb (is_null a)
  | _ =>
      if is_null a || is_null b then false
      else
        match op with
        | REGEXP => default false (regex_search (stripQuotes a) (stripQuotes b))
        | NOT_REGEXP => default false (negb <$> regex_search (stripQuotes a) (stripQuotes b))
        | _ =>
            match numbers (stripQuotes a) (stripQuotes b) with
            | Some (da, db) => compare_numbers op da db
            | None => compare_texts op (stripQuotes a) (stripQuotes b)
            end
        end
  end.

(** A condition on one column. *)
Record Comparison := mkCmp {
  col : bytes; op : operator; val : bytes; inList : list bytes; betweenLow : bytes; betweenHigh : bytes }.

Definition with_operands (c : Comparison) (v lo hi : bytes) : Comparison :=
  mkCmp (col c) (op c) v (inList c) lo hi.

(** The range test of BETWEEN; numbers are read with [std::stod], prefixes included. *)
Definition in_range (v lo hi : bytes) : bool :=
  match stod v, stod lo, stod hi with
  | Some dv, Some dlo, Some dhi => dle dlo dv && dle dv dhi
  | _, _, _ => bytes_leb lo v && bytes_leb v hi
  end.

Definition evalCond (v : bytes) (c : Comparison) : bool :=
  match op c with
  | IN => existsb (bytes_eqb v) (inList c)
  | NOT_IN => negb (existsb (bytes_eqb v) (inList c))
  | BETWEEN | NOT_BETWEEN =>
      if is_null v then false
      else
        let slo := stripQuotes (betweenLow c) in
        let shi := stripQuotes (betweenHigh c) in
        if is_null slo || is_null shi then false
        else
          let r := in_range (stripQuotes v) slo shi in
          if decide (op c = BETWEEN) then r else negb r
  | o => compareValues v o (val c)
  end.
End values.

(** ** Names *)

(** The part behind the first dot. *)
Definition bare (s : bytes) : bytes :=
  match find_char DOT s with Some p => drop (S p) s | None => s end.

Definition findColIdx (cs : list Column) (name : bytes) : option nat :=
  match list_find (fun c => c_name c = name) cs with
  | Some (i, _) => Some i
  | None => fst <$> list_find (fun c => bare (c_name c) = bare name) cs
  end.

(** [findCI] of the subquery evaluators: exact, then the bare name exact. *)
Definition findCI (cs : list Column) (ref : bytes) : option nat :=
  match list_find (fun c => c_name c = ref) cs with
  | Some (i, _) => Some i
  | None =>
      match find_char DOT ref with
      | Some p => fst <$> list_find (fun c => c_name c = drop (S p) ref) cs
      | None => None
      end
  end.

Definition column_value (find : list Column -> bytes -> option nat) (cs : list Column) (vs : list bytes)
    (name : bytes) : option bytes :=
  i ← find cs name; vs !! i.

(** ** Conditions *)

Record SubCond := mkSub { sc_col : bytes; sc_op : operator; sc_val : bytes }.

Record ExistsSpec := mkExists {
  ex_subTable : bytes; condLeft : bytes; condOp : operator; condRight : bytes;
  subConds : list SubCond; subWhereLogic : bytes }.

Record ScalarSubSpec := mkScalar {
  sp_subTable : bytes; aggFunc : bytes; aggCol : bytes; sp_conds : list SubCond; sp_logic : bytes }.

(** [WhereCondition], by the flag that is set (in the order the evaluator tests
    them); [Match] carries the three fields of MATCH ... AGAINST. *)
Inductive WhereCondition :=
| Group (groupConds : list WhereCondition) (groupLogic : bytes)
| Exists (positive : bool) (spec : ExistsSpec)
| ScalarSub (col : bytes) (op : operator) (spec : ScalarSubSpec)
| FuncLhs (expr : bytes) (c : Comparison)
| Match (cols : list bytes) (query mode : bytes)
| Simple (c : Comparison).

Definition AND : bytes := str "AND".
Definition OR : bytes := str "OR".

(** The loop over a condition list: AND stops at the first false condition,
    anything else is OR and stops at the first true one. *)
Definition eval_list {A} (eval : A -> result bool) (logic : bytes) : list A -> result bool :=
  if bytes_eqb logic AND then
    fix go l := match l with [] => Ok true | c :: l' => b ← eval c; if (b : bool) then go l' else Ok false end
  else
    fix go l := match l with [] => Ok false | c :: l' => b ← eval c; if (b : bool) then Ok true else go l' end.

Section rows.
Context {DB : Double} {tree : Type} {RI : RowIndex tree}.
Context (regex_search : bytes -> bytes -> option bool).
(** Function calls on the left-hand side, full-text search, and the printing of
    a double ([formatNum]) are parameters; [dcount n] is [static_cast<double>(n)]. *)
Context (evalExprStr : bytes -> list Column -> list bytes -> bytes).
Context (match_against : list bytes -> bytes -> bytes -> list Column -> list bytes -> bool).
Context (formatNum : dbl -> bytes) (dcount : nat -> dbl).
Context (tables_ : gmap bytes (Table tree)).

Abbreviation compareValues := (compareValues regex_search).
Abbreviation evalCond := (evalCond regex_search).

(** *** Subqueries *)

(** The right-hand side of a subquery's condition: an outer column or a literal. *)
Definition outer_value (outerCols : list Column) (outerRow : list bytes) (v : bytes) : bytes :=
  default v (column_value findCI outerCols outerRow v).

Definition sub_cond (sub : Table tree) (outerCols : list Column) (outerRow : list bytes) (subRow : Row)
    (sc : SubCond) : bool :=
  match column_value findCI (columns_ sub) (values subRow) (sc_col sc) with
  | Some v => compareValues v (sc_op sc) (outer_value outerCols outerRow (sc_val sc))
  | None => false
  end.

Definition sub_match (sub : Table tree) (outerCols : list Column) (outerRow : list bytes) (conds : list SubCond)
    (logic : bytes) (subRow : Row) : bool :=
  if bytes_eqb logic OR then existsb (sub_cond sub outerCols outerRow subRow) conds
  else forallb (sub_cond sub outerCols outerRow subRow) conds.

(** Which side of the single condition is the subquery's column. *)
Definition exists_sides (sub : Table tree) (spec : ExistsSpec) : bytes * bytes :=
  match findCI (columns_ sub) (condLeft spec), findCI (columns_ sub) (condRight spec) with
  | Some _, None => (condLeft spec, condRight spec)
  | None, Some _ => (condRight spec, condLeft spec)
  | _, _ => (condLeft spec, condRight spec)
  end.

Definition sub_exists (sub : Table tree) (outerCols : list Column) (outerRow : list bytes) (spec : ExistsSpec) : bool :=
  match subConds spec with
  | _ :: _ => existsb (sub_match sub outerCols outerRow (subConds spec) (subWhereLogic spec)) (rows_ sub)
  | [] =>
      let '(inner, outer) := exists_sides sub spec in
      match findCI (columns_ sub) inner with
      | None => false
      | Some ci =>
          existsb (fun r => match values r !! ci with
                            | Some v => compareValues v (condOp spec) (outer_value outerCols outerRow outer)
                            | None => false
                            end) (rows_ sub)
      end
  end.

Definition getTable (n : bytes) : result (Table tree) :=
  match tables_ !! n with Some t => Ok t | None => Throw "Tabelle nicht gefunden" end.

Definition evalExists (outerCols : list Column) (outerRow : list bytes) (positive : bool) (spec : ExistsSpec)
  : result bool :=
  sub ← getTable (ex_subTable spec);
  Ok (if sub_exists sub outerCols outerRow spec then positive else negb positive).

(** Sum from the left, smallest and largest ([std::min_element] and
    [std::max_element] keep the first of equal elements). *)
Definition dsum (nums : list dbl) : dbl := fold_left dadd nums dzero.
Definition dmin (x : dbl) (nums : list dbl) : dbl := fold_left (fun m v => if dlt v m then v else m) nums x.
Definition dmax (x : dbl) (nums : list dbl) : dbl := fold_left (fun m v => if dlt m v then v else m) nums x.

Definition aggregate (func : bytes) (matchVals : list bytes) : bytes :=
  match omap stod matchVals with
  | [] => NULL
  | x :: nums =>
      if bytes_eqb func (str "SUM") then formatNum (dsum (x :: nums))
      else if bytes_eqb func (str "AVG") then formatNum (ddiv (dsum (x :: nums)) (dcount (S (length nums))))
      else if bytes_eqb func (str "MIN") then formatNum (dmin x nums)
      else if bytes_eqb func (str "MAX") then formatNum (dmax x nums)
      else hd [] matchVals
  end.

Definition COUNT : bytes := str "COUNT".

Definition evalScalarSub (spec : ScalarSubSpec) (outerCols : list Column)
    (outerRow : list bytes) : bytes :=
  match tables_ !! sp_subTable spec with
  | None => NULL
  | Some sub =>
      let hits := List.filter (fun r => bool_decide (sp_conds spec = []) ||
                    sub_match sub outerCols outerRow (sp_conds spec) (sp_logic spec) r) (rows_ sub) in
      if bytes_eqb (aggFunc spec) COUNT then to_string (Z.of_nat (length hits))
      else if bytes_eqb (aggFunc spec) [] then NULL
      else aggregate (aggFunc spec)
             (omap (fun r => column_value findCI (columns_ sub) (values r) (aggCol spec)) hits)
  end.

(** *** One row *)

Definition arith (cs : list Column) (vs : list bytes) (e : bytes) : bytes := default e (run cs vs e).

(** A right-hand side or a bound: a column, an expression or a literal. *)
Definition operand (cs : list Column) (vs : list bytes) (e : bytes) : bytes :=
  match column_value findColIdx cs vs e with
  | Some v => v
  | None => if looksArith e then arith cs vs e else e
  end.

Definition colIdx (cs : list Column) (c : bytes) : result nat :=
  match colOf_cols cs c with Some i => Ok i | None => Throw "Spalte nicht gefunden" end.

(** The left-hand side; [Ok None] makes the condition false. *)
Definition lhs_value (cs : list Column) (vs : list bytes) (e : bytes) : result (option bytes) :=
  match column_value findColIdx cs vs e with
  | Some v => Ok (Some v)
  | None =>
      if looksArith e then Ok (Some (arith cs vs e))
      else if bytes_eqb (Arith.upper e) NULL then Ok (Some NULL)
      else i ← colIdx cs e; Ok (vs !! i)
  end.

Definition is_between (o : operator) : bool := bool_decide (o = BETWEEN \/ o = NOT_BETWEEN).

Definition resolve (cs : list Column) (vs : list bytes) (c : Comparison) : Comparison :=
  let bound b := if is_between (op c) then operand cs vs b else b in
  with_operands c (operand cs vs (val c)) (bound (betweenLow c)) (bound (betweenHigh c)).

Definition eval_simple (cs : list Column) (vs : list bytes) (c : Comparison) : result bool :=
  v ← lhs_value cs vs (col c);
  Ok (match v with Some v => evalCond v (resolve cs vs c) | None => false end).

(** [evalOne]; the parser gives no condition without a name here, so the
    remaining fields of the flagged alternatives are not read. *)
Fixpoint evalOne (cs : list Column) (vs : list bytes) (c : WhereCondition) : result bool :=
  match c with
  | Group [] _ => Ok true
  | Group conds logic => eval_list (evalOne cs vs) logic conds
  | Exists pos spec => evalExists cs vs pos spec
  | ScalarSub name o spec =>
      let subVal := evalScalarSub spec cs vs in
      i ← colIdx cs name;
      Ok (match vs !! i with Some v => compareValues v o subVal | None => false end)
  | FuncLhs e c => Ok (evalCond (evalExprStr e cs vs) c)
  | Match names query mode => Ok (match_against names query mode cs vs)
  | Simple c => eval_simple cs vs c
  end.

Definition rowMatches (src : Table tree) (row : Row) (conds : list WhereCondition) (logic : bytes) : result bool :=
  match conds with
  | [] => Ok true
  | _ => eval_list (evalOne (columns_ src) (values row)) logic conds
  end.

(** *** The fast evaluator *)

Definition by_idx (row : Row) (c : Comparison * nat) : bool :=
  match values row !! c.2 with Some v => evalCond v c.1 | None => false end.

Definition rowMatchesByIdx (row : Row) (conds : list Comparison) (cis : list nat) (logic : bytes) : bool :=
  if bytes_eqb logic AND then forallb (by_idx row) (zip conds cis) else existsb (by_idx row) (zip conds cis).

(** *** Which conditions need the general evaluator ([hasCorrelated]) *)

Definition needsRow (cs : list Column) (e : bytes) : bool :=
  negb (bytes_eqb e []) && (looksArith e || bool_decide (is_Some (findColIdx cs e))).

Definition needs_general (cs : list Column) (c : WhereCondition) : bool :=
  match c with
  | Simple c =>
      (negb (bytes_eqb (col c) []) && looksArith (col c)) || needsRow cs (val c) ||
      (is_between (op c) && (needsRow cs (betweenLow c) || needsRow cs (betweenHigh c)))
  | _ => true
  end.

Definition hasCorrelated (cs : list Column) (conds : list WhereCondition) : bool := existsb (needs_general cs) conds.
End rows.

(** ** LIKE means what it says *)

(** The text a pattern character stands for. *)
Definition seg_ok (x : byte) (seg : bytes) : Prop :=
  if decide (x = PERCENT) then True else if decide (x = UNDERSCORE) then length seg = 1 else seg = [x].

(** The text is made of one piece per pattern character. *)
Definition Like (p s : bytes) : Prop := exists segs, Forall2 seg_ok p segs /\ mjoin segs = s.

Lemma Like_nil s : Like [] s <-> s = [].
Proof.
  split; [|intros ->; by exists []]. intros (segs & H & <-). by apply Forall2_nil_inv_l in H as ->.
Qed.

Lemma Like_snoc p x s :
  Like (p ++ [x]) s <-> exists s1 s2, s = s1 ++ s2 /\ Like p s1 /\ seg_ok x s2.
Proof.
  split.
  - intros (segs & H & <-). apply Forall2_app_inv_l in H as (l1 & l2 & H1 & H2 & ->).
    apply Forall2_cons_inv_l in H2 as (y & l3 & Hy & H3 & ->). apply Forall2_nil_inv_l in H3 as ->.
    rewrite mjoin_snoc. exists (mjoin l1), y. split_and!; [done| |done]. by exists l1.
  - intros (s1 & s2 & -> & (segs & H & <-) & Hx). exists (segs ++ [s2]). split.
    + by apply Forall2_app; [|constructor].
    + by rewrite mjoin_snoc.
Qed.

Lemma Like_percent_snoc p s c :
  Like (p ++ [PERCENT]) (s ++ [c]) <-> Like (p ++ [PERCENT]) s \/ Like p (s ++ [c]).
Proof.
  rewrite !Like_snoc. split.
  - intros (s1 & s2 & E & H & _). destruct s2 as [|d s2 _] using rev_ind.
    + rewrite app_nil_r in E. right. by rewrite E.
    + rewrite app_assoc in E. apply app_inj_tail in E as [-> ->]. left. by exists s1, s2.
  - intros [(s1 & s2 & -> & H & _)|H].
    + exists s1, (s2 ++ [c]). by rewrite app_assoc.
    + exists (s ++ [c]), []. by rewrite app_nil_r.
Qed.

Lemma Like_char_snoc p x s c :
  x <> PERCENT -> Like (p ++ [x]) (s ++ [c]) <-> (x = UNDERSCORE \/ x = c) /\ Like p s.
Proof.
  intros Hx. rewrite Like_snoc. unfold seg_ok. destruct (decide (x = PERCENT)); [done|]. split.
  - intros (s1 & s2 & E & H & Hs). case_decide as Hu.
    + destruct s2 as [|d [|]]; try done. apply app_inj_tail in E as [-> ->]. auto.
    + subst s2. apply app_inj_tail in E as [-> ->]. auto.
  - intros [Hc H]. exists s, [c]. split_and!; [done..|]. case_decide; [done|]. destruct Hc; by subst.
Qed.

Lemma Like_percent_nil p : Like (p ++ [PERCENT]) [] <-> Like p [].
Proof.
  rewrite Like_snoc. split.
  - by intros (s1 & s2 & [-> ->]%eq_sym%app_eq_nil & H & _).
  - intros H. by exists [], [].
Qed.

Lemma Like_char_nil p x : x <> PERCENT -> ~ Like (p ++ [x]) [].
Proof.
  intros Hx. rewrite Like_snoc. intros (s1 & s2 & E & _ & Hs). unfold seg_ok in Hs.
  destruct (decide (x = PERCENT)); [done|]. apply eq_sym, app_eq_nil in E as [_ ->]. by case_decide.
Qed.

(** Row entries from column [length p0] on, for the text [s]. *)
Definition row_ok (p0 p s : bytes) (row : list bool) : Prop :=
  length row = S (length p) /\ forall k b, row !! k = Some b -> (b = true <-> Like (p0 ++ take k p) s).

Lemma row_ok_cons p0 x p s b row :
  row_ok p0 (x :: p) s (b :: row) <-> (b = true <-> Like p0 s) /\ row_ok (p0 ++ [x]) p s row.
Proof.
  unfold row_ok. split.
  - intros [Hl H]. split; [|split; [simpl in *; lia|]].
    + rewrite (H 0 b); [|done]. by rewrite app_nil_r.
    + intros k b' Hk. rewrite (H (S k) b') by done. simpl. by rewrite <- app_assoc.
  - intros (Hb & Hl & H). split; [simpl in *; lia|]. intros [|k] b' Hk.
    + simpl in Hk. injection Hk as <-. by rewrite app_nil_r.
    + rewrite (H k b') by done. simpl. by rewrite <- app_assoc.
Qed.

Lemma row_ok_nil p0 s b : row_ok p0 [] s [b] <-> (b = true <-> Like p0 s).
Proof.
  unfold row_ok. split.
  - intros [_ H]. rewrite (H 0 b); [|done]. by rewrite app_nil_r.
  - intros Hb. split; [done|]. intros [|k] b' Hk; [|done]. simpl in Hk. injection Hk as <-. by rewrite app_nil_r.
Qed.

Lemma row_ok_singleton p0 s row : row_ok p0 [] s row -> exists b, row = [b].
Proof. intros [H _]. destruct row as [|b [|]]; try done. by exists b. Qed.

Lemma like_first_ok p0 p b : (b = true <-> Like p0 []) -> row_ok p0 p [] (b :: like_first b p).
Proof.
  revert p0 b. induction p as [|x p IH]; intros p0 b Hb; cbn [like_first]; [by apply row_ok_nil|].
  apply row_ok_cons. split; [done|]. apply IH. destruct (Z.eqb_spec x PERCENT) as [->|Hx]; simpl.
  - by rewrite Like_percent_nil.
  - split; [done|]. by intros ?%Like_char_nil.
Qed.

Lemma like_step_ok c p0 p s prev left :
  row_ok p0 p s prev -> (left = true <-> Like p0 (s ++ [c])) ->
  row_ok p0 p (s ++ [c]) (left :: like_step c p prev left).
Proof.
  revert p0 prev left. induction p as [|x p IH]; intros p0 prev left Hp Hl; cbn [like_step]; [by apply row_ok_nil|].
  destruct prev as [|diag prev]; [by destruct Hp|]. apply row_ok_cons in Hp as [Hd Hp].
  apply row_ok_cons. split; [done|]. apply (IH (p0 ++ [x])); [done|].
  destruct (Z.eqb_spec x PERCENT) as [->|Hx].
  - rewrite Like_percent_snoc, orb_true_iff, Hl. assert (exists b r, prev = b :: r) as (b & r & ->).
    { destruct Hp as [H _]. destruct prev as [|b r]; [done|]. by exists b, r. }
    destruct Hp as [_ H]. cbn [hd]. rewrite (H 0 b) by done. by rewrite app_nil_r.
  - rewrite Like_char_snoc, andb_true_iff, orb_true_iff, !Z.eqb_eq, Hd by done. done.
Qed.

Lemma like_rows_ok p t s row : row_ok [] p t row -> row_ok [] p (t ++ s) (fold_left (like_row p) s row).
Proof.
  revert t row. induction s as [|c s IH]; intros t row H; cbn [fold_left]; [by rewrite app_nil_r|].
  replace (t ++ c :: s) with ((t ++ [c]) ++ s) by (by rewrite <- app_assoc).
  apply IH. apply like_step_ok; [done|]. split; [done|]. rewrite Like_nil. by destruct t.
Qed.

Lemma row_ok_last p s row : row_ok [] p s row -> List.last row false = true <-> Like p s.
Proof.
  intros [Hl H]. destruct row as [|b row _] using rev_ind; [done|]. rewrite List.last_last.
  rewrite length_app in Hl. simpl in Hl. rewrite (H (length row) b).
  - by rewrite firstn_all2 by lia.
  - rewrite lookup_app_r by done. by rewrite Nat.sub_diag.
Qed.

(** LIKE: the dynamic program accepts a text exactly when it can be cut
    into one piece per pattern character, any text for [%], one character for
    [_] and itself for any other. *)
Theorem likeMatch_Like s p : likeMatch s p = true <-> Like p s.
Proof.
  unfold likeMatch. apply row_ok_last. apply (like_rows_ok p [] s), like_first_ok. by rewrite Like_nil.
Qed.

(** ** The fast evaluator agrees with the general one *)

(** The schema of a base table: distinct, unqualified, non-empty names. *)
Definition plain_schema (cs : list Column) : Prop :=
  Forall plain_name (names cs) /\ NoDup (names cs) /\ [] ∉ names cs.

(** At most one dot: the parts behind the first and the last dot are the same. *)
Definition one_dot (s : bytes) : Prop := bare s = (split_name s).2.

Lemma find_char_none c s : find_char c s = None <-> c ∉ s.
Proof.
  induction s as [|x s IH]; simpl; [split; [intros _; apply not_elem_of_nil|done]|].
  rewrite not_elem_of_cons. destruct (Z.eqb_spec x c) as [->|Hx]; [split; [done|tauto]|].
  rewrite fmap_None, IH. split; [|tauto]. intros H. split; [congruence|done].
Qed.

Lemma bare_plain s : plain_name s -> bare s = s.
Proof. unfold bare, plain_name. intros H. by rewrite (proj2 (find_char_none DOT s) H). Qed.

Lemma list_find_ext_in {A} (P Q : A -> Prop) `{!forall x, Decision (P x), !forall x, Decision (Q x)} (l : list A) :
  (forall x, x ∈ l -> P x <-> Q x) -> list_find P l = list_find Q l.
Proof.
  induction l as [|x l IH]; intros HPQ; [done|]. cbn [list_find].
  assert (P x <-> Q x) as Hx by apply HPQ, list_elem_of_here.
  rewrite IH by (intros y Hy; by apply HPQ, list_elem_of_further). repeat case_decide; tauto.
Qed.

Lemma findColIdx_plain cs name :
  Forall plain_name (names cs) ->
  findColIdx cs name =
    match list_find (fun c => c_name c = name) cs with
    | Some (i, _) => Some i
    | None => fst <$> list_find (fun c => c_name c = bare name) cs
    end.
Proof.
  intros Hp. unfold findColIdx. destruct (list_find _ cs) as [[]|]; [done|]. f_equal.
  apply list_find_ext_in. intros c Hc. rewrite bare_plain; [done|].
  rewrite Forall_forall in Hp. by apply Hp, list_elem_of_fmap_2.
Qed.

(** Without a qualifier the only match is counted once. *)
Lemma colOf_loop_unqualified i cs raw :
  Forall plain_name (names cs) -> NoDup (names cs) ->
  colOf_loop i cs raw [] None 0 = (fun j => i + j) <$> (fst <$> list_find (fun c => c_name c = raw) cs).
Proof.
  revert i. induction cs as [|c cs IH]; intros i Hp Hn; [done|]. cbn [colOf_loop list_find].
  apply Forall_cons in Hp as [Hc Hp]. apply NoDup_cons in Hn as [Hc' Hn]. rewrite split_plain by done.
  unfold bytes_eqb at 1. case_decide as E.
  - rewrite bool_decide_true by done. change (bytes_eqb [] []) with true. cbn [negb].
    rewrite colOf_loop_fresh; [simpl; f_equal; lia|done|]. by rewrite <- E.
  - rewrite bool_decide_false by done. cbn [negb]. rewrite IH by done.
    destruct (list_find _ cs) as [[j k]|]; simpl; [f_equal; lia|done].
Qed.

(** With a qualifier the first match is taken: plain columns accept any. *)
Lemma colOf_loop_qualified i cs raw pre bm bc :
  Forall plain_name (names cs) -> pre <> [] -> bc = 0 ->
  colOf_loop i cs raw pre bm bc = (fun j => i + j) <$> (fst <$> list_find (fun c => c_name c = raw) cs).
Proof.
  revert i. induction cs as [|c cs IH]; intros i Hp Hpre ->; [done|]. cbn [colOf_loop list_find].
  apply Forall_cons in Hp as [Hc Hp]. rewrite split_plain by done.
  unfold bytes_eqb at 1. case_decide as E.
  - rewrite bool_decide_true by done. cbn [negb]. unfold bytes_eqb at 1. rewrite bool_decide_false by done.
    cbn [negb]. simpl. f_equal. lia.
  - rewrite bool_decide_false by done. cbn [negb]. rewrite IH by done.
    destruct (list_find _ cs) as [[j k]|]; simpl; [f_equal; lia|done].
Qed.

(** Both lookups of a name agree on a base table. *)
Lemma findColIdx_colOf cs name : plain_schema cs -> one_dot name -> findColIdx cs name = colOf_cols cs name.
Proof.
  intros (Hp & Hn & _) H1. rewrite findColIdx_plain by done. unfold colOf_cols, one_dot in *.
  assert (forall o : option nat, o = (fun j => 0 + j) <$> o) as Hadd by by intros [].
  destruct (list_find _ cs) as [[i k]|] eqn:E; [done|]. rewrite H1. clear H1.
  unfold split_name. destruct (rfind_char DOT name) as [p|] eqn:Er; cbn [snd default].
  - destruct (decide (take p name = [])) as [Hpre|Hpre].
    + rewrite Hpre, colOf_loop_unqualified by done. apply Hadd.
    + rewrite colOf_loop_qualified by done. apply Hadd.
  - change (default [] None : bytes) with ([] : bytes). rewrite colOf_loop_unqualified, E by done. done.
Qed.

Lemma colOf_bound cs name i : plain_schema cs -> one_dot name -> colOf_cols cs name = Some i -> i < length cs.
Proof.
  intros Hs H1. rewrite <- findColIdx_colOf by done. rewrite findColIdx_plain by apply Hs.
  destruct (list_find _ cs) as [[j k]|] eqn:E.
  - intros [= ->]. apply list_find_Some in E as (E & _). by apply lookup_lt_Some in E.
  - intros H. apply fmap_Some in H as ([j k] & H & ->). apply list_find_Some in H as (H & _).
    by apply lookup_lt_Some in H.
Qed.

Section fast.
Context {DB : Double} {tree : Type} {RI : RowIndex tree}.
Context (regex_search : bytes -> bytes -> option bool).
Context (evalExprStr : bytes -> list Column -> list bytes -> bytes).
Context (match_against : list bytes -> bytes -> bytes -> list Column -> list bytes -> bool).
Context (formatNum : dbl -> bytes) (dcount : nat -> dbl).
Context (tables_ : gmap bytes (Table tree)).

Lemma operand_literal cs vs e : plain_schema cs -> needsRow cs e = false -> operand cs vs e = e.
Proof.
  intros (Hp & _ & Hne) H. unfold operand, column_value.
  assert (findColIdx cs e = None /\ looksArith e = false) as [-> ->]; [|done].
  unfold needsRow, bytes_eqb in H. case_bool_decide as E.
  - subst e. split; [|done]. rewrite findColIdx_plain by done. change (bare []) with ([] : bytes).
    assert (forall i c, cs !! i = Some c -> c_name c <> []) as Hc.
    { intros i c Hi Ec. apply Hne, list_elem_of_fmap. exists c. split; [done|]. by eapply list_elem_of_lookup_2. }
    destruct (list_find _ cs) as [[i c]|] eqn:E1; [by apply list_find_Some in E1 as (?%Hc & ? & _)|].
    destruct (list_find (fun c => c_name c = []) cs) as [[i c]|] eqn:E2; [|done].
    by apply list_find_Some in E2 as (?%Hc & ? & _).
  - simpl in H. apply orb_false_iff in H as [-> H]. split; [|done].
    apply bool_decide_eq_false in H. by apply eq_None_not_Some.
Qed.

Lemma resolve_literal cs vs c :
  plain_schema cs -> needs_general cs (Simple c) = false -> resolve cs vs c = c.
Proof.
  intros Hs H. cbn [needs_general] in H. apply orb_false_iff in H as [H Hb]. apply orb_false_iff in H as [_ Hv].
  unfold resolve. rewrite operand_literal by done.
  destruct (is_between (op c)); [|by destruct c]. cbn [andb] in Hb. apply orb_false_iff in Hb as [Hlo Hhi].
  rewrite !operand_literal by done. by destruct c.
Qed.

Lemma eval_simple_by_idx cs row c i :
  plain_schema cs -> length (values row) = length cs -> one_dot (col c) ->
  needs_general cs (Simple c) = false -> colIdx cs (col c) = Ok i ->
  eval_simple regex_search cs (values row) c = Ok (by_idx regex_search row (c, i)).
Proof.
  intros Hs Hw H1 Hg Hi. unfold eval_simple, lhs_value, column_value, by_idx, colIdx in *.
  rewrite findColIdx_colOf by done. destruct (colOf_cols cs (col c)) as [j|] eqn:Ej; [|done]. injection Hi as <-.
  apply colOf_bound in Ej; [|done..]. rewrite <- Hw in Ej. apply lookup_lt_is_Some in Ej as [v Hv].
  cbn [mbind option_bind snd fst]. rewrite Hv. cbn. by rewrite resolve_literal.
Qed.

(** The column numbers computed for the fast path. *)
Fixpoint colIdxs (cs : list Column) (conds : list Comparison) : result (list nat) :=
  match conds with
  | [] => Ok []
  | c :: conds' => i ← colIdx cs (col c); js ← colIdxs cs conds'; Ok (i :: js)
  end.

Lemma eval_list_by_idx cs row conds cis logic :
  plain_schema cs -> length (values row) = length cs -> Forall (fun c => one_dot (col c)) conds ->
  hasCorrelated cs (Simple <$> conds) = false -> colIdxs cs conds = Ok cis ->
  eval_list (evalOne regex_search evalExprStr match_against formatNum dcount tables_ cs (values row)) logic
    (Simple <$> conds) = Ok (rowMatchesByIdx regex_search row conds cis logic).
Proof.
  intros Hs Hw H1 Hg Hc. unfold eval_list, rowMatchesByIdx.
  destruct (bytes_eqb logic AND); revert cis Hc; induction H1 as [|c conds Hc1 _ IH]; intros cis Hc; try done;
    cbn [colIdxs] in Hc; destruct (colIdx cs (col c)) as [i|] eqn:Ei; try done; cbn in Hc;
    destruct (colIdxs cs conds) as [js|]; try done; cbn in Hc; injection Hc as <-;
    cbn [fmap list_fmap hasCorrelated existsb] in Hg |- *; apply orb_false_iff in Hg as [Hg1 Hg2];
    cbn [evalOne]; rewrite (eval_simple_by_idx cs row c i) by done; cbn [mbind result_bind zip zip_with forallb existsb];
    destruct (by_idx regex_search row (c, i)); try done; by apply IH.
Qed.

(** The fast evaluator is exact: on a base table, a list of conditions that
    the code recognises as needing no per-row name resolution gets, with the
    column numbers found beforehand, the verdict of the general evaluator on
    every row. *)
Theorem rowMatchesByIdx_exact (src : Table tree) row conds cis logic :
  plain_schema (columns_ src) -> length (values row) = length (columns_ src) ->
  Forall (fun c => one_dot (col c)) conds -> conds <> [] ->
  hasCorrelated (columns_ src) (Simple <$> conds) = false -> colIdxs (columns_ src) conds = Ok cis ->
  rowMatches regex_search evalExprStr match_against formatNum dcount tables_ src row (Simple <$> conds) logic =
    Ok (rowMatchesByIdx regex_search row conds cis logic).
Proof.
  intros Hs Hw H1 Hne Hg Hc. rewrite <- (eval_list_by_idx (columns_ src) row conds cis logic) by done.
  unfold rowMatches. by destruct conds.
Qed.
End fast.

(** ** A table to evaluate on, and what NULL and deleted rows do *)

Definition no_regex (s p : bytes) : option bool := None.
Definition no_func (e : bytes) (cs : list Column) (vs : list bytes) : bytes := NULL.
Definition no_match (names : list bytes) (q m : bytes) (cs : list Column) (vs : list bytes) : bool := false.
Definition int_count (n : nat) : @dbl IntDouble := Some (Z.of_nat n).

Definition ex_conds : list Comparison :=
  [ mkCmp (str "city") LIKE (str "'R_m%'") [] [] [];
    mkCmp (str "t.id") NOT_IN [] [str "2"; str "3"] [] [] ].

Definition ex_row : Row := row_of [str "1"; str "Rom"].

Lemma rowMatchesByIdx_exact_witness :
  rowMatches no_regex no_func no_match print int_count ∅ ex_table ex_row (Simple <$> ex_conds) AND =
    Ok (rowMatchesByIdx no_regex ex_row ex_conds [1; 0] AND).
Proof.
  apply (rowMatchesByIdx_exact no_regex no_func no_match print int_count ∅ ex_table ex_row ex_conds [1; 0] AND).
  - split_and!; by_decide.
  - by vm_compute.
  - repeat constructor; by vm_compute.
  - done.
  - by vm_compute.
  - by vm_compute.
Defined.

Example ex_row_matches : rowMatchesByIdx no_regex ex_row ex_conds [1; 0] AND = true.
Proof. by vm_compute. Qed.

(** LIKE is tested before the check for NULL. *)
Lemma null_like_matches : compareValues no_regex NULL LIKE (str "N%") = true.
Proof. by vm_compute. Qed.

(** NULL NOT IN a list that does not spell it is true. *)
Lemma null_not_in_true c :
  op c = NOT_IN -> Forall (fun v => v <> NULL) (inList c) -> evalCond no_regex NULL c = true.
Proof.
  intros Ho H. unfold evalCond. rewrite Ho. induction H as [|v vs Hv _ IH]; [done|]. cbn [existsb].
  unfold bytes_eqb at 1. by rewrite bool_decide_false.
Qed.

Section findings.
Context {DB : Double} {tree : Type} {RI : RowIndex tree}.
Context (regex_search : bytes -> bytes -> option bool) (formatNum : dbl -> bytes) (dcount : nat -> dbl).

(** A scalar subquery without an aggregate, the documented raw value, is NULL. *)
Lemma raw_scalar_is_null (tables_ : gmap bytes (Table tree)) spec cs vs :
  aggFunc spec = [] -> evalScalarSub regex_search formatNum dcount tables_ spec cs vs = NULL.
Proof. intros H. unfold evalScalarSub. destruct (tables_ !! _); [|done]. by rewrite H. Qed.
End findings.

(** A deleted row still makes EXISTS true. *)
Definition ex_spec : ExistsSpec := mkExists (str "t") (str "id") EQ (str "'1'") [] AND.

Lemma exists_sees_deleted_rows :
  evalExists no_regex {[str "t" := ex_dead]} [] [] true ex_spec = Ok true /\
  List.filter (fun r => alive r && bool_decide (values r !! 0 = Some (str "1"))) (rows_ ex_dead) = [].
Proof. by vm_compute. Qed.
