(* ===== verification/Select.v ===== *)
(** * SELECT with WHERE ([src/engine/engine.hpp]: [selectWhere],
    [parallelFilter_], [collectInheritedRows_], [applyRls_], [selectPartitioned])

    One table is read along one of four paths: an index, the general row
    evaluator, the fast one, or the fast one in several threads; then rows of
    child tables are added and row-level security filters the result.  The
    scanning paths are shown to return the live rows that satisfy the
    conditions, and every path to return only rows that a policy allows. *)

From S2P Require Import Prelude Index BTree Partition Table Joins Arith Where.

Record RlsPolicy := mkPolicy { p_command : bytes; p_role : bytes; usingExpr : bytes; withCheckExpr : bytes }.

(** The part of the engine a SELECT reads. *)
Record Engine := mkEngine {
  tables_ : gmap bytes (Table BTree); tableChildren_ : gmap bytes (list bytes);
  partitionMeta_ : gmap bytes PartitionInfo;
  rlsEnabled_ : gset bytes; rlsPolicies_ : gmap bytes (list RlsPolicy); currentUser_ : bytes;
  numWorkers : nat; threshold : nat }.

Definition MAX_RESULT_ROWS : nat := Z.to_nat 100000.

(** ** Threads *)

(** Worker [w] gets the [w]-th chunk; the partial results are joined in order. *)
Definition chunk_of (rows : list Row) (size w : nat) : list Row := take size (drop (w * size) rows).

Definition parallelFilter_ (test : Row -> bool) (rows : list Row) (workers : nat) : list Row :=
  if (length rows =? 0) || (workers <=? 1) then []
  else
    let size := (length rows + workers - 1) / workers in
    mjoin (map (fun w => List.filter (fun r => alive r && test r) (chunk_of rows size w)) (seq 0 workers)).

Section select.
Context {DB : Double}.
Context (regex_search : bytes -> bytes -> option bool).
Context (evalExprStr : bytes -> list Column -> list bytes -> bytes).
Context (match_against : list bytes -> bytes -> bytes -> list Column -> list bytes -> bool).
Context (formatNum : dbl -> bytes) (dcount : nat -> dbl).
(** The optimizer's hook: may the index be used? *)
Context (g_indexPathAdvisor : bytes -> list WhereCondition -> bool).
(** [evaluateRlsExpr_]: a policy's expression on a row, with the column names. *)
Context (evaluateRlsExpr_ : bytes -> Row -> list bytes -> bool).

Abbreviation rowMatches db := (rowMatches regex_search evalExprStr match_against formatNum dcount (tables_ db)).
Abbreviation rowMatchesByIdx := (rowMatchesByIdx regex_search).

(** ** Row-level security *)

Definition ROOT : bytes := str "root".
Definition ALL : bytes := str "ALL".
Definition PUBLIC : bytes := str "PUBLIC".
Definition SELECT : bytes := str "SELECT".

(** The policy is for this command and this user. *)
Definition policy_applies (db : Engine) (cmd : bytes) (p : RlsPolicy) : bool :=
  (bytes_eqb (p_command p) ALL || bytes_eqb (p_command p) cmd) &&
  (bytes_eqb (p_role p) PUBLIC || bytes_eqb (p_role p) (currentUser_ db)).

Definition allowed_row (db : Engine) (cmd : bytes) (ps : list RlsPolicy) (colNames : list bytes) (r : Row) : bool :=
  existsb (fun p => policy_applies db cmd p && evaluateRlsExpr_ (usingExpr p) r colNames) ps.

(** Row-level security does not bind the user. *)
Definition rls_exempt (db : Engine) (table : bytes) : bool :=
  negb (bool_decide (table ∈ rlsEnabled_ db)) || bytes_eqb (currentUser_ db) ROOT || bytes_eqb (currentUser_ db) [].

Definition applyRls_ (db : Engine) (table : bytes) (rows : list Row) (cmd : bytes) : list Row :=
  if rls_exempt db table then rows
  else
    match rlsPolicies_ db !! table, tables_ db !! table with
    | Some ((_ :: _) as ps), Some t =>
        List.filter (fun r => alive r && allowed_row db cmd ps (names (columns_ t)) r) rows
    | _, _ => []
    end.

(** The last step of every path: the filter, and a new result if it removed rows. *)
Definition with_rls (db : Engine) (tblName : bytes) (result : Table BTree) (usedIndex truncate : bool)
  : Prelude.result (Table BTree * bool) :=
  let filtered := applyRls_ db tblName (rows_ result) SELECT in
  if length filtered =? length (rows_ result)
  then Ok (if truncate then truncateRows MAX_RESULT_ROWS result else result, usedIndex)
  else r ← insert_all (table tblName (columns_ result)) filtered; Ok (r, usedIndex).

(** ** Scanning *)

(** Live rows that pass the test are inserted into the result, one by one. *)
Fixpoint scan (test : Row -> result bool) (rows : list Row) (result : Table BTree) : Prelude.result (Table BTree) :=
  match rows with
  | [] => Ok result
  | r :: rows' =>
      if alive r then
        b ← test r;
        if (b : bool) then result ← insert_row result r; scan test rows' result
        else scan test rows' result
      else scan test rows' result
  end.

(** The first [n] values, padded with NULL. *)
Definition project_row (n : nat) (r : Row) : Row :=
  let vs := take n (values r) in row_of (vs ++ replicate (n - length vs) NULL).

(** The rows of the children, of their children, and so on; the fuel bounds the
    depth of the hierarchy.  They are appended without any check. *)
Fixpoint inherited (fuel : nat) (db : Engine) (parent : bytes) (width : nat) (keep : Row -> bool) : list Row :=
  match fuel with
  | O => []
  | S f =>
      mjoin (map (fun child =>
        match tables_ db !! child with
        | Some t =>
            List.filter keep (map (project_row width) (List.filter alive (rows_ t))) ++
            inherited f db child width keep
        | None => []
        end) (default [] (tableChildren_ db !! parent)))
  end.

Definition collectInheritedRows_ (fuel : nat) (db : Engine) (parent : bytes) (width : nat)
    (conds : list Comparison) (cis : list nat) (logic : bytes) (allRows : bool) (result : Table BTree) : Table BTree :=
  let keep r := allRows || bool_decide (conds = []) || rowMatchesByIdx r conds cis logic in
  with_rows result (rows_ result ++ inherited fuel db parent width keep).

(** ** Index path *)

Definition range_op_of (o : operator) : range_op :=
  match o with GT => OpGt | GE => OpGe | LT => OpLt | LE => OpLe | BETWEEN => OpBetween | _ => OpOther end.

Definition indexable (o : operator) : bool :=
  match o with EQ | GT | GE | LT | LE | BETWEEN => true | _ => false end.

(** The fields [col], [op], [val] and the bounds of a condition, whatever its
    flags: a scalar subquery sets the first two and leaves the others empty. *)
Definition fields (c : WhereCondition) : option Comparison :=
  match c with
  | Simple c => Some c
  | ScalarSub name o _ => Some (mkCmp name o [] [] [] [])
  | _ => None
  end.

Definition indexRangeSearch (t : Table BTree) (colName lo hi : bytes) (o : operator) : list nat :=
  match List.find (leads colName) (str_iter (indices_ t)) with
  | Some (_, e) => rangeSearch dzero stod dlt dle (ix_tree e) lo hi (range_op_of o)
  | None => []
  end.

Definition index_rows (t : Table BTree) (c : Comparison) : list nat :=
  let v := stripQuotes (val c) in
  match op c with
  | EQ => indexSearch t (col c) v
  | BETWEEN => indexRangeSearch t (col c) (stripQuotes (betweenLow c)) (stripQuotes (betweenHigh c)) BETWEEN
  | o =>
      let lo := if bool_decide (o = GT \/ o = GE) then v else [] in
      let hi := if bool_decide (o = LT \/ o = LE) then v else [] in
      indexRangeSearch t (col c) lo hi o
  end.

(** The condition that is looked up in an index, if one is. *)
Definition index_condition (tblName : bytes) (src : Table BTree) (conds : list WhereCondition) : option Comparison :=
  match conds with
  | [c] =>
      match fields c with
      | Some cmp =>
          if hasIndex src (col cmp) && indexable (op cmp) && g_indexPathAdvisor tblName conds then Some cmp else None
      | None => None
      end
  | _ => None
  end.

(** ** Partitions *)

Definition op_text (o : operator) : bytes :=
  match o with
  | EQ => str "=" | NE => str "!=" | LT => str "<" | GT => str ">" | LE => str "<=" | GE => str ">="
  | LIKE => str "LIKE" | IS_NULL => str "IS NULL" | IS_NOT_NULL => str "IS NOT NULL"
  | REGEXP => str "REGEXP" | NOT_REGEXP => str "NOT REGEXP" | IN => str "IN" | NOT_IN => str "NOT IN"
  | BETWEEN => str "BETWEEN" | NOT_BETWEEN => str "NOT BETWEEN" | OTHER => []
  end.

Definition prune_view (c : WhereCondition) : Partition.WhereCondition :=
  match fields c with
  | Some c => mkCond (col c) (op_text (op c)) (val c)
  | None => mkCond [] [] []
  end.

Fixpoint scan_partitions (db : Engine) (conds : list WhereCondition) (logic : bytes) (children : list bytes)
    (result : Table BTree) : Prelude.result (Table BTree) :=
  match children with
  | [] => Ok result
  | ch :: children' =>
      match tables_ db !! ch with
      | None => scan_partitions db conds logic children' result
      | Some t =>
          result ← scan (fun r => rowMatches db t r conds logic) (rows_ t) result;
          scan_partitions db conds logic children' result
      end
  end.

Definition selectPartitioned (db : Engine) (pkey : bytes) (pi : PartitionInfo) (conds : list WhereCondition)
    (logic : bytes) : result (Table BTree) :=
  parent ← getTable (tables_ db) pkey;
  scan_partitions db conds logic (pruneChildren pi (map prune_view conds) logic) (table pkey (columns_ parent)).

(** ** [selectWhere] *)

Definition simple_conds (conds : list WhereCondition) : list Comparison := omap fields conds.

Definition selectWhere (fuel : nat) (db : Engine) (tblName : bytes) (conds : list WhereCondition) (logic : bytes)
    (fromOnly : bool) : result (Table BTree * bool) :=
  match partitionMeta_ db !! tblName with
  | Some (mkPartitionInfo _ _ _ _ _ true _ as pi) =>
      merged ← selectPartitioned db tblName pi conds logic; Ok (merged, false)
  | _ =>
      src ← getTable (tables_ db) tblName;
      let cs := columns_ src in
      let result := table tblName cs in
      match conds with
      | [] =>
          result ← scan (fun _ => Ok true) (rows_ src) result;
          with_rls db tblName result false false
      | _ =>
          match index_condition tblName src conds with
          | Some c =>
              result ← insert_all result
                (List.filter alive (omap (fun ri => rows_ src !! ri) (index_rows src c)));
              with_rls db tblName result true true
          | None =>
              if hasCorrelated cs conds then
                result ← scan (fun r => rowMatches db src r conds logic) (rows_ src) result;
                with_rls db tblName result false false
              else
                let simple := simple_conds conds in
                cis ← colIdxs cs simple;
                result ← (if (1 <? numWorkers db) && (threshold db <=? length (rows_ src))
                          then insert_all result
                                 (parallelFilter_ (fun r => rowMatchesByIdx r simple cis logic) (rows_ src) (numWorkers db))
                          else scan (fun r => Ok (rowMatchesByIdx r simple cis logic)) (rows_ src) result);
                let result := if fromOnly then result
                              else collectInheritedRows_ fuel db tblName (length cs) simple cis logic false result in
                with_rls db tblName result false true
          end
      end
  end.
End select.

(** ** The threads compute a filter *)

Lemma filter_mjoin (p : Row -> bool) ls : List.filter p (mjoin ls) = mjoin (map (List.filter p) ls).
Proof. induction ls as [|l ls IH]; [done|]. cbn [map]. by rewrite !mjoin_cons, List.filter_app, IH. Qed.

Lemma mjoin_chunks rows size k : mjoin (map (chunk_of rows size) (seq 0 k)) = take (k * size) rows.
Proof.
  induction k as [|k IH]; [done|]. rewrite seq_S, map_app. cbn [map plus]. rewrite mjoin_snoc, IH.
  unfold chunk_of. rewrite take_take_drop. f_equal. lia.
Qed.

Lemma parallelFilter_filter test rows workers :
  1 < workers -> parallelFilter_ test rows workers = List.filter (fun r => alive r && test r) rows.
Proof.
  intros Hw. unfold parallelFilter_. destruct (Nat.eqb_spec (length rows) 0) as [E|E].
  { by apply nil_length_inv in E as ->. }
  rewrite (proj2 (Nat.leb_gt workers 1)) by done. cbn [orb].
  rewrite <- (map_map (chunk_of rows _)), <- filter_mjoin, mjoin_chunks, firstn_all2; [done|].
  pose proof (Nat.div_mod_eq (length rows + workers - 1) workers).
  pose proof (Nat.mod_upper_bound (length rows + workers - 1) workers ltac:(lia)). lia.
Qed.

(** ** Rows of a valid table can be inserted again *)

Lemma column_ok_cons i c r rs :
  column_ok i c (r :: rs) <->
    column_ok i c rs /\ (notNull c = true -> values r !! i <> Some NULL) /\
    (isUnique c = true -> alive r = true -> forall r' v, r' ∈ rs -> alive r' = true ->
       values r !! i = Some v -> values r' !! i = Some v -> v = NULL).
Proof.
  unfold column_ok. split.
  - intros [Hn Hu]. split_and!.
    + intros H a r' Ha. by apply (Hn H (S a) r').
    + intros H a b r1 r2 v Ha Hb Hne. apply (Hu H (S a) (S b) r1 r2 v); auto with lia.
    + intros H. by apply (Hn H 0 r).
    + intros H Hr r' v [b Hb]%list_elem_of_lookup_1 Hr' Hv Hv'. by apply (Hu H 0 (S b) r r' v).
  - intros ([Hn Hu] & Hn0 & Hu0). split.
    + intros H [|a] r' Ha; [injection Ha as <-; auto|]. by apply (Hn H a).
    + intros H [|a] [|b] r1 r2 v Ha Hb Hne H1 H2 V1 V2; try done.
      * injection Ha as <-. apply (Hu0 H H1 r2 v); [by eapply list_elem_of_lookup_2|done..].
      * injection Hb as <-. apply (Hu0 H H2 r1 v); [by eapply list_elem_of_lookup_2|done..].
      * apply (Hu H a b r1 r2 v); auto with lia.
Qed.

Lemma column_ok_sublist i c rs rs' : sublist rs' rs -> column_ok i c rs -> column_ok i c rs'.
Proof.
  induction 1 as [|r l1 l2 H IH|r l1 l2 H IH]; [done| |].
  - rewrite !column_ok_cons. intros (H1 & H2 & H3). split_and!; auto.
    intros Hu Hr r' v Hr'. apply H3; [done..|]. by apply (elem_of_sublist l1).
  - rewrite column_ok_cons. intros [H1 _]. auto.
Qed.

Lemma sublist_list_filter {A} (p : A -> bool) (l : list A) : sublist (List.filter p l) l.
Proof. induction l as [|x l IH]; [done|]. cbn [List.filter]. destruct (p x); by constructor. Qed.

Lemma column_ok_app_l i c rs1 rs2 : column_ok i c (rs1 ++ rs2) -> column_ok i c rs1.
Proof. apply column_ok_sublist. by apply sublist_inserts_r. Qed.

(** Rows fit: as many values as columns, alive, no violated constraint. *)
Definition rows_fit (cs : list Column) (rs : list Row) : Prop :=
  Forall (fun r => length (values r) = length cs /\ alive r = true) rs /\
  forall i c, cs !! i = Some c -> column_ok i c rs.

Lemma rows_fit_sublist cs rs rs' : sublist rs' rs -> rows_fit cs rs -> rows_fit cs rs'.
Proof.
  intros Hs [Hf Hc]. split; [|intros i c Hi; by eapply column_ok_sublist; [|apply Hc]].
  rewrite Forall_forall in Hf |- *. intros r Hr. by apply Hf, (elem_of_sublist rs').
Qed.

Lemma rows_fit_insert (t : Table BTree) r :
  rows_fit (columns_ t) (rows_ t ++ [r]) ->
  exists t', insert_row t r = Ok t' /\ columns_ t' = columns_ t /\ rows_ t' = rows_ t ++ [r].
Proof.
  intros [Hf Hc]. apply Forall_app in Hf as [_ Hr]. apply Forall_cons in Hr as [[Hw Ha] _].
  unfold insert_row. rewrite Hw, Nat.eqb_refl. cbn [negb].
  rewrite (proj2 (check_constraints_ok 0 (columns_ t) (values r) (rows_ t))); [by eexists|].
  intros i c v Hi Hv. destruct (Hc i c Hi) as [Hn Hu].
  assert ((rows_ t ++ [r]) !! length (rows_ t) = Some r) as Hlast by (rewrite lookup_app_r, Nat.sub_diag by done; done).
  split; apply not_true_is_false.
  - intros [H1 H2]%andb_prop. apply bool_decide_eq_true in H2 as ->. by apply (Hn H1 _ _ Hlast).
  - intros [[H1 H2]%andb_prop H3]%andb_prop. apply duplicate_spec in H3 as (a & r' & Hr' & Ha' & Hv').
    apply negb_true_iff, bool_decide_eq_false in H2. apply H2.
    apply (Hu H1 a (length (rows_ t)) r' r v); try done.
    + by apply lookup_app_l_Some.
    + apply lookup_lt_Some in Hr'. lia.
Qed.

(** A scan keeps the live rows that pass the test, in order. *)
Lemma scan_ok test v rows (t : Table BTree) :
  (forall r, r ∈ rows -> alive r = true -> test r = Ok (v r)) ->
  rows_fit (columns_ t) (rows_ t ++ List.filter (fun r => alive r && v r) rows) ->
  exists t', scan test rows t = Ok t' /\ columns_ t' = columns_ t /\
    rows_ t' = rows_ t ++ List.filter (fun r => alive r && v r) rows.
Proof.
  revert t. induction rows as [|r rows IH]; intros t Ht Hfit; cbn [scan List.filter] in *.
  { exists t. by rewrite app_nil_r. }
  destruct (alive r) eqn:Ha; cbn [andb] in *; [|apply IH; [|done]; intros r' Hr'; by apply Ht, list_elem_of_further].
  rewrite Ht by (apply list_elem_of_here || done). cbn [mbind result_bind].
  destruct (v r); [|apply IH; [|done]; intros r' Hr'; by apply Ht, list_elem_of_further].
  destruct (rows_fit_insert t r) as (t1 & -> & Ec & Er).
  { eapply rows_fit_sublist; [|exact Hfit]. apply sublist_app; [done|]. apply sublist_skip, sublist_nil_l. }
  cbn [mbind result_bind]. destruct (IH t1) as (t' & -> & Ec' & Er').
  - intros r' Hr'. by apply Ht, list_elem_of_further.
  - by rewrite Ec, Er, <- app_assoc.
  - exists t'. split; [done|]. by rewrite Ec', Er', Ec, Er, <- app_assoc.
Qed.

Lemma insert_all_scan rows (t : Table BTree) :
  Forall (fun r => alive r = true) rows -> insert_all t rows = scan (fun _ => Ok true) rows t.
Proof.
  intros H. revert t. induction H as [|r rows Hr _ IH]; intros t; [done|]. cbn [insert_all scan]. rewrite Hr.
  cbn [mbind result_bind]. destruct (insert_row t r); [apply IH|done].
Qed.

(** ** What a SELECT returns *)

Section paths.
Context {DB : Double}.
Context (regex_search : bytes -> bytes -> option bool).
Context (evalExprStr : bytes -> list Column -> list bytes -> bytes).
Context (match_against : list bytes -> bytes -> bytes -> list Column -> list bytes -> bool).
Context (formatNum : dbl -> bytes) (dcount : nat -> dbl).
Context (g_indexPathAdvisor : bytes -> list WhereCondition -> bool).
Context (evaluateRlsExpr_ : bytes -> Row -> list bytes -> bool).

Abbreviation rowMatches db := (rowMatches regex_search evalExprStr match_against formatNum dcount (tables_ db)).
Abbreviation rowMatchesByIdx := (rowMatchesByIdx regex_search).
Abbreviation applyRls_ := (applyRls_ evaluateRlsExpr_).
Abbreviation with_rls := (with_rls evaluateRlsExpr_).
Abbreviation allowed_row := (allowed_row evaluateRlsExpr_).
Abbreviation selectWhere :=
  (selectWhere regex_search evalExprStr match_against formatNum dcount g_indexPathAdvisor evaluateRlsExpr_).

Lemma with_rls_exempt db n t used tr :
  rls_exempt db n = true -> length (rows_ t) <= MAX_RESULT_ROWS -> with_rls db n t used tr = Ok (t, used).
Proof.
  intros He Hl. unfold Select.with_rls, Select.applyRls_. rewrite He, Nat.eqb_refl.
  destruct tr; [|done]. unfold truncateRows. rewrite firstn_all2 by done. by rewrite with_rows_id.
Qed.

Lemma simple_conds_spec cs conds :
  hasCorrelated cs conds = false -> Simple <$> simple_conds conds = conds.
Proof.
  unfold hasCorrelated, simple_conds. induction conds as [|c conds IH]; [done|]. cbn [existsb].
  intros [Hc H]%orb_false_iff. destruct c; try done. csimpl. by rewrite IH.
Qed.

Lemma collect_none fuel db parent width conds cis logic all t :
  tableChildren_ db !! parent = None ->
  collectInheritedRows_ regex_search fuel db parent width conds cis logic all t = t.
Proof.
  intros H. unfold collectInheritedRows_. assert (forall keep, inherited fuel db parent width keep = []) as ->.
  { intros keep. destruct fuel; [done|]. cbn [inherited]. by rewrite H. }
  by rewrite app_nil_r, with_rows_id.
Qed.

(** The live rows of a valid table fit into a fresh table with its columns. *)
Lemma live_rows_fit (src : Table BTree) p :
  wide src -> constraints src -> rows_fit (columns_ src) (List.filter (fun r => alive r && p r) (rows_ src)).
Proof.
  intros Hw Hc. split.
  - rewrite Forall_forall. intros r [Hr [Ha _]%andb_prop]%list_elem_of_In%filter_In.
    split; [|done]. unfold wide in Hw. rewrite Forall_forall in Hw. by apply Hw, list_elem_of_In.
  - intros i c Hi. eapply column_ok_sublist; [apply sublist_list_filter|by apply Hc].
Qed.

Lemma scan_fresh test v (src : Table BTree) n :
  wide src -> constraints src -> (forall r, r ∈ rows_ src -> alive r = true -> test r = Ok (v r)) ->
  exists t, scan test (rows_ src) (table n (columns_ src)) = Ok t /\ columns_ t = columns_ src /\
    rows_ t = List.filter (fun r => alive r && v r) (rows_ src).
Proof.
  intros Hw Hc Ht. apply (scan_ok test v (rows_ src) (table n (columns_ src))); [done|].
  by apply (live_rows_fit src v).
Qed.

(** What the theorem on scans assumes of the engine and the query. *)
Record scan_query (db : Engine) (n : bytes) (src : Table BTree) (conds : list WhereCondition)
    (logic : bytes) (fromOnly : bool) (v : Row -> bool) : Prop := {
  q_table : tables_ db !! n = Some src;
  q_unpartitioned : partitionMeta_ db !! n = None;
  q_children : tableChildren_ db !! n = None;
  q_exempt : rls_exempt db n = true;
  q_wide : wide src;
  q_constraints : constraints src;
  q_schema : plain_schema (columns_ src);
  q_size : length (rows_ src) <= MAX_RESULT_ROWS;
  q_scan : index_condition g_indexPathAdvisor n src conds = None;
  q_names : Forall (fun c => one_dot (col c)) (simple_conds conds);
  q_columns : hasCorrelated (columns_ src) conds = false ->
    exists cis, colIdxs (columns_ src) (simple_conds conds) = Ok cis;
  q_verdict : forall r, r ∈ rows_ src -> alive r = true -> rowMatches db src r conds logic = Ok (v r) }.

(** The fast and the parallel path. *)
Lemma fast_scan db n src conds cis logic fromOnly v :
  scan_query db n src conds logic fromOnly v -> conds <> [] -> hasCorrelated (columns_ src) conds = false ->
  colIdxs (columns_ src) (simple_conds conds) = Ok cis ->
  exists t, (if (1 <? numWorkers db) && (threshold db <=? length (rows_ src))
      then insert_all (table n (columns_ src))
             (parallelFilter_ (fun r => rowMatchesByIdx r (simple_conds conds) cis logic) (rows_ src) (numWorkers db))
      else scan (fun r => Ok (rowMatchesByIdx r (simple_conds conds) cis logic)) (rows_ src) (table n (columns_ src))) = Ok t /\
    columns_ t = columns_ src /\ rows_ t = List.filter (fun r => alive r && v r) (rows_ src).
Proof.
  intros Q Hne Hg Hc. set (byIdx := fun r => rowMatchesByIdx r (simple_conds conds) cis logic).
  assert (forall r, r ∈ rows_ src -> alive r = true -> byIdx r = v r) as Hv.
  { intros r Hr Ha. pose proof (q_verdict _ _ _ _ _ _ _ Q r Hr Ha) as H. unfold Where.rowMatches in H.
    destruct conds as [|c conds]; [done|]. rewrite <- (simple_conds_spec _ _ Hg) in H.
    rewrite (eval_list_by_idx regex_search evalExprStr match_against formatNum dcount (tables_ db)
      (columns_ src) r (simple_conds (c :: conds)) cis logic) in H; [by injection H| | | | |done].
    - apply Q.
    - pose proof (q_wide _ _ _ _ _ _ _ Q) as Hw. unfold wide in Hw. rewrite Forall_forall in Hw. by apply Hw.
    - apply Q.
    - by rewrite (simple_conds_spec _ _ Hg). }
  assert (List.filter (fun r => alive r && byIdx r) (rows_ src) = List.filter (fun r => alive r && v r) (rows_ src)) as Hf.
  { apply filter_ext_in. intros r Hr%list_elem_of_In. destruct (alive r) eqn:Ha; [|done]. simpl. by apply Hv. }
  pose proof (q_wide _ _ _ _ _ _ _ Q). pose proof (q_constraints _ _ _ _ _ _ _ Q).
  destruct (Nat.ltb_spec 1 (numWorkers db)) as [Hw|Hw]; cbn [andb]; [destruct (_ <=? _)|].
  2,3: destruct (scan_fresh (fun r => Ok (byIdx r)) byIdx src n) as (t & E & Ec & Er); [done..|];
    exists t; split; [exact E|]; by rewrite Er, Hf.
  rewrite (parallelFilter_filter byIdx) by done. rewrite insert_all_scan.
  2:{ rewrite Forall_forall. by intros r [_ [Ha _]%andb_prop]%list_elem_of_In%filter_In. }
  destruct (scan_ok (fun _ => Ok true) (fun _ => true) (List.filter (fun r => alive r && byIdx r) (rows_ src))
    (table n (columns_ src))) as (t & E & Ec & Er); [done| |].
  - eapply rows_fit_sublist; [|apply (live_rows_fit src byIdx); done]. apply sublist_list_filter.
  - exists t. split; [done|]. split; [done|]. rewrite Er. cbn [rows_ table app]. rewrite <- Hf.
    rewrite forallb_filter_id; [done|]. apply forallb_forall.
    intros r [_ [Ha _]%andb_prop]%filter_In. by rewrite Ha.
Qed.

(** With conditions. *)
Lemma scan_where db n src conds logic fromOnly v fuel :
  scan_query db n src conds logic fromOnly v -> conds <> [] ->
  exists t, selectWhere fuel db n conds logic fromOnly = Ok (t, false) /\ columns_ t = columns_ src /\
    rows_ t = List.filter (fun r => alive r && v r) (rows_ src).
Proof.
  intros Q Hne. unfold Select.selectWhere. rewrite (q_unpartitioned _ _ _ _ _ _ _ Q). unfold getTable.
  rewrite (q_table _ _ _ _ _ _ _ Q). cbn [mbind result_bind].
  assert (forall p, length (List.filter p (rows_ src)) <= MAX_RESULT_ROWS) as Hlen.
  { intros p. etrans; [apply List.filter_length_le|apply Q]. }
  pose proof (q_wide _ _ _ _ _ _ _ Q). pose proof (q_constraints _ _ _ _ _ _ _ Q). pose proof (q_exempt _ _ _ _ _ _ _ Q).
  destruct conds as [|c conds]; [done|].
  rewrite (q_scan _ _ _ _ _ _ _ Q). destruct (hasCorrelated (columns_ src) (c :: conds)) eqn:Hg.
  { destruct (scan_fresh (fun r => rowMatches db src r (c :: conds) logic) v src n) as (t & -> & Ec & Er); [done..|apply Q|].
    cbn [mbind result_bind]. exists t. by rewrite with_rls_exempt by (rewrite ?Er; auto). }
  destruct (q_columns _ _ _ _ _ _ _ Q Hg) as [cis Hc]. rewrite Hc. cbn [mbind result_bind].
  destruct (fast_scan db n src (c :: conds) cis logic fromOnly v Q) as (t & -> & Ec & Er); [done..|].
  cbn [mbind result_bind]. exists t. rewrite collect_none by apply Q.
  assert ((if fromOnly then t else t) = t) as -> by by destruct fromOnly.
  by rewrite with_rls_exempt by (rewrite ?Er; auto).
Qed.

(** [C24] Scans: [selectWhere] on a base table without children and partitions, of at
    most 100000 rows that keep its constraints, for a user whom no policy binds
    and without an index in use returns, whether it takes the general, the fast or
    the parallel path, exactly the live rows on which the conditions hold, in the
    order of the table. SELECT without WHERE goes another way and shows dead rows
    as well ([Queries.deleted_rows_shown]). *)
Theorem select_scan db n src conds logic fromOnly v fuel :
  scan_query db n src conds logic fromOnly v ->
  exists t, selectWhere fuel db n conds logic fromOnly = Ok (t, false) /\ columns_ t = columns_ src /\
    rows_ t = List.filter (fun r => alive r && v r) (rows_ src).
Proof.
  intros Q. destruct conds as [|c conds]; [|by apply scan_where].
  unfold Select.selectWhere. rewrite (q_unpartitioned _ _ _ _ _ _ _ Q). unfold getTable.
  rewrite (q_table _ _ _ _ _ _ _ Q). cbn [mbind result_bind].
  destruct (scan_fresh (fun _ => Ok true) v src n) as (t & -> & Ec & Er); [apply Q..| |].
  - intros r Hr Ha. by apply (q_verdict _ _ _ _ _ _ _ Q).
  - cbn [mbind result_bind]. exists t. rewrite with_rls_exempt; [done|apply Q|]. rewrite Er.
    etrans; [apply List.filter_length_le|apply Q].
Qed.

(** ** Row-level security *)

Lemma insert_all_rows l (t t' : Table BTree) : insert_all t l = Ok t' -> rows_ t' = rows_ t ++ l.
Proof.
  revert t. induction l as [|r l IH]; intros t; cbn [insert_all]; [intros [= <-]; by rewrite app_nil_r|].
  unfold insert_row. destruct (negb _); [done|]. destruct (check_constraints _ _ _ _); [|done].
  intros H%IH. rewrite H. cbn [rows_ with_indices with_rows]. by rewrite <- app_assoc.
Qed.

Lemma filter_same_length {A} (p : A -> bool) l x :
  length (List.filter p l) = length l -> x ∈ l -> p x = true.
Proof.
  induction l as [|y l IH]; [by intros _ ?%not_elem_of_nil|]. cbn [List.filter].
  pose proof (List.filter_length_le p l). destruct (p y) eqn:E; simpl; intros H' Hx; [|lia].
  apply elem_of_cons in Hx as [->|Hx]; [done|]. apply IH; [lia|done].
Qed.

(** Some policy for SELECT and this user admits the row, which is alive. *)
Definition admitted (db : Engine) (n : bytes) (r : Row) : Prop :=
  alive r = true /\ exists ps t p, rlsPolicies_ db !! n = Some ps /\ tables_ db !! n = Some t /\ p ∈ ps /\
    policy_applies db SELECT p = true /\ evaluateRlsExpr_ (usingExpr p) r (names (columns_ t)) = true.

Lemma applyRls_admitted db n rows r :
  rls_exempt db n = false -> r ∈ applyRls_ db n rows SELECT -> admitted db n r.
Proof.
  intros He. unfold Select.applyRls_. rewrite He.
  destruct (rlsPolicies_ db !! n) as [[|p ps]|] eqn:Ep; try by intros ?%not_elem_of_nil.
  destruct (tables_ db !! n) as [t|] eqn:Et; [|by intros ?%not_elem_of_nil].
  intros [_ [Ha H]%andb_prop]%list_elem_of_In%filter_In. split; [done|].
  apply existsb_exists in H as (q & Hq%list_elem_of_In & [H1 H2]%andb_prop). by exists (p :: ps), t, q.
Qed.

(** The filter is applied even where its result is dropped for being complete. *)
Lemma applyRls_all db n rows r :
  rls_exempt db n = false -> length (applyRls_ db n rows SELECT) = length rows -> r ∈ rows -> admitted db n r.
Proof.
  intros He Hl Hr. apply (applyRls_admitted db n rows); [done|]. revert Hl.
  unfold Select.applyRls_. rewrite He. destruct (rlsPolicies_ db !! n) as [[|p ps]|] eqn:Ep;
    try (intros ?%eq_sym%nil_length_inv; subst rows; by apply not_elem_of_nil in Hr).
  destruct (tables_ db !! n) as [t|] eqn:Et;
    [|intros ?%eq_sym%nil_length_inv; subst rows; by apply not_elem_of_nil in Hr].
  intros Hl. apply list_elem_of_In, filter_In. split; [by apply list_elem_of_In|].
  by apply (filter_same_length _ _ _ Hl).
Qed.

Lemma with_rls_admitted db n t used tr t' b :
  rls_exempt db n = false -> with_rls db n t used tr = Ok (t', b) -> Forall (admitted db n) (rows_ t').
Proof.
  intros He. unfold Select.with_rls. rewrite Forall_forall.
  destruct (Nat.eqb_spec (length (applyRls_ db n (rows_ t) SELECT)) (length (rows_ t))) as [E|_].
  - intros [= <- _] r Hr. apply (applyRls_all db n (rows_ t)); [done..|]. destruct tr; [|done].
    unfold truncateRows in Hr. cbn [rows_ with_rows] in Hr.
    eapply elem_of_sublist; [exact Hr|apply sublist_take].
  - destruct (insert_all _ _) as [t1|] eqn:E; [|done]. cbn [mbind result_bind]. intros [= <- _] r Hr.
    apply insert_all_rows in E. rewrite E in Hr. by apply applyRls_admitted in Hr.
Qed.

(** [C28] Row-level security in [selectWhere], which answers SELECT with WHERE: a user
    whom the policies of an unpartitioned table bind gets, along each of its paths
    - index, general, fast, parallel, with or without inherited rows - only live
    rows that a policy for SELECT and this user admits. SELECT without WHERE
    ([Queries.selectAllFiltered]), partitioned tables and joins
    ([JoinQueries.join_ignores_policies]) are apart. *)
Theorem select_rls fuel db n conds logic fromOnly t used :
  rls_exempt db n = false -> partitionMeta_ db !! n = None ->
  selectWhere fuel db n conds logic fromOnly = Ok (t, used) -> Forall (admitted db n) (rows_ t).
Proof.
  intros He Hp. unfold Select.selectWhere. rewrite Hp.
  destruct (getTable (tables_ db) n) as [src|]; [|done]. cbn [mbind result_bind].
  destruct conds as [|c conds].
  { destruct (scan _ _ _); [|done]. by apply with_rls_admitted. }
  destruct (index_condition _ _ _ _) as [cmp|].
  { destruct (insert_all _ _); [|done]. by apply with_rls_admitted. }
  destruct (hasCorrelated _ _).
  { destruct (scan _ _ _); [|done]. by apply with_rls_admitted. }
  destruct (colIdxs _ _) as [cis|]; [|done]. cbn [mbind result_bind].
  destruct (if _ && _ then _ else _) as [r|]; [|done]. by apply with_rls_admitted.
Qed.
End paths.

(** ** A small database *)

Definition eng (ts : gmap bytes (Table BTree)) : Engine := mkEngine ts ∅ ∅ ∅ ∅ (str "root") 1 5000.

Definition select_ex (advisor : bool) (db : Engine) (n : bytes) (conds : list WhereCondition)
  : result (list (list bytes)) :=
  '(t, _) ← selectWhere no_regex no_func no_match print int_count (fun _ _ => advisor)
      (fun e _ _ => bytes_eqb e (str "TRUE")) 5 db n conds AND false;
  Ok (map values (rows_ t)).

Definition cmp (c : string) (o : operator) (v : string) : WhereCondition :=
  Simple (mkCmp (str c) o (str v) [] [] []).

(** [ex_table] holds (1, Rom) and (2, Rom) and has an index on city. *)
Definition ex_db : Engine := eng {[str "t" := ex_table]}.

Definition ex_query : list WhereCondition := [cmp "city" LIKE "'R%'"; cmp "id" NE "'1'"].
Definition ex_verdict (r : Row) : bool := bool_decide (values r !! 0 = Some (str "2")).

Lemma select_scan_witness :
  exists t, selectWhere no_regex no_func no_match print int_count (fun _ _ => true) (fun _ _ _ => false)
      0 ex_db (str "t") ex_query AND false = Ok (t, false) /\ columns_ t = columns_ ex_table /\
    rows_ t = List.filter (fun r => alive r && ex_verdict r) (rows_ ex_table).
Proof.
  apply select_scan. split; [by vm_compute..| | | | | | | |].
  - by_decide.
  - intros i c Hi. destruct i as [|[|]]; [| |done]; simpl in Hi; injection Hi as <-; split; try done.
    + intros _ a r. destruct a as [|[|]]; [| |done]; intros [= <-]; discriminate.
    + intros _ a b r r' v. destruct a as [|[|]], b as [|[|]]; try done; intros [= <-] [= <-] _ _ _ [= <-]; discriminate.
  - split_and!; by_decide.
  - unfold MAX_RESULT_ROWS. apply Nat2Z.inj_le. by vm_compute.
  - by vm_compute.
  - repeat constructor; by vm_compute.
  - intros _. exists [1; 0]. by vm_compute.
  - intros r Hr Ha. apply list_elem_of_In in Hr as [<-|[<-|[]]]; by vm_compute.
Defined.

(** A user bound by one policy. *)
Definition rls_db (expr : string) : Engine :=
  mkEngine {[str "t" := ex_table]} ∅ ∅ {[str "t"]} {[str "t" := [mkPolicy (str "ALL") (str "PUBLIC") (str expr) []]]}
    (str "eve") 1 5000.

Lemma select_rls_witness :
  exists t, selectWhere no_regex no_func no_match print int_count (fun _ _ => true)
      (fun e r _ => ex_verdict r) 0 (rls_db "id = 2") (str "t") [cmp "city" EQ "Rom"] AND false = Ok (t, true) /\
    map values (rows_ t) = [[str "2"; str "Rom"]] /\
    Forall (admitted (fun e r _ => ex_verdict r) (rls_db "id = 2") (str "t")) (rows_ t).
Proof.
  eexists. split; [by vm_compute|]. split; [by vm_compute|].
  eapply (select_rls no_regex no_func no_match print int_count (fun _ _ => true)
    (fun e r _ => ex_verdict r) 0 (rls_db "id = 2") (str "t") [cmp "city" EQ "Rom"] AND false _ true); by vm_compute.
Defined.

(** ** Where the paths disagree *)

(** A table with the value 02 in an indexed column. *)
Definition ex_padded_db : Engine := eng {[str "t" := run1 ex_op2 (run1 (OInsert (row_of [str "1"; str "02"])) ex_t0)]}.

(** The scan compares numbers, the index texts. *)
Lemma index_misses_equal_numbers :
  select_ex false ex_padded_db (str "t") [cmp "city" EQ "'2'"] = Ok [[str "1"; str "02"]] /\
  select_ex true ex_padded_db (str "t") [cmp "city" EQ "'2'"] = Ok [].
Proof. by vm_compute. Qed.

(** A scalar subquery compared with an indexed column is not evaluated: the
    index is searched for the empty value. *)
Lemma index_ignores_subquery :
  let q := [ScalarSub (str "city") EQ (mkScalar (str "t") (str "MAX") (str "id") [] AND)] in
  let db := eng {[str "t" := run1 ex_op2 (run1 (OInsert (row_of [str "2"; str "2"])) ex_t0)]} in
  select_ex false db (str "t") q = Ok [[str "2"; str "2"]] /\ select_ex true db (str "t") q = Ok [].
Proof. by vm_compute. Qed.

(** A parent and a child table with one row each. *)
Definition ex_family : Engine :=
  mkEngine {[str "p" := run1 (OInsert (row_of [str "1"; str "Rom"])) (table (str "p") ex_t0.(columns_));
             str "c" := run1 (OInsert (row_of [str "2"; str "Rom"])) (table (str "c") ex_t0.(columns_))]}
    {[str "p" := [str "c"]]} ∅ ∅ ∅ (str "root") 1 5000.

(** An unquoted number selects the general evaluator, which leaves the rows of
    child tables out. *)
Lemma numbers_hide_child_rows :
  select_ex false ex_family (str "p") [cmp "id" GE "'1'"] = Ok [[str "1"; str "Rom"]; [str "2"; str "Rom"]] /\
  select_ex false ex_family (str "p") [cmp "id" GE "1"] = Ok [[str "1"; str "Rom"]].
Proof. by vm_compute. Qed.

(** Row-level security without any policy denies every row - but not those of a
    table with physical partitions. *)
Definition ex_parts : PartitionInfo := mkPartitionInfo Partition.LIST (str "city") [] [] 0 true [str "t"].

Definition denied_db (meta : gmap bytes PartitionInfo) : Engine :=
  mkEngine {[str "t" := ex_table; str "parent" := ex_table]} ∅ meta {[str "parent"]} ∅ (str "eve") 1 5000.

Lemma partitions_bypass_rls :
  select_ex true (denied_db ∅) (str "parent") [cmp "id" GE "'1'"] = Ok [] /\
  select_ex true (denied_db {[str "parent" := ex_parts]}) (str "parent") [cmp "id" GE "'1'"] =
    Ok [[str "1"; str "Rom"]; [str "2"; str "Rom"]].
Proof. by vm_compute. Qed.
