(* ===== verification/Pool.v ===== *)
(** * The connection pool ([src/pool/connection_pool.hpp])

    Threads take connections, wait on the condition variable [cv_] when the
    pool is exhausted, and give connections back.  Every region under the mutex
    is one step, and so is every notification sent outside it: a thread that has
    given its connection back and not yet called [notify_one], or changed the
    configuration and not yet called [notify_all], can be overtaken by others.
    What happens to a sleeping thread - woken, timed out - is a step of its own.
    A thread that is woken may still find its deadline passed when it has the
    mutex again, and then gives up without a look at the idle connections.
    The pool's counters are shown to be right in every reachable state.  A thread
    sleeps beside a connection that is to be had only if a notification is on its
    way to one that takes it, or a woken thread came too late: at most as many
    connections are overlooked as threads have given up so. *)

From S2P Require Import Prelude.

(** A [PooledConnection]; its address is its [id].  [healthy] is an atomic flag
    that the user of a connection may clear. *)
Record Conn := mkConn { id : nat; createdAt : Z; healthy : bool }.

Definition DEFAULT_MIN : Z := 10.
Definition DEFAULT_MAX : Z := 100.
Definition MAX_LIFETIME_SEC : Z := 3600.

(** What a thread is doing: asleep in [cv_.wait_until]; notified but not yet
    holding the mutex again; using a connection; past the region of [release]
    but before its [notify_one]; past the first region of [configure] but before
    [prewarm]; or before a [notify_all]. *)
Inductive status := Waiting | Woken | Using (c : Conn) | Releasing | Configuring | Notifying.

Record Pool := mkPool {
  idle_ : list Conn; minConns_ : Z; maxConns_ : Z; active_ : Z; totalConns_ : Z;
  shuttingDown_ : bool; nextId_ : nat;
  totalRequests_ : Z; timeouts_ : Z; deadReplaced_ : Z;
  threads : gmap nat status }.

#[export] Instance Conn_eq_dec : EqDecision Conn.
Proof. solve_decision. Defined.
#[export] Instance status_eq_dec : EqDecision status.
Proof. solve_decision. Defined.

Definition with_conns (idle : list Conn) (active total : Z) (nxt : nat) (dead : Z) (p : Pool) : Pool :=
  mkPool idle (minConns_ p) (maxConns_ p) active total (shuttingDown_ p) nxt
         (totalRequests_ p) (timeouts_ p) dead (threads p).
Definition with_threads (ts : gmap nat status) (p : Pool) : Pool :=
  mkPool (idle_ p) (minConns_ p) (maxConns_ p) (active_ p) (totalConns_ p) (shuttingDown_ p) (nextId_ p)
         (totalRequests_ p) (timeouts_ p) (deadReplaced_ p) ts.
Definition with_bounds (mn mx : Z) (p : Pool) : Pool :=
  mkPool (idle_ p) mn mx (active_ p) (totalConns_ p) (shuttingDown_ p) (nextId_ p)
         (totalRequests_ p) (timeouts_ p) (deadReplaced_ p) (threads p).
Definition with_shutdown (b : bool) (p : Pool) : Pool :=
  mkPool (idle_ p) (minConns_ p) (maxConns_ p) (active_ p) (totalConns_ p) b (nextId_ p)
         (totalRequests_ p) (timeouts_ p) (deadReplaced_ p) (threads p).
Definition count_request (p : Pool) : Pool :=
  mkPool (idle_ p) (minConns_ p) (maxConns_ p) (active_ p) (totalConns_ p) (shuttingDown_ p) (nextId_ p)
         (totalRequests_ p + 1) (timeouts_ p) (deadReplaced_ p) (threads p).
Definition count_timeout (p : Pool) : Pool :=
  mkPool (idle_ p) (minConns_ p) (maxConns_ p) (active_ p) (totalConns_ p) (shuttingDown_ p) (nextId_ p)
         (totalRequests_ p) (timeouts_ p + 1) (deadReplaced_ p) (threads p).

(** ** Taking a connection *)

Definition createConnection (now : Z) (p : Pool) : Conn * Pool :=
  (mkConn (nextId_ p) now true,
   with_conns (idle_ p) (active_ p) (totalConns_ p + 1) (S (nextId_ p)) (deadReplaced_ p) p).

Definition activate (p : Pool) : Pool :=
  with_conns (idle_ p) (active_ p + 1) (totalConns_ p) (nextId_ p) (deadReplaced_ p) p.

(** [while (!idle_.empty())]: dead connections are discarded on the way. *)
Fixpoint take_idle (l : list Conn) (p : Pool) : option Conn * Pool :=
  match l with
  | [] => (None, with_conns [] (active_ p) (totalConns_ p) (nextId_ p) (deadReplaced_ p) p)
  | c :: l' =>
      if healthy c then (Some c, with_conns l' (active_ p) (totalConns_ p) (nextId_ p) (deadReplaced_ p) p)
      else take_idle l' (with_conns l' (active_ p) (totalConns_ p - 1) (nextId_ p) (deadReplaced_ p + 1) p)
  end.

(** One round of the loop in [acquire]; [None]: the pool is exhausted. *)
Definition try_acquire (now : Z) (p : Pool) : option Conn * Pool :=
  match take_idle (idle_ p) p with
  | (Some c, p) => (Some c, activate p)
  | (None, p) =>
      if (totalConns_ p <? maxConns_ p)%Z
      then let '(c, p) := createConnection now p in (Some c, activate p)
      else (None, p)
  end.

(** A thread runs the round: it leaves with a connection or goes to sleep. *)
Definition round (now : Z) (t : nat) (p : Pool) : Pool :=
  match try_acquire now p with
  | (Some c, p) => with_threads (<[t := Using c]> (threads p)) p
  | (None, p) => with_threads (<[t := Waiting]> (threads p)) p
  end.

(** The call of [acquire]; while shutting down it returns [nullptr] at once. *)
Definition acquire (now : Z) (t : nat) (p : Pool) : Pool :=
  let p := count_request p in if shuttingDown_ p then p else round now t p.

(** A woken thread has the mutex again before its deadline. *)
Definition resume (now : Z) (t : nat) (p : Pool) : Pool :=
  if shuttingDown_ p then with_threads (delete t (threads p)) p else round now t p.

(** The wait has ended after the deadline: nobody woke the thread, or somebody did
    and the thread has the mutex too late.  It leaves without a look at [idle_]. *)
Definition time_out (t : nat) (p : Pool) : Pool :=
  let q := with_threads (delete t (threads p)) p in
  if shuttingDown_ p then q else count_timeout q.

(** ** Giving back *)

Definition wake (s : status) : status := match s with Waiting => Woken | s => s end.

(** [cv_.notify_all()], and [cv_.notify_one()] for the thread [w] if one sleeps. *)
Definition notify_all (p : Pool) : Pool := with_threads (wake <$> threads p) p.
Definition notify_one (w : option nat) (p : Pool) : Pool :=
  match w with Some w => with_threads (alter wake w (threads p)) p | None => p end.

Definition give_back (c : Conn) (p : Pool) : Pool :=
  if healthy c && negb (shuttingDown_ p)
  then with_conns (idle_ p ++ [c]) (active_ p - 1) (totalConns_ p) (nextId_ p) (deadReplaced_ p) p
  else with_conns (idle_ p) (active_ p - 1) (totalConns_ p - 1) (nextId_ p)
                  (deadReplaced_ p + if healthy c then 0 else 1) p.

(** [release]: the region under the mutex, and the notification after it. *)
Definition release_region (t : nat) (c : Conn) (p : Pool) : Pool :=
  give_back c (with_threads (<[t := Releasing]> (threads p)) p).
Definition release_notify (t : nat) (w : option nat) (p : Pool) : Pool :=
  notify_one w (with_threads (delete t (threads p)) p).
Definition release (t : nat) (c : Conn) (w : option nat) (p : Pool) : Pool :=
  release_notify t w (release_region t c p).

(** The [notify_all] of a thread that has left the mutex. *)
Definition notify_rest (t : nat) (p : Pool) : Pool :=
  notify_all (with_threads (delete t (threads p)) p).

(** ** Configuration *)

(** [while (totalConns_ < minConns_)] *)
Fixpoint top_up (fuel : nat) (now : Z) (limit : Z) (p : Pool) : Pool :=
  match fuel with
  | O => p
  | S f =>
      if (totalConns_ p <? limit)%Z then
        let '(c, p) := createConnection now p in
        top_up f now limit (with_conns (idle_ p ++ [c]) (active_ p) (totalConns_ p) (nextId_ p) (deadReplaced_ p) p)
      else p
  end.

Definition prewarm (now : Z) (p : Pool) : Pool :=
  if shuttingDown_ p then p else top_up (Z.to_nat (minConns_ p - totalConns_ p)) now (minConns_ p) p.

Definition configure_region (t : nat) (minConns maxConns : Z) (p : Pool) : Pool :=
  let minConns := if (minConns <? 0)%Z then 0%Z else minConns in
  let maxConns := if (maxConns <? 1)%Z then 1%Z else maxConns in
  let minConns := if (maxConns <? minConns)%Z then maxConns else minConns in
  with_threads (<[t := Configuring]> (threads p)) (with_bounds minConns maxConns p).
Definition configure_prewarm (now : Z) (t : nat) (p : Pool) : Pool :=
  let p := prewarm now p in with_threads (<[t := Notifying]> (threads p)) p.
Definition configure (now : Z) (t : nat) (minConns maxConns : Z) (p : Pool) : Pool :=
  notify_rest t (configure_prewarm now t (configure_region t minConns maxConns p)).

(** A maximum below 1 is ignored, without a notification. *)
Definition setMaxConnections_region (t : nat) (n : Z) (p : Pool) : Pool :=
  if (n <? 1)%Z then p
  else with_threads (<[t := Notifying]> (threads p))
         (with_bounds (if (n <? minConns_ p)%Z then n else minConns_ p) n p).
Definition setMaxConnections (t : nat) (n : Z) (p : Pool) : Pool :=
  if (n <? 1)%Z then p else notify_rest t (setMaxConnections_region t n p).

(** Connections that are dead, rejected by [healthFn_] or too old go; then the
    pool is topped up. *)
Definition keeps (healthFn : Conn -> bool) (now : Z) (c : Conn) : bool :=
  healthy c && healthFn c && (Z.quot (now - createdAt c) 1000000000 <? MAX_LIFETIME_SEC)%Z.

Definition runHealthCheck (healthFn : Conn -> bool) (now : Z) (p : Pool) : Pool :=
  if shuttingDown_ p then p
  else
    let keep := List.filter (keeps healthFn now) (idle_ p) in
    let replaced := (Z.of_nat (length (idle_ p)) - Z.of_nat (length keep))%Z in
    let p := with_conns keep (active_ p) (totalConns_ p - replaced) (nextId_ p) (deadReplaced_ p + replaced) p in
    top_up (Z.to_nat (Z.min (minConns_ p) (maxConns_ p) - totalConns_ p)) now (Z.min (minConns_ p) (maxConns_ p)) p.

(** ** Shutdown: the flag and the notification, and the end of the drain loop *)

Definition shutdown_begin (p : Pool) : Pool := notify_all (with_shutdown true p).

Definition shutdown_end (p : Pool) : Pool :=
  with_conns [] (active_ p) (active_ p) (nextId_ p) (deadReplaced_ p) p.

Definition reopen (now : Z) (p : Pool) : Pool := prewarm now (with_shutdown false p).

Definition init (now : Z) : Pool :=
  prewarm now (mkPool [] DEFAULT_MIN DEFAULT_MAX 0 0 false 1 0 0 0 ∅).

(** A user clears the flag of the connection it holds, or of one it has given
    back ([markUnhealthy] is not under the mutex). *)
Definition mark (k : nat) (c : Conn) : Conn := if k =? id c then mkConn (id c) (createdAt c) false else c.
Definition mark_status (k : nat) (s : status) : status := match s with Using c => Using (mark k c) | s => s end.
Definition markUnhealthy (k : nat) (p : Pool) : Pool :=
  with_threads (mark_status k <$> threads p)
    (with_conns (map (mark k) (idle_ p)) (active_ p) (totalConns_ p) (nextId_ p) (deadReplaced_ p) p).

(** ** Steps *)

(** The thread [notify_one] wakes: one that sleeps, if any does. *)
Definition notified (w : option nat) (p : Pool) : Prop :=
  match w with
  | Some w => threads p !! w = Some Waiting
  | None => forall t, threads p !! t <> Some Waiting
  end.

(** A step, and how many notifications it wastes: one if a woken thread gives up. *)
Inductive step (p : Pool) : nat -> Pool -> Prop :=
| s_acquire now t : threads p !! t = None -> step p 0 (acquire now t p)
| s_resume now t : threads p !! t = Some Woken -> step p 0 (resume now t p)
| s_time_out t : threads p !! t = Some Waiting -> step p 0 (time_out t p)
| s_late t : threads p !! t = Some Woken -> step p 1 (time_out t p)
| s_spurious t : threads p !! t = Some Waiting -> step p 0 (with_threads (<[t := Woken]> (threads p)) p)
| s_release t c : threads p !! t = Some (Using c) -> step p 0 (release_region t c p)
| s_notify_one t w : threads p !! t = Some Releasing -> notified w p -> step p 0 (release_notify t w p)
| s_configure t mn mx : threads p !! t = None -> step p 0 (configure_region t mn mx p)
| s_prewarm now t : threads p !! t = Some Configuring -> step p 0 (configure_prewarm now t p)
| s_setMaxConnections t n : threads p !! t = None -> step p 0 (setMaxConnections_region t n p)
| s_notify_all t : threads p !! t = Some Notifying -> step p 0 (notify_rest t p)
| s_healthCheck fn now : step p 0 (runHealthCheck fn now p)
| s_shutdown_begin : step p 0 (shutdown_begin p)
| s_shutdown_end : step p 0 (shutdown_end p)
| s_reopen now : step p 0 (reopen now p)
| s_mark k : step p 0 (markUnhealthy k p).

(** States of a run in which [n] woken threads came too late. *)
Inductive reach : nat -> Pool -> Prop :=
| reach_init now : reach 0 (init now)
| reach_step n k p q : reach n p -> step p k q -> reach (k + n) q.

Definition reachable (p : Pool) : Prop := exists n, reach n p.

(** ** Counting threads *)

Definition is_using (s : status) : bool := match s with Using _ => true | _ => false end.
(** Threads whose next region or call serves a sleeper, and threads that will
    call [notify_all]. *)
Definition is_woken (s : status) : bool := match s with Woken | Releasing => true | _ => false end.
Definition is_calling (s : status) : bool := match s with Configuring | Notifying => true | _ => false end.

Definition one (b : bool) : Z := if b then 1%Z else 0%Z.

Definition tally (f : status -> bool) (ts : gmap nat status) : Z := map_fold (fun _ s n => (one (f s) + n)%Z) 0%Z ts.

Lemma tally_empty f : tally f ∅ = 0%Z.
Proof. apply map_fold_empty. Qed.

Lemma tally_fresh f t s ts : ts !! t = None -> tally f (<[t := s]> ts) = (one (f s) + tally f ts)%Z.
Proof. intros H. unfold tally. apply (map_fold_insert_L (fun _ s n => (one (f s) + n)%Z)); [intros; lia|done]. Qed.

Lemma tally_delete f t s ts : ts !! t = Some s -> tally f (delete t ts) = (tally f ts - one (f s))%Z.
Proof.
  intros H. rewrite <- (insert_delete_id ts t s) at 2 by done.
  rewrite tally_fresh by apply lookup_delete_eq. lia.
Qed.

Lemma tally_insert f t s ts :
  tally f (<[t := s]> ts) = (tally f ts + one (f s) - one (from_option f false (ts !! t)))%Z.
Proof.
  destruct (ts !! t) as [s'|] eqn:E; cbn [from_option].
  - rewrite <- insert_delete_eq, tally_fresh, (tally_delete f t s') by (apply lookup_delete_eq || done). lia.
  - rewrite tally_fresh by done. simpl. lia.
Qed.

Lemma tally_fmap f g (h : status -> status) ts :
  (forall s, f (h s) = g s) -> tally f (h <$> ts) = tally g ts.
Proof.
  intros H. induction ts as [|t s ts Ht IH] using map_ind; [by rewrite fmap_empty, !tally_empty|].
  rewrite fmap_insert, !tally_fresh by (rewrite ?lookup_fmap, ?Ht; done). by rewrite H, IH.
Qed.

Lemma tally_nonneg f ts : (0 <= tally f ts)%Z.
Proof.
  induction ts as [|t s ts Ht IH] using map_ind; [by rewrite tally_empty|].
  rewrite tally_fresh by done. unfold one. destruct (f s); lia.
Qed.

Lemma tally_pos f ts : (0 < tally f ts)%Z -> exists t s, ts !! t = Some s /\ f s = true.
Proof.
  induction ts as [|t s ts Ht IH] using map_ind; [by rewrite tally_empty|].
  rewrite tally_fresh by done. destruct (f s) eqn:E; intros H.
  - exists t, s. by rewrite lookup_insert_eq.
  - destruct IH as (t' & s' & H1 & H2); [simpl in H; lia|]. exists t', s'.
    rewrite lookup_insert_ne; [done|]. intros ->. congruence.
Qed.

Lemma tally_le f g ts : (forall s, f s = true -> g s = true) -> (tally f ts <= tally g ts)%Z.
Proof.
  intros H. induction ts as [|t s ts Ht IH] using map_ind; [by rewrite !tally_empty|].
  rewrite !tally_fresh by done. specialize (H s). unfold one. destruct (f s), (g s); lia || (exfalso; by discriminate H).
Qed.

(** ** The invariant *)

(** Healthy connections in a list. *)
Definition sound (l : list Conn) : Z := Z.of_nat (length (List.filter healthy l)).

(** The connections an acquiring thread can still get. *)
Definition avail (p : Pool) : Z := Z.max (sound (idle_ p)) (maxConns_ p - active_ p).

(** No connection is in use twice, or in use and idle. *)
Record exclusive (idle : list Conn) (nxt : nat) (ts : gmap nat status) : Prop := {
  x_idle : NoDup (map id idle);
  x_old : forall c, c ∈ idle -> id c < nxt;
  x_using : forall t c, ts !! t = Some (Using c) -> id c < nxt /\ id c ∉ map id idle;
  x_inj : forall t t' c c', ts !! t = Some (Using c) -> ts !! t' = Some (Using c') -> id c = id c' -> t = t' }.

(** The fields of an updated pool. *)
Ltac fields :=
  cbn [with_threads with_conns with_bounds with_shutdown count_request count_timeout notify_all
       idle_ minConns_ maxConns_ active_ totalConns_ shuttingDown_ nextId_ totalRequests_ timeouts_ deadReplaced_
       threads].

(** Of the connections to be had, all but [late] are the aim of a notification. *)
Section late.
Context (late : nat).

Record inv (p : Pool) : Prop := {
  i_total : totalConns_ p = (active_ p + Z.of_nat (length (idle_ p)))%Z;
  i_active : active_ p = tally is_using (threads p);
  i_bounds : (minConns_ p <= maxConns_ p /\ 1 <= maxConns_ p)%Z;
  i_exclusive : exclusive (idle_ p) (nextId_ p) (threads p);
  i_shutdown : shuttingDown_ p = true -> forall t, threads p !! t <> Some Waiting;
  i_wake : forall t, threads p !! t = Some Waiting -> tally is_calling (threads p) = 0%Z ->
    (avail p <= tally is_woken (threads p) + Z.of_nat late)%Z }.

Lemma sound_cons c l : sound (c :: l) = (one (healthy c) + sound l)%Z.
Proof. unfold sound. cbn [List.filter]. destruct (healthy c); simpl; lia. Qed.

Lemma sound_app l1 l2 : sound (l1 ++ l2) = (sound l1 + sound l2)%Z.
Proof. unfold sound. rewrite List.filter_app, length_app. lia. Qed.

Lemma sound_dead l : Forall (fun c => healthy c = false) l -> sound l = 0%Z.
Proof. induction 1 as [|c l Hc _ IH]; [done|]. rewrite sound_cons, Hc, IH. done. Qed.

Lemma sound_bound l : (0 <= sound l <= Z.of_nat (length l))%Z.
Proof. unfold sound. pose proof (List.filter_length_le healthy l). lia. Qed.

Lemma exclusive_sublist idle idle' nxt ts :
  sublist idle' idle -> exclusive idle nxt ts -> exclusive idle' nxt ts.
Proof.
  intros Hs [H1 H2 H3 H4].
  assert (forall l l' : list Conn, sublist l l' -> sublist (map id l) (map id l')) as Hm
    by (induction 1; cbn [map]; by constructor).
  split; [|intros c Hc; by apply H2, (elem_of_sublist idle')| |done].
  - by eapply sublist_NoDup; [|apply Hm].
  - intros t c Ht. destruct (H3 t c Ht) as [Hn Hni]. split; [done|]. intros Hin. apply Hni.
    by eapply elem_of_sublist; [|apply Hm].
Qed.

(** Threads whose users are a subset. *)
Lemma exclusive_threads idle nxt ts ts' :
  (forall t c, ts' !! t = Some (Using c) -> ts !! t = Some (Using c)) ->
  exclusive idle nxt ts -> exclusive idle nxt ts'.
Proof. intros Hs [H1 H2 H3 H4]. split; eauto. Qed.

Lemma exclusive_delete idle nxt ts t : exclusive idle nxt ts -> exclusive idle nxt (delete t ts).
Proof. apply exclusive_threads. intros t' c H. by apply lookup_delete_Some in H as [_ H]. Qed.

Lemma exclusive_insert_other idle nxt ts t s :
  is_using s = false -> exclusive idle nxt ts -> exclusive idle nxt (<[t := s]> ts).
Proof.
  intros Hs. apply exclusive_threads. intros t' c H. apply lookup_insert_Some in H as [[_ ->]|[_ H]]; done.
Qed.

(** A new connection, or one taken from the idle list, goes to a thread. *)
Lemma exclusive_use idle nxt nxt' ts t c :
  exclusive idle nxt ts -> nxt <= nxt' -> id c < nxt' -> id c ∉ map id idle ->
  (forall t' c', t' <> t -> ts !! t' = Some (Using c') -> id c' <> id c) ->
  exclusive idle nxt' (<[t := Using c]> ts).
Proof.
  intros [H1 H2 H3 H4] Hn Hc Hni Hne. split; [done| | |].
  - intros c' Hc'. apply H2 in Hc'. lia.
  - intros t' c' H. apply lookup_insert_Some in H as [[_ [= ->]]|[_ H]]; [done|].
    apply H3 in H as [? ?]. split; [lia|done].
  - intros t1 t2 c1 c2 E1 E2 E. apply lookup_insert_Some in E1 as [[<- [= ->]]|[N1 E1]];
      apply lookup_insert_Some in E2 as [[<- [= ->]]|[N2 E2]]; try done.
    + by destruct (Hne t2 c2).
    + by destruct (Hne t1 c1).
    + by apply (H4 t1 t2 c1 c2).
Qed.

(** A connection goes back to the idle list. *)
Lemma exclusive_return t c (ts : gmap nat status) idle nxt :
  ts !! t = Some (Using c) -> exclusive idle nxt ts -> exclusive (idle ++ [c]) nxt (<[t := Releasing]> ts).
Proof.
  intros Ht [X1 X2 X3 X4]. destruct (X3 t c Ht) as [Hc Hci].
  destruct (exclusive_insert_other idle nxt ts t Releasing eq_refl) as [_ _ Y3 Y4]; [by split|]. split.
  - rewrite map_app. apply NoDup_app. split_and!; [done| |apply NoDup_singleton].
    intros k Hk Hk'. apply list_elem_of_singleton in Hk'. by subst k.
  - intros d [Hd|Hd]%elem_of_app; [by apply X2|]. by apply list_elem_of_singleton in Hd as ->.
  - intros t' d Ht'. destruct (Y3 t' d Ht') as [Hd Hdi]. split; [done|]. rewrite map_app, elem_of_app.
    intros [Hin|Hin]; [done|]. apply list_elem_of_singleton in Hin.
    apply lookup_insert_Some in Ht' as [[_ ?]|[Hne Ht']]; [done|]. apply Hne. by apply (X4 t t' c d).
  - done.
Qed.

(** *** The loop of [acquire] *)

Lemma take_idle_spec l p :
  totalConns_ p = (active_ p + Z.of_nat (length l))%Z ->
  match take_idle l p with
  | (Some c, q) => exists ds l' d, l = ds ++ c :: l' /\ Forall (fun c => healthy c = false) ds /\ healthy c = true /\
      q = with_conns l' (active_ p) (active_ p + 1 + Z.of_nat (length l')) (nextId_ p) d p
  | (None, q) => exists d, Forall (fun c => healthy c = false) l /\
      q = with_conns [] (active_ p) (active_ p) (nextId_ p) d p
  end.
Proof.
  revert p. induction l as [|c l IH]; intros p Hp; cbn [take_idle].
  - exists (deadReplaced_ p). split; [constructor|]. f_equal. simpl in Hp. lia.
  - destruct (healthy c) eqn:Hc.
    + exists [], l, (deadReplaced_ p). split_and!; [done|constructor|done|]. f_equal. simpl in Hp. lia.
    + set (q := with_conns l _ _ _ _ p). specialize (IH q). cbn [q with_conns totalConns_ active_] in IH.
      simpl in Hp. specialize (IH ltac:(lia)). destruct (take_idle l q) as [[c'|] q'].
      * destruct IH as (ds & l' & d & -> & Hds & Hc' & ->). exists (c :: ds), l', d. split_and!; [done|by constructor|done|done].
      * destruct IH as (d & Hl & ->). exists d. split; [by constructor|done].
Qed.

Lemma try_acquire_spec now p :
  totalConns_ p = (active_ p + Z.of_nat (length (idle_ p)))%Z ->
  match try_acquire now p with
  | (Some c, q) => exists idle nxt d,
      q = with_conns idle (active_ p + 1) (active_ p + 1 + Z.of_nat (length idle)) nxt d p /\
      sublist idle (idle_ p) /\ Z.max (sound idle) (maxConns_ p - (active_ p + 1)) = (avail p - 1)%Z /\
      ((nxt = nextId_ p /\ exists ds, idle_ p = ds ++ c :: idle) \/
       (idle = [] /\ nxt = S (nextId_ p) /\ id c = nextId_ p))
  | (None, q) => exists d, q = with_conns [] (active_ p) (active_ p) (nextId_ p) d p /\ (avail p <= 0)%Z
  end.
Proof.
  intros Hp. unfold try_acquire. pose proof (take_idle_spec (idle_ p) p Hp) as H.
  destruct (take_idle (idle_ p) p) as [[c|] q].
  - destruct H as (ds & l' & d & E & Hds & Hc & ->). exists l', (nextId_ p), d. split; [done|].
    split; [rewrite E; by apply sublist_inserts_l, sublist_cons|]. split; [|left; split; [done|by exists ds]].
    unfold avail. rewrite E, sound_app, sound_cons, (sound_dead ds), Hc by done. simpl.
    pose proof (sound_bound l'). lia.
  - destruct H as (d & Hl & ->). cbn [with_conns totalConns_ maxConns_ createConnection active_ nextId_ idle_ deadReplaced_].
    unfold avail. rewrite (sound_dead (idle_ p)) by done.
    destruct (Z.ltb_spec (active_ p) (maxConns_ p)).
    + exists [], (S (nextId_ p)), d. split; [|split; [apply sublist_nil_l|split; [unfold sound; simpl; lia|by right]]].
      unfold activate, with_conns. cbn. f_equal. lia.
    + exists d. split; [done|lia].
Qed.

(** *** The operations keep it *)

Lemma woken_nonneg p : (0 <= tally is_woken (threads p))%Z.
Proof. apply tally_nonneg. Qed.

Lemma round_inv now t p :
  inv p -> shuttingDown_ p = false -> threads p !! t = None \/ threads p !! t = Some Woken ->
  inv (round now t p) /\ (((0 < avail p)%Z -> exists c, threads (round now t p) !! t = Some (Using c))).
Proof.
  intros [It Ia Ib Ix Is Iw] Hs Ht.
  assert (from_option is_using false (threads p !! t) = false) as Hu by (by destruct Ht as [-> | ->]).
  assert (from_option is_calling false (threads p !! t) = false) as Hk by (by destruct Ht as [-> | ->]).
  unfold round. pose proof (try_acquire_spec now p It) as H.
  destruct (try_acquire now p) as [[c|] q].
  - destruct H as (idle & nxt & d & -> & Hsub & Hav & Hc). fields.
    split; [|intros _; exists c; apply lookup_insert_eq].
    assert (nextId_ p <= nxt /\ id c < nxt /\ (id c ∉ map id idle) /\
      (forall t' c', t' <> t -> threads p !! t' = Some (Using c') -> id c' <> id c)) as (Hn & Hcn & Hci & Hne).
    { destruct Ix as [X1 X2 X3 X4]. destruct Hc as [[-> (ds & E)]|(-> & -> & E)].
      - rewrite E in X1, X2, X3. rewrite map_app in X1, X3. cbn [map] in X1, X3.
        apply NoDup_app in X1 as (_ & _ & X1). apply NoDup_cons in X1 as [X1 _]. split_and!; [done| |done|].
        + apply X2, elem_of_app. right. apply list_elem_of_here.
        + intros t' c' _ [_ Hni]%X3 E'. apply Hni. rewrite E', elem_of_app. right. apply list_elem_of_here.
      - rewrite E. split_and!; [lia|lia|apply not_elem_of_nil|]. intros t' c' _ [Hlt _]%X3. lia. }
    split; fields; try done.
    + rewrite tally_insert. cbn [is_using one]. rewrite Hu. cbn [one]. lia.
    + apply (exclusive_use idle (nextId_ p)); [|done..]. by apply (exclusive_sublist (idle_ p)).
    + congruence.
    + intros t' Ht'. rewrite !tally_insert, Hk. cbn [is_woken is_calling one]. intros Hq.
      apply lookup_insert_Some in Ht' as [[_ ?]|[_ Ht']]; [done|]. apply Iw in Ht'; [|lia].
      unfold avail in *. fields.
      assert (one (from_option is_woken false (threads p !! t)) <= 1)%Z
        by (destruct (threads p !! t) as [s|]; [destruct s|]; simpl; lia).
      lia.
  - destruct H as (d & -> & Hav). fields. split; [|intros; lia].
    split; fields; try done.
    + simpl. lia.
    + rewrite tally_insert. cbn [is_using one]. rewrite Hu. cbn [one]. lia.
    + apply exclusive_insert_other; [done|]. apply (exclusive_sublist (idle_ p)); [apply sublist_nil_l|done].
    + congruence.
    + intros t' _ _. transitivity 0%Z; [|pose proof (tally_nonneg is_woken (<[t := Waiting]> (threads p))); lia]. unfold avail in *. fields.
      pose proof (sound_bound (idle_ p)). change (sound []) with 0%Z. lia.
Qed.

(** A thread that does not use a connection disappears. *)
Lemma inv_forget t p :
  inv p -> from_option is_using false (threads p !! t) = false ->
  from_option (fun s => is_woken s || is_calling s) false (threads p !! t) = false \/ shuttingDown_ p = true ->
  inv (with_threads (delete t (threads p)) p).
Proof.
  intros [It Ia Ib Ix Is Iw] Hu Hw. destruct (threads p !! t) as [s|] eqn:E.
  2:{ rewrite delete_id by done. by destruct p. }
  cbn [from_option] in Hu, Hw. split; fields; try done.
  - rewrite (tally_delete _ _ s), Hu by done. simpl. lia.
  - by apply exclusive_delete.
  - intros H t' Ht'. apply lookup_delete_Some in Ht' as [_ Ht']. by apply (Is H t').
  - intros t' Ht'. apply lookup_delete_Some in Ht' as [_ Ht']. rewrite !(tally_delete _ _ s) by done.
    destruct Hw as [[Hw Hk]%orb_false_elim|Hs]; [|by apply Is in Ht'].
    rewrite Hw, Hk. intros Hq. cbn [one] in *.
    apply Iw in Ht'; [|lia]. unfold avail in *. fields. lia.
Qed.

Lemma wake_not_waiting s : wake s <> Waiting.
Proof. by destruct s. Qed.

Lemma notify_all_nobody p t : threads (notify_all p) !! t <> Some Waiting.
Proof.
  fields. rewrite lookup_fmap. destruct (threads p !! t) as [s|]; [|done].
  cbn. intros [= H]. by apply wake_not_waiting in H.
Qed.

(** What holds between an operation and its [notify_all]. *)
Record pre (p : Pool) : Prop := {
  p_total : totalConns_ p = (active_ p + Z.of_nat (length (idle_ p)))%Z;
  p_active : active_ p = tally is_using (threads p);
  p_bounds : (minConns_ p <= maxConns_ p /\ 1 <= maxConns_ p)%Z;
  p_exclusive : exclusive (idle_ p) (nextId_ p) (threads p) }.

Lemma inv_pre p : inv p -> pre p.
Proof. intros []. by split. Qed.

Lemma notify_all_inv p : pre p -> inv (notify_all p).
Proof.
  intros [It Ia Ib Ix]. pose proof (notify_all_nobody p) as Hno. split; [exact It| |exact Ib| |by intros|].
  - change (active_ (notify_all p)) with (active_ p). rewrite Ia. symmetry. apply tally_fmap. by intros [].
  - fields. apply (exclusive_threads _ _ (threads p)); [|done]. intros t c. rewrite lookup_fmap.
    destruct (threads p !! t) as [[]|]; simpl; congruence.
  - intros t Ht. by apply Hno in Ht.
Qed.

(** Topping up: new idle connections, never beyond [limit]. *)
Lemma top_up_spec fuel now limit p :
  pre p ->
  exists idle nxt, top_up fuel now limit p =
      with_conns idle (active_ p) (active_ p + Z.of_nat (length idle)) nxt (deadReplaced_ p) p /\
    exclusive idle nxt (threads p) /\
    (idle = idle_ p \/ (active_ p + Z.of_nat (length idle) <= limit)%Z).
Proof.
  revert p. induction fuel as [|f IH]; intros p [It Ia Ib Ix]; cbn [top_up].
  { exists (idle_ p), (nextId_ p). rewrite <- It. split; [by destruct p|auto]. }
  destruct (Z.ltb_spec (totalConns_ p) limit) as [Hlt|].
  2:{ exists (idle_ p), (nextId_ p). rewrite <- It. split; [by destruct p|auto]. }
  cbn [createConnection]. set (c := mkConn (nextId_ p) now true). set (q := with_conns _ _ _ _ _ _).
  destruct (IH q) as (idle & nxt & E & Hx & Hi).
  - split; unfold q; fields; try done.
    + rewrite length_app. simpl. lia.
    + destruct Ix as [X1 X2 X3 X4]. split.
      * rewrite map_app. apply NoDup_app. split_and!; [done| |apply NoDup_singleton].
        intros k (d & -> & Hd)%list_elem_of_fmap Hk. apply list_elem_of_singleton in Hk. apply X2 in Hd. simpl in Hk. lia.
      * intros d [Hd|Hd]%elem_of_app; [apply X2 in Hd; lia|]. apply list_elem_of_singleton in Hd as ->. simpl. lia.
      * intros t d [Hd Hni]%X3. split; [lia|]. rewrite map_app, elem_of_app. intros [Hin|Hin]; [done|].
        apply list_elem_of_singleton in Hin. simpl in Hin. lia.
      * done.
  - exists idle, nxt. split; [rewrite E; done|]. split; [done|]. right. destruct Hi as [->|Hi]; [|done].
    unfold q. fields. rewrite length_app. simpl. lia.
Qed.

Lemma top_up_pre fuel now limit p : pre p -> pre (top_up fuel now limit p).
Proof.
  intros P. destruct (top_up_spec fuel now limit p P) as (idle & nxt & -> & Hx & _).
  destruct P as [It Ia Ib Ix]. by split.
Qed.

(** Topping up to at most the maximum gives no sleeper a missed chance. *)
Lemma top_up_inv fuel now limit p : inv p -> (limit <= maxConns_ p)%Z -> inv (top_up fuel now limit p).
Proof.
  intros I Hl. destruct (top_up_spec fuel now limit p (inv_pre p I)) as (idle & nxt & -> & Hx & Hi).
  destruct I as [It Ia Ib Ix Is Iw]. split; fields; try done.
  intros t Ht Hq. apply Iw in Ht; [|done]. unfold avail in *. fields. destruct Hi as [->|Hi]; [done|].
  pose proof (sound_bound idle). lia.
Qed.

Lemma prewarm_inv now p : inv p -> inv (prewarm now p).
Proof. intros I. unfold prewarm. destruct (shuttingDown_ p); [done|]. apply top_up_inv; [done|apply I]. Qed.

(** With a [notify_all] to come, sleepers are no matter. *)
Lemma pre_inv p :
  pre p -> (shuttingDown_ p = true -> forall t, threads p !! t <> Some Waiting) ->
  (exists t s, threads p !! t = Some s /\ is_calling s = true) -> inv p.
Proof.
  intros [It Ia Ib Ix] Hs (t & s & Ht & Hk). split; try done. intros t' _ Hq.
  pose proof (tally_nonneg is_calling (delete t (threads p))) as H.
  rewrite (tally_delete _ _ s), Hk in H by done. cbn [one] in H. lia.
Qed.

(** A thread that uses nothing moves on to another such state. *)
Lemma pre_insert t s p :
  pre p -> is_using s = false -> from_option is_using false (threads p !! t) = false ->
  pre (with_threads (<[t := s]> (threads p)) p).
Proof.
  intros [It Ia Ib Ix] Hs Hu. split; fields; try done.
  - rewrite tally_insert, Hs, Hu. simpl. lia.
  - by apply exclusive_insert_other.
Qed.

Lemma pre_forget t p :
  pre p -> from_option is_using false (threads p !! t) = false -> pre (with_threads (delete t (threads p)) p).
Proof.
  intros [It Ia Ib Ix] Hu. destruct (threads p !! t) as [s|] eqn:E.
  2:{ rewrite delete_id by done. by destruct p. }
  cbn [from_option] in Hu. split; fields; try done.
  - rewrite (tally_delete _ _ s), Hu by done. simpl. lia.
  - by apply exclusive_delete.
Qed.

(** A thread starts a call that ends with [notify_all]. *)
Lemma calling_inv t s mn mx p :
  inv p -> from_option is_using false (threads p !! t) = false -> is_calling s = true -> (mn <= mx)%Z -> (1 <= mx)%Z ->
  inv (with_threads (<[t := s]> (threads p)) (with_bounds mn mx p)).
Proof.
  intros I Ht Hk H1 H2. apply pre_inv; fields.
  - apply (pre_insert t s (with_bounds mn mx p)); [|by destruct s|done]. destruct I. by split.
  - intros H t' [[_ ->]|[_ Ht']]%lookup_insert_Some; [done|]. by apply (i_shutdown p I H t') in Ht'.
  - exists t, s. by rewrite lookup_insert_eq.
Qed.

Lemma configure_region_inv t mn mx p : inv p -> threads p !! t = None -> inv (configure_region t mn mx p).
Proof.
  intros I Ht. apply calling_inv; [done|by rewrite Ht|done|..];
    destruct (Z.ltb_spec mx 1); destruct (Z.ltb_spec mn 0);
    repeat match goal with |- context [(?a <? ?b)%Z] => destruct (Z.ltb_spec a b) end; lia.
Qed.

Lemma configure_prewarm_inv now t p :
  inv p -> threads p !! t = Some Configuring -> inv (configure_prewarm now t p).
Proof.
  intros I Ht. unfold configure_prewarm. pose proof (prewarm_inv now p I) as I'.
  assert (threads (prewarm now p) = threads p) as Et.
  { unfold prewarm. destruct (shuttingDown_ p); [done|].
    by destruct (top_up_spec (Z.to_nat (minConns_ p - totalConns_ p)) now (minConns_ p) p (inv_pre p I))
      as (idle & nxt & -> & _). }
  destruct (i_bounds _ I') as [H1 H2].
  assert (prewarm now p = with_bounds (minConns_ (prewarm now p)) (maxConns_ (prewarm now p)) (prewarm now p)) as E
    by (by destruct (prewarm now p)).
  rewrite E. fields. apply calling_inv; [done| |done..]. by rewrite Et, Ht.
Qed.

Lemma setMaxConnections_region_inv t n p : inv p -> threads p !! t = None -> inv (setMaxConnections_region t n p).
Proof.
  intros I Ht. unfold setMaxConnections_region. destruct (Z.ltb_spec n 1); [done|].
  apply calling_inv; [done|by rewrite Ht|done|destruct (Z.ltb_spec n (minConns_ p)); lia|done].
Qed.

Lemma notify_rest_inv t p : inv p -> threads p !! t = Some Notifying -> inv (notify_rest t p).
Proof. intros I Ht. apply notify_all_inv, pre_forget; [by apply inv_pre|by rewrite Ht]. Qed.

Lemma filter_sound (f : Conn -> bool) l : (sound (List.filter f l) <= sound l)%Z.
Proof.
  induction l as [|c l IH]; [done|]. cbn [List.filter]. destruct (f c); rewrite !sound_cons; unfold one; destruct (healthy c); lia.
Qed.

Lemma healthCheck_inv fn now p : inv p -> inv (runHealthCheck fn now p).
Proof.
  intros I. unfold runHealthCheck. destruct (shuttingDown_ p); [done|].
  apply top_up_inv; [|fields; lia]. destruct I as [It Ia Ib Ix Is Iw]. split; fields; try done.
  - pose proof (List.filter_length_le (keeps fn now) (idle_ p)). lia.
  - apply (exclusive_sublist (idle_ p)); [|done]. clear. induction (idle_ p) as [|c l IH]; [done|].
    cbn [List.filter]. destruct (keeps fn now c); by constructor.
  - intros t Ht Hq. apply Iw in Ht; [|done]. unfold avail in *. fields.
    pose proof (filter_sound (keeps fn now) (idle_ p)). lia.
Qed.

Lemma shutdown_end_inv p : inv p -> inv (shutdown_end p).
Proof.
  intros [It Ia Ib Ix Is Iw]. unfold shutdown_end. split; fields; try done.
  - simpl. lia.
  - apply (exclusive_sublist (idle_ p)); [apply sublist_nil_l|done].
  - intros t Ht Hq. apply Iw in Ht; [|done]. unfold avail in *. fields. pose proof (sound_bound (idle_ p)).
    change (sound []) with 0%Z. lia.
Qed.

Lemma reopen_inv now p : inv p -> inv (reopen now p).
Proof. intros [It Ia Ib Ix Is Iw]. apply prewarm_inv. by split. Qed.

Lemma id_mark k c : id (mark k c) = id c.
Proof. unfold mark. by destruct (k =? id c). Qed.

Lemma map_id_mark k l : map id (map (mark k) l) = map id l.
Proof. rewrite map_map. apply map_ext. intros c. apply id_mark. Qed.

Lemma sound_mark k l : (sound (map (mark k) l) <= sound l)%Z.
Proof.
  induction l as [|c l IH]; [done|]. cbn [map]. rewrite !sound_cons. unfold mark at 1, one.
  destruct (k =? id c), (healthy c); simpl; lia.
Qed.

Lemma mark_inv k p : inv p -> inv (markUnhealthy k p).
Proof.
  intros [It Ia Ib Ix Is Iw]. unfold markUnhealthy. split; fields; try done.
  - by rewrite length_map.
  - rewrite Ia. symmetry. apply tally_fmap. by intros [].
  - destruct Ix as [X1 X2 X3 X4].
    assert (forall t c, (mark_status k <$> threads p) !! t = Some (Using c) ->
      exists c', threads p !! t = Some (Using c') /\ id c = id c') as Hm.
    { intros t c. rewrite lookup_fmap. destruct (threads p !! t) as [[| |c'| | |]|]; try done.
      intros [= <-]. exists c'. by rewrite id_mark. }
    split.
    + by rewrite map_id_mark.
    + intros c Hc. apply list_elem_of_In, in_map_iff in Hc as (c' & <- & Hc%list_elem_of_In). rewrite id_mark. by apply X2.
    + intros t c (c' & Ht & ->)%Hm. rewrite map_id_mark. by apply (X3 t).
    + intros t t' c c' (d & Ht & Ed)%Hm (d' & Ht' & Ed')%Hm E. apply (X4 t t' d d'); congruence.
  - intros Hs t. rewrite lookup_fmap. specialize (Is Hs t). destruct (threads p !! t) as [[]|]; simpl; congruence.
  - intros t Ht. rewrite (tally_fmap is_woken is_woken), (tally_fmap is_calling is_calling) by by intros [].
    intros Hq. transitivity (avail p).
    + unfold avail. fields. pose proof (sound_mark k (idle_ p)). lia.
    + apply (Iw t); [|done]. rewrite lookup_fmap in Ht. destruct (threads p !! t) as [[]|]; simpl in Ht; congruence.
Qed.

(** The region of [release]: one more connection at most, and a notification. *)
Lemma release_region_inv t c p :
  inv p -> threads p !! t = Some (Using c) -> inv (release_region t c p).
Proof.
  intros [It Ia Ib Ix Is Iw] Ht. unfold release_region, give_back. fields.
  set (ts := <[t := Releasing]> (threads p)).
  assert (tally is_using ts = tally is_using (threads p) - 1)%Z as Hta by (unfold ts; rewrite tally_insert, Ht; simpl; lia).
  assert (exclusive (idle_ p) (nextId_ p) ts) as Hx by (by apply exclusive_insert_other).
  assert (shuttingDown_ p = true -> forall t', ts !! t' <> Some Waiting) as Hs.
  { intros H t' [[_ ?]|[_ Ht']]%lookup_insert_Some; [done|]. by apply (Is H t'). }
  assert (forall t', ts !! t' = Some Waiting -> tally is_calling ts = 0%Z -> (avail p + 1 <= tally is_woken ts + Z.of_nat late)%Z) as Hw.
  { intros t' Ht'. unfold ts in *. rewrite !tally_insert, Ht. cbn [from_option is_calling is_woken one].
    intros Hq. apply lookup_insert_Some in Ht' as [[_ ?]|[_ Ht']]; [done|]. apply Iw in Ht'; lia. }
  destruct (healthy c && negb (shuttingDown_ p)) eqn:E; split; fields; try done; try lia.
  - rewrite length_app. simpl. lia.
  - by apply (exclusive_return t c (threads p)).
  - intros t' Ht' Hq. apply Hw in Ht'; [|done]. unfold avail in *. fields. rewrite sound_app.
    apply andb_prop in E as [E _]. rewrite sound_cons, E. change (sound []) with 0%Z. simpl. lia.
  - intros t' Ht' Hq. apply Hw in Ht'; [|done]. unfold avail in *. fields. lia.
Qed.

Lemma alter_wake (w : nat) (ts : gmap nat status) :
  ts !! w = Some Waiting -> alter wake w ts = <[w := Woken]> ts.
Proof.
  intros Hw. apply map_eq. intros t. destruct (decide (w = t)) as [<-|Hne].
  - by rewrite lookup_alter_eq, Hw, lookup_insert_eq.
  - by rewrite lookup_alter_ne, lookup_insert_ne.
Qed.

Lemma release_notify_inv t w p :
  inv p -> threads p !! t = Some Releasing -> notified w p -> inv (release_notify t w p).
Proof.
  intros I Ht Hw. unfold release_notify. pose proof (pre_forget t p (inv_pre p I)) as P.
  rewrite Ht in P. specialize (P eq_refl). destruct I as [It Ia Ib Ix Is Iw].
  assert (forall t', delete t (threads p) !! t' = Some Waiting -> threads p !! t' = Some Waiting) as Hd
    by (intros t' [_ H]%lookup_delete_Some; done).
  destruct w as [w|]; cbn [notify_one notified] in *.
  - assert (delete t (threads p) !! w = Some Waiting) as Hq by (rewrite lookup_delete_ne; [done|congruence]).
    fields. rewrite (alter_wake w) by done.
    destruct (pre_insert w Woken _ P) as [Jt Ja Jb Jx]; [done|fields; by rewrite Hq|]. split; try done; fields.
    + intros Hs. by apply (Is Hs w) in Hw.
    + intros t' _. rewrite !tally_insert, Hq, !(tally_delete _ _ Releasing) by done.
      cbn [is_woken is_calling one from_option]. intros Hk. apply Iw in Hw; [|lia]. unfold avail in *. fields. lia.
  - destruct P as [Jt Ja Jb Jx]. split; try done; fields.
    + intros _ t' H%Hd. by apply Hw in H.
    + intros t' H%Hd. by apply Hw in H.
Qed.

Lemma init_inv now : inv (init now).
Proof.
  unfold init. apply prewarm_inv. split; fields; try done.
  split; try done; [constructor|by intros c ?%not_elem_of_nil].
Qed.

Lemma time_out_inv t p : inv p -> threads p !! t = Some Waiting -> inv (time_out t p).
Proof.
  intros I Ht. unfold time_out. fields. assert (inv (with_threads (delete t (threads p)) p)) as I'
    by (apply inv_forget; [done|by rewrite Ht|left; by rewrite Ht]).
  destruct (shuttingDown_ p); [done|]. by destruct I'.
Qed.

End late.

(** A woken thread gives up: one more connection may be overlooked. *)
Lemma late_inv n t p : inv n p -> threads p !! t = Some Woken -> inv (S n) (time_out t p).
Proof.
  intros [It Ia Ib Ix Is Iw] Ht. unfold time_out. fields.
  assert (inv (S n) (with_threads (delete t (threads p)) p)) as I'.
  { split; fields; try done.
    - rewrite (tally_delete _ _ Woken) by done. simpl. lia.
    - by apply exclusive_delete.
    - intros H t' [_ Ht']%lookup_delete_Some. by apply (Is H t').
    - intros t' [_ Ht']%lookup_delete_Some. rewrite !(tally_delete _ _ Woken) by done.
      cbn [is_calling is_woken one]. intros Hq. apply Iw in Ht'; [|lia]. unfold avail in *. fields. lia. }
  destruct (shuttingDown_ p); [done|]. by destruct I'.
Qed.

Lemma step_inv n k p q : inv n p -> step p k q -> inv (k + n) q.
Proof.
  intros I H. destruct H as [now t Ht|now t Ht|t Ht|t Ht|t Ht|t c Ht|t w Ht Hw|t mn mx Ht|now t Ht|t mx Ht|t Ht|fn now| | |now|k].
  - cbn [Nat.add]. unfold acquire. fields. assert (inv n (count_request p)) as I' by (by destruct I).
    destruct (shuttingDown_ p) eqn:E; [done|]. apply round_inv; [done..|]. by left.
  - unfold resume. destruct (shuttingDown_ p) eqn:E.
    + apply inv_forget; [done| |by right]. by rewrite Ht.
    + apply round_inv; [done..|]. by right.
  - by apply time_out_inv.
  - by apply late_inv.
  - destruct I as [It Ia Ib Ix Is Iw]. split; fields; try done.
    + rewrite tally_insert, Ht. simpl. lia.
    + by apply exclusive_insert_other.
    + intros Hs. by apply (Is Hs t) in Ht.
    + intros t' _. rewrite !tally_insert, Ht. cbn [is_woken is_calling one from_option]. intros Hq.
      apply Iw in Ht; [|lia]. unfold avail in *. fields. lia.
  - by apply release_region_inv.
  - by apply release_notify_inv.
  - by apply configure_region_inv.
  - by apply configure_prewarm_inv.
  - by apply setMaxConnections_region_inv.
  - by apply notify_rest_inv.
  - by apply healthCheck_inv.
  - apply notify_all_inv. destruct (inv_pre _ p I). by split.
  - by apply shutdown_end_inv.
  - by apply reopen_inv.
  - by apply mark_inv.
Qed.

Lemma pool_reachable_inv n p : reach n p -> inv n p.
Proof. induction 1 as [now|n k p q _ IH Hs]; [apply init_inv|by apply (step_inv n k p)]. Qed.

(** [C30] The pool's books are right in every reachable state: the total is what
    is idle and in use, the counter of active connections is the number of
    threads that use one, and no connection is used by two threads or used and
    idle at the same time. *)
Theorem pool_consistent p :
  reachable p ->
  totalConns_ p = (active_ p + Z.of_nat (length (idle_ p)))%Z /\ active_ p = tally is_using (threads p) /\
  NoDup (map id (idle_ p)) /\
  forall t c, threads p !! t = Some (Using c) ->
    (id c ∉ map id (idle_ p)) /\ forall t' c', threads p !! t' = Some (Using c') -> id c' = id c -> t' = t.
Proof.
  intros [n [It Ia _ [X1 X2 X3 X4] _ _]%pool_reachable_inv]. split_and!; [done..|]. intros t c Ht. split; [by apply (X3 t)|].
  intros t' c' Ht' E. by apply (X4 t' t c' c).
Qed.


Lemma resume_gets n p t now :
  inv n p -> shuttingDown_ p = false -> threads p !! t = Some Woken -> (0 < avail p)%Z ->
  exists c, threads (resume now t p) !! t = Some (Using c).
Proof.
  intros I Hs Ht Ha. unfold resume. rewrite Hs.
  destruct (round_inv n now t p I Hs) as [_ H]; [by right|]. by apply H.
Qed.

Lemma release_to n p t t' c :
  inv n p -> shuttingDown_ p = false -> threads p !! t = Some Waiting -> threads p !! t' = Some (Using c) ->
  let q := release t' c (Some t) p in
  inv n q /\ shuttingDown_ q = false /\ threads q !! t = Some Woken /\
  ((healthy c = true \/ (active_ p <= maxConns_ p)%Z) -> (0 < avail q)%Z).
Proof.
  intros I Hs Ht Hc. cbn zeta. unfold release, release_notify. cbn [notify_one].
  assert (t' <> t) as Hne by (intros ->; congruence).
  pose proof (release_region_inv n t' c p I Hc) as I1.
  assert (threads (release_region t' c p) = <[t' := Releasing]> (threads p)) as Et
    by (unfold release_region, give_back; by destruct (_ && _)).
  pose proof (release_notify_inv n t' (Some t) _ I1) as I2. unfold release_notify in I2. cbn [notify_one notified] in I2.
  split_and!.
  - apply I2; rewrite Et; [by rewrite lookup_insert_eq|by rewrite lookup_insert_ne].
  - fields. unfold release_region, give_back. by destruct (_ && _).
  - fields. rewrite Et, lookup_alter_eq, lookup_delete_ne, lookup_insert_ne, Ht by done. done.
  - unfold avail, release_region, give_back. fields. rewrite Hs. cbn [negb]. rewrite andb_true_r.
    pose proof (sound_bound (idle_ p)). destruct (healthy c) eqn:E; fields; [|intros [?|?]; [done|lia]].
    rewrite sound_app, sound_cons, E. change (sound []) with 0%Z. cbn [one]. lia.
Qed.

(** [C31] What a sleeper can miss.  Take any run of the pool in which [n] threads
    were woken but had the mutex only after their deadline and gave up, and a
    thread that sleeps in [acquire] at its end.  Then a [notify_all] is about to
    be called; or another thread is about to call [notify_one]; or a woken thread
    gets a connection if it has the mutex in time; or at most [n] connections are
    to be had, so none if no thread came too late.  In this last case, when there
    is none to be had some thread uses one, and a thread that gives a connection
    back and wakes the sleeper gets it one if it resumes in time, provided that
    the connection is healthy or the maximum has not been lowered below the number
    in use. *)
Theorem sleeper_served n p t :
  reach n p -> threads p !! t = Some Waiting ->
  (exists t' s, threads p !! t' = Some s /\ (s = Configuring \/ s = Notifying \/ s = Releasing)) \/
  (exists t', threads p !! t' = Some Woken /\
     forall now, exists c, threads (resume now t' p) !! t' = Some (Using c)) \/
  ((avail p <= Z.of_nat n)%Z /\ ((avail p <= 0)%Z -> exists t' c, threads p !! t' = Some (Using c)) /\
   forall t' c now, threads p !! t' = Some (Using c) -> healthy c = true \/ (active_ p <= maxConns_ p)%Z ->
     exists d, threads (resume now t (release t' c (Some t) p)) !! t = Some (Using d)).
Proof.
  intros I%pool_reachable_inv Ht. assert (shuttingDown_ p = false) as Hs.
  { destruct (shuttingDown_ p) eqn:E; [|done]. by apply (i_shutdown n p I E t) in Ht. }
  destruct (Z.ltb_spec 0 (tally is_calling (threads p))) as [Hk|Hk].
  { left. apply tally_pos in Hk as (t' & s & H1 & H2). exists t', s. destruct s; auto; done. }
  pose proof (tally_nonneg is_calling (threads p)).
  pose proof (i_wake n p I t Ht) as Hw. destruct (Z.leb_spec (avail p) (Z.of_nat n)) as [Ha|Ha].
  - right; right. split; [done|]. split.
    + intros Ha0. destruct (tally_pos is_using (threads p)) as (t' & s & H1 & H2).
      { rewrite <- (i_active n p I). pose proof (i_bounds n p I). unfold avail in Ha0. lia. }
      destruct s as [| |c| | |]; try done. by exists t', c.
    + intros t' c now Hc Hh. destruct (release_to n p t t' c I Hs Ht Hc) as (I' & Hs' & Ht' & Ha').
      eapply resume_gets; eauto.
  - destruct (tally_pos is_woken (threads p)) as (t' & s & H1 & H2); [lia|].
    destruct s; try done; [right; left; exists t'|left; exists t', Releasing; auto].
    split; [done|]. intros now. eapply resume_gets; eauto. lia.
Qed.

(** ** An exhausted pool

    One connection at most: thread 1 uses it, threads 2 and 3 sleep. *)

Definition small : Pool := configure_region 9 0 1 (init 0).
Definition exhausted : Pool :=
  acquire 5 3 (acquire 4 2 (acquire 3 1 (runHealthCheck (fun _ => false) 2 (notify_rest 9 (configure_prewarm 1 9 small))))).

Lemma exhausted_reach : reach 0 exhausted.
Proof.
  unfold exhausted, small. do 3 (eapply (reach_step 0 0); [|apply s_acquire; by vm_compute]).
  eapply (reach_step 0 0); [|apply s_healthCheck]. eapply (reach_step 0 0); [|apply s_notify_all; by vm_compute].
  eapply (reach_step 0 0); [|apply s_prewarm; by vm_compute]. eapply (reach_step 0 0); [|apply s_configure; by vm_compute].
  apply reach_init.
Qed.

Lemma exhausted_threads t s :
  threads exhausted !! t = Some s -> s = Using (mkConn 11 3 true) \/ s = Waiting.
Proof.
  assert (threads exhausted = {[1 := Using (mkConn 11 3 true); 2 := Waiting; 3 := Waiting]}) as -> by by_decide.
  intros Ht. apply lookup_insert_Some in Ht as [[_ <-]|[_ Ht]]; [by left|].
  apply lookup_insert_Some in Ht as [[_ <-]|[_ Ht]]; [by right|]. apply lookup_singleton_Some in Ht as [_ <-]. by right.
Qed.

Lemma pool_consistent_witness :
  totalConns_ exhausted = 1%Z /\ active_ exhausted = tally is_using (threads exhausted).
Proof.
  split; [by vm_compute|]. destruct (pool_consistent exhausted (ex_intro _ 0 exhausted_reach)) as (_ & H & _). exact H.
Defined.

Lemma sleeper_served_witness :
  threads exhausted !! 2 = Some Waiting /\
  exists d, threads (resume 6 2 (release 1 (mkConn 11 3 true) (Some 2) exhausted)) !! 2 = Some (Using d).
Proof.
  split; [by vm_compute|].
  destruct (sleeper_served 0 exhausted 2 exhausted_reach) as [(t & s & Ht & Hs)|[(t & Ht & _)|(_ & _ & H)]].
  - by vm_compute.
  - apply exhausted_threads in Ht. destruct Ht as [-> | ->], Hs as [?|[?|?]]; discriminate.
  - apply exhausted_threads in Ht. destruct Ht; discriminate.
  - apply H; [by vm_compute|]. by left.
Defined.

(** The bound is reached: thread 2 is woken, but has the mutex only after its
    deadline, and gives up without a look at [idle_].  Thread 3 sleeps on beside an
    idle connection, with no notification to come. *)
Lemma late_wakeup_lost :
  let p := release 1 (mkConn 11 3 true) (Some 2) exhausted in
  let q := time_out 2 p in
  reach 1 q /\ threads p !! 2 = Some Woken /\ threads q = {[3 := Waiting]} /\
  idle_ q = [mkConn 11 3 true] /\ avail q = 1%Z.
Proof.
  cbn zeta. split; [|split_and!; by_decide]. eapply (reach_step 0 1); [|apply s_late; by vm_compute].
  unfold release. eapply (reach_step 0 0); [|apply s_notify_one; by vm_compute].
  eapply (reach_step 0 0); [|apply s_release; by vm_compute]. apply exhausted_reach.
Qed.
