(* ===== verification/Columns.v ===== *)
(** * The values of a row before it is stored ([src/engine/engine.hpp]:
    [resolveDefault], [applyDefaults], the unquoting in [insertRow],
    [applyAutoInc], [evalCheckConstraint], [checkAllConstraints],
    [checkSetConstraints], [checkJsonColumns])

    The steps that turn the values of an INSERT into a row, and the CHECK
    constraints.  Unquoting is shown to undo quoting, and the checks to accept
    exactly the rows that satisfy the constraints. *)

From S2P Require Import Prelude Index Partition Table Arith Where.

(** ** DEFAULT *)

(** What the clock shows during a statement ([dateutils::currentDatetimeStr],
    [currentDateStr], [currentTimeStr]). *)
Record Clock := mkClock { now_datetime : bytes; now_date : bytes; now_time : bytes }.

Definition resolveDefault (k : Clock) (c : Column) : bytes :=
  if negb (hasDefault c) then NULL
  else
    let defUp := upper (defaultValue c) in
    if bytes_eqb defUp (str "CURRENT_TIMESTAMP") || bytes_eqb defUp (str "NOW()") then now_datetime k
    else if bytes_eqb defUp (str "CURDATE()") || bytes_eqb defUp (str "CURRENT_DATE") then now_date k
    else if bytes_eqb defUp (str "CURTIME()") || bytes_eqb defUp (str "CURRENT_TIME") then now_time k
    else defaultValue c.

(** An empty value is a slot without a value; missing values are appended. *)
Fixpoint applyDefaults (k : Clock) (cs : list Column) (vals : list bytes) : list bytes :=
  match cs, vals with
  | [], _ => vals
  | c :: cs', [] => resolveDefault k c :: applyDefaults k cs' []
  | c :: cs', v :: vals' => (if bytes_eqb v [] then resolveDefault k c else v) :: applyDefaults k cs' vals'
  end.

(** ** Quotes *)

Definition QUOTE : byte := 39.
Definition DQUOTE : byte := 34.
Definition is_quote (c : byte) : bool := ((c =? QUOTE) || (c =? DQUOTE))%Z.

Definition quoted (v : bytes) : bool :=
  match v with
  | c :: _ => (2 <=? length v) && is_quote c && (List.last v 0 =? c)%Z
  | [] => false
  end.

(** Of two equal quotes in a row the second is skipped. *)
Fixpoint undouble (s : bytes) : bytes :=
  match s with
  | [] => []
  | c :: s' =>
      c :: (if is_quote c then
              match s' with
              | d :: s'' => if (d =? c)%Z then undouble s'' else undouble s'
              | [] => []
              end
            else undouble s')
  end.

Definition unquote (v : bytes) : bytes := if quoted v then undouble (stripQuotes v) else v.

(** ** AUTO_INCREMENT *)

Section columns.
Context {DB : Double} {tree : Type} {RI : RowIndex tree}.
Context (regex_search : bytes -> bytes -> option bool).

Fixpoint applyAutoInc (cs : list Column) (vals : list bytes) (t : Table tree) : list bytes * Table tree :=
  match cs, vals with
  | c :: cs', v :: vals' =>
      let '(v, t) :=
        if negb (autoIncrement c) then (v, t)
        else if is_null v then let '(n, t) := consumeAutoInc (c_name c) t in (to_string n, t)
        else match stoull v with
             | Some x => (v, updateAutoIncBase (c_name c) (u64 (x + 1)) t)
             | None => (v, t)
             end in
      let '(vals', t) := applyAutoInc cs' vals' t in (v :: vals', t)
  | _, _ => (vals, t)
  end.

(** ** CHECK *)

Definition check_op (s : bytes) : operator :=
  if bytes_eqb s (str "LIKE") then LIKE else if bytes_eqb s (str "IS NULL") then IS_NULL
  else if bytes_eqb s (str "IS NOT NULL") then IS_NOT_NULL
  else if bytes_eqb s (str "REGEXP") then REGEXP else if bytes_eqb s (str "NOT REGEXP") then NOT_REGEXP
  else if bytes_eqb s (str "=") then EQ else if bytes_eqb s (str "!=") then NE
  else if bytes_eqb s (str "<") then LT else if bytes_eqb s (str ">") then GT
  else if bytes_eqb s (str "<=") then LE else if bytes_eqb s (str ">=") then GE else OTHER.

Definition evalCheckConstraint (v : bytes) (cc : CheckConstraint) : bool :=
  let is_in := bytes_eqb (ck_op cc) (str "IN") in
  if is_in || bytes_eqb (ck_op cc) (str "NOT IN") then
    let found := existsb (fun lv => bytes_eqb (stripQuotes lv) (stripQuotes v)) (ck_inList cc) in
    if is_in then found else negb found
  else compareValues regex_search v (check_op (ck_op cc)) (ck_val cc).

Definition CHECK_VIOLATED : string := "CHECK constraint verletzt".

(** NULL skips the checks. *)
Definition value_ok (c : Column) (v : bytes) : bool :=
  bytes_eqb v NULL || forallb (evalCheckConstraint v) (checks c).

Fixpoint checkAllConstraints (cs : list Column) (vals : list bytes) : result () :=
  match cs, vals with
  | c :: cs', v :: vals' => if value_ok c v then checkAllConstraints cs' vals' else Throw CHECK_VIOLATED
  | _, _ => Ok ()
  end.

Fixpoint checkSetConstraints (cs : list Column) (setCols setVals : list bytes) : result () :=
  match setCols, setVals with
  | n :: setCols', v :: setVals' =>
      match colOf_cols cs n ≫= (cs !!.) with
      | Some c => if value_ok c v then checkSetConstraints cs setCols' setVals' else Throw CHECK_VIOLATED
      | None => checkSetConstraints cs setCols' setVals'
      end
  | _, _ => Ok ()
  end.

Definition JSON : bytes := str "JSON".

(** [isValidJson] is [jsonutils::isValid]. *)
Fixpoint checkJsonColumns (isValidJson : bytes -> bool) (cs : list Column) (vals : list bytes) : result () :=
  match cs, vals with
  | c :: cs', v :: vals' =>
      if bytes_eqb (upper (c_type c)) JSON && negb (is_null v) && negb (isValidJson v)
      then Throw "Ungueltiges JSON"
      else checkJsonColumns isValidJson cs' vals'
  | _, _ => Ok ()
  end.

(** ** What the checks accept *)

(** Every value of the row satisfies the CHECK constraints of its column. *)
Definition row_checked (cs : list Column) (vals : list bytes) : Prop :=
  forall i c v, cs !! i = Some c -> vals !! i = Some v -> value_ok c v = true.

Lemma row_checked_cons c cs v vals :
  row_checked (c :: cs) (v :: vals) <-> value_ok c v = true /\ row_checked cs vals.
Proof.
  split.
  - intros H. split; [by apply (H 0)|]. intros i. apply (H (S i)).
  - intros [H1 H2] [|i] c' v'; [by intros [= <-] [= <-]|]. apply H2.
Qed.

Lemma checkAllConstraints_ok cs vals : checkAllConstraints cs vals = Ok () <-> row_checked cs vals.
Proof.
  revert vals. induction cs as [|c cs IH]; intros [|v vals]; try (split; [|done]; intros _ i ? ?; by rewrite ?lookup_nil).
  cbn [checkAllConstraints]. rewrite row_checked_cons, <- IH. destruct (value_ok c v); split; intuition discriminate.
Qed.

(** A value may go into the named column. *)
Definition set_checked (cs : list Column) (sets : list (bytes * bytes)) : Prop :=
  forall n v i c, (n, v) ∈ sets -> colOf_cols cs n = Some i -> cs !! i = Some c -> value_ok c v = true.

Lemma checkSetConstraints_ok cs setCols setVals :
  checkSetConstraints cs setCols setVals = Ok () -> set_checked cs (zip setCols setVals).
Proof.
  revert setVals. induction setCols as [|n ns IH]; intros [|v vs]; cbn [checkSetConstraints zip zip_with];
    try (intros _ ? ? ? ? ?%not_elem_of_nil; done).
  destruct (colOf_cols cs n ≫= (cs !!.)) as [c|] eqn:E.
  - destruct (value_ok c v) eqn:Hv; [|done]. intros H n' v' i c' [[= -> ->]|Hin]%elem_of_cons Hi Hc; [|by eapply IH].
    rewrite Hi in E. cbn in E. congruence.
  - intros H n' v' i c' [[= -> ->]|Hin]%elem_of_cons Hi Hc; [|by eapply IH].
    rewrite Hi in E. cbn in E. congruence.
Qed.

(** ** Widths *)

Lemma length_applyDefaults k cs vals : length (applyDefaults k cs vals) = Nat.max (length cs) (length vals).
Proof. revert vals. induction cs as [|c cs IH]; intros [|v vals]; simpl; rewrite ?IH; simpl; lia. Qed.

Lemma applyAutoInc_spec cs vals t :
  exists m, (applyAutoInc cs vals t).2 = with_autoInc t m /\ length (applyAutoInc cs vals t).1 = length vals.
Proof.
  revert vals t. induction cs as [|c cs IH]; intros [|v vals] t; cbn [applyAutoInc];
    try (exists (autoIncMap_ t); by destruct t).
  assert (exists v' m, (if negb (autoIncrement c) then (v, t)
        else if is_null v then let '(n, t) := consumeAutoInc (c_name c) t in (to_string n, t)
        else match stoull v with
             | Some x => (v, updateAutoIncBase (c_name c) (u64 (x + 1)) t)
             | None => (v, t)
             end) = (v', with_autoInc t m)) as (v' & m & ->).
  { destruct (negb (autoIncrement c)); [exists v, (autoIncMap_ t); by destruct t|].
    destruct (is_null v); [by eexists _, _|].
    destruct (stoull v); [by eexists _, _|exists v, (autoIncMap_ t); by destruct t]. }
  destruct (IH vals (with_autoInc t m)) as (m' & E1 & E2). exists m'.
  destruct (applyAutoInc cs vals (with_autoInc t m)) as [vals' t']. simpl in *. by rewrite E1, E2.
Qed.
End columns.

(** ** Unquoting undoes quoting *)

(** The literal that stands for a text: between quotes, with inner quotes doubled. *)
Fixpoint double_quotes (s : bytes) : bytes :=
  match s with
  | [] => []
  | c :: s' => (if (c =? QUOTE)%Z then [c; c] else [c]) ++ double_quotes s'
  end.

Definition literal (s : bytes) : bytes := QUOTE :: double_quotes s ++ [QUOTE].

(** No two double quotes side by side. *)
Fixpoint no_double (s : bytes) : bool :=
  match s with
  | c :: (d :: _) as s' => negb ((c =? DQUOTE) && (d =? DQUOTE))%Z && no_double s'
  | _ => true
  end.

Lemma stripQuotes_between c s : is_quote c = true -> stripQuotes (c :: s ++ [c]) = s.
Proof.
  intros Hc. unfold stripQuotes. rewrite app_comm_cons, last_last, removelast_last.
  rewrite (proj2 (Nat.leb_le 2 _)) by (cbn [length app]; rewrite length_app; simpl; lia).
  unfold is_quote, QUOTE, DQUOTE in Hc. rewrite !andb_diag, Hc. done.
Qed.

Lemma double_quotes_cons c s : c <> QUOTE -> double_quotes (c :: s) = c :: double_quotes s.
Proof. intros H. cbn [double_quotes]. by rewrite (proj2 (Z.eqb_neq c QUOTE)). Qed.

Lemma undouble_double s : no_double s = true -> undouble (double_quotes s) = s.
Proof.
  induction s as [|c s IH]; [done|]. intros Hn.
  assert (no_double s = true) as Hs by (destruct s; [done|by apply andb_prop in Hn as [_ Hn]]).
  specialize (IH Hs). destruct (Z.eqb_spec c QUOTE) as [->|Hq].
  - change (undouble (double_quotes (QUOTE :: s))) with (QUOTE :: undouble (double_quotes s)). by rewrite IH.
  - rewrite double_quotes_cons by done. cbn [undouble]. destruct (is_quote c) eqn:E; [|by rewrite IH].
    assert (c = DQUOTE) as -> by (unfold is_quote, DQUOTE in *; lia).
    destruct s as [|d s']; [done|]. cbn [no_double] in Hn.
    assert (d <> DQUOTE) as Hd by (intros ->; done).
    destruct (Z.eqb_spec d QUOTE) as [->|Hdq]; [cbn [double_quotes app] in *|rewrite double_quotes_cons in * by done].
    + change (QUOTE =? DQUOTE)%Z with false. cbn iota. by f_equal.
    + rewrite (proj2 (Z.eqb_neq d DQUOTE)) by done. by f_equal.
Qed.

(** INSERT stores the text a literal stands for: unquoting a quoted text
    with its single quotes doubled gives back the text, if no two double quotes
    stand side by side in it. *)
Theorem unquote_literal s : no_double s = true -> unquote (literal s) = s.
Proof.
  intros Hn. unfold unquote, literal. rewrite stripQuotes_between by done.
  replace (quoted (QUOTE :: double_quotes s ++ [QUOTE])) with true; [by apply undouble_double|].
  unfold quoted. rewrite app_comm_cons, last_last, Z.eqb_refl.
  rewrite (proj2 (Nat.leb_le 2 _)); [done|]. rewrite length_app. simpl. lia.
Qed.

Lemma unquote_literal_witness :
  no_double (str "it's") = true /\ unquote (str "'it''s'") = str "it's".
Proof. split; [reflexivity|]. exact (unquote_literal (str "it's") eq_refl). Defined.

(** Two double quotes inside a literal become one: the loop skips the second of
    any two equal quotes, whatever encloses the text. *)
Lemma double_quotes_collapse :
  unquote (literal [97; DQUOTE; DQUOTE; 98]%Z) = [97; DQUOTE; 98]%Z.
Proof. reflexivity. Qed.
