(* ===== verification/Triggers.v ===== *)
(** * Row triggers ([src/engine/engine.hpp]: [resolveTableName],
    [trgSubstituteRefs], [executeTriggerBody], [executeTriggerInsert],
    [fireAllTriggers])

    A trigger's body is a text that is cut into statements and interpreted
    statement by statement: IF, SIGNAL, SET NEW and INSERT.  The interpreter
    works on the proposed row and on the tables.  It is shown to stop on every
    text and never to change or remove a row that is already stored. *)

From S2P Require Import Prelude Index BTree Partition Table Arith Where Columns.

(** ** Table names *)

(** Whose tables a bare name may mean. *)
Record Session := mkSession { currentUserId_ : Z; isRootUser_ : bool; currentSchema_ : bytes }.

Section names.
Context {T : Type}.

Definition resolveTableName (s : Session) (tables_ : gmap bytes T) (name : bytes) : bytes :=
  let has n := bool_decide (is_Some (tables_ !! n)) in
  let dflt := currentSchema_ s ++ DOT :: name in
  if bool_decide (DOT ∈ name) then name
  else if has name then name
  else if ((0 <? currentUserId_ s)%Z && negb (isRootUser_ s))%bool then
    let pf := str "u" ++ to_string (currentUserId_ s) ++ str "_" ++ name in
    let spf := currentSchema_ s ++ DOT :: pf in
    if has pf then pf else if has spf then spf else dflt
  else dflt.
End names.

(** ** Text *)

Definition is_blank (c : byte) : bool := ((c =? 32) || (c =? 9) || (c =? 13) || (c =? 10))%Z.

Definition trgTrim (s : bytes) : bytes :=
  rev (drop_while is_blank (rev (drop_while is_blank s))).

Definition trgFindCol (cs : list Column) (name : bytes) : option nat :=
  fst <$> list_find (fun c => c_name c = name) cs.

(** The value of a column in the proposed or the old row. *)
Definition ref_value (cs : list Column) (row : list bytes) (name : bytes) : option bytes :=
  i ← trgFindCol cs name; row !! i.

Definition NEW_ : bytes := str "NEW.".
Definition OLD_ : bytes := str "OLD.".

Fixpoint substitute (fuel : nat) (cs : list Column) (newRow oldRow : list bytes) (s : bytes) : bytes :=
  match fuel, s with
  | S f, c :: s' =>
      let pfx := upper (take 4 s) in
      if bytes_eqb pfx NEW_ || bytes_eqb pfx OLD_ then
        let rest := drop 4 s in
        let name := take_while is_word rest in
        let out :=
          match trgFindCol cs name with
          | Some i => default NULL ((if bytes_eqb pfx NEW_ then newRow else oldRow) !! i)
          | None => take 4 s ++ name
          end in
        out ++ substitute f cs newRow oldRow (drop_while is_word rest)
      else c :: substitute f cs newRow oldRow s'
  | _, _ => []
  end.

Definition trgSubstituteRefs (s : bytes) (newRow oldRow : list bytes) (cs : list Column) : bytes :=
  substitute (length s) cs newRow oldRow s.

(** The body without the quotes around it, if there are any. *)
Definition unquote1 (s : bytes) : bytes :=
  match s with
  | c :: s' => if (2 <=? length s) && (c =? QUOTE)%Z && (List.last s 0 =? QUOTE)%Z then removelast s' else s
  | [] => s
  end.

Definition trgParseSignal (stmt : bytes) : bytes :=
  match find_sub (str "SIGNAL") (upper stmt) with
  | None => stmt
  | Some p =>
      let rest := trgTrim (drop (p + 6) stmt) in
      match rest with
      | c :: rest' =>
          if (c =? QUOTE)%Z then
            if (2 <=? length rest) && (List.last rest 0 =? QUOTE)%Z then removelast rest' else rest'
          else rest
      | [] => rest
      end
  end.

(** The statements between semicolons outside single quotes; a last one without
    a semicolon counts unless it is blank. *)
Fixpoint split_stmts (inQ : bool) (cur s : bytes) : list bytes :=
  match s with
  | [] => match trgTrim cur with [] => [] | t => [t] end
  | c :: s' =>
      if (c =? QUOTE)%Z then split_stmts (negb inQ) (cur ++ [c]) s'
      else if inQ then split_stmts inQ (cur ++ [c]) s'
      else if (c =? 59)%Z then trgTrim cur :: split_stmts inQ [] s'
      else split_stmts inQ (cur ++ [c]) s'
  end.

(** The tokens of an INSERT: words, and parentheses and commas by themselves. *)
Definition flush (cur : bytes) : list bytes := match cur with [] => [] | _ => [cur] end.

Fixpoint insert_tokens (inQ : bool) (cur s : bytes) : list bytes :=
  match s with
  | [] => flush cur
  | c :: s' =>
      if (c =? QUOTE)%Z then insert_tokens (negb inQ) (cur ++ [c]) s'
      else if inQ then insert_tokens inQ (cur ++ [c]) s'
      else if ((c =? 32) || (c =? 9))%Z then flush cur ++ insert_tokens inQ [] s'
      else if ((c =? 40) || (c =? 41) || (c =? 44))%Z then flush cur ++ [c] :: insert_tokens inQ [] s'
      else insert_tokens inQ (cur ++ [c]) s'
  end.

(** ** Execution *)

Section triggers.
Context {DB : Double} {tree : Type} {RI : RowIndex tree}.

Definition trgCompare (a op b : bytes) : bool :=
  let ca := stripQuotes a in let cb := stripQuotes b in
  let o := if bytes_eqb op (str "=") then EQ else if bytes_eqb op (str "!=") then NE
           else if bytes_eqb op (str "<") then LT else if bytes_eqb op (str ">") then GT
           else if bytes_eqb op (str "<=") then LE else if bytes_eqb op (str ">=") then GE else OTHER in
  match numbers ca cb with
  | Some (da, db) => compare_numbers o da db
  | None => compare_texts o ca cb
  end.

(** The end of a (part of a) trigger: go on, SIGNAL, or an exception. *)
Inductive ending := Proceed | Signal (msg : bytes) | Raise (e : string).

Record State := mkState { newRow : list bytes; tables_ : gmap bytes (Table tree) }.

Context (session : Session) (clock : Clock).

(** The table is changed in place: what happens before an exception stays. *)
Definition executeTriggerInsert (sql : bytes) (m : gmap bytes (Table tree)) : ending * gmap bytes (Table tree) :=
  match insert_tokens false [] sql with
  | t0 :: t1 :: tblName :: t3 :: t4 :: ts =>
      if negb (bytes_eqb (upper t0) (str "INSERT")) || negb (bytes_eqb (upper t1) (str "INTO")) then (Proceed, m)
      else
        let rest := t3 :: t4 :: ts in
        let rest := if bytes_eqb (upper t3) (str "VALUES") then tl rest else rest in
        let rest := match rest with p :: rest' => if bytes_eqb p (str "(") then rest' else rest | [] => rest end in
        let vals := map unquote1 (List.filter (fun t => negb (bytes_eqb t (str ",")))
                                    (take_while (fun t => negb (bytes_eqb t (str ")"))) rest)) in
        let key := resolveTableName session m tblName in
        match m !! key with
        | None => (Proceed, m)
        | Some t =>
            let '(vals, t) := applyAutoInc (columns_ t) (applyDefaults clock (columns_ t) vals) t in
            match insert_row t (row_of vals) with
            | Ok t' => (Proceed, <[key := t']> m)
            | Throw e => (Raise e, <[key := t]> m)
            end
        end
  | _ => (Proceed, m)
  end.

Section body.
Context (oldRow : list bytes) (cs : list Column).

(** One side of a condition: NEW.col, OLD.col or a literal. *)
Definition side (row : list bytes) (t : bytes) : bytes :=
  let pfx := upper (take 4 t) in
  if (4 <? length t) && bytes_eqb pfx NEW_ then default t (ref_value cs row (drop 4 t))
  else if (4 <? length t) && bytes_eqb pfx OLD_ then default t (ref_value cs oldRow (drop 4 t))
  else t.

Definition condition (row : list bytes) (cond : bytes) : bool :=
  match words cond with
  | lhs :: op :: rhs :: _ => trgCompare (side row lhs) op (side row (unquote1 rhs))
  | _ => false
  end.

(** [SET NEW.col = val] from behind [SET NEW.] *)
Definition set_new (rest : bytes) (row : list bytes) : list bytes :=
  match find_char 61 rest with
  | None => row
  | Some p =>
      match trgFindCol cs (trgTrim (take p rest)) with
      | Some i => <[i := unquote1 (trgTrim (drop (S p) rest))]> row
      | None => row
      end
  end.

(** Statements are run until one does not proceed. *)
Definition run_stmts (step : bytes -> State -> option (ending * State)) : list bytes -> State -> option (ending * State) :=
  fix go l s :=
    match l with
    | [] => Some (Proceed, s)
    | x :: l' =>
        match step x s with
        | Some (Proceed, s') => go l' s'
        | r => r
        end
    end.

(** [None]: out of fuel.  The body behind THEN is run by a recursive call. *)
Fixpoint exec_stmt (fuel : nat) (stmt0 : bytes) (s : State) : option (ending * State) :=
  let stmt := trgTrim stmt0 in
  let up := upper stmt in
  match fuel with
  | O => None
  | S f =>
      if bytes_eqb up [] || bytes_eqb up (str "END IF") || bytes_eqb up (str "END") then Some (Proceed, s)
      else if starts_with (str "IF") up then
        match find_sub (str "THEN") up with
        | None => Some (Proceed, s)
        | Some p =>
            let condPart := trgTrim (drop 2 (take p stmt)) in
            let thenPart := trgTrim (drop (p + 4) stmt) in
            if condition (newRow s) condPart && negb (bytes_eqb thenPart []) then
              let inner := if (List.last thenPart 0 =? 59)%Z then thenPart else thenPart ++ [59%Z] in
              run_stmts (exec_stmt f) (split_stmts false [] inner) s
            else Some (Proceed, s)
        end
      else if starts_with (str "SIGNAL") up then Some (Signal (trgParseSignal stmt), s)
      else if starts_with (str "INSERT") up then
        let '(e, m) := executeTriggerInsert (trgSubstituteRefs stmt (newRow s) oldRow cs) (tables_ s) in
        Some (e, mkState (newRow s) m)
      else if starts_with (str "SET NEW.") up then
        Some (Proceed, mkState (set_new (trgTrim (drop 8 stmt)) (newRow s)) (tables_ s))
      else Some (Proceed, s)
  end.

Definition executeTriggerBody (fuel : nat) (body : bytes) (s : State) : option (ending * State) :=
  run_stmts (exec_stmt fuel) (split_stmts false [] body) s.
End body.

Record TriggerDef := mkTrigger {
  trg_timing : bytes; trg_event : bytes; trg_table : bytes; trg_body : bytes; granularity : bytes }.

Definition fires (m : gmap bytes (Table tree)) (timing event tbl : bytes) (d : TriggerDef) : bool :=
  bytes_eqb (upper (trg_timing d)) (upper timing) && bytes_eqb (upper (trg_event d)) (upper event) &&
  bytes_eqb (resolveTableName session m (trg_table d)) tbl && negb (bytes_eqb (upper (granularity d)) (str "STATEMENT")).

(** The triggers in the order of their names; the fuel of a body is its length. *)
Fixpoint fire_all (timing event tbl : bytes) (oldRow : list bytes) (cs : list Column) (ds : list (bytes * TriggerDef))
    (s : State) : ending * State :=
  match ds with
  | [] => (Proceed, s)
  | (_, d) :: ds' =>
      if fires (tables_ s) timing event tbl d then
        match executeTriggerBody oldRow cs (S (length (trg_body d))) (trg_body d) s with
        | Some (Proceed, s') => fire_all timing event tbl oldRow cs ds' s'
        | Some r => r
        | None => (Proceed, s)
        end
      else fire_all timing event tbl oldRow cs ds' s
  end.

Definition fireAllTriggers (triggers_ : gmap bytes TriggerDef) (timing event tableName : bytes) (oldRow : list bytes)
    (s : State) : ending * State :=
  let tbl := resolveTableName session (tables_ s) tableName in
  match tables_ s !! tbl with
  | None => (Proceed, s)
  | Some t => fire_all timing event tbl oldRow (columns_ t) (str_iter triggers_) s
  end.

Definition fires_for_statement (m : gmap bytes (Table tree)) (event tableName : bytes) (d : TriggerDef) : bool :=
  bytes_eqb (upper (trg_timing d)) (str "AFTER") && bytes_eqb (upper (trg_event d)) (upper event) &&
  bytes_eqb (resolveTableName session m (trg_table d)) (resolveTableName session m tableName) &&
  bytes_eqb (upper (granularity d)) (str "STATEMENT").

(** Without rows and columns, and whether or not one before has signalled. *)
Fixpoint fire_for_statement (event tableName : bytes) (ds : list (bytes * TriggerDef)) (m : gmap bytes (Table tree)) :
    ending * gmap bytes (Table tree) :=
  match ds with
  | [] => (Proceed, m)
  | (_, d) :: ds' =>
      if fires_for_statement m event tableName d then
        match executeTriggerBody [] [] (S (length (trg_body d))) (trg_body d) (mkState [] m) with
        | Some (Raise e, s) => (Raise e, tables_ s)
        | Some (_, s) => fire_for_statement event tableName ds' (tables_ s)
        | None => (Proceed, m)
        end
      else fire_for_statement event tableName ds' m
  end.

Definition fireStatementTriggers (triggers_ : gmap bytes TriggerDef) (event tableName : bytes) (m : gmap bytes (Table tree)) :
    ending * gmap bytes (Table tree) := fire_for_statement event tableName (str_iter triggers_) m.
End triggers.

(** ** The interpreter stops *)

Lemma length_drop_while_le {A} (p : A -> bool) l : length (drop_while p l) <= length l.
Proof. induction l as [|x l IH]; simpl; [lia|]. destruct (p x); simpl; lia. Qed.

Lemma length_trgTrim s : length (trgTrim s) <= length s.
Proof.
  unfold trgTrim. rewrite length_rev. etransitivity; [apply length_drop_while_le|].
  rewrite length_rev. apply length_drop_while_le.
Qed.

Lemma length_split_stmts inQ cur s :
  Forall (fun st => length st <= length cur + length s) (split_stmts inQ cur s).
Proof.
  revert inQ cur. induction s as [|c s IH]; intros inQ cur; cbn [split_stmts].
  - pose proof (length_trgTrim cur). destruct (trgTrim cur); [constructor|]. constructor; [simpl in *; lia|constructor].
  - assert (forall inQ', Forall (fun st => length st <= length cur + length (c :: s)) (split_stmts inQ' (cur ++ [c]) s)) as H.
    { intros inQ'. eapply Forall_impl; [apply IH|]. intros st. cbn beta. rewrite length_app. simpl. lia. }
    destruct (c =? QUOTE)%Z; [done|]. destruct inQ; [done|]. destruct (c =? 59)%Z; [|done].
    constructor; [pose proof (length_trgTrim cur); simpl; lia|].
    eapply Forall_impl; [apply IH|]. intros st. simpl. lia.
Qed.

Section stops.
Context {DB : Double} {tree : Type} {RI : RowIndex tree} (session : Session) (clock : Clock).
Context (oldRow : list bytes) (cs : list Column).

Abbreviation exec_stmt := (exec_stmt (tree := tree) session clock oldRow cs).

Lemma run_stmts_ext (f g : bytes -> State (tree := tree) -> option (ending * State)) l s :
  Forall (fun x => forall s, g x s = f x s) l -> run_stmts g l s = run_stmts f l s.
Proof.
  intros H. revert s. induction H as [|x l Hx _ IH]; intros s; [done|]. cbn [run_stmts]. rewrite Hx.
  by destruct (f x s) as [[[]]|].
Qed.

Lemma run_stmts_total (f : bytes -> State (tree := tree) -> option (ending * State)) l s :
  Forall (fun x => forall s, is_Some (f x s)) l -> is_Some (run_stmts f l s).
Proof.
  intros H. revert s. induction H as [|x l Hx _ IH]; intros s; [by eexists|]. cbn [run_stmts].
  destruct (Hx s) as [[[] s'] ->]; [apply IH|by eexists..].
Qed.

(** The statements behind THEN are shorter than the IF. *)
Lemma inner_shorter stmt p :
  let stmt' := trgTrim stmt in
  let t := trgTrim (drop (p + 4) stmt') in
  starts_with (str "IF") (upper stmt') = true -> find_sub (str "THEN") (upper stmt') = Some p ->
  Forall (fun x => length x < length stmt) (split_stmts false [] (if (List.last t 0 =? 59)%Z then t else t ++ [59%Z])).
Proof.
  intros stmt' t Hif Hp. eapply Forall_impl; [apply length_split_stmts|]. intros x. cbn [length plus].
  assert (length (upper stmt') = length stmt') as Hu by (unfold upper; by rewrite length_map).
  apply starts_with_true in Hif as [r Hr]. rewrite Hr in Hp, Hu.
  assert (2 <= p) as H2.
  { change (find_sub (str "THEN") (str "IF" ++ r)) with (S <$> (S <$> find_sub (str "THEN") r)) in Hp.
    destruct (find_sub (str "THEN") r); [|done]. injection Hp as <-. lia. }
  assert (length t <= length stmt' - (p + 4)) as Ht by (unfold t; rewrite <- length_drop; apply length_trgTrim).
  assert (length stmt' <= length stmt) by apply length_trgTrim.
  rewrite length_app in Hu. simpl in Hu.
  destruct (List.last t 0 =? 59)%Z; rewrite ?length_app; simpl; lia.
Qed.

Lemma exec_stmt_unfold f stmt s :
  exec_stmt (S f) stmt s =
  (let st := trgTrim stmt in let up := upper st in
   if bytes_eqb up [] || bytes_eqb up (str "END IF") || bytes_eqb up (str "END") then Some (Proceed, s)
   else if starts_with (str "IF") up then
     match find_sub (str "THEN") up with
     | None => Some (Proceed, s)
     | Some p =>
         let t := trgTrim (drop (p + 4) st) in
         if condition oldRow cs (newRow s) (trgTrim (drop 2 (take p st))) && negb (bytes_eqb t []) then
           run_stmts (exec_stmt f) (split_stmts false [] (if (List.last t 0 =? 59)%Z then t else t ++ [59%Z])) s
         else Some (Proceed, s)
     end
   else exec_stmt 1 stmt s).
Proof.
  cbn [Triggers.exec_stmt]. cbv zeta. destruct (_ || _); [done|]. destruct (starts_with (str "IF") _); [|done].
  destruct (find_sub _ _); [|done]. by destruct (_ && _).
Qed.

(** With more fuel than characters a statement has a result, whatever the fuel. *)
Lemma exec_stmt_enough f stmt s :
  length stmt < f -> is_Some (exec_stmt f stmt s) /\ forall f', length stmt < f' -> exec_stmt f' stmt s = exec_stmt f stmt s.
Proof.
  revert stmt s. induction f as [|f IH]; intros stmt s Hf; [lia|].
  assert (forall f', length stmt < f' -> exec_stmt f' stmt s = exec_stmt (S f) stmt s) as H.
  { intros [|f'] Hf'; [lia|]. rewrite (exec_stmt_unfold f'), (exec_stmt_unfold f). cbv zeta. destruct (_ || _); [done|].
    destruct (starts_with (str "IF") _) eqn:Eif; [|done]. destruct (find_sub _ _) as [p|] eqn:Ep; [|done].
    destruct (_ && _); [|done]. apply run_stmts_ext.
    eapply Forall_impl; [by apply (inner_shorter stmt p)|]. intros x Hx s'. cbn beta in Hx. symmetry.
    destruct (IH x s' ltac:(lia)) as [_ Hall]. symmetry. apply Hall. lia. }
  split; [|done]. rewrite (exec_stmt_unfold f). cbv zeta. destruct (_ || _); [by eexists|].
  destruct (starts_with (str "IF") _) eqn:Eif.
  - destruct (find_sub _ _) as [p|] eqn:Ep; [|by eexists]. destruct (_ && _); [|by eexists]. apply run_stmts_total.
    eapply Forall_impl; [by apply (inner_shorter stmt p)|]. intros x Hx s'. cbn beta in Hx. apply IH. lia.
  - cbn [Triggers.exec_stmt]. cbv zeta. destruct (_ || _); [by eexists|].
    rewrite Eif. destruct (starts_with (str "SIGNAL") _); [by eexists|].
    destruct (starts_with (str "INSERT") _); [by case_match; eexists|].
    destruct (starts_with (str "SET NEW.") _); by eexists.
Qed.

(** The fuel [fire_all] gives is enough: a trigger's body always ends, and more
    fuel makes no difference. *)
Lemma executeTriggerBody_enough body s f :
  length body < f ->
  is_Some (executeTriggerBody (tree := tree) session clock oldRow cs f body s) /\
  forall f', length body < f' ->
    executeTriggerBody session clock oldRow cs f' body s = executeTriggerBody session clock oldRow cs f body s.
Proof.
  intros Hf. unfold executeTriggerBody. pose proof (length_split_stmts false [] body) as Hl. cbn [length plus] in Hl.
  split.
  - apply run_stmts_total. eapply Forall_impl; [apply Hl|]. intros x Hx s'. apply exec_stmt_enough. cbn beta in Hx. lia.
  - intros f' Hf'. apply run_stmts_ext. eapply Forall_impl; [apply Hl|]. intros x Hx s'. cbn beta in Hx.
    apply exec_stmt_enough; lia.
Qed.
End stops.

(** [C38] A trigger's body ends on every text: the recursion of IF gets a shorter
    text each time, and the fuel [fireAllTriggers] gives is as good as any
    larger one. *)
Theorem trigger_terminates `{DB : Double, RI : RowIndex tree} session clock oldRow cs body (s : State (tree := tree)) :
  exists r, forall fuel, length body < fuel -> executeTriggerBody session clock oldRow cs fuel body s = Some r.
Proof.
  destruct (executeTriggerBody_enough session clock oldRow cs body s (S (length body))) as [[r Hr] H]; [lia|].
  exists r. intros fuel Hf. by rewrite H.
Qed.

(** ** Stored rows are safe from triggers *)

Section appends.
Context {DB : Double} {tree : Type} {RI : RowIndex tree} (session : Session) (clock : Clock).

(** The second table is the first with more rows (and other counters, indices). *)
Definition grown (t t' : Table tree) : Prop :=
  columns_ t' = columns_ t /\ foreignKeys_ t' = foreignKeys_ t /\ exists rs, rows_ t' = rows_ t ++ rs.

Definition appended (m m' : gmap bytes (Table tree)) : Prop :=
  forall k, match m !! k, m' !! k with
            | Some t, Some t' => grown t t'
            | None, None => True
            | _, _ => False
            end.

Lemma grown_refl t : grown t t.
Proof. split_and!; [done..|]. exists []. by rewrite app_nil_r. Qed.

Lemma grown_trans t1 t2 t3 : grown t1 t2 -> grown t2 t3 -> grown t1 t3.
Proof.
  intros (A1 & A2 & rs & A3) (B1 & B2 & rs' & B3). split_and!; [congruence..|].
  exists (rs ++ rs'). by rewrite B3, A3, app_assoc.
Qed.

Lemma appended_refl m : appended m m.
Proof. intros k. destruct (m !! k); [apply grown_refl|done]. Qed.

Lemma appended_trans m1 m2 m3 : appended m1 m2 -> appended m2 m3 -> appended m1 m3.
Proof.
  intros H1 H2 k. specialize (H1 k). specialize (H2 k).
  destruct (m1 !! k), (m2 !! k), (m3 !! k); try done. by eapply grown_trans.
Qed.

Lemma appended_insert (m : gmap bytes (Table tree)) k t t' : m !! k = Some t -> grown t t' -> appended m (<[k := t']> m).
Proof.
  intros Hk Hg k'. destruct (decide (k = k')) as [<-|Hne].
  - by rewrite Hk, lookup_insert_eq.
  - rewrite lookup_insert_ne by done. destruct (m !! k'); [apply grown_refl|done].
Qed.

Lemma grown_insert (t t' : Table tree) m row : insert_row (with_autoInc t m) row = Ok t' -> grown t t'.
Proof. intros (_ & _ & ->)%insert_row_ok. split_and!; [done..|]. by eexists. Qed.

Lemma executeTriggerInsert_appends sql m : appended m (executeTriggerInsert session clock sql m).2.
Proof.
  unfold executeTriggerInsert. destruct (insert_tokens _ _ _) as [|t0 [|t1 [|n [|t3 [|t4 ts]]]]]; try apply appended_refl.
  destruct (_ || _); [apply appended_refl|].
  set (vals := map unquote1 _). clearbody vals. cbv zeta. set (key := resolveTableName _ _ _).
  destruct (m !! key) as [t|] eqn:Hk; [|apply appended_refl].
  destruct (applyAutoInc_spec (columns_ t) (applyDefaults clock (columns_ t) vals) t) as (mm & E & _).
  destruct (applyAutoInc _ _ _) as [vals' t1']. simpl in E. subst t1'.
  destruct (insert_row _ _) as [t'|] eqn:Ei; apply (appended_insert m key t); try done.
  - by eapply grown_insert.
  - split_and!; [done..|]. exists []. by rewrite app_nil_r.
Qed.

Definition same_width (s s' : State (tree := tree)) : Prop := length (newRow s') = length (newRow s).

Lemma run_stmts_ind (R : State (tree := tree) -> State -> Prop) f l s r :
  (forall s, R s s) -> (forall a b c, R a b -> R b c -> R a c) ->
  (forall x s e s', x ∈ l -> f x s = Some (e, s') -> R s s') ->
  run_stmts f l s = Some r -> R s r.2.
Proof.
  intros Hr Ht. revert s. induction l as [|x l IH]; intros s Hf; cbn [run_stmts]; [by intros [= <-]|].
  destruct (f x s) as [[e s']|] eqn:E; [|done].
  assert (R s s') as H1 by (apply (Hf x s e s'); [by left|done]).
  destruct e; [|by intros [= <-]..]. intros H. eapply Ht; [done|]. apply IH; [|done]. intros y ? ? ? Hy. apply Hf. by right.
Qed.

(** What a body does to the state: rows are appended, the proposed row keeps its width. *)
Definition harmless (s s' : State (tree := tree)) : Prop :=
  appended (tables_ s) (tables_ s') /\ length (newRow s') = length (newRow s).

Lemma harmless_refl s : harmless s s.
Proof. split; [apply appended_refl|done]. Qed.
Lemma harmless_trans a b c : harmless a b -> harmless b c -> harmless a c.
Proof. intros [A1 A2] [B1 B2]. split; [by eapply appended_trans|congruence]. Qed.

Lemma exec_stmt_harmless oldRow cs f stmt s e s' :
  exec_stmt session clock oldRow cs f stmt s = Some (e, s') -> harmless s s'.
Proof.
  revert stmt s e s'. induction f as [|f IH]; intros stmt s e s'; [done|]. cbn [exec_stmt]. cbv zeta.
  destruct (_ || _); [intros [= _ <-]; apply harmless_refl|]. destruct (starts_with (str "IF") _).
  { destruct (find_sub _ _); [|intros [= _ <-]; apply harmless_refl].
    destruct (_ && _); [|intros [= _ <-]; apply harmless_refl]. intros H.
    apply (run_stmts_ind harmless) in H; [done|apply harmless_refl|apply harmless_trans|]. intros. by eapply IH. }
  destruct (starts_with (str "SIGNAL") _); [intros [= _ <-]; apply harmless_refl|].
  destruct (starts_with (str "INSERT") _).
  { pose proof (executeTriggerInsert_appends (trgSubstituteRefs (trgTrim stmt) (newRow s) oldRow cs) (tables_ s)) as H.
    destruct (executeTriggerInsert _ _ _ _) as [e' m]. by intros [= _ <-]. }
  destruct (starts_with (str "SET NEW.") _); [|intros [= _ <-]; apply harmless_refl].
  intros [= _ <-]. split; [apply appended_refl|]. cbn [newRow]. unfold set_new.
  destruct (find_char _ _); [|done]. destruct (trgFindCol _ _); [|done]. apply length_insert.
Qed.

Lemma fire_all_harmless timing event tbl oldRow cs ds s :
  harmless s (fire_all session clock timing event tbl oldRow cs ds s).2.
Proof.
  revert s. induction ds as [|[n d] ds IH]; intros s; cbn [fire_all]; [apply harmless_refl|].
  destruct (fires _ _ _ _ _ _); [|apply IH].
  destruct (executeTriggerBody _ _ _ _ _ _ _) as [[e s']|] eqn:E; [|apply harmless_refl].
  assert (harmless s s') as H.
  { apply (run_stmts_ind harmless) in E; [done|apply harmless_refl|apply harmless_trans|]. intros. by eapply exec_stmt_harmless. }
  destruct e; [|done..]. eapply harmless_trans; [done|]. apply IH.
Qed.

Lemma fireAllTriggers_harmless triggers timing event tbl oldRow s :
  harmless s (fireAllTriggers session clock triggers timing event tbl oldRow s).2.
Proof. unfold fireAllTriggers. destruct (_ !! _); [apply fire_all_harmless|apply harmless_refl]. Qed.

(** The triggers for a whole statement only append rows, too. *)
Lemma fireStatementTriggers_appends triggers event tbl m :
  appended m (fireStatementTriggers session clock triggers event tbl m).2.
Proof.
  unfold fireStatementTriggers. generalize (str_iter triggers) as ds. intros ds. revert m.
  induction ds as [|[n d] ds IH]; intros m; cbn [fire_for_statement]; [apply appended_refl|].
  destruct (fires_for_statement _ _ _ _ _); [|apply IH].
  destruct (executeTriggerBody _ _ _ _ _ _ _) as [[e s]|] eqn:E; [|apply appended_refl].
  assert (harmless (mkState [] m) s) as [H _].
  { apply (run_stmts_ind harmless) in E; [done|apply harmless_refl|apply harmless_trans|]. intros. by eapply exec_stmt_harmless. }
  destruct e; [|..|done]; (eapply appended_trans; [exact H|apply IH]).
Qed.
End appends.

(** [C37] Whatever the triggers of an event do - and whether they end well, with
    SIGNAL or with an exception - every stored row of every table is still
    there, unchanged and in its place, the schemas and foreign keys are the
    same, and the proposed row has as many values as before. *)
Theorem triggers_keep_rows `{DB : Double, RI : RowIndex tree} session clock triggers timing event tbl oldRow
    (s : State (tree := tree)) k t :
  tables_ s !! k = Some t ->
  let s' := (fireAllTriggers session clock triggers timing event tbl oldRow s).2 in
  length (newRow s') = length (newRow s) /\
  exists t' rs, tables_ s' !! k = Some t' /\ rows_ t' = rows_ t ++ rs /\ columns_ t' = columns_ t /\
                foreignKeys_ t' = foreignKeys_ t.
Proof.
  intros Hk. destruct (fireAllTriggers_harmless session clock triggers timing event tbl oldRow s) as [H1 H2].
  split; [done|]. specialize (H1 k). rewrite Hk in H1.
  destruct (tables_ (fireAllTriggers session clock triggers timing event tbl oldRow s).2 !! k) as [t'|]; [|done].
  destruct H1 as (A & B & rs & C). by exists t', rs.
Qed.

(** ** Examples *)

Definition ex_session : Session := mkSession 0 true (str "public").
Definition ex_clock : Clock := mkClock [] [] [].
Definition ex_trg_cols : list Column :=
  [column (str "a") (str "INT"); column (str "b") (str "INT"); column (str "c") (str "INT")].

Section examples.
#[local] Existing Instance IntDouble.

Definition ex_state (m : gmap bytes (Table BTree)) : State :=
  mkState [str "1"; str "x"; str "y"] m.

Lemma set_new_ex m :
  executeTriggerBody ex_session ex_clock [] ex_trg_cols 60 (str "IF NEW.a < 5 THEN SET NEW.b = 'low'; END IF;") (ex_state m)
  = Some (Proceed, mkState [str "1"; str "low"; str "y"] m).
Proof. vm_compute. reflexivity. Qed.

(** The body is cut at every semicolon, also between THEN and END IF: the
    condition guards the first statement only. *)
Lemma if_guards_first_only m :
  executeTriggerBody ex_session ex_clock [] ex_trg_cols 90
    (str "IF NEW.a > 5 THEN SET NEW.b = 'high'; SET NEW.c = 'high'; END IF;") (ex_state m)
  = Some (Proceed, mkState [str "1"; str "x"; str "high"] m).
Proof. vm_compute. reflexivity. Qed.

(** A trigger that logs the insertions into [t] in [public.log]. *)
Definition ex_log_trigger : TriggerDef :=
  mkTrigger (str "AFTER") (str "insert") (str "t") (str "INSERT INTO log VALUES (NEW.a, 'new')") (str "ROW").
Definition ex_trg_tables : gmap bytes (Table BTree) :=
  {[ str "public.t" := table (str "public.t") ex_trg_cols;
     str "public.log" := with_rows (table (str "public.log") (take 2 ex_trg_cols)) [row_of [str "0"; str "old"]] ]}.

Lemma triggers_keep_rows_witness :
  let s' := (fireAllTriggers ex_session ex_clock {[str "trg" := ex_log_trigger]} (str "AFTER") (str "INSERT")
               (str "t") [] (ex_state ex_trg_tables)).2 in
  exists t' rs, tables_ s' !! str "public.log" = Some t' /\ rows_ t' = row_of [str "0"; str "old"] :: rs /\
    map values rs = [[str "1"; str "new"]].
Proof.
  destruct (triggers_keep_rows ex_session ex_clock {[str "trg" := ex_log_trigger]} (str "AFTER") (str "INSERT")
              (str "t") [] (ex_state ex_trg_tables) (str "public.log")
              (with_rows (table (str "public.log") (take 2 ex_trg_cols)) [row_of [str "0"; str "old"]]))
    as (_ & t' & rs & Ht & Hr & _); [vm_compute; reflexivity|].
  exists t', rs. split; [exact Ht|]. split; [exact Hr|].
  assert (exists u, tables_ (fireAllTriggers ex_session ex_clock {[str "trg" := ex_log_trigger]} (str "AFTER") (str "INSERT")
               (str "t") [] (ex_state ex_trg_tables)).2 !! str "public.log" = Some u /\
            map values (tl (rows_ u)) = [[str "1"; str "new"]]) as (u & Hu & Hv) by (eexists; split; vm_compute; reflexivity).
  rewrite Ht in Hu. injection Hu as <-. by rewrite Hr in Hv.
Defined.
End examples.
