(* ===== verification/Mutation.v ===== *)
(** * Statements that change rows ([src/engine/engine.hpp]: [insertRow],
    [insertOrReplace], [insertOrIgnore], [updateWhere], [updateAll],
    [updateWhereConds], [deleteWhere], [deleteWhereConds], [deleteAll],
    [truncateTable] and their helpers)

    A statement is a computation on the engine's state that returns a value or
    throws; what it has done before an exception stays done.  The file composes
    the tables, the sessions with their buffers, privileges, locks, row-level
    security, triggers, foreign keys and partitions.  Left out are the marks for
    the buffer pool and the statistics, full-text indices and the replication
    and change-data logs, which no statement reads. *)

From S2P Require Import Prelude Index BTree Partition Table Mvcc Locks Wal Transaction Joins Arith Where Select Columns Triggers.

(** [core]: tables, sessions, transaction manager, vacuum counters, locks and
    log files; the rest is what the checks read.  [users_] gives, per user, the
    privileges on each table. *)
Record Engine := mkEngine {
  core : Transaction.Engine BTree;
  session : Session;
  currentUser_ : bytes;
  users_ : gmap bytes (gmap bytes (gset bytes));
  tempTableNames_ : gset bytes;
  views_ : gset bytes;
  rlsEnabled_ : gset bytes;
  rlsPolicies_ : gmap bytes (list RlsPolicy);
  tableChildren_ : gmap bytes (list bytes);
  partitionMeta_ : gmap bytes PartitionInfo;
  triggers_ : gmap bytes TriggerDef }.

Definition tables (e : Engine) : gmap bytes (Table BTree) := Transaction.tables_ (core e).

Definition with_core (c : Transaction.Engine BTree) (e : Engine) : Engine :=
  mkEngine c (session e) (currentUser_ e) (users_ e) (tempTableNames_ e) (views_ e) (rlsEnabled_ e) (rlsPolicies_ e)
    (tableChildren_ e) (partitionMeta_ e) (triggers_ e).
Definition with_tables (m : gmap bytes (Table BTree)) (e : Engine) : Engine := with_core (set_tables m (core e)) e.

(** What row-level security reads. *)
Definition view (e : Engine) : Select.Engine :=
  Select.mkEngine (tables e) (tableChildren_ e) (partitionMeta_ e) (rlsEnabled_ e) (rlsPolicies_ e) (currentUser_ e) 1 0.

(** ** Computations *)

Definition M (A : Type) : Type := Engine -> result A * Engine.

#[export] Instance M_ret : MRet M := fun A x e => (Ok x, e).
#[export] Instance M_bind : MBind M := fun A B f m e =>
  match m e with (Ok x, e') => f x e' | (Throw s, e') => (Throw s, e') end.

Definition throw {A} (s : string) : M A := fun e => (Throw s, e).
Definition gets {A} (f : Engine -> A) : M A := fun e => (Ok (f e), e).
Definition modify (f : Engine -> Engine) : M () := fun e => (Ok (), f e).
Definition lift {A} (r : result A) : M A := fun e => (r, e).
Definition ensure (b : bool) (s : string) : M () := if b then mret () else throw s.

Definition for_each {A} (f : A -> M ()) : list A -> M () :=
  fix go l := match l with [] => mret () | x :: l' => _ ← f x; go l' end.

Definition get_table (n : bytes) : M (Table BTree) := fun e =>
  (match tables e !! n with Some t => Ok t | None => Throw "Tabelle nicht gefunden" end, e).
Definition put_table (n : bytes) (t : Table BTree) : M () := modify (fun e => with_tables (<[n := t]> (tables e)) e).

Definition resolved (raw : bytes) : M bytes := gets (fun e => resolveTableName (session e) (tables e) raw).

Definition INSERT : bytes := str "INSERT".
Definition UPDATE : bytes := str "UPDATE".
Definition DELETE : bytes := str "DELETE".
Definition BEFORE : bytes := str "BEFORE".
Definition AFTER : bytes := str "AFTER".
Definition RESTRICT : bytes := str "RESTRICT".
Definition CASCADE : bytes := str "CASCADE".
Definition SET_NULL : bytes := str "SET NULL".

(** ** Checks before a statement *)

Definition checkPrivilege (operation tableName : bytes) : M () :=
  ok ← gets (fun e =>
    bytes_eqb (currentUser_ e) ROOT || bool_decide (tableName ∈ tempTableNames_ e) || bool_decide (tableName ∈ views_ e) ||
    match users_ e !! currentUser_ e with
    | None => true
    | Some grants =>
        match grants !! tableName with
        | Some privs => bool_decide (ALL ∈ privs) || bool_decide (operation ∈ privs)
        | None => false
        end
    end);
  ensure ok "Keine Berechtigung".

Definition checkWriteAllowed (thread : Z) (tbl : bytes) : M () :=
  ok ← gets (fun e => Locks.checkWriteAllowed thread tbl (locks_ (core e)));
  ensure ok "LOCK TABLE READ".

Definition in_tx : M bool := gets (fun e => active (tx (core e))).
Definition buffer (op : BufferedOp) : M () := modify (fun e => with_core (bufferOp op (core e)) e).

Section mutation.
Context {DB : Double}.
Context (regex_search : bytes -> bytes -> option bool).
Context (evalExprStr : bytes -> list Column -> list bytes -> bytes).
Context (match_against : list bytes -> bytes -> bytes -> list Column -> list bytes -> bool).
Context (formatNum : dbl -> bytes) (dcount : nat -> dbl).
Context (evaluateRlsExpr_ : bytes -> Row -> list bytes -> bool).
Context (evaluateGenExpr : bytes -> list Column -> list bytes -> bytes).
Context (isValidJson : bytes -> bool).
(** The text of a computed number: [to_string] of the integer, or of the double. *)
Context (number_text : dbl -> bytes).
Context (clock : Clock) (thread : Z).

Abbreviation generated t := (applyGeneratedCols evaluateGenExpr 0 (columns_ t) (columns_ t)).

(** ** Row-level security *)

(** Every row that [p] selects may be seen by the command. *)
Definition rls_permits (e : Engine) (tbl cmd : bytes) (p : Row -> bool) (t : Table BTree) : bool :=
  rls_exempt (view e) tbl ||
  forallb (fun r => negb (p r) || negb (length (applyRls_ evaluateRlsExpr_ (view e) tbl [r] cmd) =? 0)) (rows_ t).

Definition check_rls (tbl cmd : bytes) (p : Row -> bool) (t : Table BTree) : M () :=
  ok ← gets (fun e => rls_permits e tbl cmd p t); ensure ok "RLS policy violation".

(** [checkRlsWithCheck_] *)
Definition checkRlsWithCheck_ (e : Engine) (tbl : bytes) (row : Row) (cmd : bytes) : bool :=
  rls_exempt (view e) tbl ||
  match rlsPolicies_ e !! tbl, tables e !! tbl with
  | Some ((_ :: _) as ps), Some t =>
      existsb (fun p => policy_applies (view e) cmd p &&
        evaluateRlsExpr_ (if bytes_eqb (withCheckExpr p) [] then usingExpr p else withCheckExpr p) row
          (names (columns_ t))) ps
  | _, _ => false
  end.

(** ** Triggers *)

Definition fire (timing event tbl : bytes) (newRow oldRow : list bytes) : M (bool * list bytes) := fun e =>
  let '(r, s) := fireAllTriggers (session e) clock (triggers_ e) timing event tbl oldRow (mkState newRow (tables e)) in
  let e := with_tables (Triggers.tables_ s) e in
  match r with
  | Proceed => (Ok (true, Triggers.newRow s), e)
  | Signal _ => (Ok (false, Triggers.newRow s), e)
  | Raise x => (Throw x, e)
  end.

Definition before (event tbl : bytes) (newRow oldRow : list bytes) : M (list bytes) :=
  '(go, row) ← fire BEFORE event tbl newRow oldRow;
  _ ← ensure go "SIGNAL"; mret row.
Definition after (event tbl : bytes) (newRow oldRow : list bytes) : M () :=
  _ ← fire AFTER event tbl newRow oldRow; mret ().

Definition fireStatementTriggers (event tbl : bytes) : M () := fun e =>
  let '(r, m) := Triggers.fireStatementTriggers (session e) clock (triggers_ e) event tbl (tables e) in
  (match r with Raise x => Throw x | _ => Ok () end, with_tables m e).

(** ** Foreign keys *)

(** The parent of a foreign key has a row with the value. *)
Definition has_parent (e : Engine) (fk : ForeignKeyDef) (v : bytes) : result bool :=
  match tables e !! resolveTableName (session e) (tables e) (refTable fk) with
  | None => Throw "FOREIGN KEY: Elterntabelle nicht gefunden"
  | Some parent =>
      match colOf parent (refCol fk) with
      | None => Throw "FOREIGN KEY: Spalte nicht gefunden"
      | Some j => Ok (existsb (fun r => bool_decide (values r !! j = Some v)) (rows_ parent))
      end
  end.

Fixpoint check_fks (e : Engine) (cs : list Column) (fks : list ForeignKeyDef) (vals : list bytes) : result () :=
  match fks with
  | [] => Ok ()
  | fk :: fks' =>
      match colOf_cols cs (fromCol fk) ≫= (vals !!.) with
      | None => check_fks e cs fks' vals
      | Some v =>
          if bytes_eqb v NULL then check_fks e cs fks' vals
          else
            found ← has_parent e fk v;
            if (found : bool) then check_fks e cs fks' vals else Throw "FOREIGN KEY verletzt"
      end
  end.

Definition checkInsertFK (tbl : bytes) (vals : list bytes) : M () :=
  t ← get_table tbl;
  e ← gets id;
  lift (check_fks e (columns_ t) (foreignKeys_ t) vals).

(** The action of one foreign key of [childName] for a row of its parent. *)
Definition cascade_fk (parentName : bytes) (parentCols : list Column) (prow : Row) (childName : bytes)
    (fk : ForeignKeyDef) : M () :=
  child ← get_table childName;
  if negb (tblNamesMatch (refTable fk) parentName) then mret ()
  else
    match colOf_cols parentCols (refCol fk) ≫= (values prow !!.), colOf child (fromCol fk) with
    | Some refVal, Some fromCI =>
        if bytes_eqb refVal NULL then mret ()
        else if bytes_eqb (onDelete fk) RESTRICT then
          ensure (negb (existsb (fun r => bool_decide (values r !! fromCI = Some refVal)) (rows_ child)))
            "FOREIGN KEY verletzt (RESTRICT)"
        else if bytes_eqb (onDelete fk) CASCADE then put_table childName (Table.deleteWhere fromCI refVal child).2
        else if bytes_eqb (onDelete fk) SET_NULL then
          put_table childName (Table.updateWhere fromCI NULL fromCI refVal child).2
        else mret ()
    | _, _ => mret ()
    end.

(** [for (auto& [childName, childTbl] : tables_)]; the parent itself is skipped. *)
Definition cascade_child (parentName : bytes) (parentCols : list Column) (prow : Row) (childName : bytes) : M () :=
  if bytes_eqb childName parentName then mret ()
  else
    child ← get_table childName;
    for_each (cascade_fk parentName parentCols prow childName) (foreignKeys_ child).

Definition cascadeDelete (parentName : bytes) (prow : Row) : M () :=
  parent ← get_table parentName;
  children ← gets (fun e => map fst (str_iter (tables e)));
  for_each (cascade_child parentName (columns_ parent) prow) children.

(** ** INSERT *)

(** [applyAutoInc] on the table in the engine. *)
Definition auto_increment (tbl : bytes) (vals : list bytes) : M (list bytes) :=
  t ← get_table tbl;
  let '(vals, t) := applyAutoInc (columns_ t) vals t in
  _ ← put_table tbl t; mret vals.

Definition insert_into (tbl : bytes) (vals : list bytes) : M () :=
  t ← get_table tbl; t ← lift (insert_row t (row_of vals)); put_table tbl t.

(** The child table a row of a partitioned table goes to, if there is one. *)
Definition route (e : Engine) (tbl : bytes) (t : Table BTree) (vals : list bytes) : option bytes :=
  pi ← partitionMeta_ e !! tbl;
  if negb (p_physical pi) then None
  else
    '(i, _) ← list_find (fun c => c_name c = p_column pi) (columns_ t);
    v ← vals !! i;
    let child := routeInsert pi v in
    if bytes_eqb child [] then None
    else
      let key := resolveTableName (session e) (tables e) child in
      _ ← tables e !! key; Some key.

Definition insert_op (tbl : bytes) (vals : list bytes) : BufferedOp :=
  mkOp (Some Wal.INSERT) tbl vals [] [] [] [] [] [] [] [].

Definition insertRow (tblRaw : bytes) (vals : list bytes) : M () :=
  tbl ← resolved tblRaw;
  _ ← checkPrivilege INSERT tbl;
  _ ← checkWriteAllowed thread tbl;
  t ← get_table tbl;
  let vals := map unquote (applyDefaults clock (columns_ t) vals) in
  vals ← auto_increment tbl vals;
  let vals := generated t vals in
  _ ← checkInsertFK tbl vals;
  _ ← lift (checkAllConstraints regex_search (columns_ t) vals);
  _ ← lift (checkJsonColumns isValidJson (columns_ t) vals);
  ok ← gets (fun e => checkRlsWithCheck_ e tbl (row_of vals) INSERT);
  _ ← ensure ok "RLS WITH CHECK violation";
  vals ← before INSERT tbl vals [];
  tx ← in_tx;
  if (tx : bool) then
    _ ← ensure (length vals =? length (columns_ t)) "Zeilenbreite";
    buffer (insert_op tbl vals)
  else
    child ← gets (fun e => route e tbl t vals);
    match child with
    | Some key => insert_into key vals
    | None => _ ← insert_into tbl vals; after INSERT tbl vals []
    end.

Definition insertOrReplace (tblRaw : bytes) (vals : list bytes) : M bool :=
  tbl ← resolved tblRaw;
  _ ← checkPrivilege INSERT tbl;
  tx ← in_tx;
  _ ← ensure (negb tx) "INSERT OR REPLACE nicht innerhalb einer Transaktion.";
  t ← get_table tbl;
  vals ← auto_increment tbl (applyDefaults clock (columns_ t) vals);
  let vals := generated t vals in
  _ ← checkInsertFK tbl vals;
  _ ← lift (checkAllConstraints regex_search (columns_ t) vals);
  t ← get_table tbl;
  let conflicts := conflictRows t vals in
  _ ← put_table tbl (eraseByIndices conflicts t);
  _ ← insert_into tbl vals;
  mret (negb (bool_decide (conflicts = []))).

Definition insertOrIgnore (tblRaw : bytes) (vals : list bytes) : M bool :=
  tbl ← resolved tblRaw;
  _ ← checkPrivilege INSERT tbl;
  tx ← in_tx;
  _ ← ensure (negb tx) "INSERT OR IGNORE nicht innerhalb einer Transaktion.";
  t ← get_table tbl;
  vals ← auto_increment tbl (applyDefaults clock (columns_ t) vals);
  let vals := generated t vals in
  _ ← checkInsertFK tbl vals;
  t ← get_table tbl;
  if bool_decide (conflictRows t vals = []) then _ ← insert_into tbl vals; mret true else mret false.

(** ** UPDATE *)

(** The value a row has in the column with exactly this name. *)
Definition named_value (cs : list Column) (vs : list bytes) (n : bytes) : option bytes :=
  first_match (fun c => bytes_eqb (c_name c) n) cs vs.

Definition evalSetExpr (expr : bytes) (cs : list Column) (vs : list bytes) : bytes :=
  match words expr with
  | [l; o; r] =>
      let operand s := stod (stripQuotes (default s (named_value cs vs s))) in
      match operand l, operand r with
      | Some a, Some b =>
          if bytes_eqb o (str "+") then number_text (dadd a b)
          else if bytes_eqb o (str "-") then number_text (dsub a b)
          else if bytes_eqb o (str "*") then number_text (dmul a b)
          else if bytes_eqb o (str "/") && negb (diszero b) then number_text (ddiv a b)
          else expr
      | _, _ => expr
      end
  | [t] => default expr (named_value cs vs t)
  | _ => expr
  end.

(** Some value consists of several words and is taken for an expression. *)
Definition has_expr (setVals : list bytes) : bool := existsb (fun v => 2 <=? length (words v)) setVals.

Definition colIdxs (t : Table BTree) (cols : list bytes) : result (list nat) := mapM (Where.colIdx (columns_ t)) cols.

(** The assignments one after the other; an expression reads the row as it is by then. *)
Definition set_exprs (cs : list Column) (sets : list (nat * bytes)) (row : Row) : Row :=
  set_values row
    (fold_left (fun vs kv => if kv.1 <? length vs then <[kv.1 := evalSetExpr kv.2 cs vs]> vs else vs) sets (values row)).

Definition set_literals (sets : list (nat * bytes)) (vs : list bytes) : list bytes :=
  fold_left (fun vs kv => <[kv.1 := kv.2]> vs) sets vs.

Definition update_op (tbl setC setV wCol wVal : bytes) : BufferedOp :=
  mkOp (Some Wal.UPDATE_WHERE) tbl [] setC setV wCol wVal [] [] [] [].
Definition update_all_op (tbl setC setV : bytes) : BufferedOp :=
  mkOp (Some Wal.UPDATE_ALL) tbl [] setC setV [] [] [] [] [] [].

(** The loop over the rows, which are changed in place: an exception leaves the
    rows before it changed.  The number of changed rows is returned. *)
Fixpoint update_loop (tbl : bytes) (matches : Engine -> Table BTree -> Row -> result bool) (sets : list (nat * bytes))
    (rest : list nat) (n : nat) : M nat :=
  match rest with
  | [] => mret n
  | i :: rest' =>
      t ← get_table tbl;
      match rows_ t !! i with
      | None => update_loop tbl matches sets rest' n
      | Some row =>
          e ← gets id;
          b ← lift (matches e t row);
          if (b : bool) then
            let row := regenerate evaluateGenExpr t (set_exprs (columns_ t) sets row) in
            _ ← put_table tbl (with_rows t (<[i := row]> (rows_ t)));
            ok ← gets (fun e => checkRlsWithCheck_ e tbl row UPDATE);
            _ ← ensure ok "RLS WITH CHECK violation";
            update_loop tbl matches sets rest' (S n)
          else update_loop tbl matches sets rest' n
      end
  end.

Definition update_in_place (tbl : bytes) (matches : Engine -> Table BTree -> Row -> result bool)
    (sets : list (nat * bytes)) : M nat :=
  t ← get_table tbl;
  n ← update_loop tbl matches sets (seq 0 (length (rows_ t))) 0;
  t ← get_table tbl;
  _ ← (if n =? 0 then mret () else put_table tbl (rebuildAll t));
  mret n.

(** One assignment; called for each of them inside a transaction. *)
Definition updateWhere1 (tblRaw setC setV wCol wVal : bytes) : M nat :=
  tbl ← resolved tblRaw;
  _ ← checkPrivilege UPDATE tbl;
  _ ← checkWriteAllowed thread tbl;
  e ← gets id;
  _ ← (if rls_exempt (view e) tbl then mret ()
       else t ← get_table tbl; wCI ← lift (colIdx (columns_ t) wCol); check_rls tbl UPDATE (where_matches wCI wVal) t);
  t ← get_table tbl;
  _ ← lift (checkSetConstraints regex_search (columns_ t) [setC] [setV]);
  tx ← in_tx;
  if (tx : bool) then _ ← buffer (update_op tbl setC setV wCol wVal); mret 0
  else
    sCI ← lift (colIdx (columns_ t) setC); wCI ← lift (colIdx (columns_ t) wCol);
    let '(n, t) := Table.updateWhere sCI setV wCI wVal t in
    _ ← put_table tbl t; mret n.

Definition updateAll1 (tblRaw setC setV : bytes) : M nat :=
  tbl ← resolved tblRaw;
  _ ← checkPrivilege UPDATE tbl;
  _ ← checkWriteAllowed thread tbl;
  t ← get_table tbl;
  _ ← lift (checkSetConstraints regex_search (columns_ t) [setC] [setV]);
  tx ← in_tx;
  if (tx : bool) then _ ← buffer (update_all_op tbl setC setV); mret 0
  else
    sCI ← lift (colIdx (columns_ t) setC);
    let '(n, t) := Table.updateAll sCI setV t in
    _ ← put_table tbl t; mret n.

(** The proposed rows go to the triggers; what a trigger sets in them is dropped. *)
Definition fire_updates (f : list bytes -> list bytes -> M ()) (sets : list (nat * bytes)) (oldRows : list (list bytes)) : M () :=
  for_each (fun old => f (set_literals sets old) old) oldRows.

Definition before_update (tbl : bytes) (newVals old : list bytes) : M () := _ ← before UPDATE tbl newVals old; mret ().

Definition updateWhere (tblRaw : bytes) (setCols setVals : list bytes) (wCol wVal : bytes) : M nat :=
  tbl ← resolved tblRaw;
  _ ← checkPrivilege UPDATE tbl;
  e ← gets id;
  _ ← (if rls_exempt (view e) tbl then mret ()
       else t ← get_table tbl; wCI ← lift (colIdx (columns_ t) wCol); check_rls tbl UPDATE (where_matches wCI wVal) t);
  t ← get_table tbl;
  if has_expr setVals then
    wCI ← lift (colIdx (columns_ t) wCol); setCIs ← lift (colIdxs t setCols);
    update_in_place tbl (fun _ _ r => Ok (where_matches wCI wVal r)) (zip setCIs setVals)
  else
    _ ← lift (checkSetConstraints regex_search (columns_ t) setCols setVals);
    tx ← in_tx;
    if (tx : bool) then
      _ ← for_each (fun kv => _ ← updateWhere1 tbl kv.1 kv.2 wCol wVal; mret ()) (zip setCols setVals); mret 0
    else
      wCI ← lift (colIdx (columns_ t) wCol); setCIs ← lift (colIdxs t setCols);
      let sets := zip setCIs setVals in
      let oldRows := map values (List.filter (where_matches wCI wVal) (rows_ t)) in
      _ ← fire_updates (before_update tbl) sets oldRows;
      t ← get_table tbl;
      let '(n, t) := Table.updateWhereMulti setCIs setVals wCI wVal t in
      let t := with_rows t (map (fun r => if where_matches wCI wVal r then regenerate evaluateGenExpr t r else r) (rows_ t)) in
      _ ← put_table tbl (if n =? 0 then t else rebuildAll t);
      _ ← fire_updates (after UPDATE tbl) sets oldRows;
      mret n.

Definition updateAll (tblRaw : bytes) (setCols setVals : list bytes) : M nat :=
  tbl ← resolved tblRaw;
  _ ← checkPrivilege UPDATE tbl;
  t ← get_table tbl;
  _ ← lift (checkSetConstraints regex_search (columns_ t) setCols setVals);
  tx ← in_tx;
  if (tx : bool) then
    _ ← for_each (fun kv => _ ← updateAll1 tbl kv.1 kv.2; mret ()) (zip setCols setVals); mret 0
  else
    setCIs ← lift (colIdxs t setCols);
    let '(n, t) := Table.updateAllMulti setCIs setVals t in
    let t := with_rows t (map (regenerate evaluateGenExpr t) (rows_ t)) in
    _ ← put_table tbl (if n =? 0 then t else rebuildAll t);
    mret n.

(** The rows that satisfy the conditions. *)
Abbreviation row_matches conds logic :=
  (fun e t r => rowMatches regex_search evalExprStr match_against formatNum dcount (tables e) t r conds logic).

Fixpoint matching (e : Engine) (t : Table BTree) (conds : list Where.WhereCondition) (logic : bytes) (rs : list Row)
  : result (list Row) :=
  match rs with
  | [] => Ok []
  | r :: rs' =>
      b ← rowMatches regex_search evalExprStr match_against formatNum dcount (tables e) t r conds logic;
      l ← matching e t conds logic rs';
      Ok (if (b : bool) then r :: l else l)
  end.

Definition matching_rows (tbl : bytes) (conds : list Where.WhereCondition) (logic : bytes) : M (list Row) :=
  t ← get_table tbl; e ← gets id; lift (matching e t conds logic (rows_ t)).

(** Row-level security for the rows that satisfy the conditions. *)
Definition check_rls_conds (tbl cmd : bytes) (conds : list Where.WhereCondition) (logic : bytes) : M () :=
  e ← gets id;
  if rls_exempt (view e) tbl then mret ()
  else
    rs ← matching_rows tbl conds logic;
    ensure (forallb (fun r => negb (length (applyRls_ evaluateRlsExpr_ (view e) tbl [r] cmd) =? 0)) rs)
      "RLS policy violation".

(** The fields [col] and [val] of the only condition; its operator is not looked at. *)
Definition first_condition (conds : list Where.WhereCondition) : bytes * bytes :=
  match conds with
  | c :: _ => match fields c with Some cmp => (col cmp, val cmp) | None => ([], []) end
  | [] => ([], [])
  end.

Definition updateWhereConds (tblRaw : bytes) (setCols setVals : list bytes) (conds : list Where.WhereCondition)
    (logic : bytes) : M nat :=
  if length conds <=? 1 then
    let '(c, v) := first_condition conds in updateWhere tblRaw setCols setVals c v
  else
    tx ← in_tx;
    _ ← ensure (negb tx) "UPDATE mit mehreren WHERE-Bedingungen in Transaktion";
    tbl ← resolved tblRaw;
    _ ← checkPrivilege UPDATE tbl;
    _ ← checkWriteAllowed thread tbl;
    t ← get_table tbl;
    _ ← check_rls_conds tbl UPDATE conds logic;
    _ ← lift (checkSetConstraints regex_search (columns_ t) setCols setVals);
    setCIs ← lift (colIdxs t setCols);
    let sets := zip setCIs setVals in
    old ← matching_rows tbl conds logic;
    let oldRows := map values old in
    _ ← fire_updates (before_update tbl) sets oldRows;
    n ← update_in_place tbl (row_matches conds logic) sets;
    _ ← fire_updates (after UPDATE tbl) sets oldRows;
    mret n.

(** ** DELETE *)

Definition delete_op (tbl wCol wVal : bytes) : BufferedOp :=
  mkOp (Some Wal.DELETE_WHERE) tbl [] [] [] wCol wVal [] [] [] [].
Definition delete_all_op (tbl : bytes) : BufferedOp := mkOp (Some Wal.DELETE_ALL) tbl [] [] [] [] [] [] [] [] [].

Definition add_dead (tbl : bytes) (n : nat) : M () :=
  if n =? 0 then mret ()
  else modify (fun e => with_core (set_vacuum (VacuumManager.addDeadTuples tbl (Z.of_nat n) (vacuumMgr_ (core e))) (core e)) e).

Definition fire_deletes (f : list bytes -> M ()) (rowVals : list (list bytes)) : M () := for_each f rowVals.

Definition before_delete (tbl : bytes) (old : list bytes) : M () := _ ← before DELETE tbl [] old; mret ().

(** The rows whose value is the text of the condition, quotes included. *)
Definition literal_matches (wCI : nat) (wVal : bytes) (r : Row) : bool := bool_decide (values r !! wCI = Some wVal).

(** The children that may hold rows with the value. *)
Definition delete_targets (pi : PartitionInfo) (wCol wVal : bytes) : list bytes :=
  pruneChildren pi [mkCond wCol (str "=") wVal] AND.

(** [deleteWhere] on a table without partitions. *)
Definition delete_rows (tbl wCol wVal : bytes) : M nat :=
  _ ← checkPrivilege DELETE tbl;
  _ ← checkWriteAllowed thread tbl;
  e ← gets id;
  _ ← (if rls_exempt (view e) tbl then mret ()
       else t ← get_table tbl; wCI ← lift (colIdx (columns_ t) wCol); check_rls tbl DELETE (where_matches wCI wVal) t);
  t ← get_table tbl;
  wCI ← lift (colIdx (columns_ t) wCol);
  _ ← for_each (cascadeDelete tbl) (List.filter (where_matches wCI wVal) (rows_ t));
  t ← get_table tbl;
  let matched := map values (List.filter (literal_matches wCI wVal) (rows_ t)) in
  _ ← fire_deletes (before_delete tbl) matched;
  tx ← in_tx;
  if (tx : bool) then _ ← buffer (delete_op tbl wCol wVal); mret 0
  else
    t ← get_table tbl;
    let '(deleted, t) := Table.deleteWhere wCI wVal t in
    _ ← put_table tbl t;
    _ ← add_dead tbl deleted;
    _ ← fire_deletes (after DELETE tbl []) matched;
    mret deleted.

(** [deleteWhere] and [deletePartitioned]; the fuel bounds the depth of nested
    partitioning. *)
Fixpoint deleteWhere (fuel : nat) (tblRaw wCol wVal : bytes) : M nat :=
  tbl ← resolved tblRaw;
  meta ← gets (fun e => partitionMeta_ e !! tbl);
  match meta with
  | Some (mkPartitionInfo _ _ _ _ _ true _ as pi) =>
      match fuel with
      | O => throw "Partitionierung zu tief"
      | S f =>
          (fix go cs total := match cs with
             | [] => mret total
             | c :: cs' => n ← deleteWhere f c wCol wVal; go cs' (total + n)
             end) (delete_targets pi wCol wVal) 0
      end
  | _ => delete_rows tbl wCol wVal
  end.

(** Cascades for the rows that satisfy the conditions, which are evaluated row by row. *)
Fixpoint cascade_matching (tbl : bytes) (conds : list Where.WhereCondition) (logic : bytes) (rs : list Row) : M () :=
  match rs with
  | [] => mret ()
  | r :: rs' =>
      t ← get_table tbl; e ← gets id;
      b ← lift (rowMatches regex_search evalExprStr match_against formatNum dcount (tables e) t r conds logic);
      _ ← (if (b : bool) then cascadeDelete tbl r else mret ());
      cascade_matching tbl conds logic rs'
  end.

(** The rows that do not satisfy the conditions. *)
Fixpoint survivors (e : Engine) (t : Table BTree) (conds : list Where.WhereCondition) (logic : bytes) (rs : list Row)
  : result (list Row) :=
  match rs with
  | [] => Ok []
  | r :: rs' =>
      b ← rowMatches regex_search evalExprStr match_against formatNum dcount (tables e) t r conds logic;
      l ← survivors e t conds logic rs';
      Ok (if (b : bool) then l else r :: l)
  end.

Definition is_physical (e : Engine) (tbl : bytes) : bool :=
  match partitionMeta_ e !! tbl with Some pi => p_physical pi | None => false end.

Definition deleteWhereConds (fuel : nat) (tblRaw : bytes) (conds : list Where.WhereCondition) (logic : bytes) : M nat :=
  if length conds <=? 1 then
    let '(c, v) := first_condition conds in deleteWhere fuel tblRaw c v
  else
    tx ← in_tx;
    _ ← ensure (negb tx) "DELETE mit mehreren WHERE-Bedingungen in Transaktion";
    tbl ← resolved tblRaw;
    part ← gets (fun e => is_physical e tbl);
    _ ← ensure (negb part) "DELETE mit mehreren WHERE-Bedingungen auf partitionierter Tabelle";
    _ ← checkPrivilege DELETE tbl;
    _ ← checkWriteAllowed thread tbl;
    t ← get_table tbl;
    _ ← check_rls_conds tbl DELETE conds logic;
    old ← matching_rows tbl conds logic;
    let matched := map values old in
    _ ← cascade_matching tbl conds logic (rows_ t);
    _ ← fire_deletes (before_delete tbl) matched;
    t ← get_table tbl;
    e ← gets id;
    rest ← lift (survivors e t conds logic (rows_ t));
    let deleted := length (rows_ t) - length rest in
    let t := with_rows t rest in
    _ ← put_table tbl (if deleted =? 0 then t else rebuildAll t);
    _ ← add_dead tbl deleted;
    _ ← fire_deletes (after DELETE tbl []) matched;
    mret deleted.

Definition deleteAll (tblRaw : bytes) : M nat :=
  tbl ← resolved tblRaw;
  _ ← checkPrivilege DELETE tbl;
  t ← get_table tbl;
  _ ← for_each (cascadeDelete tbl) (rows_ t);
  tx ← in_tx;
  if (tx : bool) then _ ← buffer (delete_all_op tbl); mret 0
  else
    t ← get_table tbl;
    let '(n, t) := Table.deleteAll t in
    _ ← put_table tbl t; mret n.

Definition setAutoInc (colName : bytes) (v : Z) (t : Table BTree) : Table BTree :=
  with_autoInc t (<[colName := v]> (autoIncMap_ t)).

Definition truncateTable (tblRaw : bytes) : M () :=
  tbl ← resolved tblRaw;
  t ← get_table tbl;
  put_table tbl (fold_left (fun t c => if autoIncrement c then setAutoInc (c_name c) 1 t else t) (columns_ t)
                   (Table.deleteAll t).2).
End mutation.

(** ** Reasoning about statements *)

(** From [e], [m] returns a value and a state with [Q], or throws in a state with [X]. *)
Definition wp {A} (m : M A) (Q : A -> Engine -> Prop) (X : Engine -> Prop) (e : Engine) : Prop :=
  match m e with (Ok x, e') => Q x e' | (Throw _, e') => X e' end.

Lemma wp_ret {A} (x : A) Q X e : Q x e -> wp (mret x) Q X e.
Proof. done. Qed.

Lemma wp_bind {A B} (m : M A) (k : A -> M B) Q X e :
  wp m (fun x => wp (k x) Q X) X e -> wp (m ≫= k) Q X e.
Proof. unfold wp, mbind, M_bind. by destruct (m e) as [[]]. Qed.

Lemma wp_mono {A} (m : M A) (Q Q' : A -> Engine -> Prop) (X X' : Engine -> Prop) e :
  wp m Q X e -> (forall x e', Q x e' -> Q' x e') -> (forall e', X e' -> X' e') -> wp m Q' X' e.
Proof. unfold wp. destruct (m e) as [[]]; auto. Qed.

Lemma wp_gets {A} (f : Engine -> A) Q X e : Q (f e) e -> wp (gets f) Q X e.
Proof. done. Qed.
Lemma wp_modify f (Q : () -> Engine -> Prop) X e : Q () (f e) -> wp (modify f) Q X e.
Proof. done. Qed.
Lemma wp_lift {A} (r : result A) (Q : A -> Engine -> Prop) (X : Engine -> Prop) e :
  match r with Ok x => Q x e | Throw _ => X e end -> wp (lift r) Q X e.
Proof. unfold wp, lift. by destruct r. Qed.
Lemma wp_ensure b s (Q : () -> Engine -> Prop) (X : Engine -> Prop) e :
  (b = true -> Q () e) -> (b = false -> X e) -> wp (ensure b s) Q X e.
Proof. unfold wp, ensure, mret, M_ret, throw. destruct b; auto. Qed.
Lemma wp_get_table n (Q : Table BTree -> Engine -> Prop) (X : Engine -> Prop) e :
  match tables e !! n with Some t => Q t e | None => X e end -> wp (get_table n) Q X e.
Proof. unfold wp, get_table. by destruct (tables e !! n). Qed.
Lemma wp_put_table n t (Q : () -> Engine -> Prop) X e :
  Q () (with_tables (<[n := t]> (tables e)) e) -> wp (put_table n t) Q X e.
Proof. done. Qed.
Lemma wp_throw {A} s (Q : A -> Engine -> Prop) (X : Engine -> Prop) e : X e -> wp (throw s) Q X e.
Proof. done. Qed.

(** One step of a proof about a statement. *)
Ltac wp_step :=
  cbv beta;
  lazymatch goal with
  | |- wp (mbind _ _) _ _ _ => apply wp_bind
  | |- wp (mret _) _ _ _ => apply wp_ret
  | |- wp (gets _) _ _ _ => apply wp_gets
  | |- wp (modify _) _ _ _ => apply wp_modify
  | |- wp (throw _) _ _ _ => apply wp_throw
  | |- wp (put_table _ _) _ _ _ => apply wp_put_table
  | |- wp (get_table ?n) _ _ ?e => apply wp_get_table; destruct (tables e !! n) eqn:?
  | |- wp (lift ?r) _ _ _ => apply wp_lift; destruct r eqn:?
  | |- wp (ensure _ _) _ _ _ => apply wp_ensure; [intros ?|intros ?]
  end;
  cbv beta.

(** A loop keeps an invariant, and what each round establishes is kept by the others. *)
Lemma wp_for_each {A} (f : A -> M ()) (R : Engine -> Engine -> Prop) (H : A -> Engine -> Prop) (X : Engine -> Prop) l e :
  (forall e, R e e) -> (forall a b c, R a b -> R b c -> R a c) ->
  (forall x a b, R a b -> H x a -> H x b) ->
  (forall x e1, x ∈ l -> R e e1 -> wp (f x) (fun _ e2 => R e1 e2 /\ H x e2) X e1) ->
  wp (for_each f l) (fun _ e' => R e e' /\ forall x, x ∈ l -> H x e') X e.
Proof.
  intros Hr Ht Hs Hf. assert (forall e0, R e e0 -> wp (for_each f l) (fun _ e' => R e0 e' /\ forall x, x ∈ l -> H x e') X e0) as G.
  { induction l as [|x l IH]; intros e0 He0; cbn [for_each].
    - apply wp_ret. split; [done|]. by intros x ?%not_elem_of_nil.
    - apply wp_bind. eapply wp_mono; [apply Hf; [by left|done]| |done]. intros [] e1 [H1 H2].
      eapply wp_mono; [apply IH; [|by eapply Ht]| |done].
      + intros y e2 Hy. apply Hf. by right.
      + intros [] e2 [H3 H4]. split; [by eapply Ht|]. intros y [->|Hy]%elem_of_cons; [by eapply Hs|by apply H4]. }
  by apply G.
Qed.

Lemma tables_with_tables m e : tables (with_tables m e) = m.
Proof. done. Qed.

Section steps.
Context {DB : Double}.
Context (regex_search : bytes -> bytes -> option bool).
Context (evalExprStr : bytes -> list Column -> list bytes -> bytes).
Context (match_against : list bytes -> bytes -> bytes -> list Column -> list bytes -> bool).
Context (formatNum : dbl -> bytes) (dcount : nat -> dbl).
Context (evaluateRlsExpr_ : bytes -> Row -> list bytes -> bool).
Context (thread : Z).

(** Checks leave the engine as it is. *)
Lemma wp_checkPrivilege o n (Q : () -> Engine -> Prop) (X : Engine -> Prop) e :
  Q () e -> X e -> wp (checkPrivilege o n) Q X e.
Proof. intros HQ HX. unfold checkPrivilege. do 2 wp_step. by wp_step. Qed.
Lemma wp_checkWriteAllowed n (Q : () -> Engine -> Prop) (X : Engine -> Prop) e :
  Q () e -> X e -> wp (checkWriteAllowed thread n) Q X e.
Proof. intros HQ HX. unfold checkWriteAllowed. do 2 wp_step. by wp_step. Qed.
Lemma wp_check_rls n cmd p t (Q : () -> Engine -> Prop) (X : Engine -> Prop) e :
  Q () e -> X e -> wp (check_rls evaluateRlsExpr_ n cmd p t) Q X e.
Proof. intros HQ HX. unfold check_rls. do 2 wp_step. by wp_step. Qed.
Lemma wp_checkInsertFK n vals (Q : () -> Engine -> Prop) (X : Engine -> Prop) e :
  (forall t, tables e !! n = Some t -> check_fks e (columns_ t) (foreignKeys_ t) vals = Ok () -> Q () e) -> X e ->
  wp (checkInsertFK n vals) Q X e.
Proof.
  intros HQ HX. unfold checkInsertFK. wp_step. wp_step; [|done]. wp_step. wp_step.
  apply wp_lift. destruct (check_fks _ _ _ _) as [[]|] eqn:E; [by eapply HQ|done].
Qed.
Lemma wp_rls_where n cmd wCol wVal (Q : () -> Engine -> Prop) (X : Engine -> Prop) e e0 :
  Q () e -> X e ->
  wp (if rls_exempt (view e0) n then mret ()
      else t ← get_table n; wCI ← lift (colIdx (columns_ t) wCol);
           check_rls evaluateRlsExpr_ n cmd (where_matches wCI wVal) t) Q X e.
Proof.
  intros HQ HX. destruct (rls_exempt _ _); [done|]. wp_step. wp_step; [|done].
  wp_step. wp_step; [|done]. by apply wp_check_rls.
Qed.

Abbreviation matching_rows := (matching_rows regex_search evalExprStr match_against formatNum dcount).
Abbreviation check_rls_conds := (check_rls_conds regex_search evalExprStr match_against formatNum dcount evaluateRlsExpr_).

Lemma wp_matching_rows n conds logic (Q : list Row -> Engine -> Prop) (X : Engine -> Prop) e :
  (forall t rs, tables e !! n = Some t ->
     matching regex_search evalExprStr match_against formatNum dcount e t conds logic (rows_ t) = Ok rs -> Q rs e) -> X e ->
  wp (matching_rows n conds logic) Q X e.
Proof.
  intros HQ HX. unfold Mutation.matching_rows. wp_step. wp_step; [|done]. wp_step. wp_step.
  apply wp_lift. destruct (matching _ _ _ _ _ _ _ _ _ _) as [rs|] eqn:E; [by eapply HQ|done].
Qed.
Lemma wp_check_rls_conds n cmd conds logic (Q : () -> Engine -> Prop) (X : Engine -> Prop) e :
  Q () e -> X e -> wp (check_rls_conds n cmd conds logic) Q X e.
Proof.
  intros HQ HX. unfold Mutation.check_rls_conds. wp_step. wp_step. destruct (rls_exempt _ _); [done|].
  wp_step. apply wp_matching_rows; [|done]. intros t rs _ _. by wp_step.
Qed.

End steps.

(** One step, checks and the reading of the engine included. *)
Ltac wp_next :=
  cbv beta;
  lazymatch goal with
  | |- wp (resolved _) _ _ _ => unfold resolved; apply wp_gets
  | |- wp in_tx _ _ _ => unfold in_tx; apply wp_gets
  | |- wp (buffer _) _ _ _ => unfold buffer; apply wp_modify
  | |- wp (checkPrivilege _ _) _ _ _ => apply wp_checkPrivilege; [|done]
  | |- wp (Mutation.checkWriteAllowed _ _) _ _ _ => apply wp_checkWriteAllowed; [|done]
  | |- wp (if rls_exempt _ _ then _ else _) _ _ _ => apply wp_rls_where; [|done]
  | |- wp (Mutation.check_rls_conds _ _ _ _ _ _ _ _ _ _) _ _ _ => apply wp_check_rls_conds; [|done]
  | |- wp (Mutation.matching_rows _ _ _ _ _ _ _ _) _ _ _ => apply wp_matching_rows; [intros ? ? ? ?|done]
  | |- wp (if ?b then _ else _) _ _ _ => destruct b eqn:?
  | |- wp (match ?t with Some _ => _ | None => _ end) _ _ _ => destruct t eqn:?
  | |- _ => wp_step
  end;
  cbv beta; try done.
