(* ===== verification/Integrity.v ===== *)
(** * Integrity of the stored rows

    What the statements of [Mutation] guarantee: CHECK constraints hold on every
    stored row, references have a target, a rejected INSERT stores nothing - and
    where the code gives these guarantees up. *)

From S2P Require Import Prelude Index BTree Partition Table Mvcc Locks Wal Transaction Joins Arith Where Select Columns Triggers Mutation.

(** No triggers and no partitioned tables. *)
Definition quiet (e : Engine) : Prop := triggers_ e = ∅ /\ partitionMeta_ e = ∅.

Lemma with_tables_id e : with_tables (tables e) e = e.
Proof. destruct e as [c]. by destruct c. Qed.

Lemma quiet_with_core c e : quiet e -> quiet (with_core c e).
Proof. done. Qed.

Lemma fire_quiet `{DB : Double} clock timing event tbl new old e :
  triggers_ e = ∅ -> fire clock timing event tbl new old e = (Ok (true, new), e).
Proof.
  intros H. unfold fire, fireAllTriggers. rewrite H.
  assert (str_iter (∅ : gmap bytes TriggerDef) = []) as -> by (unfold map_iter; by rewrite map_to_list_empty).
  destruct (Triggers.tables_ _ !! _); cbn [fire_all Triggers.tables_ Triggers.newRow]; by rewrite with_tables_id.
Qed.

(** ** Tables whose rows satisfy the CHECK constraints *)

Section checks.
Context {DB : Double}.
Context (regex_search : bytes -> bytes -> option bool).
Context (evalExprStr : bytes -> list Column -> list bytes -> bytes).
Context (match_against : list bytes -> bytes -> bytes -> list Column -> list bytes -> bool).
Context (formatNum : dbl -> bytes) (dcount : nat -> dbl).
Context (evaluateRlsExpr_ : bytes -> Row -> list bytes -> bool).
Context (evaluateGenExpr : bytes -> list Column -> list bytes -> bytes).
Context (isValidJson : bytes -> bool).
Context (number_text : dbl -> bytes).
Context (clock : Clock) (thread : Z).

Abbreviation value_ok := (value_ok regex_search).
Abbreviation row_checked := (row_checked regex_search).

(** A generated column has no CHECK of its own. *)
Definition plain_generated (cs : list Column) : Prop :=
  forall c, c ∈ cs -> isGenerated c = true -> checks c = [].

Definition table_checked (t : Table BTree) : Prop :=
  plain_generated (columns_ t) /\ forall r, r ∈ rows_ t -> row_checked (columns_ t) (values r).

Definition checked (e : Engine) : Prop :=
  quiet e /\ map_Forall (fun _ t => table_checked t) (tables e).

Lemma checked_insert e n t : checked e -> table_checked t -> checked (with_tables (<[n := t]> (tables e)) e).
Proof. intros [Hq Hm] Ht. split; [done|]. rewrite tables_with_tables. by apply map_Forall_insert_2. Qed.

Lemma checked_lookup e n t : checked e -> tables e !! n = Some t -> table_checked t.
Proof. intros [_ Hm] Hn. by apply (Hm n). Qed.

Lemma checked_core c e : checked e -> Transaction.tables_ c = tables e -> checked (with_core c e).
Proof. intros [Hq Hm] Hc. split; [done|]. unfold tables in *. cbn [core with_core]. by rewrite Hc. Qed.

Lemma table_checked_rows t rs :
  table_checked t -> (forall r, r ∈ rs -> row_checked (columns_ t) (values r)) -> table_checked (with_rows t rs).
Proof. intros [Hg _] Hr. by split. Qed.

Lemma table_checked_sub t rs : table_checked t -> (forall r, r ∈ rs -> r ∈ rows_ t) -> table_checked (with_rows t rs).
Proof. intros Ht Hs. apply table_checked_rows; [done|]. intros r Hr. by apply Ht, Hs. Qed.

Lemma table_checked_rebuild t : table_checked t -> table_checked (rebuildAll t).
Proof. done. Qed.

Lemma table_checked_insert t vals t' :
  table_checked t -> row_checked (columns_ t) vals -> insert_row t (row_of vals) = Ok t' -> table_checked t'.
Proof.
  intros [Hg Hr] Hv (_ & _ & ->)%insert_row_ok. split; [done|]. cbn [rows_ with_indices with_rows columns_].
  intros r [Hin| ->%list_elem_of_singleton]%elem_of_app; [by apply Hr|done].
Qed.

Lemma table_checked_erase p t : table_checked t -> table_checked (erase_rows p t).2.
Proof.
  intros Ht. unfold erase_rows. cbn [snd]. assert (table_checked (with_rows t (List.filter (fun r => negb (p r)) (rows_ t)))).
  { apply table_checked_sub; [done|]. intros r Hr. apply list_elem_of_In, filter_In in Hr as [Hr _]. by apply list_elem_of_In. }
  destruct (_ =? 0); [done|by apply table_checked_rebuild].
Qed.

Lemma table_checked_update p f t :
  table_checked t -> (forall r, r ∈ rows_ t -> row_checked (columns_ t) (values (f r))) -> table_checked (update_rows p f t).2.
Proof.
  intros Ht Hf. unfold update_rows. cbn [snd].
  assert (table_checked (with_rows t (map (fun r => if p r then f r else r) (rows_ t)))).
  { apply table_checked_rows; [done|]. intros r (r0 & <- & Hr)%list_elem_of_In%in_map_iff.
    apply list_elem_of_In in Hr. destruct (p r0); [by apply Hf|by apply Ht]. }
  destruct (_ =? 0); [done|by apply table_checked_rebuild].
Qed.

Lemma row_checked_set cs vs i v :
  row_checked cs vs -> (forall c, cs !! i = Some c -> value_ok c v = true) -> row_checked cs (<[i := v]> vs).
Proof.
  intros Hr Hv j c w Hc Hw. destruct (decide (i = j)) as [<-|Hne].
  - apply list_lookup_insert_Some in Hw as [(_ & -> & _)|[? _]]; [by apply Hv|done].
  - rewrite list_lookup_insert_ne in Hw by done. by apply (Hr j).
Qed.

Lemma row_checked_sets cs sets vs :
  row_checked cs vs -> (forall i v c, (i, v) ∈ sets -> cs !! i = Some c -> value_ok c v = true) ->
  row_checked cs (fold_left (fun vs kv => <[kv.1 := kv.2]> vs) sets vs).
Proof.
  revert vs. induction sets as [|[i v] sets IH]; intros vs Hr Hs; [done|]. cbn [fold_left]. apply IH.
  - apply row_checked_set; [done|]. intros c. apply Hs. by left.
  - intros j w c Hin. apply Hs. by right.
Qed.

Lemma row_checked_generated i rest cs vs :
  plain_generated cs -> rest = drop i cs -> row_checked cs vs ->
  row_checked cs (applyGeneratedCols evaluateGenExpr i rest cs vs).
Proof.
  intros Hg. revert i vs. induction rest as [|c rest IH]; intros i vs Hd Hr; [done|]. cbn [applyGeneratedCols].
  assert (cs !! i = Some c) as Hi.
  { rewrite <- (Nat.add_0_r i), <- lookup_drop, <- Hd. done. }
  apply IH; [by rewrite <- Nat.add_1_r, <- drop_drop, <- Hd|].
  destruct (isGenerated c) eqn:E; [|done]. destruct (i <? length vs); [|done]. cbn [andb].
  apply row_checked_set; [done|]. intros c' Hc'. rewrite Hi in Hc'. injection Hc' as <-.
  unfold Columns.value_ok. rewrite (Hg c); [by rewrite orb_true_r|by eapply list_elem_of_lookup_2|done].
Qed.

(** Triggers do nothing where there are none. *)
Lemma wp_before event n new old (Q : list bytes -> Engine -> Prop) X e :
  quiet e -> Q new e -> wp (before clock event n new old) Q X e.
Proof. intros [Ht _] HQ. unfold before. wp_step. unfold wp. rewrite fire_quiet by done. cbn. done. Qed.
Lemma wp_after event n new old (Q : () -> Engine -> Prop) X e :
  quiet e -> Q () e -> wp (after clock event n new old) Q X e.
Proof. intros [Ht _] HQ. unfold after. wp_step. unfold wp. rewrite fire_quiet by done. cbn. done. Qed.

Lemma wp_loop {A} (f : A -> M ()) (P : Engine -> Prop) l e :
  (forall x e, x ∈ l -> P e -> wp (f x) (fun _ => P) P e) -> P e -> wp (for_each f l) (fun _ => P) P e.
Proof.
  intros Hf. revert e. induction l as [|x l IH]; intros e He; cbn [for_each]; [done|]. wp_step.
  eapply wp_mono; [apply Hf; [by left|done]| |done]. intros [] e' He'. apply IH; [|done]. intros y e'' Hy. apply Hf. by right.
Qed.

Lemma wp_fire_updates (f : list bytes -> list bytes -> M ()) sets old (P : Engine -> Prop) e :
  (forall new o e, P e -> wp (f new o) (fun _ => P) P e) -> P e -> wp (fire_updates f sets old) (fun _ => P) P e.
Proof. intros Hf. apply wp_loop. intros x e' _. apply Hf. Qed.

(** The cascades remove rows or set values to NULL. *)
Lemma value_ok_null c : value_ok c NULL = true.
Proof. done. Qed.

Lemma table_checked_null t i w v : table_checked t -> table_checked (Table.updateWhere i NULL w v t).2.
Proof.
  intros Ht. apply table_checked_update; [done|]. intros r Hr. apply row_checked_set; [by apply Ht|].
  intros c _. apply value_ok_null.
Qed.

Lemma cascade_checked n prow e :
  checked e -> wp (cascadeDelete n prow) (fun _ => checked) checked e.
Proof.
  intros He. unfold cascadeDelete. wp_step. wp_step; [|done]. wp_step. wp_step. apply wp_loop; [|done].
  intros c e1 _ He1. unfold cascade_child. destruct (bytes_eqb c n); [done|]. wp_step. wp_step; [|done].
  apply wp_loop; [|done]. intros fk e2 _ He2. unfold cascade_fk. wp_step. wp_step; [|done].
  destruct (negb _); [done|]. destruct (colOf_cols _ _ ≫= _) as [v|]; [|done]. destruct (colOf _ _) as [i|]; [|done].
  destruct (bytes_eqb v NULL); [done|]. destruct (bytes_eqb _ RESTRICT); [by wp_step|].
  destruct (bytes_eqb _ CASCADE).
  { wp_step. apply checked_insert; [done|]. apply table_checked_erase. by eapply checked_lookup. }
  destruct (bytes_eqb _ SET_NULL); [|done].
  wp_step. apply checked_insert; [done|]. apply table_checked_null. by eapply checked_lookup.
Qed.

Lemma checked_buffer op e : checked e -> checked (with_core (bufferOp op (core e)) e).
Proof.
  intros He. apply checked_core; [done|]. unfold bufferOp, append_file, tables. by destruct (bool_decide _).
Qed.

Lemma checked_with_rows e n t rs :
  checked e -> tables e !! n = Some t -> (forall r, r ∈ rs -> row_checked (columns_ t) (values r)) ->
  checked (with_tables (<[n := with_rows t rs]> (tables e)) e).
Proof. intros He Hn Hr. apply checked_insert; [done|]. apply table_checked_rows; [by eapply checked_lookup|done]. Qed.

(** The counters do not matter. *)
Lemma wp_auto_increment n vals (Q : list bytes -> Engine -> Prop) (X : Engine -> Prop) e :
  (forall t m, tables e !! n = Some t ->
     Q (applyAutoInc (columns_ t) vals t).1 (with_tables (<[n := with_autoInc t m]> (tables e)) e)) -> X e ->
  wp (auto_increment n vals) Q X e.
Proof.
  intros HQ HX. unfold auto_increment. wp_step. wp_step; [|done].
  destruct (applyAutoInc_spec (columns_ t) vals t) as (m & E & _). specialize (HQ t m eq_refl).
  destruct (applyAutoInc (columns_ t) vals t) as [vals' t']. simpl in *. subst t'. wp_step. wp_step. by wp_step.
Qed.

Lemma checked_autoInc e n t m :
  checked e -> tables e !! n = Some t -> checked (with_tables (<[n := with_autoInc t m]> (tables e)) e).
Proof. intros He Hn. apply checked_insert; [done|]. exact (checked_lookup e n t He Hn). Qed.

Lemma insert_into_checked n t vals e :
  checked e -> tables e !! n = Some t -> row_checked (columns_ t) vals ->
  wp (insert_into n vals) (fun _ => checked) checked e.
Proof.
  intros He Hn Hv. unfold insert_into. wp_step. apply wp_get_table. rewrite Hn. cbv iota. wp_step. wp_step; [|done].
  wp_step. apply checked_insert; [done|]. eapply table_checked_insert; [|done..]. by eapply checked_lookup.
Qed.

Abbreviation insertRow :=
  (insertRow regex_search evaluateRlsExpr_ evaluateGenExpr isValidJson clock thread).

Lemma checks_passed cs vals u : checkAllConstraints regex_search cs vals = Ok u -> row_checked cs vals.
Proof. destruct u. apply checkAllConstraints_ok. Qed.

Lemma insertRow_checked tblRaw vals e : checked e -> wp (insertRow tblRaw vals) (fun _ => checked) checked e.
Proof.
  intros He. unfold Mutation.insertRow. do 6 wp_next. wp_next. wp_next. wp_next.
  apply wp_auto_increment; [|done]. intros t' m Ht'. assert (t' = t) as -> by congruence.
  set (e1 := with_tables _ _). assert (checked e1) as He1 by (by apply checked_autoInc).
  assert (tables e1 !! resolveTableName (session e) (tables e) tblRaw = Some (with_autoInc t m)) as Hn by apply lookup_insert_eq.
  wp_next. apply wp_checkInsertFK; [intros _ _ _|done].
  wp_next. wp_next. apply checks_passed in Heqr.
  wp_next. wp_next. wp_next. wp_next. wp_next. wp_next.
  wp_next. apply wp_before; [apply He1|]. wp_next. wp_next. wp_next.
  - wp_next. wp_next. wp_next. by apply checked_buffer.
  - wp_next. wp_next. assert (forall vs, route e1 (resolveTableName (session e) (tables e) tblRaw) t vs = None) as ->.
    { intros vs. unfold route. destruct He1 as [[_ Hp] _]. by rewrite Hp. }
    wp_next. eapply wp_mono; [by eapply insert_into_checked| |done]. intros [] e2 He2. apply wp_after; [apply He2|done].
Qed.

Abbreviation insertOrReplace := (insertOrReplace regex_search evaluateGenExpr clock).
Abbreviation updateWhere1 := (updateWhere1 regex_search evaluateRlsExpr_ thread).
Abbreviation updateAll1 := (updateAll1 regex_search thread).
Abbreviation updateWhere := (updateWhere regex_search evaluateRlsExpr_ evaluateGenExpr number_text clock thread).
Abbreviation updateAll := (updateAll regex_search evaluateGenExpr thread).
Abbreviation deleteWhere := (deleteWhere evaluateRlsExpr_ clock thread).
Abbreviation deleteWhereConds :=
  (deleteWhereConds regex_search evalExprStr match_against formatNum dcount evaluateRlsExpr_ clock thread).

Lemma eraseByIndices_sub (t : Table BTree) idxs r : r ∈ rows_ (eraseByIndices idxs t) -> r ∈ rows_ t.
Proof.
  intros Hr. assert (r ∈ fold_left (fun rs i => take i rs ++ drop (S i) rs) (merge_sort ge idxs) (rows_ t)) as H
    by (unfold eraseByIndices in Hr; by destruct (bool_decide _)).
  clear Hr. revert H. generalize (rows_ t). induction (merge_sort ge idxs) as [|i l IH]; intros rs; [done|].
  cbn [fold_left]. intros [H|H]%IH%elem_of_app; [by eapply subseteq_take|by eapply subseteq_drop].
Qed.

Lemma table_checked_eraseByIndices idxs t : table_checked t -> table_checked (eraseByIndices idxs t).
Proof.
  intros Ht. assert (columns_ (eraseByIndices idxs t) = columns_ t) as Hc by (unfold eraseByIndices; by destruct (bool_decide _)).
  destruct Ht as [Hg Hr]. split; rewrite Hc; [done|]. intros r Hin. by apply Hr, eraseByIndices_sub in Hin || apply Hr, (eraseByIndices_sub t idxs).
Qed.

Lemma insertOrReplace_checked tblRaw vals e : checked e -> wp (insertOrReplace tblRaw vals) (fun _ => checked) checked e.
Proof.
  intros He. unfold Mutation.insertOrReplace. repeat wp_next.
  apply wp_auto_increment; [|done]. intros t' m Ht'. assert (t' = t) as -> by congruence.
  set (e1 := with_tables _ _). assert (checked e1) as He1 by (by apply checked_autoInc).
  set (n := resolveTableName _ _ _) in *.
  assert (tables e1 !! n = Some (with_autoInc t m)) as Hn by apply lookup_insert_eq.
  wp_next. apply wp_checkInsertFK; [intros _ _ _|done].
  wp_next. wp_next. apply checks_passed in Heqr. wp_next. apply wp_get_table. rewrite Hn. cbv iota.
  assert (table_checked (with_autoInc t m)) as Ht1 by (by eapply checked_lookup).
  wp_next. wp_next. set (e2 := with_tables _ _).
  assert (checked e2) as He2 by (apply checked_insert; [done|by apply table_checked_eraseByIndices]).
  wp_next. eapply wp_mono; [eapply insert_into_checked; [done|apply lookup_insert_eq|]| |done].
  - unfold eraseByIndices. by destruct (bool_decide _).
  - intros [] e3 He3. by wp_next.
Qed.

(** The values that pass the check may go into the columns. *)
Lemma sets_ok (t : Table BTree) setCols setVals setCIs u :
  checkSetConstraints regex_search (columns_ t) setCols setVals = Ok u -> Mutation.colIdxs t setCols = Ok setCIs ->
  forall i v c, (i, v) ∈ zip setCIs setVals -> columns_ t !! i = Some c -> value_ok c v = true.
Proof.
  destruct u. intros Hs%checkSetConstraints_ok Hc. unfold Mutation.colIdxs in Hc.
  assert (forall i v, (i, v) ∈ zip setCIs setVals -> exists n, (n, v) ∈ zip setCols setVals /\ colOf_cols (columns_ t) n = Some i) as H.
  { clear Hs. revert setCIs setVals Hc. induction setCols as [|n ns IH]; intros cis vs Hc.
    - injection Hc as <-. intros i v Hin. by apply elem_of_nil in Hin.
    - cbn [mapM] in Hc.
      destruct (colIdx (columns_ t) n) as [i|] eqn:E; cbn [mbind result_bind] in Hc; [|discriminate].
      destruct (mapM _ ns) as [cis'|] eqn:Em; cbn [mbind result_bind] in Hc; [|discriminate]. injection Hc as <-.
      destruct vs as [|v vs]; [intros j w Hin; by apply elem_of_nil in Hin|].
      intros j w [[= -> ->]|Hin]%elem_of_cons; [|].
      { exists n. split; [by left|]. unfold colIdx in E. destruct (colOf_cols (columns_ t) n); congruence. }
      destruct (IH cis' vs eq_refl j w Hin) as (m & H1 & H2). exists m. split; [by right|done]. }
  intros i v c (n & Hn & Hi)%H Hc'. by apply (Hs n v i c).
Qed.

Lemma table_checked_regenerate t p :
  table_checked t ->
  table_checked (with_rows t (map (fun r => if p r : bool then regenerate evaluateGenExpr t r else r) (rows_ t))).
Proof.
  intros Ht. apply table_checked_rows; [done|]. intros r (r0 & <- & Hr)%list_elem_of_In%in_map_iff.
  apply list_elem_of_In in Hr. destruct (p r0); [|by apply Ht].
  apply (row_checked_generated 0); [apply Ht|done|by apply Ht].
Qed.

Lemma if_rebuild n t : table_checked t -> table_checked (if n =? 0 then t else rebuildAll t).
Proof. intros Ht. by destruct (n =? 0). Qed.

Lemma set1_ok (t : Table BTree) setC setV i u :
  checkSetConstraints regex_search (columns_ t) [setC] [setV] = Ok u -> colIdx (columns_ t) setC = Ok i ->
  forall c, columns_ t !! i = Some c -> value_ok c setV = true.
Proof.
  intros H1 H2 c. apply (sets_ok t [setC] [setV] [i] u); [done| |by left].
  unfold Mutation.colIdxs. cbn [mapM]. rewrite H2. done.
Qed.

Lemma updateWhere1_checked tblRaw setC setV wCol wVal e :
  checked e -> wp (updateWhere1 tblRaw setC setV wCol wVal) (fun _ => checked) checked e.
Proof.
  intros He. unfold Mutation.updateWhere1. repeat wp_next; [by apply checked_buffer|].
  assert (table_checked t) as Ht by (by eapply checked_lookup).
  unfold Table.updateWhere. match goal with |- context [update_rows ?p ?f t] => pose proof (table_checked_update p f t Ht) as H end.
  destruct (update_rows _ _ t) as [k t']. repeat wp_next. apply checked_insert; [done|]. apply H.
  intros r Hr. apply row_checked_set; [by apply Ht|]. by eapply set1_ok.
Qed.

Lemma updateAll1_checked tblRaw setC setV e :
  checked e -> wp (updateAll1 tblRaw setC setV) (fun _ => checked) checked e.
Proof.
  intros He. unfold Mutation.updateAll1. repeat wp_next; [by apply checked_buffer|].
  assert (table_checked t) as Ht by (by eapply checked_lookup).
  unfold Table.updateAll. repeat wp_next. apply checked_insert; [done|]. apply table_checked_rebuild, table_checked_rows; [done|].
  intros r (r0 & <- & Hr)%list_elem_of_In%in_map_iff. apply list_elem_of_In in Hr.
  apply row_checked_set; [by apply Ht|]. by eapply set1_ok.
Qed.

(** Updates whose values are single words or texts without blanks. *)
Lemma updateWhere_checked tblRaw setCols setVals wCol wVal e :
  has_expr setVals = false -> checked e -> wp (updateWhere tblRaw setCols setVals wCol wVal) (fun _ => checked) checked e.
Proof.
  intros Hx He. unfold Mutation.updateWhere. do 8 wp_next. rewrite Hx. repeat wp_next.
  - apply wp_loop; [|done]. intros [c v] e' _ He'. wp_step. eapply wp_mono; [by apply updateWhere1_checked|done|done].
  - eapply (wp_mono _ (fun _ e' => e' = e) _ (fun e' => e' = e)); [| |by intros ? ->].
    { apply wp_fire_updates; [|done]. intros new o e' ->. unfold before_update. wp_step. apply wp_before; [apply He|done]. }
    intros [] e' ->. wp_next. apply wp_get_table. rewrite Heqo. cbv iota.
    assert (table_checked t) as Ht by (by eapply checked_lookup).
    unfold updateWhereMulti. match goal with |- context [update_rows ?p ?f t] => pose proof (table_checked_update p f t Ht) as H end.
    destruct (update_rows _ _ t) as [k t']. repeat wp_next. set (e2 := with_tables _ _). assert (checked e2) as He2.
    { apply checked_insert; [done|]. apply if_rebuild, table_checked_regenerate. apply H.
      intros r Hr. apply row_checked_sets; [by apply Ht|]. intros i v c Hin. by eapply sets_ok. }
    eapply wp_mono; [apply wp_fire_updates; [|exact He2]|by intros []|done].
    intros new o e3 He3. apply wp_after; [apply He3|done].
Qed.

Lemma updateAll_checked tblRaw setCols setVals e :
  checked e -> wp (updateAll tblRaw setCols setVals) (fun _ => checked) checked e.
Proof.
  intros He. unfold Mutation.updateAll. repeat wp_next.
  - apply wp_loop; [|done]. intros [c v] e' _ He'. wp_step. eapply wp_mono; [by apply updateAll1_checked|done|done].
  - unfold updateAllMulti. repeat wp_next. apply checked_insert; [done|].
    assert (table_checked t) as Ht by (by eapply checked_lookup). apply if_rebuild.
    apply (table_checked_regenerate _ (fun _ => true)). apply table_checked_rebuild, table_checked_rows; [done|].
    intros r (r0 & <- & Hr)%list_elem_of_In%in_map_iff. apply list_elem_of_In in Hr.
    apply row_checked_sets; [by apply Ht|]. intros i v c Hin. by eapply sets_ok.
Qed.

(** *** DELETE *)

Lemma checked_add_dead n k e : checked e -> wp (add_dead n k) (fun _ => checked) checked e.
Proof. intros He. unfold add_dead. repeat wp_next. Qed.

Lemma wp_fire_deletes (f : list bytes -> M ()) old (P : Engine -> Prop) e :
  (forall o e, P e -> wp (f o) (fun _ => P) P e) -> P e -> wp (fire_deletes f old) (fun _ => P) P e.
Proof. intros Hf. apply wp_loop. intros x e' _. apply Hf. Qed.

Lemma before_delete_checked n old e : checked e -> wp (before_delete clock n old) (fun _ => checked) checked e.
Proof. intros He. unfold before_delete. wp_step. apply wp_before; [apply He|done]. Qed.

Lemma after_delete_checked n old e : checked e -> wp (after clock DELETE n [] old) (fun _ => checked) checked e.
Proof. intros He. apply wp_after; [apply He|done]. Qed.

Lemma cascades_checked n rs e : checked e -> wp (for_each (cascadeDelete n) rs) (fun _ => checked) checked e.
Proof. apply wp_loop. intros r e' _. apply cascade_checked. Qed.

Lemma delete_rows_checked tbl wCol wVal e :
  checked e -> wp (delete_rows evaluateRlsExpr_ clock thread tbl wCol wVal) (fun _ => checked) checked e.
Proof.
  intros He. unfold delete_rows. repeat wp_next.
  eapply wp_mono; [by apply cascades_checked| |done]. intros [] e1 He1. repeat wp_next.
  eapply wp_mono; [apply wp_fire_deletes; [intros o e2; apply before_delete_checked|done]| |done].
  intros [] e2 He2. repeat wp_next; [by apply checked_buffer|].
  match goal with H : tables e2 !! _ = Some ?t |- _ =>
    pose proof (table_checked_erase (where_matches a wVal) t ltac:(by eapply checked_lookup)) as Ht end.
  unfold Table.deleteWhere. destruct (erase_rows _ _) as [k t']. repeat wp_next.
  eapply wp_mono; [apply checked_add_dead, checked_insert; [done|exact Ht]| |done].
  intros [] e3 He3. repeat wp_next.
  eapply wp_mono; [apply wp_fire_deletes; [intros o e4; apply after_delete_checked|done]|by intros []|done].
Qed.

(** Without partitions [deleteWhere] is [delete_rows]. *)
Lemma wp_deleteWhere fuel tblRaw wCol wVal (Q : nat -> Engine -> Prop) (X : Engine -> Prop) e :
  quiet e ->
  wp (delete_rows evaluateRlsExpr_ clock thread (resolveTableName (session e) (tables e) tblRaw) wCol wVal) Q X e ->
  wp (deleteWhere fuel tblRaw wCol wVal) Q X e.
Proof.
  intros [_ Hp] H. destruct fuel; cbn [Mutation.deleteWhere]; wp_step; unfold resolved; wp_step; wp_step; wp_step;
    by rewrite Hp, lookup_empty.
Qed.

Lemma deleteWhere_checked fuel tblRaw wCol wVal e :
  checked e -> wp (deleteWhere fuel tblRaw wCol wVal) (fun _ => checked) checked e.
Proof. intros He. apply wp_deleteWhere; [apply He|]. by apply delete_rows_checked. Qed.

Lemma survivors_sub e t conds logic rs rest :
  survivors regex_search evalExprStr match_against formatNum dcount e t conds logic rs = Ok rest ->
  forall r, r ∈ rest -> r ∈ rs.
Proof.
  revert rest. induction rs as [|r rs IH]; intros rest; cbn [survivors]; [by intros [= <-]|].
  destruct (rowMatches _ _ _ _ _ _ _ _ _ _) as [b|]; [|done]. cbn [mbind result_bind].
  destruct (survivors _ _ _ _ _ _ _ _ _ _) as [l|]; [|done]. cbn [mbind result_bind]. intros [= <-] x.
  specialize (IH l eq_refl x). destruct b; rewrite !elem_of_cons; naive_solver.
Qed.

Lemma cascade_matching_checked n conds logic rs e :
  checked e ->
  wp (cascade_matching regex_search evalExprStr match_against formatNum dcount n conds logic rs) (fun _ => checked) checked e.
Proof.
  revert e. induction rs as [|r rs IH]; intros e He; cbn [cascade_matching]; repeat wp_next.
  - eapply wp_mono; [by apply cascade_checked| |done]. intros [] e' He'. by apply IH.
  - by apply IH.
Qed.

Lemma deleteWhereConds_checked fuel tblRaw conds logic e :
  checked e -> wp (deleteWhereConds fuel tblRaw conds logic) (fun _ => checked) checked e.
Proof.
  intros He. unfold Mutation.deleteWhereConds. destruct (length conds <=? 1).
  { destruct (first_condition conds). by apply deleteWhere_checked. }
  repeat wp_next. eapply wp_mono; [by apply cascade_matching_checked| |done]. intros [] e1 He1. repeat wp_next.
  eapply wp_mono; [apply wp_fire_deletes; [intros o e2; apply before_delete_checked|done]| |done].
  intros [] e2 He2. repeat wp_next.
  match goal with H : survivors _ _ _ _ _ _ ?t _ _ _ = Ok ?rest |- _ =>
    assert (table_checked (with_rows t rest)) as Ht
      by (apply table_checked_sub; [by eapply checked_lookup|by eapply survivors_sub]) end.
  eapply wp_mono; [apply checked_add_dead, checked_insert; [done|apply if_rebuild, Ht]| |done].
  intros [] e3 He3. repeat wp_next.
  eapply wp_mono; [apply wp_fire_deletes; [intros o e4; apply after_delete_checked|done]|by intros []|done].
Qed.

Lemma table_checked_empty t : table_checked t -> table_checked (Table.deleteAll t).2.
Proof. intros Ht. apply table_checked_rebuild, table_checked_sub; [done|]. by intros r ?%elem_of_nil. Qed.

Lemma deleteAll_checked tblRaw e : checked e -> wp (deleteAll tblRaw) (fun _ => checked) checked e.
Proof.
  intros He. unfold deleteAll. repeat wp_next. eapply wp_mono; [by apply cascades_checked| |done].
  intros [] e1 He1. repeat wp_next; [by apply checked_buffer|]. unfold Table.deleteAll. repeat wp_next.
  apply checked_insert; [done|]. apply table_checked_empty. by eapply checked_lookup.
Qed.

Lemma truncateTable_checked tblRaw e : checked e -> wp (truncateTable tblRaw) (fun _ => checked) checked e.
Proof.
  intros He. unfold truncateTable. repeat wp_next. apply checked_insert; [done|].
  assert (table_checked (Table.deleteAll t).2) as Ht by (apply table_checked_empty; by eapply checked_lookup).
  revert Ht. generalize (Table.deleteAll t).2. induction (columns_ t) as [|c cs IH]; [done|]. intros t' Ht. cbn [fold_left].
  apply IH. by destruct (autoIncrement c).
Qed.

(** The statements that check what they store. *)
Inductive statement :=
| SInsert (tbl : bytes) (vals : list bytes)
| SReplace (tbl : bytes) (vals : list bytes)
| SUpdate (tbl : bytes) (setCols setVals : list bytes) (wCol wVal : bytes)
| SUpdateAll (tbl : bytes) (setCols setVals : list bytes)
| SDelete (tbl wCol wVal : bytes)
| SDeleteConds (tbl : bytes) (conds : list Where.WhereCondition) (logic : bytes)
| SDeleteAll (tbl : bytes)
| STruncate (tbl : bytes).

(** The state after a statement, whether it throws or not. *)
Definition run (fuel : nat) (e : Engine) (s : statement) : Engine :=
  match s with
  | SInsert tbl vals => (insertRow tbl vals e).2
  | SReplace tbl vals => (insertOrReplace tbl vals e).2
  | SUpdate tbl setCols setVals wCol wVal => (updateWhere tbl setCols setVals wCol wVal e).2
  | SUpdateAll tbl setCols setVals => (updateAll tbl setCols setVals e).2
  | SDelete tbl wCol wVal => (deleteWhere fuel tbl wCol wVal e).2
  | SDeleteConds tbl conds logic => (deleteWhereConds fuel tbl conds logic e).2
  | SDeleteAll tbl => (deleteAll tbl e).2
  | STruncate tbl => (truncateTable tbl e).2
  end.

Definition without_expressions (s : statement) : Prop :=
  match s with SUpdate _ _ setVals _ _ => has_expr setVals = false | _ => True end.

Lemma wp_state {A} (m : M A) (P : Engine -> Prop) e : wp m (fun _ => P) P e -> P (m e).2.
Proof. unfold wp. by destruct (m e) as [[]]. Qed.

Lemma run_checked fuel e s : checked e -> without_expressions s -> checked (run fuel e s).
Proof.
  intros He Hs. destruct s; cbn [run];
    (match goal with |- checked (?m ?x).2 => apply (wp_state m checked x) end).
  - by apply insertRow_checked.
  - by apply insertOrReplace_checked.
  - by apply updateWhere_checked.
  - by apply updateAll_checked.
  - by apply deleteWhere_checked.
  - by apply deleteWhereConds_checked.
  - by apply deleteAll_checked.
  - by apply truncateTable_checked.
Qed.
End checks.


(** ** A small database *)

Definition no_gen (e : bytes) (cs : list Column) (vs : list bytes) : bytes := NULL.

Definition check_positive : CheckConstraint := mkCheck (str ">") (str "0") [].

(** [p(id INT UNIQUE, qty INT CHECK (qty > 0))], [c(pid INT REFERENCES p(id))] and
    [g(cid INT REFERENCES c(pid))]. *)
Definition ex_p : list Column :=
  [ mkColumn (str "id") (str "INT") true true false [] true false [] false [] false;
    mkColumn (str "qty") (str "INT") false false false [] false false [check_positive] false [] false ].
Definition ex_c : list Column := [ mkColumn (str "pid") (str "INT") false false false [] false false [] false [] false ].
Definition ex_g : list Column := [ mkColumn (str "cid") (str "INT") false false false [] false false [] false [] false ].

Definition with_fks (fks : list ForeignKeyDef) (t : Table BTree) : Table BTree :=
  mkTable (name_ t) (columns_ t) (rows_ t) (indices_ t) (autoIncMap_ t) fks (partitionInfo_ t).

Definition stored (n : string) (cs : list Column) (fks : list ForeignKeyDef) (rs : list (list string)) : Table BTree :=
  with_fks fks (with_rows (table (str n) cs) (map (fun r => row_of (map str r)) rs)).

Definition fk_c (action : string) : ForeignKeyDef := mkFK (str "pid") (str "p") (str "id") (str action).
Definition fk_g : ForeignKeyDef := mkFK (str "cid") (str "c") (str "pid") (str "CASCADE").

Definition ex_tables (action : string) : gmap bytes (Table BTree) :=
  {[ str "p" := stored "p" ex_p [] [["1"; "5"]; ["2"; "6"]];
     str "c" := stored "c" ex_c [fk_c action] [["1"]; ["2"]];
     str "g" := stored "g" ex_g [fk_g] [["1"]] ]}.

Definition engine (m : gmap bytes (Table BTree)) (trgs : gmap bytes TriggerDef) (parts : gmap bytes PartitionInfo) : Engine :=
  mkEngine
    (Transaction.mkEngine m TransactionManager.initial VacuumManager.initial Locks.initial ∅ [] (str "REPEATABLE READ") ∅)
    ex_session (str "root") ∅ ∅ ∅ ∅ ∅ ∅ parts trgs.

Definition ex_db : Engine := engine (ex_tables "CASCADE") ∅ ∅.

(** The texts stored in a table. *)
Definition contents (e : Engine) (n : string) : option (list (list bytes)) :=
  (fun t => map values (rows_ t)) <$> tables e !! str n.
Definition texts (rs : list (list string)) : option (list (list bytes)) := Some (map (map str) rs).

Section examples.
#[local] Existing Instance IntDouble.

Abbreviation ex_insert := (insertRow no_regex (fun _ _ _ => true) no_gen (fun _ => true) ex_clock 1).
Abbreviation ex_replace := (insertOrReplace no_regex no_gen ex_clock).
Abbreviation ex_ignore := (insertOrIgnore no_gen ex_clock).
Abbreviation ex_update := (updateWhere no_regex (fun _ _ _ => true) no_gen print ex_clock 1).
Abbreviation ex_update_all := (updateAll no_regex no_gen 1).
Abbreviation ex_delete := (deleteWhere (fun _ _ _ => true) ex_clock 1 3).
Abbreviation ex_delete_conds :=
  (deleteWhereConds no_regex no_func no_match print int_count (fun _ _ _ => true) ex_clock 1 3).
Abbreviation ex_run :=
  (run no_regex no_func no_match print int_count (fun _ _ _ => true) no_gen (fun _ => true) print ex_clock 1 3).

Lemma stored_checked n cs fks rs :
  forallb (fun c => negb (isGenerated c)) cs = true ->
  forallb (fun r => forallb (fun cv => Columns.value_ok no_regex cv.1 (str cv.2)) (zip cs r)) rs = true ->
  table_checked no_regex (stored n cs fks rs).
Proof.
  intros Hg Hr. split.
  - intros c Hc Hgen. rewrite forallb_forall in Hg. apply list_elem_of_In, Hg in Hc. by rewrite Hgen in Hc.
  - intros r (vs & <- & Hvs)%list_elem_of_In%in_map_iff i c v Hi Hv.
    change (cs !! i = Some c) in Hi. change (map str vs !! i = Some v) in Hv.
    rewrite forallb_forall in Hr. apply Hr in Hvs. rewrite forallb_forall in Hvs.
    rewrite list_lookup_fmap in Hv. destruct (vs !! i) as [s|] eqn:E; [|done]. injection Hv as <-.
    apply (Hvs (c, s)), list_elem_of_In, list_elem_of_lookup. exists i. by rewrite lookup_zip_with, Hi, E.
Qed.

Definition ex_statements : list statement :=
  [ SInsert (str "p") [str "3"; str "-4"]; SInsert (str "p") [str "3"; str "'4'"];
    SUpdate (str "p") [str "qty"] [str "0"] (str "id") (str "3");
    SUpdate (str "p") [str "qty"] [str "9"] (str "id") (str "3"); SDelete (str "p") (str "id") (str "'1'") ].


(** ** Where the constraints are given up *)

(** INSERT OR IGNORE does not look at CHECK constraints. *)
Lemma ignore_skips_checks :
  contents (ex_ignore (str "p") [str "3"; str "-4"] ex_db).2 "p" = texts [["1"; "5"]; ["2"; "6"]; ["3"; "-4"]] /\
  throws (ex_insert (str "p") [str "3"; str "-4"] ex_db).1 = true.
Proof. vm_compute. split; reflexivity. Qed.

(** A value with a blank in it is taken for an expression: UPDATE evaluates it
    without the CHECK constraints. *)
Lemma expression_skips_checks :
  contents (ex_update (str "p") [str "qty"] [str "qty - 9"] (str "id") (str "1") ex_db).2 "p" = texts [["1"; "-4"]; ["2"; "6"]] /\
  throws (ex_update (str "p") [str "qty"] [str "-4"] (str "id") (str "1") ex_db).1 = true.
Proof. vm_compute. split; reflexivity. Qed.

(** UPDATE without WHERE stores the text of an expression instead of its value. *)
Lemma update_all_stores_text :
  contents (ex_update_all (str "p") [str "id"] [str "id + 1"] ex_db).2 "p" = texts [["id + 1"; "5"]; ["id + 1"; "6"]].
Proof. vm_compute. reflexivity. Qed.

(** The operator of a single condition is not looked at. *)
Lemma operator_ignored :
  contents (ex_delete_conds (str "p") [cmp "id" GT "1"] AND ex_db).2 "p" = texts [["2"; "6"]] /\
  contents (ex_delete_conds (str "p") [cmp "id" GT "1"; cmp "id" GT "1"] AND ex_db).2 "p" = texts [["1"; "5"]].
Proof. vm_compute. split; reflexivity. Qed.

(** REPLACE and IGNORE keep the quotes that INSERT strips, and so miss the
    conflict with the same key. *)
Lemma upsert_keeps_quotes :
  contents (ex_replace (str "p") [str "'1'"; str "7"] ex_db).2 "p" = texts [["1"; "5"]; ["2"; "6"]; ["'1'"; "7"]] /\
  throws (ex_insert (str "p") [str "'1'"; str "7"] ex_db).1 = true.
Proof. vm_compute. split; reflexivity. Qed.

(** DELETE collects the rows for its triggers by the text of the condition,
    quotes included: with a quoted value the row goes and no trigger fires. *)
Definition guard : TriggerDef := mkTrigger BEFORE DELETE (str "p") (str "SIGNAL 'keep'") (str "ROW").

Lemma quoted_value_fires_no_trigger :
  let e := engine (ex_tables "CASCADE") {[str "guard" := guard]} ∅ in
  throws (ex_delete (str "p") (str "id") (str "1") e).1 = true /\
  contents (ex_delete (str "p") (str "id") (str "'1'") e).2 "p" = texts [["2"; "6"]].
Proof. vm_compute. split; reflexivity. Qed.

(** What a BEFORE UPDATE trigger sets is dropped; what a BEFORE INSERT trigger
    sets is stored unchecked. *)
Definition set_qty (event : bytes) : TriggerDef := mkTrigger BEFORE event (str "p") (str "SET NEW.qty = -1") (str "ROW").

Lemma trigger_values :
  let e event := engine (ex_tables "CASCADE") {[str "t" := set_qty event]} ∅ in
  contents (ex_update (str "p") [str "qty"] [str "8"] (str "id") (str "1") (e UPDATE)).2 "p" = texts [["1"; "8"]; ["2"; "6"]] /\
  contents (ex_insert (str "p") [str "3"; str "8"] (e INSERT)).2 "p" = texts [["1"; "5"]; ["2"; "6"]; ["3"; "-1"]].
Proof. vm_compute. split; reflexivity. Qed.

(** DELETE without WHERE on a partitioned table deletes nothing from the
    partitions. *)
Lemma delete_all_keeps_partitions :
  let e := engine {[str "p" := stored "p" ex_p [] []; str "p_a" := stored "p_a" ex_p [] [["1"; "5"]]]} ∅
             {[str "p" := mkPartitionInfo Partition.LIST (str "id") [] [] 0 true [str "p_a"]]} in
  contents (deleteAll (str "p") e).2 "p_a" = texts [["1"; "5"]].
Proof. vm_compute. reflexivity. Qed.

(** UPDATE computes generated columns after it has checked the values it sets, and
    does not check them. *)
Definition ex_generated : list Column :=
  [ column (str "id") (str "INT"); column (str "k") (str "INT");
    mkColumn (str "g") (str "INT") false false false [] false false [check_positive] true (str "k") true ].
Definition copy_second (e : bytes) (cs : list Column) (vs : list bytes) : bytes := default [] (vs !! 1).

Lemma generated_after_check :
  let e := engine {[str "p" := stored "p" ex_generated [] [["1"; "5"; "5"]]]} ∅ ∅ in
  contents (updateWhere no_regex (fun _ _ _ => true) copy_second print ex_clock 1 (str "p") [str "k"] [str "-2"] (str "id") (str "1") e).2 "p"
    = texts [["1"; "-2"; "-2"]] /\
  throws (insertRow no_regex (fun _ _ _ => true) copy_second (fun _ => true) ex_clock 1 (str "p") [str "2"; str "-2"; str "0"] e).1 = true.
Proof. vm_compute. split; reflexivity. Qed.

(** They are computed for the rows that satisfy the condition afterwards: a row whose
    column of the condition is itself set keeps the old value. *)
Lemma generated_stale :
  let e := engine {[str "p" := stored "p" ex_generated [] [["1"; "5"; "5"]]]} ∅ ∅ in
  contents (updateWhere no_regex (fun _ _ _ => true) copy_second print ex_clock 1 (str "p") [str "k"] [str "7"] (str "k") (str "5") e).2 "p"
    = texts [["1"; "7"; "5"]].
Proof. vm_compute. reflexivity. Qed.

(** A table lock of another thread stops INSERT and not UPDATE. *)
Lemma update_ignores_lock :
  let e := with_core (set_locks (Locks.acquireTableLock 2 (str "p") Locks.WRITE Locks.initial).2 (core ex_db)) ex_db in
  throws (ex_insert (str "p") [str "3"; str "8"] e).1 = true /\
  contents (ex_update (str "p") [str "qty"] [str "8"] (str "id") (str "1") e).2 "p" = texts [["1"; "8"]; ["2"; "6"]].
Proof. vm_compute. split; reflexivity. Qed.

(** In a transaction: an UPDATE with an expression and the cascades of a DELETE
    change the tables at once, and ROLLBACK does not undo them. *)
Definition in_transaction (e : Engine) : Engine := with_core (beginTransaction no_hash (str "db.wal") [] 5 (core e)).2 e.
Definition rolled_back (e : Engine) : Engine := with_core (rollbackTransaction 1 (core e)).2 e.

Lemma expression_escapes_transaction :
  contents (rolled_back (ex_update (str "p") [str "qty"] [str "qty + 1"] (str "id") (str "1") (in_transaction ex_db)).2) "p"
  = texts [["1"; "6"]; ["2"; "6"]].
Proof. vm_compute. reflexivity. Qed.

Lemma cascade_escapes_transaction :
  let e := rolled_back (ex_delete (str "p") (str "id") (str "1") (in_transaction ex_db)).2 in
  contents e "p" = texts [["1"; "5"]; ["2"; "6"]] /\ contents e "c" = texts [["2"]].
Proof. vm_compute. split; reflexivity. Qed.
End examples.
