(* ===== verification/References.v ===== *)
(** * Referential integrity

    Every reference has a target: INSERT keeps this, and so does DELETE where
    the tables that refer to the one deleted from are not themselves referred
    to.  The examples at the end show what breaks it. *)

From S2P Require Import Prelude Index BTree Partition Table Mvcc Locks Wal Transaction Joins Arith Where Select Columns Triggers Mutation Integrity.

(** Each foreign key value is NULL or occurs in the column it refers to. *)
Definition references_ok (e : Engine) : Prop :=
  forall n t fk i r v, tables e !! n = Some t -> fk ∈ foreignKeys_ t -> colOf t (fromCol fk) = Some i ->
    r ∈ rows_ t -> values r !! i = Some v -> v = NULL \/ has_parent e fk v = Ok true.

(** ** Names resolve by which tables there are *)

Lemma resolve_dom {T} (s : Session) (m m' : gmap bytes T) (n : bytes) :
  (forall k, is_Some (m !! k) <-> is_Some (m' !! k)) -> resolveTableName s m n = resolveTableName s m' n.
Proof.
  intros H. unfold resolveTableName.
  assert (forall k, bool_decide (is_Some (m !! k)) = bool_decide (is_Some (m' !! k))) as Hb
    by (intros k; apply bool_decide_ext, H).
  by rewrite !Hb.
Qed.

Lemma resolve_insert {T} (s : Session) (m : gmap bytes T) (k : bytes) (t : T) (n : bytes) :
  is_Some (m !! k) -> resolveTableName s (<[k := t]> m) n = resolveTableName s m n.
Proof.
  intros Hk. apply resolve_dom. intros j. destruct (decide (k = j)) as [<-|Hne].
  - by rewrite lookup_insert_eq.
  - by rewrite lookup_insert_ne.
Qed.

(** ** INSERT *)

Lemma appended_dom (m m' : gmap bytes (Table BTree)) : appended m m' -> forall k, is_Some (m !! k) <-> is_Some (m' !! k).
Proof. intros H k. specialize (H k). destruct (m !! k), (m' !! k); try done; split; by eexists || done. Qed.

Lemma has_parent_grows e e' fk v :
  session e' = session e -> appended (tables e) (tables e') -> has_parent e fk v = Ok true -> has_parent e' fk v = Ok true.
Proof.
  intros Hs Ha. unfold has_parent. rewrite Hs, <- (resolve_dom _ (tables e) (tables e')) by by apply appended_dom.
  set (k := resolveTableName _ _ _). specialize (Ha k). destruct (tables e !! k) as [t|]; [|done].
  destruct (tables e' !! k) as [t'|]; [|done]. destruct Ha as (Hc & _ & rs & Hr). unfold colOf. rewrite Hc, Hr.
  destruct (colOf_cols _ _) as [j|]; [|done]. intros [= H]. f_equal. by rewrite existsb_app, H.
Qed.

Lemma check_fks_ok e cs fks vals :
  check_fks e cs fks vals = Ok () ->
  forall fk i v, fk ∈ fks -> colOf_cols cs (fromCol fk) = Some i -> vals !! i = Some v -> v = NULL \/ has_parent e fk v = Ok true.
Proof.
  induction fks as [|fk' fks IH]; cbn [check_fks]; [intros _ ? ? ? ?%elem_of_nil; done|].
  intros H fk i v [->|Hin]%elem_of_cons Hi Hv.
  - rewrite Hi in H. cbn [mbind option_bind] in H. rewrite Hv in H. destruct (bytes_eqb v NULL) eqn:E.
    { left. by apply bool_decide_eq_true in E. }
    right. by destruct (has_parent e fk' v) as [[]|]; cbn [mbind result_bind] in H.
  - assert (check_fks e cs fks vals = Ok ()) as H'; [|by apply (IH H' fk i v)].
    destruct (colOf_cols cs (fromCol fk') ≫= _) as [w|]; [|done]. destruct (bytes_eqb w NULL); [done|].
    by destruct (has_parent e fk' w) as [[]|]; cbn [mbind result_bind] in H.
Qed.

Lemma references_grow e e' :
  session e' = session e -> appended (tables e) (tables e') -> references_ok e ->
  (forall n t t' rs, tables e !! n = Some t -> tables e' !! n = Some t' -> rows_ t' = rows_ t ++ rs ->
     forall fk i r v, r ∈ rs -> fk ∈ foreignKeys_ t -> colOf t (fromCol fk) = Some i -> values r !! i = Some v ->
       v = NULL \/ has_parent e fk v = Ok true) ->
  references_ok e'.
Proof.
  intros Hs Ha He Hnew n t' fk i r v Hn Hfk Hi Hr Hv. pose proof (Ha n) as Hg. rewrite Hn in Hg.
  destruct (tables e !! n) as [t|] eqn:Ht; [|done]. destruct Hg as (Hc & Hf & rs & Hrs).
  rewrite Hf in Hfk. unfold colOf in Hi. rewrite Hc in Hi.
  assert (v = NULL \/ has_parent e fk v = Ok true) as [->|H].
  - rewrite Hrs in Hr. apply elem_of_app in Hr as [Hr|Hr]; [by eapply (He n t)|by eapply (Hnew n t t' rs)].
  - by left.
  - right. by apply (has_parent_grows e e').
Qed.

Section insert.
Context {DB : Double}.
Context (regex_search : bytes -> bytes -> option bool).
Context (evaluateRlsExpr_ : bytes -> Row -> list bytes -> bool).
Context (evaluateGenExpr : bytes -> list Column -> list bytes -> bytes).
Context (isValidJson : bytes -> bool).
Context (clock : Clock) (thread : Z).

Abbreviation insertRow := (insertRow regex_search evaluateRlsExpr_ evaluateGenExpr isValidJson clock thread).

(** The values that are stored for an INSERT with [vals]. *)
Definition prepared (t : Table BTree) (vals : list bytes) : list bytes :=
  applyGeneratedCols evaluateGenExpr 0 (columns_ t) (columns_ t)
    (applyAutoInc (columns_ t) (map unquote (applyDefaults clock (columns_ t) vals)) t).1.

(** The engine after the counters of table [n] have moved on. *)
Definition counted (n : bytes) (t : Table BTree) (m : gmap bytes Z) (e : Engine) : Engine :=
  with_tables (<[n := with_autoInc t m]> (tables e)) e.

(** All checks on a row pass. *)
Record accepted (e : Engine) (n : bytes) (t : Table BTree) (vs : list bytes) : Prop := {
  acc_fks : check_fks e (columns_ t) (foreignKeys_ t) vs = Ok ();
  acc_checks : row_checked regex_search (columns_ t) vs;
  acc_json : checkJsonColumns isValidJson (columns_ t) vs = Ok ();
  acc_rls : checkRlsWithCheck_ evaluateRlsExpr_ e n (row_of vs) Mutation.INSERT = true }.

(** The two ways an INSERT ends well, and the ways it ends with an exception. *)
Definition inserted (tblRaw : bytes) (vals : list bytes) (e e' : Engine) : Prop :=
  let n := resolveTableName (session e) (tables e) tblRaw in
  exists t m, tables e !! n = Some t /\
    let e1 := counted n t m e in let vs := prepared t vals in
    accepted e1 n t vs /\
    if active (tx (core e))
    then e' = with_core (bufferOp (insert_op n vs) (core e1)) e1 /\ length vs = length (columns_ t)
    else exists t', insert_row (with_autoInc t m) (row_of vs) = Ok t' /\ e' = with_tables (<[n := t']> (tables e1)) e1.

Definition rejected (tblRaw : bytes) (e e' : Engine) : Prop :=
  let n := resolveTableName (session e) (tables e) tblRaw in
  e' = e \/ exists t m, tables e !! n = Some t /\ e' = counted n t m e.

Lemma wp_auto_increment_eq n vals (Q : list bytes -> Engine -> Prop) (X : Engine -> Prop) e :
  (forall t m, tables e !! n = Some t -> Q (applyAutoInc (columns_ t) vals t).1 (counted n t m e)) -> X e ->
  wp (auto_increment n vals) Q X e.
Proof. apply wp_auto_increment. Qed.

Lemma insertRow_wp tblRaw vals e :
  quiet e -> wp (insertRow tblRaw vals) (fun _ => inserted tblRaw vals e) (rejected tblRaw e) e.
Proof.
  intros Hq. assert (rejected tblRaw e e) as He by by left.
  unfold Mutation.insertRow. repeat wp_next. set (n := resolveTableName _ _ _) in *.
  apply wp_auto_increment_eq; [|done]. intros t' m Ht'. assert (t' = t) as -> by congruence. clear Ht'.
  set (e1 := counted n t m e). assert (rejected tblRaw e e1) as He1 by (right; by exists t, m).
  change (applyGeneratedCols evaluateGenExpr 0 (columns_ t) (columns_ t) _) with (prepared t vals).
  assert (tables e1 !! n = Some (with_autoInc t m)) as Hn by apply lookup_insert_eq.
  wp_next. apply wp_checkInsertFK; [|done]. rewrite Hn. intros _ [= <-] Hf. cbn [columns_ foreignKeys_ with_autoInc] in Hf.
  wp_next. wp_next. wp_next. wp_next. wp_next. wp_next. wp_next. wp_next. wp_next. apply wp_before; [done|].
  assert (accepted e1 n t (prepared t vals)) as Ha.
  { split; [done|by eapply checks_passed|by destruct a0|done]. }
  wp_next. wp_next. assert (active (tx (core e1)) = active (tx (core e))) as Etx by done. rewrite Etx.
  destruct (active (tx (core e))) eqn:Et.
  - wp_next. wp_next. wp_next. exists t, m. split; [done|]. cbv zeta. rewrite Et. split; [done|].
    split; [done|]. by apply Nat.eqb_eq.
  - wp_next. wp_next. assert (forall vs, route e1 n t vs = None) as ->.
    { intros vs. unfold route. assert (partitionMeta_ e1 = ∅) as -> by apply Hq. by rewrite lookup_empty. }
    wp_next. unfold insert_into. wp_step. apply wp_get_table. rewrite Hn. cbv iota. repeat wp_next.
    apply wp_after; [done|]. exists t, m. split; [done|]. cbv zeta. rewrite Et. split; [done|]. by eexists.
Qed.

Lemma counted_appended n t m e : tables e !! n = Some t -> appended (tables e) (tables (counted n t m e)).
Proof. intros Hn. apply (appended_insert _ n t); [done|]. split_and!; [done..|]. exists []. by rewrite app_nil_r. Qed.

Lemma references_counted n t m e : tables e !! n = Some t -> references_ok e -> references_ok (counted n t m e).
Proof.
  intros Hn He. apply (references_grow e); [done|by apply counted_appended|done|].
  intros k t0 t' rs Hk Hk' Hrs fk i r v Hr. exfalso. assert (rows_ t' = rows_ t0) as E.
  { destruct (decide (n = k)) as [<-|Hne].
    - unfold counted in Hk'. rewrite tables_with_tables, lookup_insert_eq in Hk'. injection Hk' as <-.
      by assert (t0 = t) as -> by congruence.
    - unfold counted in Hk'. rewrite tables_with_tables, lookup_insert_ne in Hk' by done. congruence. }
  rewrite E in Hrs. destruct rs; [by apply elem_of_nil in Hr|].
  apply (f_equal length) in Hrs. rewrite length_app in Hrs. simpl in Hrs. lia.
Qed.

Lemma references_inserted n t t1 vs e :
  tables e !! n = Some t -> insert_row t (row_of vs) = Ok t1 -> check_fks e (columns_ t) (foreignKeys_ t) vs = Ok () ->
  references_ok e -> references_ok (with_tables (<[n := t1]> (tables e)) e).
Proof.
  intros Hn Hi Hf He. apply insert_row_ok in Hi as (_ & _ & E).
  assert (grown t t1) as Hg by (rewrite E; split_and!; [done..|]; by eexists).
  apply (references_grow e); [done|by apply (appended_insert _ n t)|done|].
  intros k t0 t' rs Hk Hk' Hrs fk i r v Hr Hfk Hc Hv. rewrite tables_with_tables in Hk'.
  destruct (decide (n = k)) as [<-|Hne].
  - rewrite lookup_insert_eq in Hk'. injection Hk' as <-. assert (t0 = t) as -> by congruence.
    rewrite E in Hrs. cbn [rows_ with_indices with_rows] in Hrs. apply app_inv_head in Hrs as <-.
    apply list_elem_of_singleton in Hr as ->. by apply (check_fks_ok e (columns_ t) (foreignKeys_ t) vs Hf fk i v).
  - rewrite lookup_insert_ne in Hk' by done. assert (t' = t0) as -> by congruence.
    destruct rs; [by apply elem_of_nil in Hr|]. apply (f_equal length) in Hrs. rewrite length_app in Hrs. simpl in Hrs. lia.
Qed.
End insert.

(** [C8] What an INSERT does, without triggers and partitions.  If it returns,
    the values - completed with defaults, unquoted, numbered and computed -
    satisfied the foreign keys, the CHECK constraints, the JSON columns and
    row-level security, and the row was appended to its table, or buffered
    inside a transaction.  If it throws, no table has another row than before:
    at most the AUTO_INCREMENT counters of the table have moved. *)
Theorem insertRow_spec `{DB : Double} regex_search evaluateRlsExpr_ evaluateGenExpr isValidJson clock thread tblRaw vals e :
  quiet e ->
  match insertRow regex_search evaluateRlsExpr_ evaluateGenExpr isValidJson clock thread tblRaw vals e with
  | (Ok _, e') => inserted regex_search evaluateRlsExpr_ evaluateGenExpr isValidJson clock tblRaw vals e e'
  | (Throw _, e') => rejected tblRaw e e'
  end.
Proof.
  intros Hq.
  pose proof (insertRow_wp regex_search evaluateRlsExpr_ evaluateGenExpr isValidJson clock thread tblRaw vals e Hq) as H.
  unfold wp in H. by destruct (insertRow _ _ _ _ _ _ _ _ _) as [[]].
Qed.

(** [C12] INSERT keeps referential integrity, whether it returns or throws, in a
    database without triggers and partitions ([quiet]): what a BEFORE INSERT
    trigger sets is stored unchecked ([Integrity.trigger_values]). *)
Theorem insert_keeps_references `{DB : Double} regex_search evaluateRlsExpr_ evaluateGenExpr isValidJson clock thread
    tblRaw vals e :
  quiet e -> references_ok e ->
  references_ok (insertRow regex_search evaluateRlsExpr_ evaluateGenExpr isValidJson clock thread tblRaw vals e).2.
Proof.
  intros Hq He. apply (wp_state _ references_ok). eapply wp_mono; [by apply insertRow_wp| |].
  - intros _ e' (t & m & Hn & Ha & H). set (n := resolveTableName _ _ _) in *. set (e1 := counted n t m e) in *.
    assert (references_ok e1) as He1 by by apply references_counted.
    destruct (active (tx (core e))).
    + destruct H as [-> _]. intros k t0 fk i r v Hk. unfold has_parent.
      assert (forall op c, Transaction.tables_ (bufferOp (tree := BTree) op c) = Transaction.tables_ c) as Eb
        by (intros op c; unfold bufferOp, append_file; by destruct (bool_decide _)).
      unfold tables in *. cbn [core with_core session] in *. rewrite Eb in *. by apply (He1 k t0).
    + destruct H as (t' & Hi & ->). eapply (references_inserted n (with_autoInc t m)); [apply lookup_insert_eq|done| |done].
      apply Ha.
  - intros e' [->|(t & m & Hn & ->)]; [done|by apply references_counted].
Qed.

(** ** DELETE *)

(** [t'] has rows of [t] with some values replaced by NULL. *)
Definition thinner (t t' : Table BTree) : Prop :=
  columns_ t' = columns_ t /\ foreignKeys_ t' = foreignKeys_ t /\
  forall r', r' ∈ rows_ t' -> exists r, r ∈ rows_ t /\ forall i v, values r' !! i = Some v -> v = NULL \/ values r !! i = Some v.

Lemma thinner_refl t : thinner t t.
Proof. split_and!; [done..|]. intros r Hr. exists r. auto. Qed.

Lemma thinner_trans t1 t2 t3 : thinner t1 t2 -> thinner t2 t3 -> thinner t1 t3.
Proof.
  intros (A1 & A2 & A3) (B1 & B2 & B3). split_and!; [congruence..|]. intros r3 (r2 & H2 & V2)%B3.
  destruct (A3 r2 H2) as (r1 & H1 & V1). exists r1. split; [done|]. intros i v [->|Hv]%V2; [by left|by apply V1].
Qed.

Lemma thinner_delete i v t : thinner t (Table.deleteWhere i v t).2.
Proof.
  unfold Table.deleteWhere, erase_rows. cbn [snd].
  assert (forall rs, (forall r, r ∈ rs -> r ∈ rows_ t) -> thinner t (with_rows t rs)) as H.
  { intros rs Hs. split_and!; [done..|]. intros r Hr. exists r. auto. }
  destruct (_ =? 0); apply H; intros r Hr; apply list_elem_of_In, filter_In in Hr as [Hr _]; by apply list_elem_of_In.
Qed.

Lemma thinner_null i v t : thinner t (Table.updateWhere i NULL i v t).2.
Proof.
  unfold Table.updateWhere, update_rows. cbn [snd].
  assert (thinner t (with_rows t (map (fun r => if where_matches i v r then set_values r (<[i := NULL]> (values r)) else r) (rows_ t)))).
  { split_and!; [done..|]. intros r' (r & <- & Hr)%list_elem_of_In%in_map_iff. apply list_elem_of_In in Hr. exists r.
    split; [done|]. destruct (where_matches i v r); [|auto]. intros j w Hw. cbn [values set_values] in Hw.
    destruct (decide (i = j)) as [<-|Hne]; [|right; by rewrite list_lookup_insert_ne in Hw].
    apply list_lookup_insert_Some in Hw as [(_ & -> & _)|[? _]]; [by left|done]. }
  by destruct (_ =? 0).
Qed.

(** After the action no row of the child has the value. *)
Lemma deleted_value i v t r : r ∈ rows_ (Table.deleteWhere i v t).2 -> values r !! i <> Some v.
Proof.
  intros Hr Hv. assert (r ∈ List.filter (fun r => negb (where_matches i v r)) (rows_ t)) as H.
  { unfold Table.deleteWhere, erase_rows in Hr. cbn [snd] in Hr. by destruct (_ =? 0). }
  apply list_elem_of_In, filter_In in H as [_ H]. unfold where_matches in H. rewrite Hv in H.
  unfold bytes_eqb in H. by rewrite (bool_decide_eq_true_2 (v = v)) in H.
Qed.

Lemma nulled_value i v t r : v <> NULL -> r ∈ rows_ (Table.updateWhere i NULL i v t).2 -> values r !! i <> Some v.
Proof.
  intros Hne Hr Hv.
  assert (r ∈ map (fun r => if where_matches i v r then set_values r (<[i := NULL]> (values r)) else r) (rows_ t)) as H.
  { unfold Table.updateWhere, update_rows in Hr. cbn [snd] in Hr. by destruct (_ =? 0). }
  apply list_elem_of_In, in_map_iff in H as (r0 & <- & _). destruct (where_matches i v r0) eqn:E.
  - cbn [values set_values] in Hv. apply list_lookup_insert_Some in Hv as [(_ & Hv & _)|[? _]]; [by apply Hne|done].
  - unfold where_matches in E. rewrite Hv in E. unfold bytes_eqb in E. by rewrite (bool_decide_eq_true_2 (v = v)) in E.
Qed.

(** One of the three actions is declared. *)
Definition known_action (fk : ForeignKeyDef) : Prop :=
  onDelete fk = RESTRICT \/ onDelete fk = CASCADE \/ onDelete fk = SET_NULL.

Section delete.
Context {DB : Double}.
Context (evaluateRlsExpr_ : bytes -> Row -> list bytes -> bool).
Context (clock : Clock) (thread : Z).
(** The table that is deleted from, and its columns. *)
Context (tbl : bytes) (pcs : list Column).

(** The table has a foreign key to [tbl]. *)
Definition refers (t : Table BTree) : Prop := exists fk, fk ∈ foreignKeys_ t /\ tblNamesMatch (refTable fk) tbl = true.

(** Only tables that refer to [tbl] have lost rows or values. *)
Definition thinned (e e' : Engine) : Prop :=
  e' = with_tables (tables e') e /\
  forall n, match tables e !! n, tables e' !! n with
            | Some t, Some t' => thinner t t' /\ (n = tbl \/ ~ refers t -> t' = t)
            | None, None => True
            | _, _ => False
            end.

Lemma thinned_refl e : thinned e e.
Proof.
  split; [by rewrite with_tables_id|]. intros n. destruct (tables e !! n); [|done]. split; [apply thinner_refl|done].
Qed.

Lemma refers_thinner t t' : thinner t t' -> refers t' <-> refers t.
Proof. intros (_ & H & _). unfold refers. by rewrite H. Qed.

Lemma thinned_trans a b c : thinned a b -> thinned b c -> thinned a c.
Proof.
  intros [A1 A2] [B1 B2]. split; [rewrite B1; by rewrite A1|]. intros n. specialize (A2 n). specialize (B2 n).
  destruct (tables a !! n) as [t|], (tables b !! n) as [t'|], (tables c !! n) as [t''|]; try done.
  destruct A2 as [A2 A3], B2 as [B2 B3]. split; [by eapply thinner_trans|]. intros H.
  transitivity t'; [|by apply A3]. apply B3. destruct H as [H|H]; [by left|right]. by rewrite (refers_thinner t t').
Qed.

Lemma thinned_put e n t t' :
  tables e !! n = Some t -> thinner t t' -> n <> tbl -> refers t -> thinned e (with_tables (<[n := t']> (tables e)) e).
Proof.
  intros Hn Ht Hne Hr. split; [done|]. intros k. rewrite tables_with_tables. destruct (decide (n = k)) as [<-|Hk].
  - rewrite Hn, lookup_insert_eq. split; [done|]. by intros [?|?].
  - rewrite lookup_insert_ne by done. destruct (tables e !! k); [|done]. split; [apply thinner_refl|done].
Qed.

(** No row refers to [prow] through [fk] any more. *)
Definition released (prow : Row) (n : bytes) (fk : ForeignKeyDef) (e : Engine) : Prop :=
  forall t i j v, tables e !! n = Some t -> tblNamesMatch (refTable fk) tbl = true -> known_action fk ->
    colOf_cols pcs (refCol fk) = Some j -> values prow !! j = Some v -> v <> NULL -> colOf t (fromCol fk) = Some i ->
    forall r, r ∈ rows_ t -> values r !! i <> Some v.

Lemma released_thinned prow n fk e e' : thinned e e' -> released prow n fk e -> released prow n fk e'.
Proof.
  intros [_ H] Hr t' i j v Hn Hm Hk Hj Hv Hne Hi r' Hin' Hr'. specialize (H n). rewrite Hn in H.
  destruct (tables e !! n) as [t|] eqn:Ht; [|done]. destruct H as [(Hc & _ & Hrows) _].
  destruct (Hrows r' Hin') as (r & Hin & Hvals). unfold colOf in Hi. rewrite Hc in Hi.
  destruct (Hvals i v Hr') as [->|Hrv]; [done|]. by apply (Hr t i j v Ht Hm Hk Hj Hv Hne Hi r Hin).
Qed.

Lemma cascade_fk_spec prow n fk t e :
  n <> tbl -> tables e !! n = Some t -> fk ∈ foreignKeys_ t ->
  wp (cascade_fk tbl pcs prow n fk) (fun _ e' => thinned e e' /\ released prow n fk e') (thinned e) e.
Proof.
  intros Hn Ht Hfk. assert (thinned e e) as Hrefl by apply thinned_refl.
  unfold cascade_fk. wp_step. apply wp_get_table. rewrite Ht. cbv iota.
  destruct (tblNamesMatch (refTable fk) tbl) eqn:Hm; cbn [negb].
  2:{ apply wp_ret. split; [done|]. intros t' i j v _ ?. congruence. }
  assert (refers t) as Href by by exists fk.
  destruct (colOf_cols pcs (refCol fk) ≫= (values prow !!.)) as [v|] eqn:Hv.
  2:{ apply wp_ret. split; [done|]. intros t' i j w _ _ _ Hj Hw. rewrite Hj in Hv. cbn [mbind option_bind] in Hv. congruence. }
  destruct (colOf t (fromCol fk)) as [i|] eqn:Hi.
  2:{ apply wp_ret. split; [done|]. intros t' i j w Ht' _ _ _ _ _ Hi'. congruence. }
  assert (forall e' t', tables e' !! n = Some t' -> thinner t t' ->
            (v <> NULL -> known_action fk -> forall r, r ∈ rows_ t' -> values r !! i <> Some v) -> released prow n fk e') as Hrel.
  { intros e' t' Hn' (Hc & _ & _) H t'' i' j w Ht'' _ Hk Hj Hw Hne Hi'. assert (t'' = t') as -> by congruence.
    unfold colOf in Hi'. rewrite Hc in Hi'. unfold colOf in Hi. assert (i' = i) as -> by congruence.
    rewrite Hj in Hv. cbn [mbind option_bind] in Hv. assert (w = v) as -> by congruence. by apply H. }
  destruct (bytes_eqb v NULL) eqn:En.
  { apply wp_ret. split; [done|]. apply (Hrel e t Ht (thinner_refl t)). intros Hne. by apply bool_decide_eq_true in En. }
  assert (v <> NULL) as Hne by (by apply bool_decide_eq_false in En).
  destruct (bytes_eqb (onDelete fk) RESTRICT) eqn:Er.
  { wp_step; [|done]. split; [done|]. apply (Hrel e t Ht (thinner_refl t)). intros _ _ r Hr Hrv.
    apply negb_true_iff in H. rewrite <- not_true_iff_false, existsb_exists in H. apply H. exists r.
    split; [by apply list_elem_of_In|by apply bool_decide_eq_true]. }
  destruct (bytes_eqb (onDelete fk) CASCADE) eqn:Ec.
  { wp_step. pose proof (thinner_delete i v t) as Hth. split; [by apply (thinned_put e n t)|].
    eapply Hrel; [apply lookup_insert_eq|done|]. intros _ _ r. apply deleted_value. }
  destruct (bytes_eqb (onDelete fk) SET_NULL) eqn:Es.
  { wp_step. pose proof (thinner_null i v t) as Hth. split; [by apply (thinned_put e n t)|].
    eapply Hrel; [apply lookup_insert_eq|done|]. intros _ _ r. by apply nulled_value. }
  apply wp_ret. split; [done|]. apply (Hrel e t Ht (thinner_refl t)). intros _ [Hk|[Hk|Hk]]; rewrite Hk in *; done.
Qed.

Definition released_all (prow : Row) (n : bytes) (e : Engine) : Prop :=
  forall t fk, tables e !! n = Some t -> fk ∈ foreignKeys_ t -> released prow n fk e.

Lemma thinned_lookup e e' n t' :
  thinned e e' -> tables e' !! n = Some t' -> exists t, tables e !! n = Some t /\ thinner t t' /\ (n = tbl \/ ~ refers t -> t' = t).
Proof. intros [_ H] Hn. specialize (H n). rewrite Hn in H. destruct (tables e !! n) as [t|]; [|done]. by exists t. Qed.

Lemma thinned_lookup_back e e' n t :
  thinned e e' -> tables e !! n = Some t -> exists t', tables e' !! n = Some t' /\ thinner t t' /\ (n = tbl \/ ~ refers t -> t' = t).
Proof. intros [_ H] Hn. specialize (H n). rewrite Hn in H. destruct (tables e' !! n) as [t'|]; [|done]. by exists t'. Qed.

Lemma released_all_thinned prow n e e' : thinned e e' -> released_all prow n e -> released_all prow n e'.
Proof.
  intros H Hr t' fk Hn Hfk. destruct (thinned_lookup e e' n t' H Hn) as (t & Ht & (_ & Hf & _) & _).
  apply (released_thinned prow n fk e e' H). apply (Hr t); [done|]. by rewrite <- Hf.
Qed.

Lemma cascade_child_spec prow n e :
  wp (cascade_child tbl pcs prow n) (fun _ e' => thinned e e' /\ (n <> tbl -> released_all prow n e')) (thinned e) e.
Proof.
  unfold cascade_child. destruct (bytes_eqb n tbl) eqn:En.
  { apply wp_ret. split; [apply thinned_refl|]. intros Hne. by apply bool_decide_eq_true in En. }
  apply bool_decide_eq_false in En. wp_step. wp_step; [|apply thinned_refl]. eapply wp_mono.
  - apply (wp_for_each _ thinned (released prow n) (thinned e)).
    + apply thinned_refl.
    + apply thinned_trans.
    + intros fk a b. apply released_thinned.
    + intros fk e1 Hfk H1. destruct (thinned_lookup_back e e1 n t H1 Heqo) as (t1 & Ht1 & (_ & Hf & _) & _).
      eapply wp_mono; [apply (cascade_fk_spec prow n fk t1 e1 En Ht1); by rewrite Hf|done|].
      intros e2 H2. by eapply thinned_trans.
  - intros _ e' [H1 H2]. split; [done|]. intros _ t' fk Ht' Hfk. apply H2.
    destruct (thinned_lookup e e' n t' H1 Ht') as (t0 & Ht0 & (_ & Hf & _) & _).
    assert (t0 = t) as -> by congruence. by rewrite <- Hf.
  - done.
Qed.

(** Nothing but rows of [tbl] itself may still refer to the row. *)
Definition row_released (prow : Row) (e : Engine) : Prop := forall n, n <> tbl -> released_all prow n e.

Lemma cascadeDelete_spec prow e t :
  tables e !! tbl = Some t -> columns_ t = pcs ->
  wp (cascadeDelete tbl prow) (fun _ e' => thinned e e' /\ row_released prow e') (thinned e) e.
Proof.
  intros Ht Hc. unfold cascadeDelete. wp_step. apply wp_get_table. rewrite Ht. cbv iota. wp_step. wp_step. rewrite Hc.
  eapply wp_mono.
  - apply (wp_for_each _ thinned (fun n e => n <> tbl -> released_all prow n e) (thinned e)).
    + apply thinned_refl.
    + apply thinned_trans.
    + intros n a b H1 H2 Hne. by eapply released_all_thinned; [|apply H2].
    + intros n e1 _ H1. eapply wp_mono; [apply cascade_child_spec|done|]. intros e2 H2. by eapply thinned_trans.
  - intros _ e' [H1 H2]. split; [done|]. intros n Hne t' fk Ht' Hfk.
    destruct (thinned_lookup e e' n t' H1 Ht') as (t0 & Ht0 & _).
    assert (released_all prow n e') as Hra; [|by apply (Hra t')]. apply H2; [|done]. apply list_elem_of_fmap. exists (n, t0). split; [done|]. by apply elem_of_map_iter.
  - done.
Qed.

(** The cascades for all rows that go. *)
Lemma cascades_spec rs e t :
  tables e !! tbl = Some t -> columns_ t = pcs ->
  wp (for_each (cascadeDelete tbl) rs) (fun _ e' => thinned e e' /\ forall r, r ∈ rs -> row_released r e') (thinned e) e.
Proof.
  intros Ht Hc. apply (wp_for_each _ thinned row_released (thinned e)).
  - apply thinned_refl.
  - apply thinned_trans.
  - intros r a b H1 H2 n Hn. eapply released_all_thinned; [done|by apply H2].
  - intros r e1 _ H1. destruct (thinned_lookup_back e e1 tbl t H1 Ht) as (t1 & Ht1 & _ & Heq).
    rewrite Heq in Ht1 by by left. eapply wp_mono; [by apply (cascadeDelete_spec r e1 t)|done|].
    intros e2 H2. by eapply thinned_trans.
Qed.

(** *** The tables that refer to [tbl] are leaves *)

Definition target (e : Engine) (fk : ForeignKeyDef) : bytes := resolveTableName (session e) (tables e) (refTable fk).

Record leaves (e : Engine) : Prop := {
  l_self : forall t fk, tables e !! tbl = Some t -> fk ∈ foreignKeys_ t -> target e fk <> tbl;
  l_names : forall n t fk, tables e !! n = Some t -> fk ∈ foreignKeys_ t -> target e fk = tbl ->
    tblNamesMatch (refTable fk) tbl = true /\ known_action fk;
  l_flat : forall n t n' t' fk, tables e !! n = Some t -> refers t -> n <> tbl -> tables e !! n' = Some t' ->
    fk ∈ foreignKeys_ t' -> target e fk <> n }.

Lemma thinned_dom e e' k : thinned e e' -> is_Some (tables e !! k) <-> is_Some (tables e' !! k).
Proof. intros [_ H]. specialize (H k). destruct (tables e !! k), (tables e' !! k); try done; split; by eexists || done. Qed.

Lemma thinned_session e e' : thinned e e' -> session e' = session e.
Proof. intros [-> _]. done. Qed.

Lemma target_thinned e e' fk : thinned e e' -> target e' fk = target e fk.
Proof.
  intros H. unfold target. rewrite (thinned_session e e' H). symmetry. apply resolve_dom. intros k. by apply thinned_dom.
Qed.

(** A table that is referred to keeps its rows. *)
Lemma parent_kept e e' n t fk v :
  leaves e -> thinned e e' -> tables e !! n = Some t -> fk ∈ foreignKeys_ t ->
  has_parent e fk v = Ok true -> has_parent e' fk v = Ok true.
Proof.
  intros L H Hn Hfk. unfold has_parent. fold (target e fk) (target e' fk). rewrite (target_thinned e e' fk H).
  destruct (tables e !! target e fk) as [p|] eqn:Hp; [|done].
  destruct (thinned_lookup_back e e' _ p H Hp) as (p' & -> & _ & Heq). rewrite Heq; [done|].
  destruct (decide (target e fk = tbl)) as [->|Hne]; [by left|]. right. intros Hr.
  by apply (l_flat e L (target e fk) p n t fk).
Qed.

Lemma references_thinned e e' : leaves e -> thinned e e' -> references_ok e -> references_ok e'.
Proof.
  intros L H He n t' fk i r' v Hn Hfk Hi Hr Hv. destruct (thinned_lookup e e' n t' H Hn) as (t & Ht & (Hc & Hf & Hrows) & _).
  rewrite Hf in Hfk. unfold colOf in Hi. rewrite Hc in Hi. destruct (Hrows r' Hr) as (r & Hin & Hvals).
  destruct (Hvals i v Hv) as [->|Hrv]; [by left|].
  destruct (He n t fk i r v Ht Hfk Hi Hin Hrv) as [->|Hp]; [by left|right]. by eapply parent_kept.
Qed.

(** After the cascades the rows [p] selects may go. *)
Lemma references_erased e e' p t t' :
  leaves e -> references_ok e -> thinned e e' -> tables e !! tbl = Some t -> columns_ t = pcs ->
  (forall r, r ∈ rows_ t -> p r = true -> row_released r e') ->
  columns_ t' = columns_ t -> foreignKeys_ t' = foreignKeys_ t -> rows_ t' = List.filter (fun r => negb (p r)) (rows_ t) ->
  references_ok (with_tables (<[tbl := t']> (tables e')) e').
Proof.
  intros L He H Ht Hpcs Hrel Hc Hf Hrows. set (e2 := with_tables _ e'). pose proof (references_thinned e e' L H He) as He'.
  assert (tables e' !! tbl = Some t) as Ht'.
  { destruct (thinned_lookup_back e e' tbl t H Ht) as (t1 & Ht1 & _ & Heq). rewrite Heq in Ht1 by by left. done. }
  assert (forall fk, target e2 fk = target e fk) as Htar.
  { intros fk. rewrite <- (target_thinned e e' fk H). unfold target, e2. rewrite tables_with_tables. by apply resolve_insert. }
  assert (forall fk v, target e fk <> tbl -> has_parent e' fk v = Ok true -> has_parent e2 fk v = Ok true) as Hother.
  { intros fk v Hne. unfold has_parent. fold (target e' fk) (target e2 fk).
    rewrite Htar, (target_thinned e e' fk H). unfold e2. by rewrite tables_with_tables, lookup_insert_ne. }
  intros n t2 fk i r v Hn Hfk Hi Hr Hv. destruct (decide (n = tbl)) as [->|Hne].
  - unfold e2 in Hn. rewrite tables_with_tables, lookup_insert_eq in Hn. injection Hn as <-.
    rewrite Hf in Hfk. unfold colOf in Hi. rewrite Hc in Hi. rewrite Hrows in Hr.
    apply list_elem_of_In, filter_In in Hr as [Hr _]. apply list_elem_of_In in Hr.
    destruct (He' tbl t fk i r v Ht' Hfk Hi Hr Hv) as [->|Hp]; [by left|right]. apply Hother; [|done].
    by apply (l_self e L t fk Ht).
  - unfold e2 in Hn. rewrite tables_with_tables, lookup_insert_ne in Hn by done.
    destruct (He' n t2 fk i r v Hn Hfk Hi Hr Hv) as [->|Hp]; [by left|].
    destruct (decide (target e fk = tbl)) as [Etar|Htne]; [|right; by apply Hother].
    destruct (thinned_lookup e e' n t2 H Hn) as (t0 & Ht0 & (_ & Hf0 & _) & _).
    destruct (decide (v = NULL)) as [->|Hvne]; [by left|right]. destruct (l_names e L n t0 fk Ht0) as [Hm Hk]; [by rewrite <- Hf0|done|].
    unfold has_parent in *. fold (target e' fk) in Hp. fold (target e2 fk).
    rewrite (target_thinned e e' fk H), Etar, Ht' in Hp. rewrite Htar, Etar. unfold e2. rewrite tables_with_tables, lookup_insert_eq.
    unfold colOf in *. rewrite Hc, Hrows. destruct (colOf_cols (columns_ t) (refCol fk)) as [j|] eqn:Ej; [|done].
    injection Hp as Hp. f_equal. rewrite existsb_exists in Hp |- *. destruct Hp as (pr & Hin & Hpv%bool_decide_eq_true).
    exists pr. split; [|by apply bool_decide_eq_true]. apply filter_In. split; [done|].
    destruct (p pr) eqn:Epr; [|done]. exfalso. apply list_elem_of_In in Hin.
    eapply (Hrel pr Hin Epr n Hne t2 fk Hn Hfk t2 i j v); try done. by rewrite <- Hpcs.
Qed.
End delete.

Section keeps.
Context {DB : Double}.
Context (evaluateRlsExpr_ : bytes -> Row -> list bytes -> bool).
Context (clock : Clock) (thread : Z).

Lemma quiet_thinned tbl e e' : thinned tbl e e' -> quiet e -> quiet e'.
Proof. intros [-> _]. done. Qed.

Lemma references_core e c : Transaction.tables_ c = tables e -> references_ok e -> references_ok (with_core c e).
Proof.
  intros Hc He n t fk i r v. unfold has_parent, tables in *. cbn [core with_core session]. rewrite Hc. apply He.
Qed.

Lemma references_buffer e op : references_ok e -> references_ok (with_core (bufferOp op (core e)) e).
Proof. apply references_core. unfold bufferOp, append_file. by destruct (bool_decide _). Qed.

Lemma references_add_dead n k e :
  references_ok e -> quiet e -> wp (add_dead n k) (fun _ e' => references_ok e' /\ quiet e') references_ok e.
Proof. intros He Hq. unfold add_dead. by repeat wp_next. Qed.

(** Row triggers that do not exist leave the engine as it is. *)
Lemma wp_quiet_deletes (f : list bytes -> M ()) old e :
  (forall o, wp (f o) (fun _ e' => e' = e) (fun e' => e' = e) e) ->
  wp (fire_deletes f old) (fun _ e' => e' = e) (fun e' => e' = e) e.
Proof. intros Hf. apply wp_fire_deletes; [|done]. intros o e' ->. apply Hf. Qed.

Lemma delete_rows_references n wCol wVal e :
  quiet e -> leaves n e -> references_ok e ->
  wp (delete_rows evaluateRlsExpr_ clock thread n wCol wVal) (fun _ => references_ok) references_ok e.
Proof.
  intros Hq L He. assert (forall e1, thinned n e e1 -> references_ok e1) as Hthin by (intros; by eapply references_thinned).
  unfold delete_rows. repeat wp_next.
  eapply wp_mono; [by apply (cascades_spec n (columns_ t) _ e t)| |done]. intros [] e1 [H1 H2].
  assert (quiet e1) as Hq1 by by eapply quiet_thinned. assert (references_ok e1) as He1 by by apply Hthin.
  destruct (thinned_lookup_back n e e1 n t H1 Heqo) as (t1 & Ht1 & _ & Heq). rewrite Heq in Ht1 by by left. clear Heq.
  wp_next. apply wp_get_table. rewrite Ht1. cbv iota. wp_next.
  eapply wp_mono; [apply wp_quiet_deletes; intros o; unfold before_delete; wp_step; by apply wp_before| |by intros ? ->].
  intros [] e2 ->. repeat wp_next; [by apply references_buffer|]. assert (t0 = t) as -> by congruence.
  unfold Table.deleteWhere. destruct (erase_rows _ _) as [k t'] eqn:Ee. repeat wp_next.
  eapply wp_mono; [apply references_add_dead; [|done]| |done].
  - unfold erase_rows in Ee. injection Ee as _ <-.
    apply (references_erased n (columns_ t) e e1 (where_matches a wVal) t); try done; try (by destruct (_ =? 0)).
    intros r Hr Hw. apply H2, list_elem_of_In, filter_In. split; [by apply list_elem_of_In|done].
  - intros [] e3 [He3 Hq3]. repeat wp_next.
    eapply wp_mono; [apply wp_quiet_deletes; intros o; by apply wp_after|by intros [] ? ->|by intros ? ->].
Qed.

End keeps.

(** [C7] DELETE with a condition on one column keeps referential integrity, whether it
    returns or throws half way through its cascades, in a database without
    triggers and partitions ([quiet]) and for a table of this shape ([leaves]): no
    table that refers to it is itself referred to ([grandchild_dangles]), it does
    not refer to itself ([self_reference_dangles]), every foreign key on it
    declares RESTRICT, CASCADE or SET NULL ([no_action_dangles]), and the two
    lookups understand the names in the foreign keys alike. *)
Theorem delete_keeps_references `{DB : Double} evaluateRlsExpr_ clock thread fuel tblRaw wCol wVal e :
  quiet e -> leaves (resolveTableName (session e) (tables e) tblRaw) e -> references_ok e ->
  references_ok (deleteWhere evaluateRlsExpr_ clock thread fuel tblRaw wCol wVal e).2.
Proof.
  intros Hq L He. apply (wp_state _ references_ok). apply wp_deleteWhere; [done|]. by apply delete_rows_references.
Qed.

(** ** Examples *)

Section examples.
#[local] Existing Instance IntDouble.

Abbreviation ex_insert := (insertRow no_regex (fun _ _ _ => true) no_gen (fun _ => true) ex_clock 1).
Abbreviation ex_update := (updateWhere no_regex (fun _ _ _ => true) no_gen print ex_clock 1).
Abbreviation ex_delete := (deleteWhere (fun _ _ _ => true) ex_clock 1 3).

(** [p] with two rows and [c] that refers to both. *)
Definition family (action : string) : Engine :=
  engine {[ str "p" := stored "p" ex_p [] [["1"; "5"]; ["2"; "6"]];
            str "c" := stored "c" ex_c [fk_c action] [["1"]; ["2"]] ]} ∅ ∅.

Lemma family_lookup action n t :
  tables (family action) !! n = Some t ->
  (n = str "p" /\ t = stored "p" ex_p [] [["1"; "5"]; ["2"; "6"]]) \/
  (n = str "c" /\ t = stored "c" ex_c [fk_c action] [["1"]; ["2"]]).
Proof.
  intros H. unfold family, engine, tables in H. cbn [core Transaction.tables_] in H.
  apply lookup_insert_Some in H as [[<- <-]|[_ H]]; [by left|].
  apply lookup_singleton_Some in H as [<- <-]. by right.
Qed.

Lemma family_fk action n t fk :
  tables (family action) !! n = Some t -> fk ∈ foreignKeys_ t ->
  n = str "c" /\ t = stored "c" ex_c [fk_c action] [["1"]; ["2"]] /\ fk = fk_c action.
Proof.
  intros [[_ ->]|[-> ->]]%family_lookup Hfk; [by apply elem_of_nil in Hfk|].
  by apply list_elem_of_singleton in Hfk as ->.
Qed.

Lemma family_references action : references_ok (family action).
Proof.
  intros n t fk i r v Hn Hfk Hi Hr Hv. destruct (family_fk action n t fk Hn Hfk) as (-> & -> & ->). right.
  vm_compute in Hi. injection Hi as <-. apply list_elem_of_In in Hr as [<-|[<-|[]]]; injection Hv as <-; by vm_compute.
Qed.

Lemma family_leaves : leaves (str "p") (family "CASCADE").
Proof.
  split.
  - intros t fk Hn Hfk. by destruct (family_fk "CASCADE" _ t fk Hn Hfk) as (? & _).
  - intros n t fk Hn Hfk _. destruct (family_fk "CASCADE" n t fk Hn Hfk) as (-> & -> & ->).
    split; [by vm_compute|]. right; left. by vm_compute.
  - intros n t n' t' fk Hn _ Hne Hn' Hfk. destruct (family_fk "CASCADE" n' t' fk Hn' Hfk) as (-> & -> & ->).
    apply family_lookup in Hn as [[-> _]|[-> _]]; [done|]. intros H. vm_compute in H. discriminate.
Qed.

Lemma delete_keeps_references_witness :
  let e := (ex_delete (str "p") (str "id") (str "1") (family "CASCADE")).2 in
  contents e "p" = texts [["2"; "6"]] /\ contents e "c" = texts [["2"]] /\ references_ok e.
Proof.
  split; [by vm_compute|]. split; [by vm_compute|].
  apply (delete_keeps_references (fun _ _ _ => true) ex_clock 1 3 (str "p") (str "id") (str "1") (family "CASCADE")).
  - done.
  - exact family_leaves.
  - apply family_references.
Defined.

Lemma insert_keeps_references_witness :
  let e := (ex_insert (str "c") [str "1"] (family "CASCADE")).2 in
  contents e "c" = texts [["1"]; ["2"]; ["1"]] /\
  contents (ex_insert (str "c") [str "3"] (family "CASCADE")).2 "c" = texts [["1"]; ["2"]] /\ references_ok e.
Proof.
  split; [by vm_compute|]. split; [by vm_compute|].
  apply (insert_keeps_references no_regex (fun _ _ _ => true) no_gen (fun _ => true) ex_clock 1 (str "c") [str "1"]
    (family "CASCADE")); [done|apply family_references].
Defined.

Lemma insertRow_spec_witness :
  inserted no_regex (fun _ _ _ => true) no_gen (fun _ => true) ex_clock (str "c") [str "1"] (family "CASCADE")
    (ex_insert (str "c") [str "1"] (family "CASCADE")).2.
Proof.
  pose proof (insertRow_spec no_regex (fun _ _ _ => true) no_gen (fun _ => true) ex_clock 1 (str "c") [str "1"]
    (family "CASCADE") ltac:(done)) as H.
  assert (throws (ex_insert (str "c") [str "1"] (family "CASCADE")).1 = false) as Ht by by vm_compute.
  destruct (ex_insert (str "c") [str "1"] (family "CASCADE")) as [[u|s] e]; [exact H|discriminate].
Defined.

(** ** What breaks references *)

(** The rows that a cascade deletes have no cascade of their own. *)
Lemma grandchild_dangles :
  let e := (ex_delete (str "p") (str "id") (str "1") ex_db).2 in
  contents e "c" = texts [["2"]] /\ contents e "g" = texts [["1"]].
Proof. by vm_compute. Qed.

(** References from a table to itself are skipped. *)
Definition employee : list Column := [column (str "id") (str "INT"); column (str "boss") (str "INT")].

Lemma self_reference_dangles :
  let e := engine {[str "t" := stored "t" employee [mkFK (str "boss") (str "t") (str "id") CASCADE] [["1"; "NULL"]; ["2"; "1"]]]} ∅ ∅ in
  contents (ex_delete (str "t") (str "id") (str "1") e).2 "t" = texts [["2"; "1"]].
Proof. by vm_compute. Qed.

(** UPDATE looks at no foreign key, neither of the child nor of the parent. *)
Lemma update_dangles :
  contents (ex_update (str "c") [str "pid"] [str "9"] (str "pid") (str "1") (family "RESTRICT")).2 "c" = texts [["9"]; ["2"]] /\
  contents (ex_update (str "p") [str "id"] [str "9"] (str "id") (str "1") (family "RESTRICT")).2 "p" = texts [["9"; "5"]; ["2"; "6"]].
Proof. by vm_compute. Qed.

(** An action other than the three is no action at all. *)
Lemma no_action_dangles :
  let e := (ex_delete (str "p") (str "id") (str "1") (family "NO ACTION")).2 in
  contents e "p" = texts [["2"; "6"]] /\ contents e "c" = texts [["1"]; ["2"]].
Proof. by vm_compute. Qed.

(** For a tenant the foreign key finds its parent [u7_p] under the name [p] when
    a row is inserted, but not when a row of the parent is deleted. *)
Definition tenant : Engine :=
  mkEngine
    (Transaction.mkEngine
       {[ str "u7_p" := stored "u7_p" ex_p [] [["1"; "5"]]; str "u7_c" := stored "u7_c" ex_c [fk_c "CASCADE"] [] ]}
       TransactionManager.initial VacuumManager.initial Locks.initial ∅ [] (str "REPEATABLE READ") ∅)
    (mkSession 7 false (str "public")) (str "root") ∅ ∅ ∅ ∅ ∅ ∅ ∅ ∅.

Lemma tenant_cascade_missed :
  let e1 := (ex_insert (str "c") [str "1"] tenant).2 in
  let e2 := (ex_delete (str "p") (str "id") (str "1") e1).2 in
  throws (ex_insert (str "c") [str "9"] tenant).1 = true /\ contents e1 "u7_c" = texts [["1"]] /\
  contents e2 "u7_p" = texts [] /\ contents e2 "u7_c" = texts [["1"]].
Proof. by vm_compute. Qed.
End examples.
