(* ===== verification/Sessions.v ===== *)
(** * Statements inside a transaction ([src/engine/engine.hpp]: the branches of
    the statements of [Mutation] for an active transaction, [beginTransaction],
    [rollbackTransaction] and the savepoints)

    Inside a transaction a statement checks its values and keeps the change in
    the buffer of the session; ROLLBACK throws the buffer away.  The file runs
    the statements themselves, with everything they do to the engine on the way,
    and shows which of them leave no trace behind after ROLLBACK.  The examples of
    [Integrity] and the one at the end show the others. *)

From S2P Require Import Prelude Index BTree Partition Table Mvcc Locks Wal Transaction Joins Arith Where Select Columns Triggers Mutation Integrity.

(** ** What a transaction may change before its COMMIT *)

(** A table apart from its AUTO_INCREMENT counters. *)
Definition same_table (o o' : option (Table BTree)) : Prop :=
  match o, o' with
  | Some t, Some t' => exists m, t' = with_autoInc t m
  | None, None => True
  | _, _ => False
  end.

#[export] Instance same_table_refl : Reflexive same_table.
Proof. intros [t|]; [|done]. exists (autoIncMap_ t). by destruct t. Qed.

#[export] Instance same_table_trans : Transitive same_table.
Proof. intros [t|] [t'|] [t''|]; try done. intros [m ->] [m' ->]. by exists m'. Qed.

(** No foreign key deletes or changes rows of its own table. *)
Definition uncascading (e : Engine) : Prop :=
  forall n t fk, tables e !! n = Some t -> fk ∈ foreignKeys_ t -> onDelete fk <> CASCADE /\ onDelete fk <> SET_NULL.

(** From [e0] to [e] in the same transaction: the tables are the same but for
    their counters, and of the rest only the session's own buffer, its savepoints
    and its log have moved. *)
Record within (e0 e : Engine) : Prop := {
  w_tables : forall n, same_table (tables e0 !! n) (tables e !! n);
  w_frame : frame (set_tables (tables e) (core e0)) (core e);
  w_triggers : triggers_ e = triggers_ e0;
  w_partitions : partitionMeta_ e = partitionMeta_ e0 }.

Lemma within_refl e : within e e.
Proof. split; [done| |done..]. split; done. Qed.

Section during.
Context (e0 : Engine).

(** A state of the transaction that [e0] has begun. *)
Record during (e : Engine) : Prop := {
  d_within : within e0 e;
  d_active : active (tx (core e)) = true;
  d_quiet : quiet e;
  d_uncascading : uncascading e }.

Lemma during_counters e n t m :
  during e -> tables e !! n = Some t -> during (with_tables (<[n := with_autoInc t m]> (tables e)) e).
Proof.
  intros [[Ht Hf Htr Hp] Ha Hq Hc] Hn. split; [split|done..|]; [|by destruct Hf|done..|].
  - intros k. rewrite tables_with_tables. destruct (decide (n = k)) as [<-|Hne].
    + rewrite lookup_insert_eq. specialize (Ht n). rewrite Hn in Ht. etrans; [exact Ht|]. by exists m.
    + by rewrite lookup_insert_ne.
  - intros k t' fk. rewrite tables_with_tables, lookup_insert_Some. intros [[<- <-]|[_ Hk]]; [by apply (Hc n t)|by apply (Hc k)].
Qed.

(** Calls that stay in the frame. *)
Lemma during_call e c : during e -> frame (core e) c -> during (with_core c e).
Proof.
  intros [[Ht Hf Htr Hp] Ha Hq Hc] F. assert (tables (with_core c e) = tables e) as E by apply (f_tables _ _ F). split; [split|..].
  - by rewrite E.
  - rewrite E. by eapply frame_trans.
  - done.
  - done.
  - cbn [core with_core]. by rewrite (f_active _ _ F).
  - done.
  - unfold uncascading. by rewrite E.
Qed.

Lemma during_buffer op e : during e -> during (with_core (bufferOp op (core e)) e).
Proof. intros He. apply during_call; [done|]. apply bufferOp_frame. Qed.
End during.

Section statements.
Context {DB : Double}.
Context (regex_search : bytes -> bytes -> option bool).
Context (evalExprStr : bytes -> list Column -> list bytes -> bytes).
Context (match_against : list bytes -> bytes -> bytes -> list Column -> list bytes -> bool).
Context (formatNum : dbl -> bytes) (dcount : nat -> dbl).
Context (evaluateRlsExpr_ : bytes -> Row -> list bytes -> bool).
Context (evaluateGenExpr : bytes -> list Column -> list bytes -> bytes).
Context (isValidJson : bytes -> bool).
Context (number_text : dbl -> bytes).
Context (clock : Clock) (thread : Z) (fuel : nat).

Abbreviation run :=
  (run regex_search evalExprStr match_against formatNum dcount evaluateRlsExpr_ evaluateGenExpr isValidJson number_text clock
     thread fuel).

Section kept.
Context (e0 : Engine).
Abbreviation during := (during e0).

(** The branch outside a transaction is not taken. *)
Ltac in_transaction := match goal with H : active _ = false, D : during _ |- _ => by rewrite (d_active _ _ D) in H end.

Lemma cascade_during n prow e : during e -> wp (cascadeDelete n prow) (fun _ => during) during e.
Proof.
  intros He. unfold cascadeDelete. repeat wp_next. apply wp_loop; [|done].
  intros c e1 _ He1. unfold cascade_child. destruct (bytes_eqb c n); [done|]. wp_step. wp_step; [|done].
  apply wp_loop; [|done]. intros fk e2 Hfk He2. destruct (d_uncascading _ _ He1 c t0 fk) as [Hc Hn]; [done..|].
  unfold cascade_fk. wp_step. wp_step; [|done].
  destruct (negb _); [done|]. destruct (colOf_cols _ _ ≫= _) as [v|]; [|done]. destruct (colOf _ _) as [i|]; [|done].
  destruct (bytes_eqb v NULL); [done|]. destruct (bytes_eqb _ RESTRICT); [by wp_step|].
  unfold bytes_eqb. by rewrite !bool_decide_eq_false_2.
Qed.

Lemma cascades_during n rs e : during e -> wp (for_each (cascadeDelete n) rs) (fun _ => during) during e.
Proof. apply wp_loop. intros r e' _. apply cascade_during. Qed.

Lemma insertRow_during tblRaw vals e :
  during e -> wp (insertRow regex_search evaluateRlsExpr_ evaluateGenExpr isValidJson clock thread tblRaw vals) (fun _ => during) during e.
Proof.
  intros He. unfold insertRow. repeat wp_next. apply wp_auto_increment; [|done]. intros t' m Ht'.
  set (e1 := with_tables _ _). assert (during e1) as He1 by (by apply during_counters).
  wp_next. apply wp_checkInsertFK; [intros _ _ _|done]. repeat wp_next. apply wp_before; [apply He1|].
  repeat wp_next; [by apply during_buffer|in_transaction..].
Qed.

Lemma insertOrReplace_during tblRaw vals e :
  during e -> wp (insertOrReplace regex_search evaluateGenExpr clock tblRaw vals) (fun _ => during) during e.
Proof.
  intros He. unfold insertOrReplace. repeat wp_next. all: by rewrite (d_active _ _ He) in *.
Qed.

Lemma updateWhere1_during tblRaw setC setV wCol wVal e :
  during e -> wp (updateWhere1 regex_search evaluateRlsExpr_ thread tblRaw setC setV wCol wVal) (fun _ => during) during e.
Proof. intros He. unfold updateWhere1. repeat wp_next; [by apply during_buffer|in_transaction..]. Qed.

Lemma updateAll1_during tblRaw setC setV e :
  during e -> wp (updateAll1 regex_search thread tblRaw setC setV) (fun _ => during) during e.
Proof. intros He. unfold updateAll1. repeat wp_next; [by apply during_buffer|in_transaction..]. Qed.

(** Values of one word; an expression is evaluated at once. *)
Lemma updateWhere_during tblRaw setCols setVals wCol wVal e :
  has_expr setVals = false -> during e ->
  wp (updateWhere regex_search evaluateRlsExpr_ evaluateGenExpr number_text clock thread tblRaw setCols setVals wCol wVal)
    (fun _ => during) during e.
Proof.
  intros Hx He. unfold updateWhere. do 8 wp_next. rewrite Hx. repeat wp_next; [|in_transaction..].
  apply wp_loop; [|done]. intros [c v] e' _ He'. wp_step. eapply wp_mono; [by apply updateWhere1_during|done|done].
Qed.

Lemma updateAll_during tblRaw setCols setVals e :
  during e -> wp (updateAll regex_search evaluateGenExpr thread tblRaw setCols setVals) (fun _ => during) during e.
Proof.
  intros He. unfold updateAll. repeat wp_next; [|in_transaction..].
  apply wp_loop; [|done]. intros [c v] e' _ He'. wp_step. eapply wp_mono; [by apply updateAll1_during|done|done].
Qed.

Lemma deleteWhere_during tblRaw wCol wVal e :
  during e -> wp (deleteWhere evaluateRlsExpr_ clock thread fuel tblRaw wCol wVal) (fun _ => during) during e.
Proof.
  intros He. apply wp_deleteWhere; [apply He|]. unfold delete_rows. repeat wp_next.
  eapply wp_mono; [by apply cascades_during| |done]. intros [] e1 He1. repeat wp_next.
  eapply wp_mono; [apply (wp_fire_deletes _ _ during); [|done]| |done].
  { intros o e2 He2. unfold before_delete. wp_step. apply wp_before; [apply He2|done]. }
  intros [] e2 He2. repeat wp_next; [by apply during_buffer|in_transaction..].
Qed.

Lemma deleteWhereConds_during tblRaw conds logic e :
  during e ->
  wp (deleteWhereConds regex_search evalExprStr match_against formatNum dcount evaluateRlsExpr_ clock thread fuel tblRaw conds logic)
    (fun _ => during) during e.
Proof.
  intros He. unfold deleteWhereConds. destruct (length conds <=? 1).
  { destruct (first_condition conds). by apply deleteWhere_during. }
  repeat wp_next. all: by rewrite (d_active _ _ He) in *.
Qed.

Lemma deleteAll_during tblRaw e : during e -> wp (deleteAll tblRaw) (fun _ => during) during e.
Proof.
  intros He. unfold deleteAll. repeat wp_next. eapply wp_mono; [by apply cascades_during| |done].
  intros [] e1 He1. repeat wp_next; [by apply during_buffer|in_transaction..].
Qed.

(** *** What a session does *)

Inductive action :=
| Do (s : statement)
| Savepoint (name : bytes)
| RollbackTo (name : bytes)
| Release (name : bytes).

Definition act (e : Engine) (a : action) : Engine :=
  match a with
  | Do s => run e s
  | Savepoint n => with_core (createSavepoint n (core e)).2 e
  | RollbackTo n => with_core (rollbackToSavepoint n (core e)).2 e
  | Release n => with_core (releaseSavepoint n (core e)).2 e
  end.

(** TRUNCATE and UPDATE with an expression change the table at once. *)
Definition undoable (a : action) : Prop :=
  match a with Do (STruncate _) => False | Do s => without_expressions s | _ => True end.

Lemma act_during e a : undoable a -> during e -> during (act e a).
Proof.
  intros Hu He. destruct a as [s|n|n|n]; cbn [act].
  - destruct s; cbn [Integrity.run]; try (match goal with |- during (?m ?x).2 => apply (wp_state m during x) end).
    + by apply insertRow_during.
    + by apply insertOrReplace_during.
    + by apply updateWhere_during.
    + by apply updateAll_during.
    + by apply deleteWhere_during.
    + by apply deleteWhereConds_during.
    + by apply deleteAll_during.
    + done.
  - apply during_call; [done|]. apply (run_call_frame (TSavepoint n)).
  - apply during_call; [done|]. apply (run_call_frame (TRollbackTo n)).
  - apply during_call; [done|]. apply (run_call_frame (TRelease n)).
Qed.

Lemma acts_during e l : Forall undoable l -> during e -> during (fold_left act l e).
Proof. intros Hl. revert e. induction Hl as [|a l Ha _ IH]; intros e He; [done|]. by apply IH, act_during. Qed.
End kept.

(** ROLLBACK after buffered operations, in any state of the engine that BEGIN and
    the transaction's own frame allow. *)
Lemma rollback_frame hash (e e1 e2 : Transaction.Engine BTree) path now time :
  active (tx e) = false -> beginTransaction hash path now time e = (None, e1) -> frame (set_tables (Transaction.tables_ e2) e1) e2 ->
  let id := (TransactionManager.beginTx (isolationLevel_ e) now (txManager_ e)).1 in
  exists e3, rollbackTransaction thread e2 = (None, e3) /\
    Transaction.tables_ e3 = Transaction.tables_ e2 /\ vacuumMgr_ e3 = vacuumMgr_ e /\ tx e3 = mkTxState false (walPath (tx e2)) [] [] 0 /\
    (forall s, s <> currentSession_ e -> sessionTx_ e3 !! s = sessionTx_ e !! s) /\
    (id <> 0%Z -> TransactionManager.activeTxs_ (txManager_ e3) !! id = None) /\
    TransactionManager.committedTxs_ (txManager_ e3) = TransactionManager.committedTxs_ (txManager_ e) /\
    files e3 !! walPath (tx e2) = None.
Proof.
  intros Ha Hb [F1 F2 F3 F4 F5 F6 F7 F8 F9 F10]. destruct (begin_spec hash path now time e Ha) as
    (e1' & Eb & Ht & Hv & Hl & Hc & Hm & Htx & Ho & Hf). rewrite Hb in Eb. injection Eb as <-. intros id.
  cbn [set_tables txManager_ vacuumMgr_ currentSession_ sessionTx_] in *.
  assert (tx (set_tables (Transaction.tables_ e2) e1) = tx e1) as Et by done. rewrite Et, Htx in F7, F8, F9.
  cbn [active mvccTxId walPath] in *. unfold rollbackTransaction. rewrite F7, F8, F9. cbn [negb].
  rewrite bool_decide_false by apply wal_name_nonempty. fold id. eexists. split; [reflexivity|].
  destruct (Z.eqb_spec id 0) as [E|E]; cbn; rewrite ?F2, ?F3, ?F5, ?Hv, ?Hc, ?Hm; split_and!; try done.
  all: try (unfold tx; cbn; by rewrite F5, Hc, lookup_insert_eq).
  all: try (intros s Hs; rewrite lookup_insert_ne by congruence; rewrite F10 by congruence; by apply Ho).
  all: try apply lookup_delete_eq.
  intros _. apply lookup_delete_eq.
Qed.

(** [C17] ROLLBACK undoes a transaction: after BEGIN and any INSERTs, UPDATEs without
    expressions, DELETEs, savepoints and returns to them, also where some of them
    throw, ROLLBACK succeeds and every table has the rows, columns and indices it
    had before - only AUTO_INCREMENT counters have moved on -, the vacuum counters
    and the other sessions are as they were, the number of the transaction is
    neither active nor committed, the session is idle and its log is gone.
    There are no triggers and no partitions, and no foreign key cascades: cascades,
    UPDATE with an expression and TRUNCATE change tables at once
    ([cascade_escapes_transaction], [expression_escapes_transaction],
    [truncate_escapes_transaction]). *)
Theorem rollback_restores hash path now time l e :
  active (tx (core e)) = false -> quiet e -> uncascading e -> Forall undoable l ->
  let begun := with_core (beginTransaction hash path now time (core e)).2 e in
  let id := (TransactionManager.beginTx (isolationLevel_ (core e)) now (txManager_ (core e))).1 in
  exists e3, rollbackTransaction thread (core (fold_left act l begun)) = (None, e3) /\
    (forall n, same_table (tables e !! n) (Transaction.tables_ e3 !! n)) /\
    vacuumMgr_ e3 = vacuumMgr_ (core e) /\
    active (tx e3) = false /\ txBuffer (tx e3) = [] /\ savepoints (tx e3) = [] /\
    (forall s, s <> currentSession_ (core e) -> sessionTx_ e3 !! s = sessionTx_ (core e) !! s) /\
    (id <> 0%Z -> TransactionManager.activeTxs_ (txManager_ e3) !! id = None) /\
    TransactionManager.committedTxs_ (txManager_ e3) = TransactionManager.committedTxs_ (txManager_ (core e)) /\
    files e3 !! wal_name hash path (core e) = None.
Proof.
  intros Ha Hq Hc Hl begun id. destruct (begin_spec hash path now time (core e) Ha) as
    (e1 & Eb & Ht & _ & _ & _ & _ & Htx & _). unfold begun. rewrite Eb. cbn [snd]. clear begun. set (begun := with_core e1 e).
  assert (tables begun = tables e) as Et by exact Ht.
  assert (during begun begun) as H0.
  { split; [apply within_refl|cbn [core with_core begun]; by rewrite Htx|done|]. unfold uncascading. by rewrite Et. }
  destruct (acts_during begun begun l Hl H0) as [[Hs Hf _ _] _ _ _].
  destruct (rollback_frame hash (core e) e1 (core (fold_left act l begun)) path now time Ha Eb Hf)
    as (e3 & -> & H1 & H2 & H3 & H4 & H5 & H6 & H7).
  assert (walPath (tx (core (fold_left act l begun))) = wal_name hash path (core e)) as Hw.
  { rewrite (f_wal _ _ Hf). change (walPath (tx e1) = wal_name hash path (core e)). by rewrite Htx. }
  rewrite Hw in H7. exists e3. rewrite H1, H3. rewrite <- Et. by split_and!.
Qed.
End statements.

(** ** Examples *)

Section examples.
#[local] Existing Instance IntDouble.

Abbreviation ex_act :=
  (act no_regex no_func no_match print int_count (fun _ _ _ => true) no_gen (fun _ => true) print ex_clock 1 3).

Definition plain_db : Engine :=
  engine {[ str "p" := stored "p" ex_p [] [["1"; "5"]; ["2"; "6"]]; str "c" := stored "c" ex_c [fk_c "RESTRICT"] [["1"]; ["2"]] ]} ∅ ∅.
Definition ex_actions : list action :=
  [ Do (SInsert (str "p") [str "3"; str "8"]); Savepoint (str "s"); Do (SUpdate (str "p") [str "qty"] [str "9"] (str "id") (str "1"));
    RollbackTo (str "s"); Do (SDelete (str "c") (str "pid") (str "1")); Do (SDelete (str "p") (str "id") (str "2"));
    Do (SDeleteAll (str "c")) ].
Definition ex_begun : Engine := in_transaction plain_db.
Definition ex_changed : Engine := fold_left ex_act ex_actions ex_begun.

Lemma rollback_restores_witness :
  length (txBuffer (tx (core ex_changed))) = 3 /\
  exists e3, rollbackTransaction 1 (core ex_changed) = (None, e3) /\
    (forall n, same_table (tables plain_db !! n) (Transaction.tables_ e3 !! n)) /\ txBuffer (tx e3) = [].
Proof.
  split; [vm_compute; reflexivity|].
  destruct (rollback_restores no_regex no_func no_match print int_count (fun _ _ _ => true) no_gen (fun _ => true) print ex_clock 1 3
    no_hash (str "db.wal") [] 5 ex_actions plain_db) as (e3 & H1 & H2 & _ & _ & H3 & _).
  - vm_compute. reflexivity.
  - done.
  - intros n t fk. unfold plain_db, tables, engine. cbn [core Transaction.tables_].
    rewrite lookup_insert_Some, lookup_singleton_Some. intros [[_ <-]|[_ [_ <-]]] Hfk; cbn in Hfk; set_unfold; by destruct_or?; subst.
  - repeat constructor; vm_compute; reflexivity.
  - exists e3. split; [exact H1|]. by split.
Defined.

(** TRUNCATE inside a transaction empties the table for good. *)
Lemma truncate_escapes_transaction :
  contents (rolled_back (ex_act (in_transaction plain_db) (Do (STruncate (str "p"))))) "p" = texts [].
Proof. vm_compute. reflexivity. Qed.
End examples.
