(* ===== verification/Query.v ===== *)
(** * From rows to a result: grouping, aggregates, set operations, ordering
    ([src/engine/engine.hpp]: [groupBy], [globalAgg], [groupByMulti],
    [computeAggForGroup], [satisfiesHaving], [computeAggregate],
    [parallelAggregate_], [countRows], [executeSetOp], [sortBy], [sortByMulti])

    GROUP BY is shown equal to a reference that knows neither maps nor keys:
    the distinct tuples of group values in the order of their first appearance,
    each with the rows that have them.  ORDER BY is shown to sort where the
    comparator is an order, which is not the case for every column. *)

From S2P Require Import Prelude Index BTree Partition Table Joins Arith Where Select Columns Triggers.

(** ** Data *)

(** The fields of [SelectItem] that are read here and by the window functions. *)
Record SelectItem := mkItem {
  isAgg : bool; aggFunc : bytes; aggCol : bytes; colName : bytes; alias : bytes;
  isFuncExpr : bool; funcName : bytes; funcArgs : list bytes;
  windowFunc : bytes; windowFuncArg : bytes; windowPartitionBy : bytes; windowOrderBy : bytes;
  windowOrderDesc : bool; windowLagLeadOffset : Z; windowLagLeadDefault : bytes; windowNtileBuckets : Z;
  hasWindowFrame : bool; windowFrameStart : Z; windowFrameEnd : Z }.

Record HavingCondition := mkHaving { hc_func : bytes; hc_col : bytes; hc_op : bytes; hc_val : bytes }.

(** ** Collecting rows under keys *)

(** [groupMap[key].push_back(i)], and [groupOrder] if the key is new. *)
Definition add_to_group (g : gmap bytes (list nat) * list bytes) (kv : bytes * nat)
  : gmap bytes (list nat) * list bytes :=
  (<[kv.1 := default [] (g.1 !! kv.1) ++ [kv.2]]> g.1,
   if bool_decide (is_Some (g.1 !! kv.1)) then g.2 else g.2 ++ [kv.1]).

Definition group_rows (kvs : list (bytes * nat)) : list (bytes * list nat) :=
  let g := fold_left add_to_group kvs (∅, []) in map (fun k => (k, default [] (g.1 !! k))) g.2.

(** ** Numbers *)

Section query.
Context {DB : Double}.
Context (regex_search : bytes -> bytes -> option bool).
Context (evalExprStr : bytes -> list Column -> list bytes -> bytes).
Context (match_against : list bytes -> bytes -> bytes -> list Column -> list bytes -> bool).
Context (formatNum : dbl -> bytes) (dcount : nat -> dbl).
(** [evaluateFunc]: a function of the select list on a row.  [std::stof] widened
    to a double, ["%.6g"], and [std::sort] on points by their time. *)
Context (evaluateFunc : bytes -> list bytes -> Table BTree -> Row -> result bytes).
Context (stof : bytes -> option dbl) (print_g : dbl -> bytes).
Context (sort_points : list (bytes * dbl) -> list (bytes * dbl)).

Abbreviation rowMatches db := (rowMatches regex_search evalExprStr match_against formatNum dcount (Select.tables_ db)).

Definition MIN : bytes := str "MIN".
Definition MAX : bytes := str "MAX".
Definition SUM : bytes := str "SUM".
Definition AVG : bytes := str "AVG".

(** The end of every aggregate: NULL without numbers or for an unknown name. *)
Definition agg_numbers (func : bytes) (nums : list dbl) : bytes :=
  match nums with
  | [] => NULL
  | x :: rest =>
      if bytes_eqb func MIN then formatNum (dmin x rest)
      else if bytes_eqb func MAX then formatNum (dmax x rest)
      else if bytes_eqb func SUM then formatNum (dsum nums)
      else if bytes_eqb func AVG then formatNum (ddiv (dsum nums) (dcount (length nums)))
      else NULL
  end.

(** The numbers in column [ci]; what is no number is left out. *)
Definition column_numbers (ci : nat) (rs : list Row) : list dbl := omap (fun r => values r !! ci ≫= stod) rs.

(** ** Aggregates of special columns *)

(** The texts with [sep] between them. *)
Definition joined (sep : bytes) (l : list bytes) : bytes :=
  match l with [] => [] | v :: l' => v ++ mjoin (map (app sep) l') end.

(** [ArrayUtils::serialize] *)
Definition serialize (l : list bytes) : bytes := str "{" ++ joined (str ",") l ++ str "}".

(** ["value,time"]; without a comma the value is its own time. *)
Definition value_and_time (aggCol : bytes) : bytes * bytes :=
  match find_char 44 aggCol with
  | Some p => (take p aggCol, drop (S p) aggCol)
  | None => (aggCol, [])
  end.

Definition time_column (cs : list Column) (ts : bytes) (valCI : nat) : result nat :=
  if bytes_eqb ts [] then Ok valCI else colIdx cs ts.

(** FIRST and LAST: the value at the smallest or largest time, as text. *)
Definition better (firstAgg : bool) (tsV bestTs : bytes) : bool :=
  bytes_eqb bestTs [] || (if firstAgg then bytes_ltb tsV bestTs else bytes_ltb bestTs tsV).

Definition first_last (firstAgg : bool) (valCI tsCI : nat) (rs : list Row) : bytes :=
  (fold_left (fun best r =>
     let tsV := default [] (values r !! tsCI) in
     if better firstAgg tsV best.2 then (default NULL (values r !! valCI), tsV) else best) rs (NULL, [])).1.

(** TIME_WEIGHTED_AVG: trapezoids of width one between consecutive points. *)
Definition points (valCI tsCI : nat) (rs : list Row) : list (bytes * dbl) :=
  omap (fun r => v ← values r !! valCI; ts ← values r !! tsCI; d ← stod v; Some (ts, d)) rs.

Fixpoint trapezoids (pts : list (bytes * dbl)) : list dbl :=
  match pts with
  | p :: ((q :: _) as pts') => ddiv (dadd p.2 q.2) (dcount 2) :: trapezoids pts'
  | _ => []
  end.

Definition time_weighted (pts : list (bytes * dbl)) : bytes :=
  match pts with
  | [] => NULL
  | [p] => formatNum p.2
  | _ =>
      let totalW := dcount (length pts - 1) in
      if dle totalW dzero then NULL else formatNum (ddiv (dsum (trapezoids (sort_points pts))) totalW)
  end.

(** [vector_type::parse] *)
Definition strip (p q : byte -> bool) (s : bytes) : bytes := reverse (drop_while q (reverse (drop_while p s))).

Definition parse_vector (s : bytes) : list dbl :=
  let s := strip is_quote is_quote s in
  let s := strip (fun c => (c =? 91) || (c =? 32))%Z (fun c => (c =? 93) || (c =? 32))%Z s in
  omap (fun tok => let tok := trgTrim tok in if bytes_eqb tok [] then None else stof tok) (split_on 44 s).

Fixpoint add_vector (sum vec : list dbl) : list dbl :=
  match sum, vec with s :: sum', v :: vec' => dadd s v :: add_vector sum' vec' | _, _ => sum end.

(** The sum has the width of the first vector that is not empty. *)
Definition sum_vectors (vecs : list (list dbl)) : list dbl :=
  match vecs with
  | [] => []
  | v :: _ => fold_left add_vector vecs (replicate (length v) dzero)
  end.

Definition vector_avg (cells : list bytes) : bytes :=
  let vecs := List.filter (fun v => negb (length v =? 0)) (map parse_vector cells) in
  match sum_vectors vecs with
  | [] => NULL
  | sum => str "[" ++ joined (str ",") (map (fun s => print_g (ddiv s (dcount (length vecs)))) sum) ++ str "]"
  end.

(** The value of the first row is a vector; the others are not looked at. *)
Definition starts_vector (ci : nat) (rs : list Row) : bool :=
  match rs with
  | r :: _ => match default [] (values r !! ci) with c :: _ => (c =? 91)%Z | [] => false end
  | [] => false
  end.

(** [computeAggForGroup] *)
Definition computeAggForGroup (src : Table BTree) (item : SelectItem) (riList : list nat) : result bytes :=
  let rs := map (row_at (rows_ src)) riList in
  let cs := columns_ src in
  let func := aggFunc item in
  if bytes_eqb func COUNT then Ok (to_string (Z.of_nat (length riList)))
  else if bytes_eqb func (str "ARRAY_AGG") then
    ci ← colIdx cs (aggCol item); Ok (serialize (omap (fun r => values r !! ci) rs))
  else if bytes_eqb func (str "FIRST") || bytes_eqb func (str "LAST") then
    let '(valCol, tsCol) := value_and_time (aggCol item) in
    valCI ← colIdx cs valCol; tsCI ← time_column cs tsCol valCI;
    Ok (first_last (bytes_eqb func (str "FIRST")) valCI tsCI rs)
  else if bytes_eqb func (str "TIME_WEIGHTED_AVG") then
    let '(valCol, tsCol) := value_and_time (aggCol item) in
    valCI ← colIdx cs valCol; tsCI ← time_column cs tsCol valCI;
    Ok (time_weighted (points valCI tsCI rs))
  else
    ci ← colIdx cs (aggCol item);
    let cells := omap (fun r => values r !! ci) rs in
    Ok (if bytes_eqb func AVG && starts_vector ci rs then vector_avg cells
        else agg_numbers func (column_numbers ci rs)).

(** ** Groups *)

(** [satisfiesHaving]: a condition without a counterpart in the select list is false. *)
Definition having (items : list SelectItem) (vals : list bytes) (hc : HavingCondition) : bool :=
  match list_find (fun iv => isAgg iv.1 = true /\ aggFunc iv.1 = hc_func hc /\ aggCol iv.1 = hc_col hc)
          (zip items vals) with
  | Some (_, (_, v)) => compareValues regex_search v (check_op (hc_op hc)) (hc_val hc)
  | None => false
  end.

Definition satisfiesHaving (conds : list HavingCondition) (logic : bytes) (items : list SelectItem)
    (vals : list bytes) : bool :=
  match conds with
  | [] => true
  | _ => if bytes_eqb logic AND then forallb (having items vals) conds else existsb (having items vals) conds
  end.

(** The numbers of the live rows that satisfy the conditions. *)
Fixpoint matching_rows (test : Row -> result bool) (k : nat) (rs : list Row) : result (list nat) :=
  match rs with
  | [] => Ok []
  | r :: rs' =>
      if alive r then b ← test r; l ← matching_rows test (S k) rs'; Ok (if (b : bool) then k :: l else l)
      else matching_rows test (S k) rs'
  end.

(** A GROUP BY column: a column of the table, an item of the select list with
    that alias, or neither. *)
Inductive GroupByKey := ByColumn (ci : nat) | ByItem (item : SelectItem) | ByNothing.

Definition group_key (cs : list Column) (items : list SelectItem) (gc : bytes) : GroupByKey :=
  match colOf_cols cs gc with
  | Some ci => ByColumn ci
  | None =>
      match list_find (fun i => alias i <> [] /\ alias i = gc) items with
      | Some (_, i) => ByItem i
      | None => ByNothing
      end
  end.

Definition computeItemValue (src : Table BTree) (item : SelectItem) (row : Row) : result bytes :=
  if isFuncExpr item then evaluateFunc (funcName item) (funcArgs item) src row
  else ci ← colIdx (columns_ src) (colName item); Ok (default [] (values row !! ci)).

Definition key_part (src : Table BTree) (row : Row) (gk : GroupByKey) : result bytes :=
  match gk with
  | ByColumn ci => Ok (1%Z :: default [] (values row !! ci))
  | ByItem item => v ← computeItemValue src item row; Ok (1%Z :: v)
  | ByNothing => Ok [1%Z]
  end.

(** The key of a row: the group values, each after a byte 1. *)
Definition key_of_row (src : Table BTree) (gks : list GroupByKey) (row : Row) : result bytes :=
  mjoin <$> mapM (key_part src row) gks.

Definition item_name (item : SelectItem) : bytes :=
  if negb (bytes_eqb (alias item) []) then alias item
  else if isAgg item then aggFunc item ++ str "(" ++ aggCol item ++ str ")"
  else colName item.

(** One value of a result row; what is no aggregate is taken from the first row. *)
Definition item_value (src : Table BTree) (riList : list nat) (item : SelectItem) : result bytes :=
  if isAgg item then computeAggForGroup src item riList
  else computeItemValue src item (row_at (rows_ src) (hd 0 riList)).

Fixpoint add_groups (src : Table BTree) (items : list SelectItem) (conds : list HavingCondition) (logic : bytes)
    (gs : list (list nat)) (result : Table BTree) : Prelude.result (Table BTree) :=
  match gs with
  | [] => Ok result
  | riList :: gs' =>
      vals ← mapM (item_value src riList) items;
      result ← (if satisfiesHaving conds logic items vals then insert_row result (row_of vals) else Ok result);
      add_groups src items conds logic gs' result
  end.

Definition result_table (items : list SelectItem) : Table BTree :=
  table [] (map (fun i => column (item_name i) []) items).

Definition groupBy (db : Engine) (tblName : bytes) (whereConds : list Where.WhereCondition) (whereLogic : bytes)
    (groupCols : list bytes) (selectItems : list SelectItem) (havingConds : list HavingCondition)
    (havingLogic : bytes) : result (Table BTree) :=
  src ← getTable (Select.tables_ db) tblName;
  if bool_decide (groupCols = []) then Throw "GROUP BY: keine Spalten angegeben"
  else if bool_decide (selectItems = []) then Throw "GROUP BY: leere SELECT-Liste"
  else
    filtered ← matching_rows (fun r => rowMatches db src r whereConds whereLogic) 0 (rows_ src);
    let gks := map (group_key (columns_ src) selectItems) groupCols in
    keys ← mapM (fun ri => key_of_row src gks (row_at (rows_ src) ri)) filtered;
    add_groups src selectItems havingConds havingLogic (map snd (group_rows (zip keys filtered)))
      (result_table selectItems).

(** One row for all rows. *)
Definition globalAgg (db : Engine) (tblName : bytes) (whereConds : list Where.WhereCondition) (whereLogic : bytes)
    (selectItems : list SelectItem) (havingConds : list HavingCondition) (havingLogic : bytes)
  : result (Table BTree) :=
  src ← getTable (Select.tables_ db) tblName;
  filtered ← matching_rows (fun r => rowMatches db src r whereConds whereLogic) 0 (rows_ src);
  vals ← mapM (fun i => if isAgg i then computeAggForGroup src i filtered else Ok []) selectItems;
  if satisfiesHaving havingConds havingLogic selectItems vals
  then insert_row (result_table selectItems) (row_of vals) else Ok (result_table selectItems).

(** ROLLUP, CUBE, GROUPING SETS: the plain columns that are not in the set are blanked. *)
Definition blanked (gset : list bytes) (item : SelectItem) : bool :=
  negb (isAgg item) && negb (isFuncExpr item) && negb (bool_decide (colName item ∈ gset)) &&
  negb (bool_decide (alias item ∈ gset)).

Definition blank_row (gset : list bytes) (items : list SelectItem) (r : Row) : Row :=
  row_of (imap (fun k v => match items !! k with Some i => if blanked gset i then [] else v | None => v end) (values r)).

Fixpoint add_sets (db : Engine) (tblName : bytes) (whereConds : list Where.WhereCondition) (whereLogic : bytes)
    (sets : list (list bytes)) (selectItems : list SelectItem) (havingConds : list HavingCondition)
    (havingLogic : bytes) (combined : option (Table BTree)) : result (Table BTree) :=
  match sets with
  | [] => Ok (default (table [] []) combined)
  | gset :: sets' =>
      part ← (if bool_decide (gset = [])
              then globalAgg db tblName whereConds whereLogic selectItems havingConds havingLogic
              else groupBy db tblName whereConds whereLogic gset selectItems havingConds havingLogic);
      t ← insert_all (default (table [] (columns_ part)) combined) (map (blank_row gset selectItems) (rows_ part));
      add_sets db tblName whereConds whereLogic sets' selectItems havingConds havingLogic (Some t)
  end.

Definition groupByMulti (db : Engine) (tblName : bytes) (whereConds : list Where.WhereCondition) (whereLogic : bytes)
    (groupingSets : list (list bytes)) (selectItems : list SelectItem) (havingConds : list HavingCondition)
    (havingLogic : bytes) : result (Table BTree) :=
  add_sets db tblName whereConds whereLogic groupingSets selectItems havingConds havingLogic None.

(** ** Aggregates of a whole table *)

(** [countInheritedRows_]: live rows of the children; the fuel bounds the depth. *)
Fixpoint countInheritedRows_ (fuel : nat) (db : Engine) (parent : bytes) : nat :=
  match fuel with
  | O => 0
  | S f =>
      list_sum (map (fun child =>
        match Select.tables_ db !! child with Some t => length (List.filter alive (rows_ t)) | None => 0 end +
        countInheritedRows_ f db child) (default [] (tableChildren_ db !! parent)))
  end.

Definition countRows (fuel : nat) (db : Engine) (key : bytes) (fromOnly : bool) : result nat :=
  t ← getTable (Select.tables_ db) key;
  Ok (length (rows_ t) + if fromOnly then 0 else countInheritedRows_ fuel db key).

(** Worker [w] reads its chunk; the partial lists are joined in order. *)
Definition parallelAggregate_ (src : Table BTree) (func : bytes) (ci workers : nat) : bytes :=
  let rows := rows_ src in
  if length rows =? 0 then NULL
  else
    let size := (length rows + workers - 1) / workers in
    let chunks := map (chunk_of rows size) (seq 0 workers) in
    if bytes_eqb func COUNT then
      to_string (Z.of_nat (list_sum (map (fun c => length (List.filter alive c)) chunks)))
    else agg_numbers func (mjoin (map (fun c => column_numbers ci (List.filter alive c)) chunks)).

Definition computeAggregate (db : Engine) (tblName func col : bytes) (conds : list Where.WhereCondition)
    (logic : bytes) : result bytes :=
  src ← getTable (Select.tables_ db) tblName;
  ci ← colIdx (columns_ src) col;
  if (1 <? numWorkers db) && (threshold db <=? length (rows_ src)) && bool_decide (conds = [])
  then Ok (parallelAggregate_ src func ci (numWorkers db))
  else
    filtered ← matching_rows (fun r => rowMatches db src r conds logic) 0 (rows_ src);
    Ok (agg_numbers func (column_numbers ci (map (row_at (rows_ src)) filtered))).
End query.

(** ** Set operations *)

(** [seen.insert(r.values).second], for the rows that pass the test. *)
Fixpoint first_rows (keep : Row -> bool) (seen : list (list bytes)) (rs : list Row) : list Row :=
  match rs with
  | [] => []
  | r :: rs' =>
      if keep r && negb (bool_decide (values r ∈ seen)) then r :: first_rows keep (values r :: seen) rs'
      else first_rows keep seen rs'
  end.

(** The rows a set operation inserts, in order. *)
Definition set_op_rows (op : bytes) (left right : list Row) : option (list Row) :=
  let in_right r := bool_decide (values r ∈ map values right) in
  if bytes_eqb op (str "UNION ALL") then Some (left ++ right)
  else if bytes_eqb op (str "UNION") then Some (first_rows (fun _ => true) [] (left ++ right))
  else if bytes_eqb op (str "INTERSECT") then Some (first_rows in_right [] left)
  else if bytes_eqb op (str "EXCEPT") then Some (first_rows (fun r => negb (in_right r)) [] left)
  else None.

Definition executeSetOp (left : Table BTree) (op : bytes) (right : Table BTree) : result (Table BTree) :=
  if negb (length (columns_ left) =? length (columns_ right)) then Throw "Spaltenanzahl"
  else
    match set_op_rows op (rows_ left) (rows_ right) with
    | Some rows => insert_all (table [] (columns_ left)) rows
    | None => Throw "Unbekannte Mengenoperation"
    end.

(** ** ORDER BY *)

(** [std::sort] may leave equal elements in any order; all that is assumed of it
    is that it sorts where the comparator is a strict weak order. *)
Record weak_order {A} (lt : A -> A -> bool) (l : list A) : Prop := {
  weak_irrefl x : x ∈ l -> lt x x = false;
  weak_trans x y z : x ∈ l -> y ∈ l -> z ∈ l -> lt x y = true -> lt y z = true -> lt x z = true;
  weak_total x y z : x ∈ l -> y ∈ l -> z ∈ l -> lt x z = true -> lt x y = true \/ lt y z = true }.

Definition ordered {A} (lt : A -> A -> bool) (l : list A) : Prop := StronglySorted (fun x y => lt y x = false) l.

Class StdSort := {
  std_sort : forall {A}, (A -> A -> bool) -> list A -> list A;
  std_sort_perm : forall {A} (lt : A -> A -> bool) l, weak_order lt l -> std_sort lt l ≡ₚ l;
  std_sort_ordered : forall {A} (lt : A -> A -> bool) l, weak_order lt l -> ordered lt (std_sort lt l) }.

Section order.
Context {DB : Double} {SS : StdSort}.

Definition cell (ci : nat) (r : Row) : bytes := default [] (values r !! ci).

(** Numbers if both texts are numbers to their end, texts otherwise. *)
Definition cell_lt (desc : bool) (va vb : bytes) : bool :=
  match numbers va vb with
  | Some (da, db) => if desc then dlt db da else dlt da db
  | None => if desc then bytes_ltb vb va else bytes_ltb va vb
  end.

Definition sortBy (col : bytes) (desc : bool) (t : Table BTree) : result (Table BTree) :=
  match colOf t col with
  | None => Throw "ORDER BY: Spalte nicht gefunden"
  | Some ci => Ok (with_rows t (std_sort (fun a b => cell_lt desc (cell ci a) (cell ci b)) (rows_ t)))
  end.

(** A text of digits is a column position, counted from 1; [stoi] throws beyond
    the range of [int]. *)
Definition order_column (cs : list Column) (c : bytes) : result (option nat) :=
  if negb (bytes_eqb c []) && forallb is_digit c then
    let pos := (digits_val c - 1)%Z in
    if (2 ^ 31 <=? pos + 1)%Z then Throw "stoi"
    else if ((0 <=? pos) && (pos <? Z.of_nat (length cs)))%Z then Ok (Some (Z.to_nat pos)) else Ok (colOf_cols cs c)
  else Ok (colOf_cols cs c).

Definition order_columns (cs : list Column) (cols : list (bytes * bool)) : result (list (nat * bool)) :=
  l ← mapM (fun p => o ← order_column cs p.1; Ok (ci ← o; Some (ci, p.2))) cols; Ok (omap id l).

(** Two cells: [None] if the next column decides. *)
Definition cell_cmp (desc : bool) (va vb : bytes) : option bool :=
  match numbers va vb with
  | Some (da, db) => if negb (deq da db) then Some (if desc then dlt db da else dlt da db) else None
  | None => if negb (bytes_eqb va vb) then Some (if desc then bytes_ltb vb va else bytes_ltb va vb) else None
  end.

Fixpoint row_lt (idxCols : list (nat * bool)) (a b : Row) : bool :=
  match idxCols with
  | [] => false
  | (ci, desc) :: rest => default (row_lt rest a b) (cell_cmp desc (cell ci a) (cell ci b))
  end.

Definition sortByMulti (cols : list (bytes * bool)) (t : Table BTree) : result (Table BTree) :=
  idxCols ← order_columns (columns_ t) cols;
  Ok (if bool_decide (idxCols = []) then t else with_rows t (std_sort (row_lt idxCols) (rows_ t))).
End order.

(** ** Grouping *)

(** The distinct elements of a list in the order of their first appearance. *)
Fixpoint firsts {A} `{EqDecision A} (seen l : list A) : list A :=
  match l with
  | [] => []
  | x :: l' => if bool_decide (x ∈ seen) then firsts seen l' else x :: firsts (x :: seen) l'
  end.

(** What is paired with [k]. *)
Definition members {K} `{EqDecision K} {A} (k : K) (kvs : list (K * A)) : list A :=
  map snd (List.filter (fun kv => bool_decide (kv.1 = k)) kvs).

Lemma firsts_snoc {A} `{EqDecision A} (seen l : list A) x :
  firsts seen (l ++ [x]) = firsts seen l ++ (if bool_decide (x ∈ seen \/ x ∈ l) then [] else [x]).
Proof.
  revert seen. induction l as [|y l IH]; intros seen; cbn [firsts app].
  - rewrite (bool_decide_ext (x ∈ seen \/ x ∈ []) (x ∈ seen)) by (rewrite elem_of_nil; tauto).
    by case_bool_decide.
  - case_bool_decide as Hy; [|cbn [app]; f_equal]; rewrite IH; f_equal.
    + erewrite bool_decide_ext; [done|]. rewrite elem_of_cons. naive_solver.
    + erewrite bool_decide_ext; [done|]. rewrite !elem_of_cons. naive_solver.
Qed.

Lemma elem_of_firsts {A} `{EqDecision A} (seen l : list A) x : x ∈ firsts seen l -> x ∈ l.
Proof.
  revert seen. induction l as [|y l IH]; intros seen; cbn [firsts]; [done|]. rewrite elem_of_cons.
  case_bool_decide; [|rewrite elem_of_cons; intros [->|Hx]; [by left|]]; intros; right; by eapply IH.
Qed.

Lemma firsts_complete {A} `{EqDecision A} (seen l : list A) x : x ∈ l -> x ∈ seen \/ x ∈ firsts seen l.
Proof.
  revert seen. induction l as [|y l IH]; intros seen; [by intros ?%not_elem_of_nil|].
  cbn [firsts]. case_bool_decide as Hy; rewrite elem_of_cons; intros [->|Hx]; [by left|by apply IH| |].
  - right. apply list_elem_of_here.
  - destruct (IH (y :: seen) Hx) as [[->|H]%elem_of_cons|H]; [right; apply list_elem_of_here|by left|right].
    by apply list_elem_of_further.
Qed.

Lemma elem_of_firsts_all {A} `{EqDecision A} (l : list A) x : x ∈ l -> x ∈ firsts [] l.
Proof. intros Hx. by destruct (firsts_complete [] l x Hx) as [?%not_elem_of_nil|?]. Qed.

Lemma members_snoc {K} `{EqDecision K} {A} (k : K) (kvs : list (K * A)) kv :
  members k (kvs ++ [kv]) = members k kvs ++ (if bool_decide (kv.1 = k) then [kv.2] else []).
Proof.
  unfold members. rewrite List.filter_app, map_app. f_equal. cbn [List.filter]. by case_bool_decide.
Qed.

Lemma members_nil {K} `{EqDecision K} {A} (k : K) (kvs : list (K * A)) :
  ~ (k ∈ map fst kvs) -> members k kvs = [].
Proof.
  induction kvs as [|[k' a] kvs IH]; [done|]. cbn [map fst]. rewrite not_elem_of_cons. intros [Hk H].
  unfold members. cbn [List.filter fst]. rewrite bool_decide_eq_false_2 by congruence. by apply IH.
Qed.

Lemma add_to_group_spec kvs :
  let g := fold_left add_to_group kvs (∅, []) in
  g.2 = firsts [] (map fst kvs) /\
  forall k, g.1 !! k = if bool_decide (k ∈ map fst kvs) then Some (members k kvs) else None.
Proof.
  induction kvs as [|[k i] kvs [IH2 IH1]] using rev_ind; [by split|].
  rewrite fold_left_app, map_app. cbn [fold_left map fst]. set (g := fold_left _ _ _) in *. clearbody g.
  unfold add_to_group. cbn [fst snd]. split.
  - rewrite firsts_snoc, IH2, IH1.
    rewrite (bool_decide_ext (k ∈ [] \/ k ∈ map fst kvs) (k ∈ map fst kvs)) by (rewrite elem_of_nil; tauto).
    destruct (decide (k ∈ map fst kvs)) as [H|H].
    + rewrite !(bool_decide_eq_true_2 (k ∈ _)) by done. rewrite bool_decide_eq_true_2 by done. by rewrite app_nil_r.
    + rewrite !(bool_decide_eq_false_2 (k ∈ _)) by done. by rewrite bool_decide_eq_false_2 by (by intros [? ?]).
  - intros k'. rewrite members_snoc. cbn [fst snd]. destruct (decide (k = k')) as [<-|Hk].
    + rewrite lookup_insert_eq, IH1. rewrite (bool_decide_eq_true_2 (k ∈ map fst kvs ++ [k])), (bool_decide_eq_true_2 (k = k)) by set_solver.
      case_bool_decide as H; [done|]. by rewrite members_nil.
    + rewrite lookup_insert_ne, IH1 by done. rewrite (bool_decide_eq_false_2 (k = k')), app_nil_r by done.
      erewrite bool_decide_ext; [done|]. set_solver.
Qed.

(** The map and the list of its keys amount to: one group for each key. *)
Lemma group_rows_spec kvs :
  group_rows kvs = map (fun k => (k, members k kvs)) (firsts [] (map fst kvs)).
Proof.
  unfold group_rows. destruct (add_to_group_spec kvs) as [H2 H1]. cbv zeta in *. rewrite H2.
  apply map_ext_in. intros k Hk%list_elem_of_In%elem_of_firsts. by rewrite H1, bool_decide_eq_true_2.
Qed.

(** Grouping by an injective image of the keys gives the same groups. *)
Lemma firsts_map {A B} `{EqDecision A} `{EqDecision B} (f : A -> B) seen l :
  (forall x y, x ∈ seen ++ l -> y ∈ seen ++ l -> f x = f y -> x = y) ->
  firsts (map f seen) (map f l) = map f (firsts seen l).
Proof.
  revert seen. induction l as [|x l IH]; intros seen Hf; cbn [firsts map]; [done|].
  rewrite (bool_decide_ext (f x ∈ map f seen) (x ∈ seen)).
  - case_bool_decide; [apply IH|cbn [map]; f_equal; apply (IH (x :: seen))]; intros; apply Hf; set_solver.
  - rewrite list_elem_of_fmap. split; [|by exists x]. intros (y & Hy & Hin).
    rewrite (Hf x y) by (set_solver || done). done.
Qed.

Lemma members_map {A B C} `{EqDecision A} `{EqDecision B} (f : A -> B) k (l : list A) (is_ : list C) :
  (forall x, x ∈ l -> f x = f k -> x = k) -> members (f k) (zip (map f l) is_) = members k (zip l is_).
Proof.
  revert is_. induction l as [|x l IH]; intros [|i is_] Hf; [done..|]. cbn [map zip zip_with].
  unfold members in *. cbn [List.filter fst].
  rewrite (bool_decide_ext (f x = f k) (x = k)) by (split; [apply Hf; set_solver|congruence]).
  case_bool_decide; cbn [map snd]; rewrite IH by (intros; apply Hf; set_solver); done.
Qed.

(** The groups share the rows among them. *)
Lemma members_partition {K} `{EqDecision K} {A} (ks : list K) (kvs : list (K * A)) :
  NoDup ks -> (forall kv, kv ∈ kvs -> kv.1 ∈ ks) -> mjoin (map (fun k => members k kvs) ks) ≡ₚ map snd kvs.
Proof.
  intros Hn. induction kvs as [|[k a] kvs IH]; intros Hk.
  { apply reflexive_eq. clear. induction ks as [|k ks IH]; [done|]. by cbn [map]; rewrite mjoin_cons, IH. }
  assert (k ∈ ks) as Hin by (apply (Hk (k, a)); by left).
  apply list_elem_of_split in Hin as (l1 & l2 & ->).
  assert (forall l, ~ (k ∈ l) -> map (fun k' => members k' ((k, a) :: kvs)) l = map (fun k' => members k' kvs) l) as Hl.
  { intros l Hl. apply map_ext_in. intros k' Hk'%list_elem_of_In. unfold members. cbn [List.filter fst].
    rewrite bool_decide_eq_false_2; [done|]. by intros ->. }
  apply NoDup_app in Hn as Hn'. destruct Hn' as (_ & Hn1 & Hn2). apply NoDup_cons in Hn2 as [Hn2 _].
  rewrite map_app, join_app. cbn [map]. rewrite mjoin_cons, !Hl by (done || (intros H; by apply (Hn1 k H); left)).
  cbn [snd map]. rewrite <- IH by (intros kv Hkv; apply Hk; by right).
  rewrite map_app, join_app. cbn [map]. rewrite mjoin_cons. unfold members at 2. cbn [List.filter fst].
  rewrite bool_decide_eq_true_2 by done. cbn [map snd app]. symmetry. apply Permutation_middle.
Qed.

Lemma NoDup_firsts {A} `{EqDecision A} (seen l : list A) :
  NoDup (firsts seen l) /\ forall x, x ∈ firsts seen l -> ~ (x ∈ seen).
Proof.
  revert seen. induction l as [|y l IH]; intros seen; cbn [firsts].
  - split; [constructor|]. by intros x ?%not_elem_of_nil.
  - case_bool_decide as Hy; [apply IH|]. destruct (IH (y :: seen)) as [H1 H2]. split.
    + constructor; [|done]. intros H. apply (H2 y H). by left.
    + intros x [->|Hx]%elem_of_cons; [done|]. intros Hs. apply (H2 x Hx). by right.
Qed.

Lemma mapM_fmap {A B C} (f : A -> result B) (g : B -> C) l : mapM (fun x => g <$> f x) l = map g <$> mapM f l.
Proof. induction l as [|x l IH]; [done|]. cbn [mapM]. rewrite IH. destruct (f x); [|done]. by destruct (mapM f l). Qed.

Lemma mapM_ext {A B} (f g : A -> result B) l : (forall x, f x = g x) -> mapM f l = mapM g l.
Proof. intros H. induction l as [|x l IH]; [done|]. cbn [mapM]. by rewrite H, IH. Qed.

Lemma mapM_ok {A B} (f : A -> result B) l vs : mapM f l = Ok vs -> Forall2 (fun x v => f x = Ok v) l vs.
Proof.
  revert vs. induction l as [|x l IH]; intros vs; cbn [mapM]; [by intros [= <-]|].
  destruct (f x) as [v|] eqn:E; [|done]. cbn [mbind result_bind]. destruct (mapM f l) as [vs'|]; [|done].
  intros [= <-]. constructor; [done|by apply IH].
Qed.

Lemma mjoin_marked_inj (vs ws : list bytes) :
  Forall (fun v => ~ (1%Z ∈ v)) vs -> Forall (fun v => ~ (1%Z ∈ v)) ws -> length vs = length ws ->
  mjoin (map (cons 1%Z) vs) = mjoin (map (cons 1%Z) ws) -> vs = ws.
Proof.
  intros Hv. revert ws. induction Hv as [|v vs Hv Hvs IH]; intros [|w ws] Hw Hl; try done.
  apply Forall_cons in Hw as [Hw Hws]. cbn [map]. rewrite !mjoin_cons. cbn [app]. intros [= E].
  assert (forall l : list bytes, match mjoin (map (cons 1%Z) l) with [] => True | y :: _ => negb (y =? 1)%Z = false end) as Hh
    by (by intros [|? ?]).
  assert (forall u l, ~ (1%Z ∈ u) -> take_while (fun c => negb (c =? 1)%Z) (u ++ mjoin (map (cons 1%Z) l)) = u /\
    drop_while (fun c => negb (c =? 1)%Z) (u ++ mjoin (map (cons 1%Z) l)) = mjoin (map (cons 1%Z) l)) as Hs.
  { intros u l Hu. apply take_while_all.
    - apply Forall_forall. intros x Hx. apply negb_true_iff, Z.eqb_neq. by intros ->.
    - apply Hh. }
  destruct (Hs v vs Hv) as [T1 D1], (Hs w ws Hw) as [T2 D2]. rewrite E in T1, D1.
  f_equal; [congruence|]. apply IH; [done|by injection Hl|congruence].
Qed.

Section reference.
Context {DB : Double}.
Context (regex_search : bytes -> bytes -> option bool).
Context (evalExprStr : bytes -> list Column -> list bytes -> bytes).
Context (match_against : list bytes -> bytes -> bytes -> list Column -> list bytes -> bool).
Context (formatNum : dbl -> bytes) (dcount : nat -> dbl).
Context (evaluateFunc : bytes -> list bytes -> Table BTree -> Row -> result bytes).
Context (stof : bytes -> option dbl) (print_g : dbl -> bytes).
Context (sort_points : list (bytes * dbl) -> list (bytes * dbl)).

Abbreviation rowMatches db := (rowMatches regex_search evalExprStr match_against formatNum dcount (Select.tables_ db)).
Abbreviation groupBy :=
  (groupBy regex_search evalExprStr match_against formatNum dcount evaluateFunc stof print_g sort_points).
Abbreviation add_groups :=
  (add_groups regex_search formatNum dcount evaluateFunc stof print_g sort_points).
Abbreviation computeItemValue := (computeItemValue evaluateFunc).

(** The value a GROUP BY column has in a row. *)
Definition group_value (src : Table BTree) (row : Row) (gk : GroupByKey) : result bytes :=
  match gk with
  | ByColumn ci => Ok (default [] (values row !! ci))
  | ByItem item => computeItemValue src item row
  | ByNothing => Ok []
  end.

(** The reference: the distinct tuples of group values, each with its rows. *)
Definition tuple_groups (src : Table BTree) (gks : list GroupByKey) (filtered : list nat) : result (list (list nat)) :=
  tuples ← mapM (fun ri => mapM (group_value src (row_at (rows_ src) ri)) gks) filtered;
  Ok (map (fun k => members k (zip tuples filtered)) (firsts [] tuples)).

Definition group_by (db : Engine) (tblName : bytes) (whereConds : list Where.WhereCondition) (whereLogic : bytes)
    (groupCols : list bytes) (selectItems : list SelectItem) (havingConds : list HavingCondition)
    (havingLogic : bytes) : result (Table BTree) :=
  src ← getTable (Select.tables_ db) tblName;
  if bool_decide (groupCols = []) then Throw "GROUP BY: keine Spalten angegeben"
  else if bool_decide (selectItems = []) then Throw "GROUP BY: leere SELECT-Liste"
  else
    filtered ← matching_rows (fun r => rowMatches db src r whereConds whereLogic) 0 (rows_ src);
    gs ← tuple_groups src (map (group_key (columns_ src) selectItems) groupCols) filtered;
    add_groups src selectItems havingConds havingLogic gs (result_table selectItems).

(** No value of a live row in the columns grouped by contains the byte 1 that the
    keys are built with ([group_keys_collide]). *)
Definition separable (src : Table BTree) (gks : list GroupByKey) : Prop :=
  forall r gk v, r ∈ rows_ src -> alive r = true -> gk ∈ gks -> group_value src r gk = Ok v -> ~ (1%Z ∈ v).

Lemma matching_live test k rs l i :
  matching_rows test k rs = Ok l -> i ∈ l -> exists j r, i = k + j /\ rs !! j = Some r /\ alive r = true.
Proof.
  revert k l. induction rs as [|r rs IH]; intros k l; cbn [matching_rows]; [by intros [= <-] ?%elem_of_nil|].
  assert (forall l', matching_rows test (S k) rs = Ok l' -> i ∈ l' -> exists j r', i = k + j /\ (r :: rs) !! j = Some r' /\ alive r' = true)
    as Hrest by (intros l' H1 H2; destruct (IH (S k) l' H1 H2) as (j & r' & -> & ? & ?); exists (S j), r'; split_and!; [lia|done..]).
  destruct (alive r) eqn:Ha; [|by apply Hrest]. destruct (test r) as [b|]; [|done]. cbn [mbind result_bind].
  destruct (matching_rows test (S k) rs) as [l'|]; [|done]. cbn [mbind result_bind]. intros [= <-].
  destruct b; [|by apply Hrest]. intros [->|Hi]%elem_of_cons; [|by apply (Hrest l')]. exists 0, r. by rewrite Nat.add_0_r.
Qed.

Lemma key_of_row_tuple src gks row :
  key_of_row evaluateFunc src gks row = (fun vs => mjoin (map (cons 1%Z) vs)) <$> mapM (group_value src row) gks.
Proof.
  unfold key_of_row. rewrite (mapM_ext _ (fun gk => cons 1%Z <$> group_value src row gk)).
  - rewrite mapM_fmap. by destruct (mapM _ gks).
  - intros [ci|item|]; cbn [key_part group_value]; [done| |done]. by destruct (Query.computeItemValue _ _ _ _).
Qed.

(** The map of keys yields the groups of the reference. *)
Lemma groups_by_key src gks filtered test :
  separable src gks -> matching_rows test 0 (rows_ src) = Ok filtered ->
  (keys ← mapM (fun ri => key_of_row evaluateFunc src gks (row_at (rows_ src) ri)) filtered;
   Ok (map snd (group_rows (zip keys filtered)))) = tuple_groups src gks filtered.
Proof.
  intros Hs Hm. unfold tuple_groups.
  rewrite (mapM_ext _ _ filtered (fun ri => key_of_row_tuple src gks (row_at (rows_ src) ri))), mapM_fmap.
  destruct (mapM (fun ri => mapM _ gks) filtered) as [tuples|] eqn:E; [|done]. cbn [fmap result_fmap mbind result_bind].
  f_equal. apply mapM_ok in E. assert (length tuples = length filtered) as Hl by (symmetry; by eapply Forall2_length).
  set (f := fun vs => mjoin (map (cons 1%Z) vs)).
  assert (forall x y, x ∈ tuples -> y ∈ tuples -> f x = f y -> x = y) as Hinj.
  { assert (Forall (fun t => Forall (fun v => ~ (1%Z ∈ v)) t /\ length t = length gks) tuples) as Ht.
    { assert (forall i, i ∈ filtered -> row_at (rows_ src) i ∈ rows_ src /\ alive (row_at (rows_ src) i) = true) as Hrow.
      { intros i Hi. destruct (matching_live _ _ _ _ _ Hm Hi) as (j & r & -> & Hr & Ha). cbn [Nat.add].
        assert (row_at (rows_ src) j = r) as -> by (unfold row_at; by apply nth_lookup_Some). split; [by eapply list_elem_of_lookup_2|done]. }
      clear Hl Hm. induction E as [|i t is_ ts Ht _ IH]; constructor; [|apply IH; intros j Hj; apply Hrow; by right].
      apply mapM_ok in Ht. split; [|symmetry; by eapply Forall2_length]. destruct (Hrow i) as [Hr Ha]; [by left|].
      apply Forall_forall. intros v (n & Hn)%list_elem_of_lookup. destruct (Forall2_lookup_r _ _ _ _ _ Ht Hn) as (gk & Hgk & Hv).
      by apply (Hs _ gk v Hr Ha); [eapply list_elem_of_lookup_2|]. }
    rewrite Forall_forall in Ht. intros x y [Hx1 Hx2]%Ht [Hy1 Hy2]%Ht. apply mjoin_marked_inj; [done..|congruence]. }
  rewrite group_rows_spec, map_map. cbn [snd].
  assert (map fst (zip (map f tuples) filtered) = map f tuples) as -> by (apply fst_zip; rewrite length_map; lia).
  rewrite (firsts_map f []) by (intros; by apply Hinj). rewrite map_map. apply map_ext_in.
  intros k Hk%list_elem_of_In%elem_of_firsts. apply members_map. intros x Hx. by apply Hinj.
Qed.

(** The groups share the filtered rows among them: each row is in one group. *)
Lemma tuple_groups_partition src gks filtered gs : tuple_groups src gks filtered = Ok gs -> mjoin gs ≡ₚ filtered.
Proof.
  unfold tuple_groups. destruct (mapM _ filtered) as [tuples|] eqn:E; [|done]. cbn [mbind result_bind]. intros [= <-].
  apply mapM_ok, Forall2_length in E. rewrite members_partition.
  - by rewrite snd_zip by lia.
  - apply NoDup_firsts.
  - intros [k i] Hk. apply elem_of_firsts_all. apply list_elem_of_In, in_combine_l in Hk. by apply list_elem_of_In.
Qed.

(** [C19] GROUP BY on one table returns what its reference returns, exceptions included:
    one row for each distinct tuple of group values among the live rows that satisfy
    WHERE, in the order of their first appearance, computed from exactly the rows
    with that tuple and kept if HAVING holds; provided that no group value of a
    live row, be it the value of a column or of an item of the select list, contains
    the byte 1.  With such bytes in them different tuples can become one group
    ([group_keys_collide]). *)
Theorem groupBy_reference db tblName whereConds whereLogic groupCols items havingConds havingLogic :
  (forall src, Select.tables_ db !! tblName = Some src -> separable src (map (group_key (columns_ src) items) groupCols)) ->
  groupBy db tblName whereConds whereLogic groupCols items havingConds havingLogic =
    group_by db tblName whereConds whereLogic groupCols items havingConds havingLogic.
Proof.
  intros Hs. unfold Query.groupBy, group_by, getTable. destruct (_ !! tblName) as [src|]; [|done].
  cbn [mbind result_bind]. do 2 (case_bool_decide; [done|]). destruct (matching_rows _ _ _) as [filtered|] eqn:E; [|done].
  cbn [mbind result_bind]. rewrite <- (groups_by_key _ _ _ _ (Hs src eq_refl) E). by destruct (mapM _ filtered).
Qed.
End reference.

(** ** Threads *)

Lemma column_numbers_app {DB : Double} ci l1 l2 :
  column_numbers ci (l1 ++ l2) = column_numbers ci l1 ++ column_numbers ci l2.
Proof. apply omap_app. Qed.

Lemma column_numbers_chunks {DB : Double} ci ls :
  mjoin (map (fun c => column_numbers ci (List.filter alive c)) ls) = column_numbers ci (List.filter alive (mjoin ls)).
Proof.
  induction ls as [|l ls IH]; [done|]. cbn [map]. by rewrite !mjoin_cons, List.filter_app, column_numbers_app, IH.
Qed.

(** The chunks of the workers together are the rows. *)
Lemma chunks_cover rows workers :
  0 < workers -> mjoin (map (chunk_of rows ((length rows + workers - 1) / workers)) (seq 0 workers)) = rows.
Proof.
  intros Hw. rewrite mjoin_chunks, firstn_all2; [done|].
  pose proof (Nat.div_mod (length rows + workers - 1) workers). pose proof (Nat.mod_upper_bound (length rows + workers - 1) workers).
  nia.
Qed.

Lemma matching_all k rs :
  matching_rows (fun _ => Ok true) k rs =
    Ok (map fst (List.filter (fun ir => alive ir.2) (zip (seq k (length rs)) rs))).
Proof.
  revert k. induction rs as [|r rs IH]; intros k; [done|]. cbn [matching_rows length seq zip zip_with List.filter snd].
  rewrite IH. by destruct (alive r).
Qed.

Lemma rows_of_positions rs0 rs :
  map (row_at (rs0 ++ rs)) (map fst (List.filter (fun ir => alive ir.2) (zip (seq (length rs0) (length rs)) rs))) =
    List.filter alive rs.
Proof.
  revert rs0. induction rs as [|r rs IH]; intros rs0; [done|]. cbn [length seq zip zip_with List.filter snd].
  specialize (IH (rs0 ++ [r])). rewrite <- app_assoc, length_app, Nat.add_1_r in IH. cbn [app] in IH.
  destruct (alive r); cbn [map fst]; rewrite IH; [|done]. f_equal. unfold row_at.
  by rewrite app_nth2, Nat.sub_diag by lia.
Qed.

(** The engine with one worker. *)
Definition sequential (db : Engine) : Engine :=
  Select.mkEngine (Select.tables_ db) (tableChildren_ db) (partitionMeta_ db) (rlsEnabled_ db) (rlsPolicies_ db)
    (currentUser_ db) 1 (threshold db).

(** The number of worker threads does not change the value of MIN, MAX, SUM
    and AVG, although doubles are added up in an order that matters: the partial
    lists are put together in the order of the rows. *)
Theorem aggregate_workers `{DB : Double} regex_search evalExprStr match_against formatNum dcount db tblName func col conds
    logic :
  func <> COUNT ->
  let run db := computeAggregate regex_search evalExprStr match_against formatNum dcount db tblName func col conds logic in
  run db = run (sequential db).
Proof.
  intros Hf. cbv zeta. unfold computeAggregate. cbn [Select.tables_ sequential numWorkers threshold].
  destruct (getTable _ _) as [src|]; [|done]. cbn [mbind result_bind]. destruct (colIdx _ _) as [ci|]; [|done].
  cbn [mbind result_bind]. change (1 <? 1) with false. cbn [andb].
  destruct (1 <? numWorkers db) eqn:Hw; [|done]. destruct (_ <=? _); [|done]. case_bool_decide as Hc; [subst conds|done].
  cbn [andb]. change (fun r => Where.rowMatches regex_search evalExprStr match_against formatNum dcount
    (Select.tables_ db) src r [] logic) with (fun r : Row => @Ok bool true).
  rewrite matching_all. cbn [mbind result_bind]. pose proof (rows_of_positions [] (rows_ src)) as E. cbn [app length] in E. rewrite E.
  unfold parallelAggregate_. assert (bytes_eqb func COUNT = false) as -> by by apply bool_decide_eq_false_2.
  destruct (Nat.eqb_spec (length (rows_ src)) 0) as [H0|_]; [by apply nil_length_inv in H0 as ->|].
  rewrite column_numbers_chunks, chunks_cover; [done|]. apply Nat.ltb_lt in Hw. lia.
Qed.

(** ** Set operations *)

Lemma first_rows_spec keep seen rs :
  NoDup (map values (first_rows keep seen rs)) /\
  forall v, v ∈ map values (first_rows keep seen rs) <-> ~ (v ∈ seen) /\ v ∈ map values (List.filter keep rs).
Proof.
  revert seen. induction rs as [|r rs IH]; intros seen; cbn [first_rows List.filter].
  { split; [constructor|]. intros v. split; [intros H|intros [_ H]]; by apply not_elem_of_nil in H. }
  destruct (keep r); cbn [andb map]; [|apply IH]. case_bool_decide as Hs; cbn [negb].
  - destruct (IH seen) as [H1 H2]. split; [done|]. intros v. rewrite H2, elem_of_cons. naive_solver.
  - destruct (IH (values r :: seen)) as [H1 H2]. cbn [map]. split.
    + constructor; [|done]. rewrite H2. intros [Hn _]. apply Hn, list_elem_of_here.
    + intros v. rewrite !elem_of_cons, H2, not_elem_of_cons. destruct (decide (v = values r)); naive_solver.
Qed.

Lemma first_rows_sublist keep seen rs : sublist (first_rows keep seen rs) rs.
Proof. revert seen. induction rs as [|r rs IH]; intros seen; cbn [first_rows]; [done|]. destruct (_ && _); by constructor. Qed.

(** What each operation promises of the tuples of its result. *)
Definition set_op_result (op : bytes) (left right result : list (list bytes)) : Prop :=
  if bytes_eqb op (str "UNION ALL") then result = left ++ right
  else NoDup result /\ forall v, v ∈ result <->
    if bytes_eqb op (str "UNION") then v ∈ left \/ v ∈ right
    else if bytes_eqb op (str "INTERSECT") then v ∈ left /\ v ∈ right
    else v ∈ left /\ ~ (v ∈ right).

Definition set_ops : list bytes := [str "UNION ALL"; str "UNION"; str "INTERSECT"; str "EXCEPT"].

Lemma elem_of_filter_values (keep : Row -> bool) (P : list bytes -> Prop) rs v :
  (forall r, keep r = true <-> P (values r)) ->
  v ∈ map values (List.filter keep rs) <-> v ∈ map values rs /\ P v.
Proof.
  intros Hk. rewrite !list_elem_of_fmap. split.
  - intros (r & -> & [H1 H2]%list_elem_of_In%filter_In). split; [|by apply Hk]. exists r. by rewrite list_elem_of_In.
  - intros [(r & -> & H) Hp]. exists r. split; [done|]. apply list_elem_of_In, filter_In. by rewrite <- list_elem_of_In, Hk.
Qed.

Lemma set_op_rows_ok op left right :
  op ∈ set_ops ->
  exists rows, set_op_rows op left right = Some rows /\ sublist rows (left ++ right) /\
    set_op_result op (map values left) (map values right) (map values rows).
Proof.
  intros Hop. assert (existsb (bytes_eqb op) set_ops = true) as Hb.
  { apply existsb_exists. exists op. split; [by apply list_elem_of_In|by apply bool_decide_eq_true]. }
  clear Hop. unfold set_ops in Hb. cbn [existsb] in Hb. unfold set_op_rows, set_op_result.
  destruct (bytes_eqb op (str "UNION ALL")); [eexists; split_and!; [done..|apply map_app]|].
  destruct (bytes_eqb op (str "UNION")); [|destruct (bytes_eqb op (str "INTERSECT"));
    [|destruct (bytes_eqb op (str "EXCEPT")); [|done]]].
  - eexists. split_and!; [done|apply first_rows_sublist|apply first_rows_spec|]. intros v.
    rewrite (proj2 (first_rows_spec _ _ _)), (elem_of_filter_values _ (fun _ => True)) by done.
    rewrite map_app, elem_of_app, elem_of_nil. tauto.
  - eexists. split_and!; [done|apply sublist_inserts_r, first_rows_sublist|apply first_rows_spec|]. intros v.
    rewrite (proj2 (first_rows_spec _ _ _)), (elem_of_filter_values _ (fun v => v ∈ map values right)), elem_of_nil; [tauto|].
    intros r. by rewrite bool_decide_eq_true.
  - eexists. split_and!; [done|apply sublist_inserts_r, first_rows_sublist|apply first_rows_spec|]. intros v.
    rewrite (proj2 (first_rows_spec _ _ _)), (elem_of_filter_values _ (fun v => ~ (v ∈ map values right))), elem_of_nil; [tauto|].
    intros r. by rewrite negb_true_iff, bool_decide_eq_false.
Qed.

(** [C35] UNION ALL, UNION, INTERSECT and EXCEPT of two results of equal width return
    the columns of the left side and, as tuples, what they are called after: the
    concatenation, or the union, the intersection or the difference without
    repetition. The columns of the left side carry no NOT NULL, UNIQUE or key: the
    result keeps these constraints and may violate them ([union_all_unique]). *)
Theorem executeSetOp_spec left op right :
  op ∈ set_ops -> length (columns_ left) = length (columns_ right) ->
  unconstrained (columns_ left) -> wide left -> wide right ->
  exists t, executeSetOp left op right = Ok t /\ columns_ t = columns_ left /\ set_op_result op (map values (rows_ left)) (map values (rows_ right)) (map values (rows_ t)).
Proof.
  intros Hop Hl Hu Hw1 Hw2. unfold executeSetOp. rewrite Hl, Nat.eqb_refl. cbn [negb].
  destruct (set_op_rows_ok op (rows_ left) (rows_ right) Hop) as (rows & -> & Hs & Hr).
  destruct (insert_all_ok (tree := BTree) (table [] (columns_ left)) rows) as (t & -> & Hc & Ht); [done| |].
  - unfold wide in *. rewrite Forall_forall in Hw1, Hw2 |- *. intros r Hin.
    apply (elem_of_sublist _ (rows_ left ++ rows_ right)) in Hin; [|done].
    cbn [columns_ table]. apply elem_of_app in Hin as [H|H]; [by apply Hw1|rewrite Hl; by apply Hw2].
  - exists t. split_and!; [done..|]. by rewrite Ht.
Qed.

(** ** Sorting *)

(** What IEEE 754 promises of comparisons. *)
Class DoubleOrder (DB : Double) : Prop := {
  dlt_irrefl x : dlt x x = false;
  dlt_trans x y z : dlt x y = true -> dlt y z = true -> dlt x z = true;
  dlt_cases x y : disnan x = false -> disnan y = false -> dlt x y = true \/ deq x y = true \/ dlt y x = true;
  deq_dlt x y z : deq x y = true -> dlt x z = dlt y z /\ dlt z x = dlt z y;
  deq_comm x y : deq x y = deq y x }.

#[export] Instance IntDouble_order : DoubleOrder IntDouble.
Proof.
  split; unfold dlt, deq, disnan, IntDouble.
  - intros [x|]; [apply Z.ltb_irrefl|done].
  - intros [x|] [y|] [z|]; rewrite ?Z.ltb_lt; lia || done.
  - intros [x|] [y|]; rewrite ?Z.ltb_lt, ?Z.eqb_eq; intros; try done. lia.
  - intros [x|] [y|] [z|]; rewrite ?Z.eqb_eq; intros; subst; done.
  - intros [x|] [y|]; [apply Z.eqb_sym|done..].
Qed.

(** [std::stable_sort], which leaves equal elements in their order. *)
Fixpoint insert_stable {A} (lt : A -> A -> bool) (x : A) (l : list A) : list A :=
  match l with
  | [] => [x]
  | y :: l' => if lt y x then y :: insert_stable lt x l' else x :: l
  end.
Definition stable_sort {A} (lt : A -> A -> bool) (l : list A) : list A := foldr (insert_stable lt) [] l.

Lemma insert_stable_perm {A} (lt : A -> A -> bool) x l : insert_stable lt x l ≡ₚ x :: l.
Proof.
  induction l as [|y l IH]; [done|]. cbn [insert_stable]. destruct (lt y x); [|done]. rewrite IH. constructor.
Qed.

Lemma stable_sort_perm {A} (lt : A -> A -> bool) l : stable_sort lt l ≡ₚ l.
Proof. induction l as [|x l IH]; [done|]. cbn [stable_sort foldr]. rewrite insert_stable_perm. by constructor. Qed.

Lemma weak_order_sub {A} (lt : A -> A -> bool) l l' :
  (forall x, x ∈ l' -> x ∈ l) -> weak_order lt l -> weak_order lt l'.
Proof.
  intros Hs [H1 H2 H3]. split.
  - intros x Hx. by apply H1, Hs.
  - intros x y z Hx Hy Hz. apply H2; by apply Hs.
  - intros x y z Hx Hy Hz. apply H3; by apply Hs.
Qed.

Lemma weak_asym {A} (lt : A -> A -> bool) l x y :
  weak_order lt l -> x ∈ l -> y ∈ l -> lt x y = true -> lt y x = false.
Proof.
  intros [H1 H2 _] Hx Hy H. apply not_true_is_false. intros H'. specialize (H2 x y x Hx Hy Hx H H').
  by rewrite H1 in H2.
Qed.

Lemma insert_stable_ordered {A} (lt : A -> A -> bool) x l :
  weak_order lt (x :: l) -> ordered lt l -> ordered lt (insert_stable lt x l).
Proof.
  intros Hw Ho. induction Ho as [|y l Ho IH Hy]; cbn [insert_stable]; [by repeat constructor|].
  assert (weak_order lt (x :: l)) as Hw' by (eapply weak_order_sub; [|exact Hw]; set_solver).
  destruct (lt y x) eqn:E; constructor.
  - by apply IH.
  - rewrite (insert_stable_perm lt x l). constructor; [|done].
    eapply weak_asym; [exact Hw|set_solver..|done].
  - by constructor.
  - constructor; [done|]. rewrite Forall_forall in Hy |- *. intros z Hz. apply not_true_is_false. intros H.
    destruct (weak_total _ _ Hw z y x) as [H'|H']; [set_solver..|done| |congruence].
    by rewrite Hy in H'.
Qed.

Lemma stable_sort_ordered {A} (lt : A -> A -> bool) l : weak_order lt l -> ordered lt (stable_sort lt l).
Proof.
  induction l as [|x l IH]; intros Hw; [constructor|]. cbn [stable_sort foldr]. fold (stable_sort lt l).
  apply insert_stable_ordered.
  - eapply weak_order_sub; [|exact Hw]. intros y. by rewrite stable_sort_perm.
  - apply IH. eapply weak_order_sub; [|exact Hw]. set_solver.
Qed.

Definition StableSort : StdSort := {|
  std_sort A := stable_sort;
  std_sort_perm A lt l _ := stable_sort_perm lt l;
  std_sort_ordered A lt l := stable_sort_ordered lt l |}.

(** Two comparators, the second for what the first does not decide. *)
Definition decides {A} (c : A -> A -> option bool) (lt : A -> A -> bool) (l : list A) : Prop :=
  forall x y, x ∈ l -> y ∈ l -> c x y = if lt x y then Some true else if lt y x then Some false else None.

(** Facts about known booleans. *)
Ltac bool_facts :=
  cbn [default] in *;
  repeat match goal with
  | H : true = true -> _ |- _ => specialize (H eq_refl)
  | H : false = true -> _ |- _ => clear H
  | H : false = true \/ _ |- _ => destruct H as [H|H]; [discriminate H|]
  | H : _ \/ false = true |- _ => destruct H as [H|H]; [|discriminate H]
  end; intros; try discriminate; auto.

Lemma lex_weak {A} (c : A -> A -> option bool) (lt1 lt2 : A -> A -> bool) l :
  weak_order lt1 l -> weak_order lt2 l -> decides c lt1 l -> weak_order (fun x y => default (lt2 x y) (c x y)) l.
Proof.
  intros W1 W2 Hc. split.
  - intros x Hx. rewrite Hc, !(weak_irrefl _ _ W1) by done. by apply (weak_irrefl _ _ W2).
  - intros x y z Hx Hy Hz. rewrite !Hc by done.
    pose proof (weak_trans _ _ W1 x y z Hx Hy Hz). pose proof (weak_trans _ _ W1 z y x Hz Hy Hx).
    pose proof (weak_total _ _ W1 x y z Hx Hy Hz). pose proof (weak_total _ _ W1 z y x Hz Hy Hx).
    pose proof (weak_total _ _ W1 x z y Hx Hz Hy). pose proof (weak_total _ _ W1 y x z Hy Hx Hz).
    pose proof (weak_trans _ _ W2 x y z Hx Hy Hz).
    destruct (lt1 x y), (lt1 y x), (lt1 y z), (lt1 z y), (lt1 x z), (lt1 z x); bool_facts.
  - intros x y z Hx Hy Hz. rewrite !Hc by done.
    pose proof (weak_total _ _ W1 x y z Hx Hy Hz). pose proof (weak_total _ _ W1 z y x Hz Hy Hx).
    pose proof (weak_trans _ _ W1 z x y Hz Hx Hy). pose proof (weak_trans _ _ W1 y z x Hy Hz Hx).
    pose proof (weak_total _ _ W1 y z x Hy Hz Hx). pose proof (weak_total _ _ W1 z x y Hz Hx Hy).
    pose proof (weak_total _ _ W2 x y z Hx Hy Hz).
    destruct (lt1 x y), (lt1 y x), (lt1 y z), (lt1 z y), (lt1 x z), (lt1 z x); bool_facts.
Qed.

Section sorting.
Context {DB : Double} {DO : DoubleOrder DB} {SS : StdSort}.

(** A text that is a number to its end. *)
Definition number (v : bytes) : option dbl := '(d, e) ← stod_pos v; if e =? length v then Some d else None.

Lemma numbers_number a b : numbers a b = x ← number a; y ← number b; Some (x, y).
Proof.
  unfold numbers, number. destruct (stod_pos a) as [[x ea]|]; [|done]. cbn [mbind option_bind].
  destruct (stod_pos b) as [[y eb]|]; cbn [mbind option_bind]; destruct (ea =? length a); try done.
  by destruct (eb =? length b).
Qed.

(** A column in which the comparator is an order: numbers only, or no number at all. *)
Definition uniform_column (rs : list Row) (ci : nat) : Prop :=
  (forall r, r ∈ rs -> exists d, number (cell ci r) = Some d /\ disnan d = false) \/
  (forall r, r ∈ rs -> number (cell ci r) = None).

(** The order a column of a row comes in. *)
Definition num_of (ci : nat) (r : Row) : dbl := default dzero (number (cell ci r)).

Definition column_lt (as_number desc : bool) (ci : nat) (a b : Row) : bool :=
  let lt a b := if as_number then dlt (num_of ci a) (num_of ci b) else bytes_ltb (cell ci a) (cell ci b) in
  if desc then lt b a else lt a b.

Lemma weak_flip {A} (lt : A -> A -> bool) l : weak_order lt l -> weak_order (fun x y => lt y x) l.
Proof.
  intros [H1 H2 H3]. split; [done|intros x y z Hx Hy Hz ? ?; by apply (H2 z y x)|].
  intros x y z Hx Hy Hz H. destruct (H3 z y x Hz Hy Hx H); auto.
Qed.

Lemma bytes_ltb_true a b : bytes_ltb a b = true <-> bytes_lt a b.
Proof. destruct (bytes_ltb_spec a b); split; done. Qed.

Lemma column_numbers_weak rs ci :
  (forall r, r ∈ rs -> exists d, number (cell ci r) = Some d /\ disnan d = false) ->
  weak_order (fun a b => dlt (num_of ci a) (num_of ci b)) rs.
Proof.
  intros Hn. split; [intros; apply dlt_irrefl|intros x y z _ _ _; apply dlt_trans|]. intros x y z Hx Hy Hz H.
  assert (forall r, r ∈ rs -> disnan (num_of ci r) = false) as Hd
    by (intros r (d & E & Hd)%Hn; unfold num_of; by rewrite E).
  destruct (dlt_cases (num_of ci x) (num_of ci y)) as [?|[E|E]]; [by apply Hd..|by left| |].
  - right. by rewrite <- (proj1 (deq_dlt _ _ _ E)).
  - right. by apply (dlt_trans _ (num_of ci x)).
Qed.

Lemma column_texts_weak rs ci : weak_order (fun a b => bytes_ltb (cell ci a) (cell ci b)) rs.
Proof.
  split; intros *; rewrite ?bytes_ltb_true.
  - intros _. apply not_true_is_false. rewrite bytes_ltb_true. apply StrictOrder_Irreflexive.
  - intros _ _ _. apply bytes_lt_trans.
  - intros _ _ _ H. destruct (bytes_lt_total (cell ci x) (cell ci y)) as [?|[E|?]]; [by left|right; by rewrite <- E|].
    right. by eapply bytes_lt_trans.
Qed.

Lemma cell_cmp_decides rs ci desc :
  uniform_column rs ci ->
  exists as_number, weak_order (column_lt as_number desc ci) rs /\
    decides (fun a b => cell_cmp desc (cell ci a) (cell ci b)) (column_lt as_number desc ci) rs.
Proof.
  intros [Hn|Hn]; [exists true|exists false].
  - pose proof (column_numbers_weak rs ci Hn) as Hw. split.
    + destruct desc; [by apply weak_flip|done].
    + intros a b Ha Hb. pose proof (Hn a Ha) as (da & Ea & Na). pose proof (Hn b Hb) as (db & Eb & Nb).
      unfold cell_cmp, column_lt, num_of. rewrite numbers_number, Ea, Eb. cbn [mbind option_bind].
      change (default dzero (Some da)) with da. change (default dzero (Some db)) with db.
      pose proof (deq_dlt da db) as He. pose proof (dlt_cases da db Na Nb) as Hc.
      pose proof (dlt_trans da db da) as Ht. rewrite dlt_irrefl in Ht.
      destruct (deq da db) eqn:E; cbn [negb].
      * destruct (He db) as [E1 _]; [done|]. destruct (He da) as [E2 _]; [done|].
        rewrite dlt_irrefl in E1, E2. destruct desc; by rewrite E1, <- E2.
      * destruct desc, (dlt da db), (dlt db da); try done; naive_solver.
  - pose proof (column_texts_weak rs ci) as Hw. split; [destruct desc; [by apply weak_flip|done]|].
    intros a b Ha Hb. unfold cell_cmp, column_lt. rewrite numbers_number, (Hn a Ha). cbn [mbind option_bind].
    unfold bytes_eqb. case_bool_decide as E; cbn [negb].
    + rewrite E. rewrite (weak_irrefl _ _ Hw b) by done. by destruct desc.
    + assert (bytes_ltb (cell ci a) (cell ci b) = negb (bytes_ltb (cell ci b) (cell ci a))) as ->; [|by destruct desc, (bytes_ltb _ _)].
      destruct (bytes_ltb_spec (cell ci a) (cell ci b)), (bytes_ltb_spec (cell ci b) (cell ci a)); try done; exfalso; bytes_order.
Qed.

Lemma row_lt_weak rs idxCols : Forall (fun p => uniform_column rs p.1) idxCols -> weak_order (row_lt idxCols) rs.
Proof.
  induction 1 as [|[ci desc] idxCols Hu _ IH]; [by split|]. cbn [fst] in Hu.
  destruct (cell_cmp_decides rs ci desc Hu) as (n & Hw & Hd).
  exact (lex_weak (fun a b => cell_cmp desc (cell ci a) (cell ci b)) _ _ rs Hw IH Hd).
Qed.

(** The order ORDER BY means: the first column whose values differ decides. *)
Definition before_cell (desc : bool) (u v : bytes) : Prop :=
  match number u, number v with
  | Some x, Some y => if desc then dlt y x = true else dlt x y = true
  | _, _ => if desc then bytes_lt v u else bytes_lt u v
  end.
Definition same_cell (u v : bytes) : Prop :=
  match number u, number v with Some x, Some y => deq x y = true | _, _ => u = v end.

Fixpoint lex_before (idxCols : list (nat * bool)) (a b : Row) : Prop :=
  match idxCols with
  | [] => False
  | (ci, desc) :: rest =>
      before_cell desc (cell ci a) (cell ci b) \/ (same_cell (cell ci a) (cell ci b) /\ lex_before rest a b)
  end.

Lemma row_lt_before idxCols a b : row_lt idxCols a b = true <-> lex_before idxCols a b.
Proof.
  induction idxCols as [|[ci desc] rest IH]; [by split|]. cbn [row_lt lex_before].
  unfold cell_cmp, before_cell, same_cell. rewrite numbers_number. unfold bytes_eqb.
  generalize (cell ci a) as u, (cell ci b) as v. intros u v.
  assert (forall x y, deq x y = true -> dlt x y = false /\ dlt y x = false) as Hd.
  { intros x y E. destruct (deq_dlt x y y E) as [-> ->]. by rewrite !dlt_irrefl. }
  assert (bytes_lt u v -> u <> v) as H1 by (intros H ->; by apply StrictOrder_Irreflexive in H).
  assert (bytes_lt v u -> u <> v) as H2 by (intros H ->; by apply StrictOrder_Irreflexive in H).
  destruct (number u) as [x|], (number v) as [y|]; cbn [mbind option_bind].
  1: { destruct (deq x y) eqn:E; cbn [negb].
       - destruct (Hd x y E) as [E1 E2]. rewrite E1, E2. change (default (row_lt rest a b) None) with (row_lt rest a b).
         rewrite IH. destruct desc; naive_solver.
       - destruct desc; change (default (row_lt rest a b) (Some ?z)) with z; naive_solver. }
  all: case_bool_decide as E; cbn [negb]; [change (default (row_lt rest a b) None) with (row_lt rest a b); rewrite IH|].
  all: destruct desc; try (change (default (row_lt rest a b) (Some ?z)) with z; rewrite bytes_ltb_true); naive_solver.
Qed.

(** [C20] ORDER BY permutes the rows and puts them in lexicographic order of the
    columns, descending where asked, provided that every column it sorts by holds
    numbers only or no number at all. *)
Theorem sortByMulti_sorted cols idxCols t :
  order_columns (columns_ t) cols = Ok idxCols -> Forall (fun p => uniform_column (rows_ t) p.1) idxCols ->
  exists t', sortByMulti cols t = Ok t' /\ columns_ t' = columns_ t /\ rows_ t' ≡ₚ rows_ t /\
    StronglySorted (fun a b => ~ lex_before idxCols b a) (rows_ t').
Proof.
  intros Ho Hu. unfold sortByMulti. rewrite Ho. cbn [mbind result_bind].
  pose proof (row_lt_weak (rows_ t) idxCols Hu) as Hw.
  assert (forall l, ordered (row_lt idxCols) l -> StronglySorted (fun a b => ~ lex_before idxCols b a) l) as Hs.
  { intros l. induction 1 as [|a l _ IH Ha]; constructor; [done|]. eapply Forall_impl; [exact Ha|].
    intros b. cbv beta. by rewrite <- row_lt_before, not_true_iff_false. }
  case_bool_decide as E; eexists; split_and!; try done.
  - apply Hs. subst idxCols. clear. induction (rows_ t); constructor; [done|by apply Forall_true].
  - by apply std_sort_perm.
  - by apply Hs, std_sort_ordered.
Qed.
End sorting.

(** ** Examples *)

Section examples.
#[local] Existing Instance IntDouble.

Definition no_item_func (f : bytes) (args : list bytes) (src : Table BTree) (r : Row) : result bytes := Throw "Funktion".

Abbreviation ex_groupBy :=
  (groupBy no_regex no_func no_match print int_count no_item_func (fun _ => None) print (fun l => l)).

Definition column_item (c : string) : SelectItem :=
  mkItem false [] [] (str c) [] false [] [] [] [] [] [] false 1 NULL 1 false 0 0.
Definition agg_item (f c : string) : SelectItem :=
  mkItem true (str f) (str c) [] [] false [] [] [] [] [] [] false 1 NULL 1 false 0 0.

Definition tuples (r : result (Table BTree)) : result (list (list bytes)) := t ← r; Ok (map values (rows_ t)).

(** A table without constraints. *)
Definition plain_table (cols : list string) (rows : list (list string)) : Table BTree :=
  with_rows (table (str "t") (map (fun c => column (str c) (str "TEXT")) cols)) (map (fun r => row_of (map str r)) rows).

Definition ex_cities : Table BTree :=
  plain_table ["city"; "n"] [["Rom"; "3"]; ["Bern"; "4"]; ["Rom"; "NULL"]; ["Rom"; "5"]].
Definition ex_one (t : Table BTree) : Engine := eng {[str "t" := t]}.

Definition ex_items : list SelectItem := [column_item "city"; agg_item "COUNT" "*"; agg_item "SUM" "n"].
Definition ex_having : list HavingCondition := [mkHaving (str "SUM") (str "n") (str ">") (str "3")].

(** CONCAT: an argument that names a column stands for its value, any other for itself. *)
Definition ex_concat (f : bytes) (args : list bytes) (src : Table BTree) (r : Row) : result bytes :=
  if bytes_eqb f (str "CONCAT")
  then Ok (mjoin (map (fun a => match colOf_cols (columns_ src) a with Some i => default [] (values r !! i) | None => a end) args))
  else Throw "Funktion".
Definition concat_item (args : list string) (name : string) : SelectItem :=
  mkItem false [] [] [] (str name) true (str "CONCAT") (map str args) [] [] [] [] false 1 NULL 1 false 0 0.

(** SELECT CONCAT(city, '!') AS c, COUNT( * ), SUM(n) FROM t GROUP BY c HAVING SUM(n) > 3 *)
Lemma groupBy_reference_witness :
  let q (f : Engine -> bytes -> list WhereCondition -> bytes -> list bytes -> list SelectItem -> list HavingCondition ->
             bytes -> result (Table BTree)) :=
    f (ex_one ex_cities) (str "t") [] AND [str "c"] (concat_item ["city"; "!"] "c" :: tail ex_items) ex_having AND in
  let ex (A : Type) (g : _ -> _ -> _ -> _ -> _ -> _ -> _ -> _ -> _ -> A) : A :=
    g no_regex no_func no_match print int_count ex_concat (fun _ => None) print (fun l => l) in
  tuples (q (ex _ groupBy)) = Ok [[str "Rom!"; str "3"; str "8"]; [str "Bern!"; str "1"; str "4"]] /\
  q (ex _ groupBy) = q (ex _ group_by).
Proof.
  cbv zeta. split; [by vm_compute|]. apply groupBy_reference. intros src [= <-] r gk v Hr _ Hg.
  apply list_elem_of_singleton in Hg as ->. apply list_elem_of_In in Hr. vm_compute in Hr.
  destruct_or! Hr; subst; try done; intros H; vm_compute in H; injection H as <-; by_decide.
Defined.

Definition workers_db (n : nat) : Engine := Select.mkEngine {[str "t" := ex_cities]} ∅ ∅ ∅ ∅ ROOT n 2.

Lemma aggregate_workers_witness :
  computeAggregate no_regex no_func no_match print int_count (workers_db 3) (str "t") SUM (str "n") [] AND = Ok (str "12") /\
  computeAggregate no_regex no_func no_match print int_count (workers_db 3) (str "t") SUM (str "n") [] AND =
    computeAggregate no_regex no_func no_match print int_count (sequential (workers_db 3)) (str "t") SUM (str "n") [] AND.
Proof. split; [by vm_compute|]. by apply aggregate_workers. Defined.

Definition ex_left : Table BTree := plain_table ["a"] [["1"]; ["2"]; ["1"]].
Definition ex_right : Table BTree := plain_table ["b"] [["2"]; ["3"]].

Lemma executeSetOp_spec_witness :
  tuples (executeSetOp ex_left (str "UNION") ex_right) = Ok [[str "1"]; [str "2"]; [str "3"]] /\
  exists t, executeSetOp ex_left (str "EXCEPT") ex_right = Ok t /\ columns_ t = columns_ ex_left /\
    set_op_result (str "EXCEPT") (map values (rows_ ex_left)) (map values (rows_ ex_right)) (map values (rows_ t)).
Proof.
  split; [by vm_compute|]. apply executeSetOp_spec; [by_decide|done|repeat constructor..].
Defined.

#[local] Existing Instance StableSort.

Lemma sortByMulti_sorted_witness :
  let t := plain_table ["city"; "n"] [["Rom"; "10"]; ["Bern"; "4"]; ["Rom"; "9"]] in
  tuples (sortByMulti [(str "city", true); (str "2", false)] t) =
    Ok [[str "Rom"; str "9"]; [str "Rom"; str "10"]; [str "Bern"; str "4"]] /\
  exists t', sortByMulti [(str "city", true); (str "2", false)] t = Ok t' /\ columns_ t' = columns_ t /\
    rows_ t' ≡ₚ rows_ t /\ StronglySorted (fun a b => ~ lex_before [(0, true); (1, false)] b a) (rows_ t').
Proof.
  cbv zeta. split; [by vm_compute|]. apply sortByMulti_sorted; [by vm_compute|].
  apply Forall_cons; split; [|apply Forall_cons; split; [|done]]; cbn [fst].
  - right. intros r Hr. cbn in Hr. set_unfold. destruct_or!; subst; by vm_compute.
  - left. intros r Hr. cbn in Hr. set_unfold. destruct_or!; subst; (eexists; split; [by vm_compute|done]).
Defined.

(** ** Where results are not what the query says *)

Definition grouped (t : Table BTree) (cols : list string) (items : list SelectItem) (hv : list HavingCondition) :=
  tuples (ex_groupBy (ex_one t) (str "t") [] AND (map str cols) items hv AND).

(** A byte 1 in the data makes different groups one. *)
Lemma group_keys_collide :
  let t := with_rows (plain_table ["a"; "b"] []) [row_of [[120; 1; 121]; [122]]; row_of [[120]; [121; 1; 122]]]%Z in
  grouped t ["a"; "b"] [column_item "a"; agg_item "COUNT" "*"] [] = Ok [[[120; 1; 121]; [50]]]%Z.
Proof. by vm_compute. Qed.

(** A GROUP BY column that does not exist is ignored. *)
Lemma unknown_group_column :
  grouped ex_cities ["nope"] [agg_item "COUNT" "*"] [] = Ok [[str "4"]].
Proof. by vm_compute. Qed.

(** COUNT of a column counts NULL. *)
Lemma count_counts_null :
  grouped ex_cities ["city"] [column_item "city"; agg_item "COUNT" "n"] [] = Ok [[str "Rom"; str "3"]; [str "Bern"; str "1"]].
Proof. by vm_compute. Qed.

(** HAVING on an aggregate that is not selected removes every group. *)
Lemma having_needs_item :
  grouped ex_cities ["city"] [column_item "city"] [mkHaving (str "COUNT") (str "*") (str ">") (str "0")] = Ok [].
Proof. by vm_compute. Qed.

(** FIRST and LAST compare times as texts. *)
Lemma first_compares_texts :
  let t := plain_table ["g"; "v"; "ts"] [["x"; "a"; "9"]; ["x"; "b"; "10"]] in
  grouped t ["g"] [agg_item "FIRST" "v,ts"; agg_item "LAST" "v,ts"] [] = Ok [[str "b"; str "a"]].
Proof. by vm_compute. Qed.

Definition vector_avg_of (rows : list (list string)) :=
  tuples (groupBy no_regex no_func no_match print int_count no_item_func stod print (fun l => l)
    (ex_one (plain_table ["g"; "v"] rows)) (str "t") [] AND [str "g"] [agg_item "AVG" "v"] [] AND).

(** Whether AVG averages vectors depends on the first row alone. *)
Lemma vector_avg_first_row :
  vector_avg_of [["x"; "[1,3]"]; ["x"; "NULL"]] = Ok [[str "[1,3]"]] /\ vector_avg_of [["x"; "NULL"]; ["x"; "[1,3]"]] = Ok [[NULL]].
Proof. split; by vm_compute. Qed.

(** A grouping set that names its column with the table blanks it. *)
Lemma qualified_set_blanked :
  let rollup c := tuples (groupByMulti no_regex no_func no_match print int_count no_item_func (fun _ => None) print (fun l => l)
    (ex_one ex_cities) (str "t") [] AND [[str c]; []] [column_item "city"; agg_item "COUNT" "*"] [] AND) in
  rollup "city" = Ok [[str "Rom"; str "3"]; [str "Bern"; str "1"]; [[]; str "4"]] /\
  rollup "t.city" = Ok [[[]; str "3"]; [[]; str "1"]; [[]; str "4"]].
Proof. split; by vm_compute. Qed.

(** The result of UNION ALL inherits the constraints of the left table. *)
Lemma union_all_unique : throws (executeSetOp ex_table (str "UNION ALL") ex_table) = true.
Proof. by vm_compute. Qed.

(** The comparator of ORDER BY is not transitive on a column with numbers and
    texts, so that the behaviour of the sort is undefined. *)
Lemma mixed_column_cycle :
  let lt a b := row_lt [(0, false)] (row_of [str a]) (row_of [str b]) in
  lt "9" "10" = true /\ lt "10" "1a" = true /\ lt "1a" "9" = true.
Proof. split_and!; by vm_compute. Qed.

(** COUNT without WHERE counts rows that are logically deleted; SELECT does not return them. *)
Definition ex_stamped : Table BTree := with_rows ex_cities (map (set_xmax 7) (take 1 (rows_ ex_cities)) ++ drop 1 (rows_ ex_cities)).
Lemma count_counts_deleted :
  countRows 0 (ex_one ex_stamped) (str "t") false = Ok 4 /\
  length <$> select_ex true (ex_one ex_stamped) (str "t") [] = Ok 3.
Proof. split; by vm_compute. Qed.

Abbreviation ex_aggregate := (computeAggregate no_regex no_func no_match print int_count).

(** Aggregates read the rows a policy denies. *)
Lemma aggregate_bypasses_rls :
  select_ex true (denied_db ∅) (str "parent") [] = Ok [] /\
  countRows 0 (denied_db ∅) (str "parent") false = Ok 2 /\
  ex_aggregate (denied_db ∅) (str "parent") MAX (str "id") [] AND = Ok (str "2").
Proof. split_and!; by vm_compute. Qed.

(** COUNT includes the rows of child tables, the other aggregates do not. *)
Lemma aggregate_ignores_children :
  countRows 1 ex_family (str "p") false = Ok 2 /\ ex_aggregate ex_family (str "p") MAX (str "id") [] AND = Ok (str "1").
Proof. split; by vm_compute. Qed.
End examples.
