(* ===== verification/Rewriter.v ===== *)
(** * Query rewriting ([src/optimizer/query_rewriter.hpp])

    The rules a SELECT goes through when rewriting is switched on: conditions
    that are always true are dropped, and of two bounds on the same column the
    weaker one.  On clauses joined by AND whose bounds are plain numbers the
    rewritten clause has the value of the original one; the examples at the end
    show what the rules do to others. *)

From S2P Require Import Prelude Index BTree Partition Table Arith Where Select Query.

(** ** The rules *)

(** The members [col], [op] and [val] of a condition of any form. *)
Definition raw_fields (c : WhereCondition) : Comparison :=
  match c with
  | Simple c | FuncLhs _ c => c
  | ScalarSub name o _ => mkCmp name o [] [] [] []
  | Group _ _ | Exists _ _ | Match _ _ _ => mkCmp [] OTHER [] [] [] []
  end.

Definition is_one (s : bytes) : bool := bytes_eqb s (str "1") || bytes_eqb s (str "'1'").

Definition alwaysTrue (c : WhereCondition) : bool :=
  let f := raw_fields c in is_one (col f) && bool_decide (op f = EQ) && is_one (val f).

Definition removeAlwaysTrueConditions (conds : list WhereCondition) : list WhereCondition :=
  List.filter (fun c => negb (alwaysTrue c)) conds.

Definition is_bound (o : operator) : bool := bool_decide (o = GT \/ o = GE \/ o = LT \/ o = LE).

Section rewriter.
Context {DB : Double}.

(** The first bound is tighter than the second. *)
Definition tighter (ci cj : WhereCondition) : bool :=
  let fi := raw_fields ci in
  let fj := raw_fields cj in
  match stod (val fi), stod (val fj) with
  | Some vi, Some vj =>
      is_bound (op fi) && bytes_eqb (col fi) (col fj) && bool_decide (op fi = op fj) &&
      (if bool_decide (op fi = GT \/ op fi = GE) then dlt vj vi else dlt vi vj)
  | _, _ => false
  end.

(** One round of the outer loop: condition [i] marks the ones it is tighter than. *)
Definition mark (conds : list WhereCondition) (redundant : list bool) (i : nat) : list bool :=
  match conds !! i, redundant !! i with
  | Some ci, Some false => imap (fun j p => p.2 || (negb (i =? j) && tighter ci p.1)) (zip conds redundant)
  | _, _ => redundant
  end.

Definition marks (conds : list WhereCondition) : list bool :=
  fold_left (mark conds) (seq 0 (length conds)) (replicate (length conds) false).

Definition keep (conds : list WhereCondition) (redundant : list bool) : list WhereCondition :=
  map fst (List.filter (fun p => negb p.2) (zip conds redundant)).

Definition removeRedundantConditions (conds : list WhereCondition) (logic : bytes) : list WhereCondition :=
  if (length conds <? 2) || negb (bytes_eqb logic AND) then conds else keep conds (marks conds).

Definition rewrite_clause (enabled : bool) (conds : list WhereCondition) (logic : bytes) : list WhereCondition :=
  if enabled then removeRedundantConditions (removeAlwaysTrueConditions conds) logic else conds.
End rewriter.

(** ** The rules are sound *)

(** [<=] of doubles is [<] or [==]. *)
Class DoubleLe (DB : Double) : Prop := dle_split x y : dle x y = dlt x y || deq x y.

#[export] Instance IntDouble_le : DoubleLe IntDouble.
Proof.
  intros [x|] [y|]; try done. unfold dle, dlt, deq, IntDouble. apply eq_true_iff_eq.
  rewrite orb_true_iff, Z.leb_le, Z.ltb_lt, Z.eqb_eq. lia.
Qed.

Section sound.
Context {DB : Double} {DO : DoubleOrder DB} {DL : DoubleLe DB}.
Context (regex_search : bytes -> bytes -> option bool).
Context (evalExprStr : bytes -> list Column -> list bytes -> bytes).
Context (match_against : list bytes -> bytes -> bytes -> list Column -> list bytes -> bool).
Context (formatNum : dbl -> bytes) (dcount : nat -> dbl).
Context (tables_ : gmap bytes (Table BTree)).

Abbreviation evalOne := (evalOne regex_search evalExprStr match_against formatNum dcount tables_).
Abbreviation rowMatches := (rowMatches regex_search evalExprStr match_against formatNum dcount tables_).

(** On this row a bound is a comparison of a column with the number its text
    starts with, and the column holds a number or NULL. *)
Definition numeric_bound (cs : list Column) (vs : list bytes) (c : WhereCondition) : Prop :=
  is_bound (op (raw_fields c)) = true -> forall d, stod (val (raw_fields c)) = Some d ->
  exists s, c = Simple s /\ is_null (operand cs vs (val s)) = false /\
    number (stripQuotes (operand cs vs (val s))) = Some d /\
    forall v, lhs_value cs vs (col s) = Ok (Some v) -> is_null v = true \/ is_Some (number (stripQuotes v)).

Lemma dle_dlt x y z : dle x y = true -> dlt y z = true -> dle x z = true.
Proof.
  rewrite !dle_split, !orb_true_iff. intros [H|H] Hz; left; [by eapply dlt_trans|].
  by destruct (deq_dlt x y z H) as [-> _].
Qed.

Lemma dlt_dle x y z : dlt x y = true -> dle y z = true -> dle x z = true.
Proof.
  rewrite !dle_split, !orb_true_iff. intros H [Hz|Hz]; left; [by eapply dlt_trans|].
  by destruct (deq_dlt y z x Hz) as [_ <-].
Qed.

(** What a numeric bound tests. *)
Definition above (o : operator) (x d : dbl) : bool := compare_numbers o x d.

Lemma numeric_bound_value cs vs s d v :
  numeric_bound cs vs (Simple s) -> is_bound (op s) = true -> stod (val s) = Some d ->
  lhs_value cs vs (col s) = Ok (Some v) ->
  evalOne cs vs (Simple s) =
    Ok (negb (is_null v) && match number (stripQuotes v) with Some x => above (op s) x d | None => false end).
Proof.
  intros Hn Ho Hd Hv. destruct (Hn Ho d Hd) as (s' & [= <-] & Hw & Hwd & Hc). specialize (Hc v Hv).
  cbn [Where.evalOne]. unfold eval_simple. rewrite Hv. cbn [mbind result_bind]. f_equal.
  unfold is_bound in Ho. apply bool_decide_eq_true in Ho.
  unfold evalCond, resolve. cbn [with_operands op val].
  assert (compareValues regex_search v (op s) (operand cs vs (val s)) =
    if is_null v || is_null (operand cs vs (val s)) then false
    else match numbers (stripQuotes v) (stripQuotes (operand cs vs (val s))) with
         | Some (da, db) => compare_numbers (op s) da db
         | None => compare_texts (op s) (stripQuotes v) (stripQuotes (operand cs vs (val s)))
         end) as E by (by destruct Ho as [Ho|[Ho|[Ho|Ho]]]; rewrite Ho).
  transitivity (compareValues regex_search v (op s) (operand cs vs (val s))).
  { by destruct Ho as [Ho|[Ho|[Ho|Ho]]]; rewrite Ho. }
  rewrite E, Hw, orb_false_r. destruct (is_null v) eqn:En; [done|]. cbn [negb andb].
  destruct Hc as [|[x Hx]]; [done|]. by rewrite numbers_number, Hx, Hwd.
Qed.

(** The tighter bound implies the other. *)
Lemma tighter_implies cs vs ci cj b :
  numeric_bound cs vs ci -> numeric_bound cs vs cj -> tighter ci cj = true ->
  evalOne cs vs ci = Ok true -> evalOne cs vs cj = Ok b -> b = true.
Proof.
  intros Hi Hj Ht Ei Ej. unfold tighter in Ht.
  destruct (stod (val (raw_fields ci))) as [vi|] eqn:Evi; [|done].
  destruct (stod (val (raw_fields cj))) as [vj|] eqn:Evj; [|done].
  rewrite !andb_true_iff in Ht. destruct Ht as [[[Ho Hcol] Hop] Hlt].
  unfold bytes_eqb in Hcol. apply bool_decide_eq_true in Hcol. apply bool_decide_eq_true in Hop.
  assert (is_bound (op (raw_fields cj)) = true) as Hoj by (by rewrite <- Hop).
  destruct (Hi Ho vi Evi) as (si & -> & _). destruct (Hj Hoj vj Evj) as (sj & -> & _). cbn [raw_fields] in *.
  destruct (lhs_value cs vs (col si)) as [[v|]|] eqn:Ev.
  2,3: cbn [Where.evalOne] in Ei; unfold eval_simple in Ei; by rewrite Ev in Ei.
  rewrite (numeric_bound_value _ _ _ vi v) in Ei by done.
  rewrite (numeric_bound_value _ _ _ vj v) in Ej by (try done; by rewrite <- Hcol).
  injection Ei as Ei. apply andb_true_iff in Ei as [En Ei]. injection Ej as <-. rewrite En. cbn [andb].
  destruct (number (stripQuotes v)) as [x|]; [|done]. unfold above in *. rewrite <- Hop.
  unfold is_bound in Ho. apply bool_decide_eq_true in Ho.
  destruct Ho as [Ho|[Ho|[Ho|Ho]]]; rewrite Ho in Ei, Hlt |- *; cbn [compare_numbers] in *;
    rewrite ?bool_decide_eq_true_2, ?bool_decide_eq_false_2 in Hlt by (first [by auto|by intros []]).
  - by eapply dlt_trans.
  - by eapply dlt_dle.
  - by eapply dlt_trans.
  - eapply dle_dlt; [exact Ei|done].
Qed.

(** What is not marked implies all. *)
Definition implied (cs : list Column) (vs : list bytes) (conds : list WhereCondition) (redundant : list bool) : Prop :=
  length redundant = length conds /\
  ((forall j c, conds !! j = Some c -> redundant !! j = Some false -> evalOne cs vs c = Ok true) ->
   Forall (fun c => evalOne cs vs c = Ok true) conds).

Lemma mark_implied cs vs conds redundant i :
  Forall (fun c => numeric_bound cs vs c /\ exists b, evalOne cs vs c = Ok b) conds ->
  implied cs vs conds redundant -> implied cs vs conds (mark conds redundant i).
Proof.
  intros Hc [Hl Hr]. unfold mark. destruct (conds !! i) as [ci|] eqn:Ei; [|done].
  destruct (redundant !! i) as [[|]|] eqn:Eri; [done| |done].
  split; [by rewrite length_imap, length_zip_with, Hl, Nat.min_id|]. intros H. apply Hr. intros j c Ej Erj.
  assert (forall j c r, conds !! j = Some c -> redundant !! j = Some r ->
    imap (fun j p => p.2 || (negb (i =? j) && tighter ci p.1)) (zip conds redundant) !! j =
      Some (r || (negb (i =? j) && tighter ci c))) as L.
  { intros j' c' r H1 H2. rewrite list_lookup_imap, lookup_zip_with, H1. cbn. by rewrite H2. }
  pose proof (L i ci false Ei Eri) as Li. rewrite Nat.eqb_refl in Li. pose proof (H i ci Ei Li) as Hi.
  pose proof (L j c false Ej Erj) as Lj. cbn [orb] in Lj.
  destruct (negb (i =? j) && tighter ci c) eqn:Et; [|by apply (H j)].
  apply andb_true_iff in Et as [_ Et]. rewrite Forall_lookup in Hc.
  destruct (Hc i ci Ei) as [Ni _]. destruct (Hc j c Ej) as [Nj [b Hb]].
  by rewrite (tighter_implies cs vs ci c b) in Hb.
Qed.

Lemma marks_implied cs vs conds :
  Forall (fun c => numeric_bound cs vs c /\ exists b, evalOne cs vs c = Ok b) conds ->
  implied cs vs conds (marks conds).
Proof.
  intros Hc. unfold marks. generalize (seq 0 (length conds)) as rounds. intros rounds.
  assert (implied cs vs conds (replicate (length conds) false)) as H0.
  { split; [apply length_replicate|]. intros H. apply Forall_lookup. intros j c Hj.
    apply (H j); [done|]. apply lookup_replicate. split; [done|]. by eapply lookup_lt_Some. }
  revert H0. generalize (replicate (length conds) false) as red. induction rounds as [|i rounds IH]; intros red H; [done|].
  apply IH. by apply mark_implied.
Qed.

Lemma keep_elem conds redundant c :
  length redundant = length conds ->
  c ∈ keep conds redundant <-> exists j, conds !! j = Some c /\ redundant !! j = Some false.
Proof.
  intros Hl. unfold keep. rewrite list_elem_of_fmap. split.
  - intros ([c' r] & -> & [H Hr]%list_elem_of_In%filter_In). cbn in *. destruct r; [done|].
    apply list_elem_of_In, list_elem_of_lookup_1 in H as [j Hj]. exists j. by apply lookup_zip_Some in Hj.
  - intros (j & H1 & H2). exists (c, false). split; [done|]. apply list_elem_of_In, filter_In. split; [|done].
    apply list_elem_of_In, (list_elem_of_lookup_2 _ j). by apply lookup_zip_Some.
Qed.

Lemma eval_all {A} (eval : A -> result bool) (v : A -> bool) l :
  Forall (fun c => eval c = Ok (v c)) l -> eval_list eval AND l = Ok (forallb v l).
Proof.
  intros H. unfold eval_list. assert (bytes_eqb AND AND = true) as -> by done.
  induction H as [|c l Hc H IH]; [done|]. cbn [forallb]. rewrite Hc. cbn [mbind result_bind]. by destruct (v c).
Qed.

Lemma rowMatches_all src row conds (v : WhereCondition -> bool) :
  Forall (fun c => evalOne (columns_ src) (values row) c = Ok (v c)) conds ->
  rowMatches src row conds AND = Ok (forallb v conds).
Proof. intros H. unfold Where.rowMatches. destruct conds as [|c l]; [done|]. by apply eval_all. Qed.

(** A clause joined by AND whose bounds are numbers has the same value on a
    row after rewriting: what is dropped is true, or follows from what is kept. *)
Theorem rewrite_sound src row conds v :
  (forall c, c ∈ conds -> evalOne (columns_ src) (values row) c = Ok (v c) /\
     if alwaysTrue c then v c = true else numeric_bound (columns_ src) (values row) c) ->
  rowMatches src row (rewrite_clause true conds AND) AND = rowMatches src row conds AND.
Proof.
  intros H. rewrite (rowMatches_all src row conds v) by (apply Forall_forall; intros c Hc; by apply H).
  assert (forallb v conds = forallb v (removeAlwaysTrueConditions conds)) as ->.
  { apply eq_true_iff_eq. rewrite !forallb_forall. split; intros Hv c Hc; [by apply Hv; apply filter_In in Hc as [? _]|].
    destruct (alwaysTrue c) eqn:Ha; [|apply Hv, filter_In; by rewrite Ha].
    apply list_elem_of_In in Hc. destruct (H c Hc) as [_ Hc']. by rewrite Ha in Hc'. }
  unfold rewrite_clause. set (l := removeAlwaysTrueConditions conds).
  assert (Forall (fun c => evalOne (columns_ src) (values row) c = Ok (v c) /\
    numeric_bound (columns_ src) (values row) c) l) as Hl.
  { apply Forall_forall. intros c [Hc Ha%negb_true_iff]%list_elem_of_In%filter_In.
    destruct (H c) as [Hv Hb]; [by apply list_elem_of_In|]. by rewrite Ha in Hb. }
  clearbody l. unfold removeRedundantConditions. destruct (_ || _).
  { apply rowMatches_all. eapply Forall_impl; [exact Hl|]. by intros c []. }
  destruct (marks_implied (columns_ src) (values row) l) as [Hlen Himp].
  { eapply Forall_impl; [exact Hl|]. intros c [Hv Hn]. split; [done|by exists (v c)]. }
  rewrite Forall_forall in Hl. rewrite (rowMatches_all _ _ _ v).
  2: { apply Forall_forall. intros c (j & Hj & _)%keep_elem; [|done]. apply Hl. by eapply list_elem_of_lookup_2. }
  f_equal. apply eq_true_iff_eq. rewrite !forallb_forall. split; intros Hall c Hc%list_elem_of_In.
  - rewrite Forall_forall in Himp.
    assert (evalOne (columns_ src) (values row) c = Ok true) as E.
    { apply Himp; [|done]. intros j c' Hj Hr. rewrite (proj1 (Hl c' (list_elem_of_lookup_2 _ _ _ Hj))).
      f_equal. apply Hall, list_elem_of_In, keep_elem; [done|]. by exists j. }
    destruct (Hl c Hc) as [Hv _]. rewrite Hv in E. by injection E.
  - apply keep_elem in Hc as (j & Hj & _); [|done]. apply Hall, list_elem_of_In. by eapply list_elem_of_lookup_2.
Qed.
End sound.

(** ** Examples *)

Section examples.
#[local] Existing Instance IntDouble.

(** (n) with the rows 3, 7, NULL. *)
Definition rw_table : Table BTree := plain_table ["n"] [["3"]; ["7"]; ["NULL"]].
Abbreviation rw_matches := (rowMatches no_regex no_func no_match print int_count ({[str "t" := rw_table]} : gmap bytes (Table BTree)) rw_table).

Definition rw_clause : list WhereCondition := [cmp "1" EQ "1"; cmp "n" GT "2"; cmp "n" GT "5"; cmp "n" GT "4"].
Definition rw_row (v : string) : Row := row_of [str v].
Definition rw_verdict (v : Z) (c : WhereCondition) : bool :=
  match stod (val (raw_fields c)) with Some (Some d) => alwaysTrue c || (d <? v)%Z | _ => false end.

Lemma rewrite_sound_witness :
  rewrite_clause true rw_clause AND = [cmp "n" GT "5"] /\
  rw_matches (rw_row "7") (rewrite_clause true rw_clause AND) AND = rw_matches (rw_row "7") rw_clause AND.
Proof.
  split; [vm_compute; reflexivity|]. apply (rewrite_sound _ _ _ _ _ _ _ _ _ (rw_verdict 7)).
  assert (forall w, is_null (operand (columns_ rw_table) [str "7"] (str w)) = false ->
    number (stripQuotes (operand (columns_ rw_table) [str "7"] (str w))) = stod (str w) ->
    numeric_bound (columns_ rw_table) (values (rw_row "7")) (cmp "n" GT w)) as B.
  { intros w H1 H2 _ d Hd. eexists. split; [done|]. split; [done|]. split; [by rewrite <- Hd|].
    intros v Hv. right. vm_compute in Hv. injection Hv as <-. vm_compute. by eexists. }
  intros c [<-|[<-|[<-|[<-|[]]]]]%list_elem_of_In; (split; [vm_compute; reflexivity|]); [vm_compute; reflexivity|..];
    match goal with |- if alwaysTrue ?c then _ else _ => assert (alwaysTrue c = false) as -> by done end;
    apply B; vm_compute; reflexivity.
Defined.

(** *** What the rules do to other clauses *)

(** The names of functions are not compared: both calls have the empty column. *)
Lemma function_calls_confused :
  let f name v := FuncLhs (str name) (mkCmp [] GT (str v) [] [] []) in
  rewrite_clause true [f "ABS ( a )" "3"; f "LENGTH ( b )" "5"] AND = [f "LENGTH ( b )" "5"].
Proof. vm_compute. reflexivity. Qed.

(** A bound that is an expression is judged by the number it starts with: 2+3 as 2. *)
Lemma expression_bound_misjudged :
  let conds := [cmp "n" GT "2+3"; cmp "n" GT "4"] in
  rewrite_clause true conds AND = [cmp "n" GT "4"] /\
  rw_matches (rw_row "5") conds AND = Ok false /\
  rw_matches (rw_row "5") (rewrite_clause true conds AND) AND = Ok true.
Proof. vm_compute. split_and!; reflexivity. Qed.

(** Texts are compared as texts and judged as numbers. *)
Lemma text_bound_misjudged :
  let conds := [cmp "n" GT "10"; cmp "n" GT "9"] in
  rewrite_clause true conds AND = [cmp "n" GT "10"] /\
  rw_matches (rw_row "2x") conds AND = Ok false /\
  rw_matches (rw_row "2x") (rewrite_clause true conds AND) AND = Ok true.
Proof. vm_compute. split_and!; reflexivity. Qed.

(** 1 = 1 is dropped from a clause joined by OR, too, which then no longer selects
    every row. *)
Lemma always_true_under_or :
  let conds := [cmp "n" EQ "3"; cmp "1" EQ "1"] in
  rw_matches (rw_row "7") (rewrite_clause true conds OR) OR = Ok false /\
  rw_matches (rw_row "7") conds OR = Ok true.
Proof. vm_compute. split; reflexivity. Qed.
End examples.
