(* ===== verification/JoinOrder.v ===== *)
(** * The order of joins ([src/optimizer/cost_model.hpp], [join_enumerator.hpp],
    [join_plan_types.hpp], [optimizer.hpp]; [Engine::executeJoins] up to the first
    join)

    A chain of two or more joins is reordered: by dynamic programming over sets
    of tables up to eight tables, greedily beyond.  The cost model computes in
    doubles, which are abstract here.  Shown: the planner returns every join
    exactly once and, with dynamic programming, behind the tables it refers to,
    at the least estimated cost of all such orders where estimates do not depend
    on the order; and chains of INNER joins give the same rows in every such
    order.  Descriptions of plans and statistics counters are left out. *)

From S2P Require Import Prelude Index BTree Partition Table Joins JoinMeaning Arith Query Rewriter.

(** ** The cost model *)

Record ColumnStats {DB : Double} := mkColStats { distinctCount : nat; avgWidth : dbl }.
(** The columns in the order of their names. *)
Record TableStats {DB : Double} := mkStats { ts_rowCount : nat; ts_cols : list (bytes * ColumnStats) }.

Record CostConstants {DB : Double} := mkConstants {
  seq_page_cost : dbl; random_page_cost : dbl; cpu_tuple_cost : dbl; cpu_index_tuple_cost : dbl;
  cpu_operator_cost : dbl; page_size_bytes : dbl }.

Record CostEstimate {DB : Double} := mkEstimate { startup : dbl; total : dbl; rows : dbl; width : dbl }.
Record TableInput {DB : Double} := mkInput { in_rows : dbl; in_width : dbl; in_pages : dbl; fromStats : bool }.

(** Per table of the chain: the tables that must be joined before, the column of
    the ON clause on either side and the table of the other side, if any. *)
Record JoinTableInfo := mkInfo {
  ti_name : bytes; ti_rowCount : nat; requiredTables : list nat; joinColSelf : bytes; otherIdx : option nat; joinColOther : bytes }.
Definition no_info : JoinTableInfo := mkInfo [] 0 [] [] None [].

Record JoinPlan {DB : Double} := mkPlan { joinOrder : list nat; estimatedCost : dbl; subsetsEvaluated : nat; dpUsed : bool }.

(** The best plan found for a set of tables; a set without one is not in the map. *)
Record DpState {DB : Double} := mkState { cost : dbl; estRows : dbl; st_width : dbl; order : list nat }.

Arguments mkColStats {DB}.
Arguments mkStats {DB}.
Arguments mkConstants {DB}.
Arguments mkEstimate {DB}.
Arguments mkInput {DB}.
Arguments mkPlan {DB}.
Arguments mkState {DB}.

Section planner.
Context {DB : Double}.
(** [static_cast<double>], [std::ceil] and [std::log2], and the literals 0.1 and 1e18. *)
Context (dcount : nat -> dbl) (dceil dlog2 : dbl -> dbl) (tenth huge : dbl).
Context (g_costConsts : CostConstants) (getStats : bytes -> option TableStats) (g_nlThreshold : dbl).

Definition dmax (a b : dbl) : dbl := if dlt a b then b else a.
Definition dmin (a b : dbl) : dbl := if dlt b a then b else a.

Definition tableInput (tbl : bytes) (fallbackRows fallbackWidth : dbl) : TableInput :=
  let '(r, w, known) :=
    match getStats tbl with
    | Some ts =>
        if (0 <? ts_rowCount ts) && negb (bool_decide (ts_cols ts = [])) then
          let w := fold_left (fun w c => dadd w (avgWidth c.2)) (ts_cols ts) dzero in
          (dcount (ts_rowCount ts), if dlt dzero w then w else fallbackWidth, true)
        else (fallbackRows, fallbackWidth, false)
    | None => (fallbackRows, fallbackWidth, false)
    end in
  let r := if dlt r dzero then dzero else r in
  let w := if dlt w (dcount 1) then dcount 1 else w in
  mkInput r w (dmax (dcount 1) (dceil (ddiv (dmul r w) (page_size_bytes g_costConsts)))) known.

Definition seqScan (i : TableInput) (nFilterConds : nat) (outRows : dbl) : CostEstimate :=
  let c := g_costConsts in
  mkEstimate dzero
    (dadd (dadd (dmul (in_pages i) (seq_page_cost c)) (dmul (in_rows i) (cpu_tuple_cost c)))
       (dmul (dmul (in_rows i) (dcount nFilterConds)) (cpu_operator_cost c)))
    (if dle dzero outRows then outRows else in_rows i) (in_width i).

Definition indexScan (i : TableInput) (selectivity : dbl) : CostEstimate :=
  let c := g_costConsts in
  let s := if dlt selectivity dzero then dzero else selectivity in
  let s := if dlt (dcount 1) s then dcount 1 else s in
  let matched := dmul (in_rows i) s in
  let matchedPages := dmin (in_pages i) (dmax (dcount 1) (dceil (ddiv (dmul matched (in_width i)) (page_size_bytes c)))) in
  let descend := dmul (dlog2 (dmax (dcount 2) (in_rows i))) (cpu_operator_cost c) in
  mkEstimate descend
    (dadd (dadd descend (dmul matchedPages (random_page_cost c))) (dmul matched (dadd (cpu_index_tuple_cost c) (cpu_tuple_cost c))))
    matched (in_width i).

(** The product of the rows divided by the larger number of distinct values. *)
Definition joinRows (leftRows rightRows leftNdv rightNdv : dbl) : dbl :=
  let maxNdv := dmax leftNdv rightNdv in
  if dle (dcount 1) maxNdv then ddiv (dmul leftRows rightRows) maxNdv else dmul (dmul leftRows rightRows) tenth.

Definition hashJoin (outer inner : CostEstimate) (outRows : dbl) : CostEstimate :=
  let c := g_costConsts in
  let build := dadd (total inner) (dmul (rows inner) (cpu_operator_cost c)) in
  let probe := dadd (total outer) (dmul (rows outer) (cpu_operator_cost c)) in
  mkEstimate build (dadd (dadd build probe) (dmul outRows (cpu_tuple_cost c))) outRows (dadd (width outer) (width inner)).

Definition nestedLoop (outer inner : CostEstimate) (outRows : dbl) : CostEstimate :=
  mkEstimate (dadd (startup outer) (startup inner))
    (dadd (dadd (total outer) (dmul (rows outer) (dsub (total inner) (startup inner)))) (dmul outRows (cpu_tuple_cost g_costConsts)))
    outRows (dadd (width outer) (width inner)).

(** ** The enumerator *)

Definition ndvOf (tbl c : bytes) : dbl :=
  match getStats tbl with
  | Some ts => match list_find (fun p => p.1 = c) (ts_cols ts) with Some (_, p) => dcount (distinctCount p.2) | None => dzero end
  | None => dzero
  end.

Definition scanOf (t : JoinTableInfo) : CostEstimate :=
  let i := tableInput (ti_name t) (dcount (ti_rowCount t)) (dcount 64) in seqScan i 0 (in_rows i).

Definition info (tables : list JoinTableInfo) (j : nat) : JoinTableInfo := default no_info (tables !! j).

(** The rows after joining table [j] to a result of [leftRows] rows. *)
Definition joinOutRows (leftRows : dbl) (tables : list JoinTableInfo) (j : nat) (jRows : dbl) : dbl :=
  let tj := info tables j in
  let rNdv := if bytes_eqb (joinColSelf tj) [] then dzero else ndvOf (ti_name tj) (joinColSelf tj) in
  let lNdv :=
    match otherIdx tj with
    | Some o =>
        if (o <? length tables) && negb (bytes_eqb (joinColOther tj) []) then ndvOf (ti_name (info tables o)) (joinColOther tj) else dzero
    | None => dzero
    end in
  joinRows leftRows jRows lNdv rNdv.

(** The cheaper of hash join and nested loop. *)
Definition joinStep (outer inner : CostEstimate) (outRows : dbl) : CostEstimate :=
  let h := hashJoin outer inner outRows in
  let nl := nestedLoop outer inner outRows in
  if dlt (total nl) (total h) then nl else h.

(** What [executeJoins] asks per join; the empty text keeps its own heuristics. *)
Definition chooseJoinMethod (rightTable rightCol : bytes) (outerRows rightRows : dbl) (rightHasIndex : bool) : bytes :=
  match getStats rightTable with
  | Some ts =>
      if ts_rowCount ts =? 0 then []
      else if negb rightHasIndex || dle g_nlThreshold outerRows then str "hash"
      else
        let i := tableInput rightTable rightRows (dcount 64) in
        let ndv := ndvOf rightTable rightCol in
        let sel := if dle (dcount 1) ndv then ddiv (dcount 1) ndv else tenth in
        let outRows := joinRows outerRows (in_rows i) ndv ndv in
        let hashCost := total (hashJoin (mkEstimate dzero dzero outerRows (dcount 64)) (seqScan i 0 (in_rows i)) outRows) in
        let nlCost := dadd (dmul outerRows (total (indexScan i sel))) (dmul outRows (cpu_tuple_cost g_costConsts)) in
        if dlt nlCost hashCost then INDEXED else str "hash"
  | None => []
  end.

(** Sets of tables are bit masks; the source has them in an [int], which holds
    the 31 tables that the greedy planner may be given. *)
Definition bit (j : nat) : N := N.shiftl 1 (N.of_nat j).
Definition has_bit (mask : N) (j : nat) : bool := negb (N.land mask (bit j) =? 0)%N.
Definition connected (tj : JoinTableInfo) (subsetMask : N) : bool := forallb (has_bit subsetMask) (requiredTables tj).

(** A plan with one more table. *)
Definition extend (tables : list JoinTableInfo) (s : DpState) (j : nat) : DpState :=
  let inner := scanOf (info tables j) in
  let outRows := joinOutRows (estRows s) tables j (rows inner) in
  let step := joinStep (mkEstimate dzero (cost s) (estRows s) (st_width s)) inner outRows in
  mkState (total step) (rows step) (width step) (order s ++ [j - 1]).

Definition scan_state (tables : list JoinTableInfo) (i : nat) : DpState :=
  let e := scanOf (info tables i) in mkState (total e) (rows e) (width e) [].

(** Table [j] as the last one of the set. *)
Definition dp_try (tables : list JoinTableInfo) (memo : gmap N DpState) (mask : N) (cur : option DpState) (j : nat) : option DpState :=
  if has_bit mask j then
    let submask := N.lxor mask (bit j) in
    match memo !! submask with
    | Some sub =>
        if connected (info tables j) submask then
          let new := extend tables sub j in
          match cur with
          | Some s => if dlt (cost new) (cost s) then Some new else cur
          | None => Some new
          end
        else cur
    | None => cur
    end
  else cur.

Definition dp_mask (tables : list JoinTableInfo) (memo : gmap N DpState) (mask : N) : gmap N DpState :=
  match fold_left (dp_try tables memo mask) (seq 1 (length tables - 1)) (memo !! mask) with
  | Some s => <[mask := s]> memo
  | None => memo
  end.

Definition popcount (mask : N) : nat := length (List.filter (has_bit mask) (seq 0 32)).

(** The sets that contain the base table, the smaller ones first. *)
Definition dp_masks (n : nat) : list N :=
  mjoin (map (fun sz => List.filter (fun mask => (popcount mask =? sz) && has_bit mask 0) (map N.of_nat (seq 1 (2 ^ n - 1)))) (seq 2 (n - 1))).

Definition dp_base (tables : list JoinTableInfo) : gmap N DpState :=
  fold_left (fun memo i => <[bit i := scan_state tables i]> memo) (seq 0 (length tables)) ∅.

Definition original_order (n subsets : nat) : JoinPlan := mkPlan (seq 0 (n - 1)) dzero subsets false.

Definition planDp (tables : list JoinTableInfo) : JoinPlan :=
  let n := length tables in
  let memo := fold_left (dp_mask tables) (dp_masks n) (dp_base tables) in
  let subsetsEval := n + length (dp_masks n) in
  match memo !! N.ones (N.of_nat n) with
  | Some best => if length (order best) =? n - 1 then mkPlan (order best) (cost best) subsetsEval true else original_order n subsetsEval
  | None => original_order n subsetsEval
  end.

(** *** Greedy *)

(** The cheapest candidate of a pass and how many were looked at; without
    [cross], only tables whose required ones are there. *)
Definition greedy_try (tables : list JoinTableInfo) (cross : bool) (mask : N) (s : DpState) (acc : option (nat * DpState) * nat) (j : nat)
  : option (nat * DpState) * nat :=
  if has_bit mask j || negb (cross || connected (info tables j) mask) then acc
  else
    let new := extend tables s j in
    (if dlt (cost new) (from_option (fun p => cost p.2) huge acc.1) then Some (j, new) else acc.1, S acc.2).

Definition greedy_pass (tables : list JoinTableInfo) (cross : bool) (mask : N) (s : DpState) : option (nat * DpState) * nat :=
  fold_left (greedy_try tables cross mask s) (seq 1 (length tables - 1)) (None, 0).

(** Cross products only where nothing is connected. *)
Definition greedy_choose (tables : list JoinTableInfo) (mask : N) (s : DpState) : option (nat * DpState) * nat :=
  let '(best, k) := greedy_pass tables false mask s in
  match best with
  | Some _ => (best, k)
  | None => if 0 <? k then (None, k) else greedy_pass tables true mask s
  end.

(** At most [n] tables are joined. *)
Fixpoint greedy_loop (n : nat) (tables : list JoinTableInfo) (mask : N) (s : DpState) (evaluated : nat) : DpState * nat :=
  match n with
  | O => (s, evaluated)
  | S n' =>
      let '(best, k) := greedy_choose tables mask s in
      match best with
      | Some (j, new) => greedy_loop n' tables (N.lor mask (bit j)) new (evaluated + k)
      | None => (s, evaluated + k)
      end
  end.

Definition planGreedy (tables : list JoinTableInfo) : JoinPlan :=
  let n := length tables in
  let '(s, evaluated) := greedy_loop (n - 1) tables 1%N (scan_state tables 0) 1 in
  if length (order s) =? n - 1 then mkPlan (order s) (cost s) evaluated true
  else mkPlan (seq 0 (n - 1)) dzero evaluated false.

(** *** With the cache of plans *)

Definition MAX_DP_TABLES : nat := 8.

Definition plan (tables : list JoinTableInfo) (cacheKey : bytes) (planCache_ : gmap bytes JoinPlan) : JoinPlan * gmap bytes JoinPlan :=
  match tables with
  | [] | [_] => (mkPlan [] dzero 0 false, planCache_)
  | [t0; t1] =>
      let l := scanOf t0 in
      let r := scanOf t1 in
      (mkPlan [0] (total (joinStep l r (joinOutRows (rows l) tables 1 (rows r)))) 0 false, planCache_)
  | _ =>
      match (if bytes_eqb cacheKey [] then None else planCache_ !! cacheKey) with
      | Some cached => (cached, planCache_)
      | None =>
          let result := if length tables <=? MAX_DP_TABLES then planDp tables else planGreedy tables in
          (result, if negb (bytes_eqb cacheKey []) && dpUsed result then <[cacheKey := result]> planCache_ else planCache_)
      end
  end.

(** ANALYZE of a table forgets the plans whose key contains its name. *)
Definition invalidate (tableName : bytes) (planCache_ : gmap bytes JoinPlan) : gmap bytes JoinPlan :=
  filter (fun p => find_sub tableName p.1 = None) planCache_.
End planner.

(** An index is used only where there is one. *)
Lemma chooseJoinMethod_indexed {DB : Double} dcount dceil dlog2 tenth g_costConsts getStats g_nlThreshold rt rc o r hasIdx :
  chooseJoinMethod dcount dceil dlog2 tenth g_costConsts getStats g_nlThreshold rt rc o r hasIdx = INDEXED -> hasIdx = true.
Proof. unfold chooseJoinMethod. destruct (getStats rt), hasIdx; try done. cbn. by destruct (_ =? 0). Qed.

(** ** Sets as bit masks *)

Lemma testbit_bit j i : N.testbit (bit j) (N.of_nat i) = (j =? i).
Proof. unfold bit. rewrite N.shiftl_1_l, N.pow2_bits_eqb. apply eq_true_iff_eq. rewrite N.eqb_eq, Nat.eqb_eq. lia. Qed.

Lemma has_bit_spec m j : has_bit m j = N.testbit m (N.of_nat j).
Proof.
  unfold has_bit. destruct (N.testbit m (N.of_nat j)) eqn:E.
  - apply negb_true_iff, N.eqb_neq. intros H. apply (f_equal (fun x => N.testbit x (N.of_nat j))) in H.
    rewrite N.land_spec, E, testbit_bit, Nat.eqb_refl, N.bits_0 in H. done.
  - apply negb_false_iff, N.eqb_eq, N.bits_inj. intros i. rewrite N.land_spec, N.bits_0.
    rewrite <- (N2Nat.id i), testbit_bit. destruct (Nat.eqb_spec j (N.to_nat i)) as [->|]; [|by rewrite andb_false_r].
    rewrite N2Nat.id in *. by rewrite E.
Qed.

Lemma has_bit_lor m j i : has_bit (N.lor m (bit j)) i = has_bit m i || (j =? i).
Proof. by rewrite !has_bit_spec, N.lor_spec, testbit_bit. Qed.

Lemma mask_ext m m' : (forall i, has_bit m i = has_bit m' i) -> m = m'.
Proof. intros H. apply N.bits_inj. intros i. specialize (H (N.to_nat i)). by rewrite !has_bit_spec, N2Nat.id in H. Qed.

Lemma lxor_lor m j : has_bit m j = false -> N.lxor (N.lor m (bit j)) (bit j) = m.
Proof.
  intros H. apply mask_ext. intros i. rewrite has_bit_spec, N.lxor_spec, N.lor_spec, testbit_bit, <- has_bit_spec.
  destruct (Nat.eqb_spec j i) as [<-|]; [by rewrite H|]. by rewrite orb_false_r, xorb_false_r.
Qed.

Lemma lor_lxor m j : has_bit m j = true -> N.lor (N.lxor m (bit j)) (bit j) = m.
Proof.
  intros H. apply mask_ext. intros i. rewrite has_bit_lor, has_bit_spec, N.lxor_spec, testbit_bit, <- has_bit_spec.
  destruct (Nat.eqb_spec j i) as [<-|]; [by rewrite H|]. by rewrite xorb_false_r, orb_false_r.
Qed.

Lemma has_bit_lxor m j : has_bit (N.lxor m (bit j)) j = negb (has_bit m j).
Proof. rewrite has_bit_spec, N.lxor_spec, testbit_bit, Nat.eqb_refl, <- has_bit_spec. by destruct (has_bit m j). Qed.

Lemma mask_bound m n : (forall i, n <= i -> has_bit m i = false) -> N.to_nat m < 2 ^ n.
Proof.
  intros H. assert (m = N.land m (N.ones (N.of_nat n))) as ->.
  { apply mask_ext. intros i. rewrite !has_bit_spec, N.land_spec. destruct (decide (i < n)).
    - rewrite N.ones_spec_low by lia. by rewrite andb_true_r.
    - rewrite N.ones_spec_high by lia. rewrite <- has_bit_spec, H by lia. done. }
  rewrite N.land_ones. apply Nat.compare_lt_iff. rewrite <- (Nat2N.id (2 ^ n)), <- N2Nat.inj_compare.
  apply N.compare_lt_iff. rewrite Nat2N.inj_pow. apply N.mod_lt. by apply N.pow_nonzero.
Qed.

(** The tables of a plan. *)
Definition mask_of (js : list nat) : N := fold_left (fun m j => N.lor m (bit j)) js 1%N.

Lemma mask_of_app js j : mask_of (js ++ [j]) = N.lor (mask_of js) (bit j).
Proof. unfold mask_of. by rewrite fold_left_app. Qed.

Lemma has_bit_mask_of js i : has_bit (mask_of js) i = (i =? 0) || bool_decide (i ∈ js).
Proof.
  induction js as [|j js IH] using rev_ind.
  - change (mask_of []) with (bit 0). rewrite has_bit_spec, testbit_bit. rewrite bool_decide_eq_false_2 by set_solver.
    rewrite orb_false_r. apply Nat.eqb_sym.
  - rewrite mask_of_app, has_bit_lor, IH, <- orb_assoc. f_equal. apply eq_true_iff_eq.
    rewrite orb_true_iff, !bool_decide_eq_true, Nat.eqb_eq. set_solver.
Qed.

Lemma mask_of_perm js js' : js ≡ₚ js' -> mask_of js = mask_of js'.
Proof. intros H. apply mask_ext. intros i. rewrite !has_bit_mask_of. f_equal. apply bool_decide_ext. by rewrite H. Qed.

Lemma mask_of_inj js js' : NoDup js -> NoDup js' -> 0 ∉ js -> 0 ∉ js' -> mask_of js = mask_of js' -> js ≡ₚ js'.
Proof.
  intros Hn Hn' H0 H0' E. apply NoDup_Permutation; [done..|]. intros i.
  assert (has_bit (mask_of js) i = has_bit (mask_of js') i) as H by (by rewrite E).
  rewrite !has_bit_mask_of in H. destruct (decide (i = 0)) as [->|Hi0]; [tauto|].
  rewrite (proj2 (Nat.eqb_neq i 0) Hi0) in H. cbn [orb] in H.
  split; intros Hi; [symmetry in H|]; rewrite (bool_decide_eq_true_2 _ Hi) in H; by apply bool_decide_eq_true in H.
Qed.

Lemma popcount_mask_of js : NoDup js -> Forall (fun j => 0 < j < 32) js -> popcount (mask_of js) = S (length js).
Proof.
  intros Hn Hr. unfold popcount. change (S (length js)) with (length (0 :: js)). apply Permutation_length, NoDup_Permutation.
  - apply NoDup_ListNoDup, List.NoDup_filter, NoDup_ListNoDup, NoDup_seq.
  - constructor; [|done]. rewrite Forall_forall in Hr. intros H0. specialize (Hr _ H0). lia.
  - intros i. rewrite list_elem_of_In, List.filter_In, has_bit_mask_of, <- list_elem_of_In, elem_of_seq.
    rewrite orb_true_iff, Nat.eqb_eq, bool_decide_eq_true, elem_of_cons. rewrite Forall_forall in Hr.
    split; [tauto|]. intros [->|Hi]; [split; [lia|by left]|]. specialize (Hr _ Hi). split; [lia|by right].
Qed.

(** ** What the planner returns *)

(** Addition is monotone, and what is added to NaN is NaN. *)
Class DoubleSum (DB : Double) : Prop := {
  dadd_le_l x y z : dlt y x = false -> disnan (dadd x z) = false -> disnan (dadd y z) = false -> dlt (dadd y z) (dadd x z) = false;
  dadd_le_r x y z : dlt y x = false -> disnan (dadd z x) = false -> disnan (dadd z y) = false -> dlt (dadd z y) (dadd z x) = false;
  dadd_nan x y : disnan (dadd x y) = false -> disnan x = false /\ disnan y = false }.

Section orders.
Context (tables : list JoinTableInfo).

Abbreviation n := (length tables).

(** Tables that may be joined in this order to those of the set. *)
Fixpoint joinable (mask : N) (js : list nat) : bool :=
  match js with
  | [] => true
  | j :: js' => (0 <? j) && (j <? n) && negb (has_bit mask j) && connected (info tables j) mask && joinable (N.lor mask (bit j)) js'
  end.

Lemma joinable_app mask js js' :
  joinable mask (js ++ js') = joinable mask js && joinable (fold_left (fun m j => N.lor m (bit j)) js mask) js'.
Proof. revert mask. induction js as [|j js IH]; intros mask; [done|]. cbn [app joinable fold_left]. by rewrite IH, !andb_assoc. Qed.

Lemma joinable_snoc js j :
  joinable 1 (js ++ [j]) = true <->
  joinable 1 js = true /\ 0 < j < n /\ has_bit (mask_of js) j = false /\ connected (info tables j) (mask_of js) = true.
Proof.
  rewrite joinable_app. fold (mask_of js). cbn [joinable]. rewrite !andb_true_iff, !Nat.ltb_lt, negb_true_iff. tauto.
Qed.

Lemma joinable_nodup js : joinable 1 js = true -> NoDup js /\ Forall (fun j => 0 < j < n) js.
Proof.
  induction js as [|j js IH] using rev_ind; [intros _; split; constructor|]. rewrite joinable_snoc. intros (H & Hj & Hb & _).
  destruct (IH H) as [Hn Hr]. split; [|apply Forall_app; split; [done|by constructor]].
  rewrite has_bit_mask_of, orb_false_iff, bool_decide_eq_false in Hb. apply NoDup_app. split; [done|].
  split; [set_solver|apply NoDup_singleton].
Qed.

Lemma joinable_full js : joinable 1 js = true -> length js = n - 1 -> js ≡ₚ seq 1 (n - 1).
Proof.
  intros H Hl. destruct (joinable_nodup js H) as [Hn Hr]. apply submseteq_length_Permutation; [|by rewrite length_seq, Hl].
  apply NoDup_submseteq; [done|]. intros j Hj. rewrite Forall_forall in Hr. specialize (Hr j Hj). apply elem_of_seq. lia.
Qed.

Lemma full_order js : joinable 1 js = true -> length js = n - 1 -> map pred js ≡ₚ seq 0 (n - 1).
Proof.
  intros H Hl. rewrite (joinable_full js H Hl). rewrite <- seq_shift, map_map, (map_ext _ id) by done. by rewrite map_id.
Qed.

Lemma mask_of_full js : joinable 1 js = true -> length js = n - 1 -> 0 < n -> mask_of js = N.ones (N.of_nat n).
Proof.
  intros H Hl Hn. apply mask_ext. intros i. rewrite (mask_of_perm _ _ (joinable_full js H Hl)), has_bit_mask_of, has_bit_spec.
  destruct (decide (i < n)).
  - rewrite N.ones_spec_low by lia. apply orb_true_iff. rewrite Nat.eqb_eq, bool_decide_eq_true, elem_of_seq. lia.
  - rewrite N.ones_spec_high by lia. apply orb_false_iff. rewrite Nat.eqb_neq, bool_decide_eq_false, elem_of_seq. lia.
Qed.

Lemma joinable_mask_bound js : joinable 1 js = true -> 0 < n -> 0 < N.to_nat (mask_of js) < 2 ^ n.
Proof.
  intros H Hn. destruct (joinable_nodup js H) as [_ Hr]. split.
  - destruct (mask_of js) eqn:E; [|lia]. pose proof (has_bit_mask_of js 0) as H0. by rewrite E in H0.
  - apply mask_bound. intros i Hi. rewrite has_bit_mask_of. apply orb_false_iff. rewrite Nat.eqb_neq, bool_decide_eq_false.
    split; [lia|]. rewrite Forall_forall in Hr. intros Hj. specialize (Hr i Hj). lia.
Qed.

Lemma joinable_mask_inj js js' : joinable 1 js = true -> joinable 1 js' = true -> mask_of js = mask_of js' -> js ≡ₚ js'.
Proof.
  intros H H' E. destruct (joinable_nodup _ H) as [Hn Hr], (joinable_nodup _ H') as [Hn' Hr'].
  rewrite Forall_forall in Hr, Hr'. apply mask_of_inj; try done; intros H0; [specialize (Hr _ H0)|specialize (Hr' _ H0)]; lia.
Qed.

End orders.

Section planned.
Context {DB : Double}.
Context (dcount : nat -> dbl) (dceil : dbl -> dbl) (tenth huge : dbl).
Context (g_costConsts : CostConstants) (getStats : bytes -> option TableStats).
Context (tables : list JoinTableInfo).

Abbreviation n := (length tables).
Abbreviation extend := (extend dcount dceil tenth g_costConsts getStats tables).
Abbreviation start := (scan_state dcount dceil g_costConsts getStats tables 0).
Abbreviation dp_try := (dp_try dcount dceil tenth g_costConsts getStats tables).
Abbreviation dp_mask := (dp_mask dcount dceil tenth g_costConsts getStats tables).
Abbreviation planDp := (planDp dcount dceil tenth g_costConsts getStats tables).
Abbreviation planGreedy := (planGreedy dcount dceil tenth huge g_costConsts getStats tables).

Abbreviation joinable := (joinable tables).

(** The estimate of an order. *)
Definition run (js : list nat) : DpState := fold_left extend js start.

Lemma run_app js j : run (js ++ [j]) = extend (run js) j.
Proof. unfold run. by rewrite fold_left_app. Qed.

Lemma order_run js : order (run js) = map pred js.
Proof.
  induction js as [|j js IH] using rev_ind; [done|]. rewrite run_app, map_app. unfold JoinOrder.extend. cbn [order map].
  by rewrite IH, Nat.sub_1_r.
Qed.

(** *** Estimates *)

Definition step_inner (j : nat) : CostEstimate := scanOf dcount dceil g_costConsts getStats (info tables j).
Definition step_hash (s : DpState) (j : nat) : CostEstimate :=
  hashJoin g_costConsts (mkEstimate dzero (cost s) (estRows s) (st_width s)) (step_inner j)
    (joinOutRows dcount tenth getStats (estRows s) tables j (rows (step_inner j))).
Definition step_nested (s : DpState) (j : nat) : CostEstimate :=
  nestedLoop g_costConsts (mkEstimate dzero (cost s) (estRows s) (st_width s)) (step_inner j)
    (joinOutRows dcount tenth getStats (estRows s) tables j (rows (step_inner j))).

(** The estimated size of a result does not depend on the order of its joins, and
    no cost is NaN.  Sizes are products and quotients of the same factors, so in
    exact arithmetic the first always holds. *)
Record well_estimated : Prop := {
  we_size p q : joinable 1 p = true -> joinable 1 q = true -> p ≡ₚ q ->
    estRows (run p) = estRows (run q) /\ st_width (run p) = st_width (run q);
  we_cost p j : joinable 1 (p ++ [j]) = true ->
    disnan (total (step_hash (run p) j)) = false /\ disnan (total (step_nested (run p) j)) = false }.

Lemma extend_cost s j :
  cost (extend s j) = if dlt (total (step_nested s j)) (total (step_hash s j)) then total (step_nested s j) else total (step_hash s j).
Proof. unfold JoinOrder.extend, joinStep. cbn [cost]. fold (step_inner j). by destruct (dlt _ _). Qed.

Context {DO : DoubleOrder DB} {DS : DoubleSum DB}.

Lemma not_dlt_trans a b c :
  disnan b = false -> disnan a = false -> disnan c = false -> dlt b a = false -> dlt c b = false -> dlt c a = false.
Proof.
  intros Hb Ha Hc Hba Hcb. apply not_true_iff_false. intros Hca.
  destruct (dlt_cases b c Hb Hc) as [H|[H|H]]; [|destruct (deq_dlt b c a H) as [E _]|]; try congruence.
  by rewrite (dlt_trans b c a) in Hba.
Qed.

(** A cheaper prefix of the same size makes the next step no dearer. *)
Lemma extend_mono s s' j :
  estRows s = estRows s' -> st_width s = st_width s' -> dlt (cost s') (cost s) = false ->
  disnan (total (step_hash s j)) = false -> disnan (total (step_nested s j)) = false ->
  disnan (total (step_hash s' j)) = false -> disnan (total (step_nested s' j)) = false ->
  dlt (cost (extend s' j)) (cost (extend s j)) = false.
Proof.
  intros Er Ew Hc N1 N2 N3 N4. rewrite !extend_cost.
  assert (dlt (total (step_hash s' j)) (total (step_hash s j)) = false) as Hh.
  { unfold step_hash, hashJoin in *. cbn [total rows width startup] in *. rewrite <- Er in *.
    destruct (dadd_nan _ _ N1) as [M1 _], (dadd_nan _ _ N3) as [M3 _].
    apply dadd_le_l; [|done..]. destruct (dadd_nan _ _ M1) as [_ K1], (dadd_nan _ _ M3) as [_ K3].
    apply dadd_le_r; [|done..]. by apply dadd_le_l. }
  assert (dlt (total (step_nested s' j)) (total (step_nested s j)) = false) as Hn.
  { unfold step_nested, nestedLoop in *. cbn [total rows width startup] in *. rewrite <- Er in *.
    destruct (dadd_nan _ _ N2) as [M2 _], (dadd_nan _ _ N4) as [M4 _].
    apply dadd_le_l; [|done..]. by apply dadd_le_l. }
  destruct (dlt (total (step_nested s' j)) (total (step_hash s' j))) eqn:E', (dlt (total (step_nested s j)) (total (step_hash s j))) eqn:E; try done.
  - by apply (not_dlt_trans _ (total (step_nested s j))).
  - apply (not_dlt_trans _ (total (step_hash s j))); try done. apply not_true_iff_false. intros H.
    pose proof (dlt_trans _ _ _ E H) as K. by rewrite dlt_irrefl in K.
Qed.

(** *** The table of the dynamic program *)

Definition sound (memo : gmap N DpState) : Prop :=
  forall mask s, memo !! mask = Some s -> has_bit mask 0 = true ->
  exists js, joinable 1 js = true /\ mask_of js = mask /\ s = run js.

(** At most as dear as the order. *)
Definition as_cheap (js : list nat) (s : DpState) : Prop := well_estimated -> dlt (cost (run js)) (cost s) = false.

Definition covers (memo : gmap N DpState) (js : list nat) : Prop :=
  exists s, memo !! mask_of js = Some s /\ as_cheap js s.

Lemma run_cost js : well_estimated -> joinable 1 js = true -> js <> [] -> disnan (cost (run js)) = false.
Proof.
  intros W. destruct js as [|j js _] using rev_ind; [done|]. intros H _. rewrite run_app, extend_cost.
  destruct (we_cost W js j H). by destruct (dlt _ _).
Qed.

(** Trying one more last table keeps the best so far. *)
Definition best_of (mask : N) (s : option DpState) : Prop :=
  forall x, s = Some x -> exists js, joinable 1 js = true /\ mask_of js = mask /\ x = run js.

Lemma dp_try_spec memo mask cur j :
  sound memo -> has_bit mask 0 = true -> mask <> 1%N -> 0 < j < n -> best_of mask cur ->
  let cur' := dp_try memo mask cur j in
  best_of mask cur' /\
  (forall s, cur = Some s -> exists s', cur' = Some s' /\ (well_estimated -> dlt (cost s) (cost s') = false)) /\
  (forall js, joinable 1 (js ++ [j]) = true -> mask_of (js ++ [j]) = mask -> covers memo js ->
     exists s', cur' = Some s' /\ as_cheap (js ++ [j]) s').
Proof.
  intros Hs H0 H1 Hj Hc cur'. unfold cur', JoinOrder.dp_try.
  assert (forall s : DpState, dlt (cost s) (cost s) = false) as Hrefl by (intros; apply dlt_irrefl).
  destruct (has_bit mask j) eqn:Hb.
  2: { split_and!; [done|eauto|]. intros js Hjs <-. rewrite has_bit_mask_of, orb_false_iff, bool_decide_eq_false in Hb. set_solver. }
  set (sub := N.lxor mask (bit j)).
  assert (forall js, joinable 1 (js ++ [j]) = true -> mask_of (js ++ [j]) = mask -> sub = mask_of js) as Hsub.
  { intros js Hjs <-. apply joinable_snoc in Hjs as (_ & _ & Hf & _). unfold sub. rewrite mask_of_app. by apply lxor_lor. }
  destruct (memo !! sub) as [s0|] eqn:Em.
  2: { split_and!; [done|eauto|]. intros js Hjs Hm (s & Hl & _). rewrite (Hsub js Hjs Hm), Hl in Em. done. }
  destruct (connected (info tables j) sub) eqn:Hcon.
  2: { split_and!; [done|eauto|]. intros js Hjs Hm _. pose proof (Hsub js Hjs Hm) as E. apply joinable_snoc in Hjs as (_ & _ & _ & Hk). congruence. }
  assert (has_bit sub 0 = true) as Hsub0.
  { unfold sub. rewrite has_bit_spec, N.lxor_spec, testbit_bit, <- has_bit_spec, H0. destruct (Nat.eqb_spec j 0); [lia|done]. }
  destruct (Hs sub s0 Em Hsub0) as (js0 & Hj0 & Hm0 & ->).
  assert (joinable 1 (js0 ++ [j]) = true) as Hjj.
  { apply joinable_snoc. rewrite Hm0. split_and!; [done|lia|lia| |done]. unfold sub. by rewrite has_bit_lxor, Hb. }
  assert (mask_of (js0 ++ [j]) = mask) as Hmm by (rewrite mask_of_app, Hm0; by apply lor_lxor).
  rewrite <- run_app.
  assert (forall js, joinable 1 (js ++ [j]) = true -> mask_of (js ++ [j]) = mask -> covers memo js -> as_cheap (js ++ [j]) (run (js0 ++ [j]))) as Hbest.
  { intros js Hjs Hm (s & Hl & Hch) W. rewrite <- (Hsub js Hjs Hm), Em in Hl. injection Hl as <-. specialize (Hch W).
    pose proof (proj1 (proj1 (joinable_snoc _ _ _) Hjs)) as Hj'.
    destruct (we_size W js js0 Hj' Hj0) as [E1 E2].
    { apply (joinable_mask_inj tables); [done..|]. rewrite Hm0. symmetry. by apply Hsub. }
    destruct (we_cost W js j Hjs), (we_cost W js0 j Hjj). rewrite !run_app. by apply extend_mono. }
  destruct cur as [s|].
  2: { split_and!; [intros x [= <-]; eauto|done|eauto]. }
  destruct (Hc s eq_refl) as (jc & Hjc & Hmc & ->).
  assert (jc <> []) as Hne by (intros ->; by apply H1).
  destruct (dlt (cost (run (js0 ++ [j]))) (cost (run jc))) eqn:Ed.
  - split_and!; [intros x [= <-]; eauto| |eauto]. intros s [= <-]. eexists. split; [done|]. intros _. apply not_true_iff_false. intros K.
    pose proof (dlt_trans _ _ _ Ed K) as B. by rewrite dlt_irrefl in B.
  - split_and!; [done|eauto|]. intros js Hjs Hm Hcv. eexists. split; [done|]. intros W.
    apply (not_dlt_trans _ (cost (run (js0 ++ [j])))); [apply run_cost; [done..|by destruct js0]|apply run_cost; done|apply run_cost; [done..|by destruct js]|done|].
    by apply Hbest.
Qed.

(** At least as cheap as another state. *)
Definition improves (s s' : DpState) : Prop := well_estimated -> dlt (cost s) (cost s') = false.

Lemma as_cheap_improves mask js s s' :
  best_of mask (Some s) -> best_of mask (Some s') -> mask <> 1%N -> joinable 1 js = true -> js <> [] ->
  as_cheap js s -> improves s s' -> as_cheap js s'.
Proof.
  intros H H' H1 Hj Hne Hc Hi W. destruct (H s eq_refl) as (p & Hp & <- & ->), (H' s' eq_refl) as (q & Hq & Hm & ->).
  assert (p <> []) by (intros ->; by apply H1). assert (q <> []) by (intros ->; by apply H1; rewrite <- Hm).
  apply (not_dlt_trans _ (cost (run p))); [by apply run_cost..| |]; [by apply Hi|by apply Hc].
Qed.

Lemma improves_trans mask s s1 s' :
  best_of mask (Some s) -> best_of mask (Some s1) -> best_of mask (Some s') -> mask <> 1%N ->
  improves s s1 -> improves s1 s' -> improves s s'.
Proof.
  intros H H1 H' Hm Hi Hi1 W. destruct (H s eq_refl) as (p & Hp & Ep & ->).
  refine (as_cheap_improves mask p s1 s' H1 H' Hm Hp _ _ Hi1 W); [|done].
  intros ->. by apply Hm.
Qed.

Lemma dp_fold_spec memo mask l cur :
  sound memo -> has_bit mask 0 = true -> mask <> 1%N -> Forall (fun j => 0 < j < n) l -> best_of mask cur ->
  let cur' := fold_left (dp_try memo mask) l cur in
  best_of mask cur' /\
  (forall s, cur = Some s -> exists s', cur' = Some s' /\ improves s s') /\
  (forall js j, j ∈ l -> joinable 1 (js ++ [j]) = true -> mask_of (js ++ [j]) = mask -> covers memo js ->
     exists s', cur' = Some s' /\ as_cheap (js ++ [j]) s').
Proof.
  intros Hs H0 H1 Hl. revert cur. induction Hl as [|j l Hj _ IH]; intros cur Hc.
  - split; [done|]. split; [|set_solver]. intros s ->. eexists. split; [done|]. intros _. apply dlt_irrefl.
  - cbn [fold_left]. destruct (dp_try_spec memo mask cur j Hs H0 H1 Hj Hc) as (Hb1 & Hi1 & Hc1).
    destruct (IH _ Hb1) as (Hb & Hi & Hcv). split; [done|]. split.
    + intros s ->. destruct (Hi1 s eq_refl) as (s1 & E1 & I1). destruct (Hi s1 E1) as (s' & E' & I').
      exists s'. split; [done|]. rewrite E1 in Hb1. rewrite E' in Hb. by apply (improves_trans mask s s1 s').
    + intros js j' [->|Hj']%elem_of_cons Hjs Hm Hcov; [|by apply Hcv].
      destruct (Hc1 js Hjs Hm Hcov) as (s1 & E1 & C1). destruct (Hi s1 E1) as (s' & E' & I').
      exists s'. split; [done|]. rewrite E1 in Hb1. rewrite E' in Hb.
      apply (as_cheap_improves mask _ s1 s'); try done. by destruct js.
Qed.

Lemma dp_mask_spec memo mask :
  sound memo -> has_bit mask 0 = true -> mask <> 1%N -> 
  let memo' := dp_mask memo mask in
  sound memo' /\ (forall js, joinable 1 js = true -> covers memo js -> covers memo' js) /\
  (forall js j, joinable 1 (js ++ [j]) = true -> mask_of (js ++ [j]) = mask -> covers memo js -> covers memo' (js ++ [j])).
Proof.
  intros Hs H0 H1 memo'. unfold memo', JoinOrder.dp_mask.
  assert (Forall (fun j => 0 < j < n) (seq 1 (n - 1))) as Hl.
  { apply Forall_forall. intros j [? ?]%elem_of_seq. lia. }
  assert (best_of mask (memo !! mask)) as Hb0 by (intros x Hx; by apply Hs).
  destruct (dp_fold_spec memo mask _ _ Hs H0 H1 Hl Hb0) as (Hb & Hi & Hc).
  destruct (fold_left _ _ _) as [s|] eqn:E.
  - split_and!.
    + intros m x Hx Hm. destruct (decide (m = mask)) as [->|Hne].
      * rewrite lookup_insert_eq in Hx. injection Hx as ->. by apply Hb.
      * rewrite lookup_insert_ne in Hx by done. by apply Hs.
    + intros js Hj (x & Hx & Hch). destruct (decide (mask_of js = mask)) as [Em|Hne].
      * rewrite Em in Hx. destruct (Hi x Hx) as (s' & [= <-] & I'). exists s. rewrite Em, lookup_insert_eq. split; [done|].
        rewrite Hx in Hb0. apply (as_cheap_improves mask _ x s); try done. intros ->. by apply H1.
      * exists x. by rewrite lookup_insert_ne.
    + intros js j Hjs Hm Hcov. destruct (Hc js j) as (s' & [= <-] & Hch); try done.
      { apply joinable_snoc in Hjs as (_ & ? & _). apply elem_of_seq. lia. }
      exists s. by rewrite Hm, lookup_insert_eq.
  - split_and!; [done|done|]. intros js j Hjs Hm Hcov. destruct (Hc js j) as (s' & [=] & _); try done.
    apply joinable_snoc in Hjs as (_ & ? & _). apply elem_of_seq. lia.
Qed.

(** A set of the dynamic program. *)
Definition proper_mask (mask : N) : Prop := has_bit mask 0 = true /\ mask <> 1%N.

Lemma dp_keeps l memo :
  sound memo -> Forall proper_mask l ->
  sound (fold_left dp_mask l memo) /\ forall js, joinable 1 js = true -> covers memo js -> covers (fold_left dp_mask l memo) js.
Proof.
  intros Hs Hl. revert memo Hs. induction Hl as [|m l [H0 H1] _ IH]; intros memo Hs; [done|]. cbn [fold_left].
  destruct (dp_mask_spec memo m Hs H0 H1) as (Hs' & Hkeep & _). destruct (IH _ Hs') as [? Hk]. split; [done|]. eauto.
Qed.

(** The sets of one size: all orders of that length are covered if the shorter ones are. *)
Lemma dp_size l memo k :
  sound memo -> Forall proper_mask l ->
  (forall js, joinable 1 js = true -> length js = k -> covers memo js) ->
  forall js, joinable 1 js = true -> length js = S k -> mask_of js ∈ l -> covers (fold_left dp_mask l memo) js.
Proof.
  intros Hs Hl. revert memo Hs. induction Hl as [|mask l [H0 H1] Hl IH]; intros memo Hs Hk js Hj Hlen Hm; [set_solver|].
  cbn [fold_left]. destruct (dp_mask_spec memo mask Hs H0 H1) as (Hs' & Hkeep & Hnew).
  apply elem_of_cons in Hm as [Hm|Hm]; [|apply IH; eauto].
  destruct js as [|j js _] using rev_ind; [done|]. rewrite length_app in Hlen. cbn in Hlen.
  apply dp_keeps; [done..|]. apply Hnew; [done..|]. apply Hk; [by apply joinable_snoc in Hj as (? & _)|lia].
Qed.

Section few.
Hypothesis few_tables : 0 < n <= 31.

Lemma dp_masks_proper sz mask :
  2 <= sz -> mask ∈ List.filter (fun mask => (popcount mask =? sz) && has_bit mask 0) (map N.of_nat (seq 1 (2 ^ n - 1))) -> proper_mask mask.
Proof.
  intros Hsz. rewrite list_elem_of_In, List.filter_In, andb_true_iff, Nat.eqb_eq. intros (_ & Hp & H0). split; [done|].
  intros ->. change (popcount 1) with 1 in Hp. lia.
Qed.

Lemma joinable_in_masks js :
  joinable 1 js = true -> mask_of js ∈ List.filter (fun mask => (popcount mask =? S (length js)) && has_bit mask 0) (map N.of_nat (seq 1 (2 ^ n - 1))).
Proof.
  intros Hj. destruct (joinable_nodup tables js Hj) as [Hn Hr]. rewrite list_elem_of_In, List.filter_In, andb_true_iff, Nat.eqb_eq. split_and!.
  - apply in_map_iff. exists (N.to_nat (mask_of js)). split; [apply N2Nat.id|]. apply in_seq.
    destruct (joinable_mask_bound tables js Hj); lia.
  - apply popcount_mask_of; [done|]. eapply Forall_impl; [exact Hr|]. intros j. cbn. lia.
  - by rewrite has_bit_mask_of.
Qed.

Lemma dp_sizes m k memo :
  1 <= k -> sound memo -> (forall js, joinable 1 js = true -> length js < k -> covers memo js) ->
  let memo' := fold_left dp_mask (mjoin (map (fun sz => List.filter (fun mask => (popcount mask =? sz) && has_bit mask 0)
                 (map N.of_nat (seq 1 (2 ^ n - 1)))) (seq (S k) m))) memo in
  sound memo' /\ forall js, joinable 1 js = true -> length js < k + m -> covers memo' js.
Proof.
  revert k memo. induction m as [|m IH]; intros k memo Hk Hs Hc; [by rewrite Nat.add_0_r|].
  cbn [seq map]. change (mjoin (?x :: ?l)) with (x ++ mjoin l). rewrite fold_left_app.
  match goal with |- context [fold_left dp_mask ?x memo] => set (l := x) end.
  assert (Forall proper_mask l) as Hl by (apply Forall_forall; intros mask Hm; apply (dp_masks_proper (S k)); [lia|done]).
  destruct (dp_keeps l memo Hs Hl) as [Hs' Hkeep].
  assert (k + S m = S k + m) as -> by lia.
  apply IH; [lia|done|]. intros js Hj Hlen. destruct (decide (length js < k)); [by apply Hkeep, Hc|].
  apply (dp_size l memo (k - 1)); try done; [|lia|].
  - intros js' Hj' Hl'. apply Hc; [done|lia].
  - assert (length js = k) as <- by lia. by apply joinable_in_masks.
Qed.

Lemma dp_base_lookup k mask s :
  fold_left (fun (memo : gmap N DpState) i => <[bit i := scan_state dcount dceil g_costConsts getStats tables i]> memo) (seq 0 k) ∅ !! mask = Some s <->
  exists i, i < k /\ mask = bit i /\ s = scan_state dcount dceil g_costConsts getStats tables i.
Proof.
  induction k as [|k IH]; [split; [done|intros (i & Hi & _); lia]|]. rewrite seq_S, fold_left_app. cbn [fold_left Nat.add].
  destruct (decide (mask = bit k)) as [->|Hne].
  - rewrite lookup_insert_eq. split; [intros [= <-]; exists k; lia || (split_and!; [lia|done..])|].
    intros (i & _ & E & ->). do 2 f_equal. apply (f_equal (fun m => N.testbit m (N.of_nat k))) in E.
    rewrite !testbit_bit, Nat.eqb_refl in E. symmetry in E. apply Nat.eqb_eq in E. by subst.
  - rewrite lookup_insert_ne, IH by done. split; intros (i & Hi & -> & ->); exists i; split_and!; try done; [lia|].
    destruct (decide (i = k)) as [->|]; [done|lia].
Qed.

Lemma dp_table_spec :
  let memo := fold_left dp_mask (dp_masks n) (dp_base dcount dceil g_costConsts getStats tables) in
  sound memo /\ forall js, joinable 1 js = true -> covers memo js.
Proof.
  intros memo. destruct (dp_sizes (n - 1) 1 (dp_base dcount dceil g_costConsts getStats tables)) as [Hs Hc]; [lia|..].
  - intros mask s Hm H0. apply dp_base_lookup in Hm as (i & _ & -> & ->). rewrite has_bit_spec, testbit_bit in H0.
    apply Nat.eqb_eq in H0 as ->. by exists [].
  - intros [|j js] _ Hl; [|cbn in Hl; lia]. exists start. split; [|intros _; apply dlt_irrefl].
    apply dp_base_lookup. exists 0. split_and!; [lia|done..].
  - split; [done|]. intros js Hj. apply Hc; [done|]. destruct (joinable_nodup tables js Hj) as [Hn Hr].
    assert (length js <= length (seq 1 (n - 1))) as Hl; [|rewrite length_seq in Hl; lia].
    apply submseteq_length, NoDup_submseteq; [done|]. intros j Hjj. rewrite Forall_forall in Hr. specialize (Hr j Hjj).
    apply elem_of_seq. lia.
Qed.

(** The planner by dynamic programming: an order that joins every table behind the
    ones it refers to, and none of them is estimated cheaper. *)
Lemma planDp_spec :
  let p := planDp in
  if dpUsed p then
    exists js, joinable 1 js = true /\ length js = n - 1 /\ joinOrder p = map pred js /\ estimatedCost p = cost (run js) /\
      forall js', joinable 1 js' = true -> length js' = n - 1 -> well_estimated -> dlt (cost (run js')) (estimatedCost p) = false
  else joinOrder p = seq 0 (n - 1) /\ forall js, joinable 1 js = true -> length js <> n - 1.
Proof.
  destruct dp_table_spec as [Hs Hc]. cbv zeta. unfold JoinOrder.planDp.
  set (memo := fold_left dp_mask _ _) in *.
  assert (forall js, joinable 1 js = true -> length js = n - 1 -> exists s, memo !! N.ones (N.of_nat n) = Some s /\ length (order s) = n - 1 /\ as_cheap js s) as Hall.
  { intros js Hj Hl. destruct (Hc js Hj) as (s & Hm & Hch). rewrite (mask_of_full tables) in Hm by (try done; lia). exists s. split; [done|]. split; [|done].
    destruct (Hs _ _ Hm) as (p & Hp & Em & ->).
    { rewrite has_bit_spec. apply N.ones_spec_low. lia. }
    rewrite order_run, length_map, <- Hl. apply Permutation_length, (joinable_mask_inj tables); [done..|]. by rewrite Em, (mask_of_full tables) by (try done; lia). }
  destruct (memo !! N.ones (N.of_nat n)) as [best|] eqn:Eb.
  - destruct (Nat.eqb_spec (length (order best)) (n - 1)) as [E|E]; cbn [dpUsed joinOrder estimatedCost original_order].
    + destruct (Hs _ _ Eb) as (js & Hj & Em & ->); [rewrite has_bit_spec; apply N.ones_spec_low; lia|].
      rewrite order_run, length_map in E. exists js. split_and!; [done|done|apply order_run|done|].
      intros js' Hj' Hl' W. destruct (Hall js' Hj' Hl') as (s & [= <-] & _ & Hch). by apply Hch.
    + split; [done|]. intros js Hj Hl. destruct (Hall js Hj Hl) as (s & [= <-] & ? & _). done.
  - cbn [dpUsed joinOrder original_order]. split; [done|]. intros js Hj Hl. by destruct (Hall js Hj Hl) as (s & ? & _).
Qed.

End few.

(** *** Greedy *)

Abbreviation greedy_try := (greedy_try dcount dceil tenth huge g_costConsts getStats tables).
Abbreviation greedy_pass := (greedy_pass dcount dceil tenth huge g_costConsts getStats tables).
Abbreviation greedy_choose := (greedy_choose dcount dceil tenth huge g_costConsts getStats tables).
Abbreviation greedy_loop m := (greedy_loop dcount dceil tenth huge g_costConsts getStats m tables).

(** A candidate of a pass. *)
Definition candidate (cross : bool) (mask : N) (j : nat) : Prop :=
  0 < j < n /\ has_bit mask j = false /\ cross || connected (info tables j) mask = true.

Lemma greedy_fold_spec cross mask s l acc :
  Forall (fun j => 0 < j < n) l ->
  (forall i x, acc.1 = Some (i, x) -> candidate cross mask i /\ x = extend s i) ->
  let acc' := fold_left (greedy_try cross mask s) l acc in
  (forall i x, acc'.1 = Some (i, x) -> candidate cross mask i /\ x = extend s i) /\
  acc.2 <= acc'.2 /\ (forall j, j ∈ l -> candidate cross mask j -> acc.2 < acc'.2).
Proof.
  intros Hl. revert acc. induction Hl as [|k l Hk _ IH]; intros acc Ha; [split_and!; [done|done|set_solver]|].
  cbn [fold_left]. destruct (IH (greedy_try cross mask s acc k)) as (A & B & C).
  { intros i x. unfold JoinOrder.greedy_try. destruct (has_bit mask k) eqn:Eb; cbn [orb]; [apply Ha|].
    destruct (cross || connected _ _) eqn:Ec; cbn [negb]; [|apply Ha]. cbn [fst]. destruct (dlt _ _); [|apply Ha].
    intros [= <- <-]. split; [|done]. split_and!; [lia|lia|done|done]. }
  assert (acc.2 <= (greedy_try cross mask s acc k).2) as Hle.
  { unfold JoinOrder.greedy_try. destruct (_ || _); cbn [snd]; lia. }
  split_and!; [done|lia|]. intros j [->|Hj]%elem_of_cons Hc; [|specialize (C j Hj Hc); lia].
  destruct Hc as (_ & Hb & Hc). assert ((greedy_try cross mask s acc k).2 = S acc.2) as E; [|lia].
  unfold JoinOrder.greedy_try. by rewrite Hb, Hc.
Qed.

Lemma greedy_pass_spec cross mask s :
  (forall i x, (greedy_pass cross mask s).1 = Some (i, x) -> candidate cross mask i /\ x = extend s i) /\
  (forall j, candidate cross mask j -> 0 < (greedy_pass cross mask s).2).
Proof.
  assert (Forall (fun j => 0 < j < n) (seq 1 (n - 1))) as Hl by (apply Forall_forall; intros j [? ?]%elem_of_seq; lia).
  destruct (greedy_fold_spec cross mask s (seq 1 (n - 1)) (None, 0) Hl) as (A & _ & C); [done|]. split; [exact A|].
  intros j Hj. apply (C j); [|done]. destruct Hj as [? _]. apply elem_of_seq. lia.
Qed.

Lemma greedy_choose_spec mask s i x :
  (greedy_choose mask s).1 = Some (i, x) -> candidate true mask i /\ x = extend s i.
Proof.
  unfold JoinOrder.greedy_choose. destruct (greedy_pass false mask s) as [[p|] k] eqn:E.
  - intros [= ->]. destruct (proj1 (greedy_pass_spec false mask s) i x) as [(? & ? & _) ?]; [by rewrite E|]. done.
  - destruct (0 <? k); [done|]. apply greedy_pass_spec.
Qed.

Lemma greedy_loop_spec m js :
  NoDup js -> Forall (fun j => 0 < j < n) js -> forall k,
  exists js', NoDup js' /\ Forall (fun j => 0 < j < n) js' /\
    order (greedy_loop m (mask_of js) (run js) k).1 = map pred js'.
Proof.
  revert js. induction m as [|m IH]; intros js Hn Hr k; [exists js; by rewrite <- order_run|]. cbn [JoinOrder.greedy_loop].
  destruct (greedy_choose _ _) as [[[j x]|] e] eqn:E; [|exists js; by rewrite <- order_run].
  destruct (greedy_choose_spec (mask_of js) (run js) j x) as [(Hj & Hb & _) ->]; [by rewrite E|].
  rewrite <- mask_of_app, <- run_app. rewrite has_bit_mask_of, orb_false_iff, bool_decide_eq_false in Hb. apply IH.
  - apply NoDup_app. split_and!; [done|set_solver|apply NoDup_singleton].
  - apply Forall_app. split; [done|by constructor].
Qed.

(** Greedily every join is planned once. *)
Lemma planGreedy_perm : joinOrder planGreedy ≡ₚ seq 0 (n - 1).
Proof.
  unfold JoinOrder.planGreedy. destruct (greedy_loop_spec (n - 1) [] ltac:(constructor) ltac:(constructor) 1) as (js & Hn & Hr & Ho).
  change (mask_of []) with 1%N in Ho. change (run []) with start in Ho.
  destruct (greedy_loop _ _ _ _) as [s e]. cbn [fst] in Ho.
  destruct (Nat.eqb_spec (length (order s)) (n - 1)) as [E|E]; [|done]. cbn [joinOrder]. rewrite Ho in E |- *. rewrite length_map in E.
  assert (js ≡ₚ seq 1 (n - 1)) as ->; [|by rewrite <- seq_shift, map_map, (map_ext _ id), map_id].
  apply submseteq_length_Permutation; [|by rewrite length_seq, E].
  apply NoDup_submseteq; [done|]. intros j Hj. rewrite Forall_forall in Hr. specialize (Hr j Hj). apply elem_of_seq. lia.
Qed.

(** *** Chains in which every table refers to an earlier one *)

Definition refers_back : Prop := forall j, 0 < j < n -> exists k, requiredTables (info tables j) = [k] /\ k < j.

Lemma candidate_exists mask j :
  refers_back -> has_bit mask 0 = true -> candidate true mask j -> exists i, candidate false mask i.
Proof.
  intros Hr H0. revert j. apply (well_founded_induction lt_wf (fun j => candidate true mask j -> exists i, candidate false mask i)).
  intros j IH (Hj & Hb & _). destruct (Hr j Hj) as (k & Ek & Hk). destruct (has_bit mask k) eqn:Ebk.
  - exists j. split_and!; [lia|lia|done|]. cbn [orb]. unfold connected. by rewrite Ek, andb_true_r || (rewrite Ek; cbn; rewrite Ebk).
  - apply (IH k Hk). split_and!; [|lia|done|done]. destruct k; [by rewrite H0 in Ebk|lia].
Qed.

Lemma greedy_loop_joinable m js :
  refers_back -> joinable 1 js = true -> forall k,
  exists js', joinable 1 js' = true /\ order (greedy_loop m (mask_of js) (run js) k).1 = map pred js'.
Proof.
  intros Hb. revert js. induction m as [|m IH]; intros js Hj k; [exists js; by rewrite <- order_run|]. cbn [JoinOrder.greedy_loop].
  destruct (greedy_choose _ _) as [[[j x]|] e] eqn:E; [|exists js; by rewrite <- order_run].
  assert (candidate false (mask_of js) j /\ x = extend (run js) j) as [(Hjr & Hbit & Hc) ->].
  { unfold JoinOrder.greedy_choose in E. destruct (greedy_pass_spec false (mask_of js) (run js)) as [Hp Hk].
    destruct (greedy_pass false (mask_of js) (run js)) as [[p|] q].
    - injection E as -> <-. by apply Hp.
    - destruct (0 <? q) eqn:Eq; [done|]. apply Nat.ltb_ge in Eq. destruct (proj1 (greedy_pass_spec true (mask_of js) (run js)) j x) as [Hct _]; [by rewrite E|].
      destruct (candidate_exists (mask_of js) j Hb) as [i Hi]; [by rewrite has_bit_mask_of|done|]. specialize (Hk i Hi). cbn in Hk. lia. }
  rewrite <- mask_of_app, <- run_app. apply IH. apply joinable_snoc. by split_and!; try lia.
Qed.

Lemma planGreedy_joinable :
  refers_back -> dpUsed planGreedy = true ->
  exists js, joinable 1 js = true /\ length js = n - 1 /\ joinOrder planGreedy = map pred js.
Proof.
  intros Hb. unfold JoinOrder.planGreedy. destruct (greedy_loop_joinable (n - 1) [] Hb eq_refl 1) as (js & Hj & Ho).
  change (mask_of []) with 1%N in Ho. change (run []) with start in Ho. destruct (greedy_loop _ _ _ _) as [s e]. cbn [fst] in Ho.
  destruct (Nat.eqb_spec (length (order s)) (n - 1)) as [E|E]; [|done]. intros _. exists js. rewrite Ho, length_map in E. done.
Qed.
End planned.

(** A plan that is used is an order in which every join is possible. *)
Lemma plan_joinable {DB : Double} {DO : DoubleOrder DB} {DS : DoubleSum DB} dcount dceil tenth huge g_costConsts getStats tables key cache :
  refers_back tables -> 3 <= length tables -> cache !! key = None ->
  let p := (plan dcount dceil tenth huge g_costConsts getStats tables key cache).1 in
  dpUsed p = true -> exists js, joinable tables 1 js = true /\ length js = length tables - 1 /\ joinOrder p = map pred js.
Proof.
  intros Hb H3 Hc p. destruct tables as [|t0 [|t1 [|t2 ts]]]; [cbn in H3; lia..|]. unfold p, plan. clear p.
  set (tables := t0 :: t1 :: t2 :: ts) in *.
  assert ((if bytes_eqb key [] then None else cache !! key) = None) as -> by (by destruct (bytes_eqb _ _)).
  cbn [fst]. destruct (Nat.leb_spec (length tables) MAX_DP_TABLES) as [H8|_].
  - pose proof (planDp_spec dcount dceil tenth g_costConsts getStats tables) as Hdp. cbv zeta in Hdp. intros Hu. rewrite Hu in Hdp.
    unfold MAX_DP_TABLES in *. destruct Hdp as (js & Hj & Hjl & Ho & _); [lia|]. by exists js.
  - by apply planGreedy_joinable.
Qed.

(** ** The engine *)

(** A join clause with the alias of its table, if any. *)
Record PlannedJoin := mkPlanned { clause : JoinClause; tableAlias : bytes }.

(** The prefix of a qualified name, or the name itself. *)
Definition prefix_or_all (s : bytes) : bytes := default s (split_name s).1.

(** The number of the table that a prefix names: by its name, or by the alias of a
    joined table. *)
Definition findIdx (tables aliases : list bytes) (pfx : bytes) : option nat :=
  if bytes_eqb pfx [] then None
  else
    match list_find (fun n => tblNamesMatch pfx n = true) tables with
    | Some (i, _) => Some i
    | None => match list_find (fun a => a <> [] /\ pfx = a) aliases with Some (i, _) => Some (S i) | None => None end
    end.

(** The tables of the ON clause but the new one, in order, or else the base table. *)
Definition required (ji l r : nat) : list nat :=
  let idxs := if l <? r then [l; r] else if r <? l then [r; l] else [l] in
  match List.filter (fun i => negb (i =? ji)) idxs with [] => [0] | l => l end.

Definition join_info (tables aliases : list bytes) (ji rowCount : nat) (jc : JoinClause) : JoinTableInfo :=
  let l := default 0 (findIdx tables aliases (prefix_or_all (onLeft jc))) in
  let r := default 0 (findIdx tables aliases (prefix_or_all (onRight jc))) in
  let '(self, oidx, ocol) :=
    if l =? ji then (bareColOf (onLeft jc), Some r, bareColOf (onRight jc))
    else if r =? ji then (bareColOf (onRight jc), Some l, bareColOf (onLeft jc))
    else ([], None, []) in
  mkInfo (jc_table jc) rowCount (required ji l r) self oidx ocol.

Section engine.
Context {tree : Type} {RI : RowIndex tree}.
Context {DB : Double}.
Context (dcount : nat -> dbl) (dceil : dbl -> dbl) (tenth huge : dbl).
Context (g_costConsts : CostConstants) (getStats : bytes -> option TableStats).
Context (tables_ : gmap bytes (Table tree)).

Abbreviation plan := (plan dcount dceil tenth huge g_costConsts getStats).

Definition row_count (n : bytes) : nat := length (from_option rows_ [] (tables_ !! n)).

Definition join_tables (baseName : bytes) (joins : list PlannedJoin) : list JoinTableInfo :=
  let names := baseName :: map (fun p => jc_table (clause p)) joins in
  mkInfo baseName (row_count baseName) [] [] None [] ::
  imap (fun i p => join_info names (map tableAlias joins) (S i) (row_count (jc_table (clause p))) (clause p)) joins.

(** The names of the tables in order, each with a comma. *)
Definition cache_key (tables : list JoinTableInfo) : bytes :=
  mjoin (map (fun n => n ++ str ",") (merge_sort bytes_le (map ti_name tables))).

Definition reorder {A} (joins : list A) (p : JoinPlan) : list A :=
  if dpUsed p && (length (joinOrder p) =? length joins) then omap (fun i => joins !! i) (joinOrder p) else joins.

(** The joins in the order in which they are executed. *)
Definition planned_joins (baseName : bytes) (joins : list PlannedJoin) (planCache_ : gmap bytes JoinPlan)
  : list JoinClause * gmap bytes JoinPlan :=
  if 2 <=? length joins then
    let infos := join_tables baseName joins in
    let '(p, planCache_) := plan infos (cache_key infos) planCache_ in
    (map clause (reorder joins p), planCache_)
  else (map clause joins, planCache_).

(** A prefix of an ON side that resolves to a table is replaced by it. *)
Definition resolve_side (resolve : bytes -> bytes) (s : bytes) : bytes :=
  match split_name s with
  | (Some p, c) => if negb (bytes_eqb (resolve p) p) && bool_decide (is_Some (tables_ !! resolve p)) then qual (resolve p) c else s
  | (None, _) => s
  end.

Definition resolve_join (resolve : bytes -> bytes) (p : PlannedJoin) : PlannedJoin :=
  let jc := clause p in
  mkPlanned (mkJoin (joinType jc) (resolve (jc_table jc)) (resolve_side resolve (onLeft jc)) (resolve_side resolve (onRight jc)))
    (tableAlias p).

(** [executeJoins] without the WHERE clause. *)
Definition execute_planned (resolve : bytes -> bytes) (advisor : Advisor) (sort : list bytes -> list nat)
    (baseNameRaw : bytes) (joinsRaw : list PlannedJoin) (planCache_ : gmap bytes JoinPlan) : result (Table tree) * gmap bytes JoinPlan :=
  let baseName := resolve baseNameRaw in
  let joins := map (resolve_join resolve) joinsRaw in
  match tables_ !! baseName with
  | Some _ =>
      let '(joins, planCache_) := planned_joins baseName joins planCache_ in
      (executeJoins tables_ advisor sort baseName joins, planCache_)
  | None => (executeJoins tables_ advisor sort baseName (map clause joins), planCache_)
  end.

(** *** The optimizer in front: the smaller of the first two tables comes first *)

Definition optimizeJoinOrder (estimateRowCount : bytes -> nat) (baseName : bytes) (joins : list PlannedJoin)
  : bytes * list PlannedJoin :=
  match joins with
  | p :: ps =>
      let jc := clause p in
      if bool_decide (joinType jc = INNER) && (estimateRowCount (jc_table jc) <? estimateRowCount baseName)
      then (jc_table jc, mkPlanned (mkJoin INNER baseName (onRight jc) (onLeft jc)) (tableAlias p) :: ps)
      else (baseName, joins)
  | [] => (baseName, joins)
  end.

(** [estimateRowCount]: from the statistics, from the table, or 1000. *)
Definition estimateRowCount (resolve : bytes -> bytes) (n : bytes) : nat :=
  match getStats (resolve n) with
  | Some ts => if 0 <? ts_rowCount ts then ts_rowCount ts else from_option (fun t => length (rows_ t)) 1000 (tables_ !! resolve n)
  | None => from_option (fun t => length (rows_ t)) 1000 (tables_ !! resolve n)
  end.
End engine.

(** *** Aliases ([dispatch_resolveJoinAliases]) *)

(** The first dot ends the alias; a later definition of an alias wins. *)
Definition alias_map (baseAlias baseName : bytes) (joins : list PlannedJoin) : gmap bytes bytes :=
  fold_left (fun m p => if bytes_eqb (tableAlias p) [] then m else <[tableAlias p := jc_table (clause p)]> m) joins
    (if bytes_eqb baseAlias [] then ∅ else {[baseAlias := baseName]}).

Definition resolve_alias (m : gmap bytes bytes) (s : bytes) : bytes :=
  match find_char DOT s with
  | Some p => match m !! take p s with Some t => t ++ drop p s | None => s end
  | None => s
  end.

Definition resolveJoinAliases (baseAlias baseName : bytes) (joins : list PlannedJoin) : list PlannedJoin :=
  let m := alias_map baseAlias baseName joins in
  map (fun p => let jc := clause p in
         mkPlanned (mkJoin (joinType jc) (jc_table jc) (resolve_alias m (onLeft jc)) (resolve_alias m (onRight jc))) (tableAlias p)) joins.

(** ** Planned chains give the same rows *)

Lemma prefix_or_all_qual t c : plain_name c -> prefix_or_all (qual t c) = t.
Proof. intros H. unfold prefix_or_all. by rewrite split_qual. Qed.

(** No table can be taken for another one. *)
Definition names_apart (names : list bytes) : Prop :=
  ~ ([] ∈ names) /\ forall i j a b, names !! i = Some a -> names !! j = Some b -> tblNamesMatch a b = true -> i = j.

Lemma tblNamesMatch_refl a : tblNamesMatch a a = true.
Proof. unfold tblNamesMatch, bytes_eqb. by rewrite bool_decide_eq_true_2. Qed.

Lemma findIdx_name names aliases i a : names_apart names -> names !! i = Some a -> findIdx names aliases a = Some i.
Proof.
  intros [He Ha] Hi. unfold findIdx. assert (bytes_eqb a [] = false) as ->.
  { unfold bytes_eqb. apply bool_decide_eq_false_2. intros ->. by eapply He, list_elem_of_lookup_2. }
  assert (list_find (fun n => tblNamesMatch a n = true) names = Some (i, a)) as ->; [|done].
  apply list_find_Some. split_and!; [done|apply tblNamesMatch_refl|]. intros j y Hj Hlt Hm.
  rewrite (Ha i j a y Hi Hj Hm) in Hlt. lia.
Qed.

Lemma required_one ji k : k <> ji -> required ji ji k = [k] /\ required ji k ji = [k].
Proof.
  intros Hk. unfold required. split; destruct (Nat.ltb_spec ji k), (Nat.ltb_spec k ji); try lia; cbn [List.filter];
    rewrite ?Nat.eqb_refl, ?(proj2 (Nat.eqb_neq k ji) Hk); done.
Qed.

Lemma omap_seq {A} (l : list A) : omap (fun i => l !! i) (seq 0 (length l)) = l.
Proof.
  induction l as [|x l IH] using rev_ind; [done|]. rewrite length_app, seq_app, omap_app. cbn [length seq omap list_omap Nat.add].
  rewrite lookup_app_r, Nat.sub_diag by lia. cbn. f_equal. rewrite <- IH at 2. apply list_omap_ext. clear IH.
  apply Forall2_same_length_lookup. split; [done|]. intros i a b Ha Hb. rewrite Ha in Hb. injection Hb as <-.
  apply lookup_seq in Ha as [-> Hlt]. by rewrite lookup_app_l.
Qed.

Lemma omap_perm {A B} (f : A -> option B) l l' : l ≡ₚ l' -> omap f l ≡ₚ omap f l'.
Proof. intros H. by rewrite H. Qed.

Lemma map_omap_lookup {A B} (f : A -> B) (l : list A) o : map f (omap (fun i => l !! i) o) = omap (fun i => map f l !! i) o.
Proof.
  induction o as [|i o IH]; [done|]. cbn. rewrite list_lookup_fmap. destruct (l !! i); cbn; by rewrite IH.
Qed.

(** In a chain whose tables come behind the ones they refer to, every other table
    is found in front. *)
Lemma placed_lookup joins seen i jc :
  placed seen joins -> joins !! i = Some jc -> other jc ∈ seen ++ map jc_table (take i joins).
Proof.
  revert seen i. induction joins as [|j joins IH]; intros seen i; [done|]. intros [Ho Hp] Hi. destruct i as [|i].
  - injection Hi as ->. cbn. by rewrite app_nil_r.
  - cbn. specialize (IH _ i Hp Hi). rewrite elem_of_app, elem_of_cons in *. tauto.
Qed.

Section reordered.
Context {tree : Type} {RI : RowIndex tree} {RIS : RowIndexSpec tree}.
Context {DB : Double} {DO : DoubleOrder DB} {DS : DoubleSum DB}.
Context (dcount : nat -> dbl) (dceil : dbl -> dbl) (tenth huge : dbl).
Context (g_costConsts : CostConstants) (getStats : bytes -> option TableStats).
Context (tables_ : gmap bytes (Table tree)).
Hypothesis tables_good : map_Forall (fun _ t => good t) tables_.

Abbreviation planned_joins := (planned_joins dcount dceil tenth huge g_costConsts getStats tables_).
Abbreviation join_tables := (join_tables tables_).
Abbreviation tables_of base joins := (base :: map (fun p => jc_table (clause p)) joins).

Lemma join_info_spec names aliases ji rc jc k :
  names_apart names -> edge tables_ jc -> names !! ji = Some (jc_table jc) -> names !! k = Some (other jc) -> k <> ji ->
  requiredTables (join_info names aliases ji rc jc) = [k].
Proof.
  intros Ha (_ & _ & _ & c & oc & Hc & Hoc & Hon) Hji Hk Hne. unfold join_info.
  pose proof (columns_of_plain tables_ tables_good _ _ Hc) as Hpc. pose proof (columns_of_plain tables_ tables_good _ _ Hoc) as Hpo.
  destruct (required_one ji k Hne) as [R1 R2].
  assert ((onLeft jc, onRight jc) = (qual (other jc) oc, qual (jc_table jc) c) \/
          (onLeft jc, onRight jc) = (qual (jc_table jc) c, qual (other jc) oc)) as [[= -> ->]|[= -> ->]].
  { unfold on_sides in Hon. destruct (tblNamesMatch _ _); injection Hon as -> ->; auto. }
  all: rewrite !prefix_or_all_qual, (findIdx_name _ _ _ _ Ha Hji), (findIdx_name _ _ _ _ Ha Hk) by done; cbn [default from_option id]; cbv zeta.
  - rewrite (proj2 (Nat.eqb_neq k ji) Hne), Nat.eqb_refl. exact R2.
  - rewrite Nat.eqb_refl. exact R1.
Qed.

(** The planner sees, per join, exactly the table it refers to. *)
Lemma join_tables_spec base joins i p :
  let names := tables_of base joins in
  names_apart names -> Forall (edge tables_) (map clause joins) -> placed [base] (map clause joins) -> joins !! i = Some p ->
  exists k, requiredTables (info (join_tables base joins) (S i)) = [k] /\ k < S i /\ names !! k = Some (other (clause p)).
Proof.
  intros names Ha He Hp Hi.
  assert (names !! S i = Some (jc_table (clause p))) as Hn.
  { change (names !! S i) with (map (fun p => jc_table (clause p)) joins !! i). by rewrite list_lookup_fmap, Hi. }
  assert (other (clause p) ∈ [base] ++ map jc_table (take i (map clause joins))) as Ho.
  { apply (placed_lookup _ _ i); [done|]. by rewrite list_lookup_fmap, Hi. }
  apply list_elem_of_lookup in Ho as [k Hk].
  assert (k < S i) as Hlt.
  { apply lookup_lt_Some in Hk. rewrite length_app, length_map, length_take in Hk. cbn in Hk. lia. }
  assert (names !! k = Some (other (clause p))) as Hkn.
  { unfold names. change (tables_of base joins) with ([base] ++ map (fun p => jc_table (clause p)) joins).
    rewrite <- Hk. destruct k as [|k]; [done|].
    change (([base] ++ ?l) !! S k) with (l !! k). rewrite <- (map_map clause jc_table), <- firstn_map, lookup_take_lt by lia. done. }
  exists k. split; [|done]. unfold info, JoinOrder.join_tables. change ((_ :: ?l) !! S i) with (l !! i). rewrite list_lookup_imap, Hi.
  cbn [fmap option_fmap option_map default from_option]. apply join_info_spec; try done; [|lia].
  rewrite Forall_forall in He. apply He. apply list_elem_of_fmap. exists p. split; [done|]. by eapply list_elem_of_lookup_2.
Qed.

Lemma length_join_tables base joins : length (join_tables base joins) = S (length joins).
Proof. unfold JoinOrder.join_tables. cbn. by rewrite length_imap. Qed.

(** Where the planner may join a table, its ON clause can be resolved. *)
Lemma joinable_placed base joins js mask seen :
  let names := tables_of base joins in
  names_apart names -> Forall (edge tables_) (map clause joins) -> placed [base] (map clause joins) ->
  joinable (join_tables base joins) mask js = true ->
  (forall k a, has_bit mask k = true -> names !! k = Some a -> a ∈ seen) ->
  placed seen (map clause (omap (fun i => joins !! i) (map pred js))).
Proof.
  intros names Ha He Hp. revert mask seen. induction js as [|j js IH]; intros mask seen; [done|]. cbn [joinable].
  rewrite !andb_true_iff, negb_true_iff, !Nat.ltb_lt, length_join_tables. intros ((((Hj0 & Hjn) & Hb) & Hc) & Hjs) Hseen.
  destruct j as [|i]; [lia|]. destruct (lookup_lt_is_Some_2 joins i) as [p Hi]; [lia|].
  cbn [map pred omap list_omap]. rewrite Hi. cbn [map placed].
  destruct (join_tables_spec base joins i p Ha He Hp Hi) as (k & Ek & _ & Hk). split.
  - apply (Hseen k); [|done]. unfold connected in Hc. rewrite Ek in Hc. cbn in Hc. by rewrite andb_true_r in Hc.
  - apply (IH _ _ Hjs). intros k' a Hk' Ha'. rewrite has_bit_lor, orb_true_iff, Nat.eqb_eq in Hk'. destruct Hk' as [Hk'|<-].
    + apply elem_of_cons; right; by apply (Hseen k').
    + change (names !! S i) with (map (fun p => jc_table (clause p)) joins !! i) in Ha'.
      rewrite list_lookup_fmap, Hi in Ha'. cbn in Ha'. injection Ha' as <-. apply elem_of_cons. by left.
Qed.

(** The planned chain has the same joins, each behind the table it refers to. *)
Lemma planned_joins_placed base joins cache :
  names_apart (tables_of base joins) -> Forall (edge tables_) (map clause joins) -> placed [base] (map clause joins) ->
  cache !! cache_key (join_tables base joins) = None ->
  map clause joins ≡ₚ (planned_joins base joins cache).1 /\ placed [base] (planned_joins base joins cache).1.
Proof.
  intros Ha He Hp Hc. unfold JoinOrder.planned_joins. destruct (Nat.leb_spec 2 (length joins)) as [Hl|]; [|done].
  set (infos := join_tables base joins) in *. pose proof (length_join_tables base joins) as Hlen. fold infos in Hlen.
  assert (refers_back infos) as Hback.
  { intros j Hj. destruct j as [|i]; [lia|]. destruct (lookup_lt_is_Some_2 joins i) as [p Hi]; [lia|].
    destruct (join_tables_spec base joins i p Ha He Hp Hi) as (k & Ek & Hk & _). eauto. }
  assert (forall js, joinable infos 1 js = true -> length js = length infos - 1 ->
    map clause joins ≡ₚ map clause (omap (fun i => joins !! i) (map pred js)) /\
    placed [base] (map clause (omap (fun i => joins !! i) (map pred js)))) as Hgood.
  { intros js Hj Hjl. split.
    - rewrite <- (omap_seq joins) at 1. apply Permutation_map, omap_perm. symmetry. rewrite (full_order infos js Hj Hjl). by rewrite Hlen, Nat.sub_1_r.
    - apply (joinable_placed base joins js 1%N [base] Ha He Hp Hj). intros k a Hk Hn.
      change 1%N with (mask_of []) in Hk. rewrite has_bit_mask_of, orb_true_iff, Nat.eqb_eq, bool_decide_eq_true in Hk.
      destruct Hk as [->|Hk]; [|set_solver]. injection Hn as <-. by left. }
  assert (3 <= length infos) as H3 by lia.
  pose proof (plan_joinable dcount dceil tenth huge g_costConsts getStats infos (cache_key infos) cache Hback H3 Hc) as Hp'.
  destruct (plan _ _ _ _ _ _ infos _ cache) as [p cache'] eqn:Epl. cbn [fst] in *.
  unfold reorder. destruct (dpUsed p) eqn:Eu; cbn [andb]; [|done]. destruct (Hp' eq_refl) as (js & Hj & Hjl & Ho). rewrite Ho, length_map, Hjl, Hlen.
  cbn [Nat.sub]. rewrite Nat.sub_0_r, Nat.eqb_refl. by apply Hgood.
Qed.
(** A chain gives the combinations of rows that satisfy all its ON clauses. *)
Lemma executeJoins_maps advisor sort base joins :
  sorts sort -> advisor_ok tables_ advisor -> inner_chain tables_ base joins -> placed [base] joins ->
  exists t, executeJoins tables_ advisor sort base joins = Ok t /\ JoinMeaning.joined tables_ (rev (map jc_table joins) ++ [base]) t /\
    maps t ≡ₚ chain_meaning tables_ base joins.
Proof.
  intros Hs Ha Hc Hp. destruct (nested_joins_maps tables_ tables_good base joins Hc Hp) as (t0 & E0 & (_ & N0 & K0) & M0).
  unfold nested_joins in E0. unfold executeJoins. pose proof (join_base_ok tables_ base tables_good) as Hb.
  destruct (join_base tables_ base) as [cur|e]; cbn [mbind result_bind] in *; [|done].
  pose proof (join_loop_nested tables_ advisor sort joins cur cur Hs tables_good Ha (reflexivity _) Hb) as H. rewrite E0 in H.
  destruct (join_loop _ _ _ joins cur) as [t|]; [|done]. destruct H as [[Ec Er] Hi]. exists t. split; [done|].
  split; [by split; [|rewrite Ec]|]. rewrite <- M0. unfold maps. rewrite Ec. by apply Permutation_map.
Qed.
(** The planned chain is executed without error, and its rows are the combinations
    of the chain as it is written. *)
Lemma execute_planned_maps (resolve : bytes -> bytes) advisor sort baseRaw joinsRaw planCache_ :
  let base := resolve baseRaw in
  let joins := map (resolve_join tables_ resolve) joinsRaw in
  sorts sort -> advisor_ok tables_ advisor -> inner_chain tables_ base (map clause joins) -> placed [base] (map clause joins) ->
  names_apart (tables_of base joins) -> planCache_ !! cache_key (join_tables base joins) = None ->
  exists t seen,
    (execute_planned dcount dceil tenth huge g_costConsts getStats tables_ resolve advisor sort baseRaw joinsRaw planCache_).1 = Ok t /\
    JoinMeaning.joined tables_ seen t /\ seen ≡ₚ base :: map jc_table (map clause joins) /\
    maps t ≡ₚ chain_meaning tables_ base (map clause joins).
Proof.
  intros base joins Hs Ha Hc Hp Hn Hk. pose proof Hc as (Hb & He & Hd).
  destruct (planned_joins_placed base joins planCache_ Hn He Hp Hk) as [P1 P2].
  unfold execute_planned. fold base joins. cbv zeta. destruct Hb as [bt Eb]. fold base. rewrite Eb.
  destruct (planned_joins base joins planCache_) as [js cache']. cbn [fst] in *.
  destruct (executeJoins_maps advisor sort base js Hs Ha) as (t & Et & Jt & Mt); [|done|].
  { split_and!; [by rewrite Eb|by rewrite <- P1|]. by rewrite <- P1. }
  exists t, (rev (map jc_table js) ++ [base]). split_and!; [done|done| |].
  - rewrite <- Permutation_cons_append, <- Permutation_rev. by rewrite <- P1.
  - rewrite Mt. symmetry. apply chain_meaning_perm; [done..|]. by apply NoDup_cons in Hd as [_ ?].
Qed.

(** The smaller of the first two tables first: the same rows, if no row of these two
    is dead (the base table is read without dead rows, the others with them). *)
Lemma optimizeJoinOrder_meaning estimate base joins :
  Forall (fun n => Forall (fun r => alive r = true) (from_option rows_ [] (tables_ !! n))) (base :: map jc_table (take 1 (map clause joins))) ->
  base ∉ map jc_table (take 1 (map clause joins)) ->
  let '(base', joins') := optimizeJoinOrder estimate base joins in
  chain_meaning tables_ base (map clause joins) ≡ₚ chain_meaning tables_ base' (map clause joins').
Proof.
  destruct joins as [|p ps]; [intros; apply Permutation_refl|]. cbn [optimizeJoinOrder map take]. intros Hl Hne. destruct (_ && _) eqn:E; [|apply Permutation_refl].
  apply andb_true_iff in E as [Ei _]. rewrite bool_decide_eq_true in Ei. set (t := jc_table (clause p)) in *.
  assert (forall n, n ∈ [base; t] -> base_maps tables_ n = table_maps tables_ n) as Hb.
  { intros n Hn. rewrite Forall_forall in Hl. specialize (Hl n Hn). unfold base_maps, table_maps. f_equal.
    revert Hl. generalize (from_option rows_ [] (tables_ !! n)). intros rows Hr.
    induction Hr as [|r rows Hr _ IH]; [done|]. cbn. rewrite Hr. by rewrite IH. }
  unfold chain_meaning. cbn [map clause jc_table product fold_left]. rewrite !Hb by set_solver. fold t.
  assert (forall xs, times [∅] xs = xs) as H1.
  { intros xs. rewrite times_cons. cbn. rewrite app_nil_r. rewrite <- (map_id xs) at 2. apply map_ext. intros x. apply map_empty_union. }
  assert (times (table_maps tables_ base) (table_maps tables_ t) ≡ₚ times (table_maps tables_ t) (table_maps tables_ base)) as Hc.
  { rewrite <- (H1 (table_maps tables_ base)) at 1. rewrite <- (H1 (table_maps tables_ t)) at 2. apply times_comm.
    apply apart_tables; [done|]. intros ->. apply Hne. by apply elem_of_cons; left. }
  assert (forall m, all_hold (clause p :: map clause ps) m = all_hold (mkJoin INNER base (onRight (clause p)) (onLeft (clause p)) :: map clause ps) m) as Hh.
  { intros m. unfold all_hold. cbn [forallb]. f_equal. unfold on_holds. cbn [onLeft onRight]. by apply bool_decide_ext. }
  rewrite (filter_ext _ _ Hh). apply Joins.filter_perm. exact (product_perm_l _ _ Hc _ _ eq_refl).
Qed.
End reordered.

Section same.
Context {tree : Type} {RI : RowIndex tree} {RIS : RowIndexSpec tree}.
Context {DB : Double} {DO : DoubleOrder DB} {DS : DoubleSum DB}.

(** [C22] Reordering a chain of INNER joins does not change its answer, when it is
    planned afresh: over tables that operations can build, for every cost model
    and all statistics, every sorting routine and every advisor that does not use
    an index on a table with dead rows, a chain in which each ON clause compares a
    column of the new table with one of an earlier table, and no table name can be
    taken for another, is executed without error in the order the planner chooses,
    and gives, as columns with their values, the rows of the chain as it is
    written: the combinations of a row of each table that satisfy all ON clauses.
    No plan may be remembered for these tables: a remembered order is put to the
    chain as it is written, which may throw ([cached_plan_misplaced]). *)
Theorem planned_joins_same (dcount : nat -> dbl) (dceil : dbl -> dbl) (tenth huge : dbl) (g_costConsts : CostConstants)
    (getStats : bytes -> option TableStats) (tables_ : gmap bytes (Table tree))
    (resolve : bytes -> bytes) advisor sort baseRaw joinsRaw planCache_ :
  let base := resolve baseRaw in
  let joins := map (resolve_join tables_ resolve) joinsRaw in
  map_Forall (fun _ t => reachable t) tables_ -> sorts sort -> advisor_ok tables_ advisor ->
  inner_chain tables_ base (map clause joins) -> placed [base] (map clause joins) ->
  names_apart (base :: map (fun p => jc_table (clause p)) joins) ->
  planCache_ !! cache_key (join_tables tables_ base joins) = None ->
  exists t t0,
    (execute_planned dcount dceil tenth huge g_costConsts getStats tables_ resolve advisor sort baseRaw joinsRaw planCache_).1 = Ok t /\
    executeJoins tables_ advisor sort base (map clause joins) = Ok t0 /\
    maps t ≡ₚ maps t0 /\ maps t ≡ₚ chain_meaning tables_ base (map clause joins).
Proof.
  intros base joins Hr Hs Ha Hc Hp Hn Hk.
  assert (map_Forall (fun _ t => good t) tables_) as Hg by (intros n t Ht; by apply reachable_good, (Hr n)).
  destruct (execute_planned_maps dcount dceil tenth huge g_costConsts getStats tables_ Hg resolve advisor sort baseRaw joinsRaw planCache_)
    as (t & _ & Et & _ & _ & Mt); try done.
  destruct (executeJoins_maps tables_ Hg advisor sort base (map clause joins) Hs Ha Hc Hp) as (t0 & E0 & _ & M0).
  exists t, t0. split_and!; [done|done| |done]. by rewrite Mt, M0.
Qed.

(** [C40] With dynamic programming the planner is complete and optimal: for up to eight
    tables, if the joins can be executed in some order in which every ON clause
    can be resolved, then it returns such an order of all of them, with the
    estimated cost of that order; and if estimated sizes do not depend on the
    order of joins, no such order has a lower estimate. *)
Theorem planDp_optimal (dcount : nat -> dbl) (dceil : dbl -> dbl) (tenth : dbl) (g_costConsts : CostConstants)
    (getStats : bytes -> option TableStats) tables js :
  2 <= length tables <= MAX_DP_TABLES -> joinable tables 1 js = true -> length js = length tables - 1 ->
  let p := planDp dcount dceil tenth g_costConsts getStats tables in
  let cost_of js := cost (run dcount dceil tenth g_costConsts getStats tables js) in
  dpUsed p = true /\ joinOrder p ≡ₚ seq 0 (length tables - 1) /\
  exists best, joinable tables 1 best = true /\ joinOrder p = map pred best /\ estimatedCost p = cost_of best /\
    (well_estimated dcount dceil tenth g_costConsts getStats tables -> dlt (cost_of js) (estimatedCost p) = false).
Proof.
  intros Hl Hj Hjl. cbv zeta. unfold MAX_DP_TABLES in Hl. assert (0 < length tables <= 31) as Hf by lia.
  pose proof (planDp_spec dcount dceil tenth g_costConsts getStats tables Hf) as H. cbv zeta in H.
  destruct (dpUsed _); [|by destruct H as [_ H]; destruct (H js Hj)].
  destruct H as (best & Hb & Hbl & Ho & Ec & Hmin). split; [done|]. split; [rewrite Ho; by apply full_order|].
  exists best. split_and!; try done. intros W. by apply Hmin.
Qed.
End same.

#[export] Instance IntDouble_sum : DoubleSum IntDouble.
Proof.
  split; unfold dlt, dadd, disnan, IntDouble.
  - intros [x|] [y|] [z|]; try done. cbn. rewrite !Z.ltb_ge. lia.
  - intros [x|] [y|] [z|]; try done. cbn. rewrite !Z.ltb_ge. lia.
  - by intros [x|] [y|].
Qed.

(** ** Witnesses and findings *)

#[local] Existing Instance IntDouble.

Definition ex_double (n : nat) : dbl := Some (Z.of_nat n).
Definition ex_huge : dbl := Some 1000000000%Z.
Definition ex_ceil (x : dbl) : dbl := x.
Definition ex_costs : CostConstants :=
  mkConstants (ex_double 10) (ex_double 40) (ex_double 2) (ex_double 1) (ex_double 1) (Some 8192%Z).

(** Statistics: [a] and [b] are big, [c] is small. *)
Definition ex_stats : gmap bytes TableStats :=
  {[str "a" := mkStats 100 [(str "city", mkColStats 10 (ex_double 8))];
    str "b" := mkStats 500 [(str "city", mkColStats 10 (ex_double 8))];
    str "c" := mkStats 10 [(str "city", mkColStats 10 (ex_double 8))]]}.
Definition ex_getStats (n : bytes) : option TableStats := ex_stats !! n.

Definition ex_tables : gmap bytes (Table BTree) := {[str "a" := ex_table; str "b" := ex_table; str "c" := ex_table]}.

Definition ex_join (kind : JoinType) (n : string) (l r : string) : PlannedJoin := mkPlanned (mkJoin kind (str n) (str l) (str r)) [].

(** [FROM a JOIN b ON b.city = a.city JOIN c ON a.city = c.city] *)
Definition ex_chain : list PlannedJoin :=
  [ex_join INNER "b" "b.city" "a.city"; ex_join INNER "c" "a.city" "c.city"].
Definition ex_infos : list JoinTableInfo := join_tables ex_tables (str "a") ex_chain.

(** The small table comes first. *)
Example plan_small_first :
  (planned_joins ex_double ex_ceil (ex_double 0) ex_huge ex_costs ex_getStats ex_tables (str "a") ex_chain ∅).1 =
    map clause (rev ex_chain).
Proof. vm_compute. reflexivity. Qed.

Lemma ex_good_tables : map_Forall (fun _ t => reachable t) ex_tables.
Proof.
  intros n t Ht. unfold ex_tables in Ht. rewrite !lookup_insert_Some, lookup_singleton_Some in Ht.
  destruct Ht as [[_ <-]|[_ [[_ <-]|[_ [_ <-]]]]]; apply ex_table_reachable.
Qed.

Lemma ex_edge n l r c oc :
  is_Some (ex_tables !! str n) -> is_Some (ex_tables !! other (clause (ex_join INNER n l r))) ->
  c ∈ names (columns_of ex_tables (str n)) -> oc ∈ names (columns_of ex_tables (other (clause (ex_join INNER n l r)))) ->
  on_sides (clause (ex_join INNER n l r)) = (qual (other (clause (ex_join INNER n l r))) oc, qual (str n) c) ->
  edge ex_tables (clause (ex_join INNER n l r)).
Proof. intros. split_and!; try done. exists c, oc. done. Qed.

Lemma planned_joins_same_witness :
  exists t t0,
    (execute_planned ex_double ex_ceil (ex_double 0) ex_huge ex_costs ex_getStats ex_tables id ex_advisor Joins.std_sort
       (str "a") ex_chain ∅).1 = Ok t /\
    executeJoins ex_tables ex_advisor Joins.std_sort (str "a") (map clause ex_chain) = Ok t0 /\
    maps t ≡ₚ maps t0 /\ maps t ≡ₚ chain_meaning ex_tables (str "a") (map clause ex_chain).
Proof.
  apply (planned_joins_same ex_double ex_ceil (ex_double 0) ex_huge ex_costs ex_getStats ex_tables id ex_advisor Joins.std_sort (str "a") ex_chain ∅).
  - apply ex_good_tables.
  - apply std_sort_sorts.
  - intros n t col o r hasIdx Ht Ha. destruct hasIdx; [|discriminate Ha]. split; [reflexivity|].
    unfold ex_tables in Ht. rewrite !lookup_insert_Some, lookup_singleton_Some in Ht.
    destruct Ht as [[_ <-]|[_ [[_ <-]|[_ [_ <-]]]]]; by_decide.
  - split_and!; [vm_compute; eauto| |by_decide].
    repeat constructor; (eapply (ex_edge _ _ _ (str "city") (str "city")); [vm_compute; eauto|vm_compute; eauto|by_decide|by_decide|vm_compute; reflexivity]).
  - split; [by_decide|split; [by_decide|exact I]].
  - split; [by_decide|]. intros i j a b Hi Hj Hm.
    destruct i as [|[|[|i]]], j as [|[|[|j]]]; try reflexivity; try discriminate Hi; try discriminate Hj;
      injection Hi as <-; injection Hj as <-; vm_compute in Hm; discriminate Hm.
  - reflexivity.
Defined.

(** The orders in which the tables of the example can be joined. *)
Lemma ex_orders p : joinable ex_infos 1 p = true -> p ∈ [[]; [1]; [2]; [1; 2]; [2; 1]].
Proof.
  intros H. destruct (joinable_nodup ex_infos p H) as [Hn Hr]. change (length ex_infos) with 3 in Hr.
  assert (length p <= 2) as Hl.
  { change 2 with (length (seq 1 2)). apply submseteq_length, NoDup_submseteq; [done|]. intros j Hj.
    rewrite Forall_forall in Hr. apply elem_of_seq. specialize (Hr j Hj). lia. }
  destruct p as [|a [|b [|]]]; cbn in Hl; [by_decide| | |lia].
  - rewrite Forall_singleton in Hr. destruct a as [|[|[|a]]]; try lia; by_decide.
  - apply Forall_cons in Hr as [Ha Hr]. rewrite Forall_singleton in Hr.
    destruct a as [|[|[|a]]], b as [|[|[|b]]]; try lia; try (by_decide); by apply NoDup_cons in Hn as [[] _]; left.
Qed.

Abbreviation ex_run := (run ex_double ex_ceil (ex_double 0) ex_costs ex_getStats ex_infos).

Lemma ex_size : estRows (ex_run [1; 2]) = estRows (ex_run [2; 1]) /\ st_width (ex_run [1; 2]) = st_width (ex_run [2; 1]).
Proof. split; vm_compute; reflexivity. Qed.

Lemma ex_costs_known :
  Forall (fun x => disnan (total (step_hash ex_double ex_ceil (ex_double 0) ex_costs ex_getStats ex_infos (ex_run x.1) x.2)) = false /\
                   disnan (total (step_nested ex_double ex_ceil (ex_double 0) ex_costs ex_getStats ex_infos (ex_run x.1) x.2)) = false)
    [([], 1); ([], 2); ([1], 2); ([2], 1)].
Proof. repeat constructor; vm_compute; reflexivity. Qed.

(** What agrees on the two full orders agrees on permutations. *)
Lemma ex_orders_perm {A} (f : list nat -> A) p q :
  f [1; 2] = f [2; 1] -> p ∈ [[]; [1]; [2]; [1; 2]; [2; 1]] -> q ∈ [[]; [1]; [2]; [1; 2]; [2; 1]] -> p ≡ₚ q -> f p = f q.
Proof.
  intros E Hp Hq Hpq. rewrite !elem_of_cons, elem_of_nil in Hp, Hq. pose proof (Permutation_length Hpq) as Hl.
  destruct_or! Hp; subst p; destruct_or! Hq; subst q; try discriminate Hl; try congruence.
  all: apply Permutation_singleton_l in Hpq; discriminate Hpq.
Qed.

Lemma ex_pairs p j : p ++ [j] ∈ [[]; [1]; [2]; [1; 2]; [2; 1]] -> (p, j) ∈ [([], 1); ([], 2); ([1], 2); ([2], 1)].
Proof. rewrite !elem_of_cons, !elem_of_nil. destruct p as [|a [|b [|c p]]]; cbn; naive_solver. Qed.

Lemma ex_well_estimated : well_estimated ex_double ex_ceil (ex_double 0) ex_costs ex_getStats ex_infos.
Proof.
  split.
  - intros p q Hp Hq Hpq. apply ex_orders in Hp, Hq. destruct ex_size as [E1 E2].
    split; [exact (ex_orders_perm (fun p => estRows (ex_run p)) p q E1 Hp Hq Hpq)|exact (ex_orders_perm (fun p => st_width (ex_run p)) p q E2 Hp Hq Hpq)].
  - intros p j H. pose proof ex_costs_known as Hk. rewrite Forall_forall in Hk. apply (Hk (p, j)), ex_pairs, ex_orders, H.
Qed.

Lemma planDp_optimal_witness :
  let p := planDp ex_double ex_ceil (ex_double 0) ex_costs ex_getStats ex_infos in
  dpUsed p = true /\ joinOrder p = [1; 0] /\
  dlt (cost (run ex_double ex_ceil (ex_double 0) ex_costs ex_getStats ex_infos [1; 2])) (estimatedCost p) = false.
Proof.
  intros p. destruct (planDp_optimal ex_double ex_ceil (ex_double 0) ex_costs ex_getStats ex_infos [1; 2]) as (H & _ & best & _ & _ & _ & Hmin).
  - vm_compute. lia.
  - vm_compute. reflexivity.
  - reflexivity.
  - split; [exact H|]. split; [vm_compute; reflexivity|]. apply Hmin, ex_well_estimated.
Defined.

Abbreviation ex_execute := (execute_planned ex_double ex_ceil (ex_double 0) ex_huge ex_costs ex_getStats ex_tables id ex_advisor Joins.std_sort).
Abbreviation ex_written := (executeJoins ex_tables ex_advisor Joins.std_sort).

(** [FROM a RIGHT JOIN b ON b.city = a.id RIGHT JOIN c ON c.city = a.id] *)
Definition ex_outer : list PlannedJoin := [ex_join RIGHT "b" "b.city" "a.id"; ex_join RIGHT "c" "c.city" "a.id"].

(** Outer joins are reordered too, and then give other rows: the values of [c.id]
    are [1] and [2] as the chain is written and [NULL] as it is executed. *)
Lemma outer_joins_reordered :
  exists t t0, (ex_execute (str "a") ex_outer ∅).1 = Ok t /\ ex_written (str "a") (map clause ex_outer) = Ok t0 /\
    map (fun m => m !! str "c.id") (maps t) = [Some NULL; Some NULL] /\
    map (fun m => m !! str "c.id") (maps t0) = [Some (str "1"); Some (str "2")].
Proof. eexists _, _. split; [vm_compute; reflexivity|]. split; [vm_compute; reflexivity|]. split; vm_compute; reflexivity. Qed.

(** [FROM b JOIN a ON a.city = b.city JOIN c ON c.id = a.id] *)
Definition ex_permuted : list PlannedJoin := [ex_join INNER "a" "a.city" "b.city"; ex_join INNER "c" "c.id" "a.id"].

(** A plan is cached under the names of its tables, in order, but holds positions in
    the FROM list: used for the same tables in another order, it joins [c] before the
    table its ON clause refers to. *)
Lemma cached_plan_misplaced :
  let cache := (ex_execute (str "a") ex_chain ∅).2 in
  (ex_execute (str "b") ex_permuted cache).1 = Throw "JOIN ON: Spalte nicht im Ergebnis gefunden" /\
  exists t, (ex_execute (str "b") ex_permuted ∅).1 = Ok t /\ length (rows_ t) = 4.
Proof. split; [vm_compute; reflexivity|]. eexists. split; [vm_compute; reflexivity|]. vm_compute. reflexivity. Qed.

(** The order of the columns depends on statistics. *)
Lemma column_order_depends_on_statistics :
  exists t t0, (ex_execute (str "a") ex_chain ∅).1 = Ok t /\ ex_written (str "a") (map clause ex_chain) = Ok t0 /\
    names (columns_ t) <> names (columns_ t0).
Proof. eexists _, _. split; [vm_compute; reflexivity|]. split; [vm_compute; reflexivity|]. by_decide. Qed.

(** ANALYZE of a table forgets the plans of tables whose names contain its name. *)
Lemma invalidate_substring (p : JoinPlan) : invalidate (str "b") {[str "ab,c,d," := p]} = ∅.
Proof. vm_compute. reflexivity. Qed.
