(* ===== verification/Window.v ===== *)
(** * Window functions ([src/engine/engine.hpp], [applyWindowFunctions])

    The rows are divided into partitions by a column, every partition is sorted
    by another, and each row gets one more value.  The functions of rank are
    shown to count what SQL says they count, where the sort order and the
    equality of texts that delimits peers agree. *)

From S2P Require Import Prelude Index BTree Partition Table Joins Arith Where Select Columns Query.

Definition INT_MIN : Z := -2 ^ 31.
Definition INT_MAX : Z := 2 ^ 31 - 1.

Section window.
Context {DB : Double}.
Context (formatNum : dbl -> bytes) (dcount : nat -> dbl).
(** The table, its columns, and the names known so far: the columns again, and
    then the window values appended before. *)
Context (rows : list Row) (columns : list Column) (colNames : list bytes).

(** [getColValue] *)
Fixpoint named (n : bytes) (names vs : list bytes) : option bytes :=
  match names, vs with
  | m :: names', v :: vs' => if bytes_eqb m n then Some v else named n names' vs'
  | _, _ => None
  end.

Definition getColValue (row : Row) (colName : bytes) : bytes :=
  match first_match (fun c => bytes_eqb (c_name c) colName) columns (values row) with
  | Some v => v
  | None => default [] (named colName colNames (drop (length columns) (values row)))
  end.

Definition value_of (colName : bytes) (i : nat) : bytes := getColValue (row_at rows i) colName.

(** ** Partitions *)

Definition partition_key (item : SelectItem) (i : nat) : bytes :=
  if bytes_eqb (windowPartitionBy item) [] then [] else value_of (windowPartitionBy item) i.

Definition partitions (item : SelectItem) : list (list nat) :=
  let is_ := seq 0 (length rows) in map snd (group_rows (zip (map (partition_key item) is_) is_)).

Definition window_lt (item : SelectItem) (i j : nat) : bool :=
  cell_lt (windowOrderDesc item) (value_of (windowOrderBy item) i) (value_of (windowOrderBy item) j).

Definition sorted_partition (item : SelectItem) (idxList : list nat) : list nat :=
  if bytes_eqb (windowOrderBy item) [] then idxList else stable_sort (window_lt item) idxList.

(** ** Peers *)

Definition peer (item : SelectItem) (i j : nat) : bool :=
  negb (bytes_eqb (windowOrderBy item) []) &&
  bytes_eqb (value_of (windowOrderBy item) j) (value_of (windowOrderBy item) i).

(** The loop over [sorted] from peers to peers. *)
Fixpoint peer_runs (fuel : nat) (item : SelectItem) (sorted : list nat) : list (list nat) :=
  match fuel, sorted with
  | S f, i :: rest => (i :: take_while (peer item i) rest) :: peer_runs f item (drop_while (peer item i) rest)
  | _, _ => []
  end.

(** A value for each run, from the number of rows before it, the number of rows
    up to its end and the number of runs before it. *)
Fixpoint rank_runs (f : nat -> nat -> nat -> bytes) (before k : nat) (runs : list (list nat)) : list (nat * bytes) :=
  match runs with
  | [] => []
  | g :: gs => map (fun i => (i, f before (before + length g) k)) g ++ rank_runs f (before + length g) (S k) gs
  end.

Definition rank_value (wfunc : bytes) (n before upto k : nat) : option bytes :=
  if bytes_eqb wfunc (str "RANK") then Some (to_string (Z.of_nat (S before)))
  else if bytes_eqb wfunc (str "DENSE_RANK") then Some (to_string (Z.of_nat (S k)))
  else if bytes_eqb wfunc (str "PERCENT_RANK") then
    Some (formatNum (if n <=? 1 then dzero else ddiv (dcount before) (dcount (n - 1))))
  else if bytes_eqb wfunc (str "CUME_DIST") then Some (formatNum (ddiv (dcount upto) (dcount n)))
  else None.

Definition is_rank (wfunc : bytes) : bool :=
  existsb (bytes_eqb wfunc) [str "RANK"; str "DENSE_RANK"; str "PERCENT_RANK"; str "CUME_DIST"].

(** ** Positions and frames *)

Definition clamp (n fs : Z) : Z := let fs := Z.max 0 fs in if (n <=? fs)%Z then n - 1 else fs.

Definition at_position (item : SelectItem) (sorted : list nat) (k : Z) : bytes :=
  value_of (windowFuncArg item) (nth (Z.to_nat k) sorted 0).

Definition frame_start (item : SelectItem) (r : nat) : Z :=
  if (windowFrameStart item =? INT_MIN)%Z then 0 else Z.of_nat r + windowFrameStart item.
Definition frame_end (item : SelectItem) (n r : nat) : Z :=
  if (windowFrameEnd item =? INT_MAX)%Z then Z.of_nat n - 1 else Z.of_nat r + windowFrameEnd item.

(** NTILE *)
Definition tile (buckets : Z) (n r : nat) : Z := Z.of_nat r * Z.max 1 buckets / Z.of_nat n + 1.

(** The rows of the frame of the [r]-th row; [None] if the frame is empty. *)
Definition frame (item : SelectItem) (sorted : list nat) (r : nat) : option (list nat) :=
  let n := length sorted in
  let fs := Z.max 0 (frame_start item r) in
  let fe := frame_end item n r in
  let fe := (if Z.of_nat n <=? fe then Z.of_nat n - 1 else fe)%Z in
  if (fe <? fs)%Z then None else Some (take (Z.to_nat (fe - fs + 1)) (drop (Z.to_nat fs) sorted)).

Definition window_numbers (item : SelectItem) (is_ : list nat) : list dbl :=
  omap (fun i => stod (value_of (windowFuncArg item) i)) is_.

Definition framed_aggregate (item : SelectItem) (sorted : list nat) (r : nat) : bytes :=
  match frame item sorted r with
  | None => NULL
  | Some is_ =>
      if bytes_eqb (windowFunc item) COUNT then
        to_string (Z.of_nat (if bytes_eqb (windowFuncArg item) (str "*") then length is_
                             else length (window_numbers item is_)))
      else agg_numbers formatNum dcount (windowFunc item) (window_numbers item is_)
  end.

Definition whole_aggregate (item : SelectItem) (idxList : list nat) : bytes :=
  if bytes_eqb (windowFunc item) COUNT then to_string (Z.of_nat (length idxList))
  else agg_numbers formatNum dcount (windowFunc item) (window_numbers item idxList).

(** The value of the row in position [r] of its sorted partition. *)
Definition position_value (item : SelectItem) (sorted : list nat) (r : nat) : option bytes :=
  let n := length sorted in
  let wfunc := windowFunc item in
  let at_ := at_position item sorted in
  if bytes_eqb wfunc (str "ROW_NUMBER") then Some (to_string (Z.of_nat (S r)))
  else if bytes_eqb wfunc (str "NTILE") then Some (to_string (tile (windowNtileBuckets item) n r))
  else if bytes_eqb wfunc (str "LAG") || bytes_eqb wfunc (str "LEAD") then
    let off := windowLagLeadOffset item in
    let target := (if bytes_eqb wfunc (str "LAG") then Z.of_nat r - off else Z.of_nat r + off)%Z in
    Some (if ((0 <=? target) && (target <? Z.of_nat n))%Z then at_ target else stripQuotes (windowLagLeadDefault item))
  else if bytes_eqb wfunc (str "FIRST_VALUE") then
    Some (at_ (if hasWindowFrame item then clamp (Z.of_nat n) (frame_start item r) else 0%Z))
  else if bytes_eqb wfunc (str "LAST_VALUE") then
    Some (at_ (if hasWindowFrame item then clamp (Z.of_nat n) (frame_end item n r) else Z.of_nat r))
  else if hasWindowFrame item then Some (framed_aggregate item sorted r)
  else None.

(** The values a partition gets, with the numbers of their rows. *)
Definition partition_values (item : SelectItem) (idxList : list nat) : list (nat * bytes) :=
  let sorted := sorted_partition item idxList in
  let n := length sorted in
  if is_rank (windowFunc item) then
    rank_runs (fun before upto k => default [] (rank_value (windowFunc item) n before upto k)) 0 0
      (peer_runs n item sorted)
  else
    match mapM (position_value item sorted) (seq 0 n) with
    | Some vs => zip sorted vs
    | None => map (fun i => (i, whole_aggregate item idxList)) idxList
    end.

Definition window_values (item : SelectItem) : list bytes :=
  fold_left (fun w iv => <[iv.1 := iv.2]> w) (mjoin (map (partition_values item) (partitions item)))
    (replicate (length rows) []).
End window.

Definition window_name (item : SelectItem) : bytes :=
  if bytes_eqb (alias item) [] then windowFunc item else alias item.

Definition applyWindowFunctions {DB : Double} (formatNum : dbl -> bytes) (dcount : nat -> dbl) (columns : list Column)
  : list SelectItem -> list Row * list bytes -> list Row * list bytes :=
  fix go items s :=
    match items with
    | [] => s
    | item :: items' =>
        let '(rows, colNames) := s in
        go items' (zip_with push_value (window_values formatNum dcount rows columns colNames item) rows,
                   colNames ++ [window_name item])
    end.

(** ** One value for each row *)

Section spec.
Context {DB : Double} {DO : DoubleOrder DB}.
Context (formatNum : dbl -> bytes) (dcount : nat -> dbl).
Context (rows : list Row) (columns : list Column) (colNames : list bytes).

Abbreviation value_of := (value_of rows columns colNames).
Abbreviation window_lt := (window_lt rows columns colNames).
Abbreviation peer := (peer rows columns colNames).
Abbreviation peer_runs := (peer_runs rows columns colNames).
Abbreviation sorted_partition := (sorted_partition rows columns colNames).
Abbreviation partition_values := (partition_values formatNum dcount rows columns colNames).
Abbreviation partition_key := (partition_key rows columns colNames).
Abbreviation partitions := (partitions rows columns colNames).
Abbreviation window_values := (window_values formatNum dcount rows columns colNames).

Lemma sorted_partition_perm item l : sorted_partition item l ≡ₚ l.
Proof. unfold Window.sorted_partition. destruct (bytes_eqb _ _); [done|apply stable_sort_perm]. Qed.

(** The runs are the sorted list cut into pieces. *)
Lemma peer_runs_join fuel item l : length l <= fuel -> mjoin (peer_runs fuel item l) = l.
Proof.
  revert l. induction fuel as [|f IH]; intros [|i l] Hl; cbn [Window.peer_runs length] in *; try done; [lia|].
  rewrite mjoin_cons, IH by (pose proof (length_drop_while (peer item i) l); lia). cbn [app]. by rewrite take_drop_while.
Qed.

Lemma rank_runs_fst f before k runs : map fst (rank_runs f before k runs) = mjoin runs.
Proof.
  revert before k. induction runs as [|g gs IH]; intros before k; [done|].
  cbn [rank_runs]. rewrite map_app, IH, mjoin_cons, map_map. cbn [fst]. by rewrite map_id.
Qed.

Lemma partition_values_fst item l : map fst (partition_values item l) ≡ₚ l.
Proof.
  unfold Window.partition_values. set (s := sorted_partition item l).
  assert (s ≡ₚ l) as Hs by apply sorted_partition_perm. destruct (is_rank _).
  - by rewrite rank_runs_fst, peer_runs_join.
  - destruct (mapM _ (seq 0 (length s))) as [vs|] eqn:E.
    + apply mapM_Some_1, Forall2_length in E. rewrite length_seq in E. change (map fst (zip s vs)) with (fst <$> zip s vs). by rewrite fst_zip by lia.
    + rewrite map_map. cbn [fst]. by rewrite map_id.
Qed.

Lemma partitions_share item : mjoin (partitions item) ≡ₚ seq 0 (length rows).
Proof.
  unfold Window.partitions. set (is_ := seq 0 (length rows)). rewrite group_rows_spec, map_map. cbn [snd].
  rewrite members_partition.
  - change (map snd (zip (map (partition_key item) is_) is_)) with (snd <$> zip (map (partition_key item) is_) is_).
    rewrite snd_zip; [done|]. by rewrite length_map.
  - apply NoDup_firsts.
  - intros kv Hkv. apply elem_of_firsts_all. apply list_elem_of_fmap. by exists kv.
Qed.

Lemma all_values_fst item : map fst (mjoin (map (partition_values item) (partitions item))) ≡ₚ seq 0 (length rows).
Proof.
  transitivity (mjoin (partitions item)); [|apply partitions_share].
  induction (partitions item) as [|l ls IH]; [done|]. cbn [map].
  by rewrite !mjoin_cons, map_app, IH, partition_values_fst.
Qed.

(** Writing at distinct positions. *)
Lemma length_writes {A} (ivs : list (nat * A)) w : length (fold_left (fun w iv => <[iv.1 := iv.2]> w) ivs w) = length w.
Proof. revert w. induction ivs as [|iv ivs IH]; intros w; [done|]. cbn [fold_left]. by rewrite IH, length_insert. Qed.

Lemma lookup_writes {A} (ivs : list (nat * A)) w i v :
  NoDup (map fst ivs) -> (i, v) ∈ ivs -> i < length w ->
  fold_left (fun w iv => <[iv.1 := iv.2]> w) ivs w !! i = Some v.
Proof.
  intros Hn Hin. revert w. induction ivs as [|[j u] ivs IH]; intros w Hi; [by apply not_elem_of_nil in Hin|].
  cbn [map fst] in Hn. apply NoDup_cons in Hn as [Hj Hn]. cbn [fold_left fst snd].
  apply elem_of_cons in Hin as [[= -> ->]|Hin]; [|apply IH; [done..|by rewrite length_insert]].
  clear IH. rewrite <- (list_lookup_insert_eq w j u) by done. generalize (<[j := u]> w) as w'. clear Hi w.
  induction ivs as [|[k x] ivs IH]; intros w'; [done|]. cbn [map fst] in Hj, Hn. apply not_elem_of_cons in Hj as [Hk Hj].
  apply NoDup_cons in Hn as [_ Hn]. cbn [fold_left fst snd]. rewrite IH by done. by apply list_lookup_insert_ne.
Qed.

(** What a partition computes for a row is what the row gets. *)
Lemma window_values_lookup item l i v :
  l ∈ partitions item -> (i, v) ∈ partition_values item l -> window_values item !! i = Some v.
Proof.
  intros Hl Hv. pose proof (all_values_fst item) as Hp.
  assert ((i, v) ∈ mjoin (map (partition_values item) (partitions item))) as Hin.
  { apply list_elem_of_join. exists (partition_values item l). split; [done|]. apply list_elem_of_fmap. by exists l. }
  apply lookup_writes; [|done|].
  - rewrite Hp. apply NoDup_seq.
  - rewrite length_replicate. assert (i ∈ seq 0 (length rows)) as Hi; [|by apply elem_of_seq in Hi; lia].
    rewrite <- Hp. apply list_elem_of_fmap. by exists (i, v).
Qed.

(** *** Ranks count rows *)

(** The sort order on a partition is an order, and rows it does not tell apart
    have the same text. *)
Definition agreeing (item : SelectItem) (l : list nat) : Prop :=
  weak_order (window_lt item) l /\
  forall i j, i ∈ l -> j ∈ l -> window_lt item i j = false -> window_lt item j i = false ->
    value_of (windowOrderBy item) i = value_of (windowOrderBy item) j.

Definition rows_before (item : SelectItem) (l : list nat) (i : nat) : list nat :=
  List.filter (fun j => window_lt item j i) l.
Definition rows_upto (item : SelectItem) (l : list nat) (i : nat) : list nat :=
  List.filter (fun j => negb (window_lt item i j)) l.
Definition values_of (item : SelectItem) (l : list nat) : gset bytes :=
  list_to_set (map (value_of (windowOrderBy item)) l).

Lemma window_lt_same item i i' j :
  value_of (windowOrderBy item) i = value_of (windowOrderBy item) i' ->
  window_lt item i j = window_lt item i' j /\ window_lt item j i = window_lt item j i'.
Proof. intros H. unfold Window.window_lt. by rewrite H. Qed.

Lemma filter_const {A} (p : A -> bool) (b : bool) l :
  (forall x, x ∈ l -> p x = b) -> List.filter p l = if b then l else [].
Proof.
  induction l as [|x l IH]; intros H; [by destruct b|]. cbn [List.filter]. rewrite IH, H by set_solver. by destruct b.
Qed.

Lemma take_while_forall {A} (p : A -> bool) l x : x ∈ take_while p l -> p x = true.
Proof.
  induction l as [|y l IH]; cbn [take_while]; [by intros ?%not_elem_of_nil|]. destruct (p y) eqn:E; [|by intros ?%not_elem_of_nil].
  intros [->|Hx]%elem_of_cons; auto.
Qed.

(** The rows after the run of [i] come strictly after it. *)
Lemma after_run item i rest y :
  windowOrderBy item <> [] -> agreeing item (i :: rest) -> ordered (window_lt item) (i :: rest) ->
  y ∈ drop_while (peer item i) rest -> window_lt item i y = true.
Proof.
  intros Ho [Hw Ha] Hs Hy. pose proof (take_drop_while (peer item i) rest) as E.
  destruct (drop_while (peer item i) rest) as [|y0 tl] eqn:Ed; [by apply not_elem_of_nil in Hy|].
  assert (peer item i y0 = false) as Hp.
  { clear -Ed. induction rest as [|x rest IH]; [done|]. cbn [drop_while] in Ed. destruct (peer item i x) eqn:E; [by apply IH|congruence]. }
  assert (forall z, z ∈ y0 :: tl -> z ∈ i :: rest) as Hin by (intros z Hz; rewrite <- E; set_solver).
  apply StronglySorted_inv in Hs as [Hs Hi]. rewrite Forall_forall in Hi.
  assert (window_lt item i y0 = true) as H0.
  { apply not_false_iff_true. intros Hn. unfold Window.peer in Hp. apply andb_false_iff in Hp as [Hp|Hp].
    - apply negb_false_iff, bool_decide_eq_true in Hp. done.
    - apply bool_decide_eq_false in Hp. apply Hp. apply Ha; [apply Hin; set_solver|apply list_elem_of_here| |done].
      apply Hi. rewrite <- E. set_solver. }
  apply elem_of_cons in Hy as [->|Hy]; [done|].
  destruct (weak_total _ _ Hw i y y0) as [?|H]; [set_solver|apply Hin; set_solver|apply Hin; set_solver|done|done|].
  rewrite <- E in Hs. apply StronglySorted_app_1_r, StronglySorted_inv in Hs as [_ Hs]. rewrite Forall_forall in Hs.
  by rewrite Hs in H.
Qed.

Lemma values_of_app item l1 l2 : values_of item (l1 ++ l2) = values_of item l1 ∪ values_of item l2.
Proof. unfold values_of. by rewrite map_app, list_to_set_app_L. Qed.

Lemma values_of_run item i g :
  (forall j, j ∈ g -> value_of (windowOrderBy item) j = value_of (windowOrderBy item) i) ->
  values_of item (i :: g) = {[value_of (windowOrderBy item) i]}.
Proof.
  intros Hg. unfold values_of. apply set_eq. intros v. rewrite elem_of_list_to_set, elem_of_singleton, list_elem_of_fmap.
  split; [intros (j & -> & [->|Hj]%elem_of_cons); [done|by apply Hg]|]. intros ->. exists i. split; [done|apply list_elem_of_here].
Qed.

(** The counts for a row [j] of a run that starts with [i]. *)
Lemma run_counts item pre i g rest j :
  weak_order (window_lt item) (pre ++ (i :: g) ++ rest) ->
  (forall x y, x ∈ pre -> y ∈ (i :: g) ++ rest -> window_lt item x y = true) ->
  (forall y, y ∈ rest -> window_lt item i y = true) ->
  (forall k, k ∈ i :: g -> value_of (windowOrderBy item) k = value_of (windowOrderBy item) i) ->
  j ∈ i :: g ->
  rows_before item (pre ++ (i :: g) ++ rest) j = pre /\ rows_upto item (pre ++ (i :: g) ++ rest) j = pre ++ (i :: g).
Proof.
  intros Hw Hp Hr Hg Hj. set (run := i :: g) in *.
  assert (i ∈ run) as Hi by apply list_elem_of_here.
  assert (forall k, k ∈ run -> window_lt item k j = false /\ window_lt item j k = false) as H1.
  { intros k Hk. destruct (window_lt_same item k j j) as [-> _]; [by rewrite Hg, (Hg j)|].
    destruct (window_lt_same item k j j) as [_ ->]; [by rewrite Hg, (Hg j)|].
    rewrite (weak_irrefl _ _ Hw j); [done|set_solver]. }
  assert (forall k, k ∈ rest -> window_lt item j k = true) as H2
    by (intros k Hk; destruct (window_lt_same item j i k) as [-> _]; [by apply Hg|by apply Hr]).
  unfold rows_before, rows_upto. rewrite !List.filter_app. split.
  - rewrite (filter_const _ true pre), (filter_const _ false run), (filter_const _ false rest); [by rewrite !app_nil_r|..].
    + intros k Hk. eapply weak_asym; [exact Hw|set_solver..|by apply H2].
    + intros k Hk. by apply H1.
    + intros k Hk. apply Hp; set_solver.
  - rewrite (filter_const _ true pre), (filter_const _ true run), (filter_const _ false rest); [by rewrite !app_nil_r|..].
    + intros k Hk. by rewrite H2.
    + intros k Hk. by rewrite (proj2 (H1 k Hk)).
    + intros k Hk. rewrite (weak_asym _ _ k j Hw); [done|set_solver..|]. apply Hp; set_solver.
Qed.

Lemma rank_runs_counts f item fuel pre l i :
  windowOrderBy item <> [] -> agreeing item (pre ++ l) -> ordered (window_lt item) l ->
  (forall x y, x ∈ pre -> y ∈ l -> window_lt item x y = true) -> length l <= fuel -> i ∈ l ->
  (i, f (length (rows_before item (pre ++ l) i)) (length (rows_upto item (pre ++ l) i))
        (size (values_of item (rows_before item (pre ++ l) i)))) ∈
    rank_runs f (length pre) (size (values_of item pre)) (peer_runs fuel item l).
Proof.
  intros Ho. revert pre l. induction fuel as [|fuel IH]; intros pre [|h rest] Ha Hs Hp Hl Hi;
    try (by apply not_elem_of_nil in Hi); cbn [length] in Hl; [lia|].
  cbn [Window.peer_runs rank_runs]. set (g := take_while (peer item h) rest). set (rest' := drop_while (peer item h) rest).
  assert (h :: rest = (h :: g) ++ rest') as E by (unfold g, rest'; cbn [app]; by rewrite take_drop_while).
  assert (forall k, k ∈ h :: g -> value_of (windowOrderBy item) k = value_of (windowOrderBy item) h) as Hg.
  { intros k [->|Hk]%elem_of_cons; [done|]. apply take_while_forall, andb_true_iff in Hk as [_ Hk]. by apply bool_decide_eq_true in Hk. }
  assert (forall y, y ∈ rest' -> window_lt item h y = true) as Hr.
  { intros y. apply (after_run item h rest y); [done| |done]. destruct Ha as [Hw Ha]. split.
    - eapply weak_order_sub; [|exact Hw]. set_solver.
    - intros a b Ha' Hb. apply Ha; set_solver. }
  rewrite E in *. pose proof (run_counts item pre h g rest') as Hc. apply elem_of_app.
  apply elem_of_app in Hi as [Hi|Hi].
  - left. apply list_elem_of_fmap. exists i. split; [|done].
    destruct (Hc i (proj1 Ha) Hp Hr Hg Hi) as [-> ->]. by rewrite length_app.
  - right. rewrite <- length_app, app_assoc in *.
    assert (size (values_of item (pre ++ h :: g)) = S (size (values_of item pre))) as <-.
    { rewrite values_of_app, values_of_run by (intros j Hj; apply Hg; set_solver). rewrite size_union, size_singleton; [lia|].
      apply disjoint_singleton_r. unfold values_of. rewrite elem_of_list_to_set, list_elem_of_fmap. intros (x & Hx & Hin).
      assert (window_lt item x h = true) as H1 by (apply Hp; set_solver).
      destruct (window_lt_same item h x h Hx) as [H2 _]. rewrite <- H2 in H1.
      rewrite (weak_irrefl _ _ (proj1 Ha)) in H1; [done|set_solver]. }
    apply IH; [done| | | |done].
    + apply StronglySorted_app_1_r in Hs. exact Hs.
    + intros x y [Hx|Hx]%elem_of_app Hy; [apply Hp; set_solver|].
      destruct (window_lt_same item x h y) as [-> _]; [by apply Hg|by apply Hr].
    + assert (length (h :: rest) = length ((h :: g) ++ rest')) as El by by rewrite E.
      rewrite length_app in El. cbn [length] in El. lia.
Qed.

(** [C21] RANK is one more than the number of rows of the partition that come before a
    row, DENSE_RANK one more than the number of different values that come before
    it, PERCENT_RANK the rank counted from zero over the number of other rows, and
    CUME_DIST the share of the rows that do not come after it; for partitions in
    which the sort is an order and takes only equal texts for equal ([agreeing]),
    as it does for texts that are no numbers and for numbers each written in one
    way. Numbers written in two ways, as 1 and 01, are ranked apart
    ([rank_peers_are_texts]). *)
Theorem window_ranks item l i :
  windowOrderBy item <> [] -> l ∈ partitions item -> agreeing item l -> i ∈ l ->
  let before := rows_before item l i in
  let result v := window_values item !! i = Some v in
  (windowFunc item = str "RANK" -> result (to_string (Z.of_nat (S (length before))))) /\
  (windowFunc item = str "DENSE_RANK" -> result (to_string (Z.of_nat (S (size (values_of item before)))))) /\
  (windowFunc item = str "PERCENT_RANK" ->
     result (formatNum (if length l <=? 1 then dzero else ddiv (dcount (length before)) (dcount (length l - 1))))) /\
  (windowFunc item = str "CUME_DIST" ->
     result (formatNum (ddiv (dcount (length (rows_upto item l i))) (dcount (length l))))).
Proof.
  intros Ho Hl Ha Hi before result. pose proof (sorted_partition_perm item l) as Hp.
  set (s := sorted_partition item l) in *.
  assert (agreeing item s) as Has.
  { destruct Ha as [Hw Ha]. split; [eapply weak_order_sub; [|exact Hw]; by intros x; rewrite Hp|].
    intros x y Hx Hy. rewrite Hp in Hx, Hy. by apply Ha. }
  assert (ordered (window_lt item) s) as Hs.
  { unfold s, Window.sorted_partition. unfold bytes_eqb. rewrite bool_decide_eq_false_2 by done.
    apply stable_sort_ordered, Ha. }
  assert (is_rank (windowFunc item) = true ->
    result (default [] (rank_value formatNum dcount (windowFunc item) (length l) (length before)
      (length (rows_upto item l i)) (size (values_of item before))))) as H.
  { intros Hr. apply (window_values_lookup item l); [done|]. unfold Window.partition_values. rewrite Hr. fold s.
    set (f := fun b u k => default [] (rank_value formatNum dcount (windowFunc item) (length s) b u k)).
    assert (length (rows_before item s i) = length before) as Eb by by apply Permutation_length, filter_perm.
    assert (length (rows_upto item s i) = length (rows_upto item l i)) as Eu by by apply Permutation_length, filter_perm.
    assert (values_of item (rows_before item s i) = values_of item before) as Ev.
    { apply set_eq. intros v. unfold values_of. rewrite !elem_of_list_to_set. by apply elem_of_Permutation_proper, fmap_Permutation, filter_perm. }
    assert (i ∈ s) as Hi' by by apply (elem_of_Permutation_proper i s l).
    pose proof (rank_runs_counts f item (length s) [] s i Ho Has Hs) as H. cbn [app length] in H.
    rewrite Eb, Eu, Ev in H. change (size (values_of item [])) with 0 in H. rewrite <- (Permutation_length Hp).
    apply H; [|done..]. by intros x y ?%not_elem_of_nil. }
  split_and!; intros E; rewrite E in H; by apply H.
Qed.

(** *** Functions of the position *)

Lemma mapM_some {A B} (f : A -> option B) l vs k x :
  mapM f l = Some vs -> l !! k = Some x -> exists v, vs !! k = Some v /\ f x = Some v.
Proof. intros H%mapM_Some_1 Hk. destruct (Forall2_lookup_l _ _ _ _ _ H Hk) as (v & Hv & E). by exists v. Qed.

Definition positional (item : SelectItem) : bool :=
  negb (is_rank (windowFunc item)) &&
  (existsb (bytes_eqb (windowFunc item)) [str "ROW_NUMBER"; str "NTILE"; str "LAG"; str "LEAD"; str "FIRST_VALUE"; str "LAST_VALUE"] ||
   hasWindowFrame item).

Lemma position_some item s r : positional item = true -> is_Some (position_value formatNum dcount rows columns colNames item s r).
Proof.
  unfold positional, position_value. intros [_ H]%andb_true_iff. cbn [existsb] in H. cbv zeta.
  destruct (bytes_eqb _ (str "ROW_NUMBER")); [by eexists|]. destruct (bytes_eqb _ (str "NTILE")); [by eexists|].
  destruct (bytes_eqb _ (str "LAG")); [by eexists|]. destruct (bytes_eqb _ (str "LEAD")); [by eexists|].
  destruct (bytes_eqb _ (str "FIRST_VALUE")); [by eexists|]. destruct (bytes_eqb _ (str "LAST_VALUE")); [by eexists|].
  cbn [orb] in H. rewrite H. by eexists.
Qed.

(** A positional function gives a row the value of its position in the sorted
    partition. *)
Lemma window_positions item l r i v :
  positional item = true -> l ∈ partitions item -> sorted_partition item l !! r = Some i ->
  position_value formatNum dcount rows columns colNames item (sorted_partition item l) r = Some v ->
  window_values item !! i = Some v.
Proof.
  intros Hp Hl Hr Hv. apply (window_values_lookup item l); [done|]. unfold Window.partition_values.
  assert (is_rank (windowFunc item) = false) as -> by (by apply andb_true_iff in Hp as [Hp%negb_true_iff _]).
  set (s := sorted_partition item l) in *. destruct (mapM _ (seq 0 (length s))) as [vs|] eqn:E.
  - apply list_elem_of_lookup. exists r. assert (r < length s) as Hlt by by eapply lookup_lt_Some.
    destruct (mapM_some _ _ _ r r E) as (v' & Hv' & Ev); [by apply lookup_seq|].
    rewrite Hv in Ev. injection Ev as <-. change (zip s vs !! r = Some (i, v)). apply lookup_zip_Some. done.
  - exfalso. apply eq_None_not_Some in E. apply E. apply mapM_is_Some. apply Forall_forall. intros x _.
    by apply position_some.
Qed.
End spec.

(** ** Buckets *)

(** [ceil(k * n / b)]: the first position of bucket [k], counted from 0. *)
Definition bucket_start (b n k : Z) : Z := (k * n + (b - 1)) / b.

Lemma tile_bucket b n r k :
  (1 <= b)%Z -> 0 < n -> (0 <= k)%Z ->
  tile b n r = (k + 1)%Z <-> (bucket_start b (Z.of_nat n) k <= Z.of_nat r < bucket_start b (Z.of_nat n) (k + 1))%Z.
Proof.
  intros Hb Hn Hk. unfold tile, bucket_start. rewrite Z.max_r by done. set (N := Z.of_nat n). set (R := Z.of_nat r).
  assert (0 < N)%Z as HN by lia.
  pose proof (Z.div_mod (R * b) N ltac:(lia)). pose proof (Z.mod_pos_bound (R * b) N HN).
  pose proof (Z.div_mod (k * N + (b - 1)) b ltac:(lia)). pose proof (Z.mod_pos_bound (k * N + (b - 1)) b ltac:(lia)).
  pose proof (Z.div_mod ((k + 1) * N + (b - 1)) b ltac:(lia)). pose proof (Z.mod_pos_bound ((k + 1) * N + (b - 1)) b ltac:(lia)).
  set (q := (R * b / N)%Z) in *. set (s := ((k * N + (b - 1)) / b)%Z) in *. set (s' := (((k + 1) * N + (b - 1)) / b)%Z) in *.
  split; [intros E; assert (q = k) by lia; subst q; split; nia|]. intros [Hlo Hhi].
  assert (q < k + 1)%Z by nia. assert (k <= q)%Z by nia. lia.
Qed.

Lemma count_between (n lo hi : nat) :
  lo <= hi -> hi <= n -> length (List.filter (fun r => (lo <=? r) && (r <? hi)) (seq 0 n)) = hi - lo.
Proof.
  intros H1 H2. assert (forall n, length (List.filter (fun r => (lo <=? r) && (r <? hi)) (seq 0 n)) = (n `min` hi) - lo) as H.
  { clear. intros n. induction n as [|n IH]; [done|]. rewrite seq_S, List.filter_app, length_app, IH. cbn [List.filter plus].
    destruct (Nat.leb_spec lo n), (Nat.ltb_spec n hi); cbn [andb length]; lia. }
  rewrite H. lia.
Qed.

(** [C39] NTILE(b) numbers its buckets from 1 to [b], and the sizes of two buckets
    differ by at most one. *)
Theorem ntile_balanced b n :
  (1 <= b)%Z ->
  (forall r, r < n -> (1 <= tile b n r <= b)%Z) /\
  forall k k', (1 <= k <= b)%Z -> (1 <= k' <= b)%Z ->
    length (List.filter (fun r => (tile b n r =? k)%Z) (seq 0 n)) <=
      S (length (List.filter (fun r => (tile b n r =? k')%Z) (seq 0 n))).
Proof.
  intros Hb. split.
  - intros r Hr. unfold tile. rewrite Z.max_r by done. split.
    + pose proof (Z.div_pos (Z.of_nat r * b) (Z.of_nat n)). lia.
    + assert (Z.of_nat r * b / Z.of_nat n < b)%Z; [|lia]. apply Z.div_lt_upper_bound; nia.
  - intros k k' Hk Hk'. destruct (decide (n = 0)) as [->|Hn]; [cbn; lia|].
    assert (forall j, (1 <= j <= b)%Z -> exists sz, length (List.filter (fun r => (tile b n r =? j)%Z) (seq 0 n)) = sz /\
      (Z.of_nat sz * b < Z.of_nat n + b)%Z /\ (Z.of_nat n < (Z.of_nat sz + 1) * b)%Z) as H.
    { intros j Hj. eexists. split; [done|]. set (N := Z.of_nat n).
      set (s := bucket_start b N (j - 1)). set (s' := bucket_start b N j).
      assert (b * s <= (j - 1) * N + (b - 1) < b * s + b)%Z as Hs.
      { unfold s, bucket_start. pose proof (Z.div_mod ((j - 1) * N + (b - 1)) b). pose proof (Z.mod_pos_bound ((j - 1) * N + (b - 1)) b). lia. }
      assert (b * s' <= j * N + (b - 1) < b * s' + b)%Z as Hs'.
      { unfold s', bucket_start. pose proof (Z.div_mod (j * N + (b - 1)) b). pose proof (Z.mod_pos_bound (j * N + (b - 1)) b). lia. }
      assert (0 <= s <= s')%Z as Hss by nia. assert (s' <= N)%Z as HsN by nia.
      erewrite (filter_ext _ (fun r => (Z.to_nat s <=? r) && (r <? Z.to_nat s'))).
      - rewrite count_between by lia. nia.
      - intros r. apply eq_true_iff_eq. rewrite Z.eqb_eq, andb_true_iff, Nat.leb_le, Nat.ltb_lt.
        pose proof (tile_bucket b n r (j - 1) Hb ltac:(lia) ltac:(lia)) as Ht.
        replace (j - 1 + 1)%Z with j in Ht by lia. fold N s s' in Ht. rewrite Ht. lia. }
    destruct (H k Hk) as (x & -> & Hx1 & Hx2), (H k' Hk') as (y & -> & Hy1 & Hy2). nia.
Qed.

(** ** Examples *)

Section examples.
#[local] Existing Instance IntDouble.

Definition window_item (f arg part order : string) : SelectItem :=
  mkItem false [] [] [] [] false [] [] (str f) (str arg) (str part) (str order) false 1 NULL 1 false INT_MIN 0.

Definition framed (start stop : Z) (f arg : string) : SelectItem :=
  mkItem false [] [] [] [] false [] [] (str f) (str arg) [] (str "n") false 1 NULL 1 true start stop.

Definition column_values (t : Table BTree) (item : SelectItem) : list bytes :=
  window_values print int_count (rows_ t) (columns_ t) (map c_name (columns_ t)) item.

Definition ex_scores : Table BTree :=
  plain_table ["g"; "n"] [["x"; "10"]; ["y"; "1"]; ["x"; "9"]; ["x"; "10"]; ["x"; "11"]].

Lemma window_ranks_witness :
  column_values ex_scores (window_item "RANK" "" "g" "n") = [str "2"; str "1"; str "1"; str "2"; str "4"] /\
  window_values print int_count (rows_ ex_scores) (columns_ ex_scores) [] (window_item "RANK" "" "g" "n") !! 4 =
    Some (to_string (Z.of_nat (S (length
      (rows_before (rows_ ex_scores) (columns_ ex_scores) [] (window_item "RANK" "" "g" "n") [0; 2; 3; 4] 4))))).
Proof.
  split; [by vm_compute|].
  refine (proj1 (window_ranks print int_count (rows_ ex_scores) (columns_ ex_scores) []
    (window_item "RANK" "" "g" "n") [0; 2; 3; 4] 4 _ _ _ _) _); [done|by_decide| |by_decide|done].
  assert (forall i, i ∈ [0; 2; 3; 4] -> i = 0 \/ i = 2 \/ i = 3 \/ i = 4) as Hc by (intros i; set_solver).
  split; [split|]; intros *.
  - intros Hx%Hc. destruct_or!; subst; by vm_compute.
  - intros Hx%Hc Hy%Hc Hz%Hc. destruct_or!; subst; by vm_compute.
  - intros Hx%Hc Hy%Hc Hz%Hc. destruct_or!; subst; vm_compute; auto.
  - intros Hx%Hc Hy%Hc. destruct_or!; subst; by vm_compute.
Defined.

Lemma ntile_balanced_witness :
  map (tile 3 7) (seq 0 7) = [1; 1; 1; 2; 2; 3; 3]%Z /\
  length (List.filter (fun r => (tile 3 7 r =? 1)%Z) (seq 0 7)) <=
    S (length (List.filter (fun r => (tile 3 7 r =? 3)%Z) (seq 0 7))).
Proof. split; [by vm_compute|]. apply (ntile_balanced 3 7); lia. Defined.

(** ** Where windows are not what the query says *)

(** Rows are ordered by number, but peers are rows with the same text. *)
Lemma rank_peers_are_texts :
  column_values (plain_table ["n"] [["1"]; ["01"]; ["1"]]) (window_item "RANK" "" "" "n") = [str "1"; str "2"; str "3"].
Proof. by vm_compute. Qed.

(** With more buckets than rows NTILE leaves numbers out. *)
Lemma ntile_skips_buckets : map (tile 4 2) (seq 0 2) = [1; 3]%Z.
Proof. by vm_compute. Qed.

(** COUNT of a column counts every row without a frame, and the numbers with one;
    over an empty frame it is NULL. *)
Lemma window_counts_differ :
  let t := plain_table ["n"; "c"] [["1"; "Rom"]; ["2"; "NULL"]] in
  column_values t (window_item "COUNT" "c" "" "n") = [str "2"; str "2"] /\
  column_values t (framed INT_MIN INT_MAX "COUNT" "c") = [str "0"; str "0"] /\
  column_values t (framed 1 1 "COUNT" "*") = [str "1"; NULL].
Proof. split_and!; by vm_compute. Qed.

(** The value of one window function cannot be used by the next: the names handed
    over already start with the columns, which the lookup counts a second time. *)
Lemma window_alias_unseen :
  let t := plain_table ["n"] [["5"]; ["3"]] in
  map values (applyWindowFunctions print int_count (columns_ t)
    [window_item "ROW_NUMBER" "" "" "n"; window_item "LAST_VALUE" "ROW_NUMBER" "" "n"]
    (rows_ t, map c_name (columns_ t))).1 = [[str "5"; str "2"; []]; [str "3"; str "1"; []]].
Proof. by vm_compute. Qed.
End examples.
