(* ===== verification/Catalog.v ===== *)
(** * The catalog ([src/engine/engine.hpp]: [createTable], [dropTable],
    [setTableAutoInc], [addForeignKey], [registerInheritance], [createView],
    [dropView])

    Computations on the engine together with its inheritance maps and the texts
    of its views.  The theorem: the maps of parents and of children agree as long
    as no table is dropped that other tables inherit from. *)

From S2P Require Import Prelude Index BTree Partition Table Mvcc Locks Wal Transaction Joins Arith Where Select Columns Triggers Mutation Integrity.

(** The engine, its inheritance map and the texts of its views. *)
Record Database := mkDatabase {
  engine : Mutation.Engine;
  tableParent_ : gmap bytes bytes;
  viewSql : gmap bytes bytes }.

Definition with_engine (e : Mutation.Engine) (db : Database) : Database :=
  mkDatabase e (tableParent_ db) (viewSql db).

Definition db_tables (db : Database) : gmap bytes (Table BTree) := tables (engine db).
Definition resolve (db : Database) (n : bytes) : bytes := resolveTableName (session (engine db)) (db_tables db) n.

(** ** Computations on the database *)

Definition D (A : Type) : Type := Database -> result A * Database.

#[export] Instance D_ret : MRet D := fun A x db => (Ok x, db).
#[export] Instance D_bind : MBind D := fun A B f m db =>
  match m db with (Ok x, db') => f x db' | (Throw s, db') => (Throw s, db') end.

Definition each {A} (f : A -> D ()) : list A -> D () :=
  fix go l := match l with [] => mret () | x :: l' => _ ← f x; go l' end.

Definition on_engine {A} (m : M A) : D A := fun db =>
  let '(r, e) := m (engine db) in (r, with_engine e db).

Definition set_engine (f : Mutation.Engine -> Mutation.Engine) (db : Database) : Database := with_engine (f (engine db)) db.

Definition with_children (m : gmap bytes (list bytes)) (e : Mutation.Engine) : Mutation.Engine :=
  mkEngine (core e) (session e) (currentUser_ e) (users_ e) (tempTableNames_ e) (views_ e) (rlsEnabled_ e)
    (rlsPolicies_ e) m (partitionMeta_ e) (triggers_ e).
Definition with_views (v : gset bytes) (e : Mutation.Engine) : Mutation.Engine :=
  mkEngine (core e) (session e) (currentUser_ e) (users_ e) (tempTableNames_ e) v (rlsEnabled_ e)
    (rlsPolicies_ e) (tableChildren_ e) (partitionMeta_ e) (triggers_ e).
Definition with_partitions (m : gmap bytes PartitionInfo) (e : Mutation.Engine) : Mutation.Engine :=
  mkEngine (core e) (session e) (currentUser_ e) (users_ e) (tempTableNames_ e) (views_ e) (rlsEnabled_ e)
    (rlsPolicies_ e) (tableChildren_ e) m (triggers_ e).

Definition children_of (db : Database) (p : bytes) : list bytes := default [] (tableChildren_ (engine db) !! p).

(** Set the parent of [c], and the children of [p]. *)
Definition set_parent (c p : bytes) (children : list bytes) (db : Database) : Database :=
  mkDatabase (with_children (<[p := children]> (tableChildren_ (engine db))) (engine db))
    (<[c := p]> (tableParent_ db)) (viewSql db).

(** The table [n] of the engine is [t]. *)
Definition put (n : bytes) (t : Table BTree) (db : Database) : Database :=
  set_engine (fun e => with_tables (<[n := t]> (tables e)) e) db.

Definition push_fk (fk : ForeignKeyDef) (t : Table BTree) : Table BTree :=
  mkTable (name_ t) (columns_ t) (rows_ t) (indices_ t) (autoIncMap_ t) (foreignKeys_ t ++ [fk]) (partitionInfo_ t).
Definition push_fks (fks : list ForeignKeyDef) (t : Table BTree) : Table BTree := fold_left (fun t fk => push_fk fk t) fks t.

(** [inherits] is empty for a table without a parent; otherwise the columns of
    the parent come first. *)
Definition createTable (name : bytes) (cols : list Column) (fks : list ForeignKeyDef) (inherits : bytes) : D () := fun db =>
  let key := resolve db name in
  match db_tables db !! key with
  | Some _ => (Throw "Tabelle existiert bereits.", db)
  | None =>
      if bytes_eqb inherits [] then (Ok (), put key (push_fks fks (table key cols)) db)
      else
        let parentKey := resolve db inherits in
        match db_tables db !! parentKey with
        | None => (Throw "Eltern-Tabelle nicht gefunden.", db)
        | Some parent =>
            (Ok (), set_parent key parentKey (children_of db parentKey ++ [key])
                      (put key (push_fks fks (table key (columns_ parent ++ cols))) db))
        end
  end.

(** Change the table of this name; [getTable] throws if there is none. *)
Definition on_table (tbl : bytes) (f : Table BTree -> Table BTree) : D () := fun db =>
  let key := resolve db tbl in
  match db_tables db !! key with
  | Some t => (Ok (), put key (f t) db)
  | None => (Throw "Tabelle nicht gefunden", db)
  end.

Definition setTableAutoInc (tbl col : bytes) (val : Z) : D () :=
  on_table tbl (fun t => with_autoInc t (<[col := val]> (autoIncMap_ t))).

Definition addForeignKey (tbl : bytes) (fk : ForeignKeyDef) : D () := on_table tbl (push_fk fk).

Definition tableParentName (db : Database) (tbl : bytes) : bytes := default [] (tableParent_ db !! resolve db tbl).

Definition registerInheritance (child parent : bytes) : D () := fun db =>
  let ck := resolve db child in
  let pk := resolve db parent in
  let vec := children_of db pk in
  (Ok (), set_parent ck pk (if bool_decide (ck ∈ vec) then vec else vec ++ [ck]) db).

Definition createView (name sql : bytes) : D () := fun db =>
  if bool_decide (is_Some (viewSql db !! name)) then (Throw "View existiert bereits.", db)
  else if bool_decide (is_Some (db_tables db !! name)) then (Throw "ist bereits eine Tabelle.", db)
  else (Ok (), mkDatabase (with_views ({[name]} ∪ views_ (engine db)) (engine db)) (tableParent_ db)
                 (<[name := sql]> (viewSql db))).

Definition dropView (name : bytes) : D () := fun db =>
  match viewSql db !! name with
  | None => (Throw "View nicht gefunden.", db)
  | Some _ => (Ok (), mkDatabase (with_views (views_ (engine db) ∖ {[name]}) (engine db)) (tableParent_ db)
                        (delete name (viewSql db)))
  end.

Definition remove_table (n : bytes) (db : Database) : Database :=
  set_engine (fun e => with_tables (delete n (tables e)) e) db.

(** The children of a partitioned table go first, whether or not there is a
    table of that name. *)
Definition drop_partitions (pkey : bytes) (db : Database) : Database :=
  match partitionMeta_ (engine db) !! pkey with
  | None => db
  | Some pi =>
      let db := fold_left (fun db child => remove_table (resolve db child) db) (p_children pi) db in
      set_engine (fun e => with_partitions (delete pkey (partitionMeta_ e)) e) db
  end.

(** The table leaves the list of its parent, and its own list is dropped. *)
Definition forget_inheritance (key : bytes) (db : Database) : Database :=
  let db :=
    match tableParent_ db !! key with
    | None => db
    | Some p =>
        let siblings := filter (fun c => c <> key) (children_of db p) in
        mkDatabase (with_children (<[p := siblings]> (tableChildren_ (engine db))) (engine db))
          (delete key (tableParent_ db)) (viewSql db)
    end in
  set_engine (fun e => with_children (delete key (tableChildren_ e)) e) db.

Definition dropTable (name : bytes) : D () := fun db =>
  let db := drop_partitions (resolve db name) db in
  let key := resolve db name in
  match db_tables db !! key with
  | None => (Throw "Tabelle nicht gefunden.", db)
  | Some _ => (Ok (), forget_inheritance key (remove_table key db))
  end.

(** ** What the maps promise *)

(** The maps of children and of parents are each other's inverse, they speak of
    tables that exist, tables know their names, and the two records of the views
    agree. *)
Record catalog_ok (db : Database) : Prop := {
  co_maps p c : c ∈ children_of db p <-> tableParent_ db !! c = Some p;
  co_nodup p : NoDup (children_of db p);
  co_tables c p : tableParent_ db !! c = Some p -> is_Some (db_tables db !! c) /\ is_Some (db_tables db !! p);
  co_names n t : db_tables db !! n = Some t -> name_ t = n;
  co_views : views_ (engine db) = dom (viewSql db) }.

(** One statement; an exception is a step too.  A table is dropped when nothing
    inherits from it and it has no partitions. *)
Inductive catalog_step (db : Database) : Database -> Prop :=
| cs_create n cols fks inh : catalog_step db (createTable n cols fks inh db).2
| cs_counter n c v : catalog_step db (setTableAutoInc n c v db).2
| cs_foreign_key n fk : catalog_step db (addForeignKey n fk db).2
| cs_view n sql : catalog_step db (createView n sql db).2
| cs_drop_view n : catalog_step db (dropView n db).2
| cs_drop n : children_of db (resolve db n) = [] -> partitionMeta_ (engine db) !! resolve db n = None ->
    catalog_step db (dropTable n db).2.

Lemma tables_put n t db : db_tables (put n t db) = <[n := t]> (db_tables db).
Proof. done. Qed.

Lemma name_push_fks fks t : name_ (push_fks fks t) = name_ t.
Proof. unfold push_fks. revert t. induction fks as [|fk fks IH]; intros t; [done|]. cbn [fold_left]. by rewrite IH. Qed.

(** A table that is replaced, or added without a parent. *)
Lemma catalog_put n t db : catalog_ok db -> name_ t = n -> catalog_ok (put n t db).
Proof.
  intros [H1 H2 H3 H4 H5] Hn. split; try done.
  - intros c p Hc. rewrite tables_put, !lookup_insert_is_Some. destruct (H3 c p Hc).
    split; (destruct (decide (n = c)), (decide (n = p)); naive_solver).
  - intros m u. rewrite tables_put. intros [[<- <-]|[_ Hm]]%lookup_insert_Some; [done|by apply H4].
Qed.

Lemma catalog_set_parent c p db :
  catalog_ok db -> is_Some (db_tables db !! c) -> is_Some (db_tables db !! p) -> tableParent_ db !! c = None ->
  catalog_ok (set_parent c p (children_of db p ++ [c]) db).
Proof.
  intros [H1 H2 H3 H4 H5] Hc Hp Hnone. unfold set_parent.
  assert (forall q, c ∉ children_of db q) as Hfresh by (intros q Hq; apply H1 in Hq; congruence).
  split; cbn [tableParent_ viewSql engine]; try done.
  - intros q d. unfold children_of at 1. cbn [tableChildren_ with_children engine].
    destruct (decide (p = q)) as [<-|Hne].
    + rewrite lookup_insert_eq. change (default [] (Some ?x)) with x. rewrite elem_of_app, list_elem_of_singleton, H1.
      destruct (decide (c = d)) as [<-|Hd]; [rewrite lookup_insert_eq; naive_solver|].
      rewrite lookup_insert_ne by done. naive_solver.
    + rewrite lookup_insert_ne by done. fold (children_of db q). rewrite H1.
      destruct (decide (c = d)) as [<-|Hd]; [rewrite lookup_insert_eq, Hnone; naive_solver|].
      by rewrite lookup_insert_ne.
  - intros q. unfold children_of at 1. cbn [tableChildren_ with_children engine].
    destruct (decide (p = q)) as [<-|Hne]; [|rewrite lookup_insert_ne by done; apply H2].
    rewrite lookup_insert_eq. apply NoDup_app. split_and!; [apply H2| |apply NoDup_singleton].
    intros x Hx ->%list_elem_of_singleton. by eapply Hfresh.
  - intros d q. intros [[<- <-]|[_ Hd]]%lookup_insert_Some; [done|by apply H3].
Qed.

Lemma catalog_drop key db t :
  catalog_ok db -> children_of db key = [] -> db_tables db !! key = Some t ->
  catalog_ok (forget_inheritance key (remove_table key db)).
Proof.
  intros [H1 H2 H3 H4 H5] Hch Ht. unfold forget_inheritance.
  change (tableParent_ (remove_table key db)) with (tableParent_ db).
  change (children_of (remove_table key db)) with (children_of db).
  assert (forall c, tableParent_ db !! c <> Some key) as Hno.
  { intros c Hc. apply H1 in Hc. rewrite Hch in Hc. by apply elem_of_nil in Hc. }
  assert (forall q, q <> key -> forall m, default [] (delete key m !! q) = default [] (m !! q : option (list bytes))) as Hdel
    by (intros q Hq m; by rewrite lookup_delete_ne).
  destruct (tableParent_ db !! key) as [p|] eqn:E.
  - assert (p <> key) as Hpk by (intros ->; by eapply Hno).
    split; unfold children_of; cbn [set_engine with_engine engine tableChildren_ with_children tableParent_ viewSql]; try done.
    + intros q c. destruct (decide (q = key)) as [->|Hq].
      { rewrite lookup_delete_eq. split; [by intros ?%elem_of_nil|]. intros [_ Hc]%lookup_delete_Some. by apply Hno in Hc. }
      rewrite Hdel by done. destruct (decide (p = q)) as [<-|Hpq].
      * rewrite lookup_insert_eq. change (default [] (Some ?x)) with x. rewrite list_elem_of_filter, lookup_delete_Some. fold (children_of db p). rewrite H1. naive_solver.
      * rewrite lookup_insert_ne by done. change (default [] _) with (children_of db q). rewrite lookup_delete_Some, H1.
        split; [|naive_solver]. intros Hc. split; [|done]. intros <-. congruence.
    + intros q. destruct (decide (q = key)) as [->|Hq]; [rewrite lookup_delete_eq; apply NoDup_nil_2|].
      rewrite Hdel by done. destruct (decide (p = q)) as [<-|Hpq].
      * rewrite lookup_insert_eq. change (default [] (Some ?x)) with x. apply NoDup_filter, H2.
      * rewrite lookup_insert_ne by done. apply H2.
    + intros c q [Hk Hc]%lookup_delete_Some. destruct (H3 c q Hc) as [Hc1 Hc2].
      change (is_Some (delete key (db_tables db) !! c) /\ is_Some (delete key (db_tables db) !! q)). rewrite !lookup_delete_ne; [done| |done]. intros ->. by apply Hno in Hc.
    + intros n u Hn. change (delete key (db_tables db) !! n = Some u) in Hn. apply lookup_delete_Some in Hn as [_ Hn]. by apply H4.
  - split; unfold children_of; cbn [set_engine with_engine engine tableChildren_ with_children tableParent_ viewSql remove_table]; try done.
    + intros q c. destruct (decide (q = key)) as [->|Hq].
      { rewrite lookup_delete_eq. split; [by intros ?%elem_of_nil|]. intros Hc. by apply Hno in Hc. }
      rewrite Hdel by done. apply H1.
    + intros q. destruct (decide (q = key)) as [->|Hq]; [rewrite lookup_delete_eq; apply NoDup_nil_2|].
      rewrite Hdel by done. apply H2.
    + intros c q Hc. destruct (H3 c q Hc) as [Hc1 Hc2].
      change (is_Some (delete key (db_tables db) !! c) /\ is_Some (delete key (db_tables db) !! q)). rewrite !lookup_delete_ne; [done| |]; intros ->; [by apply Hno in Hc|congruence].
    + intros n u Hn. change (delete key (db_tables db) !! n = Some u) in Hn. apply lookup_delete_Some in Hn as [_ Hn]. by apply H4.
Qed.

Lemma catalog_step_ok db db' : catalog_step db db' -> catalog_ok db -> catalog_ok db'.
Proof.
  intros Hs Hok. destruct (id Hok) as [H1 H2 H3 H4 H5]. destruct Hs as [n cols fks inh|n c v|n fk|n sql|n|n Hch Hpm].
  - unfold createTable. cbv zeta. set (key := resolve db n).
    destruct (db_tables db !! key) as [t|] eqn:E; [done|]. destruct (bytes_eqb inh []).
    { apply catalog_put; [done|]. apply name_push_fks. }
    destruct (db_tables db !! resolve db inh) as [parent|] eqn:Ep; [|done]. cbn [snd].
    apply (catalog_set_parent _ _ (put key _ db)).
    + apply catalog_put; [done|]. apply name_push_fks.
    + rewrite tables_put, lookup_insert_eq. by eexists.
    + rewrite tables_put, lookup_insert_is_Some'. right. by eexists.
    + change (tableParent_ db !! key = None). destruct (tableParent_ db !! key) as [p|] eqn:Eq; [|done].
      destruct (H3 key p Eq) as [[? ?] _]. congruence.
  - unfold setTableAutoInc, on_table. destruct (db_tables db !! _) as [t|] eqn:E; [|done]. apply catalog_put; [done|].
    by apply H4 in E.
  - unfold addForeignKey, on_table. destruct (db_tables db !! _) as [t|] eqn:E; [|done]. apply catalog_put; [done|].
    by apply H4 in E.
  - unfold createView. do 2 (case_bool_decide; [done|]). split; try done. cbn. rewrite H5. by rewrite dom_insert_L.
  - unfold dropView. destruct (viewSql db !! n) eqn:E; [|done]. split; try done. cbn. rewrite H5. by rewrite dom_delete_L.
  - unfold dropTable, drop_partitions. rewrite Hpm. destruct (db_tables db !! resolve db n) as [t|] eqn:E; [|done].
    by eapply catalog_drop.
Qed.

(** [C34] The maps of parents and of children stay each other's inverse, and speak
    of tables that exist, through every sequence of CREATE TABLE (with or without
    INHERITS), CREATE VIEW, DROP VIEW, changes of keys and counters, and DROP
    TABLE of tables that nothing inherits from. *)
Theorem catalog_consistent db db' : rtc catalog_step db db' -> catalog_ok db -> catalog_ok db'.
Proof. induction 1 as [|a b c Hab _ IH]; [done|]. intros Ha. by apply IH, (catalog_step_ok a). Qed.

(** ** Examples *)

Definition empty_db : Database := mkDatabase (Integrity.engine ∅ ∅ ∅) ∅ ∅.

Lemma empty_catalog_ok : catalog_ok empty_db.
Proof.
  split; try done.
  - intros p c. split; [by intros ?%elem_of_nil|done].
  - intros p. apply NoDup_nil_2.
Qed.

Definition ex_col (n : string) : list Column := [column (str n) (str "INT")].

(** [CREATE TABLE a; CREATE TABLE b INHERITS (a)] *)
Definition family_db : Database :=
  let db := (createTable (str "s.a") (ex_col "x") [] [] empty_db).2 in
  (createTable (str "s.b") (ex_col "y") [] (str "s.a") db).2.

Lemma catalog_consistent_witness :
  rtc catalog_step empty_db (dropTable (str "s.b") family_db).2 /\
  children_of family_db (str "s.a") = [str "s.b"] /\
  catalog_ok (dropTable (str "s.b") family_db).2.
Proof.
  assert (rtc catalog_step empty_db (dropTable (str "s.b") family_db).2) as H.
  { eapply rtc_l; [apply (cs_create _ (str "s.a") (ex_col "x") [] [])|].
    eapply rtc_l; [apply (cs_create _ (str "s.b") (ex_col "y") [] (str "s.a"))|].
    apply rtc_once, cs_drop; by vm_compute. }
  split_and!; [exact H|by vm_compute|]. exact (catalog_consistent _ _ H empty_catalog_ok).
Defined.

(** Dropping a table that others inherit from leaves them with a parent that does
    not exist; a new table of that name is their parent by one map and not by the
    other, so that a SELECT on it does not show their rows. *)
Lemma drop_parent_leaves_orphans :
  let db := (dropTable (str "s.a") family_db).2 in
  let db' := (createTable (str "s.a") (ex_col "x") [] [] db).2 in
  tableParentName db (str "s.b") = str "s.a" /\ db_tables db !! str "s.a" = None /\
  tableParentName db' (str "s.b") = str "s.a" /\ children_of db' (str "s.a") = [].
Proof. vm_compute. done. Qed.

(** A missing table with partition data: its partitions are gone although the
    statement throws. *)
Lemma drop_throws_after_dropping :
  let pi := mkPartitionInfo Partition.HASH (str "k") [] [] 1 true [str "s.p0"] in
  let db := mkDatabase (Integrity.engine {[ str "s.p0" := table (str "s.p0") (ex_col "k") ]} ∅ {[ str "s.t" := pi ]}) ∅ ∅ in
  throws (dropTable (str "s.t") db).1 = true /\ db_tables (dropTable (str "s.t") db).2 = ∅.
Proof. vm_compute. done. Qed.
