(* ===== verification/QueryCache.v ===== *)
(** * The engine's cache of printed results ([src/cache/query_cache.hpp],
    [Engine::invalidateCache])

    Printed results by user and text of the query, each with the one table that
    invalidates it.  A cached answer is the fresh one as long as every change of
    the database invalidates the tables of all queries whose answer it changes.
    The dispatcher announces the table of the command: not the tables that a
    cascade of foreign keys changes, and nothing at all after INSERT OR REPLACE
    ([Statements.upsert_keeps_cache], [Statements.cascade_keeps_cache]). *)

From S2P Require Import Prelude Index BTree Partition Table Select Mutation Catalog.

(** ** [QueryCache] *)

(** Times are nanoseconds. *)
Record CacheEntry := mkEntry {
  renderedOutput : bytes; tableName : bytes; cachedAt : Z; lastAccess : Z; hitCount : nat }.

Record QueryCache := mkCache {
  cache_ : gmap bytes CacheEntry; maxSize_ : nat; ttlSeconds_ : Z; enabled_ : bool; totalHits_ : nat; totalMisses_ : nat }.

Definition new_cache : QueryCache := mkCache ∅ 100 30 true 0 0.

Definition with_cache (m : gmap bytes CacheEntry) (c : QueryCache) : QueryCache :=
  mkCache m (maxSize_ c) (ttlSeconds_ c) (enabled_ c) (totalHits_ c) (totalMisses_ c).
Definition count_miss (c : QueryCache) : QueryCache :=
  mkCache (cache_ c) (maxSize_ c) (ttlSeconds_ c) (enabled_ c) (totalHits_ c) (S (totalMisses_ c)).
Definition count_hit (c : QueryCache) : QueryCache :=
  mkCache (cache_ c) (maxSize_ c) (ttlSeconds_ c) (enabled_ c) (S (totalHits_ c)) (totalMisses_ c).

(** [duration_cast<seconds>] truncates. *)
Definition age (now : Z) (e : CacheEntry) : Z := Z.quot (now - cachedAt e) 1000000000.

Definition touch (now : Z) (e : CacheEntry) : CacheEntry :=
  mkEntry (renderedOutput e) (tableName e) (cachedAt e) now (S (hitCount e)).

Definition get (now : Z) (sql : bytes) (c : QueryCache) : option bytes * QueryCache :=
  if negb (enabled_ c) then (None, c)
  else
    match cache_ c !! sql with
    | None => (None, count_miss c)
    | Some e =>
        if (ttlSeconds_ c <? age now e)%Z then (None, count_miss (with_cache (delete sql (cache_ c)) c))
        else (Some (renderedOutput e), count_hit (with_cache (<[sql := touch now e]> (cache_ c)) c))
    end.

(** The first entry with the smallest [lastAccess], in the order of the keys. *)
Definition older (a b : bytes * CacheEntry) : bytes * CacheEntry :=
  if (lastAccess b.2 <? lastAccess a.2)%Z then b else a.

Definition evict (m : gmap bytes CacheEntry) : gmap bytes CacheEntry :=
  match str_iter m with [] => m | e :: es => delete (fold_left older es e).1 m end.

Definition put (now : Z) (sql output tbl : bytes) (c : QueryCache) : QueryCache :=
  if negb (enabled_ c) then c
  else
    let m := if maxSize_ c <=? size (cache_ c) then evict (cache_ c) else cache_ c in
    with_cache (<[sql := mkEntry output tbl now now 0]> m) c.

Definition invalidate (tbl : bytes) (c : QueryCache) : QueryCache :=
  with_cache (filter (fun p => tableName p.2 <> tbl) (cache_ c)) c.

Definition clear (c : QueryCache) : QueryCache := with_cache ∅ c.

Definition setEnabled (b : bool) (c : QueryCache) : QueryCache :=
  mkCache (cache_ c) (maxSize_ c) (ttlSeconds_ c) b (totalHits_ c) (totalMisses_ c).

(** ** [Engine::invalidateCache] *)

(** The part behind the last dot, if there is one. *)
Definition without_schema (n : bytes) : list bytes :=
  match rfind_char DOT n with Some p => [drop (S p) n] | None => [] end.

(** The names of the ancestors, with and without their schema. *)
Fixpoint ancestors (fuel : nat) (parents : gmap bytes bytes) (key : bytes) : list bytes :=
  match fuel with
  | O => []
  | S f =>
      match parents !! key with
      | Some pk => pk :: without_schema pk ++ ancestors f parents pk
      | None => []
      end
  end.

Definition invalidated (fuel : nat) (db : Database) (tbl : bytes) : list bytes :=
  tbl :: resolve db tbl :: ancestors fuel (tableParent_ db) (resolve db tbl).

Definition invalidateCache (fuel : nat) (db : Database) (tbl : bytes) (c : QueryCache) : QueryCache :=
  fold_left (fun c n => invalidate n c) (invalidated fuel db tbl) c.

(** The loop over the ancestors ends where no table is its own ancestor. *)
Lemma ancestors_enough parents (rank : bytes -> nat) f f' key :
  (forall c p, parents !! c = Some p -> rank p < rank c) -> rank key < f -> rank key < f' ->
  ancestors f parents key = ancestors f' parents key.
Proof.
  intros Hr. revert f' key. induction f as [|f IH]; intros f' key Hf Hf'; [lia|]. destruct f' as [|f']; [lia|].
  cbn [ancestors]. destruct (parents !! key) as [pk|] eqn:E; [|done]. pose proof (Hr _ _ E).
  by rewrite (IH f') by lia.
Qed.

(** ** Bounds *)

Lemma older_in es e : fold_left older es e ∈ e :: es.
Proof.
  revert e. induction es as [|x es IH]; intros e; [apply list_elem_of_here|]. cbn [fold_left].
  specialize (IH (older e x)). apply elem_of_cons in IH as [->|H]; [|by do 2 apply list_elem_of_further].
  unfold older. destruct (_ <? _)%Z; [apply list_elem_of_further|]; apply list_elem_of_here.
Qed.

(** The evicted entry is one of the cache and none was used longer ago. *)
Lemma evict_oldest m :
  m <> ∅ -> exists k e, m !! k = Some e /\ evict m = delete k m /\
    forall k' e', m !! k' = Some e' -> (lastAccess e <= lastAccess e')%Z.
Proof.
  intros Hm. unfold evict. destruct (str_iter m) as [|e es] eqn:E.
  { destruct Hm. apply map_empty. intros k. destruct (m !! k) as [x|] eqn:Hk; [|done].
    apply (elem_of_map_iter bytes_le) in Hk. rewrite E in Hk. by apply not_elem_of_nil in Hk. }
  pose proof (older_in es e) as Hin. destruct (fold_left older es e) as [k x] eqn:Ef.
  exists k, x. split; [by apply (elem_of_map_iter bytes_le); rewrite E|]. split; [done|].
  intros k' e' Hk'. apply (elem_of_map_iter bytes_le) in Hk'. rewrite E in Hk'. clear E Hin.
  assert (forall es e p, p ∈ e :: es -> (lastAccess (fold_left older es e).2 <= lastAccess p.2)%Z) as L.
  { clear. intros es. induction es as [|y es IH]; intros e p; [by intros ->%list_elem_of_singleton|]. cbn [fold_left].
    assert (lastAccess (older e y).2 <= lastAccess e.2 /\ lastAccess (older e y).2 <= lastAccess y.2)%Z as [H1 H2]
      by (unfold older; destruct (Z.ltb_spec (lastAccess y.2) (lastAccess e.2)); lia).
    pose proof (IH (older e y) (older e y) (list_elem_of_here _ _)).
    intros [->|[->|Hp]%elem_of_cons]%elem_of_cons; [lia..|]. by apply IH, list_elem_of_further. }
  specialize (L es e (k', e') Hk'). by rewrite Ef in L.
Qed.

Lemma evict_size m : size (evict m) <= pred (size m).
Proof.
  destruct (decide (m = ∅)) as [->|Hm]; [by vm_compute|].
  destruct (evict_oldest m Hm) as (k & e & Hk & -> & _). by rewrite map_size_delete_Some by (by eexists).
Qed.

Definition bounded (c : QueryCache) : Prop := 0 < maxSize_ c /\ size (cache_ c) <= maxSize_ c.

Lemma size_insert_le {A} (k : bytes) (x : A) (m : gmap bytes A) : size (<[k := x]> m) <= S (size m).
Proof. rewrite map_size_insert. destruct (m !! k); cbn; lia. Qed.

Lemma put_bounded now sql out tbl c : bounded c -> bounded (put now sql out tbl c).
Proof.
  intros [H0 H]. unfold put. destruct (negb _); [done|]. split; [done|]. cbn [cache_ with_cache maxSize_].
  pose proof (size_insert_le sql (mkEntry out tbl now now 0) (if maxSize_ c <=? size (cache_ c) then evict (cache_ c) else cache_ c)).
  destruct (Nat.leb_spec (maxSize_ c) (size (cache_ c))); [|lia]. pose proof (evict_size (cache_ c)). lia.
Qed.

Lemma get_bounded now sql c : bounded c -> bounded (get now sql c).2.
Proof.
  intros [H0 H]. unfold get. destruct (negb _); [done|]. destruct (cache_ c !! sql) as [e|] eqn:E; [|done].
  destruct (_ <? _)%Z; (split; [done|]); cbn.
  - rewrite map_size_delete, E. lia.
  - by rewrite map_size_insert_Some by (by eexists).
Qed.

Lemma invalidate_bounded tbl c : bounded c -> bounded (invalidate tbl c).
Proof.
  intros [H0 H]. split; [done|]. cbn. etrans; [|exact H]. apply map_subseteq_size, map_filter_subseteq.
Qed.

(** ** Cached answers are fresh *)

(** A database behind the cache: [run] prints the answer of a query, which is
    cached under [table_of] when it is [cacheable] (a query without a hit is not).
    A change gives the new database and the tables it
    announces. *)
Section fresh.
Context {DB : Type} (run : DB -> bytes -> bytes) (table_of : bytes -> bytes) (cacheable : DB -> bytes -> bool).

Inductive event :=
| Ask (now : Z) (sql : bytes)
| Change (db : DB) (tables : list bytes)
| Clear
| Switch (on : bool).

(** A query as the dispatcher runs it.  The trailer that marks a cached answer is
    left out. *)
Definition ask (now : Z) (sql : bytes) (db : DB) (c : QueryCache) : bytes * QueryCache :=
  match get now sql c with
  | (Some out, c) => (out, c)
  | (None, c) => let out := run db sql in (out, if cacheable db sql then put now sql out (table_of sql) c else c)
  end.

Definition step (s : DB * QueryCache) (e : event) : option bytes * (DB * QueryCache) :=
  match e with
  | Ask now sql => let '(out, c) := ask now sql s.1 s.2 in (Some out, (s.1, c))
  | Change db ts => (None, (db, fold_left (fun c n => invalidate n c) ts s.2))
  | Clear => (None, (s.1, clear s.2))
  | Switch on => (None, (s.1, setEnabled on s.2))
  end.

(** The answers of a history, and those of a history without a cache. *)
Fixpoint answers (es : list event) (s : DB * QueryCache) : list bytes :=
  match es with
  | [] => []
  | e :: es' => let '(out, s') := step s e in option_list out ++ answers es' s'
  end.

Fixpoint fresh_answers (es : list event) (db : DB) : list bytes :=
  match es with
  | [] => []
  | Ask _ sql :: es' => run db sql :: fresh_answers es' db
  | Change db' _ :: es' => fresh_answers es' db'
  | _ :: es' => fresh_answers es' db
  end.

(** A change announces the table of every query whose answer it changes. *)
Fixpoint announced (es : list event) (db : DB) : Prop :=
  match es with
  | [] => True
  | Change db' ts :: es' => (forall sql, table_of sql ∉ ts -> run db' sql = run db sql) /\ announced es' db'
  | _ :: es' => announced es' db
  end.

(** Every entry holds the fresh answer under its table. *)
Definition holds (db : DB) (m : gmap bytes CacheEntry) : Prop :=
  forall sql e, m !! sql = Some e -> renderedOutput e = run db sql /\ tableName e = table_of sql.

Lemma holds_subseteq db m m' : m' ⊆ m -> holds db m -> holds db m'.
Proof. intros Hs H sql e He. apply H. by eapply lookup_weaken. Qed.

Lemma holds_insert db m sql e :
  holds db m -> renderedOutput e = run db sql -> tableName e = table_of sql -> holds db (<[sql := e]> m).
Proof. intros H H1 H2 sql' e' [[<- <-]|[_ He]]%lookup_insert_Some; [done|by apply H]. Qed.

Lemma evict_subseteq m : evict m ⊆ m.
Proof.
  destruct (decide (m = ∅)) as [->|Hm]; [by vm_compute|].
  destruct (evict_oldest m Hm) as (k & e & _ & -> & _). apply delete_subseteq.
Qed.

Lemma ask_fresh now sql db c :
  holds db (cache_ c) -> (ask now sql db c).1 = run db sql /\ holds db (cache_ (ask now sql db c).2).
Proof.
  intros H. unfold ask, get, put.
  assert (forall c', cache_ c' ⊆ cache_ c -> holds db (cache_ (if negb (enabled_ c') then c'
    else with_cache (<[sql := mkEntry (run db sql) (table_of sql) now now 0]>
           (if maxSize_ c' <=? size (cache_ c') then evict (cache_ c') else cache_ c')) c'))) as K.
  { intros c' Hs. destruct (negb _); [by eapply holds_subseteq|]. apply holds_insert; [|done..].
    eapply holds_subseteq; [|exact H]. destruct (_ <=? _); [|done]. etrans; [apply evict_subseteq|done]. }
  destruct (negb (enabled_ c)) eqn:En; [destruct (cacheable db sql); by rewrite ?En|].
  destruct (cache_ c !! sql) as [e|] eqn:E.
  - destruct (_ <? _)%Z.
    + split; [done|]. cbn [fst snd]. destruct (cacheable db sql); [|eapply holds_subseteq; [|exact H]; apply delete_subseteq].
      apply (K (count_miss (with_cache (delete sql (cache_ c)) c))). apply delete_subseteq.
    + destruct (H _ _ E) as [H1 H2]. split; [done|]. by apply holds_insert.
  - split; [done|]. cbn [fst snd]. destruct (cacheable db sql); [|done]. by apply (K (count_miss c)).
Qed.

Lemma invalidate_all ts c :
  cache_ (fold_left (fun c n => invalidate n c) ts c) = filter (fun p => tableName p.2 ∉ ts) (cache_ c).
Proof.
  revert c. induction ts as [|t ts IH]; intros c; cbn [fold_left].
  - symmetry. apply map_filter_id. intros. apply not_elem_of_nil.
  - rewrite IH. cbn [cache_ invalidate with_cache]. rewrite map_filter_filter. apply map_filter_ext.
    intros k e _. cbn. rewrite not_elem_of_cons. tauto.
Qed.

(** With the cache every query of a history is answered as without it,
    whatever is evicted, expires or is switched on and off between, as long as
    every change announces the tables of all queries whose answer it changes. *)
Theorem cache_transparent es db c :
  announced es db -> cache_ c = ∅ -> answers es (db, c) = fresh_answers es db.
Proof.
  intros Ha Hc. assert (holds db (cache_ c)) as H by (intros sql e He; rewrite Hc in He; by apply lookup_empty_Some in He). clear Hc.
  revert db c Ha H. induction es as [|[now sql|db' ts| |on] es IH]; intros db c Ha H; [done|..];
    cbn [answers step fresh_answers announced option_list fst snd app] in *.
  - destruct (ask_fresh now sql db c H) as [H1 H2]. destruct (ask now sql db c) as [out c']. cbn in *.
    rewrite H1. f_equal. by apply IH.
  - destruct Ha as [Hr Ha]. apply IH; [done|]. rewrite invalidate_all. intros sql e [He Ht]%map_lookup_filter_Some.
    destruct (H _ _ He) as [H1 H2]. cbn in Ht. split; [|done]. rewrite Hr by (by rewrite <- H2). done.
  - apply IH; [done|]. intros sql e He. cbn in He. by apply lookup_empty_Some in He.
  - by apply IH.
Qed.
End fresh.

(** ** Examples *)

(** A database is a number, which the query V prints. *)
Definition ex_run (db : Z) (sql : bytes) : bytes := if bytes_eqb sql (str "V") then to_string db else str "-".
Definition ex_table_of (sql : bytes) : bytes := sql.

Definition second : Z := 1000000000.
Definition ex_events (ts : list bytes) : list event :=
  [Ask second (str "V"); Change 7%Z ts; Ask (2 * second) (str "V"); Switch false; Ask (3 * second) (str "V"); Clear;
   Switch true; Ask (40 * second) (str "V")].

Lemma cache_transparent_witness :
  answers ex_run ex_table_of (fun _ _ => true) (ex_events [str "V"]) (5%Z, new_cache) = [str "5"; str "7"; str "7"; str "7"] /\
  answers ex_run ex_table_of (fun _ _ => true) (ex_events [str "V"]) (5%Z, new_cache) = fresh_answers ex_run (ex_events [str "V"]) 5%Z.
Proof.
  split; [vm_compute; reflexivity|]. apply cache_transparent; [|by vm_compute].
  cbn. split; [|done]. intros sql Hs. unfold ex_table_of, ex_run in *. unfold bytes_eqb.
  rewrite bool_decide_eq_false_2; [done|]. intros ->. by apply Hs, list_elem_of_here.
Defined.

(** A change that does not announce its table leaves the old answer, until the
    entry is more than 30 whole seconds old. *)
Lemma unannounced_change_is_stale :
  answers ex_run ex_table_of (fun _ _ => true)
    [Ask second (str "V"); Change 7%Z []; Ask (31 * second) (str "V"); Ask (32 * second - 1) (str "V"); Ask (32 * second) (str "V")]
    (5%Z, new_cache) = [str "5"; str "5"; str "5"; str "7"].
Proof. vm_compute. reflexivity. Qed.
