(* ===== verification/Encryption.v ===== *)
(** * Encryption at rest ([src/crypto/encryption_manager.hpp],
    [src/crypto/master_key.hpp])

    The key and its file, and the framing of encrypted data.  AES-256-GCM is
    OpenSSL's and a parameter, with the two laws its documentation states.  The
    theorems: what was encrypted is decrypted, also after a restart that reads
    the key back from its file. *)

From S2P Require Import Prelude.

(** ** AES-256-GCM *)

Class Gcm := {
  seal : bytes -> bytes -> bytes -> bytes * bytes;            (* key, IV, text: ciphertext and tag *)
  unseal : bytes -> bytes -> bytes -> bytes -> option bytes;  (* key, IV, tag, ciphertext *)
  seal_length k iv p : length (seal k iv p).1 = length p;
  tag_length k iv p : length (seal k iv p).2 = 16;
  unseal_seal k iv p : unseal k iv (seal k iv p).2 (seal k iv p).1 = Some p }.

(** ** Hexadecimal text *)

Definition hex_digit (n : Z) : byte := (if n <? 10 then 48 + n else 87 + n)%Z.

(** [snprintf("%02x", b)] *)
Definition hex_byte (b : byte) : bytes := [hex_digit (Z.shiftr b 4); hex_digit (Z.land b 15)].
Definition to_hex (l : bytes) : bytes := mjoin (map hex_byte l).

(** [None] is -1 (255 in [MasterKey]). *)
Definition hexNibble (c : byte) : option Z :=
  (if (48 <=? c) && (c <=? 57) then Some (c - 48)
   else if (97 <=? c) && (c <=? 102) then Some (c - 97 + 10)
   else if (65 <=? c) && (c <=? 70) then Some (c - 65 + 10)
   else None)%Z.

Fixpoint hex_pairs (hex : bytes) : option bytes :=
  match hex with
  | a :: b :: hex' =>
      c1 ← hexNibble a; c2 ← hexNibble b; l ← hex_pairs hex'; Some (u8 (Z.lor (Z.shiftl c1 4) c2) :: l)
  | _ => Some []
  end.

(** Odd length or a character that is no digit: the empty key. *)
Definition hexToBin (hex : bytes) : bytes := if Nat.odd (length hex) then [] else default [] (hex_pairs hex).

(** [vector::resize(n, 0)] for a shorter vector. *)
Definition pad (n : nat) (k : bytes) : bytes := if length k <? n then k ++ replicate (n - length k) 0%Z else k.

(** ** The manager *)

Record EncryptionManager := mkManager { enabled_ : bool; key_ : bytes; keyfile : option bytes }.

Definition saveKeyfile (m : EncryptionManager) : EncryptionManager :=
  mkManager (enabled_ m) (key_ m) (Some (to_hex (key_ m) ++ [NL])).

Definition SHORT : string := "ERROR: Key too short (need >=32 hex chars)".
Definition INVALID : string := "ERROR: Invalid hex key".

(** [random] is what [RAND_bytes] delivers.  The key is replaced before it is
    known to be valid. *)
Definition enable (random hexKey : bytes) (m : EncryptionManager) : result () * EncryptionManager :=
  if bytes_eqb hexKey (str "auto") then (Ok (), saveKeyfile (mkManager true random (keyfile m)))
  else if length hexKey <? 32 then (Throw SHORT, m)
  else
    let key := hexToBin hexKey in
    if bytes_eqb key [] then (Throw INVALID, mkManager (enabled_ m) key (keyfile m))
    else (Ok (), saveKeyfile (mkManager true (pad 32 key) (keyfile m))).

Definition disable : EncryptionManager := mkManager false [] None.

Definition rotateKey (newHexKey : bytes) (m : EncryptionManager) : result () * EncryptionManager :=
  if length newHexKey <? 32 then (Throw SHORT, m)
  else
    let key := hexToBin newHexKey in
    if bytes_eqb key [] then (Throw INVALID, m)
    else (Ok (), saveKeyfile (mkManager (enabled_ m) (pad 32 key) (keyfile m))).

(** [f >> hex]: the first word of the file. *)
Definition first_word (s : bytes) : bytes := take_while (fun c => negb (is_space c)) (drop_while is_space s).

(** The constructor of a new process. *)
Definition tryLoadKeyfile (file : option bytes) : EncryptionManager :=
  match file with
  | None => mkManager false [] None
  | Some s =>
      let hex := first_word s in
      if 32 <=? length hex then
        let key := hexToBin hex in mkManager (32 <=? length key) key file
      else mkManager false [] file
  end.

(** The process stops and a new one starts. *)
Definition restart (m : EncryptionManager) : EncryptionManager := tryLoadKeyfile (keyfile m).

(** ** Data *)

Definition MAES : bytes := str "MAES".

(** [out[i] = in[i] ^ key[i % key.size()]], the fallback without OpenSSL. *)
Definition xorStr (key s : bytes) : bytes :=
  imap (fun i c => Z.lxor c (nth (i mod length key) key 0%Z)) s.

Section data.
Context {G : Gcm}.

Definition active (m : EncryptionManager) : bool := enabled_ m && negb (bytes_eqb (key_ m) []).

(** [iv] is what [RAND_bytes] delivers. *)
Definition encryptStr (iv : bytes) (m : EncryptionManager) (plain : bytes) : bytes :=
  if negb (active m) then plain
  else let '(cipher, tag) := seal (take 32 (key_ m)) iv plain in MAES ++ iv ++ tag ++ cipher.

Definition decryptStr (m : EncryptionManager) (enc : bytes) : bytes :=
  if negb (active m) then enc
  else if (length enc <? 4 + 12 + 16 + 1) || negb (bytes_eqb (take 4 enc) MAES) then xorStr (key_ m) enc
  else
    match unseal (take 32 (key_ m)) (mem_read 4 12 enc) (mem_read 16 16 enc) (drop 32 enc) with
    | Some plain => plain
    | None => enc
    end.

(** ** What was encrypted is decrypted *)

Lemma decrypt_framed m iv tag cipher :
  active m = true -> length iv = 12 -> length tag = 16 -> cipher <> [] ->
  decryptStr m (MAES ++ iv ++ tag ++ cipher) =
  default (MAES ++ iv ++ tag ++ cipher) (unseal (take 32 (key_ m)) iv tag cipher).
Proof.
  intros Ha Hi Ht Hc. unfold decryptStr. rewrite Ha. cbn [negb].
  assert (0 < length cipher) by (destruct cipher; simpl; [done|lia]).
  replace (length (MAES ++ iv ++ tag ++ cipher) <? 4 + 12 + 16 + 1) with false.
  2: { symmetry. apply Nat.ltb_ge. rewrite !length_app, Hi, Ht. change (length MAES) with 4. lia. }
  replace (bytes_eqb (take 4 (MAES ++ iv ++ tag ++ cipher)) MAES) with true.
  2: { symmetry. apply bool_decide_eq_true. by rewrite (take_app_length' MAES). }
  cbn [orb negb]. unfold mem_read.
  rewrite (drop_app_length' MAES) by done. rewrite (take_app_length' iv) by done.
  rewrite (app_assoc MAES), (drop_app_length' (MAES ++ iv)) by (rewrite length_app, Hi; done).
  rewrite (take_app_length' tag) by done.
  rewrite (app_assoc (MAES ++ iv)), (drop_app_length' ((MAES ++ iv) ++ tag)) by (rewrite !length_app, Hi, Ht; done).
  rewrite <- !app_assoc. by destruct unseal.
Qed.

(** Text that is not empty survives encryption; without a key it is not touched. *)
Lemma decrypt_encrypt m iv plain :
  length iv = 12 -> plain <> [] -> decryptStr m (encryptStr iv m plain) = plain.
Proof.
  intros Hi Hp. unfold encryptStr. destruct (active m) eqn:Ha; cbn [negb].
  - pose proof (unseal_seal (take 32 (key_ m)) iv plain) as Hu.
    pose proof (tag_length (take 32 (key_ m)) iv plain). pose proof (seal_length (take 32 (key_ m)) iv plain).
    destruct (seal _ iv plain) as [c t]. cbn [fst snd] in *. rewrite decrypt_framed; try done; [by rewrite Hu|].
    intros ->. by destruct plain.
  - unfold decryptStr. by rewrite Ha.
Qed.

End data.

(** ** Hexadecimal text is read back *)

(** A property of finitely many integers is tried on each. *)
Lemma by_values (P : Z -> Prop) k n : Forall P (seqZ 0 k) -> (0 <= n < k)%Z -> P n.
Proof. intros HF Hn. rewrite Forall_forall in HF. apply HF. apply elem_of_seqZ. lia. Qed.

Lemma hexNibble_digit n : (0 <= n < 16)%Z -> hexNibble (hex_digit n) = Some n.
Proof. apply (by_values (fun n => hexNibble (hex_digit n) = Some n)). by_decide. Qed.

Lemma hex_byte_join b :
  wf_byte b -> ((0 <= Z.shiftr b 4 < 16) /\ (0 <= Z.land b 15 < 16) /\
                u8 (Z.lor (Z.shiftl (Z.shiftr b 4) 4) (Z.land b 15)) = b)%Z.
Proof.
  apply (by_values (fun b => ((0 <= Z.shiftr b 4 < 16) /\ (0 <= Z.land b 15 < 16) /\
    u8 (Z.lor (Z.shiftl (Z.shiftr b 4) 4) (Z.land b 15)) = b)%Z) 256). by_decide.
Qed.

Lemma hex_pairs_to_hex l : wf_bytes l -> hex_pairs (to_hex l) = Some l.
Proof.
  induction 1 as [|b l Hb _ IH]; [done|]. destruct (hex_byte_join b Hb) as (H1 & H2 & H3).
  unfold to_hex in *. cbn [map]. rewrite mjoin_cons. cbn [hex_byte app hex_pairs].
  rewrite !hexNibble_digit by done. cbn. rewrite IH. cbn. by rewrite H3.
Qed.

Lemma length_to_hex l : length (to_hex l) = 2 * length l.
Proof. induction l as [|b l IH]; [done|]. unfold to_hex in *. cbn [map]. rewrite mjoin_cons, length_app, IH. simpl. lia. Qed.

Lemma hexToBin_to_hex l : wf_bytes l -> hexToBin (to_hex l) = l.
Proof.
  intros. unfold hexToBin. rewrite length_to_hex, hex_pairs_to_hex by done.
  by rewrite Nat.odd_mul, andb_false_l.
Qed.

Lemma hex_digit_word n : (0 <= n < 16)%Z -> is_space (hex_digit n) = false.
Proof. apply (by_values (fun n => is_space (hex_digit n) = false)). by_decide. Qed.

Lemma to_hex_word l : wf_bytes l -> Forall (fun c => is_space c = false) (to_hex l).
Proof.
  induction 1 as [|b l Hb _ IH]; [done|]. destruct (hex_byte_join b Hb) as (H1 & H2 & _).
  unfold to_hex in *. cbn [map]. rewrite mjoin_cons. cbn [hex_byte app].
  by repeat constructor; try apply hex_digit_word.
Qed.

Lemma first_word_line s : Forall (fun c => is_space c = false) s -> s <> [] -> first_word (s ++ [NL]) = s.
Proof.
  intros Hs Hne. unfold first_word.
  assert (drop_while is_space (s ++ [NL]) = s ++ [NL]) as ->.
  { destruct s as [|c s]; [done|]. cbn. by rewrite (Forall_inv Hs). }
  clear Hne. induction Hs as [|c s Hc _ IH]; [done|]. cbn. rewrite Hc. cbn. by rewrite IH.
Qed.

(** A key as the manager keeps it while encryption is on. *)
Definition good_key (k : bytes) : Prop := wf_bytes k /\ 32 <= length k.

Lemma restart_saveKeyfile e k f :
  good_key k -> restart (saveKeyfile (mkManager e k f)) = mkManager true k (Some (to_hex k ++ [NL])).
Proof.
  intros [Hw Hl]. unfold restart, saveKeyfile. cbn [keyfile key_]. unfold tryLoadKeyfile.
  rewrite first_word_line by (try (by apply to_hex_word); intros E; apply (f_equal length) in E; rewrite length_to_hex in E; simpl in E; lia).
  rewrite length_to_hex, hexToBin_to_hex by done.
  replace (32 <=? 2 * length k) with true by (symmetry; apply Nat.leb_le; lia).
  by replace (32 <=? length k) with true by (symmetry; apply Nat.leb_le; lia).
Qed.

Lemma hex_pairs_wf hex l : hex_pairs hex = Some l -> wf_bytes l.
Proof.
  assert (forall n s l', length s <= n -> hex_pairs s = Some l' -> wf_bytes l') as H.
  { induction n as [|n IH]; intros [|a [|b s]] l' Hn; cbn [hex_pairs length] in *; try lia;
      try (intros [= <-]; constructor).
    destruct (hexNibble a); [|done]. destruct (hexNibble b); [|done]. cbn.
    destruct (hex_pairs s) as [l''|] eqn:E; [|done]. intros [= <-].
    constructor; [apply u8_range|]. apply (IH s); [lia|done]. }
  by apply (H (length hex)).
Qed.

Lemma good_key_pad hex : hexToBin hex <> [] -> good_key (pad 32 (hexToBin hex)).
Proof.
  intros Hne. assert (wf_bytes (hexToBin hex)) as Hw.
  { unfold hexToBin in *. destruct Nat.odd; [done|]. destruct (hex_pairs hex) eqn:E; [by eapply hex_pairs_wf|constructor]. }
  unfold good_key, pad. case_if; to_prop; split; try done; try lia.
  - apply Forall_app. split; [done|]. apply Forall_replicate. unfold wf_byte. lia.
  - rewrite length_app, length_replicate. lia.
Qed.

Section restart.
Context {G : Gcm}.

(** Every successful [enable] or [rotateKey] leaves a key that a new process
    reads back from the key file. *)
Lemma enable_restart random hexKey m m' :
  good_key random -> enable random hexKey m = (Ok (), m') -> restart m' = m' /\ active m' = true.
Proof.
  intros Hr. unfold enable.
  assert (forall e k f, good_key k -> e = true -> restart (saveKeyfile (mkManager e k f)) = saveKeyfile (mkManager e k f) /\
            active (saveKeyfile (mkManager e k f)) = true) as H.
  { intros e k f Hk ->. rewrite restart_saveKeyfile by done. split; [done|].
    destruct Hk as [_ Hk]. destruct k; simpl in *; [lia|done]. }
  case_if; [intros [= <-]; by apply H|]. case_if; [done|].
  destruct (bytes_eqb (hexToBin hexKey) []) eqn:Ek; [done|]. intros [= <-].
  apply H; [|done]. apply good_key_pad. by apply bool_decide_eq_false in Ek.
Qed.

(** Data encrypted after [enable] succeeded is decrypted by a later process,
    which has only the key file. *)
Theorem encryption_survives_restart random hexKey m m' iv plain :
  good_key random -> enable random hexKey m = (Ok (), m') -> length iv = 12 -> plain <> [] ->
  decryptStr (restart m') (encryptStr iv m' plain) = plain /\
  encryptStr iv m' plain <> plain.
Proof.
  intros Hr He Hi Hp. destruct (enable_restart _ _ _ _ Hr He) as [-> Ha].
  split; [by apply decrypt_encrypt|]. intros E. apply (f_equal length) in E. revert E.
  unfold encryptStr. rewrite Ha. cbn [negb].
  pose proof (tag_length (take 32 (key_ m')) iv plain). pose proof (seal_length (take 32 (key_ m')) iv plain).
  destruct (seal _ iv plain) as [c t]. cbn [fst snd] in *. rewrite !length_app, Hi. change (length MAES) with 4. lia.
Qed.

End restart.

(** A cipher that satisfies the laws, for the examples. *)
Definition toy_seal (k iv p : bytes) : bytes * bytes := (map (Z.lxor 90) p, replicate 16 0%Z).
Definition toy_unseal (k iv t c : bytes) : option bytes :=
  if bool_decide (t = replicate 16 0%Z) then Some (map (Z.lxor 90) c) else None.

Lemma toy_unseal_seal k iv p : toy_unseal k iv (toy_seal k iv p).2 (toy_seal k iv p).1 = Some p.
Proof.
  unfold toy_unseal, toy_seal. cbn [fst snd]. rewrite bool_decide_eq_true_2 by done. f_equal.
  rewrite map_map. rewrite <- (map_id p) at 2. apply map_ext. intros c.
  by rewrite <- Z.lxor_assoc, Z.lxor_nilpotent, Z.lxor_0_l.
Qed.

#[export] Instance toy_gcm : Gcm := {|
  seal := toy_seal; unseal := toy_unseal; seal_length _ _ p := length_map (Z.lxor 90) p;
  tag_length _ _ _ := eq_refl; unseal_seal := toy_unseal_seal |}.

Definition hex_key : bytes := str "000102030405060708090a0b0c0d0e0f".

Lemma encryption_survives_restart_witness :
  decryptStr (restart (enable [] hex_key disable).2) (encryptStr (replicate 12 7%Z) (enable [] hex_key disable).2 (str "row"))
  = str "row".
Proof.
  refine (proj1 (encryption_survives_restart (replicate 32 1%Z) hex_key disable (enable [] hex_key disable).2
    (replicate 12 7%Z) (str "row") _ _ _ _)); try done; split; [by_decide|simpl; lia].
Defined.

(** ** What the code does not do *)

(** An invalid key given while encryption is on erases the key in use: the state
    stays "enabled", and data is written in clear. *)
Lemma invalid_key_disables :
  let m := (enable [] hex_key disable).2 in
  let m' := (enable [] (replicate 32 (Z.of_nat 122)) m).2 in
  enabled_ m' = true /\ encryptStr (replicate 12 7%Z) m' (str "row") = str "row".
Proof. by vm_compute. Qed.

(** A file whose tag does not match is handed on as it is, undecrypted. *)
Lemma tampered_data_is_returned m iv tag cipher :
  active m = true -> length iv = 12 -> length tag = 16 -> cipher <> [] ->
  unseal (take 32 (key_ m)) iv tag cipher = None ->
  decryptStr m (MAES ++ iv ++ tag ++ cipher) = MAES ++ iv ++ tag ++ cipher.
Proof. intros. rewrite decrypt_framed by done. by rewrite H3. Qed.

(** The empty text is framed in 32 bytes, which [decryptStr] takes for the old format. *)
Lemma empty_text_is_lost :
  let m := (enable [] hex_key disable).2 in
  length (decryptStr m (encryptStr (replicate 12 7%Z) m [])) = 32.
Proof. by vm_compute. Qed.

(** ** The master key ([MasterKey]) *)

Definition getKeyHex (k : bytes) : bytes := to_hex k.

(** [None]: refused.  The vector is overwritten digit by digit, so a refused
    text may leave a prefix of itself in the key. *)
Fixpoint parseHex_loop (s out : bytes) : bool * bytes :=
  match s, out with
  | a :: b :: s', _ :: out' =>
      match hexNibble a, hexNibble b with
      | Some hi, Some lo => let '(ok, l) := parseHex_loop s' out' in (ok, u8 (Z.lor (Z.shiftl hi 4) lo) :: l)
      | _, _ => (false, out)
      end
  | _, _ => (true, out)
  end.
Definition parseHex (s out : bytes) : bool * bytes := if negb (length s =? 64) then (false, out) else parseHex_loop s out.

Inductive KeySource := Env | File | Random.

(** [env]: the variable; [file]: the first line of the key file. *)
Definition MasterKey (env file : option bytes) (random : bytes) : bytes * KeySource :=
  let attempt (s : option bytes) (key : bytes) := match s with Some s => parseHex s key | None => (false, key) end in
  let '(ok, key) := attempt env (replicate 32 0%Z) in
  if (ok : bool) then (key, Env)
  else
    let '(ok, key) := attempt file key in
    if (ok : bool) then (key, File) else (random, Random).

Lemma parseHex_getKeyHex k out : wf_bytes k -> length k = 32 -> length out = 32 -> parseHex (getKeyHex k) out = (true, k).
Proof.
  intros Hw Hk Ho. unfold parseHex, getKeyHex. rewrite length_to_hex, Hk. cbn [Nat.eqb Nat.mul Nat.add negb].
  assert (length out = length k) as Hl by lia. clear Hk Ho. revert out Hl.
  induction Hw as [|b k Hb _ IH]; intros [|o out] Hl; try discriminate Hl; [done|].
  destruct (hex_byte_join b Hb) as (H1 & H2 & H3).
  unfold to_hex in *. cbn [map]. rewrite mjoin_cons. cbn [hex_byte app parseHex_loop].
  rewrite !hexNibble_digit by done. rewrite (IH out) by (simpl in Hl; lia). by rewrite H3.
Qed.

(** A key given in the environment or, without one, in the file is the key in use. *)
Lemma master_key_configured k env random :
  wf_bytes k -> length k = 32 ->
  MasterKey (Some (getKeyHex k)) env random = (k, Env) /\ MasterKey None (Some (getKeyHex k)) random = (k, File).
Proof. intros. unfold MasterKey. by rewrite !parseHex_getKeyHex by done. Qed.
