(* ===== verification/AtomicFile.v ===== *)
(** * Replacing a file atomically ([atomicWriteFile] in
    [src/storage/storage.hpp], [milanFsyncDir] in [src/engine/engine.hpp])

    A file system with names, inodes and what of them is on the disk.  After a
    power failure a name is looked up in some version of the directory since its
    last [fsync], and an inode that was not synced holds anything.  The theorem:
    at whatever point the machine stops, the file has its old or its new
    content. *)

From S2P Require Import Prelude.

(** ** The file system *)

Record FS := mkFS {
  dir : gmap bytes nat;             (* names to inodes *)
  versions : list (gmap bytes nat); (* what the directory on the disk may be *)
  content : gmap nat bytes;
  synced : gset nat;                (* the inodes whose content is on the disk *)
  next : nat }.

Inductive call :=
| Create (n : bytes)                (* open for writing, truncated *)
| Write (n s : bytes)
| Fsync (n : bytes)
| Rename (a b : bytes)
| Unlink (n : bytes)
| FsyncDir.

Definition set_dir (d : gmap bytes nat) (s : FS) : FS :=
  mkFS d (versions s ++ [d]) (content s) (synced s) (next s).

(** Unsynced content [x] of inode [i]. *)
Definition set_content (i : nat) (x : bytes) (s : FS) : FS :=
  mkFS (dir s) (versions s) (<[i := x]> (content s)) (synced s ∖ {[i]}) (next s).

Definition exec (s : FS) (c : call) : FS :=
  match c with
  | Create n =>
      match dir s !! n with
      | Some i => set_content i [] s
      | None =>
          let s := set_dir (<[n := next s]> (dir s)) s in
          set_content (next s) [] (mkFS (dir s) (versions s) (content s) (synced s) (S (next s)))
      end
  | Write n x =>
      match dir s !! n with
      | Some i => set_content i (default [] (content s !! i) ++ x) s
      | None => s
      end
  | Fsync n =>
      match dir s !! n with
      | Some i => mkFS (dir s) (versions s) (content s) ({[i]} ∪ synced s) (next s)
      | None => s
      end
  | Rename a b =>
      match dir s !! a with Some i => set_dir (<[b := i]> (delete a (dir s))) s | None => s end
  | Unlink n => set_dir (delete n (dir s)) s
  | FsyncDir => mkFS (dir s) [dir s] (content s) (synced s) (next s)
  end.

Definition run (cs : list call) (s : FS) : FS := fold_left exec cs s.

(** What a process reads. *)
Definition read (s : FS) (n : bytes) : option bytes := dir s !! n ≫= (content s !!.).

(** [d] is a disk that the machine may find when it starts again. *)
Definition after_crash (s : FS) (d : gmap bytes bytes) : Prop :=
  exists D, D ∈ versions s /\
    forall n, match D !! n with
              | None => d !! n = None
              | Some i => i ∈ synced s -> d !! n = content s !! i
              end.

(** ** [atomicWriteFile] *)

(** What the system answers: whether the temporary file can be opened, how much
    of the data is written, whether the file and the directory can be opened for
    [fsync], and whether it can be renamed. *)
Record Env := mkEnv { open_ok : bool; written : nat; fd_ok : bool; rename_ok : bool; dirfd_ok : bool }.

Definition tmp_name (path : bytes) : bytes := path ++ str ".tmp".

Definition milanFsyncDir (v : Env) : list call := if dirfd_ok v then [FsyncDir] else [].

Definition atomicWriteFile (v : Env) (path data : bytes) : list call * result () :=
  let tmp := tmp_name path in
  if negb (open_ok v) then ([], Throw "Kann nicht schreiben")
  else if written v <? length data
  then ([Create tmp; Write tmp (take (written v) data); Unlink tmp], Throw "Schreibfehler (Disk voll?)")
  else
    let sync := if fd_ok v then [Fsync tmp] else [] in
    if negb (rename_ok v)
    then ([Create tmp; Write tmp data] ++ sync ++ [Unlink tmp], Throw "Rename fehlgeschlagen")
    else ([Create tmp; Write tmp data] ++ sync ++ [Rename tmp path] ++ milanFsyncDir v, Ok ()).

(** ** The old content or the new *)

(** No two names have the same inode, new inodes are new, and the directory and
    the file are on the disk. *)
Record settled (s : FS) (path : bytes) : Prop := {
  se_inj n m i : dir s !! n = Some i -> dir s !! m = Some i -> n = m;
  se_next n i : dir s !! n = Some i -> i < next s;
  se_versions : versions s = [dir s];
  se_synced i : dir s !! path = Some i -> i ∈ synced s }.

Lemma tmp_name_ne path : tmp_name path <> path.
Proof. intros E. apply (f_equal length) in E. unfold tmp_name in E. rewrite length_app in E. simpl in E. lia. Qed.

(** What holds while the temporary file is written: the directory on the disk has
    the old file under [path], the temporary file is another inode. *)
Record writing (s0 s : FS) (path : bytes) (i : nat) (x : bytes) : Prop := {
  wr_tmp : dir s !! tmp_name path = Some i;
  wr_path : dir s !! path = dir s0 !! path;
  wr_other : dir s0 !! path <> Some i;
  wr_x : content s !! i = Some x;
  wr_content j : j <> i -> content s !! j = content s0 !! j;
  wr_synced j : j <> i -> (j ∈ synced s <-> j ∈ synced s0);
  wr_versions : Forall (fun D => D !! path = dir s0 !! path) (versions s) }.

Lemma create_writing s path : settled s path -> exists i, writing s (exec s (Create (tmp_name path))) path i [].
Proof.
  intros [Hinj Hnext Hver _]. pose proof (tmp_name_ne path) as Hne. cbn [exec].
  destruct (dir s !! tmp_name path) as [i|] eqn:E.
  - exists i. split; cbn [dir content synced versions set_content]; try done.
    + intros E'. by apply Hne, (Hinj _ _ i).
    + apply lookup_insert_eq.
    + intros j Hj. by rewrite lookup_insert_ne.
    + set_solver.
    + rewrite Hver. by repeat constructor.
  - exists (next s). split; cbn [dir content synced versions set_content set_dir next].
    + apply lookup_insert_eq.
    + by rewrite lookup_insert_ne.
    + intros E'. apply Hnext in E'. lia.
    + apply lookup_insert_eq.
    + intros j Hj. by rewrite lookup_insert_ne.
    + set_solver.
    + rewrite Hver. repeat constructor. by rewrite lookup_insert_ne.
Qed.

Lemma write_writing s0 s path i x y : writing s0 s path i x -> writing s0 (exec s (Write (tmp_name path) y)) path i (x ++ y).
Proof.
  intros [H1 H2 H3 H4 H5 H6 H7]. cbn [exec]. rewrite H1, H4. split; cbn [dir content synced versions set_content default]; try done.
  - apply lookup_insert_eq.
  - intros j Hj. rewrite lookup_insert_ne by done. by apply H5.
  - intros j Hj. rewrite <- H6 by done. set_solver.
Qed.

Lemma fsync_writing s0 s path i x :
  writing s0 s path i x -> writing s0 (exec s (Fsync (tmp_name path))) path i x /\ i ∈ synced (exec s (Fsync (tmp_name path))).
Proof.
  intros [H1 H2 H3 H4 H5 H6 H7]. cbn [exec]. rewrite H1. split; [|cbn; set_solver].
  split; cbn [dir content synced versions]; try done. intros j Hj. rewrite <- H6 by done. set_solver.
Qed.

(** Until the rename a crash leaves the old file. *)
Lemma writing_crash s0 s path i x d :
  settled s0 path -> writing s0 s path i x -> after_crash s d -> d !! path = read s0 path.
Proof.
  intros [_ _ _ Hs] [H1 H2 H3 H4 H5 H6 H7] (D & HD & Hd). rewrite Forall_forall in H7. specialize (H7 D HD).
  specialize (Hd path). rewrite H7 in Hd. unfold read. destruct (dir s0 !! path) as [j|] eqn:E; [|done].
  assert (j <> i) as Hj by congruence. cbn. rewrite <- H5 by done. apply Hd, H6, Hs; done.
Qed.

Lemma unlink_crash s0 s path i x d :
  settled s0 path -> writing s0 s path i x -> after_crash (exec s (Unlink (tmp_name path))) d -> d !! path = read s0 path.
Proof.
  intros Hset Hw (D & HD & Hd). cbn [exec set_dir versions synced content] in *.
  apply elem_of_app in HD as [HD|HD]; [by eapply writing_crash; [done|done|exists D]|].
  apply list_elem_of_singleton in HD as ->. destruct Hw as [H1 H2 H3 H4 H5 H6 H7]. destruct Hset as [_ _ _ Hs].
  specialize (Hd path). rewrite lookup_delete_ne in Hd by apply tmp_name_ne. rewrite H2 in Hd. unfold read.
  destruct (dir s0 !! path) as [j|] eqn:E; [|done]. cbn. rewrite <- H5 by congruence. apply Hd, H6, Hs; congruence.
Qed.

(** After the rename of a synced file a crash leaves the old file or the new one. *)
Lemma rename_crash s0 s path i x d :
  settled s0 path -> writing s0 s path i x -> i ∈ synced s ->
  let s' := exec s (Rename (tmp_name path) path) in
  read s' path = Some x /\
  (after_crash s' d -> d !! path = read s0 path \/ d !! path = Some x) /\
  (after_crash (exec s' FsyncDir) d -> d !! path = Some x).
Proof.
  intros Hset Hw Hi. destruct (id Hw) as [H1 H2 H3 H4 H5 H6 H7]. cbn [exec]. rewrite H1.
  assert (forall D, D = <[path := i]> (delete (tmp_name path) (dir s)) ->
    (forall n, match D !! n with None => d !! n = None | Some j => j ∈ synced s -> d !! n = content s !! j end) ->
    d !! path = Some x) as Hnew.
  { intros D -> Hd. specialize (Hd path). rewrite lookup_insert_eq in Hd. rewrite <- H4. by apply Hd. }
  split_and!.
  - unfold read. cbn [set_dir dir content]. by rewrite lookup_insert_eq.
  - intros (D & HD & Hd). cbn [set_dir versions synced content] in *. apply elem_of_app in HD as [HD|HD].
    + left. eapply writing_crash; [done|done|by exists D].
    + right. apply list_elem_of_singleton in HD. by eapply Hnew.
  - intros (D & HD & Hd). cbn [set_dir dir versions synced content] in *. apply list_elem_of_singleton in HD. by eapply Hnew.
Qed.

(** [C25] [atomicWriteFile] replaces a file whole, provided the temporary file can
    be opened again to be synced.  Stopped at any point - between any two calls,
    with any part of the data written - the file has its old or its new content
    after the restart.  If the function returns, the file has the new content,
    also after a power failure once the directory is synced; if it throws, the
    file is as it was. *)
Theorem atomicWriteFile_atomic v path data s :
  settled s path -> fd_ok v = true ->
  let '(calls, r) := atomicWriteFile v path data in
  (forall k d, after_crash (run (take k calls) s) d -> d !! path = read s path \/ d !! path = Some data) /\
  match r with
  | Ok _ => read (run calls s) path = Some data /\
      (dirfd_ok v = true -> forall d, after_crash (run calls s) d -> d !! path = Some data)
  | Throw _ => read (run calls s) path = read s path
  end.
Proof.
  intros Hset Hfd. set (tmp := tmp_name path).
  assert (forall d, after_crash s d -> d !! path = read s path) as Hstart.
  { intros d (D & HD & Hd). destruct Hset as [_ _ Hv Hs]. rewrite Hv in HD. apply list_elem_of_singleton in HD as ->.
    specialize (Hd path). unfold read. destruct (dir s !! path) as [i|]; [by apply Hd, Hs|done]. }
  destruct (create_writing s path Hset) as [i W1]. fold tmp in W1.
  assert (forall y, writing s (run [Create tmp; Write tmp y] s) path i y) as W2.
  { intros y. apply (write_writing _ _ _ _ [] y W1). }
  assert (forall s1 x, writing s s1 path i x -> read (exec s1 (Unlink tmp)) path = read s path) as Hunlink.
  { intros s1 x [H1 H2 H3 H4 H5 H6 H7]. unfold read. cbn [exec set_dir dir content].
    rewrite lookup_delete_ne by apply tmp_name_ne. rewrite H2. destruct (dir s !! path) as [j|] eqn:E; [|done].
    cbn. apply H5. congruence. }
  unfold atomicWriteFile. fold tmp. rewrite Hfd. destruct (open_ok v); cbn [negb].
  2: { split; [|done]. intros k d Hd. left. apply Hstart. by destruct k. }
  destruct (written v <? length data).
  - pose proof (W2 (take (written v) data)) as W. split; [|exact (Hunlink _ _ W)].
    intros [|[|[|k]]] d Hd; cbn [take run fold_left] in Hd; left.
    + by apply Hstart.
    + exact (writing_crash _ _ _ _ _ _ Hset W1 Hd).
    + exact (writing_crash _ _ _ _ _ _ Hset W Hd).
    + rewrite take_nil in Hd. exact (unlink_crash _ _ _ _ _ _ Hset W Hd).
  - destruct (fsync_writing _ _ _ _ _ (W2 data)) as [W3 Hi]. fold tmp in W3, Hi. destruct (rename_ok v); cbn [negb app].
    + pose proof (fun d => rename_crash s _ path i data d Hset W3 Hi) as Hren. cbv zeta in Hren.
      assert (forall k d, after_crash (run (take k (Create tmp :: Write tmp data :: Fsync tmp :: Rename tmp path :: milanFsyncDir v)) s) d ->
        d !! path = read s path \/ d !! path = Some data) as Hc.
      { intros [|[|[|[|k]]]] d Hd; cbn [take run fold_left] in Hd.
        - left. by apply Hstart.
        - left. exact (writing_crash _ _ _ _ _ _ Hset W1 Hd).
        - left. exact (writing_crash _ _ _ _ _ _ Hset (W2 data) Hd).
        - left. exact (writing_crash _ _ _ _ _ _ Hset W3 Hd).
        - destruct (Hren d) as (_ & R1 & R2). unfold milanFsyncDir in Hd. destruct (dirfd_ok v); [|by rewrite take_nil in Hd; apply R1].
          destruct k as [|k]; [by apply R1|]. cbn [take fold_left] in Hd. rewrite take_nil in Hd. right. by apply R2. }
      split; [exact Hc|]. split.
      * unfold milanFsyncDir. destruct (Hren ∅) as (R0 & _). destruct (dirfd_ok v); exact R0.
      * intros Hdf d Hd. unfold milanFsyncDir in Hd. rewrite Hdf in Hd. by apply (Hren d).
    + split; [|exact (Hunlink _ _ W3)]. intros [|[|[|[|k]]]] d Hd; cbn [take run fold_left] in Hd; left.
      * by apply Hstart.
      * exact (writing_crash _ _ _ _ _ _ Hset W1 Hd).
      * exact (writing_crash _ _ _ _ _ _ Hset (W2 data) Hd).
      * exact (writing_crash _ _ _ _ _ _ Hset W3 Hd).
      * rewrite take_nil in Hd. exact (unlink_crash _ _ _ _ _ _ Hset W3 Hd).
Qed.

(** ** Examples *)

Definition DB_FILE : bytes := str "database.milan".
Definition old_disk : FS :=
  mkFS {[ DB_FILE := 0 ]} [ {[ DB_FILE := 0 ]} ] {[ 0 := str "old" ]} {[ 0 ]} 1.
Definition all_ok : Env := mkEnv true 100 true true true.

Lemma old_disk_settled : settled old_disk DB_FILE.
Proof.
  split; cbn [dir old_disk next versions synced].
  - intros n m i [<- _]%lookup_singleton_Some [<- _]%lookup_singleton_Some. done.
  - intros n i [_ <-]%lookup_singleton_Some. lia.
  - done.
  - intros i [_ <-]%lookup_singleton_Some. set_solver.
Qed.

Lemma atomicWriteFile_atomic_witness :
  read (run (atomicWriteFile all_ok DB_FILE (str "new")).1 old_disk) DB_FILE = Some (str "new") /\
  forall k d, after_crash (run (take k (atomicWriteFile all_ok DB_FILE (str "new")).1) old_disk) d ->
    d !! DB_FILE = Some (str "old") \/ d !! DB_FILE = Some (str "new").
Proof.
  destruct (atomicWriteFile_atomic all_ok DB_FILE (str "new") old_disk old_disk_settled eq_refl) as (H1 & H2 & _).
  split; [exact H2|exact H1].
Defined.

(** If the temporary file cannot be opened again it is renamed unsynced, and
    nothing is reported: a power failure may leave neither content. *)
Lemma unsynced_rename_loses :
  (atomicWriteFile (mkEnv true 100 false true true) DB_FILE (str "new")).2 = Ok () /\
  after_crash (run (atomicWriteFile (mkEnv true 100 false true true) DB_FILE (str "new")).1 old_disk)
    {[ DB_FILE := [] ]}.
Proof.
  split; [done|]. exists (<[DB_FILE := 1]> (delete (tmp_name DB_FILE) (<[tmp_name DB_FILE := 1]> {[ DB_FILE := 0 ]}))).
  split; [apply (list_elem_of_lookup_2 _ 0); vm_compute; reflexivity|]. intros n.
  destruct (decide (n = DB_FILE)) as [->|Hn].
  - rewrite lookup_insert_eq. intros Hs. exfalso. revert Hs. by_decide.
  - rewrite lookup_insert_ne by done. destruct (decide (n = tmp_name DB_FILE)) as [->|Ht].
    + by rewrite lookup_delete_eq, lookup_singleton_ne.
    + rewrite lookup_delete_ne, lookup_insert_ne by done. by rewrite !lookup_singleton_ne.
Qed.
