(* ===== verification/Storage.v ===== *)
(** * The database file ([src/storage/storage.hpp]: [MilanBinaryStorage],
    [atomicWriteFile])

    [save] writes tables, rows, keys, parents and views into one byte string;
    [load] reads it piece by piece and calls the engine for each piece
    ([createTable], [setTableAutoInc], [insertRow], [addForeignKey],
    [registerInheritance], [createView]).

    A writer [w], a reader [r] and a computation [m] form a codec when reading
    what [w] wrote does exactly what [m] does.  Codecs compose, and the file
    format as a whole is the codec of [replay], the sequence of engine calls
    that the saved database stands for. *)

From S2P Require Import Prelude Encryption Index BTree Partition Table Mvcc Locks Wal Transaction Joins Arith Where Select Columns Triggers Mutation Integrity References Catalog.

(** ** Writing *)

Definition writeU8 (v : Z) : bytes := [u8 v].
Definition writeU16 (v : Z) : bytes := [byte_at v 0; byte_at v 8].
Definition writeU32 (v : Z) : bytes := [byte_at v 0; byte_at v 8; byte_at v 16; byte_at v 24].
Definition writeU64 (v : Z) : bytes := map (fun i => byte_at v (i * 8)) (seqZ 0 8).

Definition zlen {A} (l : list A) : Z := Z.of_nat (length l).

Definition writeStrN (s : bytes) : result bytes :=
  if (255 <? zlen s)%Z then Throw "Name zu lang (max 255)" else Ok (writeU8 (zlen s) ++ s).
Definition writeStrV (s : bytes) : result bytes :=
  if (65535 <? zlen s)%Z then Throw "Wert zu lang (max 65535)" else Ok (writeU16 (zlen s) ++ s).

Definition encodeOnDelete (a : bytes) : Z :=
  if bytes_eqb a CASCADE then 1 else if bytes_eqb a SET_NULL then 2 else 0.
Definition decodeOnDelete (v : Z) : bytes :=
  if (v =? 1)%Z then CASCADE else if (v =? 2)%Z then SET_NULL else RESTRICT.
Definition encodeType (t : bytes) : Z := if bytes_eqb t (str "INT") then 0 else 1.
Definition decodeType (t : Z) : bytes := if (t =? 0)%Z then str "INT" else str "TEXT".

(** The low byte collects the bytes at even positions, the high byte the others. *)
Fixpoint checksum_from (i : nat) (cs : Z) (data : bytes) : Z :=
  match data with
  | [] => cs
  | b :: data' => checksum_from (S i) (u16 (Z.lxor cs (if Nat.odd i then Z.shiftl b 8 else b))) data'
  end.
Definition checksum (data : bytes) : Z := checksum_from 0 0 data.

(** One output after the other; nothing reaches the file before the end, so it
    does not matter which of several exceptions is thrown. *)
Definition wapp (a b : result bytes) : result bytes := x ← a; y ← b; Ok (x ++ y).
Infix "+++" := wapp (at level 60, right associativity) : milan_scope.
#[local] Open Scope milan_scope.

Fixpoint write_all {A} (w : A -> result bytes) (l : list A) : result bytes :=
  match l with [] => Ok [] | x :: l' => w x +++ write_all w l' end.

Definition write_if (b : bool) (w : result bytes) : result bytes := if b then w else Ok [].

Definition flag (b : bool) (bit : Z) (f : Z) : Z := if b then Z.lor f bit else f.
Definition flags_of (c : Column) : Z :=
  flag (autoIncrement c) 16 (flag (isPrimaryKey c) 8 (flag (hasDefault c) 4 (flag (isUnique c) 2 (flag (notNull c) 1 0)))).

Definition write_check (cc : CheckConstraint) : result bytes := writeStrN (ck_op cc) +++ writeStrN (ck_val cc).
Definition write_generated (c : Column) : result bytes :=
  Ok (writeU8 (if isGenerated c then 1 else 0)) +++
  write_if (isGenerated c) (writeStrV (generatedExpr c) +++ Ok (writeU8 (if isStored c then 1 else 0))).

Definition write_column (t : Table BTree) (c : Column) : result bytes :=
  writeStrN (c_name c) +++ Ok (writeU8 (encodeType (c_type c))) +++ Ok (writeU8 (flags_of c)) +++
  write_if (hasDefault c) (writeStrV (defaultValue c)) +++
  write_if (autoIncrement c) (Ok (writeU64 (peekAutoInc t (c_name c)))) +++
  Ok (writeU8 (zlen (checks c))) +++ write_all write_check (checks c) +++ write_generated c.

Definition write_row (r : Row) : result bytes := write_all writeStrV (values r).

Definition write_fk (fk : ForeignKeyDef) : result bytes :=
  writeStrN (fromCol fk) +++ writeStrN (refTable fk) +++ writeStrN (refCol fk) +++
  Ok (writeU8 (encodeOnDelete (onDelete fk))).

Definition live_rows (t : Table BTree) : list Row := List.filter alive (rows_ t).

Definition write_table (parent : bytes) (t : Table BTree) : result bytes :=
  writeStrN (name_ t) +++ Ok (writeU8 (zlen (columns_ t))) +++ write_all (write_column t) (columns_ t) +++
  Ok (writeU32 (zlen (live_rows t))) +++ write_all write_row (live_rows t) +++
  Ok (writeU8 (zlen (foreignKeys_ t))) +++ write_all write_fk (foreignKeys_ t) +++ writeStrN parent.

(** ** Reading

    The cursor is kept as the bytes that remain after it.  A computation reads,
    changes the database, and what it did before an exception stays done. *)

Definition R (A : Type) : Type := bytes -> Database -> result A * (bytes * Database).

#[export] Instance R_ret : MRet R := fun A x d db => (Ok x, (d, db)).
#[export] Instance R_bind : MBind R := fun A B f m d db =>
  match m d db with (Ok x, (d', db')) => f x d' db' | (Throw s, r) => (Throw s, r) end.

Definition run {A} (m : D A) : R A := fun d db => let '(r, db') := m db in (r, (d, db')).

(** [checkBounds], then the next [need] bytes. *)
Definition rBytes (need : nat) : R bytes := fun d db =>
  if length d <? need then (Throw "Binary: unerwartetes EOF", (d, db))
  else (Ok (take need d), (drop need d, db)).

(** Byte [i] is shifted by [8 i] and or-ed into the value. *)
Fixpoint or_bytes (k : Z) (l : bytes) : Z :=
  match l with [] => 0 | b :: l' => Z.lor (Z.shiftl b k) (or_bytes (k + 8) l') end.

Definition rInt (n : nat) : R Z := b ← rBytes n; mret (or_bytes 0 b).
Definition rU8 : R Z := rInt 1.
Definition rU16 : R Z := rInt 2.
Definition rU32 : R Z := rInt 4.
Definition rU64 : R Z := rInt 8.

Definition rStrN : R bytes := len ← rU8; rBytes (Z.to_nat len).
Definition rStrV : R bytes := len ← rU16; rBytes (Z.to_nat len).

(** The loops [for (i = 0; i < n; ++i)], collecting values or not. *)
Fixpoint times {A} (n : nat) (r : R A) : R (list A) :=
  match n with O => mret [] | S n' => x ← r; l ← times n' r; mret (x :: l) end.
Fixpoint loop (n : nat) (r : R ()) : R () :=
  match n with O => mret () | S n' => _ ← r; loop n' r end.

Definition rIf {A} (b : bool) (r : R A) (otherwise : A) : R A := if b then r else mret otherwise.

Definition has_flag (flags bit : Z) : bool := negb (Z.land flags bit =? 0)%Z.

Definition rCheck : R CheckConstraint := op ← rStrN; v ← rStrN; mret (mkCheck op v []).

(** Whether the column is generated, its expression, whether it is stored. *)
Definition rGenerated : R (bool * bytes * bool) :=
  g ← rU8;
  if (g =? 0)%Z then mret (false, [], false)
  else e ← rStrV; s ← rU8; mret (true, e, negb (s =? 0)%Z).

(** A column, and its counter or 0. *)
Definition rColumn (version : Z) : R (Column * Z) :=
  cname ← rStrN;
  ctype ← rU8;
  flags ← rU8;
  dflt ← rIf (has_flag flags 4) rStrV [];
  autoInc ← rIf (has_flag flags 16) rU64 0%Z;
  checkCnt ← rU8;
  cks ← times (Z.to_nat checkCnt) rCheck;
  gen ← rIf (8 <=? version)%Z rGenerated (false, [], false);
  mret (mkColumn cname (decodeType ctype) (has_flag flags 1) (has_flag flags 2) (has_flag flags 4) dflt
          (has_flag flags 8) (has_flag flags 16) cks gen.1.1 gen.1.2 gen.2, autoInc).

Definition rForeignKey : R ForeignKeyDef :=
  fc ← rStrN; rt ← rStrN; rc ← rStrN; od ← rU8; mret (mkFK fc rt rc (decodeOnDelete od)).

Definition FORMAT_VERSION : Z := 9.
Definition MAGIC : bytes := str "MILANDB1".

Definition WARNING : string := "Checksumme fehlerhaft".

Section storage.
Context {DB : Double}.
Context (regex_search : bytes -> bytes -> option bool).
Context (evalExprStr : bytes -> list Column -> list bytes -> bytes).
Context (match_against : list bytes -> bytes -> bytes -> list Column -> list bytes -> bool).
Context (formatNum : dbl -> bytes) (dcount : nat -> dbl).
Context (evaluateRlsExpr_ : bytes -> Row -> list bytes -> bool).
Context (evaluateGenExpr : bytes -> list Column -> list bytes -> bytes).
Context (isValidJson : bytes -> bool).
Context (clock : Clock) (thread : Z).

Definition insert (tbl : bytes) (vals : list bytes) : D () :=
  on_engine (insertRow regex_search evaluateRlsExpr_ evaluateGenExpr isValidJson clock thread tbl vals).

(** [selectAll]: the table, or the merged rows of its partitions. *)
Definition selectAll (db : Database) (tbl : bytes) : result (Table BTree) :=
  let key := resolve db tbl in
  match partitionMeta_ (engine db) !! key with
  | Some pi =>
      if p_physical pi
      then selectPartitioned regex_search evalExprStr match_against formatNum dcount (view (engine db)) key pi [] (str "AND")
      else getTable (db_tables db) key
  | None => getTable (db_tables db) key
  end.

(** *** [save] *)

Definition table_names (db : Database) : list bytes := map fst (str_iter (db_tables db)).

Definition write_named (db : Database) (n : bytes) : result bytes :=
  t ← selectAll db n; write_table (tableParentName db n) t.
Definition write_view (v : bytes * bytes) : result bytes := writeStrN v.1 +++ writeStrV v.2.

Definition serializeData (db : Database) : result bytes :=
  Ok (writeU16 (zlen (table_names db))) +++ write_all (write_named db) (table_names db) +++
  Ok (writeU16 (zlen (str_iter (viewSql db)))) +++ write_all write_view (str_iter (viewSql db)).

Definition header (magic : bytes) (version cs : Z) : bytes := magic ++ writeU16 version ++ writeU32 1 ++ writeU16 cs.

Context {G : Gcm}.

Definition save (m : EncryptionManager) (iv : bytes) (db : Database) : result bytes :=
  data ← serializeData db;
  let h := header MAGIC FORMAT_VERSION (checksum data) in
  if enabled_ m then Ok (<[7 := 50%Z]> h ++ encryptStr iv m data) else Ok (h ++ data).

(** *** [load] *)

Definition rRows (tname : bytes) (width : nat) : R () :=
  vals ← times width rStrV; run (insert tname vals).

Definition rTable (version : Z) : R () :=
  tname ← rStrN;
  colCnt ← rU8;
  cols ← times (Z.to_nat colCnt) (rColumn version);
  rowCnt ← rU32;
  _ ← run (createTable tname (map fst cols) [] []);
  _ ← run (each (fun c => if (0 <? c.2)%Z then setTableAutoInc tname (c_name c.1) c.2 else mret ()) cols);
  _ ← loop (Z.to_nat rowCnt) (rRows tname (length cols));
  fkCnt ← rU8;
  _ ← loop (Z.to_nat fkCnt) (fk ← rForeignKey; run (addForeignKey tname fk));
  if (9 <=? version)%Z then
    parent ← rStrN;
    run (if bytes_eqb parent [] then mret () else registerInheritance tname parent)
  else mret ().

Definition rView : R () := n ← rStrN; sql ← rStrV; run (createView n sql).

Definition deserializeData (version : Z) : R Z :=
  tableCount ← rU16;
  _ ← loop (Z.to_nat tableCount) (rTable version);
  viewCount ← rU16;
  _ ← loop (Z.to_nat viewCount) rView;
  mret tableCount.

(** The number of tables, and what is printed on the error stream. *)
Definition loadWithCount (m : EncryptionManager) (file : option bytes) : D (Z * list string) := fun db =>
  match file with
  | None => (Ok (0%Z, []), db)
  | Some buf =>
      if length buf <? 16 then (Throw "Datei zu kurz", db)
      else if negb (bytes_eqb (<[7 := 49%Z]> (take 8 buf)) MAGIC) then (Throw "falscher Magic", db)
      else
        let version := or_bytes 0 (mem_read 8 2 buf) in
        let storedCs := or_bytes 0 (mem_read 14 2 buf) in
        if negb ((version =? FORMAT_VERSION)%Z || (version =? 8)%Z || (version =? 7)%Z)
        then (Throw "Inkompatible Version", db)
        else
          let data := drop 16 buf in
          let data := if (nth 7 buf 0%Z =? 50)%Z && enabled_ m then decryptStr m data else data in
          let warnings := if (checksum data =? storedCs)%Z then [] else [WARNING] in
          let '(r, (_, db)) := deserializeData version data db in
          (n ← r; Ok (n, warnings), db)
  end.

(** ** What a file stands for *)

(** A column, a key and a table's contents as they come back. *)
Definition stored_column (c : Column) : Column :=
  mkColumn (c_name c) (decodeType (encodeType (c_type c))) (notNull c) (isUnique c) (hasDefault c)
    (if hasDefault c then defaultValue c else []) (isPrimaryKey c) (autoIncrement c)
    (map (fun cc => mkCheck (ck_op cc) (ck_val cc) []) (checks c))
    (isGenerated c) (if isGenerated c then generatedExpr c else []) (isGenerated c && isStored c).

Definition stored_fk (fk : ForeignKeyDef) : ForeignKeyDef :=
  mkFK (fromCol fk) (refTable fk) (refCol fk) (decodeOnDelete (encodeOnDelete (onDelete fk))).

Definition replay_table (parent : bytes) (t : Table BTree) : D () :=
  _ ← createTable (name_ t) (map stored_column (columns_ t)) [] [];
  _ ← each (fun c => if autoIncrement c then setTableAutoInc (name_ t) (c_name c) (peekAutoInc t (c_name c)) else mret ())
        (columns_ t);
  _ ← each (fun r => insert (name_ t) (values r)) (live_rows t);
  _ ← each (fun fk => addForeignKey (name_ t) (stored_fk fk)) (foreignKeys_ t);
  if bytes_eqb parent [] then mret () else registerInheritance (name_ t) parent.

(** The engine calls that a saved database stands for. *)
Definition replay (tabs : list (bytes * Table BTree)) (views : list (bytes * bytes)) : D Z :=
  _ ← each (fun pt => replay_table pt.1 pt.2) tabs;
  _ ← each (fun v => createView v.1 v.2) views;
  mret (zlen tabs).

End storage.

(** ** Codecs *)

Lemma D_bind_eq {A B} (m : D A) (k : A -> D B) db :
  (m ≫= k) db = match m db with (Ok x, db') => k x db' | (Throw s, db') => (Throw s, db') end.
Proof. done. Qed.

Lemma R_bind_eq {A B} (r : R A) (k : A -> R B) d db :
  (r ≫= k) d db = match r d db with (Ok x, (d', db')) => k x d' db' | (Throw s, x) => (Throw s, x) end.
Proof. done. Qed.

(** Reading [w] does what [m] does, and leaves what follows it. *)
Definition replays {A} (r : R A) (w : bytes) (m : D A) : Prop := forall rest db,
  match m db with
  | (Ok a, db') => r (w ++ rest) db = (Ok a, (rest, db'))
  | (Throw s, db') => exists rest', r (w ++ rest) db = (Throw s, (rest', db'))
  end.

Definition codec {A} (w : result bytes) (r : R A) (m : D A) : Prop := forall b, w = Ok b -> replays r b m.

Lemma codec_bind {A B} w1 w2 (r1 : R A) (m1 : D A) (r2 : A -> R B) (m2 : A -> D B) :
  codec w1 r1 m1 -> (forall a, codec w2 (r2 a) (m2 a)) -> codec (w1 +++ w2) (r1 ≫= r2) (m1 ≫= m2).
Proof.
  intros H1 H2 b. destruct w1 as [b1|], w2 as [b2|]; cbn [wapp mbind result_bind]; try done. intros [= <-] rest db.
  specialize (H1 b1 eq_refl (b2 ++ rest) db). rewrite D_bind_eq, R_bind_eq, <- app_assoc.
  destruct (m1 db) as [[a|s] db'].
  - rewrite H1. apply (H2 a b2 eq_refl).
  - destruct H1 as [rest' ->]. by exists rest'.
Qed.

Lemma codec_end {A B} w (r : R A) (m : D A) (k : A -> R B) (k' : A -> D B) :
  codec w r m -> (forall a, codec (Ok []) (k a) (k' a)) -> codec w (r ≫= k) (m ≫= k').
Proof.
  intros H1 H2. destruct w as [b|]; [|by intros b']. intros b' E.
  apply (codec_bind (Ok b) (Ok []) r m k k' H1 H2). cbn. by rewrite app_nil_r.
Qed.

Lemma codec_ret {A} (a : A) : codec (Ok []) (mret a) (mret a).
Proof. by intros b [= <-] rest db. Qed.

Lemma codec_read {A B} w1 w2 (r1 : R A) a (r2 : A -> R B) (m : D B) :
  codec w1 r1 (mret a) -> codec w2 (r2 a) m -> codec (w1 +++ w2) (r1 ≫= r2) m.
Proof.
  intros H1 H2 b. destruct w1 as [b1|], w2 as [b2|]; cbn [wapp mbind result_bind]; try done. intros [= <-] rest db.
  specialize (H1 b1 eq_refl (b2 ++ rest) db). cbn in H1. rewrite R_bind_eq, <- app_assoc, H1.
  apply (H2 b2 eq_refl).
Qed.

Lemma codec_last {A B} w (r : R A) a (k : A -> R B) (m : D B) :
  codec w r (mret a) -> codec (Ok []) (k a) m -> codec w (r ≫= k) m.
Proof.
  intros H1 H2 b -> rest db. specialize (H1 b eq_refl rest db). cbn in H1. rewrite R_bind_eq, H1.
  apply (H2 [] eq_refl).
Qed.

Lemma codec_run {A} (m : D A) : codec (Ok []) (run m) m.
Proof. intros b [= <-] rest db. unfold run. destruct (m db) as [[a|s] db']; [done|by eexists]. Qed.

Lemma codec_do {A B} w (m : D A) (k : A -> R B) (k' : A -> D B) :
  (forall a, codec w (k a) (k' a)) -> codec w (run m ≫= k) (m ≫= k').
Proof.
  intros H b -> rest db. rewrite D_bind_eq, R_bind_eq. unfold run. destruct (m db) as [[a|s] db']; [|by eexists].
  apply (H a b eq_refl).
Qed.

Lemma codec_if {A} b w (r : R A) x d :
  (b = true -> codec w r (mret x)) -> codec (write_if b w) (rIf b r d) (mret (if b then x else d)).
Proof. destruct b; cbn [write_if rIf]; [by intros H; apply H|]. intros _. apply codec_ret. Qed.

Lemma codec_list {A B} (w : A -> result bytes) (r : R B) (f : A -> B) l :
  (forall x, x ∈ l -> codec (w x) r (mret (f x))) -> codec (write_all w l) (times (length l) r) (mret (map f l)).
Proof.
  induction l as [|x l IH]; intros H; cbn [write_all times length map]; [apply codec_ret|].
  apply (codec_read _ _ _ (f x)); [apply H; set_solver|]. apply (codec_last _ _ (map f l)); [|apply codec_ret].
  apply IH. set_solver.
Qed.

Lemma codec_each {A} (w : A -> result bytes) (r : R ()) (f : A -> D ()) l :
  (forall x, x ∈ l -> codec (w x) r (f x)) -> codec (write_all w l) (loop (length l) r) (each f l).
Proof.
  induction l as [|x l IH]; intros H; cbn [write_all loop length each]; [apply codec_ret|].
  apply codec_bind; [apply H; set_solver|]. intros _. apply IH. set_solver.
Qed.

(** *** Numbers and strings *)

Lemma or_bytes_val k l : wf_bytes l -> (0 <= k)%Z -> or_bytes k l = (le_val l * 2 ^ k)%Z.
Proof.
  intros Hw. revert k. induction Hw as [|b l Hb _ IH]; intros k Hk; [done|]. cbn [or_bytes le_val].
  rewrite IH by lia. rewrite Z.shiftl_mul_pow2 by lia. rewrite Z.pow_add_r by lia. change (2 ^ 8)%Z with 256%Z.
  rewrite Z.mul_add_distr_r. unfold wf_byte in Hb.
  replace (le_val l * (2 ^ k * 256))%Z with (Z.shiftl (le_val l * 256) k) by (rewrite Z.shiftl_mul_pow2 by lia; lia).
  replace (256 * le_val l * 2 ^ k)%Z with (Z.shiftl (le_val l * 256) k) by (rewrite Z.shiftl_mul_pow2 by lia; lia).
  rewrite <- (Z.shiftl_mul_pow2 b k) by lia. rewrite <- Z.shiftl_lor.
  rewrite <- (Z.shiftl_mul_pow2 (le_val l) 8) at 1 by lia. rewrite lor_shiftl_add by lia.
  rewrite !Z.shiftl_mul_pow2 by lia. lia.
Qed.

Lemma byte_at_le v n i : (0 <= v)%Z ->
  map (fun i => byte_at v (i * 8)) (seqZ i (Z.of_nat n)) = le_bytes n (v / 2 ^ (i * 8)) \/ (i < 0)%Z.
Proof.
  intros Hv. revert i. induction n as [|n IH]; intros i; [by left|]. destruct (Z_lt_le_dec i 0); [by right|left].
  rewrite seqZ_cons by lia. cbn [map le_bytes]. rewrite byte_at_div by lia. f_equal.
  replace (Z.pred (Z.of_nat (S n))) with (Z.of_nat n) by lia. destruct (IH (Z.succ i)) as [->|]; [|lia]. f_equal.
  replace (Z.succ i * 8)%Z with (i * 8 + 8)%Z by lia.
  rewrite Z.pow_add_r, Z.div_div by lia. done.
Qed.

Lemma write_le v n :
  (0 <= v)%Z -> map (fun i => byte_at v (i * 8)) (seqZ 0 (Z.of_nat n)) = le_bytes n v.
Proof. intros Hv. destruct (byte_at_le v n 0 Hv) as [->|]; [|lia]. by rewrite Z.div_1_r. Qed.

Lemma writeU8_le v : (0 <= v)%Z -> writeU8 v = le_bytes 1 v.
Proof. done. Qed.
Lemma writeU16_le v : (0 <= v)%Z -> writeU16 v = le_bytes 2 v.
Proof. apply (write_le v 2). Qed.
Lemma writeU32_le v : (0 <= v)%Z -> writeU32 v = le_bytes 4 v.
Proof. apply (write_le v 4). Qed.
Lemma writeU64_le v : (0 <= v)%Z -> writeU64 v = le_bytes 8 v.
Proof. apply (write_le v 8). Qed.

Lemma codec_bytes s : codec (Ok s) (rBytes (length s)) (mret s).
Proof.
  intros b [= <-] rest db. cbn. unfold rBytes.
  rewrite (proj2 (Nat.ltb_ge _ _)) by (rewrite length_app; lia). by rewrite take_app_length, drop_app_length.
Qed.

Lemma codec_le n v : (0 <= v < 2 ^ (8 * Z.of_nat n))%Z -> codec (Ok (le_bytes n v)) (rInt n) (mret v).
Proof.
  intros Hv. apply (codec_last _ _ (le_bytes n v)).
  - pose proof (codec_bytes (le_bytes n v)) as H. by rewrite length_le_bytes in H.
  - rewrite or_bytes_val by (try apply wf_le_bytes; lia). rewrite le_val_bytes_id, Z.mul_1_r by done. apply codec_ret.
Qed.

Lemma codec_u8 v : (0 <= v < 256)%Z -> codec (Ok (writeU8 v)) rU8 (mret v).
Proof. intros. rewrite writeU8_le by lia. by apply (codec_le 1). Qed.
Lemma codec_u16 v : (0 <= v < 65536)%Z -> codec (Ok (writeU16 v)) rU16 (mret v).
Proof. intros. rewrite writeU16_le by lia. by apply (codec_le 2). Qed.
Lemma codec_u32 v : (0 <= v < 2 ^ 32)%Z -> codec (Ok (writeU32 v)) rU32 (mret v).
Proof. intros. rewrite writeU32_le by lia. by apply (codec_le 4). Qed.
Lemma codec_u64 v : (0 <= v < 2 ^ 64)%Z -> codec (Ok (writeU64 v)) rU64 (mret v).
Proof. intros. rewrite writeU64_le by lia. by apply (codec_le 8). Qed.

Lemma codec_len {A} (l : list A) w (s : bytes) (r : R Z) :
  length l = length s -> codec (Ok w) r (mret (zlen l)) -> codec (Ok (w ++ s)) (len ← r; rBytes (Z.to_nat len)) (mret s).
Proof.
  intros Hl Hw. change (Ok (w ++ s)) with (Ok w +++ Ok s). apply (codec_read _ _ _ (zlen l)); [done|].
  unfold zlen. rewrite Nat2Z.id, Hl. apply codec_bytes.
Qed.

Lemma codec_strN s : codec (writeStrN s) rStrN (mret s).
Proof.
  unfold writeStrN. destruct (Z.ltb_spec 255 (zlen s)); [by intros b|]. apply (codec_len s); [done|].
  apply codec_u8. unfold zlen in *. lia.
Qed.
Lemma codec_strV s : codec (writeStrV s) rStrV (mret s).
Proof.
  unfold writeStrV. destruct (Z.ltb_spec 65535 (zlen s)); [by intros b|]. apply (codec_len s); [done|].
  apply codec_u16. unfold zlen in *. lia.
Qed.

(** *** Columns, keys and tables *)

Definition below (n : Z) {A} (l : list A) : Prop := (zlen l < n)%Z.
#[export] Instance below_dec n {A} (l : list A) : Decision (below n l).
Proof. unfold below. apply _. Defined.

(** The counts fit their fields.  The lengths of names and values are checked by
    the writers, these are not. *)
Record fits (t : Table BTree) : Prop := {
  fits_columns : below 256 (columns_ t);
  fits_checks : Forall (fun c => below 256 (checks c)) (columns_ t);
  fits_rows : below (2 ^ 32) (live_rows t);
  fits_width : Forall (fun r => length (values r) = length (columns_ t)) (live_rows t);
  fits_fks : below 256 (foreignKeys_ t);
  fits_counters : map_Forall (fun _ v => (v < 2 ^ 64)%Z) (autoIncMap_ t) }.

Lemma zlen_below {A} (l : list A) n : below n l -> (0 <= zlen l < n)%Z.
Proof. unfold below, zlen. lia. Qed.

Lemma zlen_nat {A} (l : list A) : Z.to_nat (zlen l) = length l.
Proof. unfold zlen. lia. Qed.

Create HintDb codec.
#[local] Hint Resolve codec_strN codec_strV codec_ret : codec.

Lemma flags_back c :
  let f := flags_of c in
  has_flag f 1 = notNull c /\ has_flag f 2 = isUnique c /\ has_flag f 4 = hasDefault c /\
  has_flag f 8 = isPrimaryKey c /\ has_flag f 16 = autoIncrement c /\ (0 <= f < 256)%Z.
Proof.
  unfold flags_of. destruct (notNull c), (isUnique c), (hasDefault c), (isPrimaryKey c), (autoIncrement c);
    split_and!; by vm_compute.
Qed.

Lemma encodeType_range t : (0 <= encodeType t < 256)%Z.
Proof. unfold encodeType. case_if; lia. Qed.
Lemma encodeOnDelete_range a : (0 <= encodeOnDelete a < 256)%Z.
Proof. unfold encodeOnDelete. case_if; [lia|]. case_if; lia. Qed.

Lemma codec_check cc : codec (write_check cc) rCheck (mret (mkCheck (ck_op cc) (ck_val cc) [])).
Proof. eapply codec_read; [eauto with codec|]. eapply codec_last; eauto with codec. Qed.

Lemma codec_bool b : codec (Ok (writeU8 (if b : bool then 1 else 0))) rU8 (mret (if b then 1 else 0)%Z).
Proof. destruct b; by apply codec_u8. Qed.

Lemma codec_generated c :
  codec (write_generated c) rGenerated
    (mret (isGenerated c, if isGenerated c then generatedExpr c else [], isGenerated c && isStored c)).
Proof.
  unfold write_generated. eapply codec_read; [apply codec_bool|]. destruct (isGenerated c); cbn [write_if]; [|apply codec_ret].
  eapply codec_read; [eauto with codec|]. eapply codec_last; [apply codec_bool|]. destruct (isStored c); apply codec_ret.
Qed.

Lemma peekAutoInc_range t n : map_Forall (fun _ v => (v < 2 ^ 64)%Z) (autoIncMap_ t) -> (0 < peekAutoInc (tree := BTree) t n < 2 ^ 64)%Z.
Proof.
  intros H. unfold peekAutoInc. destruct (autoIncMap_ t !! n) as [v|] eqn:E; [|done]. apply H in E.
  destruct (Z.ltb_spec 0 v); lia.
Qed.

Lemma codec_column t c :
  map_Forall (fun _ v => (v < 2 ^ 64)%Z) (autoIncMap_ t) -> below 256 (checks c) ->
  codec (write_column t c) (rColumn FORMAT_VERSION)
    (mret (stored_column c, if autoIncrement c then peekAutoInc t (c_name c) else 0%Z)).
Proof.
  intros Ha Hc. unfold write_column, rColumn. destruct (flags_back c) as (F1 & F2 & F4 & F8 & F16 & FR).
  eapply codec_read; [eauto with codec|]. eapply codec_read; [apply codec_u8, encodeType_range|].
  eapply codec_read; [by apply codec_u8|]. rewrite F1, F2, F4, F8, F16.
  eapply codec_read; [by apply codec_if; intros; apply codec_strV|].
  pose proof (peekAutoInc_range t (c_name c) Ha).
  eapply codec_read; [apply codec_if; intros; apply codec_u64; lia|].
  eapply codec_read; [by apply codec_u8, zlen_below|].
  eapply codec_read; [rewrite zlen_nat; apply codec_list; intros; apply codec_check|].
  eapply codec_last; [apply codec_generated|]. apply codec_ret.
Qed.

Lemma codec_fk fk : codec (write_fk fk) rForeignKey (mret (stored_fk fk)).
Proof.
  do 3 (eapply codec_read; [eauto with codec|]).
  eapply codec_last; [apply codec_u8, encodeOnDelete_range|]. apply codec_ret.
Qed.

Lemma codec_view v : codec (write_view v) rView (createView v.1 v.2).
Proof. eapply codec_read; [eauto with codec|]. eapply codec_last; [eauto with codec|]. apply codec_run. Qed.

Lemma each_map {A B} (g : A -> B) (f : B -> D ()) l : each f (map g l) = each (fun x => f (g x)) l.
Proof. induction l as [|x l IH]; [done|]. cbn [map each]. by rewrite IH. Qed.

Lemma each_ext {A} (f g : A -> D ()) l : (forall x, x ∈ l -> f x = g x) -> each f l = each g l.
Proof. induction l as [|x l IH]; intros H; [done|]. cbn [each]. rewrite (H x), IH; set_solver. Qed.

Section format.
Context {DB : Double}.
Context (regex_search : bytes -> bytes -> option bool).
Context (evalExprStr : bytes -> list Column -> list bytes -> bytes).
Context (match_against : list bytes -> bytes -> bytes -> list Column -> list bytes -> bool).
Context (formatNum : dbl -> bytes) (dcount : nat -> dbl).
Context (evaluateRlsExpr_ : bytes -> Row -> list bytes -> bool).
Context (evaluateGenExpr : bytes -> list Column -> list bytes -> bytes).
Context (isValidJson : bytes -> bool).
Context (clock : Clock) (thread : Z).
Abbreviation insert := (insert regex_search evaluateRlsExpr_ evaluateGenExpr isValidJson clock thread).
Abbreviation rRows := (rRows regex_search evaluateRlsExpr_ evaluateGenExpr isValidJson clock thread).
Abbreviation rTable := (rTable regex_search evaluateRlsExpr_ evaluateGenExpr isValidJson clock thread).
Abbreviation replay_table := (replay_table regex_search evaluateRlsExpr_ evaluateGenExpr isValidJson clock thread).
Abbreviation replay := (replay regex_search evaluateRlsExpr_ evaluateGenExpr isValidJson clock thread).
Abbreviation deserializeData := (deserializeData regex_search evaluateRlsExpr_ evaluateGenExpr isValidJson clock thread).
Abbreviation selectAll := (selectAll regex_search evalExprStr match_against formatNum dcount).
Abbreviation serializeData := (serializeData regex_search evalExprStr match_against formatNum dcount).

Lemma codec_row tname r : codec (write_row r) (rRows tname (length (values r))) (insert tname (values r)).
Proof.
  unfold write_row, Storage.rRows.
  eapply (codec_last _ _ (map id (values r))); [apply codec_list; eauto with codec|]. rewrite map_id. apply codec_run.
Qed.

Lemma codec_table parent t : fits t -> codec (write_table parent t) (rTable FORMAT_VERSION) (replay_table parent t).
Proof.
  intros [Hcols Hchk Hrows Hw Hfks Hctr]. unfold write_table, Storage.rTable, Storage.replay_table.
  eapply codec_read; [eauto with codec|]. eapply codec_read; [by apply codec_u8, zlen_below|].
  eapply codec_read.
  { rewrite zlen_nat. apply codec_list. intros c Hc. rewrite Forall_forall in Hchk.
    apply codec_column; [done|by apply Hchk]. }
  eapply codec_read; [by apply codec_u32, zlen_below|].
  rewrite map_map, length_map. cbn [fst]. rewrite (map_ext _ stored_column) by done.
  apply codec_do. intros _.
  rewrite (each_map _ (fun c => if (0 <? c.2)%Z then _ else _)).
  erewrite (each_ext _ (fun c => if autoIncrement c then setTableAutoInc _ _ _ else mret ())).
  2: { intros c _. cbn [fst snd]. pose proof (peekAutoInc_range t (c_name c) Hctr). destruct (autoIncrement c); [|done].
       destruct (Z.ltb_spec 0 (peekAutoInc t (c_name c))); [done|lia]. }
  apply codec_do. intros _.
  apply codec_bind.
  { rewrite zlen_nat. apply codec_each. intros r Hr. rewrite Forall_forall in Hw.
    rewrite <- (Hw r Hr). apply codec_row. }
  intros _. eapply codec_read; [by apply codec_u8, zlen_below|].
  apply codec_bind.
  { rewrite zlen_nat. apply codec_each. intros fk _. eapply codec_last; [apply codec_fk|]. apply codec_run. }
  intros _. change (9 <=? FORMAT_VERSION)%Z with true. cbv iota. eapply codec_last; [eauto with codec|]. apply codec_run.
Qed.

(** The tables that a save writes, with the names of their parents. *)
Definition saved_tables (db : Database) : result (list (bytes * Table BTree)) :=
  mapM (fun n => t ← selectAll db n; Ok (tableParentName db n, t)) (table_names db).

Lemma codec_tables db ns tabs :
  mapM (fun n => t ← selectAll db n; Ok (tableParentName db n, t)) ns = Ok tabs -> Forall (fun pt => fits pt.2) tabs ->
  codec (write_all (write_named regex_search evalExprStr match_against formatNum dcount db) ns)
    (loop (length ns) (rTable FORMAT_VERSION)) (each (fun pt => replay_table pt.1 pt.2) tabs).
Proof.
  revert tabs. induction ns as [|n ns IH]; intros tabs Hm Hf; cbn [write_all loop length].
  { injection Hm as <-. apply codec_ret. }
  cbn in Hm. unfold write_named at 1. destruct (selectAll db n) as [t|] eqn:E; [|done]. cbn in Hm.
  destruct (mapM _ ns) as [tabs'|] eqn:E'; [|done]. injection Hm as <-. apply Forall_cons in Hf as [Ht Hf].
  cbn [each fst snd]. apply codec_bind; [by apply codec_table|]. intros _. by apply IH.
Qed.

Lemma length_mapM {A B} (f : A -> result B) l l' : mapM f l = Ok l' -> length l' = length l.
Proof.
  revert l'. induction l as [|x l IH]; cbn; intros l'; [by intros [= <-]|]. destruct (f x); [|done]. cbn.
  destruct (mapM f l) eqn:E; [|done]. cbn. intros [= <-]. cbn. by rewrite (IH a0).
Qed.

Lemma codec_database db tabs :
  saved_tables db = Ok tabs -> Forall (fun pt => fits pt.2) tabs -> below 65536 tabs -> below 65536 (str_iter (viewSql db)) ->
  codec (serializeData db) (deserializeData FORMAT_VERSION) (replay tabs (str_iter (viewSql db))).
Proof.
  intros Hs Hf Ht Hv. unfold Storage.serializeData, Storage.deserializeData, Storage.replay.
  pose proof (length_mapM _ _ _ Hs) as Hl. replace (zlen (table_names db)) with (zlen tabs) by (unfold zlen; by rewrite Hl).
  eapply codec_read; [by apply codec_u16, zlen_below|].
  rewrite zlen_nat, Hl. apply codec_bind; [by apply codec_tables|]. intros _.
  eapply codec_read; [by apply codec_u16, zlen_below|]. rewrite zlen_nat.
  apply codec_end; [|intros _; apply codec_ret]. apply codec_each. intros v _. apply codec_view.
Qed.

End format.

(** *** The header *)

Lemma checksum_from_range i cs data : (0 <= cs < 65536)%Z -> (0 <= checksum_from i cs data < 65536)%Z.
Proof.
  revert i cs. induction data as [|b data IH]; intros i cs H; [done|]. cbn [checksum_from]. apply IH.
  unfold u16. apply Z.mod_pos_bound. lia.
Qed.

Lemma or_bytes_le n v : (0 <= v < 2 ^ (8 * Z.of_nat n))%Z -> or_bytes 0 (le_bytes n v) = v.
Proof. intros. rewrite or_bytes_val by (try apply wf_le_bytes; lia). rewrite le_val_bytes_id by done. lia. Qed.

Lemma wapp_nonempty a w d : a <> [] -> Ok a +++ w = Ok d -> d <> [].
Proof. intros Ha. unfold wapp. destruct w; [|done]. cbn. intros [= <-]. by destruct a. Qed.

Section file.
Context {DB : Double} {G : Gcm}.
Context (regex_search : bytes -> bytes -> option bool).
Context (evalExprStr : bytes -> list Column -> list bytes -> bytes).
Context (match_against : list bytes -> bytes -> bytes -> list Column -> list bytes -> bool).
Context (formatNum : dbl -> bytes) (dcount : nat -> dbl).
Context (evaluateRlsExpr_ : bytes -> Row -> list bytes -> bool).
Context (evaluateGenExpr : bytes -> list Column -> list bytes -> bytes).
Context (isValidJson : bytes -> bool).
Context (clock : Clock) (thread : Z).
Abbreviation replay := (replay regex_search evaluateRlsExpr_ evaluateGenExpr isValidJson clock thread).
Abbreviation deserializeData := (deserializeData regex_search evaluateRlsExpr_ evaluateGenExpr isValidJson clock thread).
Abbreviation loadWithCount := (loadWithCount regex_search evaluateRlsExpr_ evaluateGenExpr isValidJson clock thread).
Abbreviation save := (save regex_search evalExprStr match_against formatNum dcount).
Abbreviation saved_tables := (saved_tables regex_search evalExprStr match_against formatNum dcount).

(** A file with a good header and data that decrypts to [data] is read as [data]. *)
Lemma load_header m c body data db :
  (c =? 50)%Z && enabled_ m = (c =? 50)%Z -> c = 49%Z \/ c = 50%Z ->
  (if (c =? 50)%Z then decryptStr m body else body) = data ->
  loadWithCount m (Some (<[7 := c]> (header MAGIC FORMAT_VERSION (checksum data)) ++ body)) db =
  let '(r, (_, db')) := deserializeData FORMAT_VERSION data db in (n ← r; Ok (n, []), db').
Proof.
  intros Hm Hc Hd. unfold Storage.loadWithCount. set (h := <[7 := c]> _).
  assert (length h = 16) as Hl by done.
  rewrite (proj2 (Nat.ltb_ge _ _)) by (rewrite length_app; lia).
  assert (take 8 (h ++ body) = <[7 := c]> MAGIC) as -> by (rewrite take_app_le by lia; done).
  assert (nth 7 (h ++ body) 0%Z = c) as -> by done.
  assert (bytes_eqb (<[7 := 49%Z]> (<[7 := c]> MAGIC)) MAGIC = true) as -> by done.
  assert (mem_read 8 2 (h ++ body) = le_bytes 2 FORMAT_VERSION) as -> by done.
  assert (mem_read 14 2 (h ++ body) = le_bytes 2 (checksum data)) as ->.
  { rewrite <- writeU16_le by (apply (checksum_from_range 0 0); lia). done. }
  rewrite !or_bytes_le by (try (apply (checksum_from_range 0 0 data); lia); done).
  rewrite (drop_app_length' h) by done. cbn [negb orb Z.eqb FORMAT_VERSION Pos.eqb].
  rewrite Hm, Hd, Z.eqb_refl. done.
Qed.

(** *)
Theorem load_replays_save m iv db tabs file db0 :
  save m iv db = Ok file -> saved_tables db = Ok tabs -> Forall (fun pt => fits pt.2) tabs ->
  below 65536 tabs -> below 65536 (str_iter (viewSql db)) -> length iv = 12 ->
  loadWithCount m (Some file) db0 =
  let '(r, db1) := replay tabs (str_iter (viewSql db)) db0 in (n ← r; Ok (n, []), db1).
Proof.
  intros Hs Ht Hf Hn Hv Hiv. unfold Storage.save in Hs.
  destruct (serializeData _ _ _ _ _ db) as [data|] eqn:E; [|done]. cbn [mbind result_bind] in Hs.
  assert (loadWithCount m (Some file) db0 =
    let '(r, (_, db')) := deserializeData FORMAT_VERSION data db0 in (n ← r; Ok (n, []), db')) as ->.
  { destruct (enabled_ m) eqn:Em; injection Hs as <-.
    - apply load_header; [by rewrite Em|by right|]. apply decrypt_encrypt; [done|].
      by eapply wapp_nonempty; [|exact E].
    - refine (load_header m 49%Z data data db0 _ _ _); [by rewrite Em|by left|done]. }
  pose proof (codec_database regex_search evalExprStr match_against formatNum dcount evaluateRlsExpr_ evaluateGenExpr
    isValidJson clock thread db tabs Ht Hf Hn Hv data E [] db0) as H. rewrite app_nil_r in H.
  destruct (replay tabs (str_iter (viewSql db)) db0) as [[n|s] db1].
  - by rewrite H.
  - by destruct H as [rest ->].
Qed.

End file.

(** ** The database comes back *)

Definition fresh (r : Row) : Row := row_of (values r).

(** The counters that are read back. *)
Definition counters (t : Table BTree) : gmap bytes Z :=
  fold_left (fun m c => if autoIncrement c then <[c_name c := peekAutoInc t (c_name c)]> m else m) (columns_ t) ∅.

Definition restored (t : Table BTree) : Table BTree :=
  mkTable (name_ t) (columns_ t) (map fresh (live_rows t)) ∅ (counters t) (foreignKeys_ t) no_partitions.

Lemma put_put n t t' db : put n t' (put n t db) = put n t' db.
Proof.
  unfold put, set_engine, db_tables. cbn [engine with_engine]. rewrite tables_with_tables, insert_insert_eq. done.
Qed.

Lemma lookup_put n t db : db_tables (put n t db) !! n = Some t.
Proof. apply lookup_insert_eq. Qed.

Lemma resolve_dotted db n : DOT ∈ n -> resolve db n = n.
Proof. intros H. unfold resolve, resolveTableName. by rewrite bool_decide_eq_true_2. Qed.

Lemma each_put {A} (f : A -> D ()) (g : A -> Table BTree -> Table BTree) n l t db :
  (forall l1 x l2, l = l1 ++ x :: l2 ->
     let t1 := fold_left (fun t x => g x t) l1 t in f x (put n t1 db) = (Ok (), put n (g x t1) db)) ->
  each f l (put n t db) = (Ok (), put n (fold_left (fun t x => g x t) l t) db).
Proof.
  revert t. induction l as [|x l IH]; intros t H; [done|]. cbn [each fold_left]. rewrite D_bind_eq.
  pose proof (H [] x l eq_refl) as Hx. cbv zeta in Hx. cbn [fold_left] in Hx. rewrite Hx. apply IH. intros l1 y l2 ->. apply (H (x :: l1) y l2). done.
Qed.

Section load.
Context {DB : Double}.
Context (regex_search : bytes -> bytes -> option bool).
Context (evaluateRlsExpr_ : bytes -> Row -> list bytes -> bool).
Context (evaluateGenExpr : bytes -> list Column -> list bytes -> bytes).
Context (isValidJson : bytes -> bool).
Context (clock : Clock) (thread : Z).
Abbreviation insert := (insert regex_search evaluateRlsExpr_ evaluateGenExpr isValidJson clock thread).
Abbreviation insertRow := (insertRow regex_search evaluateRlsExpr_ evaluateGenExpr isValidJson clock thread).
Abbreviation replay_table := (replay_table regex_search evaluateRlsExpr_ evaluateGenExpr isValidJson clock thread).

(** The engine of a process that loads its database: no triggers and no
    partitions, the user root, nothing locked, no transaction. *)
Record ready (e : Mutation.Engine) : Prop := {
  r_quiet : quiet e;
  r_root : currentUser_ e = ROOT;
  r_locks : tableLocks_ (locks_ (core e)) = ∅;
  r_tx : active (tx (core e)) = false }.

(** The row goes through an INSERT as it is. *)
Record storable_row (t : Table BTree) (vs : list bytes) : Prop := {
  s_text : Forall (fun v => v <> [] /\ unquote v = v) vs;
  s_counted : forall i c v, columns_ t !! i = Some c -> vs !! i = Some v -> autoIncrement c = true ->
    v <> NULL /\ forall x, stoull v = Some x -> (u64 (x + 1) <= peekAutoInc t (c_name c))%Z;
  s_generated : applyGeneratedCols evaluateGenExpr 0 (columns_ t) (columns_ t) vs = vs;
  s_checked : row_checked regex_search (columns_ t) vs;
  s_json : checkJsonColumns isValidJson (columns_ t) vs = Ok () }.

Lemma M_bind_eq {A B} (m : M A) (k : A -> M B) e :
  (m ≫= k) e = match m e with (Ok x, e') => k x e' | (Throw s, e') => (Throw s, e') end.
Proof. done. Qed.

Lemma put_table_same n t e : tables e !! n = Some t -> with_tables (<[n := t]> (tables e)) e = e.
Proof. intros H. rewrite insert_id by done. apply with_tables_id. Qed.

(** An INSERT that nothing stands against returns. *)
Lemma insertRow_returns e n t vs t' :
  ready e -> DOT ∈ n -> tables e !! n = Some t -> foreignKeys_ t = [] ->
  applyDefaults clock (columns_ t) vs = vs -> map unquote vs = vs -> applyAutoInc (columns_ t) vs t = (vs, t) ->
  applyGeneratedCols evaluateGenExpr 0 (columns_ t) (columns_ t) vs = vs -> row_checked regex_search (columns_ t) vs ->
  checkJsonColumns isValidJson (columns_ t) vs = Ok () -> insert_row t (row_of vs) = Ok t' ->
  insertRow n vs e = (Ok (), with_tables (<[n := t']> (tables e)) e).
Proof.
  intros [Hq Hr Hl Ht] Hd Hn Hfk Hdef Hunq Hauto Hgen Hck Hjs Hins. unfold Mutation.insertRow, resolved.
  rewrite M_bind_eq. cbn [gets]. unfold resolveTableName. rewrite bool_decide_eq_true_2 by done.
  assert (checkPrivilege INSERT n e = (Ok (), e)) as Hp.
  { unfold checkPrivilege. rewrite M_bind_eq. cbn [gets]. unfold bytes_eqb. by rewrite Hr. }
  rewrite M_bind_eq, Hp, M_bind_eq.
  assert (checkWriteAllowed thread n e = (Ok (), e)) as ->.
  { unfold checkWriteAllowed, Locks.checkWriteAllowed. rewrite M_bind_eq. cbn [gets]. by rewrite Hl, lookup_empty. }
  rewrite M_bind_eq. assert (get_table n e = (Ok t, e)) as Hg by (unfold get_table; by rewrite Hn). rewrite Hg.
  rewrite Hdef, Hunq, M_bind_eq. unfold auto_increment. rewrite M_bind_eq, Hg, Hauto, M_bind_eq.
  cbn [put_table modify]. rewrite put_table_same by done. unfold mret at 1, M_ret at 1. rewrite Hgen, M_bind_eq.
  assert (checkInsertFK n vs e = (Ok (), e)) as ->.
  { unfold checkInsertFK. rewrite M_bind_eq, Hg, M_bind_eq. cbn [gets id lift]. by rewrite Hfk. }
  rewrite M_bind_eq. unfold lift at 1. rewrite (proj2 (checkAllConstraints_ok _ _ _) Hck).
  rewrite M_bind_eq. unfold lift at 1. rewrite Hjs.
  rewrite M_bind_eq. unfold gets at 1. rewrite M_bind_eq.
  assert (checkRlsWithCheck_ evaluateRlsExpr_ e n (row_of vs) INSERT = true) as ->.
  { unfold checkRlsWithCheck_, rls_exempt. cbn [view Select.currentUser_]. rewrite Hr.
    by destruct (negb _). }
  unfold ensure at 1. unfold mret at 1, M_ret at 1. rewrite M_bind_eq.
  assert (before clock INSERT n vs [] e = (Ok vs, e)) as ->.
  { unfold before. by rewrite M_bind_eq, fire_quiet by apply Hq. }
  rewrite M_bind_eq. unfold in_tx, gets at 1. rewrite Ht.
  rewrite M_bind_eq. unfold gets at 1. assert (route e n t vs = None) as ->.
  { unfold route. assert (partitionMeta_ e = ∅) as -> by apply Hq. by rewrite lookup_empty. }
  rewrite M_bind_eq. unfold insert_into. rewrite M_bind_eq, Hg, M_bind_eq. unfold lift. rewrite Hins.
  unfold Mutation.put_table, modify. unfold after. rewrite M_bind_eq, fire_quiet by apply Hq. done.
Qed.

Lemma applyDefaults_full cs vs :
  length vs = length cs -> Forall (fun v => v <> []) vs -> applyDefaults clock cs vs = vs.
Proof.
  intros Hl Hf. revert cs Hl. induction Hf as [|v vs Hv _ IH]; intros [|c cs] Hl; try done. cbn [applyDefaults].
  unfold bytes_eqb. rewrite bool_decide_eq_false_2 by done. rewrite IH by (simpl in Hl; lia). done.
Qed.

(** The counters stand above every stored number, so they do not move. *)
Lemma applyAutoInc_same (t T : Table BTree) cs vs :
  (forall i c v, cs !! i = Some c -> vs !! i = Some v -> autoIncrement c = true ->
    v <> NULL /\ forall x, stoull v = Some x -> (u64 (x + 1) <= peekAutoInc t (c_name c))%Z) ->
  Forall (fun v => v <> []) vs ->
  (forall c, c ∈ cs -> autoIncrement c = true -> autoIncMap_ T !! c_name c = Some (peekAutoInc t (c_name c))) ->
  applyAutoInc cs vs T = (vs, T).
Proof.
  intros H Hne Hm. revert vs H Hne. induction cs as [|c cs IH]; intros [|v vs] H Hne; try done. cbn [applyAutoInc].
  apply Forall_cons in Hne as [Hv Hne].
  assert (applyAutoInc cs vs T = (vs, T)) as E.
  { apply IH; [set_solver|intros i; apply (H (S i))|done]. }
  destruct (autoIncrement c) eqn:Ec; cbn [negb]; [|by rewrite E].
  destruct (H 0 c v eq_refl eq_refl Ec) as [Hn Hx].
  assert (is_null v = false) as ->.
  { unfold is_null, bytes_eqb. by rewrite !bool_decide_eq_false_2. }
  destruct (stoull v) as [x|]; [|by rewrite E].
  assert (updateAutoIncBase (c_name c) (u64 (x + 1)) T = T) as ->; [|by rewrite E].
  specialize (Hx x eq_refl). unfold updateAutoIncBase. rewrite (Hm c) by set_solver. cbn [default].
  rewrite (proj2 (Z.ltb_ge _ _)) by done. rewrite insert_id by (apply Hm; set_solver). by destruct T.
Qed.

(** A table that comes back as it was: the invariants of a table, no column or
    key that the format changes, no row that INSERT changes. *)
Record storable_table (t : Table BTree) : Prop := {
  st_wide : wide t;
  st_constraints : constraints t;
  st_columns : Forall (fun c => stored_column c = c) (columns_ t);
  st_fks : Forall (fun fk => stored_fk fk = fk) (foreignKeys_ t);
  st_rows : Forall (fun r => storable_row t (values r)) (live_rows t) }.

Lemma rows_fit_fresh cs rs : rows_fit cs rs -> rows_fit cs (map fresh rs).
Proof.
  intros [Hf Hc]. split.
  - apply Forall_map. eapply Forall_impl; [exact Hf|]. by intros r [Hr _].
  - intros i c Hi. destruct (Hc i c Hi) as [Hn Hu]. split.
    + intros Hnn a r Ha. apply list_lookup_fmap_Some in Ha as (r0 & -> & Ha). exact (Hn Hnn a r0 Ha).
    + intros Huq a b r r' v Ha Hb Hab _ _ Hv Hv'.
      apply list_lookup_fmap_Some in Ha as (r0 & -> & Ha). apply list_lookup_fmap_Some in Hb as (r1 & -> & Hb).
      rewrite Forall_forall in Hf.
      apply (Hu Huq a b r0 r1 v); try done; apply Hf; by eapply list_elem_of_lookup_2.
Qed.

Lemma counters_lookup t c : c ∈ columns_ t -> autoIncrement c = true ->
  counters t !! c_name c = Some (peekAutoInc t (c_name c)).
Proof.
  unfold counters.
  assert (forall cs (m : gmap bytes Z), (c ∈ cs \/ m !! c_name c = Some (peekAutoInc t (c_name c))) ->
    autoIncrement c = true ->
    fold_left (fun m c => if autoIncrement c then <[c_name c := peekAutoInc t (c_name c)]> m else m) cs m !! c_name c =
    Some (peekAutoInc t (c_name c))) as H; [|intros; apply H; auto].
  induction cs as [|c' cs IH]; intros m Hc Ha; cbn [fold_left]; [destruct Hc as [Hc|]; [by apply elem_of_nil in Hc|done]|].
  apply IH; [|done]. destruct Hc as [[->|Hc]%elem_of_cons|Hm]; [|by left|]; right.
  - rewrite Ha. apply lookup_insert_eq.
  - destruct (autoIncrement c'); [|done]. destruct (decide (c_name c' = c_name c)) as [->|Hne].
    + apply lookup_insert_eq.
    + by rewrite lookup_insert_ne.
Qed.

Lemma peek_restored t c : c ∈ columns_ t -> autoIncrement c = true ->
  (0 < peekAutoInc t (c_name c))%Z /\ peekAutoInc (restored t) (c_name c) = peekAutoInc t (c_name c).
Proof.
  intros Hc Ha. assert (0 < peekAutoInc t (c_name c))%Z as Hp.
  { unfold peekAutoInc. destruct (autoIncMap_ t !! _) as [v|]; [|done]. destruct (Z.ltb_spec 0 v); lia. }
  split; [done|]. unfold peekAutoInc at 1. cbn [restored autoIncMap_]. rewrite counters_lookup by done.
  by rewrite (proj2 (Z.ltb_lt _ _)).
Qed.

Lemma on_table_put n f t db : DOT ∈ n -> on_table n f (put n t db) = (Ok (), put n (f t) db).
Proof. intros Hd. unfold on_table. rewrite resolve_dotted, lookup_put by done. by rewrite put_put. Qed.

(** The table while its rows are read. *)
Definition loading (t : Table BTree) (rs : list Row) : Table BTree :=
  mkTable (name_ t) (columns_ t) (map fresh rs) ∅ (counters t) [] no_partitions.

Lemma insert_loading t rs r rest db :
  ready (engine db) -> DOT ∈ name_ t -> storable_table t -> live_rows t = rs ++ r :: rest ->
  insert (name_ t) (values r) (put (name_ t) (loading t rs) db) = (Ok (), put (name_ t) (loading t (rs ++ [r])) db).
Proof.
  intros Hr Hd [Hw Hc _ _ Hrows] Hl.
  assert (storable_row t (values r)) as Hrow by (rewrite Forall_forall in Hrows; apply Hrows; rewrite Hl; set_solver).
  pose proof (live_rows_fit t (fun _ => true) Hw Hc) as Hfit.
  rewrite (List.filter_ext _ alive) in Hfit by (intros; apply andb_true_r).
  fold (live_rows t) in Hfit. rewrite Hl in Hfit.
  assert (length (values r) = length (columns_ t)) as Hlen.
  { destruct Hfit as [Hf _]. rewrite Forall_forall in Hf. apply (Hf r). set_solver. }
  assert (rows_fit (columns_ t) (map fresh rs ++ [fresh r])) as Hfit'.
  { apply rows_fit_fresh in Hfit. rewrite map_app in Hfit. cbn [map] in Hfit.
    eapply rows_fit_sublist; [|exact Hfit]. apply sublist_app; [done|]. apply sublist_skip, sublist_nil_l. }
  destruct (rows_fit_insert (loading t rs) (fresh r) Hfit') as (t' & Hi & _ & _).
  assert (t' = loading t (rs ++ [r])) as ->.
  { apply insert_row_ok in Hi as (_ & _ & ->). unfold loading. cbn. rewrite map_app, fmap_empty. done. }
  destruct (id Hrow) as [Htxt Hcnt _ _ _].
  assert (Forall (fun v => v <> []) (values r)) as Hne by (eapply Forall_impl; [exact Htxt|by intros v [? _]]).
  unfold Storage.insert, on_engine.
  rewrite (insertRow_returns (engine (put (name_ t) (loading t rs) db)) (name_ t) (loading t rs) (values r) (loading t (rs ++ [r]))).
  - f_equal. symmetry. exact (eq_sym (put_put (name_ t) (loading t rs) (loading t (rs ++ [r])) db)).
  - destruct Hr. by split.
  - done.
  - apply lookup_insert_eq.
  - done.
  - by apply applyDefaults_full.
  - rewrite <- (map_id (values r)) at 2. apply map_ext_Forall. by eapply Forall_impl; [exact Htxt|intros v [_ ?]].
  - eapply (applyAutoInc_same t); [exact Hcnt|done|]. intros c Hc1 Hc2. by apply counters_lookup.
  - apply Hrow.
  - apply Hrow.
  - apply Hrow.
  - done.
Qed.

(** What a parent's name adds. *)
Definition add_parent (parent n : bytes) (db : Database) : Database :=
  if bytes_eqb parent [] then db else (registerInheritance n parent db).2.

Definition load_row (r : Row) (u : Table BTree) : Table BTree :=
  mkTable (name_ u) (columns_ u) (rows_ u ++ [fresh r]) ∅ (autoIncMap_ u) [] no_partitions.

Lemma fold_loading t rs rs0 :
  fold_left (fun u r => load_row r u) rs (loading t rs0) =
  loading t (rs0 ++ rs).
Proof.
  revert rs0. induction rs as [|r rs IH]; intros rs0; cbn [fold_left]; [by rewrite app_nil_r|].
  assert (load_row r (loading t rs0) = loading t (rs0 ++ [r])) as -> by (unfold load_row, loading; cbn; by rewrite map_app).
  by rewrite IH, <- app_assoc.
Qed.

Lemma fold_fks t fks :
  fold_left (fun u fk => push_fk fk u) fks t =
  mkTable (name_ t) (columns_ t) (rows_ t) (indices_ t) (autoIncMap_ t) (foreignKeys_ t ++ fks) (partitionInfo_ t).
Proof.
  revert t. induction fks as [|fk fks IH]; intros t; cbn [fold_left]; [rewrite app_nil_r; by destruct t|].
  rewrite IH. cbn. by rewrite <- app_assoc.
Qed.

Definition load_counter (t : Table BTree) (c : Column) (u : Table BTree) : Table BTree :=
  if autoIncrement c then with_autoInc u (<[c_name c := peekAutoInc t (c_name c)]> (autoIncMap_ u)) else u.

Lemma fold_counters (t u : Table BTree) cs :
  fold_left (fun u c => load_counter t c u) cs u =
  with_autoInc u (fold_left (fun m c => if autoIncrement c then <[c_name c := peekAutoInc t (c_name c)]> m else m) cs (autoIncMap_ u)).
Proof.
  revert u. induction cs as [|c cs IH]; intros u; cbn [fold_left]; [by destruct u|]. rewrite IH. unfold load_counter. by destruct (autoIncrement c).
Qed.

(** A table is loaded as it was saved. *)
Lemma replay_table_restores parent t db :
  ready (engine db) -> DOT ∈ name_ t -> db_tables db !! name_ t = None -> storable_table t ->
  replay_table parent t db = (Ok (), add_parent parent (name_ t) (put (name_ t) (restored t) db)).
Proof.
  intros Hr Hd Hn Hst. set (n := name_ t) in *. destruct (id Hst) as [_ _ Hcols Hfks _].
  unfold Storage.replay_table. rewrite D_bind_eq. fold n.
  assert (map stored_column (columns_ t) = columns_ t) as ->.
  { rewrite <- (map_id (columns_ t)) at 2. by apply map_ext_Forall. }
  assert (createTable n (columns_ t) [] [] db = (Ok (), put n (table n (columns_ t)) db)) as ->.
  { unfold createTable. by rewrite resolve_dotted, Hn. }
  rewrite D_bind_eq, (each_put _ (load_counter t)).
  2: { intros l1 c l2 _. cbv zeta. unfold load_counter at 2. destruct (autoIncrement c); [|done]. by apply on_table_put. }
  rewrite fold_counters. change (with_autoInc _ _) with (loading t []).
  rewrite D_bind_eq, (each_put _ load_row).
  2: { intros l1 r l2 E. cbv zeta. rewrite fold_loading. cbn [app]. rewrite (insert_loading t l1 r l2) by done.
       unfold load_row, loading. cbn. by rewrite map_app. }
  rewrite fold_loading, D_bind_eq, (each_put _ (fun fk u => push_fk fk u)).
  2: { intros l1 fk l2 E. cbv zeta. assert (stored_fk fk = fk) as ->.
       { rewrite Forall_forall in Hfks. apply Hfks. rewrite E. set_solver. }
       by apply on_table_put. }
  rewrite fold_fks. change (mkTable _ _ _ _ _ _ _) with (restored t). unfold add_parent. by destruct (bytes_eqb parent []).
Qed.

(** *** All tables and views *)

Lemma ready_put n t db : ready (engine db) -> ready (engine (put n t db)).
Proof. intros []. by split. Qed.

Lemma ready_parent p n db : ready (engine db) -> ready (engine (add_parent p n db)).
Proof. intros Hr. unfold add_parent. case_if; [done|]. destruct Hr. by split. Qed.

Lemma tables_parent p n db : db_tables (add_parent p n db) = db_tables db.
Proof. unfold add_parent. by case_if. Qed.
Lemma viewSql_parent p n db : viewSql (add_parent p n db) = viewSql db.
Proof. unfold add_parent. by case_if. Qed.

Lemma parent_parent p n db c :
  DOT ∈ n -> (p = [] \/ DOT ∈ p) ->
  tableParent_ (add_parent p n db) !! c =
  if bool_decide (c = n /\ p <> []) then Some p else tableParent_ db !! c.
Proof.
  intros Hn Hp. unfold add_parent, bytes_eqb. case_bool_decide as E.
  { rewrite bool_decide_eq_false_2; [done|]. by intros [_ ?]. }
  destruct Hp as [|Hp]; [done|]. unfold registerInheritance. cbv zeta. rewrite !resolve_dotted by done. unfold set_parent. cbn [snd tableParent_].
  case_bool_decide as E'.
  - destruct E' as [-> _]. apply lookup_insert_eq.
  - rewrite lookup_insert_ne; [done|]. intros <-. by apply E'.
Qed.

(** [c] is among the children of [p]. *)
Definition child_of (db : Database) (p c : bytes) : Prop := c ∈ children_of db p.

Lemma child_parent p n db q c :
  DOT ∈ n -> (p = [] \/ DOT ∈ p) ->
  child_of (add_parent p n db) q c <-> (c = n /\ q = p /\ p <> []) \/ child_of db q c.
Proof.
  intros Hn Hp. unfold add_parent, bytes_eqb. case_bool_decide as E; [naive_solver|].
  destruct Hp as [|Hp]; [done|]. unfold registerInheritance, child_of. cbv zeta. rewrite !resolve_dotted by done.
  unfold set_parent, children_of. cbn [snd engine tableChildren_ with_children]. destruct (decide (p = q)) as [<-|Hne].
  - rewrite lookup_insert_eq. cbn [default]. case_bool_decide; set_solver.
  - rewrite lookup_insert_ne by done. naive_solver.
Qed.

(** After the tables [l], whose parents are [P], have been loaded. *)
Record tables_loaded (P : bytes -> bytes) (l : list (bytes * Table BTree)) (db db' : Database) : Prop := {
  tl_ready : ready (engine db');
  tl_tables : db_tables db' = list_to_map (prod_map id restored <$> l) ∪ db_tables db;
  tl_views : viewSql db' = viewSql db;
  tl_parents c : tableParent_ db' !! c =
    if bool_decide (c ∈ l.*1 /\ P c <> []) then Some (P c) else tableParent_ db !! c;
  tl_children q c : child_of db' q c <-> (c ∈ l.*1 /\ q = P c /\ P c <> []) \/ child_of db q c }.

Definition loadable (P : bytes -> bytes) (nt : bytes * Table BTree) : Prop :=
  DOT ∈ nt.1 /\ name_ nt.2 = nt.1 /\ storable_table nt.2 /\ (P nt.1 = [] \/ DOT ∈ P nt.1).

Lemma each_tables P l db :
  ready (engine db) -> NoDup l.*1 -> Forall (loadable P) l -> Forall (fun nt => db_tables db !! nt.1 = None) l ->
  exists db', each (fun pt => replay_table pt.1 pt.2) (map (fun nt => (P nt.1, nt.2)) l) db = (Ok (), db') /\
    tables_loaded P l db db'.
Proof.
  revert db. induction l as [|[n t] l IH]; intros db Hr Hnd Hl Hnone; cbn [map each].
  { exists db. split; [done|]. split; try done.
    - cbn. by rewrite map_empty_union.
    - intros q c. split; [by right|]. intros [[?%elem_of_nil _]|]; done. }
  apply Forall_cons in Hl as [(Hd & En & Hst & Hp) Hl]. apply Forall_cons in Hnone as [Hn Hnone]. cbn [fst snd] in *.
  apply NoDup_cons in Hnd as [Hnin Hnd]. subst n. set (n := name_ t) in *.
  rewrite D_bind_eq, replay_table_restores by done. set (db1 := add_parent (P n) n (put n (restored t) db)).
  destruct (IH db1) as (db' & E & [H1 H2 H3 H4 H5]); try done.
  { by apply ready_parent, ready_put. }
  { rewrite Forall_forall in Hnone |- *. intros x Hx. unfold db1. rewrite tables_parent. unfold put, set_engine, db_tables.
    cbn [engine with_engine]. rewrite tables_with_tables, lookup_insert_ne; [by apply Hnone|].
    intros E. apply Hnin. rewrite E. apply list_elem_of_fmap; by exists x. }
  exists db'. split; [done|]. split; [done|..].
  - rewrite H2. unfold db1. rewrite tables_parent. cbn [fmap list_fmap list_to_map prod_map fst snd id foldr].
    unfold put, set_engine, db_tables. cbn [engine with_engine]. rewrite tables_with_tables, <- insert_union_r; [by rewrite insert_union_l|].
    apply not_elem_of_list_to_map_1. rewrite <- list_fmap_compose. by rewrite (list_fmap_ext _ fst).
  - rewrite H3. unfold db1. by rewrite viewSql_parent.
  - intros c. rewrite H4. unfold db1. rewrite parent_parent by done. cbn [put tableParent_ with_engine].
    repeat case_bool_decide; set_solver.
  - intros q c. rewrite H5. unfold db1. rewrite child_parent by done.
    change (child_of (put n (restored t) db) q c) with (child_of db q c). set_solver.
Qed.

End load.

Lemma each_views (l : list (bytes * bytes)) db :
  NoDup l.*1 -> Forall (fun v => viewSql db !! v.1 = None /\ db_tables db !! v.1 = None) l ->
  exists db', each (fun v => createView v.1 v.2) l db = (Ok (), db') /\
    viewSql db' = list_to_map l ∪ viewSql db /\ db_tables db' = db_tables db /\
    tableParent_ db' = tableParent_ db /\ tableChildren_ (engine db') = tableChildren_ (engine db) /\
    views_ (engine db') = list_to_set l.*1 ∪ views_ (engine db).
Proof.
  revert db. induction l as [|[v q] l IH]; intros db Hnd Hl; cbn [each].
  { exists db. split_and!; try done; [cbn; by rewrite map_empty_union|]. cbn. set_solver. }
  apply NoDup_cons in Hnd as [Hnin Hnd]. apply Forall_cons in Hl as [[Hv Ht] Hl]. cbn [fst snd] in *.
  rewrite D_bind_eq. unfold createView. rewrite Hv, Ht, !bool_decide_eq_false_2 by by apply is_Some_None.
  destruct (IH (mkDatabase (with_views ({[v]} ∪ views_ (engine db)) (engine db)) (tableParent_ db) (<[v := q]> (viewSql db))))
    as (db' & E & H1 & H2 & H3 & H4 & H5); [done| |].
  { rewrite Forall_forall in Hl |- *. intros x Hx. cbn [viewSql]. destruct (Hl x Hx). split; [|done].
    rewrite lookup_insert_ne; [done|]. intros ->. apply Hnin. by apply list_elem_of_fmap_2. }
  exists db'. split_and!; try done.
  - rewrite H1. cbn [viewSql list_to_map foldr fst snd]. rewrite <- insert_union_r; [by rewrite insert_union_l|].
    by apply not_elem_of_list_to_map_1.
  - rewrite H5. cbn. set_solver.
Qed.


Section restore.
Context {DB : Double} {G : Gcm}.
Context (regex_search : bytes -> bytes -> option bool).
Context (evalExprStr : bytes -> list Column -> list bytes -> bytes).
Context (match_against : list bytes -> bytes -> bytes -> list Column -> list bytes -> bool).
Context (formatNum : dbl -> bytes) (dcount : nat -> dbl).
Context (evaluateRlsExpr_ : bytes -> Row -> list bytes -> bool).
Context (evaluateGenExpr : bytes -> list Column -> list bytes -> bytes).
Context (isValidJson : bytes -> bool).
Context (clock : Clock) (thread : Z).

Abbreviation storable_table := (storable_table regex_search evaluateGenExpr isValidJson).
Abbreviation saved_tables := (saved_tables regex_search evalExprStr match_against formatNum dcount).

(** A database whose every part comes back. *)
Record storable (db : Database) : Prop := {
  sd_partitions : partitionMeta_ (engine db) = ∅;
  sd_tables : map_Forall (fun n t => DOT ∈ n /\ name_ t = n /\ storable_table t /\ fits t) (db_tables db);
  sd_parents : map_Forall (fun c p => is_Some (db_tables db !! c) /\ DOT ∈ p) (tableParent_ db);
  sd_views : map_Forall (fun v _ => db_tables db !! v = None) (viewSql db);
  sd_size : (Z.of_nat (size (db_tables db)) < 65536)%Z /\ (Z.of_nat (size (viewSql db)) < 65536)%Z }.

(** A process that has loaded nothing yet. *)
Record blank (db : Database) : Prop := {
  bl_ready : ready (engine db);
  bl_tables : db_tables db = ∅;
  bl_views : viewSql db = ∅;
  bl_parents : tableParent_ db = ∅;
  bl_children : tableChildren_ (engine db) = ∅ }.

Lemma saved_tables_storable db :
  storable db ->
  saved_tables db = Ok (map (fun nt => (tableParentName db nt.1, nt.2)) (str_iter (db_tables db))).
Proof.
  intros [Hp Ht _ _ _]. unfold Storage.saved_tables, table_names.
  assert (Forall (fun nt => db_tables db !! nt.1 = Some nt.2 /\ DOT ∈ nt.1) (str_iter (db_tables db))) as Hf.
  { apply Forall_forall. intros [n t] Hin. apply elem_of_map_iter in Hin. split; [done|]. by apply (Ht n t). }
  induction Hf as [|[n t] l [Hn Hd] _ IH]; [done|]. cbn [map fst snd mapM] in *.
  assert (selectAll regex_search evalExprStr match_against formatNum dcount db n = Ok t) as ->.
  { unfold selectAll. rewrite resolve_dotted, Hp, lookup_empty by done. unfold getTable. by rewrite Hn. }
  cbn [mbind result_bind]. by rewrite IH.
Qed.

Lemma list_to_map_str_iter {A} (m : gmap bytes A) : list_to_map (str_iter m) = m.
Proof.
  rewrite <- (list_to_map_to_list m) at 2.
  apply list_to_map_proper; [apply NoDup_fst_map_iter|apply map_iter_perm].
Qed.

Lemma list_to_map_iter {A B} (f : A -> B) (m : gmap bytes A) :
  list_to_map (prod_map id f <$> str_iter m) = f <$> m.
Proof. by rewrite list_to_map_fmap, list_to_map_str_iter. Qed.

(** [C3] A database of which the file keeps everything comes back from it.  Saved
    and loaded again by a process that has loaded nothing yet, every table is there
    with its columns, its live rows in their order, its keys and the AUTO_INCREMENT
    counters of its columns; so are the views, and the maps of parents and
    children.  Indices are not in the file.  [storable] says what the file keeps:
    no partitions; columns of type INT or TEXT without a CHECK by IN list; ON DELETE actions
    the format has a code for; values
    that are not empty, not put between quotes and pass an INSERT as they are
    (checks, generated columns, JSON, no NULL in an AUTO_INCREMENT column), in
    tables that satisfy their constraints; names qualified by a schema, no view
    with the name of a table, sizes within the fields of the format.  Each
    exclusion has its counterexample below: [reload_changes_texts],
    [reload_numbers_null], [reload_refuses_in_list], [reload_forgets_types],
    [reload_doubles_partitions]. *)
Theorem load_restores_save m iv db file db0 :
  storable db -> blank db0 -> length iv = 12 ->
  save regex_search evalExprStr match_against formatNum dcount m iv db = Ok file ->
  exists db1,
    loadWithCount regex_search evaluateRlsExpr_ evaluateGenExpr isValidJson clock thread m (Some file) db0 =
      (Ok (Z.of_nat (size (db_tables db)), []), db1) /\
    db_tables db1 = restored <$> db_tables db /\
    viewSql db1 = viewSql db /\
    tableParent_ db1 = tableParent_ db /\
    (forall p c, child_of db1 p c <-> tableParent_ db !! c = Some p).
Proof.
  intros Hst [Hr Hb1 Hb2 Hb3 Hb4] Hiv Hs. pose proof (saved_tables_storable db Hst) as Hsv.
  destruct Hst as [Hpm Ht Hpa Hvw [Hs1 Hs2]].
  assert (forall nt, nt ∈ str_iter (db_tables db) -> db_tables db !! nt.1 = Some nt.2) as Hin.
  { intros [n t] H. by apply elem_of_map_iter in H. }
  rewrite (load_replays_save regex_search evalExprStr match_against formatNum dcount evaluateRlsExpr_ evaluateGenExpr
    isValidJson clock thread m iv db _ file db0 Hs Hsv); try done.
  2: { apply Forall_map, Forall_forall. intros nt H. apply Hin in H. by apply (Ht nt.1 nt.2). }
  2, 3: unfold below, zlen; rewrite ?length_map, length_map_iter; done.
  destruct (each_tables regex_search evaluateRlsExpr_ evaluateGenExpr isValidJson clock thread (tableParentName db)
    (str_iter (db_tables db)) db0 Hr) as (db1 & E & [_ H2 H3 H4 H5]).
  { apply NoDup_fst_map_iter. }
  { apply Forall_forall. intros nt H. apply Hin in H. destruct (Ht nt.1 nt.2 H) as (Hd & En & Hs' & _).
    split_and!; [done..|]. unfold tableParentName. rewrite resolve_dotted by done.
    destruct (tableParent_ db !! nt.1) as [p|] eqn:Ep; [right|by left]. by apply (Hpa nt.1 p). }
  { apply Forall_forall. intros nt _. by rewrite Hb1. }
  destruct (each_views (str_iter (viewSql db)) db1) as (db2 & E' & V1 & V2 & V3 & V4 & _).
  { apply NoDup_fst_map_iter. }
  { apply Forall_forall. intros [v q] H. apply elem_of_map_iter in H. rewrite H3, H2, Hb1, Hb2, list_to_map_iter.
    split; [done|]. rewrite map_union_empty, lookup_fmap. cbn [fst]. by rewrite (Hvw v q H). }
  exists db2. unfold replay. rewrite D_bind_eq, E, D_bind_eq, E'. cbn [mret D_ret mbind result_bind].
  unfold zlen. rewrite length_map, length_map_iter.
  rewrite list_to_map_iter, Hb1, map_union_empty in H2.
  assert (tableParent_ db1 = tableParent_ db) as Hpar.
  { apply map_eq. intros c. rewrite H4, Hb3, lookup_empty. unfold tableParentName.
    destruct (tableParent_ db !! c) as [p|] eqn:Ep.
    - destruct (Hpa c p Ep) as [[t Hc] Hp]. destruct (Ht c t Hc) as [Hd _].
      rewrite resolve_dotted, Ep by done. change (default [] (Some p)) with p. rewrite bool_decide_eq_true_2; [done|]. split.
      + apply list_elem_of_fmap. exists (c, t). split; [done|]. by apply elem_of_map_iter.
      + intros ->. by apply elem_of_nil in Hp.
    - rewrite bool_decide_eq_false_2; [done|]. intros [Hc Hne]. apply list_elem_of_fmap in Hc as ([c' t] & -> & Hc).
      apply Hin in Hc. cbn [fst] in *. destruct (Ht c' t Hc) as [Hd _]. by rewrite resolve_dotted, Ep in Hne. }
  split_and!; [done|by rewrite V2|rewrite V1, H3, Hb2, map_union_empty|by rewrite V3|].
  - apply list_to_map_str_iter.
  - intros p c. unfold child_of, children_of. rewrite V4. fold (children_of db1 p). fold (child_of db1 p c). rewrite H5. unfold child_of, children_of. rewrite Hb4, lookup_empty.
    rewrite <- Hpar, H4, Hb3, lookup_empty. case_bool_decide as Hc; split; intros H.
    + destruct H as [(_ & -> & _)|H]; [done|by apply elem_of_nil in H].
    + injection H as <-. left. by destruct Hc.
    + destruct H as [(? & ? & ?)|H]; [exfalso; by apply Hc|by apply elem_of_nil in H].
    + done.
Qed.

End restore.

(** ** Examples *)

Section examples.
#[local] Existing Instance IntDouble.

Definition st_p : list Column :=
  [ mkColumn (str "id") (str "INT") true true false [] true true [] false [] false;
    mkColumn (str "qty") (str "INT") false false true (str "7") false false [check_positive] false [] false ].
Definition st_c : list Column := [ mkColumn (str "pid") (str "INT") false false false [] false false [] false [] false ].

(** Two tables, a deleted row, a key, a parent and a view. *)
Definition st_tables : gmap bytes (Table BTree) :=
  {[ str "public.p" :=
       mkTable (str "public.p") st_p
         [mkRow [str "1"; str "5"] 1 0; mkRow [str "2"; str "6"] 1 4; mkRow [str "3"; str "NULL"] 2 0] ∅
         {[ str "id" := 9%Z ]} [] no_partitions;
     str "public.c" :=
       mkTable (str "public.c") st_c [mkRow [str "1"] 3 0] ∅ ∅
         [mkFK (str "pid") (str "p") (str "id") (str "CASCADE")] no_partitions ]}.

Definition st_db : Database :=
  mkDatabase (Integrity.engine st_tables ∅ ∅) {[ str "public.c" := str "public.p" ]}
    {[ str "v" := str "SELECT * FROM p" ]}.
Definition st_blank : Database := mkDatabase (Integrity.engine ∅ ∅ ∅) ∅ ∅.

Abbreviation ex_save := (save (G := toy_gcm) no_regex no_func no_match print int_count).
Abbreviation ex_load := (loadWithCount (G := toy_gcm) no_regex (fun _ _ _ => true) no_gen (fun _ => true) ex_clock 1).
Abbreviation off := Encryption.disable.

Definition ok_or {A} (d : A) (r : result A) : A := match r with Ok a => a | Throw _ => d end.
Definition st_file : bytes := ok_or [] (ex_save off [] st_db).
Definition st_iv : bytes := replicate 12 7%Z.

Lemma blank_start : blank st_blank.
Proof. by repeat split. Qed.

Ltac small :=
  repeat match goal with
  | H : (_ :: _) !! ?i = Some _ |- _ => tryif is_var i then destruct i else idtac; cbn in H; simplify_eq
  | H : [] !! _ = Some _ |- _ => by rewrite lookup_nil in H
  end.

Ltac row_proof :=
  split; [by_decide| |vm_compute; reflexivity|by apply checkAllConstraints_ok|vm_compute; reflexivity];
  intros i c v Hi Hv Ha; cbn in Hi, Hv; unfold st_p, st_c in Hi; small; try discriminate Ha;
  (split; [by_decide|intros x Hx; vm_compute in Hx; injection Hx as <-; by vm_compute]).

Ltac column_proof :=
  split; [intros Hn a r Ha; cbn in Ha; try discriminate Hn; small; by_decide|];
  intros Hu a b r r' v Ha Hb Hab Hr Hr' Hv Hv'; try discriminate Hu; cbn in Ha, Hb; small; cbn in *; simplify_eq; done.

Lemma st_storable : storable no_regex no_gen (fun _ => true) st_db.
Proof.
  split; [done| |apply map_Forall_singleton; split; [by eexists|by_decide]|by apply map_Forall_singleton|by vm_compute].
  apply map_Forall_insert_2; [|apply map_Forall_singleton].
  - split_and!; [by_decide|done| |split; try by_decide; by apply map_Forall_singleton].
    split; [by_decide| |by repeat constructor|by repeat constructor|].
    + intros i c Hi. cbn in Hi. unfold st_p, st_c in Hi. small; column_proof.
    + repeat apply Forall_cons_2; [row_proof|row_proof|apply Forall_nil_2].
  - split_and!; [by_decide|done| |split; try by_decide; apply map_Forall_empty].
    split; [by_decide| |by repeat constructor|by repeat constructor|].
    + intros i c Hi. cbn in Hi. unfold st_p, st_c in Hi. small; column_proof.
    + repeat apply Forall_cons_2; [row_proof|apply Forall_nil_2].
Qed.

Lemma load_restores_save_witness :
  exists db1, ex_load off (Some st_file) st_blank = (Ok (2%Z, []), db1) /\ db_tables db1 = restored <$> st_tables.
Proof.
  destruct (load_restores_save no_regex no_func no_match print int_count (fun _ _ _ => true) no_gen (fun _ => true)
    ex_clock 1 off st_iv st_db st_file st_blank) as (db1 & H1 & H2 & _).
  - exact st_storable.
  - exact blank_start.
  - done.
  - vm_compute. reflexivity.
  - exists db1. split; [|exact H2]. rewrite H1. f_equal.
Defined.

(** ** What does not come back *)

(** The values of table [t] after a save and a load, or the exception. *)
Definition one_table (cs : list Column) (autoInc : gmap bytes Z) (rows : list (list bytes)) : Database :=
  mkDatabase
    (Integrity.engine {[ str "public.t" := mkTable (str "public.t") cs (map row_of rows) ∅ autoInc [] no_partitions ]} ∅ ∅)
    ∅ ∅.
Definition reload (file : bytes) : result (list string) * option (list Column * list (list bytes)) :=
  let '(r, db) := ex_load off (Some file) st_blank in
  (r ← r; Ok r.2, (fun t => (columns_ t, map values (rows_ t))) <$> db_tables db !! str "public.t").
Definition cycle (db : Database) : result (list string) * option (list Column * list (list bytes)) :=
  reload (ok_or [] (ex_save off [] db)).

Definition text_column : Column := column (str "a") (str "TEXT").

(** An empty text becomes NULL, and a text between quotes loses them. *)
Lemma reload_changes_texts :
  cycle (one_table [text_column] ∅ [[str ""]; [str "'x'"]]) =
  (Ok [], Some ([text_column], [[str "NULL"]; [str "x"]])).
Proof. vm_compute. reflexivity. Qed.

(** NULL in an AUTO_INCREMENT column becomes the next number. *)
Lemma reload_numbers_null :
  let c := mkColumn (str "a") (str "INT") false false false [] false true [] false [] false in
  cycle (one_table [c] {[ str "a" := 5%Z ]} [[str "NULL"]]) = (Ok [], Some ([c], [[str "5"]])).
Proof. vm_compute. reflexivity. Qed.

(** The values of CHECK (a IN (...)) are not in the file: every value is refused,
    and the load ends with an exception at the first row. *)
Lemma reload_refuses_in_list :
  let c := mkColumn (str "a") (str "TEXT") false false false [] false false
             [mkCheck (str "IN") [] [str "red"; str "blue"]] false [] false in
  checkAllConstraints no_regex [c] [str "red"] = Ok () /\
  (cycle (one_table [c] ∅ [[str "red"]])).1 = Throw CHECK_VIOLATED.
Proof. vm_compute. done. Qed.

(** Every type but INT becomes TEXT. *)
Lemma reload_forgets_types :
  cycle (one_table [column (str "a") (str "DOUBLE")] ∅ []) = (Ok [], Some ([text_column], [])).
Proof. vm_compute. reflexivity. Qed.

(** A changed byte is noticed and read all the same. *)
Lemma reload_ignores_checksum :
  let file := ok_or [] (ex_save off [] (one_table [text_column] ∅ [[str "x"]])) in
  reload (<[40 := 121%Z]> file) = (Ok [WARNING], Some ([text_column], [[str "y"]])).
Proof. vm_compute. reflexivity. Qed.

(** A partitioned table is saved with the rows of its children, and as a plain
    table: the rows are there twice. *)
Lemma reload_doubles_partitions :
  let cs := [column (str "k") (str "INT")] in
  let pi := mkPartitionInfo Partition.HASH (str "k") [] [] 1 true [str "public.t_p0"] in
  let t n rows := mkTable (str n) cs (map row_of rows) ∅ ∅ [] no_partitions in
  let db := mkDatabase (Integrity.engine {[ str "public.t" := t "public.t" []; str "public.t_p0" := t "public.t_p0" [[str "1"]] ]}
              ∅ {[ str "public.t" := pi ]}) ∅ ∅ in
  cycle db = (Ok [], Some (cs, [[str "1"]])) /\
  partitionMeta_ (engine (ex_load off (Some (ok_or [] (ex_save off [] db))) st_blank).2) = ∅ /\
  (fun t => map values (rows_ t)) <$>
    db_tables (ex_load off (Some (ok_or [] (ex_save off [] db))) st_blank).2 !! str "public.t_p0" = Some [[str "1"]].
Proof. vm_compute. done. Qed.

End examples.
