(* ===== verification/Lexer.v ===== *)
(** * The texts of statements ([src/parser/parser.hpp]: [trim], [tokenize],
    [tokenizeFull], [splitTrim], [splitValues], [parseValueGroups],
    [extractColOpVal], [parseReturning], and of [parse] the preparation of the
    input and the branch for INSERT INTO)

    The character loops are structural recursions with their flags as arguments.
    The theorems read back what was printed: tokens, and the value groups of an
    INSERT, whatever texts stand in its literals. *)

From S2P Require Import Prelude Index Partition Table Arith Where Columns Triggers.

(** ** Characters *)

Definition COMMA : byte := 44.
Definition LPAREN : byte := 40.
Definition RPAREN : byte := 41.
Definition BACKSLASH : byte := 92.
Definition LBRACE : byte := 123.
Definition RBRACE : byte := 125.
Definition LBRACKET : byte := 91.
Definition RBRACKET : byte := 93.
Definition SPACE : byte := 32.

(** [find_first_not_of(" \t\r\n")] and back. *)
Definition trim (s : bytes) : bytes := trgTrim s.

Definition splitTrim (s : bytes) (delim : byte) : list bytes := map trim (split_on delim s).

(** The token so far, if there is one. *)
Definition emit (cur : bytes) : list bytes := if bytes_eqb cur [] then [] else [cur].

(** Space, tab or carriage return; a line feed is a character like any other. *)
Definition is_sep (c : byte) : bool := ((c =? 32) || (c =? 9) || (c =? 13))%Z.

(** ** Tokens *)

(** [q]: the quote the token is in; quotes and blanks between them stay in it. *)
Fixpoint tokenize_from (q : option byte) (cur s : bytes) : list bytes :=
  match s with
  | [] => emit cur
  | c :: s' =>
      match q with
      | Some x => tokenize_from (if (c =? x)%Z then None else q) (cur ++ [c]) s'
      | None =>
          if is_quote c then tokenize_from (Some c) (cur ++ [c]) s'
          else if is_sep c then emit cur ++ tokenize_from None [] s'
          else tokenize_from None (cur ++ [c]) s'
      end
  end.
Definition tokenize (s : bytes) : list bytes := tokenize_from None [] s.

(** Parentheses and commas are tokens, and so are texts between single quotes and
    array literals; an opening brace starts a token whatever the depth. *)
Fixpoint full_from (inQuote : bool) (depth : nat) (cur s : bytes) : list bytes :=
  match s with
  | [] => emit cur
  | c :: s' =>
      if inQuote then
        if (c =? QUOTE)%Z then (cur ++ [c]) :: full_from false depth [] s' else full_from true depth (cur ++ [c]) s'
      else if (c =? QUOTE)%Z then emit cur ++ full_from true depth [c] s'
      else if (c =? LBRACE)%Z then emit cur ++ full_from false 1 [c] s'
      else if 0 <? depth then
        if (c =? RBRACE)%Z then
          if depth =? 1 then (cur ++ [c]) :: full_from false 0 [] s' else full_from false (depth - 1) (cur ++ [c]) s'
        else full_from false depth (cur ++ [c]) s'
      else if is_sep c then emit cur ++ full_from false 0 [] s'
      else if ((c =? LPAREN) || (c =? RPAREN) || (c =? COMMA))%Z then emit cur ++ [c] :: full_from false 0 [] s'
      else full_from false 0 (cur ++ [c]) s'
  end.
Definition tokenizeFull (s : bytes) : list bytes := full_from false 0 [] s.

(** ** Values *)

Definition is_open (c : byte) : bool := ((c =? LPAREN) || (c =? LBRACE) || (c =? LBRACKET))%Z.
Definition is_close (c : byte) : bool := ((c =? RPAREN) || (c =? RBRACE) || (c =? RBRACKET))%Z.

(** A comma outside strings and brackets separates two values.  In a string a
    backslash takes the next character with it. *)
Fixpoint split_from (depth : Z) (q : option byte) (cur s : bytes) : list bytes :=
  match s with
  | [] => if bytes_eqb cur [] then [] else [trim cur]
  | c :: s' =>
      match q with
      | Some x =>
          match s' with
          | d :: s'' =>
              if (c =? BACKSLASH)%Z then split_from depth q (cur ++ [c; d]) s''
              else split_from depth (if (c =? x)%Z then None else q) (cur ++ [c]) s'
          | [] => split_from depth (if (c =? x)%Z then None else q) (cur ++ [c]) s'
          end
      | None =>
          if is_quote c then split_from depth (Some c) (cur ++ [c]) s'
          else if is_open c then split_from (depth + 1) None (cur ++ [c]) s'
          else if is_close c then split_from (depth - 1) None (cur ++ [c]) s'
          else if ((c =? COMMA) && (depth =? 0))%Z then trim cur :: split_from depth None [] s'
          else split_from depth None (cur ++ [c]) s'
      end
  end.
Definition splitValues (s : bytes) : list bytes := split_from 0 None [] s.

(** The inside of a group up to its closing parenthesis, and what follows. *)
Fixpoint group_from (depth : Z) (q : option byte) (content s : bytes) : bytes * bytes :=
  match s with
  | [] => (content, [])
  | c :: s' =>
      match q with
      | Some x =>
          match s' with
          | d :: s'' =>
              if (c =? BACKSLASH)%Z then group_from depth q (content ++ [c; d]) s''
              else group_from depth (if (c =? x)%Z then None else q) (content ++ [c]) s'
          | [] => group_from depth (if (c =? x)%Z then None else q) (content ++ [c]) s'
          end
      | None =>
          if is_quote c then group_from depth (Some c) (content ++ [c]) s'
          else if is_open c then group_from (depth + 1) None (content ++ [c]) s'
          else if ((c =? RBRACE) || (c =? RBRACKET))%Z then group_from (depth - 1) None (content ++ [c]) s'
          else if ((c =? RPAREN) && (depth =? 0))%Z then (content, s')
          else if (c =? RPAREN)%Z then group_from (depth - 1) None (content ++ [c]) s'
          else group_from depth None (content ++ [c]) s'
      end
  end.

(** Blanks and commas between the groups. *)
Definition between_groups (c : byte) : bool := is_blank c || (c =? COMMA)%Z.

(** Each group takes at least its opening parenthesis. *)
Fixpoint groups_from (fuel : nat) (s : bytes) : list (list bytes) :=
  match fuel with
  | O => []
  | S f =>
      match drop_while between_groups s with
      | c :: s' =>
          if (c =? LPAREN)%Z then
            let '(content, rest) := group_from 0 None [] s' in splitValues content :: groups_from f rest
          else []
      | [] => []
      end
  end.

Definition VALUES : bytes := str "VALUES".

Definition parseValueGroups (input : bytes) : list (list bytes) :=
  match find_sub VALUES (upper input) with
  | None => []
  | Some vpos => groups_from (length input) (drop (vpos + 6) input)
  end.

(** ** Reading back *)

(** How a value moves the scanner that stands outside strings at some depth:
    [None] if it is not closed in itself. *)
Fixpoint scan (depth : Z) (q : option byte) (v : bytes) : option (Z * option byte) :=
  match v with
  | [] => Some (depth, q)
  | c :: v' =>
      match q with
      | Some x =>
          match v' with
          | _ :: v'' => if (c =? BACKSLASH)%Z then scan depth q v'' else scan depth (if (c =? x)%Z then None else q) v'
          | [] => if (c =? BACKSLASH)%Z then None else Some (depth, if (c =? x)%Z then None else q)
          end
      | None =>
          if is_quote c then scan depth (Some c) v'
          else if is_open c then scan (depth + 1) None v'
          else if is_close c then (if (depth =? 0)%Z then None else scan (depth - 1) None v')
          else if ((c =? COMMA) && (depth =? 0))%Z then None
          else scan depth None v'
      end
  end.

(** A value that stands for itself in a list of values. *)
Record closed_value (v : bytes) : Prop := {
  cv_scan : scan 0 None v = Some (0%Z, None);
  cv_trim : trim v = v;
  cv_nonempty : v <> [] }.

Lemma is_close_cases c : is_close c = ((c =? RPAREN) || ((c =? RBRACE) || (c =? RBRACKET)))%Z.
Proof. unfold is_close. by rewrite orb_assoc. Qed.

(** Both loops take over a value as it is. *)
Lemma scanned v depth q st :
  scan depth q v = Some st ->
  (forall cur rest, split_from depth q cur (v ++ rest) = split_from st.1 st.2 (cur ++ v) rest) /\
  (forall cur rest, group_from depth q cur (v ++ rest) = group_from st.1 st.2 (cur ++ v) rest).
Proof.
  remember (length v) as n eqn:Hn. revert v Hn depth q. induction n as [n IH] using lt_wf_ind.
  intros [|c v] -> depth q; cbn [scan].
  { intros [= <-]. cbn [fst snd app]. split; intros cur rest; by rewrite app_nil_r. }
  assert (forall d p w (Hw : length w < length (c :: v)) pre, scan d p w = Some st ->
    (forall cur rest, split_from d p (cur ++ pre) (w ++ rest) = split_from st.1 st.2 (cur ++ pre ++ w) rest) /\
    (forall cur rest, group_from d p (cur ++ pre) (w ++ rest) = group_from st.1 st.2 (cur ++ pre ++ w) rest)) as Hrec.
  { intros d p w Hw pre Hs. destruct (IH _ Hw w eq_refl d p Hs) as [H1 H2].
    split; intros cur rest; rewrite ?H1, ?H2; by rewrite <- app_assoc. }
  assert (length v < length (c :: v)) as Hlt by (simpl; lia).
  destruct q as [x|].
  - destruct v as [|d v'].
    + destruct (c =? BACKSLASH)%Z eqn:Eb; [done|]. intros [= <-]. cbn [app split_from group_from fst snd].
      split; intros cur [|d rest]; cbn [split_from group_from]; by rewrite ?Eb.
    + destruct (c =? BACKSLASH)%Z eqn:Eb.
      * intros Hs. apply (Hrec depth (Some x) v' ltac:(simpl; lia) [c; d]) in Hs as [H1 H2].
        split; intros cur rest; cbn [app split_from group_from]; rewrite Eb; [exact (H1 cur rest)|exact (H2 cur rest)].
      * intros Hs. apply (Hrec _ _ _ Hlt [c]) in Hs as [H1 H2].
        split; intros cur rest; cbn [app split_from group_from]; rewrite Eb; [exact (H1 cur rest)|exact (H2 cur rest)].
  - destruct (is_quote c) eqn:Eq.
    { intros Hs. apply (Hrec _ _ _ Hlt [c]) in Hs as [H1 H2].
      split; intros cur rest; cbn [app split_from group_from]; rewrite Eq; [exact (H1 cur rest)|exact (H2 cur rest)]. }
    destruct (is_open c) eqn:Eo.
    { intros Hs. apply (Hrec _ _ _ Hlt [c]) in Hs as [H1 H2].
      split; intros cur rest; cbn [app split_from group_from]; rewrite Eq, Eo; [exact (H1 cur rest)|exact (H2 cur rest)]. }
    destruct (is_close c) eqn:Ec.
    { destruct (depth =? 0)%Z eqn:Ed; [done|]. intros Hs. apply (Hrec _ _ _ Hlt [c]) in Hs as [H1 H2].
      split; intros cur rest; cbn [app split_from group_from]; rewrite Eq, Eo; [rewrite Ec; exact (H1 cur rest)|].
      rewrite is_close_cases in Ec. destruct ((c =? RBRACE) || (c =? RBRACKET))%Z; [exact (H2 cur rest)|].
      rewrite orb_false_r in Ec. rewrite Ec, Ed. exact (H2 cur rest). }
    destruct ((c =? COMMA) && (depth =? 0))%Z eqn:Ek; [done|].
    intros Hs. apply (Hrec _ _ _ Hlt [c]) in Hs as [H1 H2].
    split; intros cur rest; cbn [app split_from group_from]; rewrite Eq, Eo; [rewrite Ec, Ek; exact (H1 cur rest)|].
    rewrite is_close_cases in Ec. apply orb_false_iff in Ec as [-> ->]. exact (H2 cur rest).
Qed.

(** The values of a row, between commas. *)
Fixpoint print_values (vs : list bytes) : bytes :=
  match vs with
  | [] => []
  | [v] => v
  | v :: vs' => v ++ str ", " ++ print_values vs'
  end.

Lemma split_printed vs :
  Forall closed_value vs -> vs <> [] -> splitValues (print_values vs) = vs.
Proof.
  intros Hf Hne. unfold splitValues.
  assert (forall pre, trim pre = [] -> (forall v, closed_value v -> trim (pre ++ v) = v) ->
    split_from 0 None pre (print_values vs) = vs) as H.
  2: { apply H; [done|]. intros v Hv. apply Hv. }
  induction Hf as [|v vs [Hs Ht Hv] Hf IH]; [done|]. clear Hne. intros pre _ Hpre. destruct vs as [|v2 vs].
  - cbn [print_values]. rewrite <- (app_nil_r v) at 1. destruct (scanned _ _ _ _ Hs) as [H1 _]. rewrite H1.
    cbn [fst snd split_from]. unfold bytes_eqb. rewrite bool_decide_eq_false_2 by (intros [_ ?]%app_nil; done).
    by rewrite Hpre by done.
  - change (print_values (v :: v2 :: vs)) with (v ++ COMMA :: SPACE :: print_values (v2 :: vs)).
    destruct (scanned _ _ _ _ Hs) as [H1 _]. rewrite H1. cbn [fst snd split_from]. rewrite Hpre by done. cbn [app]. f_equal.
    apply IH; [done|done|]. intros u [_ Hu _]. unfold trim, trgTrim in *. cbn [app drop_while is_blank]. exact Hu.
Qed.

Definition print_group (vs : list bytes) : bytes := LPAREN :: print_values vs ++ [RPAREN].

Lemma group_printed vs rest :
  Forall closed_value vs -> group_from 0 None [] (print_values vs ++ RPAREN :: rest) = (print_values vs, rest).
Proof.
  intros Hf. change (print_values vs) with ([] ++ print_values vs) at 2. generalize ([] : bytes) as pre.
  induction Hf as [|v vs [Hs _ _] Hf IH]; intros pre; [by rewrite app_nil_r|].
  destruct (scanned _ _ _ _ Hs) as [_ H1]. destruct vs as [|v2 vs].
  - cbn [print_values]. rewrite H1. done.
  - change (print_values (v :: v2 :: vs)) with (v ++ COMMA :: SPACE :: print_values (v2 :: vs)).
    rewrite <- app_assoc, H1. cbn [fst snd]. rewrite <- !app_comm_cons. cbn [group_from].
    change ((pre ++ v) ++ [COMMA]) with ((pre ++ v) ++ [COMMA]).
    etrans; [|rewrite (app_assoc pre v); change (COMMA :: SPACE :: print_values (v2 :: vs)) with ([COMMA; SPACE] ++ print_values (v2 :: vs));
              rewrite (app_assoc (pre ++ v)); apply (IH ((pre ++ v) ++ [COMMA; SPACE]))].
    cbn. by rewrite <- !app_assoc.
Qed.

(** The groups of a statement, between commas. *)
Fixpoint print_groups (rows : list (list bytes)) : bytes :=
  match rows with
  | [] => []
  | [r] => print_group r
  | r :: rows' => print_group r ++ str ", " ++ print_groups rows'
  end.

Definition good_rows (rows : list (list bytes)) : Prop := Forall (fun vs => vs <> [] /\ Forall closed_value vs) rows.

Lemma groups_printed rows pre fuel :
  good_rows rows -> Forall (fun c => between_groups c = true) pre -> length rows < fuel ->
  groups_from fuel (pre ++ print_groups rows) = rows.
Proof.
  intros Hg. revert pre fuel. induction Hg as [|vs rows [Hne Hvs] Hg IH]; intros pre [|fuel] Hpre Hf; cbn [length] in Hf; try lia.
  - cbn [groups_from print_groups]. rewrite app_nil_r. assert (drop_while between_groups pre = []) as ->; [|done].
    clear -Hpre. induction Hpre as [|c pre Hc _ IH]; [done|]. cbn. by rewrite Hc.
  - assert (forall w, drop_while between_groups (pre ++ LPAREN :: w) = LPAREN :: w) as Hdrop.
    { intros w. clear -Hpre. induction Hpre as [|c pre Hc _ IH]; [done|]. cbn [app drop_while]. by rewrite Hc. }
    cbn [groups_from]. destruct rows as [|vs2 rows].
    + cbn [print_groups]. unfold print_group. rewrite Hdrop. change (LPAREN =? LPAREN)%Z with true. cbv iota.
      rewrite group_printed by done. rewrite split_printed by done. f_equal.
      apply (IH [] fuel); [done|lia].
    + change (print_groups (vs :: vs2 :: rows)) with (print_group vs ++ [COMMA; SPACE] ++ print_groups (vs2 :: rows)).
      unfold print_group at 1. cbn [app]. rewrite Hdrop. change (LPAREN =? LPAREN)%Z with true. cbv iota.
      rewrite <- app_assoc. cbn [app]. rewrite group_printed by done. rewrite split_printed by done. f_equal.
      apply (IH [COMMA; SPACE] fuel); [by apply Forall_cons; split; [|apply Forall_cons; split]|cbn [length] in *; lia].
Qed.

(** ** Searching *)

Lemma find_sub_head p x a : head p = Some x -> x ∉ a -> find_sub p a = None.
Proof.
  destruct p as [|y p]; [done|]. intros [= ->]. induction a as [|z a IH]; [done|]. intros [Hz Ha]%not_elem_of_cons. cbn.
  rewrite (proj2 (Z.eqb_neq x z)) by done. cbn. by rewrite IH.
Qed.

Lemma find_sub_app p s t k : find_sub p s = Some k -> find_sub p (s ++ t) = Some k.
Proof.
  assert (forall s t, starts_with p s = true -> starts_with p (s ++ t) = true) as Hs.
  { clear. intros s t [r ->]%starts_with_true. rewrite <- app_assoc. apply starts_with_app. }
  revert k. induction s as [|c s IH]; intros k; cbn [find_sub].
  - destruct (starts_with p []) eqn:E; [|done]. intros [= <-]. apply (Hs _ t) in E. cbn [app] in E |- *.
    destruct t; cbn [find_sub]; by rewrite E.
  - destruct (starts_with p (c :: s)) eqn:E.
    + intros [= <-]. apply (Hs _ t) in E. cbn [app] in E |- *. cbn [find_sub]. by rewrite E.
    + destruct (find_sub p s) as [j|] eqn:Ef; [|done]. intros [= <-]. cbn [app find_sub].
      rewrite (IH _ eq_refl).
      destruct (starts_with p (c :: s ++ t)) eqn:E2; [|done]. exfalso.
      (* the shorter text already holds the whole pattern at a later place *)
      assert (length p <= length s) as Hlen.
      { clear -Ef. revert j Ef. induction s as [|d s IH]; intros j; cbn [find_sub].
        - destruct p; done.
        - destruct (starts_with p (d :: s)) eqn:E; [|destruct (find_sub p s) as [i|]; [|done]].
          + intros _. apply starts_with_true in E as [r E]. apply (f_equal length) in E. rewrite length_app in E. simpl in *. lia.
          + intros _. specialize (IH _ eq_refl). simpl. lia. }
      apply starts_with_true in E2 as [r E2]. rewrite app_comm_cons in E2.
      assert (exists r', c :: s = p ++ r') as [r' Hr'].
      { exists (drop (length p) (c :: s)). apply (f_equal (take (length p))) in E2.
        rewrite take_app_length in E2. rewrite take_app_le in E2 by (simpl; lia).
        rewrite <- E2 at 1. by rewrite take_drop. }
      rewrite Hr', starts_with_app in E. done.
Qed.

Lemma upper_app s t : upper (s ++ t) = upper s ++ upper t.
Proof. apply map_app. Qed.

Lemma print_groups_length rows : length rows <= length (print_groups rows).
Proof.
  induction rows as [|r [|r2 rows] IH]; [done|simpl; lia|].
  change (print_groups (r :: r2 :: rows)) with (print_group r ++ str ", " ++ print_groups (r2 :: rows)).
  rewrite !length_app. unfold print_group at 1. cbn [length] in *. lia.
Qed.

(** ** Literals *)

Lemma scan_in d x c v : c <> BACKSLASH -> scan d (Some x) (c :: v) = scan d (if (c =? x)%Z then None else Some x) v.
Proof. intros H%Z.eqb_neq. cbn [scan]. rewrite H. destruct v; [|done]. by destruct (c =? x)%Z. Qed.

Definition no_backslash (s : bytes) : bool := forallb (fun c => negb (c =? BACKSLASH)%Z) s.

Lemma scan_literal d s :
  no_backslash s = true -> scan d (Some QUOTE) (double_quotes s ++ [QUOTE]) = Some (d, None).
Proof.
  intros Hs. induction s as [|c s IH]; [done|]. unfold no_backslash in Hs. cbn [forallb] in Hs.
  apply andb_true_iff in Hs as [Hc%negb_true_iff%Z.eqb_neq Hs]. specialize (IH Hs).
  cbn [double_quotes]. destruct (Z.eqb_spec c QUOTE) as [->|Hq].
  - cbn [app]. rewrite scan_in by done. rewrite Z.eqb_refl. cbn [scan]. exact IH.
  - cbn [app]. rewrite scan_in by done. rewrite (proj2 (Z.eqb_neq c QUOTE)) by done. exact IH.
Qed.

Lemma trim_id c s d : is_blank c = false -> is_blank d = false -> trim (c :: s ++ [d]) = c :: s ++ [d].
Proof.
  intros Hc Hd. unfold trim, trgTrim. cbn [drop_while]. rewrite Hc.
  rewrite app_comm_cons, rev_app_distr. cbn [rev app drop_while]. rewrite Hd.
  cbn [rev]. by rewrite rev_app_distr, rev_involutive.
Qed.

Lemma literal_closed s : no_backslash s = true -> closed_value (literal s).
Proof.
  intros Hs. unfold literal. split; [by apply scan_literal|by apply trim_id|done].
Qed.

(** The groups of a statement are read back, if [VALUES] is not part of an
    earlier word. *)
Lemma parseValueGroups_print p rows :
  find_sub VALUES (upper (p ++ VALUES)) = Some (length p) -> good_rows rows ->
  parseValueGroups (p ++ VALUES ++ SPACE :: print_groups rows) = rows.
Proof.
  intros Hp Hr. unfold parseValueGroups.
  rewrite (app_assoc p), upper_app. rewrite (find_sub_app _ _ _ _ Hp).
  assert (drop (length p + 6) ((p ++ VALUES) ++ SPACE :: print_groups rows) = [SPACE] ++ print_groups rows) as ->.
  { rewrite drop_app_length' by (by rewrite length_app). done. }
  apply groups_printed; [done|by apply Forall_cons; split|].
  rewrite !length_app. cbn [length]. pose proof (print_groups_length rows). lia.
Qed.

(** A table whose name contains the word breaks the reader. *)
Lemma values_in_a_name :
  parseValueGroups (str "INSERT INTO myvalues VALUES (1)") = [] /\
  parseValueGroups (str "INSERT INTO t VALUES (1)") = [[str "1"]].
Proof. split; reflexivity. Qed.

(** A backslash before the closing quote takes the quote with it. *)
Lemma backslash_swallows_quote :
  splitValues (str "'C:\', 2") = [str "'C:\', 2"] /\
  parseValueGroups (str "INSERT INTO t VALUES ('C:\', 2), (3, 4)") =
    [[str "'C:\', 2), (3, 4)"]].
Proof. split; reflexivity. Qed.

(** ** The tokens of [tokenizeFull] as a grammar *)

Definition is_symbol (c : byte) : bool := ((c =? LPAREN) || (c =? RPAREN) || (c =? COMMA))%Z.

(** A character of a word. *)
Definition is_plain (c : byte) : bool :=
  negb (is_sep c || is_symbol c || (c =? QUOTE)%Z || (c =? LBRACE)%Z).

Definition word_ends (s : bytes) : Prop := match s with c :: _ => is_plain c = false | [] => True end.

(** The text [s] consists of the tokens [ts]: symbols, texts between single
    quotes, flat array literals and words, with blanks between them. *)
Inductive Lexes : list bytes -> bytes -> Prop :=
| lexes_end : Lexes [] []
| lexes_blank c ts s : is_sep c = true -> Lexes ts s -> Lexes ts (c :: s)
| lexes_symbol c ts s : is_symbol c = true -> Lexes ts s -> Lexes ([c] :: ts) (c :: s)
| lexes_quoted v ts s :
    QUOTE ∉ v -> Lexes ts s -> Lexes ((QUOTE :: v ++ [QUOTE]) :: ts) (QUOTE :: v ++ QUOTE :: s)
| lexes_array v ts s :
    Forall (fun c => c <> QUOTE /\ c <> LBRACE /\ c <> RBRACE) v -> Lexes ts s ->
    Lexes ((LBRACE :: v ++ [RBRACE]) :: ts) (LBRACE :: v ++ RBRACE :: s)
| lexes_word w ts s :
    w <> [] -> Forall (fun c => is_plain c = true) w -> word_ends s -> Lexes ts s -> Lexes (w :: ts) (w ++ s).

Lemma emit_cons c cur : emit (c :: cur) = [c :: cur].
Proof. done. Qed.

Lemma emit_nonempty cur : cur <> [] -> emit cur = [cur].
Proof. by destruct cur. Qed.

Lemma full_quoted n cur v s :
  QUOTE ∉ v -> full_from true n cur (v ++ QUOTE :: s) = (cur ++ v ++ [QUOTE]) :: full_from false n [] s.
Proof.
  revert cur. induction v as [|c v IH]; intros cur Hv; cbn [app full_from].
  - by rewrite Z.eqb_refl.
  - apply not_elem_of_cons in Hv as [Hc Hv]. rewrite (proj2 (Z.eqb_neq c QUOTE)) by congruence.
    rewrite IH by done. by rewrite <- app_assoc.
Qed.

Lemma full_array cur v s :
  Forall (fun c => c <> QUOTE /\ c <> LBRACE /\ c <> RBRACE) v ->
  full_from false 1 cur (v ++ RBRACE :: s) = (cur ++ v ++ [RBRACE]) :: full_from false 0 [] s.
Proof.
  intros Hv. revert cur. induction Hv as [|c v (H1 & H2 & H3) Hv IH]; intros cur; [done|].
  cbn [app full_from]. rewrite (proj2 (Z.eqb_neq c QUOTE)), (proj2 (Z.eqb_neq c LBRACE)), (proj2 (Z.eqb_neq c RBRACE)) by done.
  cbn [Nat.ltb Nat.leb]. rewrite IH. by rewrite <- app_assoc.
Qed.

(** What the loop does with each kind of character. *)
Lemma is_plain_cases c :
  is_plain c = true -> (c =? QUOTE)%Z = false /\ (c =? LBRACE)%Z = false /\ is_sep c = false /\ is_symbol c = false.
Proof. unfold is_plain. rewrite negb_true_iff, !orb_false_iff. tauto. Qed.

Lemma full_word cur w s :
  Forall (fun c => is_plain c = true) w -> full_from false 0 cur (w ++ s) = full_from false 0 (cur ++ w) s.
Proof.
  intros Hw. revert cur. induction Hw as [|c w Hc Hw IH]; intros cur; [by rewrite app_nil_r|].
  apply is_plain_cases in Hc as (H1 & H2 & H3 & H4). unfold is_symbol in H4.
  cbn [app full_from]. rewrite H1, H2, H3, H4. cbn [Nat.ltb Nat.leb]. rewrite IH. by rewrite <- app_assoc.
Qed.

Lemma full_ends cur s : word_ends s -> full_from false 0 cur s = emit cur ++ full_from false 0 [] s.
Proof.
  destruct s as [|c s]; [cbn [full_from]; intros _; by rewrite app_nil_r|]. cbn [word_ends full_from].
  destruct (c =? QUOTE)%Z eqn:E1; [done|]. destruct (c =? LBRACE)%Z eqn:E2; [done|]. cbn [Nat.ltb Nat.leb].
  destruct (is_sep c) eqn:E3; [done|]. fold (is_symbol c). unfold is_plain. rewrite E1, E2, E3.
  by destruct (is_symbol c).
Qed.

Lemma sep_plain c : is_sep c = true -> is_plain c = false.
Proof. unfold is_plain. by intros ->. Qed.

Lemma symbol_plain c : is_symbol c = true -> is_plain c = false.
Proof. unfold is_plain. intros ->. by rewrite orb_true_r. Qed.

Lemma symbol_not_sep c : is_symbol c = true -> (c =? QUOTE)%Z = false /\ (c =? LBRACE)%Z = false /\ is_sep c = false.
Proof. unfold is_symbol, is_sep, LPAREN, RPAREN, COMMA, QUOTE, LBRACE. lia. Qed.

Lemma sep_not_quote c : is_sep c = true -> (c =? QUOTE)%Z = false /\ (c =? LBRACE)%Z = false.
Proof. unfold is_sep, QUOTE, LBRACE. lia. Qed.

(** The tokenizer finds the tokens of every text of the grammar. *)
Lemma Lexes_tokenizeFull ts s : Lexes ts s -> tokenizeFull s = ts.
Proof.
  unfold tokenizeFull. induction 1 as [|c ts s Hc _ IH|c ts s Hc _ IH|v ts s Hv _ IH|v ts s Hv _ IH|w ts s Hne Hw He _ IH].
  - done.
  - cbn [full_from]. destruct (sep_not_quote c Hc) as [-> ->]. rewrite Hc. exact IH.
  - cbn [full_from]. destruct (symbol_not_sep c Hc) as (-> & -> & ->). cbn [Nat.ltb Nat.leb]. unfold is_symbol in Hc. rewrite Hc.
    change (emit []) with ([] : list bytes). cbn [app]. by rewrite IH.
  - cbn [full_from]. rewrite Z.eqb_refl. change (emit []) with ([] : list bytes). cbn [app]. rewrite full_quoted by done. by rewrite IH.
  - cbn [full_from]. change (LBRACE =? QUOTE)%Z with false. rewrite Z.eqb_refl. change (emit []) with ([] : list bytes). cbn [app].
    rewrite full_array by done. by rewrite IH.
  - rewrite full_word by done. rewrite full_ends by done. cbn [app]. rewrite emit_nonempty by done. by rewrite IH.
Qed.

(** Every quote is closed, and no array literal is opened. *)
Definition quotes_in (s : bytes) : nat := length (List.filter (Z.eqb QUOTE) s).
Definition lexable (s : bytes) : bool := Nat.even (quotes_in s) && forallb (fun c => negb (c =? LBRACE)%Z) s.

Lemma quotes_in_app s t : quotes_in (s ++ t) = quotes_in s + quotes_in t.
Proof. unfold quotes_in. by rewrite List.filter_app, length_app. Qed.

Lemma quotes_in_none s : QUOTE ∉ s -> quotes_in s = 0.
Proof.
  unfold quotes_in. induction s as [|c s IH]; [done|]. intros [Hc Hs]%not_elem_of_cons.
  cbn [List.filter]. rewrite (proj2 (Z.eqb_neq QUOTE c)) by done. by apply IH.
Qed.

Lemma next_quote s : Nat.even (quotes_in s) = false -> exists v s', s = v ++ QUOTE :: s' /\ QUOTE ∉ v.
Proof.
  intros H. destruct (decide (QUOTE ∈ s)) as [Hin|Hn]; [|by rewrite quotes_in_none in H].
  apply list_elem_of_split_l in Hin as (v & s' & -> & Hv). by exists v, s'.
Qed.

Lemma lexable_app s t : lexable (s ++ t) = true -> QUOTE ∉ s -> lexable t = true.
Proof.
  unfold lexable. rewrite quotes_in_app, forallb_app, !andb_true_iff. intros (H1 & H2 & H3) Hs.
  rewrite quotes_in_none in H1 by done. done.
Qed.

Lemma plain_no_quote w : Forall (fun c => is_plain c = true) w -> QUOTE ∉ w.
Proof. intros Hw Hin. rewrite Forall_forall in Hw. by specialize (Hw _ Hin). Qed.

(** Every text without open quotes and braces is a text of the grammar. *)
Lemma lexable_Lexes s : lexable s = true -> exists ts, Lexes ts s.
Proof.
  remember (length s) as n eqn:Hn. revert s Hn. induction n as [n IH] using lt_wf_ind.
  intros [|c s] -> Hs; [exists []; constructor|].
  destruct (is_plain c) eqn:Ep.
  - pose proof (take_drop_while is_plain (c :: s)) as Hsplit. cbn [take_while drop_while] in Hsplit. rewrite Ep in Hsplit.
    set (w := take_while is_plain s) in Hsplit. set (r := drop_while is_plain s) in Hsplit.
    assert (Forall (fun d => is_plain d = true) (c :: w)) as Hw.
    { constructor; [done|]. subst w. clear. induction s as [|d s IH]; [constructor|]. cbn. destruct (is_plain d) eqn:E; by constructor. }
    assert (word_ends r) as He.
    { subst r. clear. induction s as [|d s IH]; [done|]. cbn. destruct (is_plain d) eqn:E; done. }
    rewrite <- Hsplit in Hs |- *. edestruct (IH (length r)) as [ts Hts]; [|reflexivity|by eapply lexable_app; [|apply plain_no_quote]|].
    + rewrite <- Hsplit, length_app. simpl. lia.
    + exists ((c :: w) :: ts). by apply lexes_word.
  - destruct (is_sep c) eqn:Es; [|destruct (is_symbol c) eqn:Ey; [|destruct (Z.eqb_spec c QUOTE) as [->|Hq]]].
    + destruct (sep_not_quote _ Es) as [Hq _]. apply Z.eqb_neq in Hq.
      apply (lexable_app [c]) in Hs; [|by apply not_elem_of_cons; split; [|apply not_elem_of_nil]].
      edestruct (IH (length s)) as [ts Hts]; [simpl; lia|reflexivity|done|]. exists ts. by constructor.
    + destruct (symbol_not_sep _ Ey) as [Hq _]. apply Z.eqb_neq in Hq.
      apply (lexable_app [c]) in Hs; [|by apply not_elem_of_cons; split; [|apply not_elem_of_nil]].
      edestruct (IH (length s)) as [ts Hts]; [simpl; lia|reflexivity|done|]. exists ([c] :: ts). by constructor.
    + unfold lexable in Hs. apply andb_true_iff in Hs as [He Hb].
      change (QUOTE :: s) with ([QUOTE] ++ s) in He. rewrite quotes_in_app in He. change (quotes_in [QUOTE]) with 1 in He.
      rewrite Nat.even_succ, <- Nat.negb_even in He. apply negb_true_iff in He.
      destruct (next_quote s He) as (v & r & -> & Hv). edestruct (IH (length r)) as [ts Hts]; [|reflexivity| |].
      * simpl. rewrite length_app. simpl. lia.
      * unfold lexable. cbn [forallb] in Hb. rewrite forallb_app in Hb. cbn [forallb] in Hb.
        rewrite !andb_true_iff in Hb. apply andb_true_iff. split; [|tauto].
        rewrite quotes_in_app, quotes_in_none in He by done. change (QUOTE :: r) with ([QUOTE] ++ r) in He.
        rewrite quotes_in_app in He. change (quotes_in [QUOTE]) with 1 in He. cbn [Nat.add] in He.
        rewrite Nat.even_succ, <- Nat.negb_even in He. by apply negb_false_iff in He.
      * exists ((QUOTE :: v ++ [QUOTE]) :: ts). by constructor.
    + exfalso. unfold lexable in Hs. cbn [forallb] in Hs. rewrite !andb_true_iff, negb_true_iff in Hs.
      destruct Hs as (_ & Hb & _). unfold is_plain in Ep.
      rewrite Es, Ey, (proj2 (Z.eqb_neq c QUOTE)), Hb in Ep by done. done.
Qed.

(** On a text whose quotes are closed and that opens no array literal, the
    tokenizer with its flags finds the tokens of the grammar and nothing else. *)
Theorem tokenizeFull_spec s ts : lexable s = true -> (tokenizeFull s = ts <-> Lexes ts s).
Proof.
  intros Hs. split; [|apply Lexes_tokenizeFull]. intros <-.
  destruct (lexable_Lexes s Hs) as [ts Hts]. by rewrite (Lexes_tokenizeFull _ _ Hts).
Qed.

Lemma tokenizeFull_spec_witness :
  lexable (str "a IN ('x (y)',2)") = true /\
  Lexes [str "a"; str "IN"; str "("; str "'x (y)'"; str ","; str "2"; str ")"] (str "a IN ('x (y)',2)").
Proof. split; [reflexivity|]. apply (tokenizeFull_spec (str "a IN ('x (y)',2)")); reflexivity. Defined.

(** ** The tokens of [tokenize] *)

(** No blank outside quotes, every quote closed. *)
Fixpoint word_from (q : option byte) (w : bytes) : bool :=
  match w with
  | [] => bool_decide (q = None)
  | c :: w' =>
      match q with
      | Some x => word_from (if (c =? x)%Z then None else q) w'
      | None => if is_quote c then word_from (Some c) w' else negb (is_sep c) && word_from None w'
      end
  end.
Definition is_word_token (w : bytes) : bool := negb (bytes_eqb w []) && word_from None w.

Fixpoint spaced (ts : list bytes) : bytes :=
  match ts with
  | [] => []
  | [t] => t
  | t :: ts' => t ++ SPACE :: spaced ts'
  end.

Lemma tokenize_over q cur w s :
  word_from q w = true -> tokenize_from q cur (w ++ s) = tokenize_from None (cur ++ w) s.
Proof.
  revert q cur. induction w as [|c w IH]; intros q cur Hw; cbn [word_from] in Hw.
  - apply bool_decide_eq_true in Hw as ->. by rewrite app_nil_r.
  - cbn [app tokenize_from]. change (cur ++ c :: w) with (cur ++ [c] ++ w). rewrite (app_assoc cur). destruct q as [x|].
    + by apply IH.
    + destruct (is_quote c); [by apply IH|]. apply andb_true_iff in Hw as [->%negb_true_iff Hw]. by apply IH.
Qed.

Lemma tokenize_spaced_app ts s :
  Forall (fun w => is_word_token w = true) ts -> ts <> [] ->
  tokenize (spaced ts ++ SPACE :: s) = ts ++ tokenize s.
Proof.
  unfold tokenize. induction 1 as [|w ts Hw Hts IH]; [done|]. intros _.
  apply andb_true_iff in Hw as [Hne%negb_true_iff Hw]. unfold bytes_eqb in Hne. apply bool_decide_eq_false in Hne.
  destruct ts as [|w2 ts].
  - cbn [spaced]. rewrite tokenize_over by done. cbn [tokenize_from app]. by rewrite emit_nonempty.
  - change (spaced (w :: w2 :: ts)) with (w ++ SPACE :: spaced (w2 :: ts)). rewrite <- app_assoc, tokenize_over by done.
    cbn [tokenize_from app]. rewrite emit_nonempty by done. cbn [app]. by rewrite IH.
Qed.

Lemma tokenize_spaced ts : Forall (fun w => is_word_token w = true) ts -> tokenize (spaced ts) = ts.
Proof.
  intros Hts. destruct ts as [|w ts _] using rev_ind; [done|].
  apply Forall_app in Hts as [Hts Hw]. apply Forall_cons in Hw as [Hw _].
  assert (tokenize w = [w]) as Hone.
  { apply andb_true_iff in Hw as [Hne%negb_true_iff Hw]. unfold bytes_eqb in Hne. apply bool_decide_eq_false in Hne.
    unfold tokenize. rewrite <- (app_nil_r w) at 1. rewrite tokenize_over by done. by apply emit_nonempty. }
  destruct (decide (ts = [])) as [->|Hn]; [done|]. rewrite <- Hone at 2. rewrite <- tokenize_spaced_app by done.
  f_equal. clear -Hn. induction ts as [|t [|t2 ts] IH]; [done|done|].
  change (spaced ((t :: t2 :: ts) ++ [w])) with (t ++ SPACE :: spaced ((t2 :: ts) ++ [w])).
  change (spaced (t :: t2 :: ts)) with (t ++ SPACE :: spaced (t2 :: ts)). rewrite IH by done. by rewrite <- app_assoc.
Qed.

(** ** What the tokenizers do to texts outside the grammar *)

(** A doubled quote is two tokens in one tokenizer and one in the other. *)
Lemma doubled_quote_splits :
  tokenizeFull (str "'it''s'") = [str "'it'"; str "'s'"] /\ tokenize (str "'it''s'") = [str "'it''s'"].
Proof. split; reflexivity. Qed.

(** A line feed separates no words. *)
Lemma linefeed_joins :
  tokenize (str "FROM t" ++ [10%Z] ++ str "WHERE a") = [str "FROM"; str "t" ++ [10%Z] ++ str "WHERE"; str "a"] /\
  tokenizeFull (str "t" ++ [10%Z] ++ str "WHERE") = [str "t" ++ [10%Z] ++ str "WHERE"].
Proof. split; reflexivity. Qed.

(** Array literals do not nest: the inner brace starts a new token. *)
Lemma nested_array_splits :
  tokenizeFull (str "{1,{2},3}") = [str "{1,"; str "{2}"; str ","; str "3}"].
Proof. reflexivity. Qed.
