(* ===== verification/WhereParser.v ===== *)
(** * The WHERE clause of a statement ([src/parser/parser.hpp]:
    [extractColOpVal], [parseWhere], [parseInList], [parseWhereFromFull],
    [parseScalarSubFromFull], [parseInListFromFull], [parseExistsFromFull])

    The two parsers read token lists: the tokens of [tokenize] for UPDATE, DELETE
    and plain SELECT, those of [tokenizeFull] for the rest.  Indices into the
    token list with an end are suffixes of the list up to that end.  Conditions
    are those of [Where.v].  The theorems: the fuel of the loops is enough, and a
    printed clause is read back with all its conditions and the last of its
    connectives. *)

From S2P Require Import Prelude Index Partition Table Arith Where Columns Triggers Lexer.

(** ** Tokens *)

(** [i + k < end && toUpper(ft[i + k]) == w] *)
Definition kw (k : nat) (w : string) (ts : list bytes) : bool :=
  match ts !! k with Some t => bytes_eqb (upper t) (str w) | None => false end.

(** [i + k < end && ft[i + k] == w] *)
Definition tok (k : nat) (w : string) (ts : list bytes) : bool :=
  match ts !! k with Some t => bytes_eqb t (str w) | None => false end.

(** [if (i < end) x = ft[i++]] *)
Definition next (ts : list bytes) : bytes * list bytes :=
  match ts with t :: ts' => (t, ts') | [] => ([], []) end.

Definition skip_kw (w : string) (ts : list bytes) : list bytes := if kw 0 w ts then drop 1 ts else ts.
Definition skip_tok (w : string) (ts : list bytes) : list bytes := if tok 0 w ts then drop 1 ts else ts.

(** [while (i < end && ft[i] != ")") ++i], and the parenthesis itself. *)
Fixpoint skip_to_close (ts : list bytes) : list bytes :=
  match ts with
  | [] => []
  | t :: ts' => if bytes_eqb t (str ")") then ts' else skip_to_close ts'
  end.

(** The tokens up to the parenthesis that closes the open ones, and those behind it. *)
Fixpoint split_close (depth : nat) (ts : list bytes) : list bytes * list bytes :=
  match ts with
  | [] => ([], [])
  | t :: ts' =>
      if bytes_eqb t (str "(") then let '(l, r) := split_close (S depth) ts' in (t :: l, r)
      else if bytes_eqb t (str ")") then
        match depth with
        | S (S _) => let '(l, r) := split_close (pred depth) ts' in (t :: l, r)
        | _ => ([], ts')
        end
      else let '(l, r) := split_close depth ts' in (t :: l, r)
  end.

(** ** Operators *)

Definition comparison_ops : list (bytes * operator) :=
  [(str ">=", GE); (str "<=", LE); (str "!=", NE); (str "=", EQ); (str "<", LT); (str ">", GT)].

(** The texts of [WhereCondition::op] that the evaluators know. *)
Definition named_ops : list (bytes * operator) :=
  [(str "LIKE", LIKE); (str "IS NULL", IS_NULL); (str "IS NOT NULL", IS_NOT_NULL); (str "REGEXP", REGEXP);
   (str "NOT REGEXP", NOT_REGEXP); (str "IN", IN); (str "NOT IN", NOT_IN); (str "BETWEEN", BETWEEN);
   (str "NOT BETWEEN", NOT_BETWEEN)].

Fixpoint assoc (s : bytes) (l : list (bytes * operator)) : option operator :=
  match l with [] => None | (k, o) :: l' => if bytes_eqb s k then Some o else assoc s l' end.

Definition comparison_op (s : bytes) : option operator := assoc s comparison_ops.
Definition op_of (s : bytes) : operator := default OTHER (assoc s (comparison_ops ++ named_ops)).

(** The first operator of the list that occurs in the token; [false] is [None]. *)
Fixpoint split_op (ops : list (bytes * operator)) (token : bytes) : option (bytes * operator * bytes) :=
  match ops with
  | [] => None
  | (o, k) :: ops' =>
      match find_sub o token with
      | Some O => None
      | Some pos => Some (take pos token, k, drop (pos + length o) token)
      | None => split_op ops' token
      end
  end.
Definition extractColOpVal (token : bytes) : option (bytes * operator * bytes) :=
  split_op [(str ">=", GE); (str "<=", LE); (str "!=", NE); (str "=", EQ); (str "<", LT); (str ">", GT)] token.

Definition ARITH_STOP (t : bytes) : bool :=
  existsb (bytes_eqb (upper t))
    [str "AND"; str "OR"; str "ORDER"; str "LIMIT"; str "GROUP"; str "HAVING"; str "UNION"; str "INTERSECT";
     str "EXCEPT"; str "WHERE"].

Definition is_arith (t : bytes) : bool := existsb (bytes_eqb t) [str "+"; str "-"; str "*"; str "/"].

(** The right-hand side with the operators and operands behind it. *)
Fixpoint rhs (e : bytes) (ts : list bytes) : bytes * list bytes :=
  match ts with
  | [] => (e, [])
  | t :: r =>
      if ARITH_STOP t then (e, ts)
      else if is_arith t then
        match r with
        | [] => (e ++ t, [])
        | u :: r' => if ARITH_STOP u then (e ++ t, r) else rhs ((e ++ t) ++ u) r'
        end
      else (e, ts)
  end.

(** ** The clause *)

Record SubquerySpec := mkSubquery {
  condIdx : nat; sq_table : bytes; sq_col : bytes; sq_where : list WhereCondition; sq_logic : bytes }.

(** The fields of [ParsedCommand] the clause fills; [whereColumn], [whereOp] and
    [whereValue] repeat the first condition. *)
Record Clause := mkClause { whereConds : list WhereCondition; whereLogic : bytes; subqueries : list SubquerySpec }.

Definition no_clause : Clause := mkClause [] AND [].
Definition set_logic (l : bytes) (c : Clause) : Clause := mkClause (whereConds c) l (subqueries c).
Definition push_cond (w : WhereCondition) (c : Clause) : Clause :=
  mkClause (whereConds c ++ [w]) (whereLogic c) (subqueries c).
Definition push_subs (l : list SubquerySpec) (c : Clause) : Clause :=
  mkClause (whereConds c) (whereLogic c) (subqueries c ++ l).

Definition compare (c : bytes) (o : operator) (v : bytes) : WhereCondition := Simple (mkCmp c o v [] [] []).
Definition in_cond (c : bytes) (o : operator) (l : list bytes) : WhereCondition := Simple (mkCmp c o [] l [] []).
Definition range_cond (c : bytes) (o : operator) (lo hi : bytes) : WhereCondition := Simple (mkCmp c o [] [] lo hi).

(** A condition, the subqueries it registered, and the tokens behind it. *)
Definition Parsed : Type := WhereCondition * list SubquerySpec * list bytes.

(** ** [parseWhere], on the tokens of [tokenize] *)

(** The characters between the outer parentheses; the rest of the token that
    closes them is dropped. [None]: no parenthesis yet. *)
Fixpoint gather_chars (depth : option nat) (content t : bytes) : bool * option nat * bytes :=
  match t with
  | [] => (false, depth, content)
  | c :: t' =>
      match depth with
      | None => gather_chars (if (c =? LPAREN)%Z then Some 1 else None) content t'
      | Some d =>
          if (c =? LPAREN)%Z then gather_chars (Some (S d)) (content ++ [c]) t'
          else if (c =? RPAREN)%Z then
            if d =? 1 then (true, depth, content) else gather_chars (Some (d - 1)) (content ++ [c]) t'
          else gather_chars depth (content ++ [c]) t'
      end
  end.

Fixpoint gather (depth : option nat) (content : bytes) (ts : list bytes) : bytes * list bytes :=
  match ts with
  | [] => (content, [])
  | t :: ts' =>
      match gather_chars depth content t with
      | (true, _, content) => (content, ts')
      | (false, Some d, content) => gather (Some d) (content ++ [SPACE]) ts'
      | (false, None, content) => gather None content ts'
      end
  end.

Definition is_space_char (c : byte) : bool := (c =? 32)%Z.
Definition strip_spaces (s : bytes) : bytes := rev (drop_while is_space_char (rev (drop_while is_space_char s))).

Section parseWhere.
(** The parser of the clause of a subquery. *)
Context (sub : list bytes -> Clause).

(** The values of the list, or the subquery; [n] conditions stand before this one. *)
Definition parseInList (n : nat) (ts : list bytes) : list bytes * list SubquerySpec * list bytes :=
  let '(content, rest) := gather None [] ts in
  let content := strip_spaces content in
  if bytes_eqb (upper (take 6 content)) (str "SELECT") then
    let '(subCol, l) := next (drop 1 (tokenize content)) in
    let '(subTable, l) := next (skip_kw "FROM" l) in
    let c := if kw 0 "WHERE" l then sub l else no_clause in
    ([], [mkSubquery n subTable subCol (whereConds c) (whereLogic c)], rest)
  else
    (List.filter (fun v => negb (bytes_eqb v [])) (map trim (splitTrim content COMMA)), [], rest).

(** One condition; [None] ends the clause. *)
Definition where_cond (n : nat) (ts : list bytes) : option Parsed :=
  match ts with
  | [] => None
  | t :: rest =>
      let reg := kw 1 "REGEXP" ts || kw 1 "RLIKE" ts in
      if kw 1 "IS" ts && kw 2 "NULL" ts then Some (compare t IS_NULL [], [], drop 3 ts)
      else if kw 1 "IS" ts && kw 2 "NOT" ts && kw 3 "NULL" ts then Some (compare t IS_NOT_NULL [], [], drop 4 ts)
      else if kw 1 "NOT" ts && kw 2 "IN" ts then
        let '(l, sq, r) := parseInList n (drop 3 ts) in Some (in_cond t NOT_IN l, sq, r)
      else if kw 1 "NOT" ts && (kw 2 "REGEXP" ts || kw 2 "RLIKE" ts) && (3 <? length ts) then
        Some (compare t NOT_REGEXP (default [] (ts !! 3)), [], drop 4 ts)
      else if kw 1 "IN" ts then
        let '(l, sq, r) := parseInList n (drop 2 ts) in Some (in_cond t IN l, sq, r)
      else
        match extractColOpVal t with
        | Some (c, o, v) => Some (compare c o v, [], rest)
        | None =>
            match rest with
            | u :: v :: r =>
                if kw 1 "LIKE" ts then Some (compare t LIKE v, [], r)
                else if reg then Some (compare t REGEXP v, [], r)
                else
                  match comparison_op u with
                  | Some o => let '(e, r) := rhs v r in Some (compare t o e, [], r)
                  | None => None
                  end
            | _ => None
            end
        end
  end.
End parseWhere.

Definition ends_where (t : bytes) : bool :=
  bytes_eqb (upper t) (str "ORDER") || bytes_eqb (upper t) (str "LIMIT") || bytes_eqb (upper t) (str "GROUP").

Definition is_and (t : bytes) : bool := bytes_eqb (upper t) AND.
Definition is_or (t : bytes) : bool := bytes_eqb (upper t) OR.

(** The loop behind WHERE; the subquery of a list is parsed with the same loop. *)
Fixpoint where_loop (fuel : nat) (ts : list bytes) (cmd : Clause) : Clause :=
  match fuel, ts with
  | O, _ | _, [] => cmd
  | S f, t :: rest =>
      if ends_where t then cmd
      else if is_and t then where_loop f rest (set_logic AND cmd)
      else if is_or t then where_loop f rest (set_logic OR cmd)
      else
        match where_cond (fun l => where_loop f (drop 1 l) no_clause) (length (whereConds cmd)) ts with
        | Some (c, sq, r) => where_loop f r (push_cond c (push_subs sq cmd))
        | None => cmd
        end
  end.

(** The characters of the tokens and the blanks between them. *)
Definition weight (ts : list bytes) : nat := list_sum (map (fun t => S (length t)) ts).

Definition parseWhere (ts : list bytes) (cmd : Clause) : Clause :=
  if kw 0 "WHERE" ts then where_loop (weight ts) (drop 1 ts) (set_logic AND cmd) else cmd.

(** ** [parseWhereFromFull], on the tokens of [tokenizeFull] *)

(** A comparison of three tokens, or of one that holds its operator. *)
Definition short_comparison (ts : list bytes) : option (WhereCondition * list bytes) :=
  match ts with
  | [] => None
  | t :: rest =>
      let one := match extractColOpVal t with Some (c, o, v) => Some (compare c o v, rest) | None => None end in
      match rest with
      | u :: v :: r => match comparison_op u with Some o => Some (compare t o v, r) | None => one end
      | _ => one
      end
  end.

(** The inside of a parenthesis: comparisons are taken, inner parentheses and
    everything else are skipped. *)
Fixpoint group_loop (fuel : nat) (ts : list bytes) (conds : list WhereCondition) (logic : bytes)
  : list WhereCondition * bytes :=
  match fuel, ts with
  | O, _ | _, [] => (conds, logic)
  | S f, t :: rest =>
      if is_and t then group_loop f rest conds AND
      else if is_or t then group_loop f rest conds OR
      else if bytes_eqb (upper t) (str "(") || bytes_eqb (upper t) (str ")") then group_loop f rest conds logic
      else
        match short_comparison ts with
        | Some (c, r) => group_loop f r (conds ++ [c]) logic
        | None => group_loop f rest conds logic
        end
  end.

(** The conditions of a subquery inside EXISTS or a scalar subquery. *)
Fixpoint sub_loop (fuel : nat) (ts : list bytes) (conds : list SubCond) (logic : bytes)
  : list SubCond * bytes * list bytes :=
  match fuel, ts with
  | O, _ | _, [] => (conds, logic, ts)
  | S f, t :: rest =>
      if bytes_eqb t (str ")") then (conds, logic, ts)
      else if is_and t then sub_loop f rest conds AND
      else if is_or t then sub_loop f rest conds OR
      else
        let one :=
          match extractColOpVal t with
          | Some (c, o, v) => sub_loop f rest (conds ++ [mkSub c o v]) logic
          | None => (conds, logic, ts)
          end in
        match rest with
        | u :: v :: r =>
            if is_and u || is_or u || bytes_eqb u (str ")") then one
            else sub_loop f r (conds ++ [mkSub t (op_of u) v]) logic
        | _ => one
        end
  end.

(** [WHERE] and the conditions behind it, if it stands there. *)
Definition sub_where (ts : list bytes) : list SubCond * bytes * list bytes :=
  if kw 0 "WHERE" ts then sub_loop (length ts) (drop 1 ts) [] AND else ([], AND, ts).

Definition not_close_where (ts : list bytes) : bool :=
  match ts with t :: _ => negb (bytes_eqb t (str ")")) && negb (bytes_eqb (upper t) (str "WHERE")) | [] => false end.

(** The alias of the subquery's table is skipped. *)
Definition skip_alias (ts : list bytes) : list bytes :=
  if not_close_where ts then
    if kw 0 "AS" ts then (if not_close_where (drop 1 ts) then drop 2 ts else drop 1 ts) else drop 1 ts
  else ts.

Definition table_name (ts : list bytes) : bytes * list bytes := if not_close_where ts then next ts else ([], ts).

Fixpoint skip_to_from (ts : list bytes) : list bytes :=
  match ts with
  | [] => []
  | t :: ts' => if bytes_eqb t (str ")") || bytes_eqb (upper t) (str "FROM") then ts else skip_to_from ts'
  end.

Definition parseExistsFromFull (ts : list bytes) : ExistsSpec * list bytes :=
  let ts := skip_kw "FROM" (skip_to_from (skip_kw "SELECT" (skip_tok "(" ts))) in
  let '(tbl, ts) := table_name ts in
  let '(conds, logic, ts) := sub_where (skip_alias ts) in
  let first := default (mkSub [] OTHER []) (head conds) in
  (mkExists tbl (sc_col first) (sc_op first) (sc_val first) conds logic, skip_to_close ts).

Definition AGG : list bytes := [str "COUNT"; str "AVG"; str "SUM"; str "MIN"; str "MAX"].

(** The expression behind SELECT: an aggregate of a column, or a column. *)
Definition scalar_expr (ts : list bytes) : bytes * bytes * list bytes :=
  match ts with
  | [] => ([], [], [])
  | t :: rest =>
      if existsb (bytes_eqb (upper t)) AGG then
        let l := skip_tok "(" rest in
        let '(c, l) := match l with x :: l' => if bytes_eqb x (str ")") then ([], l) else (x, l') | [] => ([], l) end in
        (upper t, c, skip_tok ")" l)
      else if bytes_eqb (upper t) (str "FROM") then ([], [], ts)
      else ([], t, rest)
  end.

(** Here some tokens that follow a table are no alias. *)
Definition scalar_alias (ts : list bytes) : list bytes :=
  if tok 0 "," ts || tok 0 "ORDER" ts || tok 0 "LIMIT" ts then ts else skip_alias ts.

Definition parseScalarSubFromFull (ts : list bytes) : ScalarSubSpec * list bytes :=
  let '(f, c, ts) := scalar_expr (skip_kw "SELECT" ts) in
  let ts := skip_kw "FROM" ts in
  let '(tbl, l) := table_name ts in
  let '(conds, logic, ts) := sub_where (if not_close_where ts then scalar_alias l else l) in
  (mkScalar tbl f c conds logic, skip_to_close ts).

Definition FUNC_LHS_NAMES : list bytes :=
  [str "CAST"; str "JSON_EXTRACT"; str "JSON_LENGTH"; str "JSON_CONTAINS"; str "JSON_TYPE"; str "JSON_KEYS";
   str "JSON_VALID"; str "YEAR"; str "MONTH"; str "DAY"; str "HOUR"; str "MINUTE"; str "SECOND"; str "DATE";
   str "TIME"; str "NOW"; str "CURDATE"; str "CURTIME"; str "UPPER"; str "LOWER"; str "LENGTH"; str "CONCAT";
   str "SUBSTR"; str "TRIM"; str "REPLACE"; str "ABS"; str "ROUND"; str "MOD"; str "COALESCE"; str "IFNULL";
   str "ST_DISTANCE"; str "ST_X"; str "ST_Y"; str "ST_WITHIN"; str "ST_ASTEXT"; str "ARRAY_LENGTH";
   str "ARRAY_CONTAINS"; str "ARRAY_GET"; str "ARRAY_TO_STRING"; str "ARRAY_APPEND"; str "ARRAY_REMOVE";
   str "STRING_TO_ARRAY"].

(** The tokens of a call up to the parenthesis that closes it, a blank before each. *)
Fixpoint call_tokens (depth : Z) (e : bytes) (ts : list bytes) : bytes * list bytes :=
  match ts with
  | [] => (e, [])
  | t :: r =>
      let e := e ++ SPACE :: t in
      if bytes_eqb t (str "(") then call_tokens (depth + 1) e r
      else if bytes_eqb t (str ")") then (if (depth - 1 =? 0)%Z then (e, r) else call_tokens (depth - 1) e r)
      else call_tokens depth e r
  end.

(** Behind the call: an operator and a value, or nothing. *)
Definition func_cond (u : bytes) (ts : list bytes) : Parsed :=
  let '(e, l) := call_tokens 0 u ts in
  match l with
  | o :: l' =>
      if bool_decide (is_Some (comparison_op o)) || bytes_eqb (upper o) (str "LIKE") || bytes_eqb (upper o) (str "REGEXP") then
        let '(v, r) := next l' in (FuncLhs e (mkCmp [] (op_of o) v [] [] []), [], r)
      else (FuncLhs e (mkCmp [] NE (str "0") [] [] []), [], l)
  | [] => (FuncLhs e (mkCmp [] NE (str "0") [] [] []), [], [])
  end.

(** The tokens in front of the next closing parenthesis, and those behind it. *)
Fixpoint until_close (ts : list bytes) : list bytes * list bytes :=
  match ts with
  | [] => ([], [])
  | t :: ts' => if bytes_eqb t (str ")") then ([], ts') else let '(l, r) := until_close ts' in (t :: l, r)
  end.

(** A text between single quotes loses them. *)
Definition unquoted (t : bytes) : bytes :=
  match t with
  | c :: rest => if (2 <=? length t) && (c =? QUOTE)%Z && (List.last t 0 =? QUOTE)%Z then removelast rest else t
  | [] => t
  end.

Definition add_query (q t : bytes) : bytes := (if bytes_eqb q [] then q else q ++ str " ") ++ unquoted t.

(** The mode behind AGAINST ( ... ). *)
Definition match_mode (ts : list bytes) : bytes * list bytes :=
  if (2 <? length ts) && kw 0 "IN" ts then
    if kw 1 "BOOLEAN" ts && kw 2 "MODE" ts && (3 <? length ts) then (str "BOOLEAN", drop 3 ts)
    else if kw 1 "NATURAL" ts && kw 2 "LANGUAGE" ts && kw 3 "MODE" ts && (4 <? length ts) then ([], drop 4 ts)
    else ([], ts)
  else ([], ts).

(** MATCH ( columns ) AGAINST ( query ) *)
Definition match_cond (ts : list bytes) : Parsed :=
  let '(cols, ts) := until_close (skip_tok "(" ts) in
  let '(q, ts) := until_close (skip_tok "(" (skip_kw "AGAINST" ts)) in
  let '(mode, ts) := match_mode ts in
  (Match (List.filter (fun t => negb (bytes_eqb t (str ","))) cols) (fold_left add_query q []) mode, [], ts).

(** ( comparisons ); nothing is added for an empty group. *)
Definition group_cond (ts : list bytes) : option WhereCondition * list bytes :=
  let '(inside, r) := split_close 1 ts in
  let '(conds, logic) := group_loop (length inside) inside [] AND in
  (match conds with [] => None | _ => Some (Group conds logic) end, r).

(** low AND high *)
Definition range_tokens (ts : list bytes) : bytes * bytes * list bytes :=
  let '(lo, ts) := next ts in
  let '(hi, ts) := next (skip_kw "AND" ts) in (lo, hi, ts).

Section parseWhereFromFull.
Context (sub : list bytes -> Clause).

Definition list_table (ts : list bytes) : bytes * list bytes :=
  if tok 0 ")" ts || tok 0 "," ts then ([], ts) else next ts.

Definition parseInListFromFull (n : nat) (ts : list bytes) : list bytes * list SubquerySpec * list bytes :=
  let ts := skip_tok "(" ts in
  if kw 0 "SELECT" ts then
    let '(c, l) := list_table (drop 1 ts) in
    let '(tbl, l) := list_table (skip_kw "FROM" l) in
    let '(inside, r) := split_close 1 l in
    let cl := if kw 0 "WHERE" inside then sub inside else no_clause in
    ([], [mkSubquery n tbl c (whereConds cl) (whereLogic cl)], r)
  else
    let '(l, r) := until_close ts in (List.filter (fun t => negb (bytes_eqb t (str ","))) l, [], r).

Definition one_token (t : bytes) (rest : list bytes) : option Parsed :=
  match extractColOpVal t with Some (c, o, v) => Some (compare c o v, [], rest) | None => None end.

(** A comparison with an operator of its own; the right-hand side may be a scalar subquery. *)
Definition op_cond (ts : list bytes) : option Parsed :=
  match ts with
  | t :: rest =>
      match rest with
      | u :: v :: r =>
          match comparison_op u with
          | Some o =>
              if bytes_eqb v (str "(") && kw 0 "SELECT" r then
                let '(spec, r) := parseScalarSubFromFull r in Some (ScalarSub t o spec, [], r)
              else let '(e, r) := rhs v r in Some (compare t o e, [], r)
          | None => one_token t rest
          end
      | _ => one_token t rest
      end
  | [] => None
  end.

(** One condition; [None] skips a token.  The branch for a NOT behind a column
    that is set already is never taken. *)
Definition full_cond (n : nat) (ts : list bytes) : option Parsed :=
  match ts with
  | [] => None
  | t :: rest =>
      if bytes_eqb (upper t) (str "MATCH") then Some (match_cond rest)
      else if existsb (bytes_eqb (upper t)) FUNC_LHS_NAMES && tok 1 "(" ts then Some (func_cond (upper t) rest)
      else if kw 1 "IS" ts && kw 2 "NULL" ts then Some (compare t IS_NULL [], [], drop 3 ts)
      else if kw 1 "IS" ts && kw 2 "NOT" ts && kw 3 "NULL" ts then Some (compare t IS_NOT_NULL [], [], drop 4 ts)
      else if bytes_eqb (upper t) (str "NOT") && (1 <? length ts) then
        if kw 1 "EXISTS" ts then let '(spec, r) := parseExistsFromFull (drop 2 ts) in Some (Exists false spec, [], r)
        else None
      else if bytes_eqb (upper t) (str "EXISTS") then
        let '(spec, r) := parseExistsFromFull rest in Some (Exists true spec, [], r)
      else if kw 1 "NOT" ts && kw 2 "IN" ts then
        let '(l, sq, r) := parseInListFromFull n (drop 3 ts) in Some (in_cond t NOT_IN l, sq, r)
      else if kw 1 "NOT" ts && kw 2 "BETWEEN" ts then
        let '(lo, hi, r) := range_tokens (drop 3 ts) in Some (range_cond t NOT_BETWEEN lo hi, [], r)
      else if kw 1 "BETWEEN" ts then
        let '(lo, hi, r) := range_tokens (drop 2 ts) in Some (range_cond t BETWEEN lo hi, [], r)
      else if kw 1 "IN" ts then
        let '(l, sq, r) := parseInListFromFull n (drop 2 ts) in Some (in_cond t IN l, sq, r)
      else
        match rest with
        | _ :: v :: r => if kw 1 "LIKE" ts then Some (compare t LIKE v, [], r) else op_cond ts
        | _ => op_cond ts
        end
  end.
End parseWhereFromFull.

Fixpoint full_loop (fuel : nat) (ts : list bytes) (cmd : Clause) : Clause :=
  match fuel, ts with
  | O, _ | _, [] => cmd
  | S f, t :: rest =>
      if is_and t then full_loop f rest (set_logic AND cmd)
      else if is_or t then full_loop f rest (set_logic OR cmd)
      else if ends_where t then cmd
      else if bytes_eqb (upper t) (str "(") then
        let '(g, r) := group_cond rest in
        full_loop f r (match g with Some c => push_cond c cmd | None => cmd end)
      else if bytes_eqb (upper t) (str ")") then full_loop f rest cmd
      else
        match full_cond (fun l => full_loop f (drop 1 l) no_clause) (length (whereConds cmd)) ts with
        | Some (c, sq, r) => full_loop f r (push_cond c (push_subs sq cmd))
        | None => full_loop f rest cmd
        end
  end.

(** [ts]: the tokens from the start of the clause to its end. *)
Definition parseWhereFromFull (ts : list bytes) (cmd : Clause) : Clause :=
  if kw 0 "WHERE" ts then full_loop (length ts) (drop 1 ts) (set_logic AND cmd) else cmd.

(** ** Every part reads a prefix of the tokens *)

Create HintDb suffixes.

Lemma suffix_drop {A} k (l : list A) : drop k l `suffix_of` l.
Proof. exists (take k l). by rewrite take_drop. Qed.

Lemma suffix_tail {A} (x : A) l l' : l `suffix_of` l' -> l `suffix_of` x :: l'.
Proof. apply suffix_cons_r. Qed.

Lemma suffix_refl' {A} (l : list A) : l `suffix_of` l.
Proof. reflexivity. Qed.

Lemma suffix_skip_kw w ts : skip_kw w ts `suffix_of` ts.
Proof. unfold skip_kw. destruct (kw _ _ _); [apply suffix_drop|done]. Qed.

Lemma suffix_skip_tok w ts : skip_tok w ts `suffix_of` ts.
Proof. unfold skip_tok. destruct (tok _ _ _); [apply suffix_drop|done]. Qed.

Lemma suffix_next ts : (next ts).2 `suffix_of` ts.
Proof. destruct ts; [done|]. by apply suffix_cons_r. Qed.

Lemma suffix_skip_to_close ts : skip_to_close ts `suffix_of` ts.
Proof.
  induction ts as [|t ts IH]; [done|]. cbn. destruct (bytes_eqb _ _); [by apply suffix_cons_r|].
  by apply suffix_cons_r.
Qed.

Lemma suffix_skip_to_from ts : skip_to_from ts `suffix_of` ts.
Proof. induction ts as [|t ts IH]; [done|]. cbn. destruct (_ || _); [done|]. by apply suffix_cons_r. Qed.

Lemma suffix_split_close d ts : (split_close d ts).2 `suffix_of` ts.
Proof.
  revert d. induction ts as [|t ts IH]; intros d; [done|]. cbn [split_close].
  assert (forall d', (let '(l, r) := split_close d' ts in (t :: l, r)).2 `suffix_of` t :: ts) as H.
  { intros d'. specialize (IH d'). destruct (split_close d' ts). by apply suffix_cons_r. }
  destruct (bytes_eqb t (str "(")); [apply H|]. destruct (bytes_eqb t (str ")")); [|apply H].
  destruct d as [|[|d]]; [by apply suffix_cons_r..|apply H].
Qed.

Lemma suffix_until_close ts : (until_close ts).2 `suffix_of` ts.
Proof.
  induction ts as [|t ts IH]; [done|]. cbn [until_close]. destruct (bytes_eqb _ _); [by apply suffix_cons_r|].
  destruct (until_close ts). by apply suffix_cons_r.
Qed.

Lemma suffix_call_tokens d e ts : (call_tokens d e ts).2 `suffix_of` ts.
Proof.
  revert d e. induction ts as [|t ts IH]; intros d e; [done|]. cbn [call_tokens].
  destruct (bytes_eqb t (str "(")); [apply suffix_cons_r, IH|]. destruct (bytes_eqb t (str ")")); [|apply suffix_cons_r, IH].
  destruct (_ =? _)%Z; [by apply suffix_cons_r|apply suffix_cons_r, IH].
Qed.

Lemma suffix_rhs e ts : (rhs e ts).2 `suffix_of` ts.
Proof.
  remember (length ts) as n eqn:Hn. revert e ts Hn. induction n as [n IH] using lt_wf_ind. intros e [|t [|u r]] ->; [done| |].
  - cbn [rhs]. destruct (ARITH_STOP t); [done|]. destruct (is_arith t); [by apply suffix_cons_r|done].
  - cbn [rhs]. destruct (ARITH_STOP t); [done|]. destruct (is_arith t); [|done].
    destruct (ARITH_STOP u); [by apply suffix_cons_r|]. do 2 apply suffix_cons_r. eapply IH; [|reflexivity]. simpl. lia.
Qed.

Lemma suffix_sub_loop f ts conds logic : (sub_loop f ts conds logic).2 `suffix_of` ts.
Proof.
  revert ts conds logic. induction f as [|f IH]; intros [|t rest] conds logic; [done..|]. cbn [sub_loop].
  destruct (bytes_eqb t (str ")")); [done|]. destruct (is_and t); [apply suffix_cons_r, IH|].
  destruct (is_or t); [apply suffix_cons_r, IH|].
  assert ((match extractColOpVal t with
           | Some (c, o, v) => sub_loop f rest (conds ++ [mkSub c o v]) logic
           | None => (conds, logic, t :: rest) end).2 `suffix_of` t :: rest) as Hone.
  { destruct (extractColOpVal t) as [[[c o] v]|]; [apply suffix_cons_r, IH|done]. }
  destruct rest as [|u [|v r]]; [done..|]. destruct (_ || _); [done|]. do 3 apply suffix_cons_r. apply IH.
Qed.

#[export] Hint Resolve suffix_drop suffix_skip_kw suffix_skip_tok suffix_next suffix_skip_to_close
  suffix_skip_to_from suffix_split_close suffix_until_close suffix_call_tokens suffix_rhs suffix_sub_loop : suffixes.

(** The result of a function is a suffix of its argument, hence of what that is a suffix of. *)
Ltac suffixes :=
  cbn [fst snd];
  repeat first
    [ reflexivity
    | match goal with
      | E : ?p = (_, ?r) |- ?r `suffix_of` _ => apply (f_equal snd) in E; cbn [snd] in E; rewrite <- E; clear E
      end
    | etransitivity; [solve [eauto 2 with suffixes nocore]|]
    | apply suffix_cons_r ].

(** Names the pairs of the goal. *)
Ltac pairs := repeat match goal with |- context [let '(_, _) := ?p in _] => let E := fresh "E" in destruct p eqn:E end.

Lemma suffix_skip_alias ts : skip_alias ts `suffix_of` ts.
Proof.
  unfold skip_alias. destruct (not_close_where ts); [|done]. destruct (kw _ _ _); [destruct (not_close_where _)|]; suffixes.
Qed.
Lemma suffix_scalar_alias ts : scalar_alias ts `suffix_of` ts.
Proof. unfold scalar_alias. destruct (_ || _); [done|apply suffix_skip_alias]. Qed.
Lemma suffix_table_name ts : (table_name ts).2 `suffix_of` ts.
Proof. unfold table_name. destruct (not_close_where ts); suffixes. Qed.
Lemma suffix_sub_where ts : (sub_where ts).2 `suffix_of` ts.
Proof. unfold sub_where. destruct (kw _ _ _); suffixes. Qed.
Lemma suffix_list_table ts : (list_table ts).2 `suffix_of` ts.
Proof. unfold list_table. destruct (_ || _); suffixes. Qed.
Lemma suffix_range_tokens ts : (range_tokens ts).2 `suffix_of` ts.
Proof. unfold range_tokens. pairs. suffixes. Qed.
Lemma suffix_match_mode ts : (match_mode ts).2 `suffix_of` ts.
Proof. unfold match_mode. destruct (_ && _); [|done]. destruct (_ && _); [suffixes|]. destruct (_ && _); suffixes. Qed.
Lemma suffix_group_cond ts : (group_cond ts).2 `suffix_of` ts.
Proof. unfold group_cond. destruct (split_close 1 ts) eqn:E. destruct (group_loop _ _ _ _). suffixes. Qed.
Lemma suffix_scalar_expr ts : (scalar_expr ts).2 `suffix_of` ts.
Proof.
  destruct ts as [|t rest]; [done|]. cbn [scalar_expr]. destruct (existsb _ _).
  - destruct (skip_tok "(" rest) as [|x l] eqn:E; [|destruct (bytes_eqb x (str ")"))].
    + cbn. apply suffix_nil.
    + cbn [fst snd]. rewrite <- E. suffixes.
    + cbn [fst snd]. assert (x :: l `suffix_of` rest) as H by (rewrite <- E; suffixes).
      etransitivity; [apply suffix_skip_tok|]. apply suffix_cons_r. etransitivity; [|exact H]. by apply suffix_cons_r.
  - destruct (bytes_eqb _ _); [done|]. by apply suffix_cons_r.
Qed.
#[export] Hint Resolve suffix_skip_alias suffix_scalar_alias suffix_table_name suffix_sub_where suffix_list_table
  suffix_range_tokens suffix_match_mode suffix_group_cond suffix_scalar_expr : suffixes.

Lemma suffix_parseExists ts : (parseExistsFromFull ts).2 `suffix_of` ts.
Proof. unfold parseExistsFromFull. pairs. suffixes. Qed.
Lemma suffix_parseScalarSub ts : (parseScalarSubFromFull ts).2 `suffix_of` ts.
Proof.
  unfold parseScalarSubFromFull. destruct (scalar_expr (skip_kw "SELECT" ts)) as [[f c] l] eqn:E.
  destruct (not_close_where (skip_kw "FROM" l)); pairs; suffixes.
Qed.
Lemma suffix_parseInListFromFull sub n ts : (parseInListFromFull sub n ts).2 `suffix_of` ts.
Proof. unfold parseInListFromFull. destruct (kw _ _ _); pairs; suffixes. Qed.
Lemma suffix_func_cond u ts : (func_cond u ts).2 `suffix_of` ts.
Proof.
  unfold func_cond. destruct (call_tokens 0 u ts) as [e l] eqn:E. destruct l as [|o l']; [apply suffix_nil|].
  destruct (_ || _).
  - destruct (next l') eqn:En. cbn [snd]. assert (o :: l' `suffix_of` ts) as H by suffixes.
    etransitivity; [|exact H]. apply suffix_cons_r. suffixes.
  - suffixes.
Qed.
Lemma suffix_match_cond ts : (match_cond ts).2 `suffix_of` ts.
Proof. unfold match_cond. pairs. suffixes. Qed.
#[export] Hint Resolve suffix_parseExists suffix_parseScalarSub suffix_parseInListFromFull suffix_func_cond
  suffix_match_cond : suffixes.

Lemma suffix_op_cond t rest p : op_cond (t :: rest) = Some p -> p.2 `suffix_of` rest.
Proof.
  cbn [op_cond]. assert (one_token t rest = Some p -> p.2 `suffix_of` rest) as Hone.
  { unfold one_token. destruct (extractColOpVal t) as [[[c o] v]|]; [|done]. by intros [= <-]. }
  destruct rest as [|u [|v r]]; [apply Hone..|]. destruct (comparison_op u); [|apply Hone].
  destruct (_ && _).
  - pairs. intros [= <-]. suffixes.
  - pairs. intros [= <-]. suffixes.
Qed.

Ltac branch :=
  match goal with
  | |- (if ?b then _ else _) = _ -> _ => destruct b
  | |- context [let '(_, _) := ?p in _] => let E := fresh "E" in destruct p eqn:E
  | |- Some _ = Some _ -> _ => intros [= <-]
  end.

Lemma suffix_full_cond sub n t rest p : full_cond sub n (t :: rest) = Some p -> p.2 `suffix_of` rest.
Proof.
  cbn [full_cond]. change (drop 4 (t :: rest)) with (drop 3 rest). change (drop 3 (t :: rest)) with (drop 2 rest).
  change (drop 2 (t :: rest)) with (drop 1 rest).
  assert ((match rest with
           | _ :: v :: r => if kw 1 "LIKE" (t :: rest) then Some (compare t LIKE v, [], r) else op_cond (t :: rest)
           | _ => op_cond (t :: rest)
           end) = Some p -> p.2 `suffix_of` rest) as Hop.
  { pose proof (suffix_op_cond t rest p) as H. destruct rest as [|u [|v r]]; [exact H..|]. branch; [|exact H]. branch. suffixes. }
  do 2 (branch; [branch; suffixes|]). repeat (branch; [repeat branch; try done; suffixes|]). exact Hop.
Qed.

(** ** The fuel is enough *)

Lemma suffix_length {A} (l l' : list A) : l `suffix_of` l' -> length l <= length l'.
Proof. intros [k ->]. rewrite length_app. lia. Qed.

Lemma split_close_inside d ts : length (split_close d ts).1 <= length ts.
Proof.
  revert d. induction ts as [|t ts IH]; intros d; [done|]. cbn [split_close].
  assert (forall d', length (let '(l, r) := split_close d' ts in (t :: l, r)).1 <= length (t :: ts)) as H.
  { intros d'. specialize (IH d'). destruct (split_close d' ts). simpl in *. lia. }
  destruct (bytes_eqb t (str "(")); [apply H|]. destruct (bytes_eqb t (str ")")); [|apply H].
  destruct d as [|[|d]]; [simpl; lia..|apply H].
Qed.

Lemma parseInListFromFull_ext sub sub' n ts :
  (forall l, length l <= length ts -> sub l = sub' l) -> parseInListFromFull sub n ts = parseInListFromFull sub' n ts.
Proof.
  intros Hs. unfold parseInListFromFull. destruct (kw 0 "SELECT" (skip_tok "(" ts)); [|done].
  destruct (list_table (drop 1 (skip_tok "(" ts))) as [c l1] eqn:E1. destruct (list_table (skip_kw "FROM" l1)) as [tbl l2] eqn:E2.
  destruct (split_close 1 l2) as [inside r] eqn:E3.
  assert (length inside <= length ts) as Hlen.
  { pose proof (split_close_inside 1 l2) as H. rewrite E3 in H. cbn [fst] in H.
    enough (l2 `suffix_of` ts) as H2%suffix_length by lia. suffixes. }
  destruct (kw 0 "WHERE" inside); [|done]. by rewrite (Hs inside).
Qed.

Lemma full_cond_ext sub sub' n ts :
  (forall l, length l < length ts -> sub l = sub' l) -> full_cond sub n ts = full_cond sub' n ts.
Proof.
  destruct ts as [|t rest]; [done|]. intros Hs. cbn [full_cond].
  assert (forall k, parseInListFromFull sub n (drop (S k) (t :: rest)) = parseInListFromFull sub' n (drop (S k) (t :: rest))) as H.
  { intros k. apply parseInListFromFull_ext. intros l Hl. apply Hs. cbn [drop length] in *.
    pose proof (suffix_length _ _ (suffix_drop k rest)). lia. }
  by rewrite !H.
Qed.

Lemma full_loop_fuel f f' ts cmd :
  length ts <= f -> length ts <= f' -> full_loop f ts cmd = full_loop f' ts cmd.
Proof.
  revert f' ts cmd. induction f as [|f IH]; intros [|f'] [|t rest] cmd Hf Hf'; cbn [length] in *; try lia; try done.
  cbn [full_loop]. assert (forall r c, r `suffix_of` rest -> full_loop f r c = full_loop f' r c) as Hrec.
  { intros r c Hr%suffix_length. apply IH; lia. }
  destruct (is_and t); [by apply Hrec|]. destruct (is_or t); [by apply Hrec|]. destruct (ends_where t); [done|].
  destruct (bytes_eqb (upper t) (str "(")).
  { pose proof (suffix_group_cond rest). destruct (group_cond rest) as [g r]. by apply Hrec. }
  destruct (bytes_eqb (upper t) (str ")")); [by apply Hrec|].
  rewrite (full_cond_ext _ (fun l => full_loop f' (drop 1 l) no_clause)).
  2: { intros l Hl. cbn [length] in Hl. pose proof (suffix_length _ _ (suffix_drop 1 l)). apply IH; lia. }
  destruct (full_cond _ _ _) as [[[c sq] r]|] eqn:E; [|by apply Hrec].
  apply suffix_full_cond in E. by apply Hrec.
Qed.

(** The loop without fuel. *)
Definition full_clause (ts : list bytes) (cmd : Clause) : Clause := full_loop (length ts) ts cmd.

(** The clause of a subquery. *)
Definition sub_full (l : list bytes) : Clause := full_clause (drop 1 l) no_clause.

Lemma full_clause_cons t rest cmd :
  full_clause (t :: rest) cmd =
    if is_and t then full_clause rest (set_logic AND cmd)
    else if is_or t then full_clause rest (set_logic OR cmd)
    else if ends_where t then cmd
    else if bytes_eqb (upper t) (str "(") then
      let '(g, r) := group_cond rest in full_clause r (match g with Some c => push_cond c cmd | None => cmd end)
    else if bytes_eqb (upper t) (str ")") then full_clause rest cmd
    else
      match full_cond sub_full (length (whereConds cmd)) (t :: rest) with
      | Some (c, sq, r) => full_clause r (push_cond c (push_subs sq cmd))
      | None => full_clause rest cmd
      end.
Proof.
  unfold full_clause at 1. cbn [length full_loop].
  assert (forall r c, r `suffix_of` rest -> full_loop (length rest) r c = full_clause r c) as Hrec.
  { intros r c Hr%suffix_length. by apply full_loop_fuel. }
  rewrite !Hrec by done. destruct (group_cond rest) as [g r] eqn:Eg.
  assert (r `suffix_of` rest) as Hg by suffixes. rewrite Hrec by done.
  rewrite (full_cond_ext _ sub_full).
  2: { intros l Hl. cbn [length] in Hl. pose proof (suffix_length _ _ (suffix_drop 1 l)). apply full_loop_fuel; lia. }
  destruct (full_cond sub_full (length (whereConds cmd)) (t :: rest)) as [[[c sq] r2]|] eqn:E; [|done].
  apply suffix_full_cond in E. cbn [snd] in E. by rewrite Hrec.
Qed.

(** ** The loop of [parseWhere] ends *)

Lemma weight_app ts us : weight (ts ++ us) = weight ts + weight us.
Proof. unfold weight. by rewrite map_app, list_sum_app. Qed.

Lemma weight_cons t ts : weight (t :: ts) = S (length t) + weight ts.
Proof. done. Qed.

Lemma weight_suffix ts us : ts `suffix_of` us -> weight ts <= weight us.
Proof. intros [k ->]. rewrite weight_app. lia. Qed.

Lemma weight_emit cur : weight (emit cur) <= S (length cur).
Proof. unfold emit. case_match; [|rewrite weight_cons]; change (weight []) with 0; lia. Qed.

Lemma weight_tokenize s : weight (tokenize s) <= S (length s).
Proof.
  unfold tokenize. change (S (length s)) with (S (length (A := byte) [] + length s)). generalize ([] : bytes) as cur. generalize (None : option byte) as q.
  induction s as [|c s IH]; intros q cur; cbn [tokenize_from length].
  - pose proof (weight_emit cur). lia.
  - assert (forall p, weight (tokenize_from p (cur ++ [c]) s) <= S (length cur + S (length s))) as H.
    { intros p. specialize (IH p (cur ++ [c])). rewrite length_app in IH. simpl in IH. lia. }
    destruct q as [x|]; [apply H|]. destruct (is_quote c); [apply H|]. destruct (is_sep c); [|apply H].
    rewrite weight_app. pose proof (weight_emit cur). specialize (IH None []). simpl in IH. lia.
Qed.

Lemma gather_chars_length d content t : length (gather_chars d content t).2 <= length content + length t.
Proof.
  revert d content. induction t as [|c t IH]; intros d content; cbn [gather_chars length]; [simpl; lia|].
  assert (forall e, length (gather_chars e (content ++ [c]) t).2 <= length content + S (length t)) as H.
  { intros e. specialize (IH e (content ++ [c])). rewrite length_app in IH. simpl in IH. lia. }
  destruct d as [d|].
  - destruct (c =? LPAREN)%Z; [apply H|]. destruct (c =? RPAREN)%Z; [|apply H]. destruct (d =? 1); [simpl; lia|apply H].
  - etransitivity; [apply IH|]. lia.
Qed.

Lemma gather_weight d content ts : length (gather d content ts).1 + weight (gather d content ts).2 <= length content + weight ts.
Proof.
  revert d content. induction ts as [|t ts IH]; intros d content; cbn [gather]; [simpl; lia|].
  rewrite weight_cons. pose proof (gather_chars_length d content t) as Hc.
  destruct (gather_chars d content t) as [[b d'] content']. cbn [snd] in Hc. destruct b; [simpl; lia|]. destruct d' as [d'|].
  - specialize (IH (Some d') (content' ++ [SPACE])). rewrite length_app in IH. simpl in IH |- *. lia.
  - specialize (IH None content'). lia.
Qed.

Lemma drop_while_length {A} (p : A -> bool) l : length (drop_while p l) <= length l.
Proof. induction l as [|x l IH]; [done|]. cbn. destruct (p x); simpl; lia. Qed.

Lemma strip_spaces_length s : length (strip_spaces s) <= length s.
Proof.
  unfold strip_spaces. rewrite length_rev. etransitivity; [apply drop_while_length|]. rewrite length_rev. apply drop_while_length.
Qed.

Lemma parseInList_weight sub n ts : weight (parseInList sub n ts).2 <= weight ts.
Proof.
  unfold parseInList. pose proof (gather_weight None [] ts) as H. destruct (gather None [] ts) as [content rest]. cbn [fst snd] in H.
  destruct (bytes_eqb _ _); [|simpl in *; lia]. destruct (next _) as [? l]. destruct (next _) as [? l2]. simpl in *; lia.
Qed.

Lemma parseInList_ext sub sub' n ts :
  (forall l, weight l <= S (weight ts) -> sub l = sub' l) -> parseInList sub n ts = parseInList sub' n ts.
Proof.
  intros Hs. unfold parseInList. pose proof (gather_weight None [] ts) as H. destruct (gather None [] ts) as [content rest]. cbn [fst snd] in H.
  destruct (bytes_eqb _ _); [|done].
  destruct (next (drop 1 (tokenize (strip_spaces content)))) as [c l1] eqn:E1. destruct (next (skip_kw "FROM" l1)) as [tbl l2] eqn:E2.
  destruct (kw 0 "WHERE" l2); [|done]. rewrite (Hs l2); [done|].
  assert (l2 `suffix_of` tokenize (strip_spaces content)) as Hl%weight_suffix by suffixes.
  pose proof (weight_tokenize (strip_spaces content)). pose proof (strip_spaces_length content). simpl in H. lia.
Qed.

(** A word at position [k] takes its share of the weight. *)
Lemma kw_weight k w ts : kw k w ts = true -> S (weight (drop (S k) ts)) <= weight ts.
Proof.
  unfold kw. destruct (ts !! k) as [u|] eqn:E; [|done]. intros _. apply take_drop_middle in E.
  rewrite <- E at 2. rewrite weight_app, weight_cons. lia.
Qed.

Lemma where_cond_weight sub n t rest p : where_cond sub n (t :: rest) = Some p -> weight p.2 <= weight rest.
Proof.
  cbn [where_cond]. change (drop 4 (t :: rest)) with (drop 3 rest). change (drop 3 (t :: rest)) with (drop 2 rest).
  change (drop 2 (t :: rest)) with (drop 1 rest).
  assert (forall k, weight (drop k rest) <= weight rest) as Hd by (intros k; apply weight_suffix, suffix_drop).
  repeat (branch; [repeat branch; try (apply Hd);
    repeat match goal with E : parseInList _ _ ?l = (_, _, ?r) |- _ =>
      pose proof (parseInList_weight sub n l) as Hw; rewrite E in Hw; cbn [snd] in *; etransitivity; [exact Hw|apply Hd] end|]).
  destruct (extractColOpVal t) as [[[c o] v]|]; [by intros [= <-]|].
  destruct rest as [|u [|v r]]; [done..|]. assert (weight r <= weight (u :: v :: r)) as Hr by (rewrite !weight_cons; lia).
  do 2 (branch; [branch; exact Hr|]). destruct (comparison_op u); [|done]. pairs. intros [= <-]. cbn [snd].
  etransitivity; [|exact Hr]. apply weight_suffix. suffixes.
Qed.

Lemma where_cond_ext sub sub' n ts :
  (forall l, weight l < weight ts -> sub l = sub' l) -> where_cond sub n ts = where_cond sub' n ts.
Proof.
  destruct ts as [|t rest]; [done|]. intros Hs. cbn [where_cond].
  assert (forall k, kw (S k) "IN" (t :: rest) = true ->
    parseInList sub n (drop (S (S k)) (t :: rest)) = parseInList sub' n (drop (S (S k)) (t :: rest))) as H.
  { intros k Hk. apply parseInList_ext. intros l Hl. apply Hs. rewrite weight_cons.
    change (kw (S k) "IN" (t :: rest)) with (kw k "IN" rest) in Hk. apply kw_weight in Hk.
    change (drop (S (S k)) (t :: rest)) with (drop (S k) rest) in Hl. lia. }
  do 2 (destruct (_ && _); [done|]). destruct (kw 1 "NOT" (t :: rest) && kw 2 "IN" (t :: rest)) eqn:E.
  { apply andb_true_iff in E as [_ E]. by rewrite (H 1). }
  destruct (_ && _); [done|]. destruct (kw 1 "IN" (t :: rest)) eqn:E2; [|done]. by rewrite (H 0).
Qed.

Lemma where_loop_fuel f f' ts cmd :
  weight ts <= f -> weight ts <= f' -> where_loop f ts cmd = where_loop f' ts cmd.
Proof.
  revert f' ts cmd. induction f as [|f IH]; intros [|f'] [|t rest] cmd Hf Hf'; rewrite ?weight_cons in *; try lia; try done.
  cbn [where_loop]. assert (forall r c, weight r <= weight rest -> where_loop f r c = where_loop f' r c) as Hrec.
  { intros r c Hr. apply IH; lia. }
  destruct (ends_where t); [done|]. destruct (is_and t); [by apply Hrec|]. destruct (is_or t); [by apply Hrec|].
  rewrite (where_cond_ext _ (fun l => where_loop f' (drop 1 l) no_clause)).
  2: { intros l Hl. rewrite weight_cons in Hl. pose proof (weight_suffix _ _ (suffix_drop 1 l)). apply IH; lia. }
  destruct (where_cond _ _ _) as [[[c sq] r]|] eqn:E; [|done]. apply where_cond_weight in E. by apply Hrec.
Qed.

(** The loop without fuel. *)
Definition word_clause (ts : list bytes) (cmd : Clause) : Clause := where_loop (weight ts) ts cmd.
Definition sub_word (l : list bytes) : Clause := word_clause (drop 1 l) no_clause.

Lemma word_clause_cons t rest cmd :
  word_clause (t :: rest) cmd =
    if ends_where t then cmd
    else if is_and t then word_clause rest (set_logic AND cmd)
    else if is_or t then word_clause rest (set_logic OR cmd)
    else
      match where_cond sub_word (length (whereConds cmd)) (t :: rest) with
      | Some (c, sq, r) => word_clause r (push_cond c (push_subs sq cmd))
      | None => cmd
      end.
Proof.
  unfold word_clause at 1. rewrite weight_cons. change (S (length t) + weight rest) with (S (length t + weight rest)). cbn [where_loop].
  assert (forall r c, weight r <= weight rest -> where_loop (length t + weight rest) r c = word_clause r c) as Hrec.
  { intros r c Hr. apply where_loop_fuel; lia. }
  rewrite !Hrec by done.
  rewrite (where_cond_ext _ sub_word).
  2: { intros l Hl. rewrite weight_cons in Hl. pose proof (weight_suffix _ _ (suffix_drop 1 l)). apply where_loop_fuel; lia. }
  destruct (where_cond sub_word (length (whereConds cmd)) (t :: rest)) as [[[c sq] r]|] eqn:E; [|done].
  apply where_cond_weight in E. cbn [snd] in E. by rewrite Hrec.
Qed.
