(* ===== verification/WhereSyntax.v ===== *)
(** * WHERE clauses as they are written, and what the parser makes of them

    A syntax tree of clauses, its tokens, what it says ([says]), and what the parser
    of [WhereParser.v] makes of every well-formed tree ([clause_of]); the lexer of
    [Lexer.v] carries that to texts.  The connectives of one clause have one place
    in the result, so the last one decides for all, and a subquery of a subquery has
    none: for the clauses without either ([whole]) the result says what is
    written. *)

From S2P Require Import Prelude Index Partition Table Arith Where Columns Triggers Lexer WhereParser.

(** ** Syntax *)

(** [pos = false] stands for the negated form; a clause is a list of conditions,
    each with the connective in front of it ([true]: AND; that of the first is
    not written). *)
Inductive Cond :=
| CCmp (c o v : bytes) (es : list (bytes * bytes))
| CNull (pos : bool) (c : bytes)
| CLike (c v : bytes)
| CBetween (pos : bool) (c lo hi : bytes)
| CIn (pos : bool) (c : bytes) (vs : list bytes)
| CInSelect (pos : bool) (c scol tbl : bytes) (w : list (bool * Cond))
| CGroup (g : list (bool * (bytes * bytes * bytes)))
| CExists (pos : bool) (sel tbl : bytes) (g : list (bool * (bytes * bytes * bytes)))
| CScalar (c o agg acol tbl : bytes) (g : list (bool * (bytes * bytes * bytes)))
| CFunc (f : bytes) (args : list bytes) (o v : bytes).

Definition conn (b : bool) : bytes := if b then AND else OR.
Definition LP : bytes := str "(".
Definition RP : bytes := str ")".

(** [x1 conn2 x2 conn3 x3 ...] *)
Definition chain {A} (toks : A -> list bytes) (l : list (bool * A)) : list bytes :=
  match l with
  | [] => []
  | (_, x) :: l' => toks x ++ flat_map (fun p => conn p.1 :: toks p.2) l'
  end.

Fixpoint commas (vs : list bytes) : list bytes :=
  match vs with [] => [] | [v] => [v] | v :: vs' => v :: str "," :: commas vs' end.

Definition triple (t : bytes * bytes * bytes) : list bytes := let '(c, o, v) := t in [c; o; v].

(** [ WHERE ...] of a subquery. *)
Definition where_tokens (ts : list bytes) : list bytes := match ts with [] => [] | _ => str "WHERE" :: ts end.

Fixpoint tokens (c : Cond) : list bytes :=
  match c with
  | CCmp c o v es => c :: o :: v :: flat_map (fun e => [e.1; e.2]) es
  | CNull true c => [c; str "IS"; str "NULL"]
  | CNull false c => [c; str "IS"; str "NOT"; str "NULL"]
  | CLike c v => [c; str "LIKE"; v]
  | CBetween true c lo hi => [c; str "BETWEEN"; lo; AND; hi]
  | CBetween false c lo hi => [c; str "NOT"; str "BETWEEN"; lo; AND; hi]
  | CIn pos c vs => c :: (if pos then [str "IN"] else [str "NOT"; str "IN"]) ++ LP :: commas vs ++ [RP]
  | CInSelect pos c sc tbl w =>
      c :: (if pos then [str "IN"] else [str "NOT"; str "IN"]) ++ LP :: str "SELECT" :: sc :: str "FROM" :: tbl ::
        where_tokens (chain tokens w) ++ [RP]
  | CGroup g => LP :: chain triple g ++ [RP]
  | CExists pos sel tbl g =>
      (if pos then [str "EXISTS"] else [str "NOT"; str "EXISTS"]) ++ LP :: str "SELECT" :: sel :: str "FROM" :: tbl ::
        where_tokens (chain triple g) ++ [RP]
  | CScalar c o agg ac tbl g =>
      c :: o :: LP :: str "SELECT" :: agg :: LP :: ac :: RP :: str "FROM" :: tbl :: where_tokens (chain triple g) ++ [RP]
  | CFunc f args o v => f :: LP :: args ++ [RP; o; v]
  end.

(** ** Meaning *)

(** The connective in front of the last condition. *)
Definition last_conn {A} (l : list (bool * A)) : bytes := fold_left (fun _ p => conn p.1) (tail l) AND.

Definition comparison (t : bytes * bytes * bytes) : WhereCondition := let '(c, o, v) := t in compare c (op_of o) v.
Definition sub_comparison (t : bytes * bytes * bytes) : SubCond := let '(c, o, v) := t in mkSub c (op_of o) v.

Definition exists_spec (tbl : bytes) (g : list (bool * (bytes * bytes * bytes))) : ExistsSpec :=
  let conds := map (fun p => sub_comparison p.2) g in
  let first := default (mkSub [] OTHER []) (head conds) in
  mkExists tbl (sc_col first) (sc_op first) (sc_val first) conds (last_conn g).

Definition meaning (c : Cond) : WhereCondition :=
  match c with
  | CCmp c o v es => compare c (op_of o) (v ++ mjoin (map (fun e => e.1 ++ e.2) es))
  | CNull pos c => compare c (if pos then IS_NULL else IS_NOT_NULL) []
  | CLike c v => compare c LIKE v
  | CBetween pos c lo hi => range_cond c (if pos then BETWEEN else NOT_BETWEEN) lo hi
  | CIn pos c vs => in_cond c (if pos then IN else NOT_IN) vs
  | CInSelect pos c _ _ _ => in_cond c (if pos then IN else NOT_IN) []
  | CGroup g => Group (map (fun p => comparison p.2) g) (last_conn g)
  | CExists pos _ tbl g => Exists pos (exists_spec tbl g)
  | CScalar c o agg ac tbl g =>
      ScalarSub c (op_of o) (mkScalar tbl (upper agg) ac (map (fun p => sub_comparison p.2) g) (last_conn g))
  | CFunc f args o v =>
      FuncLhs (upper f ++ SPACE :: LP ++ flat_map (fun a => SPACE :: a) args ++ SPACE :: RP) (mkCmp [] (op_of o) v [] [] [])
  end.

(** The subqueries condition number [n] registers. *)
Definition subs (n : nat) (c : Cond) : list SubquerySpec :=
  match c with
  | CInSelect _ _ sc tbl w => [mkSubquery n tbl sc (map (fun p => meaning p.2) w) (last_conn w)]
  | _ => []
  end.

Fixpoint all_subs (n : nat) (l : list (bool * Cond)) : list SubquerySpec :=
  match l with [] => [] | (_, c) :: l' => subs n c ++ all_subs (S n) l' end.

Definition clause_of (l : list (bool * Cond)) : Clause :=
  mkClause (map (fun p => meaning p.2) l) (last_conn l) (all_subs 0 l).

Lemma forallb_Forall {A} (f : A -> bool) l : forallb f l = true <-> Forall (fun x => f x = true) l.
Proof. rewrite forallb_forall, Forall_forall. split; intros H x Hx; apply H; by apply list_elem_of_In. Qed.

(** The connectives of a list are all the same, so that the last one is each of them. *)
Definition one_conn {A} (l : list (bool * A)) : bool :=
  match tail l with [] => true | (b, _) :: l' => forallb (fun p => Bool.eqb p.1 b) l' end.

Lemma one_conn_last {A} (l : list (bool * A)) : one_conn l = true -> Forall (fun p => conn p.1 = last_conn l) (tail l).
Proof.
  unfold one_conn, last_conn. destruct (tail l) as [|[b x] l']; [constructor|]. cbn [fold_left fst]. intros H.
  rewrite forallb_forall in H.
  assert (fold_left (fun (_ : bytes) p => conn p.1) l' (conn b) = conn b) as ->.
  { clear x. induction l' as [|[c y] l' IH]; [done|]. cbn [fold_left fst].
    pose proof (H (c, y) (or_introl eq_refl)) as E%eqb_prop. cbn [fst] in E. subst c. apply IH. intros p Hp. apply H. by right. }
  constructor; [done|]. apply Forall_forall. intros p Hp. f_equal. by apply eqb_prop, H, list_elem_of_In.
Qed.

(** ** What a clause says

    The same without the parser's bookkeeping: a connective joins a list if it is
    the one in front of each of its conditions, and a subquery keeps its clause
    whole.  The parser's result can say this for clauses with one connective in
    each list and no subquery inside a subquery, and does ([clause_says]). *)

Definition connects {A} (l : list (bool * A)) (logic : bytes) : Prop := Forall (fun p => conn p.1 = logic) (tail l).

Definition is_subquery (c : Cond) : bool := match c with CInSelect _ _ _ _ _ => true | _ => false end.

(** The values of IN (SELECT ...) are filled in later, from the subquery. *)
Inductive means : Cond -> WhereCondition -> Prop :=
| means_cmp c o v es : means (CCmp c o v es) (compare c (op_of o) (v ++ mjoin (map (fun e => e.1 ++ e.2) es)))
| means_null pos c : means (CNull pos c) (compare c (if pos then IS_NULL else IS_NOT_NULL) [])
| means_like c v : means (CLike c v) (compare c LIKE v)
| means_between pos c lo hi : means (CBetween pos c lo hi) (range_cond c (if pos then BETWEEN else NOT_BETWEEN) lo hi)
| means_in pos c vs : means (CIn pos c vs) (in_cond c (if pos then IN else NOT_IN) vs)
| means_select pos c sc tbl w : means (CInSelect pos c sc tbl w) (in_cond c (if pos then IN else NOT_IN) [])
| means_group g logic : connects g logic -> means (CGroup g) (Group (map (fun p => comparison p.2) g) logic)
| means_exists pos sel tbl g fst logic :
    connects g logic -> (forall p g', g = p :: g' -> fst = sub_comparison p.2) -> (g = [] -> fst = mkSub [] OTHER []) ->
    means (CExists pos sel tbl g)
      (Exists pos (mkExists tbl (sc_col fst) (sc_op fst) (sc_val fst) (map (fun p => sub_comparison p.2) g) logic))
| means_scalar c o agg ac tbl g logic :
    connects g logic ->
    means (CScalar c o agg ac tbl g) (ScalarSub c (op_of o) (mkScalar tbl (upper agg) ac (map (fun p => sub_comparison p.2) g) logic))
| means_func f args o v :
    means (CFunc f args o v)
      (FuncLhs (upper f ++ SPACE :: LP ++ flat_map (fun a => SPACE :: a) args ++ SPACE :: RP) (mkCmp [] (op_of o) v [] [] [])).

(** The subqueries of a list whose first condition has the number [n]: each with
    its whole clause. *)
Inductive asks : nat -> list (bool * Cond) -> list SubquerySpec -> Prop :=
| asks_nil n : asks n [] []
| asks_other n b c l sqs : is_subquery c = false -> asks (S n) l sqs -> asks n ((b, c) :: l) sqs
| asks_select n b pos c sc tbl w conds logic l sqs :
    Forall2 (fun p x => is_subquery p.2 = false /\ means p.2 x) w conds -> connects w logic -> asks (S n) l sqs ->
    asks n ((b, CInSelect pos c sc tbl w) :: l) (mkSubquery n tbl sc conds logic :: sqs).

Record says (l : list (bool * Cond)) (c : Clause) : Prop := {
  says_conds : Forall2 (fun p x => means p.2 x) l (whereConds c);
  says_logic : connects l (whereLogic c);
  says_subqueries : asks 0 l (subqueries c) }.

(** Everything in the condition has a place in the parser's result. *)
Fixpoint held (c : Cond) : bool :=
  match c with
  | CGroup g | CExists _ _ _ g | CScalar _ _ _ _ _ g => one_conn g
  | CInSelect _ _ _ _ w => one_conn w && forallb (fun p => negb (is_subquery p.2) && held p.2) w
  | _ => true
  end.
Definition whole (l : list (bool * Cond)) : bool := one_conn l && forallb (fun p => held p.2) l.

Lemma meaning_means c : held c = true -> means c (meaning c).
Proof.
  destruct c; cbn [held meaning]; intros H; try (constructor; by apply one_conn_last).
  apply means_exists; [by apply one_conn_last|by intros ? ? ->|by intros ->].
Qed.

Lemma clause_says l : whole l = true -> says l (clause_of l).
Proof.
  unfold whole. intros [Hc Hl]%andb_true_iff. apply forallb_Forall in Hl. split; cbn [clause_of whereConds whereLogic subqueries].
  - apply Forall2_fmap_r, Forall_Forall2_diag. eapply Forall_impl; [exact Hl|]. intros p. apply meaning_means.
  - by apply one_conn_last.
  - clear Hc. generalize 0 as n. induction Hl as [|[b c] l Hc _ IH]; intros n; [constructor|]. cbn [all_subs].
    destruct c; try (apply asks_other; [done|apply IH]). cbn [subs app]. cbn [snd held] in Hc.
    apply andb_true_iff in Hc as [Hw Hf]. apply asks_select; [|by apply one_conn_last|apply IH].
    apply forallb_Forall in Hf. apply Forall2_fmap_r, Forall_Forall2_diag. eapply Forall_impl; [exact Hf|].
    intros p [Hp Hh]%andb_true_iff. split; [by apply negb_true_iff|by apply meaning_means].
Qed.

(** ** Well-formed trees *)

Definition any_of (l : list string) (t : bytes) : bool := existsb (fun w => bytes_eqb t (str w)) l.
Definition plain (t : bytes) : bool := negb (any_of ["("; ")"] t).
(** What may stand at the start of a condition, for each of the loops. *)
Definition name_ok (t : bytes) : bool :=
  plain t && negb (any_of ["AND"; "OR"; "ORDER"; "LIMIT"; "GROUP"; "MATCH"; "NOT"; "EXISTS"; "("; ")"] (upper t)).
Definition sub_name_ok (t : bytes) : bool := plain t && negb (any_of ["AND"; "OR"] (upper t)).
Definition is_op (o : bytes) : bool := bool_decide (is_Some (comparison_op o)).
Definition item_ok (t : bytes) : bool := plain t && negb (any_of [","] t).
Definition table_ok (t : bytes) : bool := item_ok t && negb (bytes_eqb (upper t) (str "WHERE")).

Definition triple_ok (t : bytes * bytes * bytes) : bool :=
  let '(c, o, v) := t in sub_name_ok c && is_op o && plain v.

Fixpoint good (c : Cond) : bool :=
  match c with
  | CCmp c o v es =>
      name_ok c && is_op o && plain v &&
      forallb (fun e => is_arith e.1 && plain e.2 && negb (ARITH_STOP e.2)) es
  | CNull _ c => name_ok c
  | CLike c v => name_ok c && plain v
  | CBetween _ c lo hi => name_ok c && plain lo && plain hi
  | CIn _ c vs => name_ok c && forallb item_ok vs && negb (kw 0 "SELECT" vs)
  | CInSelect _ c sc tbl w => name_ok c && item_ok sc && item_ok tbl && forallb (fun p => good p.2) w
  | CGroup g => negb (length g =? 0) && forallb (fun p => triple_ok p.2) g
  | CExists _ sel tbl g =>
      plain sel && negb (bytes_eqb (upper sel) (str "FROM")) && table_ok tbl && forallb (fun p => triple_ok p.2) g
  | CScalar c o agg ac tbl g =>
      name_ok c && is_op o && existsb (bytes_eqb (upper agg)) AGG && plain ac && table_ok tbl && forallb (fun p => triple_ok p.2) g
  | CFunc f args o v =>
      existsb (bytes_eqb (upper f)) FUNC_LHS_NAMES && name_ok f && forallb plain args && is_op o && plain v
  end.

Example tokens_in :
  tokens (CIn true (str "a") [str "1"; str "2"]) = [str "a"; str "IN"; LP; str "1"; str ","; str "2"; RP].
Proof. reflexivity. Qed.

(** ** Induction over the trees *)

Section induction.
Context (P : Cond -> Prop).
Context (Hcmp : forall c o v es, P (CCmp c o v es)) (Hnull : forall pos c, P (CNull pos c)) (Hlike : forall c v, P (CLike c v))
  (Hbetween : forall pos c lo hi, P (CBetween pos c lo hi)) (Hin : forall pos c vs, P (CIn pos c vs))
  (Hselect : forall pos c sc tbl w, Forall (fun p => P p.2) w -> P (CInSelect pos c sc tbl w))
  (Hgroup : forall g, P (CGroup g)) (Hexists : forall pos sel tbl g, P (CExists pos sel tbl g))
  (Hscalar : forall c o agg ac tbl g, P (CScalar c o agg ac tbl g)) (Hfunc : forall f args o v, P (CFunc f args o v)).

Fixpoint Cond_tree_ind (c : Cond) : P c :=
  match c with
  | CCmp c o v es => Hcmp c o v es
  | CNull pos c => Hnull pos c
  | CLike c v => Hlike c v
  | CBetween pos c lo hi => Hbetween pos c lo hi
  | CIn pos c vs => Hin pos c vs
  | CInSelect pos c sc tbl w =>
      Hselect pos c sc tbl w
        ((fix go (w : list (bool * Cond)) : Forall (fun p => P p.2) w :=
            match w with
            | [] => Forall_nil_2 _
            | p :: w' => Forall_cons_2 _ p w' (Cond_tree_ind p.2) (go w')
            end) w)
  | CGroup g => Hgroup g
  | CExists pos sel tbl g => Hexists pos sel tbl g
  | CScalar c o agg ac tbl g => Hscalar c o agg ac tbl g
  | CFunc f args o v => Hfunc f args o v
  end.
End induction.

(** ** Reading the guards *)

Lemma bytes_eqb_neq s t : bytes_eqb s t = false <-> s <> t.
Proof. unfold bytes_eqb. apply bool_decide_eq_false. Qed.

Lemma any_of_false l t : any_of l t = false <-> Forall (fun w => bytes_eqb t (str w) = false) l.
Proof. induction l as [|w l IH]; cbn; [by split|]. by rewrite orb_false_iff, Forall_cons, IH. Qed.

Lemma plain_false t : plain t = true -> bytes_eqb t LP = false /\ bytes_eqb t RP = false.
Proof. unfold plain. intros H%negb_true_iff. apply any_of_false in H. by rewrite !Forall_cons in H; destruct_and!. Qed.

Lemma is_op_cases o :
  is_op o = true -> List.Exists (fun w => o = str w) [">="; "<="; "!="; "="; "<"; ">"]%string.
Proof.
  unfold is_op. intros [op H]%bool_decide_eq_true. unfold comparison_op, comparison_ops in H. cbn [assoc] in H.
  repeat match type of H with
         | (if bytes_eqb o ?w then _ else _) = _ =>
             let E := fresh in destruct (bytes_eqb o w) eqn:E;
             [unfold bytes_eqb in E; apply bool_decide_eq_true in E; rewrite E; repeat constructor; fail|clear E]
         end.
  done.
Qed.

(** Splits the boolean conditions of a tree and proves by cases over the operators. *)
Ltac split_good :=
  repeat match goal with
         | H : _ && _ = true |- _ => apply andb_true_iff in H as [? ?]
         | H : negb _ = true |- _ => apply negb_true_iff in H
         end.
Ltac op_cases H := apply is_op_cases in H; rewrite !Exists_cons, Exists_nil in H; destruct H as [H|[H|[H|[H|[H|[H|H]]]]]]; try done; subst; try reflexivity.

Lemma name_ok_facts t :
  name_ok t = true ->
  is_and t = false /\ is_or t = false /\ ends_where t = false /\ bytes_eqb (upper t) (str "(") = false /\
  bytes_eqb (upper t) (str ")") = false /\ bytes_eqb (upper t) (str "MATCH") = false /\
  bytes_eqb (upper t) (str "NOT") = false /\ bytes_eqb (upper t) (str "EXISTS") = false.
Proof.
  unfold name_ok. intros H. split_good.
  match goal with E : any_of _ (upper t) = false |- _ => apply any_of_false in E; rewrite !Forall_cons in E; destruct_and! E end.
  unfold ends_where, is_and, is_or, AND, OR. split_and!; try done.
  repeat match goal with E : bytes_eqb (upper t) _ = false |- _ => rewrite E; clear E end. done.
Qed.

(** What is behind a condition. *)
Definition stops (rest : list bytes) : Prop := match rest with [] => True | t :: _ => ARITH_STOP t = true end.

Lemma rhs_stops e rest : stops rest -> rhs e rest = (e, rest).
Proof. destruct rest as [|t rest]; [done|]. cbn. intros H. destruct rest; by rewrite H. Qed.

Lemma is_arith_facts t : is_arith t = true -> ARITH_STOP t = false /\ plain t = true.
Proof.
  unfold is_arith. cbn [existsb]. unfold bytes_eqb. rewrite !orb_true_iff, !bool_decide_eq_true.
  intros H. by destruct_or!; subst.
Qed.

Lemma rhs_words v es rest :
  forallb (fun e : bytes * bytes => is_arith e.1 && negb (ARITH_STOP e.2)) es = true -> stops rest ->
  rhs v (flat_map (fun e => [e.1; e.2]) es ++ rest) = (v ++ mjoin (map (fun e => e.1 ++ e.2) es), rest).
Proof.
  intros H Hr. revert v. induction es as [|[a b] es IH]; intros v.
  - cbn. rewrite app_nil_r. by apply rhs_stops.
  - cbn [forallb fst snd] in H. split_good. cbn [flat_map fst snd app rhs].
    assert (ARITH_STOP a = false) as -> by by apply is_arith_facts.
    match goal with E : is_arith a = true |- _ => rewrite E end. match goal with E : ARITH_STOP b = false |- _ => rewrite E end.
    rewrite IH by done. cbn [map fst snd]. change (mjoin ((a ++ b) :: ?l)) with ((a ++ b) ++ mjoin l). by rewrite <- !app_assoc.
Qed.

Lemma rhs_list v es rest :
  forallb (fun e : bytes * bytes => is_arith e.1 && plain e.2 && negb (ARITH_STOP e.2)) es = true -> stops rest ->
  rhs v (flat_map (fun e => [e.1; e.2]) es ++ rest) = (v ++ mjoin (map (fun e => e.1 ++ e.2) es), rest).
Proof.
  intros H Hr. apply rhs_words; [|done]. rewrite forallb_forall in H |- *. intros e He. specialize (H e He). split_good.
  by rewrite !andb_true_iff, negb_true_iff.
Qed.

Lemma comparison_op_of o : is_op o = true -> comparison_op o = Some (op_of o).
Proof. intros H. op_cases H. Qed.

(** ** Parentheses *)

(** A token list that closes what it opens. *)
Definition closed (ts : list bytes) : Prop :=
  forall d r, split_close (S d) (ts ++ r) = let '(l, r') := split_close (S d) r in (ts ++ l, r').

Lemma closed_nil : closed [].
Proof. intros d r. cbn [app]. by destruct (split_close (S d) r). Qed.

Lemma closed_app ts us : closed ts -> closed us -> closed (ts ++ us).
Proof.
  intros H1 H2 d r. rewrite <- app_assoc, H1, H2. destruct (split_close (S d) r). by rewrite app_assoc.
Qed.

Lemma closed_plain t : plain t = true -> closed [t].
Proof.
  intros [Ho Hc]%plain_false d r. cbn [app split_close]. change (str "(") with LP. change (str ")") with RP. by rewrite Ho, Hc.
Qed.

Lemma closed_cons t ts : plain t = true -> closed ts -> closed (t :: ts).
Proof. intros Ht Hts. change (t :: ts) with ([t] ++ ts). apply closed_app; [by apply closed_plain|done]. Qed.

Lemma closed_paren ts : closed ts -> closed (LP :: ts ++ [RP]).
Proof.
  intros H d r. change ((LP :: ts ++ [RP]) ++ r) with (LP :: (ts ++ [RP]) ++ r). cbn [split_close].
  change (bytes_eqb LP (str "(")) with true. cbv iota. rewrite <- app_assoc, H. cbn [app split_close].
  change (bytes_eqb RP (str "(")) with false. change (bytes_eqb RP (str ")")) with true. cbv iota. cbn [pred].
  destruct (split_close (S d) r). cbn [app]. by rewrite <- app_assoc.
Qed.

Lemma closed_split ts r : closed ts -> split_close 1 (ts ++ RP :: r) = (ts, r).
Proof.
  intros H. rewrite H. cbn [split_close]. change (bytes_eqb RP (str "(")) with false. change (bytes_eqb RP (str ")")) with true.
  cbv iota. by rewrite app_nil_r.
Qed.

Lemma closed_forall ts : forallb plain ts = true -> closed ts.
Proof.
  induction ts as [|t ts IH]; [intros _; apply closed_nil|]. cbn [forallb]. intros [H1 H2]%andb_true_iff.
  apply closed_cons; auto.
Qed.

Lemma closed_chain {A} (toks : A -> list bytes) (l : list (bool * A)) :
  Forall (fun p => closed (toks p.2)) l -> closed (chain toks l).
Proof.
  assert (forall l, Forall (fun p => closed (toks p.2)) l -> closed (flat_map (fun p => conn p.1 :: toks p.2) l)) as H.
  { induction 1 as [|[b x] l' Hx Hl IH]; [apply closed_nil|]. cbn [flat_map fst snd]. apply closed_app; [|done].
    apply closed_cons; [by destruct b|done]. }
  destruct 1 as [|[b x] l' Hx Hl]; [apply closed_nil|]. cbn [chain]. apply closed_app; [done|by apply H].
Qed.

Lemma closed_where ts : closed ts -> closed (where_tokens ts).
Proof. destruct ts; [done|]. intros H. by apply closed_cons. Qed.

Lemma is_op_plain o : is_op o = true -> plain o = true.
Proof. intros H. op_cases H. Qed.

Lemma item_plain t : item_ok t = true -> plain t = true.
Proof. unfold item_ok. intros H. by split_good. Qed.

Lemma name_plain t : name_ok t = true -> plain t = true.
Proof. unfold name_ok. intros H. by split_good. Qed.

Lemma triple_closed t : triple_ok t = true -> closed (triple t).
Proof.
  destruct t as [[c o] v]. cbn [triple_ok triple]. unfold sub_name_ok. intros H. split_good.
  apply closed_forall. cbn [forallb]. rewrite (is_op_plain o) by done. by rewrite !andb_true_iff.
Qed.

Lemma triples_closed (g : list (bool * (bytes * bytes * bytes))) :
  forallb (fun p => triple_ok p.2) g = true -> closed (chain triple g).
Proof.
  intros H%forallb_Forall. apply closed_chain. eapply Forall_impl; [exact H|]. intros p. apply triple_closed.
Qed.

(** [( SELECT x FROM t [WHERE ...] )] *)
Lemma closed_select (xs ts : list bytes) t :
  closed xs -> plain t = true -> closed ts ->
  closed (LP :: str "SELECT" :: xs ++ str "FROM" :: t :: where_tokens ts ++ [RP]).
Proof.
  intros Hx Ht Hts.
  replace (LP :: str "SELECT" :: xs ++ str "FROM" :: t :: where_tokens ts ++ [RP])
    with (LP :: (str "SELECT" :: xs ++ str "FROM" :: t :: where_tokens ts) ++ [RP])
    by (cbn [app]; rewrite <- app_assoc; done).
  apply closed_paren, closed_cons; [done|]. apply closed_app; [done|]. do 2 (apply closed_cons; [done|]). by apply closed_where.
Qed.

Lemma commas_plain vs : forallb item_ok vs = true -> forallb plain (commas vs) = true.
Proof.
  induction vs as [|v vs IH]; [done|]. cbn [forallb]. intros [Hv H]%andb_true_iff. apply item_plain in Hv.
  destruct vs as [|v2 vs]; [by cbn; rewrite Hv|].
  change (commas (v :: v2 :: vs)) with (v :: str "," :: commas (v2 :: vs)). cbn [forallb]. by rewrite Hv, IH.
Qed.

Lemma table_item t : table_ok t = true -> item_ok t = true.
Proof. unfold table_ok. intros H. by split_good. Qed.

(** A text whose upper-case form is a word is no parenthesis. *)
Lemma agg_plain t : existsb (bytes_eqb (upper t)) AGG = true -> plain t = true.
Proof.
  intros H. unfold plain. apply negb_true_iff, any_of_false. rewrite !Forall_cons, Forall_nil.
  unfold bytes_eqb. rewrite !bool_decide_eq_false. split_and!; [..|done]; intros ->; vm_compute in H; done.
Qed.

#[local] Hint Resolve item_plain name_plain table_item is_op_plain : core.

(** The tokens of a well-formed condition close what they open. *)
Lemma tokens_closed c : good c = true -> closed (tokens c).
Proof.
  induction c as [c o v es|pos c|c v|pos c lo hi|pos c vs|pos c sc tbl w IH|g|pos sel tbl g|c o agg ac tbl g|f args o v]
    using Cond_tree_ind; cbn [good tokens]; intros H; split_good.
  - do 3 (apply closed_cons; [by auto|]). apply closed_forall. clear -H0. induction es as [|[a b] es IH]; [done|].
    cbn [forallb flat_map fst snd app] in *. split_good. rewrite IH by done. rewrite (proj2 (is_arith_facts a ltac:(done))).
    by rewrite !andb_true_iff.
  - destruct pos; apply closed_forall; cbn [forallb]; by rewrite name_plain.
  - apply closed_forall; cbn [forallb]; rewrite name_plain by done. by rewrite andb_true_r.
  - destruct pos; apply closed_forall; cbn [forallb]; rewrite name_plain by done; by rewrite !andb_true_r, ?andb_true_iff.
  - apply closed_cons; [by auto|]. apply closed_app; [by destruct pos; apply closed_forall|].
    apply closed_paren, closed_forall. by apply commas_plain.
  - apply closed_cons; [by auto|]. apply closed_app; [by destruct pos; apply closed_forall|].
    apply (closed_select [sc]); [by apply closed_plain; auto|by auto|]. apply closed_chain.
    match goal with E : forallb _ _ = true |- _ => apply forallb_Forall in E; rename E into Hw end.
    apply Forall_forall. intros p Hp. rewrite Forall_forall in IH, Hw. auto.
  - apply closed_paren, triples_closed. done.
  - apply closed_app; [by destruct pos; apply closed_forall|]. apply (closed_select [sel]); [by apply closed_plain|by auto|].
    by apply triples_closed.
  - do 2 (apply closed_cons; [by auto|]). match goal with E : existsb _ _ = true |- _ => apply agg_plain in E end.
    apply (closed_select (agg :: LP :: ac :: [RP])); [|by auto|by apply triples_closed].
    apply closed_cons; [done|]. apply (closed_paren [ac]). by apply closed_plain.
  - apply closed_cons; [by auto|].
    change (closed (LP :: args ++ [RP] ++ [o; v])). rewrite app_assoc, app_comm_cons. apply closed_app.
    + by apply closed_paren, closed_forall.
    + apply closed_cons; [by auto|by apply closed_plain].
Qed.

(** ** The inner loops on chains *)

Lemma is_op_not_word o : is_op o = true -> is_and o = false /\ is_or o = false /\ bytes_eqb o RP = false.
Proof. intros H. op_cases H; by split_and!. Qed.

Lemma sub_name_facts c :
  sub_name_ok c = true -> is_and c = false /\ is_or c = false /\ plain c = true.
Proof.
  unfold sub_name_ok. intros H. split_good.
  match goal with E : any_of _ (upper c) = false |- _ => apply any_of_false in E; rewrite !Forall_cons in E; destruct_and! E end.
  by unfold is_and, is_or, AND, OR.
Qed.

Lemma sub_loop_triple f t rest conds logic :
  triple_ok t = true -> sub_loop (S f) (triple t ++ rest) conds logic = sub_loop f rest (conds ++ [sub_comparison t]) logic.
Proof.
  destruct t as [[c o] v]. cbn [triple_ok triple app sub_comparison sub_loop]. change (str ")") with RP. intros H. split_good.
  destruct (sub_name_facts c) as (-> & -> & Hp); [done|]. destruct (plain_false c Hp) as [_ ->]. 
  destruct (is_op_not_word o) as (-> & -> & Hr); [done|]. by rewrite Hr.
Qed.

Lemma sub_loop_conn f b rest conds logic :
  sub_loop (S f) (conn b :: rest) conds logic = sub_loop f rest conds (conn b).
Proof. by destruct b. Qed.

(** No other text has a parenthesis as its upper-case form. *)
Lemma upper_paren t : plain t = true -> bytes_eqb (upper t) (str "(") || bytes_eqb (upper t) (str ")") = false.
Proof.
  intros [H1 H2]%plain_false. apply bytes_eqb_neq in H1, H2. apply orb_false_iff.
  assert (forall c, to_upper c = 40%Z \/ to_upper c = 41%Z -> to_upper c = c) as Hup.
  { intros c. unfold to_upper, is_lower. destruct (_ && _) eqn:Eb; lia. }
  rewrite !bytes_eqb_neq. split; intros E; [apply H1|apply H2]; destruct t as [|c [|d t]]; try done; injection E as E.
  all: rewrite <- (Hup c) by (rewrite E; auto); by rewrite E.
Qed.

Lemma group_loop_triple f t rest conds logic :
  triple_ok t = true -> group_loop (S f) (triple t ++ rest) conds logic = group_loop f rest (conds ++ [comparison t]) logic.
Proof.
  destruct t as [[c o] v]. cbn [triple_ok triple app comparison group_loop]. intros H. split_good.
  assert (bytes_eqb (upper c) (str "(") || bytes_eqb (upper c) (str ")") = false) as Hpar.
  { destruct (sub_name_facts c) as (_ & _ & Hp); [done|]. apply upper_paren, Hp. }
  destruct (sub_name_facts c) as (-> & -> & _); [done|]. rewrite Hpar.
  cbn [short_comparison]. by rewrite comparison_op_of.
Qed.

Lemma group_loop_conn f b rest conds logic :
  group_loop (S f) (conn b :: rest) conds logic = group_loop f rest conds (conn b).
Proof. by destruct b. Qed.

Abbreviation triples_ok g := (forallb (fun p : bool * (bytes * bytes * bytes) => triple_ok p.2) g = true).

Lemma sub_loop_end f r conds logic : sub_loop f (RP :: r) conds logic = (conds, logic, RP :: r).
Proof. by destruct f. Qed.

Lemma sub_loop_chain f g r conds logic :
  triples_ok g -> length (flat_map (fun p : bool * (bytes * bytes * bytes) => conn p.1 :: triple p.2) g) <= f ->
  sub_loop f (flat_map (fun p => conn p.1 :: triple p.2) g ++ RP :: r) conds logic =
    (conds ++ map (fun p => sub_comparison p.2) g, fold_left (fun _ p => conn p.1) g logic, RP :: r).
Proof.
  revert f conds logic. induction g as [|[b t] g IH]; intros f conds logic Hg Hf.
  - cbn [flat_map app map fold_left]. rewrite sub_loop_end. by rewrite app_nil_r.
  - cbn [forallb fst snd] in Hg. apply andb_true_iff in Hg as [Ht Hg].
    destruct t as [[c o] v]. cbn [flat_map fst snd triple app length] in Hf.
    destruct f as [|[|f]]; [simpl in Hf; lia..|]. cbn [flat_map fst snd app]. rewrite <- app_assoc, sub_loop_conn.
    rewrite sub_loop_triple by done. rewrite IH by (first [done|simpl in Hf; lia]). cbn [map fold_left fst snd]. by rewrite <- app_assoc.
Qed.

Lemma sub_where_chain g r :
  triples_ok g -> sub_where (where_tokens (chain triple g) ++ RP :: r) = (map (fun p => sub_comparison p.2) g, last_conn g, RP :: r).
Proof.
  destruct g as [|[b t] g]; [done|]. cbn [forallb fst snd]. intros [Ht Hg]%andb_true_iff.
  unfold sub_where. destruct t as [[c o] v]. cbn [chain where_tokens triple app]. change (kw 0 "WHERE" (str "WHERE" :: ?l)) with true.
  cbn [drop length]. change (c :: o :: v :: ?l ++ RP :: r) with (triple (c, o, v) ++ l ++ RP :: r).
  rewrite sub_loop_triple by done. rewrite sub_loop_chain; [done..|]. cbn [app length]. rewrite length_app. lia.
Qed.

Lemma group_loop_chain f g conds logic :
  triples_ok g -> length (flat_map (fun p : bool * (bytes * bytes * bytes) => conn p.1 :: triple p.2) g) <= f ->
  group_loop f (flat_map (fun p => conn p.1 :: triple p.2) g) conds logic =
    (conds ++ map (fun p => comparison p.2) g, fold_left (fun _ p => conn p.1) g logic).
Proof.
  revert f conds logic. induction g as [|[b t] g IH]; intros f conds logic Hg Hf.
  - cbn [flat_map map fold_left]. rewrite app_nil_r. by destruct f.
  - cbn [forallb fst snd] in Hg. apply andb_true_iff in Hg as [Ht Hg].
    destruct t as [[c o] v]. cbn [flat_map fst snd triple app length] in Hf.
    destruct f as [|[|f]]; [simpl in Hf; lia..|]. cbn [flat_map fst snd app]. rewrite group_loop_conn.
    rewrite group_loop_triple by done. rewrite IH by (first [done|simpl in Hf; lia]). cbn [map fold_left fst snd]. by rewrite <- app_assoc.
Qed.

Lemma group_cond_chain g rest :
  triples_ok g -> g <> [] ->
  group_cond (chain triple g ++ RP :: rest) = (Some (Group (map (fun p => comparison p.2) g) (last_conn g)), rest).
Proof.
  intros Hg Hne. unfold group_cond. rewrite closed_split by by apply triples_closed.
  destruct g as [|[b t] g]; [done|]. cbn [forallb fst snd] in Hg. apply andb_true_iff in Hg as [Ht Hg].
  destruct t as [[c o] v]. cbn [chain]. rewrite length_app. change (length (triple (c, o, v)) + ?n) with (S (2 + n)).
  rewrite group_loop_triple by done. rewrite group_loop_chain by (first [done|lia]). done.
Qed.

(** ** The parts of a subquery *)

Lemma skip_to_close_RP r : skip_to_close (RP :: r) = r.
Proof. done. Qed.

Lemma table_name_printed tbl ts : table_ok tbl = true -> not_close_where (tbl :: ts) = true.
Proof.
  unfold table_ok. intros H. split_good. cbn [not_close_where].
  destruct (plain_false tbl (item_plain _ ltac:(done))) as [_ Hp]. change (str ")") with RP. rewrite Hp.
  by match goal with E : bytes_eqb (upper tbl) _ = false |- _ => rewrite E end.
Qed.

Lemma no_alias (ts r : list bytes) : skip_alias (where_tokens ts ++ RP :: r) = where_tokens ts ++ RP :: r.
Proof. by destruct ts. Qed.

Lemma exists_parses sel tbl g rest :
  plain sel = true -> bytes_eqb (upper sel) (str "FROM") = false -> table_ok tbl = true -> triples_ok g ->
  parseExistsFromFull (LP :: str "SELECT" :: sel :: str "FROM" :: tbl :: where_tokens (chain triple g) ++ RP :: rest) =
    (exists_spec tbl g, rest).
Proof.
  intros Hs Hf Ht Hg. unfold parseExistsFromFull.
  change (skip_tok "(" (LP :: ?l)) with l. change (skip_kw "SELECT" (str "SELECT" :: ?l)) with l.
  assert (forall l, skip_to_from (sel :: str "FROM" :: l) = str "FROM" :: l) as ->.
  { intros l. cbn [skip_to_from]. destruct (plain_false sel Hs) as [_ Hp]. change (str ")") with RP. by rewrite Hp, Hf. }
  change (skip_kw "FROM" (str "FROM" :: ?l)) with l. unfold table_name. rewrite table_name_printed by done. cbn [next].
  rewrite no_alias, sub_where_chain by done. by rewrite skip_to_close_RP.
Qed.

Lemma scalar_parses agg ac tbl g rest :
  existsb (bytes_eqb (upper agg)) AGG = true -> plain ac = true -> table_ok tbl = true -> triples_ok g ->
  parseScalarSubFromFull (str "SELECT" :: agg :: LP :: ac :: RP :: str "FROM" :: tbl :: where_tokens (chain triple g) ++ RP :: rest) =
    (mkScalar tbl (upper agg) ac (map (fun p => sub_comparison p.2) g) (last_conn g), rest).
Proof.
  intros Ha Hp Ht Hg. unfold parseScalarSubFromFull.
  change (skip_kw "SELECT" (str "SELECT" :: ?l)) with l. cbn [scalar_expr]. rewrite Ha.
  change (skip_tok "(" (LP :: ?l)) with l. destruct (plain_false ac Hp) as [_ Hc]. change (str ")") with RP. rewrite Hc.
  change (skip_tok ")" (RP :: ?l)) with l. change (skip_kw "FROM" (str "FROM" :: ?l)) with l.
  unfold table_name. rewrite table_name_printed by done. cbn [next].
  assert (scalar_alias (where_tokens (chain triple g) ++ RP :: rest) = where_tokens (chain triple g) ++ RP :: rest) as ->.
  { unfold scalar_alias. destruct (_ || _); [done|]. apply no_alias. }
  rewrite sub_where_chain by done. by rewrite skip_to_close_RP.
Qed.

(** ** One condition *)

(** Evaluates the tests on known tokens. *)
Ltac known_tokens :=
  repeat (match goal with
          | |- context [kw ?k ?w ?l] =>
              let b := eval vm_compute in (kw k w l) in
              match b with true => change (kw k w l) with true | false => change (kw k w l) with false end
          | |- context [tok ?k ?w ?l] =>
              let b := eval vm_compute in (tok k w l) in
              match b with true => change (tok k w l) with true | false => change (tok k w l) with false end
          end; cbn [andb orb]).

(** The branches up to the ones for columns. *)
Ltac enter_column H :=
  let Hm := fresh in let Hn := fresh in let He := fresh in
  destruct (name_ok_facts _ H) as (_ & _ & _ & _ & _ & Hm & Hn & He);
  cbn [full_cond app]; rewrite Hm, Hn, He; known_tokens; rewrite ?andb_false_r; cbn [andb orb].

Lemma range_printed lo hi rest : range_tokens (lo :: AND :: hi :: rest) = (lo, hi, rest).
Proof. done. Qed.

Lemma until_close_plain ts rest : forallb plain ts = true -> until_close (ts ++ RP :: rest) = (ts, rest).
Proof.
  induction ts as [|t ts IH]; [done|]. cbn [forallb app until_close]. intros [[_ Hp]%plain_false Ht]%andb_true_iff.
  change (str ")") with RP. by rewrite Hp, IH.
Qed.

Lemma commas_items vs :
  forallb item_ok vs = true -> List.filter (fun t => negb (bytes_eqb t (str ","))) (commas vs) = vs.
Proof.
  induction vs as [|v vs IH]; [done|]. cbn [forallb]. intros [Hv H]%andb_true_iff.
  assert (bytes_eqb v (str ",") = false) as Hc.
  { unfold item_ok in Hv. split_good. match goal with E : any_of _ v = false |- _ => apply any_of_false in E; by rewrite Forall_cons in E; destruct_and! E end. }
  destruct vs as [|v2 vs]; [cbn [commas List.filter]; by rewrite Hc|].
  change (commas (v :: v2 :: vs)) with (v :: str "," :: commas (v2 :: vs)). cbn [List.filter]. rewrite Hc. cbn [negb].
  change (bytes_eqb (str ",") (str ",")) with true. cbn [negb]. by rewrite IH.
Qed.

Lemma in_list_printed sub n vs rest :
  forallb item_ok vs = true -> kw 0 "SELECT" vs = false ->
  parseInListFromFull sub n (LP :: commas vs ++ RP :: rest) = (vs, [], rest).
Proof.
  intros Hv Hs. unfold parseInListFromFull. change (skip_tok "(" (LP :: ?l)) with l.
  assert (kw 0 "SELECT" (commas vs ++ RP :: rest) = false) as -> by (destruct vs as [|v [|v2 vs]]; done).
  rewrite until_close_plain by by apply commas_plain. by rewrite commas_items.
Qed.

Lemma list_table_printed t l : item_ok t = true -> list_table (t :: l) = (t, l).
Proof.
  intros H. pose proof (item_plain _ H) as [_ Hp]%plain_false. unfold list_table, tok. cbn [lookup list_lookup].
  change (str ")") with RP. rewrite Hp. unfold item_ok in H. split_good.
  match goal with E : any_of _ t = false |- _ => apply any_of_false in E; rewrite Forall_cons in E; destruct E as [E _]; rewrite E end. done.
Qed.

Lemma in_select_printed n sc tbl w rest :
  item_ok sc = true -> item_ok tbl = true -> Forall (fun p => good p.2 = true) w ->
  full_clause (chain tokens w) no_clause = clause_of w ->
  parseInListFromFull sub_full n
    (LP :: str "SELECT" :: sc :: str "FROM" :: tbl :: where_tokens (chain tokens w) ++ RP :: rest) =
    ([], [mkSubquery n tbl sc (map (fun p => meaning p.2) w) (last_conn w)], rest).
Proof.
  intros Hsc Ht Hw Hrec. unfold parseInListFromFull. change (skip_tok "(" (LP :: ?l)) with l. known_tokens. cbv iota.
  cbn [drop]. rewrite list_table_printed by done. change (skip_kw "FROM" (str "FROM" :: ?l)) with l.
  rewrite list_table_printed by done. rewrite closed_split.
  2: { apply closed_where, closed_chain. eapply Forall_impl; [exact Hw|]. intros p. apply tokens_closed. }
  destruct (chain tokens w) as [|t ts] eqn:E; cbn [where_tokens].
  - assert (w = []) as ->; [|done]. destruct w as [|[b c] w]; [done|]. cbn [chain] in E. apply app_nil in E as [E _].
    by destruct c as [| | | |[] ?|[] ?|?|[] ?|?|?]; try destruct pos.
  - known_tokens. cbv iota. unfold sub_full. cbn [drop]. rewrite Hrec. done.
Qed.

Lemma exists_cond sub n l :
  full_cond sub n (str "EXISTS" :: LP :: l) = let '(spec, r) := parseExistsFromFull (LP :: l) in Some (Where.Exists true spec, [], r).
Proof. reflexivity. Qed.

Lemma not_exists_cond sub n l :
  full_cond sub n (str "NOT" :: str "EXISTS" :: LP :: l) =
    let '(spec, r) := parseExistsFromFull (LP :: l) in Some (Where.Exists false spec, [], r).
Proof. reflexivity. Qed.

Definition is_group (c : Cond) : bool := match c with CGroup _ => true | _ => false end.

Lemma call_tokens_plain d e ts rest :
  forallb plain ts = true -> call_tokens d e (ts ++ rest) = call_tokens d (e ++ flat_map (fun a => SPACE :: a) ts) rest.
Proof.
  revert e. induction ts as [|t ts IH]; intros e; [by cbn; rewrite app_nil_r|].
  cbn [forallb app call_tokens flat_map]. intros [[H1 H2]%plain_false Ht]%andb_true_iff.
  change (str "(") with LP. change (str ")") with RP. rewrite H1, H2, IH by done. by rewrite <- app_assoc.
Qed.

(** A call, its comparison and what is behind it. *)
Lemma func_printed f args o v rest :
  forallb plain args = true -> is_op o = true ->
  func_cond (upper f) (LP :: args ++ RP :: o :: v :: rest) = (meaning (CFunc f args o v), [], rest).
Proof.
  intros Ha Ho. unfold func_cond. cbn [call_tokens]. change (bytes_eqb LP (str "(")) with true. cbv iota.
  rewrite call_tokens_plain by done. cbn [call_tokens]. change (bytes_eqb RP (str "(")) with false.
  change (bytes_eqb RP (str ")")) with true. cbv iota. change (0 + 1 - 1 =? 0)%Z with true. cbv iota.
  unfold is_op in Ho. rewrite Ho. cbn [orb next meaning]. by rewrite <- !app_assoc.
Qed.

(** Every condition that is not a group is read back. *)
Lemma cond_parses c n rest :
  good c = true -> is_group c = false -> stops rest ->
  (match c with CInSelect _ _ _ _ w => full_clause (chain tokens w) no_clause = clause_of w | _ => True end) ->
  full_cond sub_full n (tokens c ++ rest) = Some (meaning c, subs n c, rest).
Proof.
  destruct c as [c o v es|pos c|c v|pos c lo hi|pos c vs|pos c sc tbl w|g|pos sel tbl g|c o agg ac tbl g|f args o v];
    cbn [good is_group tokens]; intros H Hg Hr Hw; try done; split_good;
    try match goal with E : name_ok _ = true |- _ => rename E into Hname end.
  - assert (comparison_op o = Some (op_of o)) as Ho by by apply comparison_op_of.
    destruct (plain_false v) as [Hv _]; [done|].
    assert (op_cond (c :: o :: v :: flat_map (fun e => [e.1; e.2]) es ++ rest) =
      Some (compare c (op_of o) (v ++ mjoin (map (fun e => e.1 ++ e.2) es)), [], rest)) as Hop.
    { cbn [op_cond]. rewrite Ho. change (str "(") with LP. rewrite Hv. cbn [andb]. by rewrite rhs_list. }
    match goal with E : is_op o = true |- _ => op_cases E end; enter_column Hname; exact Hop.
  - destruct pos; enter_column Hname; done.
  - enter_column Hname; done.
  - destruct pos; enter_column Hname; done.
  - destruct pos; cbn [app]; rewrite <- app_assoc; enter_column Hname; cbn [drop]; by rewrite in_list_printed.
  - match goal with E : forallb _ w = true |- _ => apply forallb_Forall in E end.
    destruct pos; cbn [app]; rewrite <- app_assoc; enter_column Hname; cbn [drop]; by rewrite in_select_printed.
  - destruct pos; cbn [app]; rewrite <- app_assoc; cbn [app]; rewrite ?exists_cond, ?not_exists_cond; by rewrite exists_parses.
  - rewrite <- !app_comm_cons, <- app_assoc.
    assert (op_cond (c :: o :: LP :: str "SELECT" :: agg :: LP :: ac :: RP :: str "FROM" :: tbl ::
        where_tokens (chain triple g) ++ RP :: rest) =
      Some (ScalarSub c (op_of o) (mkScalar tbl (upper agg) ac (map (fun p => sub_comparison p.2) g) (last_conn g)), [], rest)) as Hop.
    { cbn [op_cond]. rewrite comparison_op_of by done. change (bytes_eqb LP (str "(")) with true. known_tokens. cbv iota.
      by rewrite scalar_parses. }
    match goal with E : is_op o = true |- _ => op_cases E end; enter_column Hname; exact Hop.
  - cbn [app]. rewrite <- app_assoc. destruct (name_ok_facts _ Hname) as (_ & _ & _ & _ & _ & Hm & _).
    cbn [full_cond app]. rewrite Hm. match goal with E : existsb _ _ = true |- _ => rewrite E end. known_tokens. cbv iota.
    by rewrite func_printed.
Qed.

(** ** Clauses *)

Lemma conn_stops (b : bool) rest : stops (conn b :: rest).
Proof. by destruct b. Qed.

Lemma chain_rest_stops {A} (toks : A -> list bytes) (l : list (bool * A)) : stops (flat_map (fun p => conn p.1 :: toks p.2) l).
Proof. destruct l as [|[b x] l]; [done|]. apply conn_stops. Qed.

Lemma push_no_subs cmd : push_subs [] cmd = cmd.
Proof. destruct cmd as [cs l sq]. unfold push_subs. cbn [whereConds whereLogic subqueries]. by rewrite app_nil_r. Qed.

(** The loop takes a condition over. *)
Definition step_ok (c : Cond) : Prop :=
  forall rest cmd, stops rest ->
    full_clause (tokens c ++ rest) cmd =
    full_clause rest (push_cond (meaning c) (push_subs (subs (length (whereConds cmd)) c) cmd)).

Lemma full_clause_conn b rest cmd : full_clause (conn b :: rest) cmd = full_clause rest (set_logic (conn b) cmd).
Proof. rewrite full_clause_cons. by destruct b. Qed.

Lemma named_step t ts c m sq r cmd :
  tokens c = t :: ts ->
  is_and t = false -> is_or t = false -> ends_where t = false -> bytes_eqb (upper t) (str "(") = false ->
  bytes_eqb (upper t) (str ")") = false ->
  forall rest, full_cond sub_full (length (whereConds cmd)) (tokens c ++ rest) = Some (m, sq, r) ->
  full_clause (tokens c ++ rest) cmd = full_clause r (push_cond m (push_subs sq cmd)).
Proof.
  intros Hts H1 H2 H3 H4 H5 rest. rewrite Hts. cbn [app]. intros Hc. rewrite full_clause_cons.
  by rewrite H1, H2, H3, H4, H5, Hc.
Qed.

Lemma name_step c t ts n sq m r cmd rest :
  tokens c = t :: ts -> name_ok t = true -> n = length (whereConds cmd) ->
  full_cond sub_full n (tokens c ++ rest) = Some (m, sq, r) ->
  full_clause (tokens c ++ rest) cmd = full_clause r (push_cond m (push_subs sq cmd)).
Proof.
  intros Ht Hn -> Hc. destruct (name_ok_facts _ Hn) as (? & ? & ? & ? & ? & _).
  by eapply named_step.
Qed.

(** What the clause loop does with a list of conditions. *)
Lemma clause_rest (l : list (bool * Cond)) cmd :
  Forall (fun p => step_ok p.2) l ->
  full_clause (flat_map (fun p => conn p.1 :: tokens p.2) l) cmd =
    mkClause (whereConds cmd ++ map (fun p => meaning p.2) l) (fold_left (fun _ p => conn p.1) l (whereLogic cmd))
      (subqueries cmd ++ all_subs (length (whereConds cmd)) l).
Proof.
  intros Hl. revert cmd. induction Hl as [|[b c] l Hc Hl IH]; intros cmd.
  - cbn. rewrite !app_nil_r. by destruct cmd as [cs l sq].
  - cbn [flat_map fst snd]. rewrite <- app_comm_cons, full_clause_conn, Hc by apply chain_rest_stops. rewrite IH.
    cbn [set_logic push_cond push_subs whereConds whereLogic subqueries map fold_left all_subs fst snd].
    rewrite length_app, Nat.add_1_r. by rewrite <- !app_assoc.
Qed.

Lemma clause_parses l : Forall (fun p : bool * Cond => step_ok p.2) l -> full_clause (chain tokens l) no_clause = clause_of l.
Proof.
  intros Hl. destruct Hl as [|[b c] l Hc Hl]; [done|]. cbn [chain]. rewrite Hc by apply chain_rest_stops. by rewrite clause_rest.
Qed.

Lemma good_steps c : good c = true -> step_ok c.
Proof.
  induction c as [c o v es|pos c|c v|pos c lo hi|pos c vs|pos c sc tbl w IH|g|pos sel tbl g|c o agg ac tbl g|f args o v]
    using Cond_tree_ind; intros Hg rest cmd Hr.
  6: assert (full_clause (chain tokens w) no_clause = clause_of w) as Hw
       by (cbn [good] in Hg; apply clause_parses; split_good;
           match goal with E : forallb _ w = true |- _ => apply forallb_Forall in E; rename E into Hw end;
           rewrite Forall_forall in IH, Hw |- *; auto).
  7: { cbn [good tokens] in *. split_good. destruct g as [|p g]; [done|]. rewrite <- app_comm_cons, full_clause_cons, <- app_assoc.
       cbn [app]. rewrite group_cond_chain by done. cbn [subs]. by rewrite push_no_subs. }
  7: { destruct pos; (eapply named_step; [cbn [tokens app]; reflexivity|done..|]; by apply cond_parses). }
  all: try destruct pos; (eapply name_step;
    [cbn [tokens app]; reflexivity
    |cbn [good] in Hg; split_good; assumption|reflexivity|by apply cond_parses]).
Qed.

Lemma forall_steps (l : list (bool * Cond)) : forallb (fun p => good p.2) l = true -> Forall (fun p => step_ok p.2) l.
Proof. intros H%forallb_Forall. eapply Forall_impl; [exact H|]. intros p. apply good_steps. Qed.

Lemma tokens_nonempty c : tokens c <> [].
Proof. by destruct c; try destruct pos. Qed.

Lemma chain_nonempty {A} (toks : A -> list bytes) (l : list (bool * A)) :
  l <> [] -> (forall x, toks x <> []) -> chain toks l <> [].
Proof. intros Hl Ht. destruct l as [|[b c] l]; [done|]. cbn [chain]. intros [H _]%app_eq_nil. by apply (Ht c). Qed.

Lemma where_tokens_parse l :
  forallb (fun p => good p.2) l = true -> parseWhereFromFull (where_tokens (chain tokens l)) no_clause = clause_of l.
Proof.
  intros Hg%forall_steps. rewrite <- (clause_parses l Hg). destruct (chain tokens l) as [|t ts]; [done|].
  apply full_loop_fuel; cbn [length where_tokens]; lia.
Qed.

(** [C5] From the text of a WHERE clause to the parser's result: lexer and parser read
    what the clause says ([says]): every condition in its place, the connective that
    stands in front of each of them, and every IN (SELECT ...) as a subquery with
    its own conditions and connective.  The clause has one connective in each list
    of conditions and no subquery inside a subquery; of others the parser keeps the
    last connective ([last_connective_decides]) and loses the inner subquery
    ([nested_subquery_forgotten]).  The spacing of the text is any that the lexer
    reads ([Lexes]). *)
Theorem where_text_parses l s :
  l <> [] -> whole l = true -> forallb (fun p => good p.2) l = true -> Lexes (str "WHERE" :: chain tokens l) s ->
  says l (parseWhereFromFull (tokenizeFull s) no_clause).
Proof.
  intros Hne Hw Hg Hs. rewrite (Lexes_tokenizeFull _ _ Hs). pose proof (where_tokens_parse l Hg) as H.
  destruct (chain tokens l) eqn:E; [by destruct (chain_nonempty tokens l Hne tokens_nonempty)|].
  cbn [where_tokens] in H. rewrite H. by apply clause_says.
Qed.

Definition sample_clause : list (bool * Cond) :=
  [(true, CCmp (str "age") (str ">=") (str "18") [(str "+", str "3")]);
   (true, CIn false (str "city") [str "'a (b)'"; str "'c'"]);
   (true, CGroup [(true, (str "x", str "=", str "1")); (false, (str "y", str "<", str "2"))]);
   (true, CInSelect true (str "id") (str "pid") (str "orders")
            [(true, CCmp (str "total") (str ">") (str "100") []);
             (true, CIn true (str "kind") [str "1"; str "2"])]);
   (true, CExists false (str "1") (str "blocked") [(true, (str "b.id", str "=", str "c.id"))]);
   (true, CScalar (str "n") (str "=") (str "max") (str "v") (str "t") []);
   (true, CFunc (str "upper") [str "name"] (str "=") (str "'X'"))].

Definition sample_text : bytes :=
  str "WHERE age >= 18 + 3 AND city NOT IN ('a (b)','c') AND (x = 1 OR y < 2) AND id IN (SELECT pid FROM orders WHERE total > 100 AND kind IN (1,2)) AND NOT EXISTS(SELECT 1 FROM blocked WHERE b.id = c.id) AND n = (SELECT max(v) FROM t) AND upper(name) = 'X'".

Lemma sample_lexes : Lexes (str "WHERE" :: chain tokens sample_clause) sample_text.
Proof.
  assert (lexable sample_text = true) as Hl by (vm_compute; reflexivity).
  destruct (lexable_Lexes _ Hl) as [ts Hts]. rewrite <- (Lexes_tokenizeFull _ _ Hts) in Hts.
  replace (str "WHERE" :: chain tokens sample_clause) with (tokenizeFull sample_text) by (vm_compute; reflexivity). exact Hts.
Qed.

Lemma where_text_parses_witness :
  forallb (fun p => good p.2) sample_clause = true /\ whole sample_clause = true /\
  says sample_clause (parseWhereFromFull (tokenizeFull sample_text) no_clause) /\
  length (whereConds (parseWhereFromFull (tokenizeFull sample_text) no_clause)) = 7.
Proof.
  split; [vm_compute; reflexivity|]. split; [vm_compute; reflexivity|]. split; [|vm_compute; reflexivity].
  apply (where_text_parses sample_clause sample_text); [done|vm_compute; reflexivity..|apply sample_lexes].
Defined.

(** ** What the parser does with other clauses *)

Definition where_of (s : string) : Clause := parseWhereFromFull (tokenizeFull (str s)) no_clause.

(** The last connective decides for the whole clause: [a = 1 OR (b = 2 AND c = 3)]
    is read as three conditions joined by AND, and a plain [OR] at the end turns
    every AND into an OR. *)
Lemma last_connective_decides :
  whereLogic (where_of "WHERE a = 1 OR b = 2 AND c = 3") = AND /\
  whereLogic (where_of "WHERE a = 1 AND b = 2 OR c = 3") = OR.
Proof. split; reflexivity. Qed.

(** Inside a group only comparisons count: a group with another test loses it,
    and a group of only such tests vanishes together with its restriction. *)
Lemma group_drops_tests :
  whereConds (where_of "WHERE (name IS NULL)") = [] /\
  whereConds (where_of "WHERE (name LIKE 'a%' AND id = 1)") = whereConds (where_of "WHERE (id = 1)") /\
  whereConds (where_of "WHERE (id IN (1, 2))") = [].
Proof. split_and!; reflexivity. Qed.

(** Groups do not nest: the connective of the inner group is the one of the outer. *)
Lemma nested_group_flattens :
  whereConds (where_of "WHERE (a = 1 AND (b = 2 OR c = 3))") = whereConds (where_of "WHERE (a = 1 OR b = 2 OR c = 3)").
Proof. reflexivity. Qed.

(** NOT in front of a comparison is skipped. *)
Lemma not_is_skipped : where_of "WHERE NOT a = 1" = where_of "WHERE a = 1".
Proof. reflexivity. Qed.

(** The mode inside the parentheses of AGAINST becomes part of the query. *)
Lemma boolean_mode_in_query :
  whereConds (where_of "WHERE MATCH(a) AGAINST('+x' IN BOOLEAN MODE)") =
    [Match [str "a"] (str "+x IN BOOLEAN MODE") []].
Proof. reflexivity. Qed.

(** The subquery of a subquery is forgotten: its IN list stays empty. *)
Lemma nested_subquery_forgotten :
  map sq_where (subqueries (where_of "WHERE a IN (SELECT b FROM t WHERE c IN (SELECT d FROM u))")) =
    [[in_cond (str "c") IN []]].
Proof. reflexivity. Qed.

(** ** Clauses on the tokens of [tokenize] *)

(** The values of a list without blanks, as one token. *)
Fixpoint comma_text (vs : list bytes) : bytes :=
  match vs with [] => [] | [v] => v | v :: vs' => v ++ COMMA :: comma_text vs' end.
Definition list_token (vs : list bytes) : bytes := LPAREN :: comma_text vs ++ [RPAREN].

Definition word_tokens (c : Cond) : list bytes :=
  match c with
  | CIn pos c vs => c :: (if pos then [str "IN"] else [str "NOT"; str "IN"]) ++ [list_token vs]
  | c => tokens c
  end.

(** A column: no word of the clause, no operator inside. *)
Definition col_ok (t : bytes) : bool :=
  negb (any_of ["AND"; "OR"; "ORDER"; "LIMIT"; "GROUP"] (upper t)) && bool_decide (extractColOpVal t = None).

(** A value of a list: no separators in it, none around it. *)
Definition value_ok (v : bytes) : bool :=
  forallb (fun c => negb ((c =? LPAREN) || (c =? RPAREN) || (c =? COMMA))%Z) v && bytes_eqb (trim v) v && negb (bytes_eqb v []).

Definition word_good (c : Cond) : bool :=
  match c with
  | CCmp c o v es => col_ok c && is_op o && forallb (fun e => is_arith e.1 && negb (ARITH_STOP e.2)) es
  | CNull _ c => col_ok c
  | CLike c _ => col_ok c
  | CIn _ c vs =>
      col_ok c && negb (length vs =? 0) && forallb value_ok vs &&
      negb (bytes_eqb (upper (take 6 (comma_text vs))) (str "SELECT")) &&
      bytes_eqb (strip_spaces (comma_text vs)) (comma_text vs)
  | _ => false
  end.

Lemma col_ok_facts t :
  col_ok t = true -> ends_where t = false /\ is_and t = false /\ is_or t = false /\ extractColOpVal t = None.
Proof.
  unfold col_ok. intros H. split_good.
  match goal with E : bool_decide _ = true |- _ => apply bool_decide_eq_true in E end.
  match goal with E : any_of _ (upper t) = false |- _ => apply any_of_false in E; rewrite !Forall_cons in E; destruct_and! E end.
  unfold ends_where, is_and, is_or, AND, OR.
  repeat match goal with E : bytes_eqb (upper t) _ = false |- _ => rewrite E; clear E end. done.
Qed.

Lemma gather_end content t :
  forallb (fun c => negb ((c =? LPAREN) || (c =? RPAREN))%Z) t = true ->
  gather_chars (Some 1) content (t ++ [RPAREN]) = (true, Some 1, content ++ t).
Proof.
  revert content. induction t as [|c t IH]; intros content; [by rewrite app_nil_r|]. cbn [forallb app gather_chars].
  intros [Hc Ht]%andb_true_iff. apply negb_true_iff, orb_false_iff in Hc as [-> ->]. rewrite IH by done. by rewrite <- app_assoc.
Qed.

Lemma value_chars v : value_ok v = true ->
  forallb (fun c => negb ((c =? LPAREN) || (c =? RPAREN))%Z) v = true /\ Forall (fun c => c <> COMMA) v /\ trim v = v /\ v <> [].
Proof.
  unfold value_ok. intros H. split_good. unfold bytes_eqb in *.
  repeat match goal with E : bool_decide _ = true |- _ => apply bool_decide_eq_true in E | E : bool_decide _ = false |- _ => apply bool_decide_eq_false in E end.
  match goal with E : forallb _ v = true |- _ => rename E into Hv end. split_and!; try done.
  - apply forallb_Forall. apply forallb_Forall in Hv. eapply Forall_impl; [exact Hv|]. cbv beta. intros c. lia.
  - apply forallb_Forall in Hv. eapply Forall_impl; [exact Hv|]. cbv beta. intros c. lia.
Qed.

Lemma split_last (d : byte) v : Forall (fun c => c <> d) v -> v <> [] -> split_on d v = [v].
Proof.
  induction 1 as [|c v Hc Hv IH]; [done|]. intros _. cbn [split_on]. rewrite (proj2 (Z.eqb_neq c d)) by done.
  destruct v as [|c2 v]; [done|]. by rewrite IH.
Qed.

Lemma split_comma_text vs : forallb value_ok vs = true -> splitTrim (comma_text vs) COMMA = vs.
Proof.
  unfold splitTrim. induction vs as [|v vs IH]; [done|]. cbn [forallb]. intros [Hv H]%andb_true_iff.
  destruct (value_chars v Hv) as (_ & Hc & Ht & Hn). destruct vs as [|v2 vs].
  - cbn [comma_text]. rewrite split_last by done. cbn. by rewrite Ht.
  - change (comma_text (v :: v2 :: vs)) with (v ++ COMMA :: comma_text (v2 :: vs)). rewrite split_on_line by done.
    cbn [map]. by rewrite Ht, IH.
Qed.

Lemma comma_text_chars vs :
  forallb value_ok vs = true -> forallb (fun c => negb ((c =? LPAREN) || (c =? RPAREN))%Z) (comma_text vs) = true.
Proof.
  induction vs as [|v vs IH]; [done|]. cbn [forallb]. intros [Hv H]%andb_true_iff.
  destruct (value_chars v Hv) as (Hc & _). destruct vs as [|v2 vs]; [done|].
  change (comma_text (v :: v2 :: vs)) with (v ++ COMMA :: comma_text (v2 :: vs)). rewrite forallb_app. cbn [forallb]. by rewrite Hc, IH.
Qed.

Lemma list_token_parses sub n vs rest :
  vs <> [] -> forallb value_ok vs = true -> bytes_eqb (upper (take 6 (comma_text vs))) (str "SELECT") = false ->
  strip_spaces (comma_text vs) = comma_text vs ->
  parseInList sub n (list_token vs :: rest) = (vs, [], rest).
Proof.
  intros Hne Hv Hs Hstrip. unfold parseInList. cbn [gather]. unfold list_token. cbn [gather_chars]. change (LPAREN =? LPAREN)%Z with true. cbv iota.
  rewrite gather_end by by apply comma_text_chars. cbn [app].
  rewrite Hstrip, Hs, split_comma_text by done.
  assert (map trim vs = vs /\ List.filter (fun v => negb (bytes_eqb v [])) vs = vs) as [-> ->]; [|done].
  clear -Hv. induction vs as [|v vs IH]; [done|]. cbn [forallb] in Hv. apply andb_true_iff in Hv as [H1 H2].
  destruct (value_chars v H1) as (_ & _ & Ht & Hn). destruct (IH H2) as [E1 E2]. cbn [map List.filter]. rewrite E1, E2, Ht.
  by rewrite (proj2 (bytes_eqb_neq v [])).
Qed.

Ltac enter_words H :=
  let He := fresh in destruct (col_ok_facts _ H) as (_ & _ & _ & He);
  cbn [where_cond app]; rewrite He; known_tokens; rewrite ?andb_false_r; cbn [andb orb].

(** The other tokenizer's parser reads these conditions back as well. *)
Lemma word_cond_parses sub n c rest :
  word_good c = true -> stops rest -> where_cond sub n (word_tokens c ++ rest) = Some (meaning c, [], rest).
Proof.
  destruct c as [c o v es|pos c|c v|pos c lo hi|pos c vs|pos c sc tbl w|g|pos sel tbl g|c o agg ac tbl g|f args o v];
    cbn [word_good word_tokens tokens]; intros H Hr; try done; split_good;
    try match goal with E : col_ok _ = true |- _ => rename E into Hc end.
  - assert (comparison_op o = Some (op_of o)) as Ho by by apply comparison_op_of.
    match goal with E : is_op o = true |- _ => op_cases E end; enter_words Hc; rewrite Ho, rhs_words by done; done.
  - destruct pos; enter_words Hc; done.
  - enter_words Hc; done.
  - unfold bytes_eqb in *. match goal with E : bool_decide (strip_spaces _ = _) = true |- _ => apply bool_decide_eq_true in E end.
    assert (vs <> []) as Hne by (intros ->; done).
    destruct pos; cbn [app]; enter_words Hc; cbn [drop]; by rewrite list_token_parses.
Qed.

Definition word_chain (l : list (bool * Cond)) : list bytes := chain word_tokens l.

Lemma word_step c rest cmd :
  word_good c = true -> stops rest ->
  word_clause (word_tokens c ++ rest) cmd = word_clause rest (push_cond (meaning c) cmd).
Proof.
  intros Hg Hr. pose proof (word_cond_parses sub_word (length (whereConds cmd)) c rest Hg Hr) as H.
  assert (exists t ts, word_tokens c = t :: ts /\ col_ok t = true) as (t & ts & Ht & Hc).
  { destruct c; cbn [word_good] in Hg; try done; split_good; cbn [word_tokens tokens]; try destruct pos; by eexists _, _. }
  rewrite Ht in H |- *. cbn [app] in H |- *. destruct (col_ok_facts _ Hc) as (H1 & H2 & H3 & _).
  rewrite word_clause_cons, H1, H2, H3, H. by rewrite push_no_subs.
Qed.

Lemma word_clause_conn b rest cmd : word_clause (conn b :: rest) cmd = word_clause rest (set_logic (conn b) cmd).
Proof. rewrite word_clause_cons. by destruct b. Qed.

Lemma word_tokens_nonempty c : word_tokens c <> [].
Proof. by destruct c; try destruct pos. Qed.

(** A chain of conditions up to the end of the clause. *)
Definition clause_ends (rest : list bytes) : Prop := match rest with [] => True | t :: _ => ends_where t = true end.

Lemma clause_ends_stops rest : clause_ends rest -> stops rest.
Proof.
  destruct rest as [|t rest]; [done|]. intros H. change (ends_where t = true) in H. change (ARITH_STOP t = true).
  unfold ends_where, ARITH_STOP in *. cbn [existsb]. rewrite !orb_true_iff in *. tauto.
Qed.

Lemma chain_ends {A} (toks : A -> list bytes) (l : list (bool * A)) rest :
  clause_ends rest -> stops (flat_map (fun p => conn p.1 :: toks p.2) l ++ rest).
Proof. destruct l as [|[b c] l]; [apply clause_ends_stops|]. intros _. by destruct b. Qed.

Lemma word_clause_parses l rest :
  forallb (fun p => word_good p.2) l = true -> clause_ends rest -> l <> [] ->
  word_clause (word_chain l ++ rest) no_clause = mkClause (map (fun p => meaning p.2) l) (last_conn l) [].
Proof.
  intros Hl%forallb_Forall He.
  assert (forall l cmd, Forall (fun p : bool * Cond => word_good p.2 = true) l ->
    word_clause (flat_map (fun p => conn p.1 :: word_tokens p.2) l ++ rest) cmd =
    mkClause (whereConds cmd ++ map (fun p => meaning p.2) l) (fold_left (fun _ p => conn p.1) l (whereLogic cmd)) (subqueries cmd)) as H.
  { clear Hl. intros l' cmd Hl. revert cmd. induction Hl as [|[b c] l' Hc Hl IH]; intros cmd.
    - cbn [flat_map map app fold_left]. rewrite app_nil_r. destruct rest as [|t rest]; [by destruct cmd as [cs lo sq]|].
      change (ends_where t = true) in He. rewrite word_clause_cons, He. by destruct cmd.
    - cbn [flat_map fst snd]. rewrite <- !app_comm_cons, word_clause_conn, <- app_assoc, word_step by (first [done|by apply chain_ends]).
      rewrite IH. cbn [set_logic push_cond whereConds whereLogic subqueries map fold_left fst snd]. by rewrite <- app_assoc. }
  destruct Hl as [|[b c] l Hc Hl]; [done|]. intros _. unfold word_chain. cbn [chain].
  rewrite <- app_assoc, word_step by (first [done|by apply chain_ends]). by rewrite H.
Qed.
