(* ===== verification/Statements.v ===== *)
(** * From the text of a statement to the engine ([src/parser/parser.hpp]:
    [parse] for INSERT, UPDATE and DELETE, [parseMultiAssignment],
    [parseReturning]; [src/dispatch.hpp]: the three cases of the dispatcher)

    The text of a statement is prepared, cut into tokens and parsed into the
    fields of [ParsedCommand]; the dispatcher turns these into the operations of
    [Mutation.v].  The theorems follow printed statements all the way: an INSERT
    inserts the texts its literals stand for, an UPDATE or DELETE with a WHERE
    clause runs the operation with its conditions; [Effects.v] goes on to the
    rows. *)

From S2P Require Import Prelude Index BTree Partition Table Arith Where Select Columns Triggers Transaction Mutation Integrity Lexer WhereParser WhereSyntax.


(** ** Searching and trimming *)

(** [s.rfind(p)] *)
Fixpoint rfind_sub (p s : bytes) : option nat :=
  match s with
  | [] => if starts_with p [] then Some 0 else None
  | _ :: s' =>
      match rfind_sub p s' with
      | Some i => Some (S i)
      | None => if starts_with p s then Some 0 else None
      end
  end.

(** Drops the characters with [p] at the end. *)
Definition strip_back (p : byte -> bool) (s : bytes) : bytes := rev (drop_while p (rev s)).

Definition is_semicolon (c : byte) : bool := (c =? 59)%Z.
(** What ends a statement: semicolons, spaces, tabs and carriage returns. *)
Definition is_end (c : byte) : bool := is_semicolon c || is_sep c.

(** ** The command *)

Inductive CommandType := CT_INSERT | CT_INSERT_DOCUMENT | CT_UPDATE | CT_DELETE | CT_UNKNOWN | CT_OTHER.

(** The fields of [ParsedCommand] that these statements use; [values],
    [whereColumn], [whereValue], [setColumn] and [setValue] repeat the first
    entries of the lists.  [CT_OTHER]: another branch of [parse] takes the text. *)
Record ParsedCommand := mkCommand {
  type : CommandType; raw : bytes; csvFile : bytes; csvSeparator : bytes; isForUpdate : bool;
  tableName : bytes; multiValues : list (list bytes); insertColumnNames : list bytes; upsertMode : bytes;
  isInsertSelect : bool; insertSelectSql : bytes; documentJson : bytes;
  updateCols : list bytes; updateVals : list bytes; where_ : Clause; returningColumns : list bytes }.

(** ** Preparing the text *)

(** The text between the first two quotes of a kind. *)
Definition between_quotes (q : byte) (s : bytes) : option bytes :=
  q1 ← find_char q s; q2 ← find_char q (drop (S q1) s); Some (take q2 (drop (S q1) s)).

Definition findQuoted (s : bytes) : bytes :=
  match between_quotes QUOTE s with
  | Some t => t
  | None =>
      match between_quotes DQUOTE s with
      | Some t => t
      | None => take_while (fun c => negb (is_space_char c)) (drop_while is_space_char s)
      end
  end.

Definition INTO_OUTFILE : bytes := str " INTO OUTFILE ".
Definition FOR_UPDATE : bytes := str " FOR UPDATE".

(** The text without [INTO OUTFILE ...], the file and the separator. *)
Definition cut_outfile (input : bytes) : bytes * bytes * bytes :=
  match rfind_sub INTO_OUTFILE (upper input) with
  | None => (input, [], [])
  | Some pos =>
      let suffix := drop (pos + length INTO_OUTFILE) input in
      let fp := findQuoted suffix in
      if bytes_eqb fp [] then (input, [], [])
      else
        let sep :=
          match find_sub (str "SEPARATOR") (upper suffix) with
          | Some k => let s := findQuoted (drop (k + 9) suffix) in if bytes_eqb s [] then [COMMA] else s
          | None => [COMMA]
          end in
        (take pos input, fp, sep)
  end.

Definition cut_for_update (input : bytes) : bytes * bool :=
  let n := length input - length FOR_UPDATE in
  if (length FOR_UPDATE <=? length input) && bytes_eqb (drop n (upper input)) FOR_UPDATE then (take n input, true) else (input, false).

(** The text in front of the first opening parenthesis and behind the last
    closing one, if both exist in this order; quotes are not looked at. *)
Definition split_paren (input : bytes) : bytes * bytes :=
  match find_char LPAREN input, rfind_char RPAREN input with
  | Some p1, Some p2 => if p1 <? p2 then (take p1 input, drop (S p2) input) else (input, [])
  | _, _ => (input, [])
  end.

(** ** RETURNING *)

Definition RETURNING : bytes := str "RETURNING".

(** The columns behind the last RETURNING, if it is outside quotes. *)
Definition parseReturning (input : bytes) : list bytes :=
  match rfind_sub RETURNING (upper input) with
  | None => []
  | Some pos =>
      if Nat.odd (quotes_in (take pos input)) then []
      else
        let rest := strip_spaces (drop (pos + 9) input) in
        let rest := strip_back is_space_char (strip_back is_semicolon rest) in
        List.filter (fun c => negb (bytes_eqb c [])) (map strip_spaces (split_on COMMA rest))
  end.

(** ** INSERT *)

(** The parenthesis in front of VALUES, if there is one, holds the columns. *)
Definition insert_columns (input : bytes) : list bytes :=
  let up := upper input in
  match find_char LPAREN up with
  | None => []
  | Some ppos =>
      if match find_sub VALUES up with None => true | Some vpos => ppos <? vpos end then
        match find_char RPAREN (drop (S ppos) up) with
        | Some k => List.filter (fun c => negb (bytes_eqb c [])) (splitTrim (take k (drop (S ppos) input)) COMMA)
        | None => []
        end
      else []
  end.

Definition new_command (t : CommandType) (input : bytes) : ParsedCommand :=
  mkCommand t input [] [] false [] [] [] [] false [] [] [] [] no_clause [].

Definition insert_command (t : CommandType) (input tbl mode : bytes) (vals : list (list bytes)) (cols : list bytes)
    (select : bool) (sql : bytes) (ret : list bytes) : ParsedCommand :=
  mkCommand t input [] [] false tbl vals cols mode select sql [] [] [] no_clause ret.

(** INSERT INTO: [tokens] are those in front of the first parenthesis. *)
Definition parse_insert (input afterParen : bytes) (tokens : list bytes) : ParsedCommand :=
  let mode := match find_sub (str "ON CONFLICT") (upper afterParen) with Some _ => str "IGNORE" | None => [] end in
  match tokens with
  | _ :: _ :: tbl :: rest =>
      if kw 0 "SELECT" rest then
        match find_sub (str "SELECT") (upper input) with
        | Some p => insert_command CT_INSERT input tbl mode [] [] true (trim (drop p input)) (parseReturning input)
        | None => insert_command CT_UNKNOWN input tbl mode [] [] true [] []
        end
      else
        insert_command CT_INSERT input tbl mode (parseValueGroups input) (insert_columns input) false [] (parseReturning input)
  | _ => insert_command CT_UNKNOWN input [] mode [] [] false [] []
  end.

(** INSERT OR REPLACE / OR IGNORE: the two words are cut out of the text. *)
Definition parse_upsert (input mode : bytes) : ParsedCommand :=
  let needle := str "OR " ++ mode ++ str " " in
  let synth := match find_sub needle (upper input) with
               | Some p => take p input ++ drop (p + length needle) input
               | None => input
               end in
  match tokenize synth with
  | _ :: _ :: tbl :: _ => insert_command CT_INSERT input tbl mode (parseValueGroups synth) [] false [] []
  | _ => insert_command CT_UNKNOWN input [] mode [] [] false [] []
  end.

Definition DOCUMENT : bytes := str "DOCUMENT".

Definition parse_document (input tbl : bytes) : ParsedCommand :=
  let json :=
    match find_sub (str " DOCUMENT ") (upper input) with
    | Some p => drop (p + 10) input
    | None => match rfind_sub DOCUMENT (upper input) with Some p => drop (p + 8) input | None => [] end
    end in
  mkCommand CT_INSERT_DOCUMENT input [] [] false tbl [] [] [] false [] (strip_spaces json) [] [] no_clause [].

(** ** UPDATE *)

Definition strip_comma (s : bytes) : bytes :=
  match rev s with c :: r => if (c =? COMMA)%Z then rev r else s | [] => s end.
Definition ends_comma (s : bytes) : bool := match rev s with c :: _ => (c =? COMMA)%Z | [] => false end.

(** A token that holds an assignment. *)
Definition assignment (t : bytes) : option (bytes * bytes) :=
  match extractColOpVal t with Some (c, EQ, v) => Some (c, v) | _ => None end.

(** The tokens of a value, up to the next assignment or a comma. *)
Fixpoint collect_value (v : bytes) (ts : list bytes) : bytes * list bytes :=
  match ts with
  | [] => (v, [])
  | t :: r =>
      if bytes_eqb t (str ",") then (v, ts)
      else if tok 0 "=" r then (v, ts)
      else
        match assignment t with
        | Some _ => (v, ts)
        | None =>
            let v := if bytes_eqb v [] then v else v ++ [SPACE] in
            if ends_comma t then (v ++ strip_comma t, r) else collect_value (v ++ t) r
        end
  end.

Fixpoint parseMultiAssignment (fuel : nat) (ts : list bytes) : list (bytes * bytes) :=
  match fuel, ts with
  | O, _ | _, [] => []
  | S f, t :: rest =>
      let t := strip_comma t in
      if bytes_eqb t [] then parseMultiAssignment f rest
      else
        match assignment t with
        | Some (c, v) => (c, strip_comma v) :: parseMultiAssignment f rest
        | None =>
            if (2 <? length ts) && tok 0 "=" rest then
              let '(v, r) := collect_value [] (drop 1 rest) in
              (t, strip_comma v) :: parseMultiAssignment f (skip_tok "," r)
            else parseMultiAssignment f rest
        end
  end.

(** The tokens up to a word. *)
Fixpoint before_word (w : bytes) (ts : list bytes) : list bytes :=
  match ts with [] => [] | t :: ts' => if bytes_eqb (upper t) w then [] else t :: before_word w ts' end.

Definition parse_update (input : bytes) (tokens : list bytes) : ParsedCommand :=
  match tokens with
  | _ :: tbl :: s :: (_ :: _) as rest =>
      if bytes_eqb (upper s) (str "SET") then
        let toks := before_word RETURNING (drop 3 tokens) in
        let sets := before_word (str "WHERE") toks in
        let kvs := parseMultiAssignment (length sets) sets in
        mkCommand CT_UPDATE input [] [] false tbl [] [] [] false [] [] (map fst kvs) (map snd kvs)
          (parseWhere (drop (length sets) toks) no_clause) (parseReturning input)
      else new_command CT_UNKNOWN input
  | _ => new_command CT_UNKNOWN input
  end.

(** ** DELETE *)

Definition parse_delete (input : bytes) (tokens : list bytes) : ParsedCommand :=
  match tokens with
  | _ :: _ :: tbl :: _ =>
      let inputForWhere := match rfind_sub RETURNING (upper input) with Some p => take p input | None => input end in
      mkCommand CT_DELETE input [] [] false tbl [] [] [] false [] [] [] []
        (parseWhere (drop 3 (tokenize inputForWhere)) no_clause) (parseReturning input)
  | _ => new_command CT_UNKNOWN input
  end.

(** ** [parse] *)

Definition with_prefix (file sep : bytes) (fu : bool) (c : ParsedCommand) : ParsedCommand :=
  mkCommand (type c) (raw c) file sep fu (tableName c) (multiValues c) (insertColumnNames c) (upsertMode c) (isInsertSelect c)
    (insertSelectSql c) (documentJson c) (updateCols c) (updateVals c) (where_ c) (returningColumns c).

(** The branches for statements that change rows; no earlier branch takes a text
    whose first word is INSERT, UPDATE or DELETE. *)
Definition parse_rows (input : bytes) : ParsedCommand :=
  let '(beforeParen, afterParen) := split_paren input in
  let tokens := tokenize beforeParen in
  if kw 0 "INSERT" tokens && kw 1 "INTO" tokens && existsb (fun t => bytes_eqb (upper t) DOCUMENT) (drop 3 tokens) then
    parse_document input (default [] (tokens !! 2))
  else if kw 0 "INSERT" tokens && kw 1 "OR" tokens && (kw 2 "REPLACE" tokens || kw 2 "IGNORE" tokens) && kw 3 "INTO" tokens then
    parse_upsert input (upper (default [] (tokens !! 2)))
  else if kw 0 "INSERT" tokens && kw 1 "INTO" tokens then parse_insert input afterParen tokens
  else if kw 0 "UPDATE" tokens then parse_update input tokens
  else if kw 0 "DELETE" tokens && kw 1 "FROM" tokens then parse_delete input tokens
  else new_command (match tokens with [] => CT_UNKNOWN | _ => CT_OTHER end) input.

Definition parse (inputRaw : bytes) : ParsedCommand :=
  let input := strip_back is_end inputRaw in
  let '(input, file, sep) := cut_outfile input in
  let '(input, fu) := cut_for_update input in
  with_prefix file sep fu (parse_rows input).

(** ** The dispatcher *)

(** What the dispatcher does after the engine: nothing; write the database to
    disk and log the statement for replicas; and also drop the cached results of
    the table.  Then the statement's triggers run, and one that fails does not
    take this back. *)
Inductive Aftermath := Nothing | Saved | SavedAndInvalidated.

Section dispatch.
Context {DB : Double}.
Context (regex_search : bytes -> bytes -> option bool).
Context (evalExprStr : bytes -> list Column -> list bytes -> bytes).
Context (match_against : list bytes -> bytes -> bytes -> list Column -> list bytes -> bool).
Context (formatNum : dbl -> bytes) (dcount : nat -> dbl).
Context (evaluateRlsExpr_ : bytes -> Row -> list bytes -> bool).
Context (evaluateGenExpr : bytes -> list Column -> list bytes -> bytes).
Context (isValidJson : bytes -> bool).
Context (number_text : dbl -> bytes).
Context (clock : Clock) (thread : Z).
(** The replica flag, and the depth of nested partitions. *)
Context (slave : bool) (fuel : nat).
(** INSERT ... SELECT and the other storage kinds. *)
Context (insertSelect : bytes -> bytes -> M ()) (other_storage : gset bytes) (insert_other : bytes -> list (list bytes) -> M ()).

Definition saved (event tbl : bytes) : M Aftermath := _ ← fireStatementTriggers clock event tbl; mret SavedAndInvalidated.
Definition changed (event tbl : bytes) (n : nat) : M Aftermath := if 0 <? n then saved event tbl else mret Nothing.

Abbreviation insertRow := (insertRow regex_search evaluateRlsExpr_ evaluateGenExpr isValidJson clock thread).
Abbreviation insertOrReplace := (insertOrReplace regex_search evaluateGenExpr clock).
Abbreviation insertOrIgnore := (insertOrIgnore evaluateGenExpr clock).
Abbreviation updateWhere := (updateWhere regex_search evaluateRlsExpr_ evaluateGenExpr number_text clock thread).
Abbreviation updateWhereConds :=
  (updateWhereConds regex_search evalExprStr match_against formatNum dcount evaluateRlsExpr_ evaluateGenExpr number_text clock thread).
Abbreviation updateAll := (updateAll regex_search evaluateGenExpr thread).
Abbreviation deleteWhere := (deleteWhere evaluateRlsExpr_ clock thread fuel).
Abbreviation deleteWhereConds := (deleteWhereConds regex_search evalExprStr match_against formatNum dcount evaluateRlsExpr_ clock thread fuel).

Definition INFORMATION_SCHEMA : bytes := str "information_schema".

Definition isInfoSchemaName (n : bytes) : bool :=
  let low := map to_lower n in
  starts_with INFORMATION_SCHEMA low &&
  match low !! 18 with None => true | Some c => (c =? DOT)%Z end.

(** What the dispatcher does before any statement that writes. *)
Definition refused (cmd : ParsedCommand) : bool := slave || isInfoSchemaName (tableName cmd) || bytes_eqb (tableName cmd) [].

(** The values in the order of the table's columns; an unnamed column gets the
    empty text, which stands for its default. *)
Definition remap_row (cs : list Column) (names vals : list bytes) : list bytes :=
  fold_left (fun out nv =>
    match list_find (fun c => map to_lower (c_name c) = map to_lower nv.1) cs with
    | Some (i, _) => <[i := nv.2]> out
    | None => out
    end) (zip names vals) (replicate (length cs) []).

Definition remapForNamedCols (cmd : ParsedCommand) (vals : list bytes) : M (list bytes) :=
  match insertColumnNames cmd with
  | [] => mret vals
  | names =>
      tbl ← resolved (tableName cmd);
      t ← gets (fun e => tables e !! tbl);
      mret (match t with Some t => remap_row (columns_ t) names vals | None => vals end)
  end.

Definition rows_of (cmd : ParsedCommand) : list (list bytes) := match multiValues cmd with [] => [[]] | l => l end.

Fixpoint map_m {A B} (f : A -> M B) (l : list A) : M (list B) :=
  match l with [] => mret [] | x :: l' => y ← f x; ys ← map_m f l'; mret (y :: ys) end.

Definition dispatch_insert (cmd : ParsedCommand) : M Aftermath :=
  if refused cmd then mret Nothing
  else if decide (tableName cmd ∈ other_storage) then _ ← insert_other (tableName cmd) (rows_of cmd); mret Nothing
  else if isInsertSelect cmd then
    if bytes_eqb (insertSelectSql cmd) [] then mret Nothing
    else _ ← insertSelect (tableName cmd) (insertSelectSql cmd); mret SavedAndInvalidated
  else
    rows ← map_m (remapForNamedCols cmd) (rows_of cmd);
    if bytes_eqb (upsertMode cmd) (str "REPLACE") then
      _ ← for_each (fun vals => _ ← insertOrReplace (tableName cmd) vals; mret ()) rows; mret Saved
    else if bytes_eqb (upsertMode cmd) (str "IGNORE") then
      _ ← for_each (fun vals => _ ← insertOrIgnore (tableName cmd) vals; mret ()) rows; mret Saved
    else _ ← for_each (insertRow (tableName cmd)) rows; saved INSERT (tableName cmd).

(** [whereColumn] and [whereValue] *)
Definition whereColumn (c : Clause) : bytes := (first_condition (whereConds c)).1.
Definition whereValue (c : Clause) : bytes := (first_condition (whereConds c)).2.

Definition dispatch_update (cmd : ParsedCommand) : M Aftermath :=
  if refused cmd || bool_decide (updateCols cmd = []) then mret Nothing
  else
    let c := where_ cmd in
    if bytes_eqb (whereColumn c) [] then _ ← updateAll (tableName cmd) (updateCols cmd) (updateVals cmd); saved UPDATE (tableName cmd)
    else
      n ← (if 2 <=? length (whereConds c) then
             updateWhereConds (tableName cmd) (updateCols cmd) (updateVals cmd) (whereConds c) (whereLogic c)
           else updateWhere (tableName cmd) (updateCols cmd) (updateVals cmd) (whereColumn c) (whereValue c));
      changed UPDATE (tableName cmd) n.

Definition dispatch_delete (cmd : ParsedCommand) : M Aftermath :=
  if refused cmd then mret Nothing
  else
    let c := where_ cmd in
    if bytes_eqb (whereColumn c) [] then _ ← deleteAll (tableName cmd); saved DELETE (tableName cmd)
    else
      n ← (if 2 <=? length (whereConds c) then deleteWhereConds (tableName cmd) (whereConds c) (whereLogic c)
           else deleteWhere (tableName cmd) (whereColumn c) (whereValue c));
      changed DELETE (tableName cmd) n.

(** A statement from its text. *)
Definition execute (sql : bytes) : M Aftermath :=
  let cmd := parse sql in
  match type cmd with
  | CT_INSERT => dispatch_insert cmd
  | CT_UPDATE => dispatch_update cmd
  | CT_DELETE => dispatch_delete cmd
  | _ => mret Nothing
  end.
End dispatch.

(** ** Printed statements *)

(** Nothing of the text is cut off before it is parsed. *)
Definition undisturbed (s : bytes) : bool :=
  bytes_eqb (strip_back is_end s) s && bool_decide (rfind_sub INTO_OUTFILE (upper s) = None) && negb (cut_for_update s).2.

Lemma parse_undisturbed s : undisturbed s = true -> parse s = with_prefix [] [] false (parse_rows s).
Proof.
  unfold undisturbed, parse. intros H. rewrite !andb_true_iff in H. destruct H as [[H1 H2] H3].
  unfold bytes_eqb in H1. apply bool_decide_eq_true in H1, H2. rewrite H1. unfold cut_outfile. rewrite H2.
  apply negb_true_iff in H3. revert H3. unfold cut_for_update. by destruct (_ && _).
Qed.

Lemma upper_is c : to_upper c = 40%Z \/ to_upper c = 41%Z -> to_upper c = c.
Proof. unfold to_upper, is_lower. destruct (_ && _) eqn:Eb; lia. Qed.

Lemma find_char_upper s : find_char LPAREN (upper s) = find_char LPAREN s.
Proof.
  induction s as [|c s IH]; [done|]. unfold upper in *. cbn [map find_char]. rewrite IH. unfold LPAREN.
  destruct (Z.eqb_spec (to_upper c) 40) as [E|E].
  - by rewrite <- (upper_is c), E by auto.
  - destruct (Z.eqb_spec c 40) as [->|]; [done|]. done.
Qed.

Lemma find_char_here c s t : c ∉ s -> find_char c (s ++ c :: t) = Some (length s).
Proof.
  induction s as [|x s IH]; cbn; [by rewrite Z.eqb_refl|]. intros [Hx Hs]%not_elem_of_cons.
  rewrite (proj2 (Z.eqb_neq x c)) by congruence. by rewrite IH.
Qed.


Lemma rfind_char_last c s : rfind_char c (s ++ [c]) = Some (length s).
Proof. induction s as [|x s IH]; cbn; [by rewrite Z.eqb_refl|]. by rewrite IH. Qed.

Lemma print_groups_snoc rows : rows <> [] -> exists w, print_groups rows = LPAREN :: w ++ [RPAREN].
Proof.
  induction rows as [|r [|r2 rows] IH]; [done|intros _; by exists (print_values r)|intros _].
  destruct IH as [w Hw]; [done|]. change (print_groups (r :: r2 :: rows)) with (print_group r ++ str ", " ++ print_groups (r2 :: rows)).
  rewrite Hw. exists (print_values r ++ [RPAREN] ++ str ", " ++ LPAREN :: w). unfold print_group.
  cbn [app]. rewrite <- !app_assoc. cbn [app]. by rewrite <- !app_assoc.
Qed.

(** *** INSERT *)

Definition insert_prefix (t : bytes) : bytes := str "INSERT INTO " ++ t ++ [SPACE].
Definition insert_sql (t : bytes) (rows : list (list bytes)) : bytes :=
  insert_prefix t ++ VALUES ++ SPACE :: print_groups rows.

(** A name for a table: one word, no parenthesis, no VALUES inside. *)
Definition table_text (t : bytes) : bool :=
  is_word_token t && bool_decide (LPAREN ∉ t) &&
  bool_decide (find_sub VALUES (upper (insert_prefix t ++ VALUES)) = Some (length (insert_prefix t))).

Lemma insert_tokens_printed t s :
  is_word_token t = true -> tokenize (insert_prefix t ++ VALUES ++ SPACE :: s) = [str "INSERT"; str "INTO"; t; VALUES] ++ tokenize s.
Proof.
  intros Ht. rewrite <- tokenize_spaced_app; [|by repeat apply Forall_cons_2|done].
  f_equal. unfold insert_prefix. cbn. by rewrite <- !app_assoc.
Qed.

Lemma parse_insert_sql t rows :
  table_text t = true -> rows <> [] -> good_rows rows -> undisturbed (insert_sql t rows) = true ->
  let cmd := parse (insert_sql t rows) in
  type cmd = CT_INSERT /\ tableName cmd = t /\ multiValues cmd = rows /\ insertColumnNames cmd = [] /\
  upsertMode cmd = [] /\ isInsertSelect cmd = false.
Proof.
  intros Ht Hne Hg Hu. cbv zeta. rewrite parse_undisturbed by done.
  unfold table_text in Ht. rewrite !andb_true_iff in Ht. destruct Ht as [[Hw Hp] Hv].
  apply bool_decide_eq_true in Hp, Hv. destruct (print_groups_snoc rows Hne) as [w Hgr].
  assert (LPAREN ∉ insert_prefix t ++ VALUES ++ [SPACE]) as Hnp.
  { unfold insert_prefix. rewrite !not_elem_of_app. split_and!; try done; by apply (bool_decide_unpack _). }
  assert (insert_sql t rows = (insert_prefix t ++ VALUES ++ [SPACE]) ++ LPAREN :: w ++ [RPAREN]) as Hs.
  { unfold insert_sql. rewrite Hgr. by rewrite <- !app_assoc. }
  assert (split_paren (insert_sql t rows) = (insert_prefix t ++ VALUES ++ [SPACE], [])) as Hsplit.
  { unfold split_paren. rewrite Hs, find_char_here by done.
    rewrite app_comm_cons, app_assoc, rfind_char_last.
    rewrite (proj2 (Nat.ltb_lt _ _)) by (rewrite !length_app; simpl; lia).
    rewrite drop_ge by (rewrite !length_app; simpl; lia). rewrite <- app_assoc. by rewrite take_app_length. }
  unfold parse_rows. rewrite Hsplit. rewrite (insert_tokens_printed t []) by done. change (tokenize []) with ([] : list bytes). cbn [app].
  assert (parseValueGroups (insert_sql t rows) = rows) as Hrows by by apply parseValueGroups_print.
  assert (insert_columns (insert_sql t rows) = []) as Hcols.
  { unfold insert_columns. rewrite find_char_upper, Hs, find_char_here by done. rewrite <- Hs.
    assert (find_sub VALUES (upper (insert_sql t rows)) = Some (length (insert_prefix t))) as ->.
    { unfold insert_sql. rewrite (app_assoc (insert_prefix t)), upper_app. by apply find_sub_app. }
    rewrite (proj2 (Nat.ltb_ge _ _)); [done|]. rewrite !length_app. lia. }
  change (kw 0 "INSERT" [str "INSERT"; str "INTO"; t; VALUES]) with true. change (kw 1 "INTO" [str "INSERT"; str "INTO"; t; VALUES]) with true.
  change (existsb (fun x => bytes_eqb (upper x) DOCUMENT) (drop 3 [str "INSERT"; str "INTO"; t; VALUES])) with false.
  change (kw 1 "OR" [str "INSERT"; str "INTO"; t; VALUES]) with false. cbn [andb parse_insert].
  change (kw 0 "SELECT" [VALUES]) with false. cbv iota. rewrite Hrows, Hcols. done.
Qed.

(** *** DELETE *)

Definition clause_words (l : list (bool * Cond)) : list bytes := where_tokens (word_chain l).
Definition delete_tokens (t : bytes) (l : list (bool * Cond)) : list bytes := str "DELETE" :: str "FROM" :: t :: clause_words l.
Definition delete_sql (t : bytes) (l : list (bool * Cond)) : bytes := spaced (delete_tokens t l).

(** The conditions, their last connective, no subqueries. *)
Definition plain_clause (l : list (bool * Cond)) : Clause := mkClause (map (fun p => meaning p.2) l) (last_conn l) [].

Definition words_ok (ts : list bytes) : bool := forallb is_word_token ts.

(** A text that is parsed as it is and holds no RETURNING. *)
Definition sql_ok (s : bytes) : bool := undisturbed s && bool_decide (rfind_sub RETURNING (upper s) = None).

Lemma parse_clause_rest l rest :
  forallb (fun p => word_good p.2) l = true -> clause_ends rest ->
  parseWhere (clause_words l ++ rest) no_clause = plain_clause l.
Proof.
  intros Hl He. unfold clause_words, plain_clause. destruct l as [|p l].
  { cbn. unfold parseWhere. destruct rest as [|t rest]; [done|]. cbn in He.
    assert (kw 0 "WHERE" (t :: rest) = false) as ->; [|done]. unfold kw. cbn. unfold ends_where in He.
    apply not_true_iff_false. intros E. unfold bytes_eqb in *. apply bool_decide_eq_true in E.
    rewrite E in He. by vm_compute in He. }
  rewrite <- (word_clause_parses (p :: l) rest) by done.
  destruct (word_chain (p :: l)) as [|t ts] eqn:E.
  { by destruct (chain_nonempty word_tokens (p :: l) ltac:(done) word_tokens_nonempty). }
  cbn [where_tokens app]. unfold parseWhere. change (kw 0 "WHERE" (str "WHERE" :: ?l)) with true. cbv iota.
  change (drop 1 (str "WHERE" :: ?l)) with l. apply where_loop_fuel; cbn [app]; rewrite ?weight_cons; lia.
Qed.

Lemma parse_clause_words l :
  forallb (fun p => word_good p.2) l = true -> parseWhere (clause_words l) no_clause = plain_clause l.
Proof. intros Hl. by rewrite <- (parse_clause_rest l []), app_nil_r. Qed.

Lemma words_forall ts : words_ok ts = true -> Forall (fun w => is_word_token w = true) ts.
Proof. apply forallb_Forall. Qed.

Lemma spaced_cons t u ts : spaced (t :: u :: ts) = t ++ SPACE :: spaced (u :: ts).
Proof. done. Qed.

Lemma spaced_app ts us : us <> [] -> ts <> [] -> spaced (ts ++ us) = spaced ts ++ SPACE :: spaced us.
Proof.
  intros Hu. induction ts as [|t [|t2 ts] IH]; [done| |]; intros _.
  - destruct us; done.
  - change ((t :: t2 :: ts) ++ us) with (t :: t2 :: ts ++ us). rewrite !spaced_cons.
    change (t2 :: ts ++ us) with ((t2 :: ts) ++ us). rewrite IH by done. by rewrite <- app_assoc.
Qed.

(** The text in front of the first parenthesis still starts with the first words. *)
Lemma first_words ts us :
  Forall (fun w => is_word_token w = true) (ts ++ us) -> ts <> [] -> LPAREN ∉ spaced ts ->
  exists more, tokenize (split_paren (spaced (ts ++ us))).1 = ts ++ more.
Proof.
  intros Hw Hne Hp. destruct (decide (us = [])) as [->|Hu].
  - exists []. rewrite app_nil_r in *. unfold split_paren. rewrite (proj2 (find_char_none _ _)) by done. by apply tokenize_spaced.
  - apply Forall_app in Hw as [Hts Hus]. rewrite spaced_app by done. unfold split_paren.
    destruct (find_char LPAREN _) as [p1|] eqn:E1; [|exists us; cbn [fst]; rewrite tokenize_spaced_app by done; by rewrite tokenize_spaced].
    destruct (rfind_char RPAREN _) as [p2|]; [|exists us; cbn [fst]; rewrite tokenize_spaced_app by done; by rewrite tokenize_spaced].
    destruct (p1 <? p2); [|exists us; cbn [fst]; rewrite tokenize_spaced_app by done; by rewrite tokenize_spaced].
    cbn [fst]. assert (length (spaced ts) < p1) as Hlen.
    { change (SPACE :: spaced us) with ([SPACE] ++ spaced us) in E1. rewrite app_assoc in E1.
      assert (LPAREN ∉ spaced ts ++ [SPACE]) as Hn by (rewrite not_elem_of_app; split; [done|by apply (bool_decide_unpack _)]).
      clear -E1 Hn. assert (length (spaced ts ++ [SPACE]) <= p1) as H; [|rewrite length_app in H; simpl in H; lia].
      revert p1 E1. induction (spaced ts ++ [SPACE]) as [|x s IH]; intros p1 E1; [simpl; lia|].
      apply not_elem_of_cons in Hn as [Hx Hn]. cbn [app find_char] in E1. rewrite (proj2 (Z.eqb_neq x LPAREN)) in E1 by congruence.
      destruct (find_char LPAREN (s ++ spaced us)) as [k|]; [|done]. injection E1 as <-. specialize (IH Hn _ eq_refl). simpl. lia. }
    exists (tokenize (take (p1 - S (length (spaced ts))) (spaced us))).
    rewrite <- tokenize_spaced_app by done. f_equal. rewrite take_app_ge by lia. f_equal.
    replace (p1 - length (spaced ts)) with (S (p1 - S (length (spaced ts)))) by lia. done.
Qed.

Lemma parse_delete_sql t l :
  sql_ok (delete_sql t l) = true -> words_ok (delete_tokens t l) = true -> LPAREN ∉ t ->
  forallb (fun p => word_good p.2) l = true ->
  parse (delete_sql t l) =
    mkCommand CT_DELETE (delete_sql t l) [] [] false t [] [] [] false [] [] [] [] (plain_clause l) [].
Proof.
  unfold sql_ok. intros [Hu Hr]%andb_true_iff Hw Hp Hl. apply bool_decide_eq_true in Hr. apply words_forall in Hw.
  rewrite parse_undisturbed by done.
  assert (exists more, tokenize (split_paren (delete_sql t l)).1 = [str "DELETE"; str "FROM"; t] ++ more) as [more Hm].
  { apply (first_words [str "DELETE"; str "FROM"; t] (clause_words l)); [done|done|]. cbn [spaced].
    repeat first [rewrite not_elem_of_app|rewrite not_elem_of_cons]. split_and!; try done; by apply (bool_decide_unpack _). }
  unfold parse_rows. destruct (split_paren (delete_sql t l)) as [beforeParen afterParen]. cbn [fst] in Hm. rewrite Hm. cbn [app].
  change (kw 0 "INSERT" (str "DELETE" :: ?x)) with false. change (kw 0 "UPDATE" (str "DELETE" :: ?x)) with false.
  change (kw 0 "DELETE" (str "DELETE" :: ?x)) with true. change (kw 1 "FROM" (str "DELETE" :: str "FROM" :: ?x)) with true.
  cbn [andb parse_delete]. unfold parseReturning. rewrite Hr. unfold delete_sql. rewrite tokenize_spaced by done.
  change (drop 3 (delete_tokens t l)) with (clause_words l). by rewrite parse_clause_words.
Qed.

(** *** UPDATE *)

Fixpoint set_tokens (sets : list (bytes * list bytes)) : list bytes :=
  match sets with
  | [] => []
  | [(c, vs)] => c :: str "=" :: vs
  | (c, vs) :: sets' => c :: str "=" :: vs ++ str "," :: set_tokens sets'
  end.

Definition update_tokens (t : bytes) (sets : list (bytes * list bytes)) (l : list (bool * Cond)) : list bytes :=
  str "UPDATE" :: t :: str "SET" :: set_tokens sets ++ clause_words l.
Definition update_sql (t : bytes) (sets : list (bytes * list bytes)) (l : list (bool * Cond)) : bytes :=
  spaced (update_tokens t sets l).

(** A token of an assignment: no comma at its end, no assignment itself, not the
    end of the list. *)
Definition set_word (w : bytes) : bool :=
  negb (bytes_eqb w []) && negb (ends_comma w) && bool_decide (assignment w = None) && negb (any_of ["="] w) &&
  negb (any_of ["WHERE"; "RETURNING"] (upper w)).
Definition set_ok (s : bytes * list bytes) : bool := set_word s.1 && negb (length s.2 =? 0) && forallb set_word s.2.

Lemma set_word_facts w :
  set_word w = true ->
  w <> [] /\ ends_comma w = false /\ strip_comma w = w /\ assignment w = None /\ bytes_eqb w (str "=") = false /\
  bytes_eqb w (str ",") = false /\ bytes_eqb (upper w) (str "WHERE") = false /\ bytes_eqb (upper w) RETURNING = false.
Proof.
  unfold set_word. rewrite !andb_true_iff, !negb_true_iff. intros ((((H1 & H2) & H3) & H4) & H5).
  apply any_of_false in H4, H5. rewrite !Forall_cons in H4. rewrite !Forall_cons in H5. apply bool_decide_eq_true in H3. apply bytes_eqb_neq in H1.
  destruct H4 as [H4 _]. destruct H5 as (H5 & H6 & _). split_and!; try done.
  - revert H2. unfold ends_comma, strip_comma. destruct (rev w); [done|]. by intros ->.
  - apply bytes_eqb_neq. by intros ->.
Qed.

(** What follows a value. *)
Definition value_end (ts : list bytes) : Prop := ts = [] \/ exists ts', ts = str "," :: ts'.

Lemma collect_spaced v vs r :
  forallb set_word vs = true -> value_end r ->
  collect_value v (vs ++ r) = (fold_left (fun v t => (if bytes_eqb v [] then v else v ++ [SPACE]) ++ t) vs v, r).
Proof.
  intros Hvs Hr. revert v. induction vs as [|t vs IH]; intros v; cbn [forallb app fold_left] in *.
  - destruct Hr as [->|[r' ->]]; done.
  - apply andb_true_iff in Hvs as [Ht Hvs]. destruct (set_word_facts _ Ht) as (_ & Hc & _ & Ha & _ & Hk & _).
    cbn [collect_value]. rewrite Hk, Ha, Hc.
    assert (tok 0 "=" (vs ++ r) = false) as ->.
    { destruct vs as [|u vs]; [destruct Hr as [->|[r' ->]]; done|]. cbn [forallb] in Hvs. apply andb_true_iff in Hvs as [Hu _].
      by destruct (set_word_facts _ Hu) as (_ & _ & _ & _ & He & _). }
    by apply IH.
Qed.

Lemma fold_spaced v vs :
  v <> [] -> fold_left (fun v t => (if bytes_eqb v [] then v else v ++ [SPACE]) ++ t) vs v = spaced (v :: vs).
Proof.
  revert v. induction vs as [|t vs IH]; intros v Hv; [done|]. cbn [fold_left].
  rewrite (proj2 (bytes_eqb_neq v [])) by done. rewrite IH by (by destruct v). rewrite spaced_cons.
  destruct vs as [|u vs]; cbn [spaced]; by rewrite <- ?app_assoc.
Qed.

Lemma collect_value_spaced vs r :
  forallb set_word vs = true -> vs <> [] -> value_end r -> collect_value [] (vs ++ r) = (spaced vs, r).
Proof.
  intros Hvs Hne Hr. rewrite collect_spaced by done. f_equal. destruct vs as [|t vs]; [done|]. cbn [fold_left].
  cbn [forallb] in Hvs. apply andb_true_iff in Hvs as [Ht _]. destruct (set_word_facts _ Ht) as (Hn & _).
  change ((if bytes_eqb [] [] then [] else [] ++ [SPACE]) ++ t) with t. by apply fold_spaced.
Qed.

Lemma spaced_snoc vs w : vs <> [] -> spaced (vs ++ [w]) = spaced vs ++ SPACE :: w.
Proof. intros H. by rewrite spaced_app. Qed.

Lemma strip_comma_app s w : w <> [] -> ends_comma w = false -> strip_comma (s ++ w) = s ++ w.
Proof.
  intros Hne Hc. unfold strip_comma, ends_comma in *. rewrite rev_app_distr. destruct (rev w) as [|c r] eqn:E.
  - apply (f_equal (@rev _)) in E. rewrite rev_involutive in E. done.
  - cbn [app]. by rewrite Hc.
Qed.

Lemma strip_comma_spaced vs : forallb set_word vs = true -> strip_comma (spaced vs) = spaced vs.
Proof.
  intros H. destruct vs as [|w vs _] using rev_ind; [done|]. rewrite forallb_app in H. apply andb_true_iff in H as [_ H].
  cbn [forallb] in H. rewrite andb_true_r in H. destruct (set_word_facts _ H) as (Hn & Hc & _).
  destruct (decide (vs = [])) as [->|Hv]; [by apply (strip_comma_app [])|].
  rewrite spaced_snoc by done. change (SPACE :: w) with ([SPACE] ++ w). rewrite app_assoc. by apply strip_comma_app.
Qed.

Lemma parse_sets sets f :
  forallb set_ok sets = true -> length (set_tokens sets) <= f ->
  parseMultiAssignment f (set_tokens sets) = map (fun s => (s.1, spaced s.2)) sets.
Proof.
  revert f. induction sets as [|[c vs] sets IH]; intros f Hs Hf; [by destruct f|].
  cbn [forallb] in Hs. apply andb_true_iff in Hs as [Hs Hss]. unfold set_ok in Hs. cbn [fst snd] in Hs.
  rewrite !andb_true_iff in Hs. destruct Hs as [[Hc Hn] Hvs]. assert (vs <> []) as Hne by (intros ->; done).
  destruct (set_word_facts _ Hc) as (Hc1 & _ & Hc2 & Hc3 & _). apply bytes_eqb_neq in Hc1.
  assert (forall r, value_end r -> length (c :: str "=" :: vs ++ r) <= f ->
    parseMultiAssignment f (c :: str "=" :: vs ++ r) = (c, spaced vs) :: parseMultiAssignment (pred f) (skip_tok "," r)) as Hstep.
  { intros r Hr Hlen. destruct f as [|f]; [simpl in Hlen; lia|]. cbn [parseMultiAssignment]. rewrite Hc2, Hc1, Hc3.
    assert ((2 <? length (c :: str "=" :: vs ++ r)) = true) as -> by (apply Nat.ltb_lt; destruct vs; [done|simpl; lia]).
    change (tok 0 "=" (str "=" :: ?l)) with true. change (drop 1 (str "=" :: ?l)) with l. cbn [andb]. rewrite collect_value_spaced by done.
    by rewrite strip_comma_spaced. }
  destruct sets as [|s2 sets].
  - cbn [set_tokens map fst snd] in *. rewrite <- (app_nil_r vs). rewrite Hstep by (first [by left|by rewrite app_nil_r]).
    rewrite app_nil_r. cbn. by destruct (pred f).
  - change (set_tokens ((c, vs) :: s2 :: sets)) with (c :: str "=" :: vs ++ str "," :: set_tokens (s2 :: sets)) in *.
    rewrite Hstep by (first [done|right; by eexists]). change (skip_tok "," (str "," :: ?l)) with l.
    rewrite IH; [done|done|]. cbn [length] in Hf. rewrite length_app in Hf. cbn [length] in Hf. lia.
Qed.

Lemma rfind_sub_some p a b : rfind_sub p (a ++ p ++ b) <> None.
Proof.
  induction a as [|c a IH]; cbn [app].
  - pose proof (starts_with_app p b) as H. destruct (p ++ b) as [|c s]; cbn [rfind_sub]; rewrite H; [done|].
    by destruct (rfind_sub p s).
  - cbn [rfind_sub]. by destruct (rfind_sub p (a ++ p ++ b)).
Qed.

Lemma spaced_elem w ts : w ∈ ts -> exists a b, spaced ts = a ++ w ++ b.
Proof.
  intros (ts1 & ts2 & ->)%list_elem_of_split.
  assert (forall us, exists b, spaced (w :: us) = w ++ b) as Hw.
  { intros [|u us]; [exists []; by rewrite app_nil_r|]. by exists (SPACE :: spaced (u :: us)). }
  destruct (Hw ts2) as [b Hb]. destruct (decide (ts1 = [])) as [->|Hn]; [by exists [], b|].
  rewrite spaced_app, Hb by done. exists (spaced ts1 ++ [SPACE]), b. by rewrite <- app_assoc.
Qed.

Lemma no_returning ts : rfind_sub RETURNING (upper (spaced ts)) = None -> before_word RETURNING ts = ts.
Proof.
  intros H. assert (Forall (fun w => bytes_eqb (upper w) RETURNING = false) ts) as Hf.
  { apply Forall_forall. intros w Hw. apply bytes_eqb_neq. intros E. apply spaced_elem in Hw as (a & b & Hs).
    rewrite Hs, !upper_app, E in H. by apply rfind_sub_some in H. }
  induction Hf as [|w ts Hw Hf IH]; [done|]. cbn [before_word]. rewrite Hw. f_equal. clear -Hf.
  induction Hf as [|w ts Hw Hf IH]; [done|]. cbn [before_word]. by rewrite Hw, IH.
Qed.

Lemma before_word_app w ts us :
  Forall (fun t => bytes_eqb (upper t) w = false) ts -> before_word w (ts ++ us) = ts ++ before_word w us.
Proof. induction 1 as [|t ts Ht Hts IH]; [done|]. cbn [app before_word]. by rewrite Ht, IH. Qed.

Lemma set_tokens_words sets :
  forallb set_ok sets = true -> Forall (fun t => bytes_eqb (upper t) (str "WHERE") = false) (set_tokens sets).
Proof.
  induction sets as [|[c vs] sets IH]; [constructor|]. cbn [forallb]. intros [Hs Hss]%andb_true_iff.
  unfold set_ok in Hs. cbn [fst snd] in Hs. rewrite !andb_true_iff in Hs. destruct Hs as [[Hc _] Hvs].
  assert (Forall (fun t => bytes_eqb (upper t) (str "WHERE") = false) (c :: str "=" :: vs)) as H.
  { constructor; [by apply set_word_facts|]. constructor; [done|]. apply forallb_Forall in Hvs.
    eapply Forall_impl; [exact Hvs|]. intros w Hw. by apply set_word_facts. }
  destruct sets as [|s2 sets]; [exact H|].
  change (set_tokens ((c, vs) :: s2 :: sets)) with ((c :: str "=" :: vs) ++ str "," :: set_tokens (s2 :: sets)).
  apply Forall_app. split; [exact H|]. constructor; [done|by apply IH].
Qed.

Lemma clause_words_where l : before_word (str "WHERE") (clause_words l) = [].
Proof. unfold clause_words. by destruct (word_chain l). Qed.

Lemma parse_update_sql t sets l :
  sql_ok (update_sql t sets l) = true -> words_ok (update_tokens t sets l) = true -> LPAREN ∉ update_sql t sets l ->
  sets <> [] -> forallb set_ok sets = true -> forallb (fun p => word_good p.2) l = true ->
  parse (update_sql t sets l) =
    mkCommand CT_UPDATE (update_sql t sets l) [] [] false t [] [] [] false [] [] (map fst sets) (map (fun s => spaced s.2) sets)
      (plain_clause l) [].
Proof.
  unfold sql_ok. intros [Hu Hr]%andb_true_iff Hw Hp Hne Hs Hl. apply bool_decide_eq_true in Hr. apply words_forall in Hw.
  rewrite parse_undisturbed by done. unfold parse_rows, split_paren. rewrite (proj2 (find_char_none _ _)) by done.
  assert (tokenize (update_sql t sets l) = update_tokens t sets l) as Ht by by apply tokenize_spaced.
  rewrite Ht. unfold update_tokens.
  change (kw 0 "INSERT" (str "UPDATE" :: ?x)) with false. change (kw 0 "UPDATE" (str "UPDATE" :: ?x)) with true. cbn [andb].
  unfold parse_update.
  destruct (set_tokens sets ++ clause_words l) as [|w ws] eqn:E; [destruct sets as [|[c vs] [|]]; done|].
  change (bytes_eqb (upper (str "SET")) (str "SET")) with true. cbv iota.
  change (drop 3 (str "UPDATE" :: t :: str "SET" :: w :: ws)) with (w :: ws). rewrite <- E.
  assert (before_word RETURNING (set_tokens sets ++ clause_words l) = set_tokens sets ++ clause_words l) as ->.
  { apply no_returning. unfold update_sql, update_tokens in Hr.
    change (str "UPDATE" :: t :: str "SET" :: ?x) with ([str "UPDATE"; t; str "SET"] ++ x) in Hr.
    rewrite spaced_app in Hr by (first [done|by rewrite E]).
    rewrite upper_app in Hr. change (upper (SPACE :: ?x)) with ([SPACE] ++ upper x) in Hr. rewrite app_assoc in Hr.
    destruct (rfind_sub RETURNING (upper (spaced (set_tokens sets ++ clause_words l)))) as [k|] eqn:Ek; [|done].
    exfalso. revert Hr. generalize (upper (spaced [str "UPDATE"; t; str "SET"]) ++ [SPACE]) as pre. clear -Ek.
    induction pre as [|x pre IH]; cbn [app rfind_sub]; [by rewrite Ek|]. intros H.
    destruct (rfind_sub RETURNING (pre ++ _)); [done|]. by apply IH. }
  rewrite before_word_app by by apply set_tokens_words. rewrite clause_words_where, app_nil_r.
  rewrite drop_app_length, parse_sets, parse_clause_words by done.
  unfold parseReturning. rewrite Hr. rewrite !map_map. done.
Qed.

(** ** From the text to the engine *)

Lemma map_m_ret {A} (f : A -> M A) (l : list A) e : (forall x e, f x e = (Ok x, e)) -> map_m f l e = (Ok l, e).
Proof.
  intros Hf. induction l as [|x l IH]; [done|]. cbn [map_m]. unfold mbind, M_bind. rewrite Hf. unfold mbind, M_bind in IH. by rewrite IH.
Qed.

(** The column of the first condition is the one that is written. *)
Lemma first_column l :
  forallb (fun p : bool * Cond => word_good p.2) l = true -> words_ok (word_chain l) = true -> l <> [] ->
  whereColumn (plain_clause l) <> [].
Proof.
  intros Hl Hw Hne. destruct l as [|[b c] l]; [done|]. cbn [forallb fst snd] in Hl. apply andb_true_iff in Hl as [Hc _].
  unfold word_chain in Hw. cbn [chain] in Hw. unfold words_ok in Hw. rewrite forallb_app in Hw. apply andb_true_iff in Hw as [Hw _].
  unfold whereColumn, plain_clause. cbn [whereConds map fst snd first_condition].
  assert (forall t, is_word_token t = true -> t <> []) as Hn.
  { intros t [H _]%andb_true_iff. by apply negb_true_iff, bytes_eqb_neq in H. }
  destruct c; try done; cbn [word_tokens tokens meaning compare in_cond] in *; try destruct pos; cbn [forallb app] in Hw;
    apply andb_true_iff in Hw as [Hw _]; cbn; by apply Hn.
Qed.

Definition text_ok (s : bytes) : bool := no_backslash s && no_double s.
Definition literals (rows : list (list bytes)) : list (list bytes) := map (map literal) rows.

Lemma literals_good rows :
  forallb (fun r => negb (bool_decide (r = [])) && forallb text_ok r) rows = true ->
  good_rows (literals rows) /\ map (map unquote) (literals rows) = rows.
Proof.
  intros H%forallb_Forall. unfold literals, good_rows. induction H as [|r rows Hr _ [IH1 IH2]]; [done|].
  apply andb_true_iff in Hr as [Hne Hr]. apply negb_true_iff, bool_decide_eq_false in Hne. apply forallb_Forall in Hr.
  cbn [map]. rewrite IH2. split.
  - constructor; [|done]. split; [by destruct r|]. apply Forall_map. eapply Forall_impl; [exact Hr|].
    intros s [Hs _]%andb_true_iff. by apply literal_closed.
  - f_equal. clear -Hr. induction Hr as [|s r [_ Hs]%andb_true_iff _ IH]; [done|]. cbn [map]. rewrite IH. f_equal.
    by apply unquote_literal.
Qed.

Section execution.
Context {DB : Double}.
Context (regex_search : bytes -> bytes -> option bool).
Context (evalExprStr : bytes -> list Column -> list bytes -> bytes).
Context (match_against : list bytes -> bytes -> bytes -> list Column -> list bytes -> bool).
Context (formatNum : dbl -> bytes) (dcount : nat -> dbl).
Context (evaluateRlsExpr_ : bytes -> Row -> list bytes -> bool).
Context (evaluateGenExpr : bytes -> list Column -> list bytes -> bytes).
Context (isValidJson : bytes -> bool).
Context (number_text : dbl -> bytes).
Context (clock : Clock) (thread : Z) (fuel : nat).
Context (insertSelect : bytes -> bytes -> M ()) (other_storage : gset bytes) (insert_other : bytes -> list (list bytes) -> M ()).

(** On a server that accepts writes. *)
Abbreviation execute :=
  (execute regex_search evalExprStr match_against formatNum dcount evaluateRlsExpr_ evaluateGenExpr isValidJson number_text
     clock thread false fuel insertSelect other_storage insert_other).
Abbreviation insertRow := (insertRow regex_search evaluateRlsExpr_ evaluateGenExpr isValidJson clock thread).
Abbreviation updateWhereConds :=
  (updateWhereConds regex_search evalExprStr match_against formatNum dcount evaluateRlsExpr_ evaluateGenExpr number_text clock thread).
Abbreviation updateAll := (updateAll regex_search evaluateGenExpr thread).
Abbreviation deleteWhereConds := (deleteWhereConds regex_search evalExprStr match_against formatNum dcount evaluateRlsExpr_ clock thread fuel).

(** [C9] An INSERT into an ordinary table whose literals spell any texts without
    backslashes and without two double quotes side by side - quotes, commas,
    parentheses and keywords included - inserts row by row values that unquote to
    exactly these texts, if nothing of the text is cut off for another purpose
    ([undisturbed]). A backslash in front of a quote and the words INTO OUTFILE in
    a text break it ([Lexer.backslash_swallows_quote], [outfile_cuts_insert]); foreign
    tables and those stored by other engines are apart. *)
Theorem insert_text_stores t rows e :
  table_text t = true -> rows <> [] -> isInfoSchemaName t = false -> t ∉ other_storage ->
  forallb (fun r => negb (bool_decide (r = [])) && forallb text_ok r) rows = true ->
  undisturbed (insert_sql t (literals rows)) = true ->
  execute (insert_sql t (literals rows)) e = (_ ← for_each (insertRow t) (literals rows); saved clock INSERT t) e /\
  map (map unquote) (literals rows) = rows.
Proof.
  intros Ht Hne Hi Ho Hr Hu. destruct (literals_good rows Hr) as [Hg Hq]. split; [|done].
  destruct (parse_insert_sql t (literals rows)) as (H1 & H2 & H3 & H4 & H5 & H6); [done|by destruct rows|done|done|].
  assert (t <> []) as Hn by (intros ->; by vm_compute in Ht).
  unfold Statements.execute. rewrite H1. unfold dispatch_insert, refused. rewrite H2, H6, Hi. cbn [orb].
  rewrite (proj2 (bytes_eqb_neq t [])) by done. rewrite decide_False by done.
  assert (rows_of (parse (insert_sql t (literals rows))) = literals rows) as -> by (unfold rows_of; rewrite H3; by destruct rows).
  unfold mbind at 1, M_bind at 1. rewrite map_m_ret; [|intros x e'; unfold remapForNamedCols; by rewrite H4]. rewrite H5. done.
Qed.

(** A DELETE with any list of comparisons, NULL tests, LIKE patterns and IN lists
    deletes by exactly these conditions, joined by the last connective; without a
    clause it deletes everything. *)
Theorem delete_text_runs t l e :
  sql_ok (delete_sql t l) = true -> words_ok (delete_tokens t l) = true -> LPAREN ∉ t -> isInfoSchemaName t = false ->
  forallb (fun p => word_good p.2) l = true ->
  execute (delete_sql t l) e =
    match l with
    | [] => (_ ← deleteAll t; saved clock DELETE t) e
    | _ => (n ← deleteWhereConds t (map (fun p => meaning p.2) l) (last_conn l); changed clock DELETE t n) e
    end.
Proof.
  intros Hs Hw Hp Hi Hl. unfold Statements.execute. rewrite parse_delete_sql by done. cbn [type].
  unfold dispatch_delete, refused. cbn [tableName where_ orb]. rewrite Hi.
  assert (t <> []) as Hn.
  { unfold words_ok, delete_tokens in Hw. cbn [forallb] in Hw. rewrite !andb_true_iff in Hw. destruct Hw as (_ & _ & Ht & _).
    apply andb_true_iff in Ht as [Ht _]. by apply negb_true_iff, bytes_eqb_neq in Ht. }
  rewrite (proj2 (bytes_eqb_neq t [])) by done. cbn [orb]. destruct l as [|p l]; [done|].
  rewrite (proj2 (bytes_eqb_neq (whereColumn _) [])).
  2: { apply first_column; [done| |done]. unfold words_ok, delete_tokens, clause_words in Hw |- *. cbn [forallb] in Hw.
       rewrite !andb_true_iff in Hw. destruct Hw as (_ & _ & _ & Hw). destruct (word_chain (p :: l)); [done|].
       cbn [where_tokens] in Hw. apply andb_true_iff in Hw as [_ Hw]. exact Hw. }
  unfold Mutation.deleteWhereConds. cbn [plain_clause whereConds whereLogic map length].
  destruct (length (map _ l)) as [|k] eqn:E; [|done].
  destruct (first_condition _) as [c v] eqn:Ef. unfold whereColumn, whereValue, plain_clause. cbn [whereConds map]. by rewrite Ef.
Qed.

(** An UPDATE without parentheses in its text changes the named columns to the
    written values where exactly its conditions hold. *)
Theorem update_text_runs t sets l e :
  sql_ok (update_sql t sets l) = true -> words_ok (update_tokens t sets l) = true -> LPAREN ∉ update_sql t sets l ->
  isInfoSchemaName t = false -> sets <> [] -> forallb set_ok sets = true -> forallb (fun p => word_good p.2) l = true ->
  execute (update_sql t sets l) e =
    let cols := map fst sets in
    let vals := map (fun s => spaced s.2) sets in
    match l with
    | [] => (_ ← updateAll t cols vals; saved clock UPDATE t) e
    | _ => (n ← updateWhereConds t cols vals (map (fun p => meaning p.2) l) (last_conn l); changed clock UPDATE t n) e
    end.
Proof.
  intros Hs Hw Hp Hi Hne Hso Hl. unfold Statements.execute. rewrite parse_update_sql by done. cbn [type].
  unfold dispatch_update, refused. cbn [tableName where_ updateCols updateVals orb]. rewrite Hi.
  unfold words_ok, update_tokens in Hw. cbn [forallb] in Hw. rewrite forallb_app in Hw.
  rewrite !andb_true_iff in Hw. destruct Hw as (_ & Ht & _ & _ & Hw).
  assert (t <> []) as Hn by (apply andb_true_iff in Ht as [Ht _]; by apply negb_true_iff, bytes_eqb_neq in Ht).
  rewrite (proj2 (bytes_eqb_neq t [])) by done. rewrite bool_decide_eq_false_2 by (by destruct sets). cbn [orb].
  destruct l as [|p l]; [done|].
  rewrite (proj2 (bytes_eqb_neq (whereColumn _) [])).
  2: { apply first_column; [done| |done]. unfold clause_words in Hw. destruct (word_chain (p :: l)); [done|].
       cbn [where_tokens] in Hw. apply andb_true_iff in Hw as [_ Hw]. exact Hw. }
  unfold Mutation.updateWhereConds. cbn [plain_clause whereConds whereLogic map length].
  destruct (length (map _ l)) as [|k] eqn:E; [|done].
  destruct (first_condition _) as [c v] eqn:Ef. unfold whereColumn, whereValue, plain_clause. cbn [whereConds map]. by rewrite Ef.
Qed.
End execution.

(** ** Examples *)

Section examples.
#[local] Existing Instance IntDouble.

(** Statements on the tables of [Integrity.ex_db]: [p] holds the rows (1, 5) and (2, 6). *)
Abbreviation ex_execute :=
  (execute no_regex no_func no_match print int_count (fun _ _ _ => true) no_gen (fun _ => true) print ex_clock 1 false 3
     (fun _ _ => mret ()) ∅ (fun _ _ => mret ())).
Abbreviation after_sql s := (contents (ex_execute (str s) ex_db).2 "p").

Definition ex_texts : list (list bytes) := [[str "3"; str "7"]; [str "4"; str "8"]].
Definition odd_texts : list (list bytes) := [[str "it's, (b) VALUES"; str "c','d"]].

Lemma insert_text_stores_witness :
  insert_sql (str "p") (literals ex_texts) = str "INSERT INTO p VALUES ('3', '7'), ('4', '8')" /\
  after_sql "INSERT INTO p VALUES ('3', '7'), ('4', '8')" = texts [["1"; "5"]; ["2"; "6"]; ["3"; "7"]; ["4"; "8"]] /\
  multiValues (parse (insert_sql (str "p") (literals odd_texts))) = [[str "'it''s, (b) VALUES'"; str "'c'',''d'"]] /\
  map (map unquote) (literals odd_texts) = odd_texts.
Proof.
  split; [vm_compute; reflexivity|]. split; [vm_compute; reflexivity|]. split; [vm_compute; reflexivity|].
  apply (insert_text_stores no_regex no_func no_match print int_count (fun _ _ _ => true) no_gen (fun _ => true) print
    ex_clock 1 3 (fun _ _ => mret ()) ∅ (fun _ _ => mret ()) (str "p") odd_texts ex_db);
    first [by apply not_elem_of_empty|vm_compute; reflexivity|done].
Defined.

Definition ex_conds : list (bool * Cond) :=
  [(true, CCmp (str "qty") (str ">") (str "5") []); (true, CIn true (str "id") [str "1"; str "2"])].

Lemma delete_text_runs_witness :
  delete_sql (str "p") ex_conds = str "DELETE FROM p WHERE qty > 5 AND id IN (1,2)" /\
  after_sql "DELETE FROM p WHERE qty > 5 AND id IN (1,2)" = texts [["1"; "5"]] /\
  ex_execute (delete_sql (str "p") ex_conds) ex_db =
    (n ← deleteWhereConds no_regex no_func no_match print int_count (fun _ _ _ => true) ex_clock 1 3 (str "p")
       (map (fun p => meaning p.2) ex_conds) (last_conn ex_conds); changed ex_clock DELETE (str "p") n) ex_db.
Proof.
  split; [vm_compute; reflexivity|]. split; [vm_compute; reflexivity|].
  apply (delete_text_runs no_regex no_func no_match print int_count (fun _ _ _ => true) no_gen (fun _ => true) print
    ex_clock 1 3 (fun _ _ => mret ()) ∅ (fun _ _ => mret ()) (str "p") ex_conds ex_db);
    first [by apply (bool_decide_unpack _)|vm_compute; reflexivity].
Defined.

Definition ex_sets : list (bytes * list bytes) := [(str "qty", [str "qty"; str "+"; str "4"])].

Lemma update_text_runs_witness :
  update_sql (str "p") ex_sets [(true, CCmp (str "id") (str "=") (str "2") [])] = str "UPDATE p SET qty = qty + 4 WHERE id = 2" /\
  ex_execute (str "UPDATE p SET qty = qty + 4 WHERE id = 2") ex_db =
    (n ← updateWhereConds no_regex no_func no_match print int_count (fun _ _ _ => true) no_gen print ex_clock 1 (str "p")
       [str "qty"] [str "qty + 4"] [compare (str "id") EQ (str "2")] AND; changed ex_clock UPDATE (str "p") n) ex_db.
Proof.
  split; [vm_compute; reflexivity|].
  apply (update_text_runs no_regex no_func no_match print int_count (fun _ _ _ => true) no_gen (fun _ => true) print
    ex_clock 1 3 (fun _ _ => mret ()) ∅ (fun _ _ => mret ()) (str "p") ex_sets [(true, CCmp (str "id") (str "=") (str "2") [])] ex_db);
    first [done|vm_compute; reflexivity|by apply (bool_decide_unpack _)].
Defined.

(** ** What goes wrong with other texts *)

(** A clause the parser of DELETE and UPDATE cannot read is no clause: the
    statement runs on every row. *)
Lemma unread_clause_runs_on_all :
  after_sql "DELETE FROM p WHERE id BETWEEN 5 AND 6" = texts [] /\
  after_sql "DELETE FROM p WHERE NOT id = 1" = texts [] /\
  after_sql "UPDATE p SET qty = 9 WHERE id BETWEEN 5 AND 6" = texts [["1"; "9"]; ["2"; "9"]].
Proof. vm_compute. split_and!; reflexivity. Qed.

(** UPDATE reads its WHERE clause from the text in front of the first
    parenthesis, wherever that stands: behind it nothing restricts the rows. *)
Lemma update_loses_clause_behind_paren :
  after_sql "UPDATE p SET qty = 9 WHERE id = (1)" = texts [["1"; "9"]; ["2"; "9"]] /\
  after_sql "UPDATE p SET qty = 9 WHERE qty > 0 AND id NOT IN (1)" = texts [["1"; "9"]; ["2"; "9"]] /\
  where_ (parse (str "UPDATE t SET a = 'x (y)' WHERE id = 1")) = no_clause /\
  updateVals (parse (str "UPDATE t SET a = 'x (y)' WHERE id = 1")) = [str "'x "].
Proof. vm_compute. split_and!; reflexivity. Qed.

(** The word RETURNING ends the text of a DELETE even as part of a name. *)
Lemma returning_cuts_clause :
  where_ (parse (str "DELETE FROM t WHERE returning = 1")) = no_clause /\
  after_sql "DELETE FROM p WHERE id = 1 AND returning = 1" = texts [["2"; "6"]] /\
  after_sql "DELETE FROM p WHERE returning = 1 AND id = 7" = texts [].
Proof. vm_compute. split_and!; reflexivity. Qed.

(** A single IN list is compared as the empty text. *)
Lemma single_in_list_deletes_nothing : after_sql "DELETE FROM p WHERE id IN (1)" = texts [["1"; "5"]; ["2"; "6"]].
Proof. vm_compute. reflexivity. Qed.

(** An equals sign inside a text starts a new assignment. *)
Lemma assignment_inside_text :
  let cmd := parse (str "UPDATE t SET a = 'x=y' WHERE id = 1") in
  updateCols cmd = [str "a"; str "'x"] /\ updateVals cmd = [[]; str "y'"].
Proof. vm_compute. split; reflexivity. Qed.

(** A text with INTO OUTFILE cuts its INSERT off. *)
Lemma outfile_cuts_insert :
  let cmd := parse (str "INSERT INTO t VALUES ('put into outfile here', 2)") in
  raw cmd = str "INSERT INTO t VALUES ('put" /\ csvFile cmd = str "here'," /\ multiValues cmd = [[str "'put"]].
Proof. vm_compute. split_and!; reflexivity. Qed.

(** INSERT OR REPLACE and OR IGNORE change the table and leave the cached results. *)
Lemma upsert_keeps_cache :
  (ex_execute (str "INSERT OR REPLACE INTO p VALUES (1, 9)") ex_db).1 = Ok Saved /\
  after_sql "INSERT OR REPLACE INTO p VALUES (1, 9)" = texts [["2"; "6"]; ["1"; "9"]] /\
  (ex_execute (str "UPDATE p SET qty = 9 WHERE id = 1") ex_db).1 = Ok SavedAndInvalidated.
Proof. vm_compute. split_and!; reflexivity. Qed.

(** A DELETE that cascades changes the table of the children, and only the table
    named in the statement is invalidated. *)
Lemma cascade_keeps_cache :
  (ex_execute (str "DELETE FROM p WHERE id = 1") ex_db).1 = Ok SavedAndInvalidated /\
  tableName (parse (str "DELETE FROM p WHERE id = 1")) = str "p" /\
  contents ex_db "c" = texts [["1"]; ["2"]] /\
  contents (ex_execute (str "DELETE FROM p WHERE id = 1") ex_db).2 "c" = texts [["2"]].
Proof. vm_compute. split_and!; reflexivity. Qed.

(** The branch for UPDATE takes every statement that starts with the word, so the
    later one for documents is never reached. *)
Lemma update_document_unreachable : type (parse (str "UPDATE DOCUMENT c SET a = 1 WHERE b = 2")) = CT_UNKNOWN.
Proof. vm_compute. reflexivity. Qed.
End examples.
