(* ===== verification/Effects.v ===== *)
(** * What a DELETE and an UPDATE do, from their texts

    [Statements.v] follows a printed statement to the operation of the engine it
    runs; this file goes on to the rows.  On a table without triggers, partitions,
    policies and references to it, a DELETE leaves the rows that its conditions do
    not select, and an UPDATE overwrites the named columns of those they select.
    What a clause selects is said without the evaluator's loops: each condition
    has a truth value on a row, and the connective joins them.  A single condition
    is another matter: the engine looks for the rows with its text, so that it is
    an equality here ([Integrity.operator_ignored]). *)

From S2P Require Import Prelude Index BTree Partition Table Mvcc Locks Transaction Joins Arith Where Select Columns Triggers Mutation Integrity Lexer WhereParser WhereSyntax Statements.

(** ** Running a statement step by step *)

Lemma then_ok {A B} (m : M A) (k : A -> M B) e x e1 r : m e = (Ok x, e1) -> k x e1 = r -> (m ≫= k) e = r.
Proof. intros Hm Hk. unfold mbind, M_bind. by rewrite Hm. Qed.

(** A step that reads the engine and returns. *)
Ltac reads := eapply then_ok; [first [reflexivity|eassumption]|]; cbv beta.

Lemma for_each_idle {A} (f : A -> M ()) l e : (forall x, x ∈ l -> f x e = (Ok (), e)) -> for_each f l e = (Ok (), e).
Proof.
  induction l as [|x l IH]; intros H; [done|]. cbn [for_each]. eapply then_ok; [apply H; by left|]. apply IH.
  intros y Hy. apply H. by right.
Qed.

(** ** What a clause selects *)

Section effects.
Context {DB : Double}.
Context (regex_search : bytes -> bytes -> option bool).
Context (evalExprStr : bytes -> list Column -> list bytes -> bytes).
Context (match_against : list bytes -> bytes -> bytes -> list Column -> list bytes -> bool).
Context (formatNum : dbl -> bytes) (dcount : nat -> dbl).
Context (evaluateRlsExpr_ : bytes -> Row -> list bytes -> bool).
Context (evaluateGenExpr : bytes -> list Column -> list bytes -> bytes).
Context (isValidJson : bytes -> bool).
Context (number_text : dbl -> bytes).
Context (clock : Clock) (thread : Z) (fuel : nat).
Context (insertSelect : bytes -> bytes -> M ()) (other_storage : gset bytes) (insert_other : bytes -> list (list bytes) -> M ()).

Abbreviation evalOne m := (evalOne regex_search evalExprStr match_against formatNum dcount m).
Abbreviation rowMatches m := (rowMatches regex_search evalExprStr match_against formatNum dcount m).
Abbreviation matching := (matching regex_search evalExprStr match_against formatNum dcount).
Abbreviation matching_rows := (matching_rows regex_search evalExprStr match_against formatNum dcount).
Abbreviation survivors := (survivors regex_search evalExprStr match_against formatNum dcount).

(** The connective of a list, AND if it is never needed. *)
Definition conj {A} (l : list (bool * A)) : bool := match tail l with [] => true | (b, _) :: _ => b end.

(** The conditions [l] come out as [b] on the row: each has a truth value. *)
Definition verdict (m : gmap bytes (Table BTree)) (cs : list Column) (l : list (bool * Cond)) (r : Row) (b : bool) : Prop :=
  exists bs, Forall2 (fun p x => evalOne m cs (values r) (meaning p.2) = Ok x) l bs /\
    b = if conj l then forallb id bs else existsb id bs.

Lemma last_conn_conj {A} (l : list (bool * A)) : one_conn l = true -> last_conn l = conn (conj l).
Proof.
  intros H%one_conn_last. unfold last_conn, conj in *. destruct (tail l) as [|[b x] l']; [done|].
  by apply Forall_inv in H.
Qed.

(** The loop over the conditions computes it. *)
Lemma verdict_matches m (T : Table BTree) l r b :
  l <> [] -> one_conn l = true -> verdict m (columns_ T) l r b ->
  rowMatches m T r (map (fun p => meaning p.2) l) (last_conn l) = Ok b.
Proof.
  intros Hne Hc (bs & H & ->). rewrite last_conn_conj by done. unfold Where.rowMatches.
  destruct (map _ l) eqn:E; [by destruct l|]. rewrite <- E. clear E w l0 Hne Hc. unfold eval_list.
  destruct (conj l); cbn [conn].
  - change (bytes_eqb AND AND) with true. cbv iota. induction H as [|p x l bs Hp _ IH]; [done|]. cbn [map forallb].
    rewrite Hp. cbn [mbind result_bind]. destruct x; [exact IH|done].
  - change (bytes_eqb OR AND) with false. cbv iota. induction H as [|p x l bs Hp _ IH]; [done|]. cbn [map existsb].
    rewrite Hp. cbn [mbind result_bind]. destruct x; [done|exact IH].
Qed.

(** The rows that a clause of a statement selects in the table [T]. *)
Inductive selects (m : gmap bytes (Table BTree)) (T : Table BTree) : list (bool * Cond) -> (Row -> bool) -> Prop :=
| sel_all : selects m T [] (fun _ => true)
| sel_text b c x ci :
    colOf T c = Some ci ->
    selects m T [(b, CCmp c (str "=") x [])]
      (fun r => match values r !! ci with Some v => bool_decide (v = x \/ v = stripQuotes x) | None => false end)
| sel_conds l v :
    2 <= length l -> one_conn l = true -> (forall r, r ∈ rows_ T -> verdict m (columns_ T) l r (v r)) -> selects m T l v.

Lemma matching_verdict e T conds logic v rs :
  (forall r, r ∈ rs -> rowMatches (tables e) T r conds logic = Ok (v r)) ->
  matching e T conds logic rs = Ok (List.filter v rs) /\
  survivors e T conds logic rs = Ok (List.filter (fun r => negb (v r)) rs).
Proof.
  induction rs as [|r rs IH]; intros H; [done|]. cbn [Mutation.matching Mutation.survivors].
  rewrite (H r) by (by left). destruct IH as [-> ->]; [intros r' Hr'; apply H; by right|].
  cbn [mbind result_bind List.filter]. by destruct (v r).
Qed.

(** ** The table a statement works on *)

(** Nothing hinders the command: no triggers and partitions, no transaction, the
    privilege, no lock of another thread, no policy that binds the user. *)
Record target (e : Engine) (n : bytes) (T : Table BTree) (cmd : bytes) : Prop := {
  g_quiet : quiet e;
  g_tx : active (tx (core e)) = false;
  g_table : tables e !! n = Some T;
  g_allowed : checkPrivilege cmd n e = (Ok (), e);
  g_unlocked : checkWriteAllowed thread n e = (Ok (), e);
  g_exempt : rls_exempt (view e) n = true }.

(** No foreign key of another table refers to it. *)
Definition unreferred (e : Engine) (n : bytes) : Prop :=
  map_Forall (fun c t => c = n \/ Forall (fun fk => tblNamesMatch (refTable fk) n = false) (foreignKeys_ t)) (tables e).

Lemma get_table_ok n T e : tables e !! n = Some T -> get_table n e = (Ok T, e).
Proof. intros H. unfold get_table. by rewrite H. Qed.

Lemma cascade_idle e n T r : unreferred e n -> tables e !! n = Some T -> cascadeDelete n r e = (Ok (), e).
Proof.
  intros Hu Hn. unfold cascadeDelete. eapply then_ok; [by apply get_table_ok|]. reads. apply for_each_idle.
  intros c ([c' t] & -> & Hc%elem_of_map_iter)%list_elem_of_fmap. cbn [fst]. unfold cascade_child, bytes_eqb. case_bool_decide as Hcn; [done|].
  eapply then_ok; [by apply get_table_ok|]. apply for_each_idle. intros fk Hfk. unfold cascade_fk.
  eapply then_ok; [by apply get_table_ok|]. destruct (Hu c' t Hc) as [|Hf]; [done|]. rewrite Forall_forall in Hf.
  by rewrite (Hf fk Hfk).
Qed.

Lemma fire_deletes_idle f old e : (forall o, f o e = (Ok (), e)) -> fire_deletes f old e = (Ok (), e).
Proof. intros H. apply for_each_idle. intros o _. apply H. Qed.

Lemma before_idle event n new old e : quiet e -> before clock event n new old e = (Ok new, e).
Proof. intros [Ht _]. unfold before. eapply then_ok; [by apply fire_quiet|]. done. Qed.
Lemma after_idle event n new old e : quiet e -> after clock event n new old e = (Ok (), e).
Proof. intros [Ht _]. unfold after. eapply then_ok; [by apply fire_quiet|]. done. Qed.

Lemma saved_idle event n e : quiet e -> saved clock event n e = (Ok SavedAndInvalidated, e).
Proof.
  intros [Ht _]. unfold saved. eapply (then_ok _ _ _ ()); [|done]. unfold Mutation.fireStatementTriggers, Triggers.fireStatementTriggers.
  rewrite Ht. assert (str_iter (∅ : gmap bytes TriggerDef) = []) as -> by (unfold map_iter; by rewrite map_to_list_empty).
  cbn [fire_for_statement]. by rewrite with_tables_id.
Qed.
Lemma changed_idle event n k e : quiet e -> exists a, changed clock event n k e = (Ok a, e).
Proof. intros Hq. unfold changed. destruct (0 <? k); [eexists; by apply saved_idle|by eexists]. Qed.

(** The table [n] has become [T']. *)
Definition replaced (e : Engine) (n : bytes) (T' : Table BTree) (e' : Engine) : Prop :=
  tables e' = <[n := T']> (tables e) /\ quiet e'.

Lemma replaced_put e n T' : quiet e -> replaced e n T' (with_tables (<[n := T']> (tables e)) e).
Proof. done. Qed.

Lemma add_dead_keeps e n T' k e1 :
  replaced e n T' e1 -> exists e2, add_dead n k e1 = (Ok (), e2) /\ replaced e n T' e2.
Proof. intros H. unfold add_dead. destruct (k =? 0); by eexists. Qed.
(** ** DELETE *)

Abbreviation deleteWhereConds := (deleteWhereConds regex_search evalExprStr match_against formatNum dcount evaluateRlsExpr_ clock thread fuel).
Abbreviation deleteWhere := (Mutation.deleteWhere evaluateRlsExpr_ clock thread fuel).
Abbreviation execute :=
  (execute regex_search evalExprStr match_against formatNum dcount evaluateRlsExpr_ evaluateGenExpr isValidJson number_text
     clock thread false fuel insertSelect other_storage insert_other).

Lemma cascade_matching_idle e n T conds logic v rs :
  unreferred e n -> tables e !! n = Some T ->
  (forall r, r ∈ rs -> rowMatches (tables e) T r conds logic = Ok (v r)) ->
  cascade_matching regex_search evalExprStr match_against formatNum dcount n conds logic rs e = (Ok (), e).
Proof.
  intros Hu Hn. induction rs as [|r rs IH]; intros H; [done|]. cbn [cascade_matching].
  eapply then_ok; [by apply get_table_ok|]. reads. unfold lift at 1.
  eapply then_ok; [cbn [id]; by rewrite (H r) by (by left)|].
  eapply then_ok; [|apply IH; intros r' Hr'; apply H; by right]. destruct (v r); [by eapply cascade_idle|done].
Qed.

Lemma matching_rows_ok e n T conds logic v :
  tables e !! n = Some T -> (forall r, r ∈ rows_ T -> rowMatches (tables e) T r conds logic = Ok (v r)) ->
  matching_rows n conds logic e = (Ok (List.filter v (rows_ T)), e).
Proof.
  intros Hn H. unfold Mutation.matching_rows. eapply then_ok; [by apply get_table_ok|]. reads. cbn [id].
  unfold lift. by destruct (matching_verdict e T conds logic v (rows_ T) H) as [-> _].
Qed.

Lemma delete_conds_effect t n T conds logic v e :
  n = resolveTableName (session e) (tables e) t -> target e n T DELETE -> unreferred e n -> 2 <= length conds ->
  (forall r, r ∈ rows_ T -> rowMatches (tables e) T r conds logic = Ok (v r)) ->
  exists k e', deleteWhereConds t conds logic e = (Ok k, e') /\ replaced e n (erase_rows v T).2 e'.
Proof.
  intros Hn [Hq Htx HT Hal Hul Hex] Hu Hl Hv. unfold Mutation.deleteWhereConds.
  rewrite (proj2 (Nat.leb_gt _ _)) by lia.
  destruct (add_dead_keeps e n (erase_rows v T).2 (length (rows_ T) - length (List.filter (fun r => negb (v r)) (rows_ T)))
    (with_tables (<[n := (erase_rows v T).2]> (tables e)) e)) as (e2 & Ha & Hr); [by apply replaced_put|].
  eexists _, e2. split; [|exact Hr].
  eapply then_ok; [reflexivity|]. rewrite Htx. cbn [negb ensure]. reads. unfold resolved at 1. reads. rewrite <- Hn.
  reads. unfold is_physical at 1. destruct Hq as [Hq1 Hq2]. rewrite Hq2, lookup_empty. cbn [negb ensure]. reads.
  eapply then_ok; [exact Hal|]. eapply then_ok; [exact Hul|]. eapply then_ok; [by apply get_table_ok|].
  eapply (then_ok _ _ _ ()).
  { unfold check_rls_conds. reads. cbn [id]. by rewrite Hex. }
  eapply then_ok; [by apply matching_rows_ok|]. cbv zeta.
  eapply then_ok; [by eapply cascade_matching_idle|].
  eapply then_ok; [apply fire_deletes_idle; intros o; unfold before_delete; eapply then_ok; [by apply before_idle|done]|].
  eapply then_ok; [by apply get_table_ok|]. reads. cbn [id]. eapply then_ok.
  { unfold lift. by destruct (matching_verdict e T conds logic v (rows_ T) Hv) as [_ ->]. }
  cbv zeta. eapply then_ok.
  { unfold put_table, modify. reflexivity. }
  assert (length (rows_ T) - length (List.filter (fun r => negb (v r)) (rows_ T)) = length (List.filter v (rows_ T))) as Ek.
  { clear. induction (rows_ T) as [|r rs IH]; [done|]. cbn [List.filter length].
    pose proof (List.filter_length_le (fun r => negb (v r)) rs). destruct (v r); cbn [negb length]; lia. }
  rewrite Ek in Ha |- *.
  change (if length (List.filter v (rows_ T)) =? 0 then with_rows T (List.filter (fun r => negb (v r)) (rows_ T))
          else rebuildAll (with_rows T (List.filter (fun r => negb (v r)) (rows_ T)))) with (erase_rows v T).2.
  eapply then_ok; [exact Ha|]. eapply then_ok; [|reflexivity].
  apply fire_deletes_idle. intros o. apply after_idle, Hr.
Qed.

Lemma erase_rows_ext p q (T : Table BTree) : (forall r, r ∈ rows_ T -> p r = q r) -> erase_rows p T = erase_rows q T.
Proof.
  intros H. unfold erase_rows. rewrite (filter_ext_in p q) by (intros r Hr; apply H; by apply list_elem_of_In).
  by rewrite (filter_ext_in (fun r => negb (p r)) (fun r => negb (q r))) by (intros r Hr; f_equal; apply H; by apply list_elem_of_In).
Qed.

(** One condition: the rows with its text. *)
Lemma delete_text_effect t n T c x ci e :
  n = resolveTableName (session e) (tables e) t -> target e n T DELETE -> unreferred e n -> colOf T c = Some ci ->
  exists k e', deleteWhere t c x e = (Ok k, e') /\ replaced e n (Table.deleteWhere ci x T).2 e'.
Proof.
  intros Hn [Hq Htx HT Hal Hul Hex] Hu Hc. destruct (Table.deleteWhere ci x T) as [k T'] eqn:Ed.
  destruct (add_dead_keeps e n T' k (with_tables (<[n := T']> (tables e)) e)) as (e2 & Ha & Hr); [by apply replaced_put|].
  exists k, e2. split; [|exact Hr].
  assert (colIdx (columns_ T) c = Ok ci) as Hci by (unfold colIdx; unfold colOf in Hc; by rewrite Hc).
  assert (delete_rows evaluateRlsExpr_ clock thread n c x e = (Ok k, e2)) as Hd.
  { unfold delete_rows. eapply then_ok; [exact Hal|]. eapply then_ok; [exact Hul|]. reads. cbn [id]. rewrite Hex. reads.
    eapply then_ok; [by apply get_table_ok|]. eapply then_ok; [unfold lift; by rewrite Hci|].
    eapply then_ok; [apply for_each_idle; intros r _; by eapply cascade_idle|].
    eapply then_ok; [by apply get_table_ok|]. cbv zeta.
    eapply then_ok; [apply fire_deletes_idle; intros o; unfold before_delete; eapply then_ok; [by apply before_idle|done]|].
    eapply then_ok; [reflexivity|]. rewrite Htx. eapply then_ok; [by apply get_table_ok|]. rewrite Ed.
    eapply then_ok; [reflexivity|]. eapply then_ok; [exact Ha|]. eapply then_ok; [|reflexivity].
    apply fire_deletes_idle. intros o. apply after_idle, Hr. }
  destruct Hq as [_ Hq2].
  destruct fuel; cbn [Mutation.deleteWhere]; unfold resolved at 1; reads; rewrite <- Hn; reads; rewrite Hq2, lookup_empty; exact Hd.
Qed.

Lemma deleteAll_effect t n T e :
  n = resolveTableName (session e) (tables e) t -> target e n T DELETE -> unreferred e n ->
  exists k e', deleteAll t e = (Ok k, e') /\ replaced e n (Table.deleteAll T).2 e'.
Proof.
  intros Hn [Hq Htx HT Hal Hul Hex] Hu. eexists _, _. split; [|by apply replaced_put]. unfold Mutation.deleteAll.
  unfold resolved at 1. reads. rewrite <- Hn. eapply then_ok; [exact Hal|]. eapply then_ok; [by apply get_table_ok|].
  eapply then_ok; [apply for_each_idle; intros r _; by eapply cascade_idle|]. eapply then_ok; [reflexivity|]. rewrite Htx.
  eapply then_ok; [by apply get_table_ok|]. cbn [Table.deleteAll]. reflexivity.
Qed.

(** [C10] From its text, a DELETE with any list of comparisons, NULL tests, LIKE
    patterns and IN lists under one connective leaves exactly the rows that the
    clause does not select, in their order, and no other table changes; without a
    clause it leaves none.  Of single conditions only an equality is covered, which
    selects the rows with its text; the engine does not look at the operator there
    ([Integrity.operator_ignored]).  The table has no triggers, partitions,
    policies that bind the user and locks of others, no other table refers to it,
    and no transaction is open; the text is not cut by RETURNING or INTO OUTFILE,
    and every condition has a truth value on every row. *)
Theorem delete_text_deletes t l e T v :
  sql_ok (delete_sql t l) = true -> words_ok (delete_tokens t l) = true -> LPAREN ∉ t -> isInfoSchemaName t = false ->
  forallb (fun p => word_good p.2) l = true ->
  let n := resolveTableName (session e) (tables e) t in
  target e n T DELETE -> unreferred e n -> selects (tables e) T l v ->
  exists a e' T', execute (delete_sql t l) e = (Ok a, e') /\ tables e' = <[n := T']> (tables e) /\
    rows_ T' = List.filter (fun r => negb (v r)) (rows_ T) /\ columns_ T' = columns_ T /\ (Table.good T -> Table.good T').
Proof.
  intros Hs Hw Hp Hi Hg n Ht Hu Hsel. rewrite delete_text_runs by done.
  assert (forall T', rows_ T' = List.filter (fun r => negb (v r)) (rows_ T) -> columns_ T' = columns_ T ->
    (Table.good T -> Table.good T') -> forall A (m : M A) k, (exists x e', m e = (Ok x, e') /\ replaced e n T' e') ->
    (forall x e', quiet e' -> exists a : Aftermath, k x e' = (Ok a, e')) ->
    exists a e' T', (m ≫= k) e = (Ok a, e') /\ tables e' = <[n := T']> (tables e) /\
      rows_ T' = List.filter (fun r => negb (v r)) (rows_ T) /\ columns_ T' = columns_ T /\ (Table.good T -> Table.good T')) as Hend.
  { intros T' Hr Hc Hgd A m k (x & e' & Hm & Ht' & Hq) Hk. destruct (Hk x e' Hq) as [a Ha].
    exists a, e', T'. split; [by eapply then_ok|done]. }
  destruct Hsel as [|b c x ci Hc|l v Hl Hone Hv].
  - eapply (Hend (Table.deleteAll T).2); [| | |by apply deleteAll_effect|].
    + change (rows_ (Table.deleteAll T).2) with (@nil Row). generalize (rows_ T). intros rs. by induction rs.
    + done.
    + intros (_ & _ & Hpl). apply rebuildAll_good; [constructor|done].
    + intros k e' Hq. eexists. by apply saved_idle.
  - assert (deleteWhereConds t (map (fun p => meaning p.2) [(b, CCmp c (str "=") x [])]) (last_conn [(b, CCmp c (str "=") x [])]) =
      deleteWhere t c x) as -> by (cbn; by rewrite app_nil_r).
    eapply (Hend (Table.deleteWhere ci x T).2); [| | |by apply delete_text_effect|].
    + unfold Table.deleteWhere, erase_rows. cbn [snd].
      assert (forall A (b : bool) (f : Table BTree -> A) (a a' : Table BTree), f a = f a' -> f (if b then a else a') = f a) as Hif
        by (by intros ? []).
      rewrite (Hif _ _ rows_) by done. cbn [rows_ with_rows]. apply List.filter_ext. intros r. unfold where_matches, bytes_eqb.
      destruct (values r !! ci) as [w|]; [|done]. f_equal. by rewrite <- bool_decide_or.
    + unfold Table.deleteWhere, erase_rows. cbn [snd]. by destruct (_ =? 0).
    + apply erase_rows_good.
    + intros k e' Hq. by apply changed_idle.
  - destruct l as [|p [|q l]]; [simpl in Hl; lia..|].
    eapply (Hend (erase_rows v T).2); [| | |apply delete_conds_effect; try done|].
    + unfold erase_rows. cbn [snd]. by destruct (_ =? 0).
    + unfold erase_rows. cbn [snd]. by destruct (_ =? 0).
    + apply erase_rows_good.
    + rewrite length_map. simpl. lia.
    + intros r Hr. apply (verdict_matches (tables e) T (p :: q :: l) r); [done..|]. by apply Hv.
    + intros k e' Hq. by apply changed_idle.
Qed.
(** ** UPDATE *)

Abbreviation updateWhere := (Mutation.updateWhere regex_search evaluateRlsExpr_ evaluateGenExpr number_text clock thread).
Abbreviation updateWhereConds :=
  (updateWhereConds regex_search evalExprStr match_against formatNum dcount evaluateRlsExpr_ evaluateGenExpr number_text clock thread).
Abbreviation updateAll := (updateAll regex_search evaluateGenExpr thread).
Abbreviation update_loop := (update_loop evaluateRlsExpr_ evaluateGenExpr number_text).

(** A value of SET that is stored as it is written: one word, no name of a column. *)
Definition literal_set (cs : list Column) (s : bytes * list bytes) : bool :=
  match s.2 with [w] => bool_decide (words w = [w]) && negb (existsb (fun c => bytes_eqb (c_name c) w) cs) | _ => false end.

(** The row with the columns overwritten, one after the other. *)
Definition overwrite (cis : list nat) (vals : list bytes) (r : Row) : Row :=
  set_values r (fold_left (fun vs kv => <[kv.1 := kv.2]> vs) (zip cis vals) (values r)).

(** The columns exist, the values are literals that pass the checks on them, and no
    column is generated. *)
Record settable (T : Table BTree) (sets : list (bytes * list bytes)) (cis : list nat) : Prop := {
  t_columns : mapM (colOf T) (map fst sets) = Some cis;
  t_literals : forallb (literal_set (columns_ T)) sets = true;
  t_checked : checkSetConstraints regex_search (columns_ T) (map fst sets) (map (fun s => spaced s.2) sets) = Ok ();
  t_generated : Forall (fun c => isGenerated c = false) (columns_ T) }.

Lemma colIdxs_mapM (T : Table BTree) cols cis : mapM (colOf T) cols = Some cis -> colIdxs T cols = Ok cis.
Proof.
  unfold colIdxs. revert cis. induction cols as [|c cols IH]; intros cis H; cbn [mapM] in *; [by injection H as <-|].
  apply bind_Some in H as (i & Hi & (l & Hl & [= <-])%bind_Some). assert (Where.colIdx (columns_ T) c = Ok i) as -> by (unfold Where.colIdx; unfold colOf in Hi; by rewrite Hi).
  cbn [mbind result_bind]. by rewrite (IH l Hl).
Qed.

Lemma regenerate_id (T : Table BTree) (r : Row) :
  Forall (fun c => isGenerated c = false) (columns_ T) -> regenerate evaluateGenExpr T r = r.
Proof.
  intros H. unfold regenerate.
  assert (forall all i vs, applyGeneratedCols evaluateGenExpr i (columns_ T) all vs = vs) as E.
  { intros all. induction H as [|c cs Hc _ IH]; intros i vs; [done|]. cbn [applyGeneratedCols]. rewrite Hc. apply IH. }
  rewrite E. by destruct r.
Qed.

Lemma named_value_none cs vs w : existsb (fun c => bytes_eqb (c_name c) w) cs = false -> named_value cs vs w = None.
Proof.
  unfold named_value. revert vs. induction cs as [|c cs IH]; intros [|v vs] H; try done. cbn [first_match existsb] in *.
  apply orb_false_iff in H as [-> H]. by apply IH.
Qed.

Lemma literal_values cs sets : forallb (literal_set cs) sets = true ->
  has_expr (map (fun s => spaced s.2) sets) = false /\
  forall vs w, w ∈ map (fun s : bytes * list bytes => spaced s.2) sets -> evalSetExpr number_text w cs vs = w.
Proof.
  intros H. assert (forall w, w ∈ map (fun s : bytes * list bytes => spaced s.2) sets ->
    words w = [w] /\ existsb (fun c => bytes_eqb (c_name c) w) cs = false) as Hw.
  { intros w (s & -> & Hs)%list_elem_of_fmap. rewrite forallb_forall in H. apply list_elem_of_In, H in Hs. unfold literal_set in Hs.
    destruct s.2 as [|x [|y l]]; [done| |done]. apply andb_prop in Hs as [Hs1%bool_decide_eq_true Hs2%negb_true_iff]. done. }
  split.
  - unfold has_expr. apply not_true_iff_false. intros (w & Hin%list_elem_of_In & E)%existsb_exists. destruct (Hw w Hin) as [E1 _]. by rewrite E1 in E.
  - intros vs w Hin. destruct (Hw w Hin) as [E1 E2]. unfold evalSetExpr. rewrite E1. by rewrite named_value_none.
Qed.

Lemma set_exprs_overwrite cs vals cis r :
  (forall vs w, w ∈ vals -> evalSetExpr number_text w cs vs = w) -> set_exprs number_text cs (zip cis vals) r = overwrite cis vals r.
Proof.
  intros H. unfold set_exprs, overwrite. f_equal. generalize (values r) as vs.
  assert (forall kv : nat * bytes, kv ∈ zip cis vals -> kv.2 ∈ vals) as Hin by (intros [k w] Hk; by apply elem_of_zip_r in Hk).
  revert Hin. induction (zip cis vals) as [|[k w] l IH]; intros Hin vs; [done|]. cbn [fold_left fst snd].
  rewrite (H vs w) by (apply (Hin (k, w)); by left).
  assert ((if k <? length vs then <[k := w]> vs else vs) = <[k := w]> vs) as ->.
  { destruct (Nat.ltb_spec k (length vs)); [done|]. by rewrite list_insert_ge. }
  apply IH. intros kv Hkv. apply Hin. by right.
Qed.

(** Conditions that a DELETE or an UPDATE can have do not read the tables. *)
Lemma flat_matches m m' (T T' : Table BTree) r (l : list (bool * Cond)) logic :
  forallb (fun p => word_good p.2) l = true -> columns_ T = columns_ T' ->
  rowMatches m T r (map (fun p => meaning p.2) l) logic = rowMatches m' T' r (map (fun p => meaning p.2) l) logic.
Proof.
  intros Hl Hc. unfold Where.rowMatches. rewrite Hc. destruct (map _ l) eqn:E; [done|]. rewrite <- E. clear E w l0.
  assert (forall p : bool * Cond, word_good p.2 = true -> evalOne m (columns_ T') (values r) (meaning p.2) =
    evalOne m' (columns_ T') (values r) (meaning p.2)) as H by (intros [b []]; done).
  unfold eval_list. destruct (bytes_eqb logic AND); induction l as [|p l IH]; try done; cbn [map]; cbn [forallb] in Hl;
    apply andb_prop in Hl as [Hp Hl]; rewrite (H p Hp); destruct (evalOne _ _ _ _) as [[]|]; cbn [mbind result_bind]; auto.
Qed.

Section loop.
Context (n : bytes) (T : Table BTree) (e : Engine) (sets : list (nat * bytes)) (matches : Engine -> Table BTree -> Row -> result bool).
Context (v : Row -> bool) (f : Row -> Row).
Hypothesis Hexempt : forall m, rls_exempt (view (with_tables m e)) n = true.
Hypothesis Hmatches : forall m t r, r ∈ rows_ T -> columns_ t = columns_ T -> matches (with_tables m e) t r = Ok (v r).
Hypothesis Hset : forall (t : Table BTree) r, columns_ t = columns_ T -> regenerate evaluateGenExpr t (set_exprs number_text (columns_ t) sets r) = f r.

Abbreviation changed_row := (fun r => if v r then f r else r).
Abbreviation at_rows rs := (with_tables (<[n := with_rows T rs]> (tables e)) e).

Lemma update_loop_effect done_ rest k :
  rows_ T = done_ ++ rest ->
  update_loop n matches sets (seq (length done_) (length rest)) k (at_rows (map changed_row done_ ++ rest)) =
    (Ok (k + length (List.filter v rest)), at_rows (map changed_row (done_ ++ rest))).
Proof.
  revert done_ k. induction rest as [|r rest IH]; intros ds k Hr; cbn [length seq Mutation.update_loop].
  { rewrite !app_nil_r. simpl. by rewrite Nat.add_0_r. }
  eapply then_ok; [apply get_table_ok; by rewrite tables_with_tables, lookup_insert_eq|]. cbn [rows_ with_rows].
  rewrite lookup_app_r by (by rewrite length_map). rewrite length_map, Nat.sub_diag. cbn [lookup list_lookup].
  reads. cbn [id]. assert (r ∈ rows_ T) as Hin by (rewrite Hr; set_solver).
  eapply then_ok; [unfold lift; by rewrite (Hmatches _ (with_rows T (map changed_row ds ++ r :: rest)) r Hin eq_refl)|].
  specialize (IH (ds ++ [r])). rewrite length_app, Nat.add_1_r in IH. cbn [length] in IH.
  rewrite <- app_assoc in IH. cbn [app] in IH. rewrite map_app in IH. cbn [map] in IH. rewrite <- app_assoc in IH. cbn [app] in IH.
  destruct (v r) eqn:Ev; cbn [List.filter]; rewrite Ev.
  - rewrite (Hset (with_rows T (map changed_row ds ++ r :: rest)) r eq_refl).
    eapply then_ok; [reflexivity|]. eapply then_ok; [reflexivity|]. unfold checkRlsWithCheck_. cbn [with_rows rows_].
    eapply (then_ok _ _ _ ()).
    { rewrite tables_with_tables. change (with_tables ?a (with_tables ?b e)) with (with_tables a e). by rewrite Hexempt. }
    rewrite insert_insert_eq, insert_app_r_alt by (by rewrite length_map). rewrite length_map, Nat.sub_diag. change (<[0 := f r]> (r :: rest)) with (f r :: rest).
    change (with_rows (with_rows T ?a) ?b) with (with_rows T b). rewrite (IH (S k) Hr). cbn [length]. by rewrite Nat.add_succ_r.
  - apply (IH k Hr).
Qed.

Lemma update_in_place_effect :
  tables e !! n = Some T -> (forall r, length (values (f r)) = length (values r)) ->
  exists T', update_in_place evaluateRlsExpr_ evaluateGenExpr number_text n matches sets e =
      (Ok (length (List.filter v (rows_ T))), with_tables (<[n := T']> (tables e)) e) /\
    rows_ T' = map changed_row (rows_ T) /\ columns_ T' = columns_ T /\ (Table.good T -> Table.good T').
Proof.
  intros HT Hw. exists (update_rows v f T).2. split.
  - unfold update_in_place. eapply then_ok; [by apply get_table_ok|].
    pose proof (update_loop_effect [] (rows_ T) 0 eq_refl) as H. cbn [length map app] in H.
    rewrite with_rows_id, (insert_id (tables e) n T HT), with_tables_id in H. cbn [Nat.add] in H.
    eapply then_ok; [exact H|]. eapply then_ok; [apply get_table_ok; by rewrite tables_with_tables, lookup_insert_eq|].
    unfold update_rows. cbn [snd]. destruct (length _ =? 0) eqn:E; (eapply then_ok; [reflexivity|]); [done|].
    rewrite tables_with_tables, insert_insert_eq. done.
  - unfold update_rows. cbn [snd]. split_and!; [by destruct (_ =? 0)|by destruct (_ =? 0)|].
    intros Hg. apply (update_rows_good true v f T Hw Hg).
Qed.
End loop.
(** The table after the statement. *)
Definition rewritten_rows (T : Table BTree) (v : Row -> bool) (f : Row -> Row) (T' : Table BTree) : Prop :=
  rows_ T' = map (fun r => if v r then f r else r) (rows_ T) /\ columns_ T' = columns_ T /\ (Table.good T -> Table.good T').

Lemma overwrite_width cis vals r : length (values (overwrite cis vals r)) = length (values r).
Proof. apply (keeps_width_set_columns cis vals r). Qed.

Lemma fire_updates_idle f sets old e : (forall n o, f n o e = (Ok (), e)) -> fire_updates f sets old e = (Ok (), e).
Proof. intros H. apply for_each_idle. intros o _. apply H. Qed.

Lemma before_update_idle n new old e : quiet e -> before_update clock n new old e = (Ok (), e).
Proof. intros H. unfold before_update. eapply then_ok; [by apply before_idle|done]. Qed.

Lemma exempt_with_tables m e n : rls_exempt (view (with_tables m e)) n = rls_exempt (view e) n.
Proof. done. Qed.

Lemma update_conds_effect t n T sets cis (l : list (bool * Cond)) logic v e :
  n = resolveTableName (session e) (tables e) t -> target e n T UPDATE -> settable T sets cis -> 2 <= length l ->
  forallb (fun p => word_good p.2) l = true ->
  let conds := map (fun p => meaning p.2) l in let vals := map (fun s : bytes * list bytes => spaced s.2) sets in
  (forall r, r ∈ rows_ T -> rowMatches (tables e) T r conds logic = Ok (v r)) ->
  exists k e', updateWhereConds t (map fst sets) vals conds logic e = (Ok k, e') /\
    exists T', replaced e n T' e' /\ rewritten_rows T v (overwrite cis vals) T'.
Proof.
  intros Hn [Hq Htx HT Hal Hul Hex] [Hc Hlit Hck Hgen] Hl Hg conds vals Hv.
  destruct (literal_values _ _ Hlit) as [_ Hval].
  destruct (update_in_place_effect n T e (zip cis vals)
    (fun e t r => rowMatches (tables e) t r conds logic) v (overwrite cis vals)) as (T' & Hu & Hr); [by intros m| | |done|apply overwrite_width|].
  { intros m t' r Hin Hcol. rewrite tables_with_tables, <- (Hv r Hin). by apply flat_matches. }
  { intros t' r Hcol. rewrite regenerate_id by (by rewrite Hcol). rewrite Hcol. by apply set_exprs_overwrite. }
  eexists _, _. split; [|exists T'; split; [by apply replaced_put|exact Hr]].
  fold vals in Hck. unfold Mutation.updateWhereConds. unfold conds at 1. rewrite length_map, (proj2 (Nat.leb_gt _ _)) by lia.
  eapply then_ok; [reflexivity|]. rewrite Htx. cbn [negb ensure]. reads. unfold resolved at 1. reads. rewrite <- Hn.
  eapply then_ok; [exact Hal|]. eapply then_ok; [exact Hul|]. eapply then_ok; [by apply get_table_ok|].
  eapply (then_ok _ _ _ ()).
  { unfold check_rls_conds. reads. cbn [id]. by rewrite Hex. }
  eapply then_ok; [unfold lift; by rewrite Hck|]. eapply then_ok; [unfold lift; by rewrite (colIdxs_mapM _ _ _ Hc)|]. cbv zeta.
  eapply then_ok; [by apply matching_rows_ok|].
  eapply then_ok; [apply fire_updates_idle; intros a o; by apply before_update_idle|].
  eapply then_ok; [exact Hu|]. eapply then_ok; [|reflexivity].
  apply fire_updates_idle. intros a o. by apply after_idle.
Qed.

Lemma map_regenerate (p : Row -> bool) (T0 T : Table BTree) : Forall (fun c => isGenerated c = false) (columns_ T0) ->
  with_rows T (map (fun r => if p r then regenerate evaluateGenExpr T0 r else r) (rows_ T)) = T.
Proof.
  intros H. rewrite <- (with_rows_id T) at 3. f_equal. rewrite <- (map_id (rows_ T)) at 2. apply map_ext. intros r.
  destruct (p r); [by apply regenerate_id|done].
Qed.

Lemma rebuilt_rows (b : bool) (T T' : Table BTree) v f :
  rewritten_rows T v f T' -> rewritten_rows T v f (if b then T' else rebuildAll T').
Proof.
  destruct b; [done|]. intros (H1 & H2 & H3). split_and!; [done..|]. intros Hg. destruct (H3 Hg) as (_ & Hw & Hp). by apply rebuildAll_good.
Qed.

Lemma update_text_effect t n T sets cis c x ci e :
  n = resolveTableName (session e) (tables e) t -> target e n T UPDATE -> settable T sets cis -> colOf T c = Some ci ->
  let vals := map (fun s : bytes * list bytes => spaced s.2) sets in
  exists k e', updateWhere t (map fst sets) vals c x e = (Ok k, e') /\
    exists T', replaced e n T' e' /\ rewritten_rows T (where_matches ci x) (overwrite cis vals) T'.
Proof.
  intros Hn [Hq Htx HT Hal Hul Hex] [Hc Hlit Hck Hgen] Hci vals. destruct (literal_values _ _ Hlit) as [Hne _].
  assert (Where.colIdx (columns_ T) c = Ok ci) as Hci' by (unfold Where.colIdx; unfold colOf in Hci; by rewrite Hci).
  assert (rewritten_rows T (where_matches ci x) (overwrite cis vals) (Table.updateWhereMulti cis vals ci x T).2) as Hr.
  { unfold Table.updateWhereMulti. pose proof (update_rows_good true (where_matches ci x) (set_columns cis vals) T (keeps_width_set_columns cis vals)) as Hg.
    split_and!; [| |exact Hg]; unfold update_rows; cbn [snd]; by destruct (_ =? 0). }
  destruct (Table.updateWhereMulti cis vals ci x T) as [k T'] eqn:Eu. cbn [snd] in Hr.
  eexists k, _. split; [|eexists; split; [by apply replaced_put|apply (rebuilt_rows (k =? 0)), Hr]].
  unfold Mutation.updateWhere. unfold resolved at 1. reads. rewrite <- Hn. eapply then_ok; [exact Hal|]. reads. cbn [id]. rewrite Hex. reads.
  eapply then_ok; [by apply get_table_ok|]. fold vals in Hne. rewrite Hne. fold vals in Hck.
  eapply then_ok; [unfold lift; by rewrite Hck|].
  eapply then_ok; [reflexivity|]. rewrite Htx. eapply then_ok; [unfold lift; by rewrite Hci'|].
  eapply then_ok; [unfold lift; by rewrite (colIdxs_mapM _ _ _ Hc)|]. cbv zeta.
  eapply then_ok; [apply fire_updates_idle; intros a o; by apply before_update_idle|].
  eapply then_ok; [by apply get_table_ok|]. rewrite Eu. destruct Hr as (_ & Hcol & _).
  rewrite map_regenerate by (by rewrite Hcol).
  eapply then_ok; [reflexivity|]. eapply then_ok; [|reflexivity]. apply fire_updates_idle. intros a o. by apply after_idle.
Qed.

Lemma updateAll_effect t n T sets cis e :
  n = resolveTableName (session e) (tables e) t -> target e n T UPDATE -> settable T sets cis ->
  let vals := map (fun s : bytes * list bytes => spaced s.2) sets in
  exists k e', updateAll t (map fst sets) vals e = (Ok k, e') /\
    exists T', replaced e n T' e' /\ rewritten_rows T (fun _ => true) (overwrite cis vals) T'.
Proof.
  intros Hn [Hq Htx HT Hal Hul Hex] [Hc Hlit Hck Hgen] vals.
  assert (rewritten_rows T (fun _ => true) (overwrite cis vals) (Table.updateAllMulti cis vals T).2) as Hr.
  { split_and!; [done..|]. apply (rows_all_good true (set_columns cis vals) T (keeps_width_set_columns cis vals)). }
  destruct (Table.updateAllMulti cis vals T) as [k T'] eqn:Eu. cbn [snd] in Hr.
  eexists k, _. split; [|eexists; split; [by apply replaced_put|apply (rebuilt_rows (k =? 0)), Hr]].
  unfold Mutation.updateAll. unfold resolved at 1. reads. rewrite <- Hn. eapply then_ok; [exact Hal|].
  eapply then_ok; [by apply get_table_ok|]. fold vals in Hck. eapply then_ok; [unfold lift; by rewrite Hck|].
  eapply then_ok; [reflexivity|]. rewrite Htx. eapply then_ok; [unfold lift; by rewrite (colIdxs_mapM _ _ _ Hc)|].
  rewrite Eu. cbv zeta. destruct Hr as (_ & Hcol & _).
  assert (with_rows T' (map (regenerate evaluateGenExpr T') (rows_ T')) = T') as ->
    by (apply (map_regenerate (fun _ => true) T' T'); by rewrite Hcol).
  eapply then_ok; [reflexivity|]. done.
Qed.

(** [C13] From its text, an UPDATE that sets columns to literals overwrites them,
    in the order they are written, in exactly the rows its clause selects; the
    other rows, and every other table, stay as they are.  The clause is one that
    [delete_text_deletes] covers, and the text holds no parenthesis, since the
    clause behind one is lost ([Statements.update_loses_clause_behind_paren]).  The
    values are single words that name no column and satisfy the CHECK constraints
    of their columns, the table has no generated columns, triggers, partitions,
    policies that bind the user and locks of others, and no transaction is open. *)
Theorem update_text_sets t sets l e T v cis :
  sql_ok (update_sql t sets l) = true -> words_ok (update_tokens t sets l) = true -> LPAREN ∉ update_sql t sets l ->
  isInfoSchemaName t = false -> sets <> [] -> forallb set_ok sets = true -> forallb (fun p => word_good p.2) l = true ->
  let n := resolveTableName (session e) (tables e) t in
  target e n T UPDATE -> settable T sets cis -> selects (tables e) T l v ->
  exists a e' T', execute (update_sql t sets l) e = (Ok a, e') /\ tables e' = <[n := T']> (tables e) /\
    rows_ T' = map (fun r => if v r then overwrite cis (map (fun s => spaced s.2) sets) r else r) (rows_ T) /\
    columns_ T' = columns_ T /\ (Table.good T -> Table.good T').
Proof.
  intros Hs Hw Hp Hi Hne Hso Hg n Ht Hst Hsel. rewrite update_text_runs by done. cbv zeta.
  set (vals := map (fun s : bytes * list bytes => spaced s.2) sets).
  assert (forall w A (m : M A) k, (exists x e', m e = (Ok x, e') /\ exists T', replaced e n T' e' /\ rewritten_rows T w (overwrite cis vals) T') ->
    (forall r, w r = v r) -> (forall x e', quiet e' -> exists a : Aftermath, k x e' = (Ok a, e')) ->
    exists a e' T', (m ≫= k) e = (Ok a, e') /\ tables e' = <[n := T']> (tables e) /\
      rows_ T' = map (fun r => if v r then overwrite cis vals r else r) (rows_ T) /\ columns_ T' = columns_ T /\ (Table.good T -> Table.good T')) as Hend.
  { intros w A m k (x & e' & Hm & T' & [Ht' Hq] & Hr & Hc & Hgd) Hwv Hk. destruct (Hk x e' Hq) as [a Ha].
    exists a, e', T'. split; [by eapply then_ok|]. split_and!; [done| |done..]. rewrite Hr. apply map_ext. intros r. by rewrite Hwv. }
  destruct Hsel as [|b c x ci Hc|l v Hl Hone Hv].
  - eapply Hend; [by apply updateAll_effect|done|]. intros k e' Hq. eexists. by apply saved_idle.
  - assert (updateWhereConds t (map fst sets) vals (map (fun p => meaning p.2) [(b, CCmp c (str "=") x [])]) (last_conn [(b, CCmp c (str "=") x [])]) =
      updateWhere t (map fst sets) vals c x) as -> by (cbn; by rewrite app_nil_r).
    eapply Hend; [by apply update_text_effect| |].
    + intros r. unfold where_matches, bytes_eqb. destruct (values r !! ci) as [w|]; [|done]. by rewrite <- bool_decide_or.
    + intros k e' Hq. by apply changed_idle.
  - destruct l as [|p [|q l]]; [simpl in Hl; lia..|].
    eapply (Hend v); [apply update_conds_effect; try done| |].
    + intros r Hr. apply (verdict_matches (tables e) T (p :: q :: l) r); [done..|]. by apply Hv.
    + done.
    + intros k e' Hq. by apply changed_idle.
Qed.
End effects.

(** ** Examples *)

Section examples.
#[local] Existing Instance IntDouble.

Abbreviation ex_execute :=
  (execute no_regex no_func no_match print int_count (fun _ _ _ => true) no_gen (fun _ => true) print ex_clock 1 false 3
     (fun _ _ => mret ()) ∅ (fun _ _ => mret ())).

(** A table [p] that nothing refers to. *)
Definition ex_rows : Table BTree := stored "p" ex_p [] [["1"; "5"]; ["2"; "6"]; ["3"; "7"]].
Definition ex_alone : Engine := engine {[str "p" := ex_rows]} ∅ ∅.

Lemma ex_target cmd : target 1 ex_alone (str "p") ex_rows cmd.
Proof. by split. Qed.

Lemma ex_unreferred : unreferred ex_alone (str "p").
Proof.
  intros c t H. unfold ex_alone, engine, tables in H. cbn [core Transaction.tables_] in H.
  apply lookup_singleton_Some in H as [<- <-]. by left.
Qed.

Definition ex_clause : list (bool * Cond) :=
  [(true, CCmp (str "qty") (str ">") (str "5") []); (true, CIn true (str "id") [str "1"; str "2"])].
Definition ex_choice (r : Row) : bool := bool_decide (values r = [str "2"; str "6"]).

Lemma ex_selects :
  selects no_regex no_func no_match print int_count (tables ex_alone) ex_rows ex_clause ex_choice.
Proof.
  apply sel_conds; [simpl; lia|done|]. intros r Hr. apply list_elem_of_In in Hr. cbn in Hr. destruct_or! Hr; subst; try done.
  - exists [false; true]. split; [|by vm_compute]. repeat constructor; by vm_compute.
  - exists [true; true]. split; [|by vm_compute]. repeat constructor; by vm_compute.
  - exists [true; false]. split; [|by vm_compute]. repeat constructor; by vm_compute.
Qed.

Lemma delete_text_deletes_witness :
  delete_sql (str "p") ex_clause = str "DELETE FROM p WHERE qty > 5 AND id IN (1,2)" /\
  exists a e' T', ex_execute (str "DELETE FROM p WHERE qty > 5 AND id IN (1,2)") ex_alone = (Ok a, e') /\
    tables e' = <[str "p" := T']> (tables ex_alone) /\ map values (rows_ T') = [[str "1"; str "5"]; [str "3"; str "7"]].
Proof.
  split; [vm_compute; reflexivity|].
  destruct (delete_text_deletes no_regex no_func no_match print int_count (fun _ _ _ => true) no_gen (fun _ => true) print ex_clock 1 3
    (fun _ _ => mret ()) ∅ (fun _ _ => mret ()) (str "p") ex_clause ex_alone ex_rows ex_choice
    ltac:(vm_compute; reflexivity) ltac:(vm_compute; reflexivity) ltac:(by apply (bool_decide_unpack _)) ltac:(vm_compute; reflexivity)
    ltac:(vm_compute; reflexivity) (ex_target DELETE) ex_unreferred ex_selects) as (a & e' & T' & H1 & H2 & H3 & _).
  exists a, e', T'. split; [exact H1|]. split; [exact H2|]. rewrite H3. vm_compute. reflexivity.
Defined.

Definition ex_sets : list (bytes * list bytes) := [(str "qty", [str "9"])].

Lemma update_text_sets_witness :
  update_sql (str "p") ex_sets [(true, CCmp (str "id") (str "=") (str "2") [])] = str "UPDATE p SET qty = 9 WHERE id = 2" /\
  exists a e' T', ex_execute (str "UPDATE p SET qty = 9 WHERE id = 2") ex_alone = (Ok a, e') /\
    tables e' = <[str "p" := T']> (tables ex_alone) /\
    map values (rows_ T') = [[str "1"; str "5"]; [str "2"; str "9"]; [str "3"; str "7"]].
Proof.
  split; [vm_compute; reflexivity|].
  destruct (update_text_sets no_regex no_func no_match print int_count (fun _ _ _ => true) no_gen (fun _ => true) print ex_clock 1 3
    (fun _ _ => mret ()) ∅ (fun _ _ => mret ()) (str "p") ex_sets [(true, CCmp (str "id") (str "=") (str "2") [])] ex_alone ex_rows
    (fun r => match values r !! 0 with Some v => bool_decide (v = str "2" \/ v = stripQuotes (str "2")) | None => false end) [1]
    ltac:(vm_compute; reflexivity) ltac:(vm_compute; reflexivity) ltac:(by apply (bool_decide_unpack _)) ltac:(vm_compute; reflexivity)
    ltac:(done) ltac:(vm_compute; reflexivity) ltac:(vm_compute; reflexivity) (ex_target UPDATE))
    as (a & e' & T' & H1 & H2 & H3 & _).
  - split; [vm_compute; reflexivity..|]. repeat constructor.
  - apply (sel_text _ _ _ _ _ _ _ true (str "id") (str "2") 0). vm_compute. reflexivity.
  - exists a, e', T'. split; [exact H1|]. split; [exact H2|]. rewrite H3. vm_compute. reflexivity.
Defined.
End examples.
