(* ===== verification/SelectParser.v ===== *)
(** * The parser of SELECT ([src/parser/parser.hpp]: [parse] for SELECT,
    [parseSelectFull], [parseOrderByCols], [parseOrderBy], [parseLimit])

    A SELECT is looked over for the words of its special forms, which send it to
    one of several parsers.  Two of them read the plain form: one on tokens
    separated by blanks, one on the tokens of [tokenizeFull].  Both are modelled;
    the parsers of set operations, joins, GROUP BY and of columns with functions
    get their text or tokens and are not.  Optimizer hints are left out. *)

From S2P Require Import Prelude Index BTree Partition Table Arith Where Select Columns Triggers Transaction Mutation Integrity Lexer WhereParser WhereSyntax Statements.

(** ** ORDER BY and LIMIT *)

(** ASC or DESC, with or without a comma behind it; [true] is DESC. *)
Definition direction (ts : list bytes) : bool * list bytes :=
  match ts with
  | t :: r =>
      let d := upper (strip_comma t) in
      if bytes_eqb d (str "DESC") then (true, r) else if bytes_eqb d (str "ASC") then (false, r) else (false, ts)
  | [] => (false, [])
  end.

(** Distances of vectors are encoded in the name of the column. *)
Definition encode_distance (c o q : bytes) : bytes := str "__vecop__" ++ c ++ str "__" ++ o ++ str "__" ++ q.

Fixpoint order_cols (fuel : nat) (ts : list bytes) : list (bytes * bool) :=
  match fuel, ts with
  | O, _ | _, [] => []
  | S f, t :: r =>
      let c := strip_comma t in
      if bytes_eqb t (str ",") || bytes_eqb c [] || any_of ["ASC"; "DESC"] (upper c) then order_cols f r
      else
        match r with
        | o :: r' =>
            if any_of ["<->"; "<=>"; "<#>"] (strip_comma o) then
              let '(q, r') := match r' with v :: r' => (unquote1 (strip_comma v), r') | [] => ([], []) end in
              let '(desc, r') := direction r' in (encode_distance c (strip_comma o) q, desc) :: order_cols f r'
            else let '(desc, r) := direction r in (c, desc) :: order_cols f r
        | [] => [(c, false)]
        end
  end.
Definition parseOrderByCols (ts : list bytes) : list (bytes * bool) := order_cols (length ts) ts.

Fixpoint parseOrderBy (ts : list bytes) : list (bytes * bool) :=
  match ts with
  | [] => []
  | t :: r =>
      if bytes_eqb (upper t) (str "ORDER") && kw 0 "BY" r && (2 <=? length r)
      then parseOrderByCols (before_word (str "LIMIT") (drop 1 r))
      else parseOrderBy r
  end.

(** The limit, -1 for none, and the offset. *)
Fixpoint parseLimit (ts : list bytes) : Z * Z :=
  match ts with
  | [] => (-1, 0)%Z
  | t :: r =>
      match r with
      | n :: _ =>
          if bytes_eqb (upper t) (str "LIMIT") then
            (default (-1)%Z (stoi n),
             match r !! 2 with Some m => if kw 1 "OFFSET" r then default 0%Z (stoi m) else 0%Z | None => 0%Z end)
          else parseLimit r
      | [] => (-1, 0)%Z
      end
  end.

(** ** The command *)

(** [itemTokens]: what [parseCaseSelectItems] gets, if the columns are left to it;
    [sample]: the number of TABLESAMPLE. *)
Record SelectCommand := mkSelect {
  tableName : bytes; tableAlias : bytes; fromOnly : bool; isDistinct : bool; distinctOnCols : list bytes;
  selectColumns : list bytes; itemTokens : option (list bytes); isCount : bool; aggregate : option (bytes * bytes);
  clause : Clause; orderByCols : list (bytes * bool); limit : Z; limitOffset : Z; cdcAfterSeq : Z; sample : option bytes }.

(** What a SELECT is parsed into. *)
Inductive Query :=
| QSelect (c : SelectCommand)
| QNoFrom (ts : list bytes)
| QSetOp | QJoin | QGroupBy | QFunction | QUnknown.

(** A word is added to a text behind a blank. *)
Definition add_word (s t : bytes) : bytes := if bytes_eqb s [] then t else s ++ SPACE :: t.

(** ** The parser on the tokens of [tokenize] *)

(** The text of the columns; AS and the word behind it are left out, but not a
    comma at its end. *)
Fixpoint col_list (cols : bytes) (depth : Z) (sawAs : bool) (ts : list bytes) : bytes :=
  match ts with
  | [] => cols
  | t :: r =>
      if bytes_eqb t (str "(") then col_list (add_word cols t) (depth + 1) sawAs r
      else if bytes_eqb t (str ")") then col_list (add_word cols t) (depth - 1) sawAs r
      else if ((depth =? 0)%Z && bytes_eqb (upper t) (str "AS")) then col_list cols depth true r
      else if sawAs then col_list (if ends_comma t then add_word cols (str ",") else cols) depth false r
      else col_list (add_word cols t) depth false r
  end.

Definition is_column (c : bytes) : bool := negb (bytes_eqb c (str "*")) && negb (bytes_eqb c []).

Fixpoint after_sequence (ts : list bytes) : Z :=
  match ts with
  | [] => (-1)%Z
  | t :: r =>
      match r !! 1 with
      | Some n =>
          if bytes_eqb (upper t) (str "AFTER") && kw 0 "SEQUENCE" r then default (-1)%Z (stoll n) else after_sequence r
      | None => after_sequence r
      end
  end.

(** From behind FROM, which is not the last token. *)
Definition parse_from (distinct : bool) (cols : list bytes) (ts : list bytes) : Query :=
  match ts with
  | [] => QUnknown
  | t :: r =>
      let '(tbl, only, r) :=
        match r with
        | n :: r' => if bytes_eqb (upper t) (str "ONLY") then (n, true, r') else (t, false, r)
        | [] => (t, false, r)
        end in
      let '(n, m) := parseLimit r in
      QSelect (mkSelect tbl [] only distinct [] cols None false None (parseWhere r no_clause) (parseOrderBy r) n m
                 (after_sequence r) None)
  end.

(** MIN(x), COUNT( * ): the table and its clause from behind the parenthesis. *)
Definition parse_aggregate (distinct : bool) (count : bool) (agg : option (bytes * bytes)) (afterParen : bytes) : Query :=
  match tokenize afterParen with
  | f :: tbl :: r =>
      if bytes_eqb (upper f) (str "FROM") then
        QSelect (mkSelect tbl [] false distinct [] [] None count agg (parseWhere r no_clause) [] (-1) 0 (-1) None)
      else QUnknown
  | _ => QUnknown
  end.

Definition LOCK_FUNCTIONS : list bytes :=
  map str ["ADD_RETENTION_POLICY"; "COMPRESS_CHUNK"; "GET_LOCK"; "RELEASE_LOCK"; "IS_FREE_LOCK"].

(** The text between the first opening and the last closing parenthesis. *)
Definition parenContent (input : bytes) : bytes :=
  match find_char LPAREN input, rfind_char RPAREN input with
  | Some p1, Some p2 => if p1 <? p2 then take (p2 - p1 - 1) (drop (S p1) input) else []
  | _, _ => []
  end.

Definition parse_plain (input : bytes) : Query :=
  let '(beforeParen, afterParen) := split_paren input in
  if existsb (fun f => bool_decide (is_Some (find_sub (f ++ [LPAREN]) (upper input)))) LOCK_FUNCTIONS then QFunction
  else
    let ts := drop 1 (tokenize beforeParen) in
    let distinct := kw 0 "DISTINCT" ts in
    let ts := skip_kw "ALL" (skip_kw "DISTINCT" ts) in
    match ts with
    | t :: _ =>
        if any_of ["MIN"; "MAX"; "AVG"; "SUM"] (upper t)
        then parse_aggregate distinct false (Some (upper t, trim (parenContent input))) afterParen
        else if bytes_eqb (upper t) (str "COUNT") then parse_aggregate distinct true None afterParen
        else
          let list := before_word (str "FROM") ts in
          parse_from distinct (List.filter is_column (splitTrim (col_list [] 0 false list) COMMA)) (drop (S (length list)) ts)
    | [] => QUnknown
    end.

(** ** The parser on the tokens of [tokenizeFull] ([parseSelectFull]) *)

(** The first place of a word outside parentheses; the first token is skipped. *)
Fixpoint word_from (w : bytes) (depth i : nat) (ts : list bytes) : option nat :=
  match ts with
  | [] => None
  | t :: r =>
      if bytes_eqb t (str "(") then word_from w (S depth) (S i) r
      else if bytes_eqb t (str ")") then word_from w (pred depth) (S i) r
      else if (depth =? 0) && bytes_eqb (upper t) w then Some i
      else word_from w depth (S i) r
  end.
Definition word_pos (w : string) (ft : list bytes) : nat := default (length ft) (word_from (str w) 0 1 (drop 1 ft)).

Definition slice {A} (a b : nat) (l : list A) : list A := take (b - a) (drop a l).

(** DISTINCT and the columns of DISTINCT ON. *)
Definition distinct_part (ts : list bytes) : bool * list bytes * list bytes :=
  if kw 0 "DISTINCT" ts then
    if kw 1 "ON" ts then
      let r := drop 2 ts in
      if tok 0 "(" r then
        let '(cols, r) := until_close (drop 1 r) in (true, List.filter (fun t => negb (bytes_eqb t (str ","))) cols, r)
      else (true, [], r)
    else (true, [], drop 1 ts)
  else (false, [], ts).

(** One aggregate and nothing else between SELECT and FROM. *)
Definition standalone_aggregate (ts : list bytes) : option (bytes * bytes) :=
  match ts with
  | f :: p :: r =>
      if existsb (bytes_eqb (upper f)) AGG && bytes_eqb p (str "(") then
        let '(inside, r) := until_close r in
        let r := if kw 0 "AS" r then drop 2 r else r in
        match r with [] => Some (upper f, spaced inside) | _ => None end
      else None
  | _ => None
  end.

Definition SFUNCS : list bytes :=
  map str
    ["UPPER"; "LOWER"; "LENGTH"; "CONCAT"; "SUBSTR"; "TRIM"; "REPLACE"; "ABS"; "ROUND"; "MOD"; "POWER"; "SQRT"; "CEIL"; "FLOOR";
     "IFNULL"; "COALESCE"; "CAST"; "MATCH"; "NOW"; "CURDATE"; "CURTIME"; "DATE"; "TIME"; "YEAR"; "MONTH"; "DAY"; "HOUR"; "MINUTE";
     "SECOND"; "DATEDIFF"; "DATE_ADD"; "DATE_SUB"; "DATE_FORMAT"; "CURRENT_TIMESTAMP"; "CURRENT_DATE"; "CURRENT_TIME";
     "JSON_EXTRACT"; "JSON_SET"; "JSON_KEYS"; "JSON_LENGTH"; "JSON_CONTAINS"; "JSON_TYPE"; "JSON_VALID"; "REGEXP_REPLACE";
     "REGEXP_EXTRACT"; "ST_DISTANCE"; "ST_X"; "ST_Y"; "ST_WITHIN"; "ST_ASTEXT"; "ARRAY_LENGTH"; "ARRAY_APPEND"; "ARRAY_REMOVE";
     "ARRAY_CONTAINS"; "ARRAY_GET"; "ARRAY_TO_STRING"; "STRING_TO_ARRAY"; "UNNEST"; "TIME_BUCKET"].

(** An operator behind the first character. *)
Definition has_operator (t : bytes) : bool :=
  existsb (fun c => (c =? 43) || (c =? 45) || (c =? 42) || (c =? 47))%Z (drop 1 t).

(** An opening parenthesis in front of SELECT. *)
Fixpoint has_subselect (ts : list bytes) : bool :=
  match ts with
  | [] => false
  | t :: r => (bytes_eqb t (str "(") && kw 0 "SELECT" r) || has_subselect r
  end.

(** The columns are left to [parseCaseSelectItems]. *)
Definition needs_items (ts : list bytes) : bool :=
  existsb (fun t => bytes_eqb (upper t) (str "CASE") || existsb (bytes_eqb (upper t)) SFUNCS || has_operator t ||
                    bytes_eqb (upper t) (str "OVER")) ts || has_subselect ts.

Definition push_column (cur : bytes) : list bytes := List.filter is_column [strip_spaces cur].

Fixpoint full_cols (cur : bytes) (depth : Z) (sawAs : bool) (ts : list bytes) : list bytes :=
  match ts with
  | [] => push_column cur
  | t :: r =>
      if bytes_eqb t (str "(") then full_cols (add_word cur t) (depth + 1) sawAs r
      else if bytes_eqb t (str ")") then full_cols (add_word cur t) (depth - 1) sawAs r
      else if bytes_eqb t (str ",") && (depth =? 0)%Z then push_column cur ++ full_cols [] depth false r
      else if ((depth =? 0)%Z && bytes_eqb (upper t) (str "AS")) then full_cols cur depth true r
      else if sawAs then full_cols cur depth false r
      else full_cols (add_word cur t) depth sawAs r
  end.

(** The word behind the table, unless it starts a clause. *)
Definition table_alias (ts : list bytes) : bytes :=
  match ts with
  | t :: _ =>
      if any_of ["WHERE"; "ORDER"; "LIMIT"; "GROUP"; "HAVING"; "INNER"; "LEFT"; "RIGHT"; "FULL"; "JOIN"; "ON"; "UNION";
                 "INTERSECT"; "EXCEPT"; "TABLESAMPLE"] (upper t) || any_of [","; "("; ")"] t then [] else t
  | [] => []
  end.

(** TABLESAMPLE BERNOULLI(n), from behind the table. *)
Fixpoint table_sample (ts : list bytes) : option bytes :=
  match ts with
  | [] => None
  | t :: r =>
      if bytes_eqb (upper t) (str "TABLESAMPLE") then
        let k := length (before_word (str "(") r) in if S (S k) <? length r then r !! S k else None
      else if any_of ["WHERE"; "ORDER"; "LIMIT"; "GROUP"] (upper t) then None
      else table_sample r
  end.

Definition parseSelectFull (raw : bytes) : Query :=
  let ft := tokenizeFull raw in
  let n := length ft in
  let fromPos := word_pos "FROM" ft in
  let wherePos := word_pos "WHERE" ft in
  let orderPos := word_pos "ORDER" ft in
  let limitPos := word_pos "LIMIT" ft in
  match drop (S fromPos) ft with
  | [] => QNoFrom (drop 1 ft)
  | tbl :: behind =>
      let '(distinct, onCols, sel) := distinct_part (slice 1 fromPos ft) in
      let sel := skip_kw "ALL" sel in
      let '(cols, items, count, agg) :=
        match standalone_aggregate sel with
        | Some (f, c) => if bytes_eqb f COUNT then ([], None, true, None) else ([], None, false, Some (f, c))
        | None => if needs_items sel then ([], Some sel, false, None) else (full_cols [] 0 false sel, None, false, None)
        end in
      let cl := if wherePos <? n then parseWhereFromFull (slice wherePos (Nat.min orderPos limitPos) ft) no_clause else no_clause in
      let order :=
        if (orderPos + 2 <? n) && kw (S orderPos) "BY" ft then parseOrderByCols (slice (orderPos + 2) limitPos ft) else [] in
      let '(lim, off) := parseLimit (drop limitPos ft) in
      QSelect (mkSelect tbl (table_alias behind) false distinct onCols cols items count agg cl order lim off (-1) (table_sample behind))
  end.

(** ** Which parser a SELECT goes to *)

(** A comma outside parentheses between FROM and the next clause. *)
Fixpoint comma_in_from (depth : Z) (inFrom : bool) (ft : list bytes) : bool :=
  match ft with
  | [] => false
  | t :: r =>
      if bytes_eqb t (str "(") then comma_in_from (depth + 1) inFrom r
      else if bytes_eqb t (str ")") then comma_in_from (depth - 1) inFrom r
      else if (0 <? depth)%Z then comma_in_from depth inFrom r
      else if negb inFrom then comma_in_from depth (bytes_eqb (upper t) (str "FROM")) r
      else if any_of ["WHERE"; "GROUP"; "HAVING"; "ORDER"; "LIMIT"; "UNION"; "EXCEPT"; "INTERSECT"] (upper t) then false
      else bytes_eqb t (str ",") || comma_in_from depth inFrom r
  end.

(** Two words side by side. *)
Fixpoint has_pair (v w : string) (ts : list bytes) : bool :=
  match ts with
  | [] => false
  | t :: r => (bytes_eqb (upper t) (str v) && kw 0 w r) || has_pair v w r
  end.

(** A function of the list, with or without its parenthesis. *)
Definition calls (t : bytes) : bool :=
  existsb (fun f => bytes_eqb (upper t) f || starts_with (f ++ [LPAREN]) (upper t)) SFUNCS.

Definition has_paren (t : bytes) : bool := bool_decide (LPAREN ∈ t).

(** A parenthesis in the WHERE clause, from behind FROM. *)
Fixpoint grouped_where (inWhere : bool) (ts : list bytes) : bool :=
  match ts with
  | [] => false
  | t :: r =>
      if bytes_eqb (upper t) (str "WHERE") then grouped_where true r
      else if any_of ["ORDER"; "LIMIT"; "GROUP"; "HAVING"; "UNION"] (upper t) then false
      else (inWhere && has_paren t) || grouped_where inWhere r
  end.

Inductive Route := ToSetOp | ToJoin | ToFull | ToGroupBy | ToFunction | ToPlain.

Definition has_word (l : list string) (ts : list bytes) : bool := existsb (fun t => any_of l (upper t)) ts.

Definition route (input : bytes) : Route :=
  let st := tokenize input in
  if has_word ["UNION"; "INTERSECT"; "EXCEPT"] st then ToSetOp
  else if has_word ["JOIN"] st || comma_in_from 0 false (tokenizeFull input) then ToJoin
  else if has_word ["IN"; "BETWEEN"; "EXISTS"; "MATCH"; "TABLESAMPLE"] st || has_pair "DISTINCT" "ON" st then ToFull
  else if has_pair "GROUP" "BY" st then ToGroupBy
  else if has_word ["CASE"] st || existsb (fun t => starts_with (str "(SELECT") (upper t)) st || existsb calls st ||
          has_word ["OVER"] st then ToFull
  else if existsb (fun f => bytes_eqb (take_while (fun c => negb (c =? LPAREN)%Z) (upper (default [] (st !! 1)))) f) LOCK_FUNCTIONS
       then ToFunction
  else
    let list := before_word (str "FROM") (drop 1 st) in
    let behind := drop (S (length list)) (drop 1 st) in
    if existsb (fun t => has_paren t || has_operator t) list || negb (has_word ["FROM"] (drop 1 st)) || grouped_where false behind
    then ToFull
    else ToPlain.

(** A text whose first word is SELECT, prepared. *)
Definition parse_select (input : bytes) : Query :=
  match route input with
  | ToSetOp => QSetOp
  | ToJoin => QJoin
  | ToFull => parseSelectFull input
  | ToGroupBy => QGroupBy
  | ToFunction => QFunction
  | ToPlain => parse_plain input
  end.

(** The file of INTO OUTFILE and its separator, FOR UPDATE, and the query. *)
Record Prepared := mkPrepared { outfile : bytes; separator : bytes; forUpdate : bool; query : Query }.

Definition parse_query (inputRaw : bytes) : Prepared :=
  let '(input, file, sep) := cut_outfile (strip_back is_end inputRaw) in
  let '(input, fu) := cut_for_update input in
  mkPrepared file sep fu (parse_select input).
