(* ===== verification/SelectSyntax.v ===== *)
(** * SELECT as it is written, and what its parsers make of it

    A query with its columns, its clause, order and limit; its words for the
    parser that reads tokens between blanks, and its tokens for the one on
    [tokenizeFull].  Whichever parser a text is sent to gives the query it was
    printed from, with what the parser of WHERE makes of its clause.  Lemmas at the end show texts that the two read differently. *)

From S2P Require Import Prelude Index BTree Partition Table Arith Where Select Columns Triggers Transaction Mutation Integrity Lexer WhereParser WhereSyntax Statements SelectParser.

(** ** Syntax *)

(** No columns stand for the star; the flag of an order is DESC. *)
Record SelectQuery := mkQuery {
  sq_distinct : bool; sq_cols : list bytes; sq_table : bytes; sq_where : list (bool * Cond);
  sq_order : list (bytes * bool); sq_limit : option (Z * option Z) }.

(** Names: letters, digits, underscores and dots, and no word of the grammar. *)
Definition KEYWORDS : list string :=
  ["FROM"; "WHERE"; "ORDER"; "BY"; "LIMIT"; "OFFSET"; "ASC"; "DESC"; "AFTER"; "DISTINCT"; "ALL"; "ON"; "AS"; "ONLY";
   "MIN"; "MAX"; "AVG"; "SUM"; "COUNT"].
Definition ident (t : bytes) : bool :=
  negb (bytes_eqb t []) && forallb (fun c => is_word c || (c =? DOT)%Z) t && negb (any_of KEYWORDS (upper t)).

Definition limit_words (l : option (Z * option Z)) : list bytes :=
  match l with
  | None => []
  | Some (n, None) => [str "LIMIT"; to_string n]
  | Some (n, Some m) => [str "LIMIT"; to_string n; str "OFFSET"; to_string m]
  end.
Definition int_range (n : Z) : bool := ((0 <=? n) && (n <? 2 ^ 31))%Z.
Definition limit_ok (l : option (Z * option Z)) : bool :=
  match l with None => true | Some (n, m) => int_range n && match m with Some m => int_range m | None => true end end.

Definition distinct_words (q : SelectQuery) : list bytes := if sq_distinct q then [str "DISTINCT"] else [].

(** *** Words between blanks: a comma is the end of a word *)

Fixpoint col_words (cols : list bytes) : list bytes :=
  match cols with [] => [] | [c] => [c] | c :: cs => (c ++ [COMMA]) :: col_words cs end.
Definition star_or (l : list bytes) : list bytes := match l with [] => [str "*"] | _ => l end.

Definition order_item (p : bytes * bool) (comma : bytes) : list bytes :=
  if p.2 then [p.1; str "DESC" ++ comma] else [p.1 ++ comma].
Fixpoint order_items (l : list (bytes * bool)) : list bytes :=
  match l with [] => [] | [p] => order_item p [] | p :: l' => order_item p [COMMA] ++ order_items l' end.
Definition order_words (ts : list bytes) : list bytes := match ts with [] => [] | _ => str "ORDER" :: str "BY" :: ts end.

Definition behind_words (q : SelectQuery) : list bytes := order_words (order_items (sq_order q)) ++ limit_words (sq_limit q).

Definition select_words (q : SelectQuery) : list bytes :=
  str "SELECT" :: distinct_words q ++ star_or (col_words (sq_cols q)) ++
  str "FROM" :: sq_table q :: clause_words (sq_where q) ++ behind_words q.

(** *** Tokens: a comma is a token of its own *)

Fixpoint order_tokens (l : list (bytes * bool)) : list bytes :=
  match l with [] => [] | [p] => order_item p [] | p :: l' => order_item p [] ++ str "," :: order_tokens l' end.

Definition column_tokens (q : SelectQuery) : list bytes := star_or (commas (sq_cols q)).
Definition clause_tokens (q : SelectQuery) : list bytes := where_tokens (chain tokens (sq_where q)).

Definition select_tokens (q : SelectQuery) : list bytes :=
  str "SELECT" :: distinct_words q ++ column_tokens q ++
  str "FROM" :: sq_table q :: clause_tokens q ++ order_words (order_tokens (sq_order q)) ++ limit_words (sq_limit q).

(** *** What a query stands for *)

Definition limits (l : option (Z * option Z)) : Z * Z :=
  match l with None => (-1, 0)%Z | Some (n, m) => (n, default 0%Z m) end.

Definition command_with (c : Clause) (q : SelectQuery) : SelectCommand :=
  mkSelect (sq_table q) [] false (sq_distinct q) [] (sq_cols q) None false None c (sq_order q)
    (limits (sq_limit q)).1 (limits (sq_limit q)).2 (-1) None.
Definition command_of (q : SelectQuery) : SelectCommand := command_with (clause_of (sq_where q)) q.

Definition query_ok (q : SelectQuery) : bool :=
  forallb ident (sq_cols q) && ident (sq_table q) && forallb (fun p => ident p.1) (sq_order q) && limit_ok (sq_limit q).

(** No token is one of the words. *)
Definition free (ws : list string) (ts : list bytes) : bool := forallb (fun t => negb (any_of ws (upper t))) ts.

(** The text [s] spells [q] for the parser it goes to. *)
Definition spells (q : SelectQuery) (s : bytes) : Prop :=
  match route s with
  | ToPlain =>
      s = spaced (select_words q) /\ words_ok (clause_words (sq_where q)) = true /\ (LPAREN ∉ s) /\
      forallb (fun p => word_good p.2) (sq_where q) = true /\ free ["ORDER"; "LIMIT"; "AFTER"] (word_chain (sq_where q)) = true
  | ToFull =>
      Lexes (select_tokens q) s /\ forallb (fun p => good p.2) (sq_where q) = true /\
      free ["ORDER"; "LIMIT"] (chain tokens (sq_where q)) = true /\ needs_items (column_tokens q) = false
  | _ => False
  end.

(** ** Names *)

Lemma free_app ws l1 l2 : free ws (l1 ++ l2) = free ws l1 && free ws l2.
Proof. apply forallb_app. Qed.

Lemma any_of_sub ws ws' t : forallb (fun w => existsb (String.eqb w) ws) ws' = true -> any_of ws t = false -> any_of ws' t = false.
Proof.
  intros Hs Hn. apply not_true_iff_false. intros (w & Hw & E)%existsb_exists. rewrite forallb_forall in Hs.
  destruct (proj1 (existsb_exists _ _) (Hs w Hw)) as (w' & Hw' & <-%String.eqb_eq).
  unfold any_of in Hn. rewrite <- not_true_iff_false in Hn. apply Hn, existsb_exists. by exists w.
Qed.

Lemma ident_chars t : ident t = true -> Forall (fun c => is_word c = true \/ c = DOT) t /\ t <> [].
Proof.
  unfold ident. rewrite !andb_true_iff. intros [[Hn%negb_true_iff Hc] _]. split.
  - apply forallb_Forall in Hc. eapply Forall_impl; [exact Hc|]. intros c [?|?%Z.eqb_eq]%orb_true_iff; auto.
  - by apply bytes_eqb_neq.
Qed.

Lemma ident_keyword t ws : ident t = true -> forallb (fun w => existsb (String.eqb w) KEYWORDS) ws = true -> any_of ws (upper t) = false.
Proof. unfold ident. rewrite !andb_true_iff. intros [_ H%negb_true_iff] Hw. by apply (any_of_sub KEYWORDS). Qed.

(** A character that no name holds. *)
Lemma ident_without t c : ident t = true -> is_word c = false -> c <> DOT -> c ∉ t.
Proof.
  intros [H _]%ident_chars Hc Hd Hin. rewrite Forall_forall in H. destruct (H c Hin) as [E|E]; [by rewrite E in Hc|done].
Qed.

(** ** ORDER BY and LIMIT are read back *)

Lemma strip_comma_free c : COMMA ∉ c -> strip_comma c = c.
Proof.
  intros H. unfold strip_comma. destruct (rev c) as [|x r] eqn:E; [done|]. destruct (Z.eqb_spec x COMMA) as [->|]; [|done].
  destruct H. apply list_elem_of_In, in_rev. rewrite E. by left.
Qed.
Lemma strip_comma_end c : strip_comma (c ++ [COMMA]) = c.
Proof. unfold strip_comma. rewrite rev_app_distr. cbn. by rewrite rev_involutive. Qed.

Lemma ident_comma c : ident c = true -> COMMA ∉ c.
Proof. intros H. by apply ident_without. Qed.

(** A name as a column of ORDER BY, with or without a comma. *)
Lemma ident_order c : ident c = true ->
  c <> [] /\ bytes_eqb c [] = false /\ any_of ["ASC"; "DESC"] (upper c) = false /\ any_of ["<->"; "<=>"; "<#>"] c = false /\
  bytes_eqb c (str ",") = false /\ (forall r, direction (c :: r) = (false, c :: r)) /\
  (forall r, direction ((c ++ [COMMA]) :: r) = (false, (c ++ [COMMA]) :: r)).
Proof.
  intros H. destruct (ident_chars c H) as [Hc Hn]. pose proof (ident_comma c H) as Hk.
  assert (any_of ["ASC"; "DESC"] (upper c) = false) as Ha by (by apply ident_keyword).
  assert (forall d, is_word (hd 0%Z d) = false -> hd 0%Z d <> DOT -> d <> [] -> bytes_eqb c d = false) as Hd.
  { intros [|x d] Hx Hdot Hne; [done|]. apply bytes_eqb_neq. intros ->. apply Forall_inv in Hc as [E|E]; [by cbn in Hx; rewrite E in Hx|done]. }
  split_and!; [done|by apply bytes_eqb_neq|done| |by apply Hd| |].
  - unfold any_of. cbn [existsb]. rewrite !(Hd _) by done. done.
  - intros r. unfold direction. rewrite strip_comma_free by done. unfold any_of in Ha. cbn [existsb] in Ha.
    rewrite !orb_false_iff in Ha. destruct Ha as (Ha & Hb & _). by rewrite Ha, Hb.
  - intros r. unfold direction. rewrite strip_comma_end. unfold any_of in Ha. cbn [existsb] in Ha.
    rewrite !orb_false_iff in Ha. destruct Ha as (Ha & Hb & _). by rewrite Ha, Hb.
Qed.

(** One column, and what may stand behind it. *)
Lemma order_cols_item f c desc comma rest :
  ident c = true -> comma = [] \/ comma = [COMMA] ->
  match rest with
  | [] => True
  | t :: _ => any_of ["<->"; "<=>"; "<#>"] (strip_comma t) = false /\ (desc = false -> direction rest = (false, rest))
  end ->
  order_cols (S (S f)) (order_item (c, desc) comma ++ rest) = (c, desc) :: order_cols (if desc then S f else S f) rest.
Proof.
  intros Hc Hk Hr. destruct (ident_order c Hc) as (Hn & H1 & H2 & H3 & H4 & H5 & H6). pose proof (ident_comma c Hc) as Hco.
  unfold order_item. cbn [fst snd]. destruct desc.
  - assert (strip_comma (str "DESC" ++ comma) = str "DESC") as Hd by (by destruct Hk as [->| ->]).
    cbn [app order_cols]. rewrite strip_comma_free by done. rewrite H1, H2, H4. cbn [orb]. rewrite Hd.
    change (any_of ["<->"; "<=>"; "<#>"] (str "DESC")) with false. cbv iota.
    unfold direction. rewrite Hd. done.
  - cbn [app order_cols].
    assert (strip_comma (c ++ comma) = c) as Hs by (destruct Hk as [->| ->]; [by rewrite app_nil_r, strip_comma_free|apply strip_comma_end]).
    assert (bytes_eqb (c ++ comma) (str ",") = false) as Hcc.
    { apply bytes_eqb_neq. destruct c as [|x [|y c]]; [done| |by destruct c, comma].
      destruct Hk as [->| ->]; [by rewrite app_nil_r; apply bytes_eqb_neq|done]. }
    rewrite Hs, H1, H2, Hcc. cbn [orb]. destruct rest as [|t rest]; [done|]. destruct Hr as [Hv Hdir].
    rewrite Hv, (Hdir eq_refl). done.
Qed.

Lemma order_head p comma l :
  ident p.1 = true -> comma = [] \/ comma = [COMMA] ->
  exists t r, order_item p comma ++ l = t :: r /\ any_of ["<->"; "<=>"; "<#>"] (strip_comma t) = false /\
    direction (t :: r) = (false, t :: r).
Proof.
  destruct p as [c desc]. cbn [fst]. intros Hc Hk. destruct (ident_order c Hc) as (_ & _ & _ & H3 & _ & H5 & H6).
  unfold order_item. cbn [fst snd]. destruct desc; cbn [app]; eexists _, _; (split; [reflexivity|]).
  - by rewrite strip_comma_free by (by apply ident_comma).
  - destruct Hk as [->| ->]; [rewrite app_nil_r, strip_comma_free by (by apply ident_comma)|rewrite strip_comma_end]; auto.
Qed.

Lemma order_items_head l :
  forallb (fun p => ident p.1) l = true ->
  match order_items l with
  | [] => True
  | t :: r => any_of ["<->"; "<=>"; "<#>"] (strip_comma t) = false /\ direction (t :: r) = (false, t :: r)
  end.
Proof.
  destruct l as [|p [|p2 l]]; [done|..]; intros Hl; pose proof (andb_prop _ _ Hl) as [Hp _].
  - cbn [order_items]. destruct (order_head p [] []) as (t & r & E & H); [done|by left|]. rewrite app_nil_r in E. by rewrite E.
  - change (order_items (p :: p2 :: l)) with (order_item p [COMMA] ++ order_items (p2 :: l)).
    destruct (order_head p [COMMA] (order_items (p2 :: l))) as (t & r & E & H); [done|by right|]. by rewrite E.
Qed.

Lemma order_item_length p comma : length (order_item p comma) = if p.2 then 2 else 1.
Proof. destruct p as [c []]; done. Qed.

Lemma order_items_length p l : 1 <= length (order_items (p :: l)) /\ 1 <= length (order_tokens (p :: l)).
Proof.
  destruct l as [|p2 l]; [split; cbn [order_items order_tokens]; rewrite order_item_length; destruct p.2; lia|].
  change (order_items (p :: p2 :: l)) with (order_item p [COMMA] ++ order_items (p2 :: l)).
  change (order_tokens (p :: p2 :: l)) with (order_item p [] ++ (str "," :: order_tokens (p2 :: l))).
  rewrite !length_app, !order_item_length. destruct p.2; lia.
Qed.

Lemma order_words_parse f l :
  forallb (fun p => ident p.1) l = true -> length (order_items l) <= f -> order_cols f (order_items l) = l.
Proof.
  revert f. induction l as [|[c desc] l IH]; intros f; [by destruct f|]. cbn [forallb fst]. intros [Hc Hl]%andb_true_iff Hf.
  destruct l as [|p2 l].
  - cbn [order_items] in *. rewrite <- (app_nil_r (order_item (c, desc) [])).
    destruct desc; unfold order_item in Hf; cbn [snd fst length] in Hf.
    + destruct f as [|[|f]]; [lia..|]. by rewrite (order_cols_item f c true [] []) by (first [done|by left]).
    + destruct f as [|f]; [lia|]. unfold order_item. cbn [snd fst app]. destruct (ident_order c Hc) as (_ & H1 & H2 & _ & H4 & _).
      cbn [order_cols]. rewrite app_nil_r, strip_comma_free by (by apply ident_comma). by rewrite H1, H2, H4.
  - change (order_items ((c, desc) :: p2 :: l)) with (order_item (c, desc) [COMMA] ++ order_items (p2 :: l)) in *.
    rewrite length_app in Hf. pose proof (order_items_head (p2 :: l) Hl) as Hh.
    destruct (order_items_length p2 l) as [H1 _]. rewrite order_item_length in Hf. cbn [snd] in Hf.
    destruct f as [|[|f]]; [destruct desc; lia..|].
    rewrite order_cols_item; [|done|by right|].
    + f_equal. destruct desc; apply IH; first [done|lia].
    + destruct (order_items (p2 :: l)) as [|t r]; [done|]. destruct Hh. split; [done|by intros _].
Qed.

Lemma order_tokens_parse f l :
  forallb (fun p => ident p.1) l = true -> length (order_tokens l) <= f -> order_cols f (order_tokens l) = l.
Proof.
  revert f. induction l as [|[c desc] l IH]; intros f; [by destruct f|]. cbn [forallb fst]. intros [Hc Hl]%andb_true_iff Hf.
  destruct l as [|p2 l].
  - change (order_tokens [(c, desc)]) with (order_items [(c, desc)]) in *. apply order_words_parse; [|done].
    cbn [forallb fst]. by rewrite Hc.
  - change (order_tokens ((c, desc) :: p2 :: l)) with (order_item (c, desc) [] ++ str "," :: order_tokens (p2 :: l)) in *.
    rewrite length_app in Hf. cbn [length] in Hf.
    destruct (order_items_length p2 l) as [_ H1]. rewrite order_item_length in Hf. cbn [snd] in Hf.
    destruct f as [|[|f]]; [destruct desc; lia..|]. rewrite order_cols_item; [|done|by left|by split]. f_equal.
    destruct desc; cbn [order_cols]; (apply IH; [done|lia]).
Qed.

Lemma order_words_cols l : forallb (fun p => ident p.1) l = true -> parseOrderByCols (order_items l) = l.
Proof. intros H. by apply order_words_parse. Qed.
Lemma order_tokens_cols l : forallb (fun p => ident p.1) l = true -> parseOrderByCols (order_tokens l) = l.
Proof. intros H. by apply order_tokens_parse. Qed.

(** *** Numbers *)

Lemma stoi_to_string n : int_range n = true -> stoi (to_string n) = Some n.
Proof.
  unfold int_range. rewrite andb_true_iff, Z.leb_le, Z.ltb_lt. intros [H1 H2].
  unfold stoi, sto_signed. rewrite <- (app_nil_r (to_string n)), scan_int_to_string by done. cbn [mbind option_bind].
  by rewrite (proj2 (Z.leb_le _ _)), (proj2 (Z.ltb_lt _ _)) by lia.
Qed.

(** ** Words in front of a clause are passed over *)

Lemma free_cons ws t ts : free ws (t :: ts) = negb (any_of ws (upper t)) && free ws ts.
Proof. done. Qed.

Lemma free_word ws w t : In w ws -> any_of ws (upper t) = false -> bytes_eqb (upper t) (str w) = false.
Proof.
  intros Hw H. apply not_true_iff_false. intros E. rewrite <- not_true_iff_false in H. apply H.
  unfold any_of. apply existsb_exists. by exists w.
Qed.

Lemma parseOrderBy_skip ts r : free ["ORDER"] ts = true -> parseOrderBy (ts ++ r) = parseOrderBy r.
Proof.
  induction ts as [|t ts IH]; [done|]. rewrite free_cons. intros [Ht%negb_true_iff H]%andb_true_iff. cbn [app parseOrderBy].
  rewrite (free_word ["ORDER"] "ORDER") by (first [by left|done]). by apply IH.
Qed.

Lemma parseLimit_skip ts r : free ["LIMIT"] ts = true -> parseLimit (ts ++ r) = parseLimit r.
Proof.
  induction ts as [|t ts IH]; [done|]. rewrite free_cons. intros [Ht%negb_true_iff H]%andb_true_iff. cbn [app parseLimit].
  rewrite (free_word ["LIMIT"] "LIMIT") by (first [by left|done]). specialize (IH H).
  destruct (ts ++ r) as [|n l] eqn:E; [|exact IH]. by apply app_eq_nil in E as [_ ->].
Qed.

Lemma after_sequence_none ts : free ["AFTER"] ts = true -> after_sequence ts = (-1)%Z.
Proof.
  induction ts as [|t ts IH]; [done|]. rewrite free_cons. intros [Ht%negb_true_iff H]%andb_true_iff. cbn [after_sequence].
  rewrite (free_word ["AFTER"] "AFTER") by (first [by left|done]). cbn [andb]. destruct (ts !! 1); by apply IH.
Qed.

Lemma parseLimit_words l : limit_ok l = true -> parseLimit (limit_words l) = limits l.
Proof.
  destruct l as [[n [m|]]|]; cbn [limit_ok]; [intros [Hn Hm]%andb_true_iff|rewrite andb_true_r; intros Hn|done].
  - cbn [limit_words parseLimit]. change (bytes_eqb (upper (str "LIMIT")) (str "LIMIT")) with true. cbv iota.
    rewrite stoi_to_string by done. cbn [lookup list_lookup]. rewrite stoi_to_string by done. done.
  - cbn [limit_words parseLimit]. change (bytes_eqb (upper (str "LIMIT")) (str "LIMIT")) with true. cbv iota.
    by rewrite stoi_to_string by done.
Qed.

Lemma before_limit ts r : free ["LIMIT"] ts = true -> before_word (str "LIMIT") (ts ++ limit_words r) = ts.
Proof.
  induction ts as [|t ts IH]; [by destruct r as [[n [m|]]|]|]. rewrite free_cons. intros [Ht%negb_true_iff H]%andb_true_iff.
  cbn [app before_word]. rewrite (free_word ["LIMIT"] "LIMIT") by (first [by left|done]). f_equal. by apply IH.
Qed.

Lemma show_digits n : (0 <= n)%Z -> Forall (fun c => is_digit c = true) (to_string n).
Proof. intros H. by destruct (to_string_spec n H) as (_ & ? & _). Qed.

(** Digits are no keyword. *)
Lemma number_free ws n : (0 <= n)%Z -> forallb (fun w => forallb (fun c => negb (is_digit c)) (str w)) ws = true ->
  any_of ws (upper (to_string n)) = false.
Proof.
  intros Hn Hw. destruct (to_string_spec n Hn) as (_ & Hd & Hne). apply not_true_iff_false. intros (w & Hin & E)%existsb_exists.
  rewrite forallb_forall in Hw. specialize (Hw w Hin). unfold bytes_eqb in E. apply bool_decide_eq_true in E. rewrite <- E in Hw.
  destruct (to_string n) as [|c s]; [done|]. apply Forall_inv in Hd. cbn in Hw. unfold to_upper in Hw.
  assert (is_lower c = false) as Hl by (unfold is_lower, is_digit in *; lia). by rewrite Hl, Hd in Hw.
Qed.

Lemma limit_free ws l :
  limit_ok l = true -> forallb (fun w => forallb (fun c => negb (is_digit c)) (str w)) ws = true ->
  any_of ws (str "LIMIT") = false -> any_of ws (str "OFFSET") = false -> free ws (limit_words l) = true.
Proof.
  intros Hl Hw H1 H2. assert (forall n, int_range n = true -> any_of ws (upper (to_string n)) = false) as Hn.
  { intros n [H%Z.leb_le _]%andb_true_iff. by apply number_free. }
  destruct l as [[n [m|]]|]; cbn [limit_ok limit_words] in *; [apply andb_true_iff in Hl as [Hl Hm]|apply andb_true_iff in Hl as [Hl _]|done];
    rewrite !free_cons; change (upper (str "LIMIT")) with (str "LIMIT"); change (upper (str "OFFSET")) with (str "OFFSET"); rewrite H1.
  - by rewrite H2, (Hn n Hl), (Hn m Hm).
  - by rewrite (Hn n Hl).
Qed.

(** A name with a comma is no keyword either. *)
Lemma comma_free ws c : forallb (fun w => forallb (fun x => negb (x =? COMMA)%Z) (str w)) ws = true -> any_of ws (upper (c ++ [COMMA])) = false.
Proof.
  intros Hw. apply not_true_iff_false. intros (w & Hin & E)%existsb_exists. rewrite forallb_forall in Hw. specialize (Hw w Hin).
  unfold bytes_eqb in E. apply bool_decide_eq_true in E. rewrite <- E, upper_app, forallb_app in Hw. by apply andb_true_iff in Hw as [_ Hw].
Qed.

Definition plain_words (ws : list string) : bool :=
  forallb (fun w => existsb (String.eqb w) KEYWORDS && negb (any_of ["DESC"] (str w))) ws.

Lemma plain_words_facts ws : plain_words ws = true ->
  forallb (fun w => existsb (String.eqb w) KEYWORDS) ws = true /\ forallb (fun w => forallb (fun x => negb (x =? COMMA)%Z) (str w)) ws = true /\
  any_of ws (str "DESC") = false.
Proof.
  unfold plain_words. intros H. rewrite forallb_forall in H. split_and!.
  - apply forallb_forall. intros w [Hw _]%H%andb_true_iff. done.
  - apply forallb_forall. intros w [(k & Hk & ->%String.eqb_eq)%existsb_exists _]%H%andb_true_iff.
    revert k Hk. apply forallb_forall. vm_compute. reflexivity.
  - apply not_true_iff_false. intros (w & Hw & E)%existsb_exists. apply H in Hw. apply andb_true_iff in Hw as [_ Hw].
    unfold bytes_eqb in E. apply bool_decide_eq_true in E. by rewrite <- E in Hw.
Qed.

Lemma order_free ws l : plain_words ws = true -> forallb (fun p => ident p.1) l = true ->
  free ws (order_items l) = true /\ free ws (order_tokens l) = true.
Proof.
  intros Hw. destruct (plain_words_facts ws Hw) as (Hk & Hc & Hd).
  assert (forall p comma, ident p.1 = true -> comma = [] \/ comma = [COMMA] -> free ws (order_item p comma) = true) as Hi.
  { intros [c desc] comma Hp Hcomma. cbn in Hp. unfold order_item. cbn [fst snd].
    pose proof (ident_keyword c ws Hp Hk) as Hck. destruct desc; rewrite ?free_cons, ?Hck; cbn [negb andb]; rewrite andb_true_r; apply negb_true_iff.
    - destruct Hcomma as [->| ->]; [done|by apply comma_free].
    - destruct Hcomma as [->| ->]; [by rewrite app_nil_r|by apply comma_free]. }
  assert (any_of ws (str ",") = false) as Hco by (by apply (comma_free ws [])).
  induction l as [|p l IH]; [done|]. cbn [forallb]. intros [Hp Hl]%andb_true_iff. destruct (IH Hl) as [IH1 IH2].
  destruct l as [|p2 l]; [cbn [order_items order_tokens]; split; (apply Hi; [done|by left])|].
  change (order_items (p :: p2 :: l)) with (order_item p [COMMA] ++ order_items (p2 :: l)).
  change (order_tokens (p :: p2 :: l)) with (order_item p [] ++ (str "," :: order_tokens (p2 :: l))).
  rewrite !free_app, free_cons, IH1, IH2, !Hi by auto. change (upper (str ",")) with (str ","). by rewrite Hco.
Qed.

(** ** The parser on words *)

Lemma free_sub ws ws' ts : forallb (fun w => existsb (String.eqb w) ws) ws' = true -> free ws ts = true -> free ws' ts = true.
Proof.
  unfold free. rewrite !forallb_forall. intros Hs H t Ht. apply negb_true_iff. apply (any_of_sub ws); [by apply forallb_forall|].
  by apply negb_true_iff, H.
Qed.

Definition word_char (c : byte) : bool := negb (is_quote c) && negb (is_sep c).

Lemma word_chars w : w <> [] -> Forall (fun c => word_char c = true) w -> is_word_token w = true.
Proof.
  intros Hn H. unfold is_word_token. rewrite (proj2 (bytes_eqb_neq w [])) by done. cbn [negb andb]. clear Hn.
  induction H as [|c w [Hq%negb_true_iff Hs]%andb_true_iff H IH]; [done|]. cbn [Lexer.word_from]. by rewrite Hq, Hs.
Qed.

Lemma ident_word t comma : ident t = true -> comma = [] \/ comma = [COMMA] -> is_word_token (t ++ comma) = true.
Proof.
  intros [Hc Hn]%ident_chars Hk. apply word_chars; [by destruct t|]. apply Forall_app. split.
  - eapply Forall_impl; [exact Hc|]. intros c [H| ->]; [|done]. unfold word_char, is_quote, is_sep.
    unfold QUOTE, DQUOTE.
    unfold is_word, is_alnum, is_alpha, is_digit, is_upper, is_lower in H. lia.
  - destruct Hk as [->| ->]; by repeat constructor.
Qed.

Lemma number_word n : (0 <= n)%Z -> is_word_token (to_string n) = true.
Proof.
  intros Hn. destruct (to_string_spec n Hn) as (_ & Hd & Hne). apply word_chars; [done|]. eapply Forall_impl; [exact Hd|].
  intros c H. unfold word_char, is_quote, is_sep, is_digit, QUOTE, DQUOTE in *. lia.
Qed.

Lemma words_app l1 l2 : words_ok (l1 ++ l2) = words_ok l1 && words_ok l2.
Proof. apply forallb_app. Qed.
Lemma words_ok_cons t l : words_ok (t :: l) = is_word_token t && words_ok l.
Proof. done. Qed.

Lemma col_words_ok cols : forallb ident cols = true -> words_ok (star_or (col_words cols)) = true.
Proof.
  assert (forall cols, forallb ident cols = true -> words_ok (col_words cols) = true) as H.
  { clear. induction cols as [|c cols IH]; [done|]. cbn [forallb]. intros [Hc H]%andb_true_iff. destruct cols as [|c2 cols].
    - cbn [col_words]. rewrite words_ok_cons, andb_true_r. rewrite <- (app_nil_r c). apply ident_word; [done|by left].
    - change (col_words (c :: c2 :: cols)) with ((c ++ [COMMA]) :: col_words (c2 :: cols)). rewrite words_ok_cons, IH by done.
      by rewrite ident_word by (first [done|by right]). }
  intros Hc%H. by destruct (col_words cols).
Qed.

Lemma order_words_ok l : forallb (fun p => ident p.1) l = true -> words_ok (order_words (order_items l)) = true.
Proof.
  assert (forall p comma, ident p.1 = true -> comma = [] \/ comma = [COMMA] -> words_ok (order_item p comma) = true) as Hi.
  { intros [c desc] comma Hp Hk. cbn in Hp. unfold order_item. cbn [fst snd]. destruct desc; rewrite !words_ok_cons, andb_true_r.
    - rewrite <- (app_nil_r c), ident_word by (first [done|by left]). by destruct Hk as [->| ->].
    - by apply ident_word. }
  intros H. assert (words_ok (order_items l) = true) as Ho; [|by destruct (order_items l)].
  induction l as [|p l IH]; [done|]. cbn [forallb] in H. apply andb_true_iff in H as [Hp H]. destruct l as [|p2 l].
  - apply Hi; [done|by left].
  - change (order_items (p :: p2 :: l)) with (order_item p [COMMA] ++ order_items (p2 :: l)). rewrite words_app, IH, Hi by auto. done.
Qed.

Lemma limit_words_ok l : limit_ok l = true -> words_ok (limit_words l) = true.
Proof.
  assert (forall n, int_range n = true -> is_word_token (to_string n) = true) as Hn.
  { intros n [H%Z.leb_le _]%andb_true_iff. by apply number_word. }
  destruct l as [[n [m|]]|]; cbn [limit_ok limit_words]; [|rewrite andb_true_r|done]; rewrite ?andb_true_iff; intros H; rewrite !words_ok_cons.
  - destruct H as [H1 H2]. by rewrite !Hn.
  - by rewrite Hn.
Qed.

Lemma select_words_ok q : query_ok q = true -> words_ok (clause_words (sq_where q)) = true -> words_ok (select_words q) = true.
Proof.
  unfold query_ok. rewrite !andb_true_iff. intros [[[Hc Ht] Ho] Hl] Hw. unfold select_words, behind_words.
  rewrite words_ok_cons, words_app, words_app, !words_ok_cons, !words_app, Hw, col_words_ok, order_words_ok, limit_words_ok by done.
  rewrite <- (app_nil_r (sq_table q)), ident_word by (first [done|by left]). unfold distinct_words. by destruct (sq_distinct q).
Qed.

(** *** The columns of the text *)

Lemma drop_while_none {A} (p : A -> bool) l : Forall (fun x => p x = false) l -> drop_while p l = l.
Proof. destruct 1 as [|x l H _]; [done|]. cbn. by rewrite H. Qed.

(** No character of a name is a blank. *)
Lemma ident_blank c : ident c = true ->
  Forall (fun x => is_blank x = false /\ is_space_char x = false /\ x <> COMMA /\ x <> LPAREN) c.
Proof.
  intros [Hc _]%ident_chars. eapply Forall_impl; [exact Hc|]. intros x H. unfold is_blank, is_space_char, COMMA, LPAREN.
  destruct H as [H| ->]; [|done]. unfold is_word, is_alnum, is_alpha, is_digit, is_upper, is_lower in H. lia.
Qed.

Lemma ident_trim c : ident c = true -> trim c = c /\ trim (SPACE :: c) = c /\ strip_spaces c = c.
Proof.
  intros H%ident_blank.
  assert (forall p : byte -> bool, Forall (fun x => p x = false) c -> rev (drop_while p (rev (drop_while p c))) = c) as Ht.
  { intros p Hp. rewrite (drop_while_none p c) by done. rewrite drop_while_none by (by apply Forall_rev). apply rev_involutive. }
  assert (Forall (fun x => is_blank x = false) c) as Hb by (eapply Forall_impl; [exact H|]; intros x Hx; apply Hx).
  split_and!; [by apply Ht|by apply Ht|]. apply Ht. eapply Forall_impl; [exact H|]. intros x Hx. apply Hx.
Qed.

Lemma col_words_cons c c2 cols : spaced (col_words (c :: c2 :: cols)) = c ++ COMMA :: SPACE :: spaced (col_words (c2 :: cols)).
Proof.
  change (col_words (c :: c2 :: cols)) with ((c ++ [COMMA]) :: col_words (c2 :: cols)).
  destruct (col_words (c2 :: cols)) as [|w ws] eqn:E; [by destruct cols|]. rewrite spaced_cons. by rewrite <- app_assoc.
Qed.

Lemma split_col_words cols : forallb ident cols = true -> splitTrim (spaced (col_words cols)) COMMA = cols.
Proof.
  assert (forall c cols, forallb ident (c :: cols) = true ->
    splitTrim (spaced (col_words (c :: cols))) COMMA = c :: cols /\
    splitTrim (SPACE :: spaced (col_words (c :: cols))) COMMA = c :: cols) as H.
  { clear. intros c cols. revert c. induction cols as [|c2 cols IH]; intros c; cbn [forallb]; intros [Hc H]%andb_true_iff.
    all: pose proof (ident_trim c Hc) as (T1 & T2 & _); destruct (ident_chars c Hc) as [_ Hn].
    all: assert (Forall (fun x => x <> COMMA) c) as Hco by (eapply Forall_impl; [exact (ident_blank c Hc)|]; intros x Hx; apply Hx).
    - cbn [col_words spaced]. unfold splitTrim. rewrite !split_last by (first [done|by constructor]). cbn [map]. by rewrite T1, T2.
    - rewrite col_words_cons. destruct (IH c2 H) as [_ IH2]. unfold splitTrim in *. split.
      + rewrite split_on_line by done. cbn [map]. by rewrite T1, IH2.
      + rewrite app_comm_cons, split_on_line by (by constructor). cbn [map]. by rewrite T2, IH2. }
  intros Hc. destruct cols as [|c cols]; [done|]. by apply H.
Qed.

(** Words that are taken over as they are. *)
Definition taken (t : bytes) : Prop :=
  t <> [] /\ bytes_eqb t (str "(") = false /\ bytes_eqb t (str ")") = false /\ bytes_eqb (upper t) (str "AS") = false.

Lemma ident_not_paren c comma : ident c = true -> comma = [] \/ comma = [COMMA] -> plain (c ++ comma) = true.
Proof.
  intros [Hc Hn]%ident_chars Hk. unfold plain. apply negb_true_iff, any_of_false. rewrite !Forall_cons, Forall_nil.
  destruct c as [|x c]; [done|]. apply Forall_inv in Hc. split_and!; [apply bytes_eqb_neq..|done]; cbn; intros [= -> _];
    by destruct Hc as [Hc|Hc].
Qed.

Lemma ident_taken c comma : ident c = true -> comma = [] \/ comma = [COMMA] -> taken (c ++ comma).
Proof.
  intros Hc Hk. destruct (plain_false _ (ident_not_paren c comma Hc Hk)) as [H1 H2]. destruct (ident_chars c Hc) as [_ Hn].
  split_and!; [by destruct c|done..|]. eapply (free_word ["AS"]); [by left|].
  destruct Hk as [->| ->]; [rewrite app_nil_r; by apply ident_keyword|by apply comma_free].
Qed.

Lemma col_list_spaced cols ts : cols <> [] -> Forall taken ts -> col_list cols 0 false ts = spaced (cols :: ts).
Proof.
  intros Hn H. revert cols Hn. induction H as [|t ts (H1 & H2 & H3 & H4) H IH]; intros cols Hn; [done|].
  cbn [col_list]. rewrite H2, H3, H4. cbn [andb]. unfold add_word. rewrite (proj2 (bytes_eqb_neq cols [])) by done. change (0 =? 0)%Z with true. cbn [andb].
  rewrite IH by (by destruct cols). rewrite spaced_cons. destruct ts as [|u ts]; cbn [spaced]; by rewrite <- ?app_assoc.
Qed.

Lemma col_words_taken cols : forallb ident cols = true -> Forall taken (col_words cols).
Proof.
  induction cols as [|c cols IH]; [constructor|]. cbn [forallb]. intros [Hc H]%andb_true_iff. destruct cols as [|c2 cols].
  - constructor; [|constructor]. rewrite <- (app_nil_r c). apply ident_taken; [done|by left].
  - change (col_words (c :: c2 :: cols)) with ((c ++ [COMMA]) :: col_words (c2 :: cols)). constructor; [|by apply IH].
    apply ident_taken; [done|by right].
Qed.

Lemma ident_is_column c : ident c = true -> is_column c = true.
Proof.
  intros [Hc Hn]%ident_chars. unfold is_column. rewrite (proj2 (bytes_eqb_neq c [])) by done. rewrite andb_true_r.
  apply negb_true_iff, bytes_eqb_neq. intros ->. apply Forall_inv in Hc. by destruct Hc as [Hc|Hc].
Qed.

Lemma filter_columns cols : forallb ident cols = true -> List.filter is_column cols = cols.
Proof.
  induction cols as [|c cols IH]; [done|]. cbn [forallb List.filter]. intros [Hc H]%andb_true_iff. by rewrite ident_is_column, IH.
Qed.

Lemma plain_columns cols : forallb ident cols = true ->
  List.filter is_column (splitTrim (col_list [] 0 false (star_or (col_words cols))) COMMA) = cols.
Proof.
  intros H. destruct cols as [|c cols]; [reflexivity|]. pose proof (col_words_taken _ H) as Ht.
  destruct (col_words (c :: cols)) as [|w ws] eqn:E; [by destruct cols|]. inversion Ht as [|? ? (H1 & H2 & H3 & H4) Hws]; subst.
  assert (col_list [] 0 false (star_or (w :: ws)) = spaced (w :: ws)) as ->.
  { cbn [star_or col_list]. rewrite H2, H3, H4. cbn [andb]. change (0 =? 0)%Z with true. cbn [andb]. unfold add_word.
    change (bytes_eqb [] []) with true. cbv iota. by apply col_list_spaced. }
  rewrite <- E, split_col_words by done. by apply filter_columns.
Qed.

(** *** The whole text *)

Lemma no_call f s : LPAREN ∉ s -> find_sub (f ++ [LPAREN]) s = None.
Proof.
  assert (forall s, LPAREN ∉ s -> starts_with (f ++ [LPAREN]) s = false) as Hs.
  { intros r Hr. apply not_true_iff_false. intros [t ->]%starts_with_true. apply Hr. rewrite !elem_of_app. left. right. by left. }
  intros H. induction s as [|c s IH]; cbn [find_sub]; rewrite Hs by done; [done|]. apply not_elem_of_cons in H as [_ H]. by rewrite IH.
Qed.

Lemma upper_paren_free s : LPAREN ∉ s -> LPAREN ∉ upper s.
Proof. intros H. by rewrite <- find_char_none, find_char_upper, find_char_none. Qed.

(** What a list of columns starts with. *)
Lemma col_words_head ws cols : plain_words ws = true -> any_of ws (str "*") = false -> forallb ident cols = true ->
  free ws (star_or (col_words cols)) = true /\ exists t ts, star_or (col_words cols) = t :: ts.
Proof.
  intros Hw Hs. destruct (plain_words_facts ws Hw) as (Hk & Hc & _). intros H.
  assert (free ws (col_words cols) = true) as Hf.
  { induction cols as [|c cols IH]; [done|]. cbn [forallb] in H. apply andb_true_iff in H as [Hi H]. destruct cols as [|c2 cols].
    - cbn [col_words]. rewrite free_cons, (ident_keyword c ws) by done. done.
    - change (col_words (c :: c2 :: cols)) with ((c ++ [COMMA]) :: col_words (c2 :: cols)). rewrite free_cons, IH by done.
      by rewrite comma_free. }
  destruct (col_words cols) as [|t ts]; [|split; [done|by eexists _, _]]. split; [|by eexists _, _].
  cbn [star_or]. rewrite free_cons. change (upper (str "*")) with (str "*"). by rewrite Hs.
Qed.

Lemma kw_free ws w ts : In w ws -> free ws ts = true -> ts <> [] -> forall r, kw 0 w (ts ++ r) = false.
Proof. destruct ts as [|t ts]; [done|]. rewrite free_cons. intros Hw [Ht%negb_true_iff _]%andb_true_iff _ r. by apply (free_word ws). Qed.

Lemma order_words_free ws l : plain_words ws = true -> any_of ws (str "ORDER") = false -> any_of ws (str "BY") = false ->
  forallb (fun p => ident p.1) l = true -> free ws (order_words (order_items l)) = true /\ free ws (order_words (order_tokens l)) = true.
Proof.
  intros Hw Ho Hb Hl. destruct (order_free ws l Hw Hl) as [H1 H2]. unfold order_words.
  split; [destruct (order_items l)|destruct (order_tokens l)]; try done; rewrite !free_cons;
    change (upper (str "ORDER")) with (str "ORDER"); change (upper (str "BY")) with (str "BY"); by rewrite Ho, Hb.
Qed.

Lemma clause_words_free ws l : any_of ws (str "WHERE") = false -> free ws (word_chain l) = true -> free ws (clause_words l) = true.
Proof.
  intros Hw H. unfold clause_words. destruct (word_chain l) as [|t ts]; [done|]. cbn [where_tokens]. rewrite free_cons, H.
  change (upper (str "WHERE")) with (str "WHERE"). by rewrite Hw.
Qed.

Lemma behind_ends q : clause_ends (behind_words q).
Proof.
  unfold behind_words. destruct (order_items (sq_order q)); [|done]. cbn [order_words app].
  by destruct (sq_limit q) as [[n [m|]]|].
Qed.

Lemma word_meaning l : forallb (fun p => word_good p.2) l = true -> clause_of l = plain_clause l.
Proof.
  intros H. unfold clause_of, plain_clause. f_equal. generalize 0. induction l as [|[b c] l IH]; intros n; [done|].
  cbn [forallb fst snd] in H. apply andb_true_iff in H as [Hc H]. cbn [all_subs]. rewrite (IH H). by destruct c.
Qed.

(** From behind FROM. *)
Lemma parse_from_words q distinct cols :
  query_ok q = true -> words_ok (clause_words (sq_where q)) = true -> forallb (fun p => word_good p.2) (sq_where q) = true ->
  free ["ORDER"; "LIMIT"; "AFTER"] (word_chain (sq_where q)) = true ->
  parse_from distinct cols (sq_table q :: clause_words (sq_where q) ++ behind_words q) =
    QSelect (mkSelect (sq_table q) [] false distinct [] cols None false None (clause_of (sq_where q)) (sq_order q)
      (limits (sq_limit q)).1 (limits (sq_limit q)).2 (-1) None).
Proof.
  unfold query_ok. rewrite !andb_true_iff. intros [[[_ Ht] Ho] Hl] Hw Hg Hf.
  pose proof (clause_words_free ["ORDER"; "LIMIT"; "AFTER"] (sq_where q) eq_refl Hf) as Hc.
  assert (parseLimit (clause_words (sq_where q) ++ behind_words q) = limits (sq_limit q)) as Hlim.
  { unfold behind_words. rewrite app_assoc, parseLimit_skip; [by apply parseLimit_words|]. rewrite free_app.
    rewrite (free_sub ["ORDER"; "LIMIT"; "AFTER"] ["LIMIT"]) by done.
    exact (proj1 (order_words_free ["LIMIT"] _ eq_refl eq_refl eq_refl Ho)). }
  assert (parseOrderBy (clause_words (sq_where q) ++ behind_words q) = sq_order q) as Hord.
  { rewrite parseOrderBy_skip by (by apply (free_sub ["ORDER"; "LIMIT"; "AFTER"])). unfold behind_words.
    pose proof (order_words_cols (sq_order q) Ho) as Hcols. destruct (sq_order q) as [|p l] eqn:E.
    - cbn [order_items order_words app]. rewrite <- (app_nil_r (limit_words (sq_limit q))).
      rewrite parseOrderBy_skip by (by apply limit_free). done.
    - destruct (order_items (p :: l)) as [|t ts] eqn:Ei; [by destruct (order_items_length p l) as [H _]; rewrite Ei in H; inversion H|].
      cbn [order_words app parseOrderBy]. change (bytes_eqb (upper (str "ORDER")) (str "ORDER")) with true.
      change (kw 0 "BY" (str "BY" :: ?r)) with true. cbn [andb length Nat.leb]. change (drop 1 (str "BY" :: ?r)) with r.
      rewrite app_comm_cons, before_limit; [done|]. rewrite <- Ei. by apply order_free. }
  assert (after_sequence (clause_words (sq_where q) ++ behind_words q) = (-1)%Z) as Hafter.
  { apply after_sequence_none. unfold behind_words. rewrite !free_app, (free_sub ["ORDER"; "LIMIT"; "AFTER"] ["AFTER"]) by done.
    rewrite (proj1 (order_words_free ["AFTER"] _ eq_refl eq_refl eq_refl Ho)). by rewrite limit_free. }
  unfold parse_from.
  assert (bytes_eqb (upper (sq_table q)) (str "ONLY") = false) as Hno by (eapply (free_word ["ONLY"]); [by left|by apply ident_keyword]).
  assert (parseWhere (clause_words (sq_where q) ++ behind_words q) no_clause = clause_of (sq_where q)) as Hcl.
  { rewrite word_meaning by done. apply parse_clause_rest; [done|apply behind_ends]. }
  destruct (clause_words (sq_where q) ++ behind_words q); rewrite ?Hno, Hlim, Hord, Hafter, Hcl; by destruct (limits (sq_limit q)).
Qed.

Lemma parse_plain_words q s :
  query_ok q = true -> s = spaced (select_words q) -> words_ok (clause_words (sq_where q)) = true -> LPAREN ∉ s ->
  forallb (fun p => word_good p.2) (sq_where q) = true -> free ["ORDER"; "LIMIT"; "AFTER"] (word_chain (sq_where q)) = true ->
  parse_plain s = QSelect (command_of q).
Proof.
  intros Hq Hs Hw Hp Hg Hf. unfold parse_plain, split_paren. rewrite (proj2 (find_char_none _ _)) by done.
  assert (existsb (fun f => bool_decide (is_Some (find_sub (f ++ [LPAREN]) (upper s)))) LOCK_FUNCTIONS = false) as ->.
  { apply not_true_iff_false. intros (f & _ & H)%existsb_exists. rewrite no_call in H by (by apply upper_paren_free). done. }
  rewrite Hs, tokenize_spaced by (by apply words_forall, select_words_ok). unfold select_words.
  change (drop 1 (str "SELECT" :: ?l)) with l. pose proof (parse_from_words q) as Hfrom.
  assert (forallb ident (sq_cols q) = true) as Hc by (unfold query_ok in Hq; rewrite !andb_true_iff in Hq; tauto).
  destruct (col_words_head ["FROM"; "DISTINCT"; "ALL"; "MIN"; "MAX"; "AVG"; "SUM"; "COUNT"] (sq_cols q) eq_refl eq_refl Hc) as (Hcf & t & ts & E).
  pose proof (plain_columns (sq_cols q) Hc) as Hcols. rewrite E in Hcf, Hcols |- *.
  assert (Forall (fun t => bytes_eqb (upper t) (str "FROM") = false) (t :: ts)) as Hnf.
  { apply Forall_forall. intros u Hu. apply list_elem_of_In in Hu. unfold free in Hcf. rewrite forallb_forall in Hcf.
    specialize (Hcf u Hu). apply negb_true_iff in Hcf. eapply free_word; [|exact Hcf]. by left. }
  rewrite free_cons in Hcf. apply andb_true_iff in Hcf as [Ht%negb_true_iff _].
  assert (forall l, kw 0 "DISTINCT" (t :: l) = false) as Hd by (intros l; eapply free_word; [|exact Ht]; by right; left).
  assert (forall l, skip_kw "DISTINCT" (t :: l) = t :: l) as Hsd by (intros l; unfold skip_kw; by rewrite Hd).
  assert (forall l, skip_kw "ALL" (t :: l) = t :: l) as Hsa.
  { intros l. unfold skip_kw. assert (kw 0 "ALL" (t :: l) = false) as ->; [|done]. eapply free_word; [|exact Ht]. by right; right; left. }
  assert (any_of ["MIN"; "MAX"; "AVG"; "SUM"] (upper t) = false) as Hm by (by apply (any_of_sub ["FROM"; "DISTINCT"; "ALL"; "MIN"; "MAX"; "AVG"; "SUM"; "COUNT"])).
  assert (bytes_eqb (upper t) (str "COUNT") = false) as Hn by (eapply free_word; [|exact Ht]; cbn; tauto).
  assert (forall l, before_word (str "FROM") ((t :: ts) ++ str "FROM" :: l) = t :: ts /\
    drop (S (length (t :: ts))) ((t :: ts) ++ str "FROM" :: l) = l) as Hb.
  { intros l. split; [|by rewrite <- Nat.add_1_r, <- drop_drop, drop_app_length].
    rewrite before_word_app by done. cbn [before_word]. change (bytes_eqb (upper (str "FROM")) (str "FROM")) with true. by rewrite app_nil_r. }
  set (behind := sq_table q :: clause_words (sq_where q) ++ behind_words q) in *.
  assert (forall d,
    parse_from d (List.filter is_column (splitTrim (col_list [] 0 false (before_word (str "FROM") ((t :: ts) ++ str "FROM" :: behind))) COMMA))
      (drop (S (length (before_word (str "FROM") ((t :: ts) ++ str "FROM" :: behind)))) ((t :: ts) ++ str "FROM" :: behind)) =
    QSelect (mkSelect (sq_table q) [] false d [] (sq_cols q) None false None (clause_of (sq_where q)) (sq_order q)
      (limits (sq_limit q)).1 (limits (sq_limit q)).2 (-1) None)) as Hend.
  { intros d. destruct (Hb behind) as [-> ->]. rewrite Hcols. by apply Hfrom. }
  unfold distinct_words, command_of, command_with. destruct (sq_distinct q); cbn [app].
  - change (kw 0 "DISTINCT" (str "DISTINCT" :: ?l)) with true. change (skip_kw "DISTINCT" (str "DISTINCT" :: ?l)) with l.
    rewrite Hsa, Hm, Hn. apply Hend.
  - rewrite Hd, Hsd, Hsa, Hm, Hn. apply Hend.
Qed.

(** ** The parser on the tokens of [tokenizeFull] *)

(** The depth behind the tokens; [None] if they close more than they open. *)
Fixpoint after (d : nat) (ts : list bytes) : option nat :=
  match ts with
  | [] => Some d
  | t :: r =>
      if bytes_eqb t LP then after (S d) r
      else if bytes_eqb t RP then match d with S d => after d r | O => None end
      else after d r
  end.

Lemma split_close_after d ts :
  match after d ts with
  | Some d' => forall r, split_close (S d) (ts ++ r) = let '(l, r') := split_close (S d') r in (ts ++ l, r')
  | None => exists a b, ts = a ++ RP :: b /\ forall r, split_close (S d) (ts ++ r) = (a, b ++ r)
  end.
Proof.
  revert d. induction ts as [|t ts IH]; intros d; cbn [after].
  { intros r. cbn [app]. by destruct (split_close (S d) r). }
  destruct (bytes_eqb t LP) eqn:Eo; [|destruct (bytes_eqb t RP) eqn:Ec; [destruct d as [|d]|]].
  - specialize (IH (S d)). destruct (after (S d) ts).
    + intros r. cbn [app split_close]. change (str "(") with LP. rewrite Eo, IH. by destruct (split_close _ r).
    + destruct IH as (a & b & E & H). exists (t :: a), b. split; [cbn [app]; by rewrite E|]. intros r. cbn [app split_close].
      change (str "(") with LP. by rewrite Eo, H.
  - exists [], ts. unfold bytes_eqb in Ec. apply bool_decide_eq_true in Ec as ->. split; [done|]. intros r. by cbn.
  - specialize (IH d). destruct (after d ts).
    + intros r. cbn [app split_close]. change (str "(") with LP. change (str ")") with RP. rewrite Eo, Ec. cbn [pred]. rewrite IH.
      by destruct (split_close _ r).
    + destruct IH as (a & b & E & H). exists (t :: a), b. split; [cbn [app]; by rewrite E|]. intros r. cbn [app split_close].
      change (str "(") with LP. change (str ")") with RP. rewrite Eo, Ec. cbn [pred]. by rewrite H.
  - specialize (IH d). destruct (after d ts).
    + intros r. cbn [app split_close]. change (str "(") with LP. change (str ")") with RP. rewrite Eo, Ec, IH.
      by destruct (split_close _ r).
    + destruct IH as (a & b & E & H). exists (t :: a), b. split; [cbn [app]; by rewrite E|]. intros r. cbn [app split_close].
      change (str "(") with LP. change (str ")") with RP. by rewrite Eo, Ec, H.
Qed.

(** Tokens that close what they open leave the depth as it is. *)
Lemma closed_after ts : closed ts -> after 0 ts = Some 0.
Proof.
  intros Hc. pose proof (split_close_after 0 ts) as H. specialize (Hc 0 [RP]).
  change (split_close 1 [RP]) with (([] : list bytes), ([] : list bytes)) in Hc. cbv beta iota in Hc. rewrite app_nil_r in Hc.
  destruct (after 0 ts) as [[|d]|]; [done| |].
  - specialize (H [RP]). rewrite Hc in H. change (split_close (S (S d)) [RP]) with ([RP], ([] : list bytes)) in H. cbv beta iota in H.
    injection H as H. apply (f_equal length) in H. rewrite length_app in H. simpl in H. lia.
  - destruct H as (a & b & E & H). rewrite H in Hc. injection Hc as Hc _. rewrite Hc in E. apply (f_equal length) in E.
    rewrite length_app in E. simpl in E. lia.
Qed.

Lemma word_from_over w d i ts d' r :
  after d ts = Some d' -> Forall (fun t => bytes_eqb (upper t) w = false) ts ->
  word_from w d i (ts ++ r) = word_from w d' (i + length ts) r.
Proof.
  intros Ha Hw. revert d i Ha. induction Hw as [|t ts Ht Hw IH]; intros d i; cbn [after app word_from length].
  { intros [= ->]. by rewrite Nat.add_0_r. }
  change (str "(") with LP. change (str ")") with RP. replace (i + S (length ts)) with (S i + length ts) by lia.
  destruct (bytes_eqb t LP); [|destruct (bytes_eqb t RP)].
  - apply IH.
  - destruct d as [|d]; [done|]. apply IH.
  - rewrite Ht, andb_false_r. apply IH.
Qed.

(** Words of the grammar are passed over. *)
Lemma word_over ws w i ts r :
  In w ws -> closed ts -> free ws ts = true -> word_from (str w) 0 i (ts ++ r) = word_from (str w) 0 (i + length ts) r.
Proof.
  intros Hw Hc Hf. apply word_from_over; [by apply closed_after|]. apply Forall_forall. intros t Ht. apply list_elem_of_In in Ht.
  unfold free in Hf. rewrite forallb_forall in Hf. eapply free_word; [exact Hw|]. by apply negb_true_iff, Hf.
Qed.

Lemma word_absent ws w i ts : In w ws -> closed ts -> free ws ts = true -> word_from (str w) 0 i ts = None.
Proof. intros Hw Hc Hf. rewrite <- (app_nil_r ts). by rewrite (word_over ws). Qed.

Lemma word_here w i r : bytes_eqb (str w) LP = false -> bytes_eqb (str w) RP = false -> upper (str w) = str w ->
  word_from (str w) 0 i (str w :: r) = Some i.
Proof.
  intros H1 H2 H3. cbn [word_from]. change (str "(") with LP. change (str ")") with RP. rewrite H1, H2, H3. cbn [Nat.eqb andb].
  unfold bytes_eqb. by rewrite bool_decide_eq_true_2.
Qed.

(** *** The parts of a query *)

Lemma ident_item c : ident c = true -> item_ok c = true.
Proof.
  intros H. unfold item_ok. rewrite <- (app_nil_r c) at 1. rewrite ident_not_paren by (first [done|by left]). cbn [andb].
  apply negb_true_iff, any_of_false. repeat constructor. by destruct (ident_order c H) as (_ & _ & _ & _ & ? & _).
Qed.

Lemma column_tokens_facts q : query_ok q = true ->
  forallb plain (column_tokens q) = true /\
  free ["FROM"; "WHERE"; "ORDER"; "LIMIT"; "DISTINCT"; "ALL"; "ON"] (column_tokens q) = true /\ column_tokens q <> [].
Proof.
  unfold query_ok, column_tokens. rewrite !andb_true_iff. intros [[[Hc _] _] _].
  assert (forallb plain (commas (sq_cols q)) = true) as Hp.
  { apply commas_plain. apply forallb_Forall in Hc. apply forallb_Forall. eapply Forall_impl; [exact Hc|]. apply ident_item. }
  assert (free ["FROM"; "WHERE"; "ORDER"; "LIMIT"; "DISTINCT"; "ALL"; "ON"] (commas (sq_cols q)) = true) as Hf.
  { clear Hp. induction (sq_cols q) as [|c cols IH]; [done|]. cbn [forallb] in Hc. apply andb_true_iff in Hc as [Hi Hc].
    destruct cols as [|c2 cols]; [cbn [commas]|change (commas (c :: c2 :: cols)) with (c :: str "," :: commas (c2 :: cols))];
      rewrite ?free_cons, (ident_keyword c) by done; [done|]. by rewrite IH. }
  by destruct (commas (sq_cols q)) as [|t ts].
Qed.

Lemma full_cols_commas cols : forallb ident cols = true -> full_cols [] 0 false (star_or (commas cols)) = cols.
Proof.
  assert (forall c cols, forallb ident (c :: cols) = true -> full_cols [] 0 false (commas (c :: cols)) = c :: cols) as H.
  { clear. intros c cols. revert c. induction cols as [|c2 cols IH]; intros c; cbn [forallb]; intros [Hc H]%andb_true_iff.
    all: destruct (ident_taken c [] Hc (or_introl eq_refl)) as (H1 & H2 & H3 & H4); rewrite app_nil_r in H1, H2, H3, H4.
    all: destruct (ident_order c Hc) as (_ & _ & _ & _ & H5 & _); destruct (ident_trim c Hc) as (_ & _ & H6).
    all: assert (push_column c = [c]) as Hpush by (unfold push_column; rewrite H6; cbn [List.filter]; by rewrite ident_is_column).
    - cbn [commas full_cols]. rewrite H2, H3, H5, H4. cbn [andb]. unfold add_word. change (bytes_eqb [] []) with true. cbv iota. done.
    - change (commas (c :: c2 :: cols)) with (c :: str "," :: commas (c2 :: cols)). specialize (IH c2 H).
      revert IH. generalize (commas (c2 :: cols)) as l. intros l IH. cbn [full_cols].
      rewrite H2, H3, H5, H4. cbn [andb]. change (bytes_eqb (str ",") (str "(")) with false. change (bytes_eqb (str ",") (str ")")) with false.
      change (bytes_eqb (str ",") (str ",")) with true. change (0 =? 0)%Z with true. cbn [andb]. unfold add_word.
      change (bytes_eqb [] []) with true. cbv iota. by rewrite Hpush, IH. }
  intros Hc. destruct cols as [|c [|c2 cols]]; [done|by apply H|by apply H].
Qed.

Lemma order_tokens_plain l : forallb (fun p => ident p.1) l = true -> forallb plain (order_words (order_tokens l)) = true.
Proof.
  assert (forall p, ident p.1 = true -> forallb plain (order_item p []) = true) as Hi.
  { intros [c desc] Hc. cbn in Hc. unfold order_item. cbn [fst snd]. pose proof (item_plain _ (ident_item c Hc)) as Hp.
    destruct desc; cbn [forallb]; rewrite ?app_nil_r, Hp; done. }
  intros H. assert (forallb plain (order_tokens l) = true) as Ho; [|by destruct (order_tokens l)].
  induction l as [|p l IH]; [done|]. cbn [forallb] in H. apply andb_true_iff in H as [Hp H]. destruct l as [|p2 l]; [by apply Hi|].
  change (order_tokens (p :: p2 :: l)) with (order_item p [] ++ (str "," :: order_tokens (p2 :: l))).
  rewrite forallb_app, Hi by done. cbn [forallb andb]. by rewrite IH.
Qed.

Lemma limit_tokens_plain l : limit_ok l = true -> forallb plain (limit_words l) = true.
Proof.
  intros H. pose proof (limit_free ["("; ")"] l H eq_refl eq_refl eq_refl) as Hf. unfold free in Hf.
  apply forallb_forall. intros t Ht. rewrite forallb_forall in Hf. specialize (Hf t Ht). unfold plain.
  apply negb_true_iff in Hf. apply negb_true_iff, any_of_false. rewrite !Forall_cons, Forall_nil.
  split_and!; [apply bytes_eqb_neq; intros ->; by vm_compute in Hf..|done].
Qed.

(** *** Where the clauses are found *)

Section positions.
Context (A C O L : list bytes) (tbl : bytes).
Context (HA : closed A) (HC : closed C) (HO : closed O) (HL : closed L) (Ht : plain tbl = true).
Context (FA : free ["FROM"; "WHERE"; "ORDER"; "LIMIT"] A = true) (FC : free ["ORDER"; "LIMIT"] C = true)
  (FO : free ["WHERE"; "LIMIT"] O = true) (FL : free ["WHERE"; "ORDER"] L = true)
  (Ft : any_of ["FROM"; "WHERE"; "ORDER"; "LIMIT"] (upper tbl) = false).
Context (SC : C = [] \/ exists r, C = str "WHERE" :: r) (SO : O = [] \/ exists r, O = str "ORDER" :: r)
  (SL : L = [] \/ exists r, L = str "LIMIT" :: r).

Let ft := str "SELECT" :: A ++ str "FROM" :: tbl :: C ++ O ++ L.

Lemma ft_length : length ft = 3 + length A + length C + length O + length L.
Proof. unfold ft. cbn [length]. rewrite length_app. cbn [length]. rewrite !length_app. lia. Qed.

Lemma from_pos : word_pos "FROM" ft = 1 + length A.
Proof.
  unfold word_pos, ft. change (drop 1 (str "SELECT" :: ?l)) with l.
  rewrite (word_over ["FROM"; "WHERE"; "ORDER"; "LIMIT"]) by (first [done|by left]). by rewrite word_here.
Qed.

(** The words behind the table. *)
Lemma behind_from w ws :
  In w ["WHERE"; "ORDER"; "LIMIT"]%string -> ws = ["FROM"; "WHERE"; "ORDER"; "LIMIT"]%string ->
  word_from (str w) 0 1 (A ++ str "FROM" :: tbl :: C ++ O ++ L) = word_from (str w) 0 (3 + length A) (C ++ O ++ L).
Proof.
  intros Hw ->. rewrite (word_over ["FROM"; "WHERE"; "ORDER"; "LIMIT"]) by (first [done|by right]).
  change (str "FROM" :: tbl :: ?l) with ([str "FROM"; tbl] ++ l).
  assert (bytes_eqb (upper tbl) (str w) = false) as Hb by (eapply free_word; [|exact Ft]; by right).
  rewrite (word_from_over _ _ _ _ 0).
  - f_equal. simpl. lia.
  - apply closed_after. apply closed_forall. cbn [forallb]. by rewrite Ht.
  - repeat constructor; [|done]. clear -Hw. repeat (destruct Hw as [<-|Hw]; [reflexivity|]). done.
Qed.

Lemma where_pos : word_pos "WHERE" ft = match C with [] => length ft | _ => 3 + length A end.
Proof.
  unfold word_pos. change (drop 1 ft) with (A ++ str "FROM" :: tbl :: C ++ O ++ L). rewrite (behind_from "WHERE" _) by (first [done|by left]).
  destruct SC as [->|[r ->]]; [|cbn [app]; by rewrite word_here]. cbn [app].
  rewrite (word_over ["WHERE"; "LIMIT"]) by (first [done|by left]).
  by rewrite (word_absent ["WHERE"; "ORDER"]) by (first [done|by left]).
Qed.

Lemma order_pos : word_pos "ORDER" ft = match O with [] => length ft | _ => 3 + length A + length C end.
Proof.
  unfold word_pos. change (drop 1 ft) with (A ++ str "FROM" :: tbl :: C ++ O ++ L). rewrite (behind_from "ORDER" _) by (first [done|by right; left]).
  rewrite (word_over ["ORDER"; "LIMIT"]) by (first [done|by left]).
  destruct SO as [->|[r ->]]; [|cbn [app]; by rewrite word_here]. cbn [app].
  by rewrite (word_absent ["WHERE"; "ORDER"]) by (first [done|by right; left]).
Qed.

Lemma limit_pos : word_pos "LIMIT" ft = 3 + length A + length C + length O.
Proof.
  unfold word_pos. change (drop 1 ft) with (A ++ str "FROM" :: tbl :: C ++ O ++ L). rewrite (behind_from "LIMIT" _) by (first [done|by right; right; left]).
  rewrite (word_over ["ORDER"; "LIMIT"]) by (first [done|by right; left]). rewrite (word_over ["WHERE"; "LIMIT"]) by (first [done|by right; left]).
  rewrite ft_length. destruct SL as [->|[r ->]]; [|rewrite word_here by done]; simpl; lia.
Qed.

(** What lies between them. *)
Lemma ft_columns : slice 1 (1 + length A) ft = A.
Proof. unfold slice. cbn [Nat.add Nat.sub]. change (drop 1 ft) with (A ++ str "FROM" :: tbl :: C ++ O ++ L). rewrite Nat.sub_0_r. apply take_app_length. Qed.

Lemma ft_drop k : drop (3 + length A + k) ft = drop k (C ++ O ++ L).
Proof.
  unfold ft. change (3 + length A + k) with (S (S (S (length A + k)))).
  change (drop (S (S (S ?k))) (str "SELECT" :: ?l)) with (drop (S (S k)) l).
  replace (S (S (length A + k))) with (length A + (2 + k)) by lia. rewrite <- drop_drop, drop_app_length. done.
Qed.

Lemma ft_behind : drop (S (1 + length A)) ft = tbl :: C ++ O ++ L.
Proof.
  unfold ft. change (drop (S ?k) (str "SELECT" :: ?l)) with (drop k l). rewrite Nat.add_comm, <- drop_drop, drop_app_length. done.
Qed.

Lemma ft_clause : slice (3 + length A) (3 + length A + length C) ft = C.
Proof.
  unfold slice. pose proof (ft_drop 0) as Hd. rewrite Nat.add_0_r in Hd. rewrite Hd. change (drop 0 ?l) with l.
  replace (_ - _) with (length C) by lia. apply take_app_length.
Qed.

Lemma ft_order r : O = str "ORDER" :: str "BY" :: r ->
  kw (S (3 + length A + length C)) "BY" ft = true /\
  slice (3 + length A + length C + 2) (3 + length A + length C + length O) ft = r.
Proof.
  intros E. pose proof (ft_drop (length C)) as Hd. rewrite drop_app_length, E in Hd. split.
  - unfold kw. rewrite <- (Nat.add_1_r (3 + length A + length C)). rewrite <- lookup_drop, Hd. done.
  - unfold slice. rewrite <- drop_drop, Hd, E. cbn [app drop length]. replace (_ - _) with (length r) by lia. apply take_app_length.
Qed.

Lemma ft_limit : drop (3 + length A + length C + length O) ft = L.
Proof. rewrite <- Nat.add_assoc, ft_drop, <- drop_drop, !drop_app_length. done. Qed.

Lemma clause_part :
  (if word_pos "WHERE" ft <? length ft
   then parseWhereFromFull (slice (word_pos "WHERE" ft) (Nat.min (word_pos "ORDER" ft) (word_pos "LIMIT" ft)) ft) no_clause
   else no_clause) = parseWhereFromFull C no_clause.
Proof.
  assert (Nat.min (word_pos "ORDER" ft) (word_pos "LIMIT" ft) = 3 + length A + length C) as ->.
  { rewrite order_pos, limit_pos, ft_length. destruct O; simpl; lia. }
  rewrite where_pos. destruct (decide (C = [])) as [E|Hn].
  - rewrite E, Nat.ltb_irrefl. done.
  - assert (match C with [] => length ft | _ => 3 + length A end = 3 + length A) as -> by (by destruct C).
    rewrite (proj2 (Nat.ltb_lt _ _)); [by rewrite ft_clause|]. rewrite ft_length. destruct C; [done|]. simpl. lia.
Qed.

Lemma order_part r : (O = [] /\ r = []) \/ (O = str "ORDER" :: str "BY" :: r /\ 1 <= length r) ->
  (if (word_pos "ORDER" ft + 2 <? length ft) && kw (S (word_pos "ORDER" ft)) "BY" ft
   then parseOrderByCols (slice (word_pos "ORDER" ft + 2) (word_pos "LIMIT" ft) ft) else []) = parseOrderByCols r.
Proof.
  rewrite order_pos, limit_pos. intros [[E ->]|[E Hr]].
  - rewrite E, (proj2 (Nat.ltb_ge _ _)) by lia. done.
  - destruct (ft_order r E) as [Hk Hs]. assert (match O with [] => length ft | _ => 3 + length A + length C end = 3 + length A + length C) as -> by (by rewrite E).
    rewrite Hk, Hs, (proj2 (Nat.ltb_lt _ _)); [done|]. rewrite ft_length, E. simpl. lia.
Qed.
End positions.

(** *** The whole query *)

Lemma distinct_columns q : query_ok q = true ->
  closed (distinct_words q ++ column_tokens q) /\
  free ["FROM"; "WHERE"; "ORDER"; "LIMIT"] (distinct_words q ++ column_tokens q) = true /\
  distinct_part (distinct_words q ++ column_tokens q) = (sq_distinct q, [], column_tokens q) /\
  skip_kw "ALL" (column_tokens q) = column_tokens q /\ standalone_aggregate (column_tokens q) = None.
Proof.
  intros Hq. destruct (column_tokens_facts q Hq) as (Hp & Hf & Hn). destruct (column_tokens q) as [|t ts]; [done|].
  pose proof Hf as Hh. rewrite free_cons in Hh. apply andb_true_iff in Hh as [Ht%negb_true_iff _]. split_and!.
  - apply closed_app; [|by apply closed_forall]. unfold distinct_words. by destruct (sq_distinct q); apply closed_forall.
  - rewrite free_app. rewrite (free_sub ["FROM"; "WHERE"; "ORDER"; "LIMIT"; "DISTINCT"; "ALL"; "ON"] ["FROM"; "WHERE"; "ORDER"; "LIMIT"] (t :: ts)) by done. unfold distinct_words. by destruct (sq_distinct q).
  - unfold distinct_words, distinct_part. destruct (sq_distinct q); cbn [app].
    + change (kw 0 "DISTINCT" (str "DISTINCT" :: ?l)) with true. cbv iota. change (kw 1 "ON" (?x :: ?l)) with (kw 0 "ON" l).
      assert (kw 0 "ON" (t :: ts) = false) as ->; [|done]. eapply free_word; [|exact Ht]. cbn. tauto.
    + assert (kw 0 "DISTINCT" (t :: ts) = false) as ->; [|done]. eapply free_word; [|exact Ht]. cbn. tauto.
  - unfold skip_kw. assert (kw 0 "ALL" (t :: ts) = false) as ->; [|done]. eapply free_word; [|exact Ht]. cbn. tauto.
  - destruct ts as [|p ts]; [done|]. cbn [standalone_aggregate]. cbn [forallb] in Hp. rewrite !andb_true_iff in Hp.
    destruct Hp as (_ & Hp & _). destruct (plain_false p Hp) as [Hb _]. change (str "(") with LP. by rewrite Hb, andb_false_r.
Qed.

Lemma clause_tokens_facts q :
  forallb (fun p => good p.2) (sq_where q) = true -> free ["ORDER"; "LIMIT"] (chain tokens (sq_where q)) = true ->
  closed (clause_tokens q) /\ free ["ORDER"; "LIMIT"] (clause_tokens q) = true /\
  (clause_tokens q = [] /\ sq_where q = [] \/ exists r, clause_tokens q = str "WHERE" :: r).
Proof.
  intros Hg Hf. unfold clause_tokens. split_and!.
  - apply closed_where, closed_chain. apply forallb_Forall in Hg. eapply Forall_impl; [exact Hg|]. intros p. apply tokens_closed.
  - destruct (chain tokens (sq_where q)); [done|]. cbn [where_tokens]. by rewrite free_cons, Hf.
  - destruct (chain tokens (sq_where q)) as [|t ts] eqn:E; [left|right; by eexists]. split; [done|].
    destruct (decide (sq_where q = [])) as [|Hn]; [done|]. by destruct (chain_nonempty tokens (sq_where q) Hn tokens_nonempty).
Qed.

Lemma order_tokens_shape l : (order_words (order_tokens l) = [] /\ l = []) \/
  (order_words (order_tokens l) = str "ORDER" :: str "BY" :: order_tokens l /\ 1 <= length (order_tokens l)).
Proof.
  destruct l as [|p l]; [by left|right]. destruct (order_items_length p l) as [_ H]. split; [|done].
  destruct (order_tokens (p :: l)); [simpl in H; lia|done].
Qed.

Lemma behind_table C O L :
  (C = [] \/ exists r, C = str "WHERE" :: r) -> (O = [] \/ exists r, O = str "ORDER" :: r) ->
  (L = [] \/ exists r, L = str "LIMIT" :: r) ->
  table_alias (C ++ O ++ L) = [] /\ table_sample (C ++ O ++ L) = None.
Proof. intros [->|[r ->]]; [|done]. intros [->|[r ->]]; [|done]. intros [->|[r ->]]; done. Qed.

Lemma parse_full_tokens q s :
  query_ok q = true -> tokenizeFull s = select_tokens q -> forallb (fun p => good p.2) (sq_where q) = true ->
  free ["ORDER"; "LIMIT"] (chain tokens (sq_where q)) = true -> needs_items (column_tokens q) = false ->
  parseSelectFull s = QSelect (command_of q).
Proof.
  intros Hq Hs Hg Hf Hi. destruct (distinct_columns q Hq) as (CA & FA & Hd & Hall & Hagg).
  destruct (clause_tokens_facts q Hg Hf) as (CC & FC & SC).
  assert (forallb ident (sq_cols q) = true /\ ident (sq_table q) = true /\ forallb (fun p => ident p.1) (sq_order q) = true /\
    limit_ok (sq_limit q) = true) as (Hc & Ht & Ho & Hl) by (unfold query_ok in Hq; rewrite !andb_true_iff in Hq; tauto).
  pose proof (item_plain _ (ident_item _ Ht)) as Pt.
  assert (any_of ["FROM"; "WHERE"; "ORDER"; "LIMIT"] (upper (sq_table q)) = false) as Ft by (by apply ident_keyword).
  pose proof (closed_forall _ (order_tokens_plain _ Ho)) as CO. pose proof (closed_forall _ (limit_tokens_plain _ Hl)) as CL.
  pose proof (proj2 (order_words_free ["WHERE"; "LIMIT"] _ eq_refl eq_refl eq_refl Ho)) as FO.
  pose proof (limit_free ["WHERE"; "ORDER"] _ Hl eq_refl eq_refl eq_refl) as FL.
  assert (limit_words (sq_limit q) = [] \/ exists r, limit_words (sq_limit q) = str "LIMIT" :: r) as SL
    by (destruct (sq_limit q) as [[n [m|]]|]; [right; by eexists|right; by eexists|by left]).
  pose proof (order_tokens_shape (sq_order q)) as SO. pose proof (order_tokens_cols _ Ho) as Hcols.
  pose proof (where_tokens_parse _ Hg) as Hw. fold (clause_tokens q) in Hw. pose proof (parseLimit_words _ Hl) as Hlim.
  unfold parseSelectFull. rewrite Hs. unfold select_tokens. rewrite (app_assoc (distinct_words q)).
  set (A := distinct_words q ++ column_tokens q) in *. set (C := clause_tokens q) in *. set (L := limit_words (sq_limit q)) in *.
  set (O := order_words (order_tokens (sq_order q))) in *.
  assert (C = [] \/ exists r, C = str "WHERE" :: r) as SC' by (destruct SC as [[H _]|H]; auto).
  assert (O = [] \/ exists r, O = str "ORDER" :: r) as SO' by (destruct SO as [[H _]|[H _]]; [by left|right; by eexists]).
  rewrite clause_part, (order_part _ _ _ _ _ CA CC CO CL Pt FA FC FO FL Ft SO' SL (order_tokens (sq_order q))) by
    (first [done|destruct SO as [[? ->]|?]; [by left|by right]]).
  rewrite from_pos, limit_pos, ft_limit, ft_behind, ft_columns by done.
  rewrite Hd, Hall, Hagg, Hi, Hlim, Hcols, Hw. unfold column_tokens. rewrite full_cols_commas by done.
  destruct (behind_table C O L) as [-> ->]; [done..|]. unfold command_of, command_with. by destruct (limits (sq_limit q)).
Qed.

(** [C6] From the text of a SELECT on one table to its command.  A query printed for
    the parser its text is sent to - words between single blanks without
    parentheses for the one, tokens in any spacing the lexer reads for the other -
    is read back: DISTINCT, columns, table, order with directions, limit and
    offset, and a clause that says what is written ([says]: its conditions, the
    connective in front of each, its subqueries).  Names consist of letters,
    digits, underscores and dots and are no words of the grammar, and no token of
    the clause is; the clause has one connective in each list of conditions and no
    subquery inside a subquery ([WhereSyntax.last_connective_decides],
    [WhereSyntax.nested_subquery_forgotten]). *)
Theorem select_text_parses q s :
  query_ok q = true -> whole (sq_where q) = true -> spells q s ->
  exists c, parse_select s = QSelect (command_with c q) /\ says (sq_where q) c.
Proof.
  unfold spells, parse_select. intros Hq Hw Hs. exists (clause_of (sq_where q)). split; [|by apply clause_says].
  revert Hs. destruct (route s); try done.
  - intros (Hs%Lexes_tokenizeFull & Hg & Hf & Hi). by apply parse_full_tokens.
  - intros (Hs & Hwd & Hp & Hg & Hf). by apply parse_plain_words.
Qed.

Definition plain_query : SelectQuery :=
  mkQuery true [str "a"; str "t.b"] (str "t")
    [(true, CCmp (str "a") (str ">=") (str "'x, y'") []); (false, CNull false (str "b"))]
    [(str "a", true); (str "b", false)] (Some (10, Some 5))%Z.
Definition plain_text : bytes :=
  str "SELECT DISTINCT a, t.b FROM t WHERE a >= 'x, y' OR b IS NOT NULL ORDER BY a DESC, b LIMIT 10 OFFSET 5".

Definition full_query : SelectQuery := mkQuery false [] (str "people") sample_clause [(str "age", false); (str "id", true)] (Some (3, None))%Z.
Definition full_text : bytes := str "SELECT * FROM people " ++ sample_text ++ str " ORDER BY age,id DESC LIMIT 3".

Lemma full_lexes : Lexes (select_tokens full_query) full_text.
Proof.
  assert (lexable full_text = true) as Hl by (vm_compute; reflexivity).
  destruct (lexable_Lexes _ Hl) as [ts Hts]. rewrite <- (Lexes_tokenizeFull _ _ Hts) in Hts.
  replace (select_tokens full_query) with (tokenizeFull full_text) by (vm_compute; reflexivity). exact Hts.
Qed.

Lemma plain_spells : spells plain_query plain_text.
Proof.
  unfold spells. assert (route plain_text = ToPlain) as -> by (vm_compute; reflexivity).
  split_and!; first [by apply (bool_decide_unpack _); vm_compute|vm_compute; reflexivity].
Qed.
Lemma full_spells : spells full_query full_text.
Proof.
  unfold spells. assert (route full_text = ToFull) as -> by (vm_compute; reflexivity).
  split_and!; first [apply full_lexes|vm_compute; reflexivity].
Qed.

Lemma select_text_parses_witness :
  (exists c, parse_select plain_text = QSelect (command_with c plain_query) /\ says (sq_where plain_query) c) /\
  (exists c, parse_select full_text = QSelect (command_with c full_query) /\ says (sq_where full_query) c) /\
  length (sq_where full_query) = 7.
Proof.
  split; [apply (select_text_parses plain_query); [vm_compute; reflexivity..|apply plain_spells]|].
  split; [apply (select_text_parses full_query); [vm_compute; reflexivity..|apply full_spells]|vm_compute; reflexivity].
Defined.

(** ** What the parsers do with other texts *)

Definition select_of (s : string) : option SelectCommand :=
  match parse_select (str s) with QSelect c => Some c | _ => None end.

(** On the plain path a table with an alias loses its WHERE clause: every row is
    selected.  The other parser knows aliases. *)
Lemma alias_drops_where :
  select_of "SELECT a FROM t u WHERE u.a = 1" = select_of "SELECT a FROM t" /\
  (clause <$> select_of "SELECT a FROM t u WHERE u.a IN ( 1 )") = Some (where_of "WHERE u.a IN (1)").
Proof. split; reflexivity. Qed.

(** A column named like an aggregate is taken for one. *)
Lemma column_named_count : parse_select (str "SELECT count FROM t") = QUnknown.
Proof. reflexivity. Qed.

(** The other parser takes ONLY for the table. *)
Lemma only_is_a_table :
  (tableName <$> select_of "SELECT a FROM ONLY t WHERE a = 1") = Some (str "t") /\
  (tableName <$> select_of "SELECT a FROM ONLY t WHERE a IN (1)") = Some (str "ONLY").
Proof. split; reflexivity. Qed.

(** NOT in front of a comparison ends the clause for one parser and is skipped by
    the other. *)
Lemma not_reads_differently :
  (clause <$> select_of "SELECT a FROM t WHERE NOT a = 1") = Some no_clause /\
  (clause <$> select_of "SELECT a FROM t WHERE NOT a = 1 AND b IN (2)") = (clause <$> select_of "SELECT a FROM t WHERE a = 1 AND b IN (2)").
Proof. split; reflexivity. Qed.
