(* ===== verification/Projection.v ===== *)
(** * The columns of a result ([src/engine/engine.hpp]: [Table::project] and, of
    namespace [milansql_arith], [containsAggCall], [substituteCastCalls],
    [computeAggOverRows], [substituteAggCalls], [evalAggWrappedExpr])

    An item of the select list is a column or the text of an expression.  CAST
    calls are replaced in that text by their value on the row; if any expression
    calls an aggregate the result has one row.  The theorem covers lists of
    columns and printed expression trees. *)

From S2P Require Import Prelude Index BTree Partition Table Arith Where Select Query Columns Triggers Lexer WhereParser WhereSyntax Statements.

(** ** Calls in a text *)

(** [up.find(w, p)] *)
Definition find_from (w up : bytes) (p : nat) : option nat := Nat.add p <$> find_sub w (drop p up).

(** The character in front is not part of a word. *)
Definition left_ok (up : bytes) (p : nat) : bool :=
  match p with O => true | S q => match up !! q with Some c => negb (is_word c) | None => true end end.

(** The parenthesis behind the name and any spaces. *)
Definition open_paren (up : bytes) (k : nat) : option nat :=
  let k := k + length (take_while is_space_char (drop k up)) in
  match up !! k with Some c => if (c =? LPAREN)%Z then Some k else None | None => None end.

(** The distance to the parenthesis that brings the depth to zero. *)
Fixpoint matching (depth i : nat) (s : bytes) : option nat :=
  match s with
  | [] => None
  | c :: s' =>
      if (c =? LPAREN)%Z then matching (S depth) (S i) s'
      else if (c =? RPAREN)%Z then match depth with S (S d) => matching (S d) (S i) s' | _ => Some i end
      else matching depth (S i) s'
  end.

(** The first call of [w] from [p] on that [accept] takes: where it starts, and
    what was accepted.  Each round moves on by the length of the name. *)
Fixpoint find_call {A} (fuel : nat) (accept : nat -> option A) (w up : bytes) (p : nat) : option (nat * A) :=
  match fuel with
  | O => None
  | S f =>
      p ← find_from w up p;
      match (if left_ok up p then open_paren up (p + length w) ≫= accept else None) with
      | Some x => Some (p, x)
      | None => find_call f accept w up (p + length w)
      end
  end.

Definition any_call (w up : bytes) : option (nat * nat) := find_call (S (length up)) Some w up 0.

(** A call whose parenthesis is closed: its start, its opening and its closing one. *)
Definition closed_call (w up : bytes) : option (nat * (nat * nat)) :=
  find_call (S (length up)) (fun k => q ← matching 0 0 (drop k up); Some (k, k + q)) w up 0.

Definition AGGF : list bytes := [str "COUNT"; str "SUM"; str "AVG"; str "MIN"; str "MAX"].
Definition CAST : bytes := str "CAST".

Definition containsAggCall (s : bytes) : bool := existsb (fun w => bool_decide (is_Some (any_call w (upper s)))) AGGF.

(** At most [n] replacements, one after the other. *)
Fixpoint replace_calls (n : nat) (step : bytes -> option bytes) (s : bytes) : bytes :=
  match n with
  | O => s
  | S n' => match step s with Some s' => replace_calls n' step s' | None => s end
  end.

Definition is_tab (c : byte) : bool := ((c =? 32) || (c =? 9))%Z.
Definition trim_tabs (s : bytes) : bytes := strip_back is_tab (drop_while is_tab s).

Section projection.
Context {DB : Double}.
Context (formatNum : dbl -> bytes) (dcount : nat -> dbl).

(** [Eval{cols, vals, s, 0}.run()]; it has a value for every text. *)
Definition eval_text (cs : list Column) (vs : list bytes) (s : bytes) : bytes := default [] (Arith.run cs vs s).

(** *** CAST: the type is not looked at *)

Definition cast_value (cs : list Column) (vs : list bytes) (inner : bytes) : bytes :=
  let valExpr := trim_tabs (match rfind_sub (str " AS ") (upper inner) with Some p => take p inner | None => inner end) in
  if bytes_eqb (upper valExpr) NULL then NULL else eval_text cs vs valExpr.

Definition replace_cast (cs : list Column) (vs : list bytes) (expr : bytes) : option bytes :=
  '(p, (k, q)) ← closed_call CAST (upper expr);
  Some (take p expr ++ cast_value cs vs (take (q - k - 1) (drop (S k) expr)) ++ drop (S q) expr).

Definition substituteCastCalls (cs : list Column) (vs : list bytes) (expr : bytes) : bytes :=
  replace_calls 8 (replace_cast cs vs) expr.

Definition item_text (cs : list Column) (vs : list bytes) (s : bytes) : bytes := eval_text cs vs (substituteCastCalls cs vs s).

(** *** Aggregates inside expressions *)

Definition DISTINCT : bytes := str "DISTINCT".

(** DISTINCT or ALL in front of the argument, with or without a blank behind it. *)
Definition agg_argument (argRaw : bytes) : bool * bytes :=
  let a := trim_tabs argRaw in
  if starts_with DISTINCT (upper a) then (true, trim_tabs (drop 8 a))
  else if starts_with ALL (upper a) then (false, trim_tabs (drop 3 a))
  else (false, a).

(** The values that are not NULL, with DISTINCT each one once. *)
Fixpoint counted (distinct : bool) (seen : list bytes) (vals : list bytes) : list bytes :=
  match vals with
  | [] => []
  | v :: vals' =>
      if bytes_eqb v [] || bytes_eqb v NULL then counted distinct seen vals'
      else if distinct && bool_decide (v ∈ seen) then counted distinct seen vals'
      else v :: counted distinct (v :: seen) vals'
  end.

Definition computeAggOverRows (cs : list Column) (rows : list Row) (func argRaw : bytes) : bytes :=
  let '(distinct, arg) := agg_argument argRaw in
  let live := List.filter alive rows in
  if bytes_eqb func COUNT && bytes_eqb arg (str "*") then to_string (Z.of_nat (length live))
  else
    let value r :=
      match list_find (fun c => c_name c = arg) cs with
      | Some (ci, _) => default [] (values r !! ci)
      | None => item_text cs (values r) arg
      end in
    let vals := counted distinct [] (map value live) in
    if bytes_eqb func COUNT then to_string (Z.of_nat (length vals))
    else agg_numbers formatNum dcount func (omap stod vals).

(** The first name of the list that is called. *)
Fixpoint first_call (ws : list bytes) (up : bytes) : option (bytes * (nat * (nat * nat))) :=
  match ws with
  | [] => None
  | w :: ws' => match closed_call w up with Some c => Some (w, c) | None => first_call ws' up end
  end.

Definition replace_agg (cs : list Column) (rows : list Row) (expr : bytes) : option bytes :=
  '(w, (p, (k, q))) ← first_call AGGF (upper expr);
  Some (take p expr ++ computeAggOverRows cs rows w (take (q - k - 1) (drop (S k) expr)) ++ drop (S q) expr).

Definition substituteAggCalls (cs : list Column) (rows : list Row) (expr : bytes) : bytes :=
  replace_calls 8 (replace_agg cs rows) expr.

Definition evalAggWrappedExpr (cs : list Column) (rows : list Row) (expr : bytes) : bytes :=
  eval_text cs [] (substituteAggCalls cs rows expr).

(** ** [project] *)

(** A column of the table, or an expression. *)
Definition classify (t : Table BTree) (c : bytes) : result (option nat) :=
  match colOf t c with
  | Some ci => Ok (Some ci)
  | None => if looksArith c then Ok None else Throw "SELECT: Spalte nicht gefunden"
  end.

Definition result_column (t : Table BTree) (c : bytes) (ci : option nat) : Column :=
  match ci ≫= (fun i => columns_ t !! i) with
  | Some k => column (c_name k) (c_type k)
  | None => column c (str "TEXT")
  end.

(** The one row of a select list with an aggregate. *)
Definition aggregate_cell (t : Table BTree) (c : bytes) (ci : option nat) : bytes :=
  match ci with
  | Some i => match List.filter alive (rows_ t) with r :: _ => default [] (values r !! i) | [] => [] end
  | None => if containsAggCall c then evalAggWrappedExpr (columns_ t) (rows_ t) c else eval_text (columns_ t) [] c
  end.

Definition row_cell (t : Table BTree) (r : Row) (c : bytes) (ci : option nat) : bytes :=
  match ci with Some i => default [] (values r !! i) | None => item_text (columns_ t) (values r) c end.

Definition cells (f : bytes -> option nat -> bytes) (colNames : list bytes) (cis : list (option nat)) : list bytes :=
  map (fun p => f p.1 p.2) (zip colNames cis).

Definition is_agg_item (p : bytes * option nat) : bool := match p.2 with None => containsAggCall p.1 | Some _ => false end.

Definition project (colNames : list bytes) (t : Table BTree) : result (Table BTree) :=
  match colNames with
  | [] => Ok (clone t)
  | _ =>
      cis ← mapM (classify t) colNames;
      let result := table (name_ t) (map (fun p => result_column t p.1 p.2) (zip colNames cis)) in
      Ok (with_rows result
            (if existsb is_agg_item (zip colNames cis)
             then [row_of (cells (aggregate_cell t) colNames cis)]
             else map (fun r => row_of (cells (row_cell t r) colNames cis)) (List.filter alive (rows_ t))))
  end.
End projection.

(** ** The rows of a projection *)

Section items.
Context {DB : Double}.
Context (formatNum : dbl -> bytes) (dcount : nat -> dbl).

(** A column of the table or an expression. *)
Inductive Item := ItemColumn (c : bytes) (ci : nat) | ItemExpr (e : expr).

Definition item_text_of (i : Item) : bytes := match i with ItemColumn c _ => c | ItemExpr e => show 0 e end.

(** An expression is one for the code: no column, no call of CAST or an aggregate. *)
Definition expr_item (t : Table BTree) (s : bytes) : bool :=
  bool_decide (colOf t s = None) && looksArith s && negb (containsAggCall s) && bool_decide (closed_call CAST (upper s) = None).

Definition item_fits (t : Table BTree) (i : Item) : Prop :=
  match i with
  | ItemColumn c ci => colOf t c = Some ci
  | ItemExpr e => wf_expr e /\ expr_item t (show 0 e) = true
  end.

Definition item_index (i : Item) : option nat := match i with ItemColumn _ ci => Some ci | ItemExpr _ => None end.

(** The value of an item on a row. *)
Definition value_of (t : Table BTree) (r : Row) (i : Item) : bytes :=
  match i with
  | ItemColumn _ ci => default [] (values r !! ci)
  | ItemExpr e => let d := denote (columns_ t) (values r) e in if disnan d then NULL else print d
  end.

Lemma expr_item_facts t s :
  expr_item t s = true -> colOf t s = None /\ looksArith s = true /\ containsAggCall s = false /\ closed_call CAST (upper s) = None.
Proof.
  unfold expr_item. rewrite !andb_true_iff. intros [[[H1 H2] H3%negb_true_iff] H4].
  by apply bool_decide_eq_true in H1, H4.
Qed.

Lemma classify_item t i : item_fits t i -> classify t (item_text_of i) = Ok (item_index i).
Proof.
  unfold classify. destruct i as [c ci|e]; cbn [item_fits item_text_of item_index]; [by intros ->|].
  intros [_ (-> & -> & _)%expr_item_facts]. done.
Qed.

Lemma classify_items t items : Forall (item_fits t) items -> mapM (classify t) (map item_text_of items) = Ok (map item_index items).
Proof.
  induction 1 as [|i items Hi _ IH]; [done|]. cbn [map]. change (mapM (classify t) (?a :: ?l)) with (y ← classify t a; k ← mapM (classify t) l; mret (y :: k)).
  rewrite classify_item by done. cbn [mbind result_bind]. by rewrite IH.
Qed.

Lemma item_text_expr t r e : item_fits t (ItemExpr e) -> item_text (columns_ t) (values r) (show 0 e) = value_of t r (ItemExpr e).
Proof.
  intros [W (_ & _ & _ & H)%expr_item_facts]. unfold item_text, substituteCastCalls. cbn [replace_calls].
  unfold replace_cast at 1. rewrite H. cbn [mbind option_bind]. unfold eval_text, Arith.run.
  by destruct (sum_show (columns_ t) (values r) e W) as [rest ->].
Qed.

Lemma zip_map {A B C} (f : A -> B) (g : A -> C) l : zip (map f l) (map g l) = map (fun x => (f x, g x)) l.
Proof. induction l as [|x l IH]; [done|]. cbn. by rewrite IH. Qed.

(** [C26] Every live row gives one row: of a column its cell, of an expression the value
    of its tree on that row, products before sums and NULL for what is no number,
    in the order of the table. *)
Theorem project_items t items :
  items <> [] -> Forall (item_fits t) items ->
  exists t', project formatNum dcount (map item_text_of items) t = Ok t' /\
    columns_ t' = map (fun i => result_column t (item_text_of i) (item_index i)) items /\
    rows_ t' = map (fun r => row_of (map (value_of t r) items)) (List.filter alive (rows_ t)).
Proof.
  intros Hne H. unfold project. destruct (map item_text_of items) eqn:E; [by destruct items|]. rewrite <- E. clear E.
  rewrite classify_items by done. cbn [mbind result_bind]. rewrite zip_map, map_map.
  assert (existsb is_agg_item (map (fun i => (item_text_of i, item_index i)) items) = false) as ->.
  { apply not_true_iff_false. intros ([c ci] & Hin & Ha)%existsb_exists. apply in_map_iff in Hin as (i & [= <- <-] & Hi).
    rewrite Forall_forall in H. apply list_elem_of_In in Hi. specialize (H i Hi). destruct i as [c ci|e]; [done|].
    destruct H as [_ (_ & _ & Hn & _)%expr_item_facts]. change (containsAggCall (show 0 e) = true) in Ha. by rewrite Hn in Ha. }
  eexists. split; [reflexivity|]. split; [done|]. cbn [rows_ with_rows]. apply map_ext_in. intros r _. f_equal.
  unfold cells. rewrite zip_map, map_map. apply map_ext_in. intros i Hi%list_elem_of_In. rewrite Forall_forall in H.
  specialize (H i Hi). destruct i as [c ci|e]; [done|]. by apply item_text_expr.
Qed.

(** Columns alone. *)
Lemma project_columns cols cis t :
  cols <> [] -> mapM (colOf t) cols = Some cis ->
  exists t', project formatNum dcount cols t = Ok t' /\
    rows_ t' = map (fun r => row_of (map (fun ci => default [] (values r !! ci)) cis)) (List.filter alive (rows_ t)).
Proof.
  intros Hne Hc. unfold project. destruct cols as [|c0 cols0]; [done|]. set (cols := c0 :: cols0) in *. clearbody cols. clear Hne.
  assert (mapM (classify t) cols = Ok (map Some cis) /\ length cis = length cols) as [-> Hl].
  { revert cis Hc. induction cols as [|c cols IH]; intros cis Hc; [by injection Hc as <-|].
    change (mapM (colOf t) (c :: cols)) with (y ← colOf t c; k ← mapM (colOf t) cols; mret (y :: k)) in Hc.
    destruct (colOf t c) as [ci|] eqn:E; [|done]. cbn [mbind option_bind] in Hc. destruct (mapM (colOf t) cols) as [cis'|] eqn:E2; [|done].
    injection Hc as <-. destruct (IH cis' eq_refl) as [IH1 IH2]. split; [|simpl; by rewrite IH2].
    change (mapM (classify t) (c :: cols)) with (y ← classify t c; k ← mapM (classify t) cols; mret (y :: k)).
    assert (classify t c = Ok (Some ci)) as -> by (unfold classify; by rewrite E). cbn [mbind result_bind]. by rewrite IH1. }
  cbn [mbind result_bind]. assert (existsb is_agg_item (zip cols (map Some cis)) = false) as ->.
  { clear. revert cis. induction cols as [|c cols IH]; intros [|ci cis]; try done. cbn. apply IH. }
  eexists. split; [reflexivity|]. cbn [rows_ with_rows]. apply map_ext_in. intros r _. f_equal. unfold cells.
  clear -Hl. revert cis Hl. induction cols as [|c cols IH]; intros [|ci cis] Hl; try done. cbn. f_equal. apply IH. by injection Hl.
Qed.
End items.

(** ** Examples *)

Section examples.
#[local] Existing Instance IntDouble.

Abbreviation ex_project := (project print int_count).

Definition ex_sales : Table BTree := plain_table ["a"; "b"; "allowed"] [["7"; "2"; "1"]; ["NULL"; "3"; "1"]].

Definition sales_items : list Item :=
  [ItemColumn (str "b") 1; ItemExpr (Bin Plus (Name (str "a")) (Bin Times (Num (str "2")) (Name (str "b"))))].

Definition cells_of (r : result (Table BTree)) : result (list (list bytes)) := t ← r; Ok (map values (rows_ t)).
Definition select_list (l : list string) : result (list (list bytes)) := cells_of (ex_project (map str l) ex_sales).

Lemma project_items_witness :
  select_list ["b"; "a + 2 * b"] = Ok [[str "2"; str "11"]; [str "3"; str "NULL"]] /\
  exists t', ex_project (map item_text_of sales_items) ex_sales = Ok t' /\
    columns_ t' = map (fun i => result_column ex_sales (item_text_of i) (item_index i)) sales_items /\
    rows_ t' = map (fun r => row_of (map (value_of ex_sales r) sales_items)) (List.filter alive (rows_ ex_sales)).
Proof.
  split; [vm_compute; reflexivity|]. apply project_items; [done|]. repeat apply Forall_cons_2; [vm_compute; reflexivity| |constructor].
  split; [|vm_compute; reflexivity]. repeat split; try (by vm_compute); try by_decide.
Defined.

(** ** What the texts of other items give *)

(** An aggregate inside an expression makes one row of the result. *)
Lemma aggregate_in_expression : select_list ["COUNT(*) * 10 + SUM(b)"] = Ok [[str "25"]].
Proof. vm_compute. reflexivity. Qed.

(** ALL is cut off from the name of a column that starts with it, and what is left
    is unknown and counts as zero: the sum of the ones is 0. *)
Lemma all_in_column_name : select_list ["SUM(allowed) * 1"] = Ok [[str "0"]] /\ select_list ["SUM(b) * 1"] = Ok [[str "5"]].
Proof. split; vm_compute; reflexivity. Qed.

(** A CAST inside a CAST is an unknown name to the evaluator. *)
Lemma nested_cast_is_zero :
  select_list ["CAST(b AS INT) + 1"] = Ok [[str "3"]; [str "4"]] /\
  select_list ["CAST(CAST(b AS INT) AS INT) + 1"] = Ok [[str "1"]; [str "1"]].
Proof. split; vm_compute; reflexivity. Qed.

(** An unknown column inside an expression is zero, alone it is an error. *)
Lemma unknown_column_is_zero :
  select_list ["c + 1"] = Ok [[str "1"]; [str "1"]] /\ select_list ["c"] = Throw "SELECT: Spalte nicht gefunden".
Proof. split; vm_compute; reflexivity. Qed.
End examples.
