(* ===== verification/Queries.v ===== *)
(** * SELECT from its text to the answer ([src/dispatch.hpp]: the SELECT case of
    [dispatchCommand] for one base table, [dispatch_executeSelectToTable],
    [dispatch_sortWithVector], [dispatch_printTable]; [src/engine/engine.hpp]:
    [selectAllFiltered], [countWhere], [subqueryValues], [acquireForUpdateLocks])

    A query is executed in two places.  The console prints its answer; the
    servers of the wire protocols get a table.  The answer of a printed query is
    shown to be what the query says, and the two places to agree on queries
    without the special cases listed at the end, where they do not.
    Queries on views, foreign tables, common table expressions and system
    catalogs branch off in front of this pipeline and are not modelled; neither
    are window functions, UNNEST and the functions of the select list, whose
    projection is a parameter, and optimizer hints. *)

From S2P Require Import Prelude Index BTree Partition Table Mvcc Locks Wal Transaction Joins Arith Where Select Query Rewriter Columns Triggers Mutation Integrity Lexer WhereParser WhereSyntax Statements SelectParser SelectSyntax Projection.

(** ** Printing *)

(** The outer quotes of a text are left out. *)
Definition displayVal (v : bytes) : bytes :=
  match v with
  | c :: v' => match rev v' with d :: w => if (c =? QUOTE)%Z && (d =? QUOTE)%Z then rev w else v | [] => v end
  | [] => v
  end.

(** An offset beyond the last row is no offset. *)
Definition start_row (offset : Z) (total : nat) : nat :=
  if ((0 <? offset) && (offset <? Z.of_nat total))%Z then Z.to_nat offset else 0.
Definition print_rows (limit : Z) (remaining : nat) : nat :=
  if ((0 <=? limit) && (limit <? Z.of_nat remaining))%Z then Z.to_nat limit else remaining.

Definition shown_rows {A} (limit offset : Z) (rows : list A) : list A :=
  let start := start_row offset (length rows) in
  take (print_rows limit (length rows - start)) (drop start rows).

(** The characters of the frame in UTF-8. *)
Definition glyph (c : Z) : bytes := [226; 148; c]%Z.
Definition BAR : bytes := glyph 130.
Definition DASH : bytes := glyph 128.
Definition NEWLINE : bytes := [10%Z].

Definition pad (s : bytes) (w : nat) : bytes := s ++ replicate (w - length s) SPACE.

Definition hline (l m r : bytes) (widths : list nat) : bytes :=
  l ++ joined m (map (fun w => mjoin (replicate (w + 2) DASH)) widths) ++ r ++ NEWLINE.

Definition text_line (cells : list bytes) (widths : list nat) : bytes :=
  BAR ++ mjoin (map (fun p => SPACE :: pad p.1 p.2 ++ SPACE :: BAR) (zip cells widths)) ++ NEWLINE.

Definition cell_text (r : Row) (i : nat) : bytes := displayVal (default [] (values r !! i)).

(** The width of a column: that of its name and of the values it shows. *)
Definition width (rows : list Row) (i : nat) (c : Column) : nat :=
  max_list (length (c_name c) :: omap (fun r => v ← values r !! i; Some (length (displayVal v))) rows).

Definition count_line (limit offset : Z) (total : nat) (shown start : nat) : bytes :=
  str "  " ++ to_string (Z.of_nat shown) ++
  (if ((0 <=? limit) || (0 <? offset))%Z then
     str " von " ++ to_string (Z.of_nat total) ++ str " Zeile(n)" ++
     (if (0 <? offset)%Z then str " (OFFSET " ++ to_string (Z.of_nat start) ++ str ")" else []) ++
     (if (0 <=? limit)%Z then str " (LIMIT " ++ to_string limit ++ str ")" else [])
   else str " Zeile(n)") ++ NEWLINE ++ NEWLINE.

Definition printTable (t : Table BTree) (limit offset : Z) : bytes :=
  match columns_ t with
  | [] => str "  (Tabelle hat keine Spalten)" ++ NEWLINE
  | cols =>
      let rows := shown_rows limit offset (rows_ t) in
      let widths := imap (width rows) cols in
      hline (glyph 140) (glyph 172) (glyph 144) widths ++
      text_line (map c_name cols) widths ++
      hline (glyph 156) (glyph 188) (glyph 164) widths ++
      mjoin (map (fun r => text_line (imap (fun i _ => cell_text r i) cols) widths) rows) ++
      hline (glyph 148) (glyph 180) (glyph 152) widths ++
      count_line limit offset (length (rows_ t)) (length rows) (start_row offset (length (rows_ t)))
  end.

Example print_ex :
  printTable (plain_table ["a"; "bc"] [["'x'"; "2"]; ["333"; "4"]]) (-1) 0 =
    glyph 140 ++ mjoin (replicate 5 DASH) ++ glyph 172 ++ mjoin (replicate 4 DASH) ++ glyph 144 ++ NEWLINE ++
    BAR ++ str " a   " ++ BAR ++ str " bc " ++ BAR ++ NEWLINE ++
    glyph 156 ++ mjoin (replicate 5 DASH) ++ glyph 188 ++ mjoin (replicate 4 DASH) ++ glyph 164 ++ NEWLINE ++
    BAR ++ str " x   " ++ BAR ++ str " 2  " ++ BAR ++ NEWLINE ++
    BAR ++ str " 333 " ++ BAR ++ str " 4  " ++ BAR ++ NEWLINE ++
    glyph 148 ++ mjoin (replicate 5 DASH) ++ glyph 180 ++ mjoin (replicate 4 DASH) ++ glyph 152 ++ NEWLINE ++
    str "  2 Zeile(n)" ++ NEWLINE ++ NEWLINE.
Proof. vm_compute. reflexivity. Qed.

(** ** Reading a table *)

(** A distance of vectors to sort by. *)
Definition is_vector_order (p : bytes * bool) : bool := (9 <? length p.1) && bytes_eqb (take 9 p.1) (str "__vecop__").

(** The list of a condition, whatever its flags. *)
Definition set_inList (vs : list bytes) (c : WhereCondition) : WhereCondition :=
  let set c := mkCmp (col c) (op c) (val c) vs (betweenLow c) (betweenHigh c) in
  match c with Simple c => Simple (set c) | FuncLhs e c => FuncLhs e (set c) | _ => c end.

(** The first row of each key. *)
Fixpoint first_keys (key : Row -> bytes) (seen : list bytes) (rs : list Row) : list Row :=
  match rs with
  | [] => []
  | r :: rs' => if bool_decide (key r ∈ seen) then first_keys key seen rs' else r :: first_keys key (key r :: seen) rs'
  end.

(** The values of the named columns, each with a byte 1 behind it; unknown
    columns add nothing. *)
Definition distinct_key (cs : list Column) (cols : list bytes) (r : Row) : bytes :=
  mjoin (map (fun c => match list_find (fun k => c_name k = c) cs with
                       | Some (ci, _) => default [] (values r !! ci) ++ [1%Z]
                       | None => []
                       end) cols).

(** The generator of TABLESAMPLE: 32 bits, of which 24 are compared. *)
Definition next_seed (s : Z) : Z := ((s * 1664525 + 1013904223) mod 2 ^ 32)%Z.
Fixpoint sample_rows (below : Z -> bool) (seed : Z) (rs : list Row) : list Row :=
  match rs with
  | [] => []
  | r :: rs' =>
      let s := next_seed seed in
      (if below (Z.shiftr s 8) then [r] else []) ++ sample_rows below s rs'
  end.

(** The rows behind the offset, as many as the limit. *)
Definition limit_rows (limit offset : Z) (rows : list Row) : list Row := take (Z.to_nat limit) (drop (Z.to_nat offset) rows).

(** What the console does with a query on one table. *)
Inductive Answer :=
| AggregateOf (v : bytes)
| CountOf (n : nat)
| NoneFound (usedIndex : bool)
| NotLocked (rowKey : bytes)
| Printed (t : Table BTree) (limit offset : Z) (found : option (bool * nat)).

Section queries.
Context {DB : Double} {SS : StdSort}.
Context (regex_search : bytes -> bytes -> option bool).
Context (evalExprStr : bytes -> list Column -> list bytes -> bytes).
Context (match_against : list bytes -> bytes -> bytes -> list Column -> list bytes -> bool).
Context (formatNum : dbl -> bytes) (dcount : nat -> dbl).
Context (g_indexPathAdvisor : bytes -> list WhereCondition -> bool).
Context (evaluateRlsExpr_ : bytes -> Row -> list bytes -> bool).
(** Functions, CASE and window functions in the select list, distances of
    vectors in ORDER BY, and the comparison of TABLESAMPLE's floats: [None] if
    the number is not between 0 and 100. *)
Context (projectWithItems : list bytes -> Table BTree -> result (Table BTree)).
Context (applyVectorOrderBy : list (bytes * bool) -> Table BTree -> result (Table BTree)).
Context (percent_test : bytes -> option (Z -> bool)).
Context (thread : Z) (workers threshold fuel : nat) (rewriting : bool).

Abbreviation rowMatches db := (Where.rowMatches regex_search evalExprStr match_against formatNum dcount (Select.tables_ db)).
Abbreviation selectWhere :=
  (Select.selectWhere regex_search evalExprStr match_against formatNum dcount g_indexPathAdvisor evaluateRlsExpr_).
Abbreviation project := (Projection.project formatNum dcount).

(** What a SELECT reads of the engine. *)
Definition reading (e : Mutation.Engine) : Select.Engine :=
  Select.mkEngine (tables e) (tableChildren_ e) (partitionMeta_ e) (rlsEnabled_ e) (rlsPolicies_ e) (currentUser_ e) workers threshold.

(** *** Of the engine *)

(** All rows of the table, dead ones included where no policy filters them. *)
Definition selectAllFiltered (db : Select.Engine) (key : bytes) (fromOnly : bool) : result (Table BTree) :=
  match Select.partitionMeta_ db !! key with
  | Some (mkPartitionInfo _ _ _ _ _ true _ as pi) =>
      merged ← selectPartitioned regex_search evalExprStr match_against formatNum dcount db key pi [] AND;
      Ok (with_rows (clone merged) (applyRls_ evaluateRlsExpr_ db key (rows_ merged) SELECT))
  | _ =>
      src ← getTable (Select.tables_ db) key;
      let result := with_rows (clone src) (applyRls_ evaluateRlsExpr_ db key (rows_ src) SELECT) in
      Ok (if fromOnly then result
          else collectInheritedRows_ regex_search fuel db key (length (columns_ src)) [] [] AND true result)
  end.

(** With or without conditions. *)
Definition fetch (db : Select.Engine) (key : bytes) (conds : list WhereCondition) (logic : bytes) (fromOnly : bool)
  : result (Table BTree * bool) :=
  match conds with
  | [] => t ← selectAllFiltered db key fromOnly; Ok (t, false)
  | _ => selectWhere fuel db key conds logic fromOnly
  end.

Definition countWhere (db : Select.Engine) (key : bytes) (conds : list WhereCondition) (logic : bytes) (fromOnly : bool)
  : result nat :=
  match conds with
  | [] => countRows fuel db key fromOnly
  | _ => '(t, _) ← selectWhere fuel db key conds logic fromOnly; Ok (length (rows_ t))
  end.

(** The values of a column, of dead rows too. *)
Fixpoint sub_values (test : Row -> result bool) (ci : nat) (rs : list Row) : result (list bytes) :=
  match rs with
  | [] => Ok []
  | r :: rs' =>
      b ← test r; vs ← sub_values test ci rs';
      Ok (if (b : bool) then option_list (values r !! ci) ++ vs else vs)
  end.

Definition subqueryValues (db : Select.Engine) (key col : bytes) (conds : list WhereCondition) (logic : bytes)
  : result (list bytes) :=
  src ← getTable (Select.tables_ db) key;
  ci ← colIdx (columns_ src) col;
  sub_values (fun r => rowMatches db src r conds logic) ci (rows_ src).

(** The subqueries of IN fill their lists, one after the other. *)
Fixpoint resolve_subqueries (e : Mutation.Engine) (sqs : list SubquerySpec) (conds : list WhereCondition)
  : result (list WhereCondition) :=
  match sqs with
  | [] => Ok conds
  | sq :: sqs' =>
      match conds !! condIdx sq with
      | Some c =>
          vs ← subqueryValues (reading e) (resolveTableName (session e) (tables e) (WhereParser.sq_table sq))
                 (WhereParser.sq_col sq) (WhereParser.sq_where sq) (sq_logic sq);
          resolve_subqueries e sqs' (<[condIdx sq := set_inList vs c]> conds)
      | None => resolve_subqueries e sqs' conds
      end
  end.

(** FOR UPDATE locks the rows by their first value; at the first that is taken
    the locks so far stay. *)
Fixpoint acquireForUpdateLocks (tbl : bytes) (rs : list Row) (s : LockManager) : option bytes * LockManager :=
  match rs with
  | [] => (None, s)
  | r :: rs' =>
      match values r with
      | [] => acquireForUpdateLocks tbl rs' s
      | v :: _ =>
          let '(ok, s) := acquireRowLock thread tbl v s in
          if ok then acquireForUpdateLocks tbl rs' s else (Some v, s)
      end
  end.

(** *** Shaping the result *)

Definition sortWithVector (cols : list (bytes * bool)) (t : Table BTree) : result (Table BTree) :=
  match cols with
  | [] => Ok t
  | _ => if existsb is_vector_order cols then applyVectorOrderBy cols t else sortByMulti cols t
  end.

Definition project_if (cols : list bytes) (t : Table BTree) : result (Table BTree) :=
  match cols with [] => Ok t | _ => project cols t end.

(** Functions are computed before the rows are sorted, columns are chosen after. *)
Definition shape (cmd : SelectCommand) (t : Table BTree) : result (Table BTree) :=
  t ← match itemTokens cmd with
      | Some items => t ← projectWithItems items t; sortWithVector (orderByCols cmd) t
      | None => t ← sortWithVector (orderByCols cmd) t; project_if (selectColumns cmd) t
      end;
  Ok (if isDistinct cmd then makeDistinct t else t).

(** *** The console *)

Definition rewritten (c : Clause) (conds : list WhereCondition) : list WhereCondition :=
  rewrite_clause rewriting conds (whereLogic c).

Definition dispatch_select (fu : bool) (cmd : SelectCommand) (conds : list WhereCondition) : M Answer :=
  let raw := SelectParser.tableName cmd in
  let logic := whereLogic (clause cmd) in
  _ ← checkPrivilege SELECT raw;
  key ← resolved raw;
  db ← gets reading;
  match aggregate cmd with
  | Some (f, c) =>
      v ← lift (computeAggregate regex_search evalExprStr match_against formatNum dcount db key f c conds logic);
      mret (AggregateOf v)
  | None =>
      if isCount cmd then n ← lift (countWhere db key conds logic (fromOnly cmd)); mret (CountOf n)
      else
        '(t, used) ← lift (fetch db key conds logic (fromOnly cmd));
        s ← gets (fun e => locks_ (core e));
        let '(taken, s) := if fu then acquireForUpdateLocks key (rows_ t) s else (None, s) in
        _ ← (if fu then modify (fun e => with_core (set_locks s (core e)) e) else mret ());
        match taken with
        | Some v => mret (NotLocked v)
        | None =>
            if (length (rows_ t) =? 0) && negb (bool_decide (conds = [])) then mret (NoneFound used)
            else
              t' ← lift (shape cmd t);
              mret (Printed t' (limit cmd) (limitOffset cmd)
                      (if bool_decide (conds = []) then None else Some (used, length (rows_ t))))
        end
  end.

(** From the text: [None] for the queries that other parts answer. *)
Definition execute_select (inputRaw : bytes) : M (option Answer) :=
  let p := parse_query inputRaw in
  match query p with
  | QSelect cmd =>
      if bytes_eqb (outfile p) [] then
        e ← gets id;
        conds ← lift (resolve_subqueries e (subqueries (clause cmd)) (whereConds (clause cmd)));
        a ← dispatch_select (forUpdate p) cmd (rewritten (clause cmd) conds);
        mret (Some a)
      else mret None
  | _ => mret None
  end.

(** *** The wire protocols *)

Definition sampled (cmd : SelectCommand) (t : Table BTree) : result (Table BTree) :=
  match sample cmd ≫= percent_test with
  | Some below => insert_all (table (name_ t) (columns_ t)) (sample_rows below 12345 (rows_ t))
  | None => Ok t
  end.

Definition distinct_on (cmd : SelectCommand) (t : Table BTree) : result (Table BTree) :=
  match distinctOnCols cmd with
  | [] => Ok t
  | cols => insert_all (table (name_ t) (columns_ t)) (first_keys (distinct_key (columns_ t) cols) [] (rows_ t))
  end.

Definition limited (cmd : SelectCommand) (t : Table BTree) : result (Table BTree) :=
  if (0 <=? limit cmd)%Z
  then insert_all (table (name_ t) (columns_ t)) (limit_rows (limit cmd) (limitOffset cmd) (rows_ t))
  else Ok t.

(** No privilege is asked for, ONLY is not looked at, and neither are aggregates
    and COUNT, whose select list is empty.  The test of column privileges there
    ([isColumnAllowed]) is a stub that allows every column. *)
Definition executeSelectToTable (e : Mutation.Engine) (cmd : SelectCommand) : result (Table BTree) :=
  conds ← resolve_subqueries e (subqueries (clause cmd)) (whereConds (clause cmd));
  let key := resolveTableName (session e) (tables e) (SelectParser.tableName cmd) in
  '(t, _) ← fetch (reading e) key conds (whereLogic (clause cmd)) false;
  t ← sampled cmd t;
  t ← distinct_on cmd t;
  t ← shape cmd t;
  limited cmd t.

Definition select_over_wire (e : Mutation.Engine) (inputRaw : bytes) : option (result (Table BTree)) :=
  match query (parse_query inputRaw) with QSelect cmd => Some (executeSelectToTable e cmd) | _ => None end.
End queries.

(** ** What a query means *)

(** The values a query gives for the rows it selects, in their order. *)
Definition result_values (q : SelectQuery) (cis : list nat) (rows : list Row) : list (list bytes) :=
  let vs := match sq_cols q with
            | [] => map values rows
            | _ => map (fun r => map (fun ci => cell ci r) cis) rows
            end in
  if sq_distinct q then firsts [] vs else vs.

(** DISTINCT keeps the first of equal rows. *)
Lemma distinct_rows_values seen rs :
  map values (distinct_rows seen rs) = firsts seen (map values (List.filter alive rs)).
Proof.
  revert seen. induction rs as [|r rs IH]; intros seen; [done|]. cbn [distinct_rows List.filter].
  destruct (alive r); cbn [negb]; [|apply IH]. cbn [map firsts]. case_bool_decide; [apply IH|]. cbn [map]. by rewrite IH.
Qed.

Lemma filter_alive_all (rs : list Row) : Forall (fun r => alive r = true) rs -> List.filter alive rs = rs.
Proof. intros H. apply forallb_filter_id, forallb_Forall, H. Qed.

Lemma row_of_alive (f : Row -> list bytes) rs : Forall (fun r => alive r = true) (map (fun r => row_of (f r)) rs).
Proof. apply Forall_map, Forall_true. done. Qed.

(** The window of a query whose offset is inside the result. *)
Lemma shown_window {A} n m (rows : list A) :
  (0 <= n)%Z -> (0 <= m)%Z -> (m = 0 \/ m < Z.of_nat (length rows))%Z ->
  shown_rows n m rows = take (Z.to_nat n) (drop (Z.to_nat m) rows).
Proof.
  intros Hn Hm Hb. unfold shown_rows. assert (start_row m (length rows) = Z.to_nat m) as ->.
  { unfold start_row. destruct (Z.ltb_spec 0 m); [|simpl; lia]. destruct (Z.ltb_spec m (Z.of_nat (length rows))); simpl; lia. }
  unfold print_rows. rewrite (proj2 (Z.leb_le 0 n)) by lia. cbn [andb].
  destruct (Z.ltb_spec n (Z.of_nat (length rows - Z.to_nat m))); [done|].
  rewrite !take_ge; [done|..]; rewrite length_drop; lia.
Qed.

Lemma shown_all {A} (rows : list A) : shown_rows (-1) 0 rows = rows.
Proof. unfold shown_rows, start_row, print_rows. cbn. rewrite Nat.sub_0_r. by rewrite firstn_all. Qed.

Lemma shown_map {A B} (f : A -> B) n m rows : map f (shown_rows n m rows) = shown_rows n m (map f rows).
Proof. unfold shown_rows. by rewrite length_map, skipn_map, firstn_map. Qed.

(** Nothing of the text is cut off. *)
Lemma parse_query_undisturbed s : undisturbed s = true -> parse_query s = mkPrepared [] [] false (parse_select s).
Proof.
  unfold undisturbed, parse_query. rewrite !andb_true_iff. intros [[H1 H2] H3].
  unfold bytes_eqb in H1. apply bool_decide_eq_true in H1, H2. rewrite H1. unfold cut_outfile. rewrite H2.
  apply negb_true_iff in H3. revert H3. unfold cut_for_update. by destruct (_ && _).
Qed.

Section answers.
Context {DB : Double} {DO : DoubleOrder DB} {SS : StdSort}.
Context (regex_search : bytes -> bytes -> option bool).
Context (evalExprStr : bytes -> list Column -> list bytes -> bytes).
Context (match_against : list bytes -> bytes -> bytes -> list Column -> list bytes -> bool).
Context (formatNum : dbl -> bytes) (dcount : nat -> dbl).
Context (g_indexPathAdvisor : bytes -> list WhereCondition -> bool).
Context (evaluateRlsExpr_ : bytes -> Row -> list bytes -> bool).
Context (projectWithItems : list bytes -> Table BTree -> result (Table BTree)).
Context (applyVectorOrderBy : list (bytes * bool) -> Table BTree -> result (Table BTree)).
Context (percent_test : bytes -> option (Z -> bool)).
Context (thread : Z) (workers threshold fuel : nat) (rewriting : bool).

Abbreviation scan_query := (Select.scan_query regex_search evalExprStr match_against formatNum dcount g_indexPathAdvisor).
Abbreviation fetch :=
  (Queries.fetch regex_search evalExprStr match_against formatNum dcount g_indexPathAdvisor evaluateRlsExpr_ fuel).
Abbreviation resolve_subqueries :=
  (Queries.resolve_subqueries regex_search evalExprStr match_against formatNum dcount workers threshold).
Abbreviation sortWithVector := (Queries.sortWithVector applyVectorOrderBy).
Abbreviation shape := (Queries.shape formatNum dcount projectWithItems applyVectorOrderBy).
Abbreviation execute_select :=
  (Queries.execute_select regex_search evalExprStr match_against formatNum dcount g_indexPathAdvisor evaluateRlsExpr_
     projectWithItems applyVectorOrderBy thread workers threshold fuel rewriting).
Abbreviation dispatch_select :=
  (Queries.dispatch_select regex_search evalExprStr match_against formatNum dcount g_indexPathAdvisor evaluateRlsExpr_
     projectWithItems applyVectorOrderBy thread workers threshold fuel).
Abbreviation executeSelectToTable :=
  (Queries.executeSelectToTable regex_search evalExprStr match_against formatNum dcount g_indexPathAdvisor evaluateRlsExpr_
     projectWithItems applyVectorOrderBy percent_test workers threshold fuel).
Abbreviation reading := (Queries.reading workers threshold).

(** The rows a query on a base table starts from. *)
Lemma fetch_matches db key src conds logic v :
  scan_query db key src conds logic false v -> (conds = [] -> Forall (fun r => alive r = true) (rows_ src)) ->
  exists t, fetch db key conds logic false = Ok (t, false) /\ columns_ t = columns_ src /\
    rows_ t = List.filter (fun r => alive r && v r) (rows_ src).
Proof.
  intros Q Hl. destruct conds as [|c conds].
  - specialize (Hl eq_refl). unfold Queries.fetch, selectAllFiltered. rewrite (q_unpartitioned _ _ _ _ _ _ _ _ _ _ _ _ _ Q).
    unfold getTable. rewrite (q_table _ _ _ _ _ _ _ _ _ _ _ _ _ Q). cbn [mbind result_bind]. rewrite collect_none by apply Q.
    eexists. split; [reflexivity|]. split; [done|]. cbn [rows_ with_rows]. unfold applyRls_. rewrite (q_exempt _ _ _ _ _ _ _ _ _ _ _ _ _ Q).
    symmetry. apply forallb_filter_id, forallb_forall. intros r Hr%list_elem_of_In. rewrite Forall_forall in Hl.
    pose proof (q_verdict _ _ _ _ _ _ _ _ _ _ _ _ _ Q r Hr (Hl r Hr)) as [= <-]. by rewrite (Hl r Hr).
  - by apply scan_where.
Qed.

(** ORDER BY on columns that hold only numbers or none. *)
Lemma sort_rows cols idx (t : Table BTree) :
  existsb is_vector_order cols = false -> order_columns (columns_ t) cols = Ok idx ->
  Forall (fun p => uniform_column (rows_ t) p.1) idx ->
  exists t', sortWithVector cols t = Ok t' /\ columns_ t' = columns_ t /\ rows_ t' ≡ₚ rows_ t /\
    StronglySorted (fun a b => ~ lex_before idx b a) (rows_ t').
Proof.
  intros Hv Ho Hu. pose proof (row_lt_weak (rows_ t) idx Hu) as Hw.
  assert (forall l, ordered (row_lt idx) l -> StronglySorted (fun a b => ~ lex_before idx b a) l) as Hs.
  { intros l H. induction H as [|a l _ IH Ha]; constructor; [done|]. eapply Forall_impl; [exact Ha|].
    intros b. cbv beta. by rewrite <- row_lt_before, not_true_iff_false. }
  assert (idx = [] -> StronglySorted (fun a b => ~ lex_before idx b a) (rows_ t)) as Hn.
  { intros ->. clear. induction (rows_ t) as [|r rs IH]; [apply SSorted_nil|]. apply SSorted_cons; [done|]. apply Forall_forall. by intros x _ []. }
  unfold Queries.sortWithVector. destruct cols as [|p cols]; [exists t; injection Ho as <-; auto|].
  rewrite Hv. unfold sortByMulti. rewrite Ho. cbn [mbind result_bind]. case_bool_decide as E.
  - exists t. auto.
  - eexists. split_and!; [reflexivity|done|by apply std_sort_perm|by apply Hs, std_sort_ordered].
Qed.

(** Projection and DISTINCT on live rows. *)
Lemma shape_values q cis (t t' : Table BTree) cl :
  sortWithVector (sq_order q) t = Ok t' -> columns_ t' = columns_ t -> mapM (colOf t) (sq_cols q) = Some cis ->
  Forall (fun r => alive r = true) (rows_ t') ->
  exists t2, shape (mkSelect (sq_table q) [] false (sq_distinct q) [] (sq_cols q) None false None cl (sq_order q)
      (limits (sq_limit q)).1 (limits (sq_limit q)).2 (-1) None) t = Ok t2 /\
    map values (rows_ t2) = result_values q cis (rows_ t').
Proof.
  intros Hs Hc Hm Ha. unfold Queries.shape. cbn [itemTokens orderByCols selectColumns isDistinct]. rewrite Hs. cbn [mbind result_bind].
  assert (mapM (colOf t') (sq_cols q) = Some cis) as Hm' by (unfold colOf in *; by rewrite Hc).
  assert (exists t2, project_if formatNum dcount (sq_cols q) t' = Ok t2 /\ Forall (fun r => alive r = true) (rows_ t2) /\
    map values (rows_ t2) = match sq_cols q with [] => map values (rows_ t') | _ => map (fun r => map (fun ci => cell ci r) cis) (rows_ t') end)
    as (t2 & -> & Hl & Hv).
  { destruct (sq_cols q) as [|c cols] eqn:E; [by exists t'|]. rewrite <- E in *.
    destruct (project_columns formatNum dcount (sq_cols q) cis t') as (t2 & H1 & H2); [by rewrite E|done|].
    exists t2. rewrite E in *. split; [exact H1|]. rewrite H2, filter_alive_all by done. split; [apply row_of_alive|].
    by rewrite map_map. }
  cbn [mbind result_bind]. eexists. split; [reflexivity|]. unfold result_values. destruct (sq_distinct q); [|done].
  unfold makeDistinct. cbn [rows_ with_rows]. by rewrite distinct_rows_values, filter_alive_all, Hv.
Qed.
(** What the theorem assumes of a query and the engine: the query may read its
    table, whose rows it scans (see [scan_query]) by the verdict [v]; its columns
    exist and those it sorts by are uniform on the selected rows. *)
Record answerable (q : SelectQuery) (e : Mutation.Engine) (src : Table BTree) (conds : list WhereCondition)
    (v : Row -> bool) (idx : list (nat * bool)) (cis : list nat) : Prop := {
  a_allowed : checkPrivilege SELECT (sq_table q) e = (Ok (), e);
  a_conds : exists cs, resolve_subqueries e (subqueries (clause_of (sq_where q))) (whereConds (clause_of (sq_where q))) = Ok cs /\
    conds = rewritten rewriting (clause_of (sq_where q)) cs;
  a_scan : scan_query (reading e) (resolveTableName (session e) (tables e) (sq_table q)) src conds
    (whereLogic (clause_of (sq_where q))) false v;
  a_live : conds = [] -> Forall (fun r => alive r = true) (rows_ src);
  a_no_vector : existsb is_vector_order (sq_order q) = false;
  a_order : order_columns (columns_ src) (sq_order q) = Ok idx;
  a_uniform : Forall (fun p => uniform_column (List.filter (fun r => alive r && v r) (rows_ src)) p.1) idx;
  a_cols : mapM (colOf src) (sq_cols q) = Some cis }.

(** What the dispatcher does with a plain SELECT. *)
Lemma dispatch_plain q e src conds v idx cis :
  answerable q e src conds v idx cis ->
  let matches := List.filter (fun r => alive r && v r) (rows_ src) in
  if bool_decide (matches = [] /\ conds <> [])
  then dispatch_select false (command_of q) conds e = (Ok (NoneFound false), e)
  else exists t sorted, dispatch_select false (command_of q) conds e =
      (Ok (Printed t (limits (sq_limit q)).1 (limits (sq_limit q)).2
             (if bool_decide (conds = []) then None else Some (false, length matches))), e) /\
    sorted ≡ₚ matches /\ StronglySorted (fun a b => ~ lex_before idx b a) sorted /\
    map values (rows_ t) = result_values q cis sorted.
Proof.
  intros A. destruct (fetch_matches _ _ _ _ _ _ (a_scan _ _ _ _ _ _ _ A) (a_live _ _ _ _ _ _ _ A)) as (t & Hf & Hc & Hr).
  pose proof (a_allowed _ _ _ _ _ _ _ A) as Hp. cbv zeta.
  assert (forall k, dispatch_select false (command_of q) conds e = k <->
    (if (length (rows_ t) =? 0) && negb (bool_decide (conds = [])) then mret (NoneFound false)
     else t' ← lift (shape (command_of q) t);
       mret (Printed t' (limits (sq_limit q)).1 (limits (sq_limit q)).2
               (if bool_decide (conds = []) then None else Some (false, length (rows_ t))))) e = k) as Hd.
  { intros k. unfold Queries.dispatch_select, command_of, command_with. cbn [SelectParser.tableName aggregate isCount fromOnly limit limitOffset clause].
    unfold mbind, M_bind. rewrite Hp. cbn beta iota. unfold resolved, gets. cbn beta iota. unfold lift at 1. cbn [fst snd].
    rewrite Hf. done. }
  rewrite Hr in Hd. destruct (sort_rows (sq_order q) idx t) as (t' & Hs & Hc' & Hperm & Hsort).
  { apply A. } { rewrite Hc. apply A. } { rewrite Hr. apply A. }
  assert (Forall (fun r => alive r = true) (rows_ t')) as Ha.
  { rewrite Hperm, Hr, Forall_forall. by intros r [_ [H _]%andb_prop]%list_elem_of_In%filter_In. }
  destruct (shape_values q cis t t' (clause_of (sq_where q)) Hs Hc') as (t2 & Hsh & Hv); [|done|].
  { unfold colOf. rewrite Hc. apply A. }
  set (matches := List.filter _ (rows_ src)) in *.
  destruct (bool_decide_reflect (matches = [] /\ conds <> [])) as [E|E].
  - apply Hd. destruct E as [E1 E2]. rewrite E1, bool_decide_eq_false_2 by done. done.
  - rewrite Hr in Hperm. exists t2, (rows_ t'). split; [|done]. apply Hd.
    assert ((length matches =? 0) && negb (bool_decide (conds = [])) = false) as ->.
    { apply not_true_iff_false. intros [E1%Nat.eqb_eq E2%negb_true_iff]%andb_prop. apply bool_decide_eq_false in E2.
      apply E. split; [by apply nil_length_inv|done]. }
    unfold mbind, M_bind, lift. unfold command_of, command_with. rewrite Hsh. done.
Qed.

(** The window of LIMIT and OFFSET: an offset inside the result skips that many
    rows; one at or past its end is not heeded ([offset_beyond_end]). *)
Definition window {A} (l : option (Z * option Z)) (rows : list A) : list A :=
  match l with
  | None => rows
  | Some (n, None) => take (Z.to_nat n) rows
  | Some (n, Some m) => take (Z.to_nat n) (if Z.to_nat m <? length rows then drop (Z.to_nat m) rows else rows)
  end.

Lemma shown_limit {A} n m (rows : list A) : (0 <= n)%Z -> (0 <= m)%Z ->
  shown_rows n m rows = take (Z.to_nat n) (if Z.to_nat m <? length rows then drop (Z.to_nat m) rows else rows).
Proof.
  intros Hn Hm. destruct (Nat.ltb_spec (Z.to_nat m) (length rows)) as [H|H].
  - apply shown_window; lia.
  - transitivity (shown_rows n 0 rows); [|by rewrite shown_window by lia].
    unfold shown_rows, start_row. rewrite (proj2 (Z.ltb_ge m _)) by lia. by rewrite andb_false_r.
Qed.

Lemma window_limits {A} l (rows : list A) : limit_ok l = true -> shown_rows (limits l).1 (limits l).2 rows = window l rows.
Proof.
  destruct l as [[n [m|]]|]; cbn; unfold int_range; intros H; [..|apply shown_all].
  - apply shown_limit; lia.
  - by apply shown_window; [lia..|left].
Qed.

(** [C4] The text of a query on one table, in either of its two spellings, is answered
    by what the query means: of the live rows of its table that satisfy the
    conditions left after its subqueries are filled in and rewriting is done, in
    the lexicographic order of ORDER BY, the chosen columns, with DISTINCT each
    tuple once; the rows printed are those of LIMIT and OFFSET, where an offset at
    or past the end of the result is ignored ([window], [offset_beyond_end]).
    Nothing changes.  The text has one connective in each list and no subquery in
    a subquery, so that the parsed clause says all of it.  What [answerable]
    assumes: the user may read the table and no policy applies to him; the table
    has no children and no partitions, at most 100000 rows that keep its
    constraints and, where the query has no WHERE, no dead ones (they would be
    shown, [deleted_rows_shown]); no index is chosen; the columns sorted by hold
    only numbers or only texts that are none. *)
Theorem select_text_answers q s e src conds v idx cis :
  query_ok q = true -> whole (sq_where q) = true -> spells q s -> undisturbed s = true ->
  answerable q e src conds v idx cis ->
  let matches := List.filter (fun r => alive r && v r) (rows_ src) in
  says (sq_where q) (clause_of (sq_where q)) /\
  if bool_decide (matches = [] /\ conds <> [])
  then execute_select s e = (Ok (Some (NoneFound false)), e)
  else exists t n m note sorted, execute_select s e = (Ok (Some (Printed t n m note)), e) /\
    sorted ≡ₚ matches /\ StronglySorted (fun a b => ~ lex_before idx b a) sorted /\
    map values (rows_ t) = result_values q cis sorted /\
    map values (shown_rows n m (rows_ t)) = window (sq_limit q) (result_values q cis sorted).
Proof.
  intros Hq Hwh Hsp Hu A. assert (parse_select s = QSelect (command_of q)) as Hparse.
  { unfold spells in Hsp. unfold parse_select. destruct (route s); try done.
    - destruct Hsp as (Hs%Lexes_tokenizeFull & Hg & Hf & Hi). by apply parse_full_tokens.
    - destruct Hsp as (Hs & Hw & Hp & Hg & Hf). by apply parse_plain_words. }
  pose proof (dispatch_plain _ _ _ _ _ _ _ A) as Hd. cbv zeta in Hd |- *.
  destruct (a_conds _ _ _ _ _ _ _ A) as (cs & Hcs & Hre).
  assert (forall a, dispatch_select false (command_of q) conds e = (Ok a, e) -> execute_select s e = (Ok (Some a), e)) as Hex.
  { intros a Ha. unfold Queries.execute_select. rewrite parse_query_undisturbed by done. cbn [query outfile forUpdate]. rewrite Hparse.
    change (bytes_eqb [] []) with true. cbv iota. unfold mbind, M_bind, gets, lift. cbn beta iota.
    change (id e) with e. change (clause (command_of q)) with (clause_of (sq_where q)). rewrite Hcs. cbn beta iota. rewrite <- Hre, Ha. done. }
  split; [by apply clause_says|]. destruct (bool_decide (_ /\ _)); [by apply Hex|]. destruct Hd as (t & sorted & Hd & Hperm & Hsort & Hv). apply Hex in Hd.
  eexists t, _, _, _, sorted. split; [exact Hd|]. split_and!; [done..|]. rewrite shown_map, Hv.
  apply window_limits. unfold query_ok in Hq. by apply andb_true_iff in Hq as [_ Hq].
Qed.
(** A limit leaves room for its offset, and without a limit there is none. *)
Definition window_ok (n m : Z) (total : nat) : Prop :=
  (0 <= n /\ 0 <= m /\ (m = 0 \/ m < Z.of_nat total))%Z \/ (n < 0 /\ m = 0)%Z.

Lemma limited_rows cmd (t : Table BTree) :
  window_ok (limit cmd) (limitOffset cmd) (length (rows_ t)) -> rows_fit (columns_ t) (rows_ t) ->
  exists t', limited cmd t = Ok t' /\ columns_ t' = columns_ t /\
    rows_ t' = shown_rows (limit cmd) (limitOffset cmd) (rows_ t).
Proof.
  intros Hw Hf. unfold limited. destruct (Z.leb_spec 0 (limit cmd)) as [Hn|Hn].
  - destruct Hw as [(_ & Hm & Hb)|[? _]]; [|lia]. rewrite shown_window by done. unfold limit_rows.
    set (rs := take _ _). assert (rows_fit (columns_ t) rs) as Hrs.
    { eapply rows_fit_sublist; [|exact Hf]. unfold rs. etrans; [apply sublist_take|apply sublist_drop]. }
    destruct Hrs as [Ha Hc]. assert (Forall (fun r => alive r = true) rs) as Hl by (eapply Forall_impl; [exact Ha|]; by intros r [_ ?]).
    rewrite insert_all_scan by done.
    assert (List.filter (fun r => alive r && true) rs = rs) as Hid.
    { apply forallb_filter_id, forallb_Forall. eapply Forall_impl; [exact Hl|]. intros r ->. done. }
    destruct (scan_ok (fun _ => Ok true) (fun _ => true) rs (table (name_ t) (columns_ t))) as (t' & -> & E & Er); [done| |].
    + cbn [rows_ table app columns_]. by rewrite Hid.
    + exists t'. split; [done|]. split; [done|]. by rewrite Er, Hid.
  - destruct Hw as [[? _]|[_ Hm]]; [lia|]. exists t. split_and!; [done..|]. rewrite Hm.
    unfold shown_rows, start_row, print_rows. cbn [Z.ltb]. rewrite (proj2 (Z.leb_gt _ _)) by done. cbn. rewrite Nat.sub_0_r. by rewrite firstn_all.
Qed.

(** [C29] With the rewriting of conditions switched off, as it is by default, a query
    without COUNT, aggregate, ONLY, DISTINCT ON and TABLESAMPLE, whose offset lies
    inside its result, gives the clients of the wire protocols exactly
    the rows that the console prints, in the same order. *)
Theorem wire_shows_printed cmd e e' cs t n m note :
  aggregate cmd = None -> isCount cmd = false -> fromOnly cmd = false -> distinctOnCols cmd = [] -> sample cmd = None ->
  resolve_subqueries e (subqueries (clause cmd)) (whereConds (clause cmd)) = Ok cs ->
  dispatch_select false cmd cs e = (Ok (Printed t n m note), e') ->
  window_ok n m (length (rows_ t)) -> rows_fit (columns_ t) (rows_ t) ->
  exists t', executeSelectToTable e cmd = Ok t' /\ columns_ t' = columns_ t /\ rows_ t' = shown_rows n m (rows_ t).
Proof.
  intros Ha Hc Ho Hd Hs Hr. unfold Queries.dispatch_select, Queries.executeSelectToTable. rewrite Ha, Hc, Ho, Hr.
  unfold mbind at 1, M_bind at 1. destruct (checkPrivilege _ _ e) as [[[]|x] e1] eqn:Ep; [|done].
  assert (e1 = e) as ->.
  { revert Ep. unfold checkPrivilege, mbind, M_bind, gets, ensure. destruct (_ || _); by intros [= <-]. }
  unfold mbind, M_bind, resolved, gets, lift. cbn beta iota. cbn [result_bind].
  destruct (fetch _ _ _ _ _) as [[t0 used]|]; [|done]. cbn beta iota.
  destruct (_ && _); [done|]. unfold sampled. rewrite Hs. cbn [mbind option_bind result_bind]. unfold distinct_on. rewrite Hd.
  cbn [result_bind]. destruct (shape cmd t0) as [t1|]; [|done]. cbn beta iota. unfold mret, M_ret. intros [= <- <- <- _ _] Hw Hf.
  by apply limited_rows.
Qed.
End answers.

(** ** Examples *)

Section examples.
#[local] Existing Instance IntDouble.
#[local] Existing Instance StableSort.

Abbreviation ex_select :=
  (execute_select no_regex no_func no_match print int_count (fun _ _ => false) (fun _ _ _ => true) (fun _ t => Ok t)
     (fun _ t => Ok t) 1 1 5000 3 false).
Abbreviation ex_wire :=
  (select_over_wire no_regex no_func no_match print int_count (fun _ _ => false) (fun _ _ _ => true) (fun _ t => Ok t)
     (fun _ t => Ok t) (fun _ => None) 1 5000 3).

Definition towns : Table BTree :=
  plain_table ["city"; "n"] [["Rom"; "10"]; ["Bern"; "4"]; ["Oslo"; "3"]; ["Rom"; "9"]; ["Ulm"; "7"]].
Definition town_db (t : Table BTree) : Mutation.Engine := engine {[str "t" := t]} ∅ ∅.

(** The values of the rows that are shown. *)
Definition answer_rows (r : result (option Answer) * Mutation.Engine) : option (list (list bytes)) :=
  match r.1 with Ok (Some (Printed t n m _)) => Some (map values (shown_rows n m (rows_ t))) | _ => None end.
Definition console (s : string) (e : Mutation.Engine) : option (list (list bytes)) := answer_rows (ex_select (str s) e).
Definition wire (s : string) (e : Mutation.Engine) : option (list (list bytes)) :=
  match ex_wire e (str s) with Some (Ok t) => Some (map values (rows_ t)) | _ => None end.

Definition town_text : string := "SELECT DISTINCT city FROM t WHERE n > 3 ORDER BY city DESC LIMIT 2 OFFSET 1".
Definition town_query : SelectQuery :=
  mkQuery true [str "city"] (str "t") [(true, CCmp (str "n") (str ">") (str "3") [])] [(str "city", true)] (Some (2, Some 1))%Z.
Definition town_verdict (r : Row) : bool := negb (bool_decide (values r !! 0 = Some (str "Oslo"))).

Lemma town_scan :
  scan_query no_regex no_func no_match print int_count (fun _ _ => false) (reading 1 5000 (town_db towns)) (str "t") towns
    (whereConds (clause_of (sq_where town_query))) AND false town_verdict.
Proof.
  split; [by vm_compute..| | | | | | | |].
  - by_decide.
  - intros i c Hi. destruct i as [|[|]]; [| |done]; simpl in Hi; injection Hi as <-; by split.
  - split_and!; by_decide.
  - unfold MAX_RESULT_ROWS. apply Nat2Z.inj_le. by vm_compute.
  - by vm_compute.
  - repeat constructor; by vm_compute.
  - intros _. exists [1]. by vm_compute.
  - intros r Hr _. apply list_elem_of_In in Hr. cbn in Hr. destruct_or! Hr; subst; try done; by vm_compute.
Qed.

Lemma town_answerable :
  answerable no_regex no_func no_match print int_count (fun _ _ => false) 1 5000 false town_query (town_db towns) towns
    (whereConds (clause_of (sq_where town_query))) town_verdict [(0, true)] [0].
Proof.
  split; [by vm_compute|by eexists; split; [|reflexivity]; vm_compute|apply town_scan|done|by vm_compute|by vm_compute| |by vm_compute].
  apply Forall_cons; split; [|done]. right. intros r Hr. cbn in Hr. set_unfold. destruct_or!; subst; by vm_compute.
Qed.

Lemma select_text_answers_witness :
  console town_text (town_db towns) = Some [[str "Rom"]; [str "Bern"]] /\
  exists t n m note sorted, ex_select (str town_text) (town_db towns) = (Ok (Some (Printed t n m note)), town_db towns) /\
    sorted ≡ₚ List.filter (fun r => alive r && town_verdict r) (rows_ towns) /\
    StronglySorted (fun a b => ~ lex_before [(0, true)] b a) sorted /\
    map values (rows_ t) = result_values town_query [0] sorted /\
    map values (shown_rows n m (rows_ t)) = take 2 (drop 1 (result_values town_query [0] sorted)).
Proof.
  split; [vm_compute; reflexivity|].
  assert (spells town_query (str town_text)) as Hs.
  { unfold spells. assert (route (str town_text) = ToPlain) as -> by (vm_compute; reflexivity).
    split_and!; first [by apply (bool_decide_unpack _); vm_compute|vm_compute; reflexivity]. }
  pose proof (select_text_answers no_regex no_func no_match print int_count (fun _ _ => false) (fun _ _ _ => true)
    (fun _ t => Ok t) (fun _ t => Ok t) 1 1 5000 3 false town_query (str town_text) (town_db towns) towns _ _ _ _
    ltac:(vm_compute; reflexivity) ltac:(vm_compute; reflexivity) Hs ltac:(vm_compute; reflexivity) town_answerable) as [_ H].
  rewrite bool_decide_eq_false_2 in H; [|intros [H0 _]; vm_compute in H0; done].
  destruct H as (t & n & m & note & sorted & He & Hp & Hs' & Hv & Hw). exists t, n, m, note, sorted. split_and!; [done..|].
  rewrite Hw. unfold window. cbn [sq_limit town_query]. change (Z.to_nat 1) with 1. change (Z.to_nat 2) with 2.
  destruct (Nat.ltb_spec 1 (length (result_values town_query [0] sorted))) as [_|Hl]; [done|]. exfalso.
  rewrite <- Hv in Hl. revert He Hl. vm_compute. intros [= <- _ _ _]. vm_compute. lia.
Defined.

(** The table that the console prints for the query above, and the place of its window. *)
Definition town_printed : Table BTree * (Z * Z) :=
  match (ex_select (str town_text) (town_db towns)).1 with Ok (Some (Printed t n m _)) => (t, (n, m)) | _ => (towns, (0, 0))%Z end.

Lemma wire_shows_printed_witness :
  wire town_text (town_db towns) = console town_text (town_db towns) /\
  exists t', ex_wire (town_db towns) (str town_text) = Some (Ok t') /\ columns_ t' = columns_ town_printed.1 /\
    rows_ t' = shown_rows 2 1 (rows_ town_printed.1).
Proof.
  split; [vm_compute; reflexivity|].
  destruct (wire_shows_printed no_regex no_func no_match print int_count (fun _ _ => false) (fun _ _ _ => true)
    (fun _ t => Ok t) (fun _ t => Ok t) (fun _ => None) 1 1 5000 3 (command_of town_query) (town_db towns) (town_db towns)
    (whereConds (clause_of (sq_where town_query))) town_printed.1 2 1 (Some (false, 4))) as (t' & Ht & H); try (vm_compute; reflexivity).
  - left. split_and!; [done|done|]. right. by vm_compute.
  - split; [by_decide|]. intros i c Hi. destruct i as [|i]; [|destruct i; vm_compute in Hi; done].
    vm_compute in Hi. injection Hi as <-. split; vm_compute; done.
  - exists t'. split; [|exact H]. unfold select_over_wire.
    assert (query (parse_query (str town_text)) = QSelect (command_of town_query)) as -> by (vm_compute; reflexivity).
    by rewrite Ht.
Defined.

(** An offset beyond the result prints it from the start; the servers return nothing. *)
Lemma offset_beyond_end :
  console "SELECT city FROM t LIMIT 2 OFFSET 7" (town_db towns) = Some [[str "Rom"]; [str "Bern"]] /\
  wire "SELECT city FROM t LIMIT 2 OFFSET 7" (town_db towns) = Some [].
Proof. vm_compute. split; reflexivity. Qed.

(** Rows that are stamped as deleted are shown by a query for all columns without a
    WHERE, and by no other one. *)
Lemma deleted_rows_shown :
  console "SELECT * FROM t" (town_db (stampDeleteAll 7 towns).2) = console "SELECT * FROM t" (town_db towns) /\
  wire "SELECT * FROM t" (town_db (stampDeleteAll 7 towns).2) = wire "SELECT * FROM t" (town_db towns) /\
  console "SELECT city, n FROM t" (town_db (stampDeleteAll 7 towns).2) = Some [] /\
  (ex_select (str "SELECT * FROM t WHERE n > 0") (town_db (stampDeleteAll 7 towns).2)).1 = Ok (Some (NoneFound false)).
Proof. vm_compute. split_and!; reflexivity. Qed.

(** They are among the values of a subquery, too. *)
Lemma deleted_rows_in_subquery :
  let e := engine {[str "t" := towns; str "u" := (stampDeleteAll 7 (plain_table ["m"] [["10"]; ["7"]])).2]} ∅ ∅ in
  console "SELECT city FROM t WHERE n IN (SELECT m FROM u)" e = Some [[str "Rom"]; [str "Ulm"]] /\
  console "SELECT m FROM u" e = Some [].
Proof. vm_compute. split; reflexivity. Qed.

(** Clients of the servers get the rows of the table for a COUNT or an aggregate. *)
Lemma count_over_wire :
  (ex_select (str "SELECT COUNT(*) FROM t") (town_db towns)).1 = Ok (Some (CountOf 5)) /\
  wire "SELECT COUNT(*) FROM t" (town_db towns) = wire "SELECT * FROM t" (town_db towns) /\
  wire "SELECT MAX(n) FROM t" (town_db towns) = wire "SELECT * FROM t" (town_db towns).
Proof. vm_compute. split_and!; reflexivity. Qed.

(** DISTINCT ON is heeded by the servers only. *)
Lemma distinct_on_printed :
  console "SELECT DISTINCT ON (city) city, n FROM t" (town_db towns) = console "SELECT DISTINCT city, n FROM t" (town_db towns) /\
  console "SELECT DISTINCT city, n FROM t" (town_db towns) <> wire "SELECT DISTINCT ON (city) city, n FROM t" (town_db towns).
Proof. vm_compute. by split. Qed.
End examples.
