(* ===== verification/Csv.v ===== *)
(** * CSV files ([src/utils/csv_utils.hpp]; of [parser.hpp] LOAD DATA INFILE; of
    [dispatch.hpp] SELECT ... INTO OUTFILE and LOAD DATA)

    Lines, files as a map from names to contents, the text of LOAD DATA, and the
    two handlers.  Shown: a line gives back its fields, a file its rows, and a
    query exported and loaded again inserts the rows the query shows. *)

From S2P Require Import Prelude Index BTree Partition Table Transaction Arith Where Select Query Columns Triggers Mutation Integrity Lexer WhereParser Statements SelectParser SelectSyntax Queries.

Definition CR : byte := 13.

(** ** Lines *)

(** [q]: inside quotes, where two quotes stand for one. *)
Fixpoint fields_from (sep : byte) (q : bool) (field s : bytes) : list bytes :=
  match s with
  | [] => [field]
  | c :: s' =>
      if (c =? DQUOTE)%Z then
        match s' with
        | d :: s'' => if q && (d =? DQUOTE)%Z then fields_from sep q (field ++ [DQUOTE]) s'' else fields_from sep (negb q) field s'
        | [] => fields_from sep (negb q) field s'
        end
      else if (c =? sep)%Z && negb q then field :: fields_from sep q [] s'
      else fields_from sep q (field ++ [c]) s'
  end.
Definition parseLine (sep : byte) (line : bytes) : list bytes := fields_from sep false [] line.

Definition special (sep c : byte) : bool := ((c =? sep) || (c =? DQUOTE) || (c =? NL) || (c =? CR))%Z.
Definition doubled (s : bytes) : bytes := mjoin (map (fun c => if (c =? DQUOTE)%Z then [DQUOTE; DQUOTE] else [c]) s).

Definition escapeField (sep : byte) (s : bytes) : bytes :=
  match s with
  | [] => []
  | _ => if existsb (special sep) s then DQUOTE :: doubled s ++ [DQUOTE] else s
  end.

Fixpoint csv_line (sep : byte) (fields : list bytes) : bytes :=
  match fields with
  | [] => []
  | [f] => escapeField sep f
  | f :: fs => escapeField sep f ++ sep :: csv_line sep fs
  end.

(** ** Files *)

Section files.
(** The files that exist, and the names that can be opened for writing. *)
Context (writable : bytes -> bool).
Implicit Types files : gmap bytes bytes.

Definition writeFile (path : bytes) (headers : list bytes) (rows : list (list bytes)) (sep : byte) files : result (gmap bytes bytes) :=
  if writable path then Ok (<[path := unlines (map (csv_line sep) (headers :: rows))]> files) else Throw "CSV-Datei nicht schreibbar".

Definition strip_cr (l : bytes) : bytes := match rev l with c :: r => if (c =? CR)%Z then rev r else l | [] => l end.

(** Empty lines are passed over; [skip]: the first line that is not is the header. *)
Fixpoint read_rows (sep : byte) (skip : bool) (ls : list bytes) : list (list bytes) :=
  match ls with
  | [] => []
  | l :: ls' =>
      let l := strip_cr l in
      if bytes_eqb l [] then read_rows sep skip ls'
      else if skip then read_rows sep false ls'
      else parseLine sep l :: read_rows sep false ls'
  end.

Definition readFile (path : bytes) (sep : byte) (skipHeader : bool) files : result (list (list bytes)) :=
  match files !! path with
  | Some content => Ok (read_rows sep skipHeader (lines content))
  | None => Throw "CSV-Datei nicht gefunden"
  end.

Definition readHeader (path : bytes) (sep : byte) files : result (list bytes) :=
  match files !! path with
  | Some content => Ok (from_option (fun l => parseLine sep l.2) [] (list_find (fun l => l <> []) (map strip_cr (lines content))))
  | None => Throw "CSV-Datei nicht gefunden"
  end.
End files.

Definition TAB : byte := 9.
Definition SEMICOLON : byte := 59.

Definition count (c : byte) (s : bytes) : nat := length (List.filter (fun x => x =? c)%Z s).

Definition detectSeparator (firstLine : bytes) : byte :=
  let commas := count COMMA firstLine in
  let semicolons := count SEMICOLON firstLine in
  let tabs := count TAB firstLine in
  if (commas <? tabs) && (semicolons <? tabs) then TAB
  else if commas <? semicolons then SEMICOLON
  else COMMA.

Definition TAB_TEXT : bytes := [BACKSLASH; 116%Z].

Definition parseSepChar (s : bytes) : byte := if bytes_eqb s TAB_TEXT then TAB else match s with [] => COMMA | c :: _ => c end.

(** ** LOAD DATA INFILE *)

Record LoadCommand := mkLoad { load_file : bytes; load_table : bytes; load_sep : bytes; load_skip : bool }.

(** The text between the first two quotes of a kind, or else what is there already. *)
Definition quoted_in (s default : bytes) : bytes :=
  match between_quotes QUOTE s with
  | Some t => t
  | None => match between_quotes DQUOTE s with Some t => t | None => default end
  end.

Definition contains (w : string) (s : bytes) : bool := bool_decide (is_Some (find_sub (str w) s)).

(** The keywords are looked for in the whole text. *)
Definition load_command (file input : bytes) : LoadCommand :=
  let up := upper input in
  let file := match find_sub (str "INFILE") up with Some k => quoted_in (drop (k + 6) input) file | None => file end in
  let tbl :=
    match find_sub (str " TABLE ") up with
    | Some k =>
        let s := drop_while (fun c => c =? SPACE)%Z (drop (k + 7) input) in
        take_while (fun c => negb ((c =? SPACE) || (c =? NL))%Z) s
    | None => []
    end in
  let sep :=
    match find_sub (str "SEPARATOR") up with
    | Some k => let s := quoted_in (drop (k + 9) input) [COMMA] in if bytes_eqb s [] then [COMMA] else s
    | None => [COMMA]
    end in
  mkLoad file tbl sep (contains "SKIP" up && contains "HEADER" up).

Definition parse_load (inputRaw : bytes) : option LoadCommand :=
  let '(input, file, _) := cut_outfile (strip_back is_end inputRaw) in
  let '(input, _) := cut_for_update input in
  let tokens := tokenize (split_paren input).1 in
  if kw 0 "LOAD" tokens && kw 1 "DATA" tokens then
    let cmd := load_command file input in
    if bytes_eqb (load_file cmd) [] || bytes_eqb (load_table cmd) [] then None else Some cmd
  else None.

(** ** The dispatcher *)

(** What a handler catches keeps the changes made before. *)
Definition attempt (m : M ()) : M bool := fun e =>
  match m e with (Ok _, e') => (Ok true, e') | (Throw _, e') => (Ok false, e') end.

Fixpoint load_rows (insert : list bytes -> M ()) (rows : list (list bytes)) : M (nat * nat) :=
  match rows with
  | [] => mret (0, 0)
  | r :: rows' =>
      ok ← attempt (insert r);
      '(inserted, skipped) ← load_rows insert rows';
      mret (if (ok : bool) then (S inserted, skipped) else (inserted, S skipped))
  end.

(** The names of the columns and the texts shown, with the empty text for a value
    that is missing. *)
Definition header_of (t : Table BTree) : list bytes := map c_name (columns_ t).
Definition export_row (t : Table BTree) (r : Row) : list bytes := map (cell_text r) (seq 0 (length (columns_ t))).
Definition export_rows (t : Table BTree) : list (list bytes) := map (export_row t) (rows_ t).

Section handlers.
Context {DB : Double} {SS : StdSort}.
Context (regex_search : bytes -> bytes -> option bool).
Context (evalExprStr : bytes -> list Column -> list bytes -> bytes).
Context (match_against : list bytes -> bytes -> bytes -> list Column -> list bytes -> bool).
Context (formatNum : dbl -> bytes) (dcount : nat -> dbl).
Context (g_indexPathAdvisor : bytes -> list WhereCondition -> bool).
Context (evaluateRlsExpr_ : bytes -> Row -> list bytes -> bool).
Context (evaluateGenExpr : bytes -> list Column -> list bytes -> bytes).
Context (isValidJson : bytes -> bool).
Context (projectWithItems : list bytes -> Table BTree -> result (Table BTree)).
Context (applyVectorOrderBy : list (bytes * bool) -> Table BTree -> result (Table BTree)).
Context (percent_test : bytes -> option (Z -> bool)).
Context (clock : Clock) (thread : Z) (workers threshold fuel : nat).
(** The files that can be written, and the replica flag. *)
Context (writable : bytes -> bool) (slave : bool).

Abbreviation executeSelectToTable :=
  (executeSelectToTable regex_search evalExprStr match_against formatNum dcount g_indexPathAdvisor evaluateRlsExpr_
     projectWithItems applyVectorOrderBy percent_test workers threshold fuel).
Abbreviation insertRow := (insertRow regex_search evaluateRlsExpr_ evaluateGenExpr isValidJson clock thread).

(** A SELECT with a file, from its text: [None] for the queries that other parts
    answer.  What is thrown is printed, and the files stay as they are. *)
Definition execute_outfile (e : Mutation.Engine) (inputRaw : bytes) (files : gmap bytes bytes) : option (result (gmap bytes bytes)) :=
  let p := parse_query inputRaw in
  match query p with
  | QSelect cmd =>
      if bytes_eqb (outfile p) [] then None
      else
        let sep := parseSepChar (if bytes_eqb (separator p) [] then [COMMA] else separator p) in
        Some (t ← executeSelectToTable e cmd; writeFile writable (outfile p) (header_of t) (export_rows t) sep files)
  | _ => None
  end.

(** How many rows were inserted and how many passed over; the database is saved and
    the cached results of the table are dropped in any case. *)
Definition dispatch_load (files : gmap bytes bytes) (cmd : LoadCommand) : M (nat * nat) :=
  if slave then throw "Read-only"
  else
    let sep := parseSepChar (if bytes_eqb (load_sep cmd) [] then [COMMA] else load_sep cmd) in
    rows ← lift (readFile (load_file cmd) sep (load_skip cmd) files);
    load_rows (insertRow (load_table cmd)) rows.

Definition execute_load (files : gmap bytes bytes) (inputRaw : bytes) : M (option (nat * nat)) :=
  match parse_load inputRaw with
  | Some cmd => n ← dispatch_load files cmd; mret (Some n)
  | None => mret None
  end.
End handlers.

(** ** Lines are read back *)

Lemma fields_plain sep field s rest :
  existsb (special sep) s = false -> fields_from sep false field (s ++ rest) = fields_from sep false (field ++ s) rest.
Proof.
  revert field. induction s as [|c s IH]; intros field H; [by rewrite app_nil_r|].
  cbn [existsb] in H. apply orb_false_iff in H as [Hc Hs]. unfold special in Hc. rewrite !orb_false_iff in Hc.
  destruct Hc as [[[H1 H2] _] _]. cbn [app fields_from]. rewrite H2, H1. cbn [andb]. rewrite IH, <- app_assoc by done. done.
Qed.

Lemma fields_quoted sep field s rest :
  head rest <> Some DQUOTE ->
  fields_from sep true field (doubled s ++ DQUOTE :: rest) = fields_from sep false (field ++ s) rest.
Proof.
  intros Hr. revert field. induction s as [|c s IH]; intros field.
  - change (doubled [] ++ DQUOTE :: rest) with (DQUOTE :: rest). rewrite app_nil_r. cbn [fields_from]. rewrite Z.eqb_refl.
    destruct rest as [|d rest]; [done|]. rewrite (proj2 (Z.eqb_neq d DQUOTE)); [done|]. intros ->. by apply Hr.
  - unfold doubled in *. cbn [map]. rewrite mjoin_cons, <- app_assoc. destruct (Z.eqb_spec c DQUOTE) as [->|Hc].
    + cbn [app fields_from]. rewrite Z.eqb_refl. cbn [andb]. rewrite IH, <- app_assoc. done.
    + cbn [app fields_from]. rewrite (proj2 (Z.eqb_neq _ _) Hc). rewrite andb_false_r, IH, <- app_assoc. done.
Qed.

Lemma fields_escaped sep s rest :
  head rest <> Some DQUOTE -> fields_from sep false [] (escapeField sep s ++ rest) = fields_from sep false s rest.
Proof.
  intros Hr. unfold escapeField. destruct s as [|c s]; [done|]. destruct (existsb _ _) eqn:E.
  - cbn [app fields_from]. change (DQUOTE =? DQUOTE)%Z with true. cbv iota. rewrite <- app_assoc.
    pose proof (fields_quoted sep [] (c :: s) rest Hr) as H. cbn [app] in H.
    destruct (doubled (c :: s) ++ [DQUOTE] ++ rest) as [|d l] eqn:Ed; [by destruct (doubled _)|]. cbn [andb negb]. by rewrite <- H, <- Ed.
  - by rewrite fields_plain.
Qed.

(** A printed line gives back its fields, whatever characters they contain. *)
Lemma parseLine_csv_line sep fields :
  sep <> DQUOTE -> fields <> [] -> parseLine sep (csv_line sep fields) = fields.
Proof.
  intros Hsep. unfold parseLine. induction fields as [|f fs IH]; [done|]. intros _. destruct fs as [|g fs].
  - cbn [csv_line]. rewrite <- (app_nil_r (escapeField _ _)). by rewrite fields_escaped.
  - change (csv_line sep (f :: g :: fs)) with (escapeField sep f ++ sep :: csv_line sep (g :: fs)).
    rewrite fields_escaped by (cbn; congruence). cbn [fields_from]. rewrite (proj2 (Z.eqb_neq _ _) Hsep), Z.eqb_refl.
    cbn [andb negb]. by rewrite IH.
Qed.

(** ** Files are read back *)

Definition is_separator (sep : byte) : Prop := sep <> DQUOTE /\ sep <> NL /\ sep <> CR.

(** Rows that survive: without a line feed in a field, and not of one empty field. *)
Definition exportable (fields : list bytes) : Prop := fields <> [] /\ fields <> [[]] /\ Forall (fun f => NL ∉ f) fields.

Lemma csv_line_elem sep fields c :
  c ∈ csv_line sep fields -> c = sep \/ c = DQUOTE \/ exists f, f ∈ fields /\ c ∈ f.
Proof.
  assert (forall f, c ∈ escapeField sep f -> c = DQUOTE \/ c ∈ f) as Hf.
  { intros [|x f]; [set_solver|]. unfold escapeField. destruct (existsb _ _); [|auto].
    rewrite elem_of_cons, elem_of_app, list_elem_of_singleton. intros [?|[H|?]]; [auto| |auto]. revert H. generalize (x :: f). clear f x.
    intros f. unfold doubled. induction f as [|x f IH]; [set_solver|]. cbn [map]. rewrite mjoin_cons. destruct (Z.eqb_spec x DQUOTE); set_solver. }
  induction fields as [|f [|g fs] IH]; [set_solver| |].
  - cbn [csv_line]. intros [?|?]%Hf; [auto|]. right; right. exists f. set_solver.
  - change (csv_line sep (f :: g :: fs)) with (escapeField sep f ++ sep :: csv_line sep (g :: fs)). rewrite elem_of_app, elem_of_cons.
    intros [[?|?]%Hf|[?|[?|[?|(h & Hh & Hc)]]%IH]]; auto; right; right; eexists; (split; [|done]); set_solver.
Qed.

Lemma csv_line_last sep fields : is_separator sep -> last (csv_line sep fields) <> Some CR.
Proof.
  intros (_ & _ & Hs). assert (forall f, last (escapeField sep f) <> Some CR) as Hf.
  { intros [|x f]; [done|]. unfold escapeField. destruct (existsb _ _) eqn:E; [rewrite last_cons, last_snoc; done|].
    intros H. apply last_Some_elem_of in H. apply not_true_iff_false in E. apply E, existsb_exists. exists CR.
    split; [by apply list_elem_of_In|]. unfold special. by rewrite !orb_true_r. }
  induction fields as [|f [|g fs] IH]; [done|apply Hf|].
  change (csv_line sep (f :: g :: fs)) with (escapeField sep f ++ sep :: csv_line sep (g :: fs)). rewrite last_app, last_cons.
  destruct (last (csv_line _ _)); [exact IH|]. congruence.
Qed.

Lemma strip_cr_id l : last l <> Some CR -> strip_cr l = l.
Proof.
  destruct l as [|c l _] using rev_ind; [done|]. rewrite last_snoc. intros H. unfold strip_cr. rewrite rev_app_distr. cbn [rev app].
  destruct (Z.eqb_spec c CR); congruence.
Qed.

Lemma csv_line_nonempty sep fields : exportable fields -> csv_line sep fields <> [].
Proof.
  intros (Hn & Hb & _). destruct fields as [|f [|g fs]]; [done| |].
  - cbn [csv_line]. unfold escapeField. destruct f; [done|]. by destruct (existsb _ _).
  - change (csv_line sep (f :: g :: fs)) with (escapeField sep f ++ sep :: csv_line sep (g :: fs)). by destruct (escapeField sep f).
Qed.

Lemma read_rows_printed sep skip rows ls :
  is_separator sep -> Forall exportable rows ->
  read_rows sep skip (map (csv_line sep) rows ++ ls) =
    match rows with [] => read_rows sep skip ls | r :: rows' => (if skip then rows' else rows) ++ read_rows sep false ls end.
Proof.
  intros Hs Hr. revert skip. induction Hr as [|r rows Hr _ IH]; intros skip; [done|]. cbn [map app read_rows].
  rewrite strip_cr_id by by apply csv_line_last. unfold bytes_eqb at 1. rewrite bool_decide_eq_false_2 by by apply csv_line_nonempty.
  rewrite parseLine_csv_line by (apply Hs || apply Hr). rewrite !IH. by destruct skip, rows.
Qed.

(** A file that was written is read back. *)
Lemma readFile_written path sep headers rows writable files files' skip :
  is_separator sep -> Forall exportable (headers :: rows) -> writeFile writable path headers rows sep files = Ok files' ->
  readFile path sep skip files' = Ok (if skip then rows else headers :: rows).
Proof.
  intros Hs Hr. unfold writeFile, readFile. destruct (writable path); [|done]. intros [= <-]. rewrite lookup_insert.
  destruct (decide (path = path)); [|done]. f_equal.
  rewrite <- (app_nil_r (unlines _)), lines_unlines.
  - change (lines []) with ([] : list bytes). rewrite (read_rows_printed sep skip (headers :: rows)) by done. cbn [read_rows]. by rewrite app_nil_r.
  - change (csv_line sep headers :: map (csv_line sep) rows) with (map (csv_line sep) (headers :: rows)). apply Forall_map.
    eapply Forall_impl; [exact Hr|]. intros fs (_ & _ & Hf). rewrite Forall_forall. intros c Hc ->.
    apply csv_line_elem in Hc as [E|[E|(f & H & Hc)]]; [by destruct Hs as (_ & Hs & _)|done|]. rewrite Forall_forall in Hf. by apply (Hf f).
Qed.

(** ** Keywords in a text *)

Lemma starts_with_cut p a c b : c ∉ p -> starts_with p (a ++ c :: b) = starts_with p a.
Proof.
  revert a. induction p as [|x p IH]; intros a Hc; [by destruct a|]. apply not_elem_of_cons in Hc as [Hx Hc].
  destruct a as [|y a]; cbn.
  - by rewrite (proj2 (Z.eqb_neq x c)) by congruence.
  - by rewrite IH.
Qed.

(** Behind a character that the keyword does not contain the search starts anew. *)
Lemma find_sub_behind p a c b :
  p <> [] -> c ∉ p -> find_sub p a = None -> find_sub p (a ++ c :: b) = (fun k => length a + S k) <$> find_sub p b.
Proof.
  intros Hp Hc. induction a as [|x a IH]; cbn [app find_sub].
  - intros _. assert (starts_with p (c :: b) = false) as ->.
    { pose proof (starts_with_cut p [] c b Hc) as E. cbn [app] in E. rewrite E. by destruct p. }
    by destruct (find_sub p b).
  - change (x :: a ++ c :: b) with ((x :: a) ++ c :: b). rewrite starts_with_cut by done.
    destruct (starts_with p (x :: a)); [done|]. destruct (find_sub p a); [done|]. intros _. rewrite IH by done.
    by destruct (find_sub p b).
Qed.

Lemma find_sub_suffix p a b : is_Some (find_sub p b) -> is_Some (find_sub p (a ++ b)).
Proof. intros H. induction a as [|x a IH]; [done|]. cbn [app find_sub]. destruct (starts_with _ _); [eauto|]. by apply fmap_is_Some. Qed.

Lemma rfind_sub_none p s : rfind_sub p s = None <-> find_sub p s = None.
Proof.
  induction s as [|x s IH]; cbn [rfind_sub find_sub]; [by destruct (starts_with p [])|].
  destruct (rfind_sub p s), (find_sub p s), (starts_with p (x :: s)); cbn; naive_solver.
Qed.

Lemma rfind_sub_suffix p a b k : rfind_sub p b = Some k -> rfind_sub p (a ++ b) = Some (length a + k).
Proof. intros H. induction a as [|x a IH]; [done|]. cbn [app rfind_sub]. by rewrite IH. Qed.

Lemma upper_elem c s : to_upper c = c -> (forall d, to_upper d = c -> d = c) -> c ∈ upper s <-> c ∈ s.
Proof.
  intros Hc Hd. unfold upper. rewrite list_elem_of_fmap. split.
  - intros (d & E & H). symmetry in E. by rewrite <- (Hd d E).
  - intros H. by exists c.
Qed.

Lemma upper_fixed c s : c = SPACE \/ c = QUOTE -> c ∈ upper s <-> c ∈ s.
Proof.
  intros H. apply upper_elem; [by destruct H as [->| ->]|]. intros d. unfold to_upper, is_lower.
  destruct H as [->| ->]; unfold SPACE, QUOTE; destruct (_ && _) eqn:E; try done; lia.
Qed.

(** ** The texts of the two statements *)

(** A name of a file, a table or a separator: a word without quotes and parentheses
    that does not contain a keyword. *)
Definition name_ok (s : bytes) : bool :=
  negb (bytes_eqb s []) && forallb (fun c => negb (is_quote c || (c =? SPACE) || (c =? LPAREN) || (c =? NL))%Z) s
  && bool_decide (find_sub (str "SEPARATOR") (upper s) = None).

Definition outfile_sql (s f sep : bytes) : bytes := s ++ INTO_OUTFILE ++ QUOTE :: f ++ QUOTE :: str " SEPARATOR " ++ QUOTE :: sep ++ [QUOTE].

Definition load_sql (f u sep : bytes) : bytes :=
  str "LOAD DATA INFILE " ++ QUOTE :: f ++ QUOTE :: str " INTO TABLE" ++ SPACE :: u ++ SPACE :: str "SEPARATOR " ++ QUOTE :: sep ++ QUOTE :: str " SKIP HEADER".

Lemma name_ok_chars s c : name_ok s = true -> c ∈ s -> c <> QUOTE /\ c <> SPACE /\ c <> LPAREN /\ c <> NL.
Proof.
  unfold name_ok. intros [[_ H]%andb_prop _]%andb_prop Hc. rewrite forallb_forall in H. specialize (H c (proj1 (list_elem_of_In _ _) Hc)).
  rewrite negb_true_iff, !orb_false_iff, !Z.eqb_neq in H. destruct H as [[[H ?] ?] ?]. split_and!; try done. by intros ->.
Qed.

Lemma name_ok_nonempty s : name_ok s = true -> s <> [].
Proof. by intros H ->. Qed.

Lemma name_ok_keyword s : name_ok s = true -> find_sub (str "SEPARATOR") (upper s) = None.
Proof. unfold name_ok. by intros [_ ?%bool_decide_eq_true]%andb_prop. Qed.

Lemma name_ok_upper s : name_ok s = true -> (SPACE ∉ upper s) /\ (QUOTE ∉ upper s).
Proof. intros H. rewrite !upper_fixed by auto. split; intros Hc; by destruct (name_ok_chars s _ H Hc) as (? & ? & ? & ?). Qed.

(** The text between quotes behind some text without one. *)
Lemma between_here a t b : QUOTE ∉ a -> QUOTE ∉ t -> between_quotes QUOTE (a ++ QUOTE :: t ++ QUOTE :: b) = Some t.
Proof.
  intros Ha Ht. unfold between_quotes. rewrite find_char_here by done. cbn [mbind option_bind].
  assert (drop (S (length a)) (a ++ QUOTE :: t ++ QUOTE :: b) = t ++ QUOTE :: b) as ->.
  { change (QUOTE :: t ++ QUOTE :: b) with ([QUOTE] ++ t ++ QUOTE :: b). rewrite app_assoc. apply drop_app_length'. rewrite length_app. cbn. lia. }
  rewrite find_char_here by done. cbn [mbind option_bind]. by rewrite take_app_length.
Qed.

Lemma name_no_quote s : name_ok s = true -> QUOTE ∉ s.
Proof. intros H Hc. by destruct (name_ok_chars s _ H Hc). Qed.

Lemma strip_back_snoc p s c : p c = false -> strip_back p (s ++ [c]) = s ++ [c].
Proof. intros H. unfold strip_back. rewrite rev_app_distr. cbn [rev app drop_while]. rewrite H. rewrite <- (rev_involutive (s ++ [c])), rev_app_distr. done. Qed.

(** The text of an export is the query, the file and the separator. *)
Lemma parse_outfile s f sep :
  undisturbed s = true -> name_ok f = true -> name_ok sep = true ->
  parse_query (outfile_sql s f sep) = mkPrepared f sep false (parse_select s).
Proof.
  intros Hs Hf Hsep. unfold undisturbed in Hs. rewrite !andb_true_iff in Hs. destruct Hs as [_ Hfu].
  pose proof (name_no_quote f Hf) as Qf. pose proof (name_no_quote sep Hsep) as Qs.
  set (tail := f ++ QUOTE :: str " SEPARATOR " ++ QUOTE :: sep ++ [QUOTE]).
  assert (outfile_sql s f sep = s ++ INTO_OUTFILE ++ QUOTE :: tail) as Es by done.
  unfold parse_query. assert (strip_back is_end (outfile_sql s f sep) = outfile_sql s f sep) as ->.
  { rewrite Es. unfold tail. rewrite !app_assoc, app_comm_cons, !app_assoc. repeat rewrite app_comm_cons. 
    match goal with |- strip_back _ ?x = _ => assert (exists y, x = y ++ [QUOTE]) as [y ->] end; [|by apply strip_back_snoc].
    exists (s ++ INTO_OUTFILE ++ QUOTE :: f ++ QUOTE :: str " SEPARATOR " ++ QUOTE :: sep). by rewrite <- !app_assoc; cbn; rewrite <- !app_assoc; cbn; rewrite <- ?app_assoc. }
  assert (rfind_sub INTO_OUTFILE (upper (outfile_sql s f sep)) = Some (length s)) as Hr.
  { rewrite Es, upper_app. rewrite (rfind_sub_suffix _ _ _ 0); [by rewrite Nat.add_0_r; unfold upper; rewrite length_map|].
    rewrite upper_app. change (upper INTO_OUTFILE) with (SPACE :: str "INTO OUTFILE ").
    change (upper (QUOTE :: tail)) with (QUOTE :: upper tail).
    assert (rfind_sub INTO_OUTFILE (str "INTO OUTFILE " ++ QUOTE :: upper tail) = None) as Hn.
    { apply rfind_sub_none. rewrite find_sub_behind; [|done|by_decide|by vm_compute]. unfold tail. rewrite upper_app.
      change (upper (QUOTE :: ?x)) with (QUOTE :: upper x). rewrite find_sub_behind; [|done|by_decide|].
      2: { apply (find_sub_head _ SPACE); [done|]. by apply name_ok_upper. }
      rewrite upper_app. change (upper (QUOTE :: ?x)) with (QUOTE :: upper x). rewrite find_sub_behind; [|done|by_decide|by vm_compute].
      rewrite upper_app. change (upper [QUOTE]) with [QUOTE]. rewrite find_sub_behind; [done|done|by_decide|].
      apply (find_sub_head _ SPACE); [done|]. by apply name_ok_upper. }
    cbn [app rfind_sub]. rewrite Hn. change (SPACE :: str "INTO OUTFILE " ++ QUOTE :: upper tail) with (INTO_OUTFILE ++ QUOTE :: upper tail).
    by rewrite starts_with_app. }
  unfold cut_outfile. rewrite Hr.
  assert (drop (length s + length INTO_OUTFILE) (outfile_sql s f sep) = QUOTE :: tail) as ->.
  { rewrite Es, app_assoc. apply drop_app_length'. by rewrite length_app. }
  assert (findQuoted (QUOTE :: tail) = f) as ->.
  { unfold findQuoted, tail. pose proof (between_here [] f (str " SEPARATOR " ++ QUOTE :: sep ++ [QUOTE]) (not_elem_of_nil _) Qf) as E.
    cbn [app] in E. by rewrite E. }
  unfold bytes_eqb at 1. rewrite bool_decide_eq_false_2 by by apply name_ok_nonempty.
  assert (find_sub (str "SEPARATOR") (upper (QUOTE :: tail)) = Some (length f + 3)) as ->.
  { unfold tail. change (upper (QUOTE :: ?x)) with ([] ++ QUOTE :: upper x). rewrite find_sub_behind; [|done|by_decide|done].
    rewrite upper_app. change (upper (QUOTE :: ?x)) with (QUOTE :: upper x). rewrite find_sub_behind; [|done|by_decide|by apply name_ok_keyword].
    rewrite upper_app. rewrite (find_sub_app _ _ _ 1) by by vm_compute. cbn. f_equal. unfold upper. rewrite length_map. lia. }
  assert (findQuoted (drop (length f + 3 + 9) (QUOTE :: tail)) = sep) as ->.
  { assert (drop (length f + 3 + 9) (QUOTE :: tail) = [SPACE] ++ QUOTE :: sep ++ QUOTE :: []) as ->.
    { unfold tail. change (QUOTE :: f ++ ?x) with ((QUOTE :: f) ++ x).
      change (QUOTE :: str " SEPARATOR " ++ ?x) with (((QUOTE :: str " SEPARATOR") ++ [SPACE] ++ x)). rewrite app_assoc.
      apply drop_app_length'. rewrite length_app. cbn. lia. }
    unfold findQuoted. by rewrite between_here by (try done; by_decide). }
  unfold bytes_eqb at 1. rewrite bool_decide_eq_false_2 by by apply name_ok_nonempty. cbv iota.
  assert (take (length s) (outfile_sql s f sep) = s) as -> by (rewrite Es; apply take_app_length).
  unfold cut_for_update in *. destruct (_ && _); done.
Qed.

Lemma take_while_stop (p : byte -> bool) a c b : forallb p a = true -> p c = false -> take_while p (a ++ c :: b) = a.
Proof.
  induction a as [|x a IH]; cbn; [by intros _ ->|]. intros [Hx Ha]%andb_prop Hc. rewrite Hx. by rewrite IH.
Qed.

(** The keywords of the text of LOAD DATA are found where they stand. *)
Lemma load_command_text f u sep file :
  name_ok f = true -> name_ok u = true -> name_ok sep = true -> load_command file (load_sql f u sep) = mkLoad f u sep true.
Proof.
  intros Hf Hu Hsep. pose proof (name_no_quote f Hf) as Qf. pose proof (name_no_quote sep Hsep) as Qs.
  destruct (name_ok_upper f Hf) as [Sf _], (name_ok_upper u Hu) as [Su _].
  set (rest := str "SEPARATOR " ++ QUOTE :: sep ++ QUOTE :: str " SKIP HEADER").
  set (tail := str " INTO TABLE" ++ SPACE :: u ++ SPACE :: rest).
  assert (load_sql f u sep = str "LOAD DATA INFILE " ++ QUOTE :: f ++ QUOTE :: tail) as E by done.
  assert (upper (load_sql f u sep) = str "LOAD DATA INFILE " ++ QUOTE :: upper f ++ QUOTE :: upper tail) as Eu.
  { rewrite E, upper_app. change (upper (QUOTE :: ?x)) with (QUOTE :: upper x). by rewrite upper_app. }
  assert (upper tail = str " INTO TABLE" ++ SPACE :: upper u ++ SPACE :: upper rest) as Et.
  { unfold tail. rewrite upper_app. change (upper (SPACE :: ?x)) with (SPACE :: upper x). by rewrite upper_app. }
  assert (length (upper f) = length f /\ length (upper u) = length u) as [Lf Lu] by (unfold upper; by rewrite !length_map).
  unfold load_command. rewrite Eu.
  assert (find_sub (str "INFILE") (str "LOAD DATA INFILE " ++ QUOTE :: upper f ++ QUOTE :: upper tail) = Some 10) as ->
    by (by apply find_sub_app).
  assert (find_sub (str " TABLE ") (str "LOAD DATA INFILE " ++ QUOTE :: upper f ++ QUOTE :: upper tail) = Some (length f + 24)) as ->.
  { rewrite find_sub_behind; [|done|by_decide|by vm_compute]. rewrite find_sub_behind; [|done|by_decide|by apply (find_sub_head _ SPACE)].
    rewrite Et. change (str " INTO TABLE" ++ SPACE :: ?x) with (str " INTO TABLE " ++ x). rewrite (find_sub_app _ _ _ 5) by by vm_compute.
    cbn. f_equal. lia. }
  assert (find_sub (str "SEPARATOR") (str "LOAD DATA INFILE " ++ QUOTE :: upper f ++ QUOTE :: upper tail) = Some (length f + length u + 32)) as ->.
  { rewrite find_sub_behind; [|done|by_decide|by vm_compute]. rewrite find_sub_behind; [|done|by_decide|by apply name_ok_keyword].
    rewrite Et. rewrite find_sub_behind; [|done|by_decide|by vm_compute]. rewrite find_sub_behind; [|done|by_decide|by apply name_ok_keyword].
    unfold rest. rewrite upper_app. rewrite (find_sub_app _ _ _ 0) by by vm_compute. cbn. f_equal. lia. }
  assert (drop (10 + 6) (load_sql f u sep) = [SPACE] ++ QUOTE :: f ++ QUOTE :: tail) as ->.
  { rewrite E. change (str "LOAD DATA INFILE ") with (str "LOAD DATA INFILE" ++ [SPACE]). rewrite <- app_assoc. by apply drop_app_length'. }
  assert (drop (length f + 24 + 7) (load_sql f u sep) = u ++ SPACE :: rest) as ->.
  { rewrite E. change (QUOTE :: tail) with ((QUOTE :: str " INTO TABLE ") ++ u ++ SPACE :: rest).
    change (str "LOAD DATA INFILE " ++ QUOTE :: ?x) with ((str "LOAD DATA INFILE " ++ [QUOTE]) ++ x). rewrite !app_assoc, <- (app_assoc _ u).
    apply drop_app_length'. rewrite !length_app. cbn. lia. }
  assert (drop (length f + length u + 32 + 9) (load_sql f u sep) = [SPACE] ++ QUOTE :: sep ++ QUOTE :: str " SKIP HEADER") as ->.
  { rewrite E. change (QUOTE :: tail) with ((QUOTE :: str " INTO TABLE ") ++ u ++ (SPACE :: str "SEPARATOR") ++ [SPACE] ++ QUOTE :: sep ++ QUOTE :: str " SKIP HEADER").
    change (str "LOAD DATA INFILE " ++ QUOTE :: ?x) with ((str "LOAD DATA INFILE " ++ [QUOTE]) ++ x). rewrite !app_assoc, <- (app_assoc _ [SPACE]).
    apply drop_app_length'. rewrite !length_app. cbn. lia. }
  unfold quoted_in. rewrite !between_here by (try done; by_decide).
  assert (drop_while (fun c => c =? SPACE)%Z (u ++ SPACE :: rest) = u ++ SPACE :: rest) as ->.
  { pose proof (name_ok_nonempty u Hu) as Hn. destruct u as [|c u']; [done|]. cbn.
    destruct (name_ok_chars _ c Hu) as (_ & Hc & _); [by apply elem_of_cons; left|]. by rewrite (proj2 (Z.eqb_neq _ _) Hc). }
  rewrite take_while_stop; [| |done].
  2: { apply forallb_forall. intros c Hc%list_elem_of_In. destruct (name_ok_chars _ c Hu Hc) as (_ & H1 & _ & H2).
    by rewrite (proj2 (Z.eqb_neq _ _) H1), (proj2 (Z.eqb_neq _ _) H2). }
  unfold bytes_eqb. rewrite bool_decide_eq_false_2 by by apply name_ok_nonempty. f_equal. unfold contains. rewrite !bool_decide_eq_true_2; [done|..].
  all: change (QUOTE :: upper f ++ ?x) with ([QUOTE] ++ upper f ++ x); rewrite Et; unfold rest; rewrite !upper_app; change (upper (QUOTE :: ?x)) with (QUOTE :: upper x); rewrite upper_app.
  all: repeat (apply find_sub_suffix || (rewrite app_comm_cons)); eexists; by vm_compute.
Qed.

Lemma parse_load_text f u sep :
  undisturbed (load_sql f u sep) = true -> name_ok f = true -> name_ok u = true -> name_ok sep = true ->
  parse_load (load_sql f u sep) = Some (mkLoad f u sep true).
Proof.
  intros Hun Hf Hu Hsep. unfold undisturbed in Hun. rewrite !andb_true_iff in Hun. destruct Hun as [[H1 H2] H3].
  unfold bytes_eqb in H1. apply bool_decide_eq_true in H1, H2. unfold parse_load. rewrite H1. unfold cut_outfile. rewrite H2.
  assert (cut_for_update (load_sql f u sep) = (load_sql f u sep, false)) as ->.
  { revert H3. unfold cut_for_update. by destruct (_ && _). }
  assert (split_paren (load_sql f u sep) = (load_sql f u sep, [])) as ->.
  { unfold split_paren. assert (find_char LPAREN (load_sql f u sep) = None) as ->; [|done]. apply find_char_none.
    assert (forall s, name_ok s = true -> LPAREN ∉ s) as Hl by (intros s Hs Hc; by destruct (name_ok_chars s _ Hs Hc) as (_ & _ & ? & _)).
    unfold load_sql. repeat (rewrite not_elem_of_app || rewrite not_elem_of_cons). split_and!; try (by apply Hl); try done; by_decide. }
  cbn [fst]. assert (tokenize (load_sql f u sep) = str "LOAD" :: str "DATA" :: tokenize (drop 10 (load_sql f u sep))) as -> by done.
  change (kw 0 "LOAD" _ && kw 1 "DATA" _) with true. cbv iota. rewrite load_command_text by done. cbn [load_file load_table].
  unfold bytes_eqb. rewrite !bool_decide_eq_false_2 by (by apply name_ok_nonempty). done.
Qed.

(** ** Export and import *)

Section transfer.
Context {DB : Double} {SS : StdSort}.
Context (regex_search : bytes -> bytes -> option bool).
Context (evalExprStr : bytes -> list Column -> list bytes -> bytes).
Context (match_against : list bytes -> bytes -> bytes -> list Column -> list bytes -> bool).
Context (formatNum : dbl -> bytes) (dcount : nat -> dbl).
Context (g_indexPathAdvisor : bytes -> list WhereCondition -> bool).
Context (evaluateRlsExpr_ : bytes -> Row -> list bytes -> bool).
Context (evaluateGenExpr : bytes -> list Column -> list bytes -> bytes).
Context (isValidJson : bytes -> bool).
Context (projectWithItems : list bytes -> Table BTree -> result (Table BTree)).
Context (applyVectorOrderBy : list (bytes * bool) -> Table BTree -> result (Table BTree)).
Context (percent_test : bytes -> option (Z -> bool)).
Context (clock : Clock) (thread : Z) (workers threshold fuel : nat) (writable : bytes -> bool).

Abbreviation executeSelectToTable :=
  (executeSelectToTable regex_search evalExprStr match_against formatNum dcount g_indexPathAdvisor evaluateRlsExpr_
     projectWithItems applyVectorOrderBy percent_test workers threshold fuel).
Abbreviation insertRow := (insertRow regex_search evaluateRlsExpr_ evaluateGenExpr isValidJson clock thread).
Abbreviation execute_outfile :=
  (execute_outfile regex_search evalExprStr match_against formatNum dcount g_indexPathAdvisor evaluateRlsExpr_
     projectWithItems applyVectorOrderBy percent_test workers threshold fuel writable).
Abbreviation execute_load := (execute_load regex_search evaluateRlsExpr_ evaluateGenExpr isValidJson clock thread false).

(** [C32] A query exported to a file and loaded into a table, both from their texts: LOAD
    DATA inserts, in order, exactly the rows the query shows, each as INSERT would,
    and passes over those that INSERT refuses.  The texts may contain separators,
    quotes and carriage returns, but no line feeds, and no row may be a single
    empty text. *)
Theorem export_then_load s f u sep cmd e t files e' :
  undisturbed s = true -> undisturbed (load_sql f u sep) = true ->
  name_ok f = true -> name_ok u = true -> name_ok sep = true -> is_separator (parseSepChar sep) ->
  parse_select s = QSelect cmd -> executeSelectToTable e cmd = Ok t ->
  Forall exportable (header_of t :: export_rows t) -> writable f = true ->
  exists files', execute_outfile e (outfile_sql s f sep) files = Some (Ok files') /\
    execute_load files' (load_sql f u sep) e' = (n ← load_rows (insertRow u) (export_rows t); mret (Some n)) e'.
Proof.
  intros Hs Hl Hf Hu Hsep Hc Hp Ht Hr Hw. unfold Csv.execute_outfile, Csv.execute_load. rewrite parse_outfile, parse_load_text by done.
  cbn [query outfile separator]. rewrite Hp. unfold bytes_eqb. rewrite !bool_decide_eq_false_2 by by apply name_ok_nonempty.
  rewrite Ht. cbn [mbind result_bind]. destruct (writeFile writable f (header_of t) (export_rows t) (parseSepChar sep) files) as [files'|x] eqn:Ew.
  2: { unfold writeFile in Ew. by rewrite Hw in Ew. }
  exists files'. split; [done|]. unfold dispatch_load. cbn [load_file load_sep load_skip load_table]. unfold bytes_eqb.
  rewrite bool_decide_eq_false_2 by by apply name_ok_nonempty. unfold mbind, M_bind, lift.
  by rewrite (readFile_written f _ _ _ _ _ _ true Hc Hr Ew).
Qed.
End transfer.

(** ** Examples *)

Section examples.
#[local] Existing Instance IntDouble.
#[local] Existing Instance StableSort.

Abbreviation ex_outfile :=
  (execute_outfile no_regex no_func no_match print int_count (fun _ _ => false) (fun _ _ _ => true) (fun _ t => Ok t)
     (fun _ t => Ok t) (fun _ => None) 1 5000 3 (fun _ => true)).
Abbreviation ex_load := (execute_load no_regex (fun _ _ _ => true) no_gen (fun _ => true) ex_clock 1 false).

(** Names with separators and quotes. *)
Definition guests : Table BTree := plain_table ["name"; "n"] [["Smith, J."; "10"]; ["The Kid; II"; "4"]; ["NULL"; "3"]].
Definition guest_db : Mutation.Engine := engine {[str "g" := guests; str "h" := plain_table ["name"; "n"] []]} ∅ ∅.

Definition run_load (files : gmap bytes bytes) (s : bytes) (e : Mutation.Engine) : option (option (nat * nat) * list (list bytes)) :=
  match ex_load files s e with
  | (Ok n, e') => Some (n, from_option (fun t => map values (rows_ t)) [] (tables e' !! str "h"))
  | _ => None
  end.

Definition guest_text : bytes := str "SELECT name, n FROM g WHERE n > 3".

Definition guest_cmd : SelectCommand := match parse_select guest_text with QSelect c => c | _ => command_of town_query end.
Definition guest_out : Table BTree :=
  match executeSelectToTable no_regex no_func no_match print int_count (fun _ _ => false) (fun _ _ _ => true) (fun _ t => Ok t)
          (fun _ t => Ok t) (fun _ => None) 1 5000 3 guest_db guest_cmd with Ok t => t | Throw _ => guests end.

Lemma export_then_load_witness :
  outfile_sql guest_text (str "g.csv") (str ";") = str "SELECT name, n FROM g WHERE n > 3 INTO OUTFILE 'g.csv' SEPARATOR ';'" /\
  load_sql (str "g.csv") (str "h") (str ";") = str "LOAD DATA INFILE 'g.csv' INTO TABLE h SEPARATOR ';' SKIP HEADER" /\
  exists files', ex_outfile guest_db (outfile_sql guest_text (str "g.csv") (str ";")) ∅ = Some (Ok files') /\
    run_load files' (load_sql (str "g.csv") (str "h") (str ";")) guest_db =
      Some (Some (2, 0), [[str "Smith, J."; str "10"]; [str "The Kid; II"; str "4"]]).
Proof.
  split; [vm_compute; reflexivity|]. split; [vm_compute; reflexivity|].
  destruct (export_then_load no_regex no_func no_match print int_count (fun _ _ => false) (fun _ _ _ => true) no_gen (fun _ => true)
    (fun _ t => Ok t) (fun _ t => Ok t) (fun _ => None) ex_clock 1 1 5000 3 (fun _ => true) guest_text (str "g.csv") (str "h") (str ";")
    guest_cmd guest_db guest_out ∅ guest_db) as (files' & Hw & Hl).
  1-5: by vm_compute.
  - by_decide.
  - by vm_compute.
  - by vm_compute.
  - by_decide.
  - done.
  - exists files'. split; [exact Hw|]. unfold run_load. rewrite Hl. by vm_compute.
Defined.

(** The writer puts a line feed between quotes, the reader takes every line for a
    row: one row comes back as two. *)
Lemma line_feed_splits_row :
  let files := writeFile (fun _ => true) (str "f") [str "a"; str "b"] [[str "x" ++ [NL] ++ str "y"; str "z"]] COMMA ∅ in
  (f ← files; readFile (str "f") COMMA true f) = Ok [[str "x"]; [str "y,z"]].
Proof. vm_compute. reflexivity. Qed.

(** A row of one empty text is passed over. *)
Lemma empty_row_lost :
  let files := writeFile (fun _ => true) (str "f") [str "a"] [[str "x"]; []; [[]]; [str "y"]] COMMA ∅ in
  (f ← files; readFile (str "f") COMMA true f) = Ok [[str "x"]; [str "y"]].
Proof. vm_compute. reflexivity. Qed.

(** The keywords of LOAD DATA are also found in the name of the file. *)
Lemma keywords_in_file_name :
  load_command [] (str "LOAD DATA INFILE '/the table x/skip_header.csv' INTO TABLE t") =
    mkLoad (str "/the table x/skip_header.csv") (str "x/skip_header.csv'") [COMMA] true.
Proof. vm_compute. reflexivity. Qed.

(** A separator that is a quote is never found. *)
Lemma quote_as_separator : parseLine DQUOTE (csv_line DQUOTE [str "a"; str "b"]) = [str "ab"].
Proof. vm_compute. reflexivity. Qed.
End examples.
