(* ===== verification/JoinParser.v ===== *)
(** * The text of a join ([parser.hpp], [parseJoinQuery])

    The branch of a SELECT with a join: the chain behind FROM with its aliases and
    ON clauses, the select list, WHERE, ORDER BY and LIMIT.  Shown: a printed chain
    with flat conditions under one connective is read back.  GROUP BY and HAVING are read by other code. *)

From S2P Require Import Prelude Index Partition Table Joins Arith Where Select Columns Triggers Query Rewriter Lexer WhereParser WhereSyntax Statements SelectParser SelectSyntax JoinOrder.

(** What the parser makes of the text; [grouped]: there is a GROUP BY. *)
Record JoinCommand := mkJoinCommand {
  j_table : bytes; j_alias : bytes; j_distinct : bool; j_cols : list bytes; j_count : bool; j_joins : list PlannedJoin;
  j_clause : Clause; j_order : list (bytes * bool); j_limit : Z; j_offset : Z; grouped : bool }.

(** The first place of a word, wherever it stands. *)
Fixpoint place_from (w : bytes) (i : nat) (ts : list bytes) : option nat :=
  match ts with
  | [] => None
  | t :: r => if bytes_eqb (upper t) w then Some i else place_from w (S i) r
  end.
Definition place (w : string) (ft : list bytes) : nat := default (length ft) (place_from (str w) 0 ft).

Definition is_punct (t : bytes) : bool := any_of [","; "("; ")"] t.

Definition base_alias (t : bytes) : bytes :=
  if any_of ["INNER"; "LEFT"; "RIGHT"; "FULL"; "JOIN"; "ON"; "WHERE"; "ORDER"; "LIMIT"; "OUTER"; "CROSS"; "GROUP"; "HAVING"] (upper t) || is_punct t
  then [] else t.

(** *** The select list: commas split it at any depth, parentheses are left out *)

Fixpoint join_cols (cur : bytes) (sawAs : bool) (ts : list bytes) : list bytes :=
  match ts with
  | [] => push_column cur
  | t :: r =>
      if bytes_eqb t (str ",") then push_column cur ++ join_cols [] false r
      else if bytes_eqb (upper t) (str "AS") then join_cols cur true r
      else if sawAs then join_cols cur false r
      else if any_of ["("; ")"] t then join_cols cur sawAs r
      else join_cols (add_word cur t) sawAs r
  end.

(** *** The chain *)

(** A table without ON, from behind its comma or JOIN, and what follows. *)
Definition cross_entry (ts : list bytes) : option (PlannedJoin * list bytes) :=
  match ts with
  | [] => None
  | t :: r =>
      let jc := mkJoin CROSS t [] [] in
      match r with
      | a :: r' =>
          if any_of ["JOIN"; "LEFT"; "INNER"; "RIGHT"; "FULL"; "OUTER"; "CROSS"; "ON"] (upper a) || is_punct a
          then Some (mkPlanned jc [], r) else Some (mkPlanned jc a, r')
      | [] => Some (mkPlanned jc [], r)
      end
  end.

(** The sides of ON, three tokens or one with an equality sign in it, and what follows. *)
Definition on_clause (ts : list bytes) : option (bytes * bytes * list bytes) :=
  match ts with
  | l :: e :: r :: rest => if bytes_eqb e (str "=") then Some (l, r, rest)
                           else eq ← find_char 61 l; Some (take eq l, drop (S eq) l, e :: r :: rest)
  | l :: rest => eq ← find_char 61 l; Some (take eq l, drop (S eq) l, rest)
  | [] => None
  end.

(** A table with ON, from behind JOIN, and what follows. *)
Definition join_entry (kind : JoinType) (ts : list bytes) : option (PlannedJoin * list bytes) :=
  match ts with
  | t :: o :: r =>
      if length ts <=? 2 then None
      else
        let '(alias, r) := if bytes_eqb (upper o) (str "ON") then ([], o :: r) else (o, r) in
        match r with
        | o :: r =>
            if bytes_eqb (upper o) (str "ON") then
              '(l, rt, rest) ← on_clause r; Some (mkPlanned (mkJoin kind t l rt) alias, rest)
            else None
        | [] => None
        end
  | _ => None
  end.

(** [None] if the text is no join.  Every turn of the loop takes a token. *)
Fixpoint scan_joins (fuel : nat) (depth : Z) (kind : JoinType) (ts : list bytes) : option (list PlannedJoin) :=
  match fuel, ts with
  | O, _ | _, [] => Some []
  | S f, t :: r =>
      if bytes_eqb t (str "(") then scan_joins f (depth + 1) kind r
      else if bytes_eqb t (str ")") then scan_joins f (depth - 1) kind r
      else if (0 <? depth)%Z then scan_joins f depth kind r
      else
        let u := upper t in
        if bytes_eqb u (str "LEFT") then scan_joins f depth LEFT r
        else if bytes_eqb u (str "INNER") then scan_joins f depth INNER r
        else if bytes_eqb u (str "RIGHT") then scan_joins f depth RIGHT r
        else if bytes_eqb u (str "FULL") then scan_joins f depth FULL r
        else if bytes_eqb u (str "OUTER") then scan_joins f depth kind r
        else if bytes_eqb u (str "CROSS") then scan_joins f depth CROSS r
        else if bytes_eqb t (str ",") then '(p, r) ← cross_entry r; ps ← scan_joins f depth INNER r; Some (p :: ps)
        else if bytes_eqb u (str "JOIN") then
          '(p, r) ← (if bool_decide (kind = CROSS) then cross_entry r else join_entry kind r);
          ps ← scan_joins f depth INNER r; Some (p :: ps)
        else scan_joins f depth kind r
  end.

Definition COUNT_STAR : list string := ["COUNT *"; "COUNT(*)"].

Definition parseJoinQuery (raw : bytes) : option JoinCommand :=
  let ft := tokenizeFull raw in
  let n := length ft in
  let fromPos := place "FROM" ft in
  let wherePos := place "WHERE" ft in
  let groupPos := place "GROUP" ft in
  let orderPos := place "ORDER" ft in
  let limitPos := place "LIMIT" ft in
  match drop (S fromPos) ft with
  | [] => None
  | tbl :: behind =>
      let sel := slice 1 fromPos ft in
      let distinct := kw 0 "DISTINCT" sel in
      let cols := join_cols [] false (skip_kw "ALL" (skip_kw "DISTINCT" sel)) in
      let '(cols, count) :=
        match cols with
        | [c] => if (groupPos =? n) && any_of COUNT_STAR (upper c) then ([], true) else (cols, false)
        | _ => (cols, false)
        end in
      let scanEnd := Nat.min (Nat.min wherePos groupPos) (Nat.min orderPos limitPos) in
      let chain := slice (fromPos + 2) scanEnd ft in
      match scan_joins (length chain) 0 INNER chain with
      | None | Some [] => None
      | Some joins =>
          let wt := List.filter (fun t => negb (is_punct t)) (slice wherePos (Nat.min groupPos (Nat.min orderPos limitPos)) ft) in
          let cl := match wt with [] => no_clause | _ => parseWhere wt no_clause end in
          let order :=
            if (orderPos + 2 <? n) && kw (S orderPos) "BY" ft then parseOrderByCols (slice (orderPos + 2) limitPos ft) else [] in
          let '(lim, off) := parseLimit (drop limitPos ft) in
          Some (mkJoinCommand tbl (from_option base_alias [] (head behind)) distinct cols count joins cl order lim off
                  ((groupPos + 1 <? n) && kw (S groupPos) "BY" ft))
      end
  end.

(** ** Syntax *)

Record JoinQuery := mkJoinQuery {
  jq_cols : list bytes; jq_table : bytes; jq_alias : bytes; jq_joins : list PlannedJoin; jq_where : list (bool * Cond);
  jq_order : list (bytes * bool); jq_limit : option (Z * option Z) }.

Definition JOIN_WORDS : list string :=
  ["FROM"; "WHERE"; "GROUP"; "HAVING"; "ORDER"; "LIMIT"; "JOIN"; "INNER"; "LEFT"; "RIGHT"; "FULL"; "OUTER"; "CROSS"; "ON"; "AS"; "ALL"; "DISTINCT"].
Definition name (t : bytes) : bool := ident t && negb (any_of JOIN_WORDS (upper t)).

Definition kind_words (k : JoinType) : list bytes :=
  map str match k with INNER => ["INNER"] | LEFT => ["LEFT"] | RIGHT => ["RIGHT"] | FULL => ["FULL"; "OUTER"] | CROSS => ["CROSS"] end.
Definition alias_words (a : bytes) : list bytes := if bytes_eqb a [] then [] else [a].
Definition on_words (jc : JoinClause) : list bytes :=
  if bool_decide (joinType jc = CROSS) then [] else [str "ON"; onLeft jc; str "="; onRight jc].

Definition entry_words (p : PlannedJoin) : list bytes :=
  jc_table (clause p) :: alias_words (tableAlias p) ++ on_words (clause p).
Definition join_words (p : PlannedJoin) : list bytes := kind_words (joinType (clause p)) ++ str "JOIN" :: entry_words p.
Definition joins_words (l : list PlannedJoin) : list bytes := mjoin (map join_words l).

Definition chain_words (q : JoinQuery) : list bytes := alias_words (jq_alias q) ++ joins_words (jq_joins q).

Definition join_tokens (q : JoinQuery) : list bytes :=
  str "SELECT" :: star_or (commas (jq_cols q)) ++ str "FROM" :: jq_table q :: chain_words q ++ clause_words (jq_where q) ++
  order_words (order_tokens (jq_order q)) ++ limit_words (jq_limit q).

Definition alias_ok (a : bytes) : bool := bytes_eqb a [] || name a.
(** A cross join has no ON clause. *)
Definition join_ok (p : PlannedJoin) : bool :=
  let jc := clause p in
  name (jc_table jc) && alias_ok (tableAlias p) &&
  (if bool_decide (joinType jc = CROSS) then bool_decide (onLeft jc = [] /\ onRight jc = []) else name (onLeft jc) && name (onRight jc)).

(** Conditions whose tokens are words: comparisons, NULL tests, LIKE. *)
Definition flat_cond (c : Cond) : bool := match c with CCmp _ _ _ _ | CNull _ _ | CLike _ _ => word_good c | _ => false end.

Definition join_query_ok (q : JoinQuery) : bool :=
  forallb name (jq_cols q) && name (jq_table q) && alias_ok (jq_alias q) && negb (bool_decide (jq_joins q = [])) &&
  forallb join_ok (jq_joins q) && forallb (fun p => flat_cond p.2) (jq_where q) &&
  free ["FROM"; "WHERE"; "GROUP"; "ORDER"; "LIMIT"] (word_chain (jq_where q)) && forallb (fun t => negb (is_punct t)) (word_chain (jq_where q)) &&
  forallb (fun p => name p.1) (jq_order q) && limit_ok (jq_limit q).

Definition join_command_with (c : Clause) (q : JoinQuery) : JoinCommand :=
  mkJoinCommand (jq_table q) (jq_alias q) false (jq_cols q) false (jq_joins q) c (jq_order q)
    (limits (jq_limit q)).1 (limits (jq_limit q)).2 false.
Definition join_command (q : JoinQuery) : JoinCommand := join_command_with (plain_clause (jq_where q)) q.

(** ** The chain is read back *)

Lemma name_ident t : name t = true -> ident t = true.
Proof. unfold name. by intros [? _]%andb_prop. Qed.

Lemma name_not t ws : name t = true -> forallb (fun w => existsb (String.eqb w) JOIN_WORDS) ws = true -> any_of ws (upper t) = false.
Proof. unfold name. intros [_ H%negb_true_iff]%andb_prop Hs. by apply (any_of_sub JOIN_WORDS). Qed.

Lemma name_word t w : name t = true -> existsb (String.eqb w) JOIN_WORDS = true -> bytes_eqb (upper t) (str w) = false.
Proof. intros Ht Hw. apply (free_word [w]); [by left|]. apply name_not; [done|]. cbn [forallb]. by rewrite Hw. Qed.

Lemma name_punct t : name t = true -> is_punct t = false.
Proof.
  intros H. pose proof (name_ident t H) as Hi. destruct (ident_taken t [] Hi (or_introl eq_refl)) as (_ & H1 & H2 & _). rewrite app_nil_r in H1, H2.
  destruct (ident_order t Hi) as (_ & _ & _ & _ & H3 & _). unfold is_punct, any_of. cbn [existsb]. by rewrite H1, H2, H3.
Qed.

Lemma scan_kind f k k' r : scan_joins (length (kind_words k') + f) 0 k (kind_words k' ++ r) = scan_joins f 0 k' r.
Proof. by destruct k'. Qed.

Lemma name_parens t : name t = true -> bytes_eqb t (str "(") = false /\ bytes_eqb t (str ")") = false /\ bytes_eqb t (str ",") = false.
Proof.
  intros H. pose proof (name_punct t H) as P. unfold is_punct, any_of in P. cbn [existsb] in P. rewrite !orb_false_iff in P. tauto.
Qed.

(** An alias of the base table is passed over. *)
Lemma scan_name f k t r : name t = true -> scan_joins (S f) 0 k (t :: r) = scan_joins f 0 k r.
Proof.
  intros Ht. destruct (name_parens t Ht) as (H1 & H2 & H3). cbn [scan_joins]. rewrite H1, H2, H3. change (0 <? 0)%Z with false.
  cbv zeta. by rewrite !(name_word t) by done.
Qed.

Lemma alias_cases a : alias_ok a = true -> (a = [] /\ alias_words a = []) \/ (name a = true /\ alias_words a = [a]).
Proof.
  unfold alias_ok, alias_words. destruct (bytes_eqb a []) eqn:E; [|auto]. left. split; [|done].
  unfold bytes_eqb in E. by apply bool_decide_eq_true in E.
Qed.

(** What may follow an entry: nothing or the next join. *)
Definition entry_ends (rest : list bytes) : Prop :=
  match rest with [] => True | t :: _ => any_of ["JOIN"; "LEFT"; "INNER"; "RIGHT"; "FULL"; "OUTER"; "CROSS"; "ON"] (upper t) = true end.

Lemma joins_words_ends l : entry_ends (joins_words l).
Proof. destruct l as [|[[k t a b] al] l]; [done|]. unfold joins_words. cbn [map]. rewrite mjoin_cons. by destruct k. Qed.

Lemma cross_entry_words t a rest :
  name t = true -> alias_ok a = true -> entry_ends rest ->
  cross_entry (t :: alias_words a ++ rest) = Some (mkPlanned (mkJoin CROSS t [] []) a, rest).
Proof.
  intros Ht Ha Hr. destruct (alias_cases a Ha) as [[-> ->]|[Hn ->]]; cbn [app cross_entry].
  - destruct rest as [|x rest]; [done|]. cbn [entry_ends] in Hr. by rewrite Hr.
  - by rewrite (name_not a _ Hn), (name_punct a Hn).
Qed.

Lemma join_entry_words k t a l r rest :
  alias_ok a = true ->
  join_entry k (t :: alias_words a ++ [str "ON"; l; str "="; r] ++ rest) = Some (mkPlanned (mkJoin k t l r) a, rest).
Proof.
  intros Ha. destruct (alias_cases a Ha) as [[-> ->]|[Hn ->]]; cbn [app join_entry length].
  - change (bytes_eqb (upper (str "ON")) (str "ON")) with true. cbn [on_clause]. change (bytes_eqb (str "=") (str "=")) with true. done.
  - rewrite (name_word a) by done. change (bytes_eqb (upper (str "ON")) (str "ON")) with true. cbn [on_clause].
    change (bytes_eqb (str "=") (str "=")) with true. done.
Qed.

Lemma scan_entry f p rest :
  join_ok p = true -> entry_ends rest ->
  scan_joins (S f) 0 (joinType (clause p)) (str "JOIN" :: entry_words p ++ rest) = ps ← scan_joins f 0 INNER rest; Some (p :: ps).
Proof.
  destruct p as [[k t l r] a]. unfold join_ok, entry_words, on_words. cbn [clause jc_table joinType tableAlias onLeft onRight].
  intros Hp Hr. rewrite !andb_true_iff in Hp. destruct Hp as [[Ht Ha] Hon].
  assert (scan_joins (S f) 0 k (str "JOIN" :: (t :: alias_words a ++ (if bool_decide (k = CROSS) then [] else [str "ON"; l; str "="; r])) ++ rest) =
    ('(p, r) ← (if bool_decide (k = CROSS) then cross_entry else join_entry k) ((t :: alias_words a ++ (if bool_decide (k = CROSS) then [] else [str "ON"; l; str "="; r])) ++ rest);
      ps ← scan_joins f 0 INNER r; Some (p :: ps))) as -> by (by destruct k).
  rewrite <- app_comm_cons, <- app_assoc. case_bool_decide as Ek.
  - subst k. apply bool_decide_eq_true in Hon as [-> ->]. cbn [app]. by rewrite cross_entry_words.
  - by rewrite join_entry_words.
Qed.

(** A printed chain. *)
Lemma scan_words l f :
  forallb join_ok l = true -> length (joins_words l) <= f -> scan_joins f 0 INNER (joins_words l) = Some l.
Proof.
  revert f. assert (forall f, forallb join_ok l = true -> length (joins_words l) <= f -> forall k, l <> [] \/ k = INNER ->
    scan_joins f 0 k (joins_words l) = Some l) as H; [|by intros f Hl Hf; apply H; auto].
  induction l as [|p l IH]; intros f Hl Hf k Hk; [by destruct f|]. cbn [forallb] in Hl. apply andb_true_iff in Hl as [Hp Hl].
  assert (joins_words (p :: l) = kind_words (joinType (clause p)) ++ str "JOIN" :: entry_words p ++ joins_words l) as E.
  { unfold joins_words. cbn [map]. rewrite mjoin_cons. unfold join_words. by rewrite <- app_assoc. }
  rewrite E in Hf |- *. rewrite length_app in Hf. cbn [length] in Hf. rewrite length_app in Hf.
  replace f with (length (kind_words (joinType (clause p))) + S (f - length (kind_words (joinType (clause p))) - 1)) by lia.
  rewrite scan_kind, scan_entry by (done || apply joins_words_ends). rewrite IH by (done || lia || by right). done.
Qed.

Lemma scan_chain q f :
  forallb join_ok (jq_joins q) = true -> alias_ok (jq_alias q) = true -> length (chain_words q) <= f ->
  scan_joins f 0 INNER (chain_words q) = Some (jq_joins q).
Proof.
  intros Hj Ha. unfold chain_words. destruct (alias_cases _ Ha) as [[_ ->]|[Hn ->]]; [by apply scan_words|].
  cbn [app length]. intros Hf. destruct f as [|f]; [lia|]. rewrite scan_name by done. apply scan_words; [done|lia].
Qed.

(** ** Places of words *)

Lemma place_over w i ts r : free [w] ts = true -> place_from (str w) i (ts ++ r) = place_from (str w) (i + length ts) r.
Proof.
  revert i. induction ts as [|t ts IH]; intros i; [by rewrite Nat.add_0_r|]. rewrite free_cons. intros [Ht%negb_true_iff H]%andb_true_iff.
  cbn [app place_from length]. rewrite (free_word [w] w t) by (first [by left|done]). rewrite IH by done. f_equal. lia.
Qed.

Lemma place_absent w i ts : free [w] ts = true -> place_from (str w) i ts = None.
Proof. intros H. rewrite <- (app_nil_r ts), place_over by done. done. Qed.

Lemma place_here w i t r : upper t = str w -> place_from (str w) i (t :: r) = Some i.
Proof. intros H. cbn. rewrite H. unfold bytes_eqb. by rewrite bool_decide_eq_true_2. Qed.

Lemma slice_mid {A} (p x s : list A) a b : a = length p -> b = length p + length x -> slice a b (p ++ x ++ s) = x.
Proof. intros -> ->. unfold slice. rewrite drop_app_length. apply take_app_length'. lia. Qed.

Lemma slice_empty {A} (l : list A) a b : b <= a -> slice a b l = [].
Proof. intros H. unfold slice. by replace (b - a) with 0 by lia. Qed.

Definition NAMES : list string := ["FROM"; "WHERE"; "GROUP"; "ORDER"; "LIMIT"].

Section places.
Context (A B C O L : list bytes) (tbl : bytes).
Hypothesis (FA : free NAMES A = true) (FB : free NAMES B = true) (FC : free ["FROM"; "GROUP"; "ORDER"; "LIMIT"] C = true).
Hypothesis (FO : free ["FROM"; "WHERE"; "GROUP"; "LIMIT"] O = true) (FL : free ["FROM"; "WHERE"; "GROUP"; "ORDER"] L = true).
Hypothesis (Ft : any_of NAMES (upper tbl) = false).
Hypothesis (SC : C = [] \/ exists r, C = str "WHERE" :: r) (SO : O = [] \/ exists r, O = str "ORDER" :: r).
Hypothesis (SL : L = [] \/ exists r, L = str "LIMIT" :: r).

Definition words : list bytes := str "SELECT" :: A ++ str "FROM" :: tbl :: B ++ C ++ O ++ L.

Lemma words_length : length words = 3 + length A + length B + length C + length O + length L.
Proof. unfold words. cbn [length]. rewrite length_app. cbn [length]. rewrite !length_app. lia. Qed.

Lemma free_one ws w ts : free ws ts = true -> existsb (String.eqb w) ws = true -> free [w] ts = true.
Proof. intros H Hw. revert H. apply free_sub. cbn [forallb]. by rewrite Hw. Qed.

Lemma words_from : place "FROM" words = 1 + length A.
Proof.
  unfold place, words. change (str "SELECT" :: A ++ ?r) with ([str "SELECT"] ++ A ++ r).
  rewrite place_over by done. rewrite place_over by (by apply (free_one NAMES)). by rewrite place_here.
Qed.

(** A word that only the part [X] can start with. *)
Lemma words_place w X Y :
  existsb (String.eqb w) NAMES = true -> w <> "FROM"%string -> upper (str w) = str w -> B ++ C ++ O ++ L = X ++ Y -> free [w] X = true ->
  place w words = match Y with t :: _ => if bytes_eqb (upper t) (str w) then 3 + length A + length X else place w words | [] => length words end.
Proof.
  intros Hn Hw Hu E HX. destruct Y as [|t r].
  - unfold place, words. rewrite E, app_nil_r. rewrite place_absent; [done|]. rewrite !free_cons, free_app, !free_cons, HX.
    rewrite (free_one _ w A FA) by done. assert (any_of [w] (upper tbl) = false) as -> by (apply (any_of_sub NAMES); [cbn [forallb]; by rewrite Hn|done]).
    unfold NAMES in Hn. cbn [existsb] in Hn. rewrite !orb_true_iff, !String.eqb_eq in Hn. destruct_or! Hn; subst; try done.
  - destruct (bytes_eqb (upper t) (str w)) eqn:Et; [|done]. unfold bytes_eqb in Et. apply bool_decide_eq_true in Et.
    unfold place, words. rewrite E. change (str "SELECT" :: A ++ str "FROM" :: tbl :: X ++ t :: r) with ([str "SELECT"] ++ A ++ [str "FROM"; tbl] ++ X ++ t :: r).
    assert (free [w] [str "SELECT"] = true /\ free [w] [str "FROM"] = true) as [F1 F2].
    { unfold NAMES in Hn. cbn [existsb] in Hn. rewrite !orb_true_iff, !String.eqb_eq in Hn. destruct_or! Hn; subst; try done. }
    rewrite place_over by done. rewrite place_over by by apply (free_one NAMES). rewrite place_over.
    2: { rewrite free_cons in F2 |- *. apply andb_true_iff in F2 as [-> _]. rewrite free_cons.
         by rewrite (any_of_sub NAMES [w] (upper tbl)) by (cbn [forallb]; by rewrite ?Hn). }
    rewrite place_over by done. rewrite place_here by done. cbn. lia.
Qed.

Lemma words_where : place "WHERE" words = match C with [] => length words | _ => 3 + length A + length B end.
Proof.
  destruct SC as [E|[r E]].
  - rewrite E. rewrite (words_place "WHERE" (B ++ C ++ O ++ L) []); [done|done|done|done|by rewrite app_nil_r|].
    rewrite E, !free_app. rewrite !(free_one _ _ B FB), !(free_one _ _ O FO), !(free_one _ _ L FL) by done. done.
  - rewrite (words_place "WHERE" B (C ++ O ++ L)); [|done..|by apply (free_one NAMES)]. by rewrite E.
Qed.

Lemma words_group : place "GROUP" words = length words.
Proof.
  rewrite (words_place "GROUP" (B ++ C ++ O ++ L) []); [done|done|done|done|by rewrite app_nil_r|].
  rewrite !free_app. by rewrite !(free_one _ _ B FB), !(free_one _ _ C FC), !(free_one _ _ O FO), !(free_one _ _ L FL) by done.
Qed.

Lemma words_order : place "ORDER" words = match O with [] => length words | _ => 3 + length A + length B + length C end.
Proof.
  destruct SO as [E|[r E]].
  - rewrite E. rewrite (words_place "ORDER" (B ++ C ++ O ++ L) []); [done|done|done|done|by rewrite app_nil_r|].
    rewrite E, !free_app. by rewrite !(free_one _ _ B FB), !(free_one _ _ C FC), !(free_one _ _ L FL) by done.
  - rewrite (words_place "ORDER" (B ++ C) (O ++ L)); [|done..|by rewrite <- app_assoc|].
    + rewrite E, length_app. cbn [app]. change (bytes_eqb (upper (str "ORDER")) (str "ORDER")) with true. cbv iota. lia.
    + rewrite free_app. by rewrite !(free_one _ _ B FB), !(free_one _ _ C FC) by done.
Qed.

Lemma words_limit : place "LIMIT" words = 3 + length A + length B + length C + length O.
Proof.
  assert (free ["LIMIT"] (B ++ C ++ O) = true) as HF.
  { rewrite !free_app. by rewrite !(free_one _ _ B FB), !(free_one _ _ C FC), !(free_one _ _ O FO) by done. }
  destruct SL as [E|[r E]].
  - rewrite (words_place "LIMIT" (B ++ C ++ O ++ L) []); [rewrite words_length, E; cbn [length]; lia|done|done|done|by rewrite app_nil_r|].
    by rewrite E, app_nil_r.
  - rewrite (words_place "LIMIT" (B ++ C ++ O) L); [|done..|by rewrite <- !app_assoc|done].
    rewrite E, !length_app. change (bytes_eqb (upper (str "LIMIT")) (str "LIMIT")) with true. cbv iota. lia.
Qed.

Lemma words_select : slice 1 (1 + length A) words = A.
Proof. apply (slice_mid [str "SELECT"]); done. Qed.

Lemma words_behind : drop (S (1 + length A)) words = tbl :: B ++ C ++ O ++ L.
Proof.
  unfold words. change (str "SELECT" :: A ++ str "FROM" :: tbl :: ?r) with ((str "SELECT" :: A) ++ [str "FROM"] ++ tbl :: r).
  rewrite app_assoc. apply drop_app_length'. rewrite length_app. cbn. lia.
Qed.

Lemma words_split : words = (str "SELECT" :: A ++ [str "FROM"; tbl]) ++ B ++ C ++ O ++ L.
Proof. unfold words. cbn [app]. by rewrite <- app_assoc. Qed.

Definition scan_end : nat :=
  Nat.min (Nat.min (place "WHERE" words) (place "GROUP" words)) (Nat.min (place "ORDER" words) (place "LIMIT" words)).

Lemma words_chain : slice (1 + length A + 2) scan_end words = B.
Proof.
  assert (scan_end = 3 + length A + length B) as ->.
  { unfold scan_end. rewrite words_where, words_group, words_order, words_limit, words_length.
    destruct C, O, L; cbn [length]; lia. }
  rewrite words_split. apply slice_mid; cbn [length]; rewrite length_app; cbn [length]; lia.
Qed.

Lemma words_clause :
  slice (place "WHERE" words) (Nat.min (place "GROUP" words) (Nat.min (place "ORDER" words) (place "LIMIT" words))) words = C.
Proof.
  destruct SC as [E|[r E]].
  - rewrite E, slice_empty; [done|]. rewrite words_where, words_group, E. lia.
  - assert (Nat.min (place "GROUP" words) (Nat.min (place "ORDER" words) (place "LIMIT" words)) = 3 + length A + length B + length C) as ->.
    { rewrite words_group, words_order, words_limit, words_length. destruct O, L; cbn [length]; lia. }
    rewrite words_where, E, <- E. rewrite words_split, (app_assoc _ B). apply slice_mid; rewrite !length_app; cbn [length]; rewrite ?length_app; cbn [length]; lia.
Qed.

Lemma words_tail : drop (place "LIMIT" words) words = L.
Proof.
  rewrite words_limit, words_split, !app_assoc. apply drop_app_length'. rewrite !length_app. cbn [length]. rewrite length_app. cbn. lia.
Qed.

Lemma words_order_part r :
  (O = [] /\ r = []) \/ (O = str "ORDER" :: str "BY" :: r /\ 1 <= length r) ->
  (if (place "ORDER" words + 2 <? length words) && kw (S (place "ORDER" words)) "BY" words
   then parseOrderByCols (slice (place "ORDER" words + 2) (place "LIMIT" words) words) else []) = parseOrderByCols r.
Proof.
  intros [[E ->]|[E Hr]].
  - rewrite words_order, E. assert ((length words + 2 <? length words) = false) as -> by (apply Nat.ltb_ge; lia). done.
  - assert (place "ORDER" words = 3 + length A + length B + length C) as -> by (rewrite words_order, E; done).
    rewrite words_limit, words_length, E. cbn [length].
    assert ((3 + length A + length B + length C + 2 <? 3 + length A + length B + length C + S (S (length r)) + length L) = true) as ->
      by (apply Nat.ltb_lt; lia). cbn [andb].
    assert (words = ((str "SELECT" :: A ++ [str "FROM"; tbl]) ++ B ++ C) ++ str "ORDER" :: str "BY" :: r ++ L) as Ew.
    { rewrite words_split, E, <- !app_assoc. done. }
    assert (length ((str "SELECT" :: A ++ [str "FROM"; tbl]) ++ B ++ C) = 3 + length A + length B + length C) as El.
    { cbn [app length]. rewrite !length_app. cbn [length]. lia. }
    assert (kw (S (3 + length A + length B + length C)) "BY" words = true) as ->.
    { unfold kw. rewrite Ew, <- El, lookup_app_r by lia. by replace (S _ - _) with 1 by lia. }
    rewrite Ew. change (str "ORDER" :: str "BY" :: r ++ L) with ([str "ORDER"; str "BY"] ++ r ++ L). rewrite app_assoc.
    f_equal. apply slice_mid; rewrite length_app, El; cbn [length]; lia.
Qed.
End places.

(** ** The text is read back *)

Lemma name_free ws t : name t = true -> forallb (fun w => existsb (String.eqb w) JOIN_WORDS) ws = true -> free ws [t] = true.
Proof. intros Ht Hs. rewrite free_cons. by rewrite (name_not t ws). Qed.

Lemma names_free l : forallb name l = true -> free NAMES (star_or (commas l)) = true.
Proof.
  assert (forall c l, forallb name (c :: l) = true -> free NAMES (commas (c :: l)) = true) as H.
  { intros c l0. revert c. induction l0 as [|c2 l0 IH]; intros c; cbn [forallb]; intros [Hc H]%andb_true_iff.
    - by apply name_free.
    - change (commas (c :: c2 :: l0)) with ([c] ++ [str ","] ++ commas (c2 :: l0)). rewrite !free_app, (name_free NAMES c) by done.
      by rewrite IH. }
  destruct l as [|c l]; [done|]. intros Hl. destruct l; by apply H.
Qed.

Lemma joins_free l : forallb join_ok l = true -> free NAMES (joins_words l) = true.
Proof.
  induction l as [|[[k t a b] al] l IH]; [done|]. cbn [forallb]. intros [Hp Hl]%andb_true_iff. unfold joins_words in *. cbn [map].
  rewrite mjoin_cons, free_app, IH by done. rewrite andb_true_r. unfold join_ok in Hp. cbn [clause jc_table tableAlias joinType onLeft onRight] in Hp.
  rewrite !andb_true_iff in Hp. destruct Hp as [[Ht Ha] Hon]. unfold join_words, entry_words, on_words. cbn [clause jc_table tableAlias joinType onLeft onRight].
  rewrite free_app. assert (free NAMES (kind_words k) = true) as -> by (by destruct k). cbn [andb].
  change (str "JOIN" :: t :: ?r) with ([str "JOIN"] ++ [t] ++ r). rewrite !free_app, (name_free NAMES t) by done.
  assert (free NAMES (alias_words al) = true) as -> by (destruct (alias_cases al Ha) as [[_ ->]|[Hn ->]]; [done|by apply name_free]).
  case_bool_decide as Ek; [done|]. apply andb_true_iff in Hon as [Hl1 Hr1].
  change [str "ON"; a; str "="; b] with ([str "ON"] ++ [a] ++ [str "="] ++ [b]). rewrite !free_app, (name_free NAMES a), (name_free NAMES b) by done. done.
Qed.

Lemma order_free_names l : forallb (fun p => name p.1) l = true -> free ["FROM"; "WHERE"; "GROUP"; "LIMIT"] (order_words (order_tokens l)) = true.
Proof.
  intros H. assert (free ["FROM"; "WHERE"; "GROUP"; "LIMIT"] (order_tokens l) = true) as Ho; [|by destruct (order_tokens l)].
  assert (forall p : bytes * bool, name p.1 = true -> free ["FROM"; "WHERE"; "GROUP"; "LIMIT"] (order_item p []) = true) as Hi.
  { intros [c []] Hc; unfold order_item; cbn [fst snd]; rewrite ?app_nil_r; [change [c; str "DESC"] with ([c] ++ [str "DESC"]); rewrite free_app|];
      by rewrite name_free. }
  induction l as [|p l IH]; [done|]. cbn [forallb] in H. apply andb_true_iff in H as [Hp H]. destruct l as [|p2 l]; [by apply Hi|].
  change (order_tokens (p :: p2 :: l)) with (order_item p [] ++ [str ","] ++ order_tokens (p2 :: l)). by rewrite !free_app, Hi, IH.
Qed.

Lemma join_cols_commas cols : forallb name cols = true -> join_cols [] false (star_or (commas cols)) = cols.
Proof.
  assert (forall c cols, forallb name (c :: cols) = true -> join_cols [] false (commas (c :: cols)) = c :: cols) as H.
  { clear. intros c cols. revert c. induction cols as [|c2 cols IH]; intros c; cbn [forallb]; intros [Hc H]%andb_true_iff.
    all: destruct (name_parens c Hc) as (H1 & H2 & H3); pose proof (name_ident c Hc) as Hi.
    all: assert (any_of ["("; ")"] c = false) as H4 by (unfold any_of; cbn [existsb]; by rewrite H1, H2).
    all: assert (bytes_eqb (upper c) (str "AS") = false) as H5 by (by apply name_word).
    all: destruct (ident_trim c Hi) as (_ & _ & H6).
    all: assert (push_column c = [c]) as Hpush by (unfold push_column; rewrite H6; cbn [List.filter]; by rewrite ident_is_column).
    - cbn [commas join_cols]. rewrite H3, H5, H4. unfold add_word. change (bytes_eqb [] []) with true. cbv iota. done.
    - change (commas (c :: c2 :: cols)) with (c :: str "," :: commas (c2 :: cols)). specialize (IH c2 H).
      revert IH. generalize (commas (c2 :: cols)) as l. intros l IH. cbn [join_cols]. rewrite H3, H5, H4.
      change (bytes_eqb (str ",") (str ",")) with true. unfold add_word. change (bytes_eqb [] []) with true. cbv iota. by rewrite Hpush, IH. }
  intros Hc. destruct cols as [|c [|c2 cols]]; [done|by apply H|by apply H].
Qed.

Lemma skip_names w cols : existsb (String.eqb w) JOIN_WORDS = true -> forallb name cols = true ->
  kw 0 w (star_or (commas cols)) = false /\ skip_kw w (star_or (commas cols)) = star_or (commas cols).
Proof.
  intros Hw Hc. assert (kw 0 w (star_or (commas cols)) = false) as E; [|by unfold skip_kw; rewrite E].
  destruct cols as [|c [|c2 cols]]; cbn [forallb] in Hc.
  - cbn [star_or commas]. unfold kw. cbn. unfold JOIN_WORDS in Hw. cbn [existsb] in Hw. rewrite !orb_true_iff, !String.eqb_eq in Hw.
    destruct_or! Hw; subst; try done.
  - apply andb_true_iff in Hc as [Hc _]. by apply name_word.
  - apply andb_true_iff in Hc as [Hc _]. by apply name_word.
Qed.

Lemma name_not_count c : name c = true -> any_of COUNT_STAR (upper c) = false.
Proof.
  intros Hi%name_ident. assert (42%Z ∉ upper c) as Hs.
  { unfold upper. intros (d & E & Hd)%list_elem_of_fmap. assert (d = 42%Z) as ->.
    { revert E. unfold to_upper, is_lower. destruct (_ && _) eqn:E; intros; lia. }
    by apply (ident_without c 42%Z Hi). }
  unfold any_of, COUNT_STAR. cbn [existsb]. rewrite !orb_false_iff. split_and!; try done; apply bytes_eqb_neq; intros E; apply Hs; rewrite E; by_decide.
Qed.

Lemma forallb_weaken {A} (f g : A -> bool) l : (forall x, f x = true -> g x = true) -> forallb f l = true -> forallb g l = true.
Proof. intros H. rewrite !forallb_Forall. intros Hl. by eapply Forall_impl. Qed.

Lemma flat_word l : forallb (fun p => flat_cond p.2) l = true -> forallb (fun p : bool * Cond => word_good p.2) l = true.
Proof. apply forallb_weaken. intros [b c]. cbn. unfold flat_cond. by destruct c. Qed.

(** The word after the table is its alias, or belongs to the chain. *)
Lemma chain_alias q rest :
  alias_ok (jq_alias q) = true -> jq_joins q <> [] -> from_option base_alias [] (head (chain_words q ++ rest)) = jq_alias q.
Proof.
  intros Ha Hn. unfold chain_words. destruct (alias_cases _ Ha) as [[-> ->]|[Hal ->]].
  - destruct (jq_joins q) as [|[[[] t a b] al] l]; done.
  - cbn [app head from_option]. unfold base_alias. by rewrite name_punct, name_not.
Qed.

Lemma parse_join_tokens q s :
  join_query_ok q = true -> tokenizeFull s = join_tokens q -> parseJoinQuery s = Some (join_command q).
Proof.
  intros Hq Hs. unfold join_query_ok in Hq. rewrite !andb_true_iff in Hq.
  destruct Hq as [[[[[[[[[Hc Ht] Ha] Hn] Hj] Hw] Hf] Hp] Ho] Hl]. apply negb_true_iff, bool_decide_eq_false in Hn.
  unfold parseJoinQuery. rewrite Hs. unfold join_tokens.
  set (A := star_or (commas (jq_cols q))). set (B := chain_words q). set (C := clause_words (jq_where q)).
  set (O := order_words (order_tokens (jq_order q))). set (L := limit_words (jq_limit q)).
  change (str "SELECT" :: A ++ str "FROM" :: jq_table q :: B ++ C ++ O ++ L) with (words A B C O L (jq_table q)).
  assert (free NAMES A = true) as FA by by apply names_free.
  assert (free NAMES B = true) as FB.
  { unfold B, chain_words. rewrite free_app, joins_free by done. destruct (alias_cases _ Ha) as [[_ ->]|[Hal ->]]; [done|]. by rewrite name_free. }
  assert (free ["FROM"; "GROUP"; "ORDER"; "LIMIT"] C = true) as FC by (by apply clause_words_free; [|apply (free_sub NAMES)]).
  assert (free ["FROM"; "WHERE"; "GROUP"; "LIMIT"] O = true) as FO by by apply order_free_names.
  assert (free ["FROM"; "WHERE"; "GROUP"; "ORDER"] L = true) as FL by (by apply limit_free).
  assert (any_of NAMES (upper (jq_table q)) = false) as Ft by by apply name_not.
  assert (C = [] \/ exists r, C = str "WHERE" :: r) as SC by (unfold C, clause_words; destruct (word_chain _); [by left|right; by eexists]).
  assert (O = [] \/ exists r, O = str "ORDER" :: r) as SO by (unfold O; destruct (order_tokens _); [by left|right; by eexists]).
  assert (L = [] \/ exists r, L = str "LIMIT" :: r) as SL by (unfold L; destruct (jq_limit q) as [[n [m|]]|]; [right; by eexists|right; by eexists|by left]).
  rewrite words_from, words_behind, words_select by done. rewrite (words_order_part A B C O L (jq_table q)) with (r := order_tokens (jq_order q)); try done.
  2: { destruct (order_tokens_shape (jq_order q)) as [[? ->]|?]; [by left|by right]. }
  rewrite words_tail, words_clause by done. fold (scan_end A B C O L (jq_table q)). rewrite words_chain by done.
  destruct (skip_names "DISTINCT" (jq_cols q) eq_refl Hc) as [Hd Sd], (skip_names "ALL" (jq_cols q) eq_refl Hc) as [_ Sa].
  fold A in Hd, Sd, Sa. rewrite Hd, Sd, Sa.
  assert (join_cols [] false A = jq_cols q) as -> by (by apply join_cols_commas).
  assert (scan_joins (length B) 0 INNER B = Some (jq_joins q)) as -> by (by apply scan_chain).
  assert (parseOrderByCols (order_tokens (jq_order q)) = jq_order q) as ->.
  { apply order_tokens_cols. revert Ho. apply forallb_weaken. intros [c d]. apply name_ident. }
  assert (parseLimit L = limits (jq_limit q)) as -> by (by apply parseLimit_words).
  rewrite words_group by done.
  assert ((length (words A B C O L (jq_table q)) + 1 <? length (words A B C O L (jq_table q))) = false) as -> by (apply Nat.ltb_ge; lia).
  cbn [andb].
  assert (List.filter (fun t => negb (is_punct t)) C = C) as ->.
  { apply List.forallb_filter_id. unfold C, clause_words, where_tokens. by destruct (word_chain _). }
  assert (match C with [] => no_clause | _ => parseWhere C no_clause end = plain_clause (jq_where q)) as ->.
  { pose proof (parse_clause_words (jq_where q) (flat_word _ Hw)) as E. fold C in E. by destruct C. }
  assert (from_option base_alias [] (head (B ++ C ++ O ++ L)) = jq_alias q) as ->.
  { by apply chain_alias. }
  destruct (limits (jq_limit q)) as [lim off] eqn:El. unfold join_command, join_command_with. rewrite El. cbn [fst snd].
  destruct (jq_joins q) as [|p ps]; [done|].
  destruct (jq_cols q) as [|c [|c2 cols]] eqn:Ec; [done| |done].
  cbn [forallb] in Hc. apply andb_true_iff in Hc as [Hc _]. rewrite (name_not_count c) by done. by rewrite andb_false_r.
Qed.

(** The clause of a join says what is written, if it has one connective. *)
Lemma join_clause_says q :
  join_query_ok q = true -> one_conn (jq_where q) = true -> says (jq_where q) (plain_clause (jq_where q)).
Proof.
  intros Hq Ho. assert (forallb (fun p => flat_cond p.2) (jq_where q) = true) as Hf.
  { unfold join_query_ok in Hq. rewrite !andb_true_iff in Hq. tauto. }
  rewrite <- word_meaning by by apply flat_word. apply clause_says. unfold whole. rewrite Ho. cbn [andb].
  revert Hf. apply forallb_weaken. intros [b c]. unfold flat_cond. by destruct c.
Qed.

(** [C27] The text of a join is read as it is meant: with any blanks between its tokens,
    a query over a chain of joins of every kind, with aliases, ON clauses,
    conditions, ORDER BY and LIMIT, gives back its tables, kinds, sides, columns,
    order and limits, without DISTINCT, COUNT or GROUP BY, and a clause that says
    what is written ([says]).  The conditions are comparisons, NULL tests and LIKE
    with one connective between them: the parser deletes the parentheses of groups,
    calls and IN lists ([join_parentheses_lost]), and of several connectives keeps the
    last ([join_last_connective]). *)
Theorem join_text_parses q s :
  join_query_ok q = true -> one_conn (jq_where q) = true -> Lexes (join_tokens q) s ->
  exists c, parseJoinQuery s = Some (join_command_with c q) /\ says (jq_where q) c.
Proof.
  intros Hq Ho Hs%Lexes_tokenizeFull. exists (plain_clause (jq_where q)). split; [by apply parse_join_tokens|by apply join_clause_says].
Qed.

(** ** Witness *)

Definition tour_query : JoinQuery :=
  mkJoinQuery [str "p.name"; str "o.id"] (str "people") (str "p")
    [mkPlanned (mkJoin LEFT (str "orders") (str "p.id") (str "o.person")) (str "o");
     mkPlanned (mkJoin CROSS (str "years") [] []) [];
     mkPlanned (mkJoin FULL (str "towns") (str "p.town") (str "towns.id")) []]
    [(true, CCmp (str "o.total") (str ">") (str "7") []); (true, CNull false (str "p.town"))]
    [(str "o.id", true); (str "p.name", false)] (Some (10%Z, Some 5%Z)).

Definition tour_text : string :=
  "SELECT p.name,o.id FROM people p LEFT JOIN orders o ON p.id = o.person CROSS JOIN years FULL OUTER JOIN towns ON p.town = towns.id WHERE o.total > 7 AND p.town IS NOT NULL ORDER BY o.id DESC, p.name LIMIT 10 OFFSET 5".

Lemma tour_lexes : Lexes (join_tokens tour_query) (str tour_text).
Proof.
  assert (lexable (str tour_text) = true) as Hl by (vm_compute; reflexivity).
  destruct (lexable_Lexes _ Hl) as [ts Hts]. rewrite <- (Lexes_tokenizeFull _ _ Hts) in Hts.
  assert (tokenizeFull (str tour_text) = join_tokens tour_query) as <- by (vm_compute; reflexivity). exact Hts.
Qed.

Lemma join_text_parses_witness :
  join_query_ok tour_query = true /\
  exists c, parseJoinQuery (str tour_text) = Some (join_command_with c tour_query) /\ says (jq_where tour_query) c.
Proof.
  assert (join_query_ok tour_query = true) as Hq by (vm_compute; reflexivity). split; [exact Hq|].
  apply (join_text_parses tour_query); [exact Hq|vm_compute; reflexivity|exact tour_lexes].
Defined.

(** ** Clauses that are not read as they are written *)

Definition join_where (s : string) : Clause :=
  match parseJoinQuery (str ("SELECT * FROM a JOIN b ON a.id = b.id WHERE " ++ s)) with Some c => j_clause c | None => no_clause end.

(** The last connective is that of the whole clause. *)
Lemma join_last_connective : whereLogic (join_where "a.x = 1 OR a.y = 2 AND b.z = 3") = AND.
Proof. vm_compute. reflexivity. Qed.

(** Without its parentheses a group is part of the clause around it. *)
Lemma join_parentheses_lost :
  join_where "a.x = 1 AND (a.y = 2 OR b.z = 3)" = join_where "a.x = 1 AND a.y = 2 OR b.z = 3".
Proof. vm_compute. reflexivity. Qed.
