(* ===== verification/JoinQueries.v ===== *)
(** * A join from its text to the answer ([src/dispatch.hpp]: the JOIN branch of the
    SELECT case and of [dispatch_executeSelectToTable], [dispatch_evalExprAtom],
    [dispatch_evalExprFull], [dispatch_projectExprs], [dispatch_hasExprColumns];
    the end of [Engine::executeJoins])

    Shown: a chain of INNER joins over tables of a schema, written without
    aliases, is answered by the combinations of rows that its ON clauses and its
    conditions select, in the order it asks for, whichever way the two planners
    turn the chain round.  The lemmas at the end show what else the text can
    mean.  Foreign tables and GROUP BY over a join are left out. *)

From S2P Require Import Prelude Index BTree Partition Table Mvcc Locks Wal Transaction Joins Arith Where Select Query Rewriter Columns Triggers Mutation Integrity Lexer WhereParser WhereSyntax Statements SelectParser SelectSyntax Projection Queries JoinMeaning JoinOrder JoinParser.

(** ** Expressions over the columns of a join *)

(** The value of the first column whose table and bare name pass the test. *)
Definition first_named (p : bytes -> bool) (colName : bytes) (cs : list Column) (vs : list bytes) : option bytes :=
  first_match (fun c => bytes_eqb (bareColOf (c_name c)) colName && p (tblOf (c_name c))) cs vs.

(** [t] ends with [w]; a dot in front of [w] is not asked for. *)
Definition ends_with (w t : bytes) : bool := (length w <=? length t) && bytes_eqb (drop (length t - length w) t) w.

(** A column, or the text itself.  The first dot ends the alias. *)
Definition evalExprAtom (aliasMap : gmap bytes bytes) (cs : list Column) (vs : list bytes) (tok : bytes) : bytes :=
  let '(userAlias, colName) := match find_char DOT tok with Some p => (take p tok, drop (S p) tok) | None => ([], tok) end in
  if bytes_eqb userAlias [] then
    default tok (first_match (fun c => bytes_eqb (bareColOf (c_name c)) colName || bytes_eqb (c_name c) colName) cs vs)
  else
    let actualTbl := default [] (aliasMap !! userAlias) in
    let wantTbl := if bytes_eqb actualTbl [] then userAlias else actualTbl in
    match first_named (fun t => bytes_eqb t wantTbl) colName cs vs with
    | Some v => v
    | None =>
        match first_named (fun t => bytes_eqb t [] || ends_with wantTbl t) colName cs vs with
        | Some v => v
        | None => default tok (first_named (fun _ => true) colName cs vs)
        end
    end.

Definition integer_text (s : bytes) : bool := negb (bytes_eqb s []) && forallb (fun c => (c =? 45)%Z || is_digit c) s.

Section expressions.
Context {DB : Double}.
(** How a double is printed here: without decimals if it is whole, with six otherwise. *)
Context (print_fixed : dbl -> bytes).

(** Overflow of the integers is undefined in the code. *)
Definition int_op (op : bytes) (l r : Z) : Z :=
  if bytes_eqb op (str "+") then (l + r)%Z
  else if bytes_eqb op (str "-") then (l - r)%Z
  else if bytes_eqb op (str "*") then (l * r)%Z
  else if (r =? 0)%Z then 0%Z else Z.quot l r.

Definition double_op (op : bytes) (l r : dbl) : dbl :=
  if bytes_eqb op (str "+") then dadd l r
  else if bytes_eqb op (str "-") then dsub l r
  else if bytes_eqb op (str "*") then dmul l r
  else if diszero r then dzero else ddiv l r.

(** [None] where the conversions throw. *)
Definition binary (op lv rv : bytes) : option bytes :=
  if integer_text lv && integer_text rv then l ← stoll lv; r ← stoll rv; Some (to_string (int_op op l r))
  else l ← stod lv; r ← stod rv; Some (print_fixed (double_op op l r)).

(** One column, two of them with an operator, or all of them one behind the other. *)
Definition evalExprFull (aliasMap : gmap bytes bytes) (cs : list Column) (vs : list bytes) (expr : bytes) : bytes :=
  let atom := evalExprAtom aliasMap cs vs in
  let parts := Prelude.words expr in
  let concat := mjoin (map atom parts) in
  match parts with
  | [p] => atom p
  | [l; op; r] => if any_of ["+"; "-"; "*"; "/"] op then default concat (binary op (atom l) (atom r)) else concat
  | _ => concat
  end.

(** The expression and the heading of an item of the select list. *)
Definition item_spec (sc : bytes) : bytes * bytes :=
  match find_sub (str " AS ") (Arith.upper sc) with
  | Some p => (strip_spaces (take p sc), strip_spaces (drop (p + 4) sc))
  | None => (sc, bareColOf sc)
  end.

Definition projectExprs (aliasMap : gmap bytes bytes) (selectCols : list bytes) (src : Table BTree) : result (Table BTree) :=
  let specs := map item_spec selectCols in
  insert_all (table (str "__proj") (map (fun sp => column sp.2 (str "TEXT")) specs))
    (map (fun r => row_of (map (fun sp => evalExprFull aliasMap (columns_ src) (values r) sp.1) specs)) (rows_ src)).
End expressions.

Definition hasExprColumns (cols : list bytes) : bool :=
  existsb (fun sc => bool_decide (is_Some (find_sub (str " AS ") (Arith.upper sc))) ||
    existsb (fun c => (c =? 43) || (c =? 45) || (c =? 42) || (c =? 47) || (c =? 46))%Z sc) cols.

(** ** The query *)

Section joins.
Context {DB : Double} {SS : StdSort}.
Context (regex_search : bytes -> bytes -> option bool).
Context (evalExprStr : bytes -> list Column -> list bytes -> bytes).
Context (match_against : list bytes -> bytes -> bytes -> list Column -> list bytes -> bool).
Context (formatNum print_fixed : dbl -> bytes) (dcount : nat -> dbl).
Context (dceil : dbl -> dbl) (tenth huge : dbl) (g_costConsts : CostConstants) (getStats : bytes -> option TableStats).
Context (advisor : Advisor) (sort : list bytes -> list nat).
Context (applyVectorOrderBy : list (bytes * bool) -> Table BTree -> result (Table BTree)).
Context (workers threshold : nat) (rewriting : bool).

Abbreviation rowMatches T := (Where.rowMatches regex_search evalExprStr match_against formatNum dcount T).
Abbreviation PlanCache := (gmap bytes JoinPlan).

(** The rows of the whole chain that satisfy WHERE are copied. *)
Fixpoint insert_if (test : Row -> result bool) (rows : list Row) (t : Table BTree) : result (Table BTree) :=
  match rows with
  | [] => Ok t
  | r :: rows' => b ← test r; t ← (if (b : bool) then insert_row t r else Ok t); insert_if test rows' t
  end.

Definition join_where (T : gmap bytes (Table BTree)) (conds : list WhereCondition) (logic : bytes) (t : Table BTree) : result (Table BTree) :=
  match conds with
  | [] => Ok t
  | _ => insert_if (fun r => rowMatches T t r conds logic) (rows_ t) (table [] (columns_ t))
  end.

Definition resolve_in (e : Mutation.Engine) : bytes -> bytes := resolveTableName (session e) (tables e).

(** Aliases, the smaller of the first two tables first, the chain, WHERE.  Only the
    right to read the first table is asked for, and no policies are applied. *)
Definition run_joins (cmd : JoinCommand) (conds : list WhereCondition) (planCache_ : PlanCache) (e : Mutation.Engine)
  : bytes * list PlannedJoin * result (Table BTree) * PlanCache :=
  let joins := resolveJoinAliases (j_alias cmd) (j_table cmd) (j_joins cmd) in
  let '(base, joins) := optimizeJoinOrder (estimateRowCount getStats (tables e) (resolve_in e)) (j_table cmd) joins in
  let '(r, planCache_) := execute_planned dcount dceil tenth huge g_costConsts getStats (tables e) (resolve_in e) advisor sort base joins planCache_ in
  (base, joins, (t ← r; join_where (tables e) conds (whereLogic (j_clause cmd)) t), planCache_).

(** The select list, for the order of the chain that was executed. *)
Definition join_shape (cmd : JoinCommand) (base : bytes) (joins : list PlannedJoin) (t : Table BTree) : result (Table BTree) :=
  t ← sortWithVector applyVectorOrderBy (j_order cmd) t;
  match j_cols cmd with
  | [] => Ok t
  | cols => if hasExprColumns cols then projectExprs print_fixed (alias_map (j_alias cmd) base joins) cols t
            else Projection.project formatNum dcount cols t
  end.

(** The console; [None] for GROUP BY.  DISTINCT and FOR UPDATE are not looked at. *)
Definition dispatch_join (cmd : JoinCommand) (conds : list WhereCondition) (planCache_ : PlanCache) (e : Mutation.Engine)
  : result (option Answer) * PlanCache :=
  match (checkPrivilege SELECT (j_table cmd) e).1 with
  | Throw x => (Throw x, planCache_)
  | Ok _ =>
      let '(base, joins, r, planCache_) := run_joins cmd conds planCache_ e in
      (t ← r;
       if j_count cmd then Ok (Some (CountOf (length (rows_ t))))
       else if grouped cmd then Ok None
       else t ← join_shape cmd base joins t; Ok (Some (Printed t (j_limit cmd) (j_offset cmd) None)), planCache_)
  end.

(** The wire protocols: neither LIMIT nor DISTINCT is looked at. *)
Definition executeJoinToTable (cmd : JoinCommand) (planCache_ : PlanCache) (e : Mutation.Engine) : result (option (Table BTree)) * PlanCache :=
  match resolve_subqueries regex_search evalExprStr match_against formatNum dcount workers threshold e (subqueries (j_clause cmd)) (whereConds (j_clause cmd)) with
  | Throw x => (Throw x, planCache_)
  | Ok conds =>
      let '(base, joins, r, planCache_) := run_joins cmd conds planCache_ e in
      (t ← r;
       if j_count cmd then
         t ← insert_row (table [] [column (str "count") (str "INT")]) (row_of [to_string (Z.of_nat (length (rows_ t)))]); Ok (Some t)
       else if grouped cmd then Ok None
       else t ← join_shape cmd base joins t; Ok (Some t), planCache_)
  end.

(** From the text; [None] if it is no join or has a GROUP BY. *)
Definition execute_join (inputRaw : bytes) (planCache_ : PlanCache) (e : Mutation.Engine) : result (option Answer) * PlanCache :=
  let '(input, file, _) := cut_outfile (strip_back is_end inputRaw) in
  let '(input, _) := cut_for_update input in
  match parse_select input, bytes_eqb file [], parseJoinQuery input with
  | QJoin, true, Some cmd =>
      match resolve_subqueries regex_search evalExprStr match_against formatNum dcount workers threshold e (subqueries (j_clause cmd)) (whereConds (j_clause cmd)) with
      | Throw x => (Throw x, planCache_)
      | Ok conds => dispatch_join cmd (rewritten rewriting (j_clause cmd) conds) planCache_ e
      end
  | _, _, _ => (Ok None, planCache_)
  end.
End joins.

(** ** Names of a schema *)

Lemma qual_qual sch n c : qual sch (qual n c) = qual (qual sch n) c.
Proof. unfold qual. by rewrite <- app_assoc. Qed.

Lemma find_qual n c : plain_name n -> find_char DOT (qual n c) = Some (length n).
Proof.
  intros H. unfold qual. induction n as [|x n IH]; cbn [app find_char length]; [by rewrite Z.eqb_refl|].
  apply not_elem_of_cons in H as [Hx H]. rewrite IH by done. by rewrite (proj2 (Z.eqb_neq x DOT)).
Qed.

Lemma take_qual n c : take (length n) (qual n c) = n.
Proof. apply take_app_length. Qed.
Lemma drop_qual n c : drop (S (length n)) (qual n c) = c.
Proof. unfold qual. change (S (length n)) with (1 + length n). by rewrite Nat.add_comm, <- drop_drop, drop_app_length. Qed.

Lemma bare_qual n c : plain_name n -> bare (qual n c) = c.
Proof. intros H. unfold bare. by rewrite find_qual, drop_qual. Qed.

Lemma table_of_suffix (y x : bytes) :
  length x < length y -> drop (length y - length x) y = x -> nth (length y - length x - 1) y 0%Z = DOT ->
  y = qual (take (length y - length x - 1) y) x.
Proof.
  intros Hl Hd Ht. set (d := length y - length x) in *. unfold qual. rewrite <- Hd. rewrite <- (take_drop (d - 1) y) at 1. f_equal.
  destruct (drop (d - 1) y) as [|z r] eqn:Er.
  - apply (f_equal length) in Er. rewrite length_drop in Er. cbn in Er. lia.
  - assert (nth (d - 1) y 0%Z = z) as Ez.
    { rewrite <- (take_drop (d - 1) y), Er, app_nth2; rewrite length_take; [|lia]. by replace (_ - _) with 0 by lia. }
    rewrite Ez in Ht. subst z. f_equal. replace d with ((d - 1) + 1) at 1 by lia. by rewrite <- drop_drop, Er.
Qed.

Lemma first_match_find (p : Column -> bool) (P : Column -> Prop) {dec : forall x, Decision (P x)} cs vs :
  length vs = length cs -> (forall c, c ∈ cs -> p c = true <-> P c) ->
  first_match p cs vs = ('(i, _) ← list_find P cs; vs !! i).
Proof.
  revert vs. induction cs as [|c cs IH]; intros [|v vs]; try done. cbn [length first_match list_find]. intros [= Hl] H.
  destruct (p c) eqn:E.
  - rewrite decide_True by (by apply H; [left|]). done.
  - rewrite decide_False by (rewrite <- H by left; by rewrite E). rewrite IH by (done || (intros; apply H; by right)).
    by destruct (list_find P cs) as [[i x]|].
Qed.

(** With a qualifier the first column that fits is taken. *)
Lemma colOf_loop_find (P : Column -> Prop) {dec : forall x, Decision (P x)} i cs raw pre :
  pre <> [] ->
  (forall c, c ∈ cs -> (bareColOf (c_name c) = raw /\ table_part_ok (tblOf (c_name c)) pre = true) <-> P c) ->
  colOf_loop i cs raw pre None 0 = (fun j => i + j) <$> (fst <$> list_find P cs).
Proof.
  intros Hpre. revert i. induction cs as [|c cs IH]; intros i H; [done|]. cbn [colOf_loop list_find].
  specialize (IH (S i) (fun c Hc => H c (list_elem_of_further _ _ _ Hc))). specialize (H c (list_elem_of_here _ _)).
  unfold bareColOf, tblOf in H. destruct (split_name (c_name c)) as [p suf]. cbn [fst snd] in H.
  assert (forall o : option (nat * Column), (fun j => S i + j) <$> (fst <$> o) = (fun j => i + j) <$> (fst <$> (prod_map S id <$> o))) as Hs.
  { intros [[j x]|]; [|done]. cbn. f_equal. lia. }
  rewrite Hs in IH. unfold bytes_eqb at 1. case_bool_decide as Eb; cbn [negb].
  - unfold bytes_eqb at 1. rewrite bool_decide_eq_false_2 by done. cbn [negb]. destruct (table_part_ok _ pre) eqn:Et; cbn [negb].
    + rewrite decide_True by (apply H; done). cbn. f_equal. lia.
    + rewrite decide_False by (rewrite <- H; intros [_ ?]; done). done.
  - rewrite decide_False by (rewrite <- H; intros [? _]; done). done.
Qed.

(** ** References to the columns of a chain

    Every column is named schema, table and column; a text refers to it by table
    and column. *)
Section references.
Context (sch : bytes) (tabs : list bytes) (cols_of : bytes -> list bytes) (cs : list Column).
Hypothesis (sch_plain : plain_name sch).
Hypothesis (tabs_plain : forall n, n ∈ tabs -> plain_name n /\ n <> []).
Hypothesis (cols_plain : forall n c, c ∈ cols_of n -> plain_name c).
Hypothesis (tabs_apart : forall a b, a ∈ tabs -> b ∈ tabs -> a `suffix_of` b -> a = b).
Hypothesis (cs_nodup : NoDup (names cs)).
Hypothesis (cs_names : forall k, k ∈ names cs <-> exists n c, n ∈ tabs /\ c ∈ cols_of n /\ k = qual (qual sch n) c).

Definition refers (r : bytes) : Prop := exists n c, n ∈ tabs /\ c ∈ cols_of n /\ r = qual n c.

Lemma column_name k : k ∈ cs -> exists n c, n ∈ tabs /\ c ∈ cols_of n /\ c_name k = qual (qual sch n) c.
Proof. intros H. apply cs_names. by apply list_elem_of_fmap_2. Qed.

Lemma bare_column k : k ∈ cs -> ~ plain_name (bare (c_name k)).
Proof.
  intros (n & c & _ & _ & ->)%column_name. rewrite <- qual_qual, bare_qual by done. unfold plain_name, qual. intros Hp. apply Hp. apply elem_of_app. right. by left.
Qed.

Lemma find_none v : plain_name (bare v) -> findColIdx cs v = None.
Proof.
  intros Hv. unfold findColIdx. destruct (list_find (fun c => c_name c = v) cs) as [[i k]|] eqn:E.
  - apply list_find_Some in E as (Hk & <- & _). by destruct (bare_column k (list_elem_of_lookup_2 _ _ _ Hk)).
  - apply fmap_None, list_find_None, Forall_forall. intros k Hk E'. apply (bare_column k Hk). by rewrite E'.
Qed.

Lemma refers_bare r : refers r -> plain_name (bare r).
Proof. intros (n & c & Hn & Hc & ->). rewrite bare_qual by apply (tabs_plain n Hn). by eapply cols_plain. Qed.

(** The column of a reference. *)
Lemma refers_column r : refers r -> exists i k, list_find (fun c => c_name c = qual sch r) cs = Some (i, k) /\ names cs !! i = Some (qual sch r).
Proof.
  intros (n & c & Hn & Hc & ->). apply find_exact; [done|]. apply cs_names. exists n, c. by rewrite qual_qual.
Qed.

Lemma table_part_qual n m : plain_name n -> plain_name m -> m <> [] -> table_part_ok (qual sch n) m = true <-> n = m.
Proof.
  intros Hn Hm Hne. assert (qual sch n <> []) as H0 by (unfold qual; by destruct sch).
  assert (qual sch n <> m) as H1 by (intros <-; apply Hm; unfold qual; apply elem_of_app; right; by left).
  unfold table_part_ok, bytes_eqb. rewrite !bool_decide_eq_false_2 by done. cbn [orb]. cbv zeta. rewrite !andb_true_iff, bool_decide_eq_true, Z.eqb_eq, Nat.ltb_lt.
  split.
  - intros ((Hl & Hd) & Ht). pose proof (table_of_suffix (qual sch n) m Hl Hd Ht) as E. by apply qual_inj in E as [_ ?].
  - intros <-. unfold qual. rewrite length_app. cbn [length]. replace (length sch + S (length n) - length n) with (S (length sch)) by lia.
    split_and!; [lia| |].
    + change (sch ++ DOT :: n) with (sch ++ [DOT] ++ n). rewrite app_assoc. apply drop_app_length'. rewrite length_app. cbn. lia.
    + rewrite app_nth2 by lia. by replace (S (length sch) - 1 - length sch) with 0 by lia.
Qed.

Lemma find_reference r : refers r -> exists i, colOf_cols cs r = Some i /\ names cs !! i = Some (qual sch r).
Proof.
  intros Hr. destruct (refers_column r Hr) as (i & k & Hf & Hi). exists i. split; [|done].
  pose proof (find_none r (refers_bare r Hr)) as Hn. unfold findColIdx in Hn. unfold colOf_cols.
  destruct (list_find (fun c => c_name c = r) cs) as [[]|]; [done|]. destruct Hr as (n & c & Hn' & Hc & ->).
  pose proof (cols_plain n c Hc) as Hpc. destruct (tabs_plain n Hn') as [Hpn Hne]. rewrite split_qual by done. cbn [default from_option id].
  rewrite (colOf_loop_find (fun k => c_name k = qual sch (qual n c))); [by rewrite Hf|done|].
  intros x (m & d & Hm & Hd & ->)%column_name. rewrite bareColOf_qual, tblOf_qual by (by eapply cols_plain).
  rewrite qual_qual, table_part_qual by (done || apply (tabs_plain m Hm)). split; [by intros [-> ->]|].
  intros E. apply qual_inj in E as [E ->]; [|by eapply cols_plain|done]. apply qual_inj in E as [_ ->]; [done|apply (tabs_plain m Hm)|done].
Qed.

(** The table of another column does not end with this one's name. *)
Lemma ends_with_table n m : n ∈ tabs -> m ∈ tabs -> ends_with n (qual sch m) = true <-> m = n.
Proof.
  intros Hn Hm. destruct (tabs_plain n Hn) as [Hpn _], (tabs_plain m Hm) as [Hpm _]. unfold ends_with, bytes_eqb.
  rewrite andb_true_iff, Nat.leb_le, bool_decide_eq_true. split.
  - intros [Hl Hd]. symmetry. apply tabs_apart; [done..|].
    destruct (Nat.le_gt_cases (length n) (length m)) as [Hle|Hlt].
    + exists (take (length m - length n) m). assert (drop (length m - length n) m = n) as E; [|by rewrite <- (take_drop (length m - length n) m) at 1; rewrite E].
      etrans; [|exact Hd]. unfold qual. rewrite length_app. cbn [length].
      replace (length sch + S (length m) - length n) with (length (sch ++ [DOT]) + (length m - length n)) by (rewrite length_app; cbn; lia).
      change (sch ++ DOT :: m) with (sch ++ [DOT] ++ m). by rewrite app_assoc, <- drop_drop, drop_app_length.
    + destruct Hpn. rewrite <- Hd. unfold qual in *. rewrite length_app in *. cbn [length] in *.
      rewrite drop_app_le by lia. apply elem_of_app. right. by left.
  - intros ->. unfold qual. rewrite length_app. cbn [length]. split; [lia|].
    change (sch ++ DOT :: n) with (sch ++ [DOT] ++ n). rewrite app_assoc. apply drop_app_length'. rewrite length_app. cbn. lia.
Qed.

(** The select list finds the same column. *)
Lemma atom_reference r vs : refers r -> length vs = length cs ->
  evalExprAtom ∅ cs vs r = default r (row_map cs vs !! qual sch r).
Proof.
  intros Hr Hl. destruct (refers_column r Hr) as (i & k & Hf & Hi). rewrite (row_map_lookup cs vs i) by done.
  destruct Hr as (n & c & Hn & Hc & ->). pose proof (cols_plain n c Hc) as Hpc. destruct (tabs_plain n Hn) as [Hpn Hne].
  unfold evalExprAtom. rewrite find_qual by done. cbv beta iota. rewrite take_qual, drop_qual.
  assert (bytes_eqb n [] = false) as -> by (unfold bytes_eqb; by rewrite bool_decide_eq_false_2).
  rewrite lookup_empty. cbn [default from_option]. change (bytes_eqb [] []) with true. cbv iota zeta.
  assert (forall p, (forall m, m ∈ tabs -> p (qual sch m) = true <-> m = n) -> first_named p c cs vs = vs !! i) as Hp.
  { intros p Hp. unfold first_named. rewrite (first_match_find _ (fun x => c_name x = qual sch (qual n c))); [by rewrite Hf|done|].
    intros x (m & d & Hm & Hd & ->)%column_name. rewrite bareColOf_qual, tblOf_qual by (by eapply cols_plain).
    rewrite andb_true_iff, Hp by done. unfold bytes_eqb. rewrite bool_decide_eq_true, qual_qual. split; [by intros [-> ->]|].
    intros E. apply qual_inj in E as [E ->]; [|by eapply cols_plain|done]. apply qual_inj in E as [_ ->]; [done|apply (tabs_plain m Hm)|done]. }
  assert (first_named (fun t => bytes_eqb t n) c cs vs = None) as ->.
  { unfold first_named. rewrite (first_match_find _ (fun _ => False) (dec := fun _ => False_dec)); [|done|].
    - destruct (list_find (fun _ => False) cs) as [[j x]|] eqn:E; [apply list_find_Some in E; cbv beta in E; tauto|done].
    - intros x (m & d & Hm & Hd & ->)%column_name. rewrite tblOf_qual by (by eapply cols_plain). rewrite andb_true_iff. split; [|done].
      intros [_ E]. unfold bytes_eqb in E. apply bool_decide_eq_true in E. apply Hpn. rewrite <- E. apply elem_of_app. right. by left. }
  rewrite Hp; [|].
  - destruct (lookup_lt_is_Some_2 vs i) as [v ->]; [|done]. apply lookup_lt_Some in Hi. unfold names in Hi. rewrite length_map in Hi. lia.
  - intros m Hm. rewrite orb_true_iff, ends_with_table by done. split; [|auto]. intros [E|?]; [|done].
    unfold bytes_eqb in E. apply bool_decide_eq_true in E. unfold qual in E. by destruct sch.
Qed.
End references.

(** ** What the query means on a combination of rows *)

Section meaning.
Context {DB : Double}.
Context (regex_search : bytes -> bytes -> option bool).
Context (sch : bytes).

(** The value a reference has. *)
Definition value_at (m : meaning) (r : bytes) : bytes := default [] (m !! qual sch r).

(** A text that is no column and no arithmetic, or a number. *)
Definition literal (v : bytes) : Prop :=
  plain_name (bare v) /\ (looksArith v = false \/ (v <> [] /\ forallb is_numchar v = true)).
Definition literal_value (v : bytes) : bytes := if looksArith v then default v (Arith.run [] [] v) else v.

Definition cond_holds (m : meaning) (c : WhereCondition) : bool :=
  match c with
  | Simple c =>
      evalCond regex_search (value_at m (col c)) (with_operands c (literal_value (val c)) (betweenLow c) (betweenHigh c))
  | _ => false
  end.

Definition where_holds (conds : list WhereCondition) (logic : bytes) (m : meaning) : bool :=
  match conds with
  | [] => true
  | _ => if bytes_eqb logic AND then forallb (cond_holds m) conds else existsb (cond_holds m) conds
  end.

(** ORDER BY, column by column. *)
Fixpoint comes_before (order : list (bytes * bool)) (m m' : meaning) : Prop :=
  match order with
  | [] => False
  | (r, desc) :: rest =>
      before_cell desc (value_at m r) (value_at m' r) \/ (same_cell (value_at m r) (value_at m' r) /\ comes_before rest m m')
  end.

Definition uniform_at (ms : list meaning) (r : bytes) : Prop :=
  (forall m, m ∈ ms -> exists d, number (value_at m r) = Some d /\ disnan d = false) \/
  (forall m, m ∈ ms -> number (value_at m r) = None).

Lemma run_number cs vs v : v <> [] -> forallb is_numchar v = true -> Arith.run cs vs v = Arith.run [] [] v.
Proof.
  intros Hv Hn. assert (forall cs vs, Arith.run cs vs v = Some (if disnan (default dzero (stod v)) then NULL else print (default dzero (stod v)))) as H;
    [|by rewrite !H].
  clear cs vs. intros cs vs. assert (exists f, fuel_for v = S (S (S (S (S f))))) as [f Hf].
  { destruct v as [|x v]; [done|]. unfold fuel_for. cbn [length]. exists (4 * length v + 2). lia. }
  unfold Arith.run. rewrite Hf, sum_S, term_S, factor_S.
  assert (take_while is_numchar v = v /\ drop_while is_numchar v = []) as [Ht Hd].
  { clear -Hn. induction v as [|x v IH]; [done|]. cbn [forallb] in Hn. apply andb_true_iff in Hn as [Hx Hn].
    cbn [take_while drop_while]. rewrite Hx. destruct (IH Hn) as [-> ->]. done. }
  assert (signs false v = (false, v)) as ->.
  { destruct v as [|x v]; [done|]. cbn [forallb] in Hn. apply andb_true_iff in Hn as [Hx _]. destruct (numchar_not_op x Hx) as (H1 & H2 & H3 & _).
    cbn [signs]. by rewrite (proj2 (Z.eqb_neq x 32) H1), (proj2 (Z.eqb_neq x 45) H2), (proj2 (Z.eqb_neq x 43) H3). }
  assert (atom cs vs v = (default dzero (stod v), [])) as Ha.
  { unfold atom. rewrite Ht, Hd. by destruct v. }
  destruct v as [|x v]; [done|]. cbn [forallb] in Hn. apply andb_true_iff in Hn as [Hx _]. destruct (numchar_not_op x Hx) as (_ & _ & _ & H4).
  rewrite (proj2 (Z.eqb_neq x 40) H4), Ha. cbn [mbind option_bind]. rewrite term_loop_S. cbn [skipWS drop_while mbind option_bind].
  rewrite sum_loop_S. done.
Qed.
End meaning.

Section columns.
Context {DB : Double}.
Context (regex_search : bytes -> bytes -> option bool).
Context (evalExprStr : bytes -> list Column -> list bytes -> bytes).
Context (match_against : list bytes -> bytes -> bytes -> list Column -> list bytes -> bool).
Context (formatNum : dbl -> bytes) (dcount : nat -> dbl).
Context (sch : bytes) (tabs : list bytes) (cols_of : bytes -> list bytes) (cs : list Column).
Hypothesis (sch_plain : plain_name sch).
Hypothesis (tabs_plain : forall n, n ∈ tabs -> plain_name n /\ n <> []).
Hypothesis (cols_plain : forall n c, c ∈ cols_of n -> plain_name c).
Hypothesis (cs_nodup : NoDup (names cs)).
Hypothesis (cs_names : forall k, k ∈ names cs <-> exists n c, n ∈ tabs /\ c ∈ cols_of n /\ k = qual (qual sch n) c).

Abbreviation refers := (refers tabs cols_of).
Abbreviation rowMatches T := (Where.rowMatches regex_search evalExprStr match_against formatNum dcount T).

(** A comparison of a column with a literal. *)
Definition fits (c : WhereCondition) : Prop :=
  exists k, c = Simple k /\ refers (col k) /\ looksArith (col k) = false /\ is_between (op k) = false /\ literal (val k).

Lemma value_at_cell i r row : length (values row) = length cs -> names cs !! i = Some (qual sch r) ->
  value_at sch (row_map cs (values row)) r = cell i row /\ values row !! i = Some (cell i row).
Proof.
  intros Hl Hi. unfold value_at, cell. rewrite (row_map_lookup cs (values row) i) by done. split; [done|].
  destruct (lookup_lt_is_Some_2 (values row) i) as [v ->]; [|done]. apply lookup_lt_Some in Hi. unfold names in Hi. rewrite length_map in Hi. lia.
Qed.

Lemma operand_as_literal vs v : literal v -> operand cs vs v = literal_value v.
Proof.
  intros [Hv Hn]. unfold operand, column_value. rewrite (find_none sch tabs cols_of cs) by done. cbn [mbind option_bind].
  unfold literal_value, arith. destruct (looksArith v) eqn:E; [|done]. destruct Hn as [|[Hne Hn]]; [done|]. by rewrite (run_number cs vs v).
Qed.

Lemma eval_fits (T : gmap bytes (Table BTree)) c row : fits c -> length (values row) = length cs ->
  evalOne regex_search evalExprStr match_against formatNum dcount T cs (values row) c = Ok (cond_holds regex_search sch (row_map cs (values row)) c).
Proof.
  intros (k & -> & Hr & Ha & Hb & Hv) Hl. cbn [evalOne cond_holds]. unfold eval_simple, lhs_value, column_value.
  assert (plain_name (bare (col k))) as Hp by (by eapply refers_bare).
  rewrite (find_none sch tabs cols_of cs) by done. cbn [mbind option_bind]. rewrite Ha.
  assert (bytes_eqb (Arith.upper (col k)) NULL = false) as ->.
  { unfold bytes_eqb. apply bool_decide_eq_false_2. intros E. destruct Hr as (n & c & _ & _ & Hk). rewrite Hk in E.
    assert (DOT ∈ Arith.upper (qual n c)) as Hd.
    { unfold Arith.upper. apply list_elem_of_fmap. exists DOT. split; [done|]. apply elem_of_app. right. by left. }
    rewrite E in Hd. revert Hd. by_decide. }
  destruct (find_reference sch tabs cols_of cs sch_plain tabs_plain cols_plain cs_nodup cs_names (col k) Hr) as (i & Hi & Hn).
  unfold colIdx. rewrite Hi. cbn [mbind result_bind]. destruct (value_at_cell i (col k) row Hl Hn) as [-> ->].
  unfold Where.resolve. rewrite Hb, operand_as_literal by done. done.
Qed.

Lemma eval_list_pure {A} (f : A -> result bool) (g : A -> bool) logic l :
  (forall x, x ∈ l -> f x = Ok (g x)) -> eval_list f logic l = Ok (if bytes_eqb logic AND then forallb g l else existsb g l).
Proof.
  intros H. unfold eval_list. destruct (bytes_eqb logic AND).
  - induction l as [|x l IH]; [done|]. rewrite H by left. cbn [mbind result_bind forallb]. destruct (g x); [|done]. apply IH. intros y Hy. apply H. by right.
  - induction l as [|x l IH]; [done|]. rewrite H by left. cbn [mbind result_bind existsb]. destruct (g x); [done|]. apply IH. intros y Hy. apply H. by right.
Qed.

Lemma rowMatches_fits (T : gmap bytes (Table BTree)) t row conds logic :
  columns_ t = cs -> Forall fits conds -> length (values row) = length cs ->
  rowMatches T t row conds logic = Ok (where_holds regex_search sch conds logic (row_map cs (values row))).
Proof.
  intros Hc Hf Hl. unfold Where.rowMatches, where_holds. rewrite Hc. destruct conds as [|c conds]; [done|].
  apply eval_list_pure. intros x Hx. apply eval_fits; [|done]. rewrite Forall_forall in Hf. by apply Hf.
Qed.

(** ORDER BY finds its columns. *)
Definition orders (p : bytes * bool) (x : nat * bool) : Prop := x.2 = p.2 /\ names cs !! x.1 = Some (qual sch p.1).

Lemma order_references order : Forall (fun p => refers p.1) order -> exists idx, order_columns cs order = Ok idx /\ Forall2 orders order idx.
Proof.
  unfold order_columns. intros H.
  assert (exists idx, mapM (fun p : bytes * bool => o ← order_column cs p.1; Ok (ci ← o; Some (ci, p.2))) order = Ok (map Some idx) /\ Forall2 orders order idx)
    as (idx & E & Hi).
  { induction H as [|[r d] order Hr _ (idx & E & Hi)]; [by exists []|]. cbn [fst] in Hr.
    destruct (find_reference sch tabs cols_of cs sch_plain tabs_plain cols_plain cs_nodup cs_names r Hr) as (i & Hf & Hn).
    exists ((i, d) :: idx). split; [|by constructor]. cbn [mapM fst snd].
    assert (order_column cs r = Ok (Some i)) as ->.
    { unfold order_column. rewrite Hf. destruct Hr as (n & c & _ & _ & ->).
      assert (forallb is_digit (qual n c) = false) as ->; [|by rewrite andb_false_r].
      unfold qual. rewrite forallb_app. change (forallb is_digit (DOT :: c)) with false. by rewrite andb_false_r. }
    cbn [mbind result_bind option_bind mret]. rewrite E. done. }
  exists idx. rewrite E. cbn [mbind result_bind]. split; [|done]. f_equal. clear. induction idx as [|x idx IH]; [done|]. cbn. by rewrite IH.
Qed.

Lemma comes_before_lex order idx a b :
  Forall2 orders order idx -> length (values a) = length cs -> length (values b) = length cs ->
  comes_before sch order (row_map cs (values a)) (row_map cs (values b)) <-> lex_before idx a b.
Proof.
  intros H Ha Hb. induction H as [|[r d] [i d'] order idx [E Hi] _ IH]; [done|]. cbn [fst snd] in *. subst d'. cbn [comes_before lex_before].
  destruct (value_at_cell i r a Ha Hi) as [-> _], (value_at_cell i r b Hb Hi) as [-> _]. by rewrite IH.
Qed.

Lemma uniform_references order idx rows :
  Forall2 orders order idx -> Forall (fun r => length (values r) = length cs) rows ->
  Forall (fun p => uniform_at sch (map (fun r => row_map cs (values r)) rows) p.1) order -> Forall (fun x => uniform_column rows x.1) idx.
Proof.
  intros H Hw Hu. rewrite Forall_forall in Hw. induction H as [|[r d] [i d'] order idx [_ Hi] _ IH]; [done|].
  apply Forall_cons in Hu as [Hu Hus]. apply Forall_cons. split; [|by apply IH]. cbn [fst] in *.
  assert (forall row, row ∈ rows -> row_map cs (values row) ∈ map (fun r => row_map cs (values r)) rows /\
    value_at sch (row_map cs (values row)) r = cell i row) as H.
  { intros row Hr. split; [by apply (list_elem_of_fmap_2 (fun r => row_map cs (values r)))|]. by apply value_at_cell; [apply Hw|]. }
  destruct Hu as [Hu|Hu]; [left|right]; intros row Hr; destruct (H row Hr) as [H1 <-]; by apply Hu.
Qed.
End columns.

Lemma sorted_map {A B} (f : A -> B) (R : A -> A -> Prop) (S : B -> B -> Prop) l :
  (forall a b, a ∈ l -> b ∈ l -> R a b -> S (f a) (f b)) -> StronglySorted R l -> StronglySorted S (map f l).
Proof.
  intros H Hs. induction Hs as [|a l _ IH Ha]; [apply SSorted_nil|]. cbn [map]. apply SSorted_cons.
  - apply IH. intros x y Hx Hy. by apply H; right.
  - apply Forall_map. rewrite Forall_forall in Ha. apply Forall_forall. intros b Hb. apply H; [left|by right|by apply Ha].
Qed.

(** Rows of an intermediate table are copied one by one. *)
Lemma insert_if_ok (test : Row -> result bool) (v : Row -> bool) rows (t : Table BTree) :
  (forall r, r ∈ rows -> test r = Ok (v r)) -> unconstrained (columns_ t) -> Forall (fun r => length (values r) = length (columns_ t)) rows ->
  exists t', insert_if test rows t = Ok t' /\ columns_ t' = columns_ t /\ rows_ t' = rows_ t ++ List.filter v rows.
Proof.
  intros Ht Hu Hw. assert (insert_if test rows t = insert_all t (List.filter v rows)) as ->.
  { clear Hu Hw. revert t. induction rows as [|r rows IH]; intros t; [done|]. cbn [insert_if List.filter]. rewrite Ht by left.
    cbn [mbind result_bind]. assert (forall r', r' ∈ rows -> test r' = Ok (v r')) as Ht' by (intros; apply Ht; by right).
    destruct (v r); cbn [insert_all]; [|by apply IH]. destruct (insert_row t r); [by apply IH|done]. }
  apply insert_all_ok; [done|]. by apply Forall_filter.
Qed.

(** ** The two planners *)

Lemma schema_match sch a b : plain_name a -> plain_name b -> tblNamesMatch (qual sch a) (qual sch b) = true -> a = b.
Proof.
  intros Ha Hb. assert (forall a b, plain_name a -> plain_name b -> name_suffix (qual sch a) (qual sch b) = true -> a = b) as H.
  { clear. intros a b Ha Hb. unfold name_suffix, bytes_eqb. cbv zeta. rewrite !andb_true_iff, Nat.ltb_lt, Z.eqb_eq, bool_decide_eq_true.
    intros ((Hl & Ht) & Hd). pose proof (table_of_suffix (qual sch b) (qual sch a)) as E.
    specialize (E ltac:(lia) Hd Ht). rewrite (qual_qual _ sch a) in E. by apply qual_inj in E as [_ ->]. }
  unfold tblNamesMatch, bytes_eqb. rewrite !orb_true_iff, bool_decide_eq_true. intros [[E|E]|E]; [|by apply H|symmetry; by apply H].
  by apply qual_inj in E as [_ ?].
Qed.

Lemma names_apart_schema sch tabs : Forall plain_name tabs -> NoDup tabs -> names_apart (map (qual sch) tabs).
Proof.
  intros Hp Hn. rewrite Forall_forall in Hp. split.
  - intros (n & E & _)%list_elem_of_fmap. unfold qual in E. by destruct sch.
  - intros i j a b Hi Hj Hm. rewrite list_lookup_fmap in Hi, Hj.
    destruct (tabs !! i) as [x|] eqn:Ei; [|done]. destruct (tabs !! j) as [y|] eqn:Ej; [|done]. injection Hi as <-. injection Hj as <-.
    apply schema_match in Hm as ->; [by eapply NoDup_lookup| |]; by eapply Hp, list_elem_of_lookup_2.
Qed.

Lemma names_apart_perm l l' : l ≡ₚ l' -> NoDup l -> names_apart l -> names_apart l'.
Proof.
  intros Hp Hn [H0 Ha]. split; [by rewrite <- Hp|]. intros i j a b Hi Hj Hm.
  assert (a ∈ l /\ b ∈ l) as [[k Hk]%list_elem_of_lookup [k' Hk']%list_elem_of_lookup].
  { rewrite !Hp. split; by eapply list_elem_of_lookup_2. }
  assert (k = k') as <- by (by eapply Ha). rewrite Hk in Hk'. injection Hk' as <-. rewrite Hp in Hn. by eapply NoDup_lookup.
Qed.

Lemma tblNamesMatch_sym a b : tblNamesMatch a b = tblNamesMatch b a.
Proof.
  unfold tblNamesMatch. rewrite <- !orb_assoc. f_equal; [|by rewrite orb_comm]. unfold bytes_eqb. by apply bool_decide_ext.
Qed.

Section turned.
Context (T : gmap bytes (Table BTree)).
Hypothesis T_good : map_Forall (fun _ t => Table.good t) T.

Lemma placed_weaken joins seen seen' : (forall n, n ∈ seen -> n ∈ seen') -> placed seen joins -> placed seen' joins.
Proof.
  revert seen seen'. induction joins as [|jc joins IH]; intros seen seen' H; [done|]. intros [Ho Hp]. split; [by apply H|].
  apply (IH (jc_table jc :: seen)); [|done]. intros n [->|Hn]%elem_of_cons; [left|right; by apply H].
Qed.

(** The first join read from the other side. *)
Lemma edge_turned jc :
  edge T jc -> tblNamesMatch (other jc) (jc_table jc) = false ->
  let jc' := mkJoin INNER (other jc) (onRight jc) (onLeft jc) in edge T jc' /\ other jc' = jc_table jc.
Proof.
  intros (Hi & Ht & Ho & c & oc & Hc & Hoc & Hon) Hm jc'.
  pose proof (columns_of_plain T T_good _ _ Hc) as Hpc. pose proof (columns_of_plain T T_good _ _ Hoc) as Hpo.
  assert (on_sides jc' = (qual (jc_table jc) c, qual (other jc) oc)) as E.
  { unfold on_sides at 1. cbn [jc' onLeft onRight jc_table]. revert Hon Hm. unfold on_sides at 1.
    generalize (other jc) as o. intros o. destruct (tblNamesMatch (tblOf (onLeft jc)) _) eqn:El; intros [= E1 E2] Hm; rewrite E1, E2 in *.
    - rewrite (tblOf_qual o) by done. by rewrite tblNamesMatch_refl.
    - rewrite (tblOf_qual (jc_table jc)) by done. by rewrite tblNamesMatch_sym, Hm. }
  assert (other jc' = jc_table jc) as E' by (unfold other; rewrite E; by apply tblOf_qual).
  split; [|done]. unfold edge. rewrite E'. cbn [jc' joinType jc_table]. split_and!; [done..|]. exists oc, c. by rewrite E.
Qed.

(** The smaller table first: a chain of the same kind over the same tables. *)
Lemma optimize_chain est base joins :
  inner_chain T base (map clause joins) -> placed [base] (map clause joins) -> names_apart (base :: map jc_table (map clause joins)) ->
  let '(base', joins') := optimizeJoinOrder est base joins in
  inner_chain T base' (map clause joins') /\ placed [base'] (map clause joins') /\
  base' :: map jc_table (map clause joins') ≡ₚ base :: map jc_table (map clause joins).
Proof.
  destruct joins as [|p joins]; [done|]. cbn [optimizeJoinOrder map]. intros Hc Hp Ha. destruct (_ && _); [|done]. cbn [map clause jc_table].
  destruct Hc as (Hb & [He Hes]%Forall_cons & Hn), Hp as [Ho Hp]. apply list_elem_of_singleton in Ho.
  assert (base <> jc_table (clause p)) as Hne by (intros E; apply NoDup_cons in Hn as [Hn _]; apply Hn; rewrite E; left).
  destruct (edge_turned (clause p) He) as [He' Ho'].
  { rewrite Ho. apply not_true_iff_false. intros E. destruct Ha as [_ Ha]. by specialize (Ha 0 1 _ _ eq_refl eq_refl E). }
  rewrite Ho in He', Ho'. destruct He as (_ & Ht & _). split; [|split].
  - split; [done|]. split; [by constructor|]. cbn [map jc_table] in *. by rewrite perm_swap.
  - split; [rewrite Ho'; left|]. eapply placed_weaken; [|exact Hp]. intros n Hn'. rewrite !elem_of_cons in Hn' |- *. tauto.
  - apply perm_swap.
Qed.
End turned.

Lemma optimize_commutes (T : gmap bytes (Table BTree)) R sch est base joins :
  Forall (fun n => R n = qual sch n) (base :: map jc_table (map clause joins)) ->
  optimizeJoinOrder (fun k => est (drop (S (length sch)) k)) (R base) (map (resolve_join T R) joins) =
    (let '(base', joins') := optimizeJoinOrder est base joins in (R base', map (resolve_join T R) joins')).
Proof.
  destruct joins as [|p joins]; [done|]. cbn [map optimizeJoinOrder]. rewrite !Forall_cons. intros (Hb & Ht & _).
  unfold resolve_join at 1 2 3 4 5. cbn [clause jc_table joinType onLeft onRight tableAlias]. rewrite Hb, Ht at 1. rewrite Ht at 1. rewrite !drop_qual.
  rewrite <- Ht. destruct (_ && _); done.
Qed.

Lemma optimize_tables est base joins :
  let '(base', joins') := optimizeJoinOrder est base joins in
  base' :: map jc_table (map clause joins') ≡ₚ base :: map jc_table (map clause joins) /\ map tableAlias joins' = map tableAlias joins.
Proof.
  destruct joins as [|p joins]; [done|]. cbn [optimizeJoinOrder]. destruct (_ && _); [|done]. split; [apply perm_swap|done].
Qed.

Lemma no_aliases base joins : Forall (fun p => tableAlias p = []) joins -> alias_map [] base joins = ∅ /\ resolveJoinAliases [] base joins = joins.
Proof.
  intros H. assert (alias_map [] base joins = ∅) as E.
  { unfold alias_map. change (bytes_eqb [] []) with true. cbv iota. induction H as [|p joins Hp _ IH]; [done|]. cbn [fold_left]. by rewrite Hp. }
  split; [done|]. unfold resolveJoinAliases. rewrite E. clear E. induction H as [|p joins Hp _ IH]; [done|]. cbn [map]. rewrite IH. f_equal.
  assert (forall s, resolve_alias ∅ s = s) as Hr by (intros s; unfold resolve_alias; destruct (find_char DOT s); [by rewrite lookup_empty|done]).
  rewrite !Hr. by destruct p as [[]].
Qed.

(** ** The answer *)

Section answers.
Context {DB : Double} {DO : DoubleOrder DB} {DS : DoubleSum DB} {SS : StdSort}.
Context (regex_search : bytes -> bytes -> option bool).
Context (evalExprStr : bytes -> list Column -> list bytes -> bytes).
Context (match_against : list bytes -> bytes -> bytes -> list Column -> list bytes -> bool).
Context (formatNum print_fixed : dbl -> bytes) (dcount : nat -> dbl).
Context (dceil : dbl -> dbl) (tenth huge : dbl) (g_costConsts : CostConstants) (getStats : bytes -> option TableStats).
Context (advisor : Advisor) (sort : list bytes -> list nat).
Context (applyVectorOrderBy : list (bytes * bool) -> Table BTree -> result (Table BTree)).
Context (workers threshold : nat) (rewriting : bool).

Abbreviation join_where := (join_where regex_search evalExprStr match_against formatNum dcount).
Abbreviation run_joins :=
  (run_joins regex_search evalExprStr match_against formatNum dcount dceil tenth huge g_costConsts getStats advisor sort).
Abbreviation join_shape := (join_shape formatNum print_fixed dcount applyVectorOrderBy).
Abbreviation execute_join :=
  (execute_join regex_search evalExprStr match_against formatNum print_fixed dcount dceil tenth huge g_costConsts getStats advisor sort
     applyVectorOrderBy workers threshold rewriting).

(** The tables of a query, its clauses with the names in full, its conditions, and
    the combinations of rows it selects. *)
Definition join_tabs (q : JoinQuery) : list bytes := jq_table q :: map jc_table (map clause (jq_joins q)).
Definition full_joins (e : Mutation.Engine) (joins : list PlannedJoin) : list PlannedJoin :=
  map (resolve_join (tables e) (resolve_in e)) joins.
Definition full_clauses (e : Mutation.Engine) (q : JoinQuery) : list JoinClause := map clause (full_joins e (jq_joins q)).
Definition conditions (q : JoinQuery) : list WhereCondition :=
  rewritten rewriting (plain_clause (jq_where q)) (whereConds (plain_clause (jq_where q))).
Definition selected (q : JoinQuery) (e : Mutation.Engine) (sch : bytes) : list JoinMeaning.meaning :=
  List.filter (where_holds regex_search sch (conditions q) (whereLogic (plain_clause (jq_where q))))
    (chain_meaning (tables e) (qual sch (jq_table q)) (full_clauses e q)).
Definition schema_columns (e : Mutation.Engine) (sch n : bytes) : list bytes := names (columns_of (tables e) (qual sch n)).
Abbreviation est e := (estimateRowCount getStats (tables e) (resolve_in e)).

(** What the theorem assumes of a query and the engine: the query may read its
    first table; its tables are different tables of one schema, none named like
    the end of another, have no dead rows and no aliases; each ON clause of the
    INNER joins compares a column of the new table with one of an earlier one;
    columns are written with their tables, compared with literals, and uniform
    where they are sorted by; no plan is remembered for these tables. *)
Record join_answerable (q : JoinQuery) (e : Mutation.Engine) (sch : bytes) (planCache_ : gmap bytes JoinPlan) : Prop := {
  ja_allowed : checkPrivilege SELECT (jq_table q) e = (Ok (), e);
  ja_schema : plain_name sch;
  ja_tables : Forall (fun n => plain_name n /\ n <> [] /\ resolve_in e n = qual sch n) (join_tabs q);
  ja_apart : forall a b, a ∈ join_tabs q -> b ∈ join_tabs q -> a `suffix_of` b -> a = b;
  ja_live : Forall (fun n => Forall (fun r => alive r = true) (from_option rows_ [] (tables e !! qual sch n))) (join_tabs q);
  ja_no_alias : jq_alias q = [] /\ Forall (fun p => tableAlias p = []) (jq_joins q);
  ja_chain : inner_chain (tables e) (qual sch (jq_table q)) (full_clauses e q);
  ja_placed : placed [qual sch (jq_table q)] (full_clauses e q);
  ja_conds : Forall (fits (join_tabs q) (schema_columns e sch)) (conditions q);
  ja_cols : Forall (refers (join_tabs q) (schema_columns e sch)) (jq_cols q);
  ja_order : Forall (fun p => refers (join_tabs q) (schema_columns e sch) p.1) (jq_order q);
  ja_no_vector : existsb is_vector_order (jq_order q) = false;
  ja_uniform : Forall (fun p => uniform_at sch (selected q e sch) p.1) (jq_order q);
  ja_fresh : let '(base, joins) := optimizeJoinOrder (est e) (jq_table q) (jq_joins q) in
    planCache_ !! cache_key (join_tables (tables e) (resolve_in e base) (full_joins e joins)) = None }.

(** The columns of the chain, and the combinations its rows stand for. *)
Definition chain_table (q : JoinQuery) (e : Mutation.Engine) (sch : bytes) (t : Table BTree) (ms : list JoinMeaning.meaning) : Prop :=
  intermediate t /\ NoDup (names (columns_ t)) /\
  (forall k, k ∈ names (columns_ t) <-> exists n c, n ∈ join_tabs q /\ c ∈ schema_columns e sch n /\ k = qual (qual sch n) c) /\
  maps t ≡ₚ ms.

Lemma full_tables e q sch : Forall (fun n => resolve_in e n = qual sch n) (join_tabs q) ->
  qual sch (jq_table q) :: map jc_table (full_clauses e q) = map (qual sch) (join_tabs q).
Proof.
  unfold join_tabs, full_clauses, full_joins. cbn [map]. intros [_ H]%Forall_cons. f_equal. rewrite !map_map. cbn [resolve_join clause jc_table].
  induction (jq_joins q) as [|p joins IH]; [done|]. cbn [map] in *. apply Forall_cons in H as [Hp H]. rewrite Hp. by rewrite IH.
Qed.

Lemma plain_tables q e sch cache : join_answerable q e sch cache ->
  (forall n, n ∈ join_tabs q -> plain_name n /\ n <> []) /\ Forall (fun n => resolve_in e n = qual sch n) (join_tabs q) /\ NoDup (join_tabs q).
Proof.
  intros A. pose proof (ja_tables _ _ _ _ A) as H. assert (Forall (fun n => resolve_in e n = qual sch n) (join_tabs q)) as Hr.
  { eapply Forall_impl; [exact H|]. by intros n (_ & _ & ?). }
  split_and!; [|done|].
  - rewrite Forall_forall in H. intros n Hn. by destruct (H n Hn) as (? & ? & _).
  - destruct (ja_chain _ _ _ _ A) as (_ & _ & Hn). rewrite (full_tables e q sch Hr) in Hn. by apply NoDup_fmap_1 in Hn.
Qed.

Lemma first_tables (joins : list JoinClause) n k : n ∈ map jc_table (take k joins) -> n ∈ map jc_table joins.
Proof. rewrite <- firstn_map. intros H. rewrite <- (take_drop k). apply elem_of_app. by left. Qed.

Lemma undisturbed_cut s : undisturbed s = true -> strip_back is_end s = s /\ cut_outfile s = (s, [], []) /\ cut_for_update s = (s, false).
Proof.
  unfold undisturbed. rewrite !andb_true_iff. intros [[H1 H2] H3]. unfold bytes_eqb in H1. apply bool_decide_eq_true in H1, H2.
  split; [done|]. split; [unfold cut_outfile; by rewrite H2|]. apply negb_true_iff in H3. revert H3. unfold cut_for_update. by destruct (_ && _).
Qed.

(** Whatever the planners choose, the chain gives the combinations of the text. *)
Lemma run_joins_chain q e sch cache : map_Forall (fun _ t => Table.reachable t) (tables e) -> sorts sort -> advisor_ok (tables e) advisor ->
  join_answerable q e sch cache ->
  exists base joins t cache', Forall (fun p => tableAlias p = []) joins /\
    (forall conds, run_joins (join_command q) conds cache e =
       (base, joins, join_where (tables e) conds (whereLogic (plain_clause (jq_where q))) t, cache')) /\
    chain_table q e sch t (chain_meaning (tables e) (qual sch (jq_table q)) (full_clauses e q)).
Proof.
  intros Hr Hs Ha A. assert (map_Forall (fun _ t => Table.good t) (tables e)) as Hg by (intros n t Ht; by apply reachable_good, (Hr n)).
  destruct (plain_tables _ _ _ _ A) as (Hp & Hf & Hn). destruct (ja_no_alias _ _ _ _ A) as [Hal Hals].
  pose proof (full_tables e q sch Hf) as Ht.
  pose proof (optimize_tables (est e) (jq_table q) (jq_joins q)) as Ho.
  pose proof (optimize_commutes (tables e) (resolve_in e) sch (est e) (jq_table q) (jq_joins q) Hf) as Hc.
  assert (resolve_in e (jq_table q) = qual sch (jq_table q)) as Hb by by apply Forall_cons in Hf as [? _].
  assert (names_apart (map (qual sch) (join_tabs q))) as Hna.
  { apply names_apart_schema; [|done]. apply Forall_forall. intros n Hin. by apply Hp. }
  pose proof (optimize_chain (tables e) Hg (fun k => est e (drop (S (length sch)) k)) (qual sch (jq_table q)) (full_joins e (jq_joins q))
    (ja_chain _ _ _ _ A) (ja_placed _ _ _ _ A)) as Hopt.
  fold (full_clauses e q) in Hopt. rewrite Ht in Hopt. specialize (Hopt Hna). rewrite <- Hb in Hopt. unfold full_joins in Hopt. rewrite Hc in Hopt.
  pose proof (optimizeJoinOrder_meaning dcount dceil huge getStats (tables e) Hg (fun k => est e (drop (S (length sch)) k)) (resolve_in e (jq_table q))
    (full_joins e (jq_joins q))) as Hm. unfold full_joins in Hm at 3. rewrite Hc in Hm. fold (full_clauses e q) in Hm.
  pose proof (ja_fresh _ _ _ _ A) as Hk.
  destruct (optimizeJoinOrder (est e) (jq_table q) (jq_joins q)) as [base joins] eqn:Eo.
  destruct Ho as [_ Hals']. destruct Hopt as (Hi & Hpl & Hperm).
  assert (Forall (fun p => tableAlias p = []) joins) as Hal'.
  { apply (Forall_map tableAlias (fun a => a = [])). rewrite Hals'. by apply (Forall_map tableAlias (fun a => a = [])). }
  destruct (execute_planned_maps dcount dceil tenth huge g_costConsts getStats (tables e) Hg (resolve_in e) advisor sort base joins cache)
    as (t & seen & Et & Jt & Hseen & Mt); [done..| |done|].
  { rewrite <- (map_map clause jc_table). eapply names_apart_perm; [symmetry; exact Hperm| |exact Hna]. rewrite <- Ht. apply (ja_chain _ _ _ _ A). }
  exists base, joins, (t), (execute_planned dcount dceil tenth huge g_costConsts getStats (tables e) (resolve_in e) advisor sort base joins cache).2.
  split; [done|]. split.
  - intros conds. unfold JoinQueries.run_joins, join_command, join_command_with. cbn [j_alias j_table j_joins j_clause]. rewrite Hal.
    destruct (no_aliases (jq_table q) (jq_joins q) Hals) as [_ ->]. rewrite Eo. cbv beta iota.
    destruct (execute_planned _ _ _ _ _ _ _ _ _ _ base joins cache) as [r cache']. cbn [fst snd] in *. by rewrite Et.
  - destruct Jt as (Hint & Hnd & Hnames). split_and!; [done|done| |].
    + intros k. rewrite Hnames. split.
      * intros (n & c & Hin & Hcn & ->). rewrite Hseen, Hperm in Hin. apply list_elem_of_fmap in Hin as (m & -> & Hin). by exists m, c.
      * intros (n & c & Hin & Hcn & ->). exists (qual sch n), c. split_and!; [|done|done]. rewrite Hseen, Hperm. by apply list_elem_of_fmap_2.
    + rewrite Mt. rewrite <- Hb. symmetry. apply Hm.
      * apply Forall_forall. intros n Hin. assert (n ∈ map (qual sch) (join_tabs q)) as (m & -> & Hin')%list_elem_of_fmap.
        { rewrite <- Ht, <- Hb. apply elem_of_cons in Hin as [->|Hin]; [left|right]. by apply (first_tables _ _ 1). }
        pose proof (ja_live _ _ _ _ A) as Hl. rewrite Forall_forall in Hl. by apply Hl.
      * intros Hin%first_tables. destruct (ja_chain _ _ _ _ A) as (_ & _ & [Hni _]%NoDup_cons). apply Hni. by rewrite <- Hb.
Qed.

Lemma name_no_space r : name r = true -> no_space r /\ r <> [].
Proof.
  intros [H Hne]%name_ident%ident_chars. split; [|done]. eapply Forall_impl; [exact H|]. intros c [Hc| ->]; [|done].
  unfold is_word, is_alnum in Hc. char_cases.
Qed.

Lemma item_name r : name r = true -> item_spec r = (r, bareColOf r).
Proof.
  intros H. unfold item_spec. rewrite (find_sub_head _ 32%Z); [done..|]. unfold Arith.upper. intros (d & E & Hd)%list_elem_of_fmap.
  destruct (name_no_space r H) as [Hs _]. unfold no_space in Hs. rewrite Forall_forall in Hs. specialize (Hs d Hd).
  unfold to_upper in E. destruct (is_lower d) eqn:El; char_cases.
Qed.

Lemma full_name aliasMap cs vs r : name r = true -> evalExprFull print_fixed aliasMap cs vs r = evalExprAtom aliasMap cs vs r.
Proof. intros [Hs Hn]%name_no_space. unfold evalExprFull. by rewrite words_one. Qed.

(** The select list and ORDER BY over the chain. *)
Lemma join_shape_chain q e sch base joins t ms :
  map_Forall (fun _ t => Table.good t) (tables e) -> plain_name sch ->
  (forall n, n ∈ join_tabs q -> plain_name n /\ n <> []) ->
  (forall a b, a ∈ join_tabs q -> b ∈ join_tabs q -> a `suffix_of` b -> a = b) ->
  join_query_ok q = true -> jq_alias q = [] -> Forall (fun p => tableAlias p = []) joins ->
  Forall (refers (join_tabs q) (schema_columns e sch)) (jq_cols q) ->
  Forall (fun p => refers (join_tabs q) (schema_columns e sch) p.1) (jq_order q) ->
  existsb is_vector_order (jq_order q) = false -> Forall (fun p => uniform_at sch ms p.1) (jq_order q) ->
  chain_table q e sch t ms ->
  exists t' ms', join_shape (join_command q) base joins t = Ok t' /\ ms' ≡ₚ ms /\
    StronglySorted (fun a b => ~ comes_before sch (jq_order q) b a) ms' /\
    match jq_cols q with
    | [] => maps t' = ms'
    | cols => map values (rows_ t') = map (fun m => map (value_at sch m) cols) ms'
    end.
Proof.
  intros Hg Hsch Htabs Hap Hq Hal Hals Hcols Hord Hvec Huni ((Hu & Hw) & Hnd & Hnames & Hm).
  assert (forall n c, c ∈ schema_columns e sch n -> plain_name c) as Hplain by (intros n c; by apply columns_of_plain).
  destruct (order_references sch (join_tabs q) (schema_columns e sch) (columns_ t) Hsch Htabs Hplain Hnd Hnames (jq_order q) Hord) as (idx & Eidx & Hidx).
  assert (Forall (fun p => uniform_column (rows_ t) p.1) idx) as Hun.
  { eapply uniform_references; [exact Hnd|exact Hidx|exact Hw|]. eapply Forall_impl; [exact Huni|]. intros p.
    unfold uniform_at. setoid_rewrite <- Hm. done. }
  destruct (sort_rows applyVectorOrderBy (jq_order q) idx t Hvec Eidx Hun) as (t1 & E1 & Ec1 & P1 & S1).
  set (rm := fun r => row_map (columns_ t) (values r)). assert (Forall (fun r => length (values r) = length (columns_ t)) (rows_ t1)) as Hw1 by (by rewrite P1).
  assert (StronglySorted (fun a b => ~ comes_before sch (jq_order q) b a) (map rm (rows_ t1))) as S2.
  { eapply sorted_map; [|exact S1]. rewrite Forall_forall in Hw1. intros a b Ha Hb H. unfold rm.
    rewrite (comes_before_lex sch (columns_ t)); [exact H|exact Hnd|exact Hidx|by apply Hw1..]. }
  assert (map rm (rows_ t1) ≡ₚ ms) as P2 by (rewrite P1; exact Hm).
  unfold JoinQueries.join_shape, join_command, join_command_with. cbn [j_order j_cols j_alias]. rewrite E1. cbn [mbind result_bind].
  destruct (jq_cols q) as [|c0 cols0] eqn:Ecols.
  { exists t1, (map rm (rows_ t1)). split_and!; [done|done|done|]. unfold maps. by rewrite Ec1. }
  assert (hasExprColumns (c0 :: cols0) = true) as ->.
  { unfold hasExprColumns. cbn [existsb]. apply Forall_cons in Hcols as [(n & c & _ & _ & ->) _]. apply orb_true_iff. left. apply orb_true_iff. right.
    unfold qual. rewrite existsb_app. apply orb_true_iff. right. done. }
  rewrite <- Ecols in *. clear Ecols c0 cols0. rewrite Hal. destruct (no_aliases base joins Hals) as [-> _].
  assert (forallb name (jq_cols q) = true) as Hnames' by (unfold join_query_ok in Hq; rewrite !andb_true_iff in Hq; tauto).
  apply forallb_Forall in Hnames'.
  assert (map item_spec (jq_cols q) = map (fun r => (r, bareColOf r)) (jq_cols q)) as Es.
  { clear -Hnames'. induction Hnames' as [|r cols Hr _ IH]; [done|]. cbn [map]. by rewrite IH, item_name. }
  unfold projectExprs. rewrite Es, !map_map. cbn [fst snd].
  destruct (insert_all_ok (table (str "__proj") (map (fun r => column (bareColOf r) (str "TEXT")) (jq_cols q)))
    (map (fun row => row_of (map (fun r => evalExprFull print_fixed ∅ (columns_ t1) (values row) r) (jq_cols q))) (rows_ t1))) as (t2 & E2 & _ & R2).
  { cbn [columns_ table]. by apply Forall_map, Forall_forall. }
  { apply Forall_map, Forall_forall. intros row _. cbn [values row_of columns_ table]. by rewrite !length_map. }
  exists t2, (map rm (rows_ t1)). split; [|split; [done|split; [done|]]].
  - rewrite <- E2. f_equal. apply map_ext. intros row. by rewrite map_map.
  - assert (map values (rows_ t2) = map (fun m => map (value_at sch m) (jq_cols q)) (map rm (rows_ t1))) as ->; [|by destruct (jq_cols q)].
    rewrite R2. cbn [rows_ table app]. rewrite !map_map. apply map_ext_Forall. eapply Forall_impl; [exact Hw1|]. intros row Hrow. cbn [values row_of].
    apply map_ext_Forall. clear -Hnames' Hcols Hrow Ec1 Hsch Htabs Hplain Hnd Hnames Hap. rewrite Forall_forall in *. intros r Hr.
    rewrite full_name by auto. rewrite Ec1. unfold rm, value_at.
    rewrite (atom_reference sch (join_tabs q) (schema_columns e sch) (columns_ t)); try done; [|by apply Hcols].
    assert (is_Some (row_map (columns_ t) (values row) !! qual sch r)) as [v ->]; [|done].
    apply row_map_dom; [done|]. apply Hnames. destruct (Hcols r Hr) as (n & c & Hn & Hc & ->). exists n, c. by rewrite qual_qual.
Qed.
(** WHERE over the chain. *)
Lemma join_where_chain q e sch t ms conds logic :
  plain_name sch -> (forall n, n ∈ join_tabs q -> plain_name n /\ n <> []) -> map_Forall (fun _ t => Table.good t) (tables e) ->
  Forall (fits (join_tabs q) (schema_columns e sch)) conds -> chain_table q e sch t ms ->
  exists t', join_where (tables e) conds logic t = Ok t' /\
    chain_table q e sch t' (List.filter (where_holds regex_search sch conds logic) ms).
Proof.
  intros Hsch Htabs Hg Hf Hc. pose proof Hc as ((Hu & Hw) & Hnd & Hnames & Hm).
  assert (forall n c, c ∈ schema_columns e sch n -> plain_name c) as Hplain by (intros n c; by apply columns_of_plain).
  unfold JoinQueries.join_where. destruct conds as [|c conds].
  { exists t. split; [done|]. assert (List.filter (where_holds regex_search sch [] logic) ms = ms) as ->; [|done].
    apply List.forallb_filter_id, forallb_Forall, Forall_forall. done. }
  unfold wide in Hw. destruct (insert_if_ok (fun r => Where.rowMatches regex_search evalExprStr match_against formatNum dcount (tables e) t r (c :: conds) logic)
    (fun r => where_holds regex_search sch (c :: conds) logic (row_map (columns_ t) (values r))) (rows_ t) (table [] (columns_ t))) as (t' & E & Ec & Er);
    [|exact Hu|exact Hw|].
  { intros r Hr. rewrite Forall_forall in Hw.
    by apply (rowMatches_fits _ _ _ _ _ sch (join_tabs q) (schema_columns e sch) (columns_ t)); try done; apply Hw. }
  exists t'. split; [exact E|]. cbn [columns_ rows_ table app] in *. split_and!.
  - split; [by rewrite Ec|]. unfold wide. rewrite Ec, Er. by apply Forall_filter.
  - by rewrite Ec.
  - intros k. by rewrite Ec.
  - etrans; [|exact (Joins.filter_perm _ _ _ Hm)]. unfold maps. rewrite Ec, Er. apply reflexive_eq. generalize (rows_ t). clear. intros rows.
    induction rows as [|r rows IH]; [done|]. cbn [List.filter map]. destruct (where_holds _ _ _ _ _); cbn [map]; by rewrite IH.
Qed.

(** [C11] The text of a join is answered by what it means: over tables that operations
    can build, for every cost model, all statistics, every sorting routine and every
    advisor that does not use an index on a table with dead rows, a chain of INNER
    joins of different tables of a schema gives the combinations of one row of each
    table that satisfy every ON clause and the conditions, in the lexicographic order
    of ORDER BY, of each combination the chosen columns; the console prints the
    window of LIMIT and OFFSET.  It does not matter which of the two planners turns
    the chain round, and how.
    The text has no aliases, writes columns with their tables, and has conditions
    that compare columns with literals, with one connective between them; no table
    has dead rows (they would be joined, [Joins.dead_rows_join]) or a name that ends
    another's; the columns sorted by are uniform; and no plan is remembered for the
    tables: the first execution is meant, since a remembered plan is put to the
    wrong tables ([JoinOrder.cached_plan_misplaced]).  See [join_answerable];
    [aliases_change_tables] and [table_named_like_the_end] show what else happens. *)
Theorem join_text_answers q s e sch planCache_ :
  join_query_ok q = true -> one_conn (jq_where q) = true -> Lexes (join_tokens q) s -> route s = ToJoin -> undisturbed s = true ->
  map_Forall (fun _ t => Table.reachable t) (tables e) -> sorts sort -> advisor_ok (tables e) advisor ->
  join_answerable q e sch planCache_ ->
  says (jq_where q) (plain_clause (jq_where q)) /\
  exists t ms n m planCache', execute_join s planCache_ e = (Ok (Some (Printed t n m None)), planCache') /\
    ms ≡ₚ selected q e sch /\ StronglySorted (fun a b => ~ comes_before sch (jq_order q) b a) ms /\
    match jq_cols q with
    | [] => maps t = ms
    | cols => map values (rows_ t) = map (fun m => map (value_at sch m) cols) ms
    end /\
    shown_rows n m (rows_ t) = window (jq_limit q) (rows_ t).
Proof.
  intros Hq Ho Hs Hroute Hu Hr Hsort Hadv A. split; [by apply join_clause_says|].
  assert (map_Forall (fun _ t => Table.good t) (tables e)) as Hg by (intros n t Ht; by apply reachable_good, (Hr n)).
  destruct (plain_tables _ _ _ _ A) as (Hp & _ & _). pose proof (ja_schema _ _ _ _ A) as Hsch.
  destruct (run_joins_chain q e sch planCache_ Hr Hsort Hadv A) as (base & joins & t & cache' & Hals & Hrun & Ht).
  destruct (join_where_chain q e sch t _ (conditions q) (whereLogic (plain_clause (jq_where q))) Hsch Hp Hg (ja_conds _ _ _ _ A) Ht) as (t1 & E1 & Ht1).
  destruct (join_shape_chain q e sch base joins t1 _ Hg Hsch Hp (ja_apart _ _ _ _ A) Hq (proj1 (ja_no_alias _ _ _ _ A)) Hals (ja_cols _ _ _ _ A)
    (ja_order _ _ _ _ A) (ja_no_vector _ _ _ _ A) (ja_uniform _ _ _ _ A) Ht1) as (t2 & ms & E2 & Hms & Hsorted & Hval).
  exists t2, ms, (limits (jq_limit q)).1, (limits (jq_limit q)).2, cache'. split.
  2: { split_and!; [done..|]. apply window_limits. unfold join_query_ok in Hq. rewrite !andb_true_iff in Hq. tauto. }
  assert (parseJoinQuery s = Some (join_command q)) as Hparse by (by apply parse_join_tokens; [|apply Lexes_tokenizeFull]).
  unfold JoinQueries.execute_join. destruct (undisturbed_cut s Hu) as (-> & -> & ->). unfold parse_select. rewrite Hroute, Hparse.
  change (bytes_eqb [] []) with true. cbv iota.
  change (j_clause (join_command q)) with (plain_clause (jq_where q)). change (subqueries (plain_clause (jq_where q))) with ([] : list SubquerySpec).
  cbn [resolve_subqueries]. fold (conditions q). unfold dispatch_join. change (j_table (join_command q)) with (jq_table q).
  rewrite (ja_allowed _ _ _ _ A), Hrun, E1. cbn [fst mbind result_bind].
  change (j_count (join_command q)) with false. change (grouped (join_command q)) with false. cbv iota. rewrite E2. done.
Qed.
End answers.

(** ** Examples *)

Section examples.
#[local] Existing Instance IntDouble.
#[local] Existing Instance StableSort.

Abbreviation ex_join_text :=
  (execute_join no_regex no_func no_match print print int_count ex_ceil (ex_double 0) ex_huge ex_costs (fun _ => None) ex_advisor Joins.std_sort
     (fun _ t => Ok t) 1 5000 false).

Definition filled (cols : list string) (rows : list (list string)) : Table BTree :=
  let empty := table (str "t") (map (fun c => column (str c) (str "TEXT")) cols) in
  match insert_all empty (map (fun r => row_of (map str r)) rows) with Ok t => t | Throw _ => empty end.

Lemma insert_all_reachable rows (t t' : Table BTree) : Table.reachable t -> insert_all t rows = Ok t' -> Table.reachable t'.
Proof.
  revert t. induction rows as [|r rows IH]; intros t Ht; cbn [insert_all]; [by intros [= <-]|].
  destruct (insert_row t r) as [t1|] eqn:E; [|done]. apply IH. by apply (reach_step true t (OInsert r)).
Qed.

Definition towns : Table BTree :=
  filled ["id"; "name"; "land"] [["1"; "Rom"; "7"]; ["2"; "Bern"; "8"]; ["3"; "Pisa"; "7"]; ["4"; "Ulm"; "9"]].
Definition lands : Table BTree := filled ["id"; "name"] [["7"; "Italy"]; ["8"; "Swiss"]].
Definition trips : Table BTree := filled ["town"; "days"] [["1"; "3"]; ["3"; "10"]; ["2"; "9"]; ["1"; "4"]; ["4"; "30"]].

Definition ex_world (m : gmap bytes (Table BTree)) : Mutation.Engine := engine m ∅ ∅.
Definition world : Mutation.Engine :=
  ex_world {[str "public.town" := towns; str "public.land" := lands; str "public.trip" := trips]}.

Definition joined_console (s : string) (e : Mutation.Engine) : option (list (list bytes)) :=
  match (ex_join_text (str s) ∅ e).1 with Ok (Some (Printed t n m _)) => Some (map values (shown_rows n m (rows_ t))) | _ => None end.

Definition trip_query : JoinQuery :=
  mkJoinQuery [str "town.name"; str "land.name"; str "trip.days"] (str "trip") []
    [ex_join INNER "town" "trip.town" "town.id"; ex_join INNER "land" "town.land" "land.id"]
    [(true, CCmp (str "trip.days") (str ">") (str "3") [])] [(str "trip.days", true)] (Some (2%Z, None)).
Definition trip_text : string :=
  "SELECT town.name, land.name, trip.days FROM trip INNER JOIN town ON trip.town = town.id INNER JOIN land ON town.land = land.id WHERE trip.days > 3 ORDER BY trip.days DESC LIMIT 2".

Example trip_rows : joined_console trip_text world = Some [[str "Pisa"; str "Italy"; str "10"]; [str "Bern"; str "Swiss"; str "9"]].
Proof. vm_compute. reflexivity. Qed.

Lemma filled_reachable cols rows : NoDup (map str cols) -> Forall plain_name (map str cols) -> Table.reachable (filled cols rows).
Proof.
  intros Hn Hp. unfold filled. set (empty := table _ _).
  assert (Table.reachable empty) as He.
  { assert (names (columns_ empty) = map str cols) as En by (unfold names, empty; cbn [columns_ table]; by rewrite map_map).
    apply reach_new; change (names _) with (names (columns_ empty)); by rewrite En. }
  destruct (insert_all empty _) as [t|] eqn:E; [|done]. by eapply insert_all_reachable.
Qed.

Lemma world_tables (P : bytes -> Table BTree -> Prop) :
  P (str "public.town") towns -> P (str "public.land") lands -> P (str "public.trip") trips -> map_Forall P (tables world).
Proof.
  intros H1 H2 H3 n t Ht. change (tables world) with
    ({[str "public.town" := towns; str "public.land" := lands; str "public.trip" := trips]} : gmap bytes (Table BTree)) in Ht.
  rewrite !lookup_insert_Some, lookup_singleton_Some in Ht. by destruct Ht as [[<- <-]|[_ [[<- <-]|[_ [<- <-]]]]].
Qed.

Lemma world_reachable : map_Forall (fun _ t => Table.reachable t) (tables world).
Proof. apply world_tables; apply filled_reachable; by_decide. Qed.

Lemma trip_refers r n c : n ∈ join_tabs trip_query -> c ∈ schema_columns world (str "public") n -> r = qual n c ->
  refers (join_tabs trip_query) (schema_columns world (str "public")) r.
Proof. intros H1 H2 ->. by exists n, c. Qed.

Lemma trip_edge n l r c oc : let jc := mkJoin INNER (str n) (str l) (str r) in
  is_Some (tables world !! jc_table jc) -> is_Some (tables world !! other jc) ->
  c ∈ names (columns_of (tables world) (str n)) -> oc ∈ names (columns_of (tables world) (other jc)) ->
  on_sides jc = (qual (other jc) oc, qual (str n) c) -> edge (tables world) jc.
Proof. intros jc ? ? ? ? ?. split_and!; try done. by exists c, oc. Qed.

Lemma trip_answerable :
  join_answerable no_regex (fun _ => None) false trip_query world (str "public") ∅.
Proof.
  split.
  - vm_compute. reflexivity.
  - by_decide.
  - repeat constructor; try (vm_compute; reflexivity); by_decide.
  - intros a b Ha Hb. unfold join_tabs in *. cbn [map jq_table jq_joins trip_query clause ex_join jc_table] in *.
    rewrite !elem_of_cons, elem_of_nil in Ha, Hb. intros Hs.
    destruct_or! Ha; destruct_or! Hb; subst; try reflexivity; exfalso; revert Hs; by_decide.
  - repeat constructor; vm_compute; repeat constructor.
  - split; [reflexivity|repeat constructor].
  - split; [vm_compute; eauto|]. split; [|by_decide]. apply Forall_cons. split; [|apply Forall_singleton].
    + apply (trip_edge "public.town" "public.trip.town" "public.town.id" (str "id") (str "town")); [vm_compute; eauto|vm_compute; eauto|by_decide|by_decide|vm_compute; reflexivity].
    + apply (trip_edge "public.land" "public.town.land" "public.land.id" (str "id") (str "land")); [vm_compute; eauto|vm_compute; eauto|by_decide|by_decide|vm_compute; reflexivity].
  - split; [by_decide|split; [by_decide|exact I]].
  - apply Forall_singleton. eexists. split; [reflexivity|]. split_and!.
    + apply (trip_refers _ (str "trip") (str "days")); by_decide.
    + vm_compute. reflexivity.
    + vm_compute. reflexivity.
    + split; [by_decide|]. right. split; by_decide.
  - apply Forall_cons. split; [apply (trip_refers _ (str "town") (str "name")); by_decide|].
    apply Forall_cons. split; [apply (trip_refers _ (str "land") (str "name")); by_decide|].
    apply Forall_singleton. apply (trip_refers _ (str "trip") (str "days")); by_decide.
  - apply Forall_singleton. apply (trip_refers _ (str "trip") (str "days")); by_decide.
  - vm_compute. reflexivity.
  - apply Forall_singleton. left. intros m Hm.
    assert (forallb (fun m => match number (value_at (str "public") m (str "trip.days")) with Some d => negb (disnan d) | None => false end)
      (selected no_regex false trip_query world (str "public")) = true) as Hall by (vm_compute; reflexivity).
    rewrite forallb_Forall, Forall_forall in Hall. specialize (Hall m Hm). cbn [fst]. revert Hall.
    destruct (number _) as [d|]; [|done]. intros Hd%negb_true_iff. by exists d.
  - vm_compute. reflexivity.
Qed.

Lemma trip_lexes : Lexes (join_tokens trip_query) (str trip_text).
Proof.
  assert (lexable (str trip_text) = true) as Hl by (vm_compute; reflexivity).
  destruct (lexable_Lexes _ Hl) as [ts Hts]. rewrite <- (Lexes_tokenizeFull _ _ Hts) in Hts.
  assert (tokenizeFull (str trip_text) = join_tokens trip_query) as <- by (vm_compute; reflexivity). exact Hts.
Qed.

Lemma join_text_answers_witness :
  joined_console trip_text world = Some [[str "Pisa"; str "Italy"; str "10"]; [str "Bern"; str "Swiss"; str "9"]] /\
  exists t ms n m planCache', ex_join_text (str trip_text) ∅ world = (Ok (Some (Printed t n m None)), planCache') /\
    ms ≡ₚ selected no_regex false trip_query world (str "public") /\
    StronglySorted (fun a b => ~ comes_before (str "public") (jq_order trip_query) b a) ms /\
    map values (rows_ t) = map (fun m => map (value_at (str "public") m) (jq_cols trip_query)) ms /\
    shown_rows n m (rows_ t) = take 2 (rows_ t).
Proof.
  split; [vm_compute; reflexivity|].
  apply (join_text_answers no_regex no_func no_match print print int_count ex_ceil (ex_double 0) ex_huge ex_costs (fun _ => None) ex_advisor
    Joins.std_sort (fun _ t => Ok t) 1 5000 false trip_query (str trip_text) world (str "public") ∅);
    [vm_compute; reflexivity|vm_compute; reflexivity|exact trip_lexes|vm_compute; reflexivity|vm_compute; reflexivity|exact world_reachable|
     apply std_sort_sorts| |exact trip_answerable].
  intros n t col o r hasIdx Ht Ha. destruct hasIdx; [|discriminate Ha]. split; [reflexivity|]. clear Ha. revert n t Ht. apply world_tables; by_decide.
Defined.

(** The two planners turn this chain round: the same answer from the other end. *)
Example trip_rows_turned :
  joined_console "SELECT town.name, land.name, trip.days FROM land JOIN town ON town.land = land.id JOIN trip ON trip.town = town.id WHERE trip.days > 3 ORDER BY trip.days DESC LIMIT 2" world =
    joined_console trip_text world.
Proof. vm_compute. reflexivity. Qed.

(** *** Where the text means something else *)

(** If the joined table is the smaller one the tables change places, but not their
    aliases: each alias then names the other table. *)
Lemma aliases_change_tables :
  joined_console "SELECT a.name, b.name FROM town a JOIN land b ON a.land = b.id" world =
    Some [[str "Italy"; str "Rom"]; [str "Italy"; str "Pisa"]; [str "Swiss"; str "Bern"]] /\
  joined_console "SELECT town.name, land.name FROM town JOIN land ON town.land = land.id" world =
    Some [[str "Rom"; str "Italy"]; [str "Pisa"; str "Italy"]; [str "Bern"; str "Swiss"]].
Proof. vm_compute. split; reflexivity. Qed.

(** Aliases are not known to WHERE: in a schema the query fails, and without one
    the condition is put to the column of that name of the first table. *)
Lemma alias_in_where :
  (ex_join_text (str "SELECT a.name FROM land b JOIN town a ON a.land = b.id WHERE a.name = Rom") ∅ world).1 = Throw "Spalte nicht gefunden" /\
  joined_console "SELECT a.name FROM land b JOIN town a ON a.land = b.id WHERE a.name = Rom" (ex_world {[str "town" := towns; str "land" := lands]}) = Some [] /\
  joined_console "SELECT a.name FROM land b JOIN town a ON a.land = b.id WHERE a.name = Swiss" (ex_world {[str "town" := towns; str "land" := lands]}) =
    Some [[str "Bern"]].
Proof. vm_compute. split_and!; reflexivity. Qed.

(** WHERE compares a column with the name of another one, not with its value: a join
    written with a comma has no rows. *)
Lemma comma_join_is_empty :
  joined_console "SELECT town.name, land.name FROM town, land WHERE town.land = land.id" world = Some [] /\
  joined_console "SELECT town.name, land.name FROM town JOIN land ON town.land = land.id" world <> Some [].
Proof. vm_compute. by split. Qed.

(** A table whose name ends like the one that is asked for is taken for it. *)
Lemma table_named_like_the_end :
  joined_console "SELECT land.name FROM island JOIN land ON island.land = land.id"
    (ex_world {[str "public.land" := lands; str "public.island" := filled ["name"; "land"] [["Elba"; "7"]]]}) = Some [[str "Elba"]].
Proof. vm_compute. reflexivity. Qed.

(** A column that does not exist prints its name; one of another table is taken for it. *)
Lemma unknown_join_column :
  joined_console "SELECT town.mayor FROM town JOIN land ON town.land = land.id LIMIT 1" world = Some [[str "town.mayor"]] /\
  joined_console "SELECT land.land FROM town JOIN land ON town.land = land.id LIMIT 1" world = Some [[str "7"]].
Proof. vm_compute. split; reflexivity. Qed.

(** DISTINCT does not do anything on a join. *)
Lemma distinct_join :
  joined_console "SELECT DISTINCT land.name FROM town JOIN land ON town.land = land.id" world =
    Some [[str "Italy"]; [str "Italy"]; [str "Swiss"]].
Proof. vm_compute. reflexivity. Qed.

(** The clients of the wire protocols get all rows, whatever LIMIT says. *)
Lemma limit_over_wire :
  match (executeJoinToTable no_regex no_func no_match print print int_count ex_ceil (ex_double 0) ex_huge ex_costs (fun _ => None) ex_advisor
    Joins.std_sort (fun _ t => Ok t) 1 5000 (join_command trip_query) ∅ world).1 with
  | Ok (Some t) => length (rows_ t) = 3 /\ jq_limit trip_query = Some (2%Z, None)
  | _ => False
  end.
Proof. vm_compute. split; reflexivity. Qed.

Abbreviation ex_select_text :=
  (Queries.execute_select no_regex no_func no_match print int_count (fun _ _ => false) (fun _ _ _ => true) (fun _ t => Ok t) (fun _ t => Ok t)
     1 1 5000 3 false).

(** A user with these rights; the rows of [town] are protected. *)
Definition as_guest (rights : gmap bytes (gset bytes)) (e : Mutation.Engine) : Mutation.Engine :=
  Mutation.mkEngine (core e) (session e) (str "guest") {[str "guest" := rights]} ∅ ∅ {[str "public.town"]} ∅ ∅ ∅ ∅.

(** The right to read one table is enough to read another one by a join. *)
Lemma join_reads_without_right :
  let e := as_guest {[str "land" := {[SELECT]}]} world in
  (ex_select_text (str "SELECT name FROM town") e).1 = Throw "Keine Berechtigung" /\
  joined_console "SELECT town.name FROM land JOIN town ON town.land = land.id" e = Some [[str "Rom"]; [str "Pisa"]; [str "Bern"]].
Proof. vm_compute. split; reflexivity. Qed.

(** The policies that protect the rows of a table do not hold in a join. *)
Lemma join_ignores_policies :
  let e := as_guest {[str "land" := {[SELECT]}; str "town" := {[SELECT]}]} world in
  answer_rows (ex_select_text (str "SELECT name FROM town") e) = Some [] /\
  joined_console "SELECT town.name FROM town JOIN land ON town.land = land.id" e = Some [[str "Rom"]; [str "Pisa"]; [str "Bern"]].
Proof. vm_compute. split; reflexivity. Qed.
End examples.
